(* ===== verification/_CoqProject ===== *)
-Q . S2P
Prelude.v
Runes.v
RaftLog.v
RaftCore.v
RaftElection.v
RaftReplication.v
RaftApply.v
RaftNode.v
RaftCluster.v
RaftLogMatching.v
RaftSafety.v
RaftExpand.v
RaftCompaction.v
RaftRefine.v
RaftMemory.v
RaftShared.v
RaftSharedWitness.v
RaftWitness.v
KVRaft.v
Clerk.v
KVWitness.v
ShardConfig.v
ShardCtrler.v
ShardKV.v
ShardKVClerk.v
ShardWitness.v
ShardSystem.v
ShardTransfer.v
ShardOps.v
ShardRefine.v
ShardReplicas.v
ShardReplicasWitness.v
MapReduce.v
MapReduceJob.v
MapReduceWitness.v
PorcupineBitset.v
Porcupine.v
PorcupineSearch.v
PorcupineHistory.v
PorcupineCheck.v
PorcupineEvents.v
PorcupineKv.v
PorcupineVisual.v
KVLinearizable.v
PorcupineWitness.v
KVLinWitness.v
LabRPC.v
LabRPCWitness.v
LabGob.v
LabGobWitness.v
MRApps.v
MRAppsWitness.v
Harness.v
RaftHarness.v
RaftTester.v
HarnessWitness.v
KVHarness.v
KVTesters.v
ServiceHarnessWitness.v
ShardHarness.v
ShardHarnessWitness.v
