(* ===== verification/Prelude.v ===== *)
(** * Verification of the MIT 6.824 lab code

    The repository holds a MapReduce framework, a Raft library, a replicated
    key/value service on top of it, a shard controller, a sharded key/value
    service, the linearizability checker that judges the histories of their
    clients, and the simulated network and harnesses that test them.  Paths
    below are relative to the repository.

    ** The program and its model

    - MapReduce (src/mr, src/main/mrsequential.go).  A coordinator hands out
      map and reduce tasks over RPC; workers read and write files.
      [MapReduce]: the coordinator's handlers and recovery goroutines, the
      worker's two task functions over a store of files, the sequential
      program, and [job_step], the interleaving of all of them with slow and
      crashing workers.  [MapReduceJob]: a finished job has the output of
      the sequential program, and jobs whose map function gives its pairs in
      another order at every call.  [MRApps]: the applications wc, indexer, crash,
      nocrash and early_exit of src/mrapps.
    - Raft (src/raft).  A peer is a struct shared by goroutines under one
      mutex, so its state is the record [Raft] and every critical section is
      a function on it.  [RaftLog]: log.go.  [RaftCore]: persister.go, the
      struct, persistence, [Start], [Make].  [RaftElection]:
      leader_election.go.  [RaftReplication]: log_replication.go.
      [RaftApply]: applier.go and log_compaction.go.  [RaftNode]: one peer
      as a transition system whose steps are the critical sections of any
      goroutine, on arbitrary messages.  [RaftCluster]: the peers of a group
      with a network that loses, delays, reorders and duplicates messages,
      and with crashes; its requests carry the entries they were built with.
      [RaftLogMatching]: what the logs of a cluster have
      in common.  [RaftSafety]: what is committed stays committed.
      [RaftExpand]: a peer with a compacted log and the same peer with its
      whole log, critical section by critical section.  [RaftCompaction]:
      what holds of the logs in runs with snapshots.  [RaftRefine]: the
      cluster as one append-only log, which is what its services see.
      [RaftMemory]: log.go again, with slices over arrays that are written
      in place.  [RaftShared]: the cluster with the memory of its logs, in
      which the requests of a leader share the array of its log until a
      goroutine has encoded them; it relates the cluster above to the code.
    - Key/value service (src/kvraft).  [KVRaft]: server.go and common.go; a
      server submits requests to its Raft peer ([Start]), applies what
      arrives on [applyCh], and compacts the log ([Snapshot]).  [Clerk]:
      client.go, with the call loop that all clerks of one group share.
      [KVLinearizable]: clients, servers and the agreed log together.
    - Shard controller (src/shardctrler).  [ShardConfig]: common.go, the
      configurations and how shards are assigned.  [ShardCtrler]: server.go
      and client.go, a replicated history of configurations.
    - Sharded service (src/shardkv).  [ShardKV]: server.go and common.go, a
      replica of a group that serves the shards its configuration gives it
      and fetches shards from other groups.  [ShardKVClerk]: client.go.
      [ShardSystem]: all groups together with the controller's history, the
      goroutines of every migration as a step relation with one server per
      group, and one map as the abstract service.  [ShardTransfer] and
      [ShardOps]: what steps do to the owners and the data of shards.
      [ShardRefine]: the invariant that makes the service that map.
      [ShardReplicas]: groups of servers that lag, lead in turn and restart,
      and the runs of theirs that are runs of [ShardSystem].
    - Linearizability checker (src/porcupine, src/models/kv.go).
      [PorcupineBitset]: bitset.go.  [Porcupine]: model.go, checker.go and
      porcupine.go; the linked list lives in a heap, one pass of the search
      loop is a function on its variables.  [PorcupineSearch]: the search is
      right.  [PorcupineHistory] and [PorcupineEvents]: what that means for
      histories of operations and of events.  [PorcupineCheck]: the answers of
      the goroutines together.  [PorcupineKv]: models/kv.go, related to the
      store of [KVRaft].  [PorcupineVisual]: visualization.go up to the data
      of the page.
    - Simulated network (src/labrpc).  [LabRPC]: services and their dispatch,
      the network and its settings, client calls, and the goroutine of a
      request split where it pauses, interleaved with everything else.
    - Encoder (src/labgob).  [LabGob]: the walk over the types of what is
      encoded and over the values that are decoded into, around encoding/gob.
    - Test harnesses (config.go of raft, kvraft, shardctrler and shardkv), on
      the network of [LabRPC].  [Harness]: the tables of end names, the heap
      of persisters, the shuffle of handles.  [RaftHarness]: the tester of
      Raft, with the steps it can take while peers run and crashed instances
      live on.  [RaftTester]: its checks, against the cluster of
      [RaftCluster].  [KVHarness]: the tester of a replicated service,
      instantiated in [KVTesters] for kvraft and shardctrler.
      [ShardHarness]: controllers, groups and clerks.
    - [Runes]: what the sources use of Go's strings, unicode and utf8.
    - [RaftWitness], [RaftSharedWitness], [KVWitness], [ShardWitness], [MapReduceWitness],
      [PorcupineWitness], [KVLinWitness], [LabRPCWitness], [LabGobWitness],
      [MRAppsWitness], [HarnessWitness], [ServiceHarnessWitness],
      [ShardHarnessWitness], [ShardReplicasWitness]: every property with
      hypotheses at a concrete input.  [RaftSharedWitness] and
      [ShardReplicasWitness] execute whole runs, also the two runs in which
      Raft and the sharded service go wrong.

    This file has what they share: the result monad [Res] ([Panic] is a Go
    panic, a failed assertion, an index out of range or [log.Fatalf]), slices
    indexed by Go's signed int, [foldM] for loops, [sort_Ints], the 64-bit
    wrap-around [wrap64], the class [Gob] of the encoder with the law [GobOk]
    that decoding inverts encoding (encoding/gob is not part of the
    repository), and the tactics and hint database [go].

    ** How effects are modelled

    A handler that waits on a condition variable is split at the wait
    ([operate_start], then the reply computed from the state at the time the
    wait is over); a goroutine that releases the mutex is split at the
    release.  Clock readings, random numbers and what channels deliver are
    arguments.  Ranging over a Go map follows [map_to_list]; where the order
    could matter the code sorts, and [sorted_keys_any_order] says that any
    other order gives the same keys; the indexer's Map takes the order of
    each call as an argument.  Terms, log indices and sequence numbers
    of servers are unbounded integers; the clerks' counters wrap at 64 bits.
    Maps and slices that are passed around are values, which is right where
    the sources copy them ([Clone], [clone], [setStore], [putShards]) or
    replace instead of writing (the maps of shards that [getShards] puts into
    its reply belong to shards that the group does not serve, which are not
    written but replaced).  It is wrong for the log of Raft, whose array
    requests share and [place] overwrites: [RaftMemory] and [RaftShared] have
    the arrays and the sharing.

    ** What is proved

    - Raft: at most one leader per term, over every run of a cluster.  Log
      matching, leader completeness, state machine safety (no two peers
      deliver different commands at an index) and the refinement of one
      append-only log of submitted commands hold in [orderly] runs, with
      compaction and snapshots: a peer that accepts an AppendEntries has
      encoded the requests it built as a leader, services take snapshots only
      of what they were handed, and no snapshot meets a longer log that
      disagrees with it.  Each condition stands for a defect of the code or
      for what services do: without the first one [shared_log_unsafe] is a
      run in which two peers deliver different commands, and the last one is
      a defect of InstallSnapshot.  In all runs: the slice of the log shows
      in memory what the handlers work with; every
      critical section keeps the peer's invariant, in particular that the
      persister holds what the peer works with, so a restart loses neither
      term nor vote nor log; the service receives commands without gaps or
      repetition; the exact behaviour of both vote and log handlers on every
      branch, of the commit rule, of the leader's broadcast and of moving nextIndex back;
      and two defects of InstallSnapshot.
    - Key/value service: every request takes effect exactly once although
      clients retransmit (refinement of an abstract map); replicas that
      receive commands and snapshots in any mixture agree with the log; the
      applier never panics; what a Get may return; clerks find the leader;
      and the whole service is linearizable, for clients that send one
      request at a time and an agreed log that only grows (which is what
      [raft_refines_log] gives), so the checker never rejects its histories.
    - Shard controller: joining, leaving and the first assignment neither
      panic nor loop, keep configurations valid and balanced and move only
      what they must; the history is append-only and gets exactly the
      configuration that a new request asks for (a Move may leave it
      unbalanced); retransmissions add nothing; and the two inputs on which the applier panics or hangs.
    - Sharded service: in [steady] runs all groups together are one map on
      which every write takes effect at most once, and no shard has two owners
      at a time, for every interleaving of clients, migrations, late and
      repeated requests, lagging and restarted servers and new configurations.
      Steady: in every group one server, which is not restarted, polls the
      controller and answers migrations, and no configuration takes a shard
      from a group without giving it to another one.  [two_owners] is a run
      with a change of the leader in which two groups serve a shard with
      different contents.  Further: writes
      on every branch, no panics, snapshots, what a migration fetches; that
      deletion depends on unreplicated state; and what a clerk's Get returns,
      or does not return.
    - MapReduce: the task protocol, that no worker fails for a missing file,
      that a job's output is the sequential program's, and that wc and indexer
      count words and list documents, the latter in whatever order each call
      ranges over its map.

    - Linearizability checker: the search ends, never follows nil, and
      answers whether a history is linearizable; cutting a history by key is
      right, so the check of the tests answers whether the clients saw the
      store of the server; the visualization never panics on what the checker
      reports; bit sets are sets.
    - Simulated network: a request reaches its handler at most once and gets
      exactly one reply, which is a failure or what the handler of the server
      it was sent to returned to it; none hangs, since a dead server ends the
      wait; a reliable network loses nothing; a deleted server gives no positive answer, and arguments and results come
      through unchanged.
    - Encoder: a type with a hidden field makes the first Encode panic,
      whatever cycles the types have, and is not checked again afterwards; what
      decoding counts and reports.
    - Harnesses: who can talk to whom after any sequence of connects, crashes
      and starts; that a restart gets the state persisted last although old
      instances go on writing; what the appliers accept, and that they accept
      every orderly run of the cluster without compaction; that checkOneLeader never
      meets two leaders; what an agreement is; partitions and which sides are
      picked; restarts and new testers of the services; how a configuration
      leads to a server; and defects of the harnesses.

    Fuel occurs in five places.  [ResetShards] counts passes of its outer
    loop, [NShards] of them are enough as soon as there is a group, and
    without one no number is; [reduce_loop] gets the number of pairs, which
    is enough; the length of the checker's list gets the number of nodes, and
    its search [search_cost] passes, which are proved to be enough; the walk of
    [checkType] gets [walk_fuel], one more than there are types, which is
    proved to be enough.  The loop that moves nextIndex back is structural on a slot
    number and the loop that counts votes on the replies.

    ** What is not modelled

    Debug output, the HTML page of the visualization, the statistics and time
    limits of the harnesses, the plugins jobcount, mtiming and rtiming (they
    look at directories and processes), and the mains.  [RaftCluster] has its own
    network, which may lose, delay, reorder and duplicate and so allows more
    than [LabRPC] does.  In [RaftShared] the encoder reads a slot of the log
    in one step; the Go memory model promises less for reads that race with
    writes.  In [ShardReplicas] the log of a group is agreed, which is the
    subject of the theorems on Raft, and is not compacted.  The services and the Raft
    cluster are separate models that meet in the agreed log, they are not
    composed into one transition system.  Progress (that a leader is elected
    and commands are committed in time) depends on the clock and the scheduler
    and is not stated. *)

From stdpp Require Import base list sets gmap strings sorting.
From Stdlib Require Import ZArith Lia.
From Stdlib.Strings Require Byte.

(** ** Outcomes of Go code that may panic

    A call either returns a value or panics ([panic], a failed [Assert], an
    index or slice expression out of range, [log.Fatalf]).  The monad is
    used through stdpp's [x ← c; k] notation. *)

Declare Scope go_scope.
Delimit Scope go_scope with go.

Inductive Res (A : Type) : Type :=
| Ok (a : A)
| Panic.
Arguments Ok {A} a.
Arguments Panic {A}.

Global Instance Res_ret : MRet Res := λ A a, Ok a.
Global Instance Res_bind : MBind Res := λ A B k m,
  match m with Ok a => k a | Panic => Panic end.
Global Instance Res_fmap : FMap Res := λ A B f m,
  match m with Ok a => Ok (f a) | Panic => Panic end.

(** [Assert(cond, ...)] of util.go: panics unless the condition holds. *)
Definition Assert (expect : bool) : Res unit :=
  if expect then Ok tt else Panic.

(** Whether a computation returns. *)
Definition returns {A} (m : Res A) : Prop := ∃ a, m = Ok a.

(** ** Slices, indexed by Go's signed [int] *)

Definition zlen {A} (l : list A) : Z := Z.of_nat (length l).

(** [l[i]] *)
Definition idx {A} (l : list A) (i : Z) : Res A :=
  if bool_decide (0 ≤ i)%Z then
    match l !! Z.to_nat i with Some x => Ok x | None => Panic end
  else Panic.

(** [l[i] = x] *)
Definition upd {A} (l : list A) (i : Z) (x : A) : Res (list A) :=
  if bool_decide (0 ≤ i < zlen l)%Z then Ok (<[Z.to_nat i := x]> l) else Panic.

(** [l[i:]] *)
Definition slice_from {A} (l : list A) (i : Z) : Res (list A) :=
  if bool_decide (0 ≤ i ≤ zlen l)%Z then Ok (drop (Z.to_nat i) l) else Panic.

(** [l[:i]], for a bound within the length (Go also accepts a bound between
    the length and the capacity; no call of the sources does that). *)
Definition slice_to {A} (l : list A) (i : Z) : Res (list A) :=
  if bool_decide (0 ≤ i ≤ zlen l)%Z then Ok (take (Z.to_nat i) l) else Panic.

(** A loop over a slice whose body may panic. *)
Fixpoint foldM {A B} (f : B → A → Res B) (b : B) (l : list A) : Res B :=
  match l with
  | [] => Ok b
  | x :: l => b ← f b x; foldM f b l
  end.

(** [sort.Ints]: the sorted permutation of its argument, which is unique. *)
Definition sort_Ints (l : list Z) : list Z := merge_sort Z.le l.

(** ** Fixed-width integers *)

(** Two's complement wrap-around of a 64-bit signed integer. *)
Definition wrap64 (x : Z) : Z :=
  ((x + 2 ^ 63) mod 2 ^ 64 - 2 ^ 63)%Z.

(** ** Encoders

    Go's [encoding/gob] is not part of the repository (its wrapper labgob is
    [LabGob]): it is a parameter of the model, one [Gob] instance per encoded type.
    [GobOk] states what the code relies on: decoding what was encoded gives
    the value back, and an encoding has at least one byte. *)

Abbreviation bytes := (list Byte.byte).

Class Gob (A : Type) := {
  gob_encode : A → bytes;
  gob_decode : bytes → option A;
}.

Class GobOk (A : Type) `{Gob A} : Prop := {
  gob_roundtrip : ∀ x : A, gob_decode (gob_encode x) = Some x;
  gob_nonempty : ∀ x : A, gob_encode x ≠ [];
}.

(** A concrete encoder for any countable type, the instance the witnesses
    use: the binary digits of the number of the value, one per byte. *)
Fixpoint pos_to_bytes (p : positive) : bytes :=
  match p with
  | xH => [Byte.x02]
  | xO p => Byte.x00 :: pos_to_bytes p
  | xI p => Byte.x01 :: pos_to_bytes p
  end.

Fixpoint pos_of_bytes (b : bytes) : option positive :=
  match b with
  | Byte.x02 :: _ => Some xH
  | Byte.x00 :: b => xO <$> pos_of_bytes b
  | Byte.x01 :: b => xI <$> pos_of_bytes b
  | _ => None
  end.

Definition countable_gob (A : Type) `{Countable A} : Gob A := {|
  gob_encode x := pos_to_bytes (encode x);
  gob_decode b := p ← pos_of_bytes b; decode p;
|}.

(** ** Tactics *)

(** Split every [bool_decide], [if] and [match] of the goal and hypotheses
    that blocks a computation. *)
Ltac case_bool :=
  repeat (case_bool_decide || case_match); simplify_eq/=.

(** [field_update e x v]: the record term [e] with its field [x] replaced by
    [v]; used to define the field assignments of a struct. *)
Ltac field_update e x v :=
  let p := eval pattern x in e in
  lazymatch p with ?f _ => let r := eval cbv beta in (f v) in exact r end.

(** Invert a successful run of monadic code. *)
Ltac res_inv :=
  repeat match goal with
  | H : mbind _ ?m = Ok _ |- _ =>
      let x := fresh "x" in let E := fresh "E" in
      destruct m as [x|] eqn:E; [simpl in H | discriminate H]
  | H : fmap _ ?m = Ok _ |- _ =>
      let x := fresh "x" in let E := fresh "E" in
      destruct m as [x|] eqn:E; [simpl in H | discriminate H]
  | H : Ok _ = Ok _ |- _ => injection H; clear H; intros; subst
  | H : mret _ = Ok _ |- _ => injection H; clear H; intros; subst
  | H : Panic = Ok _ |- _ => discriminate H
  | H : Assert ?b = Ok _ |- _ =>
      destruct b eqn:?; [clear H | discriminate H]
  end.

(** Run the monad without unfolding the operations. *)
Ltac res_simpl := cbn [mbind Res_bind fmap Res_fmap mret Res_ret] in *.

Create HintDb go.

(** ** Lemmas on slices *)

Lemma zlen_nonneg {A} (l : list A) : (0 ≤ zlen l)%Z.
Proof. unfold zlen. lia. Qed.

Lemma zlen_app {A} (l k : list A) : zlen (l ++ k) = (zlen l + zlen k)%Z.
Proof. unfold zlen. rewrite length_app. lia. Qed.

Lemma zlen_cons {A} (x : A) (l : list A) : zlen (x :: l) = (1 + zlen l)%Z.
Proof. unfold zlen. simpl. lia. Qed.

Lemma zlen_nil {A} : zlen (@nil A) = 0%Z.
Proof. reflexivity. Qed.

Lemma idx_Ok {A} (l : list A) (i : Z) x :
  idx l i = Ok x ↔ (0 ≤ i)%Z ∧ l !! Z.to_nat i = Some x.
Proof. unfold idx. case_bool; naive_solver lia. Qed.

Lemma idx_returns {A} (l : list A) (i : Z) :
  (0 ≤ i < zlen l)%Z → ∃ x, idx l i = Ok x ∧ l !! Z.to_nat i = Some x.
Proof.
  unfold idx, zlen. intros [? ?].
  destruct (lookup_lt_is_Some_2 l (Z.to_nat i)) as [x Hx]; [lia|].
  exists x. rewrite bool_decide_true by lia. by rewrite Hx.
Qed.

Lemma idx_range {A} (l : list A) (i : Z) x : idx l i = Ok x → (0 ≤ i < zlen l)%Z.
Proof.
  intros [? ?%lookup_lt_Some]%idx_Ok. unfold zlen. lia.
Qed.

Lemma upd_Ok {A} (l l' : list A) (i : Z) x :
  upd l i x = Ok l' ↔ (0 ≤ i < zlen l)%Z ∧ l' = <[Z.to_nat i := x]> l.
Proof. unfold upd. case_bool; naive_solver. Qed.

Lemma upd_in {A} (l : list A) (i : Z) x :
  (0 ≤ i < zlen l)%Z → upd l i x = Ok (<[Z.to_nat i := x]> l).
Proof. intros ?. by apply upd_Ok. Qed.

Lemma slice_from_Ok {A} (l l' : list A) (i : Z) :
  slice_from l i = Ok l' ↔ (0 ≤ i ≤ zlen l)%Z ∧ l' = drop (Z.to_nat i) l.
Proof. unfold slice_from. case_bool; naive_solver. Qed.

Lemma slice_to_Ok {A} (l l' : list A) (i : Z) :
  slice_to l i = Ok l' ↔ (0 ≤ i ≤ zlen l)%Z ∧ l' = take (Z.to_nat i) l.
Proof. unfold slice_to. case_bool; naive_solver. Qed.

Lemma zlen_insert {A} (l : list A) i x : zlen (<[i:=x]> l) = zlen l.
Proof. unfold zlen. by rewrite length_insert. Qed.

Lemma foldM_app {A B} (f : B → A → Res B) b l k :
  foldM f b (l ++ k) = (b' ← foldM f b l; foldM f b' k).
Proof.
  revert b. induction l as [|x l IH]; intros b; [done|]. simpl. destruct (f b x); simpl; [apply IH|done].
Qed.

(** Each iteration of the loop returns and keeps the invariant. *)
Lemma foldM_inv {A B} (f : B → A → Res B) (P : B → Prop) (l : list A) b :
  P b → (∀ b x, x ∈ l → P b → ∃ b', f b x = Ok b' ∧ P b') → ∃ b', foldM f b l = Ok b' ∧ P b'.
Proof.
  revert b. induction l as [|x l IH]; intros b Hb Hf; [by exists b|].
  destruct (Hf b x) as (b1 & Hb1 & HP); [left|done|]. simpl. rewrite Hb1. simpl.
  apply IH; [done|]. intros b2 y Hy. apply Hf. by right.
Qed.

(** Copying a map key by key. *)
Lemma map_fold_insert_id {A} (m : gmap Z A) : map_fold (λ i x m', <[i := x]> m') ∅ m = m.
Proof.
  apply (map_fold_weak_ind (λ r m, r = m)); [done|]. intros i x m' r _ ->. done.
Qed.

(** ** Transition systems *)

(** An invariant of the steps holds in every reachable state. *)
Lemma rtc_preserve {A} (R : relation A) (P : A → Prop) :
  (∀ x y, P x → R x y → P y) → ∀ x y, P x → rtc R x y → P y.
Proof. intros Hinv x y Hx Hr. induction Hr; eauto. Qed.

(** ** Sorting *)

Lemma sort_Ints_perm l : sort_Ints l ≡ₚ l.
Proof. apply merge_sort_Permutation. Qed.

Lemma sort_Ints_sorted l : StronglySorted Z.le (sort_Ints l).
Proof. apply (StronglySorted_merge_sort Z.le). Qed.

Lemma sort_Ints_length l : length (sort_Ints l) = length l.
Proof. by rewrite sort_Ints_perm. Qed.

(** The sorted list depends on the elements only: sorting the keys of a map
    makes a traversal independent of Go's random iteration order. *)
Lemma sort_Ints_ext l k : l ≡ₚ k → sort_Ints l = sort_Ints k.
Proof.
  intros Hp. eapply (StronglySorted_unique Z.le);
    [apply sort_Ints_sorted..|]. by rewrite !sort_Ints_perm.
Qed.

Lemma list_filter_all {A} (P : A → Prop) `{∀ x, Decision (P x)} (l : list A) :
  (∀ x, x ∈ l → P x) → filter P l = l.
Proof.
  induction l as [|x l IH]; intros Hl; [done|].
  rewrite filter_cons, decide_True by (apply Hl; left). f_equal. apply IH. set_solver.
Qed.

Lemma list_filter_none {A} (P : A → Prop) `{∀ x, Decision (P x)} (l : list A) :
  (∀ x, x ∈ l → ¬ P x) → filter P l = [].
Proof.
  induction l as [|x l IH]; intros Hl; [done|].
  rewrite filter_cons, decide_False by (apply Hl; left). apply IH. set_solver.
Qed.

Lemma Forall2_impl_in {A B} (P Q : A → B → Prop) l k :
  Forall2 P l k → (∀ x y, x ∈ l → P x y → Q x y) → Forall2 Q l k.
Proof.
  induction 1 as [|x y l k Hxy _ IH]; intros HPQ; constructor; [by apply HPQ; [left|]|].
  apply IH. intros x' y' Hx'. apply HPQ. by right.
Qed.

(** How many elements are equal to [x]. *)
Definition count_eq (x : Z) (l : list Z) : nat := length (filter (λ y, y = x) l).

Lemma count_eq_cons x y l : count_eq x (y :: l) = (if decide (y = x) then 1 else 0) + count_eq x l.
Proof. unfold count_eq. rewrite filter_cons. by destruct (decide (y = x)). Qed.

Lemma count_eq_app x l k : count_eq x (l ++ k) = count_eq x l + count_eq x k.
Proof. unfold count_eq. by rewrite filter_app, length_app. Qed.

Lemma count_eq_insert x y z (l : list Z) i :
  l !! i = Some y →
  count_eq x (<[i := z]> l) + (if decide (y = x) then 1 else 0) =
  count_eq x l + (if decide (z = x) then 1 else 0).
Proof.
  intros Hl. pose proof (lookup_lt_Some _ _ _ Hl).
  rewrite insert_take_drop by done. rewrite <-(take_drop_middle l i y Hl) at 3.
  rewrite !count_eq_app, !count_eq_cons. lia.
Qed.

Lemma count_eq_zero x l : count_eq x l = 0 ↔ x ∉ l.
Proof.
  induction l as [|y l IH]; [split; [by intros _ ?%elem_of_nil|done]|]. rewrite count_eq_cons, elem_of_cons.
  case_decide; [naive_solver lia|]. rewrite Nat.add_0_l, IH. naive_solver.
Qed.

Lemma count_eq_two x y l : x ≠ y → count_eq x l + count_eq y l ≤ length l.
Proof.
  intros Hne. induction l as [|z l IH]; [done|]. rewrite !count_eq_cons. simpl.
  repeat case_decide; (lia || congruence).
Qed.

Lemma count_eq_length x l : count_eq x l = length l → ∀ y, y ∈ l → y = x.
Proof.
  intros Hc y Hy. destruct (decide (y = x)) as [|Hne]; [done|].
  pose proof (count_eq_two x y l ltac:(done)). pose proof (count_eq_zero y l) as Hz.
  destruct (decide (count_eq y l = 0)) as [H0|]; [|lia]. by apply Hz in H0.
Qed.

(** How many elements are at least [x]. *)
Definition count_ge (x : Z) (l : list Z) : Z := zlen (filter (λ y, (x ≤ y)%Z) l).

Lemma count_ge_perm x l k : l ≡ₚ k → count_ge x l = count_ge x k.
Proof. intros Hp. unfold count_ge, zlen. by rewrite Hp. Qed.

(** The positions of those elements. *)
Lemma count_ge_positions x (l : list Z) :
  ∃ Q : list Z, NoDup Q ∧ zlen Q = count_ge x l ∧
    ∀ p, p ∈ Q → (0 ≤ p < zlen l)%Z ∧ ∃ y, l !! Z.to_nat p = Some y ∧ (x ≤ y)%Z.
Proof.
  induction l as [|z l (Q & Hnd & Hlen & HQ)] using rev_ind.
  { exists []. split_and!; [constructor|done|by intros ? ?%elem_of_nil]. }
  assert (Hold : ∀ p, p ∈ Q → (0 ≤ p < zlen (l ++ [z]))%Z ∧ ∃ y, (l ++ [z]) !! Z.to_nat p = Some y ∧ (x ≤ y)%Z).
  { intros p Hp. destruct (HQ p Hp) as [? (y & Hy & ?)]. rewrite zlen_app. unfold zlen at 2. simpl. split; [lia|].
    exists y. split; [by apply lookup_app_l_Some|done]. }
  unfold count_ge in *. rewrite filter_app, zlen_app, filter_cons. case_decide.
  - exists (zlen l :: Q). split_and!.
    + constructor; [|done]. intros Hin. destruct (HQ _ Hin). lia.
    + rewrite zlen_cons, Hlen. unfold zlen at 3. simpl. lia.
    + intros p [->|Hp]%elem_of_cons; [|by apply Hold]. rewrite zlen_app. unfold zlen. simpl.
      split; [lia|]. exists z. split; [|done]. rewrite Nat2Z.id. by apply list_lookup_middle.
  - exists Q. split_and!; [done| |done]. rewrite Hlen. unfold zlen at 3. simpl. lia.
Qed.

Lemma sorted_split (l : list Z) p x :
  StronglySorted Z.le l → l !! p = Some x →
  (∀ y, y ∈ take p l → (y ≤ x)%Z) ∧ (∀ y, y ∈ drop (S p) l → (x ≤ y)%Z).
Proof.
  intros Hs Hx. rewrite <-(take_drop_middle l p x Hx) in Hs.
  split; intros y Hy.
  - eapply (StronglySorted_app_1_elem_of Z.le (take p l)); [done..|left].
  - eapply (StronglySorted_app_1_elem_of Z.le (take p l ++ [x])); [|set_solver|exact Hy].
    by rewrite <-app_assoc.
Qed.

(** In a sorted list, the element at position [p] has at least [n - p]
    elements that are not smaller, and at most [n - p - 1] that are larger. *)
Lemma sorted_count_ge (l : list Z) p x :
  StronglySorted Z.le l → l !! p = Some x →
  (zlen l - Z.of_nat p ≤ count_ge x l)%Z ∧
  (∀ y, (x < y)%Z → (count_ge y l ≤ zlen l - Z.of_nat p - 1)%Z).
Proof.
  intros Hs Hx. destruct (sorted_split l p x Hs Hx) as [Hlo Hhi].
  pose proof (lookup_lt_Some _ _ _ Hx) as Hlt. split.
  - unfold count_ge. rewrite <-(take_drop_middle l p x Hx) at 2.
    rewrite filter_app, zlen_app, (list_filter_all _ (x :: drop (S p) l)).
    + rewrite zlen_cons. unfold zlen. rewrite length_drop. lia.
    + intros y [->|Hy]%elem_of_cons; [lia|]. by apply Hhi.
  - intros y Hy. unfold count_ge. rewrite <-(take_drop_middle l p x Hx) at 1.
    rewrite filter_app, zlen_app, filter_cons, decide_False by lia.
    rewrite list_filter_none.
    + rewrite zlen_nil. unfold zlen. pose proof (length_filter (λ y0 : Z, (y <= y0)%Z) (drop (S p) l)) as Hf.
      rewrite length_drop in Hf. lia.
    + intros z Hz%Hlo. lia.
Qed.

Lemma wrap64_id x : (- 2 ^ 63 ≤ x < 2 ^ 63)%Z → wrap64 x = x.
Proof. intros ?. unfold wrap64. rewrite Z.mod_small; lia. Qed.

Lemma wrap64_bounds x : (- 2 ^ 63 ≤ wrap64 x < 2 ^ 63)%Z.
Proof. unfold wrap64. pose proof (Z.mod_pos_bound (x + 2 ^ 63) (2 ^ 64)). lia. Qed.

(** ** The concrete encoder meets the contract *)

Lemma pos_of_to_bytes p : pos_of_bytes (pos_to_bytes p) = Some p.
Proof. induction p as [p IH|p IH|]; simpl; [by rewrite IH..|done]. Qed.

Lemma countable_gob_ok (A : Type) `{Countable A} : @GobOk A (countable_gob A).
Proof.
  split; intros x; simpl.
  - rewrite pos_of_to_bytes. simpl. apply decode_encode.
  - by destruct (encode x).
Qed.

#[export] Hint Rewrite @zlen_app @zlen_cons @zlen_nil @zlen_insert : go.
#[export] Hint Resolve zlen_nonneg sort_Ints_sorted sort_Ints_perm : go.
