(* ===== verification/Runes.v ===== *)
(** * Text as Go sees it: UTF-8, character classes, fields

    The part of Go's standard library that [labgob] and the MapReduce
    applications rely on: [utf8.DecodeRuneInString] with its rejection of
    overlong, surrogate and truncated sequences, ranging over a string,
    [unicode.IsUpper] and [unicode.IsLetter], [strings.FieldsFunc],
    [strings.Join] and [strconv.Itoa].  Strings
    are byte strings.  The character classes are exact for Latin-1; beyond it
    Go looks runes up in tables generated from the Unicode database, which are
    the class [Unicode]. *)

From stdpp Require Import base list strings pretty.
From Stdlib Require Import ZArith Lia Ascii.
From S2P Require Import Prelude.

Class Unicode := {
  Upper_table : Z → bool;
  Letter_table : Z → bool;
}.

Definition between (lo hi x : Z) : bool := ((lo <=? x) && (x <=? hi))%Z.

(** Latin-1 comes from an array of properties, the rest from the tables. *)
Definition IsUpper `{Unicode} (r : Z) : bool :=
  if (r <=? 255)%Z then between 65 90 r || between 192 214 r || between 216 222 r
  else Upper_table r.

Definition IsLetter `{Unicode} (r : Z) : bool :=
  if (r <=? 255)%Z then
    between 65 90 r || between 97 122 r || (r =? 170)%Z || (r =? 181)%Z || (r =? 186)%Z
    || between 192 214 r || between 216 246 r || between 248 255 r
  else Letter_table r.

Definition RuneError : Z := 65533.

Definition byte_at (a : ascii) : Z := Z.of_N (N_of_ascii a).

(** What a first byte says: the length of the sequence and the range of the
    second byte. *)
Definition first_byte (b : Z) : option (nat * Z * Z) :=
  if between 194 223 b then Some (2%nat, 128, 191)%Z
  else if (b =? 224)%Z then Some (3%nat, 160, 191)%Z
  else if (b =? 237)%Z then Some (3%nat, 128, 159)%Z
  else if between 225 239 b then Some (3%nat, 128, 191)%Z
  else if (b =? 240)%Z then Some (4%nat, 144, 191)%Z
  else if between 241 243 b then Some (4%nat, 128, 191)%Z
  else if (b =? 244)%Z then Some (4%nat, 128, 143)%Z
  else None.

Definition low6 (b : Z) : Z := Z.land b 63.

(** [utf8.DecodeRuneInString]: the first rune and its width. *)
Definition DecodeRuneInString (s : string) : Z * nat :=
  match s with
  | EmptyString => (RuneError, 0)
  | String a0 s1 =>
      let b0 := byte_at a0 in
      if (b0 <? 128)%Z then (b0, 1) else
      match first_byte b0, s1 with
      | Some (sz, lo, hi), String a1 s2 =>
          let b1 := byte_at a1 in
          if negb (between lo hi b1) then (RuneError, 1) else
          if bool_decide (sz = 2) then (Z.lor (Z.shiftl (Z.land b0 31) 6) (low6 b1), 2) else
          match s2 with
          | EmptyString => (RuneError, 1)
          | String a2 s3 =>
              let b2 := byte_at a2 in
              if negb (between 128 191 b2) then (RuneError, 1) else
              if bool_decide (sz = 3) then
                (Z.lor (Z.shiftl (Z.land b0 15) 12) (Z.lor (Z.shiftl (low6 b1) 6) (low6 b2)), 3)
              else
              match s3 with
              | EmptyString => (RuneError, 1)
              | String a3 _ =>
                  let b3 := byte_at a3 in
                  if negb (between 128 191 b3) then (RuneError, 1) else
                  (Z.lor (Z.shiftl (Z.land b0 7) 18) (Z.lor (Z.shiftl (low6 b1) 12)
                     (Z.lor (Z.shiftl (low6 b2) 6) (low6 b3))), 4)
              end
          end
      | _, _ => (RuneError, 1)
      end
  end.

(** [for i, r := range s]: the runes of a string, each with its bytes.  The
    first argument counts the bytes that belong to the rune before. *)
Fixpoint range_from (skip : nat) (s : string) : list (Z * string) :=
  match s, skip with
  | EmptyString, _ => []
  | String _ s', S k => range_from k s'
  | String _ s', O =>
      let '(r, n) := DecodeRuneInString s in (r, String.substring 0 n s) :: range_from (pred n) s'
  end.

Definition runes (s : string) : list (Z * string) := range_from 0 s.

(** The loop of [strings.FieldsFunc]; [cur] is the field that has begun. *)
Fixpoint fields_from (sep : Z → bool) (cur : option string) (l : list (Z * string)) : list string :=
  match l with
  | [] => option_list cur
  | (r, c) :: l =>
      if sep r then option_list cur ++ fields_from sep None l
      else fields_from sep (Some (String.append (default EmptyString cur) c)) l
  end.

Definition FieldsFunc (sep : Z → bool) (s : string) : list string := fields_from sep None (runes s).

(** [strings.Join] *)
Fixpoint Join (l : list string) (sep : string) : string :=
  match l with
  | [] => EmptyString
  | [x] => x
  | x :: l => String.append x (String.append sep (Join l sep))
  end.

(** [strconv.Itoa] *)
Definition Itoa (z : Z) : string := pretty z.

(** ** What they promise *)

Lemma DecodeRune_width s : s ≠ EmptyString → 1 ≤ (DecodeRuneInString s).2 ≤ String.length s.
Proof.
  destruct s as [|a0 s1]; [done|]. intros _. cbn [DecodeRuneInString String.length].
  repeat case_match; simplify_eq/=; lia.
Qed.

Lemma append_nonempty a b : b ≠ EmptyString → String.append a b ≠ EmptyString.
Proof. destruct a; [done|]. simpl. done. Qed.

Lemma range_from_chunks k s r c : (r, c) ∈ range_from k s → c ≠ EmptyString.
Proof.
  revert k. induction s as [|a s IH]; intros k; [by intros ?%elem_of_nil|].
  destruct k as [|k]; [|apply IH]. cbn [range_from].
  pose proof (DecodeRune_width (String a s)) as Hw.
  destruct (DecodeRuneInString (String a s)) as [r' n]. rewrite elem_of_cons.
  intros [[= -> ->]|Hin]; [|by eapply IH]. destruct n; [|done]. specialize (Hw ltac:(done)). simpl in Hw. lia.
Qed.

(** No field is empty. *)
Lemma fields_from_nonempty sep cur l w :
  (∀ r c, (r, c) ∈ l → c ≠ EmptyString) → cur ≠ Some EmptyString →
  w ∈ fields_from sep cur l → w ≠ EmptyString.
Proof.
  revert cur. induction l as [|[r c] l IH]; intros cur Hl Hcur; cbn [fields_from].
  { destruct cur; simpl; [|by intros ?%elem_of_nil]. intros ->%list_elem_of_singleton. naive_solver. }
  assert (Hl' : ∀ r c, (r, c) ∈ l → c ≠ EmptyString) by (intros ? ? ?; eapply Hl; by right).
  destruct (sep r); [rewrite elem_of_app; intros [Hw|Hw]|].
  - destruct cur; simpl in Hw; [|by apply elem_of_nil in Hw].
    apply list_elem_of_singleton in Hw as ->. naive_solver.
  - by apply (IH None).
  - apply IH; [done|]. intros [= H]. revert H. apply append_nonempty. eapply Hl. by left.
Qed.

Lemma FieldsFunc_nonempty sep s w : w ∈ FieldsFunc sep s → w ≠ EmptyString.
Proof. apply fields_from_nonempty; [apply range_from_chunks|done]. Qed.

(** ** Valid text

    Go decodes every byte that is not part of a valid sequence as the rune
    U+FFFD of width 1 ([utf8.ValidString] looks for it). *)

Definition ValidString (s : string) : Prop :=
  ∀ r c, (r, c) ∈ runes s → r = RuneError → String.length c ≠ 1.

(** A rune that decodes regardless of what follows it. *)
Definition self_contained (rc : Z * string) : Prop :=
  ∀ u, runes (String.append rc.2 u) = rc :: runes u.

Lemma substring_0 s : String.substring 0 0 s = EmptyString.
Proof. by destruct s. Qed.

Lemma append_cons a s u : String.append (String a s) u = String a (String.append s u).
Proof. done. Qed.

Lemma decode_ext s u r n :
  DecodeRuneInString s = (r, n) → r ≠ RuneError →
  String.length (String.substring 0 n s) = n ∧ DecodeRuneInString (String.append (String.substring 0 n s) u) = (r, n).
Proof.
  destruct s as [|a0 s1]; [by intros [= <- <-]|]. cbn [DecodeRuneInString].
  repeat case_match; intros [= <- <-] ?; try done; cbn [String.substring];
    rewrite ?substring_0, ?append_cons; cbn [DecodeRuneInString]; (split; [done|]);
    simplify_eq; repeat match goal with E : ?b = _ |- context [?b] => rewrite E end; done.
Qed.

Lemma append_empty_r s : String.append s EmptyString = s.
Proof. induction s as [|a s IH]; [done|by rewrite append_cons, IH]. Qed.

Lemma append_assoc a b c : String.append (String.append a b) c = String.append a (String.append b c).
Proof. induction a as [|x a IH]; [done|by rewrite !append_cons, IH]. Qed.

Lemma range_from_skip s u : range_from (String.length s) (String.append s u) = runes u.
Proof. induction s as [|a s IH]; [done|apply IH]. Qed.

Lemma substring_before s u : String.substring 0 (String.length s) (String.append s u) = s.
Proof. induction s as [|a s IH]; [by destruct u|]. rewrite append_cons. simpl. by rewrite IH. Qed.

Lemma range_from_self_contained k s rc : rc ∈ range_from k s → rc.1 ≠ RuneError → self_contained rc.
Proof.
  revert k. induction s as [|a s IH]; intros k; [by intros ?%elem_of_nil|].
  destruct k as [|k]; [|apply IH]. cbn [range_from].
  destruct (DecodeRuneInString (String a s)) as [r n] eqn:E. rewrite elem_of_cons.
  intros [->|Hin] Hr; [|by eapply IH]. intros u. cbn [snd fst] in *.
  destruct (decode_ext _ u _ _ E Hr) as [Hlen Hd]. unfold runes.
  destruct (String.substring 0 n (String a s)) as [|b c] eqn:Ec.
  { simpl in Hlen. subst n. pose proof (DecodeRune_width (String a s) ltac:(done)) as Hw. rewrite E in Hw. simpl in Hw. lia. }
  change (String.append (String b c) u) with (String b (String.append c u)) in *. cbn [range_from]. rewrite Hd.
  f_equal.
  - f_equal. rewrite <-Hlen. apply (substring_before (String b c) u).
  - rewrite <-Hlen. apply range_from_skip.
Qed.

(** Runes and strings that are made of them. *)
Definition text (l : list (Z * string)) : string := foldr String.append EmptyString l.*2.

Lemma text_snoc l rc : text (l ++ [rc]) = String.append (text l) rc.2.
Proof.
  induction l as [|x l IH]; [apply append_empty_r|].
  change (text ((x :: l) ++ [rc])) with (String.append x.2 (text (l ++ [rc]))). by rewrite IH, <-append_assoc.
Qed.

Lemma runes_text l : (∀ rc, rc ∈ l → self_contained rc) → runes (text l) = l.
Proof.
  induction l as [|rc l IH]; intros Hl; [done|]. change (text (rc :: l)) with (String.append rc.2 (text l)).
  rewrite (Hl rc) by left. f_equal. apply IH. intros. apply Hl. by right.
Qed.

Lemma fields_from_text sep cur l w :
  (∀ rc, rc ∈ l → sep rc.1 = false → self_contained rc) →
  (∀ w, cur = Some w → ∃ k, w = text k ∧ ∀ rc, rc ∈ k → sep rc.1 = false ∧ self_contained rc) →
  w ∈ fields_from sep cur l → ∃ k, w = text k ∧ ∀ rc, rc ∈ k → sep rc.1 = false ∧ self_contained rc.
Proof.
  revert cur. induction l as [|[r c] l IH]; intros cur Hl Hcur; cbn [fields_from].
  { destruct cur; simpl; [|by intros ?%elem_of_nil]. intros ->%list_elem_of_singleton. by apply Hcur. }
  assert (Hl' : ∀ rc, rc ∈ l → sep rc.1 = false → self_contained rc) by (intros ? ?; apply Hl; by right).
  destruct (sep r) eqn:Es; [rewrite elem_of_app; intros [Hw|Hw]|].
  - destruct cur; simpl in Hw; [|by apply elem_of_nil in Hw]. apply list_elem_of_singleton in Hw as ->. by apply Hcur.
  - by apply (IH None).
  - apply IH; [done|]. intros w' Heq. injection Heq as <-.
    assert (Hc : ∃ k, default EmptyString cur = text k ∧ ∀ rc, rc ∈ k → sep rc.1 = false ∧ self_contained rc).
    { destruct cur as [w0|]; [by apply Hcur|]. exists []. split; [done|]. by intros ? ?%elem_of_nil. }
    destruct Hc as (k & -> & Hk). exists (k ++ [(r, c)]). split; [by rewrite text_snoc|].
    intros rc [Hin| ->%list_elem_of_singleton]%elem_of_app; [by apply Hk|]. split; [done|]. apply Hl; [left|done].
Qed.

(** The words of a text, when bytes that are no text separate words: a word
    is not empty, is valid UTF-8 and has no separator in it. *)
Lemma FieldsFunc_words sep s w :
  sep RuneError = true → w ∈ FieldsFunc sep s →
  w ≠ EmptyString ∧ ValidString w ∧ ∀ rc, rc ∈ runes w → sep rc.1 = false.
Proof.
  intros Hsep Hw. split; [by eapply FieldsFunc_nonempty|].
  destruct (fields_from_text sep None (runes s) w) as (k & -> & Hk); [|done|done|].
  { intros rc Hrc Hs. eapply range_from_self_contained; [done|]. congruence. }
  rewrite runes_text by (intros; by apply Hk). split.
  - intros r c Hin ->. rewrite runes_text in Hin by (intros; by apply Hk). apply Hk in Hin as [Hin _]. simpl in Hin. congruence.
  - intros. by apply Hk.
Qed.
