(* ===== verification/RaftLog.v ===== *)
(** * The Raft log (src/raft/log.go)

    A [Log] is a Go slice of entries together with [index0], the Raft index
    of its first slot.  Slot 0 always holds the entry of the last snapshot
    (or the dummy entry of term 0), so the slice is never empty.  Every
    index expression, slice expression and [Assert] that can panic does so
    in the model.  [place] is the in-place overwrite, append and truncation
    that a follower runs on an accepted AppendEntries.  Here the slice is the
    list it shows; [RaftMemory] has it as a window on an array.

    Theorems: what [place] leaves in the log, that it keeps the terms of the
    log sorted, that it never damages entries that already agree, and what
    the two truncations keep. *)

From stdpp Require Import base list countable sets sorting.
From Stdlib Require Import ZArith Lia.
From S2P Require Import Prelude.

Section RaftLog.
Context {C : Type}.

(** [type Entry struct]: a command is a Go interface value, [None] is nil. *)
Record Entry : Type := mkEntry {
  eTerm : Z;
  eCommand : option C;
}.

#[export] Instance Entry_eq_dec `{!EqDecision C} : EqDecision Entry.
Proof. solve_decision. Defined.

#[export] Instance Entry_countable `{Countable C} : Countable Entry.
Proof.
  refine (inj_countable' (λ e, (eTerm e, eCommand e)) (λ '(t, c), mkEntry t c) _). by intros [].
Defined.

(** [type Log struct] *)
Record Log : Type := mkLog {
  entries : list Entry;
  index0 : Z;
}.

(** The zero value of [Entry]. *)
Definition zeroEntry : Entry := mkEntry 0 None.

Definition makeLog (len : nat) (start : Z) : Log :=
  mkLog (replicate len zeroEntry) start.

Definition append (l : Log) (a : list Entry) : Log :=
  mkLog (entries l ++ a) (index0 l).

(** The overlap loop of [place]: overwrites slots [i], [i+1], ... while both
    the log and the new entries last; returns the slots, the counter and
    [a[j:]]. *)
Fixpoint place_overlap (es : list Entry) (i : nat) (a : list Entry)
    : list Entry * nat * list Entry :=
  match a with
  | [] => (es, i, [])
  | x :: a' =>
      if bool_decide (i < length es) then place_overlap (<[i := x]> es) (S i) a'
      else (es, i, a)
  end.

Definition place (l : Log) (index : Z) (a : list Entry) : Res Log :=
  _ ← Assert (bool_decide (0 ≤ index - index0 l)%Z);
  let '(es, i, rest) :=
    place_overlap (entries l) (Z.to_nat (index - index0 l)) a in
  let es := es ++ rest in
  let i := (i + length rest)%nat in
  if bool_decide (i < length es) then
    e1 ← idx es (Z.of_nat i - 1);
    e2 ← idx es (Z.of_nat i);
    if bool_decide (eTerm e1 > eTerm e2)%Z
    then es' ← slice_to es (Z.of_nat i); Ok (mkLog es' (index0 l))
    else Ok (mkLog es (index0 l))
  else Ok (mkLog es (index0 l)).

Definition start (l : Log) : Z := index0 l.

Definition entry (l : Log) (index : Z) : Res Entry :=
  _ ← Assert (bool_decide (0 ≤ index - index0 l)%Z);
  idx (entries l) (index - index0 l).

Definition lastIndex (l : Log) : Z := (index0 l + zlen (entries l) - 1)%Z.

Definition lastEntry (l : Log) : Res Entry := entry l (lastIndex l).

Definition log_length (l : Log) : Z := (index0 l + zlen (entries l))%Z.

Definition slice (l : Log) (index : Z) : Res (list Entry) :=
  slice_from (entries l) (index - index0 l).

Definition cutOffHead (l : Log) (index : Z) : Res Log :=
  es ← slice_from (entries l) (index - index0 l);
  Ok (mkLog es index).

Definition cutOffTail (l : Log) (index : Z) : Res Log :=
  if bool_decide (index = index0 l) then
    es ← slice_to (entries l) 1; Ok (mkLog es (index0 l))
  else
    es ← slice_to (entries l) (index - index0 l); Ok (mkLog es (index0 l)).

(** ** Specification vocabulary *)

(** A log as Raft uses it: slot 0 exists. *)
Definition log_wf (l : Log) : Prop := entries l ≠ [].

(** Terms never decrease along the log. *)
Definition term_sorted (es : list Entry) : Prop :=
  StronglySorted (λ e1 e2, (eTerm e1 ≤ eTerm e2)%Z) es.

(** What [place] keeps behind the new entries: the old tail, unless the
    entry before it has a larger term. *)
Definition kept_tail (before tail : list Entry) : list Entry :=
  match last before, tail with
  | Some e1, e2 :: _ => if bool_decide (eTerm e1 > eTerm e2)%Z then [] else tail
  | _, _ => tail
  end.

(** The slots after [place index a], for an [index] inside the log. *)
Definition placed (l : Log) (index : Z) (a : list Entry) : list Entry :=
  let n := Z.to_nat (index - index0 l) in
  let before := take n (entries l) ++ a in
  before ++ kept_tail before (drop (n + length a) (entries l)).

(** The entries behind [a] at [index] are of an older leader. *)
Definition stale_tail (l : Log) (index : Z) (a : list Entry) : bool :=
  match last (take (Z.to_nat (index - index0 l)) (entries l) ++ a), entry l (index + zlen a) with
  | Some e1, Ok e2 => bool_decide (eTerm e1 > eTerm e2)%Z
  | _, _ => false
  end.

(** [l'] is [l] with [a] at [index]: below nothing changes, from [index] on
    it has [a], and behind [a] what [l] has there, unless that is stale; then
    it ends with [a]. *)
Record stored_at (l l' : Log) (index : Z) (a : list Entry) : Prop := {
  st_index0 : index0 l' = index0 l;
  st_below : ∀ i, (i < index)%Z → entry l' i = entry l i;
  st_new : ∀ k e, a !! k = Some e → entry l' (index + Z.of_nat k) = Ok e;
  st_last : lastIndex l' = if stale_tail l index a then (index + zlen a - 1)%Z
                           else Z.max (lastIndex l) (index + zlen a - 1);
  st_behind : stale_tail l index a = false → ∀ i, (index + zlen a ≤ i)%Z → entry l' i = entry l i;
}.

(** ** Lemmas *)

Lemma place_overlap_spec a : ∀ es i,
  (i ≤ length es)%nat →
  let '(es', i', rest) := place_overlap es i a in
  es' ++ rest = take i es ++ a ++ drop (i + length a) es ∧
  (i' + length rest = i + length a)%nat.
Proof.
  induction a as [|x a IH]; intros es i Hi; simpl.
  - rewrite !app_nil_r, !Nat.add_0_r, take_drop. done.
  - case_bool_decide as Hlt.
    + specialize (IH (<[i:=x]> es) (S i)).
      destruct (place_overlap _ _ _) as [[es' i'] rest].
      destruct IH as [IH1 IH2]; [rewrite length_insert; lia|].
      split; [|lia]. rewrite IH1.
      rewrite (take_S_r _ _ x) by (by apply list_lookup_insert_eq).
      rewrite take_insert_ge, drop_insert_lt by lia.
      rewrite <-app_assoc. simpl. do 4 f_equal. lia.
    + assert (i = length es) as -> by lia.
      rewrite firstn_all, drop_ge by (simpl; lia). split; [|simpl; lia].
      by rewrite app_nil_r.
Qed.

Lemma place_Ok l index a :
  (0 < index - index0 l ∨ 0 ≤ index - index0 l ∧ a ≠ [])%Z →
  (index ≤ lastIndex l + 1)%Z →
  place l index a = Ok (mkLog (placed l index a) (index0 l)).
Proof.
  intros Hlo Hhi. unfold place, placed, lastIndex, zlen in *.
  set (n := Z.to_nat (index - index0 l)).
  assert (Hn : (n ≤ length (entries l))%nat) by lia.
  rewrite bool_decide_true by lia. simpl.
  pose proof (place_overlap_spec a (entries l) n Hn) as Hsp.
  destruct (place_overlap (entries l) n a) as [[es' i'] rest].
  destruct Hsp as [-> ->].
  rewrite app_assoc. set (before := take n (entries l) ++ a).
  assert (Hbl : length before = (n + length a)%nat).
  { unfold before. rewrite length_app, length_take. lia. }
  assert (Hbne : before ≠ []).
  { intros Hz. rewrite Hz in Hbl. simpl in Hbl.
    destruct Hlo as [?|[? Hne]]; [lia|]. destruct a; [done|simpl in *; lia]. }
  destruct (last before) as [e1|] eqn:He1; [|by apply last_None in He1].
  unfold kept_tail. rewrite He1.
  destruct (drop (n + length a) (entries l)) as [|e2 tl] eqn:Htl.
  - rewrite bool_decide_false; [done|]. rewrite app_nil_r. lia.
  - rewrite bool_decide_true by (rewrite length_app; simpl; lia).
    assert (idx (before ++ e2 :: tl) (Z.of_nat (n + length a) - 1) = Ok e1) as ->.
    { apply idx_Ok. assert (0 < length before) by (destruct before; simpl; [done|lia]).
      split; [lia|]. rewrite lookup_app_l by lia.
      rewrite last_lookup in He1. rewrite <-He1. f_equal. lia. }
    assert (idx (before ++ e2 :: tl) (Z.of_nat (n + length a)) = Ok e2) as ->.
    { apply idx_Ok. split; [lia|]. rewrite Nat2Z.id, <-Hbl. by rewrite list_lookup_middle. }
    simpl. case_bool_decide; [|done].
    assert (slice_to (before ++ e2 :: tl) (Z.of_nat (n + length a)) = Ok before) as ->.
    { apply slice_to_Ok. split; [unfold zlen; rewrite length_app; simpl; lia|].
      by rewrite Nat2Z.id, <-Hbl, take_app_length. }
    simpl. by rewrite app_nil_r.
Qed.

Lemma entry_lookup l i e :
  entry l i = Ok e ↔
  (index0 l ≤ i)%Z ∧ entries l !! Z.to_nat (i - index0 l) = Some e.
Proof.
  unfold entry, Assert. case_bool_decide; simpl.
  - rewrite idx_Ok. naive_solver lia.
  - split; [done|lia].
Qed.

Lemma entry_returns l i :
  (index0 l ≤ i ≤ lastIndex l)%Z → ∃ e, entry l i = Ok e.
Proof.
  intros Hi. unfold entry, lastIndex, Assert in *. rewrite bool_decide_true by lia.
  destruct (idx_returns (entries l) (i - index0 l)) as (e & ? & ?); [lia|].
  by exists e.
Qed.

Lemma entry_range l i e : entry l i = Ok e → (index0 l ≤ i ≤ lastIndex l)%Z.
Proof.
  intros [? ?%lookup_lt_Some]%entry_lookup. unfold lastIndex, zlen. lia.
Qed.

(** Two logs with the same base agree at an index when their slots do. *)
Lemma entry_ext l l' i :
  index0 l' = index0 l →
  ((index0 l ≤ i)%Z → entries l' !! Z.to_nat (i - index0 l) = entries l !! Z.to_nat (i - index0 l)) →
  entry l' i = entry l i.
Proof.
  intros H0 H. unfold entry, idx, Assert. rewrite H0.
  case_bool_decide; simpl; [|done]. rewrite H by lia. done.
Qed.

Lemma lastEntry_returns l : log_wf l → ∃ e, lastEntry l = Ok e.
Proof.
  unfold log_wf. intros Hwf. apply entry_returns. unfold lastIndex, zlen.
  destruct (entries l); [done|simpl; lia].
Qed.

Lemma length_before l index (a : list (Entry)) :
  (index0 l ≤ index ≤ lastIndex l + 1)%Z →
  length (take (Z.to_nat (index - index0 l)) (entries l) ++ a) =
  (Z.to_nat (index - index0 l) + length a)%nat.
Proof. unfold lastIndex, zlen. intros ?. rewrite length_app, length_take. lia. Qed.

Lemma term_sorted_app_le es1 es2 x y :
  term_sorted (es1 ++ es2) → x ∈ es1 → y ∈ es2 → (eTerm x ≤ eTerm y)%Z.
Proof. apply (StronglySorted_app_1_elem_of (λ e1 e2, (eTerm e1 ≤ eTerm e2)%Z)). Qed.

Lemma kept_tail_sorted before tail :
  term_sorted before → term_sorted tail →
  term_sorted (before ++ kept_tail before tail).
Proof.
  unfold kept_tail. intros Hb Ht.
  destruct (last before) as [e1|] eqn:He1; last first.
  { apply last_None in He1 as ->. done. }
  apply last_Some in He1 as [b' ->].
  destruct tail as [|e2 tl]; [by rewrite app_nil_r|].
  case_bool_decide; [by rewrite app_nil_r|].
  apply StronglySorted_app_2; [|done..]. intros x y Hx Hy.
  assert (eTerm x ≤ eTerm e1)%Z.
  { apply elem_of_app in Hx as [Hx|Hx].
    - eapply term_sorted_app_le; [exact Hb|set_solver..].
    - apply list_elem_of_singleton in Hx as ->. lia. }
  assert (eTerm e2 ≤ eTerm y)%Z; [|simpl in *; lia].
  apply elem_of_cons in Hy as [->|Hy]; [lia|].
  inversion Ht as [|? ? ? Hall]; subst. rewrite Forall_forall in Hall. by apply Hall.
Qed.

Lemma kept_tail_sorted_id before tail :
  term_sorted (before ++ tail) → kept_tail before tail = tail.
Proof.
  unfold kept_tail. intros Hs.
  destruct (last before) as [e1|] eqn:He1; [|done].
  apply last_Some in He1 as [b' ->]. destruct tail as [|e2 tl]; [done|].
  rewrite bool_decide_false; [done|].
  enough (eTerm e1 ≤ eTerm e2)%Z by lia.
  eapply term_sorted_app_le; [exact Hs|set_solver..].
Qed.

Lemma term_sorted_take es n : term_sorted es → term_sorted (take n es).
Proof.
  rewrite <-(take_drop n es) at 1. apply StronglySorted_app_1_l.
Qed.

Lemma term_sorted_drop es n : term_sorted es → term_sorted (drop n es).
Proof.
  rewrite <-(take_drop n es) at 1. apply StronglySorted_app_1_r.
Qed.

Lemma placed_wf l index a :
  log_wf l → (index0 l < index ∨ a ≠ [])%Z → log_wf (mkLog (placed l index a) (index0 l)).
Proof.
  unfold log_wf, placed; simpl. intros Hl Hi Hnil.
  apply app_nil in Hnil as [[Ht Ha]%app_nil _]. destruct Hi as [Hi|]; [|done].
  destruct (entries l); [done|]. destruct (Z.to_nat _) eqn:E; [lia|done].
Qed.

(** ** Reading the log back *)

(** [place] keeps the tail unless it is stale. *)
Lemma placed_tail l index a :
  (index0 l ≤ index ≤ lastIndex l + 1)%Z →
  placed l index a = take (Z.to_nat (index - index0 l)) (entries l) ++ a ++
    if stale_tail l index a then [] else drop (Z.to_nat (index - index0 l) + length a) (entries l).
Proof.
  intros Hi. unfold placed, kept_tail, stale_tail. rewrite <-app_assoc. do 2 f_equal. set (n := Z.to_nat _).
  assert (Hn : Z.to_nat (index + zlen a - index0 l) = n + length a) by (unfold n, zlen; lia).
  assert (He : entry l (index + zlen a) = match entries l !! (n + length a)%nat with Some e => Ok e | None => Panic end).
  { unfold entry, idx, Assert. unfold zlen in *. rewrite bool_decide_true by lia. simpl. by rewrite Hn. }
  destruct (last _) as [e1|]; [|done]. rewrite He. destruct (entries l !! (n + length a)%nat) as [e2|] eqn:E.
  - rewrite (drop_S _ e2) by done. by case_bool_decide.
  - by rewrite drop_ge by (by apply lookup_ge_None).
Qed.

(** [place] at an index inside the log (or just past its end) does not
    panic and stores the new entries there. *)
Lemma place_stored l index a :
  log_wf l → (index0 l < index ∨ index0 l ≤ index ∧ a ≠ [])%Z → (index ≤ lastIndex l + 1)%Z →
  ∃ l', place l index a = Ok l' ∧ log_wf l' ∧ stored_at l l' index a.
Proof.
  intros Hwf Hlo Hhi. eexists. rewrite place_Ok; [|destruct Hlo as [?|[? ?]]; [left; lia|right; split; [lia|done]]|done]. split; [done|].
  split; [apply placed_wf; [done|]; destruct Hlo as [?|[_ ?]]; [by left|by right]|].
  assert (Hb : (index0 l ≤ index)%Z) by (destruct Hlo as [?|[? _]]; lia).
  rewrite placed_tail by lia. set (n := Z.to_nat _). set (tail := if stale_tail l index a then _ else _).
  assert (Hn : length (take n (entries l)) = n) by (rewrite length_take; unfold lastIndex, zlen, n in *; lia).
  split; simpl; [done|..].
  - intros i Hlt. apply entry_ext; [done|]. simpl. intros Hge. rewrite lookup_app_l by lia. by rewrite lookup_take_lt by lia.
  - intros k e Hk. apply entry_lookup. simpl. split; [lia|]. pose proof (lookup_lt_Some _ _ _ Hk).
    rewrite lookup_app_r by lia. rewrite lookup_app_l by lia. rewrite <-Hk. f_equal. lia.
  - unfold lastIndex. simpl. rewrite !zlen_app. unfold tail, lastIndex, zlen in *. rewrite Hn.
    destruct (stale_tail l index a); [simpl|rewrite length_drop]; lia.
  - intros Hst i Hge. apply entry_ext; [done|]. simpl. intros _. unfold tail. rewrite Hst. unfold zlen in Hge.
    rewrite lookup_app_r by lia. rewrite lookup_app_r by lia. rewrite lookup_drop. f_equal. lia.
Qed.

(** Log compaction loses nothing that is still needed: cutting the head
    at an index of the log keeps that index and every later entry readable
    under the same index, and the last index. *)
Lemma cutOffHead_spec l index :
  (index0 l ≤ index ≤ lastIndex l)%Z →
  ∃ l', cutOffHead l index = Ok l' ∧ log_wf l' ∧ start l' = index ∧
    lastIndex l' = lastIndex l ∧ log_length l' = log_length l ∧
    (∀ i, (index ≤ i)%Z → entry l' i = entry l i).
Proof.
  intros Hi. unfold lastIndex in Hi.
  pose proof (zlen_nonneg (entries l)). unfold cutOffHead.
  assert (slice_from (entries l) (index - index0 l) =
          Ok (drop (Z.to_nat (index - index0 l)) (entries l))) as ->.
  { apply slice_from_Ok. split; [lia|done]. }
  eexists. split; [done|].
  assert (zlen (drop (Z.to_nat (index - index0 l)) (entries l)) =
          zlen (entries l) - (index - index0 l))%Z as Hd.
  { unfold zlen in *. rewrite length_drop. lia. }
  split_and!.
  - unfold log_wf; simpl. intros Hz. rewrite Hz in Hd. unfold zlen in *. simpl in Hd. lia.
  - done.
  - unfold lastIndex; simpl. lia.
  - unfold log_length; simpl. lia.
  - intros i Hge. unfold entry, Assert, idx; simpl.
    rewrite !bool_decide_true by lia. simpl. rewrite lookup_drop.
    replace (Z.to_nat (index - index0 l) + Z.to_nat (i - index))%nat
      with (Z.to_nat (i - index0 l)) by lia. done.
Qed.

(** Rejecting a conflicting entry drops it and its successors only: the
    entries below the index stay, the log ends just below it, except that
    slot 0 (the snapshot's entry) is never dropped. *)
Lemma cutOffTail_spec l index :
  (index0 l ≤ index ≤ lastIndex l)%Z →
  ∃ l', cutOffTail l index = Ok l' ∧ log_wf l' ∧ index0 l' = index0 l ∧
    lastIndex l' = Z.max (index0 l) (index - 1) ∧
    (∀ i, (i < index ∨ i = index0 l)%Z → entry l' i = entry l i).
Proof.
  intros Hi. unfold lastIndex in Hi. pose proof (zlen_nonneg (entries l)).
  set (n := Z.max 1 (index - index0 l)).
  assert (cutOffTail l index = Ok (mkLog (take (Z.to_nat n) (entries l)) (index0 l))) as ->.
  { unfold cutOffTail, n. case_bool_decide.
    - unfold slice_to. rewrite bool_decide_true by lia. simpl. do 3 f_equal. lia.
    - unfold slice_to. rewrite bool_decide_true by lia. simpl. do 3 f_equal. lia. }
  eexists. split; [done|].
  assert (zlen (take (Z.to_nat n) (entries l)) = n) as Hn.
  { unfold zlen, n in *. rewrite length_take. lia. }
  split_and!.
  - unfold log_wf; simpl. intros Hz. rewrite Hz in Hn. unfold zlen, n in *. simpl in Hn. lia.
  - done.
  - unfold lastIndex; simpl. rewrite Hn. unfold n. lia.
  - intros i Hlt. apply entry_ext; [done|]. simpl. intros ?.
    apply lookup_take_lt. unfold n. lia.
Qed.
(** ** Properties *)

(** The truncation in [place] does what its comment asks for: if the old
    log and the new entries are sorted by term and the new entries are not
    older than what precedes them, the log stays sorted by term. *)
Lemma place_term_sorted l l' index a :
  (index0 l < index ≤ lastIndex l + 1)%Z →
  term_sorted (entries l) → term_sorted a →
  (∀ e x, e ∈ take (Z.to_nat (index - index0 l)) (entries l) → x ∈ a → (eTerm e ≤ eTerm x)%Z) →
  place l index a = Ok l' →
  term_sorted (entries l').
Proof.
  intros Hi Hs Ha Hj. rewrite place_Ok by lia. intros [= <-]. simpl.
  apply kept_tail_sorted; [|by apply term_sorted_drop].
  apply StronglySorted_app_2; [done|by apply term_sorted_take|done].
Qed.

(** Re-delivery is harmless: placing entries the log already has (a
    duplicated or delayed AppendEntries, or an empty heartbeat) leaves a
    term-sorted log exactly as it was, newer entries behind them included. *)
Theorem place_present_noop l index a :
  (index0 l < index ≤ lastIndex l + 1)%Z →
  term_sorted (entries l) →
  take (length a) (drop (Z.to_nat (index - index0 l)) (entries l)) = a →
  place l index a = Ok l.
Proof.
  intros Hi Hs Ha. rewrite place_Ok by lia. f_equal. destruct l as [es i0]; simpl in *.
  f_equal. unfold placed; simpl. set (n := Z.to_nat (index - i0)) in *.
  assert (Hes : es = (take n es ++ a) ++ drop (n + length a) es).
  { rewrite <-Ha at 1. rewrite <-app_assoc, <-drop_drop, take_drop, take_drop. done. }
  rewrite kept_tail_sorted_id; [done|]. by rewrite <-Hes.
Qed.
End RaftLog.

Arguments Entry C : clear implicits.
Arguments Log C : clear implicits.
