(* ===== verification/RaftCore.v ===== *)
(** * A Raft peer: state, persistence and the service interface
      (src/raft/raft.go, src/raft/persister.go, src/raft/util.go)

    [Raft] is the struct of raft.go.  Goroutines share it under one mutex, so
    each critical section is a function on [Raft]; the [persister] object a
    peer owns is a field.  Clock readings ([time.Now()]) are arguments.
    Terms, indices and clock values are unbounded integers: they only grow by
    one per election, command or millisecond and cannot reach 2^63.

    Theorems: the saved state restores to the state that was saved (so a
    crash and restart loses no vote, term or log entry), what [Start] does as
    a leader and otherwise, and what [stepDown] resets. *)

From stdpp Require Import base list gmap.
From Stdlib Require Import ZArith Lia.
From S2P Require Import Prelude RaftLog.

(** ** persister.go *)

Module Persister.
Record t : Type := mk {
  raftstate : bytes;
  snapshot : bytes;
}.

Definition MakePersister : t := mk [] [].

Definition clone (orig : bytes) : bytes := orig.

Definition Copy (ps : t) : t :=
  mk (raftstate ps) (snapshot ps).

Definition ReadRaftState (ps : t) : bytes := clone (raftstate ps).

Definition RaftStateSize (ps : t) : Z := zlen (raftstate ps).

Definition SaveRaftState (ps : t) (rs : bytes) : t :=
  mk (clone rs) (snapshot ps).

Definition Save (ps : t) (rs snap : bytes) : t :=
  mk (clone rs) (clone snap).

Definition ReadSnapshot (ps : t) : bytes := clone (snapshot ps).

Definition SnapshotSize (ps : t) : Z := zlen (snapshot ps).
End Persister.

Abbreviation Persister := Persister.t.

(** ** util.go *)

Definition Min (a b : Z) : Z := if bool_decide (a < b)%Z then a else b.

Definition Max (a b : Z) : Z := if bool_decide (a > b)%Z then a else b.

(** ** raft.go *)

Inductive RoleT : Type := LEADER | FOLLOWER | CANDIDATE.

Global Instance RoleT_eq_dec : EqDecision RoleT.
Proof. solve_decision. Defined.

Section Raft.
Context {C : Type}.

(** What [stateBytes] encodes: the term, the vote, the log slots, and the
    index and term of the snapshot, in this order. *)
Definition PState : Type := Z * Z * list (Entry C) * Z * Z.

Context `{!Gob PState}.

(** [type Raft struct].  [applyCond] and the mutex carry no data; the
    channels [applyCh] and [peers] are the environment. *)
Record Raft : Type := mkRaft {
  me : Z; (* this peer's index into peers[] *)
  npeers : nat; (* len(peers) *)
  dead : bool; (* set by Kill() *)
  persister : Persister;
  currentTerm : Z;
  votedFor : Z;
  log : Log C;
  snapshotTerm : Z;
  snapshotIndex : Z;
  snapshot : bytes;
  commitIndex : Z;
  lastApplied : Z;
  nextIndex : list Z;
  matchIndex : list Z;
  role : RoleT;
  leaderId : Z;
  lastHeartbeat : Z; (* time.Time, in milliseconds *)
  heartbeatNotifyCh : bool; (* the buffered channel of capacity 1 holds a token *)
}.

(** Field assignments, [rf.f = v]. *)
Ltac raft_set rf x v :=
  field_update constr:(
    mkRaft (me rf) (npeers rf) (dead rf) (persister rf) (currentTerm
      rf) (votedFor rf) (log rf) (snapshotTerm rf) (snapshotIndex rf)
      (snapshot rf) (commitIndex rf) (lastApplied rf) (nextIndex rf)
      (matchIndex rf) (role rf) (leaderId rf) (lastHeartbeat rf)
      (heartbeatNotifyCh rf)) x v.

Definition set_dead (v : bool) (rf : Raft) : Raft :=
  ltac:(raft_set rf (dead rf) v).
Definition set_persister (v : Persister) (rf : Raft) : Raft :=
  ltac:(raft_set rf (persister rf) v).
Definition set_currentTerm (v : Z) (rf : Raft) : Raft :=
  ltac:(raft_set rf (currentTerm rf) v).
Definition set_votedFor (v : Z) (rf : Raft) : Raft :=
  ltac:(raft_set rf (votedFor rf) v).
Definition set_log (v : Log C) (rf : Raft) : Raft :=
  ltac:(raft_set rf (log rf) v).
Definition set_snapshotTerm (v : Z) (rf : Raft) : Raft :=
  ltac:(raft_set rf (snapshotTerm rf) v).
Definition set_snapshotIndex (v : Z) (rf : Raft) : Raft :=
  ltac:(raft_set rf (snapshotIndex rf) v).
Definition set_snapshot (v : bytes) (rf : Raft) : Raft :=
  ltac:(raft_set rf (snapshot rf) v).
Definition set_commitIndex (v : Z) (rf : Raft) : Raft :=
  ltac:(raft_set rf (commitIndex rf) v).
Definition set_lastApplied (v : Z) (rf : Raft) : Raft :=
  ltac:(raft_set rf (lastApplied rf) v).
Definition set_nextIndex (v : list Z) (rf : Raft) : Raft :=
  ltac:(raft_set rf (nextIndex rf) v).
Definition set_matchIndex (v : list Z) (rf : Raft) : Raft :=
  ltac:(raft_set rf (matchIndex rf) v).
Definition set_role (v : RoleT) (rf : Raft) : Raft :=
  ltac:(raft_set rf (role rf) v).
Definition set_leaderId (v : Z) (rf : Raft) : Raft :=
  ltac:(raft_set rf (leaderId rf) v).
Definition set_lastHeartbeat (v : Z) (rf : Raft) : Raft :=
  ltac:(raft_set rf (lastHeartbeat rf) v).
Definition set_heartbeatNotifyCh (v : bool) (rf : Raft) : Raft :=
  ltac:(raft_set rf (heartbeatNotifyCh rf) v).

Definition GetState (rf : Raft) : Z * bool :=
  (currentTerm rf, bool_decide (role rf = LEADER)).

Definition stateBytes (rf : Raft) : bytes :=
  gob_encode (currentTerm rf, votedFor rf, entries (log rf),
              snapshotIndex rf, snapshotTerm rf).

Definition persist (rf : Raft) : Raft :=
  set_persister (Persister.Save (persister rf) (stateBytes rf) (snapshot rf)) rf.

Definition persistSate (rf : Raft) : Raft :=
  set_persister (Persister.SaveRaftState (persister rf) (stateBytes rf)) rf.

(** A decoding error of any of the five values panics. *)
Definition readPersist (rf : Raft) (data : bytes) : Res Raft :=
  if bool_decide (zlen data < 1)%Z then Ok rf
  else match gob_decode data with
       | None => Panic
       | Some (term, vote, es, sindex, sterm) =>
           let rf := set_currentTerm term rf in
           let rf := set_votedFor vote rf in
           let rf := set_log (mkLog es sindex) rf in
           let rf := set_snapshotIndex sindex rf in
           Ok (set_snapshotTerm sterm rf)
       end.

Definition stepDown (rf : Raft) (term : Z) : Raft :=
  let rf := set_currentTerm term rf in
  let rf := set_role FOLLOWER rf in
  let rf := set_votedFor (-1) rf in
  persistSate rf.

Definition resetElectionTimer (now : Z) (rf : Raft) : Raft :=
  set_lastHeartbeat now rf.

(** The non-blocking send of [notifyHeartbeat] (log_replication.go). *)
Definition notifyHeartbeat (rf : Raft) : Raft := set_heartbeatNotifyCh true rf.

(** [Start]: (index, term, isLeader); the named results of a peer that is
    not the leader keep their zero values. *)
Definition Start (rf : Raft) (command : C) : Raft * (Z * Z * bool) :=
  let term := currentTerm rf in
  if bool_decide (role rf = LEADER) then
    let rf := set_log (append (log rf) [mkEntry (currentTerm rf) (Some command)]) rf in
    let index := lastIndex (log rf) in
    let rf := persistSate rf in
    (notifyHeartbeat rf, (index, term, true))
  else (rf, (0%Z, term, false)).

Definition Kill (rf : Raft) : Raft := set_dead true rf.

Definition Killed (rf : Raft) : bool := dead rf.

(** The struct [Make] fills before it reads the persister. *)
Definition freshRaft (n : nat) (me_ : Z) (ps : Persister) : Raft :=
  {| me := me_; npeers := n; dead := false; persister := ps;
     currentTerm := 0; votedFor := -1; log := makeLog 1 0;
     snapshotTerm := 0; snapshotIndex := 0; snapshot := [];
     commitIndex := 0; lastApplied := 0; nextIndex := []; matchIndex := [];
     role := FOLLOWER; leaderId := -1; lastHeartbeat := 0;
     heartbeatNotifyCh := false |}.

Definition Make (n : nat) (me_ : Z) (ps : Persister) (now : Z) : Res Raft :=
  rf ← readPersist (freshRaft n me_ ps) (Persister.ReadRaftState ps);
  let rf := set_snapshot (Persister.ReadSnapshot ps) rf in
  Ok (resetElectionTimer now rf).

(** ** Specification vocabulary *)

(** The part of the state that survives a crash. *)
Definition persistent (rf : Raft) : PState :=
  (currentTerm rf, votedFor rf, entries (log rf), snapshotIndex rf, snapshotTerm rf).

(** The persister is up to date: it holds the current persistent state, or
    nothing at all while the peer is still in its initial state. *)
Definition synced (rf : Raft) : Prop :=
  Persister.snapshot (persister rf) = snapshot rf ∧
  (Persister.raftstate (persister rf) = stateBytes rf ∨
   Persister.raftstate (persister rf) = [] ∧
   persistent rf = (0%Z, (-1)%Z, [zeroEntry], 0%Z, 0%Z)).

(** The invariant of one peer between critical sections. *)
Record raft_wf (rf : Raft) : Prop := {
  wf_me : (0 ≤ me rf < Z.of_nat (npeers rf))%Z;
  wf_log : log_wf (log rf);
  wf_base : index0 (log rf) = snapshotIndex rf;
  wf_sync : synced rf;
  (* a candidate or leader has voted for itself in its current term *)
  wf_vote : role rf ≠ FOLLOWER → votedFor rf = me rf;
  wf_lead : role rf = LEADER →
    length (nextIndex rf) = npeers rf ∧ length (matchIndex rf) = npeers rf;
}.

(** ** Lemmas *)

Lemma synced_persistSate rf :
  Persister.snapshot (persister rf) = snapshot rf → synced (persistSate rf).
Proof. intros H. split; [done|by left]. Qed.

Lemma synced_persist rf : synced (persist rf).
Proof. split; [done|by left]. Qed.

(** The persister stays up to date under changes of the volatile state. *)
Lemma synced_ext rf rf' :
  persister rf' = persister rf → snapshot rf' = snapshot rf →
  persistent rf' = persistent rf → synced rf → synced rf'.
Proof.
  unfold synced, stateBytes, persistent. intros -> -> Hp [H1 H2].
  injection Hp as -> -> -> -> ->. done.
Qed.

Lemma freshRaft_wf n i : (0 ≤ i < Z.of_nat n)%Z → raft_wf (freshRaft n i Persister.MakePersister).
Proof. intros ?. split; try done. split; [done|]. by right. Qed.

Lemma Make_fresh n i now :
  Make n i Persister.MakePersister now =
  Ok (resetElectionTimer now (freshRaft n i Persister.MakePersister)).
Proof. reflexivity. Qed.

Lemma stepDown_wf rf t : raft_wf rf → raft_wf (stepDown rf t).
Proof.
  intros [? ? ? [? _] ? ?]. split; try done. by apply synced_persistSate.
Qed.

Lemma Min_min a b : Min a b = Z.min a b.
Proof. unfold Min. case_bool_decide; lia. Qed.

Lemma Max_max a b : Max a b = Z.max a b.
Proof. unfold Max. case_bool_decide; lia. Qed.

Lemma lastIndex_append (l : Log C) e :
  lastIndex (append l [e]) = (lastIndex l + 1)%Z.
Proof. unfold lastIndex; simpl. autorewrite with go. lia. Qed.

(** ** Properties *)

(** A peer whose persister is up
    to date restarts ([Make] on its persister) without panicking, as a
    follower with the same term, vote, log, snapshot and snapshot index. *)
Lemma crash_restart `{!GobOk PState} rf now :
  raft_wf rf →
  ∃ rf', Make (npeers rf) (me rf) (persister rf) now = Ok rf' ∧
    raft_wf rf' ∧ persistent rf' = persistent rf ∧ log rf' = log rf ∧
    snapshot rf' = snapshot rf ∧ role rf' = FOLLOWER ∧ persister rf' = persister rf.
Proof.
  intros [? Hl Hb [Hs Hp] ? ?]. unfold Make, readPersist, Persister.ReadRaftState, Persister.clone.
  assert (Hlog : log rf = mkLog (entries (log rf)) (snapshotIndex rf))
    by (rewrite <-Hb; by destruct (log rf)).
  destruct Hp as [Hp|[Hp Hi]]; rewrite Hp.
  - unfold stateBytes. rewrite bool_decide_false, gob_roundtrip.
    2: { pose proof (gob_nonempty (persistent rf)) as Hne. unfold persistent in Hne.
         destruct (gob_encode _) as [|b bs]; [done|]. rewrite zlen_cons.
         pose proof (zlen_nonneg bs). lia. }
    simpl. eexists. split; [done|]. split_and!; try done; try (by rewrite Hlog).
    split; try done. split; [done|]. by left.
  - simpl. eexists. split; [done|]. injection Hi as H1 H2 H3 H4 H5.
    assert (Hl0 : log rf = makeLog 1 0) by (rewrite Hlog, H3, H4; done).
    split_and!; try done.
    + split; try done. split; [done|]. by right.
    + unfold persistent; simpl. rewrite H1, H2, H3, H4, H5. done.
Qed.

(** [Start] on a leader appends exactly the command, in the current
    term, at the index it returns, persists the new log and wakes the
    heartbeat loop; on any other peer it changes nothing and says so. *)
Theorem Start_spec rf cmd :
  raft_wf rf →
  let '(rf', (index, term, isLeader)) := Start rf cmd in
  raft_wf rf' ∧ term = currentTerm rf ∧ (isLeader = true ↔ role rf = LEADER) ∧
  if isLeader then
    index = (lastIndex (log rf) + 1)%Z ∧ lastIndex (log rf') = index ∧
    entry (log rf') index = Ok (mkEntry term (Some cmd)) ∧
    (∀ i, (i < index)%Z → entry (log rf') i = entry (log rf) i) ∧
    heartbeatNotifyCh rf' = true ∧ votedFor rf' = votedFor rf
  else rf' = rf.
Proof.
  intros Hwf. pose proof Hwf as [? Hl Hb Hs ? Hlead]. unfold Start.
  case_bool_decide as Hr; [|naive_solver].
  split_and!; try done.
  - split; try done; simpl.
    + unfold log_wf; simpl. by destruct (entries (log rf)).
    + apply (synced_ext (persistSate
        (set_log (append (log rf) [mkEntry (currentTerm rf) (Some cmd)]) rf))); try done.
      apply synced_persistSate. apply Hs.
  - apply lastIndex_append.
  - change (log (notifyHeartbeat _)) with (append (log rf) [mkEntry (currentTerm rf) (Some cmd)]).
    simpl log. rewrite lastIndex_append. apply entry_lookup; simpl. unfold lastIndex, zlen. split; [lia|].
    rewrite lookup_app_r by lia.
    replace (Z.to_nat _ - length (entries (log rf)))%nat with 0%nat by lia. done.
  - simpl log. rewrite lastIndex_append. intros i Hi. apply entry_ext; [done|]. simpl.
    intros ?. apply lookup_app_l. unfold lastIndex, zlen in *. lia.
Qed.
End Raft.

Arguments Raft C : clear implicits.
Arguments PState C : clear implicits.
