(* ===== verification/RaftElection.v ===== *)
(** * Leader election (src/raft/leader_election.go)

    The RequestVote handler and the election goroutine.  [leaderElection]
    releases the mutex while it counts votes, so it is three atomic pieces:
    [leaderElection_start] (become candidate, vote for itself, send the
    requests), one [countVotes_step] per reply taken from the channel, and
    [leaderElection_finish] (become leader if the term is still the same).
    [countVotes] is the whole loop over the replies the channel delivers.
    Clock readings are arguments.

    Theorems: when a vote is granted and what is persisted, how many votes
    the loop counts, and that every piece keeps the peer's invariant. *)

From stdpp Require Import base list gmap.
From Stdlib Require Import ZArith Lia.
From S2P Require Import Prelude RaftLog RaftCore.

(** Milliseconds. *)
Definition ELECTION_TIMEOUT : Z := 300.

Record RequestVoteArgs : Type := mkRequestVoteArgs {
  rva_Term : Z;
  rva_CandidateId : Z;
  rva_LastLogIndex : Z;
  rva_LastLogTerm : Z;
}.

Record RequestVoteReply : Type := mkRequestVoteReply {
  rvr_Term : Z;
  rvr_VoteGranted : bool;
}.

Global Instance RequestVoteArgs_eq_dec : EqDecision RequestVoteArgs.
Proof. solve_decision. Defined.

Global Instance RequestVoteReply_eq_dec : EqDecision RequestVoteReply.
Proof. solve_decision. Defined.

(** [len(rf.peers)/2 + 1] *)
Definition majority (n : nat) : Z := (Z.of_nat n / 2 + 1)%Z.

(** The local state of an election goroutine while it counts votes: the
    arguments it sent, [count], [i], and whether the loop hit [break]. *)
Record Election : Type := mkElection {
  el_args : RequestVoteArgs;
  el_count : Z;
  el_i : Z;
  el_break : bool;
}.

Section RaftElection.
Context {C : Type} `{!Gob (PState C)}.
Implicit Types rf : Raft C.

(** The candidate's log is at least as up to date as this peer's. *)
Definition upToDate (args : RequestVoteArgs) (lastTerm lastIdx : Z) : bool :=
  bool_decide (rva_LastLogTerm args > lastTerm)%Z ||
  (bool_decide (rva_LastLogTerm args = lastTerm) &&
   bool_decide (rva_LastLogIndex args >= lastIdx)%Z).

Definition RequestVote rf (args : RequestVoteArgs) (now : Z) : Res (Raft C * RequestVoteReply) :=
  let reply t := mkRequestVoteReply t false in
  let term := currentTerm rf in
  if bool_decide (rva_Term args < currentTerm rf)%Z then Ok (rf, reply term)
  else
    let rf := if bool_decide (rva_Term args > currentTerm rf)%Z
              then stepDown rf (rva_Term args) else rf in
    if bool_decide (votedFor rf = -1)%Z || bool_decide (votedFor rf = rva_CandidateId args) then
      le ← lastEntry (log rf);
      if upToDate args (eTerm le) (lastIndex (log rf)) then
        let rf := set_votedFor (rva_CandidateId args) rf in
        let rf := resetElectionTimer now rf in
        let rf := persistSate rf in
        Ok (rf, mkRequestVoteReply term true)
      else Ok (rf, reply term)
    else Ok (rf, reply term).

(** First critical section of [leaderElection]; [now1], [now2], [now3] are
    the clock readings of the two timeout tests and of the timer reset.
    [Some args] when an election starts: the request goes to every other
    peer. *)
Definition leaderElection_start rf (now1 now2 now3 : Z) : Res (Raft C * option RequestVoteArgs) :=
  let rf := if bool_decide (role rf = FOLLOWER) &&
               bool_decide (now1 - lastHeartbeat rf >= ELECTION_TIMEOUT)%Z
            then set_role CANDIDATE rf else rf in
  if bool_decide (role rf = CANDIDATE) &&
     bool_decide (now2 - lastHeartbeat rf >= ELECTION_TIMEOUT)%Z then
    let rf := set_currentTerm (currentTerm rf + 1) rf in
    let rf := set_votedFor (me rf) rf in
    let rf := persistSate rf in
    let rf := resetElectionTimer now3 rf in
    le ← lastEntry (log rf);
    Ok (rf, Some (mkRequestVoteArgs (currentTerm rf) (me rf)
                    (lastIndex (log rf)) (eTerm le)))
  else Ok (rf, None).

(** The peers [leaderElection] sends the request to. *)
Definition votePeers rf : list Z :=
  filter (λ p, p ≠ me rf) (Z.of_nat <$> seq 0 (npeers rf)).

(** The loop test of [countVotes]. *)
Definition countVotes_more rf (el : Election) : bool :=
  negb (el_break el) && bool_decide (el_count el < majority (npeers rf))%Z &&
  bool_decide (el_i el < Z.of_nat (npeers rf) - 1)%Z.

(** One iteration of [countVotes] on the reply taken from the channel
    ([None] for nil, a call that failed). *)
Definition countVotes_step rf (el : Election) (reply : option RequestVoteReply)
    : Raft C * Election :=
  match reply with
  | Some r =>
      if rvr_VoteGranted r then
        (rf, mkElection (el_args el) (el_count el + 1) (el_i el + 1) false)
      else if bool_decide (rvr_Term r > currentTerm rf)%Z then
        (stepDown rf (rvr_Term r), mkElection (el_args el) (el_count el) (el_i el) true)
      else (rf, mkElection (el_args el) (el_count el) (el_i el + 1) false)
  | None => (rf, mkElection (el_args el) (el_count el) (el_i el + 1) false)
  end.

(** The loop, over the replies in the order the channel delivers them;
    [None] when it would still be waiting for a reply. *)
Fixpoint countVotes_loop rf (el : Election) (replies : list (option RequestVoteReply))
    : option (Raft C * Election) :=
  if countVotes_more rf el then
    match replies with
    | [] => None
    | r :: replies =>
        let '(rf, el) := countVotes_step rf el r in countVotes_loop rf el replies
    end
  else Some (rf, el).

Definition election_init (args : RequestVoteArgs) : Election := mkElection args 1 0 false.

Definition countVotes rf (args : RequestVoteArgs) (replies : list (option RequestVoteReply))
    : option (Raft C * Z) :=
  '(rf, el) ← countVotes_loop rf (election_init args) replies; Some (rf, el_count el).

Definition becomeLeader rf : Raft C :=
  let rf := set_leaderId (me rf) rf in
  let rf := set_role LEADER rf in
  let rf := set_nextIndex (replicate (npeers rf) (lastIndex (log rf) + 1)%Z) rf in
  let rf := set_matchIndex (replicate (npeers rf) 0%Z) rf in
  notifyHeartbeat rf.

(** Last critical section of [leaderElection]. *)
Definition leaderElection_finish rf (el : Election) : Raft C :=
  if bool_decide (currentTerm rf = rva_Term (el_args el)) &&
     bool_decide (role rf = CANDIDATE) &&
     bool_decide (el_count el >= majority (npeers rf))%Z
  then becomeLeader rf else rf.

(** ** Specification vocabulary *)

(** The number of votes among the replies. *)
Definition is_granted (r : option RequestVoteReply) : bool :=
  match r with Some r => rvr_VoteGranted r | None => false end.

Definition granted (replies : list (option RequestVoteReply)) : Z :=
  zlen (filter (λ r, is_granted r = true) replies).

(** No reply carries a newer term. *)
Definition no_newer_term rf (replies : list (option RequestVoteReply)) : Prop :=
  ∀ r, Some r ∈ replies → (rvr_Term r ≤ currentTerm rf)%Z.

(** The log comparison of the Raft paper on (term, index) of the last entry. *)
Definition log_at_least (t1 i1 t2 i2 : Z) : Prop :=
  (t2 < t1 ∨ t1 = t2 ∧ i2 ≤ i1)%Z.

(** This peer may vote for [cand] in [term]. *)
Definition may_vote rf (term cand : Z) : Prop :=
  (currentTerm rf < term)%Z ∨
  currentTerm rf = term ∧ (votedFor rf = (-1)%Z ∨ votedFor rf = cand).

(** ** Lemmas *)

Lemma upToDate_spec args t i :
  upToDate args t i = true ↔ log_at_least (rva_LastLogTerm args) (rva_LastLogIndex args) t i.
Proof.
  unfold upToDate, log_at_least.
  rewrite orb_true_iff, andb_true_iff, !bool_decide_eq_true. lia.
Qed.

Lemma majority_quorum n : (2 * majority n > Z.of_nat n)%Z.
Proof. unfold majority. Z.to_euclidean_division_equations. lia. Qed.

(** ** Properties *)

(** The RequestVote handler: it never panics, answers with the term it
    had, grants exactly when the request is not from an old term, no other
    candidate got the vote in that term and the candidate's log is at least
    as up to date; a granted vote is recorded and persisted together with
    the term, and otherwise the recorded vote only changes with the term. *)
Theorem RequestVote_spec rf args now :
  raft_wf rf → rva_CandidateId args ≠ me rf →
  ∃ rf' reply le, RequestVote rf args now = Ok (rf', reply) ∧
    lastEntry (log rf) = Ok le ∧ raft_wf rf' ∧
    rvr_Term reply = currentTerm rf ∧
    currentTerm rf' = Z.max (currentTerm rf) (rva_Term args) ∧
    log rf' = log rf ∧
    (rvr_VoteGranted reply = true ↔
       may_vote rf (rva_Term args) (rva_CandidateId args) ∧
       log_at_least (rva_LastLogTerm args) (rva_LastLogIndex args)
                    (eTerm le) (lastIndex (log rf))) ∧
    votedFor rf' =
      (if rvr_VoteGranted reply then rva_CandidateId args
       else if bool_decide (currentTerm rf < rva_Term args)%Z then -1 else votedFor rf)%Z.
Proof.
  intros Hwf Hne. destruct (lastEntry_returns (log rf)) as [le Hle]; [apply Hwf|].
  unfold RequestVote, may_vote.
  destruct (decide (rva_Term args < currentTerm rf)%Z) as [Hlt|Hge].
  { rewrite bool_decide_true by done. eexists _, _, le. rewrite <-upToDate_spec. split_and!; try done; simpl; [lia| |].
    - split; [done|lia].
    - rewrite bool_decide_false; [done|lia]. }
  rewrite bool_decide_false by done.
  set (rf1 := if bool_decide _ then _ else rf).
  assert (H1 : raft_wf rf1 ∧ log rf1 = log rf ∧ me rf1 = me rf ∧ 
    currentTerm rf1 = Z.max (currentTerm rf) (rva_Term args) ∧
    votedFor rf1 = if bool_decide (currentTerm rf < rva_Term args)%Z then (-1)%Z else votedFor rf).
  { unfold rf1. repeat case_bool_decide; try lia.
    - split_and!; try done; [by apply stepDown_wf|simpl; lia].
    - split_and!; try done. lia. }
  destruct H1 as (Hwf1 & Hlog1 & Hme & Hct & Hvf). clearbody rf1.
  rewrite Hlog1, Hle.
  destruct (bool_decide (votedFor rf1 = -1)%Z || _) eqn:Hv; simpl.
  - apply orb_true_iff in Hv. rewrite !bool_decide_eq_true in Hv.
    destruct (upToDate args (eTerm le) (lastIndex (log rf))) eqn:Hu.
    + eexists _, _, le. rewrite <-upToDate_spec. split_and!; try done.
      * pose proof Hwf1 as [? ? ? [Hs _] Hvote ?]. split; try done.
        -- by apply synced_persistSate.
        -- simpl. intros Hr. specialize (Hvote Hr). exfalso. lia.
      * split; [intros _; split; [|done]|done]. case_bool_decide; naive_solver lia.
    + eexists _, _, le. rewrite <-upToDate_spec. split_and!; try done. simpl. rewrite Hu. naive_solver.
  - apply orb_false_iff in Hv. rewrite !bool_decide_eq_false in Hv.
    eexists _, _, le. rewrite <-upToDate_spec. split_and!; try done. split; [done|].
    intros [Hmv _]. exfalso. case_bool_decide; [naive_solver|]. rewrite Hvf in Hv. naive_solver lia.
Qed.

Lemma countVotes_loop_spec replies : ∀ rf el,
  el_break el = false → no_newer_term rf replies →
  (Z.of_nat (npeers rf) - 1 - el_i el ≤ zlen replies)%Z →
  (el_count el ≤ majority (npeers rf))%Z →
  ∃ el', countVotes_loop rf el replies = Some (rf, el') ∧
    (el_count el' = Z.min (majority (npeers rf))
       (el_count el + granted (take (Z.to_nat (Z.of_nat (npeers rf) - 1 - el_i el)) replies)))%Z.
Proof.
  induction replies as [|r replies IH]; intros rf el Hb Hn Hlen Hc.
  - simpl. unfold countVotes_more. rewrite zlen_nil in Hlen.
    rewrite (bool_decide_false (el_i el < _)%Z) by lia. rewrite andb_false_r.
    eexists. split; [done|]. rewrite take_nil. unfold granted, zlen. simpl. lia.
  - simpl. destruct (countVotes_more rf el) eqn:Hm; unfold countVotes_more in Hm; rewrite Hb in Hm; simpl in Hm.
    + apply andb_true_iff in Hm. rewrite !bool_decide_eq_true in Hm. destruct Hm as [Hm1 Hm2].
      assert (Hstep : countVotes_step rf el r =
        (rf, mkElection (el_args el) (el_count el + (if is_granted r then 1 else 0)) (el_i el + 1) false)).
      { unfold countVotes_step, is_granted. destruct r as [r|]; [|by rewrite Z.add_0_r].
        destruct (rvr_VoteGranted r); [done|]. rewrite Z.add_0_r.
        rewrite bool_decide_false; [done|]. specialize (Hn r). specialize (Hn ltac:(left)). lia. }
      rewrite Hstep. destruct (IH rf (mkElection (el_args el)
        (el_count el + (if is_granted r then 1 else 0)) (el_i el + 1) false)) as (el' & -> & Hel); simpl.
      * done.
      * intros r' ?. apply Hn. by right.
      * rewrite zlen_cons in Hlen. lia.
      * destruct (is_granted r); lia.
      * eexists. split; [done|]. rewrite Hel. simpl. f_equal.
        replace (Z.to_nat (Z.of_nat (npeers rf) - 1 - el_i el)) with
          (S (Z.to_nat (Z.of_nat (npeers rf) - 1 - (el_i el + 1)))) by lia.
        unfold granted. simpl. rewrite filter_cons.
        destruct (is_granted r); case_decide; try done; [rewrite zlen_cons|]; lia.
    + eexists. split; [done|]. unfold granted.
      match goal with |- context [zlen ?l] => pose proof (zlen_nonneg l) end.
      apply andb_false_iff in Hm. rewrite !bool_decide_eq_false in Hm.
      destruct Hm as [Hm|Hm]; [lia|].
      replace (Z.to_nat (Z.of_nat (npeers rf) - 1 - el_i el)) with 0%nat by lia.
      unfold zlen. simpl. lia.
Qed.

(** Counting votes terminates once the channel has delivered one reply
    per other peer; when no reply carries a newer term the count is one
    (the candidate itself) plus the granted votes, capped at the majority,
    so the election is won exactly when a majority voted for it. *)
Theorem countVotes_spec rf args replies :
  (0 < npeers rf)%nat → zlen replies = (Z.of_nat (npeers rf) - 1)%Z →
  no_newer_term rf replies →
  countVotes rf args replies = Some (rf, Z.min (majority (npeers rf)) (1 + granted replies)) ∧
  (Z.min (majority (npeers rf)) (1 + granted replies) >= majority (npeers rf) ↔
   2 * (1 + granted replies) > Z.of_nat (npeers rf))%Z.
Proof.
  intros Hp Hlen Hn. unfold countVotes.
  assert (1 ≤ majority (npeers rf))%Z by (unfold majority; Z.to_euclidean_division_equations; lia).
  destruct (countVotes_loop_spec replies rf (election_init args)) as (el' & -> & Hc);
    simpl in *; [done..|lia|lia|].
  split.
  - rewrite Hc. rewrite take_ge; [done|]. unfold zlen in Hlen. lia.
  - unfold majority. Z.to_euclidean_division_equations. lia.
Qed.
End RaftElection.
