(* ===== verification/RaftReplication.v ===== *)
(** * Log replication (src/raft/log_replication.go)

    The AppendEntries and InstallSnapshot handlers of a follower, the
    leader's broadcast [leaderLogReplication], the code that runs when a
    call returns ([sendAppendEntries], [sendInstallSnapshot] after [Call]
    reported success), and the two commit rules.  [rf.peers[i].Call] is the
    network: sending is producing a message, and the reply is an argument.
    [replicateTo] gives a request with the entries its slice shows at that
    moment; that the goroutine of [sendAppendEntries] reads the slice later is
    the subject of [RaftShared].

    Theorems: which index the leader commits, what AppendEntries does on
    every branch and which log it leaves, how a conflict moves nextIndex back, what the
    leader sends, and the effect of installing a snapshot. *)

From stdpp Require Import base list gmap sorting.
From Stdlib Require Import ZArith Lia.
From S2P Require Import Prelude RaftLog RaftCore RaftElection.

Section RaftReplication.
Context {C : Type} `{!Gob (PState C)}.
Implicit Types rf : Raft C.

Record AppendEntriesArgs : Type := mkAppendEntriesArgs {
  aea_Term : Z;
  aea_LeaderId : Z;
  aea_PrevLogIndex : Z;
  aea_PrevLogTerm : Z;
  aea_Entries : list (Entry C);
  aea_LeaderCommitIndex : Z;
}.

Record AppendEntriesReply : Type := mkAppendEntriesReply {
  aer_Term : Z;
  aer_ConflictTerm : Z;
  aer_ConflictIndex : Z;
  aer_Success : bool;
}.

Record InstallSnapshotArgs : Type := mkInstallSnapshotArgs {
  isa_Term : Z;
  isa_LeaderId : Z;
  isa_LastIncludedIndex : Z;
  isa_LastIncludedTerm : Z;
  isa_Data : bytes;
}.

Record InstallSnapshotReply : Type := mkInstallSnapshotReply {
  isr_Term : Z;
}.

(** A request a leader sends to one peer. *)
Inductive LeaderMsg : Type :=
| MsgAppendEntries (args : AppendEntriesArgs)
| MsgInstallSnapshot (args : InstallSnapshotArgs).

Definition followerCommit rf (leaderCommitIndex : Z) : Raft C :=
  if bool_decide (leaderCommitIndex > commitIndex rf)%Z
  then set_commitIndex (Min leaderCommitIndex (lastIndex (log rf))) rf
  else rf.

(** A current leader was heard: reset the timer, and step down on a newer
    term or as a candidate (shared by the two handlers). *)
Definition heardLeader rf (term leader now : Z) : Raft C :=
  let rf := resetElectionTimer now rf in
  let rf := set_leaderId leader rf in
  if bool_decide (term > currentTerm rf)%Z || bool_decide (role rf = CANDIDATE)
  then stepDown rf term else rf.

Definition AppendEntries rf (args : AppendEntriesArgs) (now : Z)
    : Res (Raft C * AppendEntriesReply) :=
  let term := currentTerm rf in
  if bool_decide (aea_Term args < currentTerm rf)%Z then
    Ok (rf, mkAppendEntriesReply term 0 0 false)
  else
    let rf := heardLeader rf (aea_Term args) (aea_LeaderId args) now in
    if bool_decide (aea_PrevLogIndex args > lastIndex (log rf))%Z then
      le ← lastEntry (log rf);
      Ok (rf, mkAppendEntriesReply term (eTerm le) (lastIndex (log rf)) false)
    else if bool_decide (aea_PrevLogIndex args < snapshotIndex rf)%Z then
      let i := (snapshotIndex rf - aea_PrevLogIndex args - 1)%Z in
      if bool_decide (zlen (aea_Entries args) > i)%Z then
        e ← idx (aea_Entries args) i;
        _ ← Assert (bool_decide (eTerm e = snapshotTerm rf));
        es ← slice_from (aea_Entries args) i;
        l ← place (log rf) (snapshotIndex rf) es;
        let rf := persistSate (set_log l rf) in
        let rf := followerCommit rf (aea_LeaderCommitIndex args) in
        Ok (rf, mkAppendEntriesReply term 0 0 true)
      else Ok (rf, mkAppendEntriesReply term 0 0 true)
    else
      e ← entry (log rf) (aea_PrevLogIndex args);
      if bool_decide (eTerm e ≠ aea_PrevLogTerm args) then
        l ← cutOffTail (log rf) (aea_PrevLogIndex args);
        let rf := persistSate (set_log l rf) in
        Ok (rf, mkAppendEntriesReply term (eTerm e) (aea_PrevLogIndex args) false)
      else
        l ← place (log rf) (aea_PrevLogIndex args + 1) (aea_Entries args);
        let rf := persistSate (set_log l rf) in
        let rf := followerCommit rf (aea_LeaderCommitIndex args) in
        Ok (rf, mkAppendEntriesReply term 0 0 true).

Definition InstallSnapshot rf (args : InstallSnapshotArgs) (now : Z)
    : Res (Raft C * InstallSnapshotReply) :=
  let reply := mkInstallSnapshotReply (currentTerm rf) in
  if bool_decide (isa_Term args < currentTerm rf)%Z then Ok (rf, reply)
  else
    let rf := heardLeader rf (isa_Term args) (isa_LeaderId args) now in
    if bool_decide (snapshotIndex rf >= isa_LastIncludedIndex args)%Z ||
       bool_decide (lastApplied rf >= isa_LastIncludedIndex args)%Z then Ok (rf, reply)
    else
      l ← (if bool_decide (lastIndex (log rf) > isa_LastIncludedIndex args)%Z
           then cutOffHead (log rf) (isa_LastIncludedIndex args)
           else Ok (mkLog [mkEntry (isa_LastIncludedTerm args) None]
                          (isa_LastIncludedIndex args)));
      let rf := set_log l rf in
      let rf := set_snapshotIndex (isa_LastIncludedIndex args) rf in
      let rf := set_snapshotTerm (isa_LastIncludedTerm args) rf in
      let rf := set_snapshot (isa_Data args) rf in
      Ok (persist rf, reply).

(** ** Leader *)

Definition getSortedMatchIndex rf : Res (list Z) :=
  m ← upd (matchIndex rf) (me rf) (lastIndex (log rf));
  Ok (sort_Ints m).

Definition leaderCommit rf : Res (Raft C) :=
  serverMatchedIndex ← getSortedMatchIndex rf;
  ci ← idx serverMatchedIndex ((zlen (matchIndex rf) + 1) / 2 - 1);
  if bool_decide (ci ≤ snapshotIndex rf)%Z then Ok rf
  else
    e ← entry (log rf) ci;
    lowest ← idx serverMatchedIndex 0;
    if (bool_decide (eTerm e = currentTerm rf) || bool_decide (ci = lowest)) &&
       bool_decide (ci > commitIndex rf)%Z
    then Ok (set_commitIndex ci rf) else Ok rf.

(** [sendInstallSnapshot] after its call returned [ok]. *)
Definition sendInstallSnapshot rf (server : Z) (args : InstallSnapshotArgs)
    (reply : InstallSnapshotReply) : Res (Raft C) :=
  if bool_decide (isa_Term args ≠ currentTerm rf) then Ok rf
  else if bool_decide (isr_Term reply > currentTerm rf)%Z then Ok (stepDown rf (isr_Term reply))
  else
    m ← idx (matchIndex rf) server;
    if bool_decide (m < isa_LastIncludedIndex args)%Z then
      ms ← upd (matchIndex rf) server (isa_LastIncludedIndex args);
      ns ← upd (nextIndex rf) server (isa_LastIncludedIndex args + 1)%Z;
      Ok (set_nextIndex ns (set_matchIndex ms rf))
    else Ok rf.

(** The loop of [sendAppendEntries] that steps over the entries of [term],
    from slot [k] down to slot 0; returns [newNextIndex] before the final
    increment. *)
Fixpoint stepOverTerm (l : Log C) (term : Z) (k : nat) : Res Z :=
  e ← entry l (start l + Z.of_nat k);
  if bool_decide (eTerm e = term) then
    match k with
    | O => Ok (start l)
    | S k => stepOverTerm l term k
    end
  else Ok (start l + Z.of_nat k)%Z.

(** The new nextIndex a rejection asks for. *)
Definition conflictNextIndex rf (reply : AppendEntriesReply) : Res Z :=
  if bool_decide (aer_ConflictIndex reply < snapshotIndex rf)%Z
  then Ok (aer_ConflictIndex reply + 1)%Z
  else
    e ← entry (log rf) (aer_ConflictIndex reply);
    if bool_decide (eTerm e = aer_ConflictTerm reply) then Ok (aer_ConflictIndex reply + 1)%Z
    else
      n ← stepOverTerm (log rf) (eTerm e) (Z.to_nat (aer_ConflictIndex reply - start (log rf)));
      Ok (n + 1)%Z.

(** [sendAppendEntries] after its call returned [ok]. *)
Definition sendAppendEntries rf (server : Z) (args : AppendEntriesArgs)
    (reply : AppendEntriesReply) : Res (Raft C) :=
  if bool_decide (aea_Term args ≠ currentTerm rf) || bool_decide (role rf ≠ LEADER) then Ok rf
  else if aer_Success reply then
    let newMatch := (aea_PrevLogIndex args + zlen (aea_Entries args))%Z in
    m ← idx (matchIndex rf) server;
    rf ← (if bool_decide (m < newMatch)%Z then
            ms ← upd (matchIndex rf) server newMatch;
            leaderCommit (set_matchIndex ms rf)
          else Ok rf);
    m ← idx (matchIndex rf) server;
    ns ← upd (nextIndex rf) server (m + 1)%Z;
    Ok (set_nextIndex ns rf)
  else if bool_decide (aer_Term reply > currentTerm rf)%Z then Ok (stepDown rf (aer_Term reply))
  else
    newNextIndex ← conflictNextIndex rf reply;
    m ← idx (matchIndex rf) server;
    ns ← upd (nextIndex rf) server (Max (m + 1) newNextIndex);
    Ok (set_nextIndex ns rf).

(** The request [leaderLogReplication] sends to one peer. *)
Definition replicateTo rf (peerId : Z) : Res LeaderMsg :=
  n ← idx (nextIndex rf) peerId;
  let prevLogIndex := (n - 1)%Z in
  m ← idx (matchIndex rf) peerId;
  _ ← Assert (bool_decide (m ≤ prevLogIndex)%Z);
  if bool_decide (prevLogIndex < snapshotIndex rf)%Z then
    Ok (MsgInstallSnapshot (mkInstallSnapshotArgs (currentTerm rf) (me rf)
          (snapshotIndex rf) (snapshotTerm rf) (snapshot rf)))
  else
    e ← entry (log rf) prevLogIndex;
    es ← slice (log rf) (prevLogIndex + 1);
    Ok (MsgAppendEntries (mkAppendEntriesArgs (currentTerm rf) (me rf)
          prevLogIndex (eTerm e) es (commitIndex rf))).

Fixpoint replicateToAll rf (peers : list Z) : Res (list (Z * LeaderMsg)) :=
  match peers with
  | [] => Ok []
  | p :: peers =>
      m ← replicateTo rf p;
      ms ← replicateToAll rf peers;
      Ok ((p, m) :: ms)
  end.

Definition leaderLogReplication rf : Res (list (Z * LeaderMsg)) :=
  replicateToAll rf (votePeers rf).

(** One iteration of [leaderHeartbeats] after its select (which empties the
    notification channel or times out): the messages to send, and whether
    the loop goes on. *)
Definition leaderHeartbeats_iter rf (notified : bool) : Res (Raft C * list (Z * LeaderMsg) * bool) :=
  if Killed rf then Ok (rf, [], false)
  else
    let rf := if notified then set_heartbeatNotifyCh false rf else rf in
    if bool_decide (role rf = LEADER) then
      ms ← leaderLogReplication rf; Ok (rf, ms, true)
    else Ok (rf, [], false).

(** ** Specification vocabulary *)

(** What the leader knows each peer to hold, itself included. *)
Definition matched rf : list Z := <[Z.to_nat (me rf) := lastIndex (log rf)]> (matchIndex rf).

(** The leader's bookkeeping: nothing is assumed replicated beyond the log,
    and nextIndex lies above matchIndex and at most one past the log. *)
Record leader_wf rf : Prop := {
  lwf_raft : raft_wf rf;
  lwf_role : role rf = LEADER;
  lwf_next : ∀ i m n, matchIndex rf !! i = Some m → nextIndex rf !! i = Some n →
    (0 ≤ m < n)%Z ∧ (n ≤ lastIndex (log rf) + 1)%Z;
}.

(** A majority of [n] peers. *)
Definition is_majority (n : nat) (k : Z) : Prop := (2 * k > Z.of_nat n)%Z.

(** ** Lemmas *)

Lemma heardLeader_wf rf t l now : raft_wf rf → raft_wf (heardLeader rf t l now).
Proof.
  intros Hwf. unfold heardLeader.
  assert (raft_wf (set_leaderId l (resetElectionTimer now rf))) by (by destruct Hwf).
  case_match; [by apply stepDown_wf|done].
Qed.

Lemma heardLeader_frame rf t l now :
  let rf' := heardLeader rf t l now in
  log rf' = log rf ∧ snapshotIndex rf' = snapshotIndex rf ∧ snapshotTerm rf' = snapshotTerm rf ∧
  commitIndex rf' = commitIndex rf ∧ lastApplied rf' = lastApplied rf ∧
  me rf' = me rf ∧ npeers rf' = npeers rf.
Proof. unfold heardLeader. by case_match. Qed.

Lemma heardLeader_term rf t l now :
  (currentTerm rf ≤ t)%Z → currentTerm (heardLeader rf t l now) = t.
Proof.
  intros Hle. unfold heardLeader. simpl.
  destruct (_ || _) eqn:E; [done|]. apply orb_false_iff in E as [E _].
  apply bool_decide_eq_false in E. simpl in *. lia.
Qed.

Lemma followerCommit_wf rf c : raft_wf rf → raft_wf (followerCommit rf c).
Proof. intros Hwf. unfold followerCommit. case_bool_decide; [by destruct Hwf|done]. Qed.

(** Replacing the log by a well-formed one with the same base and saving. *)
Lemma set_log_wf rf l :
  raft_wf rf → log_wf l → index0 l = index0 (log rf) → raft_wf (persistSate (set_log l rf)).
Proof.
  intros [? ? Hb [? _] ? ?] Hl H0. split; try done.
  - simpl. congruence.
  - by apply synced_persistSate.
Qed.

Lemma leader_lookup rf i :
  leader_wf rf → (0 ≤ i < Z.of_nat (npeers rf))%Z →
  ∃ m n, idx (matchIndex rf) i = Ok m ∧ idx (nextIndex rf) i = Ok n ∧
    (0 ≤ m < n)%Z ∧ (n ≤ lastIndex (log rf) + 1)%Z.
Proof.
  intros [Hwf Hr Hn] Hi. destruct (wf_lead _ Hwf Hr) as [Hl1 Hl2].
  destruct (idx_returns (matchIndex rf) i) as (m & ? & ?); [unfold zlen; lia|].
  destruct (idx_returns (nextIndex rf) i) as (n & ? & ?); [unfold zlen; lia|].
  exists m, n. destruct (Hn (Z.to_nat i) m n); [done..|]. done.
Qed.

Lemma matched_bound rf m :
  leader_wf rf → m ∈ matched rf → (m ≤ lastIndex (log rf))%Z.
Proof.
  intros [Hwf Hr Hn] [i Hi]%list_elem_of_lookup. unfold matched in Hi.
  destruct (wf_lead _ Hwf Hr) as [Hl1 Hl2].
  apply list_lookup_insert_Some in Hi as [(? & <- & ?)|[? Hi]]; [lia|].
  destruct (lookup_lt_is_Some_2 (nextIndex rf) i) as [n Hni].
  { apply lookup_lt_Some in Hi. lia. }
  destruct (Hn i m n); [done..|]. lia.
Qed.

Lemma matched_length rf : length (matched rf) = length (matchIndex rf).
Proof. apply length_insert. Qed.

(** ** Properties: the leader *)

Lemma leaderCommit_returns rf : leader_wf rf → ∃ rf', leaderCommit rf = Ok rf'.
Proof.
  intros Hl. pose proof Hl as [Hwf Hr _]. destruct (wf_lead _ Hwf Hr) as [_ Hlen].
  pose proof (wf_me _ Hwf) as Hme. pose proof (wf_base _ Hwf) as Hbase.
  unfold leaderCommit, getSortedMatchIndex.
  assert (upd (matchIndex rf) (me rf) (lastIndex (log rf)) = Ok (matched rf)) as ->.
  { apply upd_Ok. split; [unfold zlen; lia|done]. }
  res_simpl. set (srt := sort_Ints (matched rf)).
  assert (Hsl : zlen srt = Z.of_nat (npeers rf)).
  { unfold zlen, srt. rewrite sort_Ints_length, matched_length. lia. }
  destruct (idx_returns srt ((zlen (matchIndex rf) + 1) / 2 - 1)) as (N & -> & HN).
  { rewrite Hsl. unfold zlen. rewrite Hlen. Z.to_euclidean_division_equations. lia. }
  res_simpl. case_bool_decide; [by eexists|].
  assert (N ≤ lastIndex (log rf))%Z.
  { apply (matched_bound rf); [done|]. rewrite <-(sort_Ints_perm (matched rf)).
    by eapply list_elem_of_lookup_2. }
  destruct (entry_returns (log rf) N) as [e ->]; [lia|].
  destruct (idx_returns srt 0) as (lo & Hlo & _); [lia|]. res_simpl. rewrite Hlo. res_simpl.
  destruct (_ && _); by eexists.
Qed.

(** What the index is that [leaderCommit] advances to. *)
Lemma leaderCommit_commits rf rf' :
  raft_wf rf → role rf = LEADER → leaderCommit rf = Ok rf' →
  rf' = rf ∨
  ∃ N e, rf' = set_commitIndex N rf ∧ (commitIndex rf < N)%Z ∧ (snapshotIndex rf < N)%Z ∧
    entry (log rf) N = Ok e ∧
    is_majority (npeers rf) (count_ge N (matched rf)) ∧
    (∀ M, (N < M)%Z → ¬ is_majority (npeers rf) (count_ge M (matched rf))) ∧
    (eTerm e = currentTerm rf ∨ ∀ m, m ∈ matched rf → (N ≤ m)%Z).
Proof.
  intros Hwf Hr H. destruct (wf_lead _ Hwf Hr) as [_ Hlen]. unfold leaderCommit, getSortedMatchIndex in H.
  destruct (upd _ _ _) as [ms|] eqn:Hu; [|done]. res_simpl. apply upd_Ok in Hu as [Hme ->]. fold (matched rf) in H.
  set (srt := sort_Ints (matched rf)) in *. set (p := ((zlen (matchIndex rf) + 1) / 2 - 1)%Z) in *.
  destruct (idx srt p) as [N|] eqn:HN; [|done]. res_simpl. apply idx_Ok in HN as [Hp HN].
  case_bool_decide as Hs; [injection H as <-; by left|].
  destruct (entry (log rf) N) as [e|] eqn:He; [|done]. res_simpl.
  destruct (idx srt 0) as [lo|] eqn:Hlo; [|done]. res_simpl. apply idx_Ok in Hlo as [_ Hlo].
  destruct (_ && _) eqn:Hc; injection H as <-; [right|by left].
  apply andb_true_iff in Hc as [Hc1 Hc2%bool_decide_eq_true].
  apply orb_true_iff in Hc1. rewrite !bool_decide_eq_true in Hc1.
  destruct (sorted_count_ge srt (Z.to_nat p) N) as [Hge Hlt]; [apply sort_Ints_sorted|done|].
  assert (Hsl : zlen srt = Z.of_nat (npeers rf)).
  { unfold zlen, srt. rewrite sort_Ints_length, matched_length. lia. }
  assert (Hmaj : (2 * (Z.of_nat (npeers rf) - p) > Z.of_nat (npeers rf))%Z ∧
    (2 * (Z.of_nat (npeers rf) - p - 1) ≤ Z.of_nat (npeers rf))%Z).
  { unfold p, zlen. rewrite Hlen. Z.to_euclidean_division_equations. lia. }
  rewrite Z2Nat.id in Hge, Hlt by done. exists N, e.
  rewrite <-(count_ge_perm N _ _ (sort_Ints_perm (matched rf))).
  split_and!; try done; try lia.
  - unfold is_majority. fold srt. lia.
  - intros M HM. rewrite <-(count_ge_perm M _ _ (sort_Ints_perm (matched rf))).
    specialize (Hlt M HM). unfold is_majority. fold srt. lia.
  - destruct Hc1 as [?| ->]; [by left|right]. intros m Hm.
    rewrite <-(sort_Ints_perm (matched rf)) in Hm. fold srt in Hm.
    destruct (sorted_split srt 0 lo) as [_ Hhi]; [apply sort_Ints_sorted|done|].
    destruct srt as [|x srt']; [done|]. simpl in Hlo. injection Hlo as ->.
    apply elem_of_cons in Hm as [->|Hm]; [lia|]. by apply Hhi.
Qed.

(** The leader's commit rule.  On consistent bookkeeping [leaderCommit]
    does not panic, and it either changes nothing or advances commitIndex to
    an index above the snapshot that a majority of the peers (the leader
    included) hold and that is the largest such index; the entry there is of
    the current term, or every peer holds it (the extra case its comment
    adds to the rule of Figure 8). *)
Theorem leaderCommit_spec rf :
  leader_wf rf →
  ∃ rf', leaderCommit rf = Ok rf' ∧
    (rf' = rf ∨
     ∃ N e, rf' = set_commitIndex N rf ∧ (commitIndex rf < N)%Z ∧ (snapshotIndex rf < N)%Z ∧
       entry (log rf) N = Ok e ∧
       is_majority (npeers rf) (count_ge N (matched rf)) ∧
       (∀ M, (N < M)%Z → ¬ is_majority (npeers rf) (count_ge M (matched rf))) ∧
       (eTerm e = currentTerm rf ∨ ∀ m, m ∈ matched rf → (N ≤ m)%Z)).
Proof.
  intros Hl. destruct (leaderCommit_returns rf Hl) as [rf' H]. exists rf'. split; [done|].
  by apply leaderCommit_commits; [apply Hl..|].
Qed.

(** What the leader sends to a peer whose nextIndex is [n]. *)
Definition good_msg rf (n : Z) (msg : LeaderMsg) : Prop :=
  match msg with
  | MsgAppendEntries a =>
      (snapshotIndex rf < n)%Z ∧ aea_Term a = currentTerm rf ∧ aea_LeaderId a = me rf ∧
      aea_PrevLogIndex a = (n - 1)%Z ∧
      (∃ e, entry (log rf) (n - 1) = Ok e ∧ aea_PrevLogTerm a = eTerm e) ∧
      (n + zlen (aea_Entries a) = lastIndex (log rf) + 1)%Z ∧
      (∀ k e, aea_Entries a !! k = Some e → entry (log rf) (n + Z.of_nat k) = Ok e) ∧
      aea_LeaderCommitIndex a = commitIndex rf
  | MsgInstallSnapshot a =>
      (n ≤ snapshotIndex rf)%Z ∧
      a = mkInstallSnapshotArgs (currentTerm rf) (me rf) (snapshotIndex rf)
            (snapshotTerm rf) (snapshot rf)
  end.

Lemma replicateTo_spec rf p :
  leader_wf rf → (0 ≤ p < Z.of_nat (npeers rf))%Z →
  ∃ n msg, idx (nextIndex rf) p = Ok n ∧ replicateTo rf p = Ok msg ∧ good_msg rf n msg.
Proof.
  intros Hl Hp. destruct (leader_lookup rf p Hl Hp) as (m & n & Hm & Hn & Hmn & Hnl).
  pose proof (wf_base _ (lwf_raft _ Hl)) as Hb.
  unfold replicateTo. rewrite Hn, Hm. simpl.
  rewrite (bool_decide_true (m ≤ n - 1)%Z) by lia. simpl. case_bool_decide.
  - exists n. eexists. split; [done|]. split; [done|]. split; [lia|done].
  - destruct (entry_returns (log rf) (n - 1)) as [e He]; [lia|]. rewrite He. simpl.
    unfold slice. replace (n - 1 + 1 - index0 (log rf))%Z with (n - index0 (log rf))%Z by lia.
    unfold lastIndex in Hnl.
    assert (slice_from (entries (log rf)) (n - index0 (log rf)) =
      Ok (drop (Z.to_nat (n - index0 (log rf))) (entries (log rf)))) as ->.
    { apply slice_from_Ok. split; [lia|done]. }
    simpl. exists n. eexists. split; [done|]. split; [done|].
    unfold good_msg; simpl. split_and!; try done; [lia|by eauto| |].
    + unfold lastIndex, zlen in *. rewrite length_drop. lia.
    + intros k e' Hk. apply entry_lookup. split; [lia|].
      rewrite lookup_drop in Hk. rewrite <-Hk. f_equal. lia.
Qed.

Lemma votePeers_spec rf p :
  p ∈ votePeers rf ↔ (0 ≤ p < Z.of_nat (npeers rf))%Z ∧ p ≠ me rf.
Proof.
  unfold votePeers. rewrite list_elem_of_filter, list_elem_of_fmap. split.
  - intros (? & y & -> & Hy). rewrite elem_of_seq in Hy. split; [lia|done].
  - intros [? ?]. split; [done|]. exists (Z.to_nat p). rewrite elem_of_seq. lia.
Qed.

Lemma replicateToAll_spec rf ps :
  leader_wf rf → (∀ p, p ∈ ps → (0 ≤ p < Z.of_nat (npeers rf))%Z) →
  ∃ msgs, replicateToAll rf ps = Ok msgs ∧ msgs.*1 = ps ∧
    (∀ p msg, (p, msg) ∈ msgs → ∃ n, idx (nextIndex rf) p = Ok n ∧ good_msg rf n msg).
Proof.
  intros Hl. induction ps as [|p ps IH]; intros Hps.
  - exists []. split_and!; [done..|]. by intros ? ? ?%elem_of_nil.
  - destruct (replicateTo_spec rf p Hl) as (n & msg & Hn & Hmsg & Hg); [apply Hps; left|].
    destruct IH as (msgs & Hms & Hfst & Hall); [intros; apply Hps; by right|].
    exists ((p, msg) :: msgs). simpl. rewrite Hmsg, Hms. simpl.
    split_and!; [done|by f_equal|].
    intros q msg' [[= -> ->]|Hin]%elem_of_cons; [by eauto|by apply Hall].
Qed.

(** The leader's broadcast.  With consistent bookkeeping
    [leaderLogReplication] passes its assertion, sends exactly one message
    to every other peer, and each message is right for that peer: the whole
    suffix of the log from nextIndex on with the entry before it, or the
    snapshot when that entry is compacted away. *)
Theorem leaderLogReplication_spec rf :
  leader_wf rf →
  ∃ msgs, leaderLogReplication rf = Ok msgs ∧ msgs.*1 = votePeers rf ∧
    (∀ p, p ∈ msgs.*1 ↔ (0 ≤ p < Z.of_nat (npeers rf))%Z ∧ p ≠ me rf) ∧
    (∀ p msg, (p, msg) ∈ msgs → ∃ n, idx (nextIndex rf) p = Ok n ∧ good_msg rf n msg).
Proof.
  intros Hl. destruct (replicateToAll_spec rf (votePeers rf) Hl) as (msgs & ? & Hf & ?).
  { intros p Hp%votePeers_spec. lia. }
  exists msgs. split_and!; try done. intros p. rewrite Hf. apply votePeers_spec.
Qed.

Lemma stepOverTerm_spec (l : Log C) t k :
  (start l + Z.of_nat k ≤ lastIndex l)%Z →
  ∃ r, stepOverTerm l t k = Ok r ∧ (start l ≤ r ≤ start l + Z.of_nat k)%Z ∧
    (r = start l ∨ ∃ e, entry l r = Ok e ∧ eTerm e ≠ t) ∧
    (∀ i, (r < i ≤ start l + Z.of_nat k)%Z → ∃ e, entry l i = Ok e ∧ eTerm e = t) ∧
    ((0 < k)%nat → (∃ e, entry l (start l + Z.of_nat k) = Ok e ∧ eTerm e = t) →
     (r < start l + Z.of_nat k)%Z).
Proof.
  induction k as [|k IH]; intros Hk; cbn [stepOverTerm].
  - destruct (entry_returns l (start l + Z.of_nat 0)) as [e He]; [unfold start in *; lia|].
    rewrite He. rewrite Z.add_0_r in *. cbn [mbind Res_bind]. exists (start l).
    case_bool_decide; split_and!; try done; try lia; auto. all: intros; lia.
  - destruct (entry_returns l (start l + Z.of_nat (S k))) as [e He]; [unfold start in *; lia|].
    rewrite He. cbn [mbind Res_bind]. case_bool_decide as Ht.
    + destruct IH as (r & -> & Hr & Hstop & Hall & _); [lia|]. exists r.
      split_and!; try done; try lia.
      intros i Hi. destruct (decide (i = start l + Z.of_nat (S k))%Z) as [->|]; [by eauto|].
      apply Hall. lia.
    + eexists. split; [done|]. split_and!; try lia; [by eauto|..].
      intros _ (e' & He' & <-). congruence.
Qed.

(** Moving nextIndex back.  On a rejection with a conflict inside the
    leader's log, the loop terminates and the new nextIndex is at most one
    past the conflict and above the snapshot; every entry it skips has the
    leader's term at the conflict, and the entry below it has another term
    unless it is the first slot.  So above the snapshot each rejection skips
    exactly one term and makes progress. *)
Theorem conflictNextIndex_spec rf reply e :
  raft_wf rf →
  (snapshotIndex rf ≤ aer_ConflictIndex reply)%Z →
  entry (log rf) (aer_ConflictIndex reply) = Ok e →
  eTerm e ≠ aer_ConflictTerm reply →
  ∃ n, conflictNextIndex rf reply = Ok n ∧
    (snapshotIndex rf < n ≤ aer_ConflictIndex reply + 1)%Z ∧
    (∀ i, (n ≤ i ≤ aer_ConflictIndex reply)%Z → ∃ e', entry (log rf) i = Ok e' ∧ eTerm e' = eTerm e) ∧
    (n - 1 = snapshotIndex rf ∨ ∃ e', entry (log rf) (n - 1) = Ok e' ∧ eTerm e' ≠ eTerm e)%Z ∧
    ((snapshotIndex rf < aer_ConflictIndex reply)%Z → (n ≤ aer_ConflictIndex reply)%Z).
Proof.
  intros Hwf Hlo He Hne. pose proof (wf_base _ Hwf) as Hb. pose proof (entry_range _ _ _ He) as Hrange.
  unfold conflictNextIndex. rewrite bool_decide_false, He by lia. simpl.
  rewrite bool_decide_false by done.
  set (k := Z.to_nat (aer_ConflictIndex reply - start (log rf))).
  assert (Hk : aer_ConflictIndex reply = (start (log rf) + Z.of_nat k)%Z) by (unfold k, start; lia).
  destruct (stepOverTerm_spec (log rf) (eTerm e) k) as (r & -> & Hr & Hstop & Hall & Hprog); [lia|].
  simpl. unfold start in *. exists (r + 1)%Z. split; [done|].
  replace (r + 1 - 1)%Z with r by lia. split_and!; try lia.
  - intros i Hi. apply Hall. lia.
  - destruct Hstop as [->|?]; [by left|by right].
  - intros ?. enough (r < index0 (log rf) + Z.of_nat k)%Z by lia.
    apply Hprog; [lia|]. rewrite <-Hk. by eauto.
Qed.

(** A reply fits the request it answers: the conflict it reports is not
    beyond the entry the request named. *)
Definition good_reply (args : AppendEntriesArgs) (reply : AppendEntriesReply) : Prop :=
  aer_Success reply = false → (0 ≤ aer_ConflictIndex reply ≤ aea_PrevLogIndex args)%Z.

(** Updating the bookkeeping of one peer keeps it consistent. *)
Lemma leader_wf_upd rf ms ns i m n :
  leader_wf rf → (0 ≤ i)%Z →
  ms = <[Z.to_nat i := m]> (matchIndex rf) ∨ ms = matchIndex rf ∧ matchIndex rf !! Z.to_nat i = Some m →
  ns = <[Z.to_nat i := n]> (nextIndex rf) →
  (0 ≤ m < n)%Z → (n ≤ lastIndex (log rf) + 1)%Z →
  leader_wf (set_nextIndex ns (set_matchIndex ms rf)).
Proof.
  intros [Hwf Hr Hn] Hi Hms -> Hmn Hnl. pose proof Hwf as [? ? ? ? ? Hlen].
  destruct (Hlen Hr) as [Hl1 Hl2]. split; [|done|].
  - split; try done. intros _. simpl. rewrite length_insert.
    destruct Hms as [->|[-> _]]; by rewrite ?length_insert.
  - simpl. intros j m' n' Hm' Hn'.
    destruct (decide (j = Z.to_nat i)) as [->|Hj].
    + apply list_lookup_insert_Some in Hn' as [(_ & <- & _)|[? _]]; [|done].
      destruct Hms as [->|[-> Hm]]; [|by simplify_eq].
      apply list_lookup_insert_Some in Hm' as [(_ & <- & _)|[? _]]; done.
    + rewrite list_lookup_insert_ne in Hn' by done.
      destruct Hms as [->|[-> Hm]]; [rewrite list_lookup_insert_ne in Hm' by done|];
        by apply (Hn j).
Qed.

Lemma conflictNextIndex_bound rf reply :
  raft_wf rf → (0 ≤ aer_ConflictIndex reply ≤ lastIndex (log rf))%Z →
  ∃ n, conflictNextIndex rf reply = Ok n ∧ (n ≤ aer_ConflictIndex reply + 1)%Z.
Proof.
  intros Hwf Hc. pose proof (wf_base _ Hwf) as Hb.
  destruct (decide (aer_ConflictIndex reply < snapshotIndex rf)%Z) as [Hlt|Hge].
  { unfold conflictNextIndex. rewrite bool_decide_true by done. eexists. split; [done|lia]. }
  destruct (entry_returns (log rf) (aer_ConflictIndex reply)) as [e He]; [lia|].
  destruct (decide (eTerm e = aer_ConflictTerm reply)) as [Heq|Hne].
  { unfold conflictNextIndex. rewrite bool_decide_false, He by lia. simpl.
    rewrite bool_decide_true by done. eexists. split; [done|lia]. }
  unfold conflictNextIndex. rewrite bool_decide_false, He by lia. simpl.
  rewrite bool_decide_false by done.
  destruct (stepOverTerm_spec (log rf) (eTerm e)
    (Z.to_nat (aer_ConflictIndex reply - start (log rf)))) as (r & -> & Hr & _); unfold start in *; [lia|].
  simpl. eexists. split; [done|]. lia.
Qed.

Lemma leaderCommit_frame rf rf' :
  leaderCommit rf = Ok rf' → rf' = rf ∨ ∃ N, rf' = set_commitIndex N rf.
Proof.
  unfold leaderCommit. intros H. res_inv.
  destruct (bool_decide (_ ≤ snapshotIndex rf)%Z); res_inv; [by left|].
  destruct (_ && _); res_inv; eauto.
Qed.

(** Committing does not look at nextIndex. *)
Lemma leaderCommit_nextIndex rf ns :
  leaderCommit (set_nextIndex ns rf) = set_nextIndex ns <$> leaderCommit rf.
Proof.
  unfold leaderCommit, getSortedMatchIndex.
  change (matchIndex (set_nextIndex ns rf)) with (matchIndex rf).
  destruct (upd _ _ _) as [ms|]; [|done]. res_simpl.
  destruct (idx _ (_ / 2 - 1)) as [ci|]; [|done]. res_simpl.
  change (snapshotIndex (set_nextIndex ns rf)) with (snapshotIndex rf).
  case_bool_decide; [done|].
  change (log (set_nextIndex ns rf)) with (log rf).
  destruct (entry _ _); [|done]. res_simpl. destruct (idx _ 0); [|done]. res_simpl.
  change (currentTerm (set_nextIndex ns rf)) with (currentTerm rf).
  change (commitIndex (set_nextIndex ns rf)) with (commitIndex rf).
  by destruct (_ && bool_decide (ci > commitIndex rf)%Z).
Qed.

Lemma leader_wf_commit rf N : leader_wf rf → leader_wf (set_commitIndex N rf).
Proof. intros [[? ? ? ? ? ?] ? ?]. by split. Qed.

(** Recording that a peer matches up to [M] and committing does not panic. *)
Lemma advance_match rf server M m n :
  leader_wf rf → (0 ≤ server)%Z →
  idx (matchIndex rf) server = Ok m → idx (nextIndex rf) server = Ok n →
  (m < M ≤ lastIndex (log rf))%Z → (0 ≤ m < n)%Z → (n ≤ lastIndex (log rf) + 1)%Z →
  let ms := <[Z.to_nat server := M]> (matchIndex rf) in
  ∃ rf1, leaderCommit (set_matchIndex ms rf) = Ok rf1 ∧
    matchIndex rf1 = ms ∧ nextIndex rf1 = nextIndex rf ∧ currentTerm rf1 = currentTerm rf ∧
    leader_wf (set_nextIndex (<[Z.to_nat server := (M + 1)%Z]> (nextIndex rf)) rf1).
Proof.
  intros Hl Hs Hm Hn HM Hmn Hnl ms.
  assert (Hupd : ∀ k, (M < k ≤ lastIndex (log rf) + 1)%Z →
    leader_wf (set_nextIndex (<[Z.to_nat server := k]> (nextIndex rf)) (set_matchIndex ms rf))).
  { intros k Hk. eapply (leader_wf_upd rf _ _ server M k); [done|done|by left|done|lia|lia]. }
  destruct (leaderCommit_returns _ (Hupd (M + 1)%Z ltac:(lia))) as (rf2 & Hc).
  rewrite leaderCommit_nextIndex in Hc.
  destruct (leaderCommit (set_matchIndex ms rf)) as [rf1|] eqn:Hc1; [|done].
  exists rf1. split; [done|].
  destruct (leaderCommit_frame _ _ Hc1) as [->|[N ->]]; split_and!; try done.
  - apply Hupd. lia.
  - exact (leader_wf_commit _ N (Hupd (M + 1)%Z ltac:(lia))).
Qed.

(** The leader's reply handler keeps its bookkeeping consistent.  For
    a request this leader could have sent (its entries end inside the log)
    and a reply that fits it, [sendAppendEntries] does not panic, and the
    peer is still a consistent leader or has stepped down to the reply's
    newer term. *)
Theorem sendAppendEntries_wf rf server args reply :
  leader_wf rf → (0 ≤ server < Z.of_nat (npeers rf))%Z →
  (0 ≤ aea_PrevLogIndex args)%Z →
  (aea_PrevLogIndex args + zlen (aea_Entries args) ≤ lastIndex (log rf))%Z →
  good_reply args reply →
  ∃ rf', sendAppendEntries rf server args reply = Ok rf' ∧
    (leader_wf rf' ∧ currentTerm rf' = currentTerm rf ∨
     rf' = stepDown rf (aer_Term reply) ∧ (currentTerm rf < aer_Term reply)%Z).
Proof.
  intros Hl Hs Hp Hlast Hg. destruct (leader_lookup rf server Hl Hs) as (m & n & Hm & Hn & Hmn & Hnl).
  pose proof (idx_range _ _ _ Hm) as Hrm. pose proof (idx_range _ _ _ Hn) as Hrn.
  pose proof (zlen_nonneg (aea_Entries args)) as Hz. pose proof Hm as Hm'. apply idx_Ok in Hm' as [_ Hm'].
  unfold sendAppendEntries. rewrite (lwf_role _ Hl).
  rewrite (bool_decide_false (LEADER ≠ LEADER)), orb_false_r by (intros ?; done).
  case_bool_decide; [by eauto|].
  set (M := (aea_PrevLogIndex args + zlen (aea_Entries args))%Z) in *.
  destruct (aer_Success reply) eqn:Hsucc.
  - rewrite Hm. res_simpl. destruct (decide (m < M)%Z) as [Hlt|Hge].
    + rewrite bool_decide_true by done. rewrite (upd_in (matchIndex rf)) by done. res_simpl.
      destruct (advance_match rf server M m n) as (rf1 & -> & Hm1 & Hn1 & Ht1 & Hl1); [done|lia|done|done|lia|done|done|].
      res_simpl. rewrite Hm1, Hn1.
      assert (idx (<[Z.to_nat server:=M]> (matchIndex rf)) server = Ok M) as ->.
      { apply idx_Ok. split; [lia|]. apply list_lookup_insert_eq. unfold zlen in *. lia. }
      res_simpl. rewrite upd_in by done. res_simpl. by eauto.
    + rewrite bool_decide_false by done. res_simpl. rewrite Hm. res_simpl.
      rewrite upd_in by done. res_simpl.
      eexists. split; [done|]. left. split; [|done].
      eapply (leader_wf_upd rf _ _ server m (m + 1)); [done|lia|by right|done|lia|lia].
  - case_bool_decide as Ht; [eexists; split; [done|]; right; split; [done|lia]|].
    specialize (Hg Hsucc).
    destruct (conflictNextIndex_bound rf reply) as (nn & -> & Hnn); [apply Hl|unfold M in *; lia|].
    res_simpl. rewrite Hm. res_simpl. rewrite upd_in by done. res_simpl.
    eexists. split; [done|]. left. split; [|done]. rewrite Max_max.
    eapply (leader_wf_upd rf _ _ server m); [done|lia|by right|done|lia|unfold M in *; lia].
Qed.

(** ** Properties: the follower *)

(** C25: the AppendEntries handler, on every request.  It panics only when
    the request starts below the snapshot and has another term than the
    snapshot at its index.  Otherwise it keeps the peer's invariant and
    answers with the term the peer had.  A request of an older term changes
    nothing.  Else the peer is in the request's term, and: when its log is
    too short it rejects with its last entry and changes no entry; when it
    has another term at the previous index it rejects with that term and
    drops the entries from there on (never the snapshot's entry); when the
    previous index is below the snapshot it accepts and stores what the
    request has from the snapshot on; and when the previous entry agrees it
    accepts and stores the entries behind it.  Stored entries overwrite,
    nothing below them changes, and what was behind them stays unless it is
    older than they are, in which case the log ends with them.  After storing
    commitIndex follows the leader's within the log; else it stays. *)
Theorem AppendEntries_spec rf args now :
  raft_wf rf →
  let prev := aea_PrevLogIndex args in
  let skip := (snapshotIndex rf - prev - 1)%Z in
  let fits := ∀ e, aea_Entries args !! Z.to_nat skip = Some e → eTerm e = snapshotTerm rf in
  ((currentTerm rf ≤ aea_Term args)%Z → (prev < snapshotIndex rf)%Z → fits) →
  ∃ rf' reply, AppendEntries rf args now = Ok (rf', reply) ∧ raft_wf rf' ∧ aer_Term reply = currentTerm rf ∧
    let stores index es := stored_at (log rf) (log rf') index es ∧
      commitIndex rf' = (if bool_decide (commitIndex rf < aea_LeaderCommitIndex args)%Z
                         then Z.min (aea_LeaderCommitIndex args) (lastIndex (log rf')) else commitIndex rf) in
    if bool_decide (aea_Term args < currentTerm rf)%Z then rf' = rf ∧ aer_Success reply = false
    else currentTerm rf' = aea_Term args ∧
      if bool_decide (lastIndex (log rf) < prev)%Z then
        aer_Success reply = false ∧ log rf' = log rf ∧ commitIndex rf' = commitIndex rf ∧
        aer_ConflictIndex reply = lastIndex (log rf) ∧
        ∃ e, entry (log rf) (lastIndex (log rf)) = Ok e ∧ aer_ConflictTerm reply = eTerm e
      else if bool_decide (prev < snapshotIndex rf)%Z then
        aer_Success reply = true ∧
        if bool_decide (zlen (aea_Entries args) ≤ skip)%Z
        then log rf' = log rf ∧ commitIndex rf' = commitIndex rf
        else stores (snapshotIndex rf) (drop (Z.to_nat skip) (aea_Entries args))
      else ∃ e, entry (log rf) prev = Ok e ∧
        if bool_decide (eTerm e = aea_PrevLogTerm args)
        then aer_Success reply = true ∧ stores (prev + 1)%Z (aea_Entries args)
        else aer_Success reply = false ∧ commitIndex rf' = commitIndex rf ∧
          aer_ConflictIndex reply = prev ∧ aer_ConflictTerm reply = eTerm e ∧
          lastIndex (log rf') = Z.max (snapshotIndex rf) (prev - 1) ∧
          ∀ i, (i < prev ∨ i = snapshotIndex rf)%Z → entry (log rf') i = entry (log rf) i.
Proof.
  intros Hwf prev skip fits Hfits. unfold AppendEntries. fold prev. case_bool_decide as Hstale.
  { eexists _, _. split; [done|]. by split_and!. }
  specialize (Hfits ltac:(lia)).
  pose proof (heardLeader_wf rf (aea_Term args) (aea_LeaderId args) now Hwf) as Hwf1.
  pose proof (heardLeader_term rf (aea_Term args) (aea_LeaderId args) now ltac:(lia)) as Hct.
  destruct (heardLeader_frame rf (aea_Term args) (aea_LeaderId args) now) as (Hl & Hsi & Hst & Hci & _).
  set (rf1 := heardLeader _ _ _ _) in *. clearbody rf1. rewrite Hl, Hsi, Hst.
  pose proof (wf_base _ Hwf) as Hb. pose proof (wf_log _ Hwf) as Hlw.
  assert (Hstore : ∀ l' index es, log_wf l' → stored_at (log rf) l' index es →
    let rf' := followerCommit (persistSate (set_log l' rf1)) (aea_LeaderCommitIndex args) in
    raft_wf rf' ∧ currentTerm rf' = aea_Term args ∧ stored_at (log rf) (log rf') index es ∧
    commitIndex rf' = (if bool_decide (commitIndex rf < aea_LeaderCommitIndex args)%Z
                       then Z.min (aea_LeaderCommitIndex args) (lastIndex (log rf')) else commitIndex rf)).
  { intros l' index es Hl' Hs rf'. unfold rf'. split; [apply followerCommit_wf, set_log_wf; [done..|]; rewrite Hl; apply Hs|].
    unfold followerCommit. simpl. rewrite Hci, Min_min.
    destruct (decide (commitIndex rf < aea_LeaderCommitIndex args)%Z) as [Hlt|Hge];
      [rewrite !bool_decide_true by lia|rewrite !bool_decide_false by lia]; by split_and!. }
  assert (Hne : (snapshotIndex rf ≤ lastIndex (log rf))%Z).
  { destruct (lastEntry_returns (log rf) Hlw) as [le Hle%entry_range]. lia. }
  destruct (decide (lastIndex (log rf) < prev)%Z) as [Hshort|Hshort].
  { rewrite (bool_decide_true (prev > _)%Z), (bool_decide_true (_ < prev)%Z) by lia.
    destruct (lastEntry_returns (log rf) Hlw) as [le Hle]. rewrite Hle. res_simpl.
    eexists _, _. split; [done|]. split_and!; [done..|]. by exists le. }
  rewrite (bool_decide_false (prev > _)%Z), (bool_decide_false (_ < prev)%Z) by lia. fold skip.
  destruct (decide (prev < snapshotIndex rf)%Z) as [Hbelow|Hbelow];
    [rewrite !(bool_decide_true (prev < _)%Z) by lia|rewrite !(bool_decide_false (prev < _)%Z) by lia].
  - destruct (decide (zlen (aea_Entries args) > skip)%Z) as [Hlen|Hlen];
      [rewrite (bool_decide_true (_ > skip)%Z) by lia|rewrite (bool_decide_false (_ > skip)%Z) by lia].
    + rewrite (bool_decide_false (_ ≤ skip)%Z) by lia.
      destruct (idx_returns (aea_Entries args) skip) as (e & -> & He); [unfold skip in *; lia|]. res_simpl.
      unfold Assert. rewrite bool_decide_true by (by apply Hfits). res_simpl.
      assert (slice_from (aea_Entries args) skip = Ok (drop (Z.to_nat skip) (aea_Entries args))) as ->
        by (apply slice_from_Ok; split; [unfold skip in *; lia|done]). res_simpl.
      destruct (place_stored (log rf) (snapshotIndex rf) (drop (Z.to_nat skip) (aea_Entries args))) as (l' & -> & Hl' & Hs); [done| |lia|].
      { right. split; [lia|]. intros Hnil. apply (f_equal length) in Hnil. rewrite length_drop in Hnil. simpl in Hnil. unfold zlen in Hlen. lia. }
      res_simpl. destruct (Hstore l' _ _ Hl' Hs) as (? & ? & ? & ?). eexists _, _. split; [done|]. by split_and!.
    + rewrite (bool_decide_true (_ ≤ skip)%Z) by lia. eexists _, _. split; [done|]. by split_and!.
  - destruct (entry_returns (log rf) prev) as [e He]; [lia|]. rewrite He. res_simpl.
    destruct (decide (eTerm e = aea_PrevLogTerm args)) as [Heq|Hdiff].
    + rewrite (bool_decide_false (_ ≠ _)) by (by intros []). destruct (place_stored (log rf) (prev + 1) (aea_Entries args)) as (l' & -> & Hl' & Hs); [done|lia|lia|].
      res_simpl. destruct (Hstore l' _ _ Hl' Hs) as (? & ? & ? & ?). eexists _, _. split; [done|].
      split_and!; [done..|]. exists e. rewrite bool_decide_true by done. by split_and!.
    + rewrite (bool_decide_true (_ ≠ _)) by done.
      destruct (cutOffTail_spec (log rf) prev) as (l' & -> & Hl' & H0 & Hlast & Hrd); [lia|].
      res_simpl. eexists _, _. split; [done|]. split; [apply set_log_wf; [done..|congruence]|]. split_and!; [done..|].
      exists e. rewrite bool_decide_false by done. rewrite Hb in *. by split_and!.
Qed.

(** The InstallSnapshot handler.  It does not panic and keeps the
    peer's invariant; an outdated snapshot (old term, or not beyond what the
    peer compacted or applied) leaves log and snapshot alone; any other one
    becomes the snapshot, saved together with the log, the log then starts
    at its index and still ends where it did or there, and nothing applied
    or committed moves back. *)
Theorem InstallSnapshot_spec rf args now :
  raft_wf rf →
  ∃ rf' reply, InstallSnapshot rf args now = Ok (rf', reply) ∧ raft_wf rf' ∧
    isr_Term reply = currentTerm rf ∧
    currentTerm rf' = Z.max (currentTerm rf) (isa_Term args) ∧
    commitIndex rf' = commitIndex rf ∧ lastApplied rf' = lastApplied rf ∧
    if bool_decide (currentTerm rf ≤ isa_Term args ∧
                    snapshotIndex rf < isa_LastIncludedIndex args ∧
                    lastApplied rf < isa_LastIncludedIndex args)%Z then
      snapshotIndex rf' = isa_LastIncludedIndex args ∧
      snapshotTerm rf' = isa_LastIncludedTerm args ∧ snapshot rf' = isa_Data args ∧
      lastIndex (log rf') = Z.max (lastIndex (log rf)) (isa_LastIncludedIndex args) ∧
      (∀ i, (isa_LastIncludedIndex args < i)%Z → entry (log rf') i = entry (log rf) i)
    else log rf' = log rf ∧ snapshotIndex rf' = snapshotIndex rf ∧ snapshotTerm rf' = snapshotTerm rf.
Proof.
  intros Hwf. unfold InstallSnapshot. case_bool_decide as Hold.
  { rewrite bool_decide_false by lia. eexists _, _. split_and!; try done. lia. }
  pose proof (heardLeader_wf rf (isa_Term args) (isa_LeaderId args) now Hwf) as Hwf1.
  pose proof (heardLeader_term rf (isa_Term args) (isa_LeaderId args) now ltac:(lia)) as Hct.
  destruct (heardLeader_frame rf (isa_Term args) (isa_LeaderId args) now)
    as (Hl & Hsi & Hst & Hci & Hla & _).
  set (rf1 := heardLeader _ _ _ _) in *. clearbody rf1. rewrite Hl, Hsi, Hla.
  destruct (bool_decide (snapshotIndex rf >= _)%Z || _) eqn:Hskip.
  { apply orb_true_iff in Hskip. rewrite !bool_decide_eq_true in Hskip.
    rewrite bool_decide_false by lia. eexists _, _. split_and!; try done. lia. }
  apply orb_false_iff in Hskip. rewrite !bool_decide_eq_false in Hskip.
  rewrite (bool_decide_true (_ ∧ _)) by lia. pose proof (wf_base _ Hwf) as Hb.
  assert (∃ l', (if bool_decide (lastIndex (log rf) > isa_LastIncludedIndex args)%Z
     then cutOffHead (log rf) (isa_LastIncludedIndex args)
     else Ok (mkLog [mkEntry (isa_LastIncludedTerm args) None] (isa_LastIncludedIndex args))) = Ok l' ∧
     log_wf l' ∧ index0 l' = isa_LastIncludedIndex args ∧
     lastIndex l' = Z.max (lastIndex (log rf)) (isa_LastIncludedIndex args) ∧
     (∀ i, (isa_LastIncludedIndex args < i)%Z → entry l' i = entry (log rf) i))
    as (l' & -> & Hl' & H0 & Hlast & Hrd).
  { case_bool_decide.
    - destruct (cutOffHead_spec (log rf) (isa_LastIncludedIndex args)) as (l' & ? & ? & ? & ? & _ & Hrd); [lia|].
      exists l'. split_and!; try done; [lia|]. intros. apply Hrd. lia.
    - eexists. split; [done|]. split_and!; try done; unfold lastIndex, zlen in *; cbn [entries index0 length]; [lia|].
      intros i Hi. unfold entry, Assert, idx; cbn [entries index0]. rewrite !bool_decide_true by lia.
      res_simpl. rewrite !lookup_ge_None_2; [done|lia|cbn [length]; lia]. }
  res_simpl. eexists _, _. split; [done|]. split.
  { destruct Hwf1. split; try done. apply synced_persist. }
  split_and!; try done. simpl. lia.
Qed.

(** The first slot of the log disagrees with the snapshot it stands for. *)
Definition stale_base rf : Prop :=
  ∃ e, entry (log rf) (snapshotIndex rf) = Ok e ∧ eTerm e ≠ snapshotTerm rf.

(** C39: a log that conflicts with an installed snapshot is not discarded.
    If the peer has an entry of another term at the snapshot's index and at
    least one entry behind it, the conflicting entries survive
    InstallSnapshot, and slot 0 disagrees with the snapshot's term. *)
Theorem InstallSnapshot_keeps_conflict rf args now e :
  raft_wf rf → (currentTerm rf ≤ isa_Term args)%Z →
  (snapshotIndex rf < isa_LastIncludedIndex args)%Z →
  (lastApplied rf < isa_LastIncludedIndex args < lastIndex (log rf))%Z →
  entry (log rf) (isa_LastIncludedIndex args) = Ok e →
  eTerm e ≠ isa_LastIncludedTerm args →
  ∃ rf' reply, InstallSnapshot rf args now = Ok (rf', reply) ∧ stale_base rf' ∧
    (∀ i, (isa_LastIncludedIndex args ≤ i)%Z → entry (log rf') i = entry (log rf) i).
Proof.
  intros Hwf Ht Hs Hi He Hne. unfold InstallSnapshot. rewrite bool_decide_false by lia.
  destruct (heardLeader_frame rf (isa_Term args) (isa_LeaderId args) now)
    as (Hl & Hsi & _ & _ & Hla & _).
  set (rf1 := heardLeader _ _ _ _) in *. clearbody rf1. rewrite Hl, Hsi, Hla.
  rewrite !(bool_decide_false (_ >= _)%Z) by lia. simpl. rewrite bool_decide_true by lia.
  pose proof (wf_base _ Hwf) as Hb.
  destruct (cutOffHead_spec (log rf) (isa_LastIncludedIndex args)) as (l' & -> & _ & _ & _ & _ & Hrd); [lia|].
  res_simpl. eexists _, _. split; [done|]. split; [|done].
  exists e. split; [|done]. simpl. rewrite Hrd by lia. done.
Qed.

(** A peer with a stale first slot rejects the entry before its log. *)
Lemma stale_base_rejects F args now ef :
  raft_wf F → entry (log F) (snapshotIndex F) = Ok ef → eTerm ef ≠ snapshotTerm F →
  (currentTerm F ≤ aea_Term args)%Z →
  aea_PrevLogIndex args = snapshotIndex F → aea_PrevLogTerm args = snapshotTerm F →
  ∃ F', AppendEntries F args now =
      Ok (F', mkAppendEntriesReply (currentTerm F) (eTerm ef) (snapshotIndex F) false) ∧
    stale_base F' ∧ snapshotIndex F' = snapshotIndex F.
Proof.
  intros HF Hef Hne Hct Hprev Hpt.
  pose proof (wf_base _ HF) as HbF. pose proof (entry_range _ _ _ Hef) as HrF.
  unfold AppendEntries. rewrite bool_decide_false by lia.
  destruct (heardLeader_frame F (aea_Term args) (aea_LeaderId args) now) as (Hl & HsF & HtF & _).
  set (F1 := heardLeader _ _ _ _) in *. clearbody F1. rewrite Hl, HsF, Hprev.
  rewrite !bool_decide_false by lia. rewrite Hef. res_simpl.
  rewrite bool_decide_true by congruence.
  destruct (cutOffTail_spec (log F) (snapshotIndex F)) as (l' & -> & _ & _ & _ & Hrd); [lia|].
  res_simpl. eexists. split; [done|]. split; [|done].
  exists ef. simpl. rewrite HsF, HtF. split; [|done]. rewrite Hrd by lia. done.
Qed.

(** Such a peer is stuck while its leader keeps that snapshot.  When the
    leader believes the snapshot installed (matchIndex at the snapshot), its
    next AppendEntries names the snapshot's entry; the peer rejects it and
    keeps its bad slot 0, and the leader computes the same nextIndex again:
    the round returns to where it started. *)
Theorem stale_base_livelock L F p el now :
  leader_wf L → raft_wf F → stale_base F →
  (0 ≤ p < Z.of_nat (npeers L))%Z →
  snapshotIndex L = snapshotIndex F → (currentTerm F ≤ currentTerm L)%Z →
  entry (log L) (snapshotIndex L) = Ok el → eTerm el = snapshotTerm F →
  idx (matchIndex L) p = Ok (snapshotIndex L) →
  idx (nextIndex L) p = Ok (snapshotIndex L + 1)%Z →
  ∃ args F' reply L',
    replicateTo L p = Ok (MsgAppendEntries args) ∧
    AppendEntries F args now = Ok (F', reply) ∧ aer_Success reply = false ∧
    sendAppendEntries L p args reply = Ok L' ∧
    nextIndex L' = nextIndex L ∧ matchIndex L' = matchIndex L ∧
    stale_base F' ∧ snapshotIndex F' = snapshotIndex F.
Proof.
  intros HL HF (ef & Hef & Hne) Hp Hsi Hct Hel Helt Hm Hn.
  destruct (replicateTo_spec L p HL Hp) as (n & msg & Hn' & Hrep & Hg).
  rewrite Hn in Hn'. injection Hn' as <-. destruct msg as [a|a]; [|destruct Hg; lia].
  destruct Hg as (_ & Hat & _ & Hprev & (e1 & He1 & Hpt) & _).
  replace (snapshotIndex L + 1 - 1)%Z with (snapshotIndex L) in * by lia.
  rewrite Hel in He1. injection He1 as <-. pose proof (wf_base _ (lwf_raft _ HL)) as HbL.
  destruct (stale_base_rejects F a now ef) as (F' & HAE & Hst & Hsi'); [done|done|done|lia|congruence|congruence|].
  exists a, F', (mkAppendEntriesReply (currentTerm F) (eTerm ef) (snapshotIndex F) false),
    (set_nextIndex (nextIndex L) L).
  split_and!; try done. unfold sendAppendEntries.
  rewrite (lwf_role _ HL), Hat, !(bool_decide_false (_ ≠ _)) by (intros ?; done). simpl.
  rewrite bool_decide_false by lia.
  unfold conflictNextIndex; simpl. rewrite bool_decide_false by lia.
  rewrite <-Hsi, Hel. res_simpl. rewrite bool_decide_false by congruence.
  unfold start. rewrite HbL, Z.sub_diag. simpl. unfold start. rewrite HbL, Z.add_0_r, Hel. res_simpl.
  rewrite bool_decide_true by done. res_simpl. rewrite Hm. res_simpl.
  pose proof (idx_range _ _ _ Hn). rewrite upd_in by done. res_simpl.
  do 2 f_equal. rewrite Max_max, Z.max_id. apply list_insert_id. by apply idx_Ok.
Qed.
End RaftReplication.

Arguments AppendEntriesArgs C : clear implicits.
Arguments LeaderMsg C : clear implicits.
