(* ===== verification/RaftApply.v ===== *)
(** * Applying entries and compacting the log
      (src/raft/applier.go, src/raft/log_compaction.go)

    [Snapshot] is what the service calls once it has saved its own state.
    The [applier] goroutine holds the mutex to choose the next message,
    releases it to send the message on [applyCh], and takes it again to
    record what was applied: [applier_begin] and [applier_end] are the two
    critical sections of one iteration.

    Theorem: what [Snapshot] keeps.  The order of the messages under
    interleaving with every other goroutine is in RaftNode.v. *)

From stdpp Require Import base list gmap.
From Stdlib Require Import ZArith Lia.
From S2P Require Import Prelude RaftLog RaftCore.

Section RaftApply.
Context {C : Type} `{!Gob (PState C)}.
Implicit Types rf : Raft C.

Record ApplyMsg : Type := mkApplyMsg {
  CommandValid : bool;
  msgCommand : option C;
  CommandIndex : Z;
  SnapshotValid : bool;
  msgSnapshot : bytes;
  SnapshotTerm : Z;
  SnapshotIndex : Z;
}.

Definition Snapshot rf (index : Z) (snap : bytes) : Res (Raft C) :=
  if bool_decide (index ≤ snapshotIndex rf)%Z then Ok rf
  else
    let rf := set_snapshot snap rf in
    e ← entry (log rf) index;
    let rf := set_snapshotTerm (eTerm e) rf in
    let rf := set_snapshotIndex index rf in
    l ← cutOffHead (log rf) index;
    Ok (persist (set_log l rf)).

(** What the first critical section of an iteration decides. *)
Inductive ApplierAction : Type :=
| Deliver (msg : ApplyMsg)
| WaitApplyCond
| ApplierExit.

Definition applier_begin rf : Res ApplierAction :=
  if Killed rf then Ok ApplierExit
  else if bool_decide (snapshotIndex rf > lastApplied rf)%Z then
    Ok (Deliver {| CommandValid := false; msgCommand := None; CommandIndex := 0;
                   SnapshotValid := true; msgSnapshot := snapshot rf;
                   SnapshotTerm := snapshotTerm rf; SnapshotIndex := snapshotIndex rf |})
  else if bool_decide (lastApplied rf < commitIndex rf)%Z then
    let commandIndex := (lastApplied rf + 1)%Z in
    e ← entry (log rf) commandIndex;
    Ok (Deliver {| CommandValid := true; msgCommand := eCommand e; CommandIndex := commandIndex;
                   SnapshotValid := false; msgSnapshot := []; SnapshotTerm := 0; SnapshotIndex := 0 |})
  else Ok WaitApplyCond.

(** The second critical section, after the message was sent. *)
Definition applier_end rf (msg : ApplyMsg) : Raft C :=
  if SnapshotValid msg then
    if bool_decide (SnapshotIndex msg > lastApplied rf)%Z then
      let rf := set_lastApplied (SnapshotIndex msg) rf in
      if bool_decide (SnapshotIndex msg > commitIndex rf)%Z
      then set_commitIndex (SnapshotIndex msg) rf else rf
    else rf
  else if bool_decide (CommandIndex msg >= lastApplied rf + 1)%Z
  then set_lastApplied (CommandIndex msg) rf else rf.

(** ** Specification vocabulary *)

(** The index a message brings the service to. *)
Definition msg_index (msg : ApplyMsg) : Z :=
  if SnapshotValid msg then SnapshotIndex msg else CommandIndex msg.

(** ** Properties *)

Lemma Snapshot_wf rf index snap rf' :
  raft_wf rf → Snapshot rf index snap = Ok rf' →
  raft_wf rf' ∧ lastApplied rf' = lastApplied rf ∧ me rf' = me rf ∧ npeers rf' = npeers rf ∧
  currentTerm rf' = currentTerm rf ∧ votedFor rf' = votedFor rf ∧ role rf' = role rf.
Proof.
  intros Hwf H. unfold Snapshot in H. case_bool_decide as Hle; res_inv; [done|].
  pose proof (entry_range _ _ _ E) as Hr. simpl in Hr.
  destruct (cutOffHead_spec (log rf) index) as (l' & Hc & Hl' & H0 & _); [done|].
  simpl in *. rewrite Hc in E0. injection E0 as <-.
  destruct Hwf as [? ? ? ? ? ?]. split_and!; try done. split; try done. apply synced_persist.
Qed.

(** The run of [Snapshot] on an index that is not compacted yet. *)
Lemma Snapshot_run rf index snap :
  raft_wf rf → (snapshotIndex rf < index ≤ lastIndex (log rf))%Z →
  ∃ e l', entry (log rf) index = Ok e ∧ cutOffHead (log rf) index = Ok l' ∧
    Snapshot rf index snap = Ok (persist (set_log l' (set_snapshotIndex index
     (set_snapshotTerm (eTerm e) (set_snapshot snap rf))))).
Proof.
  intros Hwf Hi. pose proof (wf_base _ Hwf) as Hb.
  destruct (entry_returns (log rf) index) as [e He]; [lia|].
  destruct (cutOffHead_spec (log rf) index) as (l' & Hc & _); [lia|].
  exists e, l'. split_and!; [done..|]. unfold Snapshot. rewrite bool_decide_false by lia.
  simpl. rewrite He. res_simpl. simpl. by rewrite Hc.
Qed.

(** Compacting the log at an index it holds does not panic; the log
    then starts at that index with the snapshot's term taken from its entry,
    the entries above are untouched, and snapshot and log are saved
    together.  A call for an index already compacted does nothing. *)
Theorem Snapshot_spec rf index snap :
  raft_wf rf → (index ≤ lastIndex (log rf))%Z →
  ∃ rf', Snapshot rf index snap = Ok rf' ∧ raft_wf rf' ∧
    if bool_decide (snapshotIndex rf < index)%Z then
      snapshotIndex rf' = index ∧ snapshot rf' = snap ∧
      lastIndex (log rf') = lastIndex (log rf) ∧
      (∀ i, (index ≤ i)%Z → entry (log rf') i = entry (log rf) i) ∧
      (∃ e, entry (log rf') index = Ok e ∧ snapshotTerm rf' = eTerm e) ∧
      Persister.snapshot (persister rf') = snap
    else rf' = rf.
Proof.
  intros Hwf Hi. pose proof (wf_base _ Hwf) as Hb.
  destruct (decide (index ≤ snapshotIndex rf)%Z) as [Hle|Hgt].
  { rewrite (bool_decide_false (snapshotIndex rf < index)%Z) by lia.
    exists rf. unfold Snapshot. by rewrite bool_decide_true. }
  rewrite (bool_decide_true (snapshotIndex rf < index)%Z) by lia.
  destruct (Snapshot_run rf index snap Hwf ltac:(lia)) as (e & l' & He & Hc' & HS).
  destruct (cutOffHead_spec (log rf) index) as (l1 & Hc & _ & _ & Hlast & _ & Hrd); [lia|].
  rewrite Hc in Hc'. injection Hc' as ->.
  eexists. split; [exact HS|]. split; [by eapply Snapshot_wf|].
  split_and!; try done. exists e. split; [|done]. simpl. by rewrite Hrd.
Qed.
End RaftApply.

Arguments ApplyMsg C : clear implicits.
