(* ===== verification/RaftNode.v ===== *)
(** * One Raft peer as a transition system

    Every goroutine of a peer (the RPC handlers, the election, the
    heartbeats, the service's calls and the applier) works under the peer's
    mutex; [raft_step] is one critical section of any of them but the
    applier, on arbitrary messages.  [apply_step] adds the applier and
    records what it sends on [applyCh].

    Theorems: every critical section keeps the peer's invariant, in
    particular what it persisted is what it works with; the term never goes
    back and a vote is never exchanged for another within a term; and the
    service sees commands and snapshots in order, none twice, whatever runs
    between the two halves of the applier. *)

From stdpp Require Import base list gmap.
From Stdlib Require Import ZArith Lia.
From S2P Require Import Prelude RaftLog RaftCore RaftElection RaftReplication RaftApply.

Section RaftNode.
Context {C : Type} `{!Gob (PState C)}.
Implicit Types rf : Raft C.

(** One critical section of a goroutine other than the applier.  A peer
    never asks itself for a vote, and the clock does not run backwards. *)
Inductive raft_step rf : Raft C → Prop :=
| step_RequestVote args now rf' reply :
    rva_CandidateId args ≠ me rf →
    RequestVote rf args now = Ok (rf', reply) → raft_step rf rf'
| step_AppendEntries args now rf' reply :
    AppendEntries rf args now = Ok (rf', reply) → raft_step rf rf'
| step_InstallSnapshot args now rf' reply :
    InstallSnapshot rf args now = Ok (rf', reply) → raft_step rf rf'
| step_electionStart now1 now2 now3 rf' args :
    (now1 ≤ now2)%Z →
    leaderElection_start rf now1 now2 now3 = Ok (rf', args) → raft_step rf rf'
| step_countVotes el reply rf' el' :
    countVotes_step rf el reply = (rf', el') → raft_step rf rf'
| step_electionFinish el :
    raft_step rf (leaderElection_finish rf el)
| step_sendAppendEntries server args reply rf' :
    sendAppendEntries rf server args reply = Ok rf' → raft_step rf rf'
| step_sendInstallSnapshot server args reply rf' :
    sendInstallSnapshot rf server args reply = Ok rf' → raft_step rf rf'
| step_leaderHeartbeats notified rf' msgs more :
    leaderHeartbeats_iter rf notified = Ok (rf', msgs, more) → raft_step rf rf'
| step_Start cmd rf' result :
    Start rf cmd = (rf', result) → raft_step rf rf'
| step_Snapshot index snap rf' :
    Snapshot rf index snap = Ok rf' → raft_step rf rf'
| step_Kill :
    raft_step rf (Kill rf).

(** ** Specification vocabulary *)

(** How term, vote and role may change in one critical section, winning an
    election apart. *)
Definition vote_step rf rf' : Prop :=
  (currentTerm rf < currentTerm rf')%Z ∧ role rf' ≠ LEADER ∨
  currentTerm rf' = currentTerm rf ∧
  ((* the vote stands *)
   votedFor rf' = votedFor rf ∧ role rf' = role rf ∨
   (* a candidate gives way to the leader of its own term *)
   role rf = CANDIDATE ∧ role rf' = FOLLOWER ∧ votedFor rf' = (-1)%Z ∨
   (* a follower that has not voted votes *)
   role rf = FOLLOWER ∧ role rf' = FOLLOWER ∧ votedFor rf = (-1)%Z).

(** A candidate becomes leader. *)
Definition win_step rf rf' : Prop :=
  currentTerm rf' = currentTerm rf ∧ votedFor rf' = votedFor rf ∧
  role rf = CANDIDATE ∧ role rf' = LEADER.

(** What every critical section keeps; [P] says what happens to the vote. *)
Record step_ok_with (P : Raft C → Raft C → Prop) rf rf' : Prop := {
  so_wf : raft_wf rf';
  so_me : me rf' = me rf;
  so_npeers : npeers rf' = npeers rf;
  so_lastApplied : lastApplied rf' = lastApplied rf;
  so_vote : P rf rf';
}.

#[local] Arguments so_wf {P} rf rf' _.
#[local] Arguments so_me {P} rf rf' _.
#[local] Arguments so_npeers {P} rf rf' _.

Abbreviation step_ok := (step_ok_with vote_step).
Abbreviation any_step_ok := (step_ok_with (λ rf rf', vote_step rf rf' ∨ win_step rf rf')).

(** The applier between its two critical sections holds the message it is
    sending. *)
Record ApplyState : Type := mkApplyState {
  as_raft : Raft C;
  as_sending : option (ApplyMsg C);
  as_trace : list (ApplyMsg C);  (* sent on applyCh, oldest first *)
}.

Inductive apply_step : ApplyState → ApplyState → Prop :=
| apply_env rf rf' s tr :
    raft_step rf rf' → apply_step (mkApplyState rf s tr) (mkApplyState rf' s tr)
| apply_begin rf msg tr :
    applier_begin rf = Ok (Deliver msg) →
    apply_step (mkApplyState rf None tr) (mkApplyState rf (Some msg) (tr ++ [msg]))
| apply_end rf msg tr :
    apply_step (mkApplyState rf (Some msg) tr) (mkApplyState (applier_end rf msg) None tr).

(** The index the service is at after a sequence of messages. *)
Definition trace_index (tr : list (ApplyMsg C)) : Z :=
  match last tr with Some msg => msg_index msg | None => 0 end.

(** Commands come one by one, without gaps and without repetition; a
    snapshot only jumps forward. *)
Fixpoint in_order (from : Z) (tr : list (ApplyMsg C)) : Prop :=
  match tr with
  | [] => True
  | msg :: tr =>
      (if SnapshotValid msg then (from < SnapshotIndex msg)%Z
       else CommandValid msg = true ∧ CommandIndex msg = (from + 1)%Z) ∧
      in_order (msg_index msg) tr
  end.

(** ** Lemmas: the handlers *)

Lemma step_ok_refl rf : raft_wf rf → step_ok rf rf.
Proof. intros Hwf. split; try done. right. split; [done|]. left. auto. Qed.

Lemma step_ok_stepDown rf t :
  raft_wf rf → (currentTerm rf < t ∨ currentTerm rf = t ∧ role rf = CANDIDATE)%Z →
  step_ok rf (stepDown rf t).
Proof.
  intros Hwf Ht. split; try done; [by apply stepDown_wf|].
  destruct Ht as [Ht|[Ht Hr]]; [by left|right]. split; [done|]. right. left. auto.
Qed.

(** A change of log, snapshot, commit index or bookkeeping only. *)
Lemma step_ok_keep rf rf1 rf' :
  step_ok rf rf1 → raft_wf rf' → me rf' = me rf1 → npeers rf' = npeers rf1 →
  lastApplied rf' = lastApplied rf1 → currentTerm rf' = currentTerm rf1 →
  votedFor rf' = votedFor rf1 → role rf' = role rf1 → step_ok rf rf'.
Proof.
  intros [? ? ? ? Hv] ? ? ? ? Ht Hvf Hr. split; try congruence; try done.
  unfold vote_step in *. rewrite Ht, Hvf, Hr. done.
Qed.

Lemma heardLeader_ok rf t l now :
  raft_wf rf → (currentTerm rf ≤ t)%Z → step_ok rf (heardLeader rf t l now).
Proof.
  intros Hwf Ht. unfold heardLeader. simpl.
  assert (Hk : step_ok rf (set_leaderId l (resetElectionTimer now rf))).
  { eapply step_ok_keep; [by apply step_ok_refl|by destruct Hwf|done..]. }
  destruct (_ || _) eqn:E; [|done].
  apply orb_true_iff in E. rewrite !bool_decide_eq_true in E. simpl in E.
  assert (Hs : step_ok (set_leaderId l (resetElectionTimer now rf))
    (stepDown (set_leaderId l (resetElectionTimer now rf)) t)).
  { apply step_ok_stepDown; [by apply Hk|]. simpl. destruct E; [left; lia|].
    destruct (decide (currentTerm rf = t)); [by right|left; lia]. }
  destruct Hs. by split.
Qed.

Lemma followerCommit_ok rf rf1 c : step_ok rf rf1 → step_ok rf (followerCommit rf1 c).
Proof.
  intros Hok. eapply step_ok_keep; [done|apply followerCommit_wf, Hok|..];
    unfold followerCommit; by case_bool_decide.
Qed.

Lemma set_log_ok rf rf1 l :
  step_ok rf rf1 → log_wf l → index0 l = index0 (log rf1) →
  step_ok rf (persistSate (set_log l rf1)).
Proof.
  intros Hok ? ?. eapply step_ok_keep; [done|by apply set_log_wf; [apply Hok|..]|done..].
Qed.

Lemma place_wf (l l' : Log C) index a :
  log_wf l → (index0 l < index ≤ lastIndex l + 1 ∨ index = index0 l ∧ a ≠ [])%Z →
  place l index a = Ok l' → log_wf l' ∧ index0 l' = index0 l.
Proof.
  intros Hl Hi. rewrite place_Ok.
  - intros [= <-]. split; [|done]. apply placed_wf; [done|]. destruct Hi as [?|[? ?]]; [left; lia|by right].
  - destruct Hi as [?|[? ?]]; [left; lia|right; split; [lia|done]].
  - destruct Hi as [?|[-> ?]]; [lia|]. unfold lastIndex. pose proof (zlen_nonneg (entries l)). lia.
Qed.

Lemma AppendEntries_ok rf args now rf' reply :
  raft_wf rf → AppendEntries rf args now = Ok (rf', reply) → step_ok rf rf'.
Proof.
  intros Hwf H. unfold AppendEntries in H. case_bool_decide as Hold.
  { simplify_eq. by apply step_ok_refl. }
  pose proof (heardLeader_ok rf (aea_Term args) (aea_LeaderId args) now Hwf ltac:(lia)) as Hok.
  set (rf1 := heardLeader _ _ _ _) in *. clearbody rf1.
  pose proof (wf_log _ (so_wf _ _ Hok)) as Hl. pose proof (wf_base _ (so_wf _ _ Hok)) as Hb.
  case_bool_decide as Hshort; [res_inv; by simplify_eq|].
  case_bool_decide as Hsnap.
  - case_bool_decide as Hlen; [|by simplify_eq]. res_inv. simplify_eq.
    apply followerCommit_ok. apply slice_from_Ok in E1 as [Hr1 ->].
    apply place_wf in E2 as [? ?]; [by apply set_log_ok|done|right].
    split; [done|]. intros Hnil. apply (f_equal length) in Hnil. rewrite length_drop in Hnil.
    simpl in Hnil. unfold zlen in *. lia.
  - res_inv. pose proof (entry_range _ _ _ E). case_bool_decide as Hconf; res_inv; simplify_eq.
    + destruct (cutOffTail_spec (log rf1) (aea_PrevLogIndex args)) as (l' & Hc & ? & ? & _); [lia|].
      rewrite E0 in Hc. injection Hc as ->. by apply set_log_ok.
    + apply followerCommit_ok. apply place_wf in E0 as [? ?]; [by apply set_log_ok|done|lia].
Qed.

Lemma InstallSnapshot_ok rf args now rf' reply :
  raft_wf rf → InstallSnapshot rf args now = Ok (rf', reply) → step_ok rf rf'.
Proof.
  intros Hwf H. unfold InstallSnapshot in H. case_bool_decide as Hold.
  { simplify_eq. by apply step_ok_refl. }
  pose proof (heardLeader_ok rf (isa_Term args) (isa_LeaderId args) now Hwf ltac:(lia)) as Hok.
  set (rf1 := heardLeader _ _ _ _) in *. clearbody rf1.
  destruct (_ || _) eqn:Hskip; [by simplify_eq|].
  apply orb_false_iff in Hskip. rewrite !bool_decide_eq_false in Hskip.
  pose proof (wf_base _ (so_wf _ _ Hok)) as Hb. res_inv. simplify_eq.
  assert (log_wf x ∧ index0 x = isa_LastIncludedIndex args) as [? ?].
  { case_bool_decide; [|by simplify_eq].
    destruct (cutOffHead_spec (log rf1) (isa_LastIncludedIndex args)) as (l' & Hc & ? & ? & _); [lia|].
    rewrite E in Hc. by injection Hc as ->. }
  eapply step_ok_keep; [done| |done..].
  destruct (so_wf _ _ Hok). split; try done. apply synced_persist.
Qed.

Lemma RequestVote_ok rf args now rf' reply :
  raft_wf rf → rva_CandidateId args ≠ me rf →
  RequestVote rf args now = Ok (rf', reply) →
  step_ok rf rf' ∧
  (rvr_VoteGranted reply = true →
     currentTerm rf' = rva_Term args ∧ votedFor rf' = rva_CandidateId args ∧ role rf' = FOLLOWER ∧
     (currentTerm rf < rva_Term args ∨
      currentTerm rf = rva_Term args ∧ (votedFor rf = -1 ∨ votedFor rf = rva_CandidateId args))%Z).
Proof.
  intros Hwf Hne H. unfold RequestVote in H. case_bool_decide as Hold.
  { simplify_eq. split; [by apply step_ok_refl|done]. }
  set (rf1 := if bool_decide _ then _ else rf) in H.
  assert (step_ok rf rf1 ∧ currentTerm rf1 = rva_Term args ∧
    (currentTerm rf < rva_Term args ∧ role rf1 = FOLLOWER ∨ rf1 = rf)%Z) as (Hok & Hct & Hcase).
  { clear H. unfold rf1. case_bool_decide; [|split; [by apply step_ok_refl|split; [lia|by right]]].
    split; [apply step_ok_stepDown; [done|left; lia]|split; [done|left; split; [lia|done]]]. }
  clearbody rf1. pose proof (wf_vote _ (so_wf _ _ Hok)) as Hvote. pose proof (wf_me _ Hwf) as Hme.
  destruct (bool_decide (votedFor rf1 = -1)%Z || _) eqn:Hv; [|by simplify_eq].
  apply orb_true_iff in Hv. rewrite !bool_decide_eq_true in Hv.
  assert (Hrole : role rf1 = FOLLOWER).
  { destruct (decide (role rf1 = FOLLOWER)) as [|Hr]; [done|]. specialize (Hvote Hr).
    rewrite (so_me _ _ Hok) in Hvote. exfalso. lia. }
  res_inv. destruct (upToDate _ _ _); simplify_eq; [|done]. split.
  - destruct Hok as [Hwf1 ? ? ? Hvs]. split; try done.
    + pose proof Hwf1 as [? ? ? [Hs _] ? ?]. split; try done. by apply synced_persistSate.
    + destruct Hcase as [[Hlt _]| ->]; [left; simpl; rewrite Hrole; split; [lia|done]|right; simpl]. split; [done|].
      destruct Hv as [Hv|Hv]; [right; right; auto|left; auto].
  - intros _. simpl. split_and!; try done.
    destruct Hcase as [[? _]| ->]; [by left|by right].
Qed.

Lemma electionStart_ok rf now1 now2 now3 rf' oargs :
  raft_wf rf → (now1 ≤ now2)%Z →
  leaderElection_start rf now1 now2 now3 = Ok (rf', oargs) →
  step_ok rf rf' ∧
  match oargs with
  | None => rf' = rf
  | Some args => currentTerm rf' = (currentTerm rf + 1)%Z ∧ role rf' = CANDIDATE ∧
      votedFor rf' = me rf ∧ rva_Term args = currentTerm rf' ∧ rva_CandidateId args = me rf
  end.
Proof.
  intros Hwf Hnow H. unfold leaderElection_start in H.
  set (rf1 := if _ && _ then _ else rf) in H.
  assert (rf1 = rf ∧ role rf ≠ FOLLOWER ∨ rf1 = set_role CANDIDATE rf ∧ (now1 - lastHeartbeat rf >= ELECTION_TIMEOUT)%Z ∨
    rf1 = rf ∧ role rf = FOLLOWER) as Hrf1.
  { clear H. unfold rf1. destruct (_ && _) eqn:E; [apply andb_true_iff in E|apply andb_false_iff in E];
      rewrite ?bool_decide_eq_true, ?bool_decide_eq_false in E.
    - right. left. naive_solver.
    - destruct (decide (role rf = FOLLOWER)); auto. }
  clearbody rf1.
  assert (Hsame : lastHeartbeat rf1 = lastHeartbeat rf ∧ log rf1 = log rf ∧ me rf1 = me rf ∧
    npeers rf1 = npeers rf ∧ lastApplied rf1 = lastApplied rf ∧ currentTerm rf1 = currentTerm rf ∧
    persister rf1 = persister rf ∧ snapshot rf1 = snapshot rf ∧ snapshotIndex rf1 = snapshotIndex rf)
    by (destruct Hrf1 as [[-> _]|[[-> _]|[-> _]]]; done).
  destruct Hsame as (Hlh & Hl & Hme & Hnp & Hla & Hct & Hps & Hsn & Hsi).
  destruct (bool_decide (role rf1 = CANDIDATE) && _) eqn:E.
  - res_inv. simplify_eq. simpl. rewrite Hct, Hme.
    apply andb_true_iff in E as [E%bool_decide_eq_true _]. split_and!; try done.
    split; try done; [|left; simpl; rewrite E; split; [lia|done]].
    destruct Hwf as [? ? ? [Hs _] ? ?].
    split; simpl; rewrite ?Hl, ?Hme, ?Hnp, ?Hsi; try done; [|by rewrite E].
    split; simpl; [congruence|by left].
  - simplify_eq. apply andb_false_iff in E. rewrite !bool_decide_eq_false in E.
    assert (rf' = rf) as ->; [|split; [by apply step_ok_refl|done]].
    destruct Hrf1 as [[-> _]|[[-> ?]|[-> _]]]; [done| |done]. simpl in E.
    exfalso. destruct E as [E|E]; [done|lia].
Qed.

Lemma countVotes_ok rf el reply rf' el' :
  raft_wf rf → countVotes_step rf el reply = (rf', el') → step_ok rf rf'.
Proof.
  intros Hwf H. unfold countVotes_step in H.
  destruct reply as [r|]; [|simplify_eq; by apply step_ok_refl].
  destruct (rvr_VoteGranted r); [simplify_eq; by apply step_ok_refl|].
  case_bool_decide; simplify_eq; [|by apply step_ok_refl].
  apply step_ok_stepDown; [done|left; lia].
Qed.

Lemma electionFinish_ok rf el :
  raft_wf rf →
  leaderElection_finish rf el = rf ∨
  raft_wf (leaderElection_finish rf el) ∧ win_step rf (leaderElection_finish rf el) ∧
  leaderElection_finish rf el = becomeLeader rf ∧
  currentTerm rf = rva_Term (el_args el) ∧ (majority (npeers rf) ≤ el_count el)%Z.
Proof.
  intros Hwf. unfold leaderElection_finish. destruct (_ && _) eqn:E; [right|by left].
  apply andb_true_iff in E as [[E1%bool_decide_eq_true E2%bool_decide_eq_true]%andb_true_iff
    E3%bool_decide_eq_true].
  pose proof Hwf as [? ? ? ? Hv ?]. split; [|split; [done|split; [done|split; [done|lia]]]].
  split; try done; simpl; [by intros _; apply Hv; rewrite E2|].
  intros _. by rewrite !length_replicate.
Qed.

(** Only the leader's bookkeeping changes, or the commit index. *)
Lemma bookkeeping_ok rf rf' ms ns :
  raft_wf rf → length ms = length (matchIndex rf) → length ns = length (nextIndex rf) →
  (rf' = set_nextIndex ns (set_matchIndex ms rf) ∨
   ∃ N, rf' = set_nextIndex ns (set_commitIndex N (set_matchIndex ms rf))) →
  step_ok rf rf'.
Proof.
  intros Hwf Hm Hn Hrf'. eapply step_ok_keep; [by apply step_ok_refl|..].
  - destruct Hwf as [? ? ? ? ? Hl].
    destruct Hrf' as [->|[N ->]]; split; try done; simpl; intros Hr; rewrite Hm, Hn; by apply Hl.
  - by destruct Hrf' as [->|[N ->]].
  - by destruct Hrf' as [->|[N ->]].
  - by destruct Hrf' as [->|[N ->]].
  - by destruct Hrf' as [->|[N ->]].
  - by destruct Hrf' as [->|[N ->]].
  - by destruct Hrf' as [->|[N ->]].
Qed.

Lemma sendAppendEntries_ok rf server args reply rf' :
  raft_wf rf → sendAppendEntries rf server args reply = Ok rf' → step_ok rf rf'.
Proof.
  intros Hwf H. unfold sendAppendEntries in H.
  destruct (_ || _); [simplify_eq; by apply step_ok_refl|].
  destruct (aer_Success reply).
  - destruct (idx (matchIndex rf) server) as [m|]; [|done]. res_simpl.
    destruct (bool_decide (m < _)%Z).
    + destruct (upd (matchIndex rf) server _) as [ms|] eqn:Hms; [|done]. res_simpl.
      destruct (leaderCommit _) as [rf1|] eqn:Hlc; [|done]. res_simpl. res_inv.
      apply upd_Ok in Hms as [_ ->].
      match goal with Hu : upd _ _ _ = Ok _ |- _ => apply upd_Ok in Hu as [_ ->] end.
      destruct (leaderCommit_frame _ _ Hlc) as [->|[N ->]].
      * eapply bookkeeping_ok; [done|..|by left]; by rewrite length_insert.
      * eapply bookkeeping_ok; [done|..|by right; exists N]; by rewrite length_insert.
    + res_simpl. res_inv.
      match goal with Hu : upd _ _ _ = Ok _ |- _ => apply upd_Ok in Hu as [_ ->] end.
      eapply (bookkeeping_ok _ _ (matchIndex rf)); [done|done| |left; by destruct rf]. by rewrite length_insert.
  - case_bool_decide; res_inv; [apply step_ok_stepDown; [done|left; lia]|].
    match goal with Hu : upd _ _ _ = Ok _ |- _ => apply upd_Ok in Hu as [_ ->] end.
    eapply (bookkeeping_ok _ _ (matchIndex rf)); [done|done| |left; by destruct rf]. by rewrite length_insert.
Qed.

Lemma sendInstallSnapshot_ok rf server args reply rf' :
  raft_wf rf → sendInstallSnapshot rf server args reply = Ok rf' → step_ok rf rf'.
Proof.
  intros Hwf H. unfold sendInstallSnapshot in H.
  case_bool_decide; [simplify_eq; by apply step_ok_refl|].
  case_bool_decide; [simplify_eq; apply step_ok_stepDown; [done|left; lia]|].
  res_inv. case_bool_decide; res_inv; [|by apply step_ok_refl].
  apply upd_Ok in E0 as [_ ->]. apply upd_Ok in E1 as [_ ->].
  eapply bookkeeping_ok; [done|..|by left]; by rewrite length_insert.
Qed.

Lemma leaderHeartbeats_ok rf notified rf' msgs more :
  raft_wf rf → leaderHeartbeats_iter rf notified = Ok (rf', msgs, more) → step_ok rf rf'.
Proof.
  intros Hwf H. unfold leaderHeartbeats_iter in H.
  assert (step_ok rf (if notified then set_heartbeatNotifyCh false rf else rf)).
  { destruct notified; [|by apply step_ok_refl].
    eapply step_ok_keep; [by apply step_ok_refl|by destruct Hwf|done..]. }
  destruct (Killed rf); [simplify_eq; by apply step_ok_refl|].
  case_bool_decide; res_inv; by simplify_eq.
Qed.

Lemma Start_ok rf cmd rf' result : raft_wf rf → Start rf cmd = (rf', result) → step_ok rf rf'.
Proof.
  intros Hwf H. unfold Start in H. case_bool_decide; simplify_eq; [|by apply step_ok_refl].
  assert (Hok : step_ok rf (persistSate (set_log (append (log rf) [mkEntry (currentTerm rf) (Some cmd)]) rf))).
  { apply set_log_ok; [by apply step_ok_refl| |done].
    unfold log_wf; simpl. by destruct (entries (log rf)). }
  eapply step_ok_keep; [exact Hok| |done..]. by destruct (so_wf _ _ Hok).
Qed.

Lemma Snapshot_ok rf index snap rf' : raft_wf rf → Snapshot rf index snap = Ok rf' → step_ok rf rf'.
Proof.
  intros Hwf H. destruct (Snapshot_wf _ _ _ _ Hwf H) as (? & ? & ? & ? & ? & ? & ?).
  eapply step_ok_keep; [by apply step_ok_refl|done..].
Qed.

Lemma step_ok_any rf rf' : step_ok rf rf' → any_step_ok rf rf'.
Proof. intros []. split; auto. Qed.

Lemma raft_step_ok rf rf' : raft_wf rf → raft_step rf rf' → any_step_ok rf rf'.
Proof.
  intros Hwf Hs. destruct Hs; try match goal with
    | |- context [leaderElection_finish] => fail 1
    | |- _ => apply step_ok_any
    end.
  - by eapply RequestVote_ok.
  - by eapply AppendEntries_ok.
  - by eapply InstallSnapshot_ok.
  - by eapply electionStart_ok.
  - by eapply countVotes_ok.
  - destruct (electionFinish_ok rf el Hwf) as [->|(? & ? & Heq & _)].
    { by apply step_ok_any, step_ok_refl. }
    rewrite Heq in *. by split; auto.
  - by eapply sendAppendEntries_ok.
  - by eapply sendInstallSnapshot_ok.
  - by eapply leaderHeartbeats_ok.
  - by eapply Start_ok.
  - by eapply Snapshot_ok.
  - eapply step_ok_keep; [by apply step_ok_refl|by destruct Hwf|done..].
Qed.

Lemma applier_end_wf rf msg : raft_wf rf → raft_wf (applier_end rf msg).
Proof. intros []. unfold applier_end. repeat case_match; by split. Qed.

(** ** Properties *)

(** C24: every critical section of every goroutine (applier included) keeps
    the peer's invariant.  In particular the state on the persister is the
    state the peer works with whenever the mutex is free, so no reply ever
    reflects a term, vote or log that a crash could undo. *)
Theorem raft_invariant rf rf' :
  raft_wf rf → (raft_step rf rf' ∨ ∃ msg, rf' = applier_end rf msg) →
  raft_wf rf' ∧ synced rf'.
Proof.
  intros Hwf Hs. enough (raft_wf rf') as Hwf' by (split; [done|apply Hwf']).
  destruct Hs as [Hs|[msg ->]]; [by eapply raft_step_ok|by apply applier_end_wf].
Qed.

(** C26: a crash loses nothing that Raft needs.  A peer created by [Make] on
    an empty persister that ran any sequence of critical sections, those of
    the applier included, can be restarted from its persister alone: [Make]
    does not panic and the new peer is a follower with the same term, vote,
    log, snapshot index and term, and snapshot, and has applied nothing. *)
Theorem reachable_restart `{!GobOk (PState C)} n i now rf0 s now' :
  (0 ≤ i < Z.of_nat n)%Z →
  Make n i Persister.MakePersister now = Ok rf0 → rtc apply_step (mkApplyState rf0 None []) s →
  let rf := as_raft s in
  ∃ rf', Make n i (persister rf) now' = Ok rf' ∧ raft_wf rf' ∧
    persistent rf' = persistent rf ∧ log rf' = log rf ∧ snapshot rf' = snapshot rf ∧
    role rf' = FOLLOWER ∧ commitIndex rf' = 0%Z ∧ lastApplied rf' = 0%Z.
Proof.
  intros Hi HM Hr rf. rewrite Make_fresh in HM. injection HM as <-.
  assert (Hinv : raft_wf rf ∧ me rf = i ∧ npeers rf = n).
  { eapply (rtc_preserve apply_step (λ s, raft_wf (as_raft s) ∧ me (as_raft s) = i ∧ npeers (as_raft s) = n)); [| |done].
    - intros x y (Hx & Hm & Hn) Hst. destruct Hst as [rf1 rf2 ? ? Hs|rf1 msg tr Hb|rf1 msg tr]; simpl in *; [|by split_and!|].
      + destruct (raft_step_ok _ _ Hx Hs). naive_solver congruence.
      + split; [by apply applier_end_wf|]. unfold applier_end. destruct (SnapshotValid msg); repeat case_bool_decide; done.
    - by destruct (freshRaft_wf n i Hi). }
  destruct Hinv as (Hwf & <- & <-).
  destruct (crash_restart rf now' Hwf) as (rf' & HM & ? & ? & ? & ? & ? & _). exists rf'.
  assert (commitIndex rf' = 0%Z ∧ lastApplied rf' = 0%Z) as [? ?]
    by (clear - HM; unfold Make, readPersist in HM; repeat case_match; res_inv; by simplify_eq/=).
  by split_and!.
Qed.

(** Terms and votes.  Over any sequence of critical sections the term
    never decreases; and a follower that has voted for a peer keeps that
    vote, and stays a follower, as long as the term does not change. *)
Theorem vote_stable rf rf' :
  raft_wf rf → rtc raft_step rf rf' →
  (currentTerm rf ≤ currentTerm rf')%Z ∧
  (currentTerm rf' = currentTerm rf → role rf = FOLLOWER → votedFor rf ≠ (-1)%Z →
   votedFor rf' = votedFor rf ∧ role rf' = FOLLOWER).
Proof.
  intros Hwf Hr. induction Hr as [|rf rf1 rf' Hs Hr IH]; [done|].
  destruct (raft_step_ok _ _ Hwf Hs) as [Hwf1 _ _ _ Hv]. specialize (IH Hwf1) as [IHt IHv].
  destruct Hv as [[[Hlt _]|[Heq Hv]]|(Heq & Hvf1 & Hc & _)].
  - split; [lia|intros; lia].
  - split; [lia|]. intros Ht Hrole Hvf.
    destruct Hv as [[Hv1 Hr1]|[(Hr1 & _)|(_ & _ & Hn)]]; [|congruence..].
    destruct IHv as [-> ->]; [lia|congruence|congruence|]. done.
  - split; [lia|]. congruence.
Qed.

Lemma in_order_snoc tr from msg :
  in_order from tr →
  (if SnapshotValid msg then (default from (msg_index <$> last tr) < SnapshotIndex msg)%Z
   else CommandValid msg = true ∧ CommandIndex msg = (default from (msg_index <$> last tr) + 1)%Z) →
  in_order from (tr ++ [msg]).
Proof.
  revert from. induction tr as [|m tr IH]; intros from Ho Hm; [done|].
  destruct Ho as [Ho1 Ho2]. split; [done|]. apply IH; [done|].
  destruct tr as [|m' tr]; [done|]. rewrite last_cons_cons in Hm.
  destruct (last (m' :: tr)) eqn:E; [done|by apply last_None in E].
Qed.

(** The invariant behind the order: between iterations lastApplied is the
    index the service is at; while a message is being sent it is below. *)
Definition apply_inv (s : ApplyState) : Prop :=
  raft_wf (as_raft s) ∧ in_order 0 (as_trace s) ∧
  match as_sending s with
  | None => lastApplied (as_raft s) = trace_index (as_trace s)
  | Some msg => last (as_trace s) = Some msg ∧ (lastApplied (as_raft s) < msg_index msg)%Z
  end.

Lemma apply_begin_next rf msg :
  applier_begin rf = Ok (Deliver msg) →
  (lastApplied rf < msg_index msg)%Z ∧
  if SnapshotValid msg then (lastApplied rf < SnapshotIndex msg)%Z
  else CommandValid msg = true ∧ CommandIndex msg = (lastApplied rf + 1)%Z.
Proof.
  unfold applier_begin. intros H. destruct (Killed rf); [done|].
  case_bool_decide; [simplify_eq; unfold msg_index; simpl; lia|].
  case_bool_decide; [|done]. res_inv. simplify_eq. unfold msg_index; simpl. split; [lia|done].
Qed.

Lemma apply_step_inv s s' : apply_inv s → apply_step s s' → apply_inv s'.
Proof.
  intros (Hwf & Ho & Hs) Hstep. destruct Hstep as [rf rf' sn tr Hst|rf msg tr Hb|rf msg tr]; simpl in *.
  - destruct (raft_step_ok _ _ Hwf Hst) as [Hwf' _ _ Hla _]. split_and!; [done..|].
    simpl. rewrite Hla. done.
  - destruct (apply_begin_next _ _ Hb) as [Hlt Hn]. split_and!; simpl; [done| |split; [by rewrite last_snoc|done]].
    apply in_order_snoc; [done|]. unfold trace_index in Hs.
    destruct (last tr); simpl in *; by rewrite <-Hs.
  - destruct Hs as [Hl Hlt]. split_and!; [by apply applier_end_wf|done|].
    simpl. unfold trace_index. rewrite Hl. unfold applier_end, msg_index in *.
    destruct (SnapshotValid msg).
    + rewrite bool_decide_true by lia. by case_bool_decide.
    + rewrite bool_decide_true by lia. done.
Qed.

(** In-order delivery.  Starting from a peer that has applied nothing,
    whatever critical sections of the other goroutines run between the two
    halves of the applier's iterations, the service receives commands with
    consecutive indices and snapshots that only move forward; no index is
    delivered twice, and lastApplied is the last index delivered. *)
Theorem applier_in_order rf s :
  raft_wf rf → lastApplied rf = 0%Z →
  rtc apply_step (mkApplyState rf None []) s →
  in_order 0 (as_trace s) ∧
  (as_sending s = None → lastApplied (as_raft s) = trace_index (as_trace s)).
Proof.
  intros Hwf H0 Hr.
  assert (Hinv : apply_inv s).
  { eapply rtc_preserve; [apply apply_step_inv| |done]. by split_and!. }
  destruct Hinv as (_ & Ho & Hs). split; [done|]. intros Hn. by rewrite Hn in Hs.
Qed.
End RaftNode.
