(* ===== verification/RaftCluster.v ===== *)
(** * A cluster of Raft peers

    The peers of one Raft group and the network between them.  A message
    that was sent may be delivered any number of times, in any order and at
    any later time, or never; a call may also report failure at any time.
    The election goroutine of a candidate owns one outstanding call per
    other peer and takes at most one reply from each.  A peer may crash at
    any time between critical sections and restart from its persister.
    [cl_leaders] and [cl_applied] are history variables: who became leader in
    which term, and what appliers handed to the services.

    A request carries the entries that the log has when it is built.  In the
    code it shares the array of the log until it is encoded; [RaftShared] has
    that system, and relates it to this one.  Votes do not depend on it.

    Theorem: election safety, at most one leader per term. *)

From stdpp Require Import base list gmap.
From Stdlib Require Import ZArith Lia.
From S2P Require Import Prelude RaftLog RaftCore RaftElection RaftReplication RaftApply RaftNode.

Section RaftCluster.
Context {C : Type} `{!Gob (PState C), !GobOk (PState C)}.
Implicit Types rf : Raft C.

(** An election goroutine that is counting votes, with the peers whose
    RequestVote call has not returned yet. *)
Record Thread : Type := mkThread {
  th_el : Election;
  th_pending : list Z;
}.

Record Node : Type := mkNode {
  nd_raft : Raft C;
  nd_threads : list Thread;
  nd_sending : option (ApplyMsg C);  (* the applier has it in hand *)
}.

Record Cluster : Type := mkCluster {
  cl_nodes : gmap Z Node;
  cl_requests : list (Z * RequestVoteArgs);                      (* to, args *)
  cl_votes : list (Z * RequestVoteArgs * RequestVoteReply);      (* from, args, reply *)
  cl_msgs : list (Z * LeaderMsg C);                              (* to, args *)
  cl_aereplies : list (Z * AppendEntriesArgs C * AppendEntriesReply);
  cl_isreplies : list (Z * InstallSnapshotArgs * InstallSnapshotReply);
  cl_leaders : list (Z * Z);                                     (* term, peer *)
  cl_applied : list (Z * ApplyMsg C);                            (* peer, sent on its applyCh *)
}.

Implicit Types c : Cluster.

(** Updates of a cluster: the node of a peer, and what was sent. *)
Definition set_node c (i : Z) (nd : Node) : Cluster :=
  mkCluster (<[i := nd]> (cl_nodes c)) (cl_requests c) (cl_votes c) (cl_msgs c)
            (cl_aereplies c) (cl_isreplies c) (cl_leaders c) (cl_applied c).
Definition add_requests (l : list (Z * RequestVoteArgs)) c : Cluster :=
  mkCluster (cl_nodes c) (l ++ cl_requests c) (cl_votes c) (cl_msgs c)
            (cl_aereplies c) (cl_isreplies c) (cl_leaders c) (cl_applied c).
Definition add_vote (v : Z * RequestVoteArgs * RequestVoteReply) c : Cluster :=
  mkCluster (cl_nodes c) (cl_requests c) (v :: cl_votes c) (cl_msgs c)
            (cl_aereplies c) (cl_isreplies c) (cl_leaders c) (cl_applied c).
Definition add_msgs (l : list (Z * LeaderMsg C)) c : Cluster :=
  mkCluster (cl_nodes c) (cl_requests c) (cl_votes c) (l ++ cl_msgs c)
            (cl_aereplies c) (cl_isreplies c) (cl_leaders c) (cl_applied c).
Definition add_aereply (r : Z * AppendEntriesArgs C * AppendEntriesReply) c : Cluster :=
  mkCluster (cl_nodes c) (cl_requests c) (cl_votes c) (cl_msgs c)
            (r :: cl_aereplies c) (cl_isreplies c) (cl_leaders c) (cl_applied c).
Definition add_isreply (r : Z * InstallSnapshotArgs * InstallSnapshotReply) c : Cluster :=
  mkCluster (cl_nodes c) (cl_requests c) (cl_votes c) (cl_msgs c)
            (cl_aereplies c) (r :: cl_isreplies c) (cl_leaders c) (cl_applied c).
Definition add_leader (l : Z * Z) c : Cluster :=
  mkCluster (cl_nodes c) (cl_requests c) (cl_votes c) (cl_msgs c)
            (cl_aereplies c) (cl_isreplies c) (l :: cl_leaders c) (cl_applied c).
Definition add_applied (m : Z * ApplyMsg C) c : Cluster :=
  mkCluster (cl_nodes c) (cl_requests c) (cl_votes c) (cl_msgs c)
            (cl_aereplies c) (cl_isreplies c) (cl_leaders c) (m :: cl_applied c).

(** A peer's state changes; its election goroutines are untouched. *)
Definition set_raft c (i : Z) (nd : Node) rf : Cluster :=
  set_node c i (mkNode rf (nd_threads nd) (nd_sending nd)).

(** Freshly made peers, nothing sent. *)
Definition initCluster (n : nat) (now : Z) : Cluster :=
  mkCluster
    (list_to_map ((λ k, (Z.of_nat k, mkNode (resetElectionTimer now
        (freshRaft n (Z.of_nat k) Persister.MakePersister)) [] None)) <$> seq 0 n))
    [] [] [] [] [] [] [].

Inductive cluster_step c : Cluster → Prop :=
(* the ticker starts leaderElection *)
| cs_election i nd now1 now2 now3 rf' args :
    cl_nodes c !! i = Some nd → (now1 ≤ now2)%Z →
    leaderElection_start (nd_raft nd) now1 now2 now3 = Ok (rf', Some args) →
    cluster_step c
      (add_requests ((λ p, (p, args)) <$> votePeers rf')
        (set_node c i (mkNode rf' (mkThread (election_init args) (votePeers rf') :: nd_threads nd) (nd_sending nd))))
| cs_no_election i nd now1 now2 now3 rf' :
    cl_nodes c !! i = Some nd → (now1 ≤ now2)%Z →
    leaderElection_start (nd_raft nd) now1 now2 now3 = Ok (rf', None) →
    cluster_step c (set_raft c i nd rf')
(* a RequestVote request arrives *)
| cs_RequestVote i nd args now rf' reply :
    cl_nodes c !! i = Some nd → (i, args) ∈ cl_requests c →
    RequestVote (nd_raft nd) args now = Ok (rf', reply) →
    cluster_step c (add_vote (i, args, reply) (set_raft c i nd rf'))
(* countVotes takes the reply of peer [p] (or nil) from its channel *)
| cs_countVotes i nd th ths1 ths2 p reply rf' el' :
    cl_nodes c !! i = Some nd → nd_threads nd = ths1 ++ th :: ths2 →
    countVotes_more (nd_raft nd) (th_el th) = true → p ∈ th_pending th →
    (∀ r, reply = Some r → (p, el_args (th_el th), r) ∈ cl_votes c) →
    countVotes_step (nd_raft nd) (th_el th) reply = (rf', el') →
    cluster_step c
      (set_node c i (mkNode rf' (ths1 ++ mkThread el' (filter (λ q, q ≠ p) (th_pending th)) :: ths2) (nd_sending nd)))
(* the election ends *)
| cs_finish i nd th ths1 ths2 :
    cl_nodes c !! i = Some nd → nd_threads nd = ths1 ++ th :: ths2 →
    countVotes_more (nd_raft nd) (th_el th) = false →
    let rf' := leaderElection_finish (nd_raft nd) (th_el th) in
    let c' := set_node c i (mkNode rf' (ths1 ++ ths2) (nd_sending nd)) in
    cluster_step c
      (if bool_decide (role rf' = LEADER ∧ role (nd_raft nd) ≠ LEADER)
       then add_leader (currentTerm rf', i) c' else c')
(* an iteration of the leader's heartbeat loop *)
| cs_heartbeat i nd notified rf' msgs more :
    cl_nodes c !! i = Some nd →
    leaderHeartbeats_iter (nd_raft nd) notified = Ok (rf', msgs, more) →
    cluster_step c (add_msgs msgs (set_raft c i nd rf'))
| cs_AppendEntries i nd args now rf' reply :
    cl_nodes c !! i = Some nd → (i, MsgAppendEntries args) ∈ cl_msgs c →
    AppendEntries (nd_raft nd) args now = Ok (rf', reply) →
    cluster_step c (add_aereply (i, args, reply) (set_raft c i nd rf'))
| cs_InstallSnapshot i nd args now rf' reply :
    cl_nodes c !! i = Some nd → (i, MsgInstallSnapshot args) ∈ cl_msgs c →
    InstallSnapshot (nd_raft nd) args now = Ok (rf', reply) →
    cluster_step c (add_isreply (i, args, reply) (set_raft c i nd rf'))
| cs_AppendEntries_reply i nd server args reply rf' :
    cl_nodes c !! i = Some nd → (server, args, reply) ∈ cl_aereplies c →
    aea_LeaderId args = i →
    sendAppendEntries (nd_raft nd) server args reply = Ok rf' →
    cluster_step c (set_raft c i nd rf')
| cs_InstallSnapshot_reply i nd server args reply rf' :
    cl_nodes c !! i = Some nd → (server, args, reply) ∈ cl_isreplies c →
    isa_LeaderId args = i →
    sendInstallSnapshot (nd_raft nd) server args reply = Ok rf' →
    cluster_step c (set_raft c i nd rf')
(* the service *)
| cs_Start i nd cmd rf' result :
    cl_nodes c !! i = Some nd → Start (nd_raft nd) cmd = (rf', result) →
    cluster_step c (set_raft c i nd rf')
| cs_Snapshot i nd index snap rf' :
    cl_nodes c !! i = Some nd → Snapshot (nd_raft nd) index snap = Ok rf' →
    cluster_step c (set_raft c i nd rf')
(* the applier takes a message and sends it, and later notes that it did *)
| cs_applier_begin i nd msg :
    cl_nodes c !! i = Some nd → nd_sending nd = None →
    applier_begin (nd_raft nd) = Ok (Deliver msg) →
    cluster_step c (add_applied (i, msg) (set_node c i (mkNode (nd_raft nd) (nd_threads nd) (Some msg))))
| cs_applier_end i nd msg :
    cl_nodes c !! i = Some nd → nd_sending nd = Some msg →
    cluster_step c (set_node c i (mkNode (applier_end (nd_raft nd) msg) (nd_threads nd) None))
| cs_Kill i nd :
    cl_nodes c !! i = Some nd →
    cluster_step c (set_raft c i nd (Kill (nd_raft nd)))
(* crash and restart: the goroutines are gone, the persister is not *)
| cs_crash i nd now rf' :
    cl_nodes c !! i = Some nd →
    Make (npeers (nd_raft nd)) i (Persister.Copy (persister (nd_raft nd))) now = Ok rf' →
    cluster_step c (set_node c i (mkNode rf' [] None)).

Definition reachable (n : nat) c : Prop := ∃ now, rtc cluster_step (initCluster n now) c.

(** ** The invariant *)

(** Peer [v] granted its vote to [l] in term [T]. *)
Definition granted_vote c (v T l : Z) : Prop :=
  ∃ args r, (v, args, r) ∈ cl_votes c ∧ rvr_VoteGranted r = true ∧
    rva_Term args = T ∧ rva_CandidateId args = l.

(** Distinct peers other than [l], all of which voted for [l] in [T]. *)
Definition voters c (n : nat) (T l : Z) (S : list Z) : Prop :=
  NoDup S ∧ ∀ p, p ∈ S → p ≠ l ∧ (0 ≤ p < Z.of_nat n)%Z ∧ granted_vote c p T l.

(** Term [T] is over for a peer, or it is in [T] and satisfies [P]. *)
Definition past_or rf (T : Z) (P : Prop) : Prop :=
  (T < currentTerm rf)%Z ∨ currentTerm rf = T ∧ P.

(** An election goroutine has counted distinct voters, none of which is
    still pending. *)
Definition thread_inv c (n : nat) (i : Z) (th : Thread) : Prop :=
  rva_CandidateId (el_args (th_el th)) = i ∧
  (∀ p, p ∈ th_pending th → p ≠ i ∧ (0 ≤ p < Z.of_nat n)%Z) ∧
  ∃ S, voters c n (rva_Term (el_args (th_el th))) i S ∧
    (∀ p, p ∈ S → p ∉ th_pending th) ∧
    (Z.of_nat (length S) + 1 = el_count (th_el th))%Z.

Record node_inv c (n : nat) (i : Z) (nd : Node) : Prop := {
  ni_wf : raft_wf (nd_raft nd);
  ni_me : me (nd_raft nd) = i;
  ni_npeers : npeers (nd_raft nd) = n;
  ni_leader : role (nd_raft nd) = LEADER → (currentTerm (nd_raft nd), i) ∈ cl_leaders c;
  ni_granted : ∀ T l, granted_vote c i T l →
    l ≠ i ∧ (0 ≤ l)%Z ∧ past_or (nd_raft nd) T (votedFor (nd_raft nd) = l);
  ni_won : ∀ T, (T, i) ∈ cl_leaders c →
    past_or (nd_raft nd) T (votedFor (nd_raft nd) = i ∧ role (nd_raft nd) ≠ CANDIDATE);
  ni_thread : ∀ th, th ∈ nd_threads nd → thread_inv c n i th;
}.

Record cluster_inv (n : nat) c : Prop := {
  ci_nodes : ∀ i nd, cl_nodes c !! i = Some nd → node_inv c n i nd;
  ci_requests : ∀ p args, (p, args) ∈ cl_requests c →
    rva_CandidateId args ≠ p ∧ (0 ≤ rva_CandidateId args)%Z;
  ci_unique : ∀ v T l1 l2, granted_vote c v T l1 → granted_vote c v T l2 → l1 = l2;
  ci_no_self : ∀ T l l', (T, l) ∈ cl_leaders c → ¬ granted_vote c l T l';
  ci_quorum : ∀ T l, (T, l) ∈ cl_leaders c →
    (0 ≤ l < Z.of_nat n)%Z ∧ ∃ S, voters c n T l S ∧ (majority n ≤ Z.of_nat (length S) + 1)%Z;
}.

(** ** Quorums *)

(** Two majorities of the same peers share a member. *)
Lemma quorums_meet n (Q1 Q2 : list Z) :
  NoDup Q1 → NoDup Q2 →
  (∀ p, p ∈ Q1 → (0 ≤ p < Z.of_nat n)%Z) → (∀ p, p ∈ Q2 → (0 ≤ p < Z.of_nat n)%Z) →
  (majority n ≤ Z.of_nat (length Q1))%Z → (majority n ≤ Z.of_nat (length Q2))%Z →
  ∃ p, p ∈ Q1 ∧ p ∈ Q2.
Proof.
  intros Hn1 Hn2 Hr1 Hr2 Hm1 Hm2. pose proof (majority_quorum n).
  destruct (decide (Exists (λ p, p ∈ Q2) Q1)) as [(p & ? & ?)%Exists_exists|Hno]; [by exists p|].
  exfalso. assert (Hsub : Q1 ++ Q2 ⊆+ Z.of_nat <$> seq 0 n).
  { apply NoDup_submseteq.
    - apply NoDup_app. split_and!; [done| |done]. intros p ? ?. apply Hno, Exists_exists. by exists p.
    - intros p Hp. apply list_elem_of_fmap. exists (Z.to_nat p). rewrite elem_of_seq.
      apply elem_of_app in Hp as [Hp|Hp]; [apply Hr1 in Hp|apply Hr2 in Hp]; lia. }
  apply submseteq_length in Hsub. rewrite length_app, length_fmap, length_seq in Hsub. lia.
Qed.

(** ** What a step keeps *)

Lemma keep_granted rf rf' T l :
  raft_wf rf → vote_step rf rf' ∨ win_step rf rf' → l ≠ me rf → (0 ≤ l)%Z →
  past_or rf T (votedFor rf = l) → past_or rf' T (votedFor rf' = l).
Proof.
  intros Hwf Hs Hme Hl. unfold past_or.
  assert (Hf : votedFor rf = l → role rf = FOLLOWER).
  { intros Hv. destruct (decide (role rf = FOLLOWER)) as [|Hr]; [done|].
    pose proof (wf_vote _ Hwf Hr). congruence. }
  intros [?|[HT Hv]]; destruct Hs as [[[? _]|[? Hs]]|(? & ? & Hc & _)]; try (left; lia).
  - right. split; [congruence|]. specialize (Hf Hv).
    destruct Hs as [[? _]|[(? & _)|(_ & _ & ?)]]; [congruence|congruence|lia].
  - specialize (Hf Hv). congruence.
Qed.

Lemma keep_won rf rf' T :
  raft_wf rf → vote_step rf rf' ∨ win_step rf rf' →
  past_or rf T (votedFor rf = me rf ∧ role rf ≠ CANDIDATE) →
  past_or rf' T (votedFor rf' = me rf ∧ role rf' ≠ CANDIDATE).
Proof.
  intros Hwf Hs. unfold past_or. pose proof (wf_me _ Hwf).
  intros [?|(HT & Hv & Hr)]; destruct Hs as [[[? _]|[? Hs]]|(? & ? & Hc & _)]; try (left; lia).
  - right. split; [congruence|].
    destruct Hs as [[? ?]|[(? & _)|(_ & _ & ?)]]; [split; congruence|congruence|lia].
  - congruence.
Qed.

(** [c'] knows at least the votes that [c] knows. *)
Definition more_votes c c' : Prop := ∀ v T l, granted_vote c v T l → granted_vote c' v T l.

Lemma voters_mono c c' n T l S : more_votes c c' → voters c n T l S → voters c' n T l S.
Proof. intros Hm [? Hv]. split; [done|]. intros p Hp. destruct (Hv p Hp) as (? & ? & ?). auto. Qed.

Lemma thread_inv_mono c c' n i th : more_votes c c' → thread_inv c n i th → thread_inv c' n i th.
Proof.
  intros Hm (? & ? & S & ? & ? & ?). split_and!; [done..|]. exists S. eauto using voters_mono.
Qed.

Lemma granted_vote_ext c c' v T l :
  cl_votes c' = cl_votes c → granted_vote c' v T l ↔ granted_vote c v T l.
Proof. unfold granted_vote. by intros ->. Qed.

Lemma node_inv_ext c c' n i nd :
  cl_votes c' = cl_votes c → cl_leaders c' = cl_leaders c → node_inv c n i nd → node_inv c' n i nd.
Proof.
  intros Hv Hl [? ? ? ? Hg ? Ht].
  assert (more_votes c c') by (intros ???; by rewrite (granted_vote_ext c c') by done).
  split; try done; try (by rewrite Hl).
  - intros T l. rewrite (granted_vote_ext c c') by done. apply Hg.
  - intros th Hth. eapply thread_inv_mono; [done|by apply Ht].
Qed.

(** A step that changes one node, and sends nothing that matters. *)
Lemma inv_update n c c' i nd' :
  cluster_inv n c → cl_nodes c' = <[i := nd']> (cl_nodes c) →
  cl_votes c' = cl_votes c → cl_leaders c' = cl_leaders c →
  (∀ p args, (p, args) ∈ cl_requests c' → rva_CandidateId args ≠ p ∧ (0 ≤ rva_CandidateId args)%Z) →
  node_inv c n i nd' → cluster_inv n c'.
Proof.
  intros [Hn Hr Hu Hs Hq] Hnodes Hv Hl Hreq Hi.
  assert (Hge := λ v T l, granted_vote_ext c c' v T l Hv).
  assert (Hm : more_votes c c') by (intros ???; by rewrite Hge).
  split; try done.
  - intros j nd Hj. rewrite Hnodes in Hj. apply (node_inv_ext c c'); [done..|].
    apply lookup_insert_Some in Hj as [[<- <-]|[? Hj]]; [done|by apply Hn].
  - intros v T l1 l2. rewrite !Hge. apply Hu.
  - intros T l l'. rewrite Hl, Hge. apply Hs.
  - intros T l. rewrite Hl. intros Hin. destruct (Hq T l Hin) as (? & S & ? & ?).
    split; [done|]. exists S. eauto using voters_mono.
Qed.

(** A critical section that wins no election. *)
Definition peer_ok rf rf' : Prop :=
  raft_wf rf' ∧ me rf' = me rf ∧ npeers rf' = npeers rf ∧ vote_step rf rf'.

Lemma step_ok_peer rf rf' : step_ok_with vote_step rf rf' → peer_ok rf rf'.
Proof. intros []. by split_and!. Qed.

Lemma applier_end_peer rf msg : raft_wf rf → peer_ok rf (applier_end rf msg).
Proof.
  intros Hwf. split; [by apply applier_end_wf|].
  unfold applier_end, vote_step. repeat case_match; simpl; naive_solver.
Qed.

Lemma node_inv_step c n i nd rf' ths sd :
  node_inv c n i nd → peer_ok (nd_raft nd) rf' →
  (∀ th, th ∈ ths → thread_inv c n i th) → node_inv c n i (mkNode rf' ths sd).
Proof.
  intros [Hwf Hme Hnp Hl Hg Hw Ht] (Hwf' & Hme' & Hnp' & Hv) Hths. split; simpl; try done; try congruence.
  - intros Hr. destruct Hv as [[? Hno]|[Heq Hv]]; [done|]. rewrite Heq. apply Hl.
    destruct Hv as [[_ ?]|[(_ & ? & _)|(_ & ? & _)]]; congruence.
  - intros T l Hgr. destruct (Hg T l Hgr) as (? & ? & ?). split_and!; [done..|].
    eapply keep_granted; [exact Hwf|by left|congruence|done..].
  - intros T Hin. rewrite <-Hme. eapply keep_won; [exact Hwf|by left|]. rewrite Hme. by apply Hw.
Qed.

(** A step of one peer's own code, its election goroutines aside. *)
Lemma quiet_step n c c' i nd rf' sd :
  cluster_inv n c → cl_nodes c !! i = Some nd → peer_ok (nd_raft nd) rf' →
  cl_nodes c' = <[i := mkNode rf' (nd_threads nd) sd]> (cl_nodes c) →
  cl_votes c' = cl_votes c → cl_leaders c' = cl_leaders c → cl_requests c' = cl_requests c →
  cluster_inv n c'.
Proof.
  intros Hinv Hi Hok Hn Hv Hl Hr. pose proof (ci_nodes _ _ Hinv i nd Hi) as Hni.
  eapply inv_update; [done..|by rewrite Hr; apply Hinv|].
  eapply node_inv_step; [done..|apply Hni].
Qed.

Lemma election_step n c i nd now1 now2 now3 rf' args :
  cluster_inv n c → cl_nodes c !! i = Some nd → (now1 ≤ now2)%Z →
  leaderElection_start (nd_raft nd) now1 now2 now3 = Ok (rf', Some args) →
  cluster_inv n
    (add_requests ((λ p, (p, args)) <$> votePeers rf')
      (set_node c i (mkNode rf' (mkThread (election_init args) (votePeers rf') :: nd_threads nd) (nd_sending nd)))).
Proof.
  intros Hinv Hi Hnow Hst. pose proof (ci_nodes _ _ Hinv i nd Hi) as Hni.
  pose proof (ni_wf _ _ _ _ Hni) as Hwf. pose proof (ni_me _ _ _ _ Hni) as Hme.
  pose proof (wf_me _ Hwf) as Hrange.
  destruct (electionStart_ok _ _ _ _ _ _ Hwf Hnow Hst) as (Hok & _ & _ & _ & _ & Hcand).
  assert (Hpeers : ∀ p, p ∈ votePeers rf' → p ≠ i ∧ (0 ≤ p < Z.of_nat n)%Z).
  { intros p Hp%votePeers_spec. pose proof (so_me _ _ _ Hok) as Hme'.
    pose proof (so_npeers _ _ _ Hok) as Hnp'. pose proof (ni_npeers _ _ _ _ Hni).
    rewrite Hme', Hnp', Hme in Hp. split; [tauto|lia]. }
  eapply inv_update; [done..| |].
  - intros p a Hp. simpl in Hp. apply elem_of_app in Hp as [Hp|Hp]; [|by apply Hinv].
    apply list_elem_of_fmap in Hp as (q & [= -> ->] & Hq). destruct (Hpeers q Hq).
    rewrite Hcand. split; [congruence|lia].
  - eapply node_inv_step; [done|by apply step_ok_peer|]. intros th [->|Hth]%elem_of_cons; [|by apply Hni].
    split_and!; simpl; [congruence|done|]. exists []. split_and!; [|by intros ? ?%elem_of_nil|done].
    split; [constructor|by intros ? ?%elem_of_nil].
Qed.

Lemma thread_step n c i nd th p reply rf' el' :
  node_inv c n i nd → thread_inv c n i th → p ∈ th_pending th →
  (∀ r, reply = Some r → (p, el_args (th_el th), r) ∈ cl_votes c) →
  countVotes_step (nd_raft nd) (th_el th) reply = (rf', el') →
  thread_inv c n i (mkThread el' (filter (λ q, q ≠ p) (th_pending th))).
Proof.
  intros Hni (Hc & Hp & S & [HS1 HS2] & Hd & Hlen) Hin Hrep Hst.
  assert (Hpend : ∀ q, q ∈ filter (λ q, q ≠ p) (th_pending th) → q ≠ i ∧ (0 ≤ q < Z.of_nat n)%Z).
  { intros q [_ Hq]%list_elem_of_filter. by apply Hp. }
  assert (el_args el' = el_args (th_el th)) as Ha.
  { unfold countVotes_step in Hst. repeat case_match; by simplify_eq. }
  destruct (decide (is_granted reply = true)) as [Hg|Hg].
  - destruct reply as [r|]; [|done]. simpl in Hg. unfold countVotes_step in Hst. rewrite Hg in Hst.
    injection Hst as _ <-. split_and!; simpl; [done|done|].
    destruct (Hp p Hin) as [? ?]. exists (p :: S). split_and!.
    + split; [constructor; [|done]; intros HpS; by apply (Hd p HpS)|].
      intros q [->|Hq]%elem_of_cons; [|by apply HS2].
      split; [done|]. split; [done|]. exists (el_args (th_el th)), r. split_and!; auto.
    + intros q [->|Hq]%elem_of_cons; rewrite list_elem_of_filter; [naive_solver|].
      intros [_ ?]. by apply (Hd q Hq).
    + simpl. lia.
  - assert (el_count el' = el_count (th_el th)) as Hcount.
    { unfold countVotes_step in Hst. destruct reply as [r|]; simpl in Hg; [|by simplify_eq].
      destruct (rvr_VoteGranted r); [done|]. case_bool_decide; by simplify_eq. }
    split_and!; simpl; [by rewrite Ha|done|]. rewrite Ha, Hcount. exists S. split_and!; [done| |done].
    intros q Hq. rewrite list_elem_of_filter. intros [_ ?]. by apply (Hd q Hq).
Qed.

(** A granted vote: the voter had not voted for anyone else in that term. *)
Lemma grant_fresh c n i nd args T l :
  node_inv c n i nd → (0 ≤ rva_CandidateId args)%Z →
  (currentTerm (nd_raft nd) < rva_Term args ∨
   currentTerm (nd_raft nd) = rva_Term args ∧
   (votedFor (nd_raft nd) = -1 ∨ votedFor (nd_raft nd) = rva_CandidateId args))%Z →
  granted_vote c i T l → T = rva_Term args → l = rva_CandidateId args.
Proof.
  intros Hni Hc Hpre Hg ->. destruct (ni_granted _ _ _ _ Hni _ _ Hg) as (? & ? & Hpast).
  destruct Hpast as [?|[? ?]]; [lia|]. destruct Hpre as [?|[_ [?|?]]]; [lia|lia|congruence].
Qed.

Lemma vote_added c v args r v' T l :
  granted_vote (add_vote (v, args, r) c) v' T l ↔
  granted_vote c v' T l ∨
  (v' = v ∧ rvr_VoteGranted r = true ∧ T = rva_Term args ∧ l = rva_CandidateId args).
Proof.
  unfold granted_vote; simpl. setoid_rewrite elem_of_cons. naive_solver.
Qed.

Lemma requestVote_step n c i nd args now rf' reply :
  cluster_inv n c → cl_nodes c !! i = Some nd → (i, args) ∈ cl_requests c →
  RequestVote (nd_raft nd) args now = Ok (rf', reply) →
  cluster_inv n (add_vote (i, args, reply) (set_raft c i nd rf')).
Proof.
  intros Hinv Hi Hreq Hrv. pose proof (ci_nodes _ _ Hinv i nd Hi) as Hni.
  destruct (ci_requests _ _ Hinv _ _ Hreq) as [Hne Hpos].
  pose proof (ni_me _ _ _ _ Hni) as Hme. pose proof (wf_me _ (ni_wf _ _ _ _ Hni)) as Hrange.
  rewrite <-Hme in Hne.
  destruct (RequestVote_ok _ _ _ _ _ (ni_wf _ _ _ _ Hni) Hne Hrv) as [Hok Hgr].
  rewrite Hme in Hne.
  assert (Hq : cluster_inv n (set_raft c i nd rf')) by (eapply quiet_step; eauto using step_ok_peer; done).
  destruct Hq as [Hn Hr Hu Hs Hqu].
  assert (Hm : more_votes (set_raft c i nd rf') (add_vote (i, args, reply) (set_raft c i nd rf'))).
  { intros ? ? ? ?. apply vote_added. by left. }
  split; [|done|..].
  - intros j nd' Hj. pose proof (Hn j nd' Hj) as [? ? ? ? Hg ? Ht]. split; try done.
    + intros T l [Hold|(-> & Hgt & -> & ->)]%vote_added; [by apply Hg|].
      simpl in Hj. rewrite lookup_insert_eq in Hj. injection Hj as <-. simpl.
      destruct (Hgr Hgt) as (? & ? & _). split_and!; [done..|by right].
    + intros th Hth. eapply thread_inv_mono; [done|by apply Ht].
  - assert (Hnew : ∀ T l, granted_vote (set_raft c i nd rf') i T l → rvr_VoteGranted reply = true →
      T = rva_Term args → l = rva_CandidateId args).
    { intros T l Hg Hgt HT. destruct (Hgr Hgt) as (_ & _ & _ & Hpre).
      eapply (grant_fresh c n i nd args); [done..| |done]. by rewrite <-(granted_vote_ext c). }
    intros v T l1 l2 H1%vote_added H2%vote_added.
    destruct H1 as [H1|(-> & ? & -> & ->)], H2 as [H2|(? & ? & ? & ->)]; subst; eauto.
    symmetry; eauto.
  - intros T l l' Hin [Hold|(-> & Hgt & -> & ->)]%vote_added; [by eapply Hs|].
    destruct (Hgr Hgt) as (_ & _ & _ & Hpre).
    destruct (ni_won _ _ _ _ Hni (rva_Term args)) as [?|(? & ? & _)]; [done|lia|].
    destruct Hpre as [?|[_ [?|?]]]; lia || congruence.
  - intros T l Hin. destruct (Hqu T l Hin) as (? & S & ? & ?). split; [done|]. exists S. eauto using voters_mono.
Qed.

Lemma finish_step n c i nd th ths sd :
  cluster_inv n c → cl_nodes c !! i = Some nd → thread_inv c n i th →
  (∀ th', th' ∈ ths → thread_inv c n i th') →
  let rf' := leaderElection_finish (nd_raft nd) (th_el th) in
  let c' := set_node c i (mkNode rf' ths sd) in
  cluster_inv n
    (if bool_decide (role rf' = LEADER ∧ role (nd_raft nd) ≠ LEADER)
     then add_leader (currentTerm rf', i) c' else c').
Proof.
  intros Hinv Hi (Hcand & _ & S & HS & _ & Hlen) Hths rf' c'.
  pose proof (ci_nodes _ _ Hinv i nd Hi) as Hni. pose proof (ni_wf _ _ _ _ Hni) as Hwf.
  pose proof (ni_me _ _ _ _ Hni) as Hme. pose proof (wf_me _ Hwf) as Hrange.
  pose proof (ni_npeers _ _ _ _ Hni) as Hnp.
  destruct (electionFinish_ok _ (th_el th) Hwf) as [Heq|(Hwf' & (Hct & Hvf & Hc & Hld) & Hbl & Hterm & Hmaj)].
  { unfold c', rf'. rewrite Heq. rewrite bool_decide_false by naive_solver.
    eapply inv_update; [done..|apply Hinv|]. eapply node_inv_step; [done|by apply step_ok_peer, step_ok_refl|done]. }
  unfold c'. fold rf' in Hwf', Hct, Hvf, Hld, Hbl. rewrite bool_decide_true by (rewrite Hld, Hc; done).
  assert (Hself : votedFor (nd_raft nd) = i) by (rewrite <-Hme; apply (wf_vote _ Hwf); by rewrite Hc).
  pose proof Hinv as [Hn Hr Hu Hs Hqu].
  assert (Hge : ∀ v T l, granted_vote (add_leader (currentTerm rf', i) (set_node c i (mkNode rf' ths sd))) v T l
    ↔ granted_vote c v T l) by done.
  split; [|done..| |].
  - intros j nd' Hj. simpl in Hj. apply lookup_insert_Some in Hj as [[<- <-]|[Hji Hj]].
    + destruct Hni as [_ _ _ _ Hg Hw _]. split; simpl; try done; [by rewrite Hbl|by rewrite Hbl|by left|..].
      * intros T l Hgr. destruct (Hg T l Hgr) as (? & ? & ?). split_and!; [done..|].
        eapply (keep_granted (nd_raft nd)); [done|right; done|congruence|done..].
      * intros T [[= ->]|Hin]%elem_of_cons; [right; split; [done|]; rewrite Hld; split; [congruence|done]|].
        rewrite <-Hme. eapply (keep_won (nd_raft nd)); [done|right; done|]. rewrite Hme. by apply Hw.
    + destruct (Hn j nd' Hj) as [? ? ? Hl Hg Hw Ht]. split; simpl; try done; [by right; apply Hl|].
      intros T [[= -> ->]|Hin]%elem_of_cons; [done|by apply Hw].
  - intros T l l' [[= -> ->]|Hin]%elem_of_cons Hg; [|by eapply Hs].
    destruct (ni_granted _ _ _ _ Hni _ _ Hg) as (? & ? & [?|[? ?]]); [lia|congruence].
  - intros T l [[= -> ->]|Hin]%elem_of_cons; [|by apply Hqu].
    split; [lia|]. exists S. rewrite Hct, Hterm, <-Hnp. split; [|rewrite Hlen; done].
    by rewrite Hnp.
Qed.

Lemma crash_step n c i nd now rf' :
  cluster_inv n c → cl_nodes c !! i = Some nd →
  Make (npeers (nd_raft nd)) i (Persister.Copy (persister (nd_raft nd))) now = Ok rf' →
  cluster_inv n (set_node c i (mkNode rf' [] None)).
Proof.
  intros Hinv Hi HM. pose proof (ci_nodes _ _ Hinv i nd Hi) as [Hwf Hme Hnp Hl Hg Hw _].
  destruct (crash_restart (nd_raft nd) now Hwf) as (rf1 & HM1 & Hwf1 & Hp & _ & _ & Hr & _).
  rewrite Hme in HM1. assert (rf1 = rf') as ->.
  { assert (Persister.Copy (persister (nd_raft nd)) = persister (nd_raft nd)) as Hcp
      by (by destruct (persister (nd_raft nd))).
    rewrite Hcp in HM. congruence. }
  injection Hp as Hct Hvf _ _ _.
  assert (me rf' = i ∧ npeers rf' = npeers (nd_raft nd)) as [Hme' Hnp'].
  { unfold Make, readPersist in HM. repeat case_match; res_inv; simplify_eq; done. }
  eapply inv_update; [done..|apply Hinv|]. split; simpl; try done; try congruence.
  - intros T l Hgr. destruct (Hg T l Hgr) as (? & ? & Hpo). split_and!; [done..|].
    unfold past_or in *. by rewrite Hct, Hvf.
  - intros T Hin. specialize (Hw T Hin). unfold past_or in *. rewrite Hct, Hvf, Hr. naive_solver.
  - by intros ? ?%elem_of_nil.
Qed.

Lemma cluster_step_inv n c c' : cluster_inv n c → cluster_step c c' → cluster_inv n c'.
Proof.
  intros Hinv Hstep.
  assert (Hwf : ∀ i nd, cl_nodes c !! i = Some nd → raft_wf (nd_raft nd))
    by (intros i nd Hi; apply (ci_nodes _ _ Hinv i nd Hi)).
  destruct Hstep; try (eapply quiet_step; [done|done| |done..]).
  - by eapply election_step.
  - apply step_ok_peer. by eapply electionStart_ok; [apply (Hwf i)|..].
  - by eapply requestVote_step.
  - pose proof (ci_nodes _ _ Hinv i nd ltac:(done)) as Hni.
    eapply inv_update; [done..|apply Hinv|].
    eapply node_inv_step; [done|apply step_ok_peer; by eapply countVotes_ok; [apply (Hwf i)|]|].
    pose proof (ni_thread _ _ _ _ Hni) as Ht. rewrite H0 in Ht.
    intros th' [Hth|[->|Hth]%elem_of_cons]%elem_of_app; [apply Ht; set_solver| |apply Ht; set_solver].
    eapply thread_step; [done|apply Ht; set_solver|done..].
  - pose proof (ni_thread _ _ _ _ (ci_nodes _ _ Hinv i nd ltac:(done))) as Ht. rewrite H0 in Ht.
    eapply finish_step; [done|done|apply Ht; set_solver|].
    intros th' Hth. apply Ht. set_solver.
  - apply step_ok_peer. by eapply leaderHeartbeats_ok; [apply (Hwf i)|].
  - apply step_ok_peer. by eapply AppendEntries_ok; [apply (Hwf i)|].
  - apply step_ok_peer. by eapply InstallSnapshot_ok; [apply (Hwf i)|].
  - apply step_ok_peer. by eapply sendAppendEntries_ok; [apply (Hwf i)|].
  - apply step_ok_peer. by eapply sendInstallSnapshot_ok; [apply (Hwf i)|].
  - apply step_ok_peer. by eapply Start_ok; [apply (Hwf i)|].
  - apply step_ok_peer. by eapply Snapshot_ok; [apply (Hwf i)|].
  - by apply step_ok_peer, step_ok_refl, (Hwf i).
  - by apply applier_end_peer, (Hwf i).
  - pose proof (Hwf i nd ltac:(done)) as []. split; [by split|]. split_and!; [done..|]. right. auto.
  - by eapply crash_step.
Qed.
Lemma initCluster_inv n now : cluster_inv n (initCluster n now).
Proof.
  assert (Hno : ∀ v T l, ¬ granted_vote (initCluster n now) v T l).
  { intros v T l (? & ? & ?%elem_of_nil & _). done. }
  split; simpl; try (by intros ? ? ?%elem_of_nil); try (by intros ? ? ? ?%elem_of_nil).
  - intros i nd Hi%elem_of_list_to_map_2. apply list_elem_of_fmap in Hi as (k & [= -> ->] & Hk%elem_of_seq).
    split; simpl; try done; [|by intros ? ? ?%Hno|by intros ? ?%elem_of_nil..].
    destruct (freshRaft_wf (C := C) n (Z.of_nat k)) as []; [lia|]. by split.
  - by intros ? ? ? ? ?%Hno.
Qed.

Lemma reachable_inv n c : reachable n c → cluster_inv n c.
Proof.
  intros [now Hr]. eapply rtc_preserve; [|apply (initCluster_inv n now)|done].
  intros x y. apply cluster_step_inv.
Qed.

(** A leader and the peers that voted for it are a quorum. *)
Lemma voters_quorum c n T l S :
  (0 ≤ l < Z.of_nat n)%Z → voters c n T l S →
  NoDup (l :: S) ∧ ∀ p, p ∈ l :: S → (0 ≤ p < Z.of_nat n)%Z.
Proof.
  intros Hl [Hnd Hv]. split.
  - constructor; [|done]. intros Hin. by destruct (Hv l Hin).
  - intros p [->|Hp]%elem_of_cons; [done|]. by destruct (Hv p Hp) as (_ & ? & _).
Qed.

Lemma unique_leader n c T l1 l2 :
  cluster_inv n c → (T, l1) ∈ cl_leaders c → (T, l2) ∈ cl_leaders c → l1 = l2.
Proof.
  intros Hinv H1 H2.
  destruct (ci_quorum _ _ Hinv _ _ H1) as (Hr1 & S1 & HS1 & Hm1).
  destruct (ci_quorum _ _ Hinv _ _ H2) as (Hr2 & S2 & HS2 & Hm2).
  destruct (voters_quorum _ _ _ _ _ Hr1 HS1) as [Hn1 Hb1].
  destruct (voters_quorum _ _ _ _ _ Hr2 HS2) as [Hn2 Hb2].
  destruct (quorums_meet n (l1 :: S1) (l2 :: S2)) as (p & Hp1 & Hp2); [done..|simpl; lia|simpl; lia|].
  destruct HS1 as [_ HS1], HS2 as [_ HS2].
  apply elem_of_cons in Hp1 as [->|Hp1], Hp2 as [->|Hp2]; [done|..].
  - destruct (HS2 _ Hp2) as (_ & _ & Hg). by destruct (ci_no_self _ _ Hinv T l1 l2).
  - destruct (HS1 _ Hp1) as (_ & _ & Hg). by destruct (ci_no_self _ _ Hinv T l2 l1).
  - destruct (HS1 _ Hp1) as (_ & _ & ?), (HS2 _ Hp2) as (_ & _ & ?). by eapply (ci_unique _ _ Hinv p T).
Qed.

(** C6: election safety.  In every cluster state reachable from freshly made
    peers, with messages lost, delayed, reordered and duplicated and peers
    crashing and restarting from their persisters at any time, at most one
    peer ever becomes leader of a term, and no two peers are leaders of the
    same term at once. *)
Theorem election_safety n c :
  reachable n c →
  (∀ T l1 l2, (T, l1) ∈ cl_leaders c → (T, l2) ∈ cl_leaders c → l1 = l2) ∧
  (∀ i j nd1 nd2, cl_nodes c !! i = Some nd1 → cl_nodes c !! j = Some nd2 →
     role (nd_raft nd1) = LEADER → role (nd_raft nd2) = LEADER →
     currentTerm (nd_raft nd1) = currentTerm (nd_raft nd2) → i = j).
Proof.
  intros Hinv%reachable_inv. split; [intros T l1 l2; by apply (unique_leader n)|].
  intros i j nd1 nd2 Hi Hj Hr1 Hr2 Heq.
  pose proof (ni_leader _ _ _ _ (ci_nodes _ _ Hinv _ _ Hi) Hr1).
  pose proof (ni_leader _ _ _ _ (ci_nodes _ _ Hinv _ _ Hj) Hr2) as Hin. rewrite <-Heq in Hin.
  by eapply (unique_leader n).
Qed.
End RaftCluster.

(** ** Witnesses: commands are integers, encoded by [countable_gob] *)

#[local] Instance gobZ : Gob (PState Z) := countable_gob (PState Z).
#[local] Instance gobZ_ok : GobOk (PState Z) := countable_gob_ok (PState Z).

(** In a cluster of three, peer 0 times out, peer 1 votes for it, and it
    becomes the leader of term 1. *)
Lemma election_safety_witness : ∃ c : Cluster (C := Z),
  reachable 3 c ∧ (1%Z, 0%Z) ∈ cl_leaders c ∧
  (∀ l, (1%Z, l) ∈ cl_leaders c → l = 0%Z).
Proof.
  assert (∃ c : Cluster (C := Z), reachable 3 c ∧ (1%Z, 0%Z) ∈ cl_leaders c) as (c & Hc & Hl).
  { eexists. split.
    - exists 0%Z. eapply rtc_l.
      { eapply (cs_election _ 0 _ 300 300 300); [vm_compute; reflexivity|lia|vm_compute; reflexivity]. }
      eapply rtc_l.
      { eapply (cs_RequestVote _ 1 _ (mkRequestVoteArgs 1 0 0 0) 301); [vm_compute; reflexivity| |vm_compute; reflexivity].
        vm_compute; left. }
      eapply rtc_l.
      { eapply (cs_countVotes _ 0 _ _ [] [] 1 (Some (mkRequestVoteReply 0 true)));
          [vm_compute; reflexivity..|vm_compute; left| |vm_compute; reflexivity].
        intros r [= <-]. vm_compute. left. }
      eapply rtc_l.
      { eapply (cs_finish _ 0 _ _ [] []); vm_compute; reflexivity. }
      apply rtc_refl.
    - vm_compute. left. }
  exists c. split_and!; [done..|]. intros l Hl'. destruct (election_safety 3 c Hc) as [Hu _]. by apply (Hu 1%Z).
Defined.
