(* ===== verification/RaftLogMatching.v ===== *)
(** * Log matching

    The log of the leader of a term only grows, and every log of the cluster
    is, up to any of its entries, a prefix of the log of that entry's leader.
    [LeaderLogs] is the proof's record of the leaders' logs: for each term
    that has had a leader the length of its log when it was elected, and its
    log so far.

    [place] (log.go) keeps the old tail behind the placed entries unless the
    term drops there.  This is right only because of how leaders choose what
    they send: a message that starts before the leader's log at its election
    goes to a peer that has already rejected a message of this leader, and
    so has no entries of older terms beyond that point ([clean]); any other
    message ends in entries of the leader's own term.  The invariant follows
    nextIndex, matchIndex, the messages and the replies to show this.

    The invariant is kept by every step of a cluster in which no peer compacts
    its log.  [RaftCompaction] takes it to runs with compaction, as far as it
    is true there: [InstallSnapshot_keeps_conflict]. *)

From stdpp Require Import base list gmap sorting.
From Stdlib Require Import ZArith Lia.
From S2P Require Import Prelude RaftLog RaftCore RaftElection RaftReplication RaftApply RaftNode RaftCluster.

Section LogMatching.
Context {C : Type} `{!Gob (PState C), !GobOk (PState C)}.
Implicit Types rf : Raft C.
Implicit Types c : Cluster (C := C).

Abbreviation es rf := (entries (log rf)).
Abbreviation LeaderLogs := (gmap Z (nat * list (Entry C))).
Implicit Types G : LeaderLogs.

(** Up to every entry, [l] is the log of that entry's leader. *)
Definition from_leader G (l : list (Entry C)) : Prop :=
  ∀ k e, l !! k = Some e → ∃ b g, G !! eTerm e = Some (b, g) ∧ take (S k) l = take (S k) g.

(** [l] and [g] have the first [k] entries in common. *)
Definition has (l g : list (Entry C)) (k : nat) : Prop :=
  k ≤ length l ∧ k ≤ length g ∧ take k l = take k g.

(** From index [b] on [l] has only entries of term [T]. *)
Definition clean (l : list (Entry C)) (b : nat) (T : Z) : Prop :=
  ∀ k e, l !! k = Some e → b ≤ k → eTerm e = T.

Record ghost_ok G : Prop := {
  go_zero : G !! 0%Z = Some (0, [zeroEntry]);
  go_log : ∀ T b g, G !! T = Some (b, g) → from_leader G g;
  go_head : ∀ T b g, G !! T = Some (b, g) → g !! 0 = Some zeroEntry;
  go_sorted : ∀ T b g, G !! T = Some (b, g) → term_sorted g;
  go_base : ∀ T b g, G !! T = Some (b, g) → b ≤ length g;
  go_terms : ∀ T b g k e, G !! T = Some (b, g) → g !! k = Some e →
    (eTerm e ≤ T)%Z ∧ (b ≤ k → eTerm e = T);
}.

(** ** Lists *)

Lemma has_lookup l g k i : has l g k → i < k → l !! i = g !! i.
Proof.
  intros (_ & _ & H) Hi. rewrite <-(lookup_take_lt l k i Hi), H. by apply lookup_take_lt.
Qed.

Lemma has_le l g k k' : has l g k → k' ≤ k → has l g k'.
Proof.
  intros (H1 & H2 & H) Hk. split_and!; [lia..|].
  rewrite <-(Nat.min_l k' k Hk), <-!take_take. by rewrite H.
Qed.

Lemma from_leader_take G l k : from_leader G l → from_leader G (take k l).
Proof.
  intros H i e Hi. pose proof (lookup_lt_Some _ _ _ Hi) as Hlt. rewrite length_take in Hlt.
  rewrite lookup_take_lt in Hi by lia. destruct (H i e Hi) as (b & g & HG & Ht).
  exists b, g. split; [done|]. by rewrite take_take, Nat.min_l by lia.
Qed.

(** Two logs that agree on the term of an entry agree up to it. *)
Lemma from_leader_match G l1 l2 k e1 e2 :
  from_leader G l1 → from_leader G l2 → l1 !! k = Some e1 → l2 !! k = Some e2 → eTerm e1 = eTerm e2 →
  has l1 l2 (S k).
Proof.
  intros H1 H2 Hk1 Hk2 Heq.
  destruct (H1 k e1 Hk1) as (b & g & HG & Ht1), (H2 k e2 Hk2) as (b' & g' & HG' & Ht2).
  rewrite Heq, HG' in HG. injection HG as -> ->.
  apply lookup_lt_Some in Hk1, Hk2. split_and!; [lia..|congruence].
Qed.

Lemma from_leader_head G l e : ghost_ok G → from_leader G l → l !! 0 = Some e → e = zeroEntry.
Proof.
  intros Hg Hl He. destruct (Hl 0 e He) as (b & g & HG & Ht).
  pose proof (go_head _ Hg _ _ _ HG) as H0. destruct l, g; simplify_eq/=. done.
Qed.

(** What [place] makes of a log that agrees with the leader's log [g] before
    the new entries, which are those of [g] from [k] to [m]. *)
Lemma placed_cases (l : Log C) g k m e2 :
  index0 l = 0%Z → 1 ≤ k ≤ m → m ≤ length g → has (entries l) g k →
  term_sorted g →
  (* the tail, if it is kept behind new entries, belongs to the leader *)
  (entries l !! m = Some e2 → k < m → (∀ e1, g !! (m - 1) = Some e1 → (eTerm e1 ≤ eTerm e2)%Z) →
   has (entries l) g (S m)) →
  (∀ e, entries l !! m = Some e → e = e2) →
  let l' := placed l (Z.of_nat k) (take (m - k) (drop k g)) in
  l' = entries l ∧ has (entries l) g m ∨
  l' = take m g ∧ ∀ k', has (entries l) g k' → k' ≤ m.
Proof.
  intros H0 Hk Hm Hhas Hsort Htail He2. pose proof Hhas as (Hkl & _ & Hkt). unfold placed.
  rewrite H0, Z.sub_0_r, Nat2Z.id. rewrite length_take, length_drop, Nat.min_l by lia.
  replace (k + (m - k)) with m by lia.
  assert (Hbefore : take k (entries l) ++ take (m - k) (drop k g) = take m g).
  { rewrite Hkt, take_take_drop. f_equal. lia. }
  rewrite Hbefore. unfold kept_tail.
  destruct (lookup_lt_is_Some_2 g (m - 1)) as [e1 He1]; [lia|].
  assert (Hlast : last (take m g) = Some e1).
  { rewrite last_lookup, length_take, Nat.min_l by lia.
    replace (Nat.pred m) with (m - 1) by lia. by rewrite lookup_take_lt by lia. }
  rewrite Hlast. destruct (drop m (entries l)) as [|x tl] eqn:Hd.
  - right. rewrite app_nil_r. split; [done|]. intros k' (Hk' & _ & _).
    apply (f_equal length) in Hd. rewrite length_drop in Hd. simpl in Hd. lia.
  - assert (Hx : entries l !! m = Some x).
    { rewrite <-(Nat.add_0_r m), <-lookup_drop, Hd. done. }
    pose proof (He2 x Hx) as ->. case_bool_decide as Hc.
    + right. rewrite app_nil_r. split; [done|]. intros k' Hk'. destruct (decide (k' ≤ m)) as [|Hgt]; [done|].
      exfalso. rewrite (has_lookup _ _ _ m Hk') in Hx by lia.
      assert (eTerm e1 ≤ eTerm e2)%Z; [|lia].
      rewrite <-(take_drop m g) in Hsort. apply (term_sorted_app_le _ _ e1 e2 Hsort).
      * apply list_elem_of_lookup. exists (m - 1). by rewrite lookup_take_lt by lia.
      * apply list_elem_of_lookup. exists 0. by rewrite lookup_drop, Nat.add_0_r.
    + left. assert (Hm' : has (entries l) g m).
      { destruct (decide (k = m)) as [->|]; [done|]. eapply has_le; [apply Htail; [done|lia|]|lia].
        intros ? He1'. rewrite He1 in He1'. injection He1' as <-. lia. }
      split; [|done]. destruct Hm' as (_ & _ & <-). rewrite <-Hd. apply take_drop.
Qed.

(** ** One AppendEntries *)

(** A request of the leader of its term: its entries are those of the
    leader's log from [k] to [m], which reaches at least the leader's log at
    its election unless there are none. *)
Record request_ok G (args : AppendEntriesArgs C) (b : nat) (g : list (Entry C)) (k m : nat) : Prop := {
  rq_ghost : G !! aea_Term args = Some (b, g);
  rq_prev : aea_PrevLogIndex args = (Z.of_nat k - 1)%Z;
  rq_range : 1 ≤ k ≤ m;
  rq_end : (b ≤ m ∨ k = m) ∧ m ≤ length g;
  rq_prevterm : ∃ e, g !! (k - 1) = Some e ∧ eTerm e = aea_PrevLogTerm args;
  rq_entries : aea_Entries args = take (m - k) (drop k g);
}.

(** What a peer's log may become in term [T]. *)
Record follows G (T : Z) (b : nat) (g l l' : list (Entry C)) : Prop := {
  fo_log : from_leader G l';
  fo_terms : ∀ e, e ∈ l' → (eTerm e ≤ T)%Z;
  fo_clean : clean l b T → clean l' b T;
  fo_has : ∀ k, has l g k → has l' g k;
}.

Lemma follows_refl G T b g l : from_leader G l → (∀ e, e ∈ l → (eTerm e ≤ T)%Z) → follows G T b g l l.
Proof. by split. Qed.

Lemma clean_take l b T k : clean l b T → clean (take k l) b T.
Proof.
  intros H i e Hi. pose proof (lookup_lt_Some _ _ _ Hi) as Hlt. rewrite length_take in Hlt.
  rewrite lookup_take_lt in Hi by lia. by apply H.
Qed.

(** Cutting the log before an entry that is not the leader's. *)
Lemma follows_cut G T b g l k :
  from_leader G l → (∀ e, e ∈ l → (eTerm e ≤ T)%Z) →
  (∀ k', has l g k' → k' ≤ k) → follows G T b g l (take k l).
Proof.
  intros Hl Ht Hk. split.
  - by apply from_leader_take.
  - intros e He. apply Ht. rewrite <-(take_drop k l). apply elem_of_app. by left.
  - apply clean_take.
  - intros k' Hh. pose proof (Hk k' Hh). destruct Hh as (? & ? & Heq). split_and!; [|done|].
    + rewrite length_take. lia.
    + by rewrite take_take, Nat.min_l by lia.
Qed.

Lemma follows_place G T b g (l : Log C) k m :
  ghost_ok G → G !! T = Some (b, g) → index0 l = 0%Z →
  from_leader G (entries l) → (∀ e, e ∈ entries l → (eTerm e ≤ T)%Z) →
  1 ≤ k ≤ m → (b ≤ m ∨ k = m) ∧ m ≤ length g → has (entries l) g k →
  (k < b → clean (entries l) b T) →
  let l' := placed l (Z.of_nat k) (take (m - k) (drop k g)) in
  follows G T b g (entries l) l' ∧ has l' g m.
Proof.
  intros Hg HG H0 Hl Ht Hk Hm Hhas Hclean l'.
  destruct (placed_cases l g k m (default zeroEntry (entries l !! m))) as [[Heq Hh]|[Heq Hmax]];
    [done|done|lia|done|by eapply go_sorted| |intros e He; by rewrite He|..].
  - intros He Hkm Hle. set (e2 := default _ _) in *. assert (HT : eTerm e2 = T).
    { destruct (decide (m = b)) as [->|Hne]; [by apply (Hclean ltac:(lia) b)|].
      destruct (lookup_lt_is_Some_2 g (m - 1)) as [e1 He1]; [lia|].
      destruct (go_terms _ Hg T b g (m - 1) e1 HG He1) as [_ H1]. specialize (H1 ltac:(lia)).
      specialize (Hle e1 He1). pose proof (Ht e2 ltac:(by eapply list_elem_of_lookup_2)). lia. }
    destruct (Hl m e2 He) as (b' & g' & HG' & Hta). rewrite HT, HG in HG'. injection HG' as <- <-.
    apply lookup_lt_Some in He. split_and!; [lia| |done].
    apply (f_equal length) in Hta. rewrite !length_take in Hta. lia.
  - fold l' in Heq. rewrite Heq. split; [by apply follows_refl|done].
  - fold l' in Heq. rewrite Heq.
    assert (Hterm : ∀ i e, take m g !! i = Some e → (eTerm e ≤ T)%Z ∧ (b ≤ i → eTerm e = T)).
    { intros i e Hi. pose proof (lookup_lt_Some _ _ _ Hi) as Hlt. rewrite length_take in Hlt.
      rewrite lookup_take_lt in Hi by lia. by eapply go_terms. }
    assert (Hhg : has (take m g) g m).
    { split_and!; [rewrite length_take; lia|lia|]. by rewrite take_idemp. }
    split; [|done]. split.
    + eapply from_leader_take, go_log; done.
    + intros e [i Hi]%list_elem_of_lookup. by apply (Hterm i).
    + intros _ i e Hi Hb. by apply (Hterm i).
    + intros k' Hk'. eapply has_le; [done|]. by apply Hmax.
Qed.

(** What the invariant says of one peer's log. *)
Record peer_log G rf : Prop := {
  pl_snap : snapshotIndex rf = 0%Z;
  pl_term : (0 ≤ currentTerm rf)%Z;
  pl_log : from_leader G (es rf);
  pl_terms : ∀ e, e ∈ es rf → (eTerm e ≤ currentTerm rf)%Z;
}.

(** What is known of a peer's log in some term stays true. *)
Definition keeps_facts G rf rf' : Prop :=
  (currentTerm rf ≤ currentTerm rf')%Z ∧
  ∀ T b g, G !! T = Some (b, g) →
    (past_or rf T (clean (es rf) b T) → past_or rf' T (clean (es rf') b T)) ∧
    ∀ k, past_or rf T (has (es rf) g k) → past_or rf' T (has (es rf') g k).

Lemma keeps_facts_same G rf rf' :
  (currentTerm rf ≤ currentTerm rf')%Z → log rf' = log rf → keeps_facts G rf rf'.
Proof.
  intros Hle Hl. split; [done|]. intros T b g _. rewrite Hl. unfold past_or.
  split; [|intros k]; intros [?|[? ?]]; destruct (decide (currentTerm rf' = T)); try (left; lia); by right.
Qed.

Lemma follows_keeps G rf rf' T b g :
  G !! T = Some (b, g) → (currentTerm rf ≤ T)%Z → currentTerm rf' = T → snapshotIndex rf' = 0%Z →
  (0 ≤ currentTerm rf)%Z → follows G T b g (es rf) (es rf') → peer_log G rf' ∧ keeps_facts G rf rf'.
Proof.
  intros HG Hle HT Hs H0 [F1 F2 F3 F4]. split.
  - split; [done|lia|done|]. rewrite HT. done.
  - split; [lia|]. intros T' b' g' HG'. unfold past_or. rewrite HT.
    split; [|intros k]; intros [?|[Heq ?]]; try (left; lia);
      (destruct (decide (T' = T)) as [->|]; [|left; lia]); rewrite HG in HG'; injection HG' as <- <-;
      right; auto.
Qed.

Lemma heardLeader_role rf t l now :
  (currentTerm rf ≤ t)%Z → role (heardLeader rf t l now) = LEADER → role rf = LEADER ∧ currentTerm rf = t.
Proof.
  intros Hle. unfold heardLeader. simpl. destruct (_ || _) eqn:E; [done|].
  apply orb_false_iff in E as [E _]. apply bool_decide_eq_false in E. simpl in *. intros ->. split; [done|lia].
Qed.

(** The last index of an uncompacted log. *)
Lemma lastIndex_length rf : raft_wf rf → snapshotIndex rf = 0%Z → lastIndex (log rf) = (Z.of_nat (length (es rf)) - 1)%Z.
Proof. intros Hwf H0. unfold lastIndex, zlen. rewrite (wf_base _ Hwf), H0. lia. Qed.

Lemma entry_uncompacted (l : Log C) k e : index0 l = 0%Z → entry l (Z.of_nat k) = Ok e ↔ entries l !! k = Some e.
Proof. intros H0. rewrite entry_lookup, H0, Z.sub_0_r, Nat2Z.id. split; [by intros [_ ?]|]. split; [lia|done]. Qed.

Lemma AppendEntries_match G rf args now rf' reply b g k m :
  ghost_ok G → raft_wf rf → peer_log G rf → request_ok G args b g k m →
  (k < b → past_or rf (aea_Term args) (clean (es rf) b (aea_Term args))) →
  (b < k → past_or rf (aea_Term args) (has (es rf) g k)) →
  (role rf = LEADER → currentTerm rf ≠ aea_Term args) →
  AppendEntries rf args now = Ok (rf', reply) →
  peer_log G rf' ∧ keeps_facts G rf rf' ∧ (role rf' = LEADER → rf' = rf) ∧
  (log rf' = log rf ∨ currentTerm rf' = aea_Term args ∧ ∀ k', has (es rf) g k' → has (es rf') g k') ∧
  if aer_Success reply then currentTerm rf' = aea_Term args ∧ has (es rf') g m
  else (aer_Term reply ≤ aea_Term args)%Z →
    k ≤ b ∧ (0 ≤ aer_ConflictIndex reply ≤ Z.of_nat k - 1)%Z ∧
    past_or rf' (aea_Term args) (clean (es rf') b (aea_Term args)).
Proof.
  intros Hg Hwf [Ps P0 Pl Pt] [HG Hprev Hkm Hm (ep & Hep & Hpt) Hes] Hcl Hhas Hrole H.
  set (T := aea_Term args) in *. unfold AppendEntries in H. fold T in H. case_bool_decide as Hold.
  { simplify_eq. split_and!; [done|by apply keeps_facts_same|done|by left|simpl; lia]. }
  assert (Hle : (currentTerm rf ≤ T)%Z) by lia.
  pose proof (heardLeader_term rf T (aea_LeaderId args) now Hle) as Hct.
  destruct (heardLeader_frame rf T (aea_LeaderId args) now) as (Hl & Hsi & _).
  assert (Hnl : role (heardLeader rf T (aea_LeaderId args) now) ≠ LEADER).
  { intros [Hr Heq]%heardLeader_role; [|done]. by apply Hrole. }
  set (rf1 := heardLeader _ _ _ _) in *. clearbody rf1.
  assert (H0 : index0 (log rf1) = 0%Z) by (by rewrite Hl, (wf_base _ Hwf)).
  assert (Hlast : lastIndex (log rf1) = (Z.of_nat (length (es rf)) - 1)%Z) by (rewrite Hl; by apply lastIndex_length).
  assert (Hcur : ∀ P, past_or rf T P → P) by (intros P [?|[_ ?]]; [lia|done]).
  assert (Hlt : ∀ e, e ∈ es rf → (eTerm e ≤ T)%Z) by (intros e He; specialize (Pt e He); lia).
  rewrite Hprev in H. case_bool_decide as Hshort.
  { destruct (lastEntry (log rf1)) as [le|]; [|done]. res_simpl. injection H as <- <-. simpl.
    assert (Hkb : k ≤ b).
    { destruct (decide (b < k)) as [Hbk|]; [|lia]. destruct (Hcur _ (Hhas Hbk)) as (? & _). lia. }
    destruct (follows_keeps G rf rf1 T b g) as [? ?];
      [done|done|done|congruence|done|rewrite Hl; by apply follows_refl|].
    split_and!; [done..|by left|]. intros _. pose proof (wf_log _ Hwf) as Hne. unfold log_wf in Hne.
    assert (length (es rf) ≠ 0) by (by destruct (es rf)). split_and!; [done|lia|lia|].
    right. split; [done|]. rewrite Hl. intros i e Hi Hb. apply lookup_lt_Some in Hi. lia. }
  rewrite (bool_decide_false (_ < snapshotIndex rf1)%Z) in H by lia.
  destruct (entry (log rf1) (Z.of_nat k - 1)) as [e|] eqn:He; [|done]. res_simpl.
  replace (Z.of_nat k - 1)%Z with (Z.of_nat (k - 1)) in * by lia.
  apply entry_uncompacted in He; [|done]. rewrite Hl in He.
  case_bool_decide as Hconf.
  - destruct (cutOffTail _ _) as [x|] eqn:E; [|done]. res_simpl. injection H as <- <-. simpl.
    assert (Hmax : ∀ k', has (es rf) g k' → k' ≤ k - 1).
    { intros k' Hh. destruct (decide (k' ≤ k - 1)) as [|Hgt]; [done|]. destruct Hconf.
      rewrite (has_lookup _ _ _ (k - 1) Hh) in He by lia. rewrite Hep in He. by injection He as <-. }
    assert (Hk1 : k ≠ 1).
    { intros ->. apply Hconf. change (1 - 1) with 0 in *. rewrite (from_leader_head G _ _ Hg Pl He).
      rewrite (go_head _ Hg _ _ _ HG) in Hep. injection Hep as <-. done. }
    assert (Hcut : x = mkLog (take (k - 1) (es rf)) 0).
    { rewrite Hl in E. unfold cutOffTail in E. rewrite Hl in H0. rewrite H0, bool_decide_false in E by lia.
      res_inv. apply slice_to_Ok in E0 as [_ ->]. f_equal. f_equal. lia. }
    subst x. assert (Hkb : k ≤ b).
    { destruct (decide (b < k)) as [Hbk|]; [|lia]. pose proof (Hmax k (Hcur _ (Hhas Hbk))). lia. }
    pose proof (follows_cut G T b g (es rf) (k - 1) Pl Hlt Hmax) as Hf.
    edestruct (follows_keeps G rf (persistSate (set_log (mkLog (take (k - 1) (es rf)) 0) rf1)) T b g) as [? ?];
      [done|done|done|simpl; congruence|done|done|].
    split_and!; [done|done|done|right; split; [done|apply Hf]|]. intros _. split_and!; [done|simpl; lia|simpl; lia|]. right. split; [done|]. simpl.
    intros i e' Hi Hb. apply lookup_lt_Some in Hi. rewrite length_take in Hi. lia.
  - destruct (place _ _ _) as [l'|] eqn:Hp; [|done]. res_simpl. injection H as <- <-.
    assert (Hh : has (es rf) g k).
    { replace k with (S (k - 1)) by lia.
      apply (from_leader_match G _ _ _ e ep); [done|by eapply go_log|done|done|congruence]. }
    replace (Z.of_nat (k - 1) + 1)%Z with (Z.of_nat k) in Hp by lia.
    rewrite place_Ok in Hp; [|left; rewrite H0; lia|lia]. injection Hp as <-.
    destruct (follows_place G T b g (log rf1) k m) as [Hf Hhm]; rewrite ?Hl; try done.
    { by rewrite Hl in H0. }
    { intros Hkb. by apply Hcur, Hcl. }
    rewrite <-Hes, Hl in Hf, Hhm.
    set (rf2 := persistSate (set_log (mkLog (placed (log rf) (Z.of_nat k) (aea_Entries args)) (index0 (log rf))) rf1)).
    assert (Hfc : ∀ ci, log (followerCommit rf2 ci) = log rf2 ∧ currentTerm (followerCommit rf2 ci) = T ∧
      snapshotIndex (followerCommit rf2 ci) = snapshotIndex rf ∧ role (followerCommit rf2 ci) = role rf1).
    { intros ci. unfold followerCommit. by case_match. }
    destruct (Hfc (aea_LeaderCommitIndex args)) as (Hl2 & Hc2 & Hs2 & Hr2).
    destruct (follows_keeps G rf (followerCommit rf2 (aea_LeaderCommitIndex args)) T b g) as [? ?];
      [done|done|done|congruence|done|by rewrite Hl2|].
    split_and!; [done|done|by rewrite Hr2|right; rewrite Hl2; split; [done|apply Hf]|]. simpl. rewrite Hl2. done.
Qed.

(** ** The invariant of the cluster *)

(** Peer [p] is past term [T], or in it with a log that satisfies [P]. *)
Definition on_peer c (p T : Z) (P : list (Entry C) → Prop) : Prop :=
  ∀ nd, cl_nodes c !! p = Some nd → past_or (nd_raft nd) T (P (es (nd_raft nd))).

(** What the leader of [T] may rely on when nextIndex of [p] is [k]. *)
Definition tracks c (p T : Z) (b : nat) (g : list (Entry C)) (k : nat) : Prop :=
  1 ≤ k ≤ length g ∧ (k < b → on_peer c p T (λ l, clean l b T)) ∧ (b < k → on_peer c p T (λ l, has l g k)).

Definition sent_by c (p T i : Z) : Prop := (T, i) ∈ cl_leaders c ∧ i ≠ p.

Definition msg_at G c (p : Z) (args : AppendEntriesArgs C) b g k m : Prop :=
  request_ok G args b g k m ∧ tracks c p (aea_Term args) b g k ∧
  sent_by c p (aea_Term args) (aea_LeaderId args).

Definition reply_at G c (p : Z) (args : AppendEntriesArgs C) (reply : AppendEntriesReply) b g k m : Prop :=
  msg_at G c p args b g k m ∧
  if aer_Success reply then on_peer c p (aea_Term args) (λ l, has l g m)
  else (aer_Term reply ≤ aea_Term args)%Z →
    k ≤ b ∧ (0 ≤ aer_ConflictIndex reply ≤ Z.of_nat k - 1)%Z ∧
    on_peer c p (aea_Term args) (λ l, clean l b (aea_Term args)).

(** The leader's log is the one recorded, and its bookkeeping is right. *)
Record leader_log G c (i : Z) rf (b : nat) : Prop := {
  ll_base : 1 ≤ b;
  ll_log : G !! currentTerm rf = Some (b, es rf);
  ll_next : ∀ p n, (0 ≤ p)%Z → p ≠ i → nextIndex rf !! Z.to_nat p = Some n →
    ∃ k, n = Z.of_nat k ∧ tracks c p (currentTerm rf) b (es rf) k;
  ll_match : ∀ p m, (0 ≤ p)%Z → p ≠ i → matchIndex rf !! Z.to_nat p = Some m →
    m = 0%Z ∨ ∃ k, m = (Z.of_nat k - 1)%Z ∧ 1 ≤ k ≤ length (es rf) ∧
      on_peer c p (currentTerm rf) (λ l, has l (es rf) k);
}.

Definition known_terms G c : Prop := ∀ T bg, G !! T = Some bg → T = 0%Z ∨ ∃ l, (T, l) ∈ cl_leaders c.

Record lm_inv G c : Prop := {
  lm_ghost : ghost_ok G;
  lm_peer : ∀ i nd, cl_nodes c !! i = Some nd → peer_log G (nd_raft nd);
  lm_leader : ∀ i nd, cl_nodes c !! i = Some nd → role (nd_raft nd) = LEADER →
    ∃ b, leader_log G c i (nd_raft nd) b;
  lm_dom : known_terms G c;
  lm_msg : ∀ p msg, (p, msg) ∈ cl_msgs c →
    ∃ args b g k m, msg = MsgAppendEntries args ∧ msg_at G c p args b g k m;
  lm_rep : ∀ p args reply, (p, args, reply) ∈ cl_aereplies c → ∃ b g k m, reply_at G c p args reply b g k m;
  lm_norep : cl_isreplies c = [];
}.

(** ** How facts are kept *)

(** The leaders' logs grow at the end. *)
Definition gext G G' : Prop := ∀ T b g, G !! T = Some (b, g) → ∃ x, G' !! T = Some (b, g ++ x).

Lemma gext_refl G : gext G G.
Proof. intros T b g H. exists []. by rewrite app_nil_r. Qed.

Lemma has_ext l g x k : has l g k → has l (g ++ x) k.
Proof.
  intros (? & ? & H). split_and!; [done|rewrite length_app; lia|]. by rewrite take_app_le.
Qed.

Lemma from_leader_ext G G' l : gext G G' → from_leader G l → from_leader G' l.
Proof.
  intros He Hl k e Hk. destruct (Hl k e Hk) as (b & g & HG & Ht). destruct (He _ _ _ HG) as [x HG'].
  exists b, (g ++ x). split; [done|]. rewrite take_app_le; [done|].
  apply lookup_lt_Some in Hk. apply (f_equal length) in Ht. rewrite !length_take in Ht. lia.
Qed.

Lemma request_ext G G' args b g x k m :
  G' !! aea_Term args = Some (b, g ++ x) → request_ok G args b g k m → request_ok G' args b (g ++ x) k m.
Proof.
  intros HG' [? ? ? ? (e & ? & ?) He]. split; try done.
  - rewrite length_app. lia.
  - exists e. split; [|done]. by apply lookup_app_l_Some.
  - rewrite He, drop_app_le, take_app_le; [done|rewrite length_drop; lia|lia].
Qed.

(** [c'] knows what [c] knows about the peers the leaders write to. *)
Record facts_mono G c c' : Prop := {
  fm_leaders : ∀ T l, (T, l) ∈ cl_leaders c → (T, l) ∈ cl_leaders c';
  fm_clean : ∀ p T b g i, G !! T = Some (b, g) → sent_by c p T i →
    on_peer c p T (λ l, clean l b T) → on_peer c' p T (λ l, clean l b T);
  fm_has : ∀ p T b g i k, G !! T = Some (b, g) → sent_by c p T i →
    on_peer c p T (λ l, has l g k) → on_peer c' p T (λ l, has l g k);
}.

Lemma on_peer_impl c p T (P Q : list (Entry C) → Prop) : (∀ l, P l → Q l) → on_peer c p T P → on_peer c p T Q.
Proof. intros HPQ H nd Hnd. destruct (H nd Hnd) as [?|[? ?]]; [by left|right; auto]. Qed.

Lemma tracks_mono G c c' p T b g x k i :
  facts_mono G c c' → G !! T = Some (b, g) → sent_by c p T i →
  tracks c p T b g k → tracks c' p T b (g ++ x) k.
Proof.
  intros Hf HG Hs (Hk & Hc & Hh). split_and!; [lia|rewrite length_app; lia|..].
  - intros Hkb. eapply fm_clean; [done..|by apply Hc].
  - intros Hkb. eapply on_peer_impl; [intros l; apply has_ext|]. eapply fm_has; [done..|by apply Hh].
Qed.

Lemma msg_mono G G' c c' p args b g x k m :
  facts_mono G c c' → G' !! aea_Term args = Some (b, g ++ x) →
  msg_at G c p args b g k m → msg_at G' c' p args b (g ++ x) k m.
Proof.
  intros Hf HG' (Hr & Ht & Hs). split_and!; [by eapply request_ext| |].
  - eapply tracks_mono; [done|apply Hr|done..].
  - destruct Hs. split; [by eapply fm_leaders|done].
Qed.

Lemma reply_mono G G' c c' p args reply b g x k m :
  facts_mono G c c' → G' !! aea_Term args = Some (b, g ++ x) →
  reply_at G c p args reply b g k m → reply_at G' c' p args reply b (g ++ x) k m.
Proof.
  intros Hf HG' [Hm Hr]. split; [by eapply msg_mono|]. destruct Hm as (Hrq & _ & Hs).
  destruct (aer_Success reply).
  - eapply on_peer_impl; [intros l; apply has_ext|]. eapply fm_has; [done|apply Hrq|done..].
  - intros Hle. destruct (Hr Hle) as (? & ? & ?). split; [done|]. split; [done|].
    eapply fm_clean; [done|apply Hrq|done..].
Qed.

Lemma leader_log_mono G G' c c' i rf b :
  facts_mono G c c' → (currentTerm rf, i) ∈ cl_leaders c → G' !! currentTerm rf = G !! currentTerm rf →
  leader_log G c i rf b → leader_log G' c' i rf b.
Proof.
  intros Hf Hi HG' [? HG Hn Hm]. split; [done|congruence|..].
  - intros p n Hp Hpi Hnx. destruct (Hn p n Hp Hpi Hnx) as (k & -> & Ht). exists k. split; [done|].
    rewrite <-(app_nil_r (es rf)). by eapply (tracks_mono G c c' _ _ _ _ _ _ i).
  - intros p m Hp Hpi Hmx. destruct (Hm p m Hp Hpi Hmx) as [->|(k & -> & ? & Ho)]; [by left|right].
    exists k. split; [done|]. split; [done|]. by eapply (fm_has G c c' Hf p _ _ _ i).
Qed.

(** One node changes, and messages and replies are sent. *)
Lemma lm_step G G' c c' i nd' :
  lm_inv G c → gext G G' → ghost_ok G' → facts_mono G c c' →
  cl_nodes c' = <[i := nd']> (cl_nodes c) → peer_log G' (nd_raft nd') →
  (role (nd_raft nd') = LEADER → ∃ b, leader_log G' c' i (nd_raft nd') b) →
  (∀ j nd, j ≠ i → cl_nodes c !! j = Some nd → role (nd_raft nd) = LEADER →
     (currentTerm (nd_raft nd), j) ∈ cl_leaders c ∧
     G' !! currentTerm (nd_raft nd) = G !! currentTerm (nd_raft nd)) →
  known_terms G' c' →
  (∀ p msg, (p, msg) ∈ cl_msgs c' → (p, msg) ∈ cl_msgs c ∨
     ∃ args b g k m, msg = MsgAppendEntries args ∧ msg_at G' c' p args b g k m) →
  (∀ p args reply, (p, args, reply) ∈ cl_aereplies c' → (p, args, reply) ∈ cl_aereplies c ∨
     ∃ b g k m, reply_at G' c' p args reply b g k m) →
  cl_isreplies c' = [] → lm_inv G' c'.
Proof.
  intros [L1 L2 L3 L4 L5 L6 L7] Hext Hg Hf Hn Hp Hl Ho Hd Hm Hr Hi. split; try done.
  - intros j nd Hj. rewrite Hn in Hj. apply lookup_insert_Some in Hj as [[<- <-]|[Hne Hj]]; [done|].
    destruct (L2 j nd Hj) as [? ? ? ?]. split; try done. by eapply from_leader_ext.
  - intros j nd Hj Hrole. rewrite Hn in Hj. apply lookup_insert_Some in Hj as [[<- <-]|[Hne Hj]]; [by apply Hl|].
    destruct (L3 j nd Hj Hrole) as [b Hb]. exists b. destruct (Ho j nd ltac:(done) Hj Hrole).
    by eapply leader_log_mono.
  - intros p msg Hin. destruct (Hm p msg Hin) as [Hold|?]; [|done].
    destruct (L5 p msg Hold) as (args & b & g & k & m & -> & Hat). destruct (Hext _ _ _ (rq_ghost _ _ _ _ _ _ (proj1 Hat))) as [x Hx].
    exists args, b, (g ++ x), k, m. split; [done|]. by eapply msg_mono.
  - intros p args reply Hin. destruct (Hr p args reply Hin) as [Hold|?]; [|done].
    destruct (L6 p args reply Hold) as (b & g & k & m & Hat).
    destruct (Hext _ _ _ (rq_ghost _ _ _ _ _ _ (proj1 (proj1 Hat)))) as [x Hx].
    exists b, (g ++ x), k, m. by eapply reply_mono.
Qed.

Lemma facts_update G c c' i nd nd' :
  cl_nodes c !! i = Some nd → cl_nodes c' = <[i := nd']> (cl_nodes c) →
  (∀ T l, (T, l) ∈ cl_leaders c → (T, l) ∈ cl_leaders c') →
  (∀ T b g l, G !! T = Some (b, g) → sent_by c i T l →
     (past_or (nd_raft nd) T (clean (es (nd_raft nd)) b T) →
      past_or (nd_raft nd') T (clean (es (nd_raft nd')) b T)) ∧
     ∀ k, past_or (nd_raft nd) T (has (es (nd_raft nd)) g k) →
       past_or (nd_raft nd') T (has (es (nd_raft nd')) g k)) →
  facts_mono G c c'.
Proof.
  intros Hi Hn Hl Hk. split; [done|..].
  - intros p T b g l HG Hs H nd1 Hp. rewrite Hn in Hp. apply lookup_insert_Some in Hp as [[<- <-]|[_ Hp]]; [|by apply H].
    by apply (Hk T b g l HG Hs), H.
  - intros p T b g l k HG Hs H nd1 Hp. rewrite Hn in Hp. apply lookup_insert_Some in Hp as [[<- <-]|[_ Hp]]; [|by apply H].
    by apply (Hk T b g l HG Hs), H.
Qed.

Lemma facts_keeps G c c' i nd nd' :
  cl_nodes c !! i = Some nd → cl_nodes c' = <[i := nd']> (cl_nodes c) →
  (∀ T l, (T, l) ∈ cl_leaders c → (T, l) ∈ cl_leaders c') →
  keeps_facts G (nd_raft nd) (nd_raft nd') → facts_mono G c c'.
Proof. intros ? ? ? [_ Hk]. eapply facts_update; [done..|]. intros T b g l HG _. by apply Hk. Qed.

(** Steps that leave the log of the peer alone and elect nobody. *)
Definition quiet rf rf' : Prop :=
  log rf' = log rf ∧ snapshotIndex rf' = snapshotIndex rf ∧ (currentTerm rf ≤ currentTerm rf')%Z ∧
  (role rf' = LEADER → role rf = LEADER ∧ currentTerm rf' = currentTerm rf ∧
     nextIndex rf' = nextIndex rf ∧ matchIndex rf' = matchIndex rf).

Lemma quiet_refl rf : quiet rf rf.
Proof. split_and!; try done. Qed.

Lemma quiet_stepDown rf t : (currentTerm rf ≤ t)%Z → quiet rf (stepDown rf t).
Proof. intros H. unfold quiet; simpl. by split_and!. Qed.

Lemma peer_log_quiet G rf rf' : quiet rf rf' → peer_log G rf → peer_log G rf'.
Proof.
  intros (Hl & Hs & Hc & _) [? ? ? Ht]. split; [congruence|lia|by rewrite Hl|].
  rewrite Hl. intros e He. specialize (Ht e He). lia.
Qed.

Section Step.
Context (n : nat) (G : LeaderLogs) (c : Cluster (C := C)) (i : Z) (nd : Node (C := C)).
Context (Hinv : cluster_inv n c) (Hlm : lm_inv G c) (Hi : cl_nodes c !! i = Some nd).

Lemma leader_known j nd1 : cl_nodes c !! j = Some nd1 → role (nd_raft nd1) = LEADER →
  (currentTerm (nd_raft nd1), j) ∈ cl_leaders c.
Proof. intros Hj. apply (ni_leader _ _ _ _ (ci_nodes _ _ Hinv j nd1 Hj)). Qed.

(** A quiet step that sends [msgs] and one that does not. *)
Lemma lm_quiet c' rf' ths sd :
  quiet (nd_raft nd) rf' → cl_nodes c' = <[i := mkNode rf' ths sd]> (cl_nodes c) →
  cl_leaders c' = cl_leaders c → cl_isreplies c' = [] →
  (facts_mono G c c' → ∀ p msg, (p, msg) ∈ cl_msgs c' → (p, msg) ∈ cl_msgs c ∨
     ∃ args b g k m, msg = MsgAppendEntries args ∧ msg_at G c' p args b g k m) →
  cl_aereplies c' = cl_aereplies c → lm_inv G c'.
Proof.
  intros Hq Hn Hl Hir Hms Hrs. pose proof Hlm as [L1 L2 L3 L4 L5 L6 L7].
  assert (Hf : facts_mono G c c').
  { eapply facts_keeps; [done..|by rewrite Hl|]. apply keeps_facts_same; apply Hq. }
  eapply (lm_step G G c c' i (mkNode rf' ths sd)); [done|apply gext_refl|done|done|done|..].
  - eapply peer_log_quiet; [done|by eapply L2].
  - simpl. intros Hr. destruct Hq as (Hlog & _ & _ & Hq). destruct (Hq Hr) as (Hr0 & Hc & Hnx & Hmx).
    destruct (L3 i nd Hi Hr0) as [b Hb]. exists b.
    assert (Hb' : leader_log G c' i (nd_raft nd) b).
    { eapply leader_log_mono; [done|by apply leader_known|done|done]. }
    destruct Hb'. split; rewrite ?Hc, ?Hlog, ?Hnx, ?Hmx; done.
  - intros j nd1 Hne Hj Hr. split; [by apply leader_known|done].
  - unfold known_terms in *. by rewrite Hl.
  - by apply Hms.
  - rewrite Hrs. by left.
  - done.
Qed.

(** *** The leader sends *)

Lemma replicateToAll_in rf ps msgs p msg :
  replicateToAll rf ps = Ok msgs → (p, msg) ∈ msgs → p ∈ ps ∧ replicateTo rf p = Ok msg.
Proof.
  revert msgs. induction ps as [|q ps IH]; intros msgs H Hin; simpl in H.
  - injection H as <-. by apply elem_of_nil in Hin.
  - destruct (replicateTo rf q) as [m|] eqn:E; [|done]. res_simpl.
    destruct (replicateToAll rf ps) as [ms|]; [|done]. res_simpl. injection H as <-.
    apply elem_of_cons in Hin as [[= -> ->]|Hin]; [split; [left|done]|].
    destruct (IH ms eq_refl Hin). split; [by right|done].
Qed.

Lemma replicateTo_msg c' rf b p msg :
  raft_wf rf → peer_log G rf → leader_log G c' (me rf) rf b → ghost_ok G →
  (currentTerm rf, me rf) ∈ cl_leaders c' → p ∈ votePeers rf → replicateTo rf p = Ok msg →
  ∃ args b g k m, msg = MsgAppendEntries args ∧ msg_at G c' p args b g k m.
Proof.
  intros Hwf [Ps _ _ _] [Hb HG Hnx _] Hg Hlead Hp%votePeers_spec H. unfold replicateTo in H.
  destruct (idx (nextIndex rf) p) as [nx|] eqn:En; [|done]. res_simpl. apply idx_Ok in En as [_ En].
  destruct (Hnx p nx ltac:(lia) ltac:(naive_solver) En) as (k & -> & Ht). pose proof Ht as (Hk & _).
  destruct (idx (matchIndex rf) p) as [mx|]; [|done]. res_simpl.
  destruct (Assert _); [|done]. res_simpl. rewrite bool_decide_false in H by lia.
  assert (H0 : index0 (log rf) = 0%Z) by (by rewrite (wf_base _ Hwf)).
  replace (Z.of_nat k - 1)%Z with (Z.of_nat (k - 1)) in H by lia.
  destruct (entry (log rf) _) as [e|] eqn:Ee; [|done]. res_simpl. apply entry_uncompacted in Ee; [|done].
  replace (Z.of_nat (k - 1) + 1)%Z with (Z.of_nat k) in H by lia. unfold slice in H. rewrite H0 in H.
  destruct (slice_from _ _) as [sl|] eqn:Es; [|done]. res_simpl. injection H as <-.
  apply slice_from_Ok in Es as [_ ->]. rewrite Z.sub_0_r, Nat2Z.id.
  eexists _, b, (es rf), k, (length (es rf)). split; [done|]. split_and!; simpl.
  - split; simpl; [done|lia|lia|split; [left; by eapply go_base|done]|by eauto|].
    rewrite firstn_all2; [done|]. rewrite length_drop. lia.
  - done.
  - split; [done|]. naive_solver.
Qed.

Lemma lm_heartbeat notified rf' msgs more :
  leaderHeartbeats_iter (nd_raft nd) notified = Ok (rf', msgs, more) →
  lm_inv G (add_msgs msgs (set_raft c i nd rf')).
Proof.
  intros H. pose proof (ci_nodes _ _ Hinv i nd Hi) as Hni. unfold leaderHeartbeats_iter in H.
  set (rf1 := if notified then _ else _) in H.
  assert (Hq : quiet (nd_raft nd) rf1) by (unfold rf1; destruct notified; by split_and!).
  assert (Hsame : me rf1 = me (nd_raft nd) ∧ npeers rf1 = npeers (nd_raft nd) ∧ role rf1 = role (nd_raft nd) ∧
    raft_wf rf1).
  { unfold rf1. pose proof (ni_wf _ _ _ _ Hni) as Hwf. destruct notified; [|done]. split_and!; try done.
    destruct Hwf. by split. }
  destruct Hsame as (Hme & Hnp & Hrole & Hwf1). clearbody rf1.
  destruct (Killed (nd_raft nd)).
  { injection H as <- <- <-.
    apply (lm_quiet _ (nd_raft nd) (nd_threads nd) (nd_sending nd)); [apply quiet_refl|done|done|apply Hlm|by left|done]. }
  case_bool_decide as Hr.
  2:{ injection H as <- <- <-. apply (lm_quiet _ rf1 (nd_threads nd) (nd_sending nd)); [done|done|done|apply Hlm|by left|done]. }
  destruct (leaderLogReplication rf1) as [ms|] eqn:E; [|done]. res_simpl. injection H as <- <- <-.
  apply (lm_quiet _ rf1 (nd_threads nd) (nd_sending nd)); [done|done|done|apply Hlm| |done]. simpl. intros Hf p msg [Hin|Hin]%elem_of_app; [right|by left].
  destruct (replicateToAll_in _ _ _ _ _ E Hin) as [Hp Hto].
  assert (Hmi : me rf1 = i) by (rewrite Hme; apply Hni).
  pose proof (leader_known i nd Hi ltac:(congruence)) as Hlead.
  destruct (lm_leader _ _ Hlm i nd Hi ltac:(congruence)) as [b Hb].
  pose proof Hq as (Hlog & Hs & _ & Hq1). destruct (Hq1 Hr) as (_ & Hct & Hnx & Hmx).
  eapply (replicateTo_msg _ rf1 b); [done|..|done|done].
  - by eapply peer_log_quiet, (lm_peer _ _ Hlm i nd).
  - rewrite Hmi. eapply (leader_log_mono G G _ _ i (nd_raft nd) b Hf) in Hb; [|done|done].
    destruct Hb. split; rewrite ?Hct, ?Hlog, ?Hnx, ?Hmx; done.
  - apply Hlm.
  - simpl. by rewrite Hct, Hmi.
Qed.

(** *** The leader receives a reply *)

(** New bookkeeping for one peer. *)
Lemma lm_books rf' b server nx mx :
  role (nd_raft nd) = LEADER → (0 ≤ server)%Z → leader_log G c i (nd_raft nd) b →
  log rf' = log (nd_raft nd) → snapshotIndex rf' = snapshotIndex (nd_raft nd) →
  currentTerm rf' = currentTerm (nd_raft nd) →
  nextIndex rf' = <[Z.to_nat server := nx]> (nextIndex (nd_raft nd)) →
  (matchIndex rf' = matchIndex (nd_raft nd) ∨
   matchIndex rf' = <[Z.to_nat server := (Z.of_nat mx - 1)%Z]> (matchIndex (nd_raft nd)) ∧
   1 ≤ mx ≤ length (es (nd_raft nd)) ∧
   on_peer c server (currentTerm (nd_raft nd)) (λ l, has l (es (nd_raft nd)) mx)) →
  (server ≠ i → ∃ k, nx = Z.of_nat k ∧ tracks c server (currentTerm (nd_raft nd)) b (es (nd_raft nd)) k) →
  lm_inv G (set_raft c i nd rf').
Proof.
  intros Hr Hs Hb Hlog Hsn Hct Hnx Hmx Htr. pose proof Hlm as [L1 L2 L3 L4 L5 L6 L7].
  pose proof (leader_known i nd Hi Hr) as Hlead.
  set (c' := set_raft c i nd rf').
  assert (Hf : facts_mono G c c').
  { eapply (facts_keeps G c c' i nd (mkNode rf' (nd_threads nd) (nd_sending nd))); [done..|]. apply keeps_facts_same; simpl; [lia|done]. }
  assert (Hp : peer_log G rf').
  { destruct (L2 i nd Hi). split; rewrite ?Hlog, ?Hsn, ?Hct; done. }
  apply (lm_step G G c c' i (mkNode rf' (nd_threads nd) (nd_sending nd)));
    [done|apply gext_refl|done|done|done|done| |by intros; split; [apply leader_known|]|done|by left|by left|done].
  simpl. intros _. exists b.
  destruct (leader_log_mono G G c c' i (nd_raft nd) b Hf Hlead eq_refl Hb) as [B1 B2 B3 B4].
  assert (Hinj : ∀ p, (0 ≤ p)%Z → Z.to_nat server = Z.to_nat p → p = server) by lia.
  split; rewrite ?Hct, ?Hlog; [done|done|..].
  - intros p x Hp0 Hpi Hx. rewrite Hnx in Hx.
    apply list_lookup_insert_Some in Hx as [(Heq & <- & _)|[_ Hx]]; [|by apply B3].
    apply Hinj in Heq as ->; [|done]. destruct (Htr Hpi) as (k & -> & Ht). exists k. split; [done|].
    rewrite <-(app_nil_r (es (nd_raft nd))). by eapply (tracks_mono G c c' _ _ _ _ _ _ i).
  - intros p x Hp0 Hpi Hx. destruct Hmx as [Hmx|(Hmx & Hmr & Hon)]; rewrite Hmx in Hx; [by apply B4|].
    apply list_lookup_insert_Some in Hx as [(Heq & <- & _)|[_ Hx]]; [|by apply B4].
    apply Hinj in Heq as ->; [|done]. right. exists mx. split; [done|]. split; [done|].
    eapply (fm_has G c c' Hf server _ _ _ i); [apply Hb|done|done].
Qed.

(** A rejection moves nextIndex back, but not behind what is matched. *)
Lemma lm_conflict server args reply nn mo :
  (server, args, reply) ∈ cl_aereplies c → aea_LeaderId args = i → role (nd_raft nd) = LEADER →
  aea_Term args = currentTerm (nd_raft nd) → aer_Success reply = false → (aer_Term reply ≤ currentTerm (nd_raft nd))%Z →
  (0 ≤ server)%Z → matchIndex (nd_raft nd) !! Z.to_nat server = Some mo → (nn ≤ aer_ConflictIndex reply + 1)%Z →
  lm_inv G (set_raft c i nd (set_nextIndex (<[Z.to_nat server := Max (mo + 1) nn]> (nextIndex (nd_raft nd))) (nd_raft nd))).
Proof.
  intros Hin Hlid Hr E1 Hsu Hnew Hs0 Emo' Hle. destruct (lm_leader _ _ Hlm i nd Hi Hr) as [b' Hb].
  pose proof Hb as [Hb1 HG Hnx Hmx].
  destruct (lm_rep _ _ Hlm server args reply Hin) as (b & g & k & m & (Hrq & _ & Hsent) & Hrep).
  pose proof Hrq as [HG' _ Hkm Hm _ _]. rewrite E1 in *. rewrite HG in HG'. injection HG' as <- <-.
  destruct Hsent as [_ Hsi]. rewrite Hlid in Hsi. rewrite Hsu in Hrep. destruct (Hrep Hnew) as (Hkb & Hcf & Hcl).
  apply (lm_books _ b' server (Max (mo + 1) nn) 0); simpl; try done; [by left|]. intros _. rewrite Max_max.
  exists (Z.to_nat (Z.max (mo + 1) nn)).
  destruct (Hmx server mo Hs0 ltac:(done) Emo') as [->|(k' & -> & Hk' & Ho)].
  - split; [lia|]. split; [lia|]. split; [done|lia].
  - split; [lia|]. split; [lia|]. split; [done|]. intros Hbk. replace (Z.to_nat _) with k' by lia. done.
Qed.

Lemma lm_reply server args reply rf' :
  (server, args, reply) ∈ cl_aereplies c → aea_LeaderId args = i →
  sendAppendEntries (nd_raft nd) server args reply = Ok rf' → lm_inv G (set_raft c i nd rf').
Proof.
  intros Hin Hlid H. pose proof (ci_nodes _ _ Hinv i nd Hi) as Hni. pose proof (ni_wf _ _ _ _ Hni) as Hwf.
  assert (Hquiet : ∀ rf1, quiet (nd_raft nd) rf1 → lm_inv G (set_raft c i nd rf1)).
  { intros rf1 Hq. apply (lm_quiet _ rf1 (nd_threads nd) (nd_sending nd)); [done|done|done|apply Hlm|by left|done]. }
  destruct (lm_rep _ _ Hlm server args reply Hin) as (b & g & k & m & (Hrq & Ht & Hsent) & Hrep).
  unfold sendAppendEntries in H. destruct (_ || _) eqn:E; [injection H as <-; apply Hquiet, quiet_refl|].
  apply orb_false_iff in E as [E1%bool_decide_eq_false E2%bool_decide_eq_false].
  apply dec_stable in E1, E2. destruct (lm_leader _ _ Hlm i nd Hi E2) as [b' Hb]. pose proof Hb as [Hb1 HG Hnx Hmx].
  pose proof Hrq as [HG' Hprev Hkm Hm _ Hes]. rewrite E1 in *. rewrite HG in HG'. injection HG' as <- <-.
  destruct Hsent as [_ Hsi]. rewrite Hlid in Hsi.
  assert (Hzl : zlen (aea_Entries args) = (Z.of_nat m - Z.of_nat k)%Z).
  { unfold zlen. rewrite Hes, length_take, length_drop. lia. }
  destruct (aer_Success reply) eqn:Hsu.
  - destruct (idx (matchIndex (nd_raft nd)) server) as [mo|] eqn:Emo; [|done]. res_simpl.
    pose proof Emo as [Hs0 Emo']%idx_Ok. rewrite Hprev, Hzl in H.
    replace (Z.of_nat k - 1 + (Z.of_nat m - Z.of_nat k))%Z with (Z.of_nat m - 1)%Z in H by lia.
    case_bool_decide as Hlt.
    + destruct (upd _ _ _) as [ms|] eqn:Eu; [|done]. res_simpl. apply upd_Ok in Eu as [Hsl ->].
      destruct (leaderCommit _) as [rf1|] eqn:Elc; [|done]. res_simpl.
      assert (Hrf1 : log rf1 = log (nd_raft nd) ∧ snapshotIndex rf1 = snapshotIndex (nd_raft nd) ∧
        currentTerm rf1 = currentTerm (nd_raft nd) ∧ nextIndex rf1 = nextIndex (nd_raft nd) ∧
        matchIndex rf1 = <[Z.to_nat server := (Z.of_nat m - 1)%Z]> (matchIndex (nd_raft nd))).
      { by destruct (leaderCommit_frame _ _ Elc) as [->|[N ->]]. }
      destruct Hrf1 as (R1 & R2 & R3 & R4 & R5). rewrite R5 in H.
      assert (idx (<[Z.to_nat server := (Z.of_nat m - 1)%Z]> (matchIndex (nd_raft nd))) server = Ok (Z.of_nat m - 1)%Z) as Hix.
      { apply idx_Ok. split; [done|]. apply list_lookup_insert_eq. by eapply lookup_lt_Some. }
      rewrite Hix in H. res_simpl. destruct (upd (nextIndex rf1) _ _) as [ns|] eqn:Eu; [|done]. res_simpl.
      apply upd_Ok in Eu as [_ ->]. injection H as <-.
      apply (lm_books _ b' server (Z.of_nat m - 1 + 1)%Z m); simpl; try done; [by rewrite R4| |].
      * right. split; [done|]. split; [lia|done].
      * intros _. exists m. split; [lia|]. split; [lia|]. split; [|done].
        intros Hmb. destruct Ht as (_ & Hcl & _). apply Hcl. lia.
    + res_simpl. rewrite Emo in H. res_simpl. destruct (upd _ _ _) as [ns|] eqn:Eu; [|done]. res_simpl.
      apply upd_Ok in Eu as [_ ->]. injection H as <-.
      apply (lm_books _ b' server (mo + 1)%Z 0); simpl; try done; [by left|]. intros _.
      destruct (Hmx server mo Hs0 ltac:(done) Emo') as [->|(k' & -> & Hk' & Ho)].
      * exists 1. split; [done|]. split; [lia|]. split; [|lia].
        intros Hb'. destruct Ht as (_ & Hcl & _). apply Hcl. lia.
      * exists k'. split; [lia|]. split; [done|]. split; [|done].
        intros Hb'. destruct Ht as (_ & Hcl & _). apply Hcl. lia.
  - case_bool_decide as Hnew; [injection H as <-; apply Hquiet, quiet_stepDown; lia|].
    destruct (Hrep ltac:(lia)) as (Hkb & Hcf & _).
    destruct (conflictNextIndex_bound (nd_raft nd) reply Hwf) as (nn & Hnn & Hle).
    { rewrite (lastIndex_length _ Hwf) by apply (lm_peer _ _ Hlm i nd Hi). lia. }
    rewrite Hnn in H. res_simpl.
    destruct (idx (matchIndex (nd_raft nd)) server) as [mo|] eqn:Emo; [|done]. res_simpl.
    apply idx_Ok in Emo as [Hs0 Emo'].
    destruct (upd _ _ _) as [ns|] eqn:Eu; [|done]. res_simpl.
    apply upd_Ok in Eu as [_ ->]. injection H as <-. eapply lm_conflict; done || lia.
Qed.

(** *** A follower receives AppendEntries *)

Lemma append_match args now rf' reply :
  (i, MsgAppendEntries args) ∈ cl_msgs c → AppendEntries (nd_raft nd) args now = Ok (rf', reply) →
  ∃ b g k m, msg_at G c i args b g k m ∧
    peer_log G rf' ∧ keeps_facts G (nd_raft nd) rf' ∧ (role rf' = LEADER → rf' = nd_raft nd) ∧
    (log rf' = log (nd_raft nd) ∨
     currentTerm rf' = aea_Term args ∧ ∀ k', has (es (nd_raft nd)) g k' → has (es rf') g k') ∧
    if aer_Success reply then currentTerm rf' = aea_Term args ∧ has (es rf') g m
    else (aer_Term reply ≤ aea_Term args)%Z →
      k ≤ b ∧ (0 ≤ aer_ConflictIndex reply ≤ Z.of_nat k - 1)%Z ∧
      past_or rf' (aea_Term args) (clean (es rf') b (aea_Term args)).
Proof.
  intros Hin H. pose proof (ci_nodes _ _ Hinv i nd Hi) as Hni. pose proof Hlm as [L1 L2 L3 L4 L5 L6 L7].
  destruct (L5 _ _ Hin) as (args' & b & g & k & m & [= <-] & Hat). pose proof Hat as (Hrq & (Hk & Hc & Hh) & Hs).
  exists b, g, k, m. split; [done|].
  apply (AppendEntries_match G (nd_raft nd) args now rf' reply b g k m);
    [done|apply Hni|by apply (L2 i)|done|by intros ?; apply Hc|by intros ?; apply Hh| |done].
  intros Hr Heq. destruct Hs as [Hl Hne]. apply Hne. eapply (unique_leader n); [done|done|].
  rewrite <-Heq. by apply leader_known.
Qed.

(** The log of a follower changes, and it replies. *)
Lemma lm_follow rf' args reply (c' := add_aereply (i, args, reply) (set_raft c i nd rf')) :
  peer_log G rf' → keeps_facts G (nd_raft nd) rf' → (role rf' = LEADER → rf' = nd_raft nd) →
  (facts_mono G c c' → ∃ b g k m, reply_at G c' i args reply b g k m) → lm_inv G c'.
Proof.
  intros Hp Hkeep Hrole Hrep. pose proof Hlm as [L1 L2 L3 L4 L5 L6 L7].
  set (nd' := mkNode rf' (nd_threads nd) (nd_sending nd)).
  assert (Hf : facts_mono G c c') by (by eapply (facts_keeps G c c' i nd nd')).
  apply (lm_step G G c c' i nd'); [done|apply gext_refl|done|done|done|done| |by intros; split; [apply leader_known|]|done|by left| |done].
  - simpl. intros Hr. rewrite (Hrole Hr) in Hr |- *. destruct (L3 i nd Hi Hr) as [b' Hb']. exists b'.
    eapply leader_log_mono; [done|by apply leader_known|done|done].
  - simpl. intros p a r [[= -> -> ->]|Hold]%elem_of_cons; [right; by apply Hrep|by left].
Qed.

(** What the peer's new log satisfies. *)
Lemma on_peer_new c' nd' T (P : list (Entry C) → Prop) :
  cl_nodes c' = <[i := nd']> (cl_nodes c) → past_or (nd_raft nd') T (P (es (nd_raft nd'))) → on_peer c' i T P.
Proof. intros Hn HP nd1 Hnd1. rewrite Hn, lookup_insert_eq in Hnd1. by injection Hnd1 as <-. Qed.

Lemma lm_append args now rf' reply :
  (i, MsgAppendEntries args) ∈ cl_msgs c → AppendEntries (nd_raft nd) args now = Ok (rf', reply) →
  lm_inv G (add_aereply (i, args, reply) (set_raft c i nd rf')).
Proof.
  intros Hin H. destruct (append_match args now rf' reply Hin H) as (b & g & k & m & Hat & Hp & Hkeep & Hrole & _ & Hrep).
  pose proof Hat as (Hrq & _). apply lm_follow; [done..|]. set (c' := add_aereply _ _). intros Hf.
  set (nd' := mkNode rf' (nd_threads nd) (nd_sending nd)).
  pose proof (λ T P, on_peer_new c' nd' T P eq_refl) as Hon.
  exists b, g, k, m. split.
  - rewrite <-(app_nil_r g). eapply (msg_mono G G c c'); [done|rewrite app_nil_r; apply Hrq|done].
  - destruct (aer_Success reply); [apply Hon; by right|]. intros Hle. destruct (Hrep Hle) as (? & ? & ?).
    split; [done|]. split; [done|]. by apply Hon.
Qed.

(** *** The leaders' logs change *)

Lemma ghost_extend T b g (e : Entry C) :
  G !! T = Some (b, g) → 1 ≤ b → eTerm e = T →
  ghost_ok (<[T := (b, g ++ [e])]> G) ∧ gext G (<[T := (b, g ++ [e])]> G).
Proof.
  intros HG Hb He. pose proof (lm_ghost _ _ Hlm) as Hg. pose proof Hg as [G0 G1 G2 G3 G4 G5].
  assert (HT0 : T ≠ 0%Z) by (intros ->; rewrite G0 in HG; simplify_eq; lia).
  assert (Hext : gext G (<[T := (b, g ++ [e])]> G)).
  { intros T' b' g' HG'. destruct (decide (T' = T)) as [->|].
    - rewrite HG in HG'. injection HG' as <- <-. exists [e]. by rewrite lookup_insert_eq.
    - exists []. by rewrite lookup_insert_ne, app_nil_r. }
  pose proof (G4 _ _ _ HG) as Hbl.
  assert (Hlk : ∀ k x, (g ++ [e]) !! k = Some x → g !! k = Some x ∨ k = length g ∧ x = e).
  { intros k x [Hx|[Hlen Hx]]%lookup_app_Some; [by left|right].
    apply list_lookup_singleton_Some in Hx as [? <-]. split; [lia|done]. }
  split; [|done]. split.
  - by rewrite lookup_insert_ne.
  - intros T' b' g' [[<- [= <- <-]]|[Hne HG']]%lookup_insert_Some; [|by eapply from_leader_ext, G1].
    intros k x Hk. destruct (Hlk k x Hk) as [Hk'|[-> ->]].
    + destruct (from_leader_ext _ _ _ Hext (G1 _ _ _ HG) k x Hk') as (b1 & g1 & HG1 & Ht). exists b1, g1.
      split; [done|]. apply lookup_lt_Some in Hk'. by rewrite take_app_le by lia.
    + exists b, (g ++ [e]). by rewrite He, lookup_insert_eq.
  - intros T' b' g' [[<- [= <- <-]]|[Hne HG']]%lookup_insert_Some; [|by eapply G2].
    apply lookup_app_l_Some. by eapply G2.
  - intros T' b' g' [[<- [= <- <-]]|[Hne HG']]%lookup_insert_Some; [|by eapply G3].
    apply StronglySorted_app_2; [|by eapply G3|repeat constructor].
    intros x y [k Hx]%list_elem_of_lookup Hy. apply list_elem_of_singleton in Hy as ->.
    rewrite He. by destruct (G5 _ _ _ k x HG Hx).
  - intros T' b' g' [[<- [= <- <-]]|[Hne HG']]%lookup_insert_Some; [|by eapply G4].
    rewrite length_app. lia.
  - intros T' b' g' k x [[<- [= <- <-]]|[Hne HG']]%lookup_insert_Some Hk; [|by eapply G5].
    destruct (Hlk k x Hk) as [Hk'|[-> ->]]; [by eapply G5|]. rewrite He. split; [lia|done].
Qed.

(** What [Start] does to the leaders' logs. *)
Definition ghost_start G' rf' : Prop :=
  (rf' = nd_raft nd ∧ G' = G) ∨
  ∃ b e, role (nd_raft nd) = LEADER ∧ G !! currentTerm (nd_raft nd) = Some (b, es (nd_raft nd)) ∧ 1 ≤ b ∧
    eTerm e = currentTerm (nd_raft nd) ∧ es rf' = es (nd_raft nd) ++ [e] ∧
    G' = <[currentTerm (nd_raft nd) := (b, es rf')]> G.

Lemma lm_Start cmd rf' result :
  Start (nd_raft nd) cmd = (rf', result) →
  ∃ G', lm_inv G' (set_raft c i nd rf') ∧ ghost_start G' rf'.
Proof.
  intros H. pose proof Hlm as [L1 L2 L3 L4 L5 L6 L7]. unfold Start in H. case_bool_decide as Hr.
  2:{ injection H as <- _. exists G. split; [|by left].
    apply (lm_quiet _ (nd_raft nd) (nd_threads nd) (nd_sending nd)); [apply quiet_refl|done|done|done|by left|done]. }
  injection H as <- _. destruct (L3 i nd Hi Hr) as [b Hb]. pose proof Hb as [Hb1 HG Hnx Hmx].
  set (T := currentTerm (nd_raft nd)) in *. set (e := mkEntry T (Some cmd)).
  pose proof (leader_known i nd Hi Hr) as Hlead. fold T in Hlead.
  destruct (ghost_extend T b (es (nd_raft nd)) e HG Hb1 eq_refl) as [Hg' Hext].
  set (G' := <[T := _]> G) in *. exists G'. set (rf' := notifyHeartbeat _).
  split; [|right; by exists b, e].
  set (c' := set_raft c i nd rf').
  assert (HG' : G' !! T = Some (b, es (nd_raft nd) ++ [e])) by apply lookup_insert_eq.
  assert (Hf : facts_mono G c c').
  { eapply (facts_update G c c' i nd (mkNode rf' (nd_threads nd) (nd_sending nd))); [done..|].
    intros T' b' g' l HG1 [Hl Hne]. unfold past_or. simpl.
    assert (T' ≠ T). { intros ->. apply Hne. by eapply (unique_leader n). }
    split; [|intros k]; (intros [?|[? _]]; [by left|done]). }
  apply (lm_step G G' c c' i (mkNode rf' (nd_threads nd) (nd_sending nd))); [done|done|done|done|done|..|by left|by left|done].
  - destruct (L2 i nd Hi) as [P1 P2 P3 P4]. split; simpl; [done|done| |].
    + by eapply (go_log _ Hg').
    + intros x [Hx|Hx]%elem_of_app; [by apply P4|]. apply list_elem_of_singleton in Hx as ->. simpl. lia.
  - simpl. intros _. exists b. split; simpl; [done|done|..].
    + intros p x Hp Hpi Hx. destruct (Hnx p x Hp Hpi Hx) as (k & -> & Ht). exists k. split; [done|].
      by eapply (tracks_mono G c c' _ _ _ _ _ _ i).
    + intros p x Hp Hpi Hx. destruct (Hmx p x Hp Hpi Hx) as [->|(k & -> & Hk & Ho)]; [by left|right].
      exists k. split; [done|]. split; [rewrite length_app; lia|].
      eapply on_peer_impl; [intros l; apply has_ext|]. by eapply (fm_has G c c' Hf p _ _ _ i).
  - intros j nd1 Hne Hj Hr1. split; [by apply leader_known|]. apply lookup_insert_ne. intros Heq.
    apply Hne. eapply (unique_leader n); [done| |exact Hlead]. rewrite Heq. by apply leader_known.
  - intros T' bg [[<- _]|[_ HG1]]%lookup_insert_Some; [right; by exists i|by apply (L4 T' bg)].
Qed.

Lemma from_leader_sorted l : from_leader G l → term_sorted l.
Proof.
  intros Hl. destruct (decide (length l = 0)) as [->%nil_length_inv|Hne]; [constructor|].
  destruct (lookup_lt_is_Some_2 l (length l - 1)) as [e He]; [lia|].
  destruct (Hl _ _ He) as (b & g & HG & Ht). replace (S (length l - 1)) with (length l) in Ht by lia.
  rewrite firstn_all in Ht. rewrite Ht. apply term_sorted_take. eapply go_sorted; [apply Hlm|done].
Qed.

(** A term gets its first leader, with the log [l]. *)
Lemma ghost_new T l :
  G !! T = None → from_leader G l → (∀ e, e ∈ l → (eTerm e ≤ T)%Z) → l ≠ [] →
  ghost_ok (<[T := (length l, l)]> G) ∧ gext G (<[T := (length l, l)]> G).
Proof.
  intros HN Hl Ht Hne. pose proof (lm_ghost _ _ Hlm) as Hg. pose proof Hg as [G0 G1 G2 G3 G4 G5].
  assert (Hext : gext G (<[T := (length l, l)]> G)).
  { intros T' b' g' HG'. exists []. rewrite app_nil_r, lookup_insert_ne; [done|congruence]. }
  split; [|done]. split.
  - rewrite lookup_insert_ne; [done|congruence].
  - intros T' b' g' [[<- [= <- <-]]|[_ HG']]%lookup_insert_Some; eapply from_leader_ext; [done|done|done|by eapply G1].
  - intros T' b' g' [[<- [= <- <-]]|[_ HG']]%lookup_insert_Some; [|by eapply G2].
    destruct l as [|e l]; [done|]. simpl. by rewrite (from_leader_head G _ e Hg Hl).
  - intros T' b' g' [[<- [= <- <-]]|[_ HG']]%lookup_insert_Some; [by apply from_leader_sorted|by eapply G3].
  - intros T' b' g' [[<- [= <- <-]]|[_ HG']]%lookup_insert_Some; [done|by eapply G4].
  - intros T' b' g' k e [[<- [= <- <-]]|[_ HG']]%lookup_insert_Some Hk; [|by eapply G5].
    split; [apply Ht; by eapply list_elem_of_lookup_2|]. apply lookup_lt_Some in Hk. lia.
Qed.

(** *** A candidate wins *)

Lemma lm_win ths sd c' :
  role (nd_raft nd) = CANDIDATE → (0 < currentTerm (nd_raft nd))%Z →
  c' = add_leader (currentTerm (nd_raft nd), i) (set_node c i (mkNode (becomeLeader (nd_raft nd)) ths sd)) →
  cluster_inv n c' →
  G !! currentTerm (nd_raft nd) = None ∧
  lm_inv (<[currentTerm (nd_raft nd) := (length (es (nd_raft nd)), es (nd_raft nd))]> G) c'.
Proof.
  intros Hr HT -> Hinv'. pose proof Hlm as [L1 L2 L3 L4 L5 L6 L7].
  pose proof (ci_nodes _ _ Hinv i nd Hi) as Hni. pose proof (ni_wf _ _ _ _ Hni) as Hwf.
  set (T := currentTerm (nd_raft nd)) in *. set (c' := add_leader _ _) in *. destruct (L2 i nd Hi) as [P1 P2 P3 P4].
  assert (Hnone : G !! T = None).
  { destruct (G !! T) as [bg|] eqn:E; [|done]. exfalso. destruct (L4 T bg E) as [->|[l Hl]]; [lia|].
    assert (l = i) as -> by (eapply (unique_leader n c' T); [done|by right|left]).
    destruct (ni_won _ _ _ _ Hni T Hl) as [?|(_ & _ & ?)]; [unfold T in *; lia|done]. }
  destruct (ghost_new T (es (nd_raft nd)) Hnone P3 P4 (wf_log _ Hwf)) as [Hg' Hext].
  split; [done|]. set (G' := <[T := _]> G) in *.
  assert (Hf : facts_mono G c c').
  { eapply (facts_keeps G c c' i nd (mkNode (becomeLeader (nd_raft nd)) ths sd)); [done|done|by right|].
    by apply keeps_facts_same. }
  assert (Hlen : 1 ≤ length (es (nd_raft nd))).
  { pose proof (wf_log _ Hwf) as Hne. unfold log_wf in Hne. destruct (es (nd_raft nd)); [done|simpl; lia]. }
  apply (lm_step G G' c c' i (mkNode (becomeLeader (nd_raft nd)) ths sd)); [done|done|done|done|done|..|by left|by left|done].
  - split; try done. by eapply from_leader_ext.
  - intros _. exists (length (es (nd_raft nd))). split; simpl; [done|apply lookup_insert_eq|..].
    + intros p x Hp Hpi [-> _]%lookup_replicate. exists (length (es (nd_raft nd))).
      split; [rewrite lastIndex_length by done; lia|]. split; [lia|]. split; lia.
    + intros p x Hp Hpi [-> _]%lookup_replicate. by left.
  - intros j nd1 Hne Hj Hr1. split; [by apply leader_known|]. apply lookup_insert_ne. intros Heq.
    apply Hne. eapply (unique_leader n c' T); [done| |left]. right. rewrite Heq. by apply leader_known.
  - intros T' bg [[<- _]|[_ HG1]]%lookup_insert_Some; [right; exists i; left|].
    destruct (L4 T' bg HG1) as [?|[l ?]]; [by left|right]. exists l. by right.
Qed.

(** A crash and a restart. *)
Lemma crash_same now rf' :
  Make (npeers (nd_raft nd)) i (Persister.Copy (persister (nd_raft nd))) now = Ok rf' →
  currentTerm rf' = currentTerm (nd_raft nd) ∧ log rf' = log (nd_raft nd) ∧
  snapshotIndex rf' = snapshotIndex (nd_raft nd) ∧ role rf' = FOLLOWER.
Proof.
  intros HM. pose proof (ci_nodes _ _ Hinv i nd Hi) as Hni. pose proof (ni_wf _ _ _ _ Hni) as Hwf.
  destruct (crash_restart (nd_raft nd) now Hwf) as (rf1 & HM1 & _ & Hp & Hl & _ & Hr & _).
  rewrite (ni_me _ _ _ _ Hni) in HM1. assert (rf1 = rf') as ->.
  { assert (Persister.Copy (persister (nd_raft nd)) = persister (nd_raft nd)) as Hcp
      by (by destruct (persister (nd_raft nd))).
    rewrite Hcp in HM. congruence. }
  by injection Hp as Hct _ _ Hsi _.
Qed.

Lemma lm_crash now rf' :
  Make (npeers (nd_raft nd)) i (Persister.Copy (persister (nd_raft nd))) now = Ok rf' →
  lm_inv G (set_node c i (mkNode rf' [] None)).
Proof.
  intros HM. destruct (crash_same now rf' HM) as (Hct & Hl & Hsi & Hr).
  apply (lm_quiet _ rf' [] None); [|done|done|apply Hlm|by left|done].
  split_and!; [done|done|lia|]. by rewrite Hr.
Qed.
End Step.

(** ** Steps that are quiet *)

Lemma quiet_RequestVote rf args now rf' reply : RequestVote rf args now = Ok (rf', reply) → quiet rf rf'.
Proof.
  intros H. unfold RequestVote in H. case_bool_decide; [injection H as <- _; apply quiet_refl|].
  set (rf1 := if bool_decide _ then _ else rf) in H.
  assert (Hq : quiet rf rf1).
  { clear H. unfold rf1. case_bool_decide; [apply quiet_stepDown; lia|apply quiet_refl]. }
  clearbody rf1. destruct (_ || _); [|by injection H as <- _].
  destruct (lastEntry (log rf1)) as [le|]; [|done]. res_simpl.
  destruct (upToDate _ _ _); by injection H as <- _.
Qed.

Lemma quiet_election rf now1 now2 now3 rf' args :
  leaderElection_start rf now1 now2 now3 = Ok (rf', Some args) → quiet rf rf'.
Proof.
  intros H. unfold leaderElection_start in H. set (rf1 := if _ && _ then _ else rf) in H.
  assert (Hs : log rf1 = log rf ∧ snapshotIndex rf1 = snapshotIndex rf ∧ currentTerm rf1 = currentTerm rf).
  { unfold rf1. by destruct (_ && _). }
  clearbody rf1. destruct Hs as (Hl & Hs & Hc). destruct (bool_decide (role rf1 = CANDIDATE) && _) eqn:E; [|done].
  destruct (lastEntry _); [|done]. res_simpl. injection H as <- _. apply andb_true_iff in E as [E%bool_decide_eq_true _].
  split_and!; simpl; [done|done|lia|by rewrite E].
Qed.

Lemma quiet_countVotes rf el reply rf' el' : countVotes_step rf el reply = (rf', el') → quiet rf rf'.
Proof.
  intros H. unfold countVotes_step in H. destruct reply as [r|]; [|injection H as <- _; apply quiet_refl].
  destruct (rvr_VoteGranted r); [injection H as <- _; apply quiet_refl|].
  case_bool_decide; injection H as <- _; [apply quiet_stepDown; lia|apply quiet_refl].
Qed.

Lemma quiet_applier_end rf msg : quiet rf (applier_end rf msg).
Proof. unfold applier_end. repeat case_match; by split_and!. Qed.

(** A candidate has counted its term up. *)
Definition cand_ok rf : Prop := (0 ≤ currentTerm rf)%Z ∧ (role rf = CANDIDATE → (0 < currentTerm rf)%Z).

Lemma cand_vote rf rf' : vote_step rf rf' → cand_ok rf → cand_ok rf'.
Proof.
  intros [[? _]|[Ht Hv]] [? Hc]; [split; intros; lia|]. unfold cand_ok. rewrite Ht. split; [done|]. intros Hr. apply Hc.
  destruct Hv as [[_ ?]|[(_ & ? & _)|(_ & ? & _)]]; congruence.
Qed.

(** No peer has compacted its log. *)
Definition uncompacted c : Prop := ∀ i nd, cl_nodes c !! i = Some nd → snapshotIndex (nd_raft nd) = 0%Z.

Record lm_state (n : nat) c : Prop := {
  ls_inv : cluster_inv n c;
  ls_cand : ∀ i nd, cl_nodes c !! i = Some nd → cand_ok (nd_raft nd);
  ls_lm : ∃ G, lm_inv G c;
}.

Lemma cand_update c c' i nd' :
  (∀ i nd, cl_nodes c !! i = Some nd → cand_ok (nd_raft nd)) →
  cl_nodes c' = <[i := nd']> (cl_nodes c) → cand_ok (nd_raft nd') →
  ∀ j nd, cl_nodes c' !! j = Some nd → cand_ok (nd_raft nd).
Proof.
  intros H Hn Hi j nd Hj. rewrite Hn in Hj. apply lookup_insert_Some in Hj as [[<- <-]|[_ Hj]]; [done|by eapply H].
Qed.

Lemma cand_step n c c' :
  cluster_inv n c → (∀ i nd, cl_nodes c !! i = Some nd → cand_ok (nd_raft nd)) → cluster_step c c' →
  ∀ i nd, cl_nodes c' !! i = Some nd → cand_ok (nd_raft nd).
Proof.
  intros Hinv Hc Hstep.
  assert (Hwf : ∀ i nd, cl_nodes c !! i = Some nd → raft_wf (nd_raft nd))
    by (intros i nd Hi; apply (ci_nodes _ _ Hinv i nd Hi)).
  destruct Hstep as [i nd ? ? ? ? ? Hi ? H|i nd ? ? ? ? Hi ? H|i nd ? ? ? ? Hi ? H|i nd ? ? ? ? ? ? ? Hi ? ? ? ? H
    |i nd th ? ? Hi ? ?|i nd ? ? ? ? Hi H|i nd ? ? ? ? Hi ? H|i nd ? ? ? ? Hi ? H|i nd ? ? ? ? Hi ? ? H
    |i nd ? ? ? ? Hi ? ? H|i nd ? ? ? Hi H|i nd ? ? ? Hi H|i nd ? Hi|i nd ? Hi|i nd Hi|i nd now rf' Hi HM'];
    pose proof (Hwf i nd Hi) as Hw; pose proof (Hc i nd Hi) as Hci.
  1-15: try (eapply cand_update; [done|done|simpl; eapply cand_vote; [|done]]).
  - by eapply so_vote, electionStart_ok.
  - by eapply so_vote, electionStart_ok.
  - eapply so_vote, RequestVote_ok; [done| |done].
    rewrite (ni_me _ _ _ _ (ci_nodes _ _ Hinv i nd Hi)). by apply (ci_requests _ _ Hinv i).
  - by eapply so_vote, countVotes_ok.
  - destruct (electionFinish_ok _ (th_el th) Hw) as [Heq|(_ & (Ht & _ & _ & Hl) & _)].
    + unfold c', rf'. rewrite Heq, bool_decide_false by naive_solver. by eapply cand_update.
    + assert (cand_ok rf') by (split; [unfold rf'; rewrite Ht; apply Hci|unfold rf'; by rewrite Hl]).
      destruct (bool_decide _); by eapply cand_update.
  - by eapply so_vote, leaderHeartbeats_ok.
  - by eapply so_vote, AppendEntries_ok.
  - by eapply so_vote, InstallSnapshot_ok.
  - by eapply so_vote, sendAppendEntries_ok.
  - by eapply so_vote, sendInstallSnapshot_ok.
  - by eapply so_vote, Start_ok.
  - by eapply so_vote, Snapshot_ok.
  - right. auto.
  - by apply applier_end_peer.
  - right. auto.
  - eapply cand_update; [done|done|]. simpl.
    destruct (crash_same n c i nd Hinv Hi now rf' HM') as (Hct & _ & _ & Hr).
    split; [rewrite Hct; apply Hci|by rewrite Hr].
Qed.

(** ** The initial state *)

Lemma initCluster_node n now i nd :
  cl_nodes (initCluster n now) !! i = Some nd →
  nd = mkNode (resetElectionTimer now (freshRaft n i Persister.MakePersister)) [] None :> Node (C := C).
Proof.
  intros Hi%elem_of_list_to_map_2. by apply list_elem_of_fmap in Hi as (k & [= -> ->] & _).
Qed.

Lemma initCluster_lm n now : lm_state n (initCluster n now).
Proof.
  pose proof (initCluster_node n now) as Hnode. set (c := initCluster n now) in *.
  split; [apply initCluster_inv|intros i nd ->%Hnode; by split|].
  set (G := {[0%Z := (0, [zeroEntry])]} : LeaderLogs). exists G.
  assert (Hz : from_leader G [zeroEntry]).
  { intros [|k] e [= <-]. exists 0, [zeroEntry]. by split; [apply lookup_singleton_eq|]. }
  assert (Hterm : ∀ e : Entry C, e ∈ [zeroEntry] → eTerm e = 0%Z) by (by intros e ->%list_elem_of_singleton).
  split.
  - assert (HG : ∀ T b g, G !! T = Some (b, g) → T = 0%Z ∧ b = 0 ∧ g = [zeroEntry])
      by (by intros T b g [<- [= <- <-]]%lookup_singleton_Some).
    split; [apply lookup_singleton_eq|intros T b g (-> & -> & ->)%HG..| ]; [done|done|repeat constructor|simpl; lia|].
    intros T b g k e (-> & -> & ->)%HG Hk%list_elem_of_lookup_2. rewrite (Hterm e Hk). lia.
  - intros i nd ->%Hnode. split; simpl; try done. intros e He. rewrite (Hterm e He). lia.
  - by intros i nd ->%Hnode.
  - intros T bg [<- _]%lookup_singleton_Some. by left.
  - by intros p msg ?%elem_of_nil.
  - by intros p args reply ?%elem_of_nil.
  - done.
Qed.

(** Reached without any peer compacting its log. *)
Definition reachable_uncompacted (n : nat) c : Prop :=
  ∃ now, rtc (λ c c', cluster_step c c' ∧ uncompacted c') (initCluster n now) c.
End LogMatching.

Lemma uncompacted_by_computation {C} (c : Cluster (C := C)) :
  bool_decide (map_Forall (λ _ nd, snapshotIndex (nd_raft nd) = 0%Z) (cl_nodes c)) = true → uncompacted c.
Proof. by intros H%bool_decide_eq_true. Qed.

(** One step of a concrete run, after which no peer has compacted its log. *)
Ltac run_step tac :=
  eapply rtc_l; [split; [tac|apply uncompacted_by_computation; vm_compute; reflexivity]|].
