(* ===== verification/RaftSafety.v ===== *)
(** * Committed entries are never lost

    The commit rules of log_replication.go: a leader commits an index that a
    majority of the peers hold if the entry there is of its own term, and,
    unlike the rule of the Raft paper, also an entry of an older term if
    every peer holds it ([leaderCommit]); a follower commits what the leader
    says it has committed ([followerCommit]).  An index committed under
    either rule stays: every later leader has the same entries up to it, so
    the appliers of two peers never hand different commands to their services
    at the same index.

    The invariants speak of acknowledgements: a peer has acknowledged the
    first [m] entries of the leader of [T] if it is that leader or has
    answered one of its requests.  A peer keeps what it acknowledged as long
    as the leaders after [T] carry it, votes only for candidates whose logs
    are as new, and so the next leader carries what a quorum (or, by the
    second rule, everyone) acknowledged.

    As in [RaftLogMatching], the steps are those of clusters in which no peer
    compacts its log; [RaftCompaction] follows every other run by one of
    these. *)

From stdpp Require Import base list gmap sorting.
From Stdlib Require Import ZArith Lia.
From S2P Require Import Prelude RaftLog RaftCore RaftElection RaftReplication RaftApply RaftNode RaftCluster RaftLogMatching.

Section Safety.
Context {C : Type} `{!Gob (PState C), !GobOk (PState C)}.
Implicit Types rf : Raft C.
Implicit Types c : Cluster (C := C).

Abbreviation es rf := (entries (log rf)).
Abbreviation LeaderLogs := (gmap Z (nat * list (Entry C))).
Implicit Types G : LeaderLogs.

(** ** The invariants *)

(** Peer [p] has acknowledged the first [m] entries of the leader of [T]. *)
Definition acked G c (p T : Z) (m : nat) : Prop :=
  (∃ b g, G !! T = Some (b, g) ∧ m ≤ length g) ∧
  ((T, p) ∈ cl_leaders c ∨
   ∃ args reply, (p, args, reply) ∈ cl_aereplies c ∧ aer_Success reply = true ∧ aea_Term args = T ∧
     (Z.of_nat m ≤ aea_PrevLogIndex args + 1 + zlen (aea_Entries args))%Z).

(** The leader of [T'] was elected with the first [m] entries of the leader
    of [T] in its log. *)
Definition carries G (T : Z) (m : nat) (T' : Z) : Prop :=
  ∀ b g b' g', G !! T = Some (b, g) → G !! T' = Some (b', g') → has (take b' g') g m.

Definition all_carry G (T : Z) (m : nat) (T' : Z) : Prop :=
  ∀ T'', (T < T'' < T')%Z → carries G T m T''.

(** A log whose last entry is newer than the first [m] entries of [T]. *)
Definition newer (l : list (Entry C)) (T : Z) (m : nat) : Prop :=
  ∃ e, last l = Some e ∧ (T < eTerm e ∨ eTerm e = T ∧ Z.of_nat m ≤ Z.of_nat (length l))%Z.

Definition args_newer (args : RequestVoteArgs) (T : Z) (m : nat) : Prop :=
  (T < rva_LastLogTerm args ∨ rva_LastLogTerm args = T ∧ Z.of_nat m - 1 ≤ rva_LastLogIndex args)%Z.

Definition describes (args : RequestVoteArgs) (l : list (Entry C)) : Prop :=
  ∃ e, last l = Some e ∧ eTerm e = rva_LastLogTerm args ∧
    rva_LastLogIndex args = (Z.of_nat (length l) - 1)%Z.

(** A vote in a term that has no leader yet: the candidate's log is as new as
    all that the voter has acknowledged. *)
Definition grant_ok G c (v : Z) (args : RequestVoteArgs) : Prop :=
  G !! rva_Term args = None → ∀ T m b g,
    acked G c v T m → (T < rva_Term args)%Z → G !! T = Some (b, g) → b < m →
    all_carry G T m (rva_Term args) → args_newer args T m.

(** The leader of [T'] carries what it has itself acknowledged, and its log
    is as new as what the peers that elected it have. *)
Definition won_ok (n : nat) G c (T' l : Z) : Prop :=
  ∀ b' g', G !! T' = Some (b', g') →
    (∀ T m, acked G c l T m → (T < T')%Z → all_carry G T m T' → carries G T m T') ∧
    ∃ S, voters c n T' l S ∧ (majority n ≤ Z.of_nat (length S) + 1)%Z ∧
      ∀ v T m b g, v ∈ S → acked G c v T m → (T < T')%Z → G !! T = Some (b, g) → b < m →
        all_carry G T m T' → newer (take b' g') T m.

Record acks_inv (n : nat) G c : Prop := {
  ak_term : ∀ p nd T m, cl_nodes c !! p = Some nd → acked G c p T m → (T ≤ currentTerm (nd_raft nd))%Z;
  ak_log : ∀ p nd T m b g, cl_nodes c !! p = Some nd → acked G c p T m → G !! T = Some (b, g) →
    all_carry G T m (currentTerm (nd_raft nd) + 1) → has (es (nd_raft nd)) g m;
  ak_grant : ∀ v args r, (v, args, r) ∈ cl_votes c → rvr_VoteGranted r = true → grant_ok G c v args;
  ak_won : ∀ T l, (T, l) ∈ cl_leaders c → won_ok n G c T l;
}.

(** A candidate's log has only entries of older terms, and does not change
    while it waits for votes. *)
Record elect_inv G c : Prop := {
  ei_base : ∀ T b g k e, G !! T = Some (b, g) → k < b → g !! k = Some e → (eTerm e < T)%Z;
  ei_cand : ∀ i nd e, cl_nodes c !! i = Some nd → role (nd_raft nd) = CANDIDATE →
    e ∈ es (nd_raft nd) → (eTerm e < currentTerm (nd_raft nd))%Z;
  ei_request : ∀ p args nd, (p, args) ∈ cl_requests c → cl_nodes c !! rva_CandidateId args = Some nd →
    (rva_Term args ≤ currentTerm (nd_raft nd))%Z ∧
    (currentTerm (nd_raft nd) = rva_Term args → role (nd_raft nd) = CANDIDATE → describes args (es (nd_raft nd)));
  ei_vote : ∀ v args r, (v, args, r) ∈ cl_votes c → (v, args) ∈ cl_requests c;
}.

(** The first [m] entries of the leader of [T] are committed: acknowledged
    by a majority and ending in the leader's term, or acknowledged by all. *)
Definition committed (n : nat) G c (T : Z) (m : nat) : Prop :=
  ∃ b g, G !! T = Some (b, g) ∧ m ≤ length g ∧
    (b < m ∧ (∃ Q, NoDup Q ∧ (∀ p, p ∈ Q → (0 ≤ p < Z.of_nat n)%Z ∧ acked G c p T m) ∧
                (majority n ≤ Z.of_nat (length Q))%Z) ∨
     ∀ p, (0 ≤ p < Z.of_nat n)%Z → acked G c p T m).

(** The log [l] of a peer in term [T] is committed up to index [k]. *)
Definition commit_ok (n : nat) G c (T : Z) (l : list (Entry C)) (k : Z) : Prop :=
  k = 0%Z ∨ ∃ T0 b g m, (T0 ≤ T)%Z ∧ G !! T0 = Some (b, g) ∧ committed n G c T0 m ∧
    (0 ≤ k < Z.of_nat m)%Z ∧ has l g (S (Z.to_nat k)).

(** ** Leader completeness *)

Lemma ghost_nonneg G T b g : ghost_ok G → G !! T = Some (b, g) → (0 ≤ T)%Z.
Proof. intros Hg HG. by destruct (go_terms _ Hg T b g 0 zeroEntry HG (go_head _ Hg _ _ _ HG)). Qed.

Lemma has_trans_l (l g g' : list (Entry C)) k : has l g k → has g' g k → has l g' k.
Proof. intros (? & ? & H1) (? & ? & H2). split_and!; [done..|congruence]. Qed.

Lemma has_sym (l g : list (Entry C)) k : has l g k → has g l k.
Proof. intros (? & ? & ?). by split_and!. Qed.

(** The last entry of the log at an election says what the log carries. *)
Lemma newer_carries G T m b g T' b' g' :
  ghost_ok G → (∀ T b g k e, G !! T = Some (b, g) → k < b → g !! k = Some e → (eTerm e < T)%Z) →
  G !! T = Some (b, g) → m ≤ length g → G !! T' = Some (b', g') → all_carry G T m T' →
  newer (take b' g') T m → has (take b' g') g m.
Proof.
  intros Hg Hbase HG Hm HG' Hall (e & Hlast & Hnew).
  pose proof (go_base _ Hg _ _ _ HG') as Hb'. rewrite length_take, Nat.min_l in Hnew by done.
  rewrite last_lookup, length_take, Nat.min_l in Hlast by done.
  pose proof (lookup_lt_Some _ _ _ Hlast) as Hlt. rewrite length_take in Hlt.
  assert (Hk : Nat.pred b' < b') by lia.
  destruct (from_leader_take _ _ b' (go_log _ Hg _ _ _ HG') _ _ Hlast) as (b2 & g2 & HG2 & Ht).
  replace (S (Nat.pred b')) with b' in Ht by lia. rewrite take_idemp in Ht.
  rewrite lookup_take_lt in Hlast by done. pose proof (Hbase _ _ _ _ _ HG' Hk Hlast) as HT'.
  assert (Hlen2 : b' ≤ length g2).
  { apply (f_equal length) in Ht. rewrite !length_take in Ht. lia. }
  assert (Hpre : m ≤ b' → has g2 g m → has (take b' g') g m).
  { intros Hmb (? & ? & Heq). split_and!; [rewrite length_take; lia|done|].
    rewrite Ht, take_take, Nat.min_l by lia. done. }
  destruct Hnew as [HT|[HT Hmb]].
  - pose proof (Hall (eTerm e) (conj HT HT') b g b2 g2 HG HG2) as Hc.
    assert (b2 ≤ Nat.pred b').
    { destruct (decide (b2 ≤ Nat.pred b')) as [|Hlt2]; [done|].
      assert (g2 !! Nat.pred b' = Some e) as He.
      { rewrite <-(lookup_take_lt g2 b'), <-Ht, lookup_take_lt by lia. done. }
      pose proof (Hbase _ _ _ (Nat.pred b') e HG2 ltac:(lia) He). lia. }
    pose proof Hc as (Hm2 & _ & _). rewrite length_take in Hm2. apply Hpre; [lia|].
    destruct Hc as (? & ? & Hc). rewrite take_take, Nat.min_l in Hc by lia. split_and!; [lia|done|done].
  - rewrite HT, HG in HG2. injection HG2 as <- <-. apply Hpre; [lia|]. by split_and!.
Qed.

(** Every later leader carries what is committed. *)
Lemma completeness n G c T m T' :
  cluster_inv n c → lm_inv G c → elect_inv G c → acks_inv n G c →
  committed n G c T m → (T < T')%Z → carries G T m T'.
Proof.
  intros Hinv Hlm Hel Hak Hcom. pose proof Hcom as (b & g & HG & Hm & Hq). pose proof (lm_ghost _ _ Hlm) as Hg.
  induction (Z.lt_wf T T') as [T' _ IH]. intros HT b0 g0 b' g' HG0 HG'.
  rewrite HG in HG0. injection HG0 as <- <-. pose proof (ghost_nonneg _ _ _ _ Hg HG) as HT0.
  assert (Hall : all_carry G T m T') by (intros T'' ?; apply IH; lia).
  destruct (lm_dom _ _ Hlm T' _ HG') as [->|[l Hl]]; [lia|].
  destruct (ak_won _ _ _ Hak T' l Hl b' g' HG') as (Hself & S & HS & Hmaj & Hvote).
  destruct (ci_quorum _ _ Hinv T' l Hl) as [Hlr _].
  assert (Hl_acked : acked G c l T m → has (take b' g') g m) by (intros Ha; by apply (Hself T m Ha HT Hall b g b' g')).
  destruct Hq as [(Hbm & Q & HQ & HQa & HQm)|Hq]; [|by apply Hl_acked, Hq].
  destruct (voters_quorum _ _ _ _ _ Hlr HS) as [Hnd Hrange].
  destruct (quorums_meet n Q (l :: S)) as (p & Hp1 & Hp2); [done|done|by intros p Hp; apply HQa|done|done|simpl; lia|].
  apply elem_of_cons in Hp2 as [->|Hp2]; [by apply Hl_acked, HQa|].
  eapply (newer_carries G T m b g); [done|apply Hel|done..|]. eapply Hvote; [done|by apply HQa|done..].
Qed.

(** ** What a step keeps *)

Lemma acked_mono G G' c c' p T m :
  gext G G' → (∀ x, x ∈ cl_leaders c → x ∈ cl_leaders c') → (∀ x, x ∈ cl_aereplies c → x ∈ cl_aereplies c') →
  acked G c p T m → acked G' c' p T m.
Proof.
  intros He Hl Hr [(b & g & HG & Hm) Ha]. split.
  - destruct (He _ _ _ HG) as [x HG']. exists b, (g ++ x). split; [done|]. rewrite length_app. lia.
  - destruct Ha as [Ha|(args & reply & Hin & Ha)]; [left; auto|right]. exists args, reply. auto.
Qed.

Lemma acked_le G c p T m m' : m' ≤ m → acked G c p T m → acked G c p T m'.
Proof.
  intros Hle [(b & g & HG & Hm) Ha]. split; [exists b, g; split; [done|lia]|].
  destruct Ha as [Ha|(args & reply & ? & ? & ? & ?)]; [by left|right]. exists args, reply. split_and!; [done..|lia].
Qed.

Section Extend.
Context (G G' : LeaderLogs) (Hg : ghost_ok G) (He : gext G G').

Lemma has_unext (l g x : list (Entry C)) m : m ≤ length g → has l (g ++ x) m → has l g m.
Proof. intros Hm (? & _ & Heq). split_and!; [done|done|]. by rewrite take_app_le in Heq. Qed.

Lemma take_base T b g x : G !! T = Some (b, g) → take b (g ++ x) = take b g.
Proof. intros HG. apply take_app_le. by eapply go_base. Qed.

Lemma carries_back T m T' b g :
  G !! T = Some (b, g) → m ≤ length g → carries G' T m T' → carries G T m T'.
Proof.
  intros HG Hm Hc b1 g1 b' g' HG1 HG'. rewrite HG in HG1. injection HG1 as <- <-.
  destruct (He _ _ _ HG) as [x HGx], (He _ _ _ HG') as [y HGy].
  pose proof (Hc _ _ _ _ HGx HGy) as Hh. rewrite (take_base _ _ _ _ HG') in Hh. by eapply has_unext.
Qed.

Lemma all_carry_back T m T' b g :
  G !! T = Some (b, g) → m ≤ length g → all_carry G' T m T' → all_carry G T m T'.
Proof. intros HG Hm Hc T'' HT. eapply carries_back; [done..|by apply Hc]. Qed.

Lemma carries_ext T m T' b g b' g' :
  G !! T = Some (b, g) → G !! T' = Some (b', g') → carries G T m T' → carries G' T m T'.
Proof.
  intros HG HG' Hc b1 g1 b1' g1' HG1 HG1'.
  destruct (He _ _ _ HG) as [x HGx], (He _ _ _ HG') as [y HGy].
  rewrite HGx in HG1. rewrite HGy in HG1'. injection HG1 as <- <-. injection HG1' as <- <-.
  rewrite (take_base _ _ _ _ HG'). by apply has_ext, (Hc b g b' g').
Qed.
End Extend.

(** One peer [i] changes, and acknowledges nothing but entries it has. *)
Record acks_step (n : nat) G G' c c' (i : Z) (nd nd' : Node (C := C)) : Prop := {
  as_ghost : gext G G';
  as_votes : more_votes c c';
  as_term : (currentTerm (nd_raft nd) ≤ currentTerm (nd_raft nd'))%Z;
  as_new : ∀ p T m, acked G' c' p T m → acked G c p T m ∨
    p = i ∧ T = currentTerm (nd_raft nd') ∧ ∀ b g, G' !! T = Some (b, g) → has (es (nd_raft nd')) g m;
  as_kept : ∀ T m b g, acked G c i T m → G !! T = Some (b, g) →
    all_carry G T m (currentTerm (nd_raft nd') + 1) → has (es (nd_raft nd)) g m → has (es (nd_raft nd')) g m;
  as_grants : ∀ v args r, (v, args, r) ∈ cl_votes c' → rvr_VoteGranted r = true →
    (v, args, r) ∈ cl_votes c ∨ grant_ok G' c' v args;
  as_leaders : ∀ T l, (T, l) ∈ cl_leaders c' →
    (T, l) ∈ cl_leaders c ∧ (G !! T = None → G' !! T = None) ∨ won_ok n G' c' T l;
}.

Section AcksStep.
Context (n : nat) (G G' : LeaderLogs) (c c' : Cluster (C := C)) (i : Z) (nd nd' : Node (C := C)).
Context (Hg : ghost_ok G) (Hak : acks_inv n G c) (Hinv' : cluster_inv n c').
Context (Hi : cl_nodes c !! i = Some nd) (Hn : cl_nodes c' = <[i := nd']> (cl_nodes c)).
Context (Hst : acks_step n G G' c c' i nd nd').

Lemma node_changed : cl_nodes c' !! i = Some nd'.
Proof. rewrite Hn. apply lookup_insert_eq. Qed.

(** A peer that voted in [T'] acknowledges nothing of an older term. *)
Lemma voter_acks v T T' l m :
  granted_vote c' v T' l → acked G' c' v T m → (T < T')%Z → acked G c v T m.
Proof.
  intros Hv Ha HT. destruct (as_new _ _ _ _ _ _ _ _ Hst v T m Ha) as [?|(-> & -> & _)]; [done|].
  destruct (ni_granted _ _ _ _ (ci_nodes _ _ Hinv' i nd' node_changed) _ _ Hv) as (_ & _ & [?|[? _]]); lia.
Qed.

Lemma leader_acks l T T' m :
  (T', l) ∈ cl_leaders c' → acked G' c' l T m → (T < T')%Z → acked G c l T m.
Proof.
  intros Hl Ha HT. destruct (as_new _ _ _ _ _ _ _ _ Hst l T m Ha) as [?|(-> & -> & _)]; [done|].
  destruct (ni_won _ _ _ _ (ci_nodes _ _ Hinv' i nd' node_changed) _ Hl) as [?|[? _]]; lia.
Qed.

Lemma grant_ok_step v args r :
  (v, args, r) ∈ cl_votes c → rvr_VoteGranted r = true → grant_ok G' c' v args.
Proof.
  intros Hin Hr HN T m b g Ha HT HG Hb Hall. pose proof (as_ghost _ _ _ _ _ _ _ _ Hst) as He.
  assert (Hv : granted_vote c' v (rva_Term args) (rva_CandidateId args)).
  { apply (as_votes _ _ _ _ _ _ _ _ Hst). by exists args, r. }
  pose proof (voter_acks _ _ _ _ _ Hv Ha HT) as Ha0. pose proof Ha0 as [(b0 & g0 & HG0 & Hm0) _].
  destruct (He _ _ _ HG0) as [x HGx]. rewrite HGx in HG. injection HG as <- <-.
  apply (ak_grant _ _ _ Hak v args r Hin Hr) with b0 g0; try done.
  - destruct (G !! rva_Term args) as [[b1 g1]|] eqn:E; [|done]. destruct (He _ _ _ E) as [y Hy]. congruence.
  - by eapply all_carry_back.
Qed.

Lemma won_ok_step T' l :
  (T', l) ∈ cl_leaders c → (T', l) ∈ cl_leaders c' → (G !! T' = None → G' !! T' = None) → won_ok n G' c' T' l.
Proof.
  intros Hl Hl' HN b1 g1 HG1. pose proof (as_ghost _ _ _ _ _ _ _ _ Hst) as He.
  destruct (G !! T') as [[b' g']|] eqn:HG'; [|by rewrite HN in HG1]. clear HN.
  destruct (He _ _ _ HG') as [y HGy]. rewrite HGy in HG1. injection HG1 as <- <-.
  destruct (ak_won _ _ _ Hak T' l Hl b' g' HG') as (Hself & S & HS & Hmaj & Hvote). split.
  - intros T m Ha HT Hall. pose proof (leader_acks _ _ _ _ Hl' Ha HT) as Ha0.
    pose proof Ha0 as [(b0 & g0 & HG0 & Hm0) _].
    eapply carries_ext; [done..|]. apply Hself; [done..|]. by eapply all_carry_back.
  - exists S. split; [eapply voters_mono; [apply Hst|done]|]. split; [done|].
    intros v T m b g Hv Ha HT HG Hb Hall.
    assert (Hgv : granted_vote c' v T' l) by (apply (as_votes _ _ _ _ _ _ _ _ Hst), HS, Hv).
    pose proof (voter_acks _ _ _ _ _ Hgv Ha HT) as Ha0. pose proof Ha0 as [(b0 & g0 & HG0 & Hm0) _].
    destruct (He _ _ _ HG0) as [x HGx]. rewrite HGx in HG. injection HG as <- <-.
    rewrite (take_base G Hg _ _ _ _ HG'). eapply Hvote; [done..|]. by eapply all_carry_back.
Qed.

Lemma acks_inv_step : acks_inv n G' c'.
Proof.
  pose proof Hst as [He _ Hterm Hnew Hkept Hgr Hld]. split.
  - intros p nd1 T m Hp Ha. rewrite Hn in Hp. destruct (Hnew p T m Ha) as [Ha0|(-> & -> & _)].
    + apply lookup_insert_Some in Hp as [[<- <-]|[_ Hp]]; [|by eapply (ak_term _ _ _ Hak)].
      pose proof (ak_term _ _ _ Hak i nd T m Hi Ha0). lia.
    + rewrite lookup_insert_eq in Hp. by injection Hp as <-.
  - intros p nd1 T m b g Hp Ha HG Hall. rewrite Hn in Hp. destruct (Hnew p T m Ha) as [Ha0|(-> & -> & Hh)].
    + pose proof Ha0 as [(b0 & g0 & HG0 & Hm0) _]. destruct (He _ _ _ HG0) as [x HGx].
      rewrite HGx in HG. injection HG as <- <-. pose proof (all_carry_back G G' Hg He _ _ _ _ _ HG0 Hm0 Hall) as Hall0.
      apply has_ext. apply lookup_insert_Some in Hp as [[<- <-]|[_ Hp]]; [|by eapply (ak_log _ _ _ Hak)].
      eapply Hkept; [done..|]. eapply (ak_log _ _ _ Hak); [done..|]. intros T'' ?. apply Hall0. lia.
    + rewrite lookup_insert_eq in Hp. injection Hp as <-. by eapply Hh.
  - intros v args r Hin Hr. destruct (Hgr v args r Hin Hr) as [Hin0|?]; [by eapply grant_ok_step|done].
  - intros T l Hl. destruct (Hld T l Hl) as [[Hl0 HN]|?]; [by apply won_ok_step|done].
Qed.
End AcksStep.

(** ** The commit indices *)

(** A message that hands the entry at index [k] to the service. *)
Definition command_msg (k : nat) (e : Entry C) : ApplyMsg C :=
  {| CommandValid := true; msgCommand := eCommand e; CommandIndex := Z.of_nat k;
     SnapshotValid := false; msgSnapshot := []; SnapshotTerm := 0; SnapshotIndex := 0 |}.

Definition applied_ok (n : nat) G c (msg : ApplyMsg C) : Prop :=
  ∃ T b g m k e, G !! T = Some (b, g) ∧ committed n G c T m ∧ k < m ∧ g !! k = Some e ∧ msg = command_msg k e.

(** The leader's matchIndex is backed by acknowledgements. *)
Definition match_ok G c (i : Z) rf : Prop :=
  ∀ p x, (0 ≤ p)%Z → p ≠ i → matchIndex rf !! Z.to_nat p = Some x →
    x = 0%Z ∨ (0 ≤ x)%Z ∧ acked G c p (currentTerm rf) (S (Z.to_nat x)).

(** The entries of a leader's log that a request reaches. *)
Definition reach (args : AppendEntriesArgs C) : nat :=
  Z.to_nat (aea_PrevLogIndex args + 1 + zlen (aea_Entries args)).

(** The applier of a peer that never compacts. *)
Definition sending_ok (nd : Node (C := C)) : Prop :=
  (0 ≤ lastApplied (nd_raft nd))%Z ∧ ∀ msg, nd_sending nd = Some msg → SnapshotValid msg = false.

Record commit_inv (n : nat) G c : Prop := {
  cm_match : ∀ i nd, cl_nodes c !! i = Some nd → role (nd_raft nd) = LEADER → match_ok G c i (nd_raft nd);
  cm_node : ∀ i nd, cl_nodes c !! i = Some nd →
    commit_ok n G c (currentTerm (nd_raft nd)) (es (nd_raft nd)) (commitIndex (nd_raft nd));
  cm_msg : ∀ p args b g, (p, MsgAppendEntries args) ∈ cl_msgs c → G !! aea_Term args = Some (b, g) →
    commit_ok n G c (aea_Term args) (take (reach args) g) (aea_LeaderCommitIndex args);
  cm_sending : ∀ i nd, cl_nodes c !! i = Some nd → sending_ok nd;
  cm_applied : ∀ i msg, (i, msg) ∈ cl_applied c → applied_ok n G c msg;
}.

(** [c'] has the leaders and the replies of [c], and their logs. *)
Record grows G G' c c' : Prop := {
  gr_ghost : gext G G';
  gr_leaders : ∀ x, x ∈ cl_leaders c → x ∈ cl_leaders c';
  gr_replies : ∀ x, x ∈ cl_aereplies c → x ∈ cl_aereplies c';
}.

Section Grows.
Context (n : nat) (G G' : LeaderLogs) (c c' : Cluster (C := C)) (Hgr : grows G G' c c').

Lemma grows_acked p T m : acked G c p T m → acked G' c' p T m.
Proof. by apply acked_mono; apply Hgr. Qed.

Lemma grows_committed T m : committed n G c T m → committed n G' c' T m.
Proof.
  intros (b & g & HG & Hm & Hq). destruct (gr_ghost _ _ _ _ Hgr _ _ _ HG) as [x HG'].
  exists b, (g ++ x). split; [done|]. split; [rewrite length_app; lia|].
  destruct Hq as [(Hb & Q & ? & HQ & ?)|Hq]; [left|right].
  - split; [done|]. exists Q. split_and!; [done| |done].
    intros p Hp. destruct (HQ p Hp). split; [done|by apply grows_acked].
  - intros p Hp. by apply grows_acked, Hq.
Qed.

Lemma grows_commit T T' l l' k :
  (T ≤ T')%Z →
  (∀ T0 b g m j, (T0 ≤ T)%Z → G !! T0 = Some (b, g) → committed n G c T0 m → j ≤ m → has l g j → has l' g j) →
  commit_ok n G c T l k → commit_ok n G' c' T' l' k.
Proof.
  intros HT Hkeep [->|(T0 & b & g & m & HT0 & HG & Hc & Hk & Hh)]; [by left|right].
  destruct (gr_ghost _ _ _ _ Hgr _ _ _ HG) as [x HG']. exists T0, b, (g ++ x), m.
  split_and!; [lia|done|by apply grows_committed|lia|lia|]. apply has_ext. eapply Hkeep; [done..|lia|done].
Qed.

Lemma grows_applied msg : applied_ok n G c msg → applied_ok n G' c' msg.
Proof.
  intros (T & b & g & m & k & e & HG & Hc & Hk & He & ->).
  destruct (gr_ghost _ _ _ _ Hgr _ _ _ HG) as [x HG'].
  exists T, b, (g ++ x), m, k, e. split_and!; [done|by apply grows_committed|done|by apply lookup_app_l_Some|done].
Qed.

Lemma grows_match i rf : match_ok G c i rf → match_ok G' c' i rf.
Proof.
  intros H p x Hp Hpi Hx. destruct (H p x Hp Hpi Hx) as [?|[? ?]]; [by left|right].
  split; [done|by apply grows_acked].
Qed.
End Grows.

(** A request reaches no further than its leader's log. *)
Lemma reach_le G c p args :
  lm_inv G c → (p, MsgAppendEntries args) ∈ cl_msgs c →
  ∃ b g, G !! aea_Term args = Some (b, g) ∧ reach args ≤ length g.
Proof.
  intros Hlm Hin. destruct (lm_msg _ _ Hlm _ _ Hin) as (args' & b & g & k & m & [= <-] & Hat).
  destruct Hat as ([HG Hprev Hkm Hm _ Hes] & _). exists b, g. split; [done|].
  unfold reach, zlen. rewrite Hprev, Hes, length_take, length_drop. lia.
Qed.

Lemma commit_inv_step n G G' c c' i nd' :
  commit_inv n G c → lm_inv G c → grows G G' c c' →
  cl_nodes c' = <[i := nd']> (cl_nodes c) →
  (role (nd_raft nd') = LEADER → match_ok G' c' i (nd_raft nd')) →
  commit_ok n G' c' (currentTerm (nd_raft nd')) (es (nd_raft nd')) (commitIndex (nd_raft nd')) →
  (∀ p args b g, (p, MsgAppendEntries args) ∈ cl_msgs c' → G' !! aea_Term args = Some (b, g) →
     (p, MsgAppendEntries args) ∈ cl_msgs c ∨
     commit_ok n G' c' (aea_Term args) (take (reach args) g) (aea_LeaderCommitIndex args)) →
  sending_ok nd' →
  (∀ j msg, (j, msg) ∈ cl_applied c' → (j, msg) ∈ cl_applied c ∨ applied_ok n G' c' msg) →
  commit_inv n G' c'.
Proof.
  intros [C1 C2 C3 C4 C5] Hlm Hgr Hn Hmatch Hcom Hmsg Hsend Happ.
  split; try (intros j nd1 Hj; rewrite Hn in Hj; apply lookup_insert_Some in Hj as [[<- <-]|[_ Hj]]; [done|]).
  - intros Hr. eapply grows_match; [done|]. by apply C1.
  - eapply grows_commit; [done|done|by auto|by apply (C2 j)].
  - intros p args b g Hin HG'. destruct (Hmsg p args b g Hin HG') as [Hin0|?]; [|done].
    destruct (reach_le G c p args Hlm Hin0) as (b0 & g0 & HG & Hlen).
    destruct (gr_ghost _ _ _ _ Hgr _ _ _ HG) as [x HGx]. rewrite HGx in HG'. injection HG' as <- <-.
    rewrite take_app_le by done. eapply grows_commit; [done|done|by auto|by eapply C3].
  - by apply (C4 j).
  - intros j msg Hin. destruct (Happ j msg Hin); [|done]. eapply grows_applied; [done|by eapply C5].
Qed.

(** ** All invariants together *)

Record safe (n : nat) G c : Prop := {
  sf_inv : cluster_inv n c;
  sf_cand : ∀ i nd, cl_nodes c !! i = Some nd → cand_ok (nd_raft nd);
  sf_lm : lm_inv G c;
  sf_elect : elect_inv G c;
  sf_acks : acks_inv n G c;
  sf_commit : commit_inv n G c;
}.

Definition base_inv (n : nat) G c : Prop :=
  cluster_inv n c ∧ (∀ i nd, cl_nodes c !! i = Some nd → cand_ok (nd_raft nd)) ∧ lm_inv G c.

(** A peer that is a candidate after the step was one before, in the same
    term and with the same log. *)
Definition cand_same rf rf' : Prop :=
  role rf' = CANDIDATE → role rf = CANDIDATE ∧ currentTerm rf' = currentTerm rf ∧ log rf' = log rf.

Lemma elect_step G G' c c' i nd nd' :
  elect_inv G c → cl_nodes c !! i = Some nd → cl_nodes c' = <[i := nd']> (cl_nodes c) →
  (∀ T b g k e, G' !! T = Some (b, g) → k < b → g !! k = Some e → (eTerm e < T)%Z) →
  cand_same (nd_raft nd) (nd_raft nd') → (currentTerm (nd_raft nd) ≤ currentTerm (nd_raft nd'))%Z →
  cl_requests c' = cl_requests c →
  (∀ v args r, (v, args, r) ∈ cl_votes c' → (v, args, r) ∈ cl_votes c ∨ (v, args) ∈ cl_requests c) →
  elect_inv G' c'.
Proof.
  intros [E1 E2 E3 E4] Hi Hn Hbase Hcs Hle Hreq Hv. split; [done|..].
  - intros j nd1 e Hj. rewrite Hn in Hj. apply lookup_insert_Some in Hj as [[<- <-]|[_ Hj]]; [|by apply (E2 j)].
    intros Hr He. destruct (Hcs Hr) as (Hr0 & Ht & Hl). rewrite Ht. rewrite Hl in He. by apply (E2 i nd).
  - intros p args nd1 Hin Hj. rewrite Hreq in Hin. rewrite Hn in Hj.
    apply lookup_insert_Some in Hj as [[Heq <-]|[_ Hj]]; [|by apply (E3 p)].
    rewrite Heq in Hi. destruct (E3 p args nd Hin Hi) as [Hle0 Hd]. split; [lia|].
    intros Ht Hr. destruct (Hcs Hr) as (Hr0 & Ht0 & Hl). rewrite Hl. apply Hd; [congruence|done].
  - intros v args r Hin. rewrite Hreq. destruct (Hv v args r Hin); [by eapply E4|done].
Qed.

Lemma grows_refl G c c' : cl_leaders c' = cl_leaders c → cl_aereplies c' = cl_aereplies c → grows G G c c'.
Proof. intros Hl Hr. split; [apply gext_refl|by rewrite Hl|by rewrite Hr]. Qed.

Lemma acked_same G c c' p T m :
  cl_leaders c' = cl_leaders c → cl_aereplies c' = cl_aereplies c → acked G c' p T m → acked G c p T m.
Proof. unfold acked. by intros -> ->. Qed.

Lemma acks_same n G c c' i nd nd' :
  ghost_ok G → acks_inv n G c → cluster_inv n c' → cl_nodes c !! i = Some nd → cl_nodes c' = <[i := nd']> (cl_nodes c) →
  log (nd_raft nd') = log (nd_raft nd) → (currentTerm (nd_raft nd) ≤ currentTerm (nd_raft nd'))%Z →
  cl_leaders c' = cl_leaders c → cl_aereplies c' = cl_aereplies c → more_votes c c' →
  (∀ v args r, (v, args, r) ∈ cl_votes c' → rvr_VoteGranted r = true →
     (v, args, r) ∈ cl_votes c ∨ grant_ok G c' v args) →
  acks_inv n G c'.
Proof.
  intros Hg Hak Hinv' Hi Hn Hlog Hterm Hl Hr Hmv Hv.
  eapply (acks_inv_step n G G c c' i nd nd'); [done..|]. split; [apply gext_refl|done|done|..].
  - intros p T m Hack. left. by eapply acked_same.
  - intros T m b g _ _ _. by rewrite Hlog.
  - done.
  - intros T l Hin. left. rewrite <-Hl. by split.
Qed.

(** A step that leaves the log and the leader's knowledge of its peers
    alone. *)
Lemma safe_quiet n G c c' i nd nd' :
  safe n G c → base_inv n G c' → elect_inv G c' →
  cl_nodes c !! i = Some nd → cl_nodes c' = <[i := nd']> (cl_nodes c) →
  quiet (nd_raft nd) (nd_raft nd') →
  commitIndex (nd_raft nd') = commitIndex (nd_raft nd) ∨
  commit_ok n G c (currentTerm (nd_raft nd)) (es (nd_raft nd)) (commitIndex (nd_raft nd')) →
  cl_leaders c' = cl_leaders c → cl_aereplies c' = cl_aereplies c → more_votes c c' →
  (∀ v args r, (v, args, r) ∈ cl_votes c' → rvr_VoteGranted r = true →
     (v, args, r) ∈ cl_votes c ∨ grant_ok G c' v args) →
  (∀ p args, (p, MsgAppendEntries args) ∈ cl_msgs c' → (p, MsgAppendEntries args) ∈ cl_msgs c ∨
     ∀ b g, G !! aea_Term args = Some (b, g) →
       commit_ok n G c' (aea_Term args) (take (reach args) g) (aea_LeaderCommitIndex args)) →
  sending_ok nd' →
  (∀ j msg, (j, msg) ∈ cl_applied c' → (j, msg) ∈ cl_applied c ∨ applied_ok n G c' msg) →
  safe n G c'.
Proof.
  intros [S1 S2 S3 S4 S5 S6] (I1 & I2 & I3) I4 Hi Hn (Hlog & _ & Hterm & Hlead) Hci Hl Hr Hmv Hv Hm Hsd Ha.
  pose proof (grows_refl G c c' Hl Hr) as Hgr. split; [done|done|done|done|..].
  - by eapply (acks_same n G c c' i nd nd'); [apply S3|..].
  - eapply (commit_inv_step n G G c c' i nd'); [done..| | | |done|done].
    + intros Hrole. destruct (Hlead Hrole) as (Hr0 & Ht & _ & Hmx).
      intros p x. unfold match_ok. rewrite Hmx, Ht. by eapply grows_match, S6.
    + rewrite Hlog. eapply grows_commit; [done|exact Hterm|by auto|].
      destruct Hci as [->|Hci]; [by apply (cm_node _ _ _ S6 i nd)|done].
    + intros p args b g Hin HG. destruct (Hm p args Hin); [by left|right; eauto].
Qed.

(** ** Elections *)

Lemma term_sorted_lookup (l : list (Entry C)) j k x y :
  term_sorted l → j ≤ k → l !! j = Some x → l !! k = Some y → (eTerm x ≤ eTerm y)%Z.
Proof.
  intros Hs Hjk Hj Hk. destruct (decide (j = k)) as [->|]; [assert (x = y) by congruence; by subst|].
  rewrite <-(take_drop k l) in Hs. apply (term_sorted_app_le _ _ x y Hs).
  - apply list_elem_of_lookup. exists j. by rewrite lookup_take_lt by lia.
  - apply list_elem_of_lookup. exists 0. by rewrite lookup_drop, Nat.add_0_r.
Qed.

Lemma RequestVote_frame rf args now rf' reply :
  RequestVote rf args now = Ok (rf', reply) →
  commitIndex rf' = commitIndex rf ∧ cand_same rf rf' ∧
  (rvr_VoteGranted reply = true → (currentTerm rf ≤ rva_Term args)%Z ∧
     ∃ le, lastEntry (log rf) = Ok le ∧
       log_at_least (rva_LastLogTerm args) (rva_LastLogIndex args) (eTerm le) (lastIndex (log rf))).
Proof.
  intros H. unfold RequestVote in H. case_bool_decide as Hold; [injection H as <- <-; by split_and!|].
  set (rf1 := if bool_decide _ then _ else rf) in H.
  assert (Hf : log rf1 = log rf ∧ commitIndex rf1 = commitIndex rf ∧ cand_same rf rf1).
  { clear H. unfold rf1. case_bool_decide; by split_and!. }
  clearbody rf1. destruct Hf as (Hl & Hc & Hs). destruct (_ || _); [|injection H as <- <-; by split_and!].
  rewrite Hl in H. destruct (lastEntry (log rf)) as [le|] eqn:E; [|done]. res_simpl.
  destruct (upToDate _ _ _) eqn:Eu; injection H as <- <-; split_and!; try done.
  intros _. split; [lia|]. exists le. split; [done|]. by apply upToDate_spec.
Qed.

(** The last entry of an uncompacted log. *)
Lemma lastEntry_last rf le :
  raft_wf rf → snapshotIndex rf = 0%Z → lastEntry (log rf) = Ok le →
  es rf !! (length (es rf) - 1) = Some le ∧ last (es rf) = Some le ∧ 1 ≤ length (es rf).
Proof.
  intros Hwf H0 H. unfold lastEntry in H. rewrite (lastIndex_length _ Hwf H0) in H.
  assert (1 ≤ length (es rf)).
  { pose proof (wf_log _ Hwf) as Hne. unfold log_wf in Hne. destruct (es rf); [done|simpl; lia]. }
  replace (Z.of_nat (length (es rf)) - 1)%Z with (Z.of_nat (length (es rf) - 1)) in H by lia.
  apply entry_uncompacted in H; [|by rewrite (wf_base _ Hwf)]. split; [done|]. split; [|done].
  rewrite last_lookup. by replace (Nat.pred (length (es rf))) with (length (es rf) - 1) by lia.
Qed.

Section Cases.
Context (n : nat) (G : LeaderLogs) (c : Cluster (C := C)) (i : Z) (nd : Node (C := C)).
Context (Hs : safe n G c) (Hi : cl_nodes c !! i = Some nd).

Lemma cases_wf : raft_wf (nd_raft nd).
Proof. apply (ci_nodes _ _ (sf_inv _ _ _ Hs) i nd Hi). Qed.

Lemma cases_snap : snapshotIndex (nd_raft nd) = 0%Z.
Proof. by eapply pl_snap, lm_peer, Hi; apply Hs. Qed.

(** A new vote. *)
Lemma grant_new c' args le :
  cl_leaders c' = cl_leaders c → cl_aereplies c' = cl_aereplies c →
  (currentTerm (nd_raft nd) ≤ rva_Term args)%Z → lastEntry (log (nd_raft nd)) = Ok le →
  log_at_least (rva_LastLogTerm args) (rva_LastLogIndex args) (eTerm le) (lastIndex (log (nd_raft nd))) →
  grant_ok G c' i args.
Proof.
  intros Hl Hr Hterm Hle Hup HN T m b g Ha%(acked_same _ c); [|done..]. intros HT HG Hb Hall.
  pose proof (sf_lm _ _ _ Hs) as Hlm. pose proof (lm_ghost _ _ Hlm) as Hg.
  destruct (lastEntry_last _ _ cases_wf cases_snap Hle) as (Hlast & _ & Hlen).
  rewrite (lastIndex_length _ cases_wf cases_snap) in Hup.
  assert (Hh : has (es (nd_raft nd)) g m).
  { eapply (ak_log _ _ _ (sf_acks _ _ _ Hs) i); [done..|]. intros T'' HT''.
    destruct (decide (T'' < rva_Term args)%Z); [by apply Hall; lia|].
    replace T'' with (rva_Term args) by lia. intros ? ? ? ? _ ?. congruence. }
  pose proof Hh as (Hml & Hmg & _). destruct (lookup_lt_is_Some_2 g (m - 1)) as [e He]; [lia|].
  destruct (go_terms _ Hg T b g (m - 1) e HG He) as [_ HeT]. specialize (HeT ltac:(lia)).
  assert (eTerm e ≤ eTerm le)%Z.
  { eapply (term_sorted_lookup (es (nd_raft nd)) (m - 1)); [|..|by rewrite (has_lookup _ _ _ _ Hh) by lia|done]; [|lia].
    eapply from_leader_sorted; [done|]. by eapply pl_log, lm_peer. }
  unfold log_at_least, args_newer in *. lia.
Qed.

Lemma sending_same rf' ths : lastApplied rf' = lastApplied (nd_raft nd) → sending_ok (mkNode rf' ths (nd_sending nd)).
Proof. intros Ha. destruct (cm_sending _ _ _ (sf_commit _ _ _ Hs) i nd Hi). split; [simpl; by rewrite Ha|done]. Qed.

(** Nothing but the node of [i] changes. *)
Lemma safe_local c' nd' :
  base_inv n G c' → cl_nodes c' = <[i := nd']> (cl_nodes c) →
  quiet (nd_raft nd) (nd_raft nd') → cand_same (nd_raft nd) (nd_raft nd') →
  commitIndex (nd_raft nd') = commitIndex (nd_raft nd) ∨
  commit_ok n G c (currentTerm (nd_raft nd)) (es (nd_raft nd)) (commitIndex (nd_raft nd')) →
  cl_requests c' = cl_requests c → cl_votes c' = cl_votes c → cl_msgs c' = cl_msgs c →
  cl_aereplies c' = cl_aereplies c → cl_leaders c' = cl_leaders c → cl_applied c' = cl_applied c →
  sending_ok nd' → safe n G c'.
Proof.
  intros Hb Hn Hq Hcs Hci Hrq Hv Hm Har Hl Ha Hsd.
  eapply (safe_quiet n G c c' i nd nd'); try done; [|by intros ? ? ? ?%(granted_vote_ext c c')|rewrite ?Hv, ?Hm, ?Ha; by left..].
  eapply (elect_step G G c c' i nd nd'); try done; [apply Hs|apply Hs|apply Hq|rewrite Hv; by left].
Qed.

Lemma safe_RequestVote args now rf' reply (c' := add_vote (i, args, reply) (set_raft c i nd rf')) :
  base_inv n G c' → (i, args) ∈ cl_requests c → RequestVote (nd_raft nd) args now = Ok (rf', reply) → safe n G c'.
Proof.
  intros Hb Hin H. pose proof (quiet_RequestVote _ _ _ _ _ H) as Hq.
  destruct (RequestVote_frame _ _ _ _ _ H) as (Hci & Hcs & Hgr).
  destruct (RequestVote_ok (nd_raft nd) args now rf' reply) as [Hok _]; [apply cases_wf| |done|].
  { rewrite (ni_me _ _ _ _ (ci_nodes _ _ (sf_inv _ _ _ Hs) i nd Hi)). by apply (ci_requests _ _ (sf_inv _ _ _ Hs) i). }
  pose proof (so_lastApplied _ _ _ Hok) as Hla.
  eapply (safe_quiet n G c c' i nd); [done|done| |done|done|done|by left|done|done|..|by left|by apply sending_same|by left].
  - eapply (elect_step G G c c' i nd); [apply Hs|done|done|apply Hs|done|apply Hq|done|].
    intros v a r [[= -> -> ->]|?]%elem_of_cons; [by right|by left].
  - intros v T l Hv. apply vote_added. left. by rewrite (granted_vote_ext c).
  - intros v a r [[= -> -> ->]|?]%elem_of_cons Hr; [right|by left].
    destruct (Hgr Hr) as (Hle & le & Hlast & Hup). by eapply grant_new.
Qed.

Lemma election_frame rf now1 now2 now3 rf' args :
  raft_wf rf → snapshotIndex rf = 0%Z → leaderElection_start rf now1 now2 now3 = Ok (rf', Some args) →
  commitIndex rf' = commitIndex rf ∧ log rf' = log rf ∧ currentTerm rf' = (currentTerm rf + 1)%Z ∧
  rva_Term args = currentTerm rf' ∧ rva_CandidateId args = me rf ∧ describes args (es rf).
Proof.
  intros Hwf H0 H. unfold leaderElection_start in H. set (rf1 := if _ && _ then _ else rf) in H.
  assert (Hf : log rf1 = log rf ∧ commitIndex rf1 = commitIndex rf ∧ currentTerm rf1 = currentTerm rf ∧ me rf1 = me rf).
  { unfold rf1. by destruct (_ && _). }
  clearbody rf1. destruct Hf as (Hl & Hc & Ht & Hm). destruct (_ && _); [|done]. simpl in H. rewrite Hl in H.
  destruct (lastEntry (log rf)) as [le|] eqn:E; [|done]. res_simpl. injection H as <- <-. simpl.
  destruct (lastEntry_last _ _ Hwf H0 E) as (_ & Hlast & _). split_and!; [done|done|lia|done|done|].
  exists le. split; [done|]. split; [done|]. simpl. by apply lastIndex_length.
Qed.

Lemma safe_election now1 now2 now3 rf' args th
  (c' := add_requests ((λ p, (p, args)) <$> votePeers rf')
           (set_node c i (mkNode rf' (th :: nd_threads nd) (nd_sending nd)))) :
  base_inv n G c' → (now1 ≤ now2)%Z →
  leaderElection_start (nd_raft nd) now1 now2 now3 = Ok (rf', Some args) → safe n G c'.
Proof.
  intros Hb Hnow H. pose proof (quiet_election _ _ _ _ _ _ H) as Hq.
  destruct (election_frame _ _ _ _ _ _ cases_wf cases_snap H) as (Hci & Hlog & Hterm & HT & Hcand & Hd).
  destruct (electionStart_ok _ _ _ _ _ _ cases_wf Hnow H) as [Hok _]. pose proof (so_lastApplied _ _ _ Hok) as Hla.
  pose proof (ni_me _ _ _ _ (ci_nodes _ _ (sf_inv _ _ _ Hs) i nd Hi)) as Hme.
  eapply (safe_quiet n G c c' i nd);
    [done|done| |done|done|done|by left|done|done|by intros ? ? ? Hx|by left|by left|by apply sending_same|by left].
  pose proof (sf_elect _ _ _ Hs) as [E1 E2 E3 E4]. split; [done|..].
  - intros j nd1 e Hj. apply (lookup_insert_Some (cl_nodes c)) in Hj as [[<- <-]|[_ Hj]]; [|by apply (E2 j)]. simpl.
    intros _ He. rewrite Hlog in He. pose proof (pl_terms _ _ (lm_peer _ _ (sf_lm _ _ _ Hs) i nd Hi) e He). lia.
  - intros p a nd1 Hin Hj. apply elem_of_app in Hin as [Hin|Hin].
    + apply list_elem_of_fmap in Hin as (q & [= -> ->] & _). rewrite Hcand, Hme in Hj.
      change (<[i := mkNode rf' (th :: nd_threads nd) (nd_sending nd)]> (cl_nodes c) !! i = Some nd1) in Hj. rewrite lookup_insert_eq in Hj. injection Hj as <-. simpl. rewrite Hlog. split; [lia|done].
    + apply (lookup_insert_Some (cl_nodes c)) in Hj as [[Heq <-]|[_ Hj]]; [|by apply (E3 p)].
      rewrite Heq in Hi. destruct (E3 p a nd Hin Hi) as [? _]. simpl. split; lia.
  - intros v a r Hin. apply elem_of_app. right. by apply (E4 v a r).
Qed.

(** *** The leader sends *)

Lemma heartbeat_frame rf notified rf' msgs more :
  leaderHeartbeats_iter rf notified = Ok (rf', msgs, more) →
  quiet rf rf' ∧ cand_same rf rf' ∧ commitIndex rf' = commitIndex rf ∧ lastApplied rf' = lastApplied rf ∧
  log rf' = log rf ∧ currentTerm rf' = currentTerm rf ∧ role rf' = role rf ∧
  ∀ p msg, (p, msg) ∈ msgs → role rf = LEADER ∧ replicateTo rf' p = Ok msg.
Proof.
  intros H. unfold leaderHeartbeats_iter in H.
  destruct (Killed rf); [injection H as <- <- <-; split_and!; try done; by intros ? ? ?%elem_of_nil|].
  set (rf1 := if notified then _ else _) in H.
  assert (Hf : quiet rf rf1 ∧ cand_same rf rf1 ∧ commitIndex rf1 = commitIndex rf ∧ lastApplied rf1 = lastApplied rf ∧
    log rf1 = log rf ∧ currentTerm rf1 = currentTerm rf ∧ role rf1 = role rf).
  { unfold rf1. destruct notified; by split_and!. }
  clearbody rf1. destruct Hf as (? & ? & ? & ? & ? & ? & Hr). case_bool_decide as Hld.
  2:{ injection H as <- <- <-. split_and!; try done. by intros ? ? ?%elem_of_nil. }
  destruct (leaderLogReplication rf1) as [ms|] eqn:E; [|done]. res_simpl. injection H as <- <- <-.
  split_and!; try done. intros p msg Hin. destruct (replicateToAll_in _ _ _ _ _ E Hin). split; [congruence|done].
Qed.

Lemma replicateTo_commit rf p args :
  index0 (log rf) = 0%Z → replicateTo rf p = Ok (MsgAppendEntries args) →
  aea_Term args = currentTerm rf ∧ aea_LeaderCommitIndex args = commitIndex rf ∧ reach args = length (es rf).
Proof.
  intros H0 H. unfold replicateTo in H. destruct (idx (nextIndex rf) p) as [nx|]; [|done]. res_simpl.
  destruct (idx (matchIndex rf) p) as [mx|]; [|done]. res_simpl. destruct (Assert _); [|done]. res_simpl.
  case_bool_decide; [done|]. destruct (entry _ _); [|done]. res_simpl. unfold slice in H.
  destruct (slice_from _ _) as [sl|] eqn:Es; [|done]. res_simpl. injection H as <-.
  apply slice_from_Ok in Es as [Hr ->]. split_and!; [done|done|]. unfold reach, zlen in *. simpl in *.
  rewrite length_drop. lia.
Qed.

Lemma safe_heartbeat notified rf' msgs more (c' := add_msgs msgs (set_raft c i nd rf')) :
  base_inv n G c' → leaderHeartbeats_iter (nd_raft nd) notified = Ok (rf', msgs, more) → safe n G c'.
Proof.
  intros Hb H. destruct (heartbeat_frame _ _ _ _ _ H) as (Hq & Hcs & Hci & Hla & Hlog & Ht & Hrole & Hmsgs).
  eapply (safe_quiet n G c c' i nd);
    [done|done| |done|done|done|by left|done|done|by intros ? ? ? Hx|by left| |by apply sending_same|by left].
  { eapply (elect_step G G c c' i nd); [apply Hs|done|done|apply Hs|done|apply Hq|done|by left]. }
  intros p args [Hin|?]%elem_of_app; [right|by left]. destruct (Hmsgs _ _ Hin) as [Hr Hto].
  apply replicateTo_commit in Hto as (Ha & Hc & Hreach).
  2:{ rewrite Hlog, (wf_base _ cases_wf). apply cases_snap. }
  destruct (lm_leader _ _ (sf_lm _ _ _ Hs) i nd Hi Hr) as [b [_ HG _ _]].
  intros b1 g1 HG1. rewrite Ha, Ht, HG in HG1. injection HG1 as <- <-.
  rewrite Ha, Hc, Hreach, Hlog, firstn_all, Ht, Hci.
  eapply grows_commit; [by apply grows_refl|done|by auto|by apply (cm_node _ _ _ (sf_commit _ _ _ Hs) i nd)].
Qed.

(** *** A candidate wins *)

Lemma describes_newer args l T m : describes args l → args_newer args T m → newer l T m.
Proof. intros (e & He & Ht & Hi') [?|[? ?]]; exists e; (split; [done|]); [left|right]; lia. Qed.

Section Win.
Context (ths : list Thread) (S : list Z).
Context (T : Z) (l : list (Entry C)) (HT : T = currentTerm (nd_raft nd)) (Hl : l = es (nd_raft nd)).
Context (c' : Cluster (C := C)) (G' : LeaderLogs).
Context (Hc' : c' = add_leader (T, i) (set_node c i (mkNode (becomeLeader (nd_raft nd)) ths (nd_sending nd)))).
Context (HG' : G' = <[T := (length l, l)]> G) (HGT : G !! T = None).
Context (Hb : base_inv n G' c') (Hr : role (nd_raft nd) = CANDIDATE).
Context (HS : voters c n T i S) (HSm : (majority n ≤ Z.of_nat (length S) + 1)%Z).

Lemma win_ghost : gext G G'.
Proof.
  intros T0 b g HG. exists []. rewrite app_nil_r, HG', lookup_insert_ne; [done|congruence].
Qed.

Lemma win_old T0 : T0 ≠ T → G' !! T0 = G !! T0.
Proof. intros Hne. rewrite HG'. by rewrite lookup_insert_ne. Qed.

(** The term had no leader. *)
Lemma win_leaders l' : (T, l') ∈ cl_leaders c → False.
Proof.
  intros Hin. assert (l' = i) as ->.
  { eapply (unique_leader n c' T); [apply Hb|rewrite Hc'; by right|rewrite Hc'; by left]. }
  destruct (ni_won _ _ _ _ (ci_nodes _ _ (sf_inv _ _ _ Hs) i nd Hi) T Hin) as [?|(_ & _ & ?)]; [lia|done].
Qed.

Lemma win_acked p T0 m : acked G' c' p T0 m → acked G c p T0 m ∨ p = i ∧ T0 = T ∧ m ≤ length l.
Proof.
  intros [(b & g & HG & Hm) Ha]. rewrite Hc' in Ha.
  assert (Hold : T0 ≠ T → (∃ b g, G !! T0 = Some (b, g) ∧ m ≤ length g)).
  { intros Hne. rewrite win_old in HG by done. by exists b, g. }
  destruct Ha as [[[= -> ->]|Hin]%elem_of_cons|(args & reply & Hin & Hsu & Ht & Hle)].
  - right. rewrite HG', lookup_insert_eq in HG. injection HG as <- <-. done.
  - left. split; [|by left]. apply Hold. intros ->. by eapply win_leaders.
  - left. split; [|right; by exists args, reply]. apply Hold. intros ->.
    destruct (lm_rep _ _ (sf_lm _ _ _ Hs) _ _ _ Hin) as (b1 & g1 & k1 & m1 & ([HGr _ _ _ _ _] & _) & _). congruence.
Qed.

Lemma win_carry T0 m b g : G !! T0 = Some (b, g) → m ≤ length g → all_carry G' T0 m T → all_carry G T0 m (T + 1).
Proof.
  intros HG Hm Hall T'' HT''. destruct (decide (T'' = T)) as [->|]; [intros ? ? ? ? _ ?; congruence|].
  eapply (carries_back G G'); [apply (sf_lm _ _ _ Hs)|apply win_ghost|done..|]. apply Hall. lia.
Qed.

Lemma win_ok : won_ok n G' c' T i.
Proof.
  intros b' g' HGn. rewrite HG', lookup_insert_eq in HGn. injection HGn as <- <-.
  rewrite firstn_all. pose proof (sf_acks _ _ _ Hs) as Hak. split.
  - intros T0 m Ha HT0 Hall b g b' g' HG0 HGn. rewrite HG', lookup_insert_eq in HGn. injection HGn as <- <-.
    rewrite firstn_all. apply win_acked in Ha as [Ha|(_ & -> & _)]; [|lia]. rewrite win_old in HG0 by lia.
    pose proof Ha as [(b1 & g1 & HG1 & Hm) _]. rewrite HG0 in HG1. injection HG1 as <- <-.
    rewrite Hl. eapply (ak_log _ _ _ Hak i); [done..|]. rewrite <-HT. by eapply win_carry.
  - exists S. split; [by rewrite Hc'|]. split; [done|]. intros v T0 m b g Hv Ha HT0 HG0 Hbm Hall.
    apply win_acked in Ha as [Ha|(_ & -> & _)]; [|lia]. rewrite win_old in HG0 by lia.
    pose proof Ha as [(b1 & g1 & HG1 & Hm) _]. rewrite HG0 in HG1. injection HG1 as <- <-.
    destruct HS as [_ HS']. destruct (HS' v Hv) as (_ & _ & args & r & Hin & Hgr & Hta & Hca).
    destruct (ei_request _ _ (sf_elect _ _ _ Hs) v args nd) as [_ Hd].
    { by eapply ei_vote, Hin; apply Hs. }
    { by rewrite Hca. }
    rewrite Hl. apply (describes_newer args); [apply Hd; congruence|].
    apply (ak_grant _ _ _ Hak v args r Hin Hgr) with b g; rewrite ?Hta; try done.
    intros T'' ?. eapply (win_carry T0 m); [done..|]. lia.
Qed.

Lemma safe_win : safe n G' c'.
Proof.
  pose proof Hb as (I1 & I2 & I3). pose proof Hs as [S1 S2 S3 S4 S5 S6].
  set (nd' := mkNode (becomeLeader (nd_raft nd)) ths (nd_sending nd)).
  assert (Hn : cl_nodes c' = <[i := nd']> (cl_nodes c)) by (by rewrite Hc').
  assert (Hgr : grows G G' c c') by (split; [apply win_ghost|rewrite Hc'; by right|by rewrite Hc']).
  split; [done|done|done|..].
  - eapply (elect_step G G' c c' i nd nd'); [done|done|done| |done|done|by rewrite Hc'|rewrite Hc'; by left].
    intros T0 b g k e. rewrite HG'. intros [[<- [= <- <-]]|[_ HG0]]%lookup_insert_Some Hk He; [|by eapply (ei_base _ _ S4)].
    rewrite HT. apply (ei_cand _ _ S4 i nd e Hi Hr). rewrite <-Hl. by eapply list_elem_of_lookup_2.
  - eapply (acks_inv_step n G G' c c' i nd nd'); [apply S3|done..|]. split; try done.
    + apply win_ghost.
    + rewrite Hc'. by intros ? ? ? Hx.
    + intros p T0 m Ha. apply win_acked in Ha as [Ha|(-> & -> & Hm)]; [by left|right]. split; [done|]. split; [done|].
      intros b g HG0. rewrite HG', lookup_insert_eq in HG0. injection HG0 as <- <-. simpl. rewrite <-Hl. by split_and!.
    + rewrite Hc'. by left.
    + intros T0 l0 Hin. rewrite Hc' in Hin. apply elem_of_cons in Hin as [[= -> ->]|Hin]; [right; apply win_ok|left].
      split; [done|]. intros HN. rewrite win_old; [done|]. intros ->. by eapply win_leaders.
  - eapply (commit_inv_step n G G' c c' i nd'); try done.
    + intros _ p x _ _ [-> _]%lookup_replicate. by left.
    + eapply grows_commit; [done|done|by auto|by apply (cm_node _ _ _ S6 i nd)].
    + intros p args b g Hin _. rewrite Hc' in Hin. by left.
    + by apply sending_same.
    + rewrite Hc'. by left.
Qed.
End Win.

(** *** A follower appends *)

Lemma AppendEntries_frame rf args now rf' reply :
  raft_wf rf → snapshotIndex rf = 0%Z → (0 ≤ aea_PrevLogIndex args)%Z →
  AppendEntries rf args now = Ok (rf', reply) →
  (role rf' = CANDIDATE → rf' = rf) ∧
  (commitIndex rf' = commitIndex rf ∨
   aer_Success reply = true ∧ commitIndex rf' = Min (aea_LeaderCommitIndex args) (lastIndex (log rf'))).
Proof.
  intros Hwf H0 Hprev H. unfold AppendEntries in H. case_bool_decide as Hold; [injection H as <- <-; auto|].
  destruct (heardLeader_frame rf (aea_Term args) (aea_LeaderId args) now) as (Hl & Hsi & _ & Hci & _).
  assert (Hnc : role (heardLeader rf (aea_Term args) (aea_LeaderId args) now) ≠ CANDIDATE).
  { unfold heardLeader. simpl. destruct (_ || _) eqn:E; [done|].
    apply orb_false_iff in E as [_ E%bool_decide_eq_false]. done. }
  set (rf1 := heardLeader _ _ _ _) in *. clearbody rf1.
  case_bool_decide as Hshort.
  { destruct (lastEntry _); [|done]. res_simpl. injection H as <- <-. split; [done|by left]. }
  rewrite (bool_decide_false (_ < snapshotIndex rf1)%Z) in H by lia.
  destruct (entry _ _) as [e|]; [|done]. res_simpl. case_bool_decide.
  { destruct (cutOffTail _ _) as [x|]; [|done]. res_simpl. injection H as <- <-. split; [done|by left]. }
  destruct (place _ _ _) as [l'|]; [|done]. res_simpl. injection H as <- <-.
  unfold followerCommit. case_bool_decide; (split; [done|]); [by right|by left].
Qed.

(** A log that follows the leader of [T'] keeps what that leader carries. *)
Lemma follow_keeps T b g m j T' b' g' (l l' : list (Entry C)) :
  ghost_ok G → G !! T = Some (b, g) → G !! T' = Some (b', g') →
  T = T' ∨ carries G T m T' → j ≤ m → (∀ k, has l g' k → has l' g' k) → has l g j → has l' g j.
Proof.
  intros Hg HG HG' Hc Hj Hf Hh. assert (Hgg : has g' g j).
  { destruct Hc as [->|Hc].
    - rewrite HG in HG'. injection HG' as <- <-. destruct Hh as (_ & ? & _). by split_and!.
    - pose proof (has_le _ _ _ j (Hc b g b' g' HG HG') Hj) as (H1 & ? & Heq). rewrite length_take in H1.
      split_and!; [lia|done|]. rewrite take_take, Nat.min_l in Heq by lia. done. }
  apply (has_trans_l l' g' g); [|by apply has_sym]. apply Hf. by apply (has_trans_l l g g').
Qed.

(** The log of a follower changes, and it replies to the leader of the term
    of [args]. *)
Lemma safe_follow rf' args reply b g m (c' := add_aereply (i, args, reply) (set_raft c i nd rf')) :
  base_inv n G c' → G !! aea_Term args = Some (b, g) →
  (aea_PrevLogIndex args + 1 + zlen (aea_Entries args))%Z = Z.of_nat m →
  (currentTerm (nd_raft nd) ≤ currentTerm rf')%Z →
  (role rf' ≠ FOLLOWER → rf' = nd_raft nd) → lastApplied rf' = lastApplied (nd_raft nd) →
  (log rf' = log (nd_raft nd) ∨
   currentTerm rf' = aea_Term args ∧ ∀ k, has (es (nd_raft nd)) g k → has (es rf') g k) →
  (aer_Success reply = true → currentTerm rf' = aea_Term args ∧ has (es rf') g m) →
  commitIndex rf' = commitIndex (nd_raft nd) ∨ commit_ok n G c (currentTerm rf') (es rf') (commitIndex rf') →
  safe n G c'.
Proof.
  intros Hb HG Hreach Hle Hrole Hla Hlog Hrep Hci. pose proof Hb as (I1 & I2 & I3).
  pose proof Hs as [S1 S2 S3 S4 S5 S6]. pose proof (lm_ghost _ _ S3) as Hg.
  assert (Hkept : ∀ T b g m j, G !! T = Some (b, g) → (T ≤ currentTerm (nd_raft nd))%Z →
    (∀ T', (T < T' ≤ currentTerm rf')%Z → carries G T m T') → j ≤ m → has (es (nd_raft nd)) g j → has (es rf') g j).
  { intros T b0 g0 m0 j HG0 HT Hall Hj Hh. destruct Hlog as [->|[Ht Hf]]; [done|].
    eapply (follow_keeps T b0 g0 m0 j (aea_Term args)); [done..| |done|done|done].
    destruct (decide (T = aea_Term args)); [by left|right]. apply Hall. lia. }
  set (nd' := mkNode rf' (nd_threads nd) (nd_sending nd)).
  assert (Hgr : grows G G c c') by (split; [apply gext_refl|done|by right]).
  split; [done|done|done|..].
  - eapply (elect_step G G c c' i nd nd'); [done|done|done|apply S4| |done|done|by left].
    simpl. intros Hr. pose proof (Hrole ltac:(congruence)) as Heq. rewrite Heq in Hr |- *. done.
  - eapply (acks_inv_step n G G c c' i nd nd'); [done|done|done|done|done|].
    split; [apply gext_refl|by intros ? ? ? Hx|done|..|by left|by left].
    + intros p T m0 [Hex Ha]. destruct Ha as [Ha|(args0 & reply0 & [[= -> -> ->]|Hin0]%elem_of_cons & Hsu & Ht & Hle0)];
        [left; split; [done|by left]|right|left; split; [done|right; by exists args0, reply0]].
      destruct (Hrep Hsu) as [Ht' Hh]. split; [done|]. split; [simpl; congruence|].
      intros b1 g1 HG1. rewrite <-Ht, HG in HG1. injection HG1 as <- <-. eapply has_le; [done|lia].
    + intros T m0 b0 g0 Ha HG0 Hall Hh. eapply (Hkept T b0 g0 m0 m0); [done|by eapply (ak_term _ _ _ S5)| |done|done].
      intros T' ?. apply Hall. simpl. lia.
  - eapply (commit_inv_step n G G c c' i nd'); [done|done|done|done|..|by left|by apply sending_same|by left].
    + simpl. intros Hr. pose proof (Hrole ltac:(congruence)) as Heq. rewrite Heq in Hr |- *.
      eapply grows_match; [done|by apply S6].
    + simpl. destruct Hci as [->|Hci]; [|by apply (grows_commit n G G c c' Hgr (currentTerm rf') _ (es rf')); auto].
      eapply grows_commit; [done|exact Hle| |exact (cm_node _ _ _ S6 i nd Hi)]. intros T0 b0 g0 m0 j HT0 HG0 Hcm Hj Hh.
      eapply (Hkept T0 b0 g0 m0 j); [done|done| |done|done]. intros T' HT'.
      eapply (completeness n G c); [done..|lia].
Qed.

(** A log that has all that a message reaches is committed as far as the
    message says. *)
Lemma reached_commit T T' (l g : list (Entry C)) m k :
  has l g m → (T ≤ T')%Z → commit_ok n G c T (take m g) k → (k < Z.of_nat m ∨ k = 0)%Z ∧ commit_ok n G c T' l k.
Proof.
  intros Hh HT Hc. split.
  - destruct Hc as [->|(? & ? & ? & ? & _ & _ & _ & ? & Hk & _)]; [by right|left]. rewrite length_take in Hk. lia.
  - eapply grows_commit; [by apply grows_refl|exact HT| |exact Hc]. intros T0 b0 g0 m0 j _ _ _ _ Hj. pose proof Hj as (Hjm & _).
    rewrite length_take in Hjm. apply (has_trans_l _ g); [eapply has_le; [done|lia]|].
    apply has_sym. destruct Hj as (? & ? & Heq). rewrite take_take, Nat.min_l in Heq by lia. split_and!; [lia|done|done].
Qed.

Lemma safe_append args now rf' reply (c' := add_aereply (i, args, reply) (set_raft c i nd rf')) :
  base_inv n G c' → (i, MsgAppendEntries args) ∈ cl_msgs c →
  AppendEntries (nd_raft nd) args now = Ok (rf', reply) → safe n G c'.
Proof.
  intros Hb Hin H. pose proof Hs as [S1 S2 S3 S4 S5 S6].
  destruct (append_match n G c i nd S1 S3 Hi args now rf' reply Hin H) as (b & g & k & m & Hat & Hp & Hkeep & Hrole & Hlog & Hrep).
  destruct Hat as ([HG Hprev Hkm Hm _ Hes] & _).
  assert (Hreach : (aea_PrevLogIndex args + 1 + zlen (aea_Entries args))%Z = Z.of_nat m).
  { unfold zlen. rewrite Hprev, Hes, length_take, length_drop. lia. }
  destruct (AppendEntries_frame (nd_raft nd) args now rf' reply cases_wf cases_snap ltac:(lia) H) as [Hcs Hci].
  pose proof (AppendEntries_ok _ _ _ _ _ cases_wf H) as Hok.
  eapply (safe_follow rf' args reply b g m); [done|done|done|apply Hkeep| |apply Hok|done|..].
  - intros Hnf. destruct (role rf') eqn:E; [by apply Hrole|done|by apply Hcs].
  - intros Hsu. by rewrite Hsu in Hrep.
  - destruct Hci as [->|[Hsu Hci]]; [by left|right]. rewrite Hsu in Hrep. destruct Hrep as [Ht' Hh].
    pose proof (cm_msg _ _ _ S6 i args b g Hin HG) as Hcm. unfold reach in Hcm. rewrite Hreach, Nat2Z.id in Hcm.
    destruct (reached_commit (aea_Term args) (currentTerm rf') (es rf') g m _ Hh ltac:(lia) Hcm) as [Hlt Hcm'].
    rewrite Hci, Min_min, (lastIndex_length _ (so_wf _ _ _ Hok) (pl_snap _ _ Hp)). pose proof Hh as (Hml & _).
    by replace (Z.min _ _) with (aea_LeaderCommitIndex args) by lia.
Qed.

(** *** The leader commits *)

Lemma match_acked rf b p x N :
  (currentTerm rf, i) ∈ cl_leaders c → G !! currentTerm rf = Some (b, es rf) → me rf = i → match_ok G c i rf →
  (0 ≤ p)%Z → matched rf !! Z.to_nat p = Some x → (0 < N ≤ x)%Z → (N < Z.of_nat (length (es rf)))%Z →
  acked G c p (currentTerm rf) (S (Z.to_nat N)).
Proof.
  intros Hlead HG Hme Hm Hp Hx HN Hlen. unfold matched in Hx. rewrite Hme in Hx.
  assert (Hi0 : (0 ≤ i)%Z).
  { pose proof (wf_me _ cases_wf) as Hw. rewrite (ni_me _ _ _ _ (ci_nodes _ _ (sf_inv _ _ _ Hs) i nd Hi)) in Hw. lia. }
  destruct (decide (p = i)) as [->|Hpi].
  - split; [|by left]. exists b, (es rf). split; [done|lia].
  - rewrite list_lookup_insert_ne in Hx by lia. destruct (Hm p x Hp Hpi Hx) as [->|[_ Ha]]; [lia|].
    eapply acked_le; [|done]. lia.
Qed.

Lemma leader_commits rf rf' b :
  raft_wf rf → role rf = LEADER → snapshotIndex rf = 0%Z → me rf = i → npeers rf = n →
  (currentTerm rf, i) ∈ cl_leaders c → G !! currentTerm rf = Some (b, es rf) → match_ok G c i rf →
  commit_ok n G c (currentTerm rf) (es rf) (commitIndex rf) → leaderCommit rf = Ok rf' →
  commit_ok n G c (currentTerm rf) (es rf) (commitIndex rf').
Proof.
  intros Hwf Hr H0 Hme Hnp Hlead HG Hm Hc H.
  destruct (leaderCommit_commits rf rf' Hwf Hr H) as [->|(N & e & -> & _ & HN & He & Hmaj & _ & Hrule)]; [done|].
  rewrite H0 in HN. rewrite <-(Z2Nat.id N) in He by lia. apply entry_uncompacted in He; [|by rewrite (wf_base _ Hwf)].
  pose proof (lookup_lt_Some _ _ _ He) as Hlen. simpl. right.
  assert (Hack : ∀ p x, (0 ≤ p)%Z → matched rf !! Z.to_nat p = Some x → (N ≤ x)%Z →
    acked G c p (currentTerm rf) (S (Z.to_nat N))).
  { intros p x Hp Hx Hle. eapply match_acked; [done..|lia|lia]. }
  destruct (wf_lead _ Hwf Hr) as [_ Hml].
  exists (currentTerm rf), b, (es rf), (S (Z.to_nat N)). split_and!; [done|done| |lia|lia|by split_and!].
  exists b, (es rf). split; [done|]. split; [lia|]. destruct Hrule as [Ht|Hall].
  - left. split.
    + destruct (decide (b < S (Z.to_nat N))) as [|Hlt]; [done|].
      pose proof (ei_base _ _ (sf_elect _ _ _ Hs) _ _ _ (Z.to_nat N) e HG ltac:(lia) He). lia.
    + destruct (count_ge_positions N (matched rf)) as (Q & HQ & Hlq & HQp). exists Q. split_and!; [done| |].
      * intros p Hp. destruct (HQp p Hp) as [Hrange (x & Hx & Hle)]. unfold zlen in Hrange.
        rewrite matched_length, Hml, Hnp in Hrange. split; [done|]. eapply Hack; [lia|done..].
      * unfold is_majority in Hmaj. rewrite Hnp, <-Hlq in Hmaj. unfold zlen in Hmaj. unfold majority.
        Z.to_euclidean_division_equations. lia.
  - right. intros p Hp. destruct (lookup_lt_is_Some_2 (matched rf) (Z.to_nat p)) as [x Hx].
    { rewrite matched_length. lia. }
    eapply Hack; [lia|done|]. apply Hall. by eapply list_elem_of_lookup_2.
Qed.

Lemma reply_acked server args reply :
  (server, args, reply) ∈ cl_aereplies c → aer_Success reply = true →
  (1 ≤ aea_PrevLogIndex args + 1 + zlen (aea_Entries args))%Z ∧
  acked G c server (aea_Term args) (reach args).
Proof.
  intros Hin Hsu. destruct (lm_rep _ _ (sf_lm _ _ _ Hs) _ _ _ Hin) as (b & g & k & m & (Hrq & _ & _) & _).
  destruct Hrq as [HG Hprev Hkm Hm _ Hes].
  assert (Hz : zlen (aea_Entries args) = (Z.of_nat m - Z.of_nat k)%Z).
  { unfold zlen. rewrite Hes, length_take, length_drop. lia. }
  split; [lia|]. unfold reach. rewrite Hprev, Hz. split; [exists b, g; split; [done|lia]|].
  right. exists args, reply. split_and!; [done|done|done|]. rewrite Hprev, Hz. lia.
Qed.

(** What [sendAppendEntries] does with a reply. *)
Lemma reply_cases server args reply rf' :
  sendAppendEntries (nd_raft nd) server args reply = Ok rf' →
  (quiet (nd_raft nd) rf' ∧ cand_same (nd_raft nd) rf' ∧ commitIndex rf' = commitIndex (nd_raft nd)) ∨
  (role (nd_raft nd) = LEADER ∧ aea_Term args = currentTerm (nd_raft nd) ∧ role rf' = LEADER ∧
   currentTerm rf' = currentTerm (nd_raft nd) ∧ log rf' = log (nd_raft nd) ∧
   (commitIndex rf' = commitIndex (nd_raft nd) ∧ matchIndex rf' = matchIndex (nd_raft nd) ∨
    aer_Success reply = true ∧ (0 ≤ server)%Z ∧
    matchIndex rf' = <[Z.to_nat server := (aea_PrevLogIndex args + zlen (aea_Entries args))%Z]> (matchIndex (nd_raft nd)) ∧
    ∃ rf2, leaderCommit (set_matchIndex (matchIndex rf') (nd_raft nd)) = Ok rf2 ∧ commitIndex rf' = commitIndex rf2)).
Proof.
  intros H. unfold sendAppendEntries in H. destruct (_ || _) eqn:E; [injection H as <-; left; by split_and!|].
  apply orb_false_iff in E as [E1%bool_decide_eq_false E2%bool_decide_eq_false]. apply dec_stable in E1, E2.
  destruct (aer_Success reply).
  - right. destruct (idx (matchIndex (nd_raft nd)) server) as [mo|] eqn:Emo; [|done]. res_simpl.
    case_bool_decide as Hlt.
    + destruct (upd _ _ _) as [ms|] eqn:Eu; [|done]. res_simpl. apply upd_Ok in Eu as [Hsl ->].
      destruct (leaderCommit _) as [rf1|] eqn:Elc; [|done]. res_simpl.
      assert (Hf : log rf1 = log (nd_raft nd) ∧ currentTerm rf1 = currentTerm (nd_raft nd) ∧ role rf1 = role (nd_raft nd) ∧
        matchIndex rf1 = <[Z.to_nat server := (aea_PrevLogIndex args + zlen (aea_Entries args))%Z]> (matchIndex (nd_raft nd))).
      { by destruct (leaderCommit_frame _ _ Elc) as [->|[N ->]]. }
      destruct Hf as (Hl & Ht & Hr & Hm).
      destruct (idx (matchIndex rf1) server); [|done]. res_simpl.
      destruct (upd _ _ _); [|done]. res_simpl. injection H as <-. simpl. split_and!; try done; [congruence|].
      right. split_and!; try done; [lia|]. exists rf1. by rewrite Hm.
    + res_simpl. rewrite Emo in H. res_simpl. destruct (upd _ _ _); [|done]. res_simpl. injection H as <-.
      split_and!; try done. by left.
  - case_bool_decide as Hnew; [injection H as <-; left; split_and!; [apply quiet_stepDown; lia|done|done]|].
    right. destruct (conflictNextIndex _ _); [|done]. res_simpl. destruct (idx _ _); [|done]. res_simpl.
    destruct (upd _ _ _); [|done]. res_simpl. injection H as <-. split_and!; try done. by left.
Qed.

(** The leader's bookkeeping changes, and it may commit. *)
Lemma safe_lead rf' (c' := set_raft c i nd rf') :
  base_inv n G c' → role rf' = LEADER → currentTerm rf' = currentTerm (nd_raft nd) →
  log rf' = log (nd_raft nd) → lastApplied rf' = lastApplied (nd_raft nd) → match_ok G c i rf' →
  commit_ok n G c (currentTerm rf') (es rf') (commitIndex rf') → safe n G c'.
Proof.
  intros Hb Hr' Hct Hlog Hla Hm Hc. pose proof Hb as (I1 & I2 & I3). pose proof Hs as [S1 S2 S3 S4 S5 S6].
  set (nd' := mkNode rf' (nd_threads nd) (nd_sending nd)).
  assert (Hgr : grows G G c c') by (by apply grows_refl).
  split; [done|done|done|..].
  - eapply (elect_step G G c c' i nd nd'); [done|done|done|apply S4| |simpl; lia|done|by left].
    intros Hrole. simpl in Hrole. congruence.
  - eapply (acks_same n G c c' i nd nd'); try done; [apply S3|simpl; lia|by intros ? ? ? Hx|by left].
  - eapply (commit_inv_step n G G c c' i nd'); [done|done|done|done|..|by left|by apply sending_same|by left].
    + intros _. by eapply grows_match.
    + by eapply grows_commit; [done|done|auto|].
Qed.

(** A peer's acknowledgement is noted. *)
Lemma match_noted rf' server x :
  match_ok G c i (nd_raft nd) → currentTerm rf' = currentTerm (nd_raft nd) → (0 ≤ server)%Z → (0 ≤ x)%Z →
  matchIndex rf' = <[Z.to_nat server := x]> (matchIndex (nd_raft nd)) →
  acked G c server (currentTerm (nd_raft nd)) (S (Z.to_nat x)) → match_ok G c i rf'.
Proof.
  intros Hm0 Hct Hsv Hx Hm Hack p y Hp Hpi. rewrite Hm, Hct.
  intros [(Heq & <- & _)|[_ Hy]]%list_lookup_insert_Some; [|by apply Hm0].
  right. split; [done|]. by assert (p = server) as -> by lia.
Qed.

Lemma safe_reply server args reply rf' (c' := set_raft c i nd rf') :
  base_inv n G c' → (server, args, reply) ∈ cl_aereplies c →
  sendAppendEntries (nd_raft nd) server args reply = Ok rf' → safe n G c'.
Proof.
  intros Hb Hin H. pose proof (so_lastApplied _ _ _ (sendAppendEntries_ok _ _ _ _ _ cases_wf H)) as Hla.
  destruct (reply_cases _ _ _ _ H) as [(Hq & Hcs & Hci)|(Hr & Ht & Hr' & Hct & Hlog & Hbook)].
  { by eapply (safe_local c'); try done; [by left|by apply sending_same]. }
  pose proof Hs as [S1 S2 S3 S4 S5 S6].
  pose proof (ci_nodes _ _ S1 i nd Hi) as Hni. destruct (lm_leader _ _ S3 i nd Hi Hr) as [b [_ HG _ _]].
  pose proof (cm_match _ _ _ S6 i nd Hi Hr) as Hm0. pose proof (cm_node _ _ _ S6 i nd Hi) as Hc0.
  assert (match_ok G c i rf' ∧ commit_ok n G c (currentTerm rf') (es rf') (commitIndex rf')) as [Hm Hc].
  { destruct Hbook as [[-> Hm]|(Hsu & Hsv & Hm & rf2 & Hlc & ->)].
    - unfold match_ok. by rewrite Hm, Hct, Hlog.
    - destruct (reply_acked _ _ _ Hin Hsu) as [Hge Hack]. unfold reach in Hack. rewrite Ht in Hack.
      assert (Hmatch : match_ok G c i rf').
      { eapply match_noted; [done..| |done|]; [lia|]. eapply acked_le; [|done]. lia. }
      split; [done|]. rewrite Hct, Hlog.
      eapply (leader_commits (set_matchIndex (matchIndex rf') (nd_raft nd)) rf2 b); try done.
      + destruct cases_wf as [? ? ? ? ? Hw]. split; try done. simpl. rewrite Hm, length_insert. done.
      + apply cases_snap.
      + apply Hni.
      + apply Hni.
      + by apply (ni_leader _ _ _ _ Hni).
      + intros p x Hp Hpi Hx. simpl in *. rewrite <-Hct. by apply Hmatch. }
  by apply safe_lead.
Qed.

(** *** The service calls Start *)

Lemma reply_bound p args reply :
  (p, args, reply) ∈ cl_aereplies c →
  ∃ b g, G !! aea_Term args = Some (b, g) ∧
    (aea_PrevLogIndex args + 1 + zlen (aea_Entries args) ≤ Z.of_nat (length g))%Z.
Proof.
  intros Hin. destruct (lm_rep _ _ (sf_lm _ _ _ Hs) _ _ _ Hin) as (b & g & k & m & ([HG Hprev Hkm Hm _ Hes] & _) & _).
  exists b, g. split; [done|]. unfold zlen. rewrite Hprev, Hes, length_take, length_drop. lia.
Qed.

Lemma safe_Start cmd rf' result G' (c' := set_raft c i nd rf') :
  base_inv n G' c' → Start (nd_raft nd) cmd = (rf', result) → ghost_start G nd G' rf' → safe n G' c'.
Proof.
  intros Hb H [[-> ->]|(b & e & Hr & HG & Hb1 & He & Hes & ->)].
  { by eapply (safe_local c'); try done; [by left|by apply sending_same]. }
  assert (Hf : currentTerm rf' = currentTerm (nd_raft nd) ∧ role rf' = role (nd_raft nd) ∧
    commitIndex rf' = commitIndex (nd_raft nd) ∧ matchIndex rf' = matchIndex (nd_raft nd) ∧
    lastApplied rf' = lastApplied (nd_raft nd)).
  { unfold Start in H. case_bool_decide; injection H as <- _; done. }
  destruct Hf as (Hct & Hrole & Hci & Hm & Hla).
  pose proof Hb as (I1 & I2 & I3). pose proof Hs as [S1 S2 S3 S4 S5 S6].
  set (T := currentTerm (nd_raft nd)) in *. set (G' := <[T := _]> G) in *.
  set (nd' := mkNode rf' (nd_threads nd) (nd_sending nd)).
  pose proof (ni_leader _ _ _ _ (ci_nodes _ _ S1 i nd Hi) Hr) as Hlead. fold T in Hlead.
  assert (Hext : gext G G').
  { intros T0 b0 g0 HG0. unfold G'. destruct (decide (T0 = T)) as [->|Hne].
    - rewrite HG in HG0. injection HG0 as <- <-. exists [e]. by rewrite lookup_insert_eq, Hes.
    - exists []. by rewrite app_nil_r, lookup_insert_ne. }
  assert (Hgr : grows G G' c c') by (by split).
  assert (Hcut : ∀ (l : list (Entry C)) m, has (es (nd_raft nd)) l m → has (es rf') l m).
  { intros l m Hh. rewrite Hes. by apply has_sym, has_ext, has_sym. }
  split; [done|done|done|..].
  - eapply (elect_step G G' c c' i nd nd'); [done|done|done| | |simpl; lia|done|by left].
    + intros T0 b0 g0 k x [[<- [= <- <-]]|[_ HG0]]%lookup_insert_Some Hk Hx; [|by eapply (ei_base _ _ S4)].
      pose proof (go_base _ (lm_ghost _ _ S3) _ _ _ HG). rewrite Hes, lookup_app_l in Hx by lia. by eapply (ei_base _ _ S4).
    + intros Hc. simpl in Hc. congruence.
  - eapply (acks_inv_step n G G' c c' i nd nd'); [apply S3|done..|].
    split; [done|by intros ? ? ? Hx|simpl; lia|..|by left|].
    + intros p T0 m [(b0 & g0 & HG0 & Hm0) Ha]. destruct (decide (T0 = T)) as [->|Hne].
      * unfold G' in HG0. rewrite lookup_insert_eq in HG0. injection HG0 as <- <-.
        destruct Ha as [Ha|(args & reply & Hin & Hsu & Ht & Hle)]; [right|left].
        -- split; [by eapply (unique_leader n)|]. split; [done|]. intros b0 g0. unfold G'. rewrite lookup_insert_eq.
           intros [= <- <-]. by split_and!.
        -- destruct (reply_bound _ _ _ Hin) as (b1 & g1 & HG1 & Hle1). rewrite Ht, HG in HG1. injection HG1 as <- <-.
           split; [exists b, (es (nd_raft nd)); split; [done|lia]|]. right. by exists args, reply.
      * unfold G' in HG0. rewrite lookup_insert_ne in HG0 by done. left. split; [by exists b0, g0|done].
    + intros T0 m b0 g0 _ _ _. apply Hcut.
    + intros T0 l Hin. left. split; [done|]. intros HN. unfold G'. rewrite lookup_insert_ne; [done|congruence].
  - eapply (commit_inv_step n G G' c c' i nd'); [done|done|done|done|..|by left|by apply sending_same|by left].
    + intros _. unfold match_ok. simpl. rewrite Hm, Hct. eapply grows_match; [done|]. by apply (cm_match _ _ _ S6 i nd).
    + simpl. rewrite Hct, Hci. eapply grows_commit; [done|done| |by apply (cm_node _ _ _ S6 i nd)].
      intros T0 b0 g0 m j _ _ _ _. apply Hcut.
Qed.

(** *** The applier *)

Lemma safe_applier_begin msg
  (c' := add_applied (i, msg) (set_node c i (mkNode (nd_raft nd) (nd_threads nd) (Some msg)))) :
  base_inv n G c' → applier_begin (nd_raft nd) = Ok (Deliver msg) → safe n G c'.
Proof.
  intros Hb H. pose proof Hs as [S1 S2 S3 S4 S5 S6].
  destruct (cm_sending _ _ _ S6 i nd Hi) as [Hla _]. unfold applier_begin in H.
  destruct (Killed _); [done|]. rewrite cases_snap, bool_decide_false in H by lia. case_bool_decide as Hlt; [|done].
  destruct (entry _ _) as [e|] eqn:He; [|done]. res_simpl.
  assert (Hmsg : msg = command_msg (Z.to_nat (lastApplied (nd_raft nd) + 1)) e).
  { injection H as <-. unfold command_msg. by rewrite Z2Nat.id by lia. }
  rewrite <-(Z2Nat.id (lastApplied (nd_raft nd) + 1)) in He by lia.
  apply entry_uncompacted in He; [|rewrite (wf_base _ cases_wf); apply cases_snap].
  eapply (safe_quiet n G c c' i nd);
    [done|done| |done|done|apply quiet_refl|by left|done|done|by intros ? ? ? Hx|by left|by left| |].
  - eapply (elect_step G G c c' i nd); [done|done|done|apply S4|done|done|done|by left].
  - split; [done|]. simpl. intros m [= <-]. by rewrite Hmsg.
  - intros j m [[= -> ->]|?]%elem_of_cons; [right|by left]. eapply grows_applied; [by apply grows_refl|].
    destruct (cm_node _ _ _ S6 i nd Hi) as [?|(T & b & g & m & _ & HG & Hc & Hk & Hh)]; [lia|].
    exists T, b, g, m, (Z.to_nat (lastApplied (nd_raft nd) + 1)), e. split_and!; [done|done|lia| |done].
    rewrite <-(has_lookup _ _ _ _ Hh) by lia. done.
Qed.

Lemma safe_applier_end msg (c' := set_node c i (mkNode (applier_end (nd_raft nd) msg) (nd_threads nd) None)) :
  base_inv n G c' → nd_sending nd = Some msg → safe n G c'.
Proof.
  intros Hb Hsd. destruct (cm_sending _ _ _ (sf_commit _ _ _ Hs) i nd Hi) as [Hla Hsv]. specialize (Hsv msg Hsd).
  eapply (safe_local c'); try done; [apply quiet_applier_end|..]; simpl; unfold applier_end; rewrite Hsv.
  - by case_bool_decide.
  - left. by case_bool_decide.
  - split; [|done]. simpl. case_bool_decide; simpl; lia.
Qed.

Lemma safe_crash now rf' (c' := set_node c i (mkNode rf' [] None)) :
  base_inv n G c' →
  Make (npeers (nd_raft nd)) i (Persister.Copy (persister (nd_raft nd))) now = Ok rf' → safe n G c'.
Proof.
  intros Hb H. destruct (crash_same n c i nd (sf_inv _ _ _ Hs) Hi now rf' H) as (Hct & Hl & Hsi & Hr).
  assert (commitIndex rf' = 0%Z ∧ lastApplied rf' = 0%Z) as [Hci Hla].
  { unfold Make, readPersist in H. repeat case_match; res_inv; simplify_eq; done. }
  eapply (safe_local c'); try done.
  - split_and!; [done|done|simpl; lia|]. simpl. by rewrite Hr.
  - intros Hrole. simpl in Hrole. congruence.
  - right. by left.
  - split; [simpl; lia|done].
Qed.
End Cases.

(** ** Runs without compaction *)

Lemma safe_finish n G c i nd th ths1 ths2 :
  let rf' := leaderElection_finish (nd_raft nd) (th_el th) in
  let c1 := set_node c i (mkNode rf' (ths1 ++ ths2) (nd_sending nd)) in
  let c' := if bool_decide (role rf' = LEADER ∧ role (nd_raft nd) ≠ LEADER)
            then add_leader (currentTerm rf', i) c1 else c1 in
  safe n G c → cl_nodes c !! i = Some nd → nd_threads nd = ths1 ++ th :: ths2 →
  cluster_inv n c' → (∀ i nd, cl_nodes c' !! i = Some nd → cand_ok (nd_raft nd)) → ∃ G', safe n G' c'.
Proof.
  intros rf' c1 c' Hs Hi Hths Hinv' Hcand'. pose proof Hs as [S1 S2 S3 S4 S5 S6].
  pose proof (ci_nodes _ _ S1 i nd Hi) as Hni. pose proof (ni_wf _ _ _ _ Hni) as Hwf.
  unfold c', c1, rf' in *.
  destruct (electionFinish_ok _ (th_el th) Hwf) as [Heq|(_ & (Ht & _ & Hr & Hl) & Hb & HT & Hmaj)].
  - rewrite Heq, bool_decide_false in * by naive_solver. exists G.
    eapply (safe_local n G c i nd Hs Hi); try done; [|by left|by eapply sending_same].
    split; [done|]. split; [done|].
    eapply (lm_quiet n G c i nd); [done..|apply quiet_refl|done|done|apply S3|by left|done].
  - rewrite bool_decide_true in * by (rewrite Hl, Hr; done). rewrite Ht, Hb in *.
    destruct (lm_win n G c i nd S1 S3 Hi (ths1 ++ ths2) (nd_sending nd) _ Hr (proj2 (S2 i nd Hi) Hr) eq_refl Hinv') as [HN Hlm'].
    destruct (ni_thread _ _ _ _ Hni th) as (_ & _ & S & HS & _ & Hlen); [rewrite Hths; set_solver|].
    rewrite <-HT in HS. eexists. eapply (safe_win n G c i nd Hs Hi (ths1 ++ ths2) S); try done.
    rewrite Hlen. by rewrite <-(ni_npeers _ _ _ _ Hni).
Qed.

Lemma safe_step n G c c' :
  safe n G c → cluster_step c c' → uncompacted c' → ∃ G', safe n G' c'.
Proof.
  intros Hs Hstep Hun. pose proof Hs as [S1 S2 S3 S4 S5 S6].
  pose proof (cluster_step_inv n c c' S1 Hstep) as I1.
  pose proof (cand_step n c c' S1 S2 Hstep) as I2.
  assert (Hbase : ∀ G', lm_inv G' c' → base_inv n G' c') by done.
  assert (Hquiet : ∀ i nd nd', cl_nodes c !! i = Some nd →
    cl_nodes c' = <[i := nd']> (cl_nodes c) → cl_leaders c' = cl_leaders c →
    cl_msgs c' = cl_msgs c → cl_aereplies c' = cl_aereplies c → cl_isreplies c' = cl_isreplies c →
    quiet (nd_raft nd) (nd_raft nd') → base_inv n G c').
  { intros i nd [rf' ths sd] Hi Hn Hl Hm Ha Hr Hq. apply Hbase.
    eapply (lm_quiet n G c i nd); [done..| |rewrite Hm; by left|done]. rewrite Hr. apply S3. }
  destruct Hstep as [i nd ? ? ? rf' ? Hi ? H|i nd ? ? ? rf' Hi Hnow H|i nd ? ? rf' ? Hi ? H|i nd ? ? ? ? ? rf' ? Hi ? ? ? ? H
    |i nd th ths1 ths2 Hi ? ? rf' c'|i nd ? rf' ? ? Hi H|i nd ? ? rf' ? Hi Hin H|i nd ? ? rf' ? Hi Hin H
    |i nd ? ? ? rf' Hi Hin Hld H|i nd ? ? ? rf' Hi Hin ? H|i nd ? rf' ? Hi H|i nd index ? rf' Hi H|i nd ? Hi ? H|i nd ? Hi Hsd|i nd Hi
    |i nd ? rf' Hi H].
  - exists G. eapply safe_election; try done. eapply Hquiet; [exact Hi|reflexivity..|]. by eapply quiet_election.
  - exists G. destruct (electionStart_ok _ _ _ _ _ _ (cases_wf n G c i nd Hs Hi) Hnow H) as [_ ->].
    eapply (safe_local n G c i nd Hs Hi); try done; [by eapply Hquiet; [exact Hi|reflexivity..|]|by left|by eapply sending_same].
  - exists G. eapply safe_RequestVote; try done. eapply Hquiet; [exact Hi|reflexivity..|]. by eapply quiet_RequestVote.
  - exists G. pose proof (quiet_countVotes _ _ _ _ _ H) as Hq.
    assert (Hf : cand_same (nd_raft nd) rf' ∧ commitIndex rf' = commitIndex (nd_raft nd) ∧
      lastApplied rf' = lastApplied (nd_raft nd)).
    { unfold countVotes_step in H. repeat case_match; injection H as <- _; by split_and!. }
    destruct Hf as (Hcs & Hci & Hla).
    eapply (safe_local n G c i nd Hs Hi); try done; [by eapply Hquiet; [exact Hi|reflexivity..|]|by left|by eapply sending_same].
  - by eapply safe_finish.
  - exists G. eapply safe_heartbeat; try done. apply Hbase. by eapply (lm_heartbeat n).
  - exists G. eapply safe_append; try done. apply Hbase. by eapply (lm_append n).
  - by destruct (lm_msg _ _ S3 _ _ Hin) as (? & ? & ? & ? & ? & ? & _).
  - exists G. eapply safe_reply; try done. apply Hbase. by eapply (lm_reply n).
  - rewrite (lm_norep _ _ S3) in Hin. by apply elem_of_nil in Hin.
  - destruct (lm_Start n G c i nd S1 S3 Hi _ _ _ H) as (G' & Hlm' & Hgs). exists G'. by eapply safe_Start; [..|by apply Hbase| |].
  - unfold Snapshot in H. case_bool_decide as Hle.
    + injection H as <-. exists G.
      eapply (safe_local n G c i nd Hs Hi); try done; [by eapply Hquiet; [exact Hi|reflexivity..|]|by left|by eapply sending_same].
    + exfalso. specialize (Hun i (mkNode rf' (nd_threads nd) (nd_sending nd)) (lookup_insert_eq _ _ _)). simpl in Hun.
      rewrite (cases_snap n G c i nd Hs Hi) in Hle. res_inv. simplify_eq/=. lia.
  - exists G. eapply safe_applier_begin; try done. eapply Hquiet; [exact Hi|reflexivity..|]. apply quiet_refl.
  - exists G. eapply safe_applier_end; try done. eapply Hquiet; [exact Hi|reflexivity..|]. apply quiet_applier_end.
  - exists G. eapply (safe_local n G c i nd Hs Hi); try done; [by eapply Hquiet; [exact Hi|reflexivity..|]|by left|by eapply sending_same].
  - exists G. eapply safe_crash; try done. apply Hbase. by eapply (lm_crash n).
Qed.

Lemma initCluster_safe n now : ∃ G, safe n G (initCluster n now).
Proof.
  destruct (initCluster_lm n now) as [Hinv Hcand [G Hlm]]. exists G.
  pose proof (initCluster_node (C := C) n now) as Hnode.
  assert (Hno : ∀ p T m, ¬ acked G (initCluster n now) p T m).
  { intros p T m [_ [Ha|(? & ? & Ha & _)]]; by apply elem_of_nil in Ha. }
  split; [done|done|done|..].
  - split.
    + intros T b g k e HG Hk. destruct (lm_dom _ _ Hlm T _ HG) as [->|[l Hl]]; [|by apply elem_of_nil in Hl].
      rewrite (go_zero _ (lm_ghost _ _ Hlm)) in HG. injection HG as <- <-. lia.
    + by intros i nd e ->%Hnode.
    + by intros p args nd ?%elem_of_nil.
    + by intros v args r ?%elem_of_nil.
  - split.
    + by intros p nd T m _ ?%Hno.
    + by intros p nd T m b g _ ?%Hno.
    + by intros v args r ?%elem_of_nil.
    + by intros T l ?%elem_of_nil.
  - split.
    + by intros i nd ->%Hnode.
    + intros i nd ->%Hnode. by left.
    + by intros p args b g ?%elem_of_nil.
    + by intros i nd ->%Hnode.
    + by intros i msg ?%elem_of_nil.
Qed.

Lemma reachable_safe n c : reachable_uncompacted n c → ∃ G, safe n G c.
Proof.
  intros [now Hr]. eapply (rtc_preserve _ (λ c, ∃ G, safe n G c)); [|apply (initCluster_safe n now)|done].
  intros x y [G Hx] [Hst Hu]. by eapply safe_step.
Qed.

(** The leaders of two terms agree on what the earlier one committed. *)
Lemma committed_agree n G c T1 b1 g1 m1 T2 b2 g2 k :
  safe n G c → (T1 ≤ T2)%Z → G !! T1 = Some (b1, g1) → G !! T2 = Some (b2, g2) →
  committed n G c T1 m1 → k < m1 → g1 !! k = g2 !! k.
Proof.
  intros [S1 S2 S3 S4 S5 S6] HT HG1 HG2 Hc Hk. destruct (decide (T1 = T2)) as [->|Hne]; [by simplify_eq|].
  pose proof (completeness n G c T1 m1 T2 S1 S3 S4 S5 Hc ltac:(lia) b1 g1 b2 g2 HG1 HG2) as Hh.
  rewrite <-(has_lookup _ _ _ k Hh Hk). apply lookup_take_lt. destruct Hh as (Hlen & _). rewrite length_take in Hlen. lia.
Qed.

(** Two deliveries at an index are the same. *)
Lemma applied_same n G c i j msg1 msg2 :
  safe n G c → (i, msg1) ∈ cl_applied c → (j, msg2) ∈ cl_applied c →
  CommandIndex msg1 = CommandIndex msg2 → msg1 = msg2.
Proof.
  intros Hs H1 H2 Hidx. pose proof (sf_commit _ _ _ Hs) as Hcm.
  destruct (cm_applied _ _ _ Hcm _ _ H1) as (T1 & b1 & g1 & m1 & k1 & e1 & HG1 & Hc1 & Hk1 & He1 & ->).
  destruct (cm_applied _ _ _ Hcm _ _ H2) as (T2 & b2 & g2 & m2 & k2 & e2 & HG2 & Hc2 & Hk2 & He2 & ->).
  simpl in Hidx. assert (k1 = k2) as -> by lia. assert (e1 = e2) as ->; [|done].
  destruct (decide (T1 ≤ T2)%Z).
  - pose proof (committed_agree n G c T1 b1 g1 m1 T2 b2 g2 k2 Hs ltac:(lia) HG1 HG2 Hc1 Hk1). congruence.
  - pose proof (committed_agree n G c T2 b2 g2 m2 T1 b1 g1 k2 Hs ltac:(lia) HG2 HG1 Hc2 Hk2). congruence.
Qed.

Lemma applied_agree n c i j msg1 msg2 :
  reachable_uncompacted n c → (i, msg1) ∈ cl_applied c → (j, msg2) ∈ cl_applied c →
  CommandIndex msg1 = CommandIndex msg2 → msg1 = msg2.
Proof. intros [G Hs]%reachable_safe. by apply (applied_same n G). Qed.

End Safety.

(** ** A run: commands are integers, encoded by [countable_gob] *)

#[local] Instance gobZ : Gob (PState Z) := countable_gob (PState Z).
#[local] Instance gobZ_ok : GobOk (PState Z) := countable_gob_ok (PState Z).

(** Peer 0 is elected, replicates a command to peer 1, commits it on peer 1's
    reply and applies it; its next heartbeat lets peer 1 commit and apply it
    too. *)
Lemma applied_run : ∃ (c : Cluster (C := Z)) nd1 nd2,
  reachable_uncompacted 3 c ∧ cl_nodes c !! 0%Z = Some nd1 ∧ cl_nodes c !! 1%Z = Some nd2 ∧
  role (nd_raft nd1) = LEADER ∧ currentTerm (nd_raft nd1) = 1%Z ∧ currentTerm (nd_raft nd2) = 1%Z ∧
  commitIndex (nd_raft nd2) = 1%Z ∧
  cl_applied c = [(1%Z, command_msg 1 (mkEntry 1 (Some 7%Z))); (0%Z, command_msg 1 (mkEntry 1 (Some 7%Z)))].
Proof.
  eexists _, _, _. split.
  { exists 0%Z.
    run_step ltac:(eapply (cs_election _ 0 _ 300 300 300); [vm_compute; reflexivity|lia|vm_compute; reflexivity]).
    run_step ltac:(eapply (cs_RequestVote _ 1 _ (mkRequestVoteArgs 1 0 0 0) 301);
      [vm_compute; reflexivity|vm_compute; left|vm_compute; reflexivity]).
    run_step ltac:(eapply (cs_countVotes _ 0 _ _ [] [] 1 (Some (mkRequestVoteReply 0 true)));
      [vm_compute; reflexivity..|vm_compute; left|intros r [= <-]; vm_compute; left|vm_compute; reflexivity]).
    run_step ltac:(eapply (cs_finish _ 0 _ _ [] []); vm_compute; reflexivity).
    run_step ltac:(eapply (cs_Start _ 0 _ 7%Z); vm_compute; reflexivity).
    run_step ltac:(eapply (cs_heartbeat _ 0 _ true); vm_compute; reflexivity).
    run_step ltac:(eapply (cs_AppendEntries _ 1 _ _ 302); [vm_compute; reflexivity|vm_compute; left|vm_compute; reflexivity]).
    run_step ltac:(eapply (cs_AppendEntries_reply _ 0 _ 1);
      [vm_compute; reflexivity|vm_compute; left|vm_compute; reflexivity|vm_compute; reflexivity]).
    run_step ltac:(eapply (cs_applier_begin _ 0); vm_compute; reflexivity).
    run_step ltac:(eapply (cs_heartbeat _ 0 _ false); vm_compute; reflexivity).
    run_step ltac:(eapply (cs_AppendEntries _ 1 _ _ 303); [vm_compute; reflexivity|vm_compute; left|vm_compute; reflexivity]).
    run_step ltac:(eapply (cs_applier_begin _ 1); vm_compute; reflexivity).
    apply rtc_refl. }
  split; [vm_compute; reflexivity|]. split; [vm_compute; reflexivity|]. split_and!; vm_compute; reflexivity.
Qed.
