(* ===== verification/RaftExpand.v ===== *)
(** * Compacted peers and their full logs

    [RaftLogMatching] and [RaftSafety] are about peers that keep their whole
    logs.  A peer that compacts its log is related here to one that does not
    ([expands]): the same peer with the entries below its snapshot still in
    the log.  Each critical section is followed from the one to the other:
    what a compacted peer does, the full peer does as well, with the same
    replies and the same messages ([RaftCompaction] adds the network).

    The full peer may know more entries to be committed: it takes a snapshot
    that was installed as committed at once, and a crash does not make it
    forget. *)

From stdpp Require Import base list gmap sorting.
From Stdlib Require Import ZArith Lia.
From S2P Require Import Prelude RaftLog RaftCore RaftElection RaftReplication RaftApply RaftNode RaftCluster RaftLogMatching.

Section Expand.
Context {C : Type} `{!Gob (PState C), !GobOk (PState C)}.
Implicit Types rf : Raft C.
Implicit Types l lx : Log C.

Abbreviation es rf := (entries (log rf)).

(** [lx] is the log [l] with the entries below its slot 0 put back.  Slot 0
    itself may have lost its command, but not its term. *)
Definition expanded l lx : Prop :=
  ∃ pre x y tl, lx = mkLog (pre ++ x :: tl) 0 ∧ l = mkLog (y :: tl) (Z.of_nat (length pre)) ∧ eTerm x = eTerm y.

(** ** The operations of the log *)

Lemma expanded_last l lx : expanded l lx → lastIndex lx = lastIndex l.
Proof.
  intros (pre & x & y & tl & -> & -> & _). unfold lastIndex, zlen. simpl. rewrite length_app. simpl. lia.
Qed.

Lemma expanded_entry l lx k : expanded l lx → (index0 l < k)%Z → entry lx k = entry l k.
Proof.
  intros (pre & x & y & tl & -> & -> & _) Hk. simpl in Hk. unfold entry, Assert, idx; simpl.
  rewrite !bool_decide_true by lia. simpl. rewrite lookup_app_r by lia.
  by replace (Z.to_nat (k - 0) - length pre)%nat with (S (Z.to_nat (k - Z.of_nat (length pre) - 1))) by lia;
    replace (Z.to_nat (k - Z.of_nat (length pre))) with (S (Z.to_nat (k - Z.of_nat (length pre) - 1))) by lia.
Qed.

(** Terms are kept at slot 0, too. *)
Lemma expanded_term l lx k e :
  expanded l lx → entry l k = Ok e → ∃ e', entry lx k = Ok e' ∧ eTerm e' = eTerm e.
Proof.
  intros Hx He. pose proof (entry_range _ _ _ He) as [Hk _]. destruct (decide (k = index0 l)) as [->|Hne].
  - destruct Hx as (pre & x & y & tl & -> & -> & Ht). apply entry_lookup in He as [_ He]. simpl in He.
    rewrite Z.sub_diag in He. injection He as <-. exists x. split; [|done]. apply entry_lookup. simpl. split; [lia|].
    by rewrite Z.sub_0_r, Nat2Z.id, list_lookup_middle.
  - exists e. by rewrite (expanded_entry l lx) by (done || lia).
Qed.

Lemma expanded_lastEntry l lx e :
  expanded l lx → lastEntry l = Ok e → ∃ e', lastEntry lx = Ok e' ∧ eTerm e' = eTerm e.
Proof. unfold lastEntry. intros Hx He. rewrite (expanded_last _ _ Hx). by eapply expanded_term. Qed.

Lemma expanded_append l lx a : expanded l lx → expanded (append l a) (append lx a).
Proof.
  intros (pre & x & y & tl & -> & -> & Ht). exists pre, x, y, (tl ++ a). unfold append; simpl.
  by rewrite <-app_assoc.
Qed.

Lemma expanded_slice l lx k : expanded l lx → (index0 l < k)%Z → slice lx k = slice l k.
Proof.
  intros (pre & x & y & tl & -> & -> & _) Hk. simpl in Hk. unfold slice, slice_from, zlen. simpl.
  rewrite length_app. simpl.
  assert (drop (Z.to_nat (k - 0)) (pre ++ x :: tl) = drop (Z.to_nat (k - Z.of_nat (length pre))) (y :: tl)) as Hd.
  { rewrite drop_app_ge by lia.
    replace (Z.to_nat (k - Z.of_nat (length pre))) with (S (Z.to_nat (k - Z.of_nat (length pre) - 1))) by lia.
    by replace (Z.to_nat (k - 0) - length pre) with (S (Z.to_nat (k - Z.of_nat (length pre) - 1))) by lia. }
  repeat case_bool_decide; try lia; [|done]. by rewrite Hd.
Qed.

Lemma expanded_cutHead l lx k l' e :
  expanded l lx → entry l k = Ok e → cutOffHead l k = Ok l' →
  expanded l' lx ∧ index0 l' = k ∧ entries l' !! 0 = Some e.
Proof.
  intros (pre & x & y & tl & -> & -> & Ht) [Hk He]%entry_lookup H. unfold cutOffHead in H. simpl in *.
  res_inv. apply slice_from_Ok in E as [_ ->]. destruct (Z.to_nat (k - Z.of_nat (length pre))) as [|j] eqn:Ej; simpl in *.
  - injection He as <-. split; [|done]. exists pre, x, y, tl. by replace k with (Z.of_nat (length pre)) by lia.
  - pose proof (take_drop_middle tl j e He) as Htl. pose proof (lookup_lt_Some _ _ _ He) as Hlt.
    rewrite (drop_S tl e j He). split; [|done]. exists (pre ++ x :: take j tl), e, e, (drop (S j) tl).
    split_and!; [|f_equal|done].
    + rewrite <-app_assoc. simpl. by rewrite Htl.
    + rewrite length_app. simpl. rewrite length_take. lia.
Qed.

(** Cutting both logs at an index above slot 0. *)
Lemma take_expanded (pre : list (Entry C)) x tl k :
  length pre < k → take k (pre ++ x :: tl) = pre ++ x :: take (k - length pre - 1) tl.
Proof. intros Hk. rewrite take_app_ge by lia. by replace (k - length pre) with (S (k - length pre - 1)) at 1 by lia. Qed.

Lemma drop_expanded (pre : list (Entry C)) x tl k :
  length pre < k → drop k (pre ++ x :: tl) = drop (k - length pre - 1) tl.
Proof. intros Hk. rewrite drop_app_ge by lia. by replace (k - length pre) with (S (k - length pre - 1)) at 1 by lia. Qed.

Lemma expanded_cutTail l lx k l' :
  expanded l lx → (index0 l < k)%Z → cutOffTail l k = Ok l' →
  ∃ lx', cutOffTail lx k = Ok lx' ∧ expanded l' lx' ∧ index0 l' = index0 l ∧ entries l' !! 0 = entries l !! 0.
Proof.
  intros (pre & x & y & tl & -> & -> & Ht) Hk H. unfold cutOffTail in *. simpl in *.
  rewrite bool_decide_false in H by lia. rewrite bool_decide_false by lia. res_inv.
  apply slice_to_Ok in E as [Hr ->]. unfold slice_to, zlen in *. simpl in *.
  rewrite bool_decide_true by (rewrite length_app; simpl; lia). simpl. eexists. split; [done|].
  rewrite take_expanded by lia.
  replace (Z.to_nat (k - Z.of_nat (length pre))) with (S (Z.to_nat (k - 0) - length pre - 1)) by lia.
  split_and!; [|done|done]. by eexists pre, x, y, _.
Qed.

Lemma kept_tail_ext (b1 b2 t : list (Entry C)) :
  eTerm <$> last b1 = eTerm <$> last b2 → kept_tail b1 t = kept_tail b2 t.
Proof. unfold kept_tail. destruct (last b1), (last b2); simpl; intros Ht; try done. by injection Ht as ->. Qed.

Lemma last_expanded (pre u : list (Entry C)) x y :
  eTerm x = eTerm y → eTerm <$> last (pre ++ x :: u) = eTerm <$> last (y :: u).
Proof.
  intros Ht. destruct u as [|z u _] using rev_ind.
  - rewrite last_snoc. simpl. congruence.
  - by rewrite !app_comm_cons, app_assoc, !last_snoc.
Qed.

Lemma expanded_place l lx k a l' :
  expanded l lx → (index0 l < k ≤ lastIndex l + 1)%Z → place l k a = Ok l' →
  ∃ lx', place lx k a = Ok lx' ∧ expanded l' lx' ∧ index0 l' = index0 l ∧ entries l' !! 0 = entries l !! 0.
Proof.
  intros Hx Hk. rewrite place_Ok by lia. intros [= <-]. pose proof (expanded_last _ _ Hx) as Hlast.
  destruct Hx as (pre & x & y & tl & -> & -> & Ht). simpl in Hk. rewrite place_Ok by (simpl; lia).
  eexists. split; [done|]. unfold placed; simpl. set (n := Z.to_nat (k - Z.of_nat (length pre))).
  assert (∃ j, n = S j) as [j Hj] by (exists (n - 1)%nat; lia). rewrite Hj. simpl.
  rewrite take_expanded, drop_expanded by lia.
  replace (Z.to_nat (k - 0) - length pre - 1) with j by lia.
  replace (Z.to_nat (k - 0) + length a - length pre - 1) with (j + length a) by lia.
  rewrite <-!(app_assoc pre). simpl. erewrite (kept_tail_ext (pre ++ x :: _)) by (by apply last_expanded).
  split_and!; [|done|done]. by eexists pre, x, y, _.
Qed.

(** The part [a] of a request that lies behind the snapshot is placed at slot
    0; the full log takes the whole request [a1 ++ a], of which it has [a1]. *)
Lemma expanded_place_head l lx k a1 a l' :
  expanded l lx → (0 < k ≤ index0 l)%Z → a ≠ [] → (k + zlen a1 = index0 l)%Z →
  take (Z.to_nat k) (entries lx) ++ a1 = take (Z.to_nat (index0 l)) (entries lx) →
  place l (index0 l) a = Ok l' →
  ∃ lx', place lx k (a1 ++ a) = Ok lx' ∧ expanded l' lx' ∧ index0 l' = index0 l ∧ entries l' !! 0 = a !! 0.
Proof.
  intros Hx Hk Ha Hk1 Hpre. rewrite place_Ok by (unfold lastIndex; pose proof (zlen_nonneg (entries l)); lia || (right; split; [lia|done])).
  intros [= <-]. destruct Hx as (pre & x & y & tl & -> & -> & Ht). simpl in *. destruct a as [|z a]; [done|].
  unfold zlen in Hk1. rewrite place_Ok by (unfold lastIndex, zlen; simpl; rewrite ?length_app; simpl; lia).
  eexists. split; [done|]. unfold placed; simpl. rewrite Z.sub_diag, Z.sub_0_r. simpl.
  rewrite app_assoc, Hpre, Nat2Z.id, take_app_length, length_app. simpl.
  rewrite drop_expanded by lia.
  replace (Z.to_nat k + (length a1 + S (length a)) - length pre - 1) with (length a) by lia.
  rewrite (kept_tail_ext (pre ++ z :: a) (z :: a)) by (by apply last_expanded).
  split_and!; [|done|done]. eexists pre, z, z, _. split_and!; [|done|done]. by rewrite <-app_assoc.
Qed.

(** ** Peers *)

(** What the code consults besides the log and the indices. *)
Definition peer_state rf :=
  (me rf, npeers rf, dead rf, currentTerm rf, votedFor rf, nextIndex rf, matchIndex rf, role rf, lastHeartbeat rf).

(** [rfx] is the full peer behind the compacted peer [rf], and has committed
    at least up to index [h]. *)
Record expands (h : Z) rf rfx : Prop := {
  ex_log : expanded (log rf) (log rfx);
  ex_base : index0 (log rf) = snapshotIndex rf;
  ex_snap : snapshotIndex rfx = 0%Z;
  ex_term : eTerm <$> es rf !! 0 = Some (snapshotTerm rf);
  ex_same : peer_state rfx = peer_state rf;
  ex_applied : lastApplied rfx = 0%Z;
  ex_commit : (0 ≤ commitIndex rf ∧ snapshotIndex rf ≤ commitIndex rfx ∧ commitIndex rf ≤ commitIndex rfx ∧ lastApplied rf ≤ commitIndex rfx ∧
    h ≤ commitIndex rfx)%Z;
}.

(** Both peers leave their logs alone. *)
Lemma expands_ext h rf rfx rf' rfx' :
  expands h rf rfx → log rf' = log rf → log rfx' = log rfx →
  snapshotIndex rf' = snapshotIndex rf → snapshotIndex rfx' = snapshotIndex rfx → snapshotTerm rf' = snapshotTerm rf →
  peer_state rfx' = peer_state rf' → lastApplied rfx' = lastApplied rfx →
  (0 ≤ commitIndex rf' ∧ commitIndex rf' ≤ commitIndex rfx' ∧ lastApplied rf' ≤ commitIndex rfx' ∧ commitIndex rfx ≤ commitIndex rfx')%Z →
  expands h rf' rfx'.
Proof. intros [? ? ? ? ? ? ?] Hl Hlx Hs Hsx Ht Hp Ha Hc. split; rewrite ?Hl, ?Hlx, ?Hs, ?Hsx, ?Ht, ?Ha; try done. lia. Qed.

End Expand.

(** Field equations of two related peers. *)
Ltac ex_same H :=
  let Hs := fresh in pose proof (ex_same _ _ _ H) as Hs; unfold peer_state in Hs; injection Hs as ? ? ? ? ? ? ? ? ?.

(** The same peer up to what [expands_ext] asks for. *)
Ltac ex_ext H :=
  apply (expands_ext _ _ _ _ _ H); try reflexivity;
  [unfold peer_state; simpl; congruence|pose proof (ex_commit _ _ _ H); simpl; lia].

Section ExpandSteps.
Context {C : Type} `{!Gob (PState C), !GobOk (PState C)}.
Implicit Types rf : Raft C.
Implicit Types l lx : Log C.

Abbreviation es rf := (entries (log rf)).

Context (h : Z).

Lemma expand_nonneg rf rfx : expands h rf rfx → (0 ≤ snapshotIndex rf ≤ lastIndex (log rf))%Z.
Proof.
  intros [(pre & x & y & tl & _ & Hl & _) X2 _ _ _ _ _]. rewrite <-X2, Hl. unfold lastIndex, zlen. simpl. lia.
Qed.

(** ** Elections, and the service *)

Lemma expand_stepDown rf rfx t : expands h rf rfx → expands h (stepDown rf t) (stepDown rfx t).
Proof. intros Hx. ex_same Hx. ex_ext Hx. Qed.

Lemma expand_election rf rfx now1 now2 now3 rf' oargs :
  expands h rf rfx → leaderElection_start rf now1 now2 now3 = Ok (rf', oargs) →
  ∃ rfx', leaderElection_start rfx now1 now2 now3 = Ok (rfx', oargs) ∧ expands h rf' rfx'.
Proof.
  intros Hx H. unfold leaderElection_start in *. set (rf1 := if _ && _ then _ else rf) in H.
  set (rfx1 := if _ && _ then _ else rfx).
  assert (Hx1 : expands h rf1 rfx1).
  { ex_same Hx. unfold rf1, rfx1. replace (role rfx) with (role rf). replace (lastHeartbeat rfx) with (lastHeartbeat rf).
    destruct (_ && _); [|done]. ex_ext Hx. }
  clearbody rf1 rfx1. ex_same Hx1. replace (role rfx1) with (role rf1). replace (lastHeartbeat rfx1) with (lastHeartbeat rf1).
  destruct (_ && _); [|injection H as <- <-; by exists rfx1]. simpl in *.
  destruct (lastEntry (log rf1)) as [le|] eqn:El; [|done]. res_simpl. injection H as <- <-.
  destruct (expanded_lastEntry _ _ _ (ex_log _ _ _ Hx1) El) as (le' & -> & Ht). res_simpl.
  eexists. split.
  - rewrite Ht, (expanded_last _ _ (ex_log _ _ _ Hx1)). replace (currentTerm rfx1) with (currentTerm rf1).
    replace (me rfx1) with (me rf1). reflexivity.
  - ex_ext Hx1.
Qed.

Lemma expand_RequestVote rf rfx args now rf' reply :
  expands h rf rfx → RequestVote rf args now = Ok (rf', reply) →
  ∃ rfx', RequestVote rfx args now = Ok (rfx', reply) ∧ expands h rf' rfx'.
Proof.
  intros Hx H. ex_same Hx. unfold RequestVote in *. replace (currentTerm rfx) with (currentTerm rf).
  case_bool_decide; [injection H as <- <-; by exists rfx|].
  set (rf1 := if bool_decide _ then _ else rf) in H. set (rfx1 := if bool_decide _ then _ else rfx).
  assert (Hx1 : expands h rf1 rfx1).
  { clear H. unfold rf1, rfx1. case_bool_decide; [by apply expand_stepDown|done]. }
  clearbody rf1 rfx1. ex_same Hx1. replace (votedFor rfx1) with (votedFor rf1).
  destruct (_ || _); [|injection H as <- <-; by exists rfx1].
  destruct (lastEntry (log rf1)) as [le|] eqn:El; [|done]. res_simpl.
  destruct (expanded_lastEntry _ _ _ (ex_log _ _ _ Hx1) El) as (le' & -> & Ht). res_simpl.
  rewrite Ht, (expanded_last _ _ (ex_log _ _ _ Hx1)).
  destruct (upToDate _ _ _); injection H as <- <-; eexists; (split; [done|]); [|done]. ex_ext Hx1.
Qed.

Lemma expand_countVotes rf rfx el reply rf' el' :
  expands h rf rfx → countVotes_step rf el reply = (rf', el') →
  ∃ rfx', countVotes_step rfx el reply = (rfx', el') ∧ expands h rf' rfx'.
Proof.
  intros Hx H. ex_same Hx. unfold countVotes_step in *. replace (currentTerm rfx) with (currentTerm rf).
  repeat case_match; injection H as <- <-; eexists; (split; [done|]); by try apply expand_stepDown.
Qed.

Lemma expand_finish rf rfx el :
  expands h rf rfx → expands h (leaderElection_finish rf el) (leaderElection_finish rfx el).
Proof.
  intros Hx. ex_same Hx. unfold leaderElection_finish. replace (currentTerm rfx) with (currentTerm rf).
  replace (role rfx) with (role rf). replace (npeers rfx) with (npeers rf).
  repeat case_match; try done. apply (expands_ext _ _ _ _ _ Hx); try reflexivity.
  - unfold peer_state. simpl. rewrite (expanded_last _ _ (ex_log _ _ _ Hx)). congruence.
  - pose proof (ex_commit _ _ _ Hx). simpl. lia.
Qed.

Lemma expand_Start rf rfx cmd rf' result :
  expands h rf rfx → Start rf cmd = (rf', result) →
  ∃ rfx' result', Start rfx cmd = (rfx', result') ∧ expands h rf' rfx'.
Proof.
  intros Hx H. ex_same Hx. unfold Start in *. replace (role rfx) with (role rf). replace (currentTerm rfx) with (currentTerm rf).
  case_bool_decide; injection H as <- _; eexists _, _; (split; [reflexivity|]); [|done].
  pose proof Hx as [X1 X2 X3 X4 _ X5 X6]. split; simpl; [by apply expanded_append|done|done| |unfold peer_state; simpl; congruence|done|done].
  destruct (es rf); [done|exact X4].
Qed.

Lemma expand_Kill rf rfx : expands h rf rfx → expands h (Kill rf) (Kill rfx).
Proof. intros Hx. ex_same Hx. ex_ext Hx. Qed.

(** The full peer need not know of a snapshot. *)
Lemma expand_Snapshot rf rfx index snap rf' :
  expands h rf rfx → (index ≤ commitIndex rfx)%Z → Snapshot rf index snap = Ok rf' → expands h rf' rfx.
Proof.
  intros Hx Hi H. ex_same Hx. unfold Snapshot in H. case_bool_decide; [by injection H as <-|].
  destruct (entry _ _) as [e|] eqn:Ee; [|done]. simpl in Ee. res_simpl. simpl in H.
  destruct (cutOffHead _ _) as [l'|] eqn:Ec; [|done]. res_simpl. injection H as <-.
  destruct (expanded_cutHead _ _ _ _ _ (ex_log _ _ _ Hx) Ee Ec) as (Hl & Hb & Hhd).
  pose proof Hx as [X1 X2 X3 X4 _ X5 X6]. split; simpl; [done|done|done|by rewrite Hhd|unfold peer_state; simpl; congruence|done|lia].
Qed.

(** ** A follower *)

Lemma expand_heardLeader rf rfx t (lead now : Z) :
  expands h rf rfx → expands h (heardLeader rf t lead now) (heardLeader rfx t lead now).
Proof.
  intros Hx. ex_same Hx. unfold heardLeader. simpl. replace (role rfx) with (role rf).
  replace (currentTerm rfx) with (currentTerm rf).
  destruct (_ || _); [apply expand_stepDown|]; ex_ext Hx.
Qed.

(** A new log with the same base. *)
Lemma expand_set_log rf rfx l lx :
  expands h rf rfx → expanded l lx → index0 l = index0 (log rf) → eTerm <$> entries l !! 0 = Some (snapshotTerm rf) →
  expands h (persistSate (set_log l rf)) (persistSate (set_log lx rfx)).
Proof.
  intros Hx Hl H0 Ht. ex_same Hx. pose proof Hx as [X1 X2 X3 X4 _ X5 X6].
  split; simpl; [done|congruence|done|done|unfold peer_state; simpl; congruence|done|done].
Qed.

Lemma expand_followerCommit rf rfx lc :
  expands h rf rfx → (lc ≤ lastIndex (log rfx))%Z → expands h (followerCommit rf lc) (followerCommit rfx lc).
Proof.
  intros Hx Hlc. ex_same Hx. pose proof (ex_commit _ _ _ Hx) as Hc. pose proof (expand_nonneg _ _ Hx) as Hn. pose proof (expanded_last _ _ (ex_log _ _ _ Hx)) as Hlast.
  unfold followerCommit. rewrite !Min_min. rewrite Hlast in *.
  case_bool_decide; case_bool_decide; try done;
    (apply (expands_ext _ _ _ _ _ Hx); try reflexivity; [unfold peer_state; simpl; congruence|simpl; lia]).
Qed.

Section Append.
Context (G : gmap Z (nat * list (Entry C))) (args : AppendEntriesArgs C) (b : nat) (g : list (Entry C)) (k m : nat).
Context (Hrq : request_ok G args b g k m).
Context (Hlc : (aea_LeaderCommitIndex args < Z.of_nat m ∨ aea_LeaderCommitIndex args = 0)%Z).

Lemma append_len : zlen (aea_Entries args) = (Z.of_nat m - Z.of_nat k)%Z.
Proof.
  destruct Hrq as [_ _ Hkm Hm _ Hes]. unfold zlen. rewrite Hes, length_take, length_drop. lia.
Qed.

(** After the entries are placed the log reaches what is committed. *)
Lemma place_reaches l l' :
  log_wf l → index0 l = 0%Z → (Z.of_nat k ≤ lastIndex l + 1)%Z → place l (Z.of_nat k) (aea_Entries args) = Ok l' →
  (aea_LeaderCommitIndex args ≤ lastIndex l')%Z.
Proof.
  intros Hwf H0 Hk H. destruct Hrq as [_ _ Hkm Hm _ _].
  destruct (place_stored l (Z.of_nat k) (aea_Entries args) Hwf ltac:(lia) ltac:(lia)) as (l1 & Hp & _ & [_ _ _ Hlast _]).
  rewrite H in Hp. injection Hp as <-. rewrite append_len in Hlast. destruct (stale_tail _ _ _); lia.
Qed.

(** A request that starts below the snapshot: the full log has the entries
    up to the snapshot. *)
Lemma expand_append_below rf rfx :
  expands h rf rfx → raft_wf rfx → term_sorted (es rfx) → has (es rfx) g (S (Z.to_nat (snapshotIndex rf))) →
  (aea_PrevLogIndex args < snapshotIndex rf)%Z →
  let i := (snapshotIndex rf - aea_PrevLogIndex args - 1)%Z in
  (∀ e, entry (log rfx) (aea_PrevLogIndex args) = Ok e → eTerm e = aea_PrevLogTerm args) ∧
  ((zlen (aea_Entries args) ≤ i)%Z →
   place (log rfx) (Z.of_nat k) (aea_Entries args) = Ok (log rfx) ∧ (aea_LeaderCommitIndex args ≤ snapshotIndex rf)%Z) ∧
  ∀ e a l', idx (aea_Entries args) i = Ok e → eTerm e = snapshotTerm rf → slice_from (aea_Entries args) i = Ok a →
    place (log rf) (snapshotIndex rf) a = Ok l' →
    ∃ lx', place (log rfx) (Z.of_nat k) (aea_Entries args) = Ok lx' ∧ expanded l' lx' ∧ index0 l' = index0 (log rf) ∧
      eTerm <$> entries l' !! 0 = Some (snapshotTerm rf).
Proof.
  intros Hx Hwf Hsort Hh Hprev i. pose proof Hx as [X1 X2 X3 _ _ _ _]. pose proof append_len as Hlen.
  destruct Hrq as [_ Hpk Hkm Hm (ep & Hep & Hpt) Hes]. set (s := Z.to_nat (snapshotIndex rf)) in *.
  assert (H0 : index0 (log rfx) = 0%Z) by (by rewrite (wf_base _ Hwf)).
  assert (Hi : i = (Z.of_nat s - Z.of_nat k)%Z) by lia. pose proof Hh as (Hsl & Hsg & Hst).
  assert (Htk : ∀ j, j ≤ S s → take j (es rfx) = take j g) by (intros j Hj; apply (has_le _ _ _ j Hh Hj)).
  split_and!.
  - intros e He. rewrite Hpk in He. replace (Z.of_nat k - 1)%Z with (Z.of_nat (k - 1)) in He by lia.
    apply entry_uncompacted in He; [|done]. rewrite (has_lookup _ _ _ (k - 1) Hh) in He by lia. congruence.
  - intros Hle. split; [|lia].
    apply place_present_noop; rewrite ?H0, ?Z.sub_0_r, ?Nat2Z.id; [unfold lastIndex, zlen; lia|done|].
    rewrite Hes. rewrite length_take, length_drop, Nat.min_l by lia.
    rewrite !take_drop_commute. by rewrite Htk by lia.
  - intros e a l' [_ He]%idx_Ok Het [Hai ->]%slice_from_Ok Hp. rewrite <-X2 in Hp.
    assert (Ha : aea_Entries args = take (Z.to_nat i) (aea_Entries args) ++ drop (Z.to_nat i) (aea_Entries args)) by (by rewrite take_drop).
    pose proof (lookup_lt_Some _ _ _ He) as Hlt.
    edestruct (expanded_place_head (log rf) (log rfx) (Z.of_nat k) (take (Z.to_nat i) (aea_Entries args)))
      as (lx' & Hpx & Hl & Hb & Hhd); [done|lia| | | |exact Hp|].
    + intros Hnil. apply (f_equal length) in Hnil. rewrite length_drop in Hnil. simpl in Hnil. lia.
    + unfold zlen in *. rewrite length_take. lia.
    + rewrite Nat2Z.id, X2, Hes, take_take, Nat.min_l by (rewrite Hes, length_take in Hlt; lia).
      fold s. rewrite !Htk, take_take_drop by lia. f_equal. lia.
    + rewrite <-Ha in Hpx. exists lx'. split_and!; [done..|]. rewrite Hhd, lookup_drop, Nat.add_0_r, He. simpl. by rewrite Het.
Qed.

(** The full peer gives the same reply: up to its snapshot a peer has the
    entries of every later leader. *)
Lemma expand_AppendEntries rf rfx now rf' reply :
  expands h rf rfx → raft_wf rfx → term_sorted (es rfx) →
  ((currentTerm rf ≤ aea_Term args)%Z → has (es rfx) g (S (Z.to_nat (snapshotIndex rf)))) →
  AppendEntries rf args now = Ok (rf', reply) →
  ∃ rfx', AppendEntries rfx args now = Ok (rfx', reply) ∧ expands h rf' rfx'.
Proof.
  intros Hx Hwf Hsort Hh H. ex_same Hx. unfold AppendEntries in *. replace (currentTerm rfx) with (currentTerm rf).
  case_bool_decide as Hold; [injection H as <- <-; by exists rfx|]. specialize (Hh ltac:(lia)).
  pose proof (heardLeader_wf rfx (aea_Term args) (aea_LeaderId args) now Hwf) as Hwf1.
  apply (expand_heardLeader _ _ (aea_Term args) (aea_LeaderId args) now) in Hx.
  destruct (heardLeader_frame rf (aea_Term args) (aea_LeaderId args) now) as (_ & Hsi & _).
  destruct (heardLeader_frame rfx (aea_Term args) (aea_LeaderId args) now) as (Hlx & _).
  rewrite <-Hsi in Hh. rewrite <-Hlx in Hh, Hsort.
  set (rf1 := heardLeader rf _ _ _) in *. set (rfx1 := heardLeader rfx _ _ _) in *. clearbody rf1 rfx1.
  clear Hold Hsi Hlx. pose proof Hx as [X1 X2 X3 X4 _ X5 X6]. pose proof (expanded_last _ _ X1) as Hlast. rewrite Hlast.
  pose proof Hrq as [_ Hpk Hkm Hm (ep & Hep & Hpt) _].
  assert (H00 : index0 (log rfx1) = 0%Z) by (by rewrite (wf_base _ Hwf1)).
  case_bool_decide as Hshort.
  { destruct (lastEntry (log rf1)) as [le|] eqn:El; [|done]. res_simpl. injection H as <- <-.
    destruct (expanded_lastEntry _ _ _ X1 El) as (le' & -> & Ht). res_simpl. exists rfx1. by rewrite Ht. }
  rewrite (bool_decide_false (aea_PrevLogIndex args < snapshotIndex rfx1)%Z) by lia.
  replace (aea_PrevLogIndex args + 1)%Z with (Z.of_nat k) in * by lia.
  assert (Hplaced : ∀ l' lx', place (log rfx1) (Z.of_nat k) (aea_Entries args) = Ok lx' → expanded l' lx' →
    index0 l' = index0 (log rf1) → eTerm <$> entries l' !! 0 = Some (snapshotTerm rf1) →
    expands h (followerCommit (persistSate (set_log l' rf1)) (aea_LeaderCommitIndex args))
            (followerCommit (persistSate (set_log lx' rfx1)) (aea_LeaderCommitIndex args))).
  { intros l' lx' Hpl Hl Hb Ht. apply expand_followerCommit; [by apply expand_set_log|]. simpl.
    eapply place_reaches; [apply Hwf1|done| |done]. lia. }
  destruct (entry_returns (log rfx1) (aea_PrevLogIndex args)) as [ex Hex]; [lia|]. rewrite Hex. res_simpl.
  case_bool_decide as Hbelow.
  - destruct (expand_append_below rf1 rfx1 Hx Hwf1 Hsort Hh Hbelow) as (Hterm & Hnone & Hsome).
    rewrite bool_decide_false by (rewrite (Hterm ex Hex); naive_solver). case_bool_decide as Hlong.
    + destruct (idx _ _) as [e|] eqn:Ee; [|done]. res_simpl. unfold Assert in H. case_bool_decide as Het; [|done]. res_simpl.
      destruct (slice_from _ _) as [a|] eqn:Ea; [|done]. res_simpl. destruct (place _ _ a) as [l'|] eqn:Ep; [|done]. res_simpl.
      injection H as <- <-. destruct (Hsome e a l' eq_refl Het eq_refl Ep) as (lx' & Hpx & Hl & Hb & Ht).
      rewrite Hpx. res_simpl. eexists. split; [done|]. by apply Hplaced.
    + injection H as <- <-. destruct (Hnone ltac:(lia)) as [-> Hlow]. res_simpl. eexists. split; [done|].
      unfold followerCommit. simpl. rewrite bool_decide_false by lia. ex_same Hx. ex_ext Hx.
  - destruct (entry (log rf1) (aea_PrevLogIndex args)) as [e|] eqn:Ee; [|done]. res_simpl.
    destruct (expanded_term _ _ _ _ X1 Ee) as (e' & Hex' & Het). rewrite Hex in Hex'. injection Hex' as <-. rewrite Het.
    case_bool_decide as Hconf.
    + assert (snapshotIndex rf1 < aea_PrevLogIndex args)%Z as Habove.
      { destruct (decide (aea_PrevLogIndex args = snapshotIndex rf1)) as [Heq|]; [|lia]. exfalso. apply Hconf.
        rewrite <-Het, <-Hpt. f_equal. replace (aea_PrevLogIndex args) with (Z.of_nat (k - 1)) in Hex by lia.
        apply entry_uncompacted in Hex; [|done]. rewrite (has_lookup _ _ _ (k - 1) Hh) in Hex by lia. congruence. }
      destruct (cutOffTail (log rf1) _) as [l'|] eqn:Ec; [|done]. res_simpl. injection H as <- <-.
      destruct (expanded_cutTail _ _ (aea_PrevLogIndex args) _ X1 ltac:(lia) Ec) as (lx' & -> & Hl & Hb & Hhd). res_simpl.
      eexists. split; [done|]. apply expand_set_log; [done|done|done|by rewrite Hhd].
    + destruct (place (log rf1) _ _) as [l'|] eqn:Ep; [|done]. res_simpl. injection H as <- <-.
      destruct (expanded_place _ _ (Z.of_nat k) _ _ X1 ltac:(lia) Ep) as (lx' & Hpx & Hl & Hb & Hhd). rewrite Hpx. res_simpl.
      eexists. split; [done|]. apply Hplaced; [done|done|done|by rewrite Hhd].
Qed.
End Append.

(** ** A leader *)

Lemma expand_leaderCommit rf rfx rf' :
  expands h rf rfx → leaderCommit rf = Ok rf' → ∃ rfx', leaderCommit rfx = Ok rfx' ∧ expands h rf' rfx'.
Proof.
  intros Hx H. ex_same Hx. pose proof (expand_nonneg _ _ Hx) as Hn. pose proof Hx as [X1 X2 X3 X4 _ X5 X6].
  pose proof (expanded_last _ _ X1) as Hlast. unfold leaderCommit, getSortedMatchIndex in *. rewrite Hlast.
  replace (matchIndex rfx) with (matchIndex rf). replace (me rfx) with (me rf). replace (currentTerm rfx) with (currentTerm rf).
  destruct (upd _ _ _) as [ms|]; [|done]. res_simpl. set (srt := sort_Ints ms) in *.
  destruct (idx srt ((zlen (matchIndex rf) + 1) / 2 - 1)) as [ci|] eqn:Eci; [|done]. res_simpl. rewrite X3.
  assert (∃ lo, idx srt 0 = Ok lo) as [lo Hlo].
  { destruct (idx_returns srt 0) as (lo & Hlo & _); [|by exists lo]. apply idx_Ok in Eci as [_ ?%lookup_lt_Some].
    unfold zlen. lia. }
  rewrite Hlo in *. case_bool_decide as Hci.
  - injection H as <-. case_bool_decide; [by exists rfx|].
    destruct (entry_returns (log rfx) ci) as [e ->]; [rewrite Hlast; destruct X1 as (? & ? & ? & ? & -> & _); simpl; lia|].
    res_simpl. rewrite (bool_decide_false (ci > commitIndex rfx)%Z), andb_false_r by lia. by exists rfx.
  - rewrite bool_decide_false by lia. rewrite (expanded_entry _ _ _ X1) by lia.
    destruct (entry (log rf) ci) as [e|]; [|done]. res_simpl.
    destruct (_ || _); simpl in *; [|injection H as <-; by exists rfx].
    repeat case_bool_decide; injection H as <-; eexists; (split; [reflexivity|]); try done;
      first [lia|apply (expands_ext _ _ _ _ _ Hx); try reflexivity; [unfold peer_state; simpl; congruence|simpl; lia]].
Qed.

(** The entry of the snapshot in the full log. *)
Lemma expand_head rf rfx :
  expands h rf rfx → ∃ e, es rfx !! Z.to_nat (snapshotIndex rf) = Some e ∧ eTerm e = snapshotTerm rf.
Proof.
  intros [(pre & x & y & tl & Hlx & Hl & Ht) X2 _ X4 _ _ _]. rewrite Hl in X2, X4. simpl in *. injection X4 as X4.
  exists x. rewrite Hlx, <-X2. simpl. rewrite Nat2Z.id, list_lookup_middle; [|done]. split; [done|congruence].
Qed.

(** What the leader sends, the full leader would send, too; instead of a
    snapshot it sends the entries. *)
Definition with_commit (lc : Z) (a : AppendEntriesArgs C) : AppendEntriesArgs C :=
  mkAppendEntriesArgs (aea_Term a) (aea_LeaderId a) (aea_PrevLogIndex a) (aea_PrevLogTerm a) (aea_Entries a) lc.

Definition sent_as rf (a : AppendEntriesArgs C) (msg : LeaderMsg C) : Prop :=
  match msg with
  | MsgAppendEntries args => args = with_commit (commitIndex rf) a
  | MsgInstallSnapshot args =>
      isa_Term args = aea_Term a ∧ isa_LeaderId args = aea_LeaderId a ∧
      isa_LastIncludedIndex args = snapshotIndex rf ∧ (aea_PrevLogIndex a < snapshotIndex rf)%Z ∧
      ∃ e, aea_Entries a !! Z.to_nat (snapshotIndex rf - aea_PrevLogIndex a - 1) = Some e ∧
        eTerm e = isa_LastIncludedTerm args
  end.

Lemma expand_replicateTo rf rfx p msg :
  expands h rf rfx → (∀ nx, idx (nextIndex rf) p = Ok nx → (1 ≤ nx)%Z) → replicateTo rf p = Ok msg →
  ∃ a, replicateTo rfx p = Ok (MsgAppendEntries a) ∧ sent_as rf a msg.
Proof.
  intros Hx Hnx H. ex_same Hx. pose proof (expand_nonneg _ _ Hx) as Hn. pose proof (expand_head _ _ Hx) as (eh & Heh & Hteh).
  pose proof Hx as [X1 X2 X3 X4 _ X5 X6]. pose proof (expanded_last _ _ X1) as Hlast.
  assert (H00 : index0 (log rfx) = 0%Z) by (by destruct X1 as (? & ? & ? & ? & -> & _)).
  unfold replicateTo in *. replace (nextIndex rfx) with (nextIndex rf). replace (matchIndex rfx) with (matchIndex rf).
  replace (currentTerm rfx) with (currentTerm rf). replace (me rfx) with (me rf). rewrite X3.
  destruct (idx (nextIndex rf) p) as [nx|]; [|done]. res_simpl. specialize (Hnx nx eq_refl).
  destruct (idx (matchIndex rf) p) as [mx|]; [|done]. res_simpl.
  destruct (Assert _); [|done]. res_simpl. rewrite (bool_decide_false (nx - 1 < 0)%Z) by lia.
  case_bool_decide as Hbelow.
  - injection H as <-. destruct (entry_returns (log rfx) (nx - 1)) as [e ->]; [lia|]. res_simpl. unfold slice.
    assert (slice_from (es rfx) (nx - 1 + 1 - index0 (log rfx)) = Ok (drop (Z.to_nat nx) (es rfx))) as ->.
    { apply slice_from_Ok. unfold lastIndex in *. split; [lia|]. f_equal. lia. }
    res_simpl. eexists. split; [done|]. split_and!; simpl; try done. exists eh. split; [|done].
    rewrite lookup_drop, <-Heh. f_equal. lia.
  - destruct (entry (log rf) (nx - 1)) as [e|] eqn:Ee; [|done]. res_simpl.
    destruct (expanded_term _ _ _ _ X1 Ee) as (e' & -> & Ht). res_simpl. rewrite (expanded_slice _ _ _ X1) by lia.
    destruct (slice _ _) as [sl|]; [|done]. res_simpl. injection H as <-. eexists. split; [done|]. unfold with_commit. simpl. by rewrite Ht.
Qed.

Lemma expand_books rf rfx ns ms :
  expands h rf rfx → expands h (set_nextIndex ns (set_matchIndex ms rf)) (set_nextIndex ns (set_matchIndex ms rfx)).
Proof. intros Hx. ex_same Hx. ex_ext Hx. Qed.

(** A rejection may move nextIndex of a compacted leader to another place,
    since it looks for the term of the conflict only above its snapshot. *)
Lemma expand_sendAppendEntries rf rfx server args reply rf' :
  expands h rf rfx → sendAppendEntries rf server args reply = Ok rf' →
  (∃ rfx', sendAppendEntries rfx server args reply = Ok rfx' ∧ expands h rf' rfx') ∨
  (role rf = LEADER ∧ aea_Term args = currentTerm rf ∧ aer_Success reply = false ∧ (aer_Term reply ≤ currentTerm rf)%Z ∧
   (0 ≤ server)%Z ∧ ∃ mo nn, matchIndex rf !! Z.to_nat server = Some mo ∧ conflictNextIndex rf reply = Ok nn ∧
     rf' = set_nextIndex (<[Z.to_nat server := Max (mo + 1) nn]> (nextIndex rf)) rf).
Proof.
  intros Hx H. ex_same Hx. unfold sendAppendEntries in *. replace (currentTerm rfx) with (currentTerm rf).
  replace (role rfx) with (role rf). replace (matchIndex rfx) with (matchIndex rf).
  destruct (_ || _) eqn:E; [injection H as <-; left; by exists rfx|].
  apply orb_false_iff in E as [E1%bool_decide_eq_false E2%bool_decide_eq_false]. apply dec_stable in E1, E2.
  destruct (aer_Success reply).
  - left. destruct (idx (matchIndex rf) server) as [mo|] eqn:Emo; [|done]. res_simpl.
    assert (Hnext : ∀ rf1 rfx1 rf', expands h rf1 rfx1 →
      mbind (λ m, mbind (λ ns, Ok (set_nextIndex ns rf1)) (upd (nextIndex rf1) server (m + 1)%Z)) (idx (matchIndex rf1) server) = Ok rf' →
      ∃ rfx', mbind (λ m, mbind (λ ns, Ok (set_nextIndex ns rfx1)) (upd (nextIndex rfx1) server (m + 1)%Z)) (idx (matchIndex rfx1) server)
        = Ok rfx' ∧ expands h rf' rfx').
    { clear. intros rf1 rfx1 rf' Hx H. ex_same Hx. replace (matchIndex rfx1) with (matchIndex rf1).
      replace (nextIndex rfx1) with (nextIndex rf1). destruct (idx _ _); [|done]. res_simpl. destruct (upd _ _ _); [|done].
      res_simpl. injection H as <-. eexists. split; [done|]. ex_ext Hx. }
    case_bool_decide; [|by apply (Hnext rf rfx)].
    destruct (upd (matchIndex rf) _ _) as [ms|]; [|done]. res_simpl.
    destruct (leaderCommit (set_matchIndex ms rf)) as [rf1|] eqn:El; [|done]. res_simpl.
    destruct (expand_leaderCommit (set_matchIndex ms rf) (set_matchIndex ms rfx) rf1) as (rfx1 & -> & Hx1); [|done|]; [ex_ext Hx|].
    res_simpl. by apply (Hnext rf1 rfx1).
  - case_bool_decide; [injection H as <-; left; eexists; (split; [done|]); by apply expand_stepDown|]. right.
    destruct (conflictNextIndex rf reply) as [nn|]; [|done]. res_simpl.
    destruct (idx (matchIndex rf) server) as [mo|] eqn:Emo; [|done]. res_simpl. apply idx_Ok in Emo as [? ?].
    destruct (upd _ _ _) as [ns|] eqn:Eu; [|done]. res_simpl. apply upd_Ok in Eu as [_ ->]. injection H as <-.
    split_and!; try done. by exists mo, nn.
Qed.

(** ** The full peer behind a compacted one *)

Definition expansion (lx : Log C) (ci : Z) rf : Raft C :=
  persist (set_log lx (set_snapshotTerm 0 (set_snapshotIndex 0 (set_commitIndex ci (set_lastApplied 0 rf))))).

Lemma expansion_wf lx ci rf : raft_wf rf → log_wf lx → index0 lx = 0%Z → raft_wf (expansion lx ci rf).
Proof. intros [? ? ? ? ? ?] Hl H0. split; try done. apply synced_persist. Qed.

Lemma expansion_expands lx ci rf :
  raft_wf rf → expanded (log rf) lx → eTerm <$> es rf !! 0 = Some (snapshotTerm rf) →
  (0 ≤ commitIndex rf ∧ snapshotIndex rf ≤ ci ∧ commitIndex rf ≤ ci ∧ lastApplied rf ≤ ci ∧ h ≤ ci)%Z → expands h rf (expansion lx ci rf).
Proof. intros Hwf Hl Ht Hc. split; try done. apply Hwf. Qed.
End ExpandSteps.
