(* ===== verification/RaftCompaction.v ===== *)
(** * Safety with log compaction

    The safety of the replicated log for runs in which the services compact
    the logs of their peers ([Snapshot]) and leaders send snapshots to peers
    that are too far behind ([InstallSnapshot]).

    A run is followed by a second one, in which every peer keeps its whole
    log ([RaftExpand]) and every snapshot a leader sends is an AppendEntries
    with the entries themselves: [simulates] relates the two clusters, and
    every step of the one is a step of the other that keeps the invariants of
    [RaftSafety].  A peer that installs a snapshot in the one gets the
    leader's log up to that index in the other, and its reply acknowledges
    these entries.

    Two conditions are put on the steps.  A service calls [Snapshot] only
    with an index it was handed.  And a snapshot is installed into a log that
    is longer only if the log has the snapshot's term at its index: the code
    does not check this, and without it the log of the peer would keep
    entries of an older term behind the snapshot
    ([InstallSnapshot_keeps_conflict]).

    The results ([applied_serviced], [complete_serviced], [matching_serviced])
    are about the cluster whose requests are copies; [RaftShared] has the
    theorems, for logs in memory. *)

From stdpp Require Import base list gmap sorting.
From Stdlib Require Import ZArith Lia.
From S2P Require Import Prelude RaftLog RaftCore RaftElection RaftReplication RaftApply RaftNode RaftCluster RaftLogMatching RaftSafety RaftExpand.

Section Compaction.
Context {C : Type} `{!Gob (PState C), !GobOk (PState C)}.
Implicit Types rf : Raft C.
Implicit Types c X : Cluster (C := C).
Implicit Types nd : Node (C := C).

Abbreviation es rf := (entries (log rf)).
Abbreviation LeaderLogs := (gmap Z (nat * list (Entry C))).
Implicit Types G : LeaderLogs.

(** ** The runs *)

(** How far the service of a peer has been handed the log, the message that
    its applier is sending included. *)
Definition sending_index (sending : option (ApplyMsg C)) : Z :=
  match sending with Some msg => msg_index msg | None => 0 end.

Definition handed nd : Z := Z.max (lastApplied (nd_raft nd)) (sending_index (nd_sending nd)).

(** A log that goes on behind the snapshot has the snapshot's last entry. *)
Definition snapshot_fits rf (args : InstallSnapshotArgs) : Prop :=
  ∀ e, (isa_LastIncludedIndex args < lastIndex (log rf))%Z → entry (log rf) (isa_LastIncludedIndex args) = Ok e →
    eTerm e = isa_LastIncludedTerm args.

Definition same_snapshots c c' : Prop :=
  ∀ i nd nd', cl_nodes c !! i = Some nd → cl_nodes c' !! i = Some nd' →
    snapshotIndex (nd_raft nd') = snapshotIndex (nd_raft nd).

Inductive serviced_step c : Cluster → Prop :=
(* no peer compacts its log *)
| ss_plain c' : cluster_step c c' → same_snapshots c c' → serviced_step c c'
(* the service saved its state up to an index it was handed *)
| ss_Snapshot i nd index snap rf' :
    cl_nodes c !! i = Some nd → (index ≤ handed nd)%Z → Snapshot (nd_raft nd) index snap = Ok rf' →
    serviced_step c (set_raft c i nd rf')
(* a snapshot of the leader arrives *)
| ss_InstallSnapshot i nd args now rf' reply :
    cl_nodes c !! i = Some nd → (i, MsgInstallSnapshot args) ∈ cl_msgs c → snapshot_fits (nd_raft nd) args →
    InstallSnapshot (nd_raft nd) args now = Ok (rf', reply) →
    serviced_step c (add_isreply (i, args, reply) (set_raft c i nd rf')).

Definition reachable_serviced (n : nat) c : Prop := ∃ now, rtc serviced_step (initCluster n now) c.

Lemma serviced_cluster_step c c' : serviced_step c c' → cluster_step c c'.
Proof.
  intros [c1 ? _|i nd index snap rf' ? _ ?|i nd args now rf' reply ? ? _ ?];
    [done|by eapply cs_Snapshot|by eapply cs_InstallSnapshot].
Qed.

(** ** The uncompacted cluster *)

Definition node_rel nd ndx : Prop :=
  expands (sending_index (nd_sending nd)) (nd_raft nd) (nd_raft ndx) ∧
  nd_threads ndx = nd_threads nd ∧ nd_sending ndx = None.

(** A snapshot was sent: the entries were. *)
Definition snap_sent X (p : Z) (args : InstallSnapshotArgs) : Prop :=
  ∃ a e, (p, MsgAppendEntries a) ∈ cl_msgs X ∧ aea_Term a = isa_Term args ∧ aea_LeaderId a = isa_LeaderId args ∧
    (aea_PrevLogIndex a < isa_LastIncludedIndex args)%Z ∧ aea_LeaderCommitIndex a = isa_LastIncludedIndex args ∧
    aea_Entries a !! Z.to_nat (isa_LastIncludedIndex args - aea_PrevLogIndex a - 1) = Some e ∧
    eTerm e = isa_LastIncludedTerm args.

(** A snapshot was installed: the entries up to it are acknowledged. *)
Definition snap_reply (args : InstallSnapshotArgs) (a : AppendEntriesArgs C) (r : AppendEntriesReply) : Prop :=
  aer_Success r = true ∧ aea_Term a = isa_Term args ∧ aea_LeaderId a = isa_LeaderId args ∧
  aea_PrevLogIndex a = isa_LastIncludedIndex args ∧ aea_Entries a = [].

Definition snap_acked X (p : Z) (args : InstallSnapshotArgs) : Prop :=
  ∃ a r, (p, a, r) ∈ cl_aereplies X ∧ snap_reply args a r.

Definition msg_rel X (p : Z) (msg : LeaderMsg C) : Prop :=
  match msg with
  | MsgAppendEntries _ => (p, msg) ∈ cl_msgs X
  | MsgInstallSnapshot args => snap_sent X p args
  end.

Record simulates c X : Prop := {
  sm_nodes : map_Forall2 (λ _, node_rel) (cl_nodes c) (cl_nodes X);
  sm_requests : cl_requests X = cl_requests c;
  sm_votes : cl_votes X = cl_votes c;
  sm_leaders : cl_leaders X = cl_leaders c;
  sm_msgs : ∀ p msg, (p, msg) ∈ cl_msgs c → msg_rel X p msg;
  sm_aereplies : ∀ r, r ∈ cl_aereplies c → r ∈ cl_aereplies X;
  sm_isreplies : ∀ p args r, (p, args, r) ∈ cl_isreplies c →
    (isa_Term args < isr_Term r)%Z ∨ snap_acked X p args;
  sm_applied : ∀ i msg, (i, msg) ∈ cl_applied c → CommandValid msg = false ∨ (i, msg) ∈ cl_applied X;
}.

Lemma sim_node c X i nd :
  simulates c X → cl_nodes c !! i = Some nd → ∃ ndx, cl_nodes X !! i = Some ndx ∧ node_rel nd ndx.
Proof.
  intros Hsim Hi. pose proof (sm_nodes _ _ Hsim i) as H. rewrite Hi in H. inversion H as [? ndx Hr Heq Hx|].
  by exists ndx.
Qed.

Lemma sim_node_inv c X i ndx :
  simulates c X → cl_nodes X !! i = Some ndx → ∃ nd, cl_nodes c !! i = Some nd ∧ node_rel nd ndx.
Proof.
  intros Hsim Hi. pose proof (sm_nodes _ _ Hsim i) as H. rewrite Hi in H. inversion H as [nd ? Hr Heq Hx|].
  by exists nd.
Qed.

Lemma sim_uncompacted c X : simulates c X → uncompacted X.
Proof. intros Hsim i ndx Hi. destruct (sim_node_inv _ _ _ _ Hsim Hi) as (nd & _ & Hr & _). apply Hr. Qed.

(** One node changes in both clusters. *)
Lemma sim_step c X c' X' i nd' ndx' :
  simulates c X → cl_nodes c' = <[i := nd']> (cl_nodes c) → cl_nodes X' = <[i := ndx']> (cl_nodes X) →
  node_rel nd' ndx' → cl_requests X' = cl_requests c' → cl_votes X' = cl_votes c' → cl_leaders X' = cl_leaders c' →
  (∀ x, x ∈ cl_msgs X → x ∈ cl_msgs X') → (∀ x, x ∈ cl_aereplies X → x ∈ cl_aereplies X') →
  (∀ x, x ∈ cl_applied X → x ∈ cl_applied X') →
  (∀ p msg, (p, msg) ∈ cl_msgs c' → (p, msg) ∈ cl_msgs c ∨ msg_rel X' p msg) →
  (∀ r, r ∈ cl_aereplies c' → r ∈ cl_aereplies c ∨ r ∈ cl_aereplies X') →
  (∀ p args r, (p, args, r) ∈ cl_isreplies c' → (p, args, r) ∈ cl_isreplies c ∨
     (isa_Term args < isr_Term r)%Z ∨ snap_acked X' p args) →
  (∀ j msg, (j, msg) ∈ cl_applied c' → (j, msg) ∈ cl_applied c ∨ CommandValid msg = false ∨ (j, msg) ∈ cl_applied X') →
  simulates c' X'.
Proof.
  intros [N1 N2 N3 N4 N5 N6 N7 N8] Hn HnX Hr Hrq Hv Hl Hm Ha Hp M1 M2 M3 M4. split; [|done..| | | |].
  - rewrite Hn, HnX. by apply map_Forall2_insert_2.
  - intros p msg Hin. destruct (M1 p msg Hin) as [Hold|?]; [|done]. specialize (N5 p msg Hold).
    destruct msg as [args|args]; simpl in *; [by apply Hm|]. destruct N5 as (a & e & ? & ?). exists a, e. split; [by apply Hm|done].
  - intros r Hin. destruct (M2 r Hin); auto.
  - intros p args r Hin. destruct (M3 p args r Hin) as [Hold|?]; [|done]. destruct (N7 p args r Hold) as [?|(a & r' & ? & ?)]; [by left|right].
    exists a, r'. auto.
  - intros j msg Hin. destruct (M4 j msg Hin) as [Hold|?]; [|done]. destruct (N8 j msg Hold); auto.
Qed.

(** The invariant of the votes carries over. *)
Lemma sim_inv n c X :
  cluster_inv n c → simulates c X → (∀ i ndx, cl_nodes X !! i = Some ndx → raft_wf (nd_raft ndx)) → cluster_inv n X.
Proof.
  intros [I1 I2 I3 I4 I5] Hsim Hwf. pose proof Hsim as [_ N2 N3 N4 _ _ _ _].
  assert (Hge : ∀ v T l, granted_vote X v T l ↔ granted_vote c v T l) by (intros v T l; by apply granted_vote_ext).
  assert (Hm : more_votes c X) by (intros v T l; by rewrite Hge).
  split; rewrite ?N2, ?N4; try done.
  - intros i ndx Hi. destruct (sim_node_inv _ _ _ _ Hsim Hi) as (nd & Hnd & Hx & Hth & _).
    destruct (I1 i nd Hnd) as [_ J2 J3 J4 J5 J6 J7]. ex_same Hx.
    assert (Hpo : ∀ T P, past_or (nd_raft ndx) T P ↔ past_or (nd_raft nd) T P).
    { intros T P. unfold past_or. by replace (currentTerm (nd_raft ndx)) with (currentTerm (nd_raft nd)). }
    split; rewrite ?N4.
    + by apply (Hwf i).
    + congruence.
    + congruence.
    + replace (role (nd_raft ndx)) with (role (nd_raft nd)). by replace (currentTerm (nd_raft ndx)) with (currentTerm (nd_raft nd)).
    + intros T l. rewrite Hge, Hpo. replace (votedFor (nd_raft ndx)) with (votedFor (nd_raft nd)). apply J5.
    + intros T. rewrite Hpo. replace (votedFor (nd_raft ndx)) with (votedFor (nd_raft nd)).
      replace (role (nd_raft ndx)) with (role (nd_raft nd)). apply J6.
    + rewrite Hth. intros th Hin. eapply thread_inv_mono; [done|by apply J7].
  - intros v T l1 l2. rewrite !Hge. apply I3.
  - intros T l l'. rewrite Hge. apply I4.
  - intros T l Hin. destruct (I5 T l Hin) as (? & S & ? & ?). split; [done|]. exists S. eauto using voters_mono.
Qed.

Lemma sim_cand c X :
  simulates c X → (∀ i nd, cl_nodes c !! i = Some nd → cand_ok (nd_raft nd)) →
  ∀ i ndx, cl_nodes X !! i = Some ndx → cand_ok (nd_raft ndx).
Proof.
  intros Hsim Hc i ndx Hi. destruct (sim_node_inv _ _ _ _ Hsim Hi) as (nd & Hnd & Hx & _). ex_same Hx.
  specialize (Hc i nd Hnd). unfold cand_ok in *. replace (role (nd_raft ndx)) with (role (nd_raft nd)).
  by replace (currentTerm (nd_raft ndx)) with (currentTerm (nd_raft nd)).
Qed.

(** ** Steps *)

Section Steps.
Context (n : nat) (G : LeaderLogs) (c X : Cluster (C := C)).
Context (Hinv : cluster_inv n c) (Hcand : ∀ i nd, cl_nodes c !! i = Some nd → cand_ok (nd_raft nd)).
Context (Hs : safe n G X) (Hsim : simulates c X).

(** The other cluster follows a step to [c']. *)
Definition followed c' : Prop := ∃ G' X', safe n G' X' ∧ simulates c' X'.

(** Both clusters take the same step. *)
Lemma follow_same c' X' : cluster_step X X' → simulates c' X' → followed c'.
Proof.
  intros Hst Hsim'. destruct (safe_step n G X X' Hs Hst (sim_uncompacted _ _ Hsim')) as [G' Hs'].
  by exists G', X'.
Qed.

Section Node.
Context (i : Z) (nd ndx : Node (C := C)) (Hi : cl_nodes c !! i = Some nd) (HiX : cl_nodes X !! i = Some ndx).
Context (Hrel : node_rel nd ndx).

(** The node of [i] changes in both clusters, and what follows is sent. *)
Lemma sim_local rf' ths rfx' :
  expands (sending_index (nd_sending nd)) rf' rfx' →
  simulates (set_node c i (mkNode rf' ths (nd_sending nd))) (set_node X i (mkNode rfx' ths (nd_sending ndx))).
Proof.
  intros Hx. destruct Hrel as (_ & _ & Hsd).
  eapply (sim_step c X _ _ i _ _ Hsim); try reflexivity; try (by left); try done; apply Hsim.
Qed.

Lemma node_wf : raft_wf (nd_raft nd).
Proof. apply (ci_nodes _ _ Hinv i nd Hi). Qed.

Lemma follow_election now1 now2 now3 rf' args :
  (now1 ≤ now2)%Z → leaderElection_start (nd_raft nd) now1 now2 now3 = Ok (rf', Some args) →
  followed (add_requests ((λ p, (p, args)) <$> votePeers rf')
    (set_node c i (mkNode rf' (mkThread (election_init args) (votePeers rf') :: nd_threads nd) (nd_sending nd)))).
Proof.
  intros Hnow H. destruct Hrel as (Hx & Hth & Hsd).
  destruct (expand_election _ _ _ _ _ _ _ _ Hx H) as (rfx' & H' & Hx').
  assert (Hvp : votePeers rfx' = votePeers rf').
  { ex_same Hx'. unfold votePeers. by replace (me rfx') with (me rf'); replace (npeers rfx') with (npeers rf'). }
  eapply follow_same; [by eapply cs_election|].
  rewrite Hvp, Hth. destruct (sim_local rf' (mkThread (election_init args) (votePeers rf') :: nd_threads nd) rfx' Hx') as [N1 N2 N3 N4 N5 N6 N7 N8].
  split; try done. simpl in *. by rewrite N2.
Qed.

(** Both peers change in a way that sends nothing. *)
Lemma follow_local rf' rfx' X' :
  expands (sending_index (nd_sending nd)) rf' rfx' → X' = set_raft X i ndx rfx' → cluster_step X X' →
  followed (set_raft c i nd rf').
Proof.
  intros Hx -> Hst. eapply follow_same; [done|]. destruct Hrel as (_ & Hth & _). unfold set_raft. rewrite Hth. by apply sim_local.
Qed.

Lemma follow_no_election now1 now2 now3 rf' :
  (now1 ≤ now2)%Z → leaderElection_start (nd_raft nd) now1 now2 now3 = Ok (rf', None) → followed (set_raft c i nd rf').
Proof.
  intros Hnow H. destruct (expand_election _ _ _ _ _ _ _ _ (proj1 Hrel) H) as (rfx' & H' & Hx').
  eapply follow_local; [done|done|by eapply cs_no_election].
Qed.

Lemma follow_RequestVote args now rf' reply :
  (i, args) ∈ cl_requests c → RequestVote (nd_raft nd) args now = Ok (rf', reply) →
  followed (add_vote (i, args, reply) (set_raft c i nd rf')).
Proof.
  intros Hin H. destruct (expand_RequestVote _ _ _ _ _ _ _ (proj1 Hrel) H) as (rfx' & H' & Hx').
  eapply follow_same; [eapply cs_RequestVote; [done| |done]; by rewrite (sm_requests _ _ Hsim)|].
  destruct Hrel as (_ & Hth & _). unfold set_raft. rewrite Hth.
  destruct (sim_local rf' (nd_threads nd) rfx' Hx') as [N1 N2 N3 N4 N5 N6 N7 N8]. split; try done. simpl in *. by rewrite N3.
Qed.

Lemma follow_countVotes th ths1 ths2 p reply rf' el' :
  nd_threads nd = ths1 ++ th :: ths2 → countVotes_more (nd_raft nd) (th_el th) = true → p ∈ th_pending th →
  (∀ r, reply = Some r → (p, el_args (th_el th), r) ∈ cl_votes c) →
  countVotes_step (nd_raft nd) (th_el th) reply = (rf', el') →
  followed (set_node c i (mkNode rf' (ths1 ++ mkThread el' (filter (λ q, q ≠ p) (th_pending th)) :: ths2) (nd_sending nd))).
Proof.
  intros Ht Hmore Hp Hr H. destruct Hrel as (Hx & Hth & Hsd). ex_same Hx.
  destruct (expand_countVotes _ _ _ _ _ _ _ Hx H) as (rfx' & H' & Hx').
  eapply follow_same; [eapply (cs_countVotes X i ndx th ths1 ths2 p reply); [done|by rewrite Hth| |done| |done]|].
  - unfold countVotes_more in *. by replace (npeers (nd_raft ndx)) with (npeers (nd_raft nd)).
  - by rewrite (sm_votes _ _ Hsim).
  - by apply sim_local.
Qed.

Lemma follow_finish th ths1 ths2 :
  nd_threads nd = ths1 ++ th :: ths2 → countVotes_more (nd_raft nd) (th_el th) = false →
  let rf' := leaderElection_finish (nd_raft nd) (th_el th) in
  let c' := set_node c i (mkNode rf' (ths1 ++ ths2) (nd_sending nd)) in
  followed (if bool_decide (role rf' = LEADER ∧ role (nd_raft nd) ≠ LEADER)
            then add_leader (currentTerm rf', i) c' else c').
Proof.
  intros Ht Hmore rf' c'. destruct Hrel as (Hx & Hth & Hsd). ex_same Hx.
  pose proof (expand_finish _ _ _ (th_el th) Hx) as Hx'. fold rf' in Hx'. ex_same Hx'.
  eapply follow_same; [eapply (cs_finish X i ndx th ths1 ths2); [done|by rewrite Hth|]|].
  - unfold countVotes_more in *. by replace (npeers (nd_raft ndx)) with (npeers (nd_raft nd)).
  - replace (role (nd_raft ndx)) with (role (nd_raft nd)).
    replace (role (leaderElection_finish _ _)) with (role rf').
    replace (currentTerm (leaderElection_finish _ _)) with (currentTerm rf').
    pose proof (sim_local rf' (ths1 ++ ths2) _ Hx') as Hsim'. case_bool_decide; [|done].
    destruct Hsim' as [N1 N2 N3 N4 N5 N6 N7 N8]. split; try done. simpl in *. by rewrite N4.
Qed.

Lemma follow_Start cmd rf' result : Start (nd_raft nd) cmd = (rf', result) → followed (set_raft c i nd rf').
Proof.
  intros H. destruct (expand_Start _ _ _ _ _ _ (proj1 Hrel) H) as (rfx' & result' & H' & Hx').
  eapply follow_local; [done|done|by eapply cs_Start].
Qed.

Lemma follow_Kill : followed (set_raft c i nd (Kill (nd_raft nd))).
Proof. eapply follow_local; [by apply expand_Kill, Hrel|done|by apply cs_Kill]. Qed.

(** *** A follower *)

(** What a peer has committed, every leader of a later term has. *)
Lemma leader_has b g T :
  G !! T = Some (b, g) → (currentTerm (nd_raft ndx) ≤ T)%Z → has (es (nd_raft ndx)) g (S (Z.to_nat (commitIndex (nd_raft ndx)))).
Proof.
  intros HG HT. pose proof Hs as [S1 S2 S3 S4 S5 S6]. pose proof (lm_ghost _ _ S3) as Hg.
  destruct (cm_node _ _ _ S6 i ndx HiX) as [->|(T0 & b0 & g0 & m & HT0 & HG0 & Hc & Hk & Hh)].
  - simpl. pose proof (wf_log _ (cases_wf n G X i ndx Hs HiX)) as Hne. unfold log_wf in Hne.
    destruct (es (nd_raft ndx)) as [|e l] eqn:El; [done|].
    assert (e = zeroEntry) as ->.
    { eapply (from_leader_head G (es (nd_raft ndx))); [done|by eapply pl_log, lm_peer|by rewrite El]. }
    pose proof (go_head _ Hg _ _ _ HG) as Hh. destruct g as [|e g]; [done|]. injection Hh as ->. split_and!; simpl; [lia|lia|done].
  - destruct (decide (T0 = T)) as [->|Hne]; [rewrite HG in HG0; by injection HG0 as <- <-|].
    pose proof (completeness n G X T0 m T S1 S3 S4 S5 Hc ltac:(lia) b0 g0 b g HG0 HG) as Hcar.
    apply (has_trans_l _ g0); [done|]. eapply (has_le _ _ _ (S (Z.to_nat (commitIndex (nd_raft ndx))))) in Hcar; [|lia].
    destruct Hcar as (H1 & ? & Heq). rewrite length_take in H1. rewrite take_take, Nat.min_l in Heq by lia. split_and!; [lia|done..].
Qed.

Lemma follow_AppendEntries args now rf' reply :
  (i, MsgAppendEntries args) ∈ cl_msgs c → AppendEntries (nd_raft nd) args now = Ok (rf', reply) →
  followed (add_aereply (i, args, reply) (set_raft c i nd rf')).
Proof.
  intros Hin H. pose proof (sm_msgs _ _ Hsim _ _ Hin) as HinX. simpl in HinX. pose proof Hs as [S1 S2 S3 S4 S5 S6].
  destruct (lm_msg _ _ S3 _ _ HinX) as (args' & b & g & k & m & [= <-] & Hrq & _).
  pose proof Hrel as (Hx & Hth & Hsd). ex_same Hx. pose proof (expand_nonneg _ _ _ Hx) as Hn. pose proof (ex_commit _ _ _ Hx) as Hc.
  destruct (expand_AppendEntries (sending_index (nd_sending nd)) G args b g k m Hrq) with (rf := nd_raft nd) (rfx := nd_raft ndx)
    (now := now) (rf' := rf') (reply := reply) as (rfx' & H' & Hx'); try done.
  - pose proof (cm_msg _ _ _ S6 i args b g HinX (rq_ghost _ _ _ _ _ _ Hrq)) as Hcm.
    destruct Hcm as [?|(? & ? & ? & ? & _ & _ & _ & Hr & Hk & _)]; [by right|left]. rewrite length_take in Hk.
    unfold reach in Hk. rewrite (append_len G args b g k m Hrq), (rq_prev _ _ _ _ _ _ Hrq) in Hk. lia.
  - by apply (cases_wf n G X i).
  - eapply from_leader_sorted; [done|]. by eapply pl_log, lm_peer.
  - intros Hle. eapply has_le; [eapply leader_has; [apply Hrq|]|]; lia.
  - eapply follow_same; [by eapply cs_AppendEntries|].
    eapply (sim_step c X _ _ i _ _ Hsim); try reflexivity; try (by left); try apply Hsim; simpl; try done.
    + by right.
    + intros r [->|?]%elem_of_cons; [right; by left|by left].
Qed.

(** *** Steps of the uncompacted cluster that are not steps of the code *)

(** The node of [i] becomes [ndx']. *)
Lemma follow_base c' X' ndx' :
  cluster_step c c' → simulates c' X' → cl_nodes X' = <[i := ndx']> (cl_nodes X) → raft_wf (nd_raft ndx') →
  lm_inv G X' → base_inv n G X'.
Proof.
  intros Hst Hsim' Hn Hwf Hlm. split_and!; [|by eapply sim_cand, cand_step|done].
  eapply sim_inv; [by eapply cluster_step_inv|done|]. intros j ndj Hj. rewrite Hn in Hj.
  apply lookup_insert_Some in Hj as [[<- <-]|[_ Hj]]; [done|]. by apply (cases_wf n G X j).
Qed.

Lemma commit_le T l k k' : commit_ok n G X T l k → (0 ≤ k' ≤ k)%Z → commit_ok n G X T l k'.
Proof.
  intros [->|(T0 & b & g & m & ? & ? & ? & ? & Hh)] Hk; [left; lia|right]. exists T0, b, g, m.
  split_and!; [done..|lia|lia|]. eapply has_le; [done|lia].
Qed.

Lemma node_same : cl_nodes X = <[i := mkNode (nd_raft ndx) (nd_threads ndx) (nd_sending ndx)]> (cl_nodes X).
Proof. symmetry. apply insert_id. rewrite HiX. by destruct ndx. Qed.

(** *** The leader sends *)

Lemma heartbeat_sends rf notified rf' msgs more :
  leaderHeartbeats_iter rf notified = Ok (rf', msgs, more) →
  (rf' = rf ∨ rf' = set_heartbeatNotifyCh false rf) ∧
  ∀ p msg, (p, msg) ∈ msgs → role rf' = LEADER ∧ p ∈ votePeers rf' ∧ replicateTo rf' p = Ok msg.
Proof.
  intros H. unfold leaderHeartbeats_iter in H. destruct (Killed rf).
  { injection H as <- <- <-. split; [by left|]. by intros ? ? ?%elem_of_nil. }
  set (rf1 := if notified then _ else _) in H.
  assert (Hf : rf1 = rf ∨ rf1 = set_heartbeatNotifyCh false rf) by (unfold rf1; destruct notified; auto).
  clearbody rf1. case_bool_decide as Hr.
  2:{ injection H as <- <- <-. split; [done|]. by intros ? ? ?%elem_of_nil. }
  destruct (leaderLogReplication rf1) as [ms|] eqn:E; [|done]. res_simpl. injection H as <- <- <-. split; [done|].
  intros p msg Hin. destruct (replicateToAll_in _ _ _ _ _ E Hin). done.
Qed.

(** The message of the full leader. *)
Definition carried (rfx : Raft C) (pm : Z * LeaderMsg C) (pa : Z * AppendEntriesArgs C) : Prop :=
  let '(p, msg) := pm in let '(p', a') := pa in
  p' = p ∧ p ∈ votePeers rfx ∧
  (∃ a lc, a' = with_commit lc a ∧ replicateTo rfx p = Ok (MsgAppendEntries a) ∧ (0 ≤ lc ≤ commitIndex rfx)%Z) ∧
  ∀ X', (p, MsgAppendEntries a') ∈ cl_msgs X' → msg_rel X' p msg.

Lemma carried_one rf p msg :
  expands (sending_index (nd_sending nd)) rf (nd_raft ndx) → role rf = LEADER → p ∈ votePeers rf →
  replicateTo rf p = Ok msg → ∃ a, carried (nd_raft ndx) (p, msg) (p, a).
Proof.
  intros Hx Hr Hp H. ex_same Hx. pose proof (ex_commit _ _ _ Hx) as Hc. pose proof (expand_nonneg _ _ _ Hx) as Hn.
  assert (HpX : p ∈ votePeers (nd_raft ndx)).
  { unfold votePeers. replace (me (nd_raft ndx)) with (me rf). by replace (npeers (nd_raft ndx)) with (npeers rf). }
  destruct (lm_leader _ _ (sf_lm _ _ _ Hs) i ndx HiX ltac:(congruence)) as [b [_ _ Hnx _]].
  destruct (expand_replicateTo _ rf (nd_raft ndx) p msg Hx) as (a & Ha & Hsent); [|done|].
  { intros nx [Hp0 Hnx']%idx_Ok. apply votePeers_spec in Hp as [_ Hne].
    rewrite <-(ni_me _ _ _ _ (ci_nodes _ _ (sf_inv _ _ _ Hs) i ndx HiX)) in Hnx.
    destruct (Hnx p nx Hp0) as (k & -> & Hk & _); [congruence|congruence|lia]. }
  destruct msg as [args|args]; simpl in Hsent.
  - exists args. split_and!; [done|done| |done]. exists a, (commitIndex rf). split_and!; [done|done|lia|lia].
  - destruct Hsent as (H1' & H2' & H3' & H4' & e & He & Hte). exists (with_commit (snapshotIndex rf) a).
    split_and!; [done|done|exists a, (snapshotIndex rf); split_and!; [done|done|lia|lia]|].
    intros X' Hin. simpl. exists (with_commit (snapshotIndex rf) a), e. rewrite H3'. by split_and!.
Qed.

Lemma carried_all rf msgs :
  expands (sending_index (nd_sending nd)) rf (nd_raft ndx) →
  (∀ p msg, (p, msg) ∈ msgs → role rf = LEADER ∧ p ∈ votePeers rf ∧ replicateTo rf p = Ok msg) →
  ∃ ms, Forall2 (carried (nd_raft ndx)) msgs ms.
Proof.
  intros Hx. induction msgs as [|[p msg] msgs IH]; intros H; [by exists []|].
  destruct IH as [ms IH]; [intros p' m' Hin; apply H; by right|].
  destruct (H p msg ltac:(by left)) as (Hr & Hp & Hm). destruct (carried_one rf p msg Hx Hr Hp Hm) as [a Ha].
  exists ((p, a) :: ms). by constructor.
Qed.

(** The invariants allow the messages. *)
Lemma carried_safe ms (X' := add_msgs ((λ '(p, a), (p, MsgAppendEntries a)) <$> ms) X) :
  role (nd_raft ndx) = LEADER ∨ ms = [] →
  (∀ p a, (p, a) ∈ ms → p ∈ votePeers (nd_raft ndx) ∧
     ∃ a0 lc, a = with_commit lc a0 ∧ replicateTo (nd_raft ndx) p = Ok (MsgAppendEntries a0) ∧
       (0 ≤ lc ≤ commitIndex (nd_raft ndx))%Z) →
  (lm_inv G X' → base_inv n G X') → safe n G X'.
Proof.
  intros Hr Hms Hbase. pose proof Hs as [S1 S2 S3 S4 S5 S6]. pose proof (cases_wf n G X i ndx Hs HiX) as Hwf.
  pose proof (cases_snap n G X i ndx Hs HiX) as H0.
  assert (Hnew : ∀ p msg, (p, msg) ∈ cl_msgs X' → (p, msg) ∈ cl_msgs X ∨
    role (nd_raft ndx) = LEADER ∧ ∃ a, (p, a) ∈ ms ∧ msg = MsgAppendEntries a).
  { intros p msg [Hin|?]%elem_of_app; [|by left]. right. apply list_elem_of_fmap in Hin as ([p' a] & [= -> ->] & Hin).
    split; [|by exists a]. destruct Hr as [?| ->]; [done|by apply elem_of_nil in Hin]. }
  pose proof (ni_me _ _ _ _ (ci_nodes _ _ S1 i ndx HiX)) as Hme.
  eapply (safe_quiet n G X X' i ndx (mkNode (nd_raft ndx) (nd_threads ndx) (nd_sending ndx)));
    [done| | |done|apply node_same|apply quiet_refl|by left|done|done|by intros ? ? ? Hx|by left| | |by left].
  - apply Hbase. apply (lm_quiet n G X i ndx S1 S3 HiX X' (nd_raft ndx) (nd_threads ndx) (nd_sending ndx));
      [apply quiet_refl|apply node_same|done|apply S3| |done].
    intros Hf p msg Hin. destruct (Hnew p msg Hin) as [?|(Hlead & a & Ha & ->)]; [by left|right].
    destruct (Hms p a Ha) as (Hp & a0 & lc & -> & Hto & _).
    destruct (lm_leader _ _ S3 i ndx HiX Hlead) as [b Hb].
    pose proof (leader_known n X S1 i ndx HiX Hlead) as Hk.
    destruct (replicateTo_msg G X' (nd_raft ndx) b p (MsgAppendEntries a0)) as (a1 & b1 & g1 & k1 & m1 & [= <-] & Hat);
      [done|by eapply lm_peer|by rewrite Hme; eapply leader_log_mono|apply S3|by rewrite Hme|done|done|].
    exists (with_commit lc a0), b1, g1, k1, m1. split; [done|]. destruct Hat as ([] & ? & ?). by split_and!.
  - eapply (elect_step G G X X' i ndx); [apply S4|done|apply node_same|apply S4|done|done|done|by left].
  - intros p args Hin. destruct (Hnew p _ Hin) as [?|(Hlead & a & Ha & [= ->])]; [by left|right].
    destruct (Hms p a Ha) as (Hp & a0 & lc & -> & Hto & Hlc). intros b1 g1 HG1.
    destruct (replicateTo_commit (nd_raft ndx) p a0) as (Ht & Hc & Hreach); [by rewrite (wf_base _ Hwf)|done|].
    destruct (lm_leader _ _ S3 i ndx HiX Hlead) as [b [_ HG _ _]]. simpl in *.
    rewrite Ht, HG in HG1. injection HG1 as <- <-. unfold reach in *. simpl in *. rewrite Ht, Hreach, firstn_all.
    eapply (grows_commit n G G X X'); [by apply grows_refl|done|by auto|]. eapply commit_le; [|done].
    by apply (cm_node _ _ _ S6 i ndx).
  - by apply (cm_sending _ _ _ S6 i ndx) in HiX as [? ?].
Qed.

Lemma follow_heartbeat notified rf' msgs more :
  leaderHeartbeats_iter (nd_raft nd) notified = Ok (rf', msgs, more) → followed (add_msgs msgs (set_raft c i nd rf')).
Proof.
  intros H. pose proof Hrel as (Hx & Hth & Hsd). destruct (heartbeat_sends _ _ _ _ _ H) as [Hf Hmsgs].
  assert (Hx' : expands (sending_index (nd_sending nd)) rf' (nd_raft ndx)).
  { destruct Hf as [->| ->]; [done|]. ex_same Hx. ex_ext Hx. }
  destruct (carried_all rf' msgs Hx' Hmsgs) as [ms Hms]. exists G, (add_msgs ((λ '(p, a), (p, MsgAppendEntries a)) <$> ms) X).
  assert (Hsim' : simulates (add_msgs msgs (set_raft c i nd rf')) (add_msgs ((λ '(p, a), (p, MsgAppendEntries a)) <$> ms) X)).
  { eapply (sim_step c X _ _ i _ ndx Hsim); try reflexivity; try (by left); try apply Hsim.
    - symmetry. by apply insert_id.
    - by split_and!.
    - intros x Hin. apply elem_of_app. by right.
    - done.
    - done.
    - intros p msg [Hin|?]%elem_of_app; [right|by left].
      apply list_elem_of_lookup in Hin as [j Hj]. destruct (Forall2_lookup_l _ _ _ _ _ Hms Hj) as ([p' a] & Hj' & Hc).
      destruct Hc as (-> & _ & _ & Hc). apply Hc. apply elem_of_app. left. apply list_elem_of_fmap.
      exists (p, a). split; [done|]. by eapply list_elem_of_lookup_2. }
  split; [|done]. apply carried_safe.
  - destruct msgs as [|[p msg] msgs]; [right; by inversion Hms|left]. destruct (Hmsgs p msg ltac:(by left)) as [Hr _].
    ex_same Hx'. congruence.
  - intros p a Hin. apply list_elem_of_lookup in Hin as [j Hj].
    destruct (Forall2_lookup_r _ _ _ _ _ Hms Hj) as ([p' msg] & _ & Hc). destruct Hc as (-> & ? & ? & _). done.
  - intros Hlm. eapply (follow_base (add_msgs msgs (set_raft c i nd rf'))); [by eapply cs_heartbeat|done|symmetry; by apply insert_id| |done].
    by apply (cases_wf n G X i).
Qed.

(** *** Steps that the uncompacted cluster hardly notices *)

Lemma follow_quiet c' rf' ths sd rfx' :
  cluster_step c c' → cl_nodes c' = <[i := mkNode rf' ths sd]> (cl_nodes c) →
  expands (sending_index sd) rf' rfx' → raft_wf rfx' → quiet (nd_raft ndx) rfx' → cand_same (nd_raft ndx) rfx' →
  commitIndex rfx' = commitIndex (nd_raft ndx) →
  cl_requests c' = cl_requests c → cl_votes c' = cl_votes c → cl_leaders c' = cl_leaders c →
  cl_msgs c' = cl_msgs c → cl_aereplies c' = cl_aereplies c →
  (∀ p args r, (p, args, r) ∈ cl_isreplies c' → (p, args, r) ∈ cl_isreplies c ∨ (isa_Term args < isr_Term r)%Z) →
  (∀ j msg, (j, msg) ∈ cl_applied c' → (j, msg) ∈ cl_applied c ∨ CommandValid msg = false) →
  followed c'.
Proof.
  intros Hst Hn Hx Hwf Hq Hcs Hci Hrq Hv Hl Hm Hae His Hap. pose proof Hs as [S1 S2 S3 S4 S5 S6].
  set (X' := set_node X i (mkNode rfx' ths None)).
  assert (Hsim' : simulates c' X').
  { eapply (sim_step c X c' X' i _ _ Hsim Hn); try reflexivity; try done.
    - rewrite Hrq. apply Hsim.
    - rewrite Hv. apply Hsim.
    - rewrite Hl. apply Hsim.
    - rewrite Hm. by left.
    - rewrite Hae. by left.
    - intros p args r Hin. destruct (His p args r Hin); auto.
    - intros j msg Hin. destruct (Hap j msg Hin); auto. }
  exists G, X'. split; [|done].
  eapply (safe_local n G X i ndx Hs HiX X' (mkNode rfx' ths None)); try done; [|by left|].
  - eapply (follow_base c' X'); [done|done|done|done|].
    apply (lm_quiet n G X i ndx S1 S3 HiX X' rfx' ths None); [done|done|done|apply S3|by left|done].
  - split; [simpl; by rewrite (ex_applied _ _ _ Hx)|done].
Qed.

Lemma follow_Snapshot index snap rf' :
  (index ≤ handed nd)%Z → Snapshot (nd_raft nd) index snap = Ok rf' → followed (set_raft c i nd rf').
Proof.
  intros Hh H. pose proof (proj1 Hrel) as Hx. pose proof (ex_commit _ _ _ Hx) as Hc.
  eapply (follow_quiet _ rf' (nd_threads nd) (nd_sending nd) (nd_raft ndx));
    [by eapply cs_Snapshot|done| |by apply (cases_wf n G X i)|apply quiet_refl|done|done..|by left|by left].
  eapply expand_Snapshot; [done| |done]. unfold handed in Hh. lia.
Qed.

Lemma follow_crash now rf' :
  Make (npeers (nd_raft nd)) i (Persister.Copy (persister (nd_raft nd))) now = Ok rf' →
  followed (set_node c i (mkNode rf' [] None)).
Proof.
  intros H. pose proof (proj1 Hrel) as Hx. ex_same Hx. pose proof (ex_commit _ _ _ Hx) as Hc.
  pose proof (expand_nonneg _ _ _ Hx) as Hnn. pose proof Hx as [X1 X2 X3 X4 _ _ _].
  pose proof (ni_me _ _ _ _ (ci_nodes _ _ Hinv i nd Hi)) as Hme.
  destruct (crash_restart (nd_raft nd) now node_wf) as (rf1 & HM1 & Hwf1 & Hp & Hlog & _ & Hr & _).
  assert (Persister.Copy (persister (nd_raft nd)) = persister (nd_raft nd)) as Hcp by (by destruct (persister (nd_raft nd))).
  rewrite Hcp in H. rewrite Hme, H in HM1. injection HM1 as <-. injection Hp as Hct _ _ Hsi Hst.
  assert (commitIndex rf' = 0%Z ∧ lastApplied rf' = 0%Z) as [Hci Hla].
  { unfold Make, readPersist in H. repeat case_match; res_inv; simplify_eq; done. }
  eapply (follow_quiet _ rf' [] None (expansion (log (nd_raft ndx)) (commitIndex (nd_raft ndx)) rf'));
    [eapply cs_crash; [done|by rewrite Hcp]|done| | | | |done|done|done|done|done|done|by left|by left].
  - apply expansion_expands; [done|by rewrite Hlog|by rewrite Hlog, Hst|simpl; lia].
  - apply expansion_wf; [done|apply (cases_wf n G X i ndx Hs HiX)|].
    rewrite (wf_base _ (cases_wf n G X i ndx Hs HiX)). done.
  - split_and!; simpl; [done|done|lia|]. by rewrite Hr.
  - intros Hrole. simpl in Hrole. congruence.
Qed.

(** *** The applier *)

Lemma follow_applier_begin msg :
  nd_sending nd = None → applier_begin (nd_raft nd) = Ok (Deliver msg) →
  followed (add_applied (i, msg) (set_node c i (mkNode (nd_raft nd) (nd_threads nd) (Some msg)))).
Proof.
  intros Hsd H. pose proof Hrel as (Hx & Hth & HsdX). pose proof (ex_commit _ _ _ Hx) as Hc. pose proof (expand_nonneg _ _ _ Hx) as Hnn.
  assert (Hst : cluster_step c (add_applied (i, msg) (set_node c i (mkNode (nd_raft nd) (nd_threads nd) (Some msg)))))
    by (by apply cs_applier_begin).
  pose proof Hx as [X1 X2 X3 X4 Xs X5 _]. unfold applier_begin in H. destruct (Killed _); [done|]. case_bool_decide as Hsnap.
  { injection H as <-. eapply (follow_quiet _ (nd_raft nd) (nd_threads nd) (Some _) (nd_raft ndx));
      [done|done| |by apply (cases_wf n G X i)|apply quiet_refl|done|done..|by left|].
    - split; try done. simpl. unfold msg_index. simpl. lia.
    - intros j m [[= -> ->]|?]%elem_of_cons; [by right|by left]. }
  case_bool_decide as Hlt; [|done]. destruct (entry _ _) as [e|] eqn:He; [|done]. res_simpl. injection H as <-.
  rewrite <-(expanded_entry _ _ _ X1) in He by lia. set (k := (lastApplied (nd_raft nd) + 1)%Z) in *.
  set (msg := mkApplyMsg _ _ _ _ _ _ _ : ApplyMsg C) in *.
  assert (Hmsg : msg = command_msg (Z.to_nat k) e) by (unfold msg, command_msg; by rewrite Z2Nat.id by lia).
  rewrite <-(Z2Nat.id k) in He by lia.
  apply entry_uncompacted in He; [|rewrite (wf_base _ (cases_wf n G X i ndx Hs HiX)); done].
  pose proof Hs as [S1 S2 S3 S4 S5 S6]. set (X' := add_applied (i, msg) X).
  assert (Hsim' : simulates (add_applied (i, msg) (set_node c i (mkNode (nd_raft nd) (nd_threads nd) (Some msg)))) X').
  { eapply (sim_step c X _ X' i _ ndx Hsim); try reflexivity; try (by left); try apply Hsim; try done.
    - symmetry. by apply insert_id.
    - split_and!; [|done|done]. split; try done. simpl. unfold msg_index. simpl. lia.
    - by right.
    - intros j m [->|?]%elem_of_cons; [right; right; by left|by left]. }
  exists G, X'. split; [|done].
  eapply (safe_quiet n G X X' i ndx (mkNode (nd_raft ndx) (nd_threads ndx) (nd_sending ndx)));
    [done| | |done|apply node_same|apply quiet_refl|by left|done|done|by intros ? ? ? Hv|by left|by left| |].
  - eapply (follow_base _ X'); [done|done|apply node_same|exact (cases_wf n G X i ndx Hs HiX)|].
    apply (lm_quiet n G X i ndx S1 S3 HiX X' (nd_raft ndx) (nd_threads ndx) (nd_sending ndx));
      [apply quiet_refl|apply node_same|done|apply S3|by left|done].
  - eapply (elect_step G G X X' i ndx); [apply S4|done|apply node_same|apply S4|done|done|done|by left].
  - by apply (cm_sending _ _ _ S6 i ndx) in HiX as [? ?].
  - intros j m [[= -> ->]|?]%elem_of_cons; [right|by left]. eapply (grows_applied n G G X); [by apply grows_refl|].
    destruct (cm_node _ _ _ S6 i ndx HiX) as [?|(T & b & g & m & _ & HG & Hcm & Hk & Hh)]; [lia|].
    exists T, b, g, m, (Z.to_nat k), e. split_and!; [done|done|lia| |done].
    rewrite <-(has_lookup _ _ _ _ Hh) by lia. done.
Qed.

Lemma follow_applier_end msg :
  nd_sending nd = Some msg → followed (set_node c i (mkNode (applier_end (nd_raft nd) msg) (nd_threads nd) None)).
Proof.
  intros Hsd. pose proof (proj1 Hrel) as Hx. ex_same Hx. pose proof (ex_commit _ _ _ Hx) as Hc.
  pose proof (expand_nonneg _ _ _ Hx) as Hnn. rewrite Hsd in Hc. simpl in Hc. unfold msg_index in Hc.
  eapply (follow_quiet _ (applier_end (nd_raft nd) msg) (nd_threads nd) None (nd_raft ndx));
    [by apply cs_applier_end|done| |by apply (cases_wf n G X i)|apply quiet_refl|done|done..|by left|by left].
  pose proof Hx as [X1 X2 X3 X4 Xs X5 _]. unfold applier_end.
  destruct (SnapshotValid msg); repeat case_bool_decide; split; simpl in *; first [done|exact Xs|lia].
Qed.

(** *** The leader receives a reply *)

(** The leader's bookkeeping changes in both clusters. *)
Lemma follow_books rf' rfx' :
  cluster_step c (set_raft c i nd rf') → expands (sending_index (nd_sending nd)) rf' rfx' → raft_wf rfx' →
  role rfx' = LEADER → currentTerm rfx' = currentTerm (nd_raft ndx) → log rfx' = log (nd_raft ndx) →
  commitIndex rfx' = commitIndex (nd_raft ndx) → match_ok G X i rfx' → lm_inv G (set_raft X i ndx rfx') →
  followed (set_raft c i nd rf').
Proof.
  intros Hst Hx Hwf Hr Hct Hlog Hci Hm Hlm. pose proof (proj1 Hrel) as Hx0.
  assert (Hsim' : simulates (set_raft c i nd rf') (set_raft X i ndx rfx')).
  { destruct Hrel as (_ & Hth & _). unfold set_raft. rewrite Hth. by apply sim_local. }
  exists G, (set_raft X i ndx rfx'). split; [|done]. eapply (safe_lead n G X i ndx Hs HiX); try done.
  - by eapply follow_base.
  - by rewrite (ex_applied _ _ _ Hx), (ex_applied _ _ _ Hx0).
  - rewrite Hct, Hlog, Hci. apply (cm_node _ _ _ (sf_commit _ _ _ Hs) i ndx HiX).
Qed.

Lemma follow_reply server args reply rf' :
  (server, args, reply) ∈ cl_aereplies c → aea_LeaderId args = i →
  sendAppendEntries (nd_raft nd) server args reply = Ok rf' → followed (set_raft c i nd rf').
Proof.
  intros Hin Hlid H. pose proof (proj1 Hrel) as Hx. ex_same Hx. pose proof (sm_aereplies _ _ Hsim _ Hin) as HinX.
  assert (Hst : cluster_step c (set_raft c i nd rf')) by (by eapply cs_AppendEntries_reply).
  destruct (expand_sendAppendEntries _ _ _ _ _ _ _ Hx H) as [(rfx' & H' & Hx')|
    (Hr & Ht & Hsu & Hle & Hsv & mo & nn & Hmo & Hnn & ->)].
  { eapply follow_local; [done|done|by eapply cs_AppendEntries_reply]. }
  pose proof Hs as [S1 S2 S3 S4 S5 S6]. pose proof (cases_wf n G X i ndx Hs HiX) as Hwf.
  assert (nn ≤ aer_ConflictIndex reply + 1)%Z.
  { destruct (lm_rep _ _ S3 _ _ _ HinX) as (b & g & k & m & (Hrq & _) & Hrep). rewrite Hsu in Hrep.
    destruct (Hrep ltac:(lia)) as (_ & Hcf & _).
    destruct (lm_leader _ _ S3 i ndx HiX ltac:(congruence)) as [b' [_ HG _ _]].
    pose proof Hrq as [HG' _ Hkm Hm _ _]. rewrite Ht in HG'. replace (currentTerm (nd_raft ndx)) with (currentTerm (nd_raft nd)) in HG.
    rewrite HG in HG'. injection HG' as -> <-.
    destruct (conflictNextIndex_bound (nd_raft nd) reply node_wf) as (nn' & Hnn' & Hle').
    { rewrite <-(expanded_last _ _ (ex_log _ _ _ Hx)), (lastIndex_length _ Hwf) by apply Hx. lia. }
    congruence. }
  eapply (follow_books _ (set_nextIndex (<[Z.to_nat server:=Max (mo + 1) nn]> (nextIndex (nd_raft ndx))) (nd_raft ndx))); try done.
  - ex_ext Hx.
  - destruct Hwf as [? ? ? ? ? Hw]. split; try done. simpl. by rewrite length_insert.
  - simpl. congruence.
  - apply (cm_match _ _ _ S6 i ndx HiX). congruence.
  - eapply (lm_conflict n G X i ndx S1 S3 HiX server args reply); try done; congruence.
Qed.

(** The acknowledgement of a snapshot. *)
Lemma snap_acked_facts p args :
  snap_acked X p args → ∃ b g, let k := S (Z.to_nat (isa_LastIncludedIndex args)) in
    G !! isa_Term args = Some (b, g) ∧ (0 ≤ isa_LastIncludedIndex args)%Z ∧ k ≤ length g ∧
    tracks X p (isa_Term args) b g k ∧ on_peer X p (isa_Term args) (λ l, has l g k) ∧ acked G X p (isa_Term args) k.
Proof.
  intros (a & r & Hin & Hsu & Ht & _ & Hprev & Hes). destruct (lm_rep _ _ (sf_lm _ _ _ Hs) _ _ _ Hin) as (b & g & k & m & (Hrq & Htr & _) & Hrep).
  destruct (reply_acked n G X Hs p a r Hin Hsu) as [_ Hack]. rewrite Hsu in Hrep.
  pose proof (append_len G a b g k m Hrq) as Hlen. destruct Hrq as [HG Hpk Hkm Hm _ _]. rewrite Hes in Hlen.
  unfold zlen in Hlen. simpl in Hlen. rewrite Ht in *. unfold reach in Hack. rewrite Hprev, Hes in Hack. unfold zlen in Hack. simpl in Hack.
  exists b, g. assert (S (Z.to_nat (isa_LastIncludedIndex args)) = k) as -> by lia. assert (m = k) as -> by lia.
  split_and!; [done|lia|lia|done|done|]. eapply acked_le; [|done]. lia.
Qed.

Lemma follow_snap_reply server args reply rf' :
  (server, args, reply) ∈ cl_isreplies c → isa_LeaderId args = i →
  sendInstallSnapshot (nd_raft nd) server args reply = Ok rf' → followed (set_raft c i nd rf').
Proof.
  intros Hin Hlid H. pose proof (proj1 Hrel) as Hx. ex_same Hx.
  assert (Hst : cluster_step c (set_raft c i nd rf')) by (by eapply cs_InstallSnapshot_reply).
  pose proof Hs as [S1 S2 S3 S4 S5 S6]. pose proof (cases_wf n G X i ndx Hs HiX) as Hwf.
  assert (Hquiet : ∀ rfx', expands (sending_index (nd_sending nd)) rf' rfx' → raft_wf rfx' → quiet (nd_raft ndx) rfx' →
    cand_same (nd_raft ndx) rfx' → commitIndex rfx' = commitIndex (nd_raft ndx) → followed (set_raft c i nd rf')).
  { intros rfx' ? ? ? ? ?. eapply (follow_quiet _ rf' (nd_threads nd) (nd_sending nd) rfx'); try done; by left. }
  unfold sendInstallSnapshot in H. case_bool_decide as Hterm.
  { injection H as <-. apply (Hquiet (nd_raft ndx)); done || apply quiet_refl. }
  case_bool_decide as Hnew.
  { injection H as <-. apply (Hquiet (stepDown (nd_raft ndx) (isr_Term reply))); try done;
      [by apply expand_stepDown|by apply stepDown_wf|apply quiet_stepDown; lia]. }
  destruct (idx _ _) as [mo|] eqn:Emo; [|done]. res_simpl.
  case_bool_decide as Hlt; [|injection H as <-; apply (Hquiet (nd_raft ndx)); try done; apply quiet_refl].
  destruct (upd (matchIndex _) _ _) as [ms|] eqn:Eum; [|done]. res_simpl. apply upd_Ok in Eum as [Hsl ->].
  destruct (upd (nextIndex _) _ _) as [ns|] eqn:Eun; [|done]. res_simpl. apply upd_Ok in Eun as [_ ->]. injection H as <-.
  set (rfx' := set_nextIndex (<[Z.to_nat server:=(isa_LastIncludedIndex args + 1)%Z]> (nextIndex (nd_raft ndx)))
    (set_matchIndex (<[Z.to_nat server:=isa_LastIncludedIndex args]> (matchIndex (nd_raft ndx))) (nd_raft ndx))).
  assert (Hwf' : raft_wf rfx').
  { destruct Hwf as [? ? ? ? ? Hw]. split; try done. simpl. by rewrite !length_insert. }
  assert (Hx' : expands (sending_index (nd_sending nd)) (set_nextIndex (<[Z.to_nat server:=(isa_LastIncludedIndex args + 1)%Z]> (nextIndex (nd_raft nd)))
    (set_matchIndex (<[Z.to_nat server:=isa_LastIncludedIndex args]> (matchIndex (nd_raft nd))) (nd_raft nd))) rfx') by (ex_ext Hx).
  destruct (decide (role (nd_raft ndx) = LEADER)) as [Hr|Hr].
  2:{ apply (Hquiet rfx'); try done. }
  destruct (sm_isreplies _ _ Hsim _ _ _ Hin) as [?|Hack]; [lia|].
  destruct (snap_acked_facts _ _ Hack) as (b & g & HG & Hnn & Hk & Htr & Hon & Hak).
  destruct (lm_leader _ _ S3 i ndx HiX Hr) as [b' Hb]. pose proof Hb as [_ HG' _ _].
  rewrite Hterm in HG. replace (currentTerm (nd_raft ndx)) with (currentTerm (nd_raft nd)) in HG'. rewrite HG in HG'. injection HG' as <- Hg.
  rewrite Hterm in *. replace (currentTerm (nd_raft nd)) with (currentTerm (nd_raft ndx)) in Htr, Hon, Hak. rewrite Hg in *.
  eapply (follow_books _ rfx'); try done.
  - eapply (match_noted G X i ndx rfx' server (isa_LastIncludedIndex args)); [by apply (cm_match _ _ _ S6 i ndx)|done|lia|done|done|done].
  - eapply (lm_books n G X i ndx S1 S3 HiX rfx' b server (isa_LastIncludedIndex args + 1)%Z (S (Z.to_nat (isa_LastIncludedIndex args))));
      try done; [lia| |].
    + right. split_and!; [|lia|done|done]. simpl. do 2 f_equal. lia.
    + intros _. eexists. split; [|done]. lia.
Qed.

(** *** A snapshot arrives *)

Section Install.
Context (args : InstallSnapshotArgs) (Hin : (i, MsgInstallSnapshot args) ∈ cl_msgs c).

Abbreviation T := (isa_Term args).
Abbreviation L := (Z.to_nat (isa_LastIncludedIndex args)).

(** What the entries sent in its place say about the leader's log [g]. *)
Record install_facts (b : nat) (g : list (Entry C)) : Prop := {
  if_ghost : G !! T = Some (b, g);
  if_index : (0 < isa_LastIncludedIndex args)%Z;
  if_entry : ∃ e, g !! L = Some e ∧ eTerm e = isa_LastIncludedTerm args;
  if_clean : S L < b → on_peer X i T (λ l, clean l b T);
  if_sent : sent_by X i T (isa_LeaderId args);
  if_commit : ∀ l, has l g (S L) → commit_ok n G X T l (isa_LastIncludedIndex args);
}.

Lemma install_known : ∃ b g, install_facts b g.
Proof.
  pose proof Hs as [S1 S2 S3 S4 S5 S6]. destruct (sm_msgs _ _ Hsim _ _ Hin) as (a & e & HinX & Ht & Hld & Hprev & Hlc & He & Hte).
  destruct (lm_msg _ _ S3 _ _ HinX) as (a' & b & g & k & m & [= <-] & Hrq & Htr & Hsent). exists b, g.
  pose proof (append_len G a b g k m Hrq) as Hlen. pose proof Hrq as [HG Hpk Hkm Hm _ Hes]. rewrite Ht, Hld in *.
  pose proof (lookup_lt_Some _ _ _ He) as Hlt. unfold zlen in Hlen.
  pose proof (cm_msg _ _ _ S6 i a b g HinX ltac:(by rewrite Ht)) as Hcm. rewrite Ht, Hlc in Hcm.
  split; [done|lia| | |done|].
  - exists e. split; [|done]. rewrite Hes, lookup_take_lt, lookup_drop in He by lia.
    rewrite <-He. f_equal. lia.
  - intros Hb. destruct Htr as (_ & Hcl & _). apply Hcl. lia.
  - intros l Hh. destruct Hcm as [?|(T0 & b0 & g0 & m0 & ? & ? & ? & ? & Hg)]; [lia|right].
    exists T0, b0, g0, m0. split_and!; [done|done|done|lia|lia|].
    destruct Hg as (Hgl & ? & Heq). rewrite length_take in Hgl. rewrite take_take, Nat.min_l in Heq by lia.
    apply (has_trans_l _ g); [done|]. apply has_sym. split_and!; [lia|done|done].
Qed.

Lemma take_follows b g (l : list (Entry C)) m :
  ghost_ok G → G !! T = Some (b, g) → m ≤ length g → length l ≤ m → follows G T b g l (take m g).
Proof.
  intros Hg HG Hm Hl.
  assert (Hterm : ∀ k e, take m g !! k = Some e → (eTerm e ≤ T)%Z ∧ (b ≤ k → eTerm e = T)).
  { intros k e Hk. pose proof (lookup_lt_Some _ _ _ Hk) as Hlt. rewrite length_take in Hlt.
    rewrite lookup_take_lt in Hk by lia. by eapply go_terms. }
  split.
  - eapply from_leader_take, go_log; done.
  - intros e [k Hk]%list_elem_of_lookup. by apply (Hterm k).
  - intros _ k e Hk Hb. by apply (Hterm k).
  - intros k (? & ? & _). split_and!; [rewrite length_take; lia|lia|]. by rewrite take_take, Nat.min_l by lia.
Qed.

(** The full peer takes the leader's log up to the snapshot as committed. *)
Lemma follow_install b g rf' rfx' now reply :
  install_facts b g → InstallSnapshot (nd_raft nd) args now = Ok (rf', reply) →
  expands (sending_index (nd_sending nd)) rf' rfx' → raft_wf rfx' →
  (currentTerm (nd_raft ndx) ≤ T)%Z → currentTerm rfx' = T → role rfx' = FOLLOWER →
  log rfx' = log (nd_raft ndx) ∨ es rfx' = take (S L) g ∧ length (es (nd_raft ndx)) ≤ S L →
  has (es rfx') g (S L) →
  commitIndex rfx' = commitIndex (nd_raft ndx) ∨ commitIndex rfx' = isa_LastIncludedIndex args →
  followed (add_isreply (i, args, reply) (set_raft c i nd rf')).
Proof.
  intros [HG HL (e & He & Hte) Hcl Hsent Hcm] H Hx Hwf Hle Hct Hr Hlog Hh Hci.
  pose proof Hs as [S1 S2 S3 S4 S5 S6]. pose proof (lm_ghost _ _ S3) as Hg. pose proof (lm_peer _ _ S3 i ndx HiX) as [P1 P2 P3 P4].
  pose proof (ex_applied _ _ _ (proj1 Hrel)) as Hla0. pose proof (ex_applied _ _ _ Hx) as Hla. pose proof (lookup_lt_Some _ _ _ He) as Hlen.
  set (a := mkAppendEntriesArgs T (isa_LeaderId args) (isa_LastIncludedIndex args) (isa_LastIncludedTerm args) [] 0 : AppendEntriesArgs C).
  set (r := mkAppendEntriesReply 0 0 0 true). set (X' := add_aereply (i, a, r) (set_raft X i ndx rfx')).
  assert (Hsim' : simulates (add_isreply (i, args, reply) (set_raft c i nd rf')) X').
  { destruct Hrel as (_ & Hth & HsdX).
    eapply (sim_step c X _ X' i _ _ Hsim); try reflexivity; try (by left); try apply Hsim; simpl; try done.
    - by right.
    - intros p ar rr [[= -> -> ->]|?]%elem_of_cons; [right; right|by left]. exists a, r. split; [by left|]. by split_and!. }
  exists G, X'. split; [|done].
  assert (Hfol : follows G T b g (es (nd_raft ndx)) (es rfx')).
  { destruct Hlog as [->|[-> Hlen']]; [|by apply take_follows]. apply follows_refl; [done|]. intros x Hx0. specialize (P4 x Hx0). lia. }
  destruct (follows_keeps G (nd_raft ndx) rfx' T b g) as [Hpeer Hkeep]; try done; [apply Hx|].
  assert (Hlm : lm_inv G X').
  { apply (lm_follow n G X i ndx S1 S3 HiX); [done|done|by rewrite Hr|]. fold X'. intros Hf. exists b, g, (S L), (S L).
    assert (Hon : on_peer X' i T (λ l, has l g (S L)))
      by (eapply (on_peer_new X i X' (mkNode rfx' (nd_threads ndx) (nd_sending ndx))); [done|by right]).
    split; [|done]. split_and!; [split; simpl; [done|lia|lia|lia| |]|..].
    - exists e. by rewrite Nat.sub_0_r.
    - by rewrite Nat.sub_diag.
    - split_and!; [lia|lia| |by intros _]. intros Hb. eapply (fm_clean G X X' Hf); [done|done|by apply Hcl].
    - done. }
  eapply (safe_follow n G X i ndx Hs HiX rfx' a r b g (S L)); try done.
  - eapply (follow_base _ X'); [by eapply cs_InstallSnapshot|done|done|done|done].
  - simpl. unfold zlen. simpl. lia.
  - by rewrite Hct.
  - by rewrite Hla, Hla0.
  - destruct Hlog as [?|_]; [by left|right]. split; [done|]. apply Hfol.
  - destruct Hci as [?| ->]; [by left|right]. rewrite Hct. by apply Hcm.
Qed.

(** The peer follows the leader of the snapshot. *)
Lemma install_follower b g now (rfx1 := heardLeader (nd_raft ndx) T (isa_LeaderId args) now) :
  install_facts b g → (currentTerm (nd_raft ndx) ≤ T)%Z → role rfx1 = FOLLOWER.
Proof.
  intros [_ _ _ _ [Hl Hne] _] Hle. destruct (role rfx1) eqn:Hr; [|done|].
  - apply heardLeader_role in Hr as [Hr Heq]; [|done]. destruct Hne. eapply (unique_leader n X T); [apply Hs|done|].
    rewrite <-Heq. by apply (leader_known n X (sf_inv _ _ _ Hs) i ndx).
  - revert Hr. unfold rfx1, heardLeader. simpl. destruct (_ || _) eqn:E; [done|].
    apply orb_false_iff in E as [_ E%bool_decide_eq_false]. done.
Qed.

Lemma follow_InstallSnapshot now rf' reply :
  snapshot_fits (nd_raft nd) args ∨ snapshotIndex rf' = snapshotIndex (nd_raft nd) →
  InstallSnapshot (nd_raft nd) args now = Ok (rf', reply) →
  followed (add_isreply (i, args, reply) (set_raft c i nd rf')).
Proof.
  intros Hfit H. pose proof H as HI. pose proof (proj1 Hrel) as Hx. ex_same Hx. pose proof (ex_commit _ _ _ Hx) as Hc.
  pose proof (cases_wf n G X i ndx Hs HiX) as Hwf. unfold InstallSnapshot in H. case_bool_decide as Hold.
  { injection H as <- <-. eapply (follow_quiet _ (nd_raft nd) (nd_threads nd) (nd_sending nd) (nd_raft ndx));
      try done; [by eapply cs_InstallSnapshot| |by left].
    intros p a r [[= -> -> ->]|?]%elem_of_cons; [by right|by left]. }
  assert (Hle : (currentTerm (nd_raft ndx) ≤ T)%Z) by lia.
  destruct install_known as (b & g & Hf). pose proof Hf as [HG HL (e & He & Hte) _ _ _].
  pose proof (install_follower b g now Hf Hle) as Hr1.
  pose proof (heardLeader_term (nd_raft ndx) T (isa_LeaderId args) now Hle) as Hct1.
  pose proof (heardLeader_wf (nd_raft ndx) T (isa_LeaderId args) now Hwf) as Hwf1.
  destruct (heardLeader_frame (nd_raft ndx) T (isa_LeaderId args) now) as (Hlx & _ & _ & Hcx & _).
  destruct (heardLeader_frame (nd_raft nd) T (isa_LeaderId args) now) as (Hl & Hsi & _ & _ & Hla & _).
  pose proof (expand_heardLeader _ _ _ T (isa_LeaderId args) now Hx) as Hx1.
  set (rf1 := heardLeader (nd_raft nd) _ _ _) in *. set (rfx1 := heardLeader (nd_raft ndx) _ _ _) in *. clearbody rf1 rfx1.
  destruct (_ || _) eqn:Eskip.
  { injection H as <- <-. eapply (follow_install b g rf1 rfx1); try done; [by left| |by left]. rewrite Hlx.
    eapply has_le; [by eapply leader_has|]. apply orb_true_iff in Eskip. rewrite !bool_decide_eq_true in Eskip. lia. }
  apply orb_false_iff in Eskip as [Es1%bool_decide_eq_false Es2%bool_decide_eq_false].
  ex_same Hx1. pose proof Hx1 as [X1 X2 X3 X4 _ X5 X6].
  assert (Hcase : ∀ l' lx', expanded l' lx' → index0 l' = isa_LastIncludedIndex args → index0 lx' = 0%Z →
    eTerm <$> entries l' !! 0 = Some (isa_LastIncludedTerm args) →
    lx' = log (nd_raft ndx) ∨ entries lx' = take (S L) g ∧ length (es (nd_raft ndx)) ≤ S L →
    has (entries lx') g (S L) → rf' = persist (set_snapshot (isa_Data args) (set_snapshotTerm (isa_LastIncludedTerm args)
      (set_snapshotIndex (isa_LastIncludedIndex args) (set_log l' rf1)))) →
    followed (add_isreply (i, args, reply) (set_raft c i nd rf'))).
  { intros l' lx' Hex Hb0 Hbx Ht0 Hlog Hh ->.
    eapply (follow_install b g _ (set_commitIndex (Z.max (commitIndex rfx1) (isa_LastIncludedIndex args)) (persistSate (set_log lx' rfx1)))); try done.
    - split; simpl; try done; [unfold peer_state; simpl; congruence|lia].
    - destruct (set_log_wf rfx1 lx' Hwf1) as [? ? ? ? ? ?]; [|by rewrite (wf_base _ Hwf1), X3|by split].
      unfold log_wf. intros Hnil. rewrite Hnil in Hh. destruct Hh as (Hz & _). simpl in Hz. lia.
    - simpl. destruct (Z.max_spec (commitIndex rfx1) (isa_LastIncludedIndex args)) as [[_ ->]|[_ ->]]; [by right|left; congruence]. }
  rewrite Hl in *. case_bool_decide as Hlong.
  - destruct (cutOffHead _ _) as [l'|] eqn:Ec; [|done]. res_simpl. injection H as <- <-.
    destruct (entry_returns (log (nd_raft nd)) (isa_LastIncludedIndex args)) as [e1 He1]; [rewrite X2; lia|].
    assert (eTerm e1 = isa_LastIncludedTerm args) as Ht1.
    { destruct Hfit as [Hfit|Hsame]; [apply Hfit; [lia|done]|simpl in Hsame; lia]. }
    destruct (expanded_cutHead _ _ _ _ _ X1 He1 Ec) as (Hex & Hb0 & Hhd).
    eapply Hcase; [done|done| |by rewrite Hhd; simpl; rewrite Ht1|by left| |done]; rewrite Hlx.
    + rewrite (wf_base _ Hwf). apply Hx.
    + rewrite <-(expanded_entry _ _ _ X1), Hlx in He1 by lia. rewrite <-(Z2Nat.id (isa_LastIncludedIndex args)) in He1 by lia.
      apply entry_uncompacted in He1; [|rewrite (wf_base _ Hwf); apply Hx].
      eapply (from_leader_match G _ _ _ e1 e); [by eapply pl_log, lm_peer; [apply Hs|]|by eapply go_log; [apply Hs|]|done|done|congruence].
  - res_simpl. injection H as <- <-. pose proof (lookup_lt_Some _ _ _ He) as Hlen.
    eapply (Hcase (mkLog [mkEntry (isa_LastIncludedTerm args) None] (isa_LastIncludedIndex args)) (mkLog (take (S L) g) 0)); [|done|done|done| | |reflexivity]; simpl.
    + exists (take L g), e, (mkEntry (isa_LastIncludedTerm args) None), []. split_and!; [|f_equal|done].
      * f_equal. by apply take_S_r.
      * rewrite length_take. lia.
    + right. split; [done|]. pose proof (expanded_last _ _ (ex_log _ _ _ Hx)) as Hlast.
      rewrite (lastIndex_length _ Hwf) in Hlast by apply Hx. lia.
    + split_and!; [rewrite length_take; lia|lia|]. by rewrite take_idemp.
Qed.
End Install.
End Node.

Lemma follow_step c' : serviced_step c c' → followed c'.
Proof.
  intros Hstep. destruct Hstep as [c' Hst Hsame|i nd index snap rf' Hi ? ?|i nd args now rf' reply Hi ? ? ?].
  2-3: destruct (sim_node _ _ _ _ Hsim Hi) as (ndx & HiX & Hrel).
  2: by eapply follow_Snapshot.
  2: by eapply follow_InstallSnapshot; [..|left|].
  destruct Hst as [i nd ? ? ? rf' ? Hi ? ?|i nd ? ? ? rf' Hi ? ?|i nd ? ? rf' ? Hi ? ?|i nd ? ? ? ? ? rf' ? Hi ? ? ? ? ?
    |i nd th ths1 ths2 Hi ? ? rf' c'|i nd ? rf' ? ? Hi ?|i nd ? ? rf' ? Hi ? ?|i nd ? ? rf' ? Hi ? ?
    |i nd ? ? ? rf' Hi ? ? ?|i nd ? ? ? rf' Hi ? ? ?|i nd ? rf' ? Hi ?|i nd index ? rf' Hi HS|i nd ? Hi ? ?|i nd ? Hi ?|i nd Hi
    |i nd ? rf' Hi ?]; destruct (sim_node _ _ _ _ Hsim Hi) as (ndx & HiX & Hrel).
  - by eapply follow_election.
  - by eapply follow_no_election.
  - by eapply follow_RequestVote.
  - by eapply follow_countVotes.
  - by eapply follow_finish.
  - by eapply follow_heartbeat.
  - by eapply follow_AppendEntries.
  - eapply follow_InstallSnapshot; [done..|right|done].
    exact (Hsame i nd (mkNode rf' (nd_threads nd) (nd_sending nd)) Hi (lookup_insert_eq _ _ _)).
  - by eapply follow_reply.
  - by eapply follow_snap_reply.
  - by eapply follow_Start.
  - assert (rf' = nd_raft nd) as ->.
    { pose proof (Hsame i nd (mkNode rf' (nd_threads nd) (nd_sending nd)) Hi (lookup_insert_eq _ _ _)) as Hsi. simpl in Hsi.
      unfold Snapshot in HS. case_bool_decide as Hle; [by injection HS as <-|]. res_inv. simplify_eq/=. lia. }
    eapply (follow_quiet i ndx HiX _ (nd_raft nd) (nd_threads nd) (nd_sending nd) (nd_raft ndx));
      [by eapply cs_Snapshot|done|apply Hrel|by apply (cases_wf n G X i)|apply quiet_refl|done|done..|by left|by left].
  - by eapply follow_applier_begin.
  - by eapply follow_applier_end.
  - by eapply follow_Kill.
  - by eapply follow_crash.
Qed.
End Steps.

(** ** Runs *)

Lemma initCluster_simulates n now : simulates (initCluster n now) (initCluster n now).
Proof.
  split; try done; try (by intros ? ? ?%elem_of_nil); try (by intros ? ? ? ?%elem_of_nil).
  intros i. destruct (cl_nodes (initCluster n now) !! i) as [nd|] eqn:Hi; [|constructor]. constructor.
  apply initCluster_node in Hi as ->. split_and!; [|done|done]. split; simpl; try done.
  exists [], zeroEntry, zeroEntry, []. done.
Qed.

(** A state that a run with compaction reaches, and the uncompacted cluster
    behind it. *)
Record backed (n : nat) c : Prop := {
  bk_inv : cluster_inv n c;
  bk_cand : ∀ i nd, cl_nodes c !! i = Some nd → cand_ok (nd_raft nd);
  bk_sim : ∃ G X, safe n G X ∧ simulates c X;
}.

Lemma reachable_backed n c : reachable_serviced n c → backed n c.
Proof.
  intros [now Hr]. eapply (rtc_preserve serviced_step (backed n)); [| |done].
  - intros c1 c2 [B1 B2 (G & X & Hs & Hsim)] Hst. pose proof (serviced_cluster_step _ _ Hst) as Hst'.
    split; [by eapply cluster_step_inv|by eapply cand_step|]. by eapply (follow_step n G c1 X).
  - split; [apply initCluster_inv|apply initCluster_lm|]. destruct (initCluster_safe (C := C) n now) as [G HG].
    exists G, (initCluster n now). split; [done|apply initCluster_simulates].
Qed.

(** A run in which no peer compacts its log is one of these. *)
Lemma uncompacted_serviced n c : reachable_uncompacted n c → reachable_serviced n c.
Proof.
  intros [now Hr]. exists now.
  assert (Hu : uncompacted (initCluster (C := C) n now)) by (by intros i nd ->%initCluster_node).
  revert Hu. induction Hr as [c|c1 c2 c3 [Hst Hu2] _ IH]; intros Hu1; [apply rtc_refl|].
  eapply rtc_l; [|by apply IH]. apply ss_plain; [done|]. intros i nd nd' Hi Hi'. by rewrite (Hu1 i nd Hi), (Hu2 i nd' Hi').
Qed.

(** What a compacted log still has is in the full log. *)
Lemma full_entry h rf rfx k e :
  expands h rf rfx → raft_wf rfx → entry (log rf) k = Ok e →
  ∃ e', es rfx !! Z.to_nat k = Some e' ∧ eTerm e' = eTerm e ∧ ((snapshotIndex rf < k)%Z → e' = e).
Proof.
  intros Hx Hwf He. pose proof (entry_range _ _ _ He) as Hk. rewrite (ex_base _ _ _ Hx) in Hk.
  pose proof (expand_nonneg _ _ _ Hx) as Hn. destruct (expanded_term _ _ _ _ (ex_log _ _ _ Hx) He) as (e' & He' & Ht).
  exists e'. split_and!; [|done|].
  - rewrite <-(Z2Nat.id k) in He' by lia. apply entry_uncompacted in He'; [done|]. rewrite (wf_base _ Hwf). apply Hx.
  - intros Hlt. rewrite (expanded_entry _ _ _ (ex_log _ _ _ Hx)) in He' by (rewrite (ex_base _ _ _ Hx); lia). congruence.
Qed.

(** Two compacted logs whose full logs have index [k] in common. *)
Lemma full_same h1 h2 rf1 rfx1 rf2 rfx2 k e1 e2 :
  expands h1 rf1 rfx1 → raft_wf rfx1 → expands h2 rf2 rfx2 → raft_wf rfx2 →
  es rfx1 !! Z.to_nat k = es rfx2 !! Z.to_nat k → entry (log rf1) k = Ok e1 → entry (log rf2) k = Ok e2 →
  eTerm e1 = eTerm e2 ∧ ((snapshotIndex rf1 < k)%Z → (snapshotIndex rf2 < k)%Z → e1 = e2).
Proof.
  intros Hx1 Hw1 Hx2 Hw2 Heq He1 He2.
  destruct (full_entry _ _ _ _ _ Hx1 Hw1 He1) as (e1' & H1 & Ht1 & Hs1), (full_entry _ _ _ _ _ Hx2 Hw2 He2) as (e2' & H2 & Ht2 & Hs2).
  rewrite H1, H2 in Heq. injection Heq as ->. split; [congruence|]. intros. rewrite <-Hs1, <-Hs2; done.
Qed.

(** Two commands delivered at an index are the same. *)
Lemma applied_serviced n c i j msg1 msg2 :
  reachable_serviced n c → (i, msg1) ∈ cl_applied c → (j, msg2) ∈ cl_applied c →
  CommandValid msg1 = true → CommandValid msg2 = true → CommandIndex msg1 = CommandIndex msg2 → msg1 = msg2.
Proof.
  intros [_ _ (G & X & Hs & Hsim)]%reachable_backed H1 H2 Hv1 Hv2.
  destruct (sm_applied _ _ Hsim _ _ H1) as [?|H1']; [congruence|]. destruct (sm_applied _ _ Hsim _ _ H2) as [?|H2']; [congruence|].
  by apply (applied_same n G X i j).
Qed.

(** ** What the uncompacted cluster gives *)

(** A leader has what a peer of its term or an older one has committed. *)
Lemma complete_serviced n c i j nd1 nd2 k :
  reachable_serviced n c → cl_nodes c !! i = Some nd1 → cl_nodes c !! j = Some nd2 →
  role (nd_raft nd2) = LEADER → (currentTerm (nd_raft nd1) ≤ currentTerm (nd_raft nd2))%Z →
  (0 ≤ k ≤ commitIndex (nd_raft nd1))%Z →
  (k ≤ lastIndex (log (nd_raft nd2)))%Z ∧
  ∀ e1 e2, entry (log (nd_raft nd1)) k = Ok e1 → entry (log (nd_raft nd2)) k = Ok e2 →
    eTerm e1 = eTerm e2 ∧
    ((snapshotIndex (nd_raft nd1) < k)%Z → (snapshotIndex (nd_raft nd2) < k)%Z → e1 = e2).
Proof.
  intros [_ _ (G & X & Hs & Hsim)]%reachable_backed Hi Hj Hr HT Hk.
  destruct (sim_node _ _ _ _ Hsim Hi) as (ndx1 & HiX & Hx1 & _), (sim_node _ _ _ _ Hsim Hj) as (ndx2 & HjX & Hx2 & _).
  pose proof (cases_wf n G X i ndx1 Hs HiX) as Hw1. pose proof (cases_wf n G X j ndx2 Hs HjX) as Hw2.
  assert (Hr2 : role (nd_raft ndx2) = LEADER) by (ex_same Hx2; congruence).
  assert (HTx : (currentTerm (nd_raft ndx1) ≤ currentTerm (nd_raft ndx2))%Z) by (ex_same Hx1; ex_same Hx2; lia).
  destruct (lm_leader _ _ (sf_lm _ _ _ Hs) j ndx2 HjX Hr2) as [b [_ HG _ _]].
  pose proof (leader_has n G X Hs i ndx1 HiX b _ _ HG HTx) as Hh. pose proof Hh as (_ & Hlen & _).
  pose proof (ex_commit _ _ _ Hx1) as Hc. split.
  - rewrite <-(expanded_last _ _ (ex_log _ _ _ Hx2)), (lastIndex_length _ Hw2) by apply Hx2. lia.
  - intros e1 e2. eapply full_same; [done..|]. apply (has_lookup _ _ _ _ Hh). lia.
Qed.

(** Two logs that agree at an index agree before. *)
Lemma matching_serviced n c i j nd1 nd2 k e1 e2 :
  reachable_serviced n c → cl_nodes c !! i = Some nd1 → cl_nodes c !! j = Some nd2 →
  entry (log (nd_raft nd1)) k = Ok e1 → entry (log (nd_raft nd2)) k = Ok e2 → eTerm e1 = eTerm e2 →
  ∀ k' e1' e2', (k' ≤ k)%Z → entry (log (nd_raft nd1)) k' = Ok e1' → entry (log (nd_raft nd2)) k' = Ok e2' →
    eTerm e1' = eTerm e2' ∧
    ((snapshotIndex (nd_raft nd1) < k')%Z → (snapshotIndex (nd_raft nd2) < k')%Z → e1' = e2').
Proof.
  intros [_ _ (G & X & Hs & Hsim)]%reachable_backed Hi Hj He1 He2 Ht k' e1' e2' Hk'.
  destruct (sim_node _ _ _ _ Hsim Hi) as (ndx1 & HiX & Hx1 & _), (sim_node _ _ _ _ Hsim Hj) as (ndx2 & HjX & Hx2 & _).
  pose proof (cases_wf n G X i ndx1 Hs HiX) as Hw1. pose proof (cases_wf n G X j ndx2 Hs HjX) as Hw2.
  destruct (full_entry _ _ _ _ _ Hx1 Hw1 He1) as (x1 & H1 & Ht1 & _), (full_entry _ _ _ _ _ Hx2 Hw2 He2) as (x2 & H2 & Ht2 & _).
  pose proof (from_leader_match G _ _ _ _ _ (pl_log _ _ (lm_peer _ _ (sf_lm _ _ _ Hs) i ndx1 HiX))
    (pl_log _ _ (lm_peer _ _ (sf_lm _ _ _ Hs) j ndx2 HjX)) H1 H2 ltac:(congruence)) as Hh.
  eapply full_same; [done..|]. apply (has_lookup _ _ _ _ Hh). lia.
Qed.
End Compaction.
