(* ===== verification/RaftRefine.v ===== *)
(** * Raft is an append-only log

    What a service may rely on when it runs on a cluster of peers: there is
    one log of commands, it only grows at its end, by commands that some
    service gave to the [Start] of a leader, and every command that an
    applier delivers stands in it at the index that comes with it.  This is
    the agreed log that [KVLinearizable] starts from.  The log is all that
    was delivered: every one of its commands has been delivered by some peer,
    also those that peers get in snapshots only.  The result,
    [refines_serviced], is about the cluster whose requests are copies;
    [RaftShared] has the theorem, for logs in memory. *)

From stdpp Require Import base list gmap sorting.
From Stdlib Require Import ZArith Lia.
From S2P Require Import Prelude RaftLog RaftCore RaftElection RaftReplication RaftApply RaftNode RaftCluster RaftLogMatching RaftSafety RaftExpand RaftCompaction.

Section Refine.
Context {C : Type} `{!Gob (PState C), !GobOk (PState C)}.
Implicit Types rf : Raft C.
Implicit Types c : Cluster (C := C).
Implicit Types nd : Node (C := C).

Abbreviation es rf := (entries (log rf)).

(** ** The specification *)

(** A delivery of the command at position [k] of the log (index [k + 1]). *)
Definition delivers (msg : ApplyMsg C) (k : nat) (cmd : C) : Prop :=
  CommandValid msg = true ∧ CommandIndex msg = Z.of_nat (S k) ∧ msgCommand msg = Some cmd.

(** [L] is the log that the peers have delivered. *)
Record agreed c (L : list C) : Prop := {
  ag_sound : ∀ i msg, (i, msg) ∈ cl_applied c → CommandValid msg = true →
    ∃ k cmd, delivers msg k cmd ∧ L !! k = Some cmd;
  ag_complete : ∀ k cmd, L !! k = Some cmd → ∃ i msg, (i, msg) ∈ cl_applied c ∧ delivers msg k cmd;
}.

(** The log grows by one of the commands that satisfy [P], or stays. *)
Definition log_grows (P : C → Prop) (L L' : list C) : Prop := L' = L ∨ ∃ cmd, P cmd ∧ L' = L ++ [cmd].

(** A step in which no leader is given a command outside of [P]. *)
Definition submitting (P : C → Prop) c c' : Prop :=
  serviced_step c c' ∧ ∀ i nd cmd rf' result, cl_nodes c !! i = Some nd → role (nd_raft nd) = LEADER →
    Start (nd_raft nd) cmd = (rf', result) → c' = set_raft c i nd rf' → P cmd.

Definition reachable_submitting (P : C → Prop) (n : nat) c : Prop :=
  ∃ now, rtc (submitting P) (initCluster n now) c.

(** ** The invariant *)

Section Invariant.
Context (P : C → Prop).

(** A log behind its slot 0. *)
Definition stored (l : list (Entry C)) : Prop :=
  ∀ j e, 1 ≤ j → l !! j = Some e → ∃ cmd, eCommand e = Some cmd ∧ P cmd.

Record node_log (L : list C) nd : Prop := {
  nl_applied : (0 ≤ lastApplied (nd_raft nd) ≤ Z.of_nat (length L))%Z;
  nl_sending : (sending_index (nd_sending nd) ≤ Z.of_nat (length L))%Z;
  nl_snapshot : (snapshotIndex (nd_raft nd) ≤ Z.of_nat (length L))%Z;
  nl_stored : stored (es (nd_raft nd));
}.

Definition msg_log (L : list C) (msg : LeaderMsg C) : Prop :=
  match msg with
  | MsgAppendEntries args => ∀ e, e ∈ aea_Entries args → ∃ cmd, eCommand e = Some cmd ∧ P cmd
  | MsgInstallSnapshot args => (isa_LastIncludedIndex args ≤ Z.of_nat (length L))%Z
  end.

Record log_inv c (L : list C) : Prop := {
  li_agreed : agreed c L;
  li_node : ∀ i nd, cl_nodes c !! i = Some nd → node_log L nd;
  li_msg : ∀ p msg, (p, msg) ∈ cl_msgs c → msg_log L msg;
}.

(** ** What the critical sections store *)

Lemma place_from l k a l' :
  (0 < k - index0 l ∨ 0 ≤ k - index0 l ∧ a ≠ [])%Z → (k ≤ lastIndex l + 1)%Z → place l k a = Ok l' →
  stored (entries l) → (∀ e, e ∈ a → ∃ cmd, eCommand e = Some cmd ∧ P cmd) → stored (entries l').
Proof.
  intros Hk1 Hk2 H Hl Ha. rewrite place_Ok in H by done. injection H as <-. intros j e Hj. simpl. unfold placed.
  set (m := Z.to_nat (k - index0 l)). set (before := take m (entries l) ++ a).
  assert (Hlen : length before = m + length a).
  { unfold before. rewrite length_app, length_take. unfold lastIndex, zlen in *. lia. }
  intros [He|[Hge He]]%lookup_app_Some.
  - apply lookup_app_Some in He as [He|[_ He]]; [|by eapply Ha, list_elem_of_lookup_2].
    eapply Hl; [done|]. pose proof (lookup_lt_Some _ _ _ He) as Hlt. rewrite length_take in Hlt. by rewrite lookup_take_lt in He by lia.
  - eapply (Hl j); [done|]. assert (drop (m + length a) (entries l) !! (j - length before) = Some e) as He'.
    { revert He. unfold kept_tail. destruct (last before), (drop _ (entries l)); try done. intros He'. destruct (bool_decide _); [by rewrite lookup_nil in He'|done]. }
    rewrite lookup_drop in He'. rewrite <-He'. f_equal. lia.
Qed.

Lemma stored_drop (l : list (Entry C)) k : stored l → stored (drop k l).
Proof. intros Hl j e Hj. rewrite lookup_drop. apply Hl. lia. Qed.

Lemma stored_take (l : list (Entry C)) k : stored l → stored (take k l).
Proof. intros Hl j e Hj [He _]%lookup_take_Some. by eapply Hl. Qed.

Lemma followerCommit_log rf ci : log (followerCommit rf ci) = log rf.
Proof. unfold followerCommit. by case_bool_decide. Qed.

Lemma AppendEntries_stored rf args now rf' reply :
  raft_wf rf → AppendEntries rf args now = Ok (rf', reply) → stored (es rf) →
  (∀ e, e ∈ aea_Entries args → ∃ cmd, eCommand e = Some cmd ∧ P cmd) → stored (es rf').
Proof.
  intros Hwf H Hl Ha. unfold AppendEntries in H. case_bool_decide; [by injection H as <- _|].
  destruct (heardLeader_frame rf (aea_Term args) (aea_LeaderId args) now) as (Hlog & Hsi & _).
  set (rf1 := heardLeader _ _ _ _) in *. clearbody rf1. pose proof (wf_base _ Hwf) as Hb.
  rewrite Hlog, Hsi in H. case_bool_decide as Hshort.
  { destruct (lastEntry _); [|done]. res_simpl. injection H as <- _. by rewrite Hlog. }
  case_bool_decide as Hbelow.
  - case_bool_decide as Hlong; [|injection H as <- _; by rewrite Hlog].
    destruct (idx _ _) as [e|] eqn:Ee; [|done]. res_simpl. destruct (Assert _); [|done]. res_simpl.
    destruct (slice_from _ _) as [sl|] eqn:Es; [|done]. res_simpl. apply slice_from_Ok in Es as [Hr ->].
    destruct (place _ _ _) as [l'|] eqn:Ep; [|done]. res_simpl. injection H as <- _. rewrite followerCommit_log. simpl.
    eapply place_from; [| |exact Ep|done|].
    + right. split; [lia|]. intros Hnil. apply (f_equal length) in Hnil. rewrite length_drop in Hnil. unfold zlen in *. simpl in Hnil. lia.
    + unfold lastIndex. pose proof (zlen_nonneg (es rf)). lia.
    + intros x Hx. apply Ha. rewrite <-(take_drop (Z.to_nat (snapshotIndex rf - aea_PrevLogIndex args - 1)) (aea_Entries args)).
      apply elem_of_app. by right.
  - destruct (entry _ _) as [e|] eqn:Ee; [|done]. res_simpl. pose proof (entry_range _ _ _ Ee) as Hrange. case_bool_decide.
    + destruct (cutOffTail _ _) as [l'|] eqn:Ec; [|done]. res_simpl. injection H as <- _. simpl.
      unfold cutOffTail in Ec. case_bool_decide; res_inv; simpl;
        match goal with E : slice_to _ _ = Ok _ |- _ => apply slice_to_Ok in E as [_ ->] end; by apply stored_take.
    + destruct (place _ _ _) as [l'|] eqn:Ep; [|done]. res_simpl. injection H as <- _. rewrite followerCommit_log. simpl.
      eapply (place_from (log rf) (aea_PrevLogIndex args + 1) (aea_Entries args)); [left; lia|lia|exact Ep|done|done].
Qed.

(** [cutOffHead], in [Snapshot] and in [InstallSnapshot]. *)
Lemma cutOffHead_stored (l : Log C) k l' : cutOffHead l k = Ok l' → stored (entries l) → stored (entries l').
Proof. intros H Hl. unfold cutOffHead in H. res_inv. apply slice_from_Ok in E as [_ ->]. by apply stored_drop. Qed.

Lemma Snapshot_stored rf index snap rf' :
  Snapshot rf index snap = Ok rf' → stored (es rf) → stored (es rf') ∧
  (snapshotIndex rf' = snapshotIndex rf ∨ snapshotIndex rf' = index).
Proof.
  intros H Hl. unfold Snapshot in H. case_bool_decide; [injection H as <-; auto|].
  destruct (entry _ _); [|done]. res_simpl. simpl in H. destruct (cutOffHead _ _) as [l'|] eqn:Ec; [|done]. res_simpl. injection H as <-.
  split; [|by right]. by eapply cutOffHead_stored.
Qed.

Lemma InstallSnapshot_stored rf args now rf' reply :
  InstallSnapshot rf args now = Ok (rf', reply) → stored (es rf) → stored (es rf') ∧
  (snapshotIndex rf' = snapshotIndex rf ∨ snapshotIndex rf' = isa_LastIncludedIndex args).
Proof.
  intros H Hl. unfold InstallSnapshot in H. case_bool_decide; [injection H as <- _; auto|].
  destruct (heardLeader_frame rf (isa_Term args) (isa_LeaderId args) now) as (Hlog & Hsi & _).
  set (rf1 := heardLeader _ _ _ _) in *. clearbody rf1. destruct (_ || _); [injection H as <- _; rewrite Hlog; auto|].
  rewrite Hlog in H. destruct (if bool_decide _ then _ else _) as [l'|] eqn:Ec; [|done]. res_simpl. injection H as <- _.
  split; [|by right]. simpl. case_bool_decide; [by eapply cutOffHead_stored|]. injection Ec as <-. intros [|j] e Hj He; [lia|done].
Qed.

(** What a leader sends. *)
Lemma replicateTo_log L rf p msg :
  raft_wf rf → stored (es rf) → (snapshotIndex rf ≤ Z.of_nat (length L))%Z → replicateTo rf p = Ok msg → msg_log L msg.
Proof.
  intros Hwf Hl Hs H. unfold replicateTo in H. destruct (idx (nextIndex rf) p) as [nx|]; [|done]. res_simpl.
  destruct (idx (matchIndex rf) p); [|done]. res_simpl. destruct (Assert _); [|done]. res_simpl.
  case_bool_decide as Hb; [by injection H as <-|]. destruct (entry _ _); [|done]. res_simpl. unfold slice in H.
  destruct (slice_from _ _) as [sl|] eqn:Es; [|done]. res_simpl. injection H as <-. apply slice_from_Ok in Es as [_ ->].
  simpl. intros x [j Hj]%list_elem_of_lookup. rewrite lookup_drop in Hj. eapply Hl; [|done]. rewrite (wf_base _ Hwf). lia.
Qed.

(** ** Steps *)

Section Steps.
Context (n : nat) (c : Cluster (C := C)) (L : list C).
Context (Hinv : cluster_inv n c) (Hlog : log_inv c L).

(** No command is delivered. *)
Lemma log_keep c' i nd' :
  cl_nodes c' = <[i := nd']> (cl_nodes c) → node_log L nd' →
  (∀ x, x ∈ cl_applied c → x ∈ cl_applied c') →
  (∀ j msg, (j, msg) ∈ cl_applied c' → (j, msg) ∈ cl_applied c ∨ CommandValid msg = false) →
  (∀ p msg, (p, msg) ∈ cl_msgs c' → (p, msg) ∈ cl_msgs c ∨ msg_log L msg) → log_inv c' L.
Proof.
  intros Hn Hnd Ha1 Ha2 Hm. destruct Hlog as [[A1 A2] N M]. split.
  - split.
    + intros j msg Hin Hv. destruct (Ha2 j msg Hin); [by eapply A1|congruence].
    + intros k cmd Hk. destruct (A2 k cmd Hk) as (j & msg & ? & ?). exists j, msg. auto.
  - intros j nd Hj. rewrite Hn in Hj. apply lookup_insert_Some in Hj as [[_ <-]|[_ Hj]]; [done|by eapply N].
  - intros p msg Hin. destruct (Hm p msg Hin); [by eapply M|done].
Qed.

Section Node.
Context (i : Z) (nd : Node (C := C)) (Hi : cl_nodes c !! i = Some nd).

Lemma log_wf_node : raft_wf (nd_raft nd).
Proof. apply (ci_nodes _ _ Hinv i nd Hi). Qed.

(** A critical section that only changes the log, or not even that. *)
Lemma node_log_step rf' ths :
  lastApplied rf' = lastApplied (nd_raft nd) → snapshotIndex rf' = snapshotIndex (nd_raft nd) → stored (es rf') →
  node_log L (mkNode rf' ths (nd_sending nd)).
Proof.
  intros Hla Hsi Hst. destruct (li_node _ _ Hlog i nd Hi) as [N1 N2 N3 N4]. split; simpl; rewrite ?Hla, ?Hsi; done.
Qed.

Lemma log_local c' rf' ths :
  cl_nodes c' = <[i := mkNode rf' ths (nd_sending nd)]> (cl_nodes c) →
  lastApplied rf' = lastApplied (nd_raft nd) → snapshotIndex rf' = snapshotIndex (nd_raft nd) → stored (es rf') →
  cl_applied c' = cl_applied c → cl_msgs c' = cl_msgs c → log_inv c' L.
Proof.
  intros Hn Hla Hsi Hst Ha Hm. eapply log_keep; [done|by apply node_log_step|by rewrite Ha|rewrite Ha; by left|rewrite Hm; by left].
Qed.

Lemma log_same c' rf' ths :
  cl_nodes c' = <[i := mkNode rf' ths (nd_sending nd)]> (cl_nodes c) →
  lastApplied rf' = lastApplied (nd_raft nd) → snapshotIndex rf' = snapshotIndex (nd_raft nd) → log rf' = log (nd_raft nd) →
  cl_applied c' = cl_applied c → cl_msgs c' = cl_msgs c → log_inv c' L.
Proof. intros Hn Hla Hsi Hl. eapply log_local; [done..|]. rewrite Hl. by apply (li_node _ _ Hlog i nd Hi). Qed.

(** The log of a peer is compacted up to an index that was delivered. *)
Lemma log_compact c' rf' :
  cl_nodes c' = <[i := mkNode rf' (nd_threads nd) (nd_sending nd)]> (cl_nodes c) →
  lastApplied rf' = lastApplied (nd_raft nd) → (snapshotIndex rf' ≤ Z.of_nat (length L))%Z → stored (es rf') →
  cl_applied c' = cl_applied c → cl_msgs c' = cl_msgs c → log_inv c' L.
Proof.
  intros Hn Hla Hsi Hst Ha Hm. eapply log_keep; [done| |by rewrite Ha|rewrite Ha; by left|rewrite Hm; by left].
  destruct (li_node _ _ Hlog i nd Hi) as [N1 N2 N3 N4]. split; simpl; rewrite ?Hla; done.
Qed.

Lemma log_Snapshot index snap rf' :
  (index ≤ handed nd)%Z → Snapshot (nd_raft nd) index snap = Ok rf' → log_inv (set_raft c i nd rf') L.
Proof.
  intros Hh H. destruct (li_node _ _ Hlog i nd Hi) as [N1 N2 N3 N4]. destruct (Snapshot_stored _ _ _ _ H N4) as [Hst Hsi].
  eapply log_compact; try done; [apply (Snapshot_ok _ _ _ _ log_wf_node H)|].
  unfold handed in Hh. destruct Hsi as [->| ->]; lia.
Qed.

Lemma log_InstallSnapshot args now rf' reply :
  (i, MsgInstallSnapshot args) ∈ cl_msgs c → InstallSnapshot (nd_raft nd) args now = Ok (rf', reply) →
  log_inv (add_isreply (i, args, reply) (set_raft c i nd rf')) L.
Proof.
  intros Hin H. destruct (li_node _ _ Hlog i nd Hi) as [N1 N2 N3 N4]. pose proof (li_msg _ _ Hlog _ _ Hin) as Hm. simpl in Hm.
  destruct (InstallSnapshot_stored _ _ _ _ _ H N4) as [Hst Hsi].
  eapply log_compact; try done; [apply (InstallSnapshot_ok _ _ _ _ _ log_wf_node H)|]. destruct Hsi as [->| ->]; lia.
Qed.

Lemma log_heartbeat notified rf' msgs more :
  leaderHeartbeats_iter (nd_raft nd) notified = Ok (rf', msgs, more) → log_inv (add_msgs msgs (set_raft c i nd rf')) L.
Proof.
  intros H. destruct (li_node _ _ Hlog i nd Hi) as [N1 N2 N3 N4].
  pose proof (leaderHeartbeats_ok _ _ _ _ _ log_wf_node H) as Hok. destruct (heartbeat_frame _ _ _ _ _ H) as ((Hl & Hsi & _) & _).
  destruct (heartbeat_sends _ _ _ _ _ H) as [_ Hms].
  eapply log_keep; [done|apply node_log_step; [apply Hok|done|by rewrite Hl]|done|by left|].
  intros p msg [Hin|?]%elem_of_app; [right|by left]. destruct (Hms p msg Hin) as (_ & _ & Hto).
  eapply replicateTo_log; [apply Hok|by rewrite Hl|by rewrite Hsi|done].
Qed.

Lemma log_crash now rf' :
  Make (npeers (nd_raft nd)) i (Persister.Copy (persister (nd_raft nd))) now = Ok rf' → log_inv (set_node c i (mkNode rf' [] None)) L.
Proof.
  intros H. destruct (li_node _ _ Hlog i nd Hi) as [N1 N2 N3 N4].
  destruct (crash_same n c i nd Hinv Hi now rf' H) as (_ & Hl & Hsi & _).
  assert (Hla : lastApplied rf' = 0%Z) by (unfold Make, readPersist in H; repeat case_match; res_inv; by simplify_eq).
  eapply log_keep; [done| |done|by left|by left]. split; simpl; [rewrite Hla; lia|lia|by rewrite Hsi|by rewrite Hl].
Qed.

Lemma log_applier_end msg :
  nd_sending nd = Some msg → log_inv (set_node c i (mkNode (applier_end (nd_raft nd) msg) (nd_threads nd) None)) L.
Proof.
  intros Hsd. destruct (li_node _ _ Hlog i nd Hi) as [N1 N2 N3 N4]. rewrite Hsd in N2. simpl in N2. unfold msg_index in N2.
  eapply log_keep; [done| |done|by left|by left]. unfold applier_end.
  split; simpl; destruct (SnapshotValid msg); repeat case_bool_decide; simpl; done || lia.
Qed.

(** The applier delivers: the command is the one that stands in the log, or
    the next one. *)
Lemma log_applier_begin msg (c' := add_applied (i, msg) (set_node c i (mkNode (nd_raft nd) (nd_threads nd) (Some msg)))) :
  reachable_serviced n c' → applier_begin (nd_raft nd) = Ok (Deliver msg) → ∃ L', log_inv c' L' ∧ log_grows P L L'.
Proof.
  intros Hr H. pose proof (li_node _ _ Hlog i nd Hi) as [N1 N2 N3 N4]. unfold applier_begin in H.
  destruct (Killed _); [done|]. case_bool_decide as Hsnap.
  { injection H as <-. exists L. split; [|by left]. eapply log_keep; [done| |by right| |by left]; [by split|].
    intros j m [[= -> ->]|?]%elem_of_cons; [by right|by left]. }
  case_bool_decide as Hlt; [|done]. destruct (entry _ _) as [e|] eqn:He; [|done]. res_simpl. injection H as <-.
  set (msg := mkApplyMsg _ _ _ _ _ _ _ : ApplyMsg C) in *. apply entry_lookup in He as [Hge He]. rewrite (wf_base _ log_wf_node) in *.
  destruct (N4 (Z.to_nat (lastApplied (nd_raft nd) + 1 - snapshotIndex (nd_raft nd))) e ltac:(lia) He) as (cmd & Hcmd & HP). set (k := Z.to_nat (lastApplied (nd_raft nd))) in *.
  assert (Hd : delivers msg k cmd) by (split_and!; [done|simpl; lia|done]).
  assert (Hnode : ∀ L', length L ≤ length L' → S k ≤ length L' → ∀ j nd', cl_nodes c' !! j = Some nd' → node_log L' nd').
  { intros L' Hle Hk j nd' Hj. apply (lookup_insert_Some (cl_nodes c)) in Hj as [[_ <-]|[_ Hj]].
    - split; simpl; [lia|unfold msg_index; simpl; lia|lia|done].
    - destruct (li_node _ _ Hlog j nd' Hj). split; [lia|lia|lia|done]. }
  assert (Hmsg : ∀ L', length L ≤ length L' → ∀ p m, (p, m) ∈ cl_msgs c' → msg_log L' m).
  { intros L' Hle p m Hin. pose proof (li_msg _ _ Hlog p m Hin) as Hm. destruct m; simpl in *; [done|lia]. }
  destruct (li_agreed _ _ Hlog) as [A1 A2]. destruct (decide (k < length L)) as [Hin|Hout].
  - exists L. split; [|by left]. split; [|by apply Hnode; lia|by apply Hmsg].
    destruct (lookup_lt_is_Some_2 L k Hin) as [cmd' Hcmd']. destruct (A2 k cmd' Hcmd') as (j & m & Hm & Hdm).
    assert (m = msg) as ->.
    { eapply (applied_serviced n c' j i); [done|by right|by left|apply Hdm|done|]. destruct Hdm as (_ & -> & _). simpl. lia. }
    split.
    + intros j' m' [[= -> ->]|?]%elem_of_cons Hv; [|by eapply A1]. by exists k, cmd'.
    + intros k' x Hk'. destruct (A2 k' x Hk') as (j' & m' & ? & ?). exists j', m'. split; [by right|done].
  - assert (k = length L) as Hk by lia. exists (L ++ [cmd]). split; [|right; by exists cmd].
    split; [|by apply Hnode; rewrite length_app; simpl; lia|by apply Hmsg; rewrite length_app; simpl; lia]. split.
    + intros j m [[= -> ->]|?]%elem_of_cons Hv.
      * exists k, cmd. split; [done|]. rewrite Hk. by apply list_lookup_middle.
      * destruct (A1 j m ltac:(done) Hv) as (k' & x & ? & ?). exists k', x. split; [done|]. by apply lookup_app_l_Some.
    + intros k' x [Hx|[Hlen Hx]]%lookup_app_Some.
      * destruct (A2 k' x Hx) as (j & m & ? & ?). exists j, m. split; [by right|done].
      * apply list_lookup_singleton_Some in Hx as [Hz <-]. exists i, msg. split; [by left|]. by replace k' with k by lia.
Qed.
End Node.

Lemma log_step c' :
  reachable_serviced n c' → submitting P c c' → ∃ L', log_inv c' L' ∧ log_grows P L L'.
Proof.
  intros Hr [Hstep Hsub].
  assert (Hstay : log_inv c' L → ∃ L', log_inv c' L' ∧ log_grows P L L') by (intros ?; exists L; split; [done|by left]).
  destruct Hstep as [c' Hst Hsame|i nd index snap rf' Hi ? ?|i nd args now rf' reply Hi ? ? ?].
  2: by eapply Hstay, log_Snapshot.
  2: by eapply Hstay, log_InstallSnapshot.
  assert (Hsi : ∀ i nd nd', cl_nodes c !! i = Some nd → cl_nodes c' !! i = Some nd' →
    snapshotIndex (nd_raft nd') = snapshotIndex (nd_raft nd)) by done. clear Hsame.
  assert (Hwf : ∀ i nd, cl_nodes c !! i = Some nd → raft_wf (nd_raft nd)) by (intros i nd Hi; apply (ci_nodes _ _ Hinv i nd Hi)).
  destruct Hst as [i nd ? ? ? rf' ? Hi ? H|i nd ? ? ? rf' Hi ? H|i nd ? ? rf' ? Hi Hin H|i nd ? ? ? ? ? rf' ? Hi ? ? ? ? H
    |i nd th ths1 ths2 Hi ? ? rf' c'|i nd ? rf' ? ? Hi H|i nd args ? rf' ? Hi Hin H|i nd ? ? rf' ? Hi ? H
    |i nd ? ? ? rf' Hi ? ? H|i nd ? ? ? rf' Hi ? ? H|i nd cmd rf' ? Hi H|i nd index ? rf' Hi H|i nd msg Hi ? H|i nd msg Hi H|i nd Hi
    |i nd ? rf' Hi H]; pose proof (Hwf i nd Hi) as Hw.
  - apply Hstay. eapply (log_same i nd Hi _ rf'); try done; [by eapply so_lastApplied, electionStart_ok|by apply (quiet_election _ _ _ _ _ _ H)..].
  - apply Hstay. destruct (electionStart_ok _ _ _ _ _ _ Hw ltac:(done) H) as [_ ->]. by eapply (log_same i nd Hi).
  - apply Hstay. pose proof (quiet_RequestVote _ _ _ _ _ H) as (Hl & Hs & _).
    eapply (log_same i nd Hi _ rf'); try done. eapply so_lastApplied, RequestVote_ok; [done| |done].
    rewrite (ni_me _ _ _ _ (ci_nodes _ _ Hinv i nd Hi)). by apply (ci_requests _ _ Hinv i).
  - apply Hstay. pose proof (quiet_countVotes _ _ _ _ _ H) as (Hl & Hs & _).
    eapply (log_same i nd Hi _ rf'); try done. by eapply so_lastApplied, countVotes_ok.
  - apply Hstay. assert (lastApplied rf' = lastApplied (nd_raft nd) ∧ snapshotIndex rf' = snapshotIndex (nd_raft nd) ∧ log rf' = log (nd_raft nd)) as (? & ? & ?).
    { unfold rf', leaderElection_finish. by destruct (_ && _). }
    case_bool_decide; by eapply (log_same i nd Hi _ rf').
  - by eapply Hstay, log_heartbeat.
  - apply Hstay. pose proof (li_msg _ _ Hlog _ _ Hin) as Hm. simpl in Hm.
    eapply (log_local i nd Hi _ rf'); try done; [by eapply so_lastApplied, AppendEntries_ok| |].
    + exact (Hsi i nd (mkNode rf' (nd_threads nd) (nd_sending nd)) Hi (lookup_insert_eq _ _ _)).
    + eapply AppendEntries_stored; [done|done|by apply (li_node _ _ Hlog i nd Hi)|done].
  - by eapply Hstay, log_InstallSnapshot.
  - apply Hstay. eapply (log_same i nd Hi _ rf'); try done; [by eapply so_lastApplied, sendAppendEntries_ok| |].
    + exact (Hsi i nd (mkNode rf' (nd_threads nd) (nd_sending nd)) Hi (lookup_insert_eq _ _ _)).
    + destruct (reply_cases nd _ _ _ _ H) as [((? & _) & _)|(_ & _ & _ & _ & ? & _)]; done.
  - apply Hstay. eapply (log_same i nd Hi _ rf'); try done; [by eapply so_lastApplied, sendInstallSnapshot_ok| |].
    + exact (Hsi i nd (mkNode rf' (nd_threads nd) (nd_sending nd)) Hi (lookup_insert_eq _ _ _)).
    + unfold sendInstallSnapshot in H. do 2 (case_bool_decide; [by injection H as <-|]). destruct (idx _ _); [|done]. res_simpl.
      case_bool_decide; [|by injection H as <-]. destruct (upd (matchIndex _) _ _); [|done]. res_simpl.
      destruct (upd (nextIndex _) _ _); [|done]. res_simpl. by injection H as <-.
  - apply Hstay. eapply (log_local i nd Hi _ rf'); try done; [by eapply so_lastApplied, Start_ok| |].
    + exact (Hsi i nd (mkNode rf' (nd_threads nd) (nd_sending nd)) Hi (lookup_insert_eq _ _ _)).
    + pose proof (nl_stored _ _ (li_node _ _ Hlog i nd Hi)) as Hl. pose proof H as HS. unfold Start in H.
      case_bool_decide as Hlead; injection H as <- _; [|done]. simpl.
      intros j e Hj [He|[_ He]]%lookup_app_Some; [by eapply Hl|]. apply list_lookup_singleton_Some in He as [_ <-].
      exists cmd. split; [done|]. by eapply Hsub.
  - apply Hstay. assert (rf' = nd_raft nd) as ->.
    { pose proof (Hsi i nd (mkNode rf' (nd_threads nd) (nd_sending nd)) Hi (lookup_insert_eq _ _ _)) as Hs. simpl in Hs.
      unfold Snapshot in H. case_bool_decide as Hle; [by injection H as <-|]. res_inv. simplify_eq/=. lia. }
    by eapply (log_same i nd Hi).
  - by apply (log_applier_begin i nd Hi).
  - by apply Hstay, (log_applier_end i nd Hi).
  - by apply Hstay, (log_same i nd Hi _ (Kill (nd_raft nd)) (nd_threads nd)).
  - by eapply Hstay, (log_crash i nd Hi).
Qed.
End Steps.

Lemma submitting_serviced n c : reachable_submitting P n c → reachable_serviced n c.
Proof. intros [now Hr]. exists now. eapply rtc_subrel; [|done]. by intros ? ? [? _]. Qed.

Lemma initCluster_log n now : log_inv (initCluster n now) [].
Proof.
  split; [split|..].
  - by intros i msg ?%elem_of_nil.
  - done.
  - intros i nd ->%initCluster_node. split; simpl; try lia. intros [|j] e Hj He; [lia|done].
  - by intros p msg ?%elem_of_nil.
Qed.

Lemma reachable_log n c : reachable_submitting P n c → ∃ L, log_inv c L ∧ Forall P L.
Proof.
  intros [now Hrun]. revert c Hrun. apply rtc_ind_r; [exists []; split; [apply initCluster_log|constructor]|].
  intros c c' Hrun Hst (L & Hlog & HL).
  assert (Hr : reachable_serviced n c) by (apply submitting_serviced; by exists now).
  assert (Hr' : reachable_serviced n c') by (apply submitting_serviced; exists now; by eapply rtc_r).
  destruct (log_step n c L (bk_inv _ _ (reachable_backed _ _ Hr)) Hlog c' Hr' Hst) as (L' & Hlog' & Hg).
  exists L'. split; [done|]. destruct Hg as [->|(cmd & HP & ->)]; [done|]. apply Forall_app. split; [done|]. by constructor.
Qed.
End Invariant.

(** The deliveries determine the log. *)
Lemma agreed_unique c L L' : agreed c L → agreed c L' → L' = L.
Proof.
  assert (Hsub : ∀ L1 L2 k cmd, agreed c L1 → agreed c L2 → L1 !! k = Some cmd → L2 !! k = Some cmd).
  { intros L1 L2 k cmd [_ A1] [A2 _] Hk. destruct (A1 k cmd Hk) as (i & msg & Hin & Hv & Hi & Hc).
    destruct (A2 i msg Hin Hv) as (k' & cmd' & (_ & Hi' & Hc') & Hk'). assert (k' = k) as -> by lia. congruence. }
  intros H1 H2. apply list_eq. intros k. apply option_eq. intros cmd. split; by apply Hsub.
Qed.

(** The deliveries are those of one log, and a step leaves it as it is or
    appends to it. *)
Lemma refines_serviced (P : C → Prop) n c :
  reachable_submitting P n c →
  ∃ L, agreed c L ∧ (∀ L', agreed c L' → L' = L) ∧ Forall P L ∧
    ∀ c', submitting P c c' → ∃ L', agreed c' L' ∧ log_grows P L L'.
Proof.
  intros Hr. destruct (reachable_log P n c Hr) as (L & Hlog & HL). exists L. pose proof (li_agreed _ _ _ Hlog) as Ha.
  split_and!; [done|intros L' Ha'; by eapply agreed_unique|done|]. intros c' Hst.
  assert (Hr' : reachable_serviced n c').
  { apply (submitting_serviced P). destruct Hr as [now Hr]. exists now. by eapply rtc_r. }
  pose proof (bk_inv _ _ (reachable_backed _ _ (submitting_serviced P _ _ Hr))) as Hinv.
  destruct (log_step P n c L Hinv Hlog c' Hr' Hst) as (L' & Hlog' & Hg). exists L'. split; [apply Hlog'|done].
Qed.
End Refine.
