(* ===== verification/RaftMemory.v ===== *)
(** * The Raft log in memory (src/raft/log.go)

    [RaftLog] has the log as a list.  In Go it is a slice: a window on a
    backing array that other slices may show too.  [place] overwrites slots
    of that array, [append] writes behind the window while there is room and
    moves to a new array otherwise, the two truncations and [slice] only
    move the window.  The arrays of one process are a [Memory]; a [Slice]
    is an array, an offset and a length, and its capacity is what the array
    has from the offset on, since the sources never use a full slice
    expression.  How much room a new array gets is up to the runtime: the
    number of spare slots is an argument.

    Lemmas: on memory, every operation does what [RaftLog] says it does to
    the list ([represents] is kept), and which other windows an operation
    leaves as they are: all those that end where the log ends or before,
    except under [place]. *)

From stdpp Require Import base list.
From Stdlib Require Import ZArith Lia.
From S2P Require Import Prelude RaftLog.

(** The backing arrays of a process, in the order of their allocation. *)
Abbreviation Memory C := (list (list (Entry C))).

Section RaftMemory.
Context {C : Type}.
Implicit Types m : Memory C.

Record Slice : Type := mkSlice {
  sl_array : nat;
  sl_offset : nat;
  sl_len : nat;
}.
Implicit Types s t : Slice.

Definition array m s : list (Entry C) := default [] (m !! sl_array s).

(** What a slice shows. *)
Definition cells m s : list (Entry C) := take (sl_len s) (drop (sl_offset s) (array m s)).

Definition sl_cap m s : nat := length (array m s) - sl_offset s.

(** Where its window ends in the array. *)
Definition sl_end s : nat := sl_offset s + sl_len s.

(** [s[i]] *)
Definition load m s (i : Z) : Res (Entry C) := idx (cells m s) i.

(** [s[i] = x] *)
Definition store m s (i : Z) (x : Entry C) : Res (Memory C) :=
  if bool_decide (0 ≤ i < Z.of_nat (sl_len s))%Z
  then Ok (<[sl_array s := <[sl_offset s + Z.to_nat i := x]> (array m s)]> m) else Panic.

(** [s[i:]] *)
Definition reslice_from s (i : Z) : Res Slice :=
  if bool_decide (0 ≤ i ≤ Z.of_nat (sl_len s))%Z
  then Ok (mkSlice (sl_array s) (sl_offset s + Z.to_nat i) (sl_len s - Z.to_nat i)) else Panic.

(** [s[:i]]; the bound may lie between the length and the capacity. *)
Definition reslice_to m s (i : Z) : Res Slice :=
  if bool_decide (0 ≤ i ≤ Z.of_nat (sl_cap m s))%Z
  then Ok (mkSlice (sl_array s) (sl_offset s) (Z.to_nat i)) else Panic.

(** [append(s, a...)]: in place if the capacity allows it, else in a new
    array with [extra] spare slots. *)
Definition go_append m s (a : list (Entry C)) (extra : nat) : Memory C * Slice :=
  if bool_decide (sl_len s + length a ≤ sl_cap m s) then
    (<[sl_array s := take (sl_end s) (array m s) ++ a ++ drop (sl_end s + length a) (array m s)]> m,
     mkSlice (sl_array s) (sl_offset s) (sl_len s + length a))
  else
    (m ++ [cells m s ++ a ++ replicate extra zeroEntry], mkSlice (length m) 0 (sl_len s + length a)).

(** ** [type Log struct] *)

Record MemLog : Type := mkMemLog {
  ml_entries : Slice;
  ml_index0 : Z;
}.
Implicit Types l : MemLog.

Definition mem_append m l (a : list (Entry C)) (extra : nat) : Memory C * MemLog :=
  let '(m, s) := go_append m (ml_entries l) a extra in (m, mkMemLog s (ml_index0 l)).

(** The loop of [place]: the memory, the counter and [a[j:]]. *)
Fixpoint mem_overlap m s (i : nat) (a : list (Entry C)) : Res (Memory C * nat * list (Entry C)) :=
  match a with
  | [] => Ok (m, i, [])
  | x :: a' =>
      if bool_decide (i < sl_len s) then
        m ← store m s (Z.of_nat i) x; mem_overlap m s (S i) a'
      else Ok (m, i, a)
  end.

Definition mem_place m l (index : Z) (a : list (Entry C)) (extra : nat) : Res (Memory C * MemLog) :=
  _ ← Assert (bool_decide (0 ≤ index - ml_index0 l)%Z);
  '(m, i, rest) ← mem_overlap m (ml_entries l) (Z.to_nat (index - ml_index0 l)) a;
  let '(m, s) := go_append m (ml_entries l) rest extra in
  let i := (i + length rest)%nat in
  if bool_decide (i < sl_len s) then
    e1 ← load m s (Z.of_nat i - 1);
    e2 ← load m s (Z.of_nat i);
    if bool_decide (eTerm e1 > eTerm e2)%Z
    then s' ← reslice_to m s (Z.of_nat i); Ok (m, mkMemLog s' (ml_index0 l))
    else Ok (m, mkMemLog s (ml_index0 l))
  else Ok (m, mkMemLog s (ml_index0 l)).

Definition mem_slice l (index : Z) : Res Slice := reslice_from (ml_entries l) (index - ml_index0 l).

Definition mem_cutOffHead l (index : Z) : Res MemLog :=
  s ← reslice_from (ml_entries l) (index - ml_index0 l);
  Ok (mkMemLog s index).

Definition mem_cutOffTail m l (index : Z) : Res MemLog :=
  if bool_decide (index = ml_index0 l) then
    s ← reslice_to m (ml_entries l) 1; Ok (mkMemLog s (ml_index0 l))
  else
    s ← reslice_to m (ml_entries l) (index - ml_index0 l); Ok (mkMemLog s (ml_index0 l)).

(** A log in an array of its own ([Log{...}], a decoded slice). *)
Definition mem_new m (lv : Log C) (extra : nat) : Memory C * MemLog :=
  (m ++ [entries lv ++ replicate extra zeroEntry], mkMemLog (mkSlice (length m) 0 (length (entries lv))) (index0 lv)).

(** ** What memory shows of a log *)

Definition slice_ok m s : Prop := ∃ c, m !! sl_array s = Some c ∧ sl_end s ≤ length c.

Record represents m l (lv : Log C) : Prop := {
  rp_ok : slice_ok m (ml_entries l);
  rp_cells : cells m (ml_entries l) = entries lv;
  rp_index0 : ml_index0 l = index0 lv;
}.

(** A window that ends before [s] does, or shows another array. *)
Definition under t s : Prop := sl_array t ≠ sl_array s ∨ sl_end t ≤ sl_end s.

(** A window that is as it was. *)
Definition untouched m m' t : Prop := slice_ok m' t ∧ cells m' t = cells m t.

Lemma slice_ok_array m s : slice_ok m s → m !! sl_array s = Some (array m s) ∧ sl_end s ≤ length (array m s).
Proof. intros (c & Hc & ?). unfold array. by rewrite Hc. Qed.

Lemma slice_ok_valid m s : slice_ok m s → sl_array s < length m.
Proof. intros (c & Hc & _). by eapply lookup_lt_Some. Qed.

Lemma cells_length m s : slice_ok m s → length (cells m s) = sl_len s.
Proof. intros [_ H]%slice_ok_array. unfold cells, sl_end in *. rewrite length_take, length_drop. lia. Qed.

Lemma untouched_refl m t : slice_ok m t → untouched m m t.
Proof. done. Qed.

Lemma untouched_trans m1 m2 m3 t : untouched m1 m2 t → untouched m2 m3 t → untouched m1 m3 t.
Proof. intros [_ E1] [O2 E2]. split; [done|congruence]. Qed.

(** Arrays that are still there are not touched by an allocation. *)
Lemma untouched_alloc m c t : slice_ok m t → untouched m (m ++ [c]) t.
Proof.
  intros Hok. pose proof (slice_ok_valid _ _ Hok) as Hv. pose proof Hok as (a & Ha & He).
  assert (Hl : (m ++ [c]) !! sl_array t = m !! sl_array t) by (by apply lookup_app_l).
  split; [exists a; by rewrite Hl|]. unfold cells, array. by rewrite Hl.
Qed.

(** Nor are other arrays by a write, nor what lies before it. *)
Lemma untouched_write m id c' t :
  slice_ok m t →
  (sl_array t = id → sl_end t ≤ length c' ∧ take (sl_end t) c' = take (sl_end t) (array m t)) →
  untouched m (<[id := c']> m) t.
Proof.
  intros Hok Hsame. destruct (slice_ok_array _ _ Hok) as [Ha He]. unfold untouched, slice_ok, cells, array.
  destruct (decide (sl_array t = id)) as [<-|Hne].
  - destruct (Hsame eq_refl) as [Hlen Htake].
    rewrite list_lookup_insert_eq by (by eapply lookup_lt_Some). split; [by exists c'|]. simpl.
    fold (array m t). unfold sl_end in Htake. rewrite !take_drop_commute. by rewrite Htake.
  - rewrite list_lookup_insert_ne by done. split; [by exists (array m t)|done].
Qed.

(** Arrays never get shorter. *)
Lemma write_ok m s c' t :
  slice_ok m s → length c' = length (array m s) → slice_ok m t → slice_ok (<[sl_array s := c']> m) t.
Proof.
  intros [Ha _]%slice_ok_array Hlen (c & Hc & He). unfold slice_ok. destruct (decide (sl_array t = sl_array s)) as [Heq|Hne].
  - exists c'. rewrite Heq, list_lookup_insert_eq by (by eapply lookup_lt_Some). split; [done|].
    rewrite Heq, Ha in Hc. injection Hc as <-. lia.
  - exists c. by rewrite list_lookup_insert_ne by done.
Qed.

Lemma store_spec m s i x :
  slice_ok m s → i < sl_len s →
  ∃ m', store m s (Z.of_nat i) x = Ok m' ∧ cells m' s = <[i := x]> (cells m s) ∧ ∀ t, slice_ok m t → slice_ok m' t.
Proof.
  intros Hok Hi. destruct (slice_ok_array _ _ Hok) as [Ha He]. pose proof (slice_ok_valid _ _ Hok).
  eexists. unfold store. rewrite bool_decide_true by lia. rewrite Nat2Z.id. split; [done|]. split.
  - unfold cells, array. rewrite list_lookup_insert_eq by done. simpl. fold (array m s).
    rewrite drop_insert_ge, take_insert_lt by lia. f_equal. lia.
  - intros t. apply write_ok; [done|by rewrite length_insert].
Qed.

Lemma mem_overlap_spec a : ∀ m s i es' i' rest,
  slice_ok m s → place_overlap (cells m s) i a = (es', i', rest) →
  ∃ m', mem_overlap m s i a = Ok (m', i', rest) ∧ cells m' s = es' ∧ ∀ t, slice_ok m t → slice_ok m' t.
Proof.
  induction a as [|x a IH]; intros m s i es' i' rest Hok H; simpl in *.
  { injection H as <- <- <-. by exists m. }
  rewrite (cells_length _ _ Hok) in H. case_bool_decide as Hi; [|injection H as <- <- <-; by exists m].
  destruct (store_spec m s i x Hok Hi) as (m1 & -> & Hc1 & Hk1). res_simpl. rewrite <-Hc1 in H.
  destruct (IH _ _ _ _ _ _ (Hk1 s Hok) H) as (m' & ? & ? & ?). exists m'. split_and!; auto.
Qed.

Lemma go_append_spec m s a extra m' s' :
  slice_ok m s → go_append m s a extra = (m', s') →
  slice_ok m' s' ∧ cells m' s' = cells m s ++ a ∧ (∀ t, slice_ok m t → slice_ok m' t) ∧
  ∀ t, slice_ok m t → under t s → untouched m m' t ∧ under t s'.
Proof.
  intros Hok. destruct (slice_ok_array _ _ Hok) as [Ha He]. pose proof (slice_ok_valid _ _ Hok) as Hv.
  pose proof (cells_length _ _ Hok) as Hlen. unfold go_append. case_bool_decide as Hcap; intros [= <- <-].
  - unfold sl_cap in Hcap. set (c' := take (sl_end s) (array m s) ++ a ++ drop (sl_end s + length a) (array m s)).
    assert (Hc' : length c' = length (array m s)).
    { unfold c'. rewrite !length_app, length_take, length_drop. unfold sl_end in *. lia. }
    split_and!.
    + exists c'. simpl. rewrite list_lookup_insert_eq by done. split; [done|]. unfold sl_end in *. simpl. lia.
    + unfold cells at 1, array. simpl. rewrite list_lookup_insert_eq by done. simpl. unfold c', cells.
      rewrite drop_app_le by (rewrite length_take; unfold sl_end in *; lia).
      unfold sl_end at 1. rewrite <-take_drop_commute, app_assoc. fold (cells m s).
      by rewrite take_app_length' by (rewrite length_app; lia).
    + intros t. by apply write_ok.
    + intros t Ht Hu. split; [|destruct Hu as [?|?]; [by left|right; unfold sl_end in *; simpl; lia]].
      apply untouched_write; [done|]. intros Heq. destruct Hu as [?|Hu]; [done|]. rewrite Hc'.
      assert (array m t = array m s) as -> by (unfold array; by rewrite Heq). split; [lia|].
      unfold c'. rewrite take_app_le by (rewrite length_take; lia). rewrite take_take, Nat.min_l; [done|lia].
  - split_and!.
    + eexists. simpl. rewrite list_lookup_middle by done. split; [done|].
      unfold sl_end. simpl. rewrite !length_app. lia.
    + unfold cells at 1, array. simpl. rewrite list_lookup_middle by done. simpl. rewrite drop_0, app_assoc.
      by rewrite take_app_length' by (rewrite length_app; lia).
    + intros t Ht. by apply (untouched_alloc m _ t).
    + intros t Ht Hu. split; [by apply untouched_alloc|]. left. simpl. apply slice_ok_valid in Ht. lia.
Qed.

Lemma reslice_from_spec m s i s' :
  slice_ok m s → reslice_from s i = Ok s' →
  slice_ok m s' ∧ slice_from (cells m s) i = Ok (cells m s') ∧ sl_array s' = sl_array s ∧ sl_end s' = sl_end s.
Proof.
  intros Hok. pose proof (cells_length _ _ Hok) as Hlen. unfold reslice_from. case_bool_decide as Hi; [|done]. intros [= <-].
  assert (Hend : sl_end (mkSlice (sl_array s) (sl_offset s + Z.to_nat i) (sl_len s - Z.to_nat i)) = sl_end s)
    by (unfold sl_end; simpl; lia).
  split_and!; [|apply slice_from_Ok|done|done].
  - destruct Hok as (c & ? & ?). exists c. by rewrite Hend.
  - split; [unfold zlen; lia|]. unfold cells, array. simpl. rewrite skipn_firstn_comm, drop_drop. done.
Qed.

(** The window of a slice can be moved whenever the list can be cut. *)
Lemma reslice_from_returns m s i es :
  slice_ok m s → slice_from (cells m s) i = Ok es → ∃ s', reslice_from s i = Ok s' ∧ cells m s' = es.
Proof.
  intros Hok H. pose proof (cells_length _ _ Hok) as Hlen. pose proof H as [Hi _]%slice_from_Ok.
  assert (∃ s', reslice_from s i = Ok s') as [s' Hs'].
  { unfold reslice_from. rewrite bool_decide_true by (unfold zlen in Hi; lia). by eexists. }
  exists s'. split; [done|]. destruct (reslice_from_spec m s i s' Hok Hs') as (_ & H' & _). congruence.
Qed.

Lemma reslice_to_returns m s i es :
  slice_ok m s → slice_to (cells m s) i = Ok es →
  ∃ s', reslice_to m s i = Ok s' ∧ slice_ok m s' ∧ cells m s' = es.
Proof.
  intros Hok [Hi ->]%slice_to_Ok. pose proof (cells_length _ _ Hok) as Hlen. pose proof Hok as (c & Hc & He).
  destruct (slice_ok_array _ _ Hok) as [Ha Hle].
  unfold reslice_to, sl_cap, zlen, sl_end in *. rewrite bool_decide_true by lia. eexists. split; [done|]. split.
  - exists c. split; [done|]. unfold sl_end. simpl. lia.
  - unfold cells, array. simpl. rewrite take_take. f_equal. lia.
Qed.

(** ** The operations *)

Lemma mem_append_spec m l lv a extra m' l' :
  represents m l lv → mem_append m l a extra = (m', l') →
  represents m' l' (append lv a) ∧ (∀ t, slice_ok m t → slice_ok m' t) ∧
  ∀ t, slice_ok m t → under t (ml_entries l) → untouched m m' t ∧ under t (ml_entries l').
Proof.
  intros [Hok Hc H0] H. unfold mem_append in H. destruct (go_append _ _ _ _) as [m1 s1] eqn:E. injection H as <- <-.
  destruct (go_append_spec _ _ _ _ _ _ Hok E) as (? & Hcells & ? & ?). split; [|done].
  split; [done| |done]. simpl. rewrite Hcells. by rewrite Hc.
Qed.

Lemma mem_new_spec m lv extra m' l' :
  mem_new m lv extra = (m', l') →
  represents m' l' lv ∧ ∀ t, slice_ok m t → untouched m m' t ∧ under t (ml_entries l').
Proof.
  intros [= <- <-]. split; [split|].
  - eexists. simpl. rewrite list_lookup_middle by done. split; [done|]. unfold sl_end. simpl. rewrite length_app. lia.
  - unfold cells, array. simpl. rewrite list_lookup_middle by done. simpl. by rewrite drop_0, take_app_length.
  - done.
  - intros t Ht. split; [by apply untouched_alloc|]. left. simpl. apply slice_ok_valid in Ht. lia.
Qed.

Lemma mem_cutOffHead_spec m l lv index lv' :
  represents m l lv → cutOffHead lv index = Ok lv' →
  ∃ l', mem_cutOffHead l index = Ok l' ∧ represents m l' lv' ∧ ∀ t, under t (ml_entries l) → under t (ml_entries l').
Proof.
  intros [Hok Hc H0] H. unfold cutOffHead in H. destruct (slice_from _ _) as [es|] eqn:E; [|done]. res_simpl. injection H as <-.
  rewrite <-Hc, <-H0 in E. destruct (reslice_from_returns _ _ _ _ Hok E) as (s' & Hs' & Hcs).
  unfold mem_cutOffHead. rewrite Hs'. eexists. split; [done|].
  destruct (reslice_from_spec _ _ _ _ Hok Hs') as (? & _ & Ha & He). split; [by split|].
  intros t. unfold under. simpl. by rewrite Ha, He.
Qed.

Lemma mem_cutOffTail_spec m l lv index lv' :
  represents m l lv → cutOffTail lv index = Ok lv' →
  ∃ l', mem_cutOffTail m l index = Ok l' ∧ represents m l' lv'.
Proof.
  intros [Hok Hc H0] H. unfold cutOffTail, mem_cutOffTail in *. rewrite H0. case_bool_decide;
    destruct (slice_to _ _) as [es|] eqn:E; [|done| |done]; res_simpl; injection H as <-;
    rewrite <-Hc in E; destruct (reslice_to_returns _ _ _ _ Hok E) as (s' & -> & ? & ?);
    (eexists; split; [done|]; by split).
Qed.

Lemma mem_place_spec m l lv index a extra lv' :
  represents m l lv → place lv index a = Ok lv' →
  ∃ m' l', mem_place m l index a extra = Ok (m', l') ∧ represents m' l' lv' ∧ ∀ t, slice_ok m t → slice_ok m' t.
Proof.
  intros [Hok Hc H0] H. unfold place, mem_place in *. rewrite H0.
  destruct (Assert _) as [[]|]; [|done]. res_simpl. rewrite <-Hc in H.
  destruct (place_overlap _ _ _) as [[es1 i1] rest] eqn:Eo.
  destruct (mem_overlap_spec _ _ _ _ _ _ _ Hok Eo) as (m1 & -> & Hc1 & Hk1). res_simpl. pose proof (Hk1 _ Hok) as Hok1.
  destruct (go_append m1 _ rest extra) as [m2 s2] eqn:Ea.
  destruct (go_append_spec _ _ _ _ _ _ Hok1 Ea) as (Hok2 & Hc2 & Hk2 & _). rewrite Hc1 in Hc2.
  pose proof (cells_length _ _ Hok2) as Hlen. rewrite Hc2 in Hlen. unfold load. rewrite Hc2.
  rewrite <-Hlen. case_bool_decide as Hi.
  - destruct (idx _ (_ - 1)) as [e1|]; [|done]. res_simpl. destruct (idx _ (Z.of_nat _)) as [e2|]; [|done]. res_simpl.
    case_bool_decide; [|injection H as <-; eexists _, _; split_and!; [done|by split|auto]].
    destruct (slice_to _ _) as [es'|] eqn:Es; [|done]. res_simpl. injection H as <-. rewrite <-Hc2 in Es.
    destruct (reslice_to_returns _ _ _ _ Hok2 Es) as (s' & -> & ? & ?). res_simpl.
    eexists _, _. split_and!; [done|by split|auto].
  - injection H as <-. eexists _, _. split_and!; [done|by split|auto].
Qed.

(** The window that [slice] returns shows what the list has, and ends with
    the log. *)
Lemma mem_slice_spec m l lv index es :
  represents m l lv → slice lv index = Ok es →
  ∃ s, mem_slice l index = Ok s ∧ slice_ok m s ∧ cells m s = es ∧ under s (ml_entries l).
Proof.
  intros [Hok Hc H0] H. unfold slice in H. rewrite <-Hc, <-H0 in H.
  destruct (reslice_from_returns _ _ _ _ Hok H) as (s & Hs & Hcs). exists s.
  destruct (reslice_from_spec _ _ _ _ Hok Hs) as (? & _ & Ha & He). split_and!; [done..|]. right. lia.
Qed.

(** Reading the first slot of a window. *)
Lemma load_first m s e :
  slice_ok m s → 0 < sl_len s → load m s 0 = Ok e →
  let s' := mkSlice (sl_array s) (S (sl_offset s)) (sl_len s - 1) in
  slice_ok m s' ∧ cells m s = e :: cells m s' ∧ sl_end s' = sl_end s.
Proof.
  intros Hok Hpos He s'. pose proof Hok as (c & Hcm & Hend).
  assert (Hse : sl_end s' = sl_end s) by (unfold sl_end, s'; simpl; lia). split_and!; [exists c; by rewrite Hse| |done].
  unfold load in He. apply idx_Ok in He as [_ He]. unfold cells, array in *. simpl in *. rewrite Hcm in *. simpl in *.
  rewrite lookup_take_lt, lookup_drop, Nat.add_0_r in He by lia.
  rewrite (drop_S c e) by done. destruct (sl_len s) as [|k]; [lia|]. simpl. by rewrite Nat.sub_0_r.
Qed.
End RaftMemory.
