(* ===== verification/RaftShared.v ===== *)
(** * Raft with the memory of its logs

    In [RaftCluster] a leader's request carries its entries from the moment
    it is built.  In the code it carries [rf.log.slice(prevLogIndex + 1)],
    a window on the array of the leader's log, and the goroutine of
    [sendAppendEntries] encodes it inside [Call], after the mutex has been
    released (log_replication.go, labrpc.go).  Until then a peer that is no
    longer the leader may overwrite slots of that array with [place].

    Here every peer is a process with the arrays of its log and with the
    goroutines that have not yet sent their request.  A goroutine reads one
    slot at a time, at any later moment, and sends when it has read all of
    them; every operation on the log also runs on memory ([RaftMemory]).
    [shared_step] has all behaviours of this system.  ([InstallSnapshot]
    requests are sent at once: they share the bytes of a snapshot, which
    nobody writes.)

    Theorems: the log that [RaftCluster] works with is always the one that
    memory shows.  In [orderly] runs, where a peer that accepts an
    AppendEntries has no request of its own left to encode (and services and
    snapshots behave as [RaftCompaction] asks), every run is one of the
    cluster with copied requests, so that its safety carries over: state
    machine safety, leader completeness, log matching, and the refinement of
    one append-only log.  [RaftSharedWitness] has a run that is not orderly
    and in which two peers deliver different commands at an index. *)

From stdpp Require Import base list gmap.
From Stdlib Require Import ZArith Lia.
From S2P Require Import Prelude RaftLog RaftCore RaftElection RaftReplication RaftApply RaftNode RaftCluster RaftLogMatching RaftSafety RaftExpand RaftCompaction RaftRefine RaftMemory.

Section RaftShared.
Context {C : Type} `{!Gob (PState C), !GobOk (PState C)}.
Implicit Types rf : Raft C.
Implicit Types c : Cluster (C := C).
Implicit Types nd : Node (C := C).

(** ** The processes *)

(** The goroutine of a [sendAppendEntries] that is in [Encode]: its
    arguments with the entries that are encoded, and the window on those
    that are not. *)
Record Sender : Type := mkSender {
  sn_to : Z;
  sn_args : AppendEntriesArgs C;
  sn_rest : Slice;
}.

Record Process : Type := mkProcess {
  pr_memory : Memory C;
  pr_log : MemLog;
  pr_senders : list Sender;
}.
Implicit Types pr : Process.

Record Shared : Type := mkShared {
  sh_cluster : Cluster (C := C);
  sh_procs : gmap Z Process;
}.
Implicit Types S : Shared.

Definition with_entries (es : list (Entry C)) (args : AppendEntriesArgs C) : AppendEntriesArgs C :=
  mkAppendEntriesArgs (aea_Term args) (aea_LeaderId args) (aea_PrevLogIndex args) (aea_PrevLogTerm args)
                      es (aea_LeaderCommitIndex args).

(** The goroutines that a broadcast starts: [args.Entries] is a window on
    the log.  The snapshots among the requests are returned. *)
Fixpoint goroutines (l : MemLog) (msgs : list (Z * LeaderMsg C)) : Res (list Sender * list (Z * LeaderMsg C)) :=
  match msgs with
  | [] => Ok ([], [])
  | (p, MsgAppendEntries args) :: msgs =>
      s ← mem_slice l (aea_PrevLogIndex args + 1);
      '(sns, snaps) ← goroutines l msgs;
      Ok (mkSender p (with_entries [] args) s :: sns, snaps)
  | (p, MsgInstallSnapshot args) :: msgs =>
      '(sns, snaps) ← goroutines l msgs;
      Ok (sns, (p, MsgInstallSnapshot args) :: snaps)
  end.

(** What [AppendEntries] does to memory. *)
Definition mem_AppendEntries rf (args : AppendEntriesArgs C) (m : Memory C) (l : MemLog) (extra : nat) : Res (Memory C * MemLog) :=
  if bool_decide (aea_Term args < currentTerm rf)%Z then Ok (m, l)
  else if bool_decide (aea_PrevLogIndex args > lastIndex (log rf))%Z then Ok (m, l)
  else if bool_decide (aea_PrevLogIndex args < snapshotIndex rf)%Z then
    let i := (snapshotIndex rf - aea_PrevLogIndex args - 1)%Z in
    if bool_decide (zlen (aea_Entries args) > i)%Z then
      es ← slice_from (aea_Entries args) i;
      mem_place m l (snapshotIndex rf) es extra
    else Ok (m, l)
  else
    e ← entry (log rf) (aea_PrevLogIndex args);
    if bool_decide (eTerm e ≠ aea_PrevLogTerm args)
    then l ← mem_cutOffTail m l (aea_PrevLogIndex args); Ok (m, l)
    else mem_place m l (aea_PrevLogIndex args + 1) (aea_Entries args) extra.

(** What [InstallSnapshot] does to memory. *)
Definition mem_InstallSnapshot rf (args : InstallSnapshotArgs) (m : Memory C) (l : MemLog) (extra : nat) : Res (Memory C * MemLog) :=
  if bool_decide (isa_Term args < currentTerm rf)%Z then Ok (m, l)
  else if bool_decide (snapshotIndex rf >= isa_LastIncludedIndex args)%Z ||
          bool_decide (lastApplied rf >= isa_LastIncludedIndex args)%Z then Ok (m, l)
  else if bool_decide (lastIndex (log rf) > isa_LastIncludedIndex args)%Z
  then l ← mem_cutOffHead l (isa_LastIncludedIndex args); Ok (m, l)
  else Ok (mem_new m (mkLog [mkEntry (isa_LastIncludedTerm args) None] (isa_LastIncludedIndex args)) extra).

(** What [Snapshot] and [Start] do to memory. *)
Definition mem_Snapshot rf (index : Z) (l : MemLog) : Res MemLog :=
  if bool_decide (index ≤ snapshotIndex rf)%Z then Ok l else mem_cutOffHead l index.

Definition mem_Start rf (cmd : C) (m : Memory C) (l : MemLog) (extra : nat) : Memory C * MemLog :=
  if bool_decide (role rf = LEADER)
  then mem_append m l [mkEntry (currentTerm rf) (Some cmd)] extra else (m, l).

(** ** Steps *)

(** The critical sections that neither change a log nor build requests for
    followers, as in [cluster_step]. *)
Inductive local_step c : Cluster (C := C) → Prop :=
| ls_election i nd now1 now2 now3 rf' args :
    cl_nodes c !! i = Some nd → (now1 ≤ now2)%Z →
    leaderElection_start (nd_raft nd) now1 now2 now3 = Ok (rf', Some args) →
    local_step c
      (add_requests ((λ p, (p, args)) <$> votePeers rf')
        (set_node c i (mkNode rf' (mkThread (election_init args) (votePeers rf') :: nd_threads nd) (nd_sending nd))))
| ls_no_election i nd now1 now2 now3 rf' :
    cl_nodes c !! i = Some nd → (now1 ≤ now2)%Z →
    leaderElection_start (nd_raft nd) now1 now2 now3 = Ok (rf', None) →
    local_step c (set_raft c i nd rf')
| ls_RequestVote i nd args now rf' reply :
    cl_nodes c !! i = Some nd → (i, args) ∈ cl_requests c →
    RequestVote (nd_raft nd) args now = Ok (rf', reply) →
    local_step c (add_vote (i, args, reply) (set_raft c i nd rf'))
| ls_countVotes i nd th ths1 ths2 p reply rf' el' :
    cl_nodes c !! i = Some nd → nd_threads nd = ths1 ++ th :: ths2 →
    countVotes_more (nd_raft nd) (th_el th) = true → p ∈ th_pending th →
    (∀ r, reply = Some r → (p, el_args (th_el th), r) ∈ cl_votes c) →
    countVotes_step (nd_raft nd) (th_el th) reply = (rf', el') →
    local_step c
      (set_node c i (mkNode rf' (ths1 ++ mkThread el' (filter (λ q, q ≠ p) (th_pending th)) :: ths2) (nd_sending nd)))
| ls_finish i nd th ths1 ths2 :
    cl_nodes c !! i = Some nd → nd_threads nd = ths1 ++ th :: ths2 →
    countVotes_more (nd_raft nd) (th_el th) = false →
    let rf' := leaderElection_finish (nd_raft nd) (th_el th) in
    let c' := set_node c i (mkNode rf' (ths1 ++ ths2) (nd_sending nd)) in
    local_step c
      (if bool_decide (role rf' = LEADER ∧ role (nd_raft nd) ≠ LEADER)
       then add_leader (currentTerm rf', i) c' else c')
| ls_AppendEntries_reply i nd server args reply rf' :
    cl_nodes c !! i = Some nd → (server, args, reply) ∈ cl_aereplies c →
    aea_LeaderId args = i →
    sendAppendEntries (nd_raft nd) server args reply = Ok rf' →
    local_step c (set_raft c i nd rf')
| ls_InstallSnapshot_reply i nd server args reply rf' :
    cl_nodes c !! i = Some nd → (server, args, reply) ∈ cl_isreplies c →
    isa_LeaderId args = i →
    sendInstallSnapshot (nd_raft nd) server args reply = Ok rf' →
    local_step c (set_raft c i nd rf')
| ls_applier_begin i nd msg :
    cl_nodes c !! i = Some nd → nd_sending nd = None →
    applier_begin (nd_raft nd) = Ok (Deliver msg) →
    local_step c (add_applied (i, msg) (set_node c i (mkNode (nd_raft nd) (nd_threads nd) (Some msg))))
| ls_applier_end i nd msg :
    cl_nodes c !! i = Some nd → nd_sending nd = Some msg →
    local_step c (set_node c i (mkNode (applier_end (nd_raft nd) msg) (nd_threads nd) None))
| ls_Kill i nd :
    cl_nodes c !! i = Some nd →
    local_step c (set_raft c i nd (Kill (nd_raft nd))).

(** What happens in a step, as far as the conditions on runs need it. *)
Inductive Event : Type :=
| EvLocal
| EvBroadcast (i : Z)
| EvEncode (i : Z)
| EvSend (i : Z)
| EvAppendEntries (i : Z) (args : AppendEntriesArgs C)
| EvInstallSnapshot (i : Z) (args : InstallSnapshotArgs)
| EvStart (i : Z) (cmd : C)
| EvSnapshot (i : Z) (index : Z)
| EvCrash (i : Z).

Inductive shared_step S : Event → Shared → Prop :=
| sh_local c' :
    local_step (sh_cluster S) c' → shared_step S EvLocal (mkShared c' (sh_procs S))
(* an iteration of the leader's heartbeat loop starts goroutines *)
| sh_heartbeat i nd pr notified rf' msgs more sns snaps :
    cl_nodes (sh_cluster S) !! i = Some nd → sh_procs S !! i = Some pr →
    leaderHeartbeats_iter (nd_raft nd) notified = Ok (rf', msgs, more) →
    goroutines (pr_log pr) msgs = Ok (sns, snaps) →
    shared_step S (EvBroadcast i)
      (mkShared (add_msgs snaps (set_raft (sh_cluster S) i nd rf'))
                (<[i := mkProcess (pr_memory pr) (pr_log pr) (sns ++ pr_senders pr)]> (sh_procs S)))
(* a goroutine encodes the next entry *)
| sh_encode i pr sns1 sn sns2 e :
    sh_procs S !! i = Some pr → pr_senders pr = sns1 ++ sn :: sns2 →
    0 < sl_len (sn_rest sn) → load (pr_memory pr) (sn_rest sn) 0 = Ok e →
    let sn' := mkSender (sn_to sn) (with_entries (aea_Entries (sn_args sn) ++ [e]) (sn_args sn))
                 (mkSlice (sl_array (sn_rest sn)) (Datatypes.S (sl_offset (sn_rest sn))) (sl_len (sn_rest sn) - 1)) in
    shared_step S (EvEncode i)
      (mkShared (sh_cluster S) (<[i := mkProcess (pr_memory pr) (pr_log pr) (sns1 ++ sn' :: sns2)]> (sh_procs S)))
(* and sends the request when there is none *)
| sh_send i pr sns1 sn sns2 :
    sh_procs S !! i = Some pr → pr_senders pr = sns1 ++ sn :: sns2 → sl_len (sn_rest sn) = 0 →
    shared_step S (EvSend i)
      (mkShared (add_msgs [(sn_to sn, MsgAppendEntries (sn_args sn))] (sh_cluster S))
                (<[i := mkProcess (pr_memory pr) (pr_log pr) (sns1 ++ sns2)]> (sh_procs S)))
| sh_AppendEntries i nd pr args now rf' reply extra m' l' :
    cl_nodes (sh_cluster S) !! i = Some nd → sh_procs S !! i = Some pr →
    (i, MsgAppendEntries args) ∈ cl_msgs (sh_cluster S) →
    AppendEntries (nd_raft nd) args now = Ok (rf', reply) →
    mem_AppendEntries (nd_raft nd) args (pr_memory pr) (pr_log pr) extra = Ok (m', l') →
    shared_step S (EvAppendEntries i args)
      (mkShared (add_aereply (i, args, reply) (set_raft (sh_cluster S) i nd rf'))
                (<[i := mkProcess m' l' (pr_senders pr)]> (sh_procs S)))
| sh_InstallSnapshot i nd pr args now rf' reply extra m' l' :
    cl_nodes (sh_cluster S) !! i = Some nd → sh_procs S !! i = Some pr →
    (i, MsgInstallSnapshot args) ∈ cl_msgs (sh_cluster S) →
    InstallSnapshot (nd_raft nd) args now = Ok (rf', reply) →
    mem_InstallSnapshot (nd_raft nd) args (pr_memory pr) (pr_log pr) extra = Ok (m', l') →
    shared_step S (EvInstallSnapshot i args)
      (mkShared (add_isreply (i, args, reply) (set_raft (sh_cluster S) i nd rf'))
                (<[i := mkProcess m' l' (pr_senders pr)]> (sh_procs S)))
| sh_Start i nd pr cmd rf' result extra m' l' :
    cl_nodes (sh_cluster S) !! i = Some nd → sh_procs S !! i = Some pr →
    Start (nd_raft nd) cmd = (rf', result) →
    mem_Start (nd_raft nd) cmd (pr_memory pr) (pr_log pr) extra = (m', l') →
    shared_step S (EvStart i cmd)
      (mkShared (set_raft (sh_cluster S) i nd rf') (<[i := mkProcess m' l' (pr_senders pr)]> (sh_procs S)))
| sh_Snapshot i nd pr index snap rf' l' :
    cl_nodes (sh_cluster S) !! i = Some nd → sh_procs S !! i = Some pr →
    Snapshot (nd_raft nd) index snap = Ok rf' → mem_Snapshot (nd_raft nd) index (pr_log pr) = Ok l' →
    shared_step S (EvSnapshot i index)
      (mkShared (set_raft (sh_cluster S) i nd rf')
                (<[i := mkProcess (pr_memory pr) l' (pr_senders pr)]> (sh_procs S)))
(* the process is gone with its memory and its goroutines *)
| sh_crash i nd now rf' extra m' l' :
    cl_nodes (sh_cluster S) !! i = Some nd →
    Make (npeers (nd_raft nd)) i (Persister.Copy (persister (nd_raft nd))) now = Ok rf' →
    mem_new [] (log rf') extra = (m', l') →
    shared_step S (EvCrash i)
      (mkShared (set_node (sh_cluster S) i (mkNode rf' [] None)) (<[i := mkProcess m' l' []]> (sh_procs S))).

(** [makeLog(1, 0)] of every peer. *)
Definition initProcess : Process := mkProcess [[zeroEntry]] (mkMemLog (mkSlice 0 0 1) 0) [].

Definition initShared (n : nat) (now : Z) : Shared :=
  mkShared (initCluster n now) ((λ _, initProcess) <$> cl_nodes (initCluster (C := C) n now)).

Definition reachable_shared (n : nat) S : Prop :=
  ∃ now, rtc (λ S1 S2, ∃ ev, shared_step S1 ev S2) (initShared n now) S.

(** ** Orderly runs *)

(** A peer that accepts an AppendEntries has encoded every request that it
    built as a leader; services take snapshots of what they were handed; and
    a snapshot is not installed over a longer log that disagrees with it. *)
Definition orderly S (ev : Event) : Prop :=
  match ev with
  | EvAppendEntries i args => ∀ nd pr, cl_nodes (sh_cluster S) !! i = Some nd → sh_procs S !! i = Some pr →
      (currentTerm (nd_raft nd) ≤ aea_Term args)%Z → pr_senders pr = []
  | EvInstallSnapshot i args => ∀ nd, cl_nodes (sh_cluster S) !! i = Some nd → snapshot_fits (nd_raft nd) args
  | EvSnapshot i index => ∀ nd, cl_nodes (sh_cluster S) !! i = Some nd → (index ≤ handed nd)%Z
  | _ => True
  end.

(** Every command that is given to a leader satisfies [P]. *)
Definition submits (P : C → Prop) S (ev : Event) : Prop :=
  match ev with
  | EvStart i cmd => ∀ nd, cl_nodes (sh_cluster S) !! i = Some nd → role (nd_raft nd) = LEADER → P cmd
  | _ => True
  end.

Definition orderly_step (P : C → Prop) S S' : Prop :=
  ∃ ev, shared_step S ev S' ∧ orderly S ev ∧ submits P S ev.

Definition reachable_submitted (P : C → Prop) (n : nat) S : Prop :=
  ∃ now, rtc (orderly_step P) (initShared n now) S.

(** ** What memory shows *)

(** Every peer is a process, memory shows its log, and its goroutines read
    inside of the arrays. *)
Record proc_ok rf pr : Prop := {
  po_log : represents (pr_memory pr) (pr_log pr) (log rf);
  po_senders : ∀ sn, sn ∈ pr_senders pr → slice_ok (pr_memory pr) (sn_rest sn);
}.

Definition coherent S : Prop :=
  map_Forall2 (λ _ nd pr, proc_ok (nd_raft nd) pr) (cl_nodes (sh_cluster S)) (sh_procs S).

Lemma local_cluster_step c c' : local_step c c' → cluster_step c c'.
Proof.
  destruct 1; [by eapply cs_election|by eapply cs_no_election|by eapply cs_RequestVote|by eapply cs_countVotes|
    by eapply cs_finish|by eapply cs_AppendEntries_reply|by eapply cs_InstallSnapshot_reply|
    by eapply cs_applier_begin|by eapply cs_applier_end|by eapply cs_Kill].
Qed.

Lemma sendInstallSnapshot_log rf server args reply rf' :
  sendInstallSnapshot rf server args reply = Ok rf' → log rf' = log rf.
Proof.
  intros H. unfold sendInstallSnapshot in H. do 2 (case_bool_decide; [by injection H as <-|]). destruct (idx _ _); [|done]. res_simpl.
  case_bool_decide; [|by injection H as <-]. destruct (upd (matchIndex _) _ _); [|done]. res_simpl.
  destruct (upd (nextIndex _) _ _); [|done]. res_simpl. by injection H as <-.
Qed.

(** A peer after a local step has the log it had. *)
Lemma local_step_log c c' i nd' :
  local_step c c' → cl_nodes c' !! i = Some nd' →
  ∃ nd, cl_nodes c !! i = Some nd ∧ log (nd_raft nd') = log (nd_raft nd).
Proof.
  assert (Hset : ∀ c' j nd nd0, cl_nodes c !! j = Some nd → log (nd_raft nd0) = log (nd_raft nd) →
    cl_nodes c' = <[j := nd0]> (cl_nodes c) → cl_nodes c' !! i = Some nd' →
    ∃ nd, cl_nodes c !! i = Some nd ∧ log (nd_raft nd') = log (nd_raft nd)).
  { intros c1 j nd nd0 Hj Hl -> [[<- <-]|[_ Hi]]%lookup_insert_Some; [by exists nd|by exists nd']. }
  intros Hs. destruct Hs as [j nd ? ? ? rf' ? Hj ? H|j nd ? ? ? rf' Hj ? H|j nd ? ? rf' ? Hj ? H|j nd ? ? ? ? ? rf' ? Hj ? ? ? ? H
    |j nd ? ? ? Hj ? ? rf' c'|j nd ? ? ? rf' Hj ? ? H|j nd ? ? ? rf' Hj ? ? H|j nd ? Hj ? H|j nd ? Hj H|j nd Hj];
    try (eapply (Hset _ j nd); [done| |reflexivity]; simpl).
  - by apply (quiet_election _ _ _ _ _ _ H).
  - unfold leaderElection_start in H. repeat case_match; res_inv; by simplify_eq.
  - by apply (quiet_RequestVote _ _ _ _ _ H).
  - by apply (quiet_countVotes _ _ _ _ _ H).
  - intros Hi. assert (Hn : cl_nodes c' !! i = Some nd') by (by case_bool_decide).
    eapply (Hset c' j nd); [done| |reflexivity|done]. simpl. unfold rf', leaderElection_finish. by destruct (_ && _).
  - destruct (reply_cases nd _ _ _ _ H) as [((? & _) & _)|(_ & _ & _ & _ & ? & _)]; done.
  - by eapply sendInstallSnapshot_log.
  - done.
  - apply quiet_applier_end.
  - done.
Qed.

Lemma heartbeat_same rf notified rf' msgs more :
  leaderHeartbeats_iter rf notified = Ok (rf', msgs, more) →
  log rf' = log rf ∧ ∀ p args, (p, MsgAppendEntries args) ∈ msgs →
    slice (log rf) (aea_PrevLogIndex args + 1) = Ok (aea_Entries args).
Proof.
  intros H. unfold leaderHeartbeats_iter in H. destruct (Killed _); [injection H as <- <- <-; split; [done|by intros ? ? ?%elem_of_nil]|].
  set (rf1 := if notified then _ else _) in H. assert (Hl : log rf1 = log rf) by (unfold rf1; by destruct notified).
  case_bool_decide; [|injection H as <- <- <-; split; [done|by intros ? ? ?%elem_of_nil]].
  unfold leaderLogReplication in H. destruct (replicateToAll _ _) as [ms|] eqn:E; [|done]. res_simpl. injection H as <- <- <-. split; [done|].
  rewrite <-Hl. clear Hl. revert ms E. induction (votePeers rf1) as [|q qs IH]; intros ms E; simpl in E.
  { injection E as <-. by intros ? ? ?%elem_of_nil. }
  destruct (replicateTo rf1 q) as [m|] eqn:E1; [|done]. res_simpl. destruct (replicateToAll rf1 qs) as [ms'|]; [|done]. res_simpl.
  injection E as <-. intros p args [[= -> <-]|Hin]%elem_of_cons; [|by apply (IH ms' eq_refl p)].
  unfold replicateTo in E1. destruct (idx (nextIndex _) _); [|done]. res_simpl. destruct (idx _ _); [|done]. res_simpl. destruct (Assert _); [|done]. res_simpl.
  case_bool_decide; [done|]. destruct (entry _ _); [|done]. res_simpl. destruct (slice _ _) eqn:Es; [|done]. res_simpl.
  injection E1 as <-. exact Es.
Qed.

(** The goroutines of a broadcast have windows that show the entries. *)
Lemma goroutines_spec m l lv msgs :
  represents m l lv →
  (∀ p args, (p, MsgAppendEntries args) ∈ msgs → slice lv (aea_PrevLogIndex args + 1) = Ok (aea_Entries args)) →
  ∃ sns snaps, goroutines l msgs = Ok (sns, snaps) ∧
    (∀ x, x ∈ snaps → x ∈ msgs) ∧
    ∀ sn, sn ∈ sns → slice_ok m (sn_rest sn) ∧ under (sn_rest sn) (ml_entries l) ∧
      (sn_to sn, MsgAppendEntries (with_entries (aea_Entries (sn_args sn) ++ cells m (sn_rest sn)) (sn_args sn))) ∈ msgs.
Proof.
  intros Hr. induction msgs as [|[p [args|args]] msgs IH]; intros Hs; simpl.
  - exists [], []. split_and!; [done|by intros x ?%elem_of_nil|by intros sn ?%elem_of_nil].
  - destruct (mem_slice_spec _ _ _ _ _ Hr (Hs p args ltac:(by left))) as (s & -> & Hok & Hc & Hu). res_simpl.
    destruct IH as (sns & snaps & -> & Hsn & Hsd); [intros q a Hin; apply (Hs q); by right|]. res_simpl.
    eexists _, _. split; [done|]. split; [intros x Hx; right; by apply Hsn|].
    intros sn [->|Hin]%elem_of_cons; simpl; [split_and!; [done|done|]|].
    + rewrite Hc. unfold with_entries. simpl. destruct args. by left.
    + destruct (Hsd sn Hin) as (? & ? & ?). split_and!; [done|done|by right].
  - destruct IH as (sns & snaps & -> & Hsn & Hsd); [intros q a Hin; apply (Hs q); by right|]. res_simpl.
    eexists _, _. split; [done|]. split; [|intros sn Hin; destruct (Hsd sn Hin) as (? & ? & ?); split_and!; [done|done|by right]].
    intros x [->|Hx]%elem_of_cons; [by left|right; by apply Hsn].
Qed.

(** The handlers on memory. *)
Lemma mem_AppendEntries_spec rf args now rf' reply m l extra :
  represents m l (log rf) → AppendEntries rf args now = Ok (rf', reply) →
  ∃ m' l', mem_AppendEntries rf args m l extra = Ok (m', l') ∧ represents m' l' (log rf') ∧
    (∀ t, slice_ok m t → slice_ok m' t) ∧ ((aea_Term args < currentTerm rf)%Z → m' = m ∧ l' = l).
Proof.
  intros Hr H. unfold AppendEntries, mem_AppendEntries in *. case_bool_decide as Hstale.
  { injection H as <- <-. by exists m, l. }
  destruct (heardLeader_frame rf (aea_Term args) (aea_LeaderId args) now) as (Hl & Hsi & Hst & _).
  set (rf1 := heardLeader _ _ _ _) in *. clearbody rf1. rewrite Hl, Hsi in H.
  assert (Hcommit : ∀ rf lc, log (followerCommit rf lc) = log rf) by (intros rf0 lc; unfold followerCommit; by destruct (bool_decide (lc > _)%Z)).
  case_bool_decide.
  { destruct (lastEntry _); [|done]. res_simpl. injection H as <- <-. exists m, l. by rewrite Hl. }
  case_bool_decide.
  { case_bool_decide; [|injection H as <- <-; exists m, l; by rewrite Hl].
    destruct (idx _ _); [|done]. res_simpl. destruct (Assert _); [|done]. res_simpl.
    destruct (slice_from _ _) as [es|]; [|done]. res_simpl. destruct (place _ _ _) as [lv|] eqn:Ep; [|done]. res_simpl. injection H as <- <-.
    destruct (mem_place_spec _ _ _ _ _ extra _ Hr Ep) as (m' & l' & ? & ? & ?). exists m', l'. by rewrite Hcommit. }
  destruct (entry _ _) as [e|]; [|done]. res_simpl. case_bool_decide.
  - destruct (cutOffTail _ _) as [lv|] eqn:Ep; [|done]. res_simpl. injection H as <- <-.
    destruct (mem_cutOffTail_spec _ _ _ _ _ Hr Ep) as (l' & -> & ?). by exists m, l'.
  - destruct (place _ _ _) as [lv|] eqn:Ep; [|done]. res_simpl. injection H as <- <-.
    destruct (mem_place_spec _ _ _ _ _ extra _ Hr Ep) as (m' & l' & ? & ? & ?). exists m', l'. by rewrite Hcommit.
Qed.

(** An operation that leaves every window alone that ends with the log or
    before. *)
Definition gentle (m m' : Memory C) (l l' : MemLog) : Prop :=
  (∀ t, slice_ok m t → slice_ok m' t) ∧
  ∀ t, slice_ok m t → under t (ml_entries l) → untouched m m' t ∧ under t (ml_entries l').

Lemma gentle_window m l l' :
  (∀ t, under t (ml_entries l) → under t (ml_entries l')) → gentle m m l l'.
Proof. intros H. split; [done|]. intros t Ht Hu. split; [done|by apply H]. Qed.

Lemma mem_InstallSnapshot_spec rf args now rf' reply m l extra :
  represents m l (log rf) → InstallSnapshot rf args now = Ok (rf', reply) →
  ∃ m' l', mem_InstallSnapshot rf args m l extra = Ok (m', l') ∧ represents m' l' (log rf') ∧ gentle m m' l l'.
Proof.
  intros Hr H. unfold InstallSnapshot, mem_InstallSnapshot in *. case_bool_decide as Hstale.
  { injection H as <- <-. exists m, l. split_and!; [done|done|by apply gentle_window]. }
  destruct (heardLeader_frame rf (isa_Term args) (isa_LeaderId args) now) as (Hl & Hsi & _ & _ & Hla & _).
  set (rf1 := heardLeader _ _ _ _) in *. clearbody rf1. rewrite Hl, Hsi, Hla in H.
  destruct (_ || _); [injection H as <- <-; exists m, l; rewrite Hl; split_and!; [done|done|by apply gentle_window]|].
  case_bool_decide.
  - destruct (cutOffHead _ _) as [lv|] eqn:Ec; [|done]. res_simpl. injection H as <- <-.
    destruct (mem_cutOffHead_spec _ _ _ _ _ Hr Ec) as (l' & -> & ? & ?). exists m, l'. split_and!; [done|done|by apply gentle_window].
  - res_simpl. injection H as <- <-. destruct (mem_new m _ extra) as [m' l'] eqn:En.
    destruct (mem_new_spec _ _ _ _ _ En) as (? & Ht). exists m', l'. split_and!; [done|done|].
    split; [intros t Hok; by apply Ht|]. intros t Hok _. by apply Ht.
Qed.

Lemma mem_Snapshot_spec rf index snap rf' m l :
  represents m l (log rf) → Snapshot rf index snap = Ok rf' →
  ∃ l', mem_Snapshot rf index l = Ok l' ∧ represents m l' (log rf') ∧ gentle m m l l'.
Proof.
  intros Hr H. unfold Snapshot, mem_Snapshot in *. case_bool_decide.
  { injection H as <-. exists l. split_and!; [done|done|by apply gentle_window]. }
  destruct (entry _ _); [|done]. res_simpl. destruct (cutOffHead _ _) as [lv|] eqn:Ec; [|done]. res_simpl. injection H as <-.
  destruct (mem_cutOffHead_spec _ _ _ _ _ Hr Ec) as (l' & ? & ? & ?). exists l'. split_and!; [done|done|by apply gentle_window].
Qed.

Lemma mem_Start_spec rf cmd rf' result m l extra m' l' :
  represents m l (log rf) → Start rf cmd = (rf', result) → mem_Start rf cmd m l extra = (m', l') →
  represents m' l' (log rf') ∧ gentle m m' l l'.
Proof.
  intros Hr H HM. unfold Start, mem_Start in *. case_bool_decide; injection H as <- _.
  - destruct (mem_append_spec _ _ _ _ _ _ _ Hr HM) as (? & ? & ?). by split.
  - injection HM as <- <-. split; [done|by apply gentle_window].
Qed.

Lemma coherent_proc S i nd pr :
  coherent S → cl_nodes (sh_cluster S) !! i = Some nd → sh_procs S !! i = Some pr → proc_ok (nd_raft nd) pr.
Proof. intros Hco Hi Hp. specialize (Hco i). rewrite Hi, Hp in Hco. by inversion Hco. Qed.

Lemma coherent_node S i pr :
  coherent S → sh_procs S !! i = Some pr → ∃ nd, cl_nodes (sh_cluster S) !! i = Some nd ∧ proc_ok (nd_raft nd) pr.
Proof. intros Hco Hp. specialize (Hco i). rewrite Hp in Hco. inversion Hco as [nd ? ? E|]. by exists nd. Qed.

(** One process changes. *)
Lemma coherent_set S c' i nd' pr' :
  coherent S → cl_nodes c' = <[i := nd']> (cl_nodes (sh_cluster S)) → proc_ok (nd_raft nd') pr' →
  coherent (mkShared c' (<[i := pr']> (sh_procs S))).
Proof. intros Hco Hn Hok. unfold coherent. simpl. rewrite Hn. by apply map_Forall2_insert_2. Qed.

(** Its goroutines only. *)
Lemma coherent_senders S c' i pr sns :
  coherent S → sh_procs S !! i = Some pr → cl_nodes c' = cl_nodes (sh_cluster S) →
  (∀ sn, sn ∈ sns → slice_ok (pr_memory pr) (sn_rest sn)) →
  coherent (mkShared c' (<[i := mkProcess (pr_memory pr) (pr_log pr) sns]> (sh_procs S))).
Proof.
  intros Hco Hp Hn Hs. destruct (coherent_node _ _ _ Hco Hp) as (nd & Hi & [H1 _]).
  eapply (coherent_set S c' i nd); [done| |by split]. by rewrite Hn, insert_id.
Qed.

Lemma coherent_step S ev S' : coherent S → shared_step S ev S' → coherent S'.
Proof.
  intros Hco Hst. destruct Hst as [c' Hl|i nd pr ? rf' msgs more sns snaps Hi Hp Hh Hg|i pr sns1 sn sns2 e Hp Hs Hlen He sn'|i pr sns1 sn sns2 Hp Hs Hlen
    |i nd pr args now rf' reply extra m' l' Hi Hp _ H HM|i nd pr args now rf' reply extra m' l' Hi Hp _ H HM
    |i nd pr cmd rf' result extra m' l' Hi Hp H HM|i nd pr index snap rf' l' Hi Hp H HM|i nd now rf' extra m' l' Hi H HM].
  - intros i. simpl. specialize (Hco i). destruct (cl_nodes c' !! i) as [nd'|] eqn:Hi'.
    + destruct (local_step_log _ _ _ _ Hl Hi') as (nd & Hi & Heq). rewrite Hi in Hco. inversion Hco as [? pr [H1 H2] E1 E2|].
      constructor. split; [by rewrite Heq|done].
    + assert (cl_nodes (sh_cluster S) !! i = None) as Hn; [|by rewrite Hn in Hco].
      revert Hi'. destruct Hl; simpl; try (by intros [? _]%lookup_insert_None).
      unfold c'. case_bool_decide; simpl; by intros [? _]%lookup_insert_None.
  - destruct (coherent_proc _ _ _ _ Hco Hi Hp) as [H1 H2]. destruct (heartbeat_same _ _ _ _ _ Hh) as [Hl Hsl].
    destruct (goroutines_spec _ _ _ _ H1 Hsl) as (sns' & snaps' & Hg' & _ & Hsd). rewrite Hg in Hg'. injection Hg' as <- <-.
    eapply (coherent_set S _ i); [done|reflexivity|]. simpl. split; simpl; [by rewrite Hl|].
    intros sn [Hin|Hin]%elem_of_app; [by apply Hsd|by apply H2].
  - destruct (coherent_node _ _ _ Hco Hp) as (nd & Hi & [H1 H2]). rewrite Hs in H2.
    apply coherent_senders; [done|done|done|]. intros x [Hin|[->|Hin]%elem_of_cons]%elem_of_app; [apply H2; set_solver| |apply H2; set_solver].
    eapply load_first; [apply H2; set_solver|done|done].
  - destruct (coherent_node _ _ _ Hco Hp) as (nd & Hi & [H1 H2]). rewrite Hs in H2.
    apply coherent_senders; [done|done|done|]. intros x Hin. apply H2. set_solver.
  - destruct (coherent_proc _ _ _ _ Hco Hi Hp) as [H1 H2].
    destruct (mem_AppendEntries_spec _ _ _ _ _ _ _ extra H1 H) as (m1 & l1 & HM1 & Hr & Hk & _). rewrite HM in HM1. injection HM1 as <- <-.
    eapply (coherent_set S _ i); [done|reflexivity|]. split; simpl; [done|]. intros sn Hin. by apply Hk, H2.
  - destruct (coherent_proc _ _ _ _ Hco Hi Hp) as [H1 H2].
    destruct (mem_InstallSnapshot_spec _ _ _ _ _ _ _ extra H1 H) as (m1 & l1 & HM1 & Hr & Hk & _). rewrite HM in HM1. injection HM1 as <- <-.
    eapply (coherent_set S _ i); [done|reflexivity|]. split; simpl; [done|]. intros sn Hin. by apply Hk, H2.
  - destruct (coherent_proc _ _ _ _ Hco Hi Hp) as [H1 H2].
    destruct (mem_Start_spec _ _ _ _ _ _ _ _ _ H1 H HM) as (Hr & Hk & _).
    eapply (coherent_set S _ i); [done|reflexivity|]. split; simpl; [done|]. intros sn Hin. by apply Hk, H2.
  - destruct (coherent_proc _ _ _ _ Hco Hi Hp) as [H1 H2].
    destruct (mem_Snapshot_spec _ _ _ _ _ _ H1 H) as (l1 & HM1 & Hr & _). rewrite HM in HM1. injection HM1 as <-.
    eapply (coherent_set S _ i); [done|reflexivity|]. by split.
  - eapply (coherent_set S _ i); [done|reflexivity|]. split; simpl; [|by intros ? ?%elem_of_nil]. by eapply mem_new_spec.
Qed.

Lemma initShared_coherent n now : coherent (initShared n now).
Proof.
  intros i. unfold initShared. cbn [sh_cluster sh_procs]. rewrite lookup_fmap. destruct (cl_nodes (initCluster (C := C) n now) !! i) as [nd|] eqn:Hi; [|constructor]. constructor.
  apply initCluster_node in Hi as ->. split; [|by intros ? ?%elem_of_nil]. split; [|done|done]. exists [zeroEntry]. split; [done|]. unfold sl_end. simpl. lia.
Qed.

(** ** The cluster with copied requests *)

Definition with_msgs (ms : list (Z * LeaderMsg C)) c : Cluster (C := C) :=
  mkCluster (cl_nodes c) (cl_requests c) (cl_votes c) ms (cl_aereplies c) (cl_isreplies c) (cl_leaders c) (cl_applied c).

(** What a goroutine will send when nobody writes to its window. *)
Definition due (m : Memory C) (sn : Sender) : Z * LeaderMsg C :=
  (sn_to sn, MsgAppendEntries (with_entries (aea_Entries (sn_args sn) ++ cells m (sn_rest sn)) (sn_args sn))).

(** The same cluster, in which what the goroutines will send is sent. *)
Record covers S c : Prop := {
  cv_coherent : coherent S;
  cv_same : c = with_msgs (cl_msgs c) (sh_cluster S);
  cv_msgs : ∀ x, x ∈ cl_msgs (sh_cluster S) → x ∈ cl_msgs c;
  cv_senders : ∀ i pr sn, sh_procs S !! i = Some pr → sn ∈ pr_senders pr →
    under (sn_rest sn) (ml_entries (pr_log pr)) ∧ due (pr_memory pr) sn ∈ cl_msgs c;
}.

Lemma local_with_msgs ms c c' :
  local_step c c' → local_step (with_msgs ms c) (with_msgs ms c') ∧ cl_msgs c' = cl_msgs c.
Proof.
  destruct 1 as [| | | |i nd th ths1 ths2 Hi Ht Hm rf' c'| | | | |]; (split; [|try done]).
  - by eapply (ls_election (with_msgs ms c)).
  - by eapply (ls_no_election (with_msgs ms c)).
  - by eapply (ls_RequestVote (with_msgs ms c)).
  - by eapply (ls_countVotes (with_msgs ms c)).
  - pose proof (ls_finish (with_msgs ms c) i nd th ths1 ths2 Hi Ht Hm) as H. unfold c', rf'. simpl in H. by case_bool_decide.
  - by case_bool_decide.
  - by eapply (ls_AppendEntries_reply (with_msgs ms c)).
  - by eapply (ls_InstallSnapshot_reply (with_msgs ms c)).
  - by eapply (ls_applier_begin (with_msgs ms c)).
  - by eapply (ls_applier_end (with_msgs ms c)).
  - by eapply (ls_Kill (with_msgs ms c)).
Qed.

(** *** Steps of the cluster that are not a [Start] *)

Lemma Start_grows nd cmd rf' result :
  role (nd_raft nd) = LEADER → Start (nd_raft nd) cmd = (rf', result) →
  lastIndex (log rf') = (lastIndex (log (nd_raft nd)) + 1)%Z.
Proof.
  intros Hr H. unfold Start in H. rewrite bool_decide_true in H by done. injection H as <- _. unfold lastIndex, zlen. simpl.
  rewrite length_app. simpl. lia.
Qed.

Lemma not_submitted (P : C → Prop) c c' :
  (∀ i nd nd', cl_nodes c !! i = Some nd → cl_nodes c' !! i = Some nd' → lastIndex (log (nd_raft nd')) = lastIndex (log (nd_raft nd))) ∨
  cl_aereplies c' ≠ cl_aereplies c ∨ cl_isreplies c' ≠ cl_isreplies c →
  ∀ i nd cmd rf' result, cl_nodes c !! i = Some nd → role (nd_raft nd) = LEADER →
    Start (nd_raft nd) cmd = (rf', result) → c' = set_raft c i nd rf' → P cmd.
Proof.
  intros Hno i nd cmd rf' result Hi Hr HS ->. exfalso. destruct Hno as [Hl|[?|?]]; [|done..].
  pose proof (Hl i nd _ Hi (lookup_insert_eq _ _ _)) as Heq. simpl in Heq. rewrite (Start_grows nd cmd rf' result Hr HS) in Heq. lia.
Qed.

(** A peer's base is its snapshot. *)
Lemma same_log_snapshot n c c' i nd nd' :
  cluster_inv n c → cluster_inv n c' → cl_nodes c !! i = Some nd → cl_nodes c' !! i = Some nd' →
  log (nd_raft nd') = log (nd_raft nd) → snapshotIndex (nd_raft nd') = snapshotIndex (nd_raft nd).
Proof.
  intros H H' Hi Hi' Heq. rewrite <-(wf_base _ (ni_wf _ _ _ _ (ci_nodes _ _ H i nd Hi))), <-(wf_base _ (ni_wf _ _ _ _ (ci_nodes _ _ H' i nd' Hi'))).
  by rewrite Heq.
Qed.

Lemma same_logs_submitting (P : C → Prop) n c c' :
  cluster_inv n c → cluster_step c c' →
  (∀ i nd nd', cl_nodes c !! i = Some nd → cl_nodes c' !! i = Some nd' → log (nd_raft nd') = log (nd_raft nd)) →
  submitting P c c'.
Proof.
  intros Hinv Hst Hl. pose proof (cluster_step_inv _ _ _ Hinv Hst) as Hinv'. split.
  - apply ss_plain; [done|]. intros i nd nd' Hi Hi'. by apply (same_log_snapshot n c c' i nd nd'), (Hl i).
  - apply not_submitted. left. intros i nd nd' Hi Hi'. by rewrite (Hl i nd nd').
Qed.

(** One peer keeps its log, the others are not concerned. *)
Lemma one_log c c' i nd nd' :
  cl_nodes c !! i = Some nd → cl_nodes c' = <[i := nd']> (cl_nodes c) → log (nd_raft nd') = log (nd_raft nd) →
  ∀ j ndj ndj', cl_nodes c !! j = Some ndj → cl_nodes c' !! j = Some ndj' → log (nd_raft ndj') = log (nd_raft ndj).
Proof. intros Hi -> Hl j ndj ndj' Hj Hj'. apply lookup_insert_Some in Hj' as [[<- <-]|[_ Hj']]; by simplify_eq. Qed.

Lemma one_snapshot c i nd rf' :
  cl_nodes c !! i = Some nd → snapshotIndex rf' = snapshotIndex (nd_raft nd) → same_snapshots c (set_raft c i nd rf').
Proof.
  intros Hi Hs j ndj ndj' Hj Hj'. simpl in Hj'. apply lookup_insert_Some in Hj' as [[<- <-]|[_ ?]]; [simpl|]; congruence.
Qed.

Lemma AppendEntries_snapshot rf args now rf' reply :
  AppendEntries rf args now = Ok (rf', reply) → snapshotIndex rf' = snapshotIndex rf.
Proof.
  intros H. unfold AppendEntries in H. destruct (bool_decide (_ < currentTerm rf)%Z); [by injection H as <- <-|].
  destruct (heardLeader_frame rf (aea_Term args) (aea_LeaderId args) now) as (_ & Hsi & _).
  set (rf1 := heardLeader _ _ _ _) in *. clearbody rf1. rewrite <-Hsi.
  assert (Hcommit : ∀ rf lc, snapshotIndex (followerCommit rf lc) = snapshotIndex rf)
    by (intros rf0 lc; unfold followerCommit; by destruct (bool_decide (lc > _)%Z)).
  destruct (bool_decide (_ > lastIndex _)%Z); [destruct (lastEntry _); [|done]; res_simpl; by injection H as <- <-|].
  destruct (bool_decide (_ < snapshotIndex rf1)%Z).
  { destruct (bool_decide (zlen _ > _)%Z); [|by injection H as <- <-].
    destruct (idx _ _); [|done]. res_simpl. destruct (Assert _); [|done]. res_simpl.
    destruct (slice_from _ _); [|done]. res_simpl. destruct (place _ _ _); [|done]. res_simpl. injection H as <- <-. by rewrite Hcommit. }
  destruct (entry _ _); [|done]. res_simpl. destruct (bool_decide (_ ≠ _)).
  - destruct (cutOffTail _ _); [|done]. res_simpl. by injection H as <- <-.
  - destruct (place _ _ _); [|done]. res_simpl. injection H as <- <-. by rewrite Hcommit.
Qed.

(** *** The simulation *)

Section Simulation.
Context (P : C → Prop) (n : nat) (S : Shared) (c : Cluster (C := C)) (Hcv : covers S c) (Hinv : cluster_inv n c).

Lemma covers_nodes : cl_nodes c = cl_nodes (sh_cluster S).
Proof. by rewrite (cv_same _ _ Hcv). Qed.

(** The same step of the cluster, with more requests under way. *)
Lemma covers_same c' S' (ms : list (Z * LeaderMsg C)) :
  coherent S' → sh_cluster S' = c' → (∀ x, x ∈ cl_msgs c' → x ∈ ms) →
  (∀ i pr sn, sh_procs S' !! i = Some pr → sn ∈ pr_senders pr →
     under (sn_rest sn) (ml_entries (pr_log pr)) ∧ due (pr_memory pr) sn ∈ ms) →
  covers S' (with_msgs ms c').
Proof. intros Hco <- Hms Hsd. by split. Qed.

(** A process whose goroutines still have what they had. *)
Lemma senders_kept i pr m' l' sns procs (ms : list (Z * LeaderMsg C)) :
  sh_procs S !! i = Some pr → (∀ x, x ∈ cl_msgs c → x ∈ ms) → procs = <[i := mkProcess m' l' sns]> (sh_procs S) →
  (∀ sn, sn ∈ sns → under (sn_rest sn) (ml_entries l') ∧ due m' sn ∈ ms) →
  ∀ j prj sn, procs !! j = Some prj → sn ∈ pr_senders prj →
    under (sn_rest sn) (ml_entries (pr_log prj)) ∧ due (pr_memory prj) sn ∈ ms.
Proof.
  intros Hp Hms -> Hs j prj sn [[<- <-]|[_ Hj]]%lookup_insert_Some Hin; [by apply Hs|].
  destruct (cv_senders _ _ Hcv j prj sn Hj Hin) as [? ?]. split; [done|by apply Hms].
Qed.

Lemma gentle_senders i pr m' l' :
  sh_procs S !! i = Some pr → gentle (pr_memory pr) m' (pr_log pr) l' →
  ∀ sn, sn ∈ pr_senders pr → under (sn_rest sn) (ml_entries l') ∧ due m' sn ∈ cl_msgs c.
Proof.
  intros Hp [_ Hg] sn Hin. destruct (cv_senders _ _ Hcv i pr sn Hp Hin) as [Hu Hd].
  destruct (coherent_node _ _ _ (cv_coherent _ _ Hcv) Hp) as (nd & _ & [_ Hok]).
  destruct (Hg _ (Hok sn Hin) Hu) as [[_ Heq] ?]. split; [done|]. unfold due. by rewrite Heq.
Qed.

Lemma covers_step ev S' :
  shared_step S ev S' → orderly S ev → submits P S ev → ∃ c', covers S' c' ∧ (c' = c ∨ submitting P c c').
Proof.
  intros Hst Hord Hsub. pose proof (coherent_step _ _ _ (cv_coherent _ _ Hcv) Hst) as Hco'.
  pose proof covers_nodes as Hnodes. pose proof (cv_msgs _ _ Hcv) as Hms. pose proof (cv_same _ _ Hcv) as Hc. set (ms := cl_msgs c) in *.
  destruct Hst as [c' Hl|i nd pr ? rf' msgs more sns snaps Hi Hp Hh Hg|i pr sns1 sn sns2 e Hp Hs Hlen He sn'|i pr sns1 sn sns2 Hp Hs Hlen
    |i nd pr args now rf' reply extra m' l' Hi Hp Hin H HM|i nd pr args now rf' reply extra m' l' Hi Hp Hin H HM
    |i nd pr cmd rf' result extra m' l' Hi Hp H HM|i nd pr index snap rf' l' Hi Hp H HM|i nd now rf' extra m' l' Hi H HM];
    simpl in Hord, Hsub; rewrite <-?Hnodes in *.
  - destruct (local_with_msgs ms _ _ Hl) as [Hl' Hm]. rewrite <-Hc in Hl'. exists (with_msgs ms c'). split.
    + apply covers_same; [done|done|by rewrite Hm|]. intros i pr sn Hp Hin. by apply (cv_senders _ _ Hcv i).
    + right. apply (same_logs_submitting P n); [done|by apply local_cluster_step|]. intros i nd nd' Hi Hi'.
      destruct (local_step_log _ _ i nd' Hl' Hi') as (nd0 & Hi0 & ?). congruence.
  - destruct (coherent_proc _ _ _ _ (cv_coherent _ _ Hcv) ltac:(by rewrite <-Hnodes) Hp) as [H1 H2].
    destruct (heartbeat_same _ _ _ _ _ Hh) as [Hlog Hsl].
    destruct (goroutines_spec _ _ _ _ H1 Hsl) as (sns' & snaps' & Hg' & Hsn & Hsd). rewrite Hg in Hg'. injection Hg' as <- <-.
    exists (with_msgs (msgs ++ ms) (add_msgs snaps (set_raft (sh_cluster S) i nd rf'))). split.
    + apply covers_same; [done|done| |].
      * simpl. intros x [Hx|Hx]%elem_of_app; apply elem_of_app; auto.
      * eapply (senders_kept i pr); [done| |reflexivity|]; [intros x ?; apply elem_of_app; by right|].
        intros sn [Hin|Hin]%elem_of_app; [destruct (Hsd sn Hin) as (_ & ? & ?); split; [done|apply elem_of_app; by left]|].
        destruct (cv_senders _ _ Hcv i pr sn Hp Hin). split; [done|apply elem_of_app; by right].
    + right. assert (Heq : with_msgs (msgs ++ ms) (add_msgs snaps (set_raft (sh_cluster S) i nd rf')) = add_msgs msgs (set_raft c i nd rf'))
        by (rewrite Hc; done). rewrite Heq.
      apply (same_logs_submitting P n); [done|by eapply cs_heartbeat|]. by eapply (one_log _ _ i nd).
  - exists c. split; [|by left]. rewrite Hc. apply covers_same; [done|done|done|].
    destruct (coherent_node _ _ _ (cv_coherent _ _ Hcv) Hp) as (nd & _ & [_ Hok]).
    destruct (load_first _ _ _ (Hok sn ltac:(rewrite Hs; set_solver)) Hlen He) as (_ & Hcells & Hend).
    eapply (senders_kept i pr); [done|done|reflexivity|].
    intros x [Hin|[->|Hin]%elem_of_cons]%elem_of_app; [apply (cv_senders _ _ Hcv i pr x Hp); rewrite Hs; set_solver| |
      apply (cv_senders _ _ Hcv i pr x Hp); rewrite Hs; set_solver].
    destruct (cv_senders _ _ Hcv i pr sn Hp) as [Hu Hd]; [rewrite Hs; set_solver|]. split.
    + unfold under in *. simpl in *. by rewrite Hend.
    + unfold due in *. simpl. rewrite <-app_assoc. simpl. by rewrite Hcells in Hd.
  - exists c. split; [|by left]. rewrite Hc. destruct (cv_senders _ _ Hcv i pr sn Hp) as [Hu Hd]; [rewrite Hs; set_solver|].
    assert (Hsend : (sn_to sn, MsgAppendEntries (sn_args sn)) ∈ ms).
    { unfold due, cells in Hd. rewrite Hlen, take_0, app_nil_r in Hd. unfold with_entries in Hd. by destruct (sn_args sn). }
    apply (covers_same (add_msgs [(sn_to sn, MsgAppendEntries (sn_args sn))] (sh_cluster S))); [done|done| |].
    + simpl. intros x [->|?]%elem_of_cons; [done|by apply Hms].
    + eapply (senders_kept i pr); [done|done|reflexivity|]. intros x Hin. apply (cv_senders _ _ Hcv i pr x Hp). rewrite Hs. set_solver.
  - destruct (coherent_proc _ _ _ _ (cv_coherent _ _ Hcv) ltac:(by rewrite <-Hnodes) Hp) as [H1 H2].
    destruct (mem_AppendEntries_spec _ _ _ _ _ _ _ extra H1 H) as (m1 & l1 & HM1 & _ & _ & Hstale). rewrite HM in HM1. injection HM1 as <- <-.
    exists (with_msgs ms (add_aereply (i, args, reply) (set_raft (sh_cluster S) i nd rf'))). split.
    + apply covers_same; [done|done|done|]. eapply (senders_kept i pr); [done|done|reflexivity|].
      destruct (decide (currentTerm (nd_raft nd) ≤ aea_Term args)%Z) as [Hle|Hlt].
      * rewrite (Hord nd pr); [by intros ? ?%elem_of_nil|done..].
      * destruct (Hstale ltac:(lia)) as [-> ->]. intros sn Hs. by apply (cv_senders _ _ Hcv i pr).
    + right. assert (Heq : with_msgs ms (add_aereply (i, args, reply) (set_raft (sh_cluster S) i nd rf')) = add_aereply (i, args, reply) (set_raft c i nd rf'))
        by (rewrite Hc; done). rewrite Heq. split.
      * apply ss_plain; [eapply cs_AppendEntries; [done|by apply Hms|done]|]. apply (one_snapshot c i nd rf' Hi). by eapply AppendEntries_snapshot.
      * apply not_submitted. right. left. simpl. intros Hbad. by apply (f_equal length), Nat.neq_succ_diag_l in Hbad.
  - destruct (coherent_proc _ _ _ _ (cv_coherent _ _ Hcv) ltac:(by rewrite <-Hnodes) Hp) as [H1 H2].
    destruct (mem_InstallSnapshot_spec _ _ _ _ _ _ _ extra H1 H) as (m1 & l1 & HM1 & _ & Hgen). rewrite HM in HM1. injection HM1 as <- <-.
    exists (with_msgs ms (add_isreply (i, args, reply) (set_raft (sh_cluster S) i nd rf'))). split.
    + apply covers_same; [done|done|done|]. eapply (senders_kept i pr); [done|done|reflexivity|]. by eapply gentle_senders.
    + right. assert (Heq : with_msgs ms (add_isreply (i, args, reply) (set_raft (sh_cluster S) i nd rf')) = add_isreply (i, args, reply) (set_raft c i nd rf'))
        by (rewrite Hc; done). rewrite Heq. split.
      * eapply ss_InstallSnapshot; [done|by apply Hms|by apply Hord|done].
      * apply not_submitted. right. right. simpl. intros Hbad. by apply (f_equal length), Nat.neq_succ_diag_l in Hbad.
  - destruct (coherent_proc _ _ _ _ (cv_coherent _ _ Hcv) ltac:(by rewrite <-Hnodes) Hp) as [H1 H2].
    destruct (mem_Start_spec _ _ _ _ _ _ _ _ _ H1 H HM) as (_ & Hgen). exists (with_msgs ms (set_raft (sh_cluster S) i nd rf')). split.
    + apply covers_same; [done|done|done|]. eapply (senders_kept i pr); [done|done|reflexivity|]. by eapply gentle_senders.
    + right. assert (Heq : with_msgs ms (set_raft (sh_cluster S) i nd rf') = set_raft c i nd rf') by (rewrite Hc; done). rewrite Heq. split.
      * apply ss_plain; [by eapply cs_Start|]. apply one_snapshot; [done|]. unfold Start in H. case_bool_decide; by injection H as <- _.
      * intros j ndj cmdj rfj resj Hj Hr HS Hsame. pose proof (Start_grows ndj cmdj rfj resj Hr HS) as Hgrow.
        apply (f_equal (λ c, cl_nodes c !! j)) in Hsame. simpl in Hsame. rewrite lookup_insert_eq in Hsame.
        apply lookup_insert_Some in Hsame as [[-> Hrf]|[_ Hold]].
        -- rewrite Hi in Hj. injection Hj as <-. injection Hrf as ->. specialize (Hsub nd Hi Hr). unfold Start in H, HS.
           rewrite bool_decide_true in H, HS by done. injection H as H _. injection HS as HS _. rewrite <-H in HS.
           apply (f_equal (λ rf, entries (log rf))) in HS. simpl in HS. by apply app_inj_2 in HS as [_ [= ->]].
        -- rewrite Hj in Hold. injection Hold as Hold. rewrite Hold in Hgrow. simpl in Hgrow. lia.
  - destruct (coherent_proc _ _ _ _ (cv_coherent _ _ Hcv) ltac:(by rewrite <-Hnodes) Hp) as [H1 H2].
    destruct (mem_Snapshot_spec _ _ _ _ _ _ H1 H) as (l1 & HM1 & _ & Hgen). rewrite HM in HM1. injection HM1 as <-.
    exists (with_msgs ms (set_raft (sh_cluster S) i nd rf')). split.
    + apply covers_same; [done|done|done|]. eapply (senders_kept i pr); [done|done|reflexivity|]. by eapply gentle_senders.
    + right. assert (Heq : with_msgs ms (set_raft (sh_cluster S) i nd rf') = set_raft c i nd rf') by (rewrite Hc; done). rewrite Heq. split.
      * eapply ss_Snapshot; [done|by apply Hord|done].
      * apply not_submitted. left. intros j ndj ndj' Hj Hj'. simpl in Hj'. apply lookup_insert_Some in Hj' as [[<- <-]|[_ ?]]; [|congruence].
        rewrite Hi in Hj. injection Hj as <-. simpl. unfold Snapshot in H. case_bool_decide; [by injection H as <-|].
        destruct (entry _ _); [|done]. res_simpl. destruct (cutOffHead _ _) as [lv|] eqn:Ec; [|done]. res_simpl. injection H as <-. simpl.
        unfold cutOffHead in Ec. destruct (slice_from _ _) eqn:Es; [|done]. res_simpl. injection Ec as <-.
        apply slice_from_Ok in Es as [? ->]. unfold lastIndex, zlen in *. simpl in *. rewrite length_drop. lia.
  - destruct (crash_same n c i nd Hinv Hi now rf' H) as (_ & Hlog & _).
    exists (with_msgs ms (set_node (sh_cluster S) i (mkNode rf' [] None))). split.
    + apply covers_same; [done|done|done|]. simpl. intros j prj sn [[<- <-]|[_ Hj]]%lookup_insert_Some Hin; [by apply elem_of_nil in Hin|].
      by apply (cv_senders _ _ Hcv j).
    + right. assert (Heq : with_msgs ms (set_node (sh_cluster S) i (mkNode rf' [] None)) = set_node c i (mkNode rf' [] None)) by (rewrite Hc; done).
      rewrite Heq. apply (same_logs_submitting P n); [done|by eapply cs_crash|]. by eapply (one_log _ _ i nd).
Qed.
End Simulation.

(** ** Runs *)

Lemma initShared_covers n now : covers (initShared n now) (initCluster n now).
Proof.
  split; [apply initShared_coherent|done|done|]. intros i pr sn Hp Hin. unfold initShared in Hp. cbn [sh_procs] in Hp.
  rewrite lookup_fmap in Hp. destruct (cl_nodes (initCluster (C := C) n now) !! i); [|done]. injection Hp as <-. by apply elem_of_nil in Hin.
Qed.




Lemma covers_applied S c : covers S c → cl_applied c = cl_applied (sh_cluster S).
Proof. intros Hcv. by rewrite (cv_same _ _ Hcv). Qed.

(** An orderly run is a run. *)
Lemma orderly_shared P n S : reachable_submitted P n S → reachable_shared n S.
Proof. intros [now Hr]. exists now. eapply rtc_subrel; [|done]. intros S1 S2 (ev & ? & _). by exists ev. Qed.

(** Orderly runs in which no peer compacts its log. *)
Definition plain_step S S' : Prop := orderly_step (λ _, True) S S' ∧ uncompacted (sh_cluster S').

Definition reachable_plain (n : nat) S : Prop := ∃ now, rtc plain_step (initShared n now) S.

Lemma plain_uncompacted n S :
  reachable_plain n S → ∃ c, reachable_uncompacted n c ∧ cl_applied c = cl_applied (sh_cluster S).
Proof.
  intros [now Hr]. assert (∃ c, covers S c ∧ rtc (λ c c', cluster_step c c' ∧ uncompacted c') (initCluster n now) c) as (c & Hcv & Hc);
    [|exists c; split; [by exists now|by apply covers_applied]].
  revert S Hr. apply rtc_ind_r; [exists (initCluster n now); split; [apply initShared_covers|apply rtc_refl]|].
  intros S S' _ [(ev & Hst & Ho & Hsub) Hu] (c & Hcv & Hc).
  assert (Hinv : cluster_inv n c).
  { apply reachable_inv. exists now. eapply rtc_subrel; [|done]. by intros ? ? [? _]. }
  destruct (covers_step (λ _, True) n S c Hcv Hinv ev S' Hst Ho Hsub) as (c' & Hcv' & [->|[Hs _]]); [by exists c|].
  exists c'. split; [done|]. eapply rtc_r; [done|]. split; [by apply serviced_cluster_step|].
  unfold uncompacted. by rewrite (covers_nodes _ _ Hcv').
Qed.

(** ** Theorems *)





(** C31: the log is what memory shows.  In every run, orderly or not, the slice
    of a peer's log shows exactly the entries of the log that the handlers
    work with: [place] in the array, [append] with and without room, the two
    truncations and a new array implement the operations on the list; and no
    goroutine ever reads outside of an array. *)
Theorem memory_refines_log n S i nd :
  reachable_shared n S → cl_nodes (sh_cluster S) !! i = Some nd →
  ∃ pr, sh_procs S !! i = Some pr ∧
    cells (pr_memory pr) (ml_entries (pr_log pr)) = entries (log (nd_raft nd)) ∧
    ml_index0 (pr_log pr) = index0 (log (nd_raft nd)) ∧
    ∀ sn, sn ∈ pr_senders pr → 0 < sl_len (sn_rest sn) → ∃ e, load (pr_memory pr) (sn_rest sn) 0 = Ok e.
Proof.
  intros [now Hr] Hi.
  assert (Hco : coherent S).
  { eapply (rtc_preserve _ coherent); [|apply (initShared_coherent n now)|done]. intros S1 S2 Hc [ev Hst]. by eapply coherent_step. }
  pose proof (Hco i) as Hpr. rewrite Hi in Hpr. inversion Hpr as [? pr Hok E1 E2|]. destruct Hok as [[_ Hc H0] Hs].
  exists pr. split_and!; [done|done|done|].
  intros sn Hin Hlen. destruct (idx_returns (cells (pr_memory pr) (sn_rest sn)) 0) as (e & He & _); [|by exists e].
  unfold zlen. rewrite cells_length by (by apply Hs). lia.
Qed.
End RaftShared.
