(* ===== verification/RaftSharedWitness.v ===== *)
(** * Runs of Raft in memory

    An interpreter for runs of [RaftShared]: an [Instr] says which peer takes
    which step, and which message, goroutine or reply it takes, by position.
    Two runs are executed with it.  In the first, an orderly one, a log is
    compacted and a snapshot is installed; the theorems of [RaftShared] are
    applied to it.  In the second, a goroutine of a deposed leader encodes
    its request after slots of the log have been overwritten, and two peers
    deliver different commands at an index.  Commands are integers, encoded
    by [countable_gob]. *)

From stdpp Require Import base list gmap.
From Stdlib Require Import ZArith Lia.
From S2P Require Import Prelude RaftLog RaftCore RaftElection RaftReplication RaftApply RaftNode RaftCluster RaftLogMatching RaftSafety RaftExpand RaftCompaction RaftRefine RaftMemory RaftShared.

Section Interpreter.
Context {C : Type} `{!Gob (PState C)}.
Implicit Types S : Shared (C := C).

Inductive Instr : Type :=
| IElection (i now : Z)
| IRequestVote (k : nat) (now : Z)      (* the k-th RequestVote request *)
| ICountVotes (i : Z) (k : nat)         (* the k-th reply *)
| IFinish (i : Z)
| IBroadcast (i : Z)
| IEncode (i : Z) (k : nat)             (* the k-th goroutine *)
| ISend (i : Z) (k : nat)
| IAppendEntries (k : nat) (now : Z)    (* the k-th request of a leader *)
| IInstallSnapshot (k : nat) (now : Z)
| IAppendReply (k : nat)
| ISnapshotReply (k : nat)
| IStart (i : Z) (cmd : C)
| ISnapshot (i index : Z)
| IApply (i : Z)
| IApplied (i : Z).

(** The result of a computation that did not panic. *)
Definition ok {A} (r : Res A) : option A := match r with Ok a => Some a | Panic => None end.

Definition exec S (ins : Instr) : option (Event (C := C) * Shared (C := C)) :=
  let c := sh_cluster S in
  let local c' := Some (EvLocal, mkShared c' (sh_procs S)) in
  match ins with
  | IElection i now =>
      nd ← cl_nodes c !! i;
      '(rf', o) ← ok (leaderElection_start (nd_raft nd) now now now);
      args ← o;
      local (add_requests ((λ p, (p, args)) <$> votePeers rf')
        (set_node c i (mkNode rf' (mkThread (election_init args) (votePeers rf') :: nd_threads nd) (nd_sending nd))))
  | IRequestVote k now =>
      '(i, args) ← cl_requests c !! k;
      nd ← cl_nodes c !! i;
      '(rf', reply) ← ok (RequestVote (nd_raft nd) args now);
      local (add_vote (i, args, reply) (set_raft c i nd rf'))
  | ICountVotes i k =>
      '(p, args, r) ← cl_votes c !! k;
      nd ← cl_nodes c !! i;
      match nd_threads nd with
      | [] => None
      | th :: ths =>
          guard (countVotes_more (nd_raft nd) (th_el th) = true);;
          guard (p ∈ th_pending th);;
          guard (rva_Term args = rva_Term (el_args (th_el th)) ∧ rva_CandidateId args = rva_CandidateId (el_args (th_el th)) ∧
                 rva_LastLogIndex args = rva_LastLogIndex (el_args (th_el th)) ∧ rva_LastLogTerm args = rva_LastLogTerm (el_args (th_el th)));;
          let '(rf', el') := countVotes_step (nd_raft nd) (th_el th) (Some r) in
          local (set_node c i (mkNode rf' (mkThread el' (filter (λ q, q ≠ p) (th_pending th)) :: ths) (nd_sending nd)))
      end
  | IFinish i =>
      nd ← cl_nodes c !! i;
      match nd_threads nd with
      | [] => None
      | th :: ths =>
          guard (countVotes_more (nd_raft nd) (th_el th) = false);;
          let rf' := leaderElection_finish (nd_raft nd) (th_el th) in
          let c' := set_node c i (mkNode rf' ths (nd_sending nd)) in
          local (if bool_decide (role rf' = LEADER ∧ role (nd_raft nd) ≠ LEADER)
                 then add_leader (currentTerm rf', i) c' else c')
      end
  | IBroadcast i =>
      nd ← cl_nodes c !! i;
      pr ← sh_procs S !! i;
      '(rf', msgs, more) ← ok (leaderHeartbeats_iter (nd_raft nd) true);
      '(sns, snaps) ← ok (goroutines (pr_log pr) msgs);
      Some (EvBroadcast i, mkShared (add_msgs snaps (set_raft c i nd rf'))
        (<[i := mkProcess (pr_memory pr) (pr_log pr) (sns ++ pr_senders pr)]> (sh_procs S)))
  | IEncode i k =>
      pr ← sh_procs S !! i;
      sn ← pr_senders pr !! k;
      guard (0 < sl_len (sn_rest sn));;
      e ← ok (load (pr_memory pr) (sn_rest sn) 0);
      let sn' := mkSender (sn_to sn) (with_entries (aea_Entries (sn_args sn) ++ [e]) (sn_args sn))
                   (mkSlice (sl_array (sn_rest sn)) (Datatypes.S (sl_offset (sn_rest sn))) (sl_len (sn_rest sn) - 1)) in
      Some (EvEncode i, mkShared c (<[i := mkProcess (pr_memory pr) (pr_log pr)
        (take k (pr_senders pr) ++ sn' :: drop (Datatypes.S k) (pr_senders pr))]> (sh_procs S)))
  | ISend i k =>
      pr ← sh_procs S !! i;
      sn ← pr_senders pr !! k;
      guard (sl_len (sn_rest sn) = 0);;
      Some (EvSend i, mkShared (add_msgs [(sn_to sn, MsgAppendEntries (sn_args sn))] c)
        (<[i := mkProcess (pr_memory pr) (pr_log pr) (take k (pr_senders pr) ++ drop (Datatypes.S k) (pr_senders pr))]> (sh_procs S)))
  | IAppendEntries k now =>
      '(i, msg) ← cl_msgs c !! k;
      match msg with
      | MsgInstallSnapshot _ => None
      | MsgAppendEntries args =>
          nd ← cl_nodes c !! i;
          pr ← sh_procs S !! i;
          '(rf', reply) ← ok (AppendEntries (nd_raft nd) args now);
          '(m', l') ← ok (mem_AppendEntries (nd_raft nd) args (pr_memory pr) (pr_log pr) 1);
          Some (EvAppendEntries i args, mkShared (add_aereply (i, args, reply) (set_raft c i nd rf'))
            (<[i := mkProcess m' l' (pr_senders pr)]> (sh_procs S)))
      end
  | IInstallSnapshot k now =>
      '(i, msg) ← cl_msgs c !! k;
      match msg with
      | MsgAppendEntries _ => None
      | MsgInstallSnapshot args =>
          nd ← cl_nodes c !! i;
          pr ← sh_procs S !! i;
          '(rf', reply) ← ok (InstallSnapshot (nd_raft nd) args now);
          '(m', l') ← ok (mem_InstallSnapshot (nd_raft nd) args (pr_memory pr) (pr_log pr) 1);
          Some (EvInstallSnapshot i args, mkShared (add_isreply (i, args, reply) (set_raft c i nd rf'))
            (<[i := mkProcess m' l' (pr_senders pr)]> (sh_procs S)))
      end
  | IAppendReply k =>
      '(server, args, reply) ← cl_aereplies c !! k;
      nd ← cl_nodes c !! aea_LeaderId args;
      rf' ← ok (sendAppendEntries (nd_raft nd) server args reply);
      local (set_raft c (aea_LeaderId args) nd rf')
  | ISnapshotReply k =>
      '(server, args, reply) ← cl_isreplies c !! k;
      nd ← cl_nodes c !! isa_LeaderId args;
      rf' ← ok (sendInstallSnapshot (nd_raft nd) server args reply);
      local (set_raft c (isa_LeaderId args) nd rf')
  | IStart i cmd =>
      nd ← cl_nodes c !! i;
      pr ← sh_procs S !! i;
      let '(m', l') := mem_Start (nd_raft nd) cmd (pr_memory pr) (pr_log pr) 1 in
      Some (EvStart i cmd, mkShared (set_raft c i nd (Start (nd_raft nd) cmd).1)
        (<[i := mkProcess m' l' (pr_senders pr)]> (sh_procs S)))
  | ISnapshot i index =>
      nd ← cl_nodes c !! i;
      pr ← sh_procs S !! i;
      rf' ← ok (Snapshot (nd_raft nd) index []);
      l' ← ok (mem_Snapshot (nd_raft nd) index (pr_log pr));
      Some (EvSnapshot i index, mkShared (set_raft c i nd rf')
        (<[i := mkProcess (pr_memory pr) l' (pr_senders pr)]> (sh_procs S)))
  | IApply i =>
      nd ← cl_nodes c !! i;
      match nd_sending nd, applier_begin (nd_raft nd) with
      | None, Ok (Deliver msg) =>
          local (add_applied (i, msg) (set_node c i (mkNode (nd_raft nd) (nd_threads nd) (Some msg))))
      | _, _ => None
      end
  | IApplied i =>
      nd ← cl_nodes c !! i;
      msg ← nd_sending nd;
      local (set_node c i (mkNode (applier_end (nd_raft nd) msg) (nd_threads nd) None))
  end.

(** Takes the monadic structure of an instruction apart. *)
Ltac exec_inv :=
  repeat match goal with
  | H : (_ ≫= _) = Some _ |- _ => apply bind_Some in H as (? & ? & H)
  | H : ok ?r = Some _ |- _ => destruct r eqn:?; simpl in H; [|discriminate H]; injection H as H; subst
  | x : _ * _ |- _ => destruct x
  end.

Lemma exec_sound S ins ev S' : exec S ins = Some (ev, S') → shared_step S ev S'.
Proof.
  intros H. destruct ins; cbn [exec] in H; cbv zeta in H.
  - exec_inv. simplify_eq. apply sh_local. by eapply ls_election.
  - exec_inv. simplify_eq. apply sh_local. eapply ls_RequestVote; [done|by eapply list_elem_of_lookup_2|done].
  - exec_inv. destruct (nd_threads _) as [|th ths] eqn:Et; [done|]. exec_inv. destruct (countVotes_step _ _ _) as [rf' el'] eqn:Ec.
    simplify_eq. apply sh_local. eapply (ls_countVotes _ _ _ th [] ths); [done|done|done|done| |done]. intros ? [= <-].
    eapply list_elem_of_lookup_2. match goal with Ha : _ ∧ _ ∧ _ ∧ _ |- _ => destruct Ha as (? & ? & ? & ?) end.
    replace (el_args (th_el th)) with r0; [done|]. destruct r0, (el_args (th_el th)); simpl in *; congruence.
  - exec_inv. destruct (nd_threads _) as [|th ths] eqn:Et; [done|]. exec_inv. simplify_eq. apply sh_local.
    by apply (ls_finish _ _ _ th [] ths).
  - exec_inv. simplify_eq. by eapply sh_heartbeat.
  - exec_inv. simplify_eq. eapply sh_encode; [done|by symmetry; apply take_drop_middle|done|done].
  - exec_inv. simplify_eq. eapply sh_send; [done|by symmetry; apply take_drop_middle|done].
  - exec_inv. destruct l as [args|args]; [|done]. exec_inv. simplify_eq.
    eapply sh_AppendEntries; [done|done|by eapply list_elem_of_lookup_2|done|done].
  - exec_inv. destruct l as [args|args]; [done|]. exec_inv. simplify_eq.
    eapply sh_InstallSnapshot; [done|done|by eapply list_elem_of_lookup_2|done|done].
  - exec_inv. simplify_eq. apply sh_local. eapply ls_AppendEntries_reply; [done|by eapply list_elem_of_lookup_2|done|done].
  - exec_inv. simplify_eq. apply sh_local. eapply ls_InstallSnapshot_reply; [done|by eapply list_elem_of_lookup_2|done|done].
  - exec_inv. destruct (mem_Start _ _ _ _ _) as [m' l'] eqn:Em. simplify_eq. destruct (Start _ _) as [rf' result] eqn:Es. by eapply sh_Start.
  - exec_inv. simplify_eq. by eapply sh_Snapshot.
  - exec_inv. destruct (nd_sending _) eqn:Es; [done|]. destruct (applier_begin _) as [[]|] eqn:Ea; simplify_eq. apply sh_local. by eapply ls_applier_begin.
  - exec_inv. simplify_eq. apply sh_local. by eapply ls_applier_end.
Qed.

(** ** The conditions, decided *)

Definition snapshot_fitsb (rf : Raft C) (args : InstallSnapshotArgs) : bool :=
  bool_decide (lastIndex (log rf) ≤ isa_LastIncludedIndex args)%Z ||
  match entry (log rf) (isa_LastIncludedIndex args) with
  | Ok e => bool_decide (eTerm e = isa_LastIncludedTerm args)
  | Panic => true
  end.

Definition orderlyb S (ev : Event (C := C)) : bool :=
  match ev with
  | EvAppendEntries i args =>
      match cl_nodes (sh_cluster S) !! i, sh_procs S !! i with
      | Some nd, Some pr => bool_decide (aea_Term args < currentTerm (nd_raft nd))%Z || bool_decide (length (pr_senders pr) = 0)
      | _, _ => true
      end
  | EvInstallSnapshot i args =>
      match cl_nodes (sh_cluster S) !! i with Some nd => snapshot_fitsb (nd_raft nd) args | None => true end
  | EvSnapshot i index =>
      match cl_nodes (sh_cluster S) !! i with Some nd => bool_decide (index ≤ handed nd)%Z | None => true end
  | _ => true
  end.

Lemma orderlyb_sound S ev : orderlyb S ev = true → orderly S ev.
Proof.
  destruct ev; simpl; try done.
  - intros H nd pr Hi Hp Hle. rewrite Hi, Hp in H. apply orb_true_iff in H as [H%bool_decide_eq_true|H%bool_decide_eq_true]; [lia|].
    by apply nil_length_inv.
  - intros H nd Hi e Hlt He. rewrite Hi in H. unfold snapshot_fitsb in H. rewrite He in H.
    apply orb_true_iff in H as [H%bool_decide_eq_true|H%bool_decide_eq_true]; [lia|done].
  - intros H nd Hi. rewrite Hi in H. by apply bool_decide_eq_true in H.
Qed.

Definition submitsb (Pb : C → bool) (ev : Event (C := C)) : bool :=
  match ev with EvStart _ cmd => Pb cmd | _ => true end.

(** ** Runs *)

Fixpoint run S (prog : list Instr) : option (Shared (C := C)) :=
  match prog with
  | [] => Some S
  | ins :: prog => '(_, S') ← exec S ins; run S' prog
  end.

(** A run whose steps all satisfy the conditions. *)
Fixpoint run_orderly (Pb : C → bool) S (prog : list Instr) : option (Shared (C := C)) :=
  match prog with
  | [] => Some S
  | ins :: prog =>
      '(ev, S') ← exec S ins;
      if orderlyb S ev && submitsb Pb ev then run_orderly Pb S' prog else None
  end.

(** And in which no peer compacts its log. *)
Fixpoint run_plain S (prog : list Instr) : option (Shared (C := C)) :=
  match prog with
  | [] => Some S
  | ins :: prog =>
      '(ev, S') ← exec S ins;
      if orderlyb S ev && bool_decide (map_Forall (λ _ nd, snapshotIndex (nd_raft nd) = 0%Z) (cl_nodes (sh_cluster S')))
      then run_plain S' prog else None
  end.

Lemma run_sound prog : ∀ S S', run S prog = Some S' → rtc (λ S1 S2, ∃ ev, shared_step S1 ev S2) S S'.
Proof.
  induction prog as [|ins prog IH]; intros S S' H; simpl in H; [injection H as <-; apply rtc_refl|].
  destruct (exec S ins) as [[ev S1]|] eqn:E; [|done]. simpl in H. eapply rtc_l; [exists ev; by eapply exec_sound|by apply IH].
Qed.

Lemma run_orderly_sound Pb prog : ∀ S S',
  run_orderly Pb S prog = Some S' → rtc (orderly_step (λ cmd, Pb cmd = true)) S S'.
Proof.
  induction prog as [|ins prog IH]; intros S S' H; simpl in H; [injection H as <-; apply rtc_refl|].
  destruct (exec S ins) as [[ev S1]|] eqn:E; [|done]. simpl in H.
  destruct (orderlyb S ev && submitsb Pb ev) eqn:Eb; [|done]. apply andb_true_iff in Eb as [Ho Hs].
  eapply rtc_l; [|by apply IH]. exists ev. split_and!; [by eapply exec_sound|by apply orderlyb_sound|].
  destruct ev; try done. by intros nd _ _.
Qed.

Lemma run_plain_sound prog : ∀ S S', run_plain S prog = Some S' → rtc plain_step S S'.
Proof.
  induction prog as [|ins prog IH]; intros S S' H; simpl in H; [injection H as <-; apply rtc_refl|].
  destruct (exec S ins) as [[ev S1]|] eqn:E; [|done]. simpl in H.
  destruct (_ && _) eqn:Eb; [|done]. apply andb_true_iff in Eb as [Ho Hu].
  eapply rtc_l; [|by apply IH]. split; [|by apply uncompacted_by_computation].
  exists ev. split_and!; [by eapply exec_sound|by apply orderlyb_sound|]. by destruct ev.
Qed.
End Interpreter.

#[local] Instance gobZ : Gob (PState Z) := countable_gob (PState Z).
#[local] Instance gobZ_ok : GobOk (PState Z) := countable_gob_ok (PState Z).

(** ** An orderly run with compaction *)

(** The commands of the run. *)
Definition given (cmd : Z) : bool := bool_decide (cmd ∈ [7%Z; 8%Z]).

(** Peer 0 is elected, commits a command with peer 1, applies it and compacts
    its log.  It sends peer 2 the snapshot, and then a second command, which
    it commits with peer 2; both apply it. *)
Definition compacting : list (Instr (C := Z)) :=
  [IElection 0 300; IRequestVote 0 301; ICountVotes 0 0; IFinish 0; IStart 0 7%Z;
   IBroadcast 0; IEncode 0 0; ISend 0 0; IAppendEntries 0 302; IAppendReply 0; IApply 0; IApplied 0; ISnapshot 0 1;
   IBroadcast 0; IInstallSnapshot 0 303; ISnapshotReply 0; IApply 2; IApplied 2; IStart 0 8%Z;
   IBroadcast 0; IEncode 0 1; ISend 0 1; IAppendEntries 0 304; IAppendReply 0; IApply 0;
   IBroadcast 0; ISend 0 1; IAppendEntries 0 305; IApply 2].

Lemma compacted_run : ∃ (S : Shared (C := Z)) nd1 nd2,
  reachable_submitted (λ cmd, given cmd = true) 3 S ∧
  cl_nodes (sh_cluster S) !! 2%Z = Some nd1 ∧ cl_nodes (sh_cluster S) !! 0%Z = Some nd2 ∧
  role (nd_raft nd2) = LEADER ∧ currentTerm (nd_raft nd1) = 1%Z ∧ currentTerm (nd_raft nd2) = 1%Z ∧
  snapshotIndex (nd_raft nd1) = 1%Z ∧ snapshotIndex (nd_raft nd2) = 1%Z ∧ commitIndex (nd_raft nd1) = 2%Z ∧
  entry (log (nd_raft nd1)) 2 = Ok (mkEntry 1 (Some 8%Z)) ∧ entry (log (nd_raft nd2)) 2 = Ok (mkEntry 1 (Some 8%Z)) ∧
  (λ im, (im.1, CommandValid im.2, CommandIndex im.2)) <$> cl_applied (sh_cluster S) =
    [(2%Z, true, 2%Z); (0%Z, true, 2%Z); (2%Z, false, 0%Z); (0%Z, true, 1%Z)].
Proof.
  destruct (run_orderly given (initShared 3 0) compacting) as [S|] eqn:E; [|by vm_compute in E].
  pose proof (run_orderly_sound _ _ _ _ E) as Hr. vm_compute in E. injection E as <-.
  eexists _, _, _. split; [by exists 0%Z|]. split; [reflexivity|]. split; [reflexivity|]. split_and!; reflexivity.
Qed.






(** ** A run that is not orderly *)

(** Peer 0 leads term 1 with the commands 10 and 11, which peer 2 gets; its
    goroutine for peer 1 is late.  Peer 3 leads term 2 and overwrites the
    log of peer 0 with the command 20.  Now the goroutine of peer 0 encodes
    its slots and sends peer 1 the commands 20 and 11 in the name of term 1.
    Peer 2 is elected in term 3; its log and that of peer 1 agree at index 2,
    so its command 30 is stored behind, and committed. *)
Definition late_goroutine : list (Instr (C := Z)) :=
  [IElection 0 300; IRequestVote 1 301; IRequestVote 3 301; IRequestVote 4 301;
   ICountVotes 0 0; ICountVotes 0 1; ICountVotes 0 2; IFinish 0; IStart 0 10%Z; IStart 0 11%Z;
   IBroadcast 0; IEncode 0 1; IEncode 0 1; ISend 0 1; IAppendEntries 0 310;
   IElection 3 600; IElection 3 1200; IRequestVote 3 1201; IRequestVote 4 1201; IRequestVote 5 1201;
   ICountVotes 3 0; ICountVotes 3 1; ICountVotes 3 2; IFinish 3; IStart 3 20%Z;
   IBroadcast 3; IEncode 3 0; ISend 3 0; IAppendEntries 0 1300;
   IEncode 0 0; IEncode 0 0; ISend 0 0; IAppendEntries 0 1301;
   IElection 2 1400; IElection 2 2000; IRequestVote 1 2001; IRequestVote 3 2001; IRequestVote 4 2001;
   ICountVotes 2 0; ICountVotes 2 1; ICountVotes 2 2; IFinish 2; IStart 2 30%Z;
   IBroadcast 2; IEncode 2 1; ISend 2 1; IAppendEntries 0 2100; IAppendReply 0;
   IEncode 2 2; ISend 2 2; IAppendEntries 0 2101; IAppendReply 0;
   IEncode 2 2; ISend 2 2; IAppendEntries 0 2101; IAppendReply 0;
   IBroadcast 2; IEncode 2 3; IEncode 2 3; IEncode 2 3; ISend 2 3; IAppendEntries 0 2102; IAppendReply 0;
   IEncode 2 3; IEncode 2 3; IEncode 2 3; ISend 2 3; IAppendEntries 0 2103; IAppendReply 0;
   IApply 2; IBroadcast 2; ISend 2 1; IAppendEntries 0 2104; IApply 1].

(** C32: a late goroutine breaks Raft.  Requests share the array of the
    leader's log, and a run of seven peers in which no message is lost, no
    peer crashes and nothing is compacted makes two peers deliver different
    commands at index 1: the goroutine of a deposed leader encodes slots
    that the next leader has overwritten. *)
Theorem shared_log_unsafe : ∃ (S : Shared (C := Z)) msg1 msg2,
  reachable_shared 7 S ∧ uncompacted (sh_cluster S) ∧
  (1%Z, msg1) ∈ cl_applied (sh_cluster S) ∧ (2%Z, msg2) ∈ cl_applied (sh_cluster S) ∧
  CommandValid msg1 = true ∧ CommandValid msg2 = true ∧ CommandIndex msg1 = 1%Z ∧ CommandIndex msg2 = 1%Z ∧
  msgCommand msg1 = Some 20%Z ∧ msgCommand msg2 = Some 10%Z.
Proof.
  destruct (run (initShared 7 0) late_goroutine) as [S|] eqn:E; [|by vm_compute in E].
  pose proof (run_sound _ _ _ E) as Hr. exists S. vm_compute in E. injection E as <-.
  eexists _, _. split; [by exists 0%Z|]. split; [by apply uncompacted_by_computation|].
  split; [left|]. split; [right; left|]. split_and!; reflexivity.
Qed.

(** The log of peer 2 after the first run. *)
Lemma memory_refines_log_witness : ∃ (S : Shared (C := Z)) nd pr,
  reachable_shared 3 S ∧ cl_nodes (sh_cluster S) !! 2%Z = Some nd ∧ sh_procs S !! 2%Z = Some pr ∧
  cells (pr_memory pr) (ml_entries (pr_log pr)) = entries (log (nd_raft nd)) ∧ entry (log (nd_raft nd)) 2 = Ok (mkEntry 1 (Some 8%Z)).
Proof.
  destruct compacted_run as (S & nd1 & nd2 & Hc%orderly_shared & H1 & _ & _ & _ & _ & _ & _ & _ & He1 & _).
  destruct (memory_refines_log 3 S 2 nd1 Hc H1) as (pr & Hp & Hcells & _). exists S, nd1, pr. by split_and!.
Defined.
