(* ===== verification/RaftWitness.v ===== *)
(** * Concrete peers

    The properties of the Raft files at concrete inputs: each lemma applies
    one property to a peer, a message or a run written out here, so its
    hypotheses can hold.  Commands are integers, and [countable_gob] stands
    for the encoder. *)

From stdpp Require Import base list gmap.
From Stdlib Require Import ZArith Lia.
From S2P Require Import Prelude RaftLog RaftCore RaftElection RaftReplication RaftApply RaftNode.

#[local] Instance gobZ : Gob (PState Z) := countable_gob (PState Z).
#[local] Instance gobZ_ok : GobOk (PState Z) := countable_gob_ok (PState Z).

(** Entries of term [t]. *)
Definition ent (t c : Z) : Entry Z := mkEntry t (Some c).

Section Peers.
Context {C : Type} `{!Gob (PState C)}.

(** A peer of a group of three, saved. *)
Definition examplePeer (i : Z) (r : RoleT) (term vote : Z) (l : Log C) : Raft C :=
  persist {| me := i; npeers := 3; dead := false; persister := Persister.MakePersister;
     currentTerm := term; votedFor := vote; log := l;
     snapshotTerm := 0; snapshotIndex := index0 l; snapshot := [];
     commitIndex := index0 l; lastApplied := index0 l;
     nextIndex := replicate 3 (lastIndex l + 1)%Z; matchIndex := replicate 3 0%Z;
     role := r; leaderId := -1; lastHeartbeat := 0; heartbeatNotifyCh := false |}.

Lemma examplePeer_wf i r term vote (l : Log C) :
  (0 ≤ i < 3)%Z → entries l ≠ [] → (r ≠ FOLLOWER → vote = i) →
  raft_wf (examplePeer i r term vote l).
Proof. intros. split; simpl; try done. apply synced_persist. Qed.

Lemma examplePeer_leader_wf i term (l : Log C) :
  (0 ≤ i < 3)%Z → entries l ≠ [] → (0 ≤ lastIndex l)%Z →
  leader_wf (examplePeer i LEADER term i l).
Proof.
  intros. split; [by apply examplePeer_wf|done|]. intros k m n Hm Hn.
  apply lookup_replicate in Hm as [-> _], Hn as [-> _]. simpl. lia.
Qed.
End Peers.

(** [0, 1, 1, 2] and [0, 1, 3, 3], by term; both start at index 0. *)
Definition logA : Log Z := mkLog [zeroEntry; ent 1 10; ent 1 11; ent 2 12] 0.
Definition logB : Log Z := mkLog [zeroEntry; ent 1 10; ent 3 20; ent 3 21] 0.
Definition leaderA : Raft Z := examplePeer 0 LEADER 2 0 logA.
Definition leaderB : Raft Z := examplePeer 0 LEADER 3 0 logB.
Definition followerA : Raft Z := examplePeer 1 FOLLOWER 2 (-1) logA.

Lemma leaderA_wf : leader_wf leaderA.
Proof. by apply examplePeer_leader_wf. Qed.
Lemma leaderB_wf : leader_wf leaderB.
Proof. by apply examplePeer_leader_wf. Qed.
Lemma followerA_wf : raft_wf followerA.
Proof. by apply examplePeer_wf. Qed.

(** ** The log *)

Lemma logA_sorted : term_sorted (entries logA).
Proof. repeat constructor; vm_compute; done. Qed.

(** Entries of term 3 replace those from index 2 on. *)
Lemma place_term_sorted_witness :
  ∃ l', place logA 2 [ent 3 20; ent 3 21] = Ok l' ∧ term_sorted (entries l').
Proof.
  eexists. split; [vm_compute; reflexivity|].
  eapply (place_term_sorted logA _ 2 [ent 3 20; ent 3 21]); [vm_compute; by split|apply logA_sorted| | |vm_compute; reflexivity].
  - repeat constructor; vm_compute; done.
  - intros e x He Hx. vm_compute in He. repeat (apply elem_of_cons in He as [->|He]); [..|by apply elem_of_nil in He].
    all: repeat (apply elem_of_cons in Hx as [->|Hx]); [..|by apply elem_of_nil in Hx]; vm_compute; done.
Defined.

Lemma place_present_noop_witness : place logA 1 [ent 1 10; ent 1 11] = Ok logA.
Proof. apply place_present_noop; [vm_compute; by split|apply logA_sorted|vm_compute; reflexivity]. Defined.

(** ** Elections *)

Lemma Start_spec_witness :
  let '(rf', (index, term, isLeader)) := Start leaderA 42%Z in
  raft_wf rf' ∧ index = 4%Z ∧ entry (log rf') 4 = Ok (ent 2 42).
Proof.
  pose proof (Start_spec leaderA 42%Z (lwf_raft _ leaderA_wf)) as H. vm_compute in H |- *. naive_solver.
Defined.

Lemma RequestVote_spec_witness :
  ∃ rf' reply, RequestVote followerA (mkRequestVoteArgs 3 0 3 3) 5 = Ok (rf', reply) ∧
    raft_wf rf' ∧ rvr_VoteGranted reply = true.
Proof.
  destruct (RequestVote_spec followerA (mkRequestVoteArgs 3 0 3 3) 5 followerA_wf)
    as (rf' & reply & le & Heq & Hle & Hwf & _ & _ & _ & Hg & _); [done|].
  exists rf', reply. split_and!; [done..|]. vm_compute in Heq. injection Heq as <- <-. reflexivity.
Defined.

Lemma countVotes_spec_witness :
  countVotes leaderA (mkRequestVoteArgs 2 0 3 2) [None; Some (mkRequestVoteReply 1 true)] =
  Some (leaderA, 2%Z).
Proof.
  destruct (countVotes_spec leaderA (mkRequestVoteArgs 2 0 3 2) [None; Some (mkRequestVoteReply 1 true)])
    as [H _]; [vm_compute; lia|done| |exact H].
  intros r Hr. repeat (apply elem_of_cons in Hr as [Hr|Hr]); [done|injection Hr as ->|by apply elem_of_nil in Hr].
  vm_compute. done.
Defined.

(** ** Replication *)

(** Peer 1 has acknowledged everything. *)
Definition leaderA1 : Raft Z := set_matchIndex [0; 3; 0]%Z leaderA.

Lemma leaderA1_wf : leader_wf leaderA1.
Proof.
  destruct leaderA_wf as [[? ? ? ? ? ?] ? ?]. split; [by split|done|].
  intros [|[|[|k]]] m n; simpl; intros; simplify_eq; vm_compute; by repeat split.
Qed.

Lemma leaderCommit_spec_witness : ∃ rf', leaderCommit leaderA1 = Ok rf' ∧ commitIndex rf' = 3%Z ∧
  is_majority 3 (count_ge 3 (matched leaderA1)).
Proof.
  destruct (leaderCommit_spec leaderA1 leaderA1_wf) as (rf' & H & [->|(N & e & -> & _ & _ & _ & Hm & _)]).
  - vm_compute in H. discriminate H.
  - exists (set_commitIndex N leaderA1). vm_compute in H. injection H as <-. by split_and!.
Defined.

Lemma leaderLogReplication_spec_witness :
  ∃ msgs, leaderLogReplication leaderA = Ok msgs ∧ msgs.*1 = [1; 2]%Z.
Proof.
  destruct (leaderLogReplication_spec leaderA leaderA_wf) as (msgs & H & Hp & _).
  exists msgs. split; [done|]. rewrite Hp. vm_compute. reflexivity.
Defined.

(** The follower's entry 3 is of term 2, the leader's of term 3: the leader
    goes back to the first entry of its term 3. *)
Lemma conflictNextIndex_spec_witness :
  ∃ n, conflictNextIndex leaderB (mkAppendEntriesReply 3 2 3 false) = Ok n ∧ (0 < n ≤ 3)%Z.
Proof.
  destruct (conflictNextIndex_spec leaderB (mkAppendEntriesReply 3 2 3 false) (ent 3 21)
    (lwf_raft _ leaderB_wf)) as (n & H & Hb & _ & _ & Hp); [vm_compute; done|vm_compute; reflexivity|vm_compute; done|].
  exists n. split; [done|]. specialize (Hp ltac:(done)). simpl in Hp, Hb. lia.
Defined.

Lemma sendAppendEntries_wf_witness :
  ∃ rf', sendAppendEntries leaderA 1 (mkAppendEntriesArgs 2 0 2 1 [ent 2 12] 0)
           (mkAppendEntriesReply 2 0 0 true) = Ok rf' ∧ leader_wf rf'.
Proof.
  destruct (sendAppendEntries_wf leaderA 1 (mkAppendEntriesArgs 2 0 2 1 [ent 2 12] 0)
           (mkAppendEntriesReply 2 0 0 true) leaderA_wf) as (rf' & H & [[? _]|[_ Hlt]]);
    [vm_compute; by split|vm_compute; done|vm_compute; done|vm_compute; by repeat split| |].
  - by exists rf'.
  - vm_compute in Hlt. done.
Defined.

(** The leader of term 3 replaces the follower's entries 2 and 3. *)
Definition argsB : AppendEntriesArgs Z := mkAppendEntriesArgs 3 0 1 1 [ent 3 20; ent 3 21] 2.

Lemma AppendEntries_spec_witness :
  ∃ rf' reply, AppendEntries followerA argsB 7 = Ok (rf', reply) ∧ aer_Success reply = true ∧
    entry (log rf') 3 = Ok (ent 3 21) ∧ lastIndex (log rf') = 3%Z ∧ commitIndex rf' = 2%Z.
Proof.
  destruct (AppendEntries_spec followerA argsB 7 followerA_wf) as (rf' & reply & H & _ & _ & _ & Hc); [vm_compute; done|].
  exists rf', reply. rewrite !bool_decide_false in Hc by (vm_compute; done). destruct Hc as (e & He & Hc).
  assert (e = ent 1 10) as -> by (vm_compute in He; by injection He as <-).
  rewrite bool_decide_true in Hc by done. destruct Hc as (Hok & [_ _ Hnew Hlast _] & Hci).
  assert (Hl : lastIndex (log rf') = 3%Z) by (rewrite Hlast; vm_compute; reflexivity).
  split_and!; [done..| |done|].
  - apply (Hnew 1 (ent 3 21)). reflexivity.
  - rewrite Hci, Hl. vm_compute. reflexivity.
Defined.

Lemma InstallSnapshot_spec_witness :
  ∃ rf' reply, InstallSnapshot followerA (mkInstallSnapshotArgs 3 0 5 3 [Byte.x01]) 7 = Ok (rf', reply) ∧
    raft_wf rf' ∧ lastIndex (log rf') = 5%Z.
Proof.
  destruct (InstallSnapshot_spec followerA (mkInstallSnapshotArgs 3 0 5 3 [Byte.x01]) 7 followerA_wf)
    as (rf' & reply & H & Hwf & _ & _ & _ & _ & Hc).
  rewrite bool_decide_true in Hc by (vm_compute; by repeat split). destruct Hc as (_ & _ & _ & Hl & _).
  exists rf', reply. split_and!; [done..|]. rewrite Hl. vm_compute. reflexivity.
Defined.

(** A snapshot at index 2 of term 3 reaches a follower with entries of term
    1 and 2 there. *)
Lemma InstallSnapshot_keeps_conflict_witness :
  ∃ rf' reply, InstallSnapshot followerA (mkInstallSnapshotArgs 3 0 2 3 [Byte.x01]) 7 = Ok (rf', reply) ∧
    stale_base rf' ∧ entry (log rf') 3 = Ok (ent 2 12).
Proof.
  destruct (InstallSnapshot_keeps_conflict followerA (mkInstallSnapshotArgs 3 0 2 3 [Byte.x01]) 7 (ent 1 11)
    followerA_wf) as (rf' & reply & H & Hs & He); [vm_compute; by repeat split..|].
  exists rf', reply. split_and!; [done..|]. rewrite He by done. vm_compute. reflexivity.
Defined.

(** The leader has compacted index 2, of term 3; the follower's slot 0 for
    index 2 is of term 1. *)
Definition logL : Log Z := mkLog [ent 3 20; ent 3 21] 2.
Definition logF : Log Z := mkLog [ent 1 11; ent 2 12] 2.
Definition leaderL : Raft Z :=
  set_nextIndex [4; 3; 3]%Z (set_matchIndex [0; 2; 2]%Z (examplePeer 0 LEADER 3 0 logL)).
Definition followerF : Raft Z :=
  persist (set_snapshotTerm 3 (examplePeer 1 FOLLOWER 3 (-1) logF)).

Lemma leaderL_wf : leader_wf leaderL.
Proof.
  destruct (examplePeer_leader_wf 0 3 logL) as [[? ? ? ? ? ?] ? ?]; [done..|]. split; [by split|done|].
  intros [|[|[|k]]] m n; simpl; intros; simplify_eq; vm_compute; by repeat split.
Qed.

Lemma followerF_wf : raft_wf followerF.
Proof.
  destruct (examplePeer_wf 1 FOLLOWER 3 (-1) logF); [done..|]. split; try done. apply synced_persist.
Qed.

Lemma stale_base_livelock_witness :
  ∃ args F' reply L',
    replicateTo leaderL 1 = Ok (MsgAppendEntries args) ∧
    AppendEntries followerF args 9 = Ok (F', reply) ∧ aer_Success reply = false ∧
    sendAppendEntries leaderL 1 args reply = Ok L' ∧ nextIndex L' = nextIndex leaderL.
Proof.
  destruct (stale_base_livelock leaderL followerF 1 (ent 3 20) 9 leaderL_wf followerF_wf)
    as (args & F' & reply & L' & ? & ? & ? & ? & ? & _);
    [|vm_compute; by repeat split..|by exists args, F', reply, L'].
  exists (ent 1 11). vm_compute. by split.
Defined.

(** ** One peer *)

Lemma Snapshot_spec_witness :
  ∃ rf', Snapshot leaderA 2 [Byte.x01] = Ok rf' ∧ raft_wf rf' ∧ snapshotIndex rf' = 2%Z.
Proof.
  destruct (Snapshot_spec leaderA 2 [Byte.x01] (lwf_raft _ leaderA_wf)) as (rf' & H & Hwf & Hc); [vm_compute; done|].
  rewrite bool_decide_true in Hc by (vm_compute; done). exists rf'. split_and!; [done..|apply Hc].
Defined.

Lemma raft_invariant_witness : raft_wf (Kill followerA) ∧ synced (Kill followerA).
Proof. apply (raft_invariant followerA); [apply followerA_wf|]. left. apply step_Kill. Defined.

(** A fresh peer that started one election restarts in term 1 with its vote
    for itself. *)
Lemma reachable_restart_witness :
  ∃ rf rf' : Raft Z, Make 3 0 (persister rf) 900 = Ok rf' ∧ currentTerm rf' = 1%Z ∧ votedFor rf' = 0%Z.
Proof.
  destruct (leaderElection_start (resetElectionTimer 0 (freshRaft 3 0 Persister.MakePersister : Raft Z))
    300 300 300) as [[rf oargs]|] eqn:E; [|vm_compute in E; discriminate E].
  destruct (reachable_restart 3 0 0 (resetElectionTimer 0 (freshRaft 3 0 Persister.MakePersister)) (mkApplyState rf None []) 900)
    as (rf' & HM & _ & Hp & _); [lia|reflexivity| |].
  - eapply rtc_once, apply_env. eapply (step_electionStart _ 300 300 300); [lia|exact E].
  - exists rf, rf'. vm_compute in E. injection E as <- _. injection Hp as H1 H2 _ _ _. by split_and!.
Defined.

Lemma vote_stable_witness : (currentTerm followerA ≤ currentTerm (Kill followerA))%Z.
Proof.
  apply (vote_stable followerA (Kill followerA) followerA_wf). eapply rtc_once. apply step_Kill.
Defined.

(** The first entry is committed and delivered. *)
Lemma applier_in_order_witness :
  ∃ s : ApplyState (C := Z), length (as_trace s) = 1 ∧ in_order 0 (as_trace s) ∧
    lastApplied (as_raft s) = 1%Z.
Proof.
  destruct (applier_begin (set_commitIndex 1 followerA)) as [[msg| |]|] eqn:E;
    [|vm_compute in E; discriminate E..].
  assert (Hr : rtc apply_step (mkApplyState (set_commitIndex 1 followerA) None [])
    (mkApplyState (applier_end (set_commitIndex 1 followerA) msg) None [msg])).
  { eapply rtc_l; [by apply apply_begin|]. eapply rtc_once. apply apply_end. }
  destruct (applier_in_order (set_commitIndex 1 followerA) _ ltac:(by destruct followerA_wf) ltac:(reflexivity) Hr)
    as [Ho Ha].
  eexists. split; [|split; [exact Ho|]]; [done|]. rewrite Ha by done. vm_compute in E.
  injection E as <-. reflexivity.
Defined.
