(* ===== verification/KVRaft.v ===== *)
(** * The key/value service (src/kvraft/server.go, common.go)

    A [KVServer] owns a Raft peer, a map of keys to values and, per client,
    the sequence number of the last request it applied.  Handlers run
    concurrently with the applier: [operate] is its part up to the wait
    ([operate_start]), the wait ends when [done] holds, and the reply is
    computed afterwards from the store of that moment.

    A [ClientStatus] is its [lastSeqNum]; its mutex and condition variable
    only order the critical sections.  Status objects are never replaced, so
    the pointer a handler holds is the status of its client.

    Theorems: each request takes effect exactly once although clients
    retransmit; a server's state is a function of the agreed log, whatever
    mixture of commands and snapshots Raft delivers and whatever handlers
    run meanwhile; the snapshots a server takes are those other servers
    accept; and what a reply means. *)

From stdpp Require Import strings countable base gmap list.
From Stdlib Require Import ZArith Lia.
From S2P Require Import Prelude RaftLog RaftCore RaftApply RaftNode.

Inductive Err : Type := OK | ErrNoKey | ErrWrongLeader.

Global Instance Err_eq_dec : EqDecision Err.
Proof. solve_decision. Defined.

Record PutAppendArgs : Type := mkPutAppendArgs {
  paa_Key : string;
  paa_Value : string;
  paa_Op : string;
  paa_SeqNum : Z;
  paa_ClientId : Z;
}.

Record PutAppendReply : Type := mkPutAppendReply { par_Err : Err }.

Record GetArgs : Type := mkGetArgs {
  ga_Key : string;
  ga_SeqNum : Z;
  ga_ClientId : Z;
}.

Record GetReply : Type := mkGetReply { gr_Err : Err; gr_Value : string }.

Definition PUT : string := "Put".
Definition APPEND : string := "Append".
Definition GET : string := "Get".

Record Op : Type := mkOp {
  op_Type : string;
  op_Key : string;
  op_Value : string;
  op_SeqNum : Z;
  op_ClientId : Z;
}.

Global Instance Op_eq_dec : EqDecision Op.
Proof. solve_decision. Defined.

Global Instance Op_countable : Countable Op.
Proof.
  refine (inj_countable'
    (λ o, (op_Type o, op_Key o, op_Value o, op_SeqNum o, op_ClientId o))
    (λ '(t, k, v, s, c), mkOp t k v s c) _).
  by intros [].
Defined.

(** ** ClientStatus *)

Definition done (lastSeqNum seqNum : Z) : bool := bool_decide (lastSeqNum >= seqNum)%Z.

Definition updateSeqNum (lastSeqNum seqNum : Z) : Z := seqNum.

(** ** Store *)

Abbreviation Data := (gmap string string).

Module Store.
Definition init : Data := ∅.

Definition setData (s data : Data) : Data := data.

Definition cloneData (s : Data) : Data := map_fold (λ key val data, <[key := val]> data) ∅ s.

(** The value is "" when the key does not exist. *)
Definition get (s : Data) (key : string) : string * bool :=
  match s !! key with Some v => (v, true) | None => (EmptyString, false) end.

Definition put (s : Data) (key value : string) : Data := <[key := value]> s.

Definition append (s : Data) (key value : string) : Data :=
  match s !! key with
  | Some val => <[key := val +:+ value]> s
  | None => <[key := value]> s
  end.
End Store.

(** ** KVServer *)

(** What [snapshot] encodes: the log index, the store, and the clients'
    sequence numbers. *)
Abbreviation KVSnapshot := (Z * Data * gmap Z Z)%type.

Section KVRaft.
Context `{!Gob (PState Op), !Gob KVSnapshot}.

Record KVServer : Type := mkKVServer {
  kv_me : Z;
  kv_rf : Raft Op; (* holds the persister, which kv.persister also points to *)
  kv_dead : bool;
  maxraftstate : Z;
  store : Data;
  clientsStatus : gmap Z Z;
}.

Implicit Types kv : KVServer.

Definition kv_set_rf kv (rf : Raft Op) : KVServer :=
  mkKVServer (kv_me kv) rf (kv_dead kv) (maxraftstate kv) (store kv) (clientsStatus kv).
Definition kv_set_store kv (s : Data) : KVServer :=
  mkKVServer (kv_me kv) (kv_rf kv) (kv_dead kv) (maxraftstate kv) s (clientsStatus kv).
Definition kv_set_status kv (cs : gmap Z Z) : KVServer :=
  mkKVServer (kv_me kv) (kv_rf kv) (kv_dead kv) (maxraftstate kv) (store kv) cs.

Definition clientsSeqNum kv : gmap Z Z :=
  map_fold (λ clientId lastSeqNum m, <[clientId := lastSeqNum]> m) ∅ (clientsStatus kv).

(** Returns the status, creating one with sequence number 0 if the client
    is not known. *)
Definition getClientStatus kv (clientId : Z) : KVServer * Z :=
  match clientsStatus kv !! clientId with
  | Some status => (kv, status)
  | None => (kv_set_status kv (<[clientId := 0%Z]> (clientsStatus kv)), 0%Z)
  end.

(** [clientStatus.updateSeqNum(seqNum)] on the status of a client. *)
Definition setClientSeqNum kv (clientId seqNum : Z) : KVServer :=
  kv_set_status kv (alter (λ last, updateSeqNum last seqNum) clientId (clientsStatus kv)).

(** How far [operate] gets before it waits: it is done already, it waits
    for the applier, or this server is not the leader. *)
Inductive OperateResult : Type := OpDone | OpWait | OpNotLeader.

Definition operate_start kv (op : Op) : KVServer * OperateResult :=
  let '(kv, last) := getClientStatus kv (op_ClientId op) in
  if done last (op_SeqNum op) then (kv, OpDone)
  else
    let '(rf, (_, _, ok)) := Start (kv_rf kv) op in
    (kv_set_rf kv rf, if ok : bool then OpWait else OpNotLeader).

(** The loop condition of the wait has become false. *)
Definition operate_ready kv (op : Op) : bool :=
  done (snd (getClientStatus kv (op_ClientId op))) (op_SeqNum op).

Definition Get_op (args : GetArgs) : Op :=
  mkOp GET (ga_Key args) EmptyString (ga_SeqNum args) (ga_ClientId args).

(** The reply of [Get] once [operate] has returned. *)
Definition Get_reply kv (args : GetArgs) (isLeader : bool) : GetReply :=
  if isLeader then mkGetReply OK (fst (Store.get (store kv) (ga_Key args)))
  else mkGetReply ErrWrongLeader EmptyString.

Definition PutAppend_op (args : PutAppendArgs) : Op :=
  mkOp (paa_Op args) (paa_Key args) (paa_Value args) (paa_SeqNum args) (paa_ClientId args).

Definition PutAppend_reply (isLeader : bool) : PutAppendReply :=
  mkPutAppendReply (if isLeader then OK else ErrWrongLeader).

Definition applyOp kv (op : Op) : KVServer :=
  let '(kv, last) := getClientStatus kv (op_ClientId op) in
  if negb (done last (op_SeqNum op)) then
    let kv :=
      if bool_decide (op_Type op = PUT) then
        kv_set_store kv (Store.put (store kv) (op_Key op) (op_Value op))
      else if bool_decide (op_Type op = APPEND) then
        kv_set_store kv (Store.append (store kv) (op_Key op) (op_Value op))
      else kv in
    setClientSeqNum kv (op_ClientId op) (op_SeqNum op)
  else kv.

Definition snapshotBytes kv (logIndex : Z) : bytes :=
  gob_encode (logIndex, store kv, clientsSeqNum kv).

Definition snapshot kv (logIndex : Z) : Res KVServer :=
  rf ← Snapshot (kv_rf kv) logIndex (snapshotBytes kv logIndex);
  Ok (kv_set_rf kv rf).

(** The loop of [applySnap] over the decoded map, in the order [l]. *)
Definition restoreClients kv (l : list (Z * Z)) : KVServer :=
  foldl (λ kv '(clientId, seqNum),
    setClientSeqNum (fst (getClientStatus kv clientId)) clientId seqNum) kv l.

(** An empty snapshot is fatal whether it is nil or not: nil is refused and
    decoding no bytes fails. *)
Definition applySnap kv (snap : bytes) (index : Z) : Res KVServer :=
  if bool_decide (snap = []) then Panic
  else match gob_decode snap with
  | None => Panic
  | Some (lastIncludedIndex, data, clientSeqNumMap) =>
      if bool_decide (index ≠ -1)%Z && bool_decide (index ≠ lastIncludedIndex) then Panic
      else
        let kv := kv_set_store kv (Store.setData (store kv) data) in
        Ok (restoreClients kv (map_to_list clientSeqNumMap))
  end.

(** One iteration of [applier]. *)
Definition kv_applier kv (m : ApplyMsg Op) : Res KVServer :=
  if SnapshotValid m then applySnap kv (msgSnapshot m) (SnapshotIndex m)
  else if CommandValid m then
    match msgCommand m with
    | None => Panic (* the type assertion on a nil command *)
    | Some op =>
        let kv := applyOp kv op in
        if bool_decide (maxraftstate kv > 0)%Z &&
           bool_decide (Persister.RaftStateSize (persister (kv_rf kv)) >= maxraftstate kv)%Z
        then snapshot kv (CommandIndex m)
        else Ok kv
    end
  else Ok kv.

Definition kv_Kill kv : KVServer :=
  mkKVServer (kv_me kv) (RaftCore.Kill (kv_rf kv)) true (maxraftstate kv) (store kv) (clientsStatus kv).

Definition kv_killed kv : bool := kv_dead kv.

Definition StartKVServer (servers : nat) (me_ : Z) (ps : Persister) (max now : Z) : Res KVServer :=
  rf ← Make servers me_ ps now;
  Ok (mkKVServer me_ rf false max Store.init ∅).
(** ** Specification vocabulary *)

(** The effect of one request on the abstract map. *)
Definition spec_op (s : Data) (op : Op) : Data :=
  if bool_decide (op_Type op = PUT) then <[op_Key op := op_Value op]> s
  else if bool_decide (op_Type op = APPEND) then
    <[op_Key op := default EmptyString (s !! op_Key op) +:+ op_Value op]> s
  else s.

(** The sequence number a server has for a client; unknown clients and
    clients at 0 are the same. *)
Definition lastSeq kv (clientId : Z) : Z := default 0%Z (clientsStatus kv !! clientId).

(** Servers that answer alike: same store, same sequence numbers. *)
Definition kv_equiv kv1 kv2 : Prop :=
  store kv1 = store kv2 ∧ ∀ c, lastSeq kv1 c = lastSeq kv2 c.

(** A server after a list of requests. *)
Definition applyOps kv (ops : list Op) : KVServer := foldl applyOp kv ops.

(** Clients that send request n+1 only after request n was applied: in the
    log, a request comes behind all earlier requests of its client, or it
    is a retransmission; and a retransmission is the same request. *)
Definition client_order (ops : list Op) : Prop :=
  ∀ l1 op l2, ops = l1 ++ op :: l2 → (0 < op_SeqNum op)%Z ∧
    ∀ op', op' ∈ l1 → op_ClientId op' = op_ClientId op →
      ((op_SeqNum op' < op_SeqNum op)%Z ∨ op ∈ l1) ∧ (op_SeqNum op' = op_SeqNum op → op' = op).

(** The requests without retransmissions, in the order they came first. *)
Fixpoint first_occurrences (seen ops : list Op) : list Op :=
  match ops with
  | [] => []
  | op :: ops =>
      if decide (op ∈ seen) then first_occurrences seen ops
      else op :: first_occurrences (op :: seen) ops
  end.

(** ** Lemmas *)

Lemma clientsSeqNum_id kv : clientsSeqNum kv = clientsStatus kv.
Proof. apply map_fold_insert_id. Qed.

Global Instance kv_equiv_equivalence : Equivalence kv_equiv.
Proof.
  split.
  - by intros kv.
  - intros kv1 kv2 [? H]. split; [done|]. intros c. by rewrite H.
  - intros kv1 kv2 kv3 [? H1] [? H2]. split; [congruence|]. intros c. by rewrite H1, H2.
Qed.

Lemma getClientStatus_snd kv c : snd (getClientStatus kv c) = lastSeq kv c.
Proof. unfold getClientStatus, lastSeq. by destruct (clientsStatus kv !! c). Qed.

(** Looking a client up changes nothing that matters. *)
Lemma getClientStatus_equiv kv c : kv_equiv (fst (getClientStatus kv c)) kv.
Proof.
  unfold getClientStatus. destruct (clientsStatus kv !! c) eqn:E; [done|]. split; [done|].
  intros c'. unfold lastSeq; simpl. destruct (decide (c = c')) as [<-|].
  - by rewrite lookup_insert_eq, E.
  - by rewrite lookup_insert_ne.
Qed.

Lemma setClientSeqNum_spec kv c n c' :
  lastSeq (setClientSeqNum (fst (getClientStatus kv c)) c n) c' =
  if decide (c' = c) then n else lastSeq kv c'.
Proof.
  unfold lastSeq, setClientSeqNum, getClientStatus, updateSeqNum; simpl.
  destruct (clientsStatus kv !! c) eqn:E; simpl; destruct (decide (c' = c)) as [->|Hne].
  - by rewrite lookup_alter_eq, E.
  - by rewrite lookup_alter_ne.
  - by rewrite lookup_alter_eq, lookup_insert_eq.
  - by rewrite lookup_alter_ne, lookup_insert_ne.
Qed.

(** What [applyOp] does, in one equation per field. *)
Lemma applyOp_spec kv op :
  store (applyOp kv op) =
    (if bool_decide (lastSeq kv (op_ClientId op) < op_SeqNum op)%Z then spec_op (store kv) op else store kv) ∧
  ∀ c, lastSeq (applyOp kv op) c =
    if decide (c = op_ClientId op) then Z.max (lastSeq kv c) (op_SeqNum op) else lastSeq kv c.
Proof.
  unfold applyOp. pose proof (getClientStatus_equiv kv (op_ClientId op)) as [Hs Hl].
  pose proof (getClientStatus_snd kv (op_ClientId op)) as Hlast.
  pose proof (setClientSeqNum_spec kv (op_ClientId op) (op_SeqNum op)) as Hset.
  destruct (getClientStatus kv (op_ClientId op)) as [kv1 last]; simpl in *. subst last.
  unfold done. destruct (decide (lastSeq kv (op_ClientId op) < op_SeqNum op)%Z) as [Hlt|Hge].
  - rewrite (bool_decide_false (lastSeq kv _ >= _)%Z), (bool_decide_true (_ < _)%Z) by lia.
    simpl. split.
    + unfold spec_op. rewrite <-Hs. case_bool_decide; [done|]. case_bool_decide; [|done].
      simpl. unfold Store.append. by destruct (store kv1 !! op_Key op).
    + intros c. destruct (decide (c = op_ClientId op)) as [->|Hc].
      * rewrite Z.max_r by lia. specialize (Hset (op_ClientId op)). rewrite decide_True in Hset by done.
        etransitivity; [|exact Hset]. by repeat case_bool_decide.
      * specialize (Hset c). rewrite decide_False in Hset by done.
        etransitivity; [|exact Hset]. by repeat case_bool_decide.
  - rewrite (bool_decide_true (lastSeq kv _ >= _)%Z), (bool_decide_false (_ < _)%Z) by lia.
    simpl. split; [done|]. intros c. rewrite Hl. destruct (decide (c = op_ClientId op)) as [->|]; [lia|done].
Qed.

Global Instance applyOp_proper : Proper (kv_equiv ==> eq ==> kv_equiv) applyOp.
Proof.
  intros kv1 kv2 [Hs Hl] op ? <-.
  destruct (applyOp_spec kv1 op) as [Hs1 Hl1], (applyOp_spec kv2 op) as [Hs2 Hl2]. split.
  - by rewrite Hs1, Hs2, Hs, Hl.
  - intros c. by rewrite Hl1, Hl2, Hl.
Qed.

Lemma applyOps_snoc kv ops op : applyOps kv (ops ++ [op]) = applyOp (applyOps kv ops) op.
Proof. unfold applyOps. by rewrite foldl_app. Qed.

Lemma lastSeq_mono kv ops c : (lastSeq kv c ≤ lastSeq (applyOps kv ops) c)%Z.
Proof.
  revert kv. induction ops as [|op ops IH]; intros kv; simpl; [lia|].
  transitivity (lastSeq (applyOp kv op) c); [|apply IH].
  destruct (applyOp_spec kv op) as [_ ->]. case_decide; lia.
Qed.

(** ** Exactly once *)

(** The sequence number of a client after a log in client order. *)
Lemma lastSeq_applied kv ops :
  (∀ c, lastSeq kv c = 0%Z) → client_order ops →
  ∀ op, (0 < op_SeqNum op)%Z →
    (lastSeq (applyOps kv ops) (op_ClientId op) < op_SeqNum op ↔
     ∀ op', op' ∈ ops → op_ClientId op' = op_ClientId op → op_SeqNum op' < op_SeqNum op)%Z.
Proof.
  intros H0. induction ops as [|x ops IH] using rev_ind; intros Ho op Hop.
  { simpl. rewrite H0. split; [by intros _ ? ?%elem_of_nil|lia]. }
  assert (Hpre : client_order ops).
  { intros l1 o l2 ->. apply (Ho l1 o (l2 ++ [x])). by rewrite <-app_assoc. }
  rewrite applyOps_snoc. destruct (applyOp_spec (applyOps kv ops) x) as [_ ->].
  specialize (IH Hpre op Hop). setoid_rewrite elem_of_app. setoid_rewrite list_elem_of_singleton.
  case_decide as Hc; [|naive_solver]. rewrite Z.max_lub_lt_iff, IH. naive_solver.
Qed.

Lemma client_order_fresh ops op :
  client_order (ops ++ [op]) →
  ((∀ op', op' ∈ ops → op_ClientId op' = op_ClientId op → (op_SeqNum op' < op_SeqNum op)%Z) ↔ op ∉ ops).
Proof.
  intros Ho. destruct (Ho ops op [] ltac:(done)) as [_ Hin]. split.
  - intros Hall Hop. specialize (Hall op Hop eq_refl). lia.
  - intros Hop op' Hop' Hc. by destruct (Hin op' Hop' Hc) as [[?|?] _].
Qed.

Lemma first_occurrences_snoc seen ops op :
  first_occurrences seen (ops ++ [op]) =
  first_occurrences seen ops ++ if decide (op ∈ seen ∨ op ∈ ops) then [] else [op].
Proof.
  revert seen. induction ops as [|x ops IH]; intros seen; simpl.
  - destruct (decide (op ∈ seen)) as [?|?].
    + by rewrite decide_True by auto.
    + rewrite decide_False; [done|]. intros [?|?%elem_of_nil]; done.
  - destruct (decide (x ∈ seen)) as [Hx|Hx]; rewrite IH; simpl; do 2 f_equal;
      repeat case_decide; set_solver.
Qed.

Lemma store_replay kv ops :
  (∀ c, lastSeq kv c = 0%Z) → client_order ops →
  store (applyOps kv ops) = foldl spec_op (store kv) (first_occurrences [] ops).
Proof.
  intros H0. induction ops as [|op ops IH] using rev_ind; intros Ho; [done|].
  assert (Hpre : client_order ops).
  { intros l1 o l2 ->. apply (Ho l1 o (l2 ++ [op])). by rewrite <-app_assoc. }
  specialize (IH Hpre). destruct (Ho ops op [] ltac:(done)) as [Hpos _].
  rewrite applyOps_snoc. destruct (applyOp_spec (applyOps kv ops) op) as [-> _].
  rewrite first_occurrences_snoc, foldl_app, <-IH.
  pose proof (lastSeq_applied kv ops H0 Hpre op Hpos) as Hiff.
  rewrite (client_order_fresh _ _ Ho) in Hiff.
  case_bool_decide as Hlt; case_decide as Hin; simpl; try done.
  - destruct Hin as [?%elem_of_nil|?]; [done|]. by apply Hiff in Hlt.
  - destruct Hlt. apply Hiff. tauto.
Qed.

Lemma lastSeq_covers kv ops op :
  op ∈ ops → (op_SeqNum op ≤ lastSeq (applyOps kv ops) (op_ClientId op))%Z.
Proof.
  intros (l1 & l2 & ->)%list_elem_of_split. unfold applyOps. rewrite foldl_app. simpl.
  etransitivity; [|apply lastSeq_mono].
  destruct (applyOp_spec (foldl applyOp kv l1) op) as [_ ->]. rewrite decide_True by done. lia.
Qed.

(** C11: exactly once.  If clients issue requests one after the other and
    may retransmit each any number of times, the store after the log is the
    result of executing every distinct request once, in the order of first
    occurrence; and a client's sequence number is at least that of every
    request it has in the log. *)
Theorem exactly_once kv ops :
  (∀ c, lastSeq kv c = 0%Z) → client_order ops →
  store (applyOps kv ops) = foldl spec_op (store kv) (first_occurrences [] ops) ∧
  ∀ op, op ∈ ops → (op_SeqNum op ≤ lastSeq (applyOps kv ops) (op_ClientId op))%Z.
Proof. intros ? ?. split; [by apply store_replay|]. intros op. apply lastSeq_covers. Qed.
(** ** A replica and the agreed log *)

(** What happens at a server: the applier takes a message from Raft, a
    handler runs up to its wait, or the Raft peer does something. *)
Inductive kv_run (kv0 : KVServer) : list (ApplyMsg Op) → KVServer → Prop :=
| run_start : kv_run kv0 [] kv0
| run_apply tr kv m kv' :
    kv_run kv0 tr kv → kv_applier kv m = Ok kv' → kv_run kv0 (tr ++ [m]) kv'
| run_operate tr kv op kv' r :
    kv_run kv0 tr kv → operate_start kv op = (kv', r) → kv_run kv0 tr kv'
| run_raft tr kv rf :
    kv_run kv0 tr kv → kv_run kv0 tr (kv_set_rf kv rf).

(** A server that has applied nothing. *)
Definition pristine kv : Prop := store kv = ∅ ∧ ∀ c, lastSeq kv c = 0%Z.

(** [snap] is what a server that applied the first [index] requests of the
    agreed log [ops] puts into its snapshot. *)
Definition snapshot_agrees (ops : list Op) (snap : bytes) (index : Z) : Prop :=
  (0 ≤ index ≤ zlen ops)%Z ∧
  ∃ kv0 kv, pristine kv0 ∧ kv_equiv kv (applyOps kv0 (take (Z.to_nat index) ops)) ∧
    snap = snapshotBytes kv index.

(** A message from Raft carries the agreed request of its index, or the
    snapshot of a server that applied the agreed requests. *)
Definition msg_agrees (ops : list Op) (m : ApplyMsg Op) : Prop :=
  if SnapshotValid m then snapshot_agrees ops (msgSnapshot m) (SnapshotIndex m)
  else (1 ≤ CommandIndex m)%Z ∧ ∃ op,
    ops !! Z.to_nat (CommandIndex m - 1) = Some op ∧ msgCommand m = Some op.

Lemma in_order_snoc_inv from (tr : list (ApplyMsg Op)) m :
  in_order from (tr ++ [m]) → in_order from tr ∧
  (if SnapshotValid m then (default from (msg_index <$> last tr) < SnapshotIndex m)%Z
   else CommandValid m = true ∧ CommandIndex m = (default from (msg_index <$> last tr) + 1)%Z).
Proof.
  revert from. induction tr as [|x tr IH]; intros from; simpl; [tauto|].
  intros [Hx Htr]. destruct (IH _ Htr) as [? Hm]. split; [done|].
  destruct (last tr) as [y|] eqn:E; simpl in Hm.
  - destruct tr; [done|]. by rewrite last_cons_cons, E.
  - apply last_None in E. by subst.
Qed.

Lemma trace_index_default (tr : list (ApplyMsg Op)) :
  trace_index tr = default 0%Z (msg_index <$> last tr).
Proof. unfold trace_index. by destruct (last tr). Qed.

Lemma restoreClients_store kv l : store (restoreClients kv l) = store kv.
Proof.
  revert kv. induction l as [|[c n] l IH]; intros kv; [done|]. unfold restoreClients; simpl.
  etransitivity; [apply IH|]. by destruct (getClientStatus_equiv kv c).
Qed.

Lemma restoreClients_rf kv l : kv_rf (restoreClients kv l) = kv_rf kv.
Proof.
  revert kv. induction l as [|[c n] l IH]; intros kv; [done|]. unfold restoreClients; simpl.
  etransitivity; [apply IH|]. unfold getClientStatus. by destruct (clientsStatus kv !! c).
Qed.

(** The order in which the decoded map is visited does not matter. *)
Lemma restoreClients_spec kv (l : list (Z * Z)) c :
  NoDup l.*1 → lastSeq (restoreClients kv l) c = default (lastSeq kv c) ((list_to_map l : gmap Z Z) !! c).
Proof.
  revert kv. induction l as [|[c' n] l IH]; intros kv Hnd; [done|]. simpl in *.
  apply NoDup_cons in Hnd as [Hc Hnd].
  change (restoreClients kv ((c', n) :: l)) with
    (restoreClients (setClientSeqNum (fst (getClientStatus kv c')) c' n) l).
  rewrite (IH _ Hnd), setClientSeqNum_spec. destruct (decide (c = c')) as [->|Hne].
  - by rewrite lookup_insert_eq, not_elem_of_list_to_map_1.
  - by rewrite lookup_insert_ne.
Qed.

Lemma applySnap_spec `{!GobOk KVSnapshot} kv kvs index :
  ∃ kv', applySnap kv (snapshotBytes kvs index) index = Ok kv' ∧ store kv' = store kvs ∧
    kv_rf kv' = kv_rf kv ∧
    ∀ c, lastSeq kv' c = default (lastSeq kv c) (clientsStatus kvs !! c).
Proof.
  unfold applySnap, snapshotBytes. rewrite bool_decide_false by apply gob_nonempty.
  rewrite gob_roundtrip, (bool_decide_false (index ≠ index)) by (intros H; by apply H).
  rewrite andb_false_r. eexists. split; [done|]. rewrite restoreClients_store. split_and!; [done| |].
  - by rewrite restoreClients_rf.
  - intros c. rewrite restoreClients_spec by apply NoDup_fst_map_to_list.
    by rewrite list_to_map_to_list, clientsSeqNum_id.
Qed.
Lemma applyOps_take_S kv ops n op :
  ops !! n = Some op → applyOps kv (take (S n) ops) = applyOp (applyOps kv (take n ops)) op.
Proof. intros H. by rewrite (take_S_r _ _ _ H), applyOps_snoc. Qed.

Lemma applyOps_le kv ops n1 n2 c :
  n1 ≤ n2 → (lastSeq (applyOps kv (take n1 ops)) c ≤ lastSeq (applyOps kv (take n2 ops)) c)%Z.
Proof.
  intros Hle. rewrite <-(take_drop n1 (take n2 ops)), take_take, Nat.min_l by done.
  unfold applyOps at 2. rewrite foldl_app. apply lastSeq_mono.
Qed.

(** Servers that have applied nothing apply alike. *)
Lemma applyOps_equiv kv1 kv2 ops : kv_equiv kv1 kv2 → kv_equiv (applyOps kv1 ops) (applyOps kv2 ops).
Proof.
  revert kv1 kv2. induction ops as [|op ops IH]; intros kv1 kv2 H; [done|].
  apply IH. by apply applyOp_proper.
Qed.

Lemma pristine_equiv kv1 kv2 : pristine kv1 → pristine kv2 → kv_equiv kv1 kv2.
Proof. intros [Hs1 H1] [Hs2 H2]. split; [congruence|]. intros c. by rewrite H1, H2. Qed.

(** A snapshot of the agreed log brings any server at an earlier point to
    the snapshot's point. *)
Lemma applySnap_agrees `{!GobOk KVSnapshot} kv0 kv ops n snap index :
  pristine kv0 → kv_equiv kv (applyOps kv0 (take n ops)) → (Z.of_nat n ≤ index)%Z →
  snapshot_agrees ops snap index →
  ∃ kv', applySnap kv snap index = Ok kv' ∧ kv_rf kv' = kv_rf kv ∧
    kv_equiv kv' (applyOps kv0 (take (Z.to_nat index) ops)).
Proof.
  intros H0 [_ Hkv] Hn (Hi & kv1 & kvs & H1 & [Hss Hsl] & ->).
  destruct (applySnap_spec kv kvs index) as (kv' & Ha & Hst & Hrf & Hl).
  destruct (applyOps_equiv kv1 kv0 (take (Z.to_nat index) ops) (pristine_equiv _ _ H1 H0)) as [He1 He2].
  exists kv'. split_and!; [done..|]. split; [congruence|]. intros c. rewrite Hl, <-He2, <-Hsl.
  unfold lastSeq at 2. destruct (clientsStatus kvs !! c) eqn:E; [done|]. simpl.
  assert (lastSeq (applyOps kv0 (take (Z.to_nat index) ops)) c = 0%Z) as Hz.
  { rewrite <-He2, <-Hsl. unfold lastSeq. by rewrite E. }
  pose proof (applyOps_le kv0 ops n (Z.to_nat index) c ltac:(lia)).
  pose proof (lastSeq_mono kv0 (take n ops) c) as Hm. destruct H0 as [_ H0]. rewrite H0 in Hm.
  rewrite Hkv. lia.
Qed.

Lemma snapshot_frame kv i kv' : snapshot kv i = Ok kv' → kv_equiv kv' kv.
Proof. unfold snapshot. intros H. res_inv. done. Qed.

(** The applier on a message that agrees with the log. *)
Lemma kv_applier_agrees `{!GobOk KVSnapshot} kv0 kv ops n m kv' :
  pristine kv0 → kv_equiv kv (applyOps kv0 (take (Z.to_nat n) ops)) → (0 ≤ n)%Z →
  msg_agrees ops m →
  (if SnapshotValid m then (n < SnapshotIndex m)%Z
   else CommandValid m = true ∧ CommandIndex m = (n + 1)%Z) →
  kv_applier kv m = Ok kv' →
  kv_equiv kv' (applyOps kv0 (take (Z.to_nat (msg_index m)) ops)).
Proof.
  intros H0 Hkv Hn Hm Hnext Happ. unfold kv_applier, msg_agrees, msg_index in *.
  destruct (SnapshotValid m).
  - destruct (applySnap_agrees kv0 kv ops (Z.to_nat n) (msgSnapshot m) (SnapshotIndex m) H0 Hkv ltac:(lia) Hm) as (kv2 & Ha & _ & He).
    congruence.
  - destruct Hnext as [Hcv Hci], Hm as (_ & op & Hop & Hcmd). rewrite Hcv, Hcmd in Happ.
    rewrite Hci in Hop |- *. replace (n + 1 - 1)%Z with n in Hop by lia.
    replace (Z.to_nat (n + 1)) with (S (Z.to_nat n)) by lia. rewrite (applyOps_take_S _ _ _ _ Hop), <-Hkv.
    destruct (_ && _); [by eapply snapshot_frame|by simplify_eq].
Qed.

Lemma operate_start_equiv kv op : kv_equiv (fst (operate_start kv op)) kv.
Proof.
  unfold operate_start. pose proof (getClientStatus_equiv kv (op_ClientId op)) as He.
  destruct (getClientStatus kv (op_ClientId op)) as [kv1 last]; simpl in He.
  destruct (done _ _); [done|]. destruct (Start _ _) as [rf [[? ?] ok]]. done.
Qed.

Lemma replica_run `{!GobOk KVSnapshot} kv0 kv tr ops :
  pristine kv0 → kv_run kv0 tr kv → in_order 0 tr → Forall (msg_agrees ops) tr →
  kv_equiv kv (applyOps kv0 (take (Z.to_nat (trace_index tr)) ops)) ∧ (0 ≤ trace_index tr)%Z.
Proof.
  intros H0 Hrun. induction Hrun as [|tr kv m kv' Hrun IH Happ|tr kv op kv' r Hrun IH Hop|tr kv rf Hrun IH];
    intros Ho Hall; [done|..].
  - apply in_order_snoc_inv in Ho as [Ho Hnext]. apply Forall_app in Hall as [Hall Hm].
    apply Forall_cons_1 in Hm as [Hm _]. destruct (IH Ho Hall) as [Hkv Hge].
    rewrite <-trace_index_default in Hnext.
    assert (trace_index (tr ++ [m]) = msg_index m) as -> by (unfold trace_index; by rewrite last_snoc).
    split; [by eapply (kv_applier_agrees kv0 kv ops (trace_index tr))|].
    unfold msg_index. destruct (SnapshotValid m); lia.
  - pose proof (operate_start_equiv kv op) as He. rewrite Hop in He; simpl in He.
    destruct (IH Ho Hall) as [<- ?]. done.
  - by apply IH.
Qed.

(** C12: replicas agree.  A server that started empty and received, in any
    mixture that Raft's in-order delivery allows, commands of the agreed log
    and snapshots taken by servers that applied the agreed log, has exactly
    the store and the client table of applying the agreed requests up to
    the last index delivered, whatever handlers ran in between.  So two
    servers at the same index agree. *)
Theorem replicas_agree `{!GobOk KVSnapshot} kv0 kv1 kv2 tr1 tr2 ops :
  pristine kv0 → kv_run kv0 tr1 kv1 → kv_run kv0 tr2 kv2 →
  in_order 0 tr1 → in_order 0 tr2 → Forall (msg_agrees ops) tr1 → Forall (msg_agrees ops) tr2 →
  kv_equiv kv1 (applyOps kv0 (take (Z.to_nat (trace_index tr1)) ops)) ∧
  (trace_index tr1 = trace_index tr2 → kv_equiv kv1 kv2).
Proof.
  intros H0 Hr1 Hr2 Ho1 Ho2 Ha1 Ha2.
  destruct (replica_run _ _ _ _ H0 Hr1 Ho1 Ha1) as [He1 _], (replica_run _ _ _ _ H0 Hr2 Ho2 Ha2) as [He2 _].
  split; [done|]. intros Heq. by rewrite He1, He2, Heq.
Qed.
(** The applier does not panic, and the snapshots it takes are good for
    other servers.  On a message that agrees with the log and continues in
    order, while the Raft log still holds the command's entry, [applier]
    returns; the Raft peer stays well formed; and the snapshot it then holds
    is the old one or that of the agreed log at the command's index. *)
Theorem kv_applier_safe `{!GobOk KVSnapshot} kv0 kv ops n m :
  pristine kv0 → kv_equiv kv (applyOps kv0 (take (Z.to_nat n) ops)) → (0 ≤ n)%Z →
  msg_agrees ops m →
  (if SnapshotValid m then (n < SnapshotIndex m)%Z
   else CommandValid m = true ∧ CommandIndex m = (n + 1)%Z) →
  raft_wf (kv_rf kv) → (CommandIndex m ≤ lastIndex (log (kv_rf kv)))%Z →
  ∃ kv', kv_applier kv m = Ok kv' ∧ raft_wf (kv_rf kv') ∧
    (RaftCore.snapshot (kv_rf kv') = RaftCore.snapshot (kv_rf kv) ∨
     snapshotIndex (kv_rf kv') = CommandIndex m ∧
     snapshot_agrees ops (RaftCore.snapshot (kv_rf kv')) (CommandIndex m)).
Proof.
  intros H0 Hkv Hn Hm Hnext Hwf Hi. unfold kv_applier, msg_agrees in *.
  destruct (SnapshotValid m).
  { destruct (applySnap_agrees kv0 kv ops (Z.to_nat n) (msgSnapshot m) (SnapshotIndex m) H0 Hkv ltac:(lia) Hm)
      as (kv2 & Ha & Hrf & _). exists kv2. rewrite Hrf. auto. }
  destruct Hnext as [Hcv Hci], Hm as (_ & op & Hop & Hcmd). rewrite Hcv, Hcmd.
  assert (Hrf : kv_rf (applyOp kv op) = kv_rf kv).
  { unfold applyOp, getClientStatus. by destruct (clientsStatus kv !! op_ClientId op); repeat case_match. }
  destruct (_ && _); [|exists (applyOp kv op); rewrite Hrf; auto].
  unfold snapshot. rewrite Hrf. set (snap := snapshotBytes _ _).
  destruct (decide (CommandIndex m ≤ snapshotIndex (kv_rf kv))%Z) as [Hle|Hgt].
  { unfold Snapshot. rewrite bool_decide_true by done. simpl. eexists. split; [done|]. auto. }
  destruct (Snapshot_run (kv_rf kv) (CommandIndex m) snap Hwf ltac:(lia)) as (e & l' & _ & _ & HS).
  rewrite HS. simpl. eexists. split; [done|]. split; [by eapply Snapshot_wf|].
  right. simpl. split; [done|]. rewrite Hci in Hop. replace (n + 1 - 1)%Z with n in Hop by lia.
  pose proof (lookup_lt_Some _ _ _ Hop). split; [unfold zlen; lia|].
  exists kv0, (applyOp kv op). split_and!; [done| |done].
  rewrite Hci. replace (Z.to_nat (n + 1)) with (S (Z.to_nat n)) by lia.
  by rewrite (applyOps_take_S _ _ _ _ Hop), <-Hkv.
Qed.

Lemma lastSeq_source kv0 ops c k :
  pristine kv0 → (0 < k ≤ lastSeq (applyOps kv0 ops) c)%Z →
  ∃ op, op ∈ ops ∧ op_ClientId op = c ∧ (k ≤ op_SeqNum op)%Z.
Proof.
  intros [_ H0] Hk. induction ops as [|op ops IH] using rev_ind; [simpl in Hk; rewrite H0 in Hk; lia|].
  rewrite applyOps_snoc in Hk. destruct (applyOp_spec (applyOps kv0 ops) op) as [_ Hl]. rewrite Hl in Hk.
  destruct (decide (k ≤ lastSeq (applyOps kv0 ops) c)%Z).
  - destruct IH as (op' & ? & ? & ?); [lia|]. exists op'. split_and!; [by apply elem_of_app; left|done..].
  - exists op. case_decide; [|lia]. split_and!; [apply elem_of_app; right; left|done|lia].
Qed.

(** What a successful Get returns.  When the wait of a Get handler is
    over, its value is that of the key in the abstract map after a prefix of
    the agreed log, and that prefix contains a request of the same client
    with this or a later sequence number: the Get is answered from a state
    that is not older than its own place in the log. *)
Theorem get_from_log `{!GobOk KVSnapshot} kv0 kv tr ops args :
  pristine kv0 → kv_run kv0 tr kv → in_order 0 tr → Forall (msg_agrees ops) tr →
  client_order ops → (0 < ga_SeqNum args)%Z → operate_ready kv (Get_op args) = true →
  ∃ n, n = Z.to_nat (trace_index tr) ∧
    Get_reply kv args true = mkGetReply OK
      (default EmptyString (foldl spec_op ∅ (first_occurrences [] (take n ops)) !! ga_Key args)) ∧
    ∃ op, op ∈ take n ops ∧ op_ClientId op = ga_ClientId args ∧ (ga_SeqNum args ≤ op_SeqNum op)%Z.
Proof.
  intros H0 Hrun Ho Hall Hord Hpos Hready. destruct (replica_run _ _ _ _ H0 Hrun Ho Hall) as [[Hs Hl] _].
  exists (Z.to_nat (trace_index tr)). split; [done|].
  assert (Hpre : client_order (take (Z.to_nat (trace_index tr)) ops)).
  { intros l1 o l2 Heq. apply (Hord l1 o (l2 ++ drop (Z.to_nat (trace_index tr)) ops)).
    rewrite <-(take_drop (Z.to_nat (trace_index tr)) ops) at 1. by rewrite Heq, <-app_assoc. }
  split.
  - unfold Get_reply, Store.get. rewrite Hs, (store_replay kv0); [|by apply H0|done].
    destruct H0 as [-> _]. by destruct (foldl _ _ _ !! _).
  - unfold operate_ready in Hready. rewrite getClientStatus_snd in Hready.
    unfold done in Hready. apply bool_decide_eq_true in Hready. simpl in Hready. rewrite Hl in Hready.
    eapply lastSeq_source; [done|lia].
Qed.

(** The handlers up to their wait.  [operate] changes neither the store
    nor any sequence number; it returns at once exactly when the request was
    applied already; otherwise it puts the request at the end of the leader's
    log and waits, or reports that this server is not the leader and leaves
    the Raft peer alone. *)
Theorem operate_start_spec kv op :
  let '(kv', r) := operate_start kv op in
  kv_equiv kv' kv ∧
  match r with
  | OpDone => (op_SeqNum op ≤ lastSeq kv (op_ClientId op))%Z ∧ kv_rf kv' = kv_rf kv
  | OpWait => (lastSeq kv (op_ClientId op) < op_SeqNum op)%Z ∧ role (kv_rf kv) = LEADER ∧
      log (kv_rf kv') = append (log (kv_rf kv)) [mkEntry (currentTerm (kv_rf kv)) (Some op)]
  | OpNotLeader => (lastSeq kv (op_ClientId op) < op_SeqNum op)%Z ∧ role (kv_rf kv) ≠ LEADER ∧
      kv_rf kv' = kv_rf kv
  end.
Proof.
  pose proof (operate_start_equiv kv op) as He. destruct (operate_start kv op) as [kv' r] eqn:E.
  split; [done|]. unfold operate_start in E. pose proof (getClientStatus_snd kv (op_ClientId op)) as Hl.
  assert (kv_rf (fst (getClientStatus kv (op_ClientId op))) = kv_rf kv) as Hrf.
  { unfold getClientStatus. by destruct (clientsStatus kv !! op_ClientId op). }
  destruct (getClientStatus kv (op_ClientId op)) as [kv1 last]; simpl in *. subst last.
  unfold done in E. case_bool_decide; [simplify_eq; split; [lia|done]|].
  unfold Start in E. rewrite Hrf in E. case_bool_decide; simplify_eq; (split; [lia|done]).
Qed.
End KVRaft.
