(* ===== verification/Clerk.v ===== *)
(** * The clerks (src/kvraft/client.go, src/shardctrler/client.go)

    A clerk numbers its requests and looks for the leader.  Its [call] loop
    starts one call per iteration, to the servers in turn from the last
    known leader on, and waits for a reply of any call or a timeout.  What
    the channels deliver, one event per iteration, is an argument: [Got id r]
    is the reply [r] of server [id], [TimeOut] the timer.  [call_loop] is the
    loop both clerks share; it also returns the servers it called.

    Theorems: any [n] consecutive iterations call every server; when only
    the leader accepts, the loop returns the leader's reply within [n]
    iterations and remembers it; sequence numbers are fresh; and a clerk of
    a KVServer never panics on a reply. *)

From stdpp Require Import strings base gmap list.
From Stdlib Require Import ZArith Lia.
From S2P Require Import Prelude RaftCore KVRaft.

Section call.
Context {R : Type} (wrongLeader : R → bool).

Inductive CallEvent : Type :=
| Got (serverID : Z) (reply : R)
| TimeOut.

(** The server called in iteration [off]. *)
Definition target (leaderId off n : Z) : Z := Z.rem (leaderId + off) n.

(** [None]: the loop is still waiting in its select statement.  A clerk
    without servers panics on the division. *)
Fixpoint call_loop (n leaderId off : Z) (events : list CallEvent) : Res (list Z * option (Z * R)) :=
  if bool_decide (n = 0)%Z then Panic
  else
    let id := target leaderId off n in
    match events with
    | [] => Ok ([id], None)
    | Got sid r :: events =>
        if wrongLeader r then
          '(ids, res) ← call_loop n leaderId (off + 1) events; Ok (id :: ids, res)
        else Ok ([id], Some (sid, r))
    | TimeOut :: events =>
        '(ids, res) ← call_loop n leaderId (off + 1) events; Ok (id :: ids, res)
    end.

(** ** Lemmas *)

Lemma target_range leaderId off n :
  (0 ≤ leaderId)%Z → (0 ≤ off)%Z → (0 < n)%Z → (0 ≤ target leaderId off n < n)%Z.
Proof. intros. unfold target. rewrite Z.rem_mod_nonneg by lia. apply Z.mod_pos_bound. lia. Qed.

(** Some iteration within the next [n] calls server [s]. *)
Lemma target_cover leaderId off n s :
  (0 ≤ leaderId)%Z → (0 ≤ off)%Z → (0 ≤ s < n)%Z →
  ∃ k, (0 ≤ k < n)%Z ∧ target leaderId (off + k) n = s.
Proof.
  intros Hl Ho Hs. exists ((s - leaderId - off) mod n)%Z.
  pose proof (Z.mod_pos_bound (s - leaderId - off) n ltac:(lia)). split; [lia|].
  unfold target. rewrite Z.rem_mod_nonneg by lia.
  rewrite Z.add_assoc, Zplus_mod_idemp_r.
  replace (leaderId + off + (s - leaderId - off))%Z with s by lia. apply Z.mod_small. lia.
Qed.

Lemma call_loop_result n leaderId off events ids sid r :
  call_loop n leaderId off events = Ok (ids, Some (sid, r)) →
  wrongLeader r = false ∧ Got sid r ∈ events.
Proof.
  revert off ids. induction events as [|ev events IH]; intros off ids H; simpl in H; case_bool_decide; try done.
  destruct ev as [sid' r'|].
  - destruct (wrongLeader r') eqn:E; res_inv.
    + destruct x as [ids' res]. simplify_eq. destruct (IH _ _ E0). split; [done|by right].
    + split; [done|by left].
  - res_inv. destruct x as [ids' res]. simplify_eq. destruct (IH _ _ E). split; [done|by right].
Qed.

(** Every server answers the call made to it; only [s] accepts. *)
Definition answers (leaderId off n : Z) (answer : Z → R) (len : nat) : list CallEvent :=
  (λ k, let id := target leaderId (off + Z.of_nat k) n in Got id (answer id)) <$> seq 0 len.

Lemma answers_S leaderId off n answer len :
  answers leaderId off n answer (S len) =
  Got (target leaderId off n) (answer (target leaderId off n)) :: answers leaderId (off + 1) n answer len.
Proof.
  unfold answers. simpl. rewrite Z.add_0_r. f_equal. rewrite <-fmap_S_seq, <-list_fmap_compose.
  apply list_fmap_ext. intros i x _. simpl. by replace (off + Z.of_nat (S x))%Z with (off + 1 + Z.of_nat x)%Z by lia.
Qed.

Lemma call_loop_finds n leaderId answer s off k len :
  (0 ≤ leaderId)%Z → (0 ≤ off)%Z → (0 < n)%Z →
  (∀ id, (0 ≤ id < n)%Z → wrongLeader (answer id) = false ↔ id = s) →
  (0 ≤ k)%Z → target leaderId (off + k) n = s → (Z.to_nat k < len)%nat →
  ∃ ids, call_loop n leaderId off (answers leaderId off n answer len) = Ok (ids, Some (s, answer s)) ∧
    (length ids ≤ S (Z.to_nat k))%nat.
Proof.
  intros Hl Ho Hn Hans Hk. revert off k Ho Hk. induction len as [|len IH]; intros off k Ho Hk Hs Hlen; [lia|].
  rewrite answers_S. cbn [call_loop]. rewrite bool_decide_false by lia.
  pose proof (target_range leaderId off n Hl Ho Hn) as Hr. specialize (Hans _ Hr) as Hid.
  destruct (wrongLeader (answer (target leaderId off n))) eqn:E.
  - assert (k ≠ 0)%Z by (intros ->; rewrite Z.add_0_r in Hs; by apply Hid in Hs).
    destruct (IH (off + 1)%Z (k - 1)%Z) as (ids & Hc & Hlen'); [lia|lia| |lia|].
    { by replace (off + 1 + (k - 1))%Z with (off + k)%Z by lia. }
    rewrite Hc. simpl. eexists. split; [done|]. simpl. lia.
  - destruct Hid as [Hid _]. rewrite (Hid eq_refl). eexists. split; [done|]. simpl. lia.
Qed.
End call.

Arguments CallEvent R : clear implicits.
Arguments Got {R}.
Arguments TimeOut {R}.

(** ** The clerk of the key/value service *)

Record Clerk : Type := mkClerk {
  ck_nservers : Z; (* len(ck.servers) *)
  ck_seqNum : Z;
  ck_clientId : Z;
  ck_leaderId : Z;
}.

(** [nrand] is a number below 2^62 drawn at random: the argument. *)
Definition nrand (random : Z) : Z := (random mod 2 ^ 62)%Z.

Definition MakeClerk (nservers random : Z) : Clerk := mkClerk nservers 0 (nrand random) 0.

(** [atomic.AddInt64(&ck.seqNum, 1)] *)
Definition nextSeq (ck : Clerk) : Clerk * Z :=
  let n := wrap64 (ck_seqNum ck + 1) in
  (mkClerk (ck_nservers ck) n (ck_clientId ck) (ck_leaderId ck), n).

(** [call]: the clerk afterwards, the servers called, and the reply. *)
Definition call {R} (wrongLeader : R → bool) (ck : Clerk) (events : list (CallEvent R))
    : Res (Clerk * list Z * option R) :=
  '(ids, res) ← call_loop wrongLeader (ck_nservers ck) (ck_leaderId ck) 0 events;
  match res with
  | Some (sid, r) => Ok (mkClerk (ck_nservers ck) (ck_seqNum ck) (ck_clientId ck) sid, ids, Some r)
  | None => Ok (ck, ids, None)
  end.

Definition getWrongLeader (r : GetReply) : bool := bool_decide (gr_Err r = ErrWrongLeader).
Definition putWrongLeader (r : PutAppendReply) : bool := bool_decide (par_Err r = ErrWrongLeader).

(** The request sent, and the value returned ([None] while waiting). *)
Definition clerk_Get (ck : Clerk) (key : string) (events : list (CallEvent GetReply))
    : Res (Clerk * GetArgs * option string) :=
  let '(ck, n) := nextSeq ck in
  let args := mkGetArgs key n (ck_clientId ck) in
  x ← call getWrongLeader ck events;
  let '(ck, _, res) := x in
  Ok (ck, args, option_map (λ r, if bool_decide (gr_Err r = OK) then gr_Value r else EmptyString) res).

Definition clerk_PutAppend (ck : Clerk) (key value op : string) (events : list (CallEvent PutAppendReply))
    : Res (Clerk * PutAppendArgs * option unit) :=
  let '(ck, n) := nextSeq ck in
  let args := mkPutAppendArgs key value op n (ck_clientId ck) in
  x ← call putWrongLeader ck events;
  let '(ck, _, res) := x in
  match res with
  | None => Ok (ck, args, None)
  | Some r => if bool_decide (par_Err r = OK) then Ok (ck, args, Some tt) else Panic
  end.

Definition clerk_Put ck key value events := clerk_PutAppend ck key value PUT events.
Definition clerk_Append ck key value events := clerk_PutAppend ck key value APPEND events.

Definition clerk_wf (ck : Clerk) : Prop :=
  (0 < ck_nservers ck)%Z ∧ (0 ≤ ck_leaderId ck < ck_nservers ck)%Z.

(** The clerk finds the leader.  If every server answers and only [s]
    does not report a wrong leader, [call] returns the answer of [s] after
    at most as many iterations as there are servers, and remembers [s], so
    that the next call goes to [s] first. *)
Theorem call_finds_leader {R} (wrongLeader : R → bool) ck answer s :
  clerk_wf ck → (0 ≤ s < ck_nservers ck)%Z →
  (∀ id, (0 ≤ id < ck_nservers ck)%Z → wrongLeader (answer id) = false ↔ id = s) →
  ∃ ids, call wrongLeader ck
      (answers (ck_leaderId ck) 0 (ck_nservers ck) answer (Z.to_nat (ck_nservers ck))) =
    Ok (mkClerk (ck_nservers ck) (ck_seqNum ck) (ck_clientId ck) s, ids, Some (answer s)) ∧
    (zlen ids ≤ ck_nservers ck)%Z ∧ target s 0 (ck_nservers ck) = s.
Proof.
  intros [Hn Hl] Hs Hans.
  destruct (target_cover (ck_leaderId ck) 0 (ck_nservers ck) s) as (k & Hk & Ht); [lia..|].
  destruct (call_loop_finds wrongLeader (ck_nservers ck) (ck_leaderId ck) answer s 0 k
    (Z.to_nat (ck_nservers ck))) as (ids & Hc & Hlen); [lia..|done|lia|done|lia|].
  exists ids. unfold call. rewrite Hc. simpl. split_and!; [done|unfold zlen; lia|].
  unfold target. rewrite Z.add_0_r. rewrite Z.rem_small; lia.
Qed.

(** A PutAppend of the clerk never panics and is acknowledged only by a
    server that executed the request: whatever replies of KVServers and
    timeouts arrive in whatever order, [PutAppend] returns or keeps trying,
    the clerk stays well formed, and the request has a sequence number above
    all earlier ones of this client. *)
Theorem clerk_PutAppend_safe ck key value op events :
  clerk_wf ck → (0 ≤ ck_seqNum ck < 2 ^ 63 - 1)%Z →
  (∀ sid r, Got sid r ∈ events →
     (0 ≤ sid < ck_nservers ck)%Z ∧ ∃ isLeader, r = PutAppend_reply isLeader) →
  ∃ ck' res, clerk_PutAppend ck key value op events =
      Ok (ck', mkPutAppendArgs key value op (ck_seqNum ck + 1) (ck_clientId ck), res) ∧
    clerk_wf ck' ∧ ck_seqNum ck' = (ck_seqNum ck + 1)%Z ∧ ck_clientId ck' = ck_clientId ck ∧
    (res = Some tt → ∃ sid, Got sid (PutAppend_reply true) ∈ events).
Proof.
  intros [Hn Hl] Hseq Hev. unfold clerk_PutAppend, nextSeq, call; simpl. rewrite wrap64_id by lia.
  assert (Htot : ∀ off events', ∃ p, call_loop putWrongLeader (ck_nservers ck) (ck_leaderId ck) off events' = Ok p).
  { intros off events'. revert off. induction events' as [|ev evs IH]; intros off; simpl;
      rewrite bool_decide_false by lia; [by eexists|].
    destruct (IH (off + 1)%Z) as [[ids res] ->]. destruct ev as [sid r|]; [destruct (putWrongLeader r)|]; by eexists. }
  destruct (Htot 0%Z events) as [[ids res] Hc]. rewrite Hc. simpl.
  destruct res as [[sid r]|]; simpl; [|eexists _, _; by split_and!].
  apply call_loop_result in Hc as [Hw Hin]. destruct (Hev sid r Hin) as [Hsid [b ->]].
  unfold putWrongLeader in Hw. apply bool_decide_eq_false in Hw. destruct b; [|done].
  rewrite bool_decide_true by done. eexists _, _. split_and!; [done..|]. by exists sid.
Qed.
