(* ===== verification/KVWitness.v ===== *)
(** * Concrete key/value servers and clerks

    The properties of [KVRaft] and [Clerk] at concrete inputs: two replicas,
    one fed with the commands of a log and one with a snapshot of it, a
    retransmitted request, and a clerk of three servers. *)

From stdpp Require Import strings countable base gmap list.
From Stdlib Require Import ZArith Lia.
From S2P Require Import Prelude RaftLog RaftCore RaftApply RaftNode RaftWitness KVRaft Clerk.

(** The Raft state is saved but not read back in these runs. *)
#[local] Instance gobOp : Gob (PState Op) := {| gob_encode _ := [Byte.x00]; gob_decode _ := None |}.
#[local] Instance gobKV : Gob KVSnapshot := countable_gob KVSnapshot.
#[local] Instance gobKV_ok : GobOk KVSnapshot := countable_gob_ok KVSnapshot.

(** Client 1 puts and appends; the append is in the log twice.  Client 2
    reads. *)
Definition opPut : Op := mkOp PUT "x" "a" 1 1.
Definition opApp : Op := mkOp APPEND "x" "b" 2 1.
Definition opGet : Op := mkOp GET "x" "" 1 2.
Definition opsA : list Op := [opPut; opApp; opApp; opGet].

Lemma opsA_order : client_order opsA.
Proof.
  intros l1 op l2 H. unfold opsA in H.
  destruct l1 as [|o1 [|o2 [|o3 [|o4 l1]]]]; cbn in H; injection H; intros; subst; try by destruct l1.
  all: split; [by vm_compute|].
  all: intros op' Hop' Hc; repeat (apply elem_of_cons in Hop' as [->|Hop']); try by apply elem_of_nil in Hop'.
  all: try (split; [by left; vm_compute|by vm_compute]).
  all: try (split; [right; right; left|done]).
  all: by vm_compute in Hc.
Qed.

(** A server whose Raft peer has the log, and that takes a snapshot after
    every command. *)
Definition logKV : Log Op := mkLog (zeroEntry :: (mkEntry 1 ∘ Some <$> opsA)) 0.
Definition kvStart : KVServer := mkKVServer 0 (examplePeer 0 LEADER 1 0 logKV) false 1 ∅ ∅.

Lemma kvStart_pristine : pristine kvStart.
Proof. done. Qed.

Lemma exactly_once_witness :
  store (applyOps kvStart opsA) !! "x" = Some "ab" ∧
  store (applyOps kvStart opsA) = foldl spec_op ∅ (first_occurrences [] opsA).
Proof. split; [reflexivity|]. by apply (exactly_once kvStart opsA); [|apply opsA_order]. Defined.

Definition cmd (i : Z) (op : Op) : ApplyMsg Op := mkApplyMsg true (Some op) i false [] 0 0.

(** The snapshot after the first three requests. *)
Definition snapA : bytes := snapshotBytes (applyOps kvStart (take 3 opsA)) 3.
Definition snapMsg : ApplyMsg Op := mkApplyMsg false None 0 true snapA 1 3.
Definition traceA : list (ApplyMsg Op) := [cmd 1 opPut; cmd 2 opApp; cmd 3 opApp].
Definition traceB : list (ApplyMsg Op) := [cmd 1 opPut; snapMsg].

Lemma snapA_agrees : snapshot_agrees opsA snapA 3.
Proof. split; [vm_compute; split; congruence|]. by exists kvStart, (applyOps kvStart (take 3 opsA)). Qed.

Lemma traceA_agrees : Forall (msg_agrees opsA) traceA.
Proof. repeat constructor; try (vm_compute; congruence); eexists; by split. Qed.

Lemma traceB_agrees : Forall (msg_agrees opsA) traceB.
Proof.
  apply Forall_cons; split; [by pose proof traceA_agrees as [? _]%Forall_cons|].
  apply Forall_singleton. exact snapA_agrees.
Qed.

(** A run that delivers a list of messages one after the other. *)
Lemma run_deliver kv ms kv' :
  foldM kv_applier kv ms = Ok kv' → kv_run kv ms kv'.
Proof.
  revert kv'. induction ms as [|m ms IH] using rev_ind; intros kv' H.
  - injection H as <-. constructor.
  - rewrite foldM_app in H. destruct (foldM kv_applier kv ms) as [kv1|] eqn:E; [|done].
    res_simpl. cbn [foldM] in H. destruct (kv_applier kv1 m) as [kv2|] eqn:E2; [|done].
    res_simpl. injection H as <-. by eapply run_apply; [apply IH|].
Qed.

Definition kvNoSnap : KVServer := mkKVServer 0 (examplePeer 0 LEADER 1 0 logKV) false (-1) ∅ ∅.

Lemma replicas_agree_witness :
  ∃ kv1 kv2, foldM kv_applier kvNoSnap traceA = Ok kv1 ∧ foldM kv_applier kvNoSnap traceB = Ok kv2 ∧
    kv_equiv kv1 kv2.
Proof.
  destruct (foldM kv_applier kvNoSnap traceA) as [kv1|] eqn:E1; [|vm_compute in E1; discriminate E1].
  destruct (foldM kv_applier kvNoSnap traceB) as [kv2|] eqn:E2; [|vm_compute in E2; discriminate E2].
  exists kv1, kv2. split_and!; [done..|].
  apply (replicas_agree kvNoSnap kv1 kv2 traceA traceB opsA);
    [done|by apply run_deliver..|repeat split|repeat split|apply traceA_agrees|apply traceB_agrees|reflexivity].
Defined.

(** With a limit of one byte the server takes a snapshot at once. *)
Lemma kv_applier_safe_witness :
  ∃ kv', kv_applier kvStart (cmd 1 opPut) = Ok kv' ∧ raft_wf (kv_rf kv') ∧
    snapshot_agrees opsA (RaftCore.snapshot (kv_rf kv')) 1.
Proof.
  destruct (kv_applier_safe kvStart kvStart opsA 0 (cmd 1 opPut)) as (kv' & H & Hwf & Hs);
    [done|done|lia|by pose proof traceA_agrees as [? _]%Forall_cons|done|by apply examplePeer_wf|by vm_compute|].
  exists kv'. split_and!; [done..|]. destruct Hs as [Hs|[_ Hs]]; [|exact Hs].
  exfalso. vm_compute in H. injection H as <-. vm_compute in Hs. discriminate Hs.
Defined.

(** Client 2 reads after the fourth command. *)
Definition traceG : list (ApplyMsg Op) := traceA ++ [cmd 4 opGet].

Lemma get_from_log_witness :
  ∃ kv, foldM kv_applier kvNoSnap traceG = Ok kv ∧
    Get_reply kv (mkGetArgs "x" 1 2) true = mkGetReply OK "ab".
Proof.
  destruct (foldM kv_applier kvNoSnap traceG) as [kv|] eqn:E; [|vm_compute in E; discriminate E].
  exists kv. split; [done|].
  assert (Hready : operate_ready kv (Get_op (mkGetArgs "x" 1 2)) = true).
  { vm_compute in E. injection E as <-. by vm_compute. }
  destruct (get_from_log kvNoSnap kv traceG opsA (mkGetArgs "x" 1 2)) as (n & -> & -> & _);
    [done|by apply run_deliver|by repeat split| |apply opsA_order|done|done|by vm_compute].
  apply Forall_app. split; [apply traceA_agrees|]. apply Forall_singleton. split; [done|]. by exists opGet.
Defined.

(** ** The clerk *)

Definition clerkA : Clerk := mkClerk 3 0 7 0.

Lemma clerkA_wf : clerk_wf clerkA.
Proof. by vm_compute. Qed.

Definition fromServer (id : Z) : PutAppendReply := PutAppend_reply (bool_decide (id = 2%Z)).

Lemma call_finds_leader_witness :
  ∃ ids, call (λ r, bool_decide (par_Err r = ErrWrongLeader)) clerkA
    (answers 0 0 3 fromServer 3) = Ok (mkClerk 3 0 7 2, ids, Some (fromServer 2)) ∧ (zlen ids ≤ 3)%Z.
Proof.
  destruct (call_finds_leader (λ r, bool_decide (par_Err r = ErrWrongLeader)) clerkA fromServer 2)
    as (ids & H & Hl & _); [apply clerkA_wf|done| |by exists ids].
  intros id Hid. unfold fromServer. split; [|by intros ->]. intros H. by destruct (decide (id = 2%Z)) as [|Hne];
    [|rewrite (bool_decide_false (id = 2%Z)) in H by done].
Defined.

Definition eventsA : list (@CallEvent PutAppendReply) := [Got 0 (PutAppend_reply false); Got 1 (PutAppend_reply true)].

Lemma clerk_PutAppend_safe_witness :
  ∃ ck', clerk_PutAppend clerkA "x" "a" PUT eventsA =
    Ok (ck', mkPutAppendArgs "x" "a" PUT 1 7, Some tt) ∧ clerk_wf ck'.
Proof.
  destruct (clerk_PutAppend_safe clerkA "x" "a" PUT eventsA) as (ck' & res & H & Hwf & _);
    [apply clerkA_wf|done| |].
  - intros sid r Hin. repeat (apply elem_of_cons in Hin as [[= -> ->]|Hin]); [..|by apply elem_of_nil in Hin].
    all: split; [done|eauto].
  - exists ck'. split; [|done]. vm_compute in H |- *. by injection H as <- <-.
Defined.
