(* ===== verification/ShardConfig.v ===== *)
(** * Shard assignment (src/shardctrler/common.go)

    A [Config] assigns each of the [NShards] shards to a replica group.  The
    controller's replicas compute new configurations independently, so the
    code sorts the keys of every map it ranges over.  Ranging over a map
    visits its keys in the order of [map_to_list] here; the first lemma says
    that any other order gives the same sorted keys.

    [Shards] is an array of length [NShards] (part of [valid]); indexing it
    out of range panics.  [ResetShards] takes fuel: [None] says that the loop
    is still running.

    Theorems: starting from a valid configuration (every shard belongs to a
    group, or to the invalid group 0 when there are no groups) joining and
    leaving do not panic, give a valid configuration, keep it balanced, and
    move only the shards they have to; the first assignment terminates,
    balanced, exactly when there is a group. *)

From stdpp Require Import strings base gmap list sorting.
From Stdlib Require Import ZArith Lia.
From S2P Require Import Prelude.

(** The number of shards. *)
Definition NShards : nat := 10.

Record Config : Type := mkConfig {
  Num : Z;
  Shards : list Z; (* shard -> gid *)
  Groups : gmap Z (list string); (* gid -> servers *)
}.

Implicit Types c : Config.

Definition set_Shards c (s : list Z) : Config := mkConfig (Num c) s (Groups c).
Definition set_Groups c (g : gmap Z (list string)) : Config := mkConfig (Num c) (Shards c) g.

(** The keys in iteration order. *)
Definition range_keys {A} (m : gmap Z A) : list Z := (map_to_list m).*1.

Definition GetSortedKeysOfGroups (groups : gmap Z (list string)) : list Z :=
  sort_Ints (range_keys groups).

Definition addShard (m : gmap Z (list Z)) (sg : Z * Z) : gmap Z (list Z) :=
  let '(shard, gid) := sg in <[gid := default [] (m !! gid) ++ [shard]]> m.

Definition GetGroupShardsMap c : gmap Z (list Z) :=
  foldl addShard ((λ _, []) <$> Groups c) (imap (λ i gid, (Z.of_nat i, gid)) (Shards c)).

Definition GetGidWithCmpNumShards (m : gmap Z (list Z)) (cmp : Z → Z → bool) : Z :=
  match sort_Ints (range_keys m) with
  | [] => 0
  | gid0 :: gids =>
      fst (foldl (λ '(m_gid, m_ShardsCount) gid,
             let n := zlen (default [] (m !! gid)) in
             if cmp n m_ShardsCount then (gid, n) else (m_gid, m_ShardsCount))
           (gid0, zlen (default [] (m !! gid0))) gids)
  end.

Definition GetGidWithMinimumShards (m : gmap Z (list Z)) : Z :=
  GetGidWithCmpNumShards m (λ a b, bool_decide (a < b)%Z).

Definition GetGidWithMaximumShards (m : gmap Z (list Z)) : Z :=
  match m !! 0%Z with
  | Some _ => 0
  | None => GetGidWithCmpNumShards m (λ a b, bool_decide (a > b)%Z)
  end.

(** A copy that shares nothing; in the model values are never shared. *)
Definition Clone c : Config :=
  mkConfig (Num c) (Shards c)
    (map_fold (λ gid servers m, <[gid := servers]> m) ∅ (Groups c)).

(** The inner loop of [ResetShards], with its break. *)
Fixpoint reset_pass (gids : list Z) (shards : list Z) (shard : nat) : list Z * nat :=
  match gids with
  | [] => (shards, shard)
  | gid :: gids =>
      let shards := <[shard := gid]> shards in
      let shard := S shard in
      if bool_decide (NShards ≤ shard) then (shards, shard) else reset_pass gids shards shard
  end.

Fixpoint reset_loop (fuel : nat) (gids : list Z) (shards : list Z) (shard : nat) : option (list Z) :=
  if bool_decide (shard < NShards) then
    match fuel with
    | O => None
    | S fuel =>
        let '(shards, shard) := reset_pass gids shards shard in reset_loop fuel gids shards shard
    end
  else Some shards.

Definition ResetShards (fuel : nat) c : option Config :=
  shards ← reset_loop fuel (GetSortedKeysOfGroups (Groups c)) (Shards c) 0;
  Some (set_Shards c shards).

(** The loop of [JoinGroups] for one new group: [k] iterations are left. *)
Fixpoint join_moves (k : nat) (cnt new_gid : Z) c : Res Config :=
  match k with
  | O => Ok c
  | S k =>
      let groupShardsMap := delete new_gid (GetGroupShardsMap c) in
      let maxGid := GetGidWithMaximumShards groupShardsMap in
      let maxGroupShards := default [] (groupShardsMap !! maxGid) in
      if bool_decide (cnt >= zlen maxGroupShards)%Z && bool_decide (maxGid ≠ 0%Z) then Ok c
      else
        shard ← idx maxGroupShards 0;
        shards ← upd (Shards c) shard new_gid;
        join_moves k (cnt + 1) new_gid (set_Shards c shards)
  end.

Definition join_group (groups : gmap Z (list string)) c (new_gid : Z) : Res Config :=
  let new_servers := default [] (groups !! new_gid) in
  c ← match Groups c !! new_gid with
      | None => join_moves NShards 0 new_gid c
      | Some _ => Ok c
      end;
  Ok (set_Groups c (<[new_gid := default [] (Groups c !! new_gid) ++ new_servers]> (Groups c))).

Definition JoinGroups c (groups : gmap Z (list string)) : Res Config :=
  foldM (join_group groups) c (GetSortedKeysOfGroups groups).

(** One iteration of the inner loop of [RemoveGroups]. *)
Definition remove_shard (gid : Z) c (rmShard : Z) : Res Config :=
  let groupShardsMap := delete gid (GetGroupShardsMap c) in
  shards ← upd (Shards c) rmShard (GetGidWithMinimumShards groupShardsMap);
  Ok (set_Shards c shards).

Definition remove_group c (gid : Z) : Res Config :=
  match Groups c !! gid with
  | Some _ =>
      let removeShards := default [] (GetGroupShardsMap c !! gid) in
      let c := set_Groups c (delete gid (Groups c)) in
      foldM (remove_shard gid) c removeShards
  | None => Ok c
  end.

Definition RemoveGroups c (gids : list Z) : Res Config := foldM remove_group c gids.

Definition MoveShard c (shard gid : Z) : Res Config :=
  shards ← upd (Shards c) shard gid;
  Ok (set_Shards c shards).

(** ** Specification vocabulary *)

Abbreviation count gid c := (count_eq gid (Shards c)).

(** Every shard belongs to a group; without groups, to group 0. *)
Record valid c : Prop := {
  v_length : length (Shards c) = NShards;
  v_zero : Groups c !! 0%Z = None;
  v_empty : Groups c = ∅ → ∀ g, g ∈ Shards c → g = 0%Z;
  v_owner : Groups c ≠ ∅ → ∀ g, g ∈ Shards c → is_Some (Groups c !! g);
}.

(** The loads of any two groups differ by at most one. *)
Definition balanced c : Prop :=
  ∀ g1 g2, is_Some (Groups c !! g1) → is_Some (Groups c !! g2) → count g1 c ≤ count g2 c + 1.

(** ** Lemmas: the shard map *)

(** Sorting makes the iteration order of the map irrelevant. *)
Lemma sorted_keys_any_order {A} (m : gmap Z A) order :
  order ≡ₚ range_keys m → sort_Ints order = sort_Ints (range_keys m).
Proof. apply sort_Ints_ext. Qed.

Lemma elem_of_sorted_keys {A} (m : gmap Z A) g : g ∈ sort_Ints (range_keys m) ↔ is_Some (m !! g).
Proof.
  rewrite sort_Ints_perm. unfold range_keys. rewrite list_elem_of_fmap. split.
  - intros ([g' x] & -> & H%elem_of_map_to_list). by exists x.
  - intros [x H]. exists (g, x). split; [done|]. by apply elem_of_map_to_list.
Qed.

Lemma sorted_keys_nodup {A} (m : gmap Z A) : NoDup (sort_Ints (range_keys m)).
Proof. rewrite sort_Ints_perm. apply NoDup_fst_map_to_list. Qed.

Lemma sorted_keys_nil {A} (m : gmap Z A) : sort_Ints (range_keys m) = [] ↔ m = ∅.
Proof.
  split; [|by intros ->]. intros H. apply map_empty. intros g.
  destruct (m !! g) eqn:E; [|done]. exfalso.
  assert (g ∈ sort_Ints (range_keys m)) as Hin by (apply elem_of_sorted_keys; by exists a).
  rewrite H in Hin. by apply elem_of_nil in Hin.
Qed.

(** The shards of a group, in increasing order. *)
Fixpoint shards_from (k : nat) (g : Z) (l : list Z) : list Z :=
  match l with
  | [] => []
  | x :: l => (if decide (x = g) then [Z.of_nat k] else []) ++ shards_from (S k) g l
  end.

Lemma shards_from_length k g l : length (shards_from k g l) = count_eq g l.
Proof.
  revert k. induction l as [|x l IH]; intros k; [done|]. simpl. rewrite count_eq_cons, length_app, IH.
  by destruct (decide (x = g)).
Qed.

Lemma elem_of_shards_from k g l s :
  s ∈ shards_from k g l ↔ ∃ i, s = Z.of_nat (k + i) ∧ l !! i = Some g.
Proof.
  revert k. induction l as [|x l IH]; intros k; simpl.
  - rewrite elem_of_nil. split; [done|]. intros (i & _ & H). by rewrite lookup_nil in H.
  - rewrite elem_of_app, IH. split.
    + intros [H|(i & -> & H)].
      * destruct (decide (x = g)) as [->|]; [|by apply elem_of_nil in H].
        apply list_elem_of_singleton in H as ->. exists 0. by rewrite Nat.add_0_r.
      * exists (S i). split; [f_equal; lia|done].
    + intros ([|i] & -> & H); simpl in H.
      * injection H as ->. left. rewrite decide_True by done. rewrite Nat.add_0_r. left.
      * right. exists i. split; [f_equal; lia|done].
Qed.

Lemma fold_addShard l k m g :
  foldl addShard m (imap (λ i gid, (Z.of_nat (k + i), gid)) l) !! g =
  match m !! g, shards_from k g l with
  | None, [] => None
  | o, s => Some (default [] o ++ s)
  end.
Proof.
  revert k m. induction l as [|x l IH]; intros k m; simpl.
  { destruct (m !! g); simpl; [by rewrite app_nil_r|done]. }
  rewrite Nat.add_0_r.
  rewrite (imap_ext _ (λ i gid, (Z.of_nat (S k + i), gid))) by (intros; simpl; do 2 f_equal; lia).
  rewrite IH. destruct (decide (x = g)) as [->|Hne].
  - rewrite lookup_insert_eq. simpl. rewrite <-app_assoc. by destruct (m !! g).
  - rewrite lookup_insert_ne by done. done.
Qed.

Lemma GetGroupShardsMap_lookup c g :
  GetGroupShardsMap c !! g =
  match Groups c !! g, shards_from 0 g (Shards c) with
  | None, [] => None
  | _, s => Some s
  end.
Proof.
  unfold GetGroupShardsMap. rewrite (fold_addShard (Shards c) 0), lookup_fmap.
  by destruct (Groups c !! g), (shards_from 0 g (Shards c)).
Qed.

(** How many shards the map has for a group. *)
Definition load (m : gmap Z (list Z)) (g : Z) : Z := zlen (default [] (m !! g)).

Lemma GetGroupShardsMap_load c g : load (GetGroupShardsMap c) g = Z.of_nat (count g c).
Proof.
  unfold load, zlen. rewrite GetGroupShardsMap_lookup, <-(shards_from_length 0).
  by destruct (Groups c !! g), (shards_from 0 g (Shards c)).
Qed.

Lemma GetGroupShardsMap_dom c g :
  is_Some (GetGroupShardsMap c !! g) ↔ is_Some (Groups c !! g) ∨ g ∈ Shards c.
Proof.
  rewrite GetGroupShardsMap_lookup. pose proof (count_eq_zero g (Shards c)) as H0.
  rewrite <-(shards_from_length 0) in H0. split.
  - destruct (Groups c !! g); [by left; eexists|]. destruct (shards_from 0 g (Shards c)); [by intros []|].
    intros _. right. destruct (decide (g ∈ Shards c)) as [|Hn]; [done|]. by apply H0 in Hn.
  - destruct (Groups c !! g); [by eexists|]. intros [[]|Hin]; [done|].
    destruct (shards_from 0 g (Shards c)); [|by eexists]. by apply H0 in Hin.
Qed.

(** The group [GetGidWithCmpNumShards] picks is the best one. *)
Lemma pick_best (m : gmap Z (list Z)) (cmp : Z → Z → bool) (R : Z → Z → Prop) :
  (∀ x, R x x) → (∀ x y z, R x y → R y z → R x z) →
  (∀ a b, if cmp a b then R a b else R b a) → m ≠ ∅ →
  let r := GetGidWithCmpNumShards m cmp in
  is_Some (m !! r) ∧ ∀ g, is_Some (m !! g) → R (load m r) (load m g).
Proof.
  intros Hrefl Htrans Hcmp Hm r. unfold r, GetGidWithCmpNumShards.
  pose proof (elem_of_sorted_keys m) as Hkeys.
  destruct (sort_Ints (range_keys m)) as [|g0 gids] eqn:E; [by apply sorted_keys_nil in E|].
  setoid_rewrite <-Hkeys. clear r Hm E Hkeys.
  set (f := λ '(m_gid, m_count) gid, let n := zlen (default [] (m !! gid)) in
             if cmp n m_count then (gid, n) else (m_gid, m_count)).
  assert (H : ∀ b, let '(r, n) := foldl f (b, load m b) gids in
    n = load m r ∧ r ∈ b :: gids ∧ R (load m r) (load m b) ∧ ∀ g, g ∈ gids → R (load m r) (load m g)).
  { induction gids as [|g gids IH]; intros b; simpl.
    { split_and!; [done|left|done|]. by intros ? ?%elem_of_nil. }
    fold (load m g). pose proof (Hcmp (load m g) (load m b)) as Hgb.
    destruct (cmp (load m g) (load m b)); [specialize (IH g)|specialize (IH b)];
      destruct (foldl f _ gids) as [r n]; destruct IH as (-> & Hr & Hb & Hall); split_and!; try done.
    - by right.
    - by eapply Htrans.
    - intros x [->|Hx]%elem_of_cons; [done|by apply Hall].
    - apply elem_of_cons in Hr as [->|Hr]; [left|right; by right].
    - intros x [->|Hx]%elem_of_cons; [by eapply Htrans|by apply Hall]. }
  specialize (H g0). fold (load m g0). destruct (foldl f (g0, load m g0) gids) as [r n].
  destruct H as (_ & Hr & H0 & Hall). simpl. split; [done|].
  intros g [->|Hg]%elem_of_cons; [done|by apply Hall].
Qed.

Lemma pick_min m : m ≠ ∅ →
  let r := GetGidWithMinimumShards m in
  is_Some (m !! r) ∧ ∀ g, is_Some (m !! g) → (load m r ≤ load m g)%Z.
Proof.
  apply (pick_best m _ Z.le); [lia|lia|]. intros a b. case_bool_decide; lia.
Qed.

Lemma pick_max m : m ≠ ∅ → m !! 0%Z = None →
  let r := GetGidWithMaximumShards m in
  is_Some (m !! r) ∧ ∀ g, is_Some (m !! g) → (load m g ≤ load m r)%Z.
Proof.
  intros Hm H0. unfold GetGidWithMaximumShards. rewrite H0.
  apply (pick_best m _ (λ x y, (y ≤ x)%Z)); [lia|lia|intros a b; case_bool_decide; lia|done].
Qed.

(** ** Lemmas: ResetShards *)

(** All groups of [gids] have load [q] among the first [n] shards, and those
    shards belong to them. *)
Definition dealt (gids shards : list Z) (n q : nat) : Prop :=
  (∀ g, g ∈ gids → count_eq g (take n shards) = q) ∧ (∀ g, g ∈ take n shards → g ∈ gids).

(** One pass over [rest], the groups of [done] having had their turn. *)
Lemma reset_pass_spec rest done shards n q :
  NoDup (done ++ rest) → length shards = NShards → n < NShards →
  (∀ g, g ∈ done → count_eq g (take n shards) = S q) →
  (∀ g, g ∈ rest → count_eq g (take n shards) = q) →
  (∀ g, g ∈ take n shards → g ∈ done ++ rest) →
  let '(shards', n') := reset_pass rest shards n in
  length shards' = NShards ∧ n + length rest `min` 1 ≤ n' ≤ NShards ∧
  (∀ g, g ∈ take n' shards' → g ∈ done ++ rest) ∧
  (∀ g1 g2, g1 ∈ done ++ rest → g2 ∈ done ++ rest →
     count_eq g1 (take n' shards') ≤ count_eq g2 (take n' shards') + 1) ∧
  (n' < NShards → ∀ g, g ∈ done ++ rest → count_eq g (take n' shards') = S q).
Proof.
  revert done shards n. induction rest as [|g rest IH]; intros done shards n Hnd Hlen Hn Hd Hr Hin; simpl.
  { rewrite app_nil_r in *. split_and!; [done|lia|lia|done| |].
    - intros g1 g2 H1 H2. rewrite !Hd by done. lia.
    - by intros _. }
  assert (Htake : take (S n) (<[n := g]> shards) = take n shards ++ [g]).
  { rewrite (take_S_r _ _ g) by (apply list_lookup_insert_eq; lia). by rewrite take_insert_ge. }
  assert (Hcnt : ∀ x, count_eq x (take (S n) (<[n := g]> shards)) =
    count_eq x (take n shards) + if decide (g = x) then 1 else 0).
  { intros x. rewrite Htake, count_eq_app, count_eq_cons. change (count_eq x []) with 0. lia. }
  assert (Hg : g ∉ done ++ rest).
  { apply NoDup_app in Hnd as (_ & Hdis & [? _]%NoDup_cons). rewrite elem_of_app. intros [Hd1|?]; [|done].
    apply (Hdis g Hd1). left. }
  assert (Hin' : ∀ x, x ∈ take (S n) (<[n := g]> shards) → x ∈ done ++ g :: rest).
  { intros x. rewrite Htake, elem_of_app, list_elem_of_singleton. intros [?| ->]; [by apply Hin|set_solver]. }
  assert (Hd' : ∀ x, x ∈ done ++ [g] → count_eq x (take (S n) (<[n := g]> shards)) = S q).
  { intros x Hx. rewrite Hcnt. apply elem_of_app in Hx as [Hx| ->%list_elem_of_singleton].
    - rewrite decide_False by set_solver. rewrite Hd by done. lia.
    - rewrite decide_True by done. rewrite Hr by left. lia. }
  assert (Hr' : ∀ x, x ∈ rest → count_eq x (take (S n) (<[n := g]> shards)) = q).
  { intros x Hx. rewrite Hcnt, decide_False by set_solver. rewrite Hr by set_solver. lia. }
  case_bool_decide as Hbr.
  - split_and!; [by rewrite length_insert|lia|lia|done| |lia].
    intros g1 g2 H1 H2. 
    assert (∀ x, x ∈ done ++ g :: rest → count_eq x (take (S n) (<[n := g]> shards)) = S q ∨
      count_eq x (take (S n) (<[n := g]> shards)) = q) as Hc.
    { intros x [?|[->|?]%elem_of_cons]%elem_of_app; [left|left|right]; auto; apply Hd'; set_solver. }
    pose proof (Hc g1 H1). pose proof (Hc g2 H2). lia.
  - specialize (IH (done ++ [g]) (<[n := g]> shards) (S n)). rewrite <-app_assoc in IH. simpl in IH.
    destruct (reset_pass rest (<[n := g]> shards) (S n)) as [shards' n'].
    destruct IH as (? & ? & ? & ? & ?); [done|by rewrite length_insert|lia|done..|].
    split_and!; [done|lia|lia|done..].
Qed.

Lemma reset_loop_spec gids shards n q fuel :
  gids ≠ [] → NoDup gids → length shards = NShards → n ≤ NShards → dealt gids shards n q →
  (∀ g1 g2, g1 ∈ gids → g2 ∈ gids → count_eq g1 (take n shards) ≤ count_eq g2 (take n shards) + 1) →
  NShards ≤ n + fuel →
  ∃ shards', reset_loop fuel gids shards n = Some shards' ∧ length shards' = NShards ∧
    (∀ g, g ∈ shards' → g ∈ gids) ∧
    (∀ g1 g2, g1 ∈ gids → g2 ∈ gids → count_eq g1 shards' ≤ count_eq g2 shards' + 1).
Proof.
  intros Hne Hnd. revert shards n q. induction fuel as [|fuel IH]; intros shards n q Hlen Hn Hd Hb Hfuel; simpl.
  { rewrite bool_decide_false by lia. exists shards. destruct Hd as [_ Hin].
    rewrite take_ge in Hin, Hb by lia. done. }
  case_bool_decide as Hlt.
  - destruct Hd as [Hcnt Hin]. pose proof (reset_pass_spec gids [] shards n q) as Hp. simpl in Hp.
    destruct (reset_pass gids shards n) as [shards' n'].
    destruct Hp as (Hl' & Hn' & Hin' & Hb' & Hq'); [done|done|done|by intros ? ?%elem_of_nil|done..|].
    destruct gids as [|g0 gids]; [done|]. simpl in Hn'.
    destruct (decide (n' < NShards)) as [Hlt'|Hge].
    + eapply (IH shards' n' (S q)); [done|lia|split; auto|done|lia].
    + assert (n' = NShards) as -> by lia. exists shards'. rewrite take_ge in Hin', Hb' by lia.
      split_and!; [|done..]. by destruct fuel.
  - exists shards. destruct Hd as [_ Hin]. rewrite take_ge in Hin, Hb by lia. done.
Qed.

Lemma reset_loop_empty fuel shards n : n < NShards → reset_loop fuel [] shards n = None.
Proof.
  revert shards n. induction fuel as [|fuel IH]; intros shards n Hn; simpl; rewrite bool_decide_true by done;
    [done|by apply IH].
Qed.

Lemma reset_loop_fuel fuel fuel' gids shards n shards' :
  reset_loop fuel gids shards n = Some shards' → fuel ≤ fuel' → reset_loop fuel' gids shards n = Some shards'.
Proof.
  revert fuel' shards n. induction fuel as [|fuel IH]; intros fuel' shards n H Hle; simpl in H.
  - destruct fuel'; simpl; by case_bool_decide.
  - destruct fuel' as [|fuel']; [lia|]. simpl. case_bool_decide; [|done].
    destruct (reset_pass gids shards n). apply IH; [done|lia].
Qed.

Lemma ResetShards_fuel fuel fuel' c c' :
  ResetShards fuel c = Some c' → fuel ≤ fuel' → ResetShards fuel' c = Some c'.
Proof.
  unfold ResetShards. intros H Hle. destruct (reset_loop fuel _ _ 0) eqn:E; [|done].
  by rewrite (reset_loop_fuel _ _ _ _ _ _ E Hle).
Qed.

Lemma ResetShards_ok c fuel :
  length (Shards c) = NShards → Groups c ≠ ∅ → Groups c !! 0%Z = None → NShards ≤ fuel →
  ∃ c', ResetShards fuel c = Some c' ∧ valid c' ∧ balanced c' ∧ Groups c' = Groups c ∧ Num c' = Num c.
Proof.
  intros Hlen Hne H0 Hfuel. unfold ResetShards.
  destruct (reset_loop_spec (GetSortedKeysOfGroups (Groups c)) (Shards c) 0 0 fuel)
    as (shards' & Hr & Hl & Hin & Hb); [|apply sorted_keys_nodup|done|lia|..|lia|].
  - intros Hnil. by apply sorted_keys_nil in Hnil.
  - split; [done|]. intros g Hg. by apply elem_of_nil in Hg.
  - intros. simpl. unfold count_eq. simpl. lia.
  - rewrite Hr. simpl. eexists. split; [done|]. split_and!; [|..|done|done].
    + split; simpl; [done|done|done|]. intros _ g Hg. by apply elem_of_sorted_keys, Hin.
    + intros g1 g2 H1 H2. simpl in *. apply Hb; by apply elem_of_sorted_keys.
Qed.

Lemma ResetShards_empty c fuel : Groups c = ∅ → ResetShards fuel c = None.
Proof.
  intros H. unfold ResetShards, GetSortedKeysOfGroups. rewrite H.
  change (sort_Ints (range_keys ∅)) with (@nil Z). rewrite reset_loop_empty; [done|]. unfold NShards. lia.
Qed.

(** The first assignment.  With at least one group, [ResetShards]
    terminates, within as many passes as there are shards, and the result is
    valid and balanced.  Without a group it never ends: the inner loop has
    nothing to iterate over and the shard counter stays at 0. *)
Theorem ResetShards_spec c :
  length (Shards c) = NShards → Groups c !! 0%Z = None →
  if decide (Groups c = ∅) then ∀ fuel, ResetShards fuel c = None
  else ∃ c', (∀ fuel, NShards ≤ fuel → ResetShards fuel c = Some c') ∧
    valid c' ∧ balanced c' ∧ Groups c' = Groups c.
Proof.
  intros Hl H0. case_decide as He; [intros fuel; by apply ResetShards_empty|].
  destruct (ResetShards_ok c NShards Hl He H0 ltac:(done)) as (c' & Hr & ? & ? & ? & _).
  exists c'. split_and!; [|done..]. intros fuel Hf. by apply (ResetShards_fuel NShards).
Qed.

(** ** Lemmas: joining *)

(** The shards of [c'] are those of [c], except that some now belong to [P]. *)
Definition moved_to (P : Z → Prop) c c' : Prop :=
  ∀ s, Shards c' !! s = Shards c !! s ∨ ∃ g, Shards c' !! s = Some g ∧ P g.

Lemma moved_to_refl P c : moved_to P c c.
Proof. intros s. by left. Qed.

Lemma moved_to_trans P c1 c2 c3 : moved_to P c1 c2 → moved_to P c2 c3 → moved_to P c1 c3.
Proof. intros H12 H23 s. destruct (H23 s) as [->|?]; [apply H12|by right]. Qed.

Lemma moved_to_mono (P Q : Z → Prop) c c' : (∀ g, P g → Q g) → moved_to P c c' → moved_to Q c c'.
Proof. intros HPQ H s. destruct (H s) as [?|(g & ? & ?)]; [by left|right; eauto]. Qed.

(** Moving one shard. *)
Lemma move_one P c i x g :
  Shards c !! i = Some x → P g → moved_to P c (set_Shards c (<[i := g]> (Shards c))).
Proof.
  intros Hi HP s. simpl. destruct (decide (s = i)) as [->|Hne].
  - right. exists g. split; [|done]. apply list_lookup_insert_eq. by eapply lookup_lt_Some.
  - left. by rewrite list_lookup_insert_ne.
Qed.

(** The first shard of a group with a positive load. *)
Lemma first_shard c g :
  0 < count g c →
  ∃ i, idx (default [] (GetGroupShardsMap c !! g)) 0 = Ok (Z.of_nat i) ∧ Shards c !! i = Some g.
Proof.
  intros Hc. rewrite GetGroupShardsMap_lookup. rewrite <-(shards_from_length 0) in Hc.
  destruct (shards_from 0 g (Shards c)) as [|s ss] eqn:E; [simpl in Hc; lia|].
  assert (Hs : s ∈ shards_from 0 g (Shards c)) by (rewrite E; left).
  apply elem_of_shards_from in Hs as (i & -> & Hi). exists i. split; [|done].
  by destruct (Groups c !! g).
Qed.

(** What [join_moves] keeps while it moves shards to [g]: [cnt] have moved. *)
Record joining (g : Z) (cnt : nat) c c' : Prop := {
  jo_groups : Groups c' = Groups c;
  jo_num : Num c' = Num c;
  jo_length : length (Shards c') = NShards;
  jo_count : count g c' = cnt;
  jo_owner : ∀ x, x ∈ Shards c' → x = g ∨ x ∈ Shards c;
  jo_moved : moved_to (λ x, x = g) c c';
}.

Lemma joining_step g cnt c c' i x :
  joining g cnt c c' → Shards c' !! i = Some x → x ≠ g →
  joining g (S cnt) c (set_Shards c' (<[i := g]> (Shards c'))).
Proof.
  intros [Hg Hn Hl Hc Ho Hm] Hi Hx. split; simpl; [done|done|by rewrite length_insert|..].
  - pose proof (count_eq_insert g x g (Shards c') i Hi) as Hins.
    rewrite decide_False, decide_True in Hins by done. lia.
  - intros y [j Hj]%list_elem_of_lookup. apply list_lookup_insert_Some in Hj as [(_ & -> & _)|[_ Hj]]; [by left|].
    apply Ho. by eapply list_elem_of_lookup_2.
  - eapply moved_to_trans; [done|]. by eapply move_one.
Qed.

(** Taking all shards of group 0 when there is no group. *)
Lemma join_moves_first g k c c' cnt :
  g ≠ 0%Z → valid c → Groups c = ∅ → joining g cnt c c' → cnt + k = NShards →
  ∃ c'', join_moves k (Z.of_nat cnt) g c' = Ok c'' ∧ joining g NShards c c''.
Proof.
  intros Hg Hv He. revert cnt c'. induction k as [|k IH]; intros cnt c' Hj Hk; simpl.
  { exists c'. split; [done|]. by rewrite Nat.add_0_r in Hk; subst. }
  assert (Hzero : 0 < count 0%Z c').
  { destruct (decide (count 0%Z c' = 0)) as [Hz|]; [|lia]. apply count_eq_zero in Hz.
    assert (Hall : ∀ x, x ∈ Shards c' → x = g).
    { intros x Hx. destruct (jo_owner _ _ _ _ Hj x Hx) as [|Hc]; [done|].
      rewrite (v_empty _ Hv He x Hc) in Hx. done. }
    assert (count g c' = length (Shards c')) as Hcl.
    { unfold count_eq. by rewrite list_filter_all. }
    rewrite (jo_count _ _ _ _ Hj), (jo_length _ _ _ _ Hj) in Hcl. lia. }
  destruct (first_shard c' 0 Hzero) as (i & Hi & Hs).
  assert (Hm0 : is_Some (GetGroupShardsMap c' !! 0%Z)).
  { apply GetGroupShardsMap_dom. right. by eapply list_elem_of_lookup_2. }
  unfold GetGidWithMaximumShards. rewrite (lookup_delete_ne _ g 0%Z) by done.
  destruct Hm0 as [l Hl]. rewrite Hl in Hi |- *.
  simpl. rewrite (lookup_delete_ne _ g 0%Z), Hl by done.
  rewrite andb_false_r. simpl.
  simpl in Hi. rewrite Hi. simpl. rewrite upd_in.
  2: { pose proof (lookup_lt_Some _ _ _ Hs). unfold zlen. lia. }
  simpl. rewrite Nat2Z.id. replace (Z.of_nat cnt + 1)%Z with (Z.of_nat (S cnt)) by lia.
  apply IH; [by eapply joining_step|lia].
Qed.

(** Taking shards from the fullest group until it has no more than [g]. *)
Lemma join_moves_more g k c c' cnt :
  Groups c !! g = None → valid c → Groups c ≠ ∅ → joining g cnt c c' → cnt + k = NShards →
  ∃ c'' cnt', join_moves k (Z.of_nat cnt) g c' = Ok c'' ∧ joining g cnt' c c'' ∧
    (∀ a, is_Some (Groups c !! a) → count a c'' ≤ cnt') ∧
    (balanced c' → (∀ a, is_Some (Groups c !! a) → cnt ≤ count a c' + 1) →
     balanced c'' ∧ ∀ a, is_Some (Groups c !! a) → cnt' ≤ count a c'' + 1).
Proof.
  intros Hg Hv Hne. revert cnt c'. induction k as [|k IH]; intros cnt c' Hj Hk; simpl.
  { exists c', cnt. split_and!; [done..| |done]. intros a Ha.
    assert (a ≠ g) by (intros ->; rewrite Hg in Ha; by destruct Ha).
    pose proof (count_eq_two a g (Shards c') ltac:(done)).
    rewrite (jo_count _ _ _ _ Hj), (jo_length _ _ _ _ Hj) in *. lia. }
  set (m := delete g (GetGroupShardsMap c')).
  assert (Hdom : ∀ a, is_Some (m !! a) ↔ is_Some (Groups c !! a)).
  { intros a. unfold m. destruct (decide (a = g)) as [->|Ha].
    - rewrite lookup_delete_eq, Hg. done.
    - rewrite lookup_delete_ne, GetGroupShardsMap_dom, (jo_groups _ _ _ _ Hj) by done.
      split; [|by left]. intros [?|Hin]; [done|].
      destruct (jo_owner _ _ _ _ Hj a Hin); [done|]. by apply (v_owner _ Hv). }
  assert (Hload : ∀ a, a ≠ g → load m a = Z.of_nat (count a c')).
  { intros a Ha. unfold m, load. rewrite lookup_delete_ne by done. apply GetGroupShardsMap_load. }
  assert (Hm0 : m !! 0%Z = None).
  { destruct (m !! 0%Z) eqn:E; [|done]. assert (is_Some (Groups c !! 0%Z)) as [? H0] by (apply Hdom; by eexists).
    by rewrite (v_zero _ Hv) in H0. }
  destruct (pick_max m) as [Hr Hmax]; [|done|].
  { intros Hm. apply map_choose in Hne as (a & x & Ha). specialize (Hdom a). rewrite Hm, Ha in Hdom.
    destruct Hdom as [_ Hdom]. destruct Hdom; [by eexists|]. done. }
  set (r := GetGidWithMaximumShards m) in *.
  assert (Hrg : r ≠ g) by (intros ->; unfold m in Hr; rewrite lookup_delete_eq in Hr; by destruct Hr).
  assert (Hr0 : r ≠ 0%Z) by (intros Hr0; rewrite Hr0, Hm0 in Hr; by destruct Hr).
  change (zlen (default [] (m !! r))) with (load m r). rewrite (Hload r Hrg).
  rewrite (bool_decide_true (r ≠ 0%Z)), andb_true_r by done. case_bool_decide as Hcmp.
  - exists c', cnt. split_and!; [done..| |done]. intros a Ha.
    assert (a ≠ g) by (intros ->; rewrite Hg in Ha; by destruct Ha).
    pose proof (Hmax a ltac:(by apply Hdom)) as Hle. rewrite !Hload in Hle by done. lia.
  - destruct (first_shard c' r) as (i & Hi & Hs); [lia|].
    unfold m at 1. rewrite lookup_delete_ne, Hi by done. simpl. rewrite upd_in.
    2: { pose proof (lookup_lt_Some _ _ _ Hs). unfold zlen. lia. }
    simpl. rewrite Nat2Z.id. replace (Z.of_nat cnt + 1)%Z with (Z.of_nat (S cnt)) by lia.
    destruct (IH (S cnt) (set_Shards c' (<[i := g]> (Shards c')))) as (c'' & cnt' & Hrun & Hj' & Hend & Hbal);
      [by eapply joining_step|lia|].
    exists c'', cnt'. split_and!; [done..|]. intros Hb Hmin. apply Hbal.
    + intros a b Ha Hb'. simpl in *. rewrite (jo_groups _ _ _ _ Hj) in Ha, Hb'.
      assert (a ≠ g ∧ b ≠ g) as [Hag Hbg]
        by (split; intros ->; [rewrite Hg in Ha; by destruct Ha|rewrite Hg in Hb'; by destruct Hb']).
      pose proof (count_eq_insert a r g _ i Hs) as Ha'. pose proof (count_eq_insert b r g _ i Hs) as Hb''.
      rewrite (decide_False (P := g = a)) in Ha' by done. rewrite (decide_False (P := g = b)) in Hb'' by done.
      pose proof (Hmax a ltac:(by apply Hdom)) as Hma. rewrite !Hload in Hma by done.
      specialize (Hb a b). rewrite (jo_groups _ _ _ _ Hj) in Hb. specialize (Hb Ha Hb').
      destruct (decide (r = a)) as [<-|], (decide (r = b)) as [<-|]; lia.
    + intros a Ha. simpl. assert (a ≠ g) by (intros ->; rewrite Hg in Ha; by destruct Ha).
      pose proof (count_eq_insert a r g _ i Hs) as Ha'. rewrite (decide_False (P := g = a)) in Ha' by done.
      case_decide as Hra; [subst a; lia|].
      specialize (Hb r a). rewrite (jo_groups _ _ _ _ Hj) in Hb.
      specialize (Hb ltac:(by apply Hdom) Ha). lia.
Qed.

Lemma joining_refl g c : valid c → Groups c !! g = None → g ≠ 0%Z → joining g 0 c c.
Proof.
  intros Hv Hg H0. split; try done; [apply Hv| |auto|apply moved_to_refl].
  apply count_eq_zero. intros Hin. destruct (decide (Groups c = ∅)) as [He|Hne].
  - by rewrite (v_empty _ Hv He g Hin) in H0.
  - destruct (v_owner _ Hv Hne g Hin). congruence.
Qed.

(** [join_moves] on a valid configuration, both cases. *)
Lemma join_moves_spec g c :
  valid c → Groups c !! g = None → g ≠ 0%Z →
  ∃ c' cnt, join_moves NShards 0 g c = Ok c' ∧ joining g cnt c c' ∧
    (Groups c = ∅ → ∀ x, x ∈ Shards c' → x = g) ∧
    (Groups c ≠ ∅ → balanced c →
     balanced c' ∧ ∀ a, is_Some (Groups c !! a) → count a c' ≤ cnt ≤ count a c' + 1).
Proof.
  intros Hv Hg H0. pose proof (joining_refl g c Hv Hg H0) as Hj.
  destruct (decide (Groups c = ∅)) as [He|Hne].
  - destruct (join_moves_first g NShards c c 0 H0 Hv He Hj eq_refl) as (c' & Hrun & Hj').
    exists c', NShards. split_and!; [done..| |done]. intros _. apply count_eq_length.
    by rewrite (jo_count _ _ _ _ Hj'), (jo_length _ _ _ _ Hj').
  - destruct (join_moves_more g NShards c c 0 Hg Hv Hne Hj eq_refl) as (c' & cnt & Hrun & Hj' & Hend & Hbal).
    exists c', cnt. split_and!; [done..|]. intros _ Hb. destruct (Hbal Hb) as [? Hmin]; [intros; lia|].
    split; [done|]. intros a Ha. specialize (Hend a Ha). specialize (Hmin a Ha). lia.
Qed.

(** What joining promises: [c] became [c'] and the groups [P] are new. *)
Record rebalanced (P : Z → Prop) c c' : Prop := {
  rb_valid : valid c';
  rb_balanced : balanced c → balanced c';
  rb_moved : moved_to P c c';
  rb_num : Num c' = Num c;
}.

Lemma join_group_spec groups c g :
  valid c → g ≠ 0%Z →
  ∃ c', join_group groups c g = Ok c' ∧
    rebalanced (λ x, x = g ∧ Groups c !! g = None) c c' ∧
    Groups c' = <[g := default [] (Groups c !! g) ++ default [] (groups !! g)]> (Groups c).
Proof.
  intros Hv H0. unfold join_group. destruct (Groups c !! g) as [old|] eqn:Hg; res_simpl.
  - eexists. split; [done|]. rewrite Hg. split; [|done]. simpl.
    assert (Hdom : ∀ x l, is_Some (<[g := l]> (Groups c) !! x) ↔ is_Some (Groups c !! x)).
    { intros x l. destruct (decide (g = x)) as [<-|]; [rewrite lookup_insert_eq, Hg|by rewrite lookup_insert_ne].
      split; by eexists. }
    destruct Hv as [Hl Hz He Ho]. split; simpl; [|..|by intros s; left|done].
    + split; simpl; [done| | |].
      * by rewrite lookup_insert_ne.
      * intros Hc. by apply insert_non_empty in Hc.
      * intros _ x Hx. apply Hdom, Ho; [|done]. intros Hc. by rewrite Hc, lookup_empty in Hg.
    + intros Hb a b Ha Hb'. simpl in *. rewrite Hdom in Ha, Hb'. by apply Hb.
  - destruct (join_moves_spec g c Hv Hg H0) as (c1 & cnt & Hrun & Hj & Hfirst & Hmore).
    rewrite Hrun. simpl. eexists. split; [done|]. rewrite (jo_groups _ _ _ _ Hj), Hg. split; [|done].
    pose proof Hj as [Hgr Hnum Hlen Hcnt Hown Hmv]. split; simpl; [| | |done].
    + split; simpl; [done|rewrite lookup_insert_ne; [apply Hv|done]|by intros ?%insert_non_empty|].
      intros _ x Hx. destruct (decide (g = x)) as [<-|Hne]; [rewrite lookup_insert_eq; by eexists|].
      rewrite lookup_insert_ne by done. destruct (Hown x Hx) as [|Hin]; [congruence|].
      destruct (decide (Groups c = ∅)) as [He|]; [by rewrite (Hfirst He x Hx) in Hne|]. by apply (v_owner _ Hv).
    + intros Hb a b Ha Hb'. simpl in *.
      destruct (decide (Groups c = ∅)) as [He|Hne].
      * rewrite He in Ha, Hb'. rewrite insert_empty in Ha, Hb'.
        apply lookup_singleton_is_Some in Ha as <-, Hb' as <-. lia.
      * destruct (Hmore Hne Hb) as [Hb1 Hc1]. unfold balanced in Hb1. rewrite Hgr in Hb1.
        rewrite lookup_insert_is_Some in Ha, Hb'.
        destruct (decide (g = a)) as [<-|], (decide (g = b)) as [<-|];
          destruct Ha as [?|[_ Ha]], Hb' as [?|[_ Hb']]; try done; try lia; rewrite ?Hcnt;
          repeat match goal with H : is_Some (Groups c !! ?x) |- _ => pose proof (Hc1 x H); clear H end;
          try lia; by apply Hb1.
    + eapply moved_to_mono; [|done]. intros x ->. done.
Qed.

Lemma rebalanced_trans (P Q : Z → Prop) c1 c2 c3 :
  (∀ g, Q g → P g) → rebalanced P c1 c2 → rebalanced Q c2 c3 → rebalanced P c1 c3.
Proof.
  intros HQ [? Hb1 Hm1 Hn1] [? Hb2 Hm2 Hn2]. split; [done|auto| |congruence].
  eapply moved_to_trans; [done|]. by eapply moved_to_mono.
Qed.

Lemma join_list_spec groups gids c :
  valid c → NoDup gids → (∀ g, g ∈ gids → g ≠ 0%Z) →
  ∃ c', foldM (join_group groups) c gids = Ok c' ∧
    rebalanced (λ x, x ∈ gids ∧ Groups c !! x = None) c c' ∧
    ∀ g, Groups c' !! g =
      if decide (g ∈ gids) then Some (default [] (Groups c !! g) ++ default [] (groups !! g)) else Groups c !! g.
Proof.
  revert c. induction gids as [|g gids IH]; intros c Hv Hnd H0; simpl.
  { exists c. split_and!; [done|split; [done|done|apply moved_to_refl|done]|].
    by intros g. }
  apply NoDup_cons in Hnd as [Hg Hnd].
  destruct (join_group_spec groups c g Hv) as (c1 & Hrun & Hr & Hgr); [apply H0; left|].
  rewrite Hrun. simpl. destruct (IH c1) as (c' & Hrun' & Hr' & Hgr'); [apply Hr|done|set_solver|].
  exists c'. split_and!; [done| |].
  - eapply rebalanced_trans; [|eapply rebalanced_trans; [|split; [exact Hv|done|apply moved_to_refl|done]|exact Hr]|exact Hr'].
    + intros x [Hx Hnone]. simpl. split; [by right|]. rewrite Hgr in Hnone.
      destruct (decide (g = x)) as [<-|]; [done|]. by rewrite lookup_insert_ne in Hnone.
    + intros x [-> ?]. simpl. split; [left|done].
  - intros x. rewrite Hgr', Hgr. destruct (decide (g = x)) as [<-|Hne].
    + rewrite decide_False by done. rewrite decide_True by left. by rewrite lookup_insert_eq.
    + rewrite lookup_insert_ne by done. destruct (decide (x ∈ gids)).
      * by rewrite decide_True by (by right).
      * rewrite decide_False; [done|]. by intros [?|?]%elem_of_cons.
Qed.

Lemma JoinGroups_run c groups :
  valid c → groups !! 0%Z = None →
  ∃ c', JoinGroups c groups = Ok c' ∧
    rebalanced (λ g, is_Some (groups !! g) ∧ Groups c !! g = None) c c' ∧
    ∀ g, Groups c' !! g = match Groups c !! g, groups !! g with
                          | None, None => None
                          | old, new => Some (default [] old ++ default [] new)
                          end.
Proof.
  intros Hv H0. destruct (join_list_spec groups (GetSortedKeysOfGroups groups) c) as (c' & Hrun & Hr & Hgr);
    [done|apply sorted_keys_nodup| |].
  { intros g Hg ->. apply elem_of_sorted_keys in Hg. rewrite H0 in Hg. by destruct Hg. }
  exists c'. split_and!; [done| |].
  - destruct Hr as [? ? Hm ?]. split; try done. eapply moved_to_mono; [|done].
    intros g [Hg ?]. split; [by apply elem_of_sorted_keys|done].
  - intros g. rewrite Hgr. pose proof (elem_of_sorted_keys groups g) as Hk.
    case_decide as Hin.
    + apply Hk in Hin as [x ->]. by destruct (Groups c !! g).
    + destruct (groups !! g) eqn:E; [by destruct Hin; apply Hk|].
      destruct (Groups c !! g); simpl; [by rewrite app_nil_r|done].
Qed.

(** C27: joining groups.  From a valid configuration [JoinGroups] does not
    panic; the result is valid, balanced if the configuration was, has the
    old groups with the new servers added, and a shard changes its owner
    only to a group that was not there before. *)
Theorem JoinGroups_spec c groups :
  valid c → groups !! 0%Z = None →
  ∃ c', JoinGroups c groups = Ok c' ∧
    rebalanced (λ g, is_Some (groups !! g) ∧ Groups c !! g = None) c c' ∧
    ∀ g, Groups c' !! g = match Groups c !! g, groups !! g with
                          | None, None => None
                          | old, new => Some (default [] old ++ default [] new)
                          end.
Proof. apply JoinGroups_run. Qed.

(** ** Lemmas: leaving *)

Lemma shards_from_nodup k g l : NoDup (shards_from k g l).
Proof.
  revert k. induction l as [|x l IH]; intros k; simpl; [constructor|].
  apply NoDup_app. split_and!; [|..|apply IH].
  - destruct (decide (x = g)); [apply NoDup_singleton|constructor].
  - intros s Hs (i & -> & _)%elem_of_shards_from.
    destruct (decide (x = g)); [|by apply elem_of_nil in Hs].
    apply list_elem_of_singleton in Hs. lia.
Qed.

(** Only shards of the groups [P] changed their owner. *)
Definition moved_from (P : Z → Prop) c c' : Prop :=
  ∀ s, Shards c' !! s = Shards c !! s ∨ ∃ g, Shards c !! s = Some g ∧ P g.

(** An owner a shard of a removed group may get. *)
Definition new_owner (groups : gmap Z (list string)) (x : Z) : Prop :=
  (groups = ∅ → x = 0%Z) ∧ (groups ≠ ∅ → is_Some (groups !! x)).

(** What [remove_shard] keeps: the shards [rest] still belong to [g], which
    was removed from the groups of [c]. *)
Record leaving (g : Z) (rest : list Z) c c' : Prop := {
  le_groups : Groups c' = delete g (Groups c);
  le_num : Num c' = Num c;
  le_length : length (Shards c') = NShards;
  le_nodup : NoDup rest;
  le_rest : ∀ s, s ∈ rest → ∃ i, s = Z.of_nat i ∧ Shards c' !! i = Some g;
  le_count : count g c' = length rest;
  le_owner : ∀ x, x ∈ Shards c' → x = g ∨ new_owner (delete g (Groups c)) x;
  le_moved : moved_from (λ x, x = g) c c';
}.

(** The group that gets the shard. *)
Lemma leaving_target g rest c c' :
  leaving g rest c c' → g ≠ 0%Z →
  let r := GetGidWithMinimumShards (delete g (GetGroupShardsMap c')) in
  r ≠ g ∧ new_owner (delete g (Groups c)) r ∧
  ∀ a, is_Some (delete g (Groups c) !! a) → count r c' ≤ count a c'.
Proof.
  intros Hl Hg0. set (m := delete g (GetGroupShardsMap c')). intros r.
  assert (Hdom : ∀ a, is_Some (m !! a) ↔ a ≠ g ∧ (is_Some (delete g (Groups c) !! a) ∨ a ∈ Shards c')).
  { intros a. unfold m. destruct (decide (a = g)) as [->|Ha].
    - rewrite lookup_delete_eq. split; [by intros []|tauto].
    - rewrite lookup_delete_ne, GetGroupShardsMap_dom, (le_groups _ _ _ _ Hl) by done. tauto. }
  assert (Hload : ∀ a, a ≠ g → load m a = Z.of_nat (count a c')).
  { intros a Ha. unfold m, load. rewrite lookup_delete_ne by done. apply GetGroupShardsMap_load. }
  destruct (decide (m = ∅)) as [Hm|Hm].
  - assert (Hno : delete g (Groups c) = ∅).
    { apply map_empty. intros a. destruct (delete g (Groups c) !! a) as [x|] eqn:E; [|done].
      assert (is_Some (m !! a)) as [? Ha]; [|by rewrite Hm, lookup_empty in Ha].
      apply Hdom. split; [|left; by eexists]. intros ->. by rewrite lookup_delete_eq in E. }
    assert (r = 0%Z) as ->.
    { unfold r, GetGidWithMinimumShards, GetGidWithCmpNumShards. by rewrite Hm. }
    rewrite Hno. split_and!; [done|by split|]. intros a [? Ha]. by rewrite lookup_empty in Ha.
  - destruct (pick_min m Hm) as [Hr Hmin]. fold r in Hr, Hmin.
    apply Hdom in Hr as [Hrg Hr]. split_and!; [done| |].
    + destruct Hr as [[x Hx]|Hin]; [|by destruct (le_owner _ _ _ _ Hl r Hin)].
      split; [|by eexists]. intros He. by rewrite He, lookup_empty in Hx.
    + intros a Ha. assert (a ≠ g) by (intros ->; rewrite lookup_delete_eq in Ha; by destruct Ha).
      specialize (Hmin a ltac:(apply Hdom; auto)). rewrite !Hload in Hmin by done. lia.
Qed.

Lemma remove_shards_spec g rest c c' :
  g ≠ 0%Z → leaving g rest c c' →
  ∃ c'', foldM (remove_shard g) c' rest = Ok c'' ∧ leaving g [] c c'' ∧ (balanced c' → balanced c'').
Proof.
  intros Hg0. revert c'. induction rest as [|s rest IH]; intros c' Hl; simpl; [by exists c'|].
  destruct (leaving_target g _ c c' Hl Hg0) as (Hrg & Hr & Hmin).
  destruct (le_rest _ _ _ _ Hl s) as (i & -> & Hi); [left|].
  pose proof (lookup_lt_Some _ _ _ Hi) as Hlt.
  set (r := GetGidWithMinimumShards _) in Hrg, Hr, Hmin.
  assert (remove_shard g c' (Z.of_nat i) = Ok (set_Shards c' (<[i := r]> (Shards c')))) as ->.
  { unfold remove_shard. rewrite upd_in by (unfold zlen; lia). simpl. by rewrite Nat2Z.id. }
  simpl.
  pose proof Hl as [Hgr Hnum Hlen Hnd Hrest Hcnt Hown Hmv]. apply NoDup_cons in Hnd as [Hs Hnd].
  pose proof (λ x, count_eq_insert x g r (Shards c') i Hi) as Hc.
  destruct (IH (set_Shards c' (<[i := r]> (Shards c')))) as (c'' & Hrun & Hl' & Hb').
  { split; simpl; [done|done|by rewrite length_insert|done|..].
    - intros s Hin. destruct (Hrest s) as (j & -> & Hj); [by right|]. exists j. split; [done|].
      rewrite list_lookup_insert_ne; [done|]. by intros ->.
    - specialize (Hc g). rewrite decide_True, decide_False in Hc by done. simpl in Hcnt. lia.
    - intros x [j Hj]%list_elem_of_lookup. apply list_lookup_insert_Some in Hj as [(_ & -> & _)|[_ Hj]]; [by right|].
      apply Hown. by eapply list_elem_of_lookup_2.
    - intros s. simpl. destruct (decide (s = i)) as [->|Hne].
      + right. destruct (Hmv i) as [Heq|?]; [|done]. exists g. split; [congruence|done].
      + rewrite list_lookup_insert_ne by done. apply Hmv. }
  exists c''. split_and!; [done..|]. intros Hb. apply Hb'. intros a b Ha Hb2. simpl in *.
  specialize (Hb a b Ha Hb2). rewrite Hgr in Ha, Hb2.
  assert (a ≠ g ∧ b ≠ g) as [Hag Hbg].
  { split; intros ->; [rewrite lookup_delete_eq in Ha; by destruct Ha|rewrite lookup_delete_eq in Hb2; by destruct Hb2]. }
  pose proof (Hc a) as Hca. pose proof (Hc b) as Hcb. pose proof (Hmin b Hb2) as Hmb.
  rewrite (decide_False (P := g = a)) in Hca by done. rewrite (decide_False (P := g = b)) in Hcb by done.
  destruct (decide (r = a)) as [<-|], (decide (r = b)) as [<-|]; lia.
Qed.

Lemma remove_group_spec c g :
  valid c →
  ∃ c', remove_group c g = Ok c' ∧ valid c' ∧ (balanced c → balanced c') ∧ Num c' = Num c ∧
    Groups c' = delete g (Groups c) ∧ moved_from (λ x, x = g) c c'.
Proof.
  intros Hv. unfold remove_group. destruct (Groups c !! g) as [srv|] eqn:Hg.
  2: { exists c. split_and!; [done..| |by intros s; left]. by rewrite delete_id. }
  assert (Hg0 : g ≠ 0%Z) by (intros ->; by rewrite (v_zero _ Hv) in Hg).
  assert (Hne : Groups c ≠ ∅) by (intros He; by rewrite He, lookup_empty in Hg).
  rewrite GetGroupShardsMap_lookup, Hg. simpl.
  destruct (remove_shards_spec g (shards_from 0 g (Shards c)) c (set_Groups c (delete g (Groups c))) Hg0)
    as (c' & Hrun & Hl & Hb).
  { split; simpl; [done|done|apply Hv|apply shards_from_nodup| |by rewrite shards_from_length| |by intros s; left].
    - intros s (i & -> & Hi)%elem_of_shards_from. by exists i.
    - intros x Hx. destruct (decide (x = g)) as [|Hxg]; [by left|right].
      pose proof (v_owner _ Hv Hne x Hx) as [y Hy]. split; [|by rewrite lookup_delete_ne].
      intros He. assert (delete g (Groups c) !! x = Some y) as Hd by (by rewrite lookup_delete_ne).
      by rewrite He, lookup_empty in Hd. }
  exists c'. rewrite Hrun. pose proof Hl as [Hgr Hnum Hlen _ _ Hcnt Hown Hmv].
  assert (Hno : ∀ x, x ∈ Shards c' → new_owner (delete g (Groups c)) x).
  { intros x Hx. destruct (Hown x Hx) as [->|]; [|done]. by apply count_eq_zero in Hcnt. }
  split_and!; [done| |..|done|done|done].
  - split; rewrite ?Hgr; [done|..].
    + rewrite lookup_delete_ne by done. apply Hv.
    + intros He x Hx. by apply (Hno x Hx).
    + intros He x Hx. by apply (Hno x Hx).
  - intros Hbal. apply Hb. intros a b Ha Hb'. simpl in *.
    apply Hbal; eapply lookup_delete_is_Some; eassumption.
Qed.

Lemma remove_list_spec c gids :
  valid c →
  ∃ c', foldM remove_group c gids = Ok c' ∧ valid c' ∧ (balanced c → balanced c') ∧ Num c' = Num c ∧
    (∀ g, Groups c' !! g = if decide (g ∈ gids) then None else Groups c !! g) ∧
    moved_from (λ g, g ∈ gids) c c'.
Proof.
  revert c. induction gids as [|g gids IH]; intros c Hv; simpl.
  { exists c. split_and!; [done..|by intros s; left]. }
  destruct (remove_group_spec c g Hv) as (c1 & -> & Hv1 & Hb1 & Hn1 & Hg1 & Hm1). simpl.
  destruct (IH c1 Hv1) as (c' & -> & Hv' & Hb' & Hn' & Hg' & Hm').
  exists c'. split_and!; [done|done|auto|congruence| |].
  - intros x. rewrite Hg', Hg1. destruct (decide (x ∈ gids)) as [Hin|Hin].
    + by rewrite decide_True by (by right).
    + destruct (decide (g = x)) as [<-|Hne].
      * rewrite decide_True by left. apply lookup_delete_eq.
      * rewrite decide_False by (by intros [?|?]%elem_of_cons). by apply lookup_delete_ne.
  - intros s. destruct (Hm1 s) as [Heq|(x & Hx & ->)]; [|right; exists g; split; [done|left]].
    destruct (Hm' s) as [Heq'|(x & Hx & ?)]; [left; congruence|]. right. exists x. split; [congruence|by right].
Qed.

(** C28: groups leaving.  From a valid configuration [RemoveGroups] does not
    panic; the result is valid, balanced if the configuration was, has
    exactly the groups that were not removed, and only shards of removed
    groups changed their owner. *)
Theorem RemoveGroups_spec c gids :
  valid c →
  ∃ c', RemoveGroups c gids = Ok c' ∧ valid c' ∧ (balanced c → balanced c') ∧ Num c' = Num c ∧
    (∀ g, Groups c' !! g = if decide (g ∈ gids) then None else Groups c !! g) ∧
    moved_from (λ g, g ∈ gids) c c'.
Proof. apply remove_list_spec. Qed.

(** A shard moved to a group that has not joined breaks a later join.
    When the only groups of the configuration's shards are 0 (at least one
    shard) and a group [g] that is not in [Groups], joining [g] panics with
    an index out of range: [JoinGroups] takes [NShards] shards from group 0
    although it has fewer. *)
Theorem JoinGroups_after_Move c g servers :
  length (Shards c) = NShards → Groups c = ∅ → g ≠ 0%Z →
  (∀ x, x ∈ Shards c → x = 0%Z ∨ x = g) → g ∈ Shards c →
  JoinGroups c {[ g := servers ]} = Panic.
Proof.
  intros Hlen He Hg Hown Hin. unfold JoinGroups.
  assert (GetSortedKeysOfGroups {[g := servers]} = [g]) as ->.
  { unfold GetSortedKeysOfGroups, range_keys. rewrite map_to_list_singleton. reflexivity. }
  cbn [foldM]. unfold join_group. rewrite He, lookup_empty.
  assert (Hrun : ∀ k cnt c', Groups c' = ∅ → (∀ x, x ∈ Shards c' → x = 0%Z ∨ x = g) →
    count 0%Z c' < k → join_moves k cnt g c' = Panic).
  { induction k as [|k IH]; intros cnt c' He' Ho' Hk; [lia|]. cbn [join_moves].
    destruct (decide (count 0%Z c' = 0)) as [Hz|Hz].
    - assert (delete g (GetGroupShardsMap c') = ∅) as ->.
      { apply map_empty. intros a. destruct (decide (a = g)) as [->|Ha]; [apply lookup_delete_eq|].
        rewrite lookup_delete_ne by done. apply eq_None_not_Some. rewrite GetGroupShardsMap_dom, He', lookup_empty.
        intros [[]|Hx]; [done|]. destruct (Ho' a Hx) as [->|]; [|done]. by apply count_eq_zero in Hz. }
      rewrite andb_false_r. reflexivity.
    - destruct (first_shard c' 0) as (i & Hi & Hs); [lia|].
      assert (is_Some (GetGroupShardsMap c' !! 0%Z)) as [l Hl].
      { apply GetGroupShardsMap_dom. right. by eapply list_elem_of_lookup_2. }
      unfold GetGidWithMaximumShards. rewrite (lookup_delete_ne _ g 0%Z), Hl by done.
      rewrite (lookup_delete_ne _ g 0%Z), Hl by done. rewrite (bool_decide_false (0 ≠ 0)%Z) by (intros H; by apply H).
      rewrite andb_false_r, Hl in *. rewrite Hi. res_simpl. pose proof (lookup_lt_Some _ _ _ Hs).
      rewrite upd_in by (unfold zlen; lia). res_simpl. rewrite Nat2Z.id. apply IH; [done|..].
      + intros x [j Hj]%list_elem_of_lookup. simpl in Hj.
        apply list_lookup_insert_Some in Hj as [(_ & -> & _)|[_ Hj]]; [by right|].
        apply Ho'. by eapply list_elem_of_lookup_2.
      + simpl. pose proof (count_eq_insert 0%Z 0%Z g _ i Hs) as Hc.
        rewrite decide_True, decide_False in Hc by done. lia. }
  rewrite Hrun; [done|done|done|].
  pose proof (count_eq_two 0%Z g (Shards c) ltac:(done)). pose proof (count_eq_zero g (Shards c)) as Hz.
  destruct (decide (count g c = 0)) as [H0|]; [by apply Hz in H0|lia].
Qed.
