(* ===== verification/ShardCtrler.v ===== *)
(** * The shard controller (src/shardctrler/server.go, client.go)

    A replicated list of configurations.  The applier executes Join, Leave
    and Move on a clone of the latest configuration and appends the result;
    the handlers work like those of the key/value service.  [Op.Args] is a
    Go interface: a type assertion on the wrong dynamic type panics.

    [sc_applier] is one iteration of the applier.  It takes the fuel of
    [ResetShards]; [None] says that the iteration does not end.

    Theorems: on requests that make sense (no group 0, a first Join with at
    least one group, Moves of existing shards to existing groups) the applier
    neither panics nor hangs; the history is append-only and numbered, a new
    request adds the configuration that it asks for, and every configuration
    is valid; without Moves every one is balanced; retransmitted requests add nothing; what a Query returns; and a first
    Join without groups hangs the applier. *)

From stdpp Require Import strings countable base gmap list.
From Stdlib Require Import ZArith Lia.
From S2P Require Import Prelude RaftLog RaftCore RaftApply ShardConfig KVRaft Clerk.

(** ** common.go: the requests *)

Inductive scErr : Type := scOK | WrongLeader.

Global Instance scErr_eq_dec : EqDecision scErr.
Proof. solve_decision. Defined.

Record JoinArgs : Type := mkJoinArgs {
  ja_Groups : gmap Z (list string); ja_SeqNum : Z; ja_ClientId : Z }.
Record LeaveArgs : Type := mkLeaveArgs {
  la_GIDs : list Z; la_SeqNum : Z; la_ClientId : Z }.
Record MoveArgs : Type := mkMoveArgs {
  ma_Shard : Z; ma_GID : Z; ma_SeqNum : Z; ma_ClientId : Z }.
Record QueryArgs : Type := mkQueryArgs {
  qa_Num : Z; qa_SeqNum : Z; qa_ClientId : Z }.
Record Reply : Type := mkReply { re_Err : scErr }.
Record QueryReply : Type := mkQueryReply { qr_Err : scErr; qr_Config : Config }.

(** The zero value of [Config]. *)
Definition zeroConfig : Config := mkConfig 0 (replicate NShards 0%Z) ∅.

(** ** server.go *)

Definition JOIN : string := "JOIN".
Definition LEAVE : string := "LEAVE".
Definition MOVE : string := "MOVE".
Definition QUERY : string := "QUERY".

(** The dynamic types [Op.Args] has. *)
Inductive ScArgs : Type :=
| AJoin (args : JoinArgs)
| ALeave (args : LeaveArgs)
| AMove (args : MoveArgs)
| AQuery (args : QueryArgs).

Record ScOp : Type := mkScOp { so_Type : string; so_Args : ScArgs }.

Module Configs.
Definition init : list Config := [zeroConfig].

Definition append (entries : list Config) (c : Config) : list Config :=
  entries ++ [mkConfig (zlen entries) (Shards c) (Groups c)].

(** [entries] is never empty; on an empty slice the index would panic. *)
Definition getLatestConfig (entries : list Config) : Res Config := idx entries (zlen entries - 1).

Definition getConfig (entries : list Config) (index : Z) : Res Config :=
  if bool_decide (0 ≤ index)%Z && bool_decide (index < zlen entries)%Z then idx entries index
  else idx entries (zlen entries - 1).
End Configs.

Section ShardCtrler.
Context `{!Gob (PState ScOp)}.

Record ShardCtrler : Type := mkShardCtrler {
  sc_me : Z;
  sc_rf : Raft ScOp;
  configs : list Config;
  sc_clientsStatus : gmap Z Z;
}.

Implicit Types sc : ShardCtrler.

Definition sc_set_rf sc (rf : Raft ScOp) : ShardCtrler :=
  mkShardCtrler (sc_me sc) rf (configs sc) (sc_clientsStatus sc).
Definition sc_set_configs sc (l : list Config) : ShardCtrler :=
  mkShardCtrler (sc_me sc) (sc_rf sc) l (sc_clientsStatus sc).
Definition sc_set_status sc (cs : gmap Z Z) : ShardCtrler :=
  mkShardCtrler (sc_me sc) (sc_rf sc) (configs sc) cs.

Definition sc_getClientStatus sc (clientId : Z) : ShardCtrler * Z :=
  match sc_clientsStatus sc !! clientId with
  | Some status => (sc, status)
  | None => (sc_set_status sc (<[clientId := 0%Z]> (sc_clientsStatus sc)), 0%Z)
  end.

Definition sc_setSeqNum sc (clientId seqNum : Z) : ShardCtrler :=
  sc_set_status sc (alter (λ _, seqNum) clientId (sc_clientsStatus sc)).

(** [operate] up to its wait. *)
Definition sc_operate_start sc (opType : string) (clientId seqNum : Z) (args : ScArgs)
    : ShardCtrler * OperateResult :=
  let '(sc, last) := sc_getClientStatus sc clientId in
  if done last seqNum then (sc, OpDone)
  else
    let '(rf, (_, _, ok)) := Start (sc_rf sc) (mkScOp opType args) in
    (sc_set_rf sc rf, if ok : bool then OpWait else OpNotLeader).

Definition Join_start sc (args : JoinArgs) :=
  sc_operate_start sc JOIN (ja_ClientId args) (ja_SeqNum args) (AJoin args).
Definition Leave_start sc (args : LeaveArgs) :=
  sc_operate_start sc LEAVE (la_ClientId args) (la_SeqNum args) (ALeave args).
Definition Move_start sc (args : MoveArgs) :=
  sc_operate_start sc MOVE (ma_ClientId args) (ma_SeqNum args) (AMove args).
Definition Query_start sc (args : QueryArgs) :=
  sc_operate_start sc QUERY (qa_ClientId args) (qa_SeqNum args) (AQuery args).

(** The replies once [operate] has returned. *)
Definition sc_reply (isLeader : bool) : Reply := mkReply (if isLeader then scOK else WrongLeader).

Definition Query_reply sc (args : QueryArgs) (isLeader : bool) : Res QueryReply :=
  if isLeader then
    c ← Configs.getConfig (configs sc) (qa_Num args);
    Ok (mkQueryReply scOK c)
  else Ok (mkQueryReply WrongLeader zeroConfig).

Definition sc_Kill sc : ShardCtrler := sc_set_rf sc (RaftCore.Kill (sc_rf sc)).

(** The configuration a Join computes; [None] if [ResetShards] hangs. *)
Definition join_config (fuel : nat) (config : Config) (groups : gmap Z (list string)) : option (Res Config) :=
  if bool_decide (Num config = 0%Z) then
    Ok <$> ResetShards fuel (set_Groups config groups)
  else Some (JoinGroups config groups).

(** The common part of the JOIN, LEAVE and MOVE cases: skip a request that
    is done, otherwise append the configuration [f] makes of a clone of the
    latest one. *)
Definition apply_config sc (clientId seqNum : Z) (f : Config → option (Res Config))
    : option (Res ShardCtrler) :=
  let '(sc, last) := sc_getClientStatus sc clientId in
  if done last seqNum then Some (Ok sc)
  else match Configs.getLatestConfig (configs sc) with
       | Panic => Some Panic
       | Ok latest =>
           r ← f (Clone latest);
           Some (config ← r;
                 let sc := sc_set_configs sc (Configs.append (configs sc) config) in
                 Ok (sc_setSeqNum sc clientId seqNum))
       end.

Definition applyScOp (fuel : nat) sc (op : ScOp) : option (Res ShardCtrler) :=
  if bool_decide (so_Type op = JOIN) then
    match so_Args op with
    | AJoin args => apply_config sc (ja_ClientId args) (ja_SeqNum args)
                      (λ config, join_config fuel config (ja_Groups args))
    | _ => Some Panic
    end
  else if bool_decide (so_Type op = LEAVE) then
    match so_Args op with
    | ALeave args => apply_config sc (la_ClientId args) (la_SeqNum args)
                       (λ config, Some (RemoveGroups config (la_GIDs args)))
    | _ => Some Panic
    end
  else if bool_decide (so_Type op = MOVE) then
    match so_Args op with
    | AMove args => apply_config sc (ma_ClientId args) (ma_SeqNum args)
                      (λ config, Some (MoveShard config (ma_Shard args) (ma_GID args)))
    | _ => Some Panic
    end
  else if bool_decide (so_Type op = QUERY) then
    match so_Args op with
    | AQuery args =>
        let '(sc, last) := sc_getClientStatus sc (qa_ClientId args) in
        Some (Ok (if negb (done last (qa_SeqNum args))
                  then sc_setSeqNum sc (qa_ClientId args) (qa_SeqNum args) else sc))
    | _ => Some Panic
    end
  else Some Panic.

(** One iteration of [applier]; snapshots are ignored. *)
Definition sc_applier (fuel : nat) sc (m : ApplyMsg ScOp) : option (Res ShardCtrler) :=
  if CommandValid m then
    match msgCommand m with
    | None => Some Panic
    | Some op => applyScOp fuel sc op
    end
  else Some (Ok sc).

Definition sc_StartServer (servers : nat) (me_ : Z) (ps : Persister) (now : Z) : Res ShardCtrler :=
  rf ← Make servers me_ ps now;
  Ok (mkShardCtrler me_ rf Configs.init ∅).

(** ** Specification vocabulary *)

(** Requests that make sense on top of [latest]. *)
Inductive good_op (latest : Config) : ScOp → Prop :=
| good_join args :
    ja_Groups args !! 0%Z = None → (Num latest = 0%Z → ja_Groups args ≠ ∅) →
    good_op latest (mkScOp JOIN (AJoin args))
| good_leave args : good_op latest (mkScOp LEAVE (ALeave args))
| good_move args :
    (0 ≤ ma_Shard args < Z.of_nat NShards)%Z → is_Some (Groups latest !! ma_GID args) →
    good_op latest (mkScOp MOVE (AMove args))
| good_query args : good_op latest (mkScOp QUERY (AQuery args)).

(** The history starts with the empty configuration, is numbered, and every
    configuration in it is valid. *)
Definition history_ok sc : Prop :=
  configs sc !! 0 = Some zeroConfig ∧
  ∀ i c, configs sc !! i = Some c → Num c = Z.of_nat i ∧ valid c.

Definition history_balanced sc : Prop := ∀ c, c ∈ configs sc → balanced c.

Definition sc_lastSeq sc (clientId : Z) : Z := default 0%Z (sc_clientsStatus sc !! clientId).

(** The client and the sequence number of a request. *)
Definition op_client (op : ScOp) : Z :=
  match so_Args op with
  | AJoin a => ja_ClientId a | ALeave a => la_ClientId a
  | AMove a => ma_ClientId a | AQuery a => qa_ClientId a
  end.
Definition op_seq (op : ScOp) : Z :=
  match so_Args op with
  | AJoin a => ja_SeqNum a | ALeave a => la_SeqNum a
  | AMove a => ma_SeqNum a | AQuery a => qa_SeqNum a
  end.

(** The servers of a group that was there, that joins, or both. *)
Definition joined (old new : option (list string)) : option (list string) :=
  match old, new with
  | None, None => None
  | _, _ => Some (default [] old ++ default [] new)
  end.

(** What a request asks for: a Join adds the groups, a Leave removes them, a
    Move gives the group the shard and changes nothing else. *)
Definition op_effect (op : ScOp) (latest c' : Config) : Prop :=
  match so_Args op with
  | AJoin a => ∀ g, Groups c' !! g = joined (Groups latest !! g) (ja_Groups a !! g)
  | ALeave a => ∀ g, Groups c' !! g = if decide (g ∈ la_GIDs a) then None else Groups latest !! g
  | AMove a => Groups c' = Groups latest ∧ Shards c' = <[Z.to_nat (ma_Shard a) := ma_GID a]> (Shards latest)
  | AQuery _ => True
  end.

(** ** Lemmas *)

Lemma Clone_id c : Clone c = c.
Proof. unfold Clone. rewrite map_fold_insert_id. by destruct c. Qed.

Lemma zeroConfig_valid : valid zeroConfig.
Proof.
  split; [done|done| |done]. intros _ g Hg. by apply (elem_of_replicate NShards 0%Z g) in Hg as [? _].
Qed.

Lemma MoveShard_ok c shard gid :
  valid c → (0 ≤ shard < Z.of_nat NShards)%Z → is_Some (Groups c !! gid) →
  ∃ c', MoveShard c shard gid = Ok c' ∧ valid c' ∧ Groups c' = Groups c ∧ Shards c' = <[Z.to_nat shard := gid]> (Shards c).
Proof.
  intros [Hl Hz He Ho] Hs [srv Hg]. unfold MoveShard. rewrite upd_in by (unfold zlen; lia). simpl.
  eexists. split; [done|]. split; [|done]. assert (Groups c ≠ ∅) by (intros Hc; by rewrite Hc, lookup_empty in Hg).
  split; simpl; [by rewrite length_insert|done|done|].
  intros _ g [j Hj]%list_elem_of_lookup. apply list_lookup_insert_Some in Hj as [(_ & -> & _)|[_ Hj]]; [by eexists|].
  apply Ho; [done|]. by eapply list_elem_of_lookup_2.
Qed.

Lemma join_config_ok fuel c groups :
  valid c → NShards ≤ fuel → groups !! 0%Z = None → (Num c = 0%Z → groups ≠ ∅) → (Num c = 0%Z → Groups c = ∅) →
  ∃ c', join_config fuel c groups = Some (Ok c') ∧ valid c' ∧ (balanced c → balanced c') ∧
    ∀ g, Groups c' !! g = joined (Groups c !! g) (groups !! g).
Proof.
  intros Hv Hf H0 Hne Hz. unfold join_config. case_bool_decide as Hn.
  - destruct (ResetShards_ok (set_Groups c groups) fuel) as (c' & Hr & ? & ? & Hg & _);
      [apply Hv|by apply Hne|done..|]. rewrite Hr. exists c'. split_and!; [done..|].
    intros g. rewrite Hg, Hz, lookup_empty by done. simpl. by destruct (groups !! g).
  - destruct (JoinGroups_run c groups Hv H0) as (c' & -> & [? ? _ _] & Hg). exists c'. split_and!; [done..|].
    intros g. rewrite Hg. unfold joined. by destruct (Groups c !! g), (groups !! g).
Qed.

(** The configuration a good request makes of the latest one. *)
Definition op_config (fuel : nat) (op : ScOp) (c : Config) : option (Res Config) :=
  match so_Args op with
  | AJoin a => join_config fuel c (ja_Groups a)
  | ALeave a => Some (RemoveGroups c (la_GIDs a))
  | AMove a => Some (MoveShard c (ma_Shard a) (ma_GID a))
  | AQuery _ => Some (Ok c)
  end.

Lemma op_config_ok fuel latest op :
  valid latest → (Num latest = 0%Z → Groups latest = ∅) → NShards ≤ fuel → good_op latest op →
  ∃ c', op_config fuel op latest = Some (Ok c') ∧ valid c' ∧
    (so_Type op ≠ MOVE → balanced latest → balanced c') ∧ op_effect op latest c'.
Proof.
  intros Hv Hz Hf Hg. unfold op_effect. destruct Hg as [args H0 Hne|args|args Hs Hgid|args]; unfold op_config; simpl.
  - destruct (join_config_ok fuel latest (ja_Groups args)) as (c' & ? & ? & ? & ?); [done..|]. exists c'. auto.
  - destruct (remove_list_spec latest (la_GIDs args) Hv) as (c' & Hr & ? & ? & _ & ? & _). exists c'.
    unfold RemoveGroups. rewrite Hr. auto.
  - destruct (MoveShard_ok latest _ _ Hv Hs Hgid) as (c' & -> & ? & ? & ?). by exists c'.
  - by exists latest.
Qed.

Lemma history_latest sc :
  history_ok sc → ∃ latest, Configs.getLatestConfig (configs sc) = Ok latest ∧ last (configs sc) = Some latest ∧
    valid latest ∧ latest ∈ configs sc ∧ (Num latest = 0%Z → Groups latest = ∅).
Proof.
  intros [H0 Hall]. pose proof (lookup_lt_Some _ _ _ H0) as Hlen. unfold Configs.getLatestConfig.
  destruct (idx_returns (configs sc) (zlen (configs sc) - 1)) as (c & Hc & Hl); [unfold zlen; lia|].
  exists c. split; [done|].
  assert (last (configs sc) = Some c) as ->.
  { rewrite last_lookup. rewrite <-Hl. f_equal. unfold zlen. lia. }
  split_and!; [done|by eapply Hall|by eapply list_elem_of_lookup_2|]. intros Hn. destruct (Hall _ _ Hl) as [Hn' _].
  replace (Z.to_nat (zlen (configs sc) - 1)) with 0 in Hl by lia. rewrite H0 in Hl. by injection Hl as <-.
Qed.

Lemma sc_getClientStatus_spec sc c :
  snd (sc_getClientStatus sc c) = sc_lastSeq sc c ∧
  configs (fst (sc_getClientStatus sc c)) = configs sc ∧
  (∀ c', sc_lastSeq (fst (sc_getClientStatus sc c)) c' = sc_lastSeq sc c') ∧
  ∀ l n c', sc_lastSeq (sc_setSeqNum (sc_set_configs (fst (sc_getClientStatus sc c)) l) c n) c' =
    if decide (c' = c) then n else sc_lastSeq sc c'.
Proof.
  unfold sc_getClientStatus, sc_lastSeq, sc_setSeqNum. destruct (sc_clientsStatus sc !! c) eqn:E; simpl.
  - split_and!; [done..|]. intros l n c'. destruct (decide (c' = c)) as [->|].
    + by rewrite lookup_alter_eq, E.
    + by rewrite lookup_alter_ne.
  - split_and!; [done..| |].
    + intros c'. destruct (decide (c = c')) as [<-|]; [by rewrite lookup_insert_eq, E|by rewrite lookup_insert_ne].
    + intros l n c'. destruct (decide (c' = c)) as [->|].
      * by rewrite lookup_alter_eq, lookup_insert_eq.
      * by rewrite lookup_alter_ne, lookup_insert_ne.
Qed.

(** The run of the applier on a good request, on both branches. *)
Lemma applyScOp_run fuel sc op latest :
  history_ok sc → NShards ≤ fuel → last (configs sc) = Some latest → good_op latest op →
  ∃ sc', applyScOp fuel sc op = Some (Ok sc') ∧
    (∀ c, sc_lastSeq sc' c =
       if decide (c = op_client op) then Z.max (sc_lastSeq sc c) (op_seq op) else sc_lastSeq sc c) ∧
    if bool_decide (sc_lastSeq sc (op_client op) < op_seq op)%Z && bool_decide (so_Type op ≠ QUERY) then
      ∃ c', op_config fuel op latest = Some (Ok c') ∧ configs sc' = Configs.append (configs sc) c'
    else configs sc' = configs sc.
Proof.
  intros Hh Hf Hlast Hg. destruct (history_latest sc Hh) as (latest' & Hlat & Hlast' & Hv & _ & Hz).
  assert (latest' = latest) as -> by congruence.
  destruct (op_config_ok fuel latest op Hv Hz Hf Hg) as (c' & Hop & _).
  destruct (sc_getClientStatus_spec sc (op_client op)) as (Hsnd & Hcfg & Hsame & Hset).
  assert (Hseq : ∀ l c, (sc_lastSeq sc (op_client op) < op_seq op)%Z →
    sc_lastSeq (sc_setSeqNum (sc_set_configs (fst (sc_getClientStatus sc (op_client op))) l) (op_client op) (op_seq op)) c =
    if decide (c = op_client op) then Z.max (sc_lastSeq sc c) (op_seq op) else sc_lastSeq sc c).
  { intros l c Hlt. rewrite Hset. destruct (decide (c = op_client op)) as [->|]; [lia|done]. }
  assert (Hold : (op_seq op ≤ sc_lastSeq sc (op_client op))%Z → ∀ c,
    sc_lastSeq (fst (sc_getClientStatus sc (op_client op))) c =
    if decide (c = op_client op) then Z.max (sc_lastSeq sc c) (op_seq op) else sc_lastSeq sc c).
  { intros Hle c. rewrite Hsame. destruct (decide (c = op_client op)) as [->|]; [lia|done]. }
  assert (Hap : so_Type op ≠ QUERY → ∃ sc', apply_config sc (op_client op) (op_seq op) (op_config fuel op) = Some (Ok sc') ∧
    (∀ c, sc_lastSeq sc' c =
       if decide (c = op_client op) then Z.max (sc_lastSeq sc c) (op_seq op) else sc_lastSeq sc c) ∧
    if bool_decide (sc_lastSeq sc (op_client op) < op_seq op)%Z && bool_decide (so_Type op ≠ QUERY) then
      ∃ c', op_config fuel op latest = Some (Ok c') ∧ configs sc' = Configs.append (configs sc) c'
    else configs sc' = configs sc).
  { intros Hq. rewrite (bool_decide_true (so_Type op ≠ QUERY)) by done. rewrite andb_true_r.
    unfold apply_config, done. destruct (sc_getClientStatus sc (op_client op)) as [sc1 lst]. simpl in *. subst lst.
    rewrite Hcfg, Hlat, Clone_id, Hop. simpl.
    destruct (decide (sc_lastSeq sc (op_client op) < op_seq op)%Z).
    - rewrite bool_decide_false, bool_decide_true by lia. eexists. split; [done|]. split; [|by exists c'].
      intros c. by apply Hseq.
    - rewrite bool_decide_true, bool_decide_false by lia. eexists. split; [done|]. split; [|done].
      apply Hold. lia. }
  destruct Hg as [args|args|args|args]; unfold applyScOp; simpl in *; [by apply Hap..|].
  rewrite andb_false_r. unfold op_client, op_seq, done in *; simpl in *.
  destruct (sc_getClientStatus sc (qa_ClientId args)) as [sc1 lst]. simpl in *. subst lst.
  destruct (decide (sc_lastSeq sc (qa_ClientId args) < qa_SeqNum args)%Z).
  - rewrite bool_decide_false by lia. simpl. eexists. split; [done|]. split; [|done].
    intros c. rewrite <-(Hseq (configs sc1) c) by done. done.
  - rewrite bool_decide_true by lia. simpl. eexists. split; [done|]. split; [|done]. apply Hold. lia.
Qed.

(** C29: the history of configurations.  On a request that makes sense the
    applier neither panics nor hangs.  A Join, Leave or Move that is new (its
    sequence number is larger than the client's last) adds one configuration
    at the end, numbered by its position, that does what the request asks
    for; any other request adds none.  No earlier configuration changes, all
    configurations stay valid, and they stay balanced unless the request is a
    Move; and the client's sequence number is noted. *)
Theorem sc_history fuel sc op latest :
  history_ok sc → NShards ≤ fuel → last (configs sc) = Some latest → good_op latest op →
  ∃ sc' new, applyScOp fuel sc op = Some (Ok sc') ∧ configs sc' = configs sc ++ new ∧
    (if bool_decide (sc_lastSeq sc (op_client op) < op_seq op)%Z && bool_decide (so_Type op ≠ QUERY)
     then ∃ c', new = [c'] ∧ Num c' = zlen (configs sc) ∧ op_effect op latest c'
     else new = []) ∧
    history_ok sc' ∧ (so_Type op ≠ MOVE → history_balanced sc → history_balanced sc') ∧
    ∀ c, sc_lastSeq sc' c = if decide (c = op_client op) then Z.max (sc_lastSeq sc c) (op_seq op) else sc_lastSeq sc c.
Proof.
  intros Hh Hf Hlast Hg. destruct (applyScOp_run fuel sc op latest Hh Hf Hlast Hg) as (sc' & Hrun & Hseq & Hcfg).
  exists sc'. destruct (_ && _).
  - destruct Hcfg as (c' & Hop & Hcfg). destruct (history_latest sc Hh) as (latest' & _ & Hlast' & Hv & Hin & Hz).
    assert (latest' = latest) as -> by congruence.
    destruct (op_config_ok fuel latest op Hv Hz Hf Hg) as (c1 & Hop1 & Hv1 & Hb1 & Heff).
    rewrite Hop in Hop1. injection Hop1 as ->. eexists. split_and!; [done|exact Hcfg| | | |done].
    + eexists. split_and!; [done|done|]. unfold op_effect in *. by destruct (so_Args op).
    + destruct Hh as [H0 Hall]. unfold history_ok. rewrite Hcfg. unfold Configs.append. split.
      * rewrite lookup_app_l; [done|]. by eapply lookup_lt_Some.
      * intros i c [Hi|[Hi Hc]]%lookup_app_Some; [by apply Hall|].
        apply list_lookup_singleton_Some in Hc as [Hi0 <-]. simpl. split; [unfold zlen; lia|].
        destruct Hv1. by split.
    + intros Hm Hb c. rewrite Hcfg. unfold Configs.append.
      intros [?| ->%list_elem_of_singleton]%elem_of_app; [by apply Hb|].
      intros g1 g2 ? ?. by apply (Hb1 Hm (Hb latest Hin)).
  - exists []. rewrite app_nil_r. split_and!; [done|done|done| | |done].
    + unfold history_ok. by rewrite Hcfg.
    + unfold history_balanced. by rewrite Hcfg.
Qed.

(** A retransmitted request changes nothing: once a request was
    applied, applying it again adds no configuration. *)
Theorem sc_at_most_once fuel sc op latest :
  history_ok sc → NShards ≤ fuel → last (configs sc) = Some latest → good_op latest op →
  (op_seq op ≤ sc_lastSeq sc (op_client op))%Z →
  ∃ sc', applyScOp fuel sc op = Some (Ok sc') ∧ configs sc' = configs sc ∧
    ∀ c, sc_lastSeq sc' c = sc_lastSeq sc c.
Proof.
  intros Hh Hf Hlast Hg Hle. destruct (applyScOp_run fuel sc op latest Hh Hf Hlast Hg) as (sc' & Hrun & Hs & Hcfg).
  rewrite bool_decide_false in Hcfg by lia. exists sc'. split_and!; [done..|].
  intros c. rewrite Hs. destruct (decide (c = op_client op)) as [->|]; [lia|done].
Qed.

(** What Query returns: the configuration with the requested number if
    there is one, and the latest one otherwise (in particular for -1). *)
Theorem Query_spec sc args :
  history_ok sc →
  ∃ c, Query_reply sc args true = Ok (mkQueryReply scOK c) ∧ valid c ∧ c ∈ configs sc ∧
    if bool_decide (0 ≤ qa_Num args < zlen (configs sc))%Z then Num c = qa_Num args
    else last (configs sc) = Some c.
Proof.
  intros Hh. pose proof Hh as [H0 Hall]. unfold Query_reply, Configs.getConfig.
  destruct (decide (0 ≤ qa_Num args < zlen (configs sc))%Z) as [Hin|Hout].
  - rewrite (bool_decide_true (0 ≤ qa_Num args)%Z), (bool_decide_true (_ < _)%Z), (bool_decide_true (_ ∧ _)) by lia.
    destruct (idx_returns (configs sc) (qa_Num args) Hin) as (c & -> & Hc). simpl. exists c.
    destruct (Hall _ _ Hc). split_and!; [done..|by eapply list_elem_of_lookup_2|lia].
  - rewrite (bool_decide_false (_ ∧ _)) by lia.
    destruct (history_latest sc Hh) as (c & Hlat & Hl & Hv & Hc & _). unfold Configs.getLatestConfig in Hlat.
    replace (bool_decide (0 ≤ qa_Num args)%Z && _) with false.
    2: { symmetry. apply andb_false_iff. rewrite !bool_decide_eq_false. lia. }
    rewrite Hlat. by exists c.
Qed.

(** C38: a first Join without groups hangs the applier: whatever time it is
    given, the iteration does not end. *)
Theorem first_join_hangs fuel sc args :
  configs sc = [zeroConfig] → ja_Groups args = ∅ →
  (sc_lastSeq sc (ja_ClientId args) < ja_SeqNum args)%Z →
  applyScOp fuel sc (mkScOp JOIN (AJoin args)) = None.
Proof.
  intros Hc Hg Hlt. unfold applyScOp, apply_config; simpl.
  destruct (sc_getClientStatus_spec sc (ja_ClientId args)) as (Hsnd & Hcfg & _).
  destruct (sc_getClientStatus sc (ja_ClientId args)) as [sc1 lst]. simpl in *. subst lst.
  unfold done. rewrite bool_decide_false by lia. rewrite Hcfg, Hc. simpl. unfold join_config. simpl.
  by rewrite Hg, ResetShards_empty.
Qed.
End ShardCtrler.

(** ** client.go *)

(** The struct, [nrand] and [call] are copies of those of the key/value
    clerk, with the reply types of the controller. *)
Definition sc_MakeClerk (nservers random : Z) : Clerk := mkClerk nservers 0 (nrand random) 0.

Definition sc_call {R} (wrongLeader : R → bool) (ck : Clerk) (events : list (CallEvent R))
    : Res (Clerk * list Z * option R) :=
  '(ids, res) ← call_loop wrongLeader (ck_nservers ck) (ck_leaderId ck) 0 events;
  match res with
  | Some (sid, r) => Ok (mkClerk (ck_nservers ck) (ck_seqNum ck) (ck_clientId ck) sid, ids, Some r)
  | None => Ok (ck, ids, None)
  end.

Definition scWrongLeader (r : Reply) : bool := bool_decide (re_Err r = WrongLeader).
Definition queryWrongLeader (r : QueryReply) : bool := bool_decide (qr_Err r = WrongLeader).

Definition ck_Query (ck : Clerk) (num : Z) (events : list (CallEvent QueryReply))
    : Res (Clerk * QueryArgs * option Config) :=
  let '(ck, n) := nextSeq ck in
  let args := mkQueryArgs num n (ck_clientId ck) in
  x ← sc_call queryWrongLeader ck events;
  let '(ck, _, res) := x in Ok (ck, args, option_map qr_Config res).

Definition ck_Join (ck : Clerk) (groups : gmap Z (list string)) (events : list (CallEvent Reply))
    : Res (Clerk * JoinArgs * option unit) :=
  let '(ck, n) := nextSeq ck in
  let args := mkJoinArgs groups n (ck_clientId ck) in
  x ← sc_call scWrongLeader ck events;
  let '(ck, _, res) := x in Ok (ck, args, option_map (λ _, tt) res).

Definition ck_Leave (ck : Clerk) (gids : list Z) (events : list (CallEvent Reply))
    : Res (Clerk * LeaveArgs * option unit) :=
  let '(ck, n) := nextSeq ck in
  let args := mkLeaveArgs gids n (ck_clientId ck) in
  x ← sc_call scWrongLeader ck events;
  let '(ck, _, res) := x in Ok (ck, args, option_map (λ _, tt) res).

Definition ck_Move (ck : Clerk) (shard gid : Z) (events : list (CallEvent Reply))
    : Res (Clerk * MoveArgs * option unit) :=
  let '(ck, n) := nextSeq ck in
  let args := mkMoveArgs shard gid n (ck_clientId ck) in
  x ← sc_call scWrongLeader ck events;
  let '(ck, _, res) := x in Ok (ck, args, option_map (λ _, tt) res).
