(* ===== verification/ShardKV.v ===== *)
(** * The sharded key/value server (src/shardkv/server.go, common.go)

    One replica of one group.  The store is an array of [NShards] maps; the
    replicated configuration says which shards the group serves.  Requests
    of clients, shard transfers, deletions and configuration changes all go
    through the group's Raft log and are applied by [apply]; [nextConfig],
    [seqNum], the leader cache and the set of configurations in processing
    belong to this replica only.

    [Op.Args] is a Go interface: the type assertions of [applyOp] panic on
    another dynamic type.  Shard numbers that come from a request index
    arrays, so they can panic too.  Ranging over the map of shards visits it
    in the order of [map_to_list]; the shards are independent.

    Theorems: a key is served exactly by the owner of its shard, a refused
    request is not marked as done, a done one is not executed again; on
    well-formed requests nothing panics and configuration numbers never go
    back; a transferred shard arrives with its contents and with enough of
    the client table that no request runs twice; a repeated transfer does
    nothing; snapshots restore the state; and deleting shards depends on
    state that is not replicated. *)

From stdpp Require Import strings countable base gmap list.
From Stdlib Require Import ZArith Lia Ascii.
From S2P Require Import Prelude RaftLog RaftCore RaftApply ShardConfig KVRaft Clerk ShardCtrler.

(** ** client.go *)

(** [int(key[0]) % NShards], the first byte of the key. *)
Definition key2shard (key : string) : Z :=
  let shard := match key with
               | String b _ => Z.of_nat (Ascii.nat_of_ascii b)
               | EmptyString => 0%Z
               end in
  Z.rem shard (Z.of_nat NShards).

(** ** common.go *)

Inductive skErr : Type := skOK | skErrNoKey | skErrWrongGroup | skErrWrongLeader.

Global Instance skErr_eq_dec : EqDecision skErr.
Proof. solve_decision. Defined.

Definition SET_CONFIG : string := "SetConfig".
Definition GET_SHARDS : string := "GetShards".
Definition PUT_SHARDS : string := "PutShards".
Definition DELETE_SHARDS : string := "DeleteShards".

Record SkReply : Type := mkSkReply { skr_Err : skErr }.
Record SkGetReply : Type := mkSkGetReply { skg_Err : skErr; skg_Value : string }.
Record GetShardsArgs : Type := mkGetShardsArgs {
  gsa_ConfigNum : Z; gsa_Shards : list Z; gsa_SeqNum : Z; gsa_ClientId : Z }.
Record GetShardsReply : Type := mkGetShardsReply {
  gsr_Err : skErr; gsr_Shards : gmap Z Data; gsr_ClientSeqNumMap : gmap Z Z }.
Record PutShardsArgs : Type := mkPutShardsArgs {
  psa_Shards : gmap Z Data; psa_ClientSeqNumMap : gmap Z Z; psa_SeqNum : Z; psa_ClientId : Z }.
Record SetConfigArgs : Type := mkSetConfigArgs {
  sca_Config : Config; sca_SeqNum : Z; sca_ClientId : Z }.
Record DeleteShardsArgs : Type := mkDeleteShardsArgs {
  dsa_ConfigNum : Z; dsa_Shards : list Z; dsa_SeqNum : Z; dsa_ClientId : Z }.

(** ** server.go *)

(** The dynamic types of [Op.Args]. *)
Inductive SkArgs : Type :=
| KPutAppend (args : PutAppendArgs)
| KGet (args : GetArgs)
| KGetShards (args : GetShardsArgs)
| KPutShards (args : PutShardsArgs)
| KDeleteShards (args : DeleteShardsArgs)
| KSetConfig (args : SetConfigArgs).

Record SkOp : Type := mkSkOp { sk_Type : string; sk_Args : SkArgs }.

(** [ClientStatus] and [ClientStatusMap]: the sequence number per client. *)
Module ClientStatusMap.
(** The sequence number only grows. *)
Definition updateSeqNum (last seqNum : Z) : Z := if bool_decide (seqNum > last)%Z then seqNum else last.

Definition getClientSeqNumMap (m : gmap Z Z) : gmap Z Z :=
  map_fold (λ clientId last r, <[clientId := last]> r) ∅ m.

(** [get]: the status of the client, created at 0 if it is not known. *)
Definition get (m : gmap Z Z) (clientId : Z) : gmap Z Z * Z :=
  match m !! clientId with
  | Some last => (m, last)
  | None => (<[clientId := 0%Z]> m, 0%Z)
  end.

(** [m.get(clientId).updateSeqNum(seqNum)] *)
Definition update (m : gmap Z Z) (clientId seqNum : Z) : gmap Z Z :=
  alter (λ last, updateSeqNum last seqNum) clientId (fst (get m clientId)).

Definition putClientSeqNumMap (m new : gmap Z Z) : gmap Z Z :=
  foldl (λ m '(clientId, seqNum), update m clientId seqNum) m (map_to_list new).
End ClientStatusMap.

(** [ConfigInPrecessingMap] *)
Module ConfigInProcessingMap.
Definition put (m : gmap Z bool) (num : Z) : gmap Z bool * bool :=
  if default false (m !! num) then (m, false) else (<[num := true]> m, true).

Definition isInProcessing (m : gmap Z bool) (num : Z) : bool := default false (m !! num).
End ConfigInProcessingMap.

Section ShardKV.
(** What [snapshot] encodes. *)
Definition SkSnapshot : Type := Z * list Data * Config * gmap Z Z.

Context `{!Gob (PState SkOp), !Gob SkSnapshot}.

Record ShardKV : Type := mkShardKV {
  sk_me : Z;
  sk_raft : Raft SkOp;
  sk_gid : Z;
  sk_maxraftstate : Z;
  config : Config;
  nextConfig : Config;
  sk_store : list Data; (* one map per shard *)
  clientStatusMap : gmap Z Z;
  sk_seqNum : Z;
  sk_clientId : Z;
  groupLeaderMap : gmap Z Z;
  configInPrecessingMap : gmap Z bool;
}.

Implicit Types kv : ShardKV.

(** Field assignments. *)
Ltac sk_set kv x v :=
  field_update constr:(
    mkShardKV (sk_me kv) (sk_raft kv) (sk_gid kv) (sk_maxraftstate kv) (config kv) (nextConfig kv)
      (sk_store kv) (clientStatusMap kv) (sk_seqNum kv) (sk_clientId kv) (groupLeaderMap kv)
      (configInPrecessingMap kv)) x v.

Definition set_raft kv (v : Raft SkOp) : ShardKV := ltac:(sk_set kv (sk_raft kv) v).
Definition set_config kv (v : Config) : ShardKV := ltac:(sk_set kv (config kv) v).
Definition set_nextConfig kv (v : Config) : ShardKV := ltac:(sk_set kv (nextConfig kv) v).
Definition set_store kv (v : list Data) : ShardKV := ltac:(sk_set kv (sk_store kv) v).
Definition set_clients kv (v : gmap Z Z) : ShardKV := ltac:(sk_set kv (clientStatusMap kv) v).
Definition set_seqNum kv (v : Z) : ShardKV := ltac:(sk_set kv (sk_seqNum kv) v).
Definition set_groupLeader kv (v : gmap Z Z) : ShardKV := ltac:(sk_set kv (groupLeaderMap kv) v).
Definition set_inProcessing kv (v : gmap Z bool) : ShardKV := ltac:(sk_set kv (configInPrecessingMap kv) v).

(** *** The store *)

Definition initStore : list Data := replicate NShards ∅.

(** [kv.gid != kv.config.Shards[shard]] *)
Definition wrongGroup kv (shard : Z) : Res bool :=
  owner ← idx (Shards (config kv)) shard; Ok (bool_decide (sk_gid kv ≠ owner)).

Definition sk_get kv (key : string) : Res (string * skErr) :=
  let shard := key2shard key in
  wrong ← wrongGroup kv shard;
  if wrong : bool then Ok (EmptyString, skErrWrongGroup)
  else
    data ← idx (sk_store kv) shard;
    match data !! key with
    | None => Ok (EmptyString, skErrNoKey)
    | Some value => Ok (value, skOK)
    end.

Definition sk_put kv (key value : string) : Res (ShardKV * skErr) :=
  let shard := key2shard key in
  wrong ← wrongGroup kv shard;
  if wrong : bool then Ok (kv, skErrWrongGroup)
  else
    data ← idx (sk_store kv) shard;
    st ← upd (sk_store kv) shard (<[key := value]> data);
    Ok (set_store kv st, skOK).

Definition sk_append kv (key value : string) : Res (ShardKV * skErr) :=
  let shard := key2shard key in
  wrong ← wrongGroup kv shard;
  if wrong : bool then Ok (kv, skErrWrongGroup)
  else
    data ← idx (sk_store kv) shard;
    st ← upd (sk_store kv) shard
           (match data !! key with
            | Some val => <[key := val +:+ value]> data
            | None => <[key := value]> data
            end);
    Ok (set_store kv st, skOK).

(** Copying into fresh maps leaves the maps of the snapshot. *)
Definition setStore kv (st : list Data) (c : Config) : ShardKV :=
  let fresh := imap (λ shard data, map_fold (λ k v m, <[k := v]> m) (default ∅ (initStore !! shard)) data) st in
  set_config (set_store kv fresh) (Clone c).

(** One shard of [putShards]. *)
Definition putShard kv (sd : Z * Data) : Res ShardKV :=
  let '(shard, data) := sd in
  owner ← idx (Shards (config kv)) shard;
  if bool_decide (owner = sk_gid kv) then Ok kv
  else
    st ← upd (sk_store kv) shard (map_fold (λ k v m, <[k := v]> m) ∅ data);
    owners ← upd (Shards (config kv)) shard (sk_gid kv);
    Ok (set_config (set_store kv st) (set_Shards (config kv) owners)).

Definition putShards kv (shards : gmap Z Data) : Res ShardKV :=
  foldM putShard kv (map_to_list shards).

Definition getShards kv (shards : list Z) : Res (gmap Z Data) :=
  foldM (λ data shard, d ← idx (sk_store kv) shard; Ok (<[shard := d]> data)) ∅ shards.

(** One shard of [deleteShards]. *)
Definition deleteShard kv (shard : Z) : Res ShardKV :=
  owner ← idx (Shards (config kv)) shard;
  next ← idx (Shards (nextConfig kv)) shard;
  if bool_decide (owner ≠ sk_gid kv) && bool_decide (next ≠ sk_gid kv) then
    st ← upd (sk_store kv) shard ∅; Ok (set_store kv st)
  else Ok kv.

Definition deleteShards kv (configNum : Z) (shards : list Z) : Res ShardKV :=
  foldM deleteShard kv shards.

Definition setConfig kv (c : Config) : ShardKV :=
  if bool_decide (Num c > Num (config kv))%Z then set_config kv c else kv.

(** *** Handlers, up to the wait of [operate] *)

Definition sk_operate_start kv (opType : string) (clientId seqNum : Z) (args : SkArgs)
    : ShardKV * OperateResult :=
  let '(m, last) := ClientStatusMap.get (clientStatusMap kv) clientId in
  let kv := set_clients kv m in
  if done last seqNum then (kv, OpDone)
  else
    let '(rf, (_, _, ok)) := Start (sk_raft kv) (mkSkOp opType args) in
    (set_raft kv rf, if ok : bool then OpWait else OpNotLeader).

Definition skGet_start kv (args : GetArgs) :=
  sk_operate_start kv GET (ga_ClientId args) (ga_SeqNum args) (KGet args).
Definition skPutAppend_start kv (args : PutAppendArgs) :=
  sk_operate_start kv (paa_Op args) (paa_ClientId args) (paa_SeqNum args) (KPutAppend args).
Definition SetConfig_start kv (args : SetConfigArgs) :=
  sk_operate_start kv SET_CONFIG (sca_ClientId args) (sca_SeqNum args) (KSetConfig args).
Definition PutShards_start kv (args : PutShardsArgs) :=
  sk_operate_start kv PUT_SHARDS (psa_ClientId args) (psa_SeqNum args) (KPutShards args).
Definition DeleteShards_start kv (args : DeleteShardsArgs) :=
  sk_operate_start kv DELETE_SHARDS (dsa_ClientId args) (dsa_SeqNum args) (KDeleteShards args).

(** [GetShards] first waits until this replica has the configuration:
    [None] while it waits. *)
Definition GetShards_start kv (args : GetShardsArgs) : option (ShardKV * OperateResult) :=
  if bool_decide (Num (config kv) < gsa_ConfigNum args)%Z then None
  else Some (sk_operate_start kv GET_SHARDS (gsa_ClientId args) (gsa_SeqNum args) (KGetShards args)).

(** The replies once [operate] has returned. *)
Definition sk_reply (isLeader : bool) : SkReply := mkSkReply (if isLeader then skOK else skErrWrongLeader).

Definition skGet_reply kv (args : GetArgs) (isLeader : bool) : Res SkGetReply :=
  if isLeader then
    '(value, err) ← sk_get kv (ga_Key args); Ok (mkSkGetReply err value)
  else Ok (mkSkGetReply skErrWrongLeader EmptyString).

Definition GetShards_reply kv (args : GetShardsArgs) (isLeader : bool) : Res GetShardsReply :=
  if isLeader then
    shards ← getShards kv (gsa_Shards args);
    Ok (mkGetShardsReply skOK shards (ClientStatusMap.getClientSeqNumMap (clientStatusMap kv)))
  else Ok (mkGetShardsReply skErrWrongLeader ∅ ∅).
(** *** The applier *)

(** [clientStatus := kv.clientStatusMap.get(clientId)] and the test of
    [done]: [body] runs on requests that are not done. *)
Definition unlessDone kv (clientId seqNum : Z) (body : ShardKV → Res ShardKV) : Res ShardKV :=
  let '(m, last) := ClientStatusMap.get (clientStatusMap kv) clientId in
  let kv := set_clients kv m in
  if negb (done last seqNum) then body kv else Ok kv.

(** [clientStatus.updateSeqNum(seqNum)] *)
Definition markDone kv (clientId seqNum : Z) : ShardKV :=
  set_clients kv (alter (λ last, ClientStatusMap.updateSeqNum last seqNum) clientId (clientStatusMap kv)).

Definition sk_applyOp kv (op : SkOp) : Res ShardKV :=
  if bool_decide (sk_Type op = PUT) then
    match sk_Args op with
    | KPutAppend args => unlessDone kv (paa_ClientId args) (paa_SeqNum args) (λ kv,
        '(kv, err) ← sk_put kv (paa_Key args) (paa_Value args);
        Ok (if bool_decide (err ≠ skErrWrongGroup)
            then markDone kv (paa_ClientId args) (paa_SeqNum args) else kv))
    | _ => Panic
    end
  else if bool_decide (sk_Type op = APPEND) then
    match sk_Args op with
    | KPutAppend args => unlessDone kv (paa_ClientId args) (paa_SeqNum args) (λ kv,
        '(kv, err) ← sk_append kv (paa_Key args) (paa_Value args);
        Ok (if bool_decide (err ≠ skErrWrongGroup)
            then markDone kv (paa_ClientId args) (paa_SeqNum args) else kv))
    | _ => Panic
    end
  else if bool_decide (sk_Type op = GET) then
    match sk_Args op with
    | KGet args => unlessDone kv (ga_ClientId args) (ga_SeqNum args) (λ kv,
        '(_, err) ← sk_get kv (ga_Key args);
        Ok (if bool_decide (err ≠ skErrWrongGroup)
            then markDone kv (ga_ClientId args) (ga_SeqNum args) else kv))
    | _ => Panic
    end
  else if bool_decide (sk_Type op = GET_SHARDS) then
    match sk_Args op with
    | KGetShards args => unlessDone kv (gsa_ClientId args) (gsa_SeqNum args) (λ kv,
        Ok (markDone kv (gsa_ClientId args) (gsa_SeqNum args)))
    | _ => Panic
    end
  else if bool_decide (sk_Type op = PUT_SHARDS) then
    match sk_Args op with
    | KPutShards args => unlessDone kv (psa_ClientId args) (psa_SeqNum args) (λ kv,
        kv ← putShards kv (psa_Shards args);
        let kv := set_clients kv
          (ClientStatusMap.putClientSeqNumMap (clientStatusMap kv) (psa_ClientSeqNumMap args)) in
        Ok (markDone kv (psa_ClientId args) (psa_SeqNum args)))
    | _ => Panic
    end
  else if bool_decide (sk_Type op = DELETE_SHARDS) then
    match sk_Args op with
    | KDeleteShards args => unlessDone kv (dsa_ClientId args) (dsa_SeqNum args) (λ kv,
        kv ← deleteShards kv (dsa_ConfigNum args) (dsa_Shards args);
        Ok (markDone kv (dsa_ClientId args) (dsa_SeqNum args)))
    | _ => Panic
    end
  else if bool_decide (sk_Type op = SET_CONFIG) then
    match sk_Args op with
    | KSetConfig args => unlessDone kv (sca_ClientId args) (sca_SeqNum args) (λ kv,
        Ok (markDone (setConfig kv (Clone (sca_Config args))) (sca_ClientId args) (sca_SeqNum args)))
    | _ => Panic
    end
  else Panic.

Definition sk_snapshotBytes kv (logIndex : Z) : bytes :=
  gob_encode (logIndex, sk_store kv, config kv,
              ClientStatusMap.getClientSeqNumMap (clientStatusMap kv)).

Definition sk_snapshot kv (logIndex : Z) : Res ShardKV :=
  rf ← Snapshot (sk_raft kv) logIndex (sk_snapshotBytes kv logIndex);
  Ok (set_raft kv rf).

Definition sk_applySnap kv (snap : bytes) (index : Z) : Res ShardKV :=
  if bool_decide (snap = []) then Panic
  else match gob_decode snap with
  | None => Panic
  | Some (lastIncludedIndex, st, c, clientSeqNumMap) =>
      if bool_decide (index ≠ -1)%Z && bool_decide (index ≠ lastIncludedIndex) then Panic
      else
        let kv := setStore kv st c in
        Ok (set_clients kv (foldl (λ m '(clientId, seqNum), ClientStatusMap.update m clientId seqNum)
                              (clientStatusMap kv) (map_to_list clientSeqNumMap)))
  end.

Definition apply kv (m : ApplyMsg SkOp) : Res ShardKV :=
  if SnapshotValid m then sk_applySnap kv (msgSnapshot m) (SnapshotIndex m)
  else if CommandValid m then
    match msgCommand m with
    | None => Panic
    | Some op =>
        kv ← sk_applyOp kv op;
        if bool_decide (sk_maxraftstate kv > 0)%Z &&
           bool_decide (Persister.RaftStateSize (persister (sk_raft kv)) >= sk_maxraftstate kv)%Z
        then sk_snapshot kv (CommandIndex m)
        else Ok kv
    end
  else Ok kv.

(** *** Changing the configuration *)

(** [atomic.AddInt64(&kv.seqNum, 1)] *)
Definition sk_nextSeq kv : ShardKV * Z :=
  let n := wrap64 (sk_seqNum kv + 1) in (set_seqNum kv n, n).

(** [callOtherGroup]: [n] servers, what the channels deliver, and the
    leader cache ([gid] 0 entries default to 0). *)
Definition sk_callOtherGroup {R} (wrongLeader : R → bool) kv (gid : Z) (n : Z) (events : list (CallEvent R))
    : Res (ShardKV * option R) :=
  let leaderId := default 0%Z (groupLeaderMap kv !! gid) in
  '(_, res) ← call_loop wrongLeader n leaderId 0 events;
  match res with
  | Some (sid, r) => Ok (set_groupLeader kv (<[gid := sid]> (groupLeaderMap kv)), Some r)
  | None => Ok (kv, None)
  end.

Definition contains (arr : list Z) (o : Z) : bool := existsb (λ v, bool_decide (v = o)) arr.

Definition addMigration kv (oldConfig : Config) (m : gmap Z (list Z)) (shard : Z) : Res (gmap Z (list Z)) :=
  gid ← idx (Shards oldConfig) shard;
  _ ← Assert (bool_decide (gid ≠ sk_gid kv));
  if bool_decide (gid ≠ 0%Z) then Ok (<[gid := default [] (m !! gid) ++ [shard]]> m) else Ok m.

Definition getMigrationFromGroupShardsMap kv (oldConfig newConfig : Config) : Res (gmap Z (list Z)) :=
  let oldShards := default [] (GetGroupShardsMap oldConfig !! sk_gid kv) in
  let newShards := default [] (GetGroupShardsMap newConfig !! sk_gid kv) in
  let migrationShards := filter (λ newSd, contains oldShards newSd = false) newShards in
  foldM (addMigration kv oldConfig) ∅ migrationShards.

(** [changeConfig] up to the migration; [answer] is what the controller
    replies to the query.  The old and the new configuration when there is
    something to do. *)
Definition changeConfig_start kv (answer : Config) : Res (ShardKV * option (Config * Config)) :=
  let oldConfig := config kv in
  let kv := if bool_decide (Num (nextConfig kv) ≤ Num oldConfig)%Z then set_nextConfig kv answer else kv in
  let newConfig := nextConfig kv in
  if bool_decide (Num newConfig = Num oldConfig) then Ok (kv, None)
  else
    let '(m, fresh) := ConfigInProcessingMap.put (configInPrecessingMap kv) (Num newConfig) in
    let kv := set_inProcessing kv m in
    if fresh : bool then
      _ ← Assert (bool_decide (Num newConfig > Num oldConfig)%Z);
      Ok (kv, Some (oldConfig, newConfig))
    else Ok (kv, None).

(** The requests of [migration]: to a source group, to the own group with
    what the source replied, and back to the source group. *)
Definition migration_get kv (newConfig : Config) (shards : list Z) : ShardKV * GetShardsArgs :=
  let '(kv, n) := sk_nextSeq kv in (kv, mkGetShardsArgs (Num newConfig) shards n (sk_clientId kv)).
Definition migration_put kv (reply : GetShardsReply) : ShardKV * PutShardsArgs :=
  let '(kv, n) := sk_nextSeq kv in
  (kv, mkPutShardsArgs (gsr_Shards reply) (gsr_ClientSeqNumMap reply) n (sk_clientId kv)).
Definition migration_delete kv (newConfig : Config) (shards : list Z) : ShardKV * DeleteShardsArgs :=
  let '(kv, n) := sk_nextSeq kv in (kv, mkDeleteShardsArgs (Num newConfig) shards n (sk_clientId kv)).

(** The last request of [changeConfig], to the own group. *)
Definition changeConfig_end kv (newConfig : Config) : ShardKV * SetConfigArgs :=
  let '(kv, n) := sk_nextSeq kv in (kv, mkSetConfigArgs newConfig n (sk_clientId kv)).

Definition sk_Kill kv : ShardKV := set_raft kv (RaftCore.Kill (sk_raft kv)).
Definition sk_Killed kv : bool := RaftCore.Killed (sk_raft kv).

Definition sk_StartServer (servers : nat) (me_ : Z) (ps : Persister) (max gid random now : Z) : Res ShardKV :=
  rf ← Make servers me_ ps now;
  Ok {| sk_me := me_; sk_raft := rf; sk_gid := gid; sk_maxraftstate := max;
        config := zeroConfig; nextConfig := zeroConfig; sk_store := initStore;
        clientStatusMap := ∅; sk_seqNum := 0; sk_clientId := nrand random;
        groupLeaderMap := {[ gid := me_ ]}; configInPrecessingMap := ∅ |}.
(** ** Specification vocabulary *)

Record skv_wf kv : Prop := {
  swf_config : length (Shards (config kv)) = NShards;
  swf_next : length (Shards (nextConfig kv)) = NShards;
  swf_store : length (sk_store kv) = NShards;
}.

Definition sk_lastSeq kv (c : Z) : Z := default 0%Z (clientStatusMap kv !! c).

Definition in_range (s : Z) : Prop := (0 ≤ s < Z.of_nat NShards)%Z.

(** Requests with arguments of the right type and shards that exist. *)
Inductive sk_good : SkOp → Prop :=
| good_put args : sk_good (mkSkOp PUT (KPutAppend args))
| good_append args : sk_good (mkSkOp APPEND (KPutAppend args))
| good_get args : sk_good (mkSkOp GET (KGet args))
| good_getShards args : sk_good (mkSkOp GET_SHARDS (KGetShards args))
| good_putShards args :
    (∀ s, is_Some (psa_Shards args !! s) → in_range s) → sk_good (mkSkOp PUT_SHARDS (KPutShards args))
| good_deleteShards args :
    (∀ s, s ∈ dsa_Shards args → in_range s) → sk_good (mkSkOp DELETE_SHARDS (KDeleteShards args))
| good_setConfig args :
    length (Shards (sca_Config args)) = NShards → sk_good (mkSkOp SET_CONFIG (KSetConfig args)).

(** The value of a key, wherever its shard is served. *)
Definition sk_lookup kv (key : string) : option string :=
  data ← sk_store kv !! Z.to_nat (key2shard key); data !! key.

(** The group serves the shard. *)
Definition serves kv (s : Z) : Prop := Shards (config kv) !! Z.to_nat s = Some (sk_gid kv).

Global Instance serves_dec kv s : Decision (serves kv s).
Proof. unfold serves. apply _. Defined.

(** What the shard operations leave alone. *)
Record sk_frame kv kv' : Prop := {
  fr_me : sk_me kv' = sk_me kv;
  fr_raft : sk_raft kv' = sk_raft kv;
  fr_gid : sk_gid kv' = sk_gid kv;
  fr_next : nextConfig kv' = nextConfig kv;
  fr_clients : clientStatusMap kv' = clientStatusMap kv;
  fr_num : Num (config kv') = Num (config kv);
  fr_groups : Groups (config kv') = Groups (config kv);
}.

(** ** Lemmas: client status *)

Lemma csm_get_spec m c :
  snd (ClientStatusMap.get m c) = default 0%Z (m !! c) ∧
  ∀ c', default 0%Z (fst (ClientStatusMap.get m c) !! c') = default 0%Z (m !! c').
Proof.
  unfold ClientStatusMap.get. destruct (m !! c) eqn:E; simpl; [done|]. split; [done|].
  intros c'. destruct (decide (c = c')) as [<-|]; [by rewrite lookup_insert_eq, E|by rewrite lookup_insert_ne].
Qed.

Lemma csm_get_known m c : is_Some (fst (ClientStatusMap.get m c) !! c).
Proof.
  unfold ClientStatusMap.get. destruct (m !! c) eqn:E; simpl; [by rewrite E|by rewrite lookup_insert_eq].
Qed.

Lemma updateSeqNum_max last n : ClientStatusMap.updateSeqNum last n = Z.max last n.
Proof. unfold ClientStatusMap.updateSeqNum. case_bool_decide; lia. Qed.

(** Marking a known client. *)
Lemma csm_alter_spec (m : gmap Z Z) (c n c' : Z) :
  is_Some (m !! c) →
  default 0%Z (alter (λ last, ClientStatusMap.updateSeqNum last n) c m !! c') =
  if decide (c' = c) then Z.max (default 0%Z (m !! c')) n else default 0%Z (m !! c').
Proof.
  intros [x Hx]. destruct (decide (c' = c)) as [->|].
  - rewrite lookup_alter_eq, Hx. simpl. apply updateSeqNum_max.
  - by rewrite lookup_alter_ne.
Qed.

Lemma csm_update_spec m c n c' :
  default 0%Z (ClientStatusMap.update m c n !! c') =
  if decide (c' = c) then Z.max (default 0%Z (m !! c')) n else default 0%Z (m !! c').
Proof.
  unfold ClientStatusMap.update. rewrite csm_alter_spec by apply csm_get_known.
  destruct (csm_get_spec m c) as [_ Hs]. by rewrite Hs.
Qed.

Lemma csm_update_mono m c n c' : is_Some (m !! c') → is_Some (ClientStatusMap.update m c n !! c').
Proof.
  intros [x Hx]. unfold ClientStatusMap.update, ClientStatusMap.get.
  destruct (m !! c) eqn:E; simpl; destruct (decide (c = c')) as [<-|].
  - rewrite lookup_alter_eq, E. by eexists.
  - rewrite lookup_alter_ne, Hx by done. by eexists.
  - rewrite lookup_alter_eq, lookup_insert_eq. by eexists.
  - rewrite lookup_alter_ne, lookup_insert_ne, Hx by done. by eexists.
Qed.

(** Merging a table: the maximum of both, in whatever order it is visited. *)
Lemma csm_merge_list l m c :
  NoDup l.*1 →
  default 0%Z (foldl (λ m '(clientId, seqNum), ClientStatusMap.update m clientId seqNum) m l !! c) =
  match (list_to_map l : gmap Z Z) !! c with
  | Some n => Z.max (default 0%Z (m !! c)) n
  | None => default 0%Z (m !! c)
  end ∧
  (is_Some (m !! c) →
   is_Some (foldl (λ m '(clientId, seqNum), ClientStatusMap.update m clientId seqNum) m l !! c)).
Proof.
  revert m. induction l as [|[c' n] l IH]; intros m Hnd; [done|]. simpl in *.
  apply NoDup_cons in Hnd as [Hc Hnd]. destruct (IH (ClientStatusMap.update m c' n) Hnd) as [IH1 IH2]. split.
  - rewrite IH1, csm_update_spec. destruct (decide (c = c')) as [->|].
    + by rewrite lookup_insert_eq, not_elem_of_list_to_map_1.
    + by rewrite lookup_insert_ne.
  - intros Hm. by apply IH2, csm_update_mono.
Qed.

Lemma csm_merge_spec m new c :
  default 0%Z (ClientStatusMap.putClientSeqNumMap m new !! c) =
  match new !! c with
  | Some n => Z.max (default 0%Z (m !! c)) n
  | None => default 0%Z (m !! c)
  end ∧
  (is_Some (m !! c) → is_Some (ClientStatusMap.putClientSeqNumMap m new !! c)).
Proof.
  unfold ClientStatusMap.putClientSeqNumMap.
  destruct (csm_merge_list (map_to_list new) m c (NoDup_fst_map_to_list new)) as [H1 H2].
  by rewrite list_to_map_to_list in H1.
Qed.

Lemma sk_lastSeq_markDone kv c n c' :
  is_Some (clientStatusMap kv !! c) →
  sk_lastSeq (markDone kv c n) c' =
  if decide (c' = c) then Z.max (sk_lastSeq kv c') n else sk_lastSeq kv c'.
Proof. apply csm_alter_spec. Qed.

(** [unlessDone]: a done request changes nothing that matters. *)
Lemma unlessDone_spec kv c n body :
  ∃ kv1, (sk_frame kv (set_clients kv1 (clientStatusMap kv)) ∧ sk_store kv1 = sk_store kv ∧ config kv1 = config kv) ∧
    (∀ c', sk_lastSeq kv1 c' = sk_lastSeq kv c') ∧ is_Some (clientStatusMap kv1 !! c) ∧
    unlessDone kv c n body =
      if bool_decide (sk_lastSeq kv c < n)%Z then body kv1 else Ok kv1.
Proof.
  unfold unlessDone. destruct (csm_get_spec (clientStatusMap kv) c) as [Hsnd Hsame].
  pose proof (csm_get_known (clientStatusMap kv) c) as Hk.
  destruct (ClientStatusMap.get (clientStatusMap kv) c) as [m lst]. simpl in *. subst lst.
  exists (set_clients kv m). split_and!; [done..|]. unfold done, sk_lastSeq.
  destruct (decide (default 0%Z (clientStatusMap kv !! c) < n)%Z).
  - by rewrite bool_decide_false, bool_decide_true by lia.
  - by rewrite bool_decide_true, bool_decide_false by lia.
Qed.

(** ** Lemmas: the store *)

Lemma key2shard_range key : in_range (key2shard key).
Proof.
  unfold key2shard, in_range.
  assert (∀ x, (0 ≤ x)%Z → (0 ≤ Z.rem x (Z.of_nat NShards) < Z.of_nat NShards)%Z) as H.
  { intros x Hx. rewrite Z.rem_mod_nonneg by (unfold NShards; lia). apply Z.mod_pos_bound. unfold NShards. lia. }
  destruct key; apply H; lia.
Qed.

Lemma range_idx {A} (l : list A) s :
  length l = NShards → in_range s → ∃ x, idx l s = Ok x ∧ l !! Z.to_nat s = Some x.
Proof. intros Hl Hs. apply idx_returns. unfold zlen, in_range in *. lia. Qed.

Lemma range_upd {A} (l : list A) s x :
  length l = NShards → in_range s → upd l s x = Ok (<[Z.to_nat s := x]> l).
Proof. intros Hl Hs. apply upd_in. unfold zlen, in_range in *. lia. Qed.

(** The effect of a write on its shard's map. *)
Definition write (isPut : bool) (data : Data) (key value : string) : Data :=
  <[key := if isPut then value else default EmptyString (data !! key) +:+ value]> data.

(** [put] and [append] on both branches. *)
Lemma sk_write_run (isPut : bool) kv key value :
  skv_wf kv →
  ∃ owner data,
    Shards (config kv) !! Z.to_nat (key2shard key) = Some owner ∧
    sk_store kv !! Z.to_nat (key2shard key) = Some data ∧
    (if isPut then sk_put kv key value else sk_append kv key value) =
    if bool_decide (sk_gid kv ≠ owner) then Ok (kv, skErrWrongGroup)
    else Ok (set_store kv (<[Z.to_nat (key2shard key) := write isPut data key value]> (sk_store kv)), skOK).
Proof.
  intros [Hc Hn Hs]. pose proof (key2shard_range key) as Hr.
  destruct (range_idx _ _ Hc Hr) as (owner & Ho & Hlo), (range_idx _ _ Hs Hr) as (data & Hd & Hld).
  exists owner, data. split_and!; [done..|]. unfold sk_put, sk_append, wrongGroup, write.
  rewrite Ho. res_simpl. destruct isPut; destruct (bool_decide _); try done; rewrite Hd; res_simpl;
    rewrite range_upd by done; [done|]. by destruct (data !! key).
Qed.
Lemma sk_frame_refl kv : sk_frame kv kv.
Proof. by split. Qed.

Lemma sk_frame_trans kv1 kv2 kv3 : sk_frame kv1 kv2 → sk_frame kv2 kv3 → sk_frame kv1 kv3.
Proof. intros [] []. split; congruence. Qed.

Lemma copy_data (data : Data) : map_fold (λ k v m, <[k := v]> m) ∅ data = data.
Proof. apply (map_fold_weak_ind (λ r m, r = m)); [done|]. intros i x m r _ ->. done. Qed.

(** Receiving one shard. *)
Lemma putShard_run kv s data :
  skv_wf kv → in_range s →
  ∃ kv', putShard kv (s, data) = Ok kv' ∧ skv_wf kv' ∧ sk_frame kv kv' ∧ serves kv' s ∧
    (serves kv s → kv' = kv) ∧
    (¬ serves kv s → sk_store kv' !! Z.to_nat s = Some data) ∧
    ∀ i, i ≠ Z.to_nat s →
      sk_store kv' !! i = sk_store kv !! i ∧ Shards (config kv') !! i = Shards (config kv) !! i.
Proof.
  intros Hwf Hs. pose proof Hwf as [Hc Hn Hst]. unfold putShard, serves.
  destruct (range_idx _ _ Hc Hs) as (owner & -> & Hlo). res_simpl. case_bool_decide as Ho.
  - exists kv. subst owner. split_and!; [done|done|by apply sk_frame_refl|done|done|congruence|done].
  - rewrite !range_upd by done. res_simpl. eexists. split; [done|].
    assert (Z.to_nat s < NShards) by (unfold in_range in Hs; lia).
    split_and!; simpl; [split; simpl; by rewrite ?length_insert|by split|..].
    + apply list_lookup_insert_eq. lia.
    + congruence.
    + intros _. rewrite copy_data. apply list_lookup_insert_eq. lia.
    + intros i Hi. by rewrite !list_lookup_insert_ne by done.
Qed.

(** Receiving shards: each one not served yet gets the data, and all are
    served afterwards. *)
Lemma putShards_list kv l :
  skv_wf kv → NoDup l.*1 → (∀ s, s ∈ l.*1 → in_range s) →
  ∃ kv', foldM putShard kv l = Ok kv' ∧ skv_wf kv' ∧ sk_frame kv kv' ∧
    (∀ s, s ∈ l.*1 → serves kv' s) ∧
    (∀ s data, (s, data) ∈ l → sk_store kv' !! Z.to_nat s =
       if decide (serves kv s) then sk_store kv !! Z.to_nat s else Some data) ∧
    (∀ s, in_range s → s ∉ l.*1 ∨ serves kv s →
       sk_store kv' !! Z.to_nat s = sk_store kv !! Z.to_nat s ∧
       Shards (config kv') !! Z.to_nat s = Shards (config kv) !! Z.to_nat s).
Proof.
  revert kv. induction l as [|[s data] l IH]; intros kv Hwf Hnd Hr; cbn [foldM].
  { exists kv. split_and!; [done|done|apply sk_frame_refl|by intros ? ?%elem_of_nil|by intros ? ? ?%elem_of_nil|done]. }
  apply NoDup_cons in Hnd as [Hs Hnd]. simpl in Hs, Hr.
  assert (Hrs : in_range s) by (apply Hr; left).
  destruct (putShard_run kv s data Hwf Hrs) as (kv1 & Hrun & Hwf1 & Hf1 & Hserve & Hsame & Hnew & Hother).
  rewrite Hrun. res_simpl. cbn [fmap list_fmap fst]. destruct (IH kv1) as (kv' & Hrun' & Hwf' & Hf' & Hall & Hdata & Hrest); [done|done|set_solver|].
  assert (Hne : ∀ x, in_range x → x ≠ s → Z.to_nat x ≠ Z.to_nat s) by (unfold in_range in *; intros; lia).
  assert (Hserves : ∀ x, in_range x → x ≠ s → serves kv1 x ↔ serves kv x).
  { intros x Hx Hxs. unfold serves. destruct (Hother _ (Hne x Hx Hxs)) as [_ ->]. by rewrite (fr_gid _ _ Hf1). }
  exists kv'. split_and!; [done|done|by eapply sk_frame_trans|..].
  - intros x [->|Hx]%elem_of_cons; [|by apply Hall]. unfold serves.
    destruct (Hrest s Hrs) as [_ ->]; [by left|]. unfold serves in Hserve. by rewrite (fr_gid _ _ Hf').
  - intros x d [[= -> ->]|Hx]%elem_of_cons.
    + destruct (Hrest s Hrs) as [-> _]; [by left|]. destruct (decide (serves kv s)) as [Hsv|Hsv].
      * by rewrite (Hsame Hsv).
      * by apply Hnew.
    + assert (x ∈ l.*1) as Hxl by (apply list_elem_of_fmap; by exists (x, d)).
      assert (x ≠ s) by (by intros ->). assert (in_range x) as Hxr by (apply Hr; by right).
      rewrite (Hdata x d Hx). destruct (Hother _ (Hne x Hxr ltac:(done))) as [-> _].
      destruct (decide (serves kv1 x)) as [Hq|Hq], (decide (serves kv x)) as [Hq'|Hq']; try done;
        rewrite Hserves in Hq by done; done.
  - intros x Hx Hor. destruct (decide (x = s)) as [->|Hxs].
    + destruct Hor as [Hn|Hsv]; [exfalso; apply Hn; left|]. rewrite (Hsame Hsv) in Hrest. by apply Hrest; [|left].
    + destruct (Hother _ (Hne x Hx Hxs)) as [H1 H2].
      destruct (Hrest x Hx) as [H3 H4]; [|by rewrite H3, H4].
      destruct Hor as [Hn|Hsv]; [left|right; by apply Hserves]. intros Hin. apply Hn. by right.
Qed.

Lemma putShards_run kv shards :
  skv_wf kv → (∀ s, is_Some (shards !! s) → in_range s) →
  ∃ kv', putShards kv shards = Ok kv' ∧ skv_wf kv' ∧ sk_frame kv kv' ∧
    (∀ s data, shards !! s = Some data → serves kv' s ∧ sk_store kv' !! Z.to_nat s =
       if decide (serves kv s) then sk_store kv !! Z.to_nat s else Some data) ∧
    (∀ s, in_range s → shards !! s = None ∨ serves kv s →
       sk_store kv' !! Z.to_nat s = sk_store kv !! Z.to_nat s ∧
       Shards (config kv') !! Z.to_nat s = Shards (config kv) !! Z.to_nat s).
Proof.
  intros Hwf Hr. unfold putShards.
  assert (Hin : ∀ s, s ∈ (map_to_list shards).*1 ↔ is_Some (shards !! s)).
  { intros s. rewrite list_elem_of_fmap. split.
    - intros ([s' d] & -> & H%elem_of_map_to_list). by exists d.
    - intros [d H]. exists (s, d). split; [done|]. by apply elem_of_map_to_list. }
  destruct (putShards_list kv (map_to_list shards)) as (kv' & Hrun & Hwf' & Hf & Hall & Hdata & Hrest);
    [done|apply NoDup_fst_map_to_list|intros s Hs; by apply Hr, Hin|].
  exists kv'. split_and!; [done..| |].
  - intros s data Hs. split; [apply Hall, Hin; by eexists|]. by apply Hdata, elem_of_map_to_list.
  - intros s Hs Hor. apply Hrest; [done|]. destruct Hor as [Hn|]; [left|by right].
    rewrite Hin, Hn. by intros [].
Qed.

Lemma deleteShard_run kv s :
  skv_wf kv → in_range s →
  ∃ kv', deleteShard kv s = Ok kv' ∧ skv_wf kv' ∧ sk_frame kv kv' ∧ config kv' = config kv ∧
    ∃ next, Shards (nextConfig kv) !! Z.to_nat s = Some next ∧
    sk_store kv' = if decide (serves kv s ∨ next = sk_gid kv) then sk_store kv
                   else <[Z.to_nat s := ∅]> (sk_store kv).
Proof.
  intros Hwf Hs. pose proof Hwf as [Hc Hn Hst]. unfold deleteShard, serves.
  destruct (range_idx _ _ Hc Hs) as (owner & -> & Hlo), (range_idx _ _ Hn Hs) as (next & -> & Hln).
  res_simpl. destruct (bool_decide (owner ≠ sk_gid kv) && _) eqn:E.
  - apply andb_true_iff in E as [E1%bool_decide_eq_true E2%bool_decide_eq_true].
    rewrite range_upd by done. res_simpl. eexists. split; [done|]. split_and!; [|by split|done|].
    + split; simpl; by rewrite ?length_insert.
    + exists next. split; [done|]. rewrite decide_False by naive_solver congruence. done.
  - exists kv. split_and!; [done..|apply sk_frame_refl|done|]. exists next. split; [done|].
    apply andb_false_iff in E. rewrite !bool_decide_eq_false in E. rewrite decide_True; [done|].
    destruct E as [E|E]; apply dec_stable in E; [left|right]; congruence.
Qed.

Lemma deleteShards_run kv num shards :
  skv_wf kv → (∀ s, s ∈ shards → in_range s) →
  ∃ kv', deleteShards kv num shards = Ok kv' ∧ skv_wf kv' ∧ sk_frame kv kv' ∧ config kv' = config kv.
Proof.
  intros Hwf Hr. unfold deleteShards.
  apply (foldM_inv deleteShard (λ kv', skv_wf kv' ∧ sk_frame kv kv' ∧ config kv' = config kv)).
  { split_and!; [done|apply sk_frame_refl|done]. }
  intros kv1 s Hs (Hwf1 & Hf1 & Hc1).
  destruct (deleteShard_run kv1 s Hwf1 (Hr s Hs)) as (kv2 & ? & ? & ? & ? & _).
  exists kv2. split_and!; [done|done|by eapply sk_frame_trans|congruence].
Qed.

Lemma getShards_run kv shards :
  skv_wf kv → (∀ s, s ∈ shards → in_range s) →
  ∃ data, getShards kv shards = Ok data ∧
    (∀ s, s ∈ shards → data !! s = sk_store kv !! Z.to_nat s) ∧
    (∀ s, s ∉ shards → data !! s = None).
Proof.
  intros [_ _ Hst] Hr. unfold getShards.
  assert (H : ∀ l m, (∀ s, s ∈ l → in_range s) → ∃ data,
    foldM (λ data shard, d ← idx (sk_store kv) shard; Ok (<[shard := d]> data)) m l = Ok data ∧
    (∀ s, s ∈ l → data !! s = sk_store kv !! Z.to_nat s) ∧ (∀ s, s ∉ l → data !! s = (m : gmap Z Data) !! s)).
  { induction l as [|s l IH]; intros m Hl; simpl; [exists m; split_and!; [done|by intros ? ?%elem_of_nil|done]|].
    destruct (range_idx (sk_store kv) s Hst (Hl s ltac:(left))) as (d & -> & Hd). res_simpl.
    destruct (IH (<[s := d]> m)) as (data & Hrun & Hin & Hout); [set_solver|]. exists data.
    split_and!; [done|..].
    - intros x [->|Hx]%elem_of_cons; [|by apply Hin]. destruct (decide (s ∈ l)); [by apply Hin|].
      rewrite Hout by done. by rewrite lookup_insert_eq, Hd.
    - intros x Hx. rewrite Hout by set_solver. apply lookup_insert_ne. set_solver. }
  destruct (H shards ∅ Hr) as (data & ? & ? & Hout). exists data. split_and!; [done..|].
  intros s Hs. rewrite Hout by done. apply lookup_empty.
Qed.
(** ** Properties *)

(** Setting up [unlessDone] in the proofs below. *)
Lemma unlessDone_ok kv c n body (Q : ShardKV → Prop) :
  skv_wf kv →
  (∀ kv1, skv_wf kv1 → sk_gid kv1 = sk_gid kv → sk_store kv1 = sk_store kv → config kv1 = config kv →
     nextConfig kv1 = nextConfig kv → (∀ c', sk_lastSeq kv1 c' = sk_lastSeq kv c') →
     is_Some (clientStatusMap kv1 !! c) →
     if bool_decide (sk_lastSeq kv c < n)%Z then ∃ kv', body kv1 = Ok kv' ∧ Q kv' else Q kv1) →
  ∃ kv', unlessDone kv c n body = Ok kv' ∧ Q kv'.
Proof.
  intros [Hc Hn Hs] HQ.
  destruct (unlessDone_spec kv c n body) as (kv1 & ([? ? Hg Hnx ? ? ?] & Hst & Hcf) & Hl & Hk & Hrun). simpl in *.
  rewrite Hrun. specialize (HQ kv1). case_bool_decide.
  - apply HQ; try done. split; congruence.
  - exists kv1. split; [done|]. apply HQ; try done. split; congruence.
Qed.

(** A replica that moved forward. *)
Record sk_grows kv kv' : Prop := {
  gr_wf : skv_wf kv';
  gr_gid : sk_gid kv' = sk_gid kv;
  gr_num : (Num (config kv) ≤ Num (config kv'))%Z;
  gr_seq : ∀ c, (sk_lastSeq kv c ≤ sk_lastSeq kv' c)%Z;
}.

Lemma grows_mark kv kv1 c n :
  sk_grows kv kv1 → is_Some (clientStatusMap kv1 !! c) → sk_grows kv (markDone kv1 c n).
Proof.
  intros [[Hc Hn Hs] Hg Hnum Hl] Hk. split; [by split|done|done|].
  intros c'. rewrite sk_lastSeq_markDone by done. specialize (Hl c'). destruct (decide (c' = c)); lia.
Qed.

(** The case analysis of [unlessDone]: a done request is skipped. *)
Lemma unlessDone_grows kv c n body :
  skv_wf kv →
  (∀ kv1, skv_wf kv1 → sk_grows kv kv1 → is_Some (clientStatusMap kv1 !! c) →
     ∃ kv', body kv1 = Ok kv' ∧ sk_grows kv kv') →
  ∃ kv', unlessDone kv c n body = Ok kv' ∧ sk_grows kv kv'.
Proof.
  intros Hwf Hb. apply unlessDone_ok; [done|]. intros kv1 Hwf1 Hg1 _ Hc1 _ Hl1 Hk1.
  assert (sk_grows kv kv1) by (split; [done|done|rewrite Hc1; lia|intros c'; rewrite Hl1; lia]).
  case_bool_decide; [by apply Hb|done].
Qed.

Lemma write_grows (isPut : bool) kv args :
  skv_wf kv →
  ∃ kv', unlessDone kv (paa_ClientId args) (paa_SeqNum args) (λ kv,
      '(kv, err) ← (if isPut then sk_put kv (paa_Key args) (paa_Value args)
                    else sk_append kv (paa_Key args) (paa_Value args));
      Ok (if bool_decide (err ≠ skErrWrongGroup)
          then markDone kv (paa_ClientId args) (paa_SeqNum args) else kv)) = Ok kv' ∧ sk_grows kv kv'.
Proof.
  intros Hwf. apply unlessDone_grows; [done|]. intros kv1 Hwf1 Hgr Hk1.
  destruct (sk_write_run isPut kv1 (paa_Key args) (paa_Value args) Hwf1) as (owner & data & _ & _ & ->).
  case_bool_decide; res_simpl; eexists; (split; [done|]).
  - by rewrite bool_decide_false by naive_solver.
  - rewrite bool_decide_true by done. apply grows_mark; [|done]. destruct Hgr as [[] ? ? ?].
    split; try done. split; simpl; by rewrite ?length_insert.
Qed.

Lemma sk_get_run kv key : skv_wf kv → ∃ v err, sk_get kv key = Ok (v, err).
Proof.
  intros [Hc Hn Hst]. pose proof (key2shard_range key) as Hr.
  destruct (range_idx _ _ Hc Hr) as (owner & Ho & _), (range_idx _ _ Hst Hr) as (data & Hd & _).
  unfold sk_get, wrongGroup. rewrite Ho. res_simpl. destruct (bool_decide _); [by eexists _, _|].
  rewrite Hd. res_simpl. destruct (data !! _); by eexists _, _.
Qed.

Lemma putShards_grows kv kv1 args :
  sk_grows kv kv1 → (∀ s, is_Some (psa_Shards args !! s) → in_range s) →
  is_Some (clientStatusMap kv1 !! psa_ClientId args) →
  ∃ kv', (kv2 ← putShards kv1 (psa_Shards args);
     Ok (markDone (set_clients kv2 (ClientStatusMap.putClientSeqNumMap (clientStatusMap kv2) (psa_ClientSeqNumMap args)))
           (psa_ClientId args) (psa_SeqNum args))) = Ok kv' ∧ sk_grows kv kv'.
Proof.
  intros [Hwf1 Hg Hnum Hl] Hs Hk.
  destruct (putShards_run kv1 (psa_Shards args) Hwf1 Hs) as (kv2 & -> & [] & Hf & _). res_simpl.
  eexists. split; [done|]. apply grows_mark; [|apply csm_merge_spec; by rewrite (fr_clients _ _ Hf)].
  split; simpl; [by split|by rewrite (fr_gid _ _ Hf)|by rewrite (fr_num _ _ Hf)|]. intros c. unfold sk_lastSeq; simpl.
  destruct (csm_merge_spec (clientStatusMap kv2) (psa_ClientSeqNumMap args) c) as [-> _].
  rewrite (fr_clients _ _ Hf). specialize (Hl c). unfold sk_lastSeq in Hl. destruct (psa_ClientSeqNumMap args !! c); lia.
Qed.

Lemma deleteShards_grows kv kv1 args :
  sk_grows kv kv1 → (∀ s, s ∈ dsa_Shards args → in_range s) →
  is_Some (clientStatusMap kv1 !! dsa_ClientId args) →
  ∃ kv', (kv2 ← deleteShards kv1 (dsa_ConfigNum args) (dsa_Shards args);
     Ok (markDone kv2 (dsa_ClientId args) (dsa_SeqNum args))) = Ok kv' ∧ sk_grows kv kv'.
Proof.
  intros [Hwf1 Hg Hnum Hl] Hs Hk.
  destruct (deleteShards_run kv1 (dsa_ConfigNum args) (dsa_Shards args) Hwf1 Hs) as (kv2 & -> & ? & Hf & Hc2).
  res_simpl. eexists. split; [done|]. apply grows_mark; [|by rewrite (fr_clients _ _ Hf)].
  split; [done|by rewrite (fr_gid _ _ Hf)|by rewrite Hc2|].
  intros c. unfold sk_lastSeq. rewrite (fr_clients _ _ Hf). apply Hl.
Qed.

Lemma setConfig_grows kv kv1 c :
  sk_grows kv kv1 → length (Shards c) = NShards → sk_grows kv (setConfig kv1 c).
Proof.
  intros Hgr Hl. unfold setConfig. case_bool_decide; [|done].
  destruct Hgr as [[] ? ? ?]. split; simpl; [by split|done|lia|done].
Qed.

(** Requests are applied without panicking.  On a well-formed replica
    and a request with existing shards, [applyOp] returns, the replica stays
    well formed, the configuration number does not go back, and no client's
    sequence number does. *)
Theorem sk_applyOp_safe kv op :
  skv_wf kv → sk_good op → ∃ kv', sk_applyOp kv op = Ok kv' ∧ sk_grows kv kv'.
Proof.
  intros Hwf Hg. destruct Hg as [args|args|args|args|args Hs|args Hs|args Hl]; unfold sk_applyOp; simpl.
  - by apply (write_grows true).
  - by apply (write_grows false).
  - apply unlessDone_grows; [done|]. intros kv1 Hwf1 Hgr Hk.
    destruct (sk_get_run kv1 (ga_Key args) Hwf1) as (v & err & ->). res_simpl. eexists. split; [done|].
    case_bool_decide; [by apply grows_mark|done].
  - apply unlessDone_grows; [done|]. intros kv1 _ Hgr Hk. eexists. split; [done|]. by apply grows_mark.
  - apply unlessDone_grows; [done|]. intros kv1 _ Hgr Hk. by apply putShards_grows.
  - apply unlessDone_grows; [done|]. intros kv1 _ Hgr Hk. by apply deleteShards_grows.
  - apply unlessDone_grows; [done|]. intros kv1 _ Hgr Hk. eexists. split; [done|]. rewrite Clone_id.
    apply grows_mark; [by apply setConfig_grows|]. unfold setConfig. by case_bool_decide.
Qed.

(** What a write did: if it was neither done nor refused, exactly its key
    changed and it is done; otherwise nothing did. *)
Definition sk_wrote (isPut : bool) kv (args : PutAppendArgs) kv' : Prop :=
  config kv' = config kv ∧
  if decide (sk_lastSeq kv (paa_ClientId args) < paa_SeqNum args ∧ serves kv (key2shard (paa_Key args)))%Z then
    sk_lookup kv' (paa_Key args) =
      Some (if isPut then paa_Value args
            else default EmptyString (sk_lookup kv (paa_Key args)) +:+ paa_Value args) ∧
    (∀ key, key ≠ paa_Key args → sk_lookup kv' key = sk_lookup kv key) ∧
    (∀ c, sk_lastSeq kv' c = if decide (c = paa_ClientId args) then paa_SeqNum args else sk_lastSeq kv c)
  else sk_store kv' = sk_store kv ∧ ∀ c, sk_lastSeq kv' c = sk_lastSeq kv c.

Lemma sk_write_ok (isPut : bool) kv args :
  skv_wf kv →
  ∃ kv', sk_applyOp kv (mkSkOp (if isPut then PUT else APPEND) (KPutAppend args)) = Ok kv' ∧
    sk_wrote isPut kv args kv'.
Proof.
  intros Hwf.
  assert (Hrun : ∃ kv', unlessDone kv (paa_ClientId args) (paa_SeqNum args) (λ kv,
      '(kv, err) ← (if isPut then sk_put kv (paa_Key args) (paa_Value args)
                    else sk_append kv (paa_Key args) (paa_Value args));
      Ok (if bool_decide (err ≠ skErrWrongGroup)
          then markDone kv (paa_ClientId args) (paa_SeqNum args) else kv)) = Ok kv' ∧
    sk_wrote isPut kv args kv'); [|by destruct isPut].
  apply unlessDone_ok; [done|]. intros kv1 Hwf1 Hg1 Hs1 Hc1 _ Hl1 Hk1. unfold sk_wrote.
  case_bool_decide as Hlt; [|split; [done|]; rewrite decide_False by tauto; done].
  destruct (sk_write_run isPut kv1 (paa_Key args) (paa_Value args) Hwf1) as (owner & data & Ho & Hd & ->).
  rewrite Hc1 in Ho. case_bool_decide as How; res_simpl; eexists; (split; [done|]).
  - rewrite bool_decide_false by naive_solver. split; [done|].
    rewrite decide_False; [done|]. unfold serves. intros [_ Hsv]. congruence.
  - rewrite bool_decide_true by done. simpl. split; [done|].
    rewrite decide_True by (unfold serves; split; [done|congruence]).
    pose proof (swf_store _ Hwf1) as Hlen. pose proof (key2shard_range (paa_Key args)) as Hr. split_and!.
    + unfold sk_lookup; simpl. rewrite list_lookup_insert_eq by (unfold in_range in Hr; lia). simpl.
      unfold write. rewrite lookup_insert_eq. rewrite <-Hs1, Hd. done.
    + intros key Hne. unfold sk_lookup; simpl. rewrite <-Hs1.
      destruct (decide (Z.to_nat (key2shard (paa_Key args)) = Z.to_nat (key2shard key))) as [Heq|Hneq].
      * rewrite <-Heq, list_lookup_insert_eq by (unfold in_range in Hr; lia). rewrite Hd. simpl.
        unfold write. by rewrite lookup_insert_ne.
      * by rewrite list_lookup_insert_ne.
    + intros c. rewrite sk_lastSeq_markDone by done. unfold sk_lastSeq in *; simpl. rewrite Hl1.
      destruct (decide (c = paa_ClientId args)) as [->|]; [lia|done].
Qed.

(** Writes.  A write that is done changes nothing; a write to a shard
    the group does not serve changes nothing and is not marked as done, so
    that the client can take it elsewhere; any other write puts or appends
    exactly its value at its key, leaves every other key alone, and is done. *)
Theorem sk_write_spec (isPut : bool) kv args :
  skv_wf kv →
  ∃ kv', sk_applyOp kv (mkSkOp (if isPut then PUT else APPEND) (KPutAppend args)) = Ok kv' ∧
    sk_wrote isPut kv args kv'.
Proof. apply sk_write_ok. Qed.

(** Applying a transfer that is not done yet. *)
Lemma putShards_op_run kv args :
  skv_wf kv → (∀ s, is_Some (psa_Shards args !! s) → in_range s) →
  (sk_lastSeq kv (psa_ClientId args) < psa_SeqNum args)%Z →
  ∃ kv', sk_applyOp kv (mkSkOp PUT_SHARDS (KPutShards args)) = Ok kv' ∧ sk_gid kv' = sk_gid kv ∧ skv_wf kv' ∧
    (∀ s data, psa_Shards args !! s = Some data → serves kv' s ∧ sk_store kv' !! Z.to_nat s =
       if decide (serves kv s) then sk_store kv !! Z.to_nat s else Some data) ∧
    (∀ s, in_range s → psa_Shards args !! s = None ∨ serves kv s →
       sk_store kv' !! Z.to_nat s = sk_store kv !! Z.to_nat s ∧
       Shards (config kv') !! Z.to_nat s = Shards (config kv) !! Z.to_nat s) ∧
    (∀ c, (sk_lastSeq kv c ≤ sk_lastSeq kv' c)%Z ∧
       ∀ n, psa_ClientSeqNumMap args !! c = Some n → (n ≤ sk_lastSeq kv' c)%Z).
Proof.
  intros Hwf Hs Hlt. unfold sk_applyOp; simpl. apply unlessDone_ok; [done|].
  intros kv1 Hwf1 Hg1 Hs1 Hc1 _ Hl1 Hk1. rewrite bool_decide_true by done.
  destruct (putShards_run kv1 (psa_Shards args) Hwf1 Hs) as (kv2 & -> & Hwf2 & Hf & Hin & Hout). res_simpl.
  assert (Hsv : ∀ s, serves kv1 s ↔ serves kv s) by (intros s; unfold serves; by rewrite Hg1, Hc1).
  eexists. split; [done|]. split_and!; simpl; [by rewrite (fr_gid _ _ Hf)|by destruct Hwf2; split|..].
  - intros s data Hd. destruct (Hin s data Hd) as [? Hst]. split; [done|]. rewrite Hst, Hs1.
    destruct (decide (serves kv1 s)) as [H1|H1], (decide (serves kv s)) as [H2|H2]; try done;
      rewrite Hsv in H1; done.
  - intros s Hr Hor. rewrite <-Hs1, <-Hc1. apply Hout; [done|]. by rewrite Hsv.
  - intros c. rewrite sk_lastSeq_markDone; [|simpl; apply csm_merge_spec; by rewrite (fr_clients _ _ Hf)].
    set (kv3 := set_clients kv2 _).
    assert (Hm : sk_lastSeq kv3 c = match psa_ClientSeqNumMap args !! c with
      | Some n => Z.max (sk_lastSeq kv c) n | None => sk_lastSeq kv c end).
    { rewrite <-Hl1. unfold sk_lastSeq. rewrite <-(fr_clients _ _ Hf). apply csm_merge_spec. }
    rewrite Hm. split; [|intros n ->]; destruct (decide (c = psa_ClientId args)); try lia;
      destruct (psa_ClientSeqNumMap args !! c); lia.
Qed.

(** Moving shards between groups.  Take the reply of a source replica
    to GetShards and apply it at the destination as PutShards.  Every shard
    asked for that the destination did not serve yet is then served there
    with exactly the source's contents, shards it served keep theirs, and
    the destination has every client's sequence number at least as high as
    the source: a write executed at the source before the transfer is not
    executed again at the destination. *)
Theorem migration_exactly_once src dst gargs n cid :
  skv_wf src → skv_wf dst → (∀ s, s ∈ gsa_Shards gargs → in_range s) →
  (sk_lastSeq dst cid < n)%Z →
  ∃ reply dst', GetShards_reply src gargs true = Ok reply ∧
    sk_applyOp dst (mkSkOp PUT_SHARDS (KPutShards
      (mkPutShardsArgs (gsr_Shards reply) (gsr_ClientSeqNumMap reply) n cid))) = Ok dst' ∧
    (∀ s, s ∈ gsa_Shards gargs → serves dst' s ∧ sk_store dst' !! Z.to_nat s =
       if decide (serves dst s) then sk_store dst !! Z.to_nat s else sk_store src !! Z.to_nat s) ∧
    (∀ c, (sk_lastSeq dst c ≤ sk_lastSeq dst' c)%Z ∧
       (is_Some (clientStatusMap src !! c) → sk_lastSeq src c ≤ sk_lastSeq dst' c)%Z) ∧
    (∀ (isPut : bool) args, (0 < paa_SeqNum args ≤ sk_lastSeq src (paa_ClientId args))%Z →
       ∃ dst'', sk_applyOp dst' (mkSkOp (if isPut then PUT else APPEND) (KPutAppend args)) = Ok dst'' ∧
         sk_store dst'' = sk_store dst').
Proof.
  intros Hsrc Hdst Hr Hlt.
  destruct (getShards_run src (gsa_Shards gargs) Hsrc Hr) as (data & Hget & Hin & Hout).
  unfold GetShards_reply. rewrite Hget. res_simpl. eexists.
  set (args := mkPutShardsArgs data (ClientStatusMap.getClientSeqNumMap (clientStatusMap src)) n cid).
  destruct (putShards_op_run dst args) as (dst' & Hrun & Hgid & Hwf' & Hdata & _ & Hseq); [done| |done|].
  { intros s [d Hd]. destruct (decide (s ∈ gsa_Shards gargs)); [by apply Hr|].
    simpl in Hd. by rewrite Hout in Hd. }
  assert (Hmax : ∀ c, is_Some (clientStatusMap src !! c) → (sk_lastSeq src c ≤ sk_lastSeq dst' c)%Z).
  { intros c [x Hx]. apply (proj2 (Hseq c)). unfold args, sk_lastSeq; simpl.
    unfold ClientStatusMap.getClientSeqNumMap. by rewrite map_fold_insert_id, Hx. }
  exists dst'. split_and!; [done|exact Hrun|..].
  - intros s Hs. destruct (range_idx (sk_store src) s (swf_store _ Hsrc) (Hr s Hs)) as (d & _ & Hd).
    destruct (Hdata s d) as [? ->]; [simpl; by rewrite (Hin s Hs)|]. by rewrite Hd.
  - intros c. split; [apply (proj1 (Hseq c))|apply Hmax].
  - intros isPut wargs Hw. assert (is_Some (clientStatusMap src !! paa_ClientId wargs)) as Hc.
    { unfold sk_lastSeq in Hw. destruct (clientStatusMap src !! paa_ClientId wargs); [by eexists|simpl in Hw; lia]. }
    specialize (Hmax _ Hc). destruct (sk_write_ok isPut dst' wargs Hwf') as (dst'' & Hwr & _ & Hcase).
    exists dst''. split; [done|]. rewrite decide_False in Hcase by lia. apply Hcase.
Qed.

(** A repeated transfer is harmless.  When a group serves all shards of
    a transfer already (it was interrupted and is tried again with a new
    sequence number), applying it changes neither the store nor the
    configuration, whatever data it carries. *)
Theorem putShards_again kv args :
  skv_wf kv → (∀ s, is_Some (psa_Shards args !! s) → in_range s ∧ serves kv s) →
  ∃ kv', sk_applyOp kv (mkSkOp PUT_SHARDS (KPutShards args)) = Ok kv' ∧
    sk_store kv' = sk_store kv ∧ Shards (config kv') = Shards (config kv).
Proof.
  intros Hwf Hs. destruct (decide (sk_lastSeq kv (psa_ClientId args) < psa_SeqNum args)%Z) as [Hlt|Hge].
  - destruct (putShards_op_run kv args) as (kv' & Hrun & _ & [Hc' _ Hs'] & _ & Hout & _);
      [done|intros s Hd; by apply Hs|done|].
    exists kv'. split; [done|]. pose proof Hwf as [Hc _ Hst].
    assert (Hpt : ∀ i, i < NShards → sk_store kv' !! i = sk_store kv !! i ∧
      Shards (config kv') !! i = Shards (config kv) !! i).
    { intros i Hi. rewrite <-(Nat2Z.id i). apply Hout; [unfold in_range; lia|].
      destruct (psa_Shards args !! Z.of_nat i) eqn:E; [right; by apply Hs|by left]. }
    split; apply list_eq; intros i; (destruct (decide (i < NShards)); [by apply Hpt|]);
      by rewrite !lookup_ge_None_2 by lia.
  - unfold sk_applyOp; simpl. apply unlessDone_ok; [done|]. intros kv1 ? ? ? Hc ? ? ?.
    rewrite bool_decide_false by lia. by rewrite Hc.
Qed.
Lemma setStore_copy kv st c : sk_store (setStore kv st c) = st ∧ config (setStore kv st c) = c.
Proof.
  unfold setStore; simpl. split; [|apply Clone_id]. apply list_eq. intros i. rewrite list_lookup_imap.
  destruct (st !! i) as [data|]; [|done]. simpl.
  replace (default ∅ (initStore !! i)) with (∅ : Data); [by rewrite copy_data|].
  unfold initStore. destruct (decide (i < NShards)).
  - by rewrite lookup_replicate_2.
  - by rewrite lookup_ge_None_2 by (rewrite length_replicate; lia).
Qed.

(** Snapshots.  A replica that installs the snapshot another replica
    took has that replica's store and configuration, and of every client the
    larger of the two sequence numbers; it does not panic. *)
Theorem sk_snapshot_roundtrip `{!GobOk SkSnapshot} kv kvs index :
  ∃ kv', sk_applySnap kv (sk_snapshotBytes kvs index) index = Ok kv' ∧
    sk_store kv' = sk_store kvs ∧ config kv' = config kvs ∧
    ∀ c, sk_lastSeq kv' c = match clientStatusMap kvs !! c with
                            | Some n => Z.max (sk_lastSeq kv c) n
                            | None => sk_lastSeq kv c
                            end.
Proof.
  unfold sk_applySnap, sk_snapshotBytes. rewrite bool_decide_false by apply gob_nonempty.
  rewrite gob_roundtrip, (bool_decide_false (index ≠ index)) by (intros H; by apply H).
  rewrite andb_false_r. eexists. split; [done|].
  destruct (setStore_copy kv (sk_store kvs) (config kvs)) as [Hs Hc]. split_and!; [exact Hs|exact Hc|].
  intros c. unfold ClientStatusMap.getClientSeqNumMap. rewrite map_fold_insert_id.
  unfold sk_lastSeq at 1; simpl. apply (csm_merge_spec (clientStatusMap kv) (clientStatusMap kvs) c).
Qed.

(** C37: deleting a shard depends on state that is not replicated.  Two
    replicas of a group with the same replicated state, neither serving the
    shard, of which only one (the leader that polls the controller) knows
    that the next configuration gives the shard back to the group, disagree
    on the shard's contents after the same DeleteShards request. *)
Theorem delete_diverges kv next1 next2 s data args :
  skv_wf kv → in_range s → length (Shards next1) = NShards → length (Shards next2) = NShards →
  ¬ serves kv s → sk_store kv !! Z.to_nat s = Some data → data ≠ ∅ →
  Shards next1 !! Z.to_nat s = Some (sk_gid kv) → Shards next2 !! Z.to_nat s ≠ Some (sk_gid kv) →
  dsa_Shards args = [s] → (sk_lastSeq kv (dsa_ClientId args) < dsa_SeqNum args)%Z →
  ∃ kv1 kv2,
    sk_applyOp (set_nextConfig kv next1) (mkSkOp DELETE_SHARDS (KDeleteShards args)) = Ok kv1 ∧
    sk_applyOp (set_nextConfig kv next2) (mkSkOp DELETE_SHARDS (KDeleteShards args)) = Ok kv2 ∧
    sk_store kv1 !! Z.to_nat s = Some data ∧ sk_store kv2 !! Z.to_nat s = Some ∅.
Proof.
  intros [Hc _ Hst] Hs Hl1 Hl2 Hns Hd Hne Hn1 Hn2 Hargs Hlt.
  assert (Hrun : ∀ next, length (Shards next) = NShards → ∃ kv',
    sk_applyOp (set_nextConfig kv next) (mkSkOp DELETE_SHARDS (KDeleteShards args)) = Ok kv' ∧
    sk_store kv' !! Z.to_nat s =
      if decide (Shards next !! Z.to_nat s = Some (sk_gid kv)) then Some data else Some ∅).
  { intros next Hl. unfold sk_applyOp; simpl. apply unlessDone_ok; [by split|].
    intros kv1 Hwf1 Hg1 Hs1 Hc1 Hnx1 Hl' Hk1. rewrite bool_decide_true by done.
    unfold deleteShards. rewrite Hargs. simpl in *.
    destruct (deleteShard_run kv1 s Hwf1 Hs) as (kv2 & -> & _ & _ & _ & nx & Hnx & Hst2). res_simpl.
    eexists. split; [done|]. simpl. rewrite Hst2. rewrite Hnx1 in Hnx. simpl in Hnx. rewrite Hnx, Hs1, Hg1.
    assert (¬ serves kv1 s) by (unfold serves in *; by rewrite Hg1, Hc1).
    destruct (decide (Some nx = Some (sk_gid kv))) as [[= ->]|Hx].
    - by rewrite decide_True by auto.
    - rewrite decide_False by naive_solver. apply list_lookup_insert_eq. unfold in_range in Hs. lia. }
  destruct (Hrun next1 Hl1) as (kv1 & ? & H1), (Hrun next2 Hl2) as (kv2 & ? & H2).
  exists kv1, kv2. rewrite decide_True in H1 by done. rewrite decide_False in H2 by done. done.
Qed.

Lemma contains_spec arr o : contains arr o = true ↔ o ∈ arr.
Proof.
  unfold contains. rewrite existsb_exists. split.
  - intros (x & Hx & ->%bool_decide_eq_true). by apply list_elem_of_In.
  - intros Ho. exists o. split; [by apply list_elem_of_In|]. by apply bool_decide_eq_true.
Qed.

(** The shards of a group, as the shard map has them. *)
Lemma elem_of_group_shards c g s :
  s ∈ default [] (GetGroupShardsMap c !! g) ↔ ∃ i, s = Z.of_nat i ∧ Shards c !! i = Some g.
Proof.
  rewrite GetGroupShardsMap_lookup. pose proof (elem_of_shards_from 0 g (Shards c) s) as He. simpl in He.
  destruct (Groups c !! g); [done|]. by destruct (shards_from 0 g (Shards c)).
Qed.

Lemma addMigration_list kv old l m :
  length (Shards old) = NShards → (∀ s, s ∈ l → in_range s ∧ Shards old !! Z.to_nat s ≠ Some (sk_gid kv)) →
  ∃ m', foldM (addMigration kv old) m l = Ok m' ∧
    ∀ g s, s ∈ default [] (m' !! g) ↔
      s ∈ default [] (m !! g) ∨ s ∈ l ∧ Shards old !! Z.to_nat s = Some g ∧ g ≠ 0%Z.
Proof.
  intros Hl. revert m. induction l as [|s l IH]; intros m Hin; cbn [foldM].
  { exists m. split; [done|]. intros g s. rewrite elem_of_nil. tauto. }
  destruct (Hin s ltac:(left)) as [Hr Ho]. destruct (range_idx _ _ Hl Hr) as (owner & Hidx & Hlo).
  set (m1 := if bool_decide (owner ≠ 0%Z) then <[owner := default [] (m !! owner) ++ [s]]> m else m).
  assert (addMigration kv old m s = Ok m1) as ->.
  { unfold addMigration. rewrite Hidx. res_simpl. rewrite (bool_decide_true (owner ≠ sk_gid kv)) by congruence. simpl.
    unfold m1. by case_bool_decide. }
  res_simpl. destruct (IH m1) as (m' & Hrun & Hm'); [intros x Hx; apply Hin; by right|].
  exists m'. split; [done|]. intros g x. rewrite Hm'.
  assert (Hm1 : x ∈ default [] (m1 !! g) ↔ x ∈ default [] (m !! g) ∨ x = s ∧ owner = g ∧ g ≠ 0%Z).
  { unfold m1. case_bool_decide as H0; [|naive_solver].
    destruct (decide (owner = g)) as [<-|Hg].
    - rewrite lookup_insert_eq. simpl. rewrite elem_of_app, list_elem_of_singleton. naive_solver.
    - rewrite lookup_insert_ne by done. naive_solver. }
  rewrite Hm1, elem_of_cons. split.
  - intros [[?|(-> & <- & ?)]|(? & ? & ?)]; [by left|right; auto|right; auto].
  - intros [?|([->|?] & Hx & ?)]; [by left; left|left; right; split_and!; [done|congruence|done]|by right].
Qed.

(** What a group has to fetch.  [getMigrationFromGroupShardsMap] passes
    its assertion and lists, under every other group except the invalid
    group 0, exactly the shards that group owned and this group owns in the
    new configuration. *)
Theorem migration_shards kv old new :
  length (Shards old) = NShards → length (Shards new) = NShards →
  ∃ m, getMigrationFromGroupShardsMap kv old new = Ok m ∧
    ∀ g s, s ∈ default [] (m !! g) ↔
      in_range s ∧ Shards old !! Z.to_nat s = Some g ∧ Shards new !! Z.to_nat s = Some (sk_gid kv) ∧
      g ≠ sk_gid kv ∧ g ≠ 0%Z.
Proof.
  intros Ho Hn. unfold getMigrationFromGroupShardsMap.
  set (l := filter _ _).
  assert (Hl : ∀ s, s ∈ l ↔ in_range s ∧ Shards new !! Z.to_nat s = Some (sk_gid kv) ∧
    Shards old !! Z.to_nat s ≠ Some (sk_gid kv)).
  { intros s. unfold l. rewrite list_elem_of_filter, elem_of_group_shards, <-not_true_iff_false, contains_spec.
    rewrite elem_of_group_shards. split.
    - intros [Hno (i & -> & Hi)]. rewrite Nat2Z.id. pose proof (lookup_lt_Some _ _ _ Hi).
      split_and!; [unfold in_range; lia|done|]. intros Hbad. apply Hno. by exists i.
    - intros (Hr & Hnew & Hold). unfold in_range in Hr. split.
      + intros (i & -> & Hi). by rewrite Nat2Z.id in Hold.
      + exists (Z.to_nat s). split; [lia|done]. }
  destruct (addMigration_list kv old l ∅ Ho) as (m & Hrun & Hm); [intros s Hs; apply Hl in Hs; tauto|].
  exists m. split; [done|]. intros g s. rewrite Hm, lookup_empty, Hl. simpl. rewrite elem_of_nil.
  split; [|naive_solver congruence]. intros [[]|((? & ? & Hne) & ? & ?)]. split_and!; try done. congruence.
Qed.
End ShardKV.
