(* ===== verification/ShardKVClerk.v ===== *)
(** * The clerk of the sharded service (src/shardkv/client.go)

    A clerk keeps the last configuration it heard of and, per group, the
    server that answered last.  A request is tried at the group that owns the
    key's shard, one call per server of the group, and after each failed
    round the clerk asks the controller for the latest configuration.  What
    the channels and the controller deliver is an argument: one list of
    events and one configuration per round.

    Theorems: whenever a clerk returns a value, a replica of the owning group
    read it under that key; and a key that does not exist keeps the clerk in
    its loop forever. *)

From stdpp Require Import strings base gmap list.
From Stdlib Require Import ZArith Lia.
From S2P Require Import Prelude RaftCore ShardConfig KVRaft Clerk ShardCtrler ShardKV.

Module GroupLeaderMap.
Definition init : gmap Z Z := ∅.
Definition get (entries : gmap Z Z) (gid : Z) : Z := default 0%Z (entries !! gid).
Definition put (entries : gmap Z Z) (gid leader : Z) : gmap Z Z := <[gid := leader]> entries.
End GroupLeaderMap.

Record SkClerk : Type := mkSkClerk {
  skc_config : Config;
  skc_seqNum : Z;
  skc_clientId : Z;
  skc_leaders : gmap Z Z;
}.

Implicit Types ck : SkClerk.

Definition sk_MakeClerk (random : Z) : SkClerk := mkSkClerk zeroConfig 0 (nrand random) GroupLeaderMap.init.

Definition skc_setConfig ck (c : Config) : SkClerk :=
  mkSkClerk c (skc_seqNum ck) (skc_clientId ck) (skc_leaders ck).

Definition skc_nextSeq ck : SkClerk * Z :=
  let n := wrap64 (skc_seqNum ck + 1) in
  (mkSkClerk (skc_config ck) n (skc_clientId ck) (skc_leaders ck), n).

Section callOtherGroup.
Context {R : Type} (wrongLeader : R → bool).

(** The loop of [callOtherGroup] with [k] iterations left; [r] is the last
    result received.  [None]: waiting in the select statement. *)
Fixpoint group_loop (k : nat) (r : option (Z * R)) (events : list (CallEvent R)) : option (option (Z * R)) :=
  match k with
  | O => Some r
  | S k =>
      match events with
      | [] => None
      | Got sid reply :: events =>
          if wrongLeader reply then group_loop k (Some (sid, reply)) events else Some (Some (sid, reply))
      | TimeOut :: events => group_loop k r events
      end
  end.

(** The reply is nil when no call returned. *)
Definition callOtherGroup ck (gid : Z) (servers : list string) (events : list (CallEvent R))
    : option (SkClerk * option R) :=
  match group_loop (length servers) None events with
  | None => None
  | Some r =>
      let serverID := match r with Some (sid, _) => sid | None => 0%Z end in
      Some (mkSkClerk (skc_config ck) (skc_seqNum ck) (skc_clientId ck)
              (GroupLeaderMap.put (skc_leaders ck) gid serverID), option_map snd r)
  end.

(** One round of the loops of [Get] and [PutAppend]: the reply to the
    request, if the shard's group is known and a reply arrived. *)
Definition clerk_round ck (key : string) (events : list (CallEvent R)) : Res (option (SkClerk * option R)) :=
  gid ← idx (Shards (skc_config ck)) (key2shard key);
  match Groups (skc_config ck) !! gid with
  | Some servers => Ok (callOtherGroup ck gid servers events)
  | None => Ok (Some (ck, None))
  end.

(** The loop: [accept] says which replies end it; [None] while it runs. *)
Fixpoint clerk_rounds {V} (accept : R → option V) ck (key : string)
    (rounds : list (list (CallEvent R) * Config)) : Res (SkClerk * option V) :=
  match rounds with
  | [] => Ok (ck, None)
  | (events, answer) :: rounds =>
      x ← clerk_round ck key events;
      match x with
      | None => Ok (ck, None)
      | Some (ck, reply) =>
          match reply ≫= accept with
          | Some v => Ok (ck, Some v)
          | None => clerk_rounds accept (skc_setConfig ck answer) key rounds
          end
      end
  end.

(** ** Lemmas *)

Lemma group_loop_source k r events sid reply :
  group_loop k r events = Some (Some (sid, reply)) → r = Some (sid, reply) ∨ Got sid reply ∈ events.
Proof.
  revert r events. induction k as [|k IH]; intros r events H; simpl in H; [left; congruence|].
  destruct events as [|[sid' r'|] events]; [done| |].
  - destruct (wrongLeader r').
    + destruct (IH _ _ H) as [[= -> ->]|?]; [right; left|right; by right].
    + injection H as -> ->. right. left.
  - destruct (IH _ _ H) as [?|?]; [by left|right; by right].
Qed.

Lemma clerk_round_run ck key events :
  length (Shards (skc_config ck)) = NShards →
  ∃ x, clerk_round ck key events = Ok x ∧
    ∀ ck' reply, x = Some (ck', Some reply) → ∃ sid, Got sid reply ∈ events.
Proof.
  intros Hl. unfold clerk_round.
  destruct (range_idx _ _ Hl (key2shard_range key)) as (gid & -> & _). res_simpl.
  destruct (Groups (skc_config ck) !! gid); eexists; (split; [done|]); [|intros; simplify_eq].
  intros ck' reply. unfold callOtherGroup. destruct (group_loop _ _ _) as [[[sid r]|]|] eqn:E; simpl; try done.
  intros [= _ <-]. apply group_loop_source in E as [?|?]; [done|by exists sid].
Qed.

(** The loop never panics; a value it returns is a reply it accepted. *)
Lemma clerk_rounds_run {V} (accept : R → option V) ck key rounds :
  length (Shards (skc_config ck)) = NShards →
  (∀ ev c, (ev, c) ∈ rounds → length (Shards c) = NShards) →
  ∃ ck' res, clerk_rounds accept ck key rounds = Ok (ck', res) ∧
    ∀ v, res = Some v → ∃ ev c sid reply, (ev, c) ∈ rounds ∧ Got sid reply ∈ ev ∧ accept reply = Some v.
Proof.
  revert ck. induction rounds as [|[ev c] rounds IH]; intros ck Hl Hc; simpl; [by eexists _, _|].
  destruct (clerk_round_run ck key ev Hl) as (x & -> & Hsrc). res_simpl.
  destruct x as [[ck1 reply]|]; [|by eexists _, _].
  destruct (reply ≫= accept) as [v|] eqn:E.
  - destruct reply as [r|]; [|done]. destruct (Hsrc ck1 r eq_refl) as [sid Hg].
    eexists _, _. split; [done|]. intros v' [= <-]. exists ev, c, sid, r. split_and!; [left|done|done].
  - destruct (IH (skc_setConfig ck1 c)) as (ck' & res & Hrun & Hres);
      [apply (Hc ev); left|intros ev' c' Hin; apply (Hc ev'); by right|].
    exists ck', res. split; [done|]. intros v Hv. destruct (Hres v Hv) as (ev' & c' & sid & r & ? & ? & ?).
    exists ev', c', sid, r. split_and!; [by right|done..].
Qed.
End callOtherGroup.

Definition skGetWrongLeader (r : SkGetReply) : bool := bool_decide (skg_Err r = skErrWrongLeader).
Definition skWrongLeader (r : SkReply) : bool := bool_decide (skr_Err r = skErrWrongLeader).

(** [Get] returns on [OK] only. *)
Definition acceptGet (r : SkGetReply) : option string :=
  if bool_decide (skg_Err r = skOK) then Some (skg_Value r) else None.

Definition acceptPut (r : SkReply) : option unit :=
  if bool_decide (skr_Err r = skOK) then Some tt else None.

Definition sk_clerk_Get ck (key : string) (rounds : list (list (CallEvent SkGetReply) * Config))
    : Res (SkClerk * GetArgs * option string) :=
  let '(ck, n) := skc_nextSeq ck in
  let args := mkGetArgs key n (skc_clientId ck) in
  '(ck, res) ← clerk_rounds skGetWrongLeader acceptGet ck key rounds;
  Ok (ck, args, res).

Definition sk_clerk_PutAppend ck (key value op : string) (rounds : list (list (CallEvent SkReply) * Config))
    : Res (SkClerk * PutAppendArgs * option unit) :=
  let '(ck, n) := skc_nextSeq ck in
  let args := mkPutAppendArgs key value op n (skc_clientId ck) in
  '(ck, res) ← clerk_rounds skWrongLeader acceptPut ck key rounds;
  Ok (ck, args, res).

Definition sk_clerk_Put ck key value rounds := sk_clerk_PutAppend ck key value PUT rounds.
Definition sk_clerk_Append ck key value rounds := sk_clerk_PutAppend ck key value APPEND rounds.

(** Every reply in the rounds is that of a replica [kv] with [P kv]. *)
Definition replies_from (P : ShardKV → Prop) (key : string)
    (rounds : list (list (CallEvent SkGetReply) * Config)) : Prop :=
  ∀ ev c sid r, (ev, c) ∈ rounds → Got sid r ∈ ev →
    ∃ kv args b, P kv ∧ ga_Key args = key ∧ skGet_reply kv args b = Ok r.

(** What a replica replies with OK is the value it has. *)
Lemma skGet_reply_value kv args b r v :
  skv_wf kv → skGet_reply kv args b = Ok r → acceptGet r = Some v →
  serves kv (key2shard (ga_Key args)) ∧ sk_lookup kv (ga_Key args) = Some v.
Proof.
  intros [Hc _ Hs] Hr Ha. unfold skGet_reply in Hr. destruct b; [|by simplify_eq]. res_inv.
  destruct x as [val err]. simpl in *. simplify_eq. unfold acceptGet in Ha; simpl in Ha.
  case_bool_decide; [|done]. injection Ha as ->. subst err.
  unfold sk_get, wrongGroup in E. destruct (range_idx _ _ Hc (key2shard_range (ga_Key args))) as (o & Ho & Hlo).
  destruct (range_idx _ _ Hs (key2shard_range (ga_Key args))) as (d & Hd & Hld).
  rewrite Ho in E. res_simpl. case_bool_decide as Hg; [done|]. rewrite Hd in E. res_simpl.
  split; [unfold serves; congruence|]. unfold sk_lookup. rewrite Hld. simpl.
  by destruct (d !! ga_Key args); simplify_eq.
Qed.

(** A value that [Get] returns was read under that key by a replica of
    the group that served the key's shard; the clerk never panics. *)
Theorem sk_clerk_Get_value ck key rounds :
  length (Shards (skc_config ck)) = NShards →
  (∀ ev c, (ev, c) ∈ rounds → length (Shards c) = NShards) →
  replies_from skv_wf key rounds →
  ∃ ck' args res, sk_clerk_Get ck key rounds = Ok (ck', args, res) ∧
    ∀ v, res = Some v → ∃ kv, skv_wf kv ∧ serves kv (key2shard key) ∧ sk_lookup kv key = Some v.
Proof.
  intros Hl Hc Hrep. unfold sk_clerk_Get, skc_nextSeq.
  set (ck1 := mkSkClerk _ _ _ _).
  destruct (clerk_rounds_run skGetWrongLeader acceptGet ck1 key rounds Hl Hc) as (ck' & res & -> & Hres).
  res_simpl. eexists _, _, res. split; [done|]. intros v Hv.
  destruct (Hres v Hv) as (ev & c & sid & r & Hin & Hg & Ha).
  destruct (Hrep ev c sid r Hin Hg) as (kv & args & b & Hwf & <- & Hr).
  destruct (skGet_reply_value kv args b r v Hwf Hr Ha). by exists kv.
Qed.

(** A key that does not exist.  When every replica that answers has no
    value under the key, [Get] goes on forever: it accepts only [OK], and a
    replica that serves the shard answers [ErrNoKey]. *)
Theorem sk_clerk_Get_missing ck key rounds :
  length (Shards (skc_config ck)) = NShards →
  (∀ ev c, (ev, c) ∈ rounds → length (Shards c) = NShards) →
  replies_from (λ kv, skv_wf kv ∧ sk_lookup kv key = None) key rounds →
  ∃ ck' args, sk_clerk_Get ck key rounds = Ok (ck', args, None).
Proof.
  intros Hl Hc Hrep. unfold sk_clerk_Get, skc_nextSeq.
  set (ck1 := mkSkClerk _ _ _ _).
  destruct (clerk_rounds_run skGetWrongLeader acceptGet ck1 key rounds Hl Hc) as (ck' & res & -> & Hres).
  res_simpl. destruct res as [v|]; [|by eexists _, _].
  destruct (Hres v eq_refl) as (ev & c & sid & r & Hin & Hg & Ha).
  destruct (Hrep ev c sid r Hin Hg) as (kv & args & b & [Hwf Hn] & <- & Hr).
  destruct (skGet_reply_value kv args b r v Hwf Hr Ha). congruence.
Qed.
