(* ===== verification/ShardWitness.v ===== *)
(** * Concrete configurations, controllers and shard servers

    The properties of [ShardConfig], [ShardCtrler], [ShardKV] and
    [ShardKVClerk] at concrete inputs. *)

From stdpp Require Import strings countable base gmap list.
From Stdlib Require Import ZArith Lia.
From S2P Require Import Prelude RaftLog RaftCore RaftApply RaftWitness ShardConfig KVRaft Clerk ShardCtrler ShardKV ShardKVClerk.

(** ** Configurations *)

Definition grp (gid : Z) : gmap Z (list string) := {[ gid := ["s" +:+ "1"] ]}.

(** Group 1 owns everything. *)
Definition config1 : Config := mkConfig 1 (replicate NShards 1%Z) (grp 1).

Lemma config1_valid : valid config1.
Proof.
  split; [reflexivity|reflexivity|done|]. intros _ g Hg. apply elem_of_replicate in Hg as [-> _]. by eexists.
Qed.

Lemma config1_balanced : balanced config1.
Proof.
  intros g1 g2 H1 H2. unfold config1, grp in *; simpl in *.
  apply lookup_singleton_is_Some in H1 as <-, H2 as <-. lia.
Qed.

(** The same groups, nothing assigned yet. *)
Definition configNew : Config := set_Shards config1 (replicate NShards 0%Z).

Lemma ResetShards_spec_witness :
  ∃ c', ResetShards NShards configNew = Some c' ∧ valid c' ∧ Shards c' = replicate NShards 1%Z.
Proof.
  pose proof (ResetShards_spec configNew eq_refl eq_refl) as H.
  rewrite decide_False in H by done. destruct H as (c' & Hr & Hv & _). exists c'.
  specialize (Hr NShards (le_n _)). split_and!; [done..|]. vm_compute in Hr. by injection Hr as <-.
Defined.

Lemma JoinGroups_spec_witness :
  ∃ c', JoinGroups config1 (grp 2) = Ok c' ∧ valid c' ∧ balanced c' ∧ count 2 c' = 5.
Proof.
  destruct (JoinGroups_spec config1 (grp 2) config1_valid eq_refl) as (c' & H & [Hv Hb _ _] & _).
  exists c'. split_and!; [done..|apply Hb, config1_balanced|]. vm_compute in H. by injection H as <-.
Defined.

Lemma RemoveGroups_spec_witness :
  ∃ c', RemoveGroups config1 [1%Z] = Ok c' ∧ valid c' ∧ Shards c' = replicate NShards 0%Z.
Proof.
  destruct (RemoveGroups_spec config1 [1%Z] config1_valid) as (c' & H & Hv & _).
  exists c'. split_and!; [done..|]. vm_compute in H. by injection H as <-.
Defined.

(** Shard 0 was moved to group 1 before any group joined. *)
Definition configMoved : Config := mkConfig 1 (1%Z :: replicate 9 0%Z) ∅.

Lemma JoinGroups_after_Move_witness : JoinGroups configMoved (grp 1) = Panic.
Proof.
  apply JoinGroups_after_Move; [done..| |left].
  intros x [->|Hx]%elem_of_cons; [by right|left]. by apply elem_of_replicate in Hx as [-> _].
Defined.

(** ** The controller *)

#[local] Instance gobSc : Gob (PState ScOp) := {| gob_encode _ := [Byte.x00]; gob_decode _ := None |}.

Definition scStart : ShardCtrler :=
  mkShardCtrler 0 (examplePeer 0 LEADER 1 0 (mkLog [zeroEntry] 0)) Configs.init ∅.
Definition joinOp : ScOp := mkScOp JOIN (AJoin (mkJoinArgs (grp 1) 1 7)).
Definition scJoined : ShardCtrler := mkShardCtrler 0 (sc_rf scStart) [zeroConfig; config1] {[ 7%Z := 1%Z ]}.

Lemma scStart_ok : history_ok scStart.
Proof. split; [done|]. intros [|i] c H; [|done]. injection H as <-. split; [done|]. apply zeroConfig_valid. Qed.

Lemma scJoined_ok : history_ok scJoined.
Proof.
  split; [done|]. intros [|[|i]] c H; [| |done]; injection H as <-; (split; [done|]).
  - apply zeroConfig_valid.
  - apply config1_valid.
Qed.

Lemma sc_history_witness :
  ∃ sc', applyScOp NShards scStart joinOp = Some (Ok sc') ∧ history_ok sc' ∧ configs sc' = [zeroConfig; config1].
Proof.
  destruct (sc_history NShards scStart joinOp zeroConfig) as (sc' & new & H & _ & _ & Hok & _ & _);
    [apply scStart_ok|done|done|by constructor|]. exists sc'. split_and!; [done..|].
  vm_compute in H. by injection H as <-.
Defined.

Lemma sc_at_most_once_witness :
  ∃ sc', applyScOp NShards scJoined joinOp = Some (Ok sc') ∧ configs sc' = [zeroConfig; config1].
Proof.
  destruct (sc_at_most_once NShards scJoined joinOp config1) as (sc' & H & Hc & _);
    [apply scJoined_ok|done|done|by constructor|by vm_compute|]. exists sc'. by split.
Defined.

Lemma Query_spec_witness : Query_reply scJoined (mkQueryArgs (-1) 1 8) true = Ok (mkQueryReply scOK config1).
Proof.
  destruct (Query_spec scJoined (mkQueryArgs (-1) 1 8) scJoined_ok) as (c & -> & _ & _ & H).
  vm_compute in H. by injection H as <-.
Defined.

Lemma first_join_hangs_witness : applyScOp 1000 scStart (mkScOp JOIN (AJoin (mkJoinArgs ∅ 1 7))) = None.
Proof. by apply first_join_hangs. Defined.

(** ** Shard servers *)

Global Instance Config_eq_dec : EqDecision Config.
Proof. solve_decision. Defined.

Global Instance Config_countable : Countable Config.
Proof.
  refine (inj_countable' (λ c, (Num c, Shards c, Groups c)) (λ '(n, s, g), mkConfig n s g) _).
  by intros [].
Defined.

Global Instance SkSnapshot_eq_dec : EqDecision SkSnapshot.
Proof. unfold SkSnapshot. apply _. Defined.
Global Instance SkSnapshot_countable : Countable SkSnapshot.
Proof. unfold SkSnapshot. apply _. Defined.

#[local] Instance gobSk : Gob (PState SkOp) := {| gob_encode _ := [Byte.x00]; gob_decode _ := None |}.
#[local] Instance gobSnap : Gob SkSnapshot := countable_gob SkSnapshot.
#[local] Instance gobSnap_ok : GobOk SkSnapshot := countable_gob_ok SkSnapshot.

(** Replicas of groups 1 and 2 while group 1 owns everything; key "a" is in
    shard 7, where client 9 has put its first request. *)
Definition replica (gid : Z) (st : list Data) (clients : gmap Z Z) : ShardKV :=
  mkShardKV 0 (examplePeer 0 LEADER 1 0 (mkLog [zeroEntry] 0)) gid (-1) config1 config1 st clients 0 100 ∅ ∅.

Definition putA : PutAppendArgs := mkPutAppendArgs "a" "v" PUT 1 9.
Definition storeA : list Data := <[7 := {[ "a" := "v" ]}]> initStore.
Definition srcA : ShardKV := replica 1 storeA {[ 9%Z := 1%Z ]}.
Definition emptyA : ShardKV := replica 1 initStore ∅.
Definition dstA : ShardKV := replica 2 initStore ∅.

Lemma srcA_wf : skv_wf srcA.
Proof. by split. Qed.
Lemma emptyA_wf : skv_wf emptyA.
Proof. by split. Qed.
Lemma dstA_wf : skv_wf dstA.
Proof. by split. Qed.

Lemma sk_applyOp_safe_witness :
  ∃ kv', sk_applyOp emptyA (mkSkOp PUT (KPutAppend putA)) = Ok kv' ∧ sk_grows emptyA kv'.
Proof. apply (sk_applyOp_safe emptyA); [apply emptyA_wf|constructor]. Defined.

Lemma sk_write_spec_witness :
  ∃ kv', sk_applyOp emptyA (mkSkOp PUT (KPutAppend putA)) = Ok kv' ∧ sk_wrote true emptyA putA kv' ∧
    sk_lookup kv' "a" = Some "v".
Proof.
  destruct (sk_write_spec true emptyA putA emptyA_wf) as (kv' & H & Hw). exists kv'. split_and!; [done..|].
  vm_compute in H. by injection H as <-.
Defined.

Lemma migration_exactly_once_witness :
  ∃ reply dst' dst'', GetShards_reply srcA (mkGetShardsArgs 1 [7%Z] 1 100) true = Ok reply ∧
    sk_applyOp dstA (mkSkOp PUT_SHARDS (KPutShards
      (mkPutShardsArgs (gsr_Shards reply) (gsr_ClientSeqNumMap reply) 1 100))) = Ok dst' ∧
    sk_lookup dst' "a" = Some "v" ∧
    sk_applyOp dst' (mkSkOp PUT (KPutAppend putA)) = Ok dst'' ∧ sk_store dst'' = sk_store dst'.
Proof.
  destruct (migration_exactly_once srcA dstA (mkGetShardsArgs 1 [7%Z] 1 100) 1 100)
    as (reply & dst' & Hr & Hd & Hs & _ & Hw); [apply srcA_wf|apply dstA_wf| |done|].
  { intros s Hs. apply list_elem_of_singleton in Hs as ->. done. }
  destruct (Hw true putA) as (dst'' & Ha & Hst); [done|]. exists reply, dst', dst''. split_and!; try done.
  destruct (Hs 7%Z) as [_ H7]; [left|]. unfold sk_lookup. change (key2shard "a") with 7%Z. by rewrite H7.
Defined.

Lemma putShards_again_witness :
  ∃ kv', sk_applyOp srcA (mkSkOp PUT_SHARDS (KPutShards (mkPutShardsArgs {[ 7%Z := ∅ ]} ∅ 2 100))) = Ok kv' ∧
    sk_store kv' = storeA.
Proof.
  destruct (putShards_again srcA (mkPutShardsArgs {[ 7%Z := ∅ ]} ∅ 2 100) srcA_wf) as (kv' & H & Hs & _).
  { intros s Hs. simpl in Hs. apply lookup_singleton_is_Some in Hs as <-. done. }
  by exists kv'.
Defined.

Lemma sk_snapshot_roundtrip_witness :
  ∃ kv', sk_applySnap dstA (sk_snapshotBytes srcA 5) 5 = Ok kv' ∧ sk_store kv' = storeA ∧ sk_lastSeq kv' 9 = 1%Z.
Proof.
  destruct (sk_snapshot_roundtrip dstA srcA 5) as (kv' & H & Hs & _ & Hl). exists kv'.
  split_and!; [done..|]. by rewrite Hl.
Defined.

(** Group 2 still has shard 7's data; only one of its replicas has heard that
    it gets the shard back. *)
Definition oldOwner : ShardKV := replica 2 storeA ∅.
Definition config2 : Config := mkConfig 2 (replicate NShards 2%Z) (grp 2).

Lemma delete_diverges_witness :
  ∃ kv1 kv2,
    sk_applyOp (set_nextConfig oldOwner config2) (mkSkOp DELETE_SHARDS (KDeleteShards (mkDeleteShardsArgs 1 [7%Z] 1 100))) = Ok kv1 ∧
    sk_applyOp (set_nextConfig oldOwner config1) (mkSkOp DELETE_SHARDS (KDeleteShards (mkDeleteShardsArgs 1 [7%Z] 1 100))) = Ok kv2 ∧
    sk_lookup kv1 "a" = Some "v" ∧ sk_lookup kv2 "a" = None.
Proof.
  destruct (delete_diverges oldOwner config2 config1 7 {[ "a" := "v" ]} (mkDeleteShardsArgs 1 [7%Z] 1 100))
    as (kv1 & kv2 & H1 & H2 & Hs1 & Hs2); try done.
  exists kv1, kv2. split_and!; [done..| |]; unfold sk_lookup; change (key2shard "a") with 7%Z; [by rewrite Hs1|by rewrite Hs2].
Defined.

Lemma migration_shards_witness :
  ∃ m, getMigrationFromGroupShardsMap dstA config1 config2 = Ok m ∧ 7%Z ∈ default [] (m !! 1%Z).
Proof.
  destruct (migration_shards dstA config1 config2 eq_refl eq_refl) as (m & H & Hm). exists m. split; [done|].
  by apply Hm.
Defined.

(** ** Their clerk *)

Definition skClerkA : SkClerk := mkSkClerk config1 0 9 ∅.
Definition getReplyOf (kv : ShardKV) (key : string) : SkGetReply :=
  match skGet_reply kv (mkGetArgs key 1 9) true with Ok r => r | Panic => mkSkGetReply skErrNoKey "" end.

Lemma replies_one (P : ShardKV → Prop) key kv c :
  P kv → skGet_reply kv (mkGetArgs key 1 9) true = Ok (getReplyOf kv key) →
  replies_from P key [([Got 0 (getReplyOf kv key)], c)].
Proof.
  intros HP Hr ev c' sid r Hin Hg. apply list_elem_of_singleton in Hin as [= -> ->].
  apply list_elem_of_singleton in Hg as [= -> ->]. by exists kv, (mkGetArgs key 1 9), true.
Qed.

Lemma sk_clerk_Get_value_witness :
  ∃ ck' args, sk_clerk_Get skClerkA "a" [([Got 0 (getReplyOf srcA "a")], config1)] = Ok (ck', args, Some "v") ∧
    ∃ kv, serves kv (key2shard "a") ∧ sk_lookup kv "a" = Some "v".
Proof.
  destruct (sk_clerk_Get_value skClerkA "a" [([Got 0 (getReplyOf srcA "a")], config1)])
    as (ck' & args & res & H & Hv); [done| |by apply replies_one; [apply srcA_wf|]|].
  { intros ev c Hin. by apply list_elem_of_singleton in Hin as [= -> ->]. }
  assert (res = Some "v") as -> by (vm_compute in H; by injection H).
  exists ck', args. split; [done|]. destruct (Hv "v" eq_refl) as (kv & _ & Hkv). by exists kv.
Defined.

Lemma sk_clerk_Get_missing_witness :
  ∃ ck' args, sk_clerk_Get skClerkA "b" [([Got 0 (getReplyOf srcA "b")], config1)] = Ok (ck', args, None).
Proof.
  apply (sk_clerk_Get_missing skClerkA "b"); [done| |by apply replies_one; [split; [apply srcA_wf|]|]].
  intros ev c Hin. by apply list_elem_of_singleton in Hin as [= -> ->].
Defined.
