(* ===== verification/ShardSystem.v ===== *)
(** * Groups that exchange shards (src/shardkv/server.go)

    All groups of a sharded service together with the controller's history of
    configurations.  A group is the replica that polls the controller
    ([ShardKV], with the state its log has brought it to); while it works on a
    configuration its goroutines have a [Task]: [changeConfig] runs one fetch
    per source group, [Fetch] is the point the goroutines of that fetch have
    reached.  A request that was sent stays in [sy_sent] and may get into the
    log of its group at any later time, and again, since callers repeat their
    calls and the network may deliver late.  A reply is computed when the
    handler's wait is over and may be used much later.

    The controller's answers are configurations of its history, which only
    grows.  Here a group is not restarted, its polling replica does not
    change, and a shard that has an owner keeps having one.  [ShardReplicas]
    has the groups with all their servers and without these restrictions, and
    says which of its runs are runs of this system; in others a shard can get
    two owners ([two_owners]).

    [Event] is what clients notice: writes that take effect and reads that are
    answered.  The abstract service is one map with a table of executed
    requests per shard. *)

From stdpp Require Import base list gmap sets strings relations.
From Stdlib Require Import ZArith Lia.
From S2P Require Import Prelude RaftCore ShardConfig KVRaft ShardCtrler ShardKV.

(** ** The system *)

Inductive Fetch : Type :=
| FetchNew                           (* the goroutine is started *)
| FetchSent (args : GetShardsArgs)   (* callGetShardsFromGroup *)
| FetchGot (reply : GetShardsReply)  (* the result waits in ch1 *)
| FetchPut (args : PutShardsArgs)    (* callPutShardsToGroup *)
| FetchKept                          (* the goroutine that deletes is started *)
| FetchDel (args : DeleteShardsArgs) (* callDeleteShardsFromGroup *)
| FetchDone.                         (* ch2 *)

Inductive Task : Type :=
| TIdle
| TMigrate (old new : Config) (fetches : gmap Z (list Z * Fetch))
| TSetConfig (args : SetConfigArgs).

Record Sys : Type := mkSys {
  sy_ctl : list Config;
  sy_kv : gmap Z ShardKV;
  sy_task : gmap Z Task;
  sy_sent : list (Z * SkOp);
}.

Inductive Event : Type :=
| EWrite (isPut : bool) (args : PutAppendArgs)
| ERead (args : GetArgs) (reply : SkGetReply).

(** What the controller answers to a query for [num]: that configuration, or
    the latest one. *)
Definition ctl_answer (ctl : list Config) (num : Z) (c : Config) : Prop :=
  Configs.getConfig ctl num = Ok c.

(** A client is not a migrating server. *)
Definition not_server (st : Sys) (c : Z) : Prop := ∀ g kv, sy_kv st !! g = Some kv → sk_clientId kv ≠ c.

(** No server makes 2^63 requests. *)
Definition seq_left (kv : ShardKV) : Prop := (sk_seqNum kv + 1 < 2 ^ 63)%Z.

(** The request is executed: the group has the shard and it is not done. *)
Definition executes (kv : ShardKV) (args : PutAppendArgs) : Prop :=
  serves kv (key2shard (paa_Key args)) ∧ (sk_lastSeq kv (paa_ClientId args) < paa_SeqNum args)%Z.

Global Instance executes_dec kv args : Decision (executes kv args).
Proof. unfold executes. apply _. Defined.

(** The goroutines of one fetch of group [g] from group [h]; what they send. *)
Inductive fetch_step (kvs : gmap Z ShardKV) (g h : Z) (new : Config) (shards : list Z)
    : ShardKV → Fetch → ShardKV → Fetch → list (Z * SkOp) → Prop :=
| fetch_get kv kv' args :
    seq_left kv → migration_get kv new shards = (kv', args) →
    fetch_step kvs g h new shards kv FetchNew kv' (FetchSent args) [(h, mkSkOp GET_SHARDS (KGetShards args))]
| fetch_got kv args kvh reply :
    kvs !! h = Some kvh → (gsa_ConfigNum args ≤ Num (config kvh))%Z →
    (gsa_SeqNum args ≤ sk_lastSeq kvh (gsa_ClientId args))%Z → GetShards_reply kvh args true = Ok reply →
    fetch_step kvs g h new shards kv (FetchSent args) kv (FetchGot reply) []
| fetch_put kv kv' reply args :
    seq_left kv → migration_put kv reply = (kv', args) →
    fetch_step kvs g h new shards kv (FetchGot reply) kv' (FetchPut args) [(g, mkSkOp PUT_SHARDS (KPutShards args))]
| fetch_put_done kv args kvg :
    kvs !! g = Some kvg → (psa_SeqNum args ≤ sk_lastSeq kvg (psa_ClientId args))%Z →
    fetch_step kvs g h new shards kv (FetchPut args) kv FetchKept []
| fetch_delete kv kv' args :
    seq_left kv → migration_delete kv new shards = (kv', args) →
    fetch_step kvs g h new shards kv FetchKept kv' (FetchDel args) [(h, mkSkOp DELETE_SHARDS (KDeleteShards args))]
| fetch_delete_done kv args kvh :
    kvs !! h = Some kvh → (dsa_SeqNum args ≤ sk_lastSeq kvh (dsa_ClientId args))%Z →
    fetch_step kvs g h new shards kv (FetchDel args) kv FetchDone [].

Definition is_put (f : Fetch) : Prop := match f with FetchPut _ => True | _ => False end.

Inductive sys_step (st : Sys) : option Event → Sys → Prop :=
(* changeConfig finds nothing to do *)
| sys_poll g kv c kv' :
    sy_kv st !! g = Some kv → sy_task st !! g = Some TIdle → ctl_answer (sy_ctl st) (Num (config kv) + 1) c →
    changeConfig_start kv c = Ok (kv', None) →
    sys_step st None (mkSys (sy_ctl st) (<[g := kv']> (sy_kv st)) (sy_task st) (sy_sent st))
(* changeConfig starts a migration *)
| sys_change g kv c kv' old new m :
    sy_kv st !! g = Some kv → sy_task st !! g = Some TIdle → ctl_answer (sy_ctl st) (Num (config kv) + 1) c →
    changeConfig_start kv c = Ok (kv', Some (old, new)) →
    (if bool_decide (Num old > 0)%Z then getMigrationFromGroupShardsMap kv' old new else Ok ∅) = Ok m →
    sys_step st None (mkSys (sy_ctl st) (<[g := kv']> (sy_kv st))
      (<[g := TMigrate old new ((λ shards, (shards, FetchNew)) <$> m)]> (sy_task st)) (sy_sent st))
(* a goroutine of the migration; the results in ch1 are put one at a time *)
| sys_fetch g kv kv' old new fs h shards f f' out :
    sy_kv st !! g = Some kv → sy_task st !! g = Some (TMigrate old new fs) → fs !! h = Some (shards, f) →
    fetch_step (sy_kv st) g h new shards kv f kv' f' out →
    (is_put f' → ∀ h' x, fs !! h' = Some x → ¬ is_put (snd x)) →
    sys_step st None (mkSys (sy_ctl st) (<[g := kv']> (sy_kv st))
      (<[g := TMigrate old new (<[h := (shards, f')]> fs)]> (sy_task st)) (sy_sent st ++ out))
(* the migration is complete: callSetConfigToGroup *)
| sys_set g kv kv' old new fs args :
    sy_kv st !! g = Some kv → sy_task st !! g = Some (TMigrate old new fs) →
    (∀ h x, fs !! h = Some x → snd x = FetchDone) → seq_left kv → changeConfig_end kv new = (kv', args) →
    sys_step st None (mkSys (sy_ctl st) (<[g := kv']> (sy_kv st)) (<[g := TSetConfig args]> (sy_task st))
      (sy_sent st ++ [(g, mkSkOp SET_CONFIG (KSetConfig args))]))
| sys_set_done g kv args :
    sy_kv st !! g = Some kv → sy_task st !! g = Some (TSetConfig args) →
    (sca_SeqNum args ≤ sk_lastSeq kv (sca_ClientId args))%Z →
    sys_step st None (mkSys (sy_ctl st) (sy_kv st) (<[g := TIdle]> (sy_task st)) (sy_sent st))
(* a request of a migration is applied *)
| sys_apply g kv kv' op :
    (g, op) ∈ sy_sent st → sy_kv st !! g = Some kv → sk_applyOp kv op = Ok kv' →
    sys_step st None (mkSys (sy_ctl st) (<[g := kv']> (sy_kv st)) (sy_task st) (sy_sent st))
(* requests of clients, to any group *)
| sys_write g kv kv' (isPut : bool) args :
    sy_kv st !! g = Some kv → not_server st (paa_ClientId args) →
    sk_applyOp kv (mkSkOp (if isPut then PUT else APPEND) (KPutAppend args)) = Ok kv' →
    sys_step st (if decide (executes kv args) then Some (EWrite isPut args) else None)
      (mkSys (sy_ctl st) (<[g := kv']> (sy_kv st)) (sy_task st) (sy_sent st))
| sys_get g kv kv' args :
    sy_kv st !! g = Some kv → not_server st (ga_ClientId args) →
    sk_applyOp kv (mkSkOp GET (KGet args)) = Ok kv' →
    sys_step st None (mkSys (sy_ctl st) (<[g := kv']> (sy_kv st)) (sy_task st) (sy_sent st))
| sys_read g kv args reply :
    sy_kv st !! g = Some kv → skGet_reply kv args true = Ok reply → skg_Err reply ≠ skErrWrongGroup →
    sys_step st (Some (ERead args reply)) st
(* the controller's history grows *)
| sys_config c :
    length (Shards c) = NShards →
    (∀ last s g, list.last (sy_ctl st) = Some last → Shards last !! s = Some g → g ≠ 0%Z →
       Shards c !! s ≠ Some 0%Z) →
    sys_step st None (mkSys (Configs.append (sy_ctl st) c) (sy_kv st) (sy_task st) (sy_sent st)).

Inductive sys_trace (st : Sys) : list Event → Sys → Prop :=
| trace_nil : sys_trace st [] st
| trace_step tr ev st1 st2 : sys_trace st tr st1 → sys_step st1 ev st2 → sys_trace st (tr ++ option_list ev) st2.

(** Servers as [StartServer] leaves them. *)
Definition started (g : Z) (kv : ShardKV) : Prop :=
  sk_gid kv = g ∧ g ≠ 0%Z ∧ config kv = zeroConfig ∧ nextConfig kv = zeroConfig ∧ sk_store kv = initStore ∧
  clientStatusMap kv = ∅ ∧ sk_seqNum kv = 0%Z ∧ configInPrecessingMap kv = ∅.

Record initial (st : Sys) : Prop := {
  in_ctl : sy_ctl st = Configs.init;
  in_kv : ∀ g kv, sy_kv st !! g = Some kv → started g kv ∧ sy_task st !! g = Some TIdle;
  in_ids : ∀ g g' kv kv', sy_kv st !! g = Some kv → sy_kv st !! g' = Some kv' → sk_clientId kv = sk_clientId kv' → g = g';
  in_sent : sy_sent st = [];
}.

(** ** The abstract service *)

Record Abs : Type := mkAbs {
  ab_data : Data;
  ab_last : gmap (nat * Z) Z; (* per shard and client *)
}.

Definition shard_of (key : string) : nat := Z.to_nat (key2shard key).

Definition abs_lastSeq (a : Abs) (s : nat) (c : Z) : Z := default 0%Z (ab_last a !! (s, c)).

Inductive abs_step (a : Abs) : Event → Abs → Prop :=
| abs_write isPut args :
    (abs_lastSeq a (shard_of (paa_Key args)) (paa_ClientId args) < paa_SeqNum args)%Z →
    abs_step a (EWrite isPut args)
      (mkAbs (write isPut (ab_data a) (paa_Key args) (paa_Value args))
         (<[(shard_of (paa_Key args), paa_ClientId args) := paa_SeqNum args]> (ab_last a)))
| abs_read args :
    abs_step a (ERead args (match ab_data a !! ga_Key args with
                            | Some v => mkSkGetReply skOK v
                            | None => mkSkGetReply skErrNoKey EmptyString
                            end)) a.

Inductive abs_trace (a : Abs) : list Event → Abs → Prop :=
| atrace_nil : abs_trace a [] a
| atrace_step tr ev a1 a2 : abs_trace a tr a1 → abs_step a1 ev a2 → abs_trace a (tr ++ [ev]) a2.

Definition initAbs : Abs := mkAbs ∅ ∅.

(** ** The epochs of a shard *)

(** The owner of a shard in the configuration of a number. *)
Definition own (ctl : list Config) (e s : nat) : option Z := c ← ctl !! e; Shards c !! s.

Definition numOf (kv : ShardKV) : nat := Z.to_nat (Num (config kv)).

Definition has (kv : ShardKV) (s : nat) : Prop := Shards (config kv) !! s = Some (sk_gid kv).

Global Instance has_dec kv s : Decision (has kv s).
Proof. unfold has. apply _. Defined.

(** The owner in configuration [e] has had the shard, be it that it reached
    that configuration or that it has received the shard ahead of it. *)
Definition taken (ctl : list Config) (kvs : gmap Z ShardKV) (s e : nat) : Prop :=
  ∃ g kv, own ctl e s = Some g ∧ g ≠ 0%Z ∧ kvs !! g = Some kv ∧
    (e ≤ numOf kv ∨ e = S (numOf kv) ∧ has kv s ∧ own ctl (numOf kv) s ≠ Some g).

(** The data of a shard are those of the abstract service. *)
Definition agrees (a : Abs) (s : nat) (d : Data) : Prop := ∀ key, shard_of key = s → d !! key = ab_data a !! key.

Definition shard_ok (a : Abs) (s : nat) (kv : ShardKV) : Prop :=
  (∀ key, shard_of key = s → sk_lookup kv key = ab_data a !! key) ∧ ∀ c, (abs_lastSeq a s c ≤ sk_lastSeq kv c)%Z.

Record kv_ok (ctl : list Config) (g : Z) (kv : ShardKV) : Prop := {
  ko_gid : sk_gid kv = g;
  ko_zero : g ≠ 0%Z;
  ko_wf : skv_wf kv;
  ko_num : Num (config kv) = Z.of_nat (numOf kv);
  ko_len : numOf kv < length ctl;
  ko_seq : ∀ c, (0 ≤ sk_lastSeq kv c)%Z;
  ko_shards : ∀ s, s < NShards → Shards (config kv) !! s = own ctl (numOf kv) s ∨
    has kv s ∧ own ctl (S (numOf kv)) s = Some g ∧ own ctl (numOf kv) s ≠ Some g;
}.

Record ctl_ok (ctl : list Config) : Prop := {
  co_num : ∀ e c, ctl !! e = Some c → Num c = Z.of_nat e ∧ length (Shards c) = NShards;
  co_first : ∀ s g, own ctl 0 s = Some g → g = 0%Z;
  co_stays : ∀ e s g, own ctl e s = Some g → g ≠ 0%Z → own ctl (S e) s ≠ Some 0%Z;
}.

Record core_inv (ctl : list Config) (kvs : gmap Z ShardKV) (a : Abs) : Prop := {
  ci_ctl : ctl_ok ctl;
  ci_kv : ∀ g kv, kvs !! g = Some kv → kv_ok ctl g kv;
  ci_chain : ∀ s e h, taken ctl kvs s (S e) → own ctl e s = Some h → h ≠ 0%Z →
    taken ctl kvs s e ∧ (own ctl (S e) s ≠ Some h → ∃ kvh, kvs !! h = Some kvh ∧ S e ≤ numOf kvh);
  ci_data : ∀ s e h kv, taken ctl kvs s e → ¬ taken ctl kvs s (S e) → own ctl e s = Some h → kvs !! h = Some kv →
    shard_ok a s kv;
  ci_fresh : ∀ s, s < NShards → (∀ e, ¬ taken ctl kvs s e) →
    (∀ key, shard_of key = s → ab_data a !! key = None) ∧ (∀ c, ab_last a !! (s, c) = None) ∧
    ∀ g kv key, kvs !! g = Some kv → shard_of key = s → sk_lookup kv key = None;
}.

(** ** Lemmas: one owner at a time *)

Lemma shard_of_lt key : shard_of key < NShards.
Proof. pose proof (key2shard_range key) as H. unfold in_range in H. unfold shard_of. lia. Qed.

Lemma serves_has kv key : serves kv (key2shard key) ↔ has kv (shard_of key).
Proof. done. Qed.

Lemma own_lt ctl e s g : own ctl e s = Some g → e < length ctl.
Proof. unfold own. destruct (ctl !! e) eqn:E; [|done]. intros _. by eapply lookup_lt_Some. Qed.

Lemma own_shard_lt ctl e s g : ctl_ok ctl → own ctl e s = Some g → s < NShards.
Proof.
  intros Hc. unfold own. destruct (ctl !! e) as [c|] eqn:E; [|done]. simpl. intros Hs.
  destruct (co_num _ Hc e c E) as [_ <-]. by eapply lookup_lt_Some.
Qed.

Lemma own_total ctl e s : ctl_ok ctl → e < length ctl → s < NShards → ∃ g, own ctl e s = Some g.
Proof.
  intros Hc He Hs. destruct (lookup_lt_is_Some_2 _ _ He) as [c E]. unfold own. rewrite E. simpl.
  apply lookup_lt_is_Some_2. by destruct (co_num _ Hc e c E) as [_ ->].
Qed.

Section Epochs.
Context (ctl : list Config) (kvs : gmap Z ShardKV) (a : Abs) (Hinv : core_inv ctl kvs a).

Let Hctl : ctl_ok ctl := ci_ctl _ _ _ Hinv.

Lemma taken_own s e : taken ctl kvs s e → ∃ g, own ctl e s = Some g ∧ g ≠ 0%Z.
Proof. intros (g & kv & Ho & Hg & _). by exists g. Qed.

(** A shard that has an owner keeps having one. *)
Lemma own_stays s i e g : own ctl i s = Some g → g ≠ 0%Z → i ≤ e → e < length ctl → ∃ g', own ctl e s = Some g' ∧ g' ≠ 0%Z.
Proof.
  intros Ho Hg Hie He. induction Hie as [|e Hie IH]; [by exists g|].
  destruct IH as (g1 & Ho1 & Hg1); [lia|]. destruct (own_total ctl (S e) s Hctl He) as [g2 Ho2].
  { by eapply own_shard_lt. }
  exists g2. split; [done|]. intros ->. by eapply (co_stays _ Hctl e s g1).
Qed.

Lemma chain_down s i e g : taken ctl kvs s e → i ≤ e → own ctl i s = Some g → g ≠ 0%Z → taken ctl kvs s i.
Proof.
  intros Ht Hie. revert Ht. induction Hie as [|e Hie IH]; intros Ht Ho Hg; [done|].
  destruct (own_stays s i e g) as (g1 & Ho1 & Hg1); [done|done|done| |].
  { destruct (taken_own _ _ Ht) as (g2 & Ho2 & _). apply own_lt in Ho2. lia. }
  apply IH; [|done|done]. by destruct (ci_chain _ _ _ Hinv s e g1 Ht Ho1 Hg1).
Qed.

(** Who owned a shard that another group has by now has moved on. *)
Lemma moved_on s i e g kv :
  taken ctl kvs s e → i ≤ e → own ctl i s = Some g → g ≠ 0%Z → own ctl e s ≠ Some g → kvs !! g = Some kv → i < numOf kv.
Proof.
  intros Ht Hie. revert Ht. induction Hie as [|e Hie IH]; intros Ht Ho Hg Hne Hkv; [done|].
  destruct (own_stays s i e g) as (g1 & Ho1 & Hg1); [done|done|done| |].
  { destruct (taken_own _ _ Ht) as (g2 & Ho2 & _). apply own_lt in Ho2. lia. }
  destruct (ci_chain _ _ _ Hinv s e g1 Ht Ho1 Hg1) as [Ht1 Hnext]. destruct (decide (g1 = g)) as [->|Hne1].
  - destruct (Hnext Hne) as (kvh & Hkvh & Hle). rewrite Hkv in Hkvh. injection Hkvh as <-. lia.
  - apply IH; try done. rewrite Ho1. congruence.
Qed.

Lemma epoch_unique s e e' :
  taken ctl kvs s e → ¬ taken ctl kvs s (S e) → taken ctl kvs s e' → ¬ taken ctl kvs s (S e') → e = e'.
Proof.
  assert (H : ∀ e e', taken ctl kvs s e → ¬ taken ctl kvs s (S e) → taken ctl kvs s e' → e' ≤ e).
  { intros i j Hi Hni Hj. destruct (decide (j ≤ i)) as [|Hlt]; [done|]. exfalso. apply Hni.
    destruct (taken_own _ _ Hi) as (g & Ho & Hg). destruct (own_stays s i (S i) g) as (g' & Ho' & Hg'); [done|done|lia| |].
    - destruct (taken_own _ _ Hj) as (g2 & Ho2 & _). apply own_lt in Ho2. lia.
    - by eapply (chain_down s (S i) j g'); [|lia|..]. }
  intros H1 H2 H3 H4. pose proof (H e e' H1 H2 H3). pose proof (H e' e H3 H4 H1). lia.
Qed.

(** The epoch at which a group has a shard is the last one of the shard. *)
Lemma has_epoch g kv s :
  kvs !! g = Some kv → has kv s →
  ∃ e, own ctl e s = Some g ∧ taken ctl kvs s e ∧ ¬ taken ctl kvs s (S e) ∧
    (e = numOf kv ∨ e = S (numOf kv) ∧ own ctl (numOf kv) s ≠ Some g).
Proof.
  intros Hkv Hhas. pose proof (ci_kv _ _ _ Hinv g kv Hkv) as Hok.
  assert (Hs : s < NShards). { destruct (ko_wf _ _ _ Hok) as [<- _ _]. by eapply lookup_lt_Some. }
  assert (∃ e, own ctl e s = Some g ∧ taken ctl kvs s e ∧ (e = numOf kv ∨ e = S (numOf kv) ∧ own ctl (numOf kv) s ≠ Some g)) as (e & Ho & Ht & He).
  { destruct (ko_shards _ _ _ Hok s Hs) as [Heq|(_ & Ho & Hne)].
    - exists (numOf kv). unfold has in Hhas. rewrite Heq, (ko_gid _ _ _ Hok) in Hhas. split_and!; [done| |by left].
      exists g, kv. split_and!; [done|apply Hok|done|by left].
    - exists (S (numOf kv)). split_and!; [done| |by right]. exists g, kv. split_and!; [done|apply Hok|done|by right]. }
  exists e. split_and!; [done|done| |done]. intros Hn. pose proof Hn as (g' & kv' & Ho' & Hg' & Hkv' & Hcase).
  destruct (decide (g' = g)) as [->|Hne].
  - rewrite Hkv in Hkv'. injection Hkv' as <-. destruct Hcase as [?|(Heq & _ & Hno)]; [lia|].
    destruct He as [->|[-> Hno']]; [congruence|lia].
  - assert (e < numOf kv); [|lia]. eapply (moved_on s e (S e)); [done|lia|done|apply Hok| |done]. congruence.
Qed.

(** No two groups have a shard at the same time. *)
Lemma owner_unique g g' kv kv' s :
  kvs !! g = Some kv → kvs !! g' = Some kv' → has kv s → has kv' s → g = g'.
Proof.
  intros Hkv Hkv' Hh Hh'. destruct (has_epoch g kv s Hkv Hh) as (e & Ho & Ht & Hn & _), (has_epoch g' kv' s Hkv' Hh') as (e' & Ho' & Ht' & Hn' & _).
  rewrite (epoch_unique s e e') in Ho by done. congruence.
Qed.

(** A group that has a shard has the data of the abstract service. *)
Lemma has_ok g kv s : kvs !! g = Some kv → has kv s → shard_ok a s kv.
Proof. intros Hkv Hh. destruct (has_epoch g kv s Hkv Hh) as (e & Ho & Ht & Hn & _). by eapply (ci_data _ _ _ Hinv). Qed.
End Epochs.
