(* ===== verification/ShardTransfer.v ===== *)
(** * What requests do to the ownership and the data of shards (src/shardkv/server.go)

    The invariant [core_inv] of all groups (one owner per shard, and the last
    owner has the data of the abstract service) is kept by everything a group
    does to its replicated state: a write of a client, receiving shards,
    deleting shards, a new configuration; and by a new configuration of the
    controller. *)

From stdpp Require Import base list gmap sets strings relations.
From Stdlib Require Import ZArith Lia.
From S2P Require Import Prelude RaftCore ShardConfig KVRaft ShardCtrler ShardKV ShardSystem.

(** Nobody's last epoch of the shard is the group's. *)
Definition not_holder (ctl : list Config) (kvs : gmap Z ShardKV) (g : Z) (s : nat) : Prop :=
  ∀ e, taken ctl kvs s e → ¬ taken ctl kvs s (S e) → own ctl e s ≠ Some g.

(** ** The configuration of the group stays *)

Lemma taken_same_shard ctl kvs g kv kv' s e :
  kvs !! g = Some kv → numOf kv' = numOf kv → (has kv' s ↔ has kv s) →
  taken ctl (<[g := kv']> kvs) s e ↔ taken ctl kvs s e.
Proof.
  intros Hkv Hn Hh. split.
  - intros (g1 & kv1 & Ho & Hz & [[<- <-]|[Hne Hk]]%lookup_insert_Some & H); [|by exists g1, kv1].
    exists g, kv. by rewrite Hn, Hh in H.
  - intros (g1 & kv1 & Ho & Hz & Hk & H). destruct (decide (g = g1)) as [->|Hne].
    + exists g1, kv'. rewrite Hkv in Hk. injection Hk as <-. rewrite Hn, Hh.
      split_and!; [done|done|apply lookup_insert_eq|done].
    + exists g1, kv1. split_and!; [done|done|by rewrite lookup_insert_ne|done].
Qed.

Lemma taken_same ctl kvs g kv kv' s e :
  kvs !! g = Some kv → config kv' = config kv → sk_gid kv' = sk_gid kv →
  taken ctl (<[g := kv']> kvs) s e ↔ taken ctl kvs s e.
Proof. intros Hkv Hc Hg. eapply taken_same_shard; [done|unfold numOf; by rewrite Hc|unfold has; by rewrite Hc, Hg]. Qed.

Lemma kv_ok_same ctl g kv kv' :
  kv_ok ctl g kv → config kv' = config kv → sk_gid kv' = sk_gid kv → skv_wf kv' →
  (∀ c, (sk_lastSeq kv c ≤ sk_lastSeq kv' c)%Z) → kv_ok ctl g kv'.
Proof.
  intros [] Hc Hg Hwf Hl. split; unfold numOf, has in *; rewrite ?Hc, ?Hg; try done.
  intros c. specialize (Hl c). specialize (ko_seq c). lia.
Qed.

(** A step of group [g] under which the configuration stays; the abstract
    service may take a write of that group. *)
Lemma core_step ctl kvs a a' g kv kv' :
  core_inv ctl kvs a → kvs !! g = Some kv →
  config kv' = config kv → sk_gid kv' = sk_gid kv → skv_wf kv' →
  (∀ c, (sk_lastSeq kv c ≤ sk_lastSeq kv' c)%Z) →
  (∀ s, s < NShards → not_holder ctl kvs g s ∨ (shard_ok a s kv → shard_ok a' s kv')) →
  (∀ s, (∃ e, taken ctl kvs s e) ∨ ∀ key, shard_of key = s → sk_lookup kv key = None → sk_lookup kv' key = None) →
  (∀ s, (∀ key, shard_of key = s → ab_data a' !! key = ab_data a !! key) ∧ (∀ c, ab_last a' !! (s, c) = ab_last a !! (s, c)) ∨
     ∃ e, own ctl e s = Some g ∧ taken ctl kvs s e ∧ ¬ taken ctl kvs s (S e)) →
  core_inv ctl (<[g := kv']> kvs) a'.
Proof.
  intros Hi Hkv Hc Hg Hwf Hl Hok Hfresh Habs. pose proof Hi as [Hctl Hkvs Hchain Hdata Hfr].
  pose proof (λ s e, taken_same ctl kvs g kv kv' s e Hkv Hc Hg) as Hsame. split; [done|..].
  - intros g1 kv1 [[<- <-]|[Hne Hk]]%lookup_insert_Some; [|by apply Hkvs]. eapply kv_ok_same; [by apply Hkvs|done..].
  - intros s e h Ht Ho Hh. rewrite Hsame in Ht |- *. destruct (Hchain s e h Ht Ho Hh) as [H1 H2]. split; [done|].
    intros Hne. destruct (H2 Hne) as (kvh & Hkvh & Hle). destruct (decide (g = h)) as [->|Hgh].
    + exists kv'. split; [apply lookup_insert_eq|]. rewrite Hkv in Hkvh. injection Hkvh as <-. unfold numOf in *. by rewrite Hc.
    + exists kvh. split; [by rewrite lookup_insert_ne|done].
  - intros s e h kv1 Ht Hn Ho. rewrite !Hsame in Ht, Hn.
    assert (Hs : s < NShards) by (by eapply own_shard_lt).
    intros [[<- <-]|[Hne Hk]]%lookup_insert_Some.
    + destruct (Hok s Hs) as [Hnh|Hok']; [by specialize (Hnh e Ht Hn)|]. by eapply Hok', Hdata.
    + assert (shard_ok a s kv1) as [H1 H2] by by eapply Hdata.
      destruct (Habs s) as [[E1 E2]|(e' & Ho' & Ht' & Hn')].
      * split; [intros key Hkey; by rewrite E1, H1|]. intros c. unfold abs_lastSeq. rewrite E2. apply H2.
      * rewrite (epoch_unique ctl kvs a Hi s e e') in Ho by done. congruence.
  - intros s Hs Hno. assert (Hno' : ∀ e, ¬ taken ctl kvs s e) by (intros e; rewrite <-Hsame; apply Hno).
    destruct (Hfr s Hs Hno') as (F1 & F2 & F3).
    destruct (Habs s) as [[E1 E2]|(e' & _ & Ht' & _)]; [|by apply Hno' in Ht'].
    split_and!; [intros key Hkey; rewrite E1 by done; by apply F1|intros c; by rewrite E2|].
    intros g1 kv1 key [[<- <-]|[Hne Hk]]%lookup_insert_Some Hkey; [|by eapply F3].
    destruct (Hfresh s) as [[e Ht]|Hf]; [by apply Hno' in Ht|]. by eapply Hf, F3.
Qed.

Lemma shard_ok_same a s kv kv' :
  (∀ key, shard_of key = s → sk_lookup kv' key = sk_lookup kv key) → (∀ c, (sk_lastSeq kv c ≤ sk_lastSeq kv' c)%Z) →
  shard_ok a s kv → shard_ok a s kv'.
Proof.
  intros Hs Hl [H1 H2]. split; [intros key Hkey; by rewrite Hs, H1|]. intros c. specialize (H2 c). specialize (Hl c). lia.
Qed.

(** The numbers of the configurations only grow. *)
Lemma num_insert (kvs : gmap Z ShardKV) g kv kv' h kvh n :
  kvs !! g = Some kv → numOf kv ≤ numOf kv' → kvs !! h = Some kvh → n ≤ numOf kvh →
  ∃ kvh', <[g := kv']> kvs !! h = Some kvh' ∧ n ≤ numOf kvh'.
Proof.
  intros Hkv Hn Hkvh Hle. destruct (decide (g = h)) as [->|Hne].
  - exists kv'. split; [apply lookup_insert_eq|]. rewrite Hkv in Hkvh. injection Hkvh as <-. lia.
  - exists kvh. split; [by rewrite lookup_insert_ne|done].
Qed.

(** ** Receiving shards *)

(** The group receives shard [s] ahead of the next configuration, from a
    group that has reached it. *)
Record gains (ctl : list Config) (kvs : gmap Z ShardKV) (a : Abs) (g : Z) (kv kv' : ShardKV) (s : nat) : Prop := {
  gn_not : ¬ has kv s;
  gn_has : has kv' s;
  gn_next : own ctl (S (numOf kv)) s = Some g;
  gn_from : ∃ h kvh, own ctl (numOf kv) s = Some h ∧ h ≠ g ∧ h ≠ 0%Z ∧ kvs !! h = Some kvh ∧ S (numOf kv) ≤ numOf kvh;
  gn_ok : shard_ok a s kv';
}.

Definition keeps (kv kv' : ShardKV) (s : nat) : Prop :=
  Shards (config kv') !! s = Shards (config kv) !! s ∧ ∀ key, shard_of key = s → sk_lookup kv' key = sk_lookup kv key.

Lemma taken_gains ctl kvs a g kv kv' s e :
  kvs !! g = Some kv → kv_ok ctl g kv → numOf kv' = numOf kv → gains ctl kvs a g kv kv' s →
  taken ctl (<[g := kv']> kvs) s e ↔ taken ctl kvs s e ∨ e = S (numOf kv).
Proof.
  intros Hkv Hok Hn [Hnot Hhas Hnext (h & kvh & Hh & Hhg & _) _]. split.
  - intros (g1 & kv1 & Ho & Hz & [[<- <-]|[Hne Hk]]%lookup_insert_Some & H); [|by left; exists g1, kv1].
    destruct H as [H|(-> & _)]; [left|right; by rewrite Hn]. exists g, kv. split_and!; [done..|left]. lia.
  - intros [(g1 & kv1 & Ho & Hz & Hk & H)| ->].
    + destruct (decide (g = g1)) as [->|Hne].
      * exists g1, kv'. rewrite Hkv in Hk. injection Hk as <-. split_and!; [done|done|apply lookup_insert_eq|].
        destruct H as [?|(_ & ? & _)]; [left; lia|done].
      * exists g1, kv1. split_and!; [done|done|by rewrite lookup_insert_ne|done].
    + exists g, kv'. split_and!; [done|apply Hok|apply lookup_insert_eq|right]. rewrite Hn. split_and!; [done|done|congruence].
Qed.

Lemma core_put ctl kvs a g kv kv' :
  core_inv ctl kvs a → kvs !! g = Some kv → Num (config kv') = Num (config kv) → sk_gid kv' = sk_gid kv → skv_wf kv' →
  (∀ c, (sk_lastSeq kv c ≤ sk_lastSeq kv' c)%Z) →
  (∀ s, s < NShards → keeps kv kv' s ∨ gains ctl kvs a g kv kv' s) →
  core_inv ctl (<[g := kv']> kvs) a.
Proof.
  intros Hi Hkv Hnum Hg Hwf Hl Hcase. pose proof Hi as [Hctl Hkvs Hchain Hdata Hfr]. pose proof (Hkvs g kv Hkv) as Hok.
  assert (Hn : numOf kv' = numOf kv) by (unfold numOf; by rewrite Hnum).
  assert (Hkeep : ∀ s e, keeps kv kv' s → taken ctl (<[g := kv']> kvs) s e ↔ taken ctl kvs s e).
  { intros s e [Hk _]. apply taken_same_shard with kv; [done|done|]. unfold has. by rewrite Hk, Hg. }
  assert (Hle : numOf kv ≤ numOf kv') by lia. pose proof (λ h kvh n, num_insert kvs g kv kv' h kvh n Hkv Hle) as Hmono. clear Hle.
  pose proof (λ s e, taken_gains ctl kvs a g kv kv' s e Hkv Hok Hn) as Hgain. split; [done|..].
  - intros g1 kv1 [[<- <-]|[Hne Hk]]%lookup_insert_Some; [|by apply Hkvs]. destruct Hok as [K1 K2 K3 K4 K5 K6 K7].
    split; [congruence|done|done|rewrite Hn; lia|by rewrite Hn|intros c; specialize (Hl c); specialize (K6 c); lia|].
    intros s Hs. rewrite Hn. destruct (Hcase s Hs) as [[Hk _]|[_ H1 H2 (h & _ & H3 & ? & _)]].
    + unfold has. rewrite Hk, Hg. by apply K7.
    + right. split_and!; [done|done|congruence].
  - intros s e h Ht Ho Hh. assert (Hs : s < NShards) by (by eapply own_shard_lt).
    destruct (Hcase s Hs) as [Hk|Hga].
    + rewrite Hkeep in Ht |- * by done. destruct (Hchain s e h Ht Ho Hh) as [H1 H2]. split; [done|]. intros Hne.
      destruct (H2 Hne) as (kvh & Hkvh & Hle). by eapply Hmono.
    + rewrite Hgain in Ht |- * by done. destruct Ht as [Ht|Heq].
      * destruct (Hchain s e h Ht Ho Hh) as [H1 H2]. split; [by left|]. intros Hne.
        destruct (H2 Hne) as (kvh & Hkvh & Hle). by eapply Hmono.
      * injection Heq as ->. destruct Hga as [_ _ Hnext (h' & kvh & Hh' & Hhg & _ & Hkvh & Hle) _].
        rewrite Ho in Hh'. injection Hh' as <-. split.
        -- left. exists h, kvh. split_and!; [done..|left]. lia.
        -- intros _. by eapply Hmono.
  - intros s e h kv1 Ht Hno Ho Hk1. assert (Hs : s < NShards) by (by eapply own_shard_lt).
    destruct (Hcase s Hs) as [Hk|Hga].
    + rewrite !Hkeep in Ht, Hno by done. apply lookup_insert_Some in Hk1 as [[<- <-]|[Hne Hk1]]; [|by eapply Hdata].
      eapply shard_ok_same; [apply Hk|done|by eapply Hdata].
    + rewrite !Hgain in Ht, Hno by done. destruct Ht as [Ht| ->].
      * (* the old epoch is not the last one *)
        exfalso. destruct Hga as [Hnot _ Hnext (h' & kvh & Hh' & Hhg & Hz & Hkvh & Hle) _].
        assert (Ht' : taken ctl kvs s (numOf kv)) by (exists h', kvh; split_and!; [done..|left; lia]).
        assert (Hn' : ¬ taken ctl kvs s (S (numOf kv))).
        { intros (g2 & kv2 & Ho2 & _ & Hk2 & H2). rewrite Hnext in Ho2. injection Ho2 as <-. rewrite Hkv in Hk2. injection Hk2 as <-.
          destruct H2 as [?|(_ & ? & _)]; [lia|done]. }
        apply Hno. right. f_equal. eapply (epoch_unique ctl kvs a Hi s); [done|tauto|done|done].
      * destruct Hga as [_ _ Hnext _ Hsok]. rewrite Hnext in Ho. injection Ho as <-. rewrite lookup_insert_eq in Hk1. by injection Hk1 as <-.
  - intros s Hs Hno. destruct (Hcase s Hs) as [Hk|Hga].
    + destruct (Hfr s Hs) as (F1 & F2 & F3); [intros e; rewrite <-Hkeep by done; apply Hno|]. split_and!; [done|done|].
      intros g1 kv1 key [[<- <-]|[Hne Hk1]]%lookup_insert_Some Hkey; [|by eapply F3]. rewrite (proj2 Hk) by done. by eapply F3.
    + exfalso. apply (Hno (S (numOf kv))). rewrite Hgain by done. by right.
Qed.

(** ** A new configuration of the group *)

(** Every shard that comes from another group has been received. *)
Definition complete (ctl : list Config) (g : Z) (kv : ShardKV) : Prop :=
  ∀ s h, own ctl (numOf kv) s = Some h → h ≠ g → h ≠ 0%Z → own ctl (S (numOf kv)) s = Some g → has kv s.

(** The group takes over configuration [new]. *)
Record advances (ctl : list Config) (g : Z) (kv kv' : ShardKV) : Prop := {
  av_next : ctl !! S (numOf kv) = Some (config kv');
  av_gid : sk_gid kv' = sk_gid kv;
  av_wf : skv_wf kv';
  av_seq : ∀ c, (sk_lastSeq kv c ≤ sk_lastSeq kv' c)%Z;
  av_store : ∀ key, sk_lookup kv' key = sk_lookup kv key;
  av_complete : complete ctl g kv;
}.

Lemma advances_num ctl g kv kv' : ctl_ok ctl → advances ctl g kv kv' → numOf kv' = S (numOf kv).
Proof. intros Hctl Ha. destruct (co_num _ Hctl _ _ (av_next _ _ _ _ Ha)) as [H _]. unfold numOf in *. lia. Qed.

Lemma advances_own ctl g kv kv' s : advances ctl g kv kv' → own ctl (S (numOf kv)) s = Shards (config kv') !! s.
Proof. intros Ha. unfold own. by rewrite (av_next _ _ _ _ Ha). Qed.

Lemma taken_advances ctl kvs g kv kv' s e :
  ctl_ok ctl → kvs !! g = Some kv → kv_ok ctl g kv → advances ctl g kv kv' →
  taken ctl (<[g := kv']> kvs) s e ↔ taken ctl kvs s e ∨ e = S (numOf kv) ∧ own ctl e s = Some g.
Proof.
  intros Hctl Hkv Hok Ha. pose proof (advances_num _ _ _ _ Hctl Ha) as Hn. split.
  - intros (g1 & kv1 & Ho & Hz & [[<- <-]|[Hne Hk]]%lookup_insert_Some & H); [|by left; exists g1, kv1].
    destruct H as [H|(-> & Hh & Hno)].
    + destruct (decide (e = S (numOf kv))) as [->|]; [by right|]. left. exists g, kv. split_and!; [done..|left; lia].
    + exfalso. apply Hno. rewrite Hn, (advances_own _ _ _ _ _ Ha). unfold has in Hh. by rewrite Hh, (av_gid _ _ _ _ Ha), (ko_gid _ _ _ Hok).
  - intros [(g1 & kv1 & Ho & Hz & Hk & H)|[-> Ho]].
    + destruct (decide (g = g1)) as [->|Hne].
      * exists g1, kv'. rewrite Hkv in Hk. injection Hk as <-. split_and!; [done|done|apply lookup_insert_eq|left; lia].
      * exists g1, kv1. split_and!; [done|done|by rewrite lookup_insert_ne|done].
    + exists g, kv'. split_and!; [done|apply Hok|apply lookup_insert_eq|left; lia].
Qed.

(** A shard that the group owns from the next configuration on and does not
    have yet has never been owned. *)
Lemma fresh_shard ctl kvs a g kv kv' s :
  core_inv ctl kvs a → kvs !! g = Some kv → advances ctl g kv kv' → own ctl (S (numOf kv)) s = Some g → ¬ has kv s →
  ∀ e, ¬ taken ctl kvs s e.
Proof.
  intros Hi Hkv Ha Ho Hnot e Ht. pose proof (ci_kv _ _ _ Hi g kv Hkv) as Hok. pose proof (ci_ctl _ _ _ Hi) as Hctl.
  assert (Hs : s < NShards) by (by eapply own_shard_lt).
  assert (own ctl (numOf kv) s = Some 0%Z) as H0.
  { destruct (own_total ctl (numOf kv) s Hctl (ko_len _ _ _ Hok) Hs) as [h Hh]. rewrite Hh. f_equal.
    destruct (decide (h = 0%Z)) as [|Hz]; [done|]. exfalso. apply Hnot. destruct (decide (h = g)) as [->|Hne].
    - destruct (ko_shards _ _ _ Hok s Hs) as [E|(? & _)]; [|done]. unfold has. by rewrite E, (ko_gid _ _ _ Hok).
    - by eapply (av_complete _ _ _ _ Ha). }
  destruct (decide (e ≤ numOf kv)) as [Hle|Hgt].
  - destruct (taken_own ctl kvs s e Ht) as (g1 & Ho1 & Hz1).
    destruct (own_stays ctl kvs a Hi s e (numOf kv) g1) as (g2 & Ho2 & Hz2); [done|done|done|apply Hok|]. congruence.
  - destruct (chain_down ctl kvs a Hi s (S (numOf kv)) e g) as (g1 & kv1 & Ho1 & _ & Hk1 & H1); [done|lia|done|apply Hok|].
    rewrite Ho in Ho1. injection Ho1 as <-. rewrite Hkv in Hk1. injection Hk1 as <-. destruct H1 as [?|(_ & ? & _)]; [lia|done].
Qed.

Lemma advances_ok ctl g kv kv' : ctl_ok ctl → kv_ok ctl g kv → advances ctl g kv kv' → kv_ok ctl g kv'.
Proof.
  intros Hctl [K1 K2 K3 K4 K5 K6 K7] Ha. pose proof (advances_num _ _ _ _ Hctl Ha) as Hn. destruct (co_num _ Hctl _ _ (av_next _ _ _ _ Ha)) as [Hnum _].
  split; [by rewrite (av_gid _ _ _ _ Ha)|done|apply Ha|rewrite Hn; lia|rewrite Hn; eapply lookup_lt_Some, Ha| |].
  - intros c. pose proof (av_seq _ _ _ _ Ha c). specialize (K6 c). lia.
  - intros s Hs. left. rewrite Hn. by rewrite (advances_own _ _ _ _ _ Ha).
Qed.

Lemma core_set ctl kvs a g kv kv' :
  core_inv ctl kvs a → kvs !! g = Some kv → advances ctl g kv kv' → core_inv ctl (<[g := kv']> kvs) a.
Proof.
  intros Hi Hkv Ha. pose proof Hi as [Hctl Hkvs Hchain Hdata Hfr]. pose proof (Hkvs g kv Hkv) as Hok.
  pose proof (advances_num _ _ _ _ Hctl Ha) as Hn. assert (Hle : numOf kv ≤ numOf kv') by lia.
  pose proof (λ h kvh n, num_insert kvs g kv kv' h kvh n Hkv Hle) as Hmono.
  pose proof (λ s e, taken_advances ctl kvs g kv kv' s e Hctl Hkv Hok Ha) as Htk.
  assert (Hsame : ∀ s, shard_ok a s kv → shard_ok a s kv') by (intros s; apply shard_ok_same; [intros key _|]; apply Ha).
  split; [done|..].
  - intros g1 kv1 [[<- <-]|[Hne Hk]]%lookup_insert_Some; [by eapply advances_ok|by apply Hkvs].
  - intros s e h Ht Ho Hh. rewrite Htk in Ht |- *.
    assert (taken ctl kvs s (S e) ∨ S e = S (numOf kv) ∧ own ctl (S e) s = Some g ∧ h = g) as [Ht'|([= ->] & Ho' & ->)].
    { destruct Ht as [Ht|[[= ->] Ho']]; [by left|]. destruct (decide (h = g)) as [->|Hne]; [by right|left].
      exists g, kv. split_and!; [done|apply Hok|done|right]. split_and!; [done| |congruence]. by eapply (av_complete _ _ _ _ Ha). }
    + destruct (Hchain s e h Ht' Ho Hh) as [H1 H2]. split; [by left|]. intros Hne. destruct (H2 Hne) as (kvh & ? & ?). by eapply Hmono.
    + split; [|done]. left. exists g, kv. split_and!; [done..|by left].
  - intros s e h kv1 Ht Hno Ho Hk1. rewrite !Htk in Ht, Hno. destruct (decide (h = g)) as [->|Hne].
    + rewrite lookup_insert_eq in Hk1. injection Hk1 as <-. destruct (decide (has kv s)) as [Hh|Hnot].
      { apply Hsame. by eapply has_ok. }
      destruct Ht as [Ht|[-> _]]; [apply Hsame; eapply Hdata; [done|tauto|done|done]|].
      destruct (Hfr s) as (F1 & F2 & F3); [by eapply own_shard_lt|by eapply fresh_shard|]. split.
      * intros key Hkey. rewrite (av_store _ _ _ _ Ha), F1 by done. by eapply F3.
      * intros c. unfold abs_lastSeq. rewrite F2. simpl. pose proof (ko_seq _ _ _ Hok c). pose proof (av_seq _ _ _ _ Ha c). lia.
    + rewrite lookup_insert_ne in Hk1 by done. destruct Ht as [Ht|[_ ?]]; [|congruence]. eapply Hdata; [done|tauto|done|done].
  - intros s Hs Hno. destruct (Hfr s Hs) as (F1 & F2 & F3); [intros e Ht; apply (Hno e), Htk; by left|]. split_and!; [done|done|].
    intros g1 kv1 key [[<- <-]|[Hne Hk1]]%lookup_insert_Some Hkey; [|by eapply F3]. rewrite (av_store _ _ _ _ Ha). by eapply F3.
Qed.

(** ** A new configuration of the controller *)

Section NewConfig.
Context (ctl : list Config) (kvs : gmap Z ShardKV) (a : Abs) (c : Config).
Context (Hinv : core_inv ctl kvs a) (Hnum : Num c = zlen ctl) (Hlen : length (Shards c) = NShards).
Context (Hstay : ∀ last s g, list.last ctl = Some last → Shards last !! s = Some g → g ≠ 0%Z → Shards c !! s ≠ Some 0%Z).
Context (Hne : ctl ≠ []).

Lemma own_old e s : e < length ctl → own (ctl ++ [c]) e s = own ctl e s.
Proof. intros He. unfold own. by rewrite lookup_app_l. Qed.

Lemma own_old_Some e s g : own ctl e s = Some g → own (ctl ++ [c]) e s = Some g.
Proof. intros Ho. rewrite own_old; [done|]. by eapply own_lt. Qed.

Lemma own_new s : own (ctl ++ [c]) (length ctl) s = Shards c !! s.
Proof. unfold own. by rewrite list_lookup_middle. Qed.

Lemma ctl_ok_app : ctl_ok (ctl ++ [c]).
Proof.
  destruct (ci_ctl _ _ _ Hinv) as [H1 H2 H3]. split.
  - intros e c' [He|[Hge He]]%lookup_app_Some; [by apply H1|].
    apply list_lookup_singleton_Some in He as [He <-]. split; [|done]. unfold zlen in Hnum. lia.
  - intros s g. rewrite own_old by (destruct ctl; [done|simpl; lia]). apply H2.
  - intros e s g Ho Hz. assert (e < length ctl ∨ e = length ctl) as [He| ->].
    { apply own_lt in Ho. rewrite length_app in Ho. simpl in Ho. lia. }
    + rewrite own_old in Ho by done. destruct (decide (S e < length ctl)).
      * rewrite own_old by done. by eapply H3.
      * assert (S e = length ctl) as E by lia. rewrite E, own_new. unfold own in Ho.
        destruct (ctl !! e) as [lst|] eqn:El; [|done]. eapply (Hstay lst); [|done|done].
        rewrite last_lookup, <-E. done.
    + unfold own. rewrite lookup_ge_None_2; [done|]. rewrite length_app. simpl. lia.
Qed.

Lemma taken_new s e : taken (ctl ++ [c]) kvs s e ↔ taken ctl kvs s e.
Proof.
  split; intros (g & kv & Ho & Hz & Hk & H); pose proof (ci_kv _ _ _ Hinv g kv Hk) as Hok; pose proof (ko_len _ _ _ Hok) as Hl;
    exists g, kv; rewrite (own_old (numOf kv)) in * by done.
  - assert (e < length ctl); [|by rewrite own_old in Ho]. destruct H as [?|(-> & Hh & Hno)]; [lia|].
    assert (Hs : s < NShards). { destruct (ko_wf _ _ _ Hok) as [<- _ _]. by eapply lookup_lt_Some. }
    destruct (ko_shards _ _ _ Hok s Hs) as [E|(_ & ? & _)]; [|by eapply own_lt].
    unfold has in Hh. rewrite E, (ko_gid _ _ _ Hok) in Hh. done.
  - split_and!; [by apply own_old_Some|done..].
Qed.

Lemma core_config : core_inv (ctl ++ [c]) kvs a.
Proof.
  pose proof Hinv as [Hctl Hkvs Hchain Hdata Hfr]. split; [by apply ctl_ok_app|..].
  - intros g kv Hk. destruct (Hkvs g kv Hk) as [K1 K2 K3 K4 K5 K6 K7]. split; [done|done|done|done|rewrite length_app; simpl; lia|done|].
    intros s Hs. rewrite (own_old (numOf kv)) by done. destruct (K7 s Hs) as [?|(? & ? & ?)]; [by left|right].
    split_and!; [done|by apply own_old_Some|done].
  - intros s e h Ht Ho Hh. rewrite !taken_new in Ht |- *. destruct (taken_own _ _ _ _ Ht) as (g1 & Ho1 & _). pose proof (own_lt _ _ _ _ Ho1).
    rewrite own_old in Ho by lia. rewrite own_old by lia. by apply Hchain.
  - intros s e h kv Ht Hn Ho Hk. rewrite !taken_new in Ht, Hn. destruct (taken_own _ _ _ _ Ht) as (g1 & Ho1 & _). pose proof (own_lt _ _ _ _ Ho1).
    rewrite own_old in Ho by lia. eapply Hdata; [exact Ht|exact Hn|exact Ho|exact Hk].
  - intros s Hs Hn. apply Hfr; [done|]. intros e. rewrite <-taken_new. apply Hn.
Qed.
End NewConfig.
