(* ===== verification/ShardOps.v ===== *)
(** * What a request does to a replica (src/shardkv/server.go)

    For every request that a migration or a client puts into the log of a
    group: what applying it changes, exactly enough of it for the invariant of
    the whole system; and that what is done already changes nothing. *)

From stdpp Require Import base list gmap sets strings relations.
From Stdlib Require Import ZArith Lia.
From S2P Require Import Prelude RaftCore ShardConfig KVRaft ShardCtrler ShardKV ShardSystem.

(** ** What requests do to a replica *)

Lemma foldM_pres {A B} (f : B → A → Res B) (P : B → B → Prop) l :
  (∀ b, P b b) → (∀ b1 b2 b3, P b1 b2 → P b2 b3 → P b1 b3) → (∀ b x b', f b x = Ok b' → P b b') →
  ∀ b b', foldM f b l = Ok b' → P b b'.
Proof.
  intros Hr Ht Hf. induction l as [|x l IH]; intros b b' H; simpl in H; [by simplify_eq|].
  destruct (f b x) as [b1|] eqn:E; [|done]. simpl in H. eapply Ht; [by eapply Hf|by apply IH].
Qed.

(** What applying a request never changes. *)
Definition self_same (kv kv' : ShardKV) : Prop :=
  sk_clientId kv' = sk_clientId kv ∧ sk_seqNum kv' = sk_seqNum kv ∧ nextConfig kv' = nextConfig kv ∧ sk_gid kv' = sk_gid kv.

Lemma self_same_refl kv : self_same kv kv.
Proof. done. Qed.
Lemma self_same_trans kv1 kv2 kv3 : self_same kv1 kv2 → self_same kv2 kv3 → self_same kv1 kv3.
Proof. unfold self_same. intuition congruence. Qed.

Local Hint Extern 0 (self_same _ _) => (unfold self_same; split_and!; reflexivity) : core.

Lemma putShards_self kv shards kv' : putShards kv shards = Ok kv' → self_same kv kv'.
Proof.
  apply (foldM_pres putShard self_same); [apply self_same_refl|apply self_same_trans|].
  intros kv1 [s d] kv2 H. unfold putShard in H. res_inv. case_bool_decide; res_inv; done.
Qed.

Lemma deleteShards_self kv num shards kv' : deleteShards kv num shards = Ok kv' → self_same kv kv'.
Proof.
  apply (foldM_pres deleteShard self_same); [apply self_same_refl|apply self_same_trans|].
  intros kv1 s kv2 H. unfold deleteShard in H. res_inv. destruct (_ && _); res_inv; done.
Qed.

Lemma unlessDone_self kv c n body kv' :
  (∀ kv1 kv2, body kv1 = Ok kv2 → self_same kv1 kv2) → unlessDone kv c n body = Ok kv' → self_same kv kv'.
Proof.
  intros Hb. unfold unlessDone. destruct (ClientStatusMap.get _ _) as [m lst]. destruct (negb _).
  - intros H%Hb. done.
  - intros [= <-]. done.
Qed.

Lemma write_self (isPut : bool) kv key value kv' err :
  (if isPut then sk_put kv key value else sk_append kv key value) = Ok (kv', err) → self_same kv kv'.
Proof.
  destruct isPut; unfold sk_put, sk_append; (destruct (wrongGroup _ _) as [w|]; [|done]); simpl; (destruct w; [by intros [= <- _]|]);
    (destruct (idx _ _); [|done]); simpl; (destruct (upd _ _ _); [|done]); by intros [= <- _].
Qed.

Lemma sk_applyOp_self kv op kv' : sk_applyOp kv op = Ok kv' → self_same kv kv'.
Proof.
  unfold sk_applyOp. repeat case_bool_decide; [..|done]; destruct (sk_Args op); try done; apply unlessDone_self; intros kv1 kv2 Hb.
  - destruct (sk_put _ _ _) as [[kv3 err]|] eqn:E; [|done]. simpl in Hb. apply (write_self true) in E. destruct (bool_decide _); by simplify_eq.
  - destruct (sk_append _ _ _) as [[kv3 err]|] eqn:E; [|done]. simpl in Hb. apply (write_self false) in E. destruct (bool_decide _); by simplify_eq.
  - destruct (sk_get _ _) as [[v err]|] eqn:E; [|done]. simpl in Hb. destruct (bool_decide _); by simplify_eq.
  - by simplify_eq.
  - destruct (putShards _ _) as [kv3|] eqn:E; [|done]. simpl in Hb. apply putShards_self in E. by simplify_eq.
  - destruct (deleteShards _ _ _) as [kv3|] eqn:E; [|done]. simpl in Hb. apply deleteShards_self in E. by simplify_eq.
  - simplify_eq. unfold setConfig. by case_bool_decide.
Qed.

(** The sequence numbers after a request of client [c]. *)
Definition seq_effect (kv kv' : ShardKV) (c n : Z) : Prop :=
  (∀ c', c' ≠ c → sk_lastSeq kv' c' = sk_lastSeq kv c') ∧
  (sk_lastSeq kv c ≤ sk_lastSeq kv' c ≤ Z.max (sk_lastSeq kv c) n)%Z.

(** A request that changes neither configuration nor store. *)
Definition mild (kv kv' : ShardKV) (c n : Z) : Prop :=
  skv_wf kv' ∧ config kv' = config kv ∧ sk_store kv' = sk_store kv ∧ seq_effect kv kv' c n.

Lemma seq_effect_same kv kv' c n : (∀ c', sk_lastSeq kv' c' = sk_lastSeq kv c') → seq_effect kv kv' c n.
Proof. intros H. split; [intros c' _; apply H|]. rewrite H. lia. Qed.

Lemma seq_effect_mark kv kv1 c n :
  (∀ c', sk_lastSeq kv1 c' = sk_lastSeq kv c') → is_Some (clientStatusMap kv1 !! c) → seq_effect kv (markDone kv1 c n) c n.
Proof.
  intros H Hk. split; [intros c' Hne|]; rewrite sk_lastSeq_markDone by done.
  - by rewrite decide_False.
  - rewrite decide_True by done. rewrite H. lia.
Qed.

Lemma seq_effect_mono kv kv' c n : seq_effect kv kv' c n → ∀ c', (sk_lastSeq kv c' ≤ sk_lastSeq kv' c')%Z.
Proof. intros [H1 H2] c'. destruct (decide (c' = c)) as [->|Hne]; [lia|]. rewrite H1 by done. lia. Qed.

(** Reasoning about a request that was applied. *)
Lemma unlessDone_run kv c n body kv' (Q : ShardKV → Prop) :
  skv_wf kv → unlessDone kv c n body = Ok kv' →
  (∀ kv1, skv_wf kv1 → sk_gid kv1 = sk_gid kv → sk_store kv1 = sk_store kv → config kv1 = config kv →
     nextConfig kv1 = nextConfig kv → (∀ c', sk_lastSeq kv1 c' = sk_lastSeq kv c') → is_Some (clientStatusMap kv1 !! c) →
     if bool_decide (sk_lastSeq kv c < n)%Z then ∃ kv', body kv1 = Ok kv' ∧ Q kv' else Q kv1) →
  Q kv'.
Proof. intros Hwf H HQ. destruct (unlessDone_ok kv c n body Q Hwf HQ) as (kv1 & H1 & ?). rewrite H in H1. by injection H1 as <-. Qed.

(** What is done already has no effect at all. *)
Lemma done_op kv c n body kv' :
  skv_wf kv → (n ≤ sk_lastSeq kv c)%Z → unlessDone kv c n body = Ok kv' →
  mild kv kv' c n ∧ ∀ c', sk_lastSeq kv' c' = sk_lastSeq kv c'.
Proof.
  intros Hwf Hn H. pattern kv'. eapply unlessDone_run; [done|exact H|]. intros kv1 Hwf1 Hg1 Hs1 Hc1 _ Hl1 _.
  rewrite bool_decide_false by lia. split; [|done]. split_and!; [done..|]. by apply seq_effect_same.
Qed.

Lemma getShards_op kv args kv' :
  skv_wf kv → sk_applyOp kv (mkSkOp GET_SHARDS (KGetShards args)) = Ok kv' →
  mild kv kv' (gsa_ClientId args) (gsa_SeqNum args).
Proof.
  intros Hwf H. unfold sk_applyOp in H. simpl in H. pattern kv'. eapply unlessDone_run; [done|exact H|].
  intros kv1 [] Hg1 Hs1 Hc1 _ Hl1 Hk1. case_bool_decide.
  - eexists. split; [done|]. split_and!; [by split|done|done|]. by apply seq_effect_mark.
  - split_and!; [by split|done|done|]. by apply seq_effect_same.
Qed.

Lemma get_op kv args kv' :
  skv_wf kv → sk_applyOp kv (mkSkOp GET (KGet args)) = Ok kv' → mild kv kv' (ga_ClientId args) (ga_SeqNum args).
Proof.
  intros Hwf H. unfold sk_applyOp in H. simpl in H. pattern kv'. eapply unlessDone_run; [done|exact H|].
  intros kv1 Hwf1 Hg1 Hs1 Hc1 _ Hl1 Hk1. case_bool_decide.
  - destruct (sk_get_run kv1 (ga_Key args) Hwf1) as (v & err & ->). res_simpl. eexists. split; [done|]. destruct Hwf1. case_bool_decide.
    + split_and!; [by split|done|done|]. by apply seq_effect_mark.
    + split_and!; [by split|done|done|]. by apply seq_effect_same.
  - split_and!; [done..|]. by apply seq_effect_same.
Qed.

(** Receiving shards that are not done yet. *)
Lemma putShards_op kv args kv' :
  skv_wf kv → (∀ s, is_Some (psa_Shards args !! s) → in_range s) →
  (sk_lastSeq kv (psa_ClientId args) < psa_SeqNum args)%Z →
  sk_applyOp kv (mkSkOp PUT_SHARDS (KPutShards args)) = Ok kv' →
  skv_wf kv' ∧ Num (config kv') = Num (config kv) ∧
  (∀ s data, psa_Shards args !! s = Some data → ¬ serves kv s → serves kv' s ∧ sk_store kv' !! Z.to_nat s = Some data) ∧
  (∀ s, in_range s → psa_Shards args !! s = None ∨ serves kv s →
     sk_store kv' !! Z.to_nat s = sk_store kv !! Z.to_nat s ∧ Shards (config kv') !! Z.to_nat s = Shards (config kv) !! Z.to_nat s) ∧
  ∀ c, sk_lastSeq kv' c = Z.max (Z.max (sk_lastSeq kv c) (default (sk_lastSeq kv c) (psa_ClientSeqNumMap args !! c)))
                                (if decide (c = psa_ClientId args) then psa_SeqNum args else sk_lastSeq kv c).
Proof.
  intros Hwf Hs Hlt H. unfold sk_applyOp in H. simpl in H.
  pattern kv'. eapply unlessDone_run; [done|exact H|].
  intros kv1 Hwf1 Hg1 Hs1 Hc1 _ Hl1 Hk1. rewrite bool_decide_true by done.
  destruct (putShards_run kv1 (psa_Shards args) Hwf1 Hs) as (kv2 & -> & Hwf2 & Hf & Hin & Hout). res_simpl.
  assert (Hsv : ∀ s, serves kv1 s ↔ serves kv s) by (intros s; unfold serves; by rewrite Hg1, Hc1).
  eexists. split; [done|]. split_and!; simpl; [by destruct Hwf2; split|by rewrite (fr_num _ _ Hf), Hc1|..].
  - intros s data Hd Hns. destruct (Hin s data Hd) as [? Hst]. split; [done|]. rewrite Hst, decide_False; [done|]. by rewrite Hsv.
  - intros s Hr Hor. rewrite <-Hs1, <-Hc1. apply Hout; [done|]. by rewrite Hsv.
  - intros c. rewrite sk_lastSeq_markDone; [|simpl; apply csm_merge_spec; by rewrite (fr_clients _ _ Hf)].
    assert (Hm : sk_lastSeq (set_clients kv2 (ClientStatusMap.putClientSeqNumMap (clientStatusMap kv2) (psa_ClientSeqNumMap args))) c =
      Z.max (sk_lastSeq kv c) (default (sk_lastSeq kv c) (psa_ClientSeqNumMap args !! c))).
    { rewrite <-Hl1. unfold sk_lastSeq at 1. simpl. destruct (csm_merge_spec (clientStatusMap kv2) (psa_ClientSeqNumMap args) c) as [-> _].
      rewrite (fr_clients _ _ Hf). unfold sk_lastSeq. destruct (psa_ClientSeqNumMap args !! c); simpl; lia. }
    rewrite Hm. destruct (decide (c = psa_ClientId args)); lia.
Qed.

(** Deleting shards touches only shards that the group does not have. *)
Lemma deleteShards_store kv num shards kv' :
  skv_wf kv → (∀ s, s ∈ shards → in_range s) → deleteShards kv num shards = Ok kv' →
  ∀ i, sk_store kv' !! i = sk_store kv !! i ∨ (Z.of_nat i ∈ shards ∧ ¬ has kv i ∧ sk_store kv' !! i = Some ∅).
Proof.
  intros Hwf Hr H.
  destruct (foldM_inv deleteShard (λ kv', skv_wf kv' ∧ sk_gid kv' = sk_gid kv ∧ config kv' = config kv ∧
    ∀ i, sk_store kv' !! i = sk_store kv !! i ∨ (Z.of_nat i ∈ shards ∧ ¬ has kv i ∧ sk_store kv' !! i = Some ∅)) shards kv) as (kv1 & H1 & H2).
  - split_and!; [done..|]. by left.
  - intros kv1 s Hs (Hwf1 & Hg1 & Hc1 & Hi). destruct (deleteShard_run kv1 s Hwf1 (Hr s Hs)) as (kv2 & E & Hwf2 & Hf & Hc2 & nx & _ & Hst).
    exists kv2. split_and!; [done|done|by rewrite (fr_gid _ _ Hf)|congruence|]. intros i. rewrite Hst.
    destruct (decide (serves kv1 s ∨ nx = sk_gid kv1)) as [_|Hno]; [apply Hi|]. pose proof (Hr s Hs) as Hrs. unfold in_range in Hrs.
    destruct (decide (i = Z.to_nat s)) as [->|Hne]; [|rewrite list_lookup_insert_ne by done; apply Hi].
    right. split_and!; [by rewrite Z2Nat.id by lia| |apply list_lookup_insert_eq; rewrite (swf_store _ Hwf1); lia].
    intros Hh. apply Hno. left. unfold serves, has in *. by rewrite Hc1, Hg1.
  - unfold deleteShards in H. rewrite H in H1. injection H1 as <-. apply H2.
Qed.

Lemma deleteShards_op kv args kv' :
  skv_wf kv → (∀ s, s ∈ dsa_Shards args → in_range s) →
  sk_applyOp kv (mkSkOp DELETE_SHARDS (KDeleteShards args)) = Ok kv' →
  skv_wf kv' ∧ config kv' = config kv ∧ seq_effect kv kv' (dsa_ClientId args) (dsa_SeqNum args) ∧
  ∀ i, sk_store kv' !! i = sk_store kv !! i ∨ (Z.of_nat i ∈ dsa_Shards args ∧ ¬ has kv i ∧ sk_store kv' !! i = Some ∅).
Proof.
  intros Hwf Hr H. unfold sk_applyOp in H. simpl in H.
  pattern kv'. eapply unlessDone_run; [done|exact H|].
  intros kv1 Hwf1 Hg1 Hs1 Hc1 _ Hl1 Hk1. case_bool_decide.
  - destruct (deleteShards_run kv1 (dsa_ConfigNum args) (dsa_Shards args) Hwf1 Hr) as (kv2 & E & Hwf2 & Hf & Hc2).
    rewrite E. res_simpl. eexists. split; [done|]. split_and!; [by destruct Hwf2; split|simpl; congruence|..].
    + apply seq_effect_mark; [|by rewrite (fr_clients _ _ Hf)]. intros c'. rewrite <-Hl1. unfold sk_lastSeq. by rewrite (fr_clients _ _ Hf).
    + intros i. simpl. rewrite <-Hs1. destruct (deleteShards_store _ _ _ _ Hwf1 Hr E i) as [?|(? & Hn & ?)]; [by left|right].
      split_and!; [done| |done]. unfold has in *. by rewrite <-Hc1, <-Hg1.
  - split_and!; [done..|by apply seq_effect_same|]. intros i. left. by rewrite Hs1.
Qed.

Lemma setConfig_op kv args kv' :
  skv_wf kv → length (Shards (sca_Config args)) = NShards →
  sk_applyOp kv (mkSkOp SET_CONFIG (KSetConfig args)) = Ok kv' →
  (sk_lastSeq kv (sca_ClientId args) < sca_SeqNum args)%Z → (Num (config kv) < Num (sca_Config args))%Z →
  skv_wf kv' ∧ config kv' = sca_Config args ∧ sk_store kv' = sk_store kv ∧
  seq_effect kv kv' (sca_ClientId args) (sca_SeqNum args) ∧ (sca_SeqNum args ≤ sk_lastSeq kv' (sca_ClientId args))%Z.
Proof.
  intros Hwf Hl H Hlt Hnum. unfold sk_applyOp in H. simpl in H.
  pattern kv'. eapply unlessDone_run; [done|exact H|].
  intros kv1 [] Hg1 Hs1 Hc1 _ Hl1 Hk1. rewrite bool_decide_true by done. eexists. split; [done|].
  rewrite Clone_id. unfold setConfig. rewrite bool_decide_true by (rewrite Hc1; lia).
  split_and!; [by split|done|done|by apply seq_effect_mark|]. rewrite sk_lastSeq_markDone by done. rewrite decide_True by done. lia.
Qed.

Lemma write_op_wf (isPut : bool) kv args kv' :
  skv_wf kv → sk_applyOp kv (mkSkOp (if isPut then PUT else APPEND) (KPutAppend args)) = Ok kv' → skv_wf kv'.
Proof.
  intros Hwf H. destruct (write_grows isPut kv args Hwf) as (kv1 & E & []).
  destruct isPut; unfold sk_applyOp in H; simpl in H; rewrite H in E; by injection E as <-.
Qed.
