(* ===== verification/ShardRefine.v ===== *)
(** * The sharded service is one map (src/shardkv/server.go)

    The invariant of a whole system of groups ([sys_inv]): next to [core_inv],
    what the goroutines of every migration know, and which requests that were
    sent can still have an effect.  With it every run of the system is a run
    of the abstract service ([trace_inv]); [ShardReplicas] has the theorems,
    for groups of servers. *)

From stdpp Require Import base list gmap sets strings relations.
From Stdlib Require Import ZArith Lia.
From S2P Require Import Prelude RaftCore ShardConfig KVRaft ShardCtrler ShardKV ShardSystem ShardTransfer ShardOps.

(** ** The invariant *)

(** What a fetch brings: the contents of the shards, and a client table that
    covers all that was executed on them. *)
Record carries (st : Sys) (a : Abs) (h : Z) (kv : ShardKV) (shards : list Z) (data : gmap Z Data) (table : gmap Z Z) : Prop := {
  ca_from : ∃ kvh, sy_kv st !! h = Some kvh ∧ S (numOf kv) ≤ numOf kvh;
  ca_dom : ∀ s, is_Some (data !! s) → s ∈ shards;
  ca_data : ∀ s, s ∈ shards → ∃ d, data !! s = Some d ∧
    (¬ has kv (Z.to_nat s) → agrees a (Z.to_nat s) d ∧ ∀ c, (abs_lastSeq a (Z.to_nat s) c ≤ default 0 (table !! c))%Z);
  ca_table : ∀ g' kv', sy_kv st !! g' = Some kv' → (default 0 (table !! sk_clientId kv') ≤ sk_seqNum kv')%Z;
}.

Definition received (kv : ShardKV) (shards : list Z) : Prop := ∀ s, s ∈ shards → has kv (Z.to_nat s).

Record fetch_ok (st : Sys) (a : Abs) (g : Z) (kv : ShardKV) (new : Config) (h : Z) (shards : list Z) (f : Fetch) : Prop := {
  fo_from : h ≠ g ∧ h ≠ 0%Z;
  fo_shards : ∀ s, s ∈ shards → in_range s ∧ own (sy_ctl st) (numOf kv) (Z.to_nat s) = Some h ∧
    own (sy_ctl st) (S (numOf kv)) (Z.to_nat s) = Some g;
  fo_stage : match f with
    | FetchNew => True
    | FetchSent args => gsa_Shards args = shards ∧ gsa_ConfigNum args = Num new
    | FetchGot reply => carries st a h kv shards (gsr_Shards reply) (gsr_ClientSeqNumMap reply)
    | FetchPut args => psa_ClientId args = sk_clientId kv ∧
        ((sk_lastSeq kv (sk_clientId kv) < psa_SeqNum args)%Z ∧ (psa_SeqNum args ≤ sk_seqNum kv)%Z ∧
         carries st a h kv shards (psa_Shards args) (psa_ClientSeqNumMap args) ∨
         (psa_SeqNum args ≤ sk_lastSeq kv (sk_clientId kv))%Z ∧ received kv shards)
    | FetchKept | FetchDone => received kv shards
    | FetchDel args => received kv shards ∧ dsa_Shards args = shards ∧ dsa_ClientId args = sk_clientId kv
    end;
}.

Definition task_ok (st : Sys) (a : Abs) (g : Z) (kv : ShardKV) (t : Task) : Prop :=
  match t with
  | TIdle => True
  | TMigrate old new fs =>
      sy_ctl st !! S (numOf kv) = Some new ∧
      (∀ h x, fs !! h = Some x → fetch_ok st a g kv new h (fst x) (snd x)) ∧
      (∀ s h, own (sy_ctl st) (numOf kv) s = Some h → h ≠ g → h ≠ 0%Z → own (sy_ctl st) (S (numOf kv)) s = Some g →
         has kv s ∨ ∃ x, fs !! h = Some x ∧ Z.of_nat s ∈ fst x) ∧
      (∀ h1 h2 x1 x2, fs !! h1 = Some x1 → fs !! h2 = Some x2 → is_put (snd x1) → is_put (snd x2) → h1 = h2)
  | TSetConfig args =>
      sca_ClientId args = sk_clientId kv ∧
      ((sk_lastSeq kv (sk_clientId kv) < sca_SeqNum args)%Z ∧ (sca_SeqNum args ≤ sk_seqNum kv)%Z ∧
       sy_ctl st !! S (numOf kv) = Some (sca_Config args) ∧ complete (sy_ctl st) g kv ∨
       (sca_SeqNum args ≤ sk_lastSeq kv (sk_clientId kv))%Z)
  end.

(** A request that its task still waits for. *)
Definition put_alive (t : Task) (args : PutShardsArgs) : Prop :=
  ∃ old new fs h shards, t = TMigrate old new fs ∧ fs !! h = Some (shards, FetchPut args).
Definition delete_alive (t : Task) (h : Z) (args : DeleteShardsArgs) : Prop :=
  ∃ old new fs shards, t = TMigrate old new fs ∧ fs !! h = Some (shards, FetchDel args).
Definition set_alive (t : Task) (args : SetConfigArgs) : Prop := t = TSetConfig args.

(** Requests that were sent: those of a migrating server [g]; they are done
    unless its task waits for them. *)
Inductive sent_ok (st : Sys) : Z → SkOp → Prop :=
| so_get g kv h args :
    sy_kv st !! g = Some kv → h ≠ g → gsa_ClientId args = sk_clientId kv → (gsa_SeqNum args ≤ sk_seqNum kv)%Z →
    sent_ok st h (mkSkOp GET_SHARDS (KGetShards args))
| so_put g kv args :
    sy_kv st !! g = Some kv → psa_ClientId args = sk_clientId kv →
    ((psa_SeqNum args ≤ sk_lastSeq kv (sk_clientId kv))%Z ∨ ∃ t, sy_task st !! g = Some t ∧ put_alive t args) →
    sent_ok st g (mkSkOp PUT_SHARDS (KPutShards args))
| so_delete g kv h args :
    sy_kv st !! g = Some kv → h ≠ g → dsa_ClientId args = sk_clientId kv → (dsa_SeqNum args ≤ sk_seqNum kv)%Z →
    (∀ kvh, sy_kv st !! h = Some kvh → (dsa_SeqNum args ≤ sk_lastSeq kvh (sk_clientId kv))%Z ∨
       ∃ t, sy_task st !! g = Some t ∧ delete_alive t h args) →
    sent_ok st h (mkSkOp DELETE_SHARDS (KDeleteShards args))
| so_set g kv args :
    sy_kv st !! g = Some kv → sca_ClientId args = sk_clientId kv →
    ((sca_SeqNum args ≤ sk_lastSeq kv (sk_clientId kv))%Z ∨ ∃ t, sy_task st !! g = Some t ∧ set_alive t args) →
    sent_ok st g (mkSkOp SET_CONFIG (KSetConfig args)).

Definition next_ok (ctl : list Config) (kv : ShardKV) : Prop :=
  ctl !! Z.to_nat (Num (nextConfig kv)) = Some (nextConfig kv) ∧ (Num (nextConfig kv) ≤ Num (config kv) + 1)%Z.

Record sys_inv (st : Sys) (a : Abs) : Prop := {
  si_core : core_inv (sy_ctl st) (sy_kv st) a;
  si_task : ∀ g kv, sy_kv st !! g = Some kv → ∃ t, sy_task st !! g = Some t ∧ task_ok st a g kv t;
  si_sent : ∀ h op, (h, op) ∈ sy_sent st → sent_ok st h op;
  si_ids : ∀ g g' kv kv', sy_kv st !! g = Some kv → sy_kv st !! g' = Some kv' → sk_clientId kv = sk_clientId kv' → g = g';
  si_seq : ∀ g h kv kvh, sy_kv st !! g = Some kv → sy_kv st !! h = Some kvh → (sk_lastSeq kvh (sk_clientId kv) ≤ sk_seqNum kv)%Z;
  si_next : ∀ g kv, sy_kv st !! g = Some kv → next_ok (sy_ctl st) kv;
  si_ctl : sy_ctl st ≠ [];
}.

(** ** A shard on its way *)

Section Transit.
Context (ctl : list Config) (kvs : gmap Z ShardKV) (a : Abs) (Hinv : core_inv ctl kvs a).
Context (g h : Z) (kv kvh : ShardKV) (s : nat).
Context (Hkv : kvs !! g = Some kv) (Hkvh : kvs !! h = Some kvh) (Hh : h ≠ 0%Z).
Context (Ho : own ctl (numOf kv) s = Some h) (Ho' : own ctl (S (numOf kv)) s = Some g) (Hle : S (numOf kv) ≤ numOf kvh).

Lemma transit_taken : taken ctl kvs s (numOf kv).
Proof. exists h, kvh. split_and!; [done..|left; lia]. Qed.

Lemma transit_last : ¬ has kv s → ¬ taken ctl kvs s (S (numOf kv)).
Proof.
  intros Hn (g1 & kv1 & Ho1 & _ & Hk1 & H1). rewrite Ho' in Ho1. injection Ho1 as <-. rewrite Hkv in Hk1. injection Hk1 as <-.
  destruct H1 as [?|(_ & ? & _)]; [lia|done].
Qed.

(** The source has its data, and nobody serves it. *)
Lemma transit_ok : ¬ has kv s → shard_ok a s kvh.
Proof. intros Hn. eapply (ci_data _ _ _ Hinv); [exact transit_taken|by apply transit_last|done|done]. Qed.

Lemma transit_free g1 kv1 : ¬ has kv s → kvs !! g1 = Some kv1 → ¬ has kv1 s.
Proof.
  intros Hn Hk1 Hh1. destruct (has_epoch ctl kvs a Hinv g1 kv1 s Hk1 Hh1) as (e & Ho1 & Ht & Hl & He).
  assert (e = numOf kv) as -> by (eapply (epoch_unique ctl kvs a Hinv s); [done|done|apply transit_taken|by apply transit_last]).
  rewrite Ho in Ho1. injection Ho1 as <-. rewrite Hkvh in Hk1. injection Hk1 as <-. lia.
Qed.
End Transit.

(** ** One group moves *)

(** What never goes back. *)
Record le_kv (kv kv' : ShardKV) : Prop := {
  lk_id : sk_clientId kv' = sk_clientId kv;
  lk_num : numOf kv ≤ numOf kv';
  lk_seq : (sk_seqNum kv ≤ sk_seqNum kv')%Z;
  lk_last : ∀ c, (sk_lastSeq kv c ≤ sk_lastSeq kv' c)%Z;
}.

Definition abs_same (a a' : Abs) (s : nat) : Prop :=
  (∀ key, shard_of key = s → ab_data a' !! key = ab_data a !! key) ∧ ∀ c, ab_last a' !! (s, c) = ab_last a !! (s, c).

(** Only shards of the group change. *)
Definition abs_keep (a a' : Abs) (kv : ShardKV) : Prop := ∀ s, has kv s ∨ abs_same a a' s.

Lemma abs_keep_refl a kv : abs_keep a a kv.
Proof. intros s. by right. Qed.

(** The task of a group finds of its own replica what it knew. *)
Record same_view (kv kv' : ShardKV) : Prop := {
  sv_num : numOf kv' = numOf kv;
  sv_has : ∀ s, has kv s → has kv' s;
  sv_id : sk_clientId kv' = sk_clientId kv;
  sv_seq : (sk_seqNum kv ≤ sk_seqNum kv')%Z;
}.

Lemma same_view_refl kv : same_view kv kv.
Proof. by split. Qed.

Lemma same_view_config kv kv' :
  config kv' = config kv → sk_gid kv' = sk_gid kv → sk_clientId kv' = sk_clientId kv → (sk_seqNum kv ≤ sk_seqNum kv')%Z → same_view kv kv'.
Proof. intros Hc Hg Hi Hs. split; [unfold numOf; by rewrite Hc|intros s; unfold has; by rewrite Hc, Hg|done|done]. Qed.

Section Move.
Context (st : Sys) (a a' : Abs) (g : Z) (kv kv' : ShardKV) (t t' : Task) (out : list (Z * SkOp)).
Context (Hinv : sys_inv st a) (Hkv : sy_kv st !! g = Some kv) (Ht : sy_task st !! g = Some t).
Context (Hle : le_kv kv kv') (Habs : abs_keep a a' kv).

Definition moved : Sys :=
  mkSys (sy_ctl st) (<[g := kv']> (sy_kv st)) (<[g := t']> (sy_task st)) (sy_sent st ++ out).

Lemma moved_lookup g1 kv1 : sy_kv moved !! g1 = Some kv1 → (g = g1 ∧ kv' = kv1) ∨ (g ≠ g1 ∧ sy_kv st !! g1 = Some kv1).
Proof. intros H. by apply lookup_insert_Some. Qed.

Lemma moved_seq g1 kv1 : sy_kv moved !! g1 = Some kv1 →
  ∃ kv0, sy_kv st !! g1 = Some kv0 ∧ sk_clientId kv1 = sk_clientId kv0 ∧ (sk_seqNum kv0 ≤ sk_seqNum kv1)%Z.
Proof. intros [[<- <-]|[_ Hk]]%moved_lookup; [exists kv|by exists kv1]. split_and!; [done|apply Hle..]. Qed.

Lemma carries_keep g1 h kv1 kv1' shards data table :
  sy_kv st !! g1 = Some kv1 → same_view kv1 kv1' → h ≠ 0%Z →
  (∀ s, s ∈ shards → own (sy_ctl st) (numOf kv1) (Z.to_nat s) = Some h ∧ own (sy_ctl st) (S (numOf kv1)) (Z.to_nat s) = Some g1) →
  carries st a h kv1 shards data table → carries moved a' h kv1' shards data table.
Proof.
  intros Hk1 [Hnum Hhas _ _] Hh Hs [(kvh & Hkvh & Hn) Hdom Hdata Htab]. split.
  - rewrite Hnum. by eapply (num_insert _ g kv); [|apply Hle|..].
  - done.
  - intros s Hin. destruct (Hdata s Hin) as (d & Hd & Hx). exists d. split; [done|]. intros Hnot'.
    assert (Hnot : ¬ has kv1 (Z.to_nat s)) by (intros ?; by apply Hnot', Hhas).
    destruct (Hx Hnot) as [H1 H2]. destruct (Hs s Hin) as [Ho Ho']. destruct (Habs (Z.to_nat s)) as [Hg|[E1 E2]].
    + exfalso. exact (transit_free _ _ _ (si_core _ _ Hinv) g1 h kv1 kvh _ Hk1 Hkvh Hh Ho Ho' Hn g kv Hnot Hkv Hg).
    + split; [intros key Hkey; by rewrite E1, H1|]. intros c. unfold abs_lastSeq. rewrite E2. apply H2.
  - intros g2 kv2 (kv0 & Hk0 & -> & Hseq)%moved_seq. specialize (Htab g2 kv0 Hk0). lia.
Qed.

(** A sequence number of its own that the task relies on. *)
Definition same_own (kv1 kv1' : ShardKV) : Prop := sk_lastSeq kv1' (sk_clientId kv1) = sk_lastSeq kv1 (sk_clientId kv1).

Lemma fetch_ok_keep g1 kv1 kv1' new h shards f :
  sy_kv st !! g1 = Some kv1 → same_view kv1 kv1' → (is_put f → same_own kv1 kv1') →
  fetch_ok st a g1 kv1 new h shards f → fetch_ok moved a' g1 kv1' new h shards f.
Proof.
  intros Hk1 Hsv Hown [Hf Hs Hstage].
  assert (Hc : ∀ data table, carries st a h kv1 shards data table → carries moved a' h kv1' shards data table).
  { intros data table. apply (carries_keep g1); [done|done|apply Hf|]. intros s Hin. by destruct (Hs s Hin). }
  assert (Hr : received kv1 shards → received kv1' shards) by (intros H s Hin; apply (sv_has _ _ Hsv); by apply H).
  split; [done|by rewrite (sv_num _ _ Hsv)|].
  destruct f as [|args|reply|args| |args|]; try done; try (by apply Hc); try (by apply Hr).
  - rewrite (sv_id _ _ Hsv), (Hown I). pose proof (sv_seq _ _ Hsv). destruct Hstage as [? [(? & ? & ?)|[? ?]]]; (split; [done|]); [left|right].
    + split_and!; [done|lia|by apply Hc].
    + split; [done|by apply Hr].
  - destruct Hstage as (? & ? & ->). split_and!; [by apply Hr|done|]. by rewrite (sv_id _ _ Hsv).
Qed.

Lemma task_ok_keep g1 kv1 kv1' t1 :
  sy_kv st !! g1 = Some kv1 → same_view kv1 kv1' → same_own kv1 kv1' → task_ok st a g1 kv1 t1 → task_ok moved a' g1 kv1' t1.
Proof.
  intros Hk1 Hsv Hown Hok. pose proof (sv_num _ _ Hsv) as Hn. destruct t1 as [|old new fs|args]; [done|..]; simpl in *.
  - rewrite Hn. destruct Hok as (H1 & H2 & H3 & H4). split_and!; [done| | |done].
    + intros h x Hx. apply (fetch_ok_keep g1 kv1); [done|done|done|by apply H2].
    + intros s h Ho Hg Hz Ho'. destruct (H3 s h Ho Hg Hz Ho') as [?|?]; [left; by apply (sv_has _ _ Hsv)|by right].
  - rewrite (sv_id _ _ Hsv), Hown, Hn. destruct Hok as [? [(? & ? & ? & Hcm)|?]]; (split; [done|]); [left|by right].
    pose proof (sv_seq _ _ Hsv). split_and!; [done|lia|done|]. intros s h. rewrite Hn. intros ? ? ? ?. apply (sv_has _ _ Hsv). by eapply Hcm.
Qed.

(** Requests that were waited for are still, or they are done. *)
Record still_alive : Prop := {
  sa_put : ∀ args, put_alive t args → put_alive t' args ∨ (psa_SeqNum args ≤ sk_lastSeq kv' (sk_clientId kv))%Z;
  sa_delete : ∀ h args, delete_alive t h args → delete_alive t' h args ∨
    ∀ kvh, sy_kv st !! h = Some kvh → (dsa_SeqNum args ≤ sk_lastSeq kvh (sk_clientId kv))%Z;
  sa_set : ∀ args, set_alive t args → set_alive t' args ∨ (sca_SeqNum args ≤ sk_lastSeq kv' (sk_clientId kv))%Z;
}.

Lemma moved_kv g1 kv1 : sy_kv st !! g1 = Some kv1 → ∃ kv2, sy_kv moved !! g1 = Some kv2 ∧ le_kv kv1 kv2.
Proof.
  intros Hk. destruct (decide (g = g1)) as [<-|Hne].
  - exists kv'. rewrite Hkv in Hk. injection Hk as <-. split; [apply lookup_insert_eq|done].
  - exists kv1. split; [simpl; by rewrite lookup_insert_ne|]. by split.
Qed.

Lemma moved_task g1 t1 (P Q : Task → Prop) :
  sy_task st !! g1 = Some t1 → P t1 → (g1 = g → P t → P t' ∨ Q t') → (∃ t2, sy_task moved !! g1 = Some t2 ∧ P t2) ∨ g1 = g ∧ Q t'.
Proof.
  intros Ht1 HP Hx. destruct (decide (g = g1)) as [<-|Hne].
  - rewrite Ht in Ht1. injection Ht1 as <-. destruct (Hx eq_refl HP); [left; exists t'|by right]. split; [apply lookup_insert_eq|done].
  - left. exists t1. split; [simpl; by rewrite lookup_insert_ne|done].
Qed.

Lemma sent_ok_keep h op : still_alive → sent_ok st h op → sent_ok moved h op.
Proof.
  intros [Sp Sd Ss] Hs. destruct Hs as [g1 kv1 h args Hk Hne Hid Hseq|g1 kv1 args Hk Hid Hal|g1 kv1 h args Hk Hne Hid Hseq Hal|g1 kv1 args Hk Hid Hal];
    destruct (moved_kv g1 kv1 Hk) as (kv2 & Hk2 & [Lid _ Lseq Llast]).
  - eapply so_get; [done|done|congruence|lia].
  - eapply so_put; [done|congruence|]. rewrite Lid. destruct Hal as [Hd|(t1 & Ht1 & Hal)].
    + left. specialize (Llast (sk_clientId kv1)). lia.
    + destruct (moved_task g1 t1 (λ t, put_alive t args) (λ _, (psa_SeqNum args ≤ sk_lastSeq kv' (sk_clientId kv))%Z) Ht1 Hal) as [?|[-> ?]];
        [intros _; apply Sp|by right|left]. rewrite Hkv in Hk. injection Hk as <-. simpl in Hk2. rewrite lookup_insert_eq in Hk2. by injection Hk2 as <-.
  - eapply so_delete; [done|done|congruence|lia|]. rewrite Lid. intros kvh Hkvh.
    assert (∃ kvh0, sy_kv st !! h = Some kvh0 ∧ ∀ c, (sk_lastSeq kvh0 c ≤ sk_lastSeq kvh c)%Z) as (kvh0 & Hkvh0 & Hmono).
    { apply moved_lookup in Hkvh as [[<- <-]|[_ Hkvh]]; [exists kv|exists kvh]; split; try done; apply Hle. }
    specialize (Hmono (sk_clientId kv1)). destruct (Hal kvh0 Hkvh0) as [Hd|(t1 & Ht1 & Hal')]; [left; lia|].
    destruct (moved_task g1 t1 (λ t, delete_alive t h args)
      (λ _, ∀ kvh, sy_kv st !! h = Some kvh → (dsa_SeqNum args ≤ sk_lastSeq kvh (sk_clientId kv))%Z) Ht1 Hal') as [?|[-> Hd]];
      [intros _; apply Sd|by right|left]. rewrite Hkv in Hk. injection Hk as <-. specialize (Hd kvh0 Hkvh0). lia.
  - eapply so_set; [done|congruence|]. rewrite Lid. destruct Hal as [Hd|(t1 & Ht1 & Hal)].
    + left. specialize (Llast (sk_clientId kv1)). lia.
    + destruct (moved_task g1 t1 (λ t, set_alive t args) (λ _, (sca_SeqNum args ≤ sk_lastSeq kv' (sk_clientId kv))%Z) Ht1 Hal) as [?|[-> ?]];
        [intros _; apply Ss|by right|left]. rewrite Hkv in Hk. injection Hk as <-. simpl in Hk2. rewrite lookup_insert_eq in Hk2. by injection Hk2 as <-.
Qed.

Lemma moved_inv :
  core_inv (sy_ctl st) (<[g := kv']> (sy_kv st)) a' → task_ok moved a' g kv' t' → still_alive →
  (∀ h op, (h, op) ∈ out → sent_ok moved h op) →
  (∀ g1 kv1, sy_kv moved !! g1 = Some kv1 → (sk_lastSeq kv' (sk_clientId kv1) ≤ sk_seqNum kv1)%Z) →
  next_ok (sy_ctl st) kv' → sys_inv moved a'.
Proof.
  intros Hcore Htask Halive Hout Hseq Hnext. pose proof Hinv as [_ H1 H2 H3 H4 H5 H6]. split; [done|..|done].
  - intros g1 kv1 [[<- <-]|[Hne Hk]]%moved_lookup; [exists t'; split; [apply lookup_insert_eq|done]|].
    destruct (H1 g1 kv1 Hk) as (t1 & Ht1 & Hok). exists t1. split; [simpl; by rewrite lookup_insert_ne|].
    by apply (task_ok_keep g1 kv1 kv1); [|apply same_view_refl|..].
  - intros h op [Hin|Hin]%elem_of_app; [|by apply Hout]. by apply sent_ok_keep, H2.
  - intros g1 g2 kv1 kv2 (kv3 & Hk3 & -> & _)%moved_seq (kv4 & Hk4 & -> & _)%moved_seq. by apply H3.
  - intros g1 h kv1 kvh Hk1 [[<- <-]|[_ Hkh]]%moved_lookup; [by apply Hseq with g1|].
    destruct (moved_seq g1 kv1 Hk1) as (kv0 & Hk0 & -> & Hle'). specialize (H4 g1 h kv0 kvh Hk0 Hkh). lia.
  - intros g1 kv1 [[<- <-]|[_ Hk]]%moved_lookup; [done|by eapply H5].
Qed.
End Move.

(** ** Applying requests *)

Lemma core_mild ctl kvs a g kv kv' :
  core_inv ctl kvs a → kvs !! g = Some kv → config kv' = config kv → sk_gid kv' = sk_gid kv → skv_wf kv' →
  (∀ c, (sk_lastSeq kv c ≤ sk_lastSeq kv' c)%Z) →
  (∀ s, (∀ key, shard_of key = s → sk_lookup kv' key = sk_lookup kv key) ∨
        not_holder ctl kvs g s ∧ ∀ key, shard_of key = s → sk_lookup kv' key = None) →
  core_inv ctl (<[g := kv']> kvs) a.
Proof.
  intros Hi Hkv Hc Hg Hwf Hl Hs. eapply core_step; [done..| | |intros s; by left].
  - intros s _. destruct (Hs s) as [Hsame|[Hn _]]; [right|by left]. by apply shard_ok_same.
  - intros s. right. intros key Hkey Hnone. destruct (Hs s) as [Hsame|[_ Hn]]; [by rewrite Hsame|by apply Hn].
Qed.

Lemma lookup_store kv kv' s key :
  sk_store kv' !! s = sk_store kv !! s → shard_of key = s → sk_lookup kv' key = sk_lookup kv key.
Proof. intros Hs <-. unfold sk_lookup, shard_of in *. by rewrite Hs. Qed.

(** A request under which the configuration of the group stays. *)
Lemma local_inv st a a' g kv kv' :
  sys_inv st a → sy_kv st !! g = Some kv → self_same kv kv' → config kv' = config kv →
  (∀ c, (sk_lastSeq kv c ≤ sk_lastSeq kv' c)%Z) → same_own kv kv' →
  (∀ g1 kv1, sy_kv st !! g1 = Some kv1 → (sk_lastSeq kv' (sk_clientId kv1) ≤ sk_seqNum kv1)%Z) →
  core_inv (sy_ctl st) (<[g := kv']> (sy_kv st)) a' → abs_keep a a' kv →
  sys_inv (mkSys (sy_ctl st) (<[g := kv']> (sy_kv st)) (sy_task st) (sy_sent st)) a'.
Proof.
  intros Hi Hkv (Hid & Hsq & Hnx & Hgid) Hc Hl Hown Hseq Hcore Habs. destruct (si_task _ _ Hi g kv Hkv) as (t & Ht & Hok).
  assert (Hle : le_kv kv kv') by (split; [done|unfold numOf; by rewrite Hc|lia|done]).
  assert (mkSys (sy_ctl st) (<[g := kv']> (sy_kv st)) (sy_task st) (sy_sent st) = moved st g kv' t []) as ->
    by (unfold moved; by rewrite (insert_id (sy_task st)), app_nil_r).
  eapply (moved_inv st a a' g kv kv' t t); [done..| | | | |].
  - eapply (task_ok_keep st a a' g kv kv' t []); [done..| |done|done]. apply same_view_config; [done..|lia].
  - split; intros; by left.
  - by intros ? ? ?%elem_of_nil.
  - intros g1 kv1 (kv0 & Hk0 & -> & Hs)%(moved_seq st g kv kv' t []); [|done|done]. specialize (Hseq g1 kv0 Hk0). lia.
  - unfold next_ok. rewrite Hnx, Hc. by eapply si_next.
Qed.

(** The sequence numbers of a request of another server or of a client. *)
Lemma foreign_seq st a g kv kv' c n :
  sys_inv st a → sy_kv st !! g = Some kv → seq_effect kv kv' c n →
  (∀ g1 kv1, sy_kv st !! g1 = Some kv1 → sk_clientId kv1 = c → g1 ≠ g ∧ (n ≤ sk_seqNum kv1)%Z) →
  same_own kv kv' ∧ ∀ g1 kv1, sy_kv st !! g1 = Some kv1 → (sk_lastSeq kv' (sk_clientId kv1) ≤ sk_seqNum kv1)%Z.
Proof.
  intros Hi Hkv [H1 H2] Hc. split.
  - apply H1. intros E. by destruct (Hc g kv Hkv E) as [? _].
  - intros g1 kv1 Hk1. pose proof (si_seq _ _ Hi g1 g kv1 kv Hk1 Hkv). destruct (decide (sk_clientId kv1 = c)) as [E|Hne]; [|by rewrite H1].
    destruct (Hc g1 kv1 Hk1 E) as [_ Hn]. rewrite E in *. lia.
Qed.

Lemma mild_inv st a g kv kv' c n :
  sys_inv st a → sy_kv st !! g = Some kv → self_same kv kv' → mild kv kv' c n → same_own kv kv' →
  (∀ g1 kv1, sy_kv st !! g1 = Some kv1 → (sk_lastSeq kv' (sk_clientId kv1) ≤ sk_seqNum kv1)%Z) →
  sys_inv (mkSys (sy_ctl st) (<[g := kv']> (sy_kv st)) (sy_task st) (sy_sent st)) a.
Proof.
  intros Hi Hkv Hself (Hwf & Hc & Hs & Hseq) Hown Hb. pose proof (seq_effect_mono _ _ _ _ Hseq) as Hl.
  eapply local_inv; [done..| |apply abs_keep_refl]. eapply core_mild; [apply Hi|done..|apply Hself|done|done|].
  intros s. left. intros key Hkey. eapply lookup_store; [|done]. by rewrite Hs.
Qed.

(** What is done already. *)
Lemma done_inv st a g kv kv' c n :
  sys_inv st a → sy_kv st !! g = Some kv → self_same kv kv' →
  mild kv kv' c n ∧ (∀ c', sk_lastSeq kv' c' = sk_lastSeq kv c') →
  sys_inv (mkSys (sy_ctl st) (<[g := kv']> (sy_kv st)) (sy_task st) (sy_sent st)) a.
Proof.
  intros Hi Hkv Hself [Hm Hs]. eapply mild_inv; [done..|apply Hs|]. intros g1 kv1 Hk1. rewrite Hs. by eapply si_seq.
Qed.

(** A client's Get. *)
Lemma client_get_inv st a g kv kv' args :
  sys_inv st a → sy_kv st !! g = Some kv → not_server st (ga_ClientId args) →
  sk_applyOp kv (mkSkOp GET (KGet args)) = Ok kv' →
  sys_inv (mkSys (sy_ctl st) (<[g := kv']> (sy_kv st)) (sy_task st) (sy_sent st)) a.
Proof.
  intros Hi Hkv Hns Hop. pose proof (ci_kv _ _ _ (si_core _ _ Hi) g kv Hkv) as Hok.
  pose proof (get_op kv args kv' (ko_wf _ _ _ Hok) Hop) as Hm.
  destruct (foreign_seq st a g kv kv' _ _ Hi Hkv (proj2 (proj2 (proj2 Hm)))) as [H1 H2].
  { intros g1 kv1 Hk1 E. by apply Hns in Hk1. }
  eapply mild_inv; [done|done|by eapply sk_applyOp_self|done..].
Qed.

(** ** Writes of clients *)

Lemma write_lookup isPut (d : Data) key value k :
  write isPut d key value !! k = if decide (k = key) then Some (if isPut then value else default EmptyString (d !! key) +:+ value) else d !! k.
Proof. unfold write. destruct (decide (k = key)) as [->|]; [by rewrite lookup_insert_eq|by rewrite lookup_insert_ne]. Qed.

(** The abstract service after a write. *)
Definition abs_wrote (a : Abs) (isPut : bool) (args : PutAppendArgs) : Abs :=
  mkAbs (write isPut (ab_data a) (paa_Key args) (paa_Value args))
    (<[(shard_of (paa_Key args), paa_ClientId args) := paa_SeqNum args]> (ab_last a)).

Lemma abs_wrote_other a isPut args s : s ≠ shard_of (paa_Key args) → abs_same a (abs_wrote a isPut args) s.
Proof.
  intros Hne. split; simpl; [|intros c; apply lookup_insert_ne; congruence].
  intros key <-. rewrite write_lookup, decide_False; [done|]. by intros ->.
Qed.

(** A write that was executed, as the replica and the abstract service see it. *)
Lemma wrote_shard_ok a isPut kv args kv' s :
  sk_wrote isPut kv args kv' → executes kv args → shard_ok a s kv → shard_ok (abs_wrote a isPut args) s kv'.
Proof.
  intros [_ Hw] [Hsv Hlt] [S1 S2]. rewrite decide_True in Hw by done. destruct Hw as (W1 & W2 & W3).
  assert (Hl : ∀ c, (sk_lastSeq kv c ≤ sk_lastSeq kv' c)%Z) by (intros c; rewrite W3; destruct (decide _) as [->|]; lia).
  destruct (decide (s = shard_of (paa_Key args))) as [->|Hne]; split.
  - intros key Hkey. simpl. rewrite write_lookup. destruct (decide (key = paa_Key args)) as [->|Hk]; [by rewrite W1, S1|by rewrite W2, S1].
  - intros c. unfold abs_lastSeq; simpl. rewrite W3. destruct (decide (c = paa_ClientId args)) as [->|Hc'].
    + rewrite lookup_insert_eq. simpl. lia.
    + rewrite lookup_insert_ne by congruence. apply S2.
  - destruct (abs_wrote_other a isPut args s Hne) as [O1 _]. intros key Hkey. rewrite O1, W2 by (done || (intros ->; congruence)). by apply S1.
  - destruct (abs_wrote_other a isPut args s Hne) as [_ O2]. intros c. unfold abs_lastSeq in *. rewrite O2. specialize (S2 c). specialize (Hl c). lia.
Qed.

Lemma core_write ctl kvs a g kv kv' (isPut : bool) args :
  core_inv ctl kvs a → kvs !! g = Some kv → sk_gid kv' = sk_gid kv → skv_wf kv' →
  sk_wrote isPut kv args kv' → executes kv args → core_inv ctl (<[g := kv']> kvs) (abs_wrote a isPut args).
Proof.
  intros Hi Hkv Hg Hwf Hwrote Hex. pose proof Hwrote as [Hc Hw]. pose proof Hex as [Hsv Hlt]. rewrite decide_True in Hw by done. destruct Hw as (_ & W2 & W3).
  destruct (has_epoch ctl kvs a Hi g kv (shard_of (paa_Key args)) Hkv Hsv) as (e & Ho & Ht & Hn & _).
  eapply core_step; [done|done|done|done|done|..].
  - intros c. rewrite W3. destruct (decide _) as [->|]; lia.
  - intros s _. right. by apply wrote_shard_ok.
  - intros s. destruct (decide (s = shard_of (paa_Key args))) as [->|Hne]; [left; by exists e|right].
    intros key Hkey Hnone. rewrite W2; [done|]. intros ->. congruence.
  - intros s. destruct (decide (s = shard_of (paa_Key args))) as [->|Hne]; [right; by exists e|left; by apply abs_wrote_other].
Qed.

Lemma client_write_inv st a g kv kv' (isPut : bool) args :
  sys_inv st a → sy_kv st !! g = Some kv → not_server st (paa_ClientId args) →
  sk_applyOp kv (mkSkOp (if isPut then PUT else APPEND) (KPutAppend args)) = Ok kv' →
  if decide (executes kv args)
  then abs_step a (EWrite isPut args) (abs_wrote a isPut args) ∧
    sys_inv (mkSys (sy_ctl st) (<[g := kv']> (sy_kv st)) (sy_task st) (sy_sent st)) (abs_wrote a isPut args)
  else sys_inv (mkSys (sy_ctl st) (<[g := kv']> (sy_kv st)) (sy_task st) (sy_sent st)) a.
Proof.
  intros Hi Hkv Hns Hop. pose proof (si_core _ _ Hi) as Hcore. pose proof (ci_kv _ _ _ Hcore g kv Hkv) as Hok.
  pose proof (sk_applyOp_self _ _ _ Hop) as Hself. pose proof (write_op_wf _ _ _ _ (ko_wf _ _ _ Hok) Hop) as Hwf.
  destruct (sk_write_ok isPut kv args (ko_wf _ _ _ Hok)) as (kv1 & E & Hwrote). rewrite Hop in E. injection E as <-.
  pose proof Hwrote as [Hc Hw]. destruct (decide (executes kv args)) as [Hex|Hno].
  - pose proof Hex as [Hsv Hlt]. rewrite decide_True in Hw by done. destruct Hw as (_ & _ & W3).
    assert (Hseq : seq_effect kv kv' (paa_ClientId args) (paa_SeqNum args)).
    { split; [intros c' Hne; by rewrite W3, decide_False|]. rewrite W3, decide_True by done. lia. }
    destruct (foreign_seq st a g kv kv' _ _ Hi Hkv Hseq) as [H1 H2]; [intros g1 kv1 Hk1 Eid; by apply Hns in Hk1|].
    destruct (has_ok _ _ _ Hcore g kv _ Hkv Hsv) as [_ Hl]. split.
    + constructor. specialize (Hl (paa_ClientId args)). unfold shard_of. lia.
    + eapply local_inv; [done..|by apply (seq_effect_mono _ _ _ _ Hseq)|done|done|by eapply core_write; [..|apply Hself| | |]|].
      intros s. destruct (decide (s = shard_of (paa_Key args))) as [->|Hne]; [by left|right; by apply abs_wrote_other].
  - rewrite decide_False in Hw by (unfold executes in Hno; tauto). destruct Hw as [W1 W2].
    eapply (done_inv _ _ _ _ _ (paa_ClientId args) (paa_SeqNum args)); [done|done|done|]. split; [|done]. split_and!; [done..|]. by apply seq_effect_same.
Qed.

(** ** Requests of migrations *)

(** Unfolding a request that is done. *)
Lemma done_put kv args kv' :
  skv_wf kv → (psa_SeqNum args ≤ sk_lastSeq kv (psa_ClientId args))%Z → sk_applyOp kv (mkSkOp PUT_SHARDS (KPutShards args)) = Ok kv' →
  mild kv kv' (psa_ClientId args) (psa_SeqNum args) ∧ ∀ c', sk_lastSeq kv' c' = sk_lastSeq kv c'.
Proof. intros Hwf Hd H. unfold sk_applyOp in H. simpl in H. by eapply done_op. Qed.

Lemma done_set kv args kv' :
  skv_wf kv → (sca_SeqNum args ≤ sk_lastSeq kv (sca_ClientId args))%Z → sk_applyOp kv (mkSkOp SET_CONFIG (KSetConfig args)) = Ok kv' →
  mild kv kv' (sca_ClientId args) (sca_SeqNum args) ∧ ∀ c', sk_lastSeq kv' c' = sk_lastSeq kv c'.
Proof. intros Hwf Hd H. unfold sk_applyOp in H. simpl in H. by eapply done_op. Qed.

Lemma done_delete kv args kv' :
  skv_wf kv → (dsa_SeqNum args ≤ sk_lastSeq kv (dsa_ClientId args))%Z → sk_applyOp kv (mkSkOp DELETE_SHARDS (KDeleteShards args)) = Ok kv' →
  mild kv kv' (dsa_ClientId args) (dsa_SeqNum args) ∧ ∀ c', sk_lastSeq kv' c' = sk_lastSeq kv c'.
Proof. intros Hwf Hd H. unfold sk_applyOp in H. simpl in H. by eapply done_op. Qed.

Section Requests.
Context (st : Sys) (a : Abs) (Hinv : sys_inv st a).

Let Hcore : core_inv (sy_ctl st) (sy_kv st) a := si_core _ _ Hinv.

Definition with_kv (g : Z) (kv' : ShardKV) : Sys := mkSys (sy_ctl st) (<[g := kv']> (sy_kv st)) (sy_task st) (sy_sent st).

Lemma with_kv_moved g kv' t : sy_task st !! g = Some t → with_kv g kv' = moved st g kv' t [].
Proof. intros Ht. unfold with_kv, moved. by rewrite (insert_id (sy_task st)), app_nil_r. Qed.

(** GetShards only marks its client. *)
Lemma apply_get_inv g kv g1 kv1 args kv' :
  sy_kv st !! g = Some kv → sy_kv st !! g1 = Some kv1 → g ≠ g1 → gsa_ClientId args = sk_clientId kv1 →
  (gsa_SeqNum args ≤ sk_seqNum kv1)%Z → sk_applyOp kv (mkSkOp GET_SHARDS (KGetShards args)) = Ok kv' →
  sys_inv (with_kv g kv') a.
Proof.
  intros Hkv Hk1 Hne Hid Hseq Hop. pose proof (ci_kv _ _ _ Hcore g kv Hkv) as Hok.
  pose proof (getShards_op kv args kv' (ko_wf _ _ _ Hok) Hop) as Hm.
  destruct (foreign_seq st a g kv kv' _ _ Hinv Hkv (proj2 (proj2 (proj2 Hm)))) as [H1 H2].
  { intros g2 kv2 Hk2 E. rewrite Hid in E. pose proof (si_ids _ _ Hinv g2 g1 kv2 kv1 Hk2 Hk1 E) as ->. rewrite Hk1 in Hk2. by injection Hk2 as <-. }
  eapply mild_inv; [done|done|by eapply sk_applyOp_self|done..].
Qed.

(** DeleteShards deletes nothing that is needed. *)
Lemma apply_delete_inv g kv g1 kv1 args kv' :
  sy_kv st !! g = Some kv → sy_kv st !! g1 = Some kv1 → g ≠ g1 → dsa_ClientId args = sk_clientId kv1 →
  (dsa_SeqNum args ≤ sk_seqNum kv1)%Z →
  ((dsa_SeqNum args ≤ sk_lastSeq kv (sk_clientId kv1))%Z ∨ ∃ t, sy_task st !! g1 = Some t ∧ delete_alive t g args) →
  sk_applyOp kv (mkSkOp DELETE_SHARDS (KDeleteShards args)) = Ok kv' → sys_inv (with_kv g kv') a.
Proof.
  intros Hkv Hk1 Hne Hid Hseq Hal Hop. pose proof (ci_kv _ _ _ Hcore g kv Hkv) as Hok. pose proof (sk_applyOp_self _ _ _ Hop) as Hself.
  destruct Hal as [Hd|(t & Ht & old & new & fs & shards & -> & Hf)].
  { eapply done_inv; [done..|]. eapply done_delete; [apply Hok|by rewrite Hid|done]. }
  destruct (si_task _ _ Hinv g1 kv1 Hk1) as (t & Ht' & Htok). rewrite Ht in Ht'. injection Ht' as <-.
  destruct Htok as (_ & Hfo & _). destruct (Hfo g _ Hf) as [_ Hs (Hrec & Hsh & _)]. simpl in *.
  destruct (deleteShards_op kv args kv') as (Hwf' & Hc & Hse & Hst); [apply Hok|rewrite Hsh; by apply Hs|done|].
  destruct (foreign_seq st a g kv kv' _ _ Hinv Hkv Hse) as [H1 H2].
  { intros g2 kv2 Hk2 E. rewrite Hid in E. pose proof (si_ids _ _ Hinv g2 g1 kv2 kv1 Hk2 Hk1 E) as ->. rewrite Hk1 in Hk2. by injection Hk2 as <-. }
  pose proof (seq_effect_mono _ _ _ _ Hse) as Hl. eapply local_inv; [done..| |apply abs_keep_refl].
  eapply core_mild; [done..|apply Hself|done|done|]. intros s. destruct (Hst s) as [Hsame|(Hin & Hnot & Hemp)].
  - left. intros key Hkey. by eapply lookup_store.
  - right. split; [|intros key <-; unfold sk_lookup, shard_of in *; rewrite Hemp; apply lookup_empty].
    intros e Ht1 Hn1 Ho. assert (Hh : has kv1 s) by (rewrite <-(Nat2Z.id s); apply Hrec; by rewrite <-Hsh).
    destruct (has_epoch _ _ _ Hcore g1 kv1 s Hk1 Hh) as (e1 & Ho1 & Ht2 & Hn2 & _).
    rewrite (epoch_unique _ _ _ Hcore s e e1) in Ho by done. congruence.
Qed.

(** SetConfig moves the group to the next configuration. *)
Lemma apply_set_inv g kv args kv' :
  sy_kv st !! g = Some kv → sca_ClientId args = sk_clientId kv →
  ((sca_SeqNum args ≤ sk_lastSeq kv (sk_clientId kv))%Z ∨ ∃ t, sy_task st !! g = Some t ∧ set_alive t args) →
  sk_applyOp kv (mkSkOp SET_CONFIG (KSetConfig args)) = Ok kv' → sys_inv (with_kv g kv') a.
Proof.
  intros Hkv Hid Hal Hop. pose proof (ci_kv _ _ _ Hcore g kv Hkv) as Hok. pose proof (sk_applyOp_self _ _ _ Hop) as Hself.
  destruct (si_task _ _ Hinv g kv Hkv) as (t & Ht & Htok).
  destruct (decide (sca_SeqNum args ≤ sk_lastSeq kv (sk_clientId kv))%Z) as [Hd|Hnd].
  { eapply done_inv; [done..|]. eapply done_set; [apply Hok|by rewrite Hid|done]. }
  destruct Hal as [?|(t1 & Ht1 & ->)]; [done|]. rewrite Ht in Ht1. injection Ht1 as ->.
  destruct Htok as [_ [(Hlt & Hsq & Hctl & Hcm)|?]]; [|done].
  destruct (co_num _ (ci_ctl _ _ _ Hcore) _ _ Hctl) as [Hnum Hlen].
  destruct (setConfig_op kv args kv') as (Hwf' & Hc & Hst & Hse & Hdone); [apply Hok|done|done|by rewrite Hid|pose proof (ko_num _ _ _ Hok); lia|].
  pose proof (seq_effect_mono _ _ _ _ Hse) as Hl. destruct Hself as (Sid & Ssq & Snx & Sg).
  assert (Hadv : advances (sy_ctl st) g kv kv').
  { split; [by rewrite Hc|done|done|done| |done]. intros key. eapply lookup_store; [|done]. by rewrite Hst. }
  pose proof (advances_num _ _ _ _ (ci_ctl _ _ _ Hcore) Hadv) as Hn.
  rewrite (with_kv_moved g kv' (TSetConfig args) Ht). eapply (moved_inv st a a g kv kv'); [done..| |apply abs_keep_refl|by eapply core_set| | | | |].
  - split; [done|lia|lia|done].
  - simpl. rewrite Sid. split; [done|right]. by rewrite <-Hid.
  - split; intros; by left.
  - by intros ? ? ?%elem_of_nil.
  - intros g1 kv1 (kv0 & Hk0 & E & Hs)%(moved_seq st g kv kv' (TSetConfig args) []); [|done|split; [done|lia|lia|done]].
    rewrite E. pose proof (si_seq _ _ Hinv g1 g kv0 kv Hk0 Hkv). destruct Hse as [H1 H2]. destruct (decide (sk_clientId kv0 = sca_ClientId args)) as [E'|Hne].
    + rewrite E' in *. assert (g1 = g) as -> by (eapply (si_ids _ _ Hinv); [done|done|congruence]). rewrite Hkv in Hk0. injection Hk0 as <-. lia.
    + rewrite H1 by done. lia.
  - destruct (si_next _ _ Hinv g kv Hkv) as [N1 N2]. unfold next_ok. rewrite Snx. split; [done|]. rewrite Hc. pose proof (ko_num _ _ _ Hok). lia.
Qed.

(** *** PutShards *)

Section Put.
Context (g h : Z) (kv kv' : ShardKV) (args : PutShardsArgs) (old new : Config) (fs : gmap Z (list Z * Fetch)) (shards : list Z).
Context (Hkv : sy_kv st !! g = Some kv) (Hid : psa_ClientId args = sk_clientId kv).
Context (Ht : sy_task st !! g = Some (TMigrate old new fs)) (Hf : fs !! h = Some (shards, FetchPut args)).
Context (Hlt : (sk_lastSeq kv (sk_clientId kv) < psa_SeqNum args)%Z) (Hsq : (psa_SeqNum args ≤ sk_seqNum kv)%Z).
Context (Hca : carries st a h kv shards (psa_Shards args) (psa_ClientSeqNumMap args)).
Context (Hfo : h ≠ g ∧ h ≠ 0%Z) (Hsh : ∀ s, s ∈ shards → in_range s ∧ own (sy_ctl st) (numOf kv) (Z.to_nat s) = Some h ∧
    own (sy_ctl st) (S (numOf kv)) (Z.to_nat s) = Some g).
Context (Hop : sk_applyOp kv (mkSkOp PUT_SHARDS (KPutShards args)) = Ok kv').

Let Hok : kv_ok (sy_ctl st) g kv := ci_kv _ _ _ Hcore g kv Hkv.

Lemma put_effect :
  skv_wf kv' ∧ Num (config kv') = Num (config kv) ∧
  (∀ s data, psa_Shards args !! s = Some data → ¬ serves kv s → serves kv' s ∧ sk_store kv' !! Z.to_nat s = Some data) ∧
  (∀ s, in_range s → psa_Shards args !! s = None ∨ serves kv s →
     sk_store kv' !! Z.to_nat s = sk_store kv !! Z.to_nat s ∧ Shards (config kv') !! Z.to_nat s = Shards (config kv) !! Z.to_nat s) ∧
  ∀ c, sk_lastSeq kv' c = Z.max (Z.max (sk_lastSeq kv c) (default (sk_lastSeq kv c) (psa_ClientSeqNumMap args !! c)))
                                (if decide (c = psa_ClientId args) then psa_SeqNum args else sk_lastSeq kv c).
Proof. apply putShards_op; [apply Hok| |by rewrite Hid|done]. intros s Hs. by apply Hsh, (ca_dom _ _ _ _ _ _ _ Hca). Qed.

Lemma put_mono c : (sk_lastSeq kv c ≤ sk_lastSeq kv' c)%Z.
Proof. destruct put_effect as (_ & _ & _ & _ & ->). lia. Qed.

Lemma put_case s : s < NShards → keeps kv kv' s ∨ gains (sy_ctl st) (sy_kv st) a g kv kv' s.
Proof.
  intros Hs. destruct put_effect as (_ & _ & Hin & Hout & Hl).
  assert (Hr : in_range (Z.of_nat s)) by (unfold in_range; lia).
  assert (Hsv : serves kv (Z.of_nat s) ↔ has kv s) by (unfold serves, has; by rewrite Nat2Z.id).
  destruct (decide (has kv s)) as [Hh|Hn]; [|destruct (psa_Shards args !! Z.of_nat s) as [d|] eqn:Ed].
  - left. destruct (Hout (Z.of_nat s) Hr) as [E1 E2]; [right; by apply Hsv|]. rewrite Nat2Z.id in E1, E2. split; [done|]. intros key. by apply lookup_store.
  - right. destruct (Hin _ d Ed) as [H1 H2]; [by rewrite Hsv|]. unfold serves in H1. rewrite Nat2Z.id in H1, H2.
    assert (Z.of_nat s ∈ shards) as Hins by (apply (ca_dom _ _ _ _ _ _ _ Hca); by eexists).
    destruct (Hsh _ Hins) as (_ & Ho & Ho'). rewrite Nat2Z.id in Ho, Ho'. destruct (ca_from _ _ _ _ _ _ _ Hca) as (kvh & Hkvh & Hle).
    destruct (ca_data _ _ _ _ _ _ _ Hca _ Hins) as (d' & Hd' & Hag). rewrite Ed in Hd'. injection Hd' as <-. rewrite Nat2Z.id in Hag. destruct (Hag Hn) as [A1 A2].
    split; [done|done|done|exists h, kvh; tauto|]. split.
    + intros key Hkey. rewrite <-A1 by done. unfold sk_lookup. unfold shard_of in Hkey. by rewrite Hkey, H2.
    + intros c. rewrite Hl. specialize (A2 c). pose proof (ko_seq _ _ _ Hok c). destruct (psa_ClientSeqNumMap args !! c); simpl in *; lia.
  - left. destruct (Hout (Z.of_nat s) Hr) as [E1 E2]; [by left|]. rewrite Nat2Z.id in E1, E2. split; [done|]. intros key. by apply lookup_store.
Qed.

Lemma put_has s : has kv s → has kv' s.
Proof.
  intros Hh. assert (Hs : s < NShards). { destruct (ko_wf _ _ _ Hok) as [<- _ _]. by eapply lookup_lt_Some. }
  destruct (sk_applyOp_self _ _ _ Hop) as (_ & _ & _ & Sg). destruct (put_case s Hs) as [[E _]|[? _ _ _ _]]; [|done]. unfold has in *. by rewrite E, Sg.
Qed.

Lemma put_received : received kv' shards.
Proof.
  intros s Hs. destruct (Hsh s Hs) as (Hr & _ & _). destruct (decide (has kv (Z.to_nat s))) as [Hh|Hn]; [by apply put_has|].
  destruct (ca_data _ _ _ _ _ _ _ Hca s Hs) as (d & Hd & _). destruct put_effect as (_ & _ & Hin & _). by destruct (Hin s d Hd).
Qed.

Lemma put_view : same_view kv kv' ∧ le_kv kv kv'.
Proof.
  destruct (sk_applyOp_self _ _ _ Hop) as (Sid & Ssq & _ & _). destruct put_effect as (_ & Hnum & _).
  assert (numOf kv' = numOf kv) as Hn by (unfold numOf; by rewrite Hnum). split; split; try done; try lia; [exact put_has|exact put_mono].
Qed.

Lemma put_task_ok : task_ok (with_kv g kv') a g kv' (TMigrate old new fs).
Proof.
  destruct (si_task _ _ Hinv g kv Hkv) as (t & Ht' & Htok). rewrite Ht in Ht'. injection Ht' as <-.
  destruct Htok as (H1 & H2 & H3 & H4). destruct put_view as [Hsv Hle]. simpl. rewrite (sv_num _ _ Hsv). split_and!; [done| | |done].
  - intros h1 x Hx. destruct (decide (h1 = h)) as [->|Hne].
    + rewrite Hf in Hx. injection Hx as <-. split; [done|by rewrite (sv_num _ _ Hsv)|]. simpl. rewrite (sv_id _ _ Hsv). split; [done|right].
      split; [|exact put_received]. destruct put_effect as (_ & _ & _ & _ & ->). rewrite decide_True by done. lia.
    + rewrite (with_kv_moved g kv' _ Ht). eapply (fetch_ok_keep st a a g kv kv'); [done|done|done|apply abs_keep_refl|done|done| |by apply H2].
      intros Hp. exfalso. apply Hne. by eapply (H4 h1 h x (shards, FetchPut args)).
  - intros s h1 Ho Hg Hz Ho'. destruct (H3 s h1 Ho Hg Hz Ho') as [?|?]; [left; by apply put_has|by right].
Qed.

Lemma put_inv : sys_inv (with_kv g kv') a.
Proof.
  destruct put_effect as (Hwf & Hnum & _ & _ & Hl). destruct (sk_applyOp_self _ _ _ Hop) as (Sid & Ssq & Snx & Sg). destruct put_view as [Hsv Hle].
  pose proof put_task_ok as Htask. rewrite (with_kv_moved g kv' _ Ht) in Htask |- *.
  eapply (moved_inv st a a g kv kv'); [done|done|done|done|apply abs_keep_refl| |done| | | |].
  - by eapply core_put; [..|exact put_mono|exact put_case].
  - split; intros; by left.
  - by intros ? ? ?%elem_of_nil.
  - intros g1 kv1 (kv0 & Hk0 & -> & Hs)%(moved_seq st g kv kv' _ []); [|done|done]. rewrite Hl.
    pose proof (si_seq _ _ Hinv g1 g kv0 kv Hk0 Hkv). pose proof (ca_table _ _ _ _ _ _ _ Hca g1 kv0 Hk0) as Htab. destruct (decide (sk_clientId kv0 = psa_ClientId args)) as [E|Hne].
    + assert (g1 = g) as -> by (eapply (si_ids _ _ Hinv); [done|done|congruence]). rewrite Hkv in Hk0. injection Hk0 as <-.
      destruct (psa_ClientSeqNumMap args !! sk_clientId kv); simpl in *; lia.
    + destruct (psa_ClientSeqNumMap args !! sk_clientId kv0); simpl in *; lia.
  - destruct (si_next _ _ Hinv g kv Hkv) as [N1 N2]. unfold next_ok. rewrite Snx, Hnum. done.
Qed.
End Put.

Lemma apply_put_inv g kv args kv' :
  sy_kv st !! g = Some kv → psa_ClientId args = sk_clientId kv →
  ((psa_SeqNum args ≤ sk_lastSeq kv (sk_clientId kv))%Z ∨ ∃ t, sy_task st !! g = Some t ∧ put_alive t args) →
  sk_applyOp kv (mkSkOp PUT_SHARDS (KPutShards args)) = Ok kv' → sys_inv (with_kv g kv') a.
Proof.
  intros Hkv Hid Hal Hop. pose proof (ci_kv _ _ _ Hcore g kv Hkv) as Hok.
  destruct (decide (psa_SeqNum args ≤ sk_lastSeq kv (sk_clientId kv))%Z) as [Hd|Hnd].
  { eapply done_inv; [done..|by eapply sk_applyOp_self|]. eapply done_put; [apply Hok|by rewrite Hid|done]. }
  destruct Hal as [?|(t & Ht & old & new & fs & h & shards & -> & Hf)]; [done|].
  destruct (si_task _ _ Hinv g kv Hkv) as (t & Ht' & Htok). rewrite Ht in Ht'. injection Ht' as <-.
  destruct Htok as (_ & Hfo & _). destruct (Hfo h _ Hf) as [Hne Hs [_ [(Hlt & Hsq & Hca)|[? _]]]]; [|done]. by eapply put_inv.
Qed.

Lemma apply_inv g kv op kv' :
  (g, op) ∈ sy_sent st → sy_kv st !! g = Some kv → sk_applyOp kv op = Ok kv' → sys_inv (with_kv g kv') a.
Proof.
  intros Hs%(si_sent _ _ Hinv) Hkv Hop.
  destruct Hs as [g1 kv1 h args Hk Hne Hid Hseq|g1 kv1 args Hk Hid Hal|g1 kv1 h args Hk Hne Hid Hseq Hal|g1 kv1 args Hk Hid Hal].
  - by eapply (apply_get_inv h kv g1 kv1).
  - rewrite Hkv in Hk. injection Hk as <-. by eapply apply_put_inv.
  - eapply (apply_delete_inv h kv g1 kv1); [done..|by apply Hal|done].
  - rewrite Hkv in Hk. injection Hk as <-. by eapply apply_set_inv.
Qed.
End Requests.

(** ** The goroutines of a migration *)

(** The reply of the source group. *)
Lemma got_carries st a g kv new h shards args kvh reply :
  sys_inv st a → sy_kv st !! g = Some kv → fetch_ok st a g kv new h shards (FetchSent args) →
  sy_ctl st !! S (numOf kv) = Some new →
  sy_kv st !! h = Some kvh → (gsa_ConfigNum args ≤ Num (config kvh))%Z → GetShards_reply kvh args true = Ok reply →
  carries st a h kv shards (gsr_Shards reply) (gsr_ClientSeqNumMap reply).
Proof.
  intros Hi Hkv [[Hhg Hz] Hs [Hsh Hnum]] Hnew Hkvh Hle Hrep. pose proof (si_core _ _ Hi) as Hcore.
  pose proof (ci_kv _ _ _ Hcore h kvh Hkvh) as Hokh. destruct (co_num _ (ci_ctl _ _ _ Hcore) _ _ Hnew) as [Hn _].
  assert (Hn' : S (numOf kv) ≤ numOf kvh) by (pose proof (ko_num _ _ _ Hokh); lia).
  destruct (getShards_run kvh shards (ko_wf _ _ _ Hokh)) as (data & Hget & Hin & Hout); [intros s Hins; by apply Hs|].
  unfold GetShards_reply in Hrep. rewrite Hsh, Hget in Hrep. simpl in Hrep. injection Hrep as <-. simpl. split.
  - by exists kvh.
  - intros s [d Hd]. destruct (decide (s ∈ shards)) as [|Hno]; [done|]. by rewrite Hout in Hd.
  - intros s Hins. destruct (Hs s Hins) as (Hr & Ho & Ho'). destruct (range_idx _ _ (swf_store _ (ko_wf _ _ _ Hokh)) Hr) as (d & _ & Hd).
    exists d. split; [by rewrite Hin|]. intros Hnot.
    destruct (transit_ok _ _ _ Hcore g h kv kvh _ Hkv Hkvh Hz Ho Ho' Hn' Hnot) as [T1 T2]. split.
    + intros key Hkey. rewrite <-T1 by done. unfold sk_lookup. unfold shard_of in Hkey. by rewrite Hkey, Hd.
    + intros c. unfold ClientStatusMap.getClientSeqNumMap. rewrite map_fold_insert_id. apply T2.
  - intros g' kv' Hk'. unfold ClientStatusMap.getClientSeqNumMap. rewrite map_fold_insert_id. by eapply (si_seq _ _ Hi).
Qed.


(** A server that took a sequence number. *)
Record bumped (kv kv' : ShardKV) : Prop := {
  bu_config : config kv' = config kv;
  bu_next : (Num (nextConfig kv') ≤ Num (config kv) + 1)%Z;
  bu_store : sk_store kv' = sk_store kv;
  bu_clients : clientStatusMap kv' = clientStatusMap kv;
  bu_gid : sk_gid kv' = sk_gid kv;
  bu_id : sk_clientId kv' = sk_clientId kv;
  bu_seq : (sk_seqNum kv ≤ sk_seqNum kv')%Z;
  bu_wf : skv_wf kv';
}.

Section Goroutines.
Context (st : Sys) (a : Abs) (Hinv : sys_inv st a).
Context (g : Z) (kv : ShardKV) (Hkv : sy_kv st !! g = Some kv).

Let Hcore : core_inv (sy_ctl st) (sy_kv st) a := si_core _ _ Hinv.
Let Hok : kv_ok (sy_ctl st) g kv := ci_kv _ _ _ Hcore g kv Hkv.

Lemma seq_pos : (0 ≤ sk_seqNum kv)%Z.
Proof. pose proof (si_seq _ _ Hinv g g kv kv Hkv Hkv). pose proof (ko_seq _ _ _ Hok (sk_clientId kv)). lia. Qed.

Lemma bumped_refl : bumped kv kv.
Proof. destruct (si_next _ _ Hinv g kv Hkv). split; try done. apply Hok. Qed.

Lemma nextSeq_bumped : seq_left kv → ∃ kv', sk_nextSeq kv = (kv', sk_seqNum kv + 1)%Z ∧ bumped kv kv' ∧ nextConfig kv' = nextConfig kv ∧ sk_seqNum kv' = (sk_seqNum kv + 1)%Z.
Proof.
  intros Hb. unfold sk_nextSeq, seq_left in *. pose proof seq_pos. rewrite wrap64_id by lia. eexists. split; [done|].
  destruct (si_next _ _ Hinv g kv Hkv), (ko_wf _ _ _ Hok). split; [|done]. split; simpl; try done; try lia.
Qed.

Lemma bumped_last kv' c : bumped kv kv' → sk_lastSeq kv' c = sk_lastSeq kv c.
Proof. intros Hb. unfold sk_lastSeq. by rewrite (bu_clients _ _ Hb). Qed.

Lemma bumped_le kv' : bumped kv kv' → le_kv kv kv'.
Proof. intros Hb. split; [apply Hb|unfold numOf; by rewrite (bu_config _ _ Hb)|apply Hb|]. intros c. by rewrite (bumped_last kv'). Qed.

Lemma bumped_view kv' : bumped kv kv' → same_view kv kv' ∧ same_own kv kv'.
Proof. intros Hb. split; [apply same_view_config; apply Hb|]. by apply bumped_last. Qed.

Lemma bumped_core kv' : bumped kv kv' → core_inv (sy_ctl st) (<[g := kv']> (sy_kv st)) a.
Proof.
  intros Hb. eapply core_mild; [done|done|apply Hb|apply Hb|apply Hb| |].
  - intros c. by rewrite (bumped_last kv').
  - intros s. left. intros key. apply lookup_store. by rewrite (bu_store _ _ Hb).
Qed.

(** The task of the group changes, its replicated state does not. *)
Lemma goroutine_inv kv' t t' out :
  sy_task st !! g = Some t → bumped kv kv' → sy_ctl st !! Z.to_nat (Num (nextConfig kv')) = Some (nextConfig kv') →
  task_ok (moved st g kv' t' out) a g kv' t' → still_alive st kv kv' t t' →
  (∀ h op, (h, op) ∈ out → sent_ok (moved st g kv' t' out) h op) → sys_inv (moved st g kv' t' out) a.
Proof.
  intros Ht Hb Hnx Htask Hal Hout. pose proof (bumped_le _ Hb) as Hle.
  eapply (moved_inv st a a g kv kv' t t'); [done|done|done|done|apply abs_keep_refl|by apply bumped_core|done|done|done| |].
  - intros g1 kv1 (kv0 & Hk0 & -> & Hs)%(moved_seq st g kv kv' t' out); [|done|done]. rewrite (bumped_last kv') by done.
    pose proof (si_seq _ _ Hinv g1 g kv0 kv Hk0 Hkv). lia.
  - split; [done|]. rewrite (bu_config _ _ Hb). apply Hb.
Qed.

Section Fetching.
Context (old new : Config) (fs : gmap Z (list Z * Fetch)) (h : Z) (shards : list Z) (f : Fetch).
Context (Ht : sy_task st !! g = Some (TMigrate old new fs)) (Hf : fs !! h = Some (shards, f)).

Lemma migrate_ok : task_ok st a g kv (TMigrate old new fs).
Proof. destruct (si_task _ _ Hinv g kv Hkv) as (t & Ht' & Htok). rewrite Ht in Ht'. by injection Ht' as <-. Qed.

Lemma fetch_now : fetch_ok st a g kv new h shards f.
Proof. destruct migrate_ok as (_ & H & _). by apply (H h (shards, f)). Qed.

Definition fetched (f' : Fetch) : Task := TMigrate old new (<[h := (shards, f')]> fs).

(** The stage of one fetch changes. *)
Lemma fetching_inv kv' f' out :
  bumped kv kv' → nextConfig kv' = nextConfig kv →
  fetch_ok (moved st g kv' (fetched f') out) a g kv' new h shards f' →
  (is_put f' → ∀ h' x, fs !! h' = Some x → ¬ is_put (snd x)) →
  (∀ args, f = FetchPut args → (psa_SeqNum args ≤ sk_lastSeq kv (sk_clientId kv))%Z) →
  (∀ args, f = FetchDel args → ∀ kvh, sy_kv st !! h = Some kvh → (dsa_SeqNum args ≤ sk_lastSeq kvh (sk_clientId kv))%Z) →
  (∀ h' op, (h', op) ∈ out → sent_ok (moved st g kv' (fetched f') out) h' op) →
  sys_inv (moved st g kv' (fetched f') out) a.
Proof.
  intros Hb Hnx Hnew Hput Hdp Hdd Hout. destruct (si_next _ _ Hinv g kv Hkv) as [N1 _]. destruct migrate_ok as (M1 & M2 & M3 & M4).
  destruct (bumped_view _ Hb) as [Hsv Hown]. eapply goroutine_inv; [exact Ht|done|by rewrite Hnx| | |done].
  - simpl. rewrite (sv_num _ _ Hsv). split_and!; [done|..].
    + intros h1 x [[<- <-]|[Hne Hx]]%lookup_insert_Some; [done|].
      eapply (fetch_ok_keep st a a g kv kv'); [done|done|by apply bumped_le|apply abs_keep_refl|done|done|done|by apply M2].
    + intros s h1 Ho Hg Hz Ho'. destruct (M3 s h1 Ho Hg Hz Ho') as [?|(x & Hx & Hs)]; [left; by apply (sv_has _ _ Hsv)|right].
      destruct (decide (h = h1)) as [<-|Hne]; [|exists x; split; [by rewrite lookup_insert_ne|done]].
      rewrite Hf in Hx. injection Hx as <-. exists (shards, f'). split; [apply lookup_insert_eq|done].
    + intros h1 h2 x1 x2 [[<- <-]|[N2 Hx1]]%lookup_insert_Some [[<- <-]|[N3 Hx2]]%lookup_insert_Some P1 P2; [done| | |by eapply M4].
      * by eapply Hput in Hx2.
      * by eapply Hput in Hx1.
  - split.
    + intros args (o & n & fs' & h1 & sh & [= <- <- <-] & Hx). destruct (decide (h = h1)) as [<-|Hne].
      * rewrite Hf in Hx. injection Hx as -> ->. right. rewrite (bumped_last kv') by done. by apply Hdp.
      * left. exists old, new, (<[h := (shards, f')]> fs), h1, sh. split; [done|by rewrite lookup_insert_ne].
    + intros h1 args (o & n & fs' & sh & [= <- <- <-] & Hx). destruct (decide (h = h1)) as [<-|Hne].
      * rewrite Hf in Hx. injection Hx as -> ->. right. by apply Hdd.
      * left. exists old, new, (<[h := (shards, f')]> fs), sh. split; [done|by rewrite lookup_insert_ne].
    + intros args [=].
Qed.

(** What does not depend on the stage. *)
Lemma fetch_next kv' t out f' :
  bumped kv kv' →
  match f' with
  | FetchNew => True
  | FetchSent args => gsa_Shards args = shards ∧ gsa_ConfigNum args = Num new
  | FetchGot reply => carries (moved st g kv' t out) a h kv' shards (gsr_Shards reply) (gsr_ClientSeqNumMap reply)
  | FetchPut args => psa_ClientId args = sk_clientId kv ∧
      ((sk_lastSeq kv (sk_clientId kv) < psa_SeqNum args)%Z ∧ (psa_SeqNum args ≤ sk_seqNum kv')%Z ∧
       carries (moved st g kv' t out) a h kv' shards (psa_Shards args) (psa_ClientSeqNumMap args))
  | FetchKept | FetchDone => received kv shards
  | FetchDel args => received kv shards ∧ dsa_Shards args = shards ∧ dsa_ClientId args = sk_clientId kv
  end → fetch_ok (moved st g kv' t out) a g kv' new h shards f'.
Proof.
  intros Hb Hst. destruct (bumped_view _ Hb) as [Hsv Hown]. destruct fetch_now as [F1 F2 _].
  assert (Hr : received kv shards → received kv' shards) by (intros H s Hs; by apply (sv_has _ _ Hsv), H).
  split; [done|by rewrite (sv_num _ _ Hsv)|]. destruct f' as [|args|reply|args| |args|]; try done; try (by apply Hr).
  - rewrite (bu_id _ _ Hb), Hown. destruct Hst as [? ?]. split; [done|by left].
  - rewrite (bu_id _ _ Hb). destruct Hst as (? & ? & ?). split_and!; [by apply Hr|done|done].
Qed.

Lemma carry kv' t out data table :
  bumped kv kv' → carries st a h kv shards data table → carries (moved st g kv' t out) a h kv' shards data table.
Proof.
  intros Hb. destruct (bumped_view _ Hb) as [Hsv _]. destruct fetch_now as [[_ Hz] F2 _].
  apply (carries_keep st a a g kv kv' t out Hinv Hkv (bumped_le kv' Hb) (abs_keep_refl a kv) g); [done|done|done|].
  intros s Hs. by destruct (F2 s Hs) as (_ & ? & ?).
Qed.

End Fetching.
End Goroutines.

Lemma fetch_step_inv st a g kv old new fs h shards f kv' f' out :
  sys_inv st a → sy_kv st !! g = Some kv → sy_task st !! g = Some (TMigrate old new fs) → fs !! h = Some (shards, f) →
  fetch_step (sy_kv st) g h new shards kv f kv' f' out → (is_put f' → ∀ h' x, fs !! h' = Some x → ¬ is_put (snd x)) →
  sys_inv (moved st g kv' (fetched old new fs h shards f') out) a.
Proof.
  intros Hi Hkv Ht Hf Hstep Hput. destruct (migrate_ok st a Hi g kv Hkv old new fs Ht) as [Hnew _].
  pose proof (fetch_now st a Hi g kv Hkv old new fs h shards f Ht Hf) as Hnow. pose proof (bumped_refl st a Hi g kv Hkv) as Hb0.
  pose proof (fetch_next st a Hi g kv Hkv old new fs h shards f Ht Hf) as Hnext. pose proof (carry st a Hi g kv Hkv old new fs h shards f Ht Hf) as Hcarry.
  pose proof (fetching_inv st a Hi g kv Hkv old new fs h shards f Ht Hf) as Hgo.
  destruct Hstep as [kv kv1 args Hsl Hm|kv args kvh reply Hkvh Hcn Hsn Hrep|kv kv1 reply args Hsl Hm|kv args kvg Hkvg Hd|kv kv1 args Hsl Hm|kv args kvh Hkvh Hd];
    try (destruct (nextSeq_bumped st a Hi g kv Hkv Hsl) as (kv2 & Hnx & Hb & Hnc & Hsq);
      unfold migration_get, migration_put, migration_delete in Hm; rewrite Hnx in Hm; injection Hm as <- <-; pose proof (bu_id _ _ Hb) as Hid).
  - apply Hgo; [done|done|by apply Hnext|done|congruence|congruence|].
    intros h' op [= -> ->]%list_elem_of_singleton. eapply (so_get _ g kv2); [apply lookup_insert_eq|apply Hnow|done|simpl; lia].
  - apply Hgo; [done|done| |done|congruence|congruence|by intros ? ? ?%elem_of_nil].
    apply Hnext; [done|]. apply Hcarry; [done|]. by eapply got_carries.
  - apply Hgo; [done|done| |done|congruence|congruence|].
    + apply Hnext; [done|]. simpl. pose proof (si_seq _ _ Hi g g kv kv Hkv Hkv). split_and!; [done|lia|lia|]. apply Hcarry; [done|apply Hnow].
    + intros h' op [= -> ->]%list_elem_of_singleton. eapply (so_put _ g kv2); [apply lookup_insert_eq|done|]. right. eexists. split; [apply lookup_insert_eq|].
      eexists _, _, _, h, shards. split; [done|apply lookup_insert_eq].
  - destruct (fo_stage _ _ _ _ _ _ _ _ Hnow) as [Hid Hor]. rewrite Hkv in Hkvg. injection Hkvg as <-. rewrite Hid in Hd. destruct Hor as [(? & _)|[_ Hrec]]; [lia|].
    apply Hgo; [done|done|by apply Hnext|done| |congruence|by intros ? ? ?%elem_of_nil]. by intros args' [= <-].
  - apply Hgo; [done|done| |done|congruence|congruence|].
    + apply Hnext; [done|]. split_and!; [apply Hnow|done|done].
    + intros h' op [= -> ->]%list_elem_of_singleton. eapply (so_delete _ g kv2); [apply lookup_insert_eq|apply Hnow|done|simpl; lia|].
      intros kvh _. right. eexists. split; [apply lookup_insert_eq|]. eexists _, _, _, shards. split; [done|apply lookup_insert_eq].
  - destruct (fo_stage _ _ _ _ _ _ _ _ Hnow) as (Hrec & _ & Hid).
    apply Hgo; [done|done|by apply Hnext|done|congruence| |by intros ? ? ?%elem_of_nil].
    intros args' [= <-] kvh' Hkvh'. rewrite Hkvh in Hkvh'. injection Hkvh' as <-. by rewrite <-Hid.
Qed.

(** ** Starting and ending a change of the configuration *)

Lemma answer_spec ctl num c :
  ctl_answer ctl (Z.of_nat num + 1) c → num < length ctl → ctl !! S num = Some c ∨ ctl !! num = Some c.
Proof.
  unfold ctl_answer, Configs.getConfig. intros H Hlt. destruct (_ && _) eqn:E; apply idx_Ok in H as [_ H].
  - left. by replace (Z.to_nat (Z.of_nat num + 1)) with (S num) in H by lia.
  - right. apply andb_false_iff in E. rewrite !bool_decide_eq_false in E. unfold zlen in *.
    by replace (Z.to_nat (Z.of_nat (length ctl) - 1)) with num in H by lia.
Qed.

Lemma changeConfig_fields kv c kv' r :
  changeConfig_start kv c = Ok (kv', r) →
  let nx := if bool_decide (Num (nextConfig kv) ≤ Num (config kv))%Z then c else nextConfig kv in
  nextConfig kv' = nx ∧ (config kv' = config kv ∧ sk_store kv' = sk_store kv ∧ clientStatusMap kv' = clientStatusMap kv ∧
    sk_gid kv' = sk_gid kv ∧ sk_clientId kv' = sk_clientId kv ∧ sk_seqNum kv' = sk_seqNum kv) ∧
  ∀ old new, r = Some (old, new) → old = config kv ∧ new = nx ∧ (Num nx > Num (config kv))%Z.
Proof.
  unfold changeConfig_start. destruct (bool_decide (Num (nextConfig kv) ≤ Num (config kv))%Z); simpl;
    (destruct (bool_decide (Num _ = Num _)); [by intros [= <- <-]|]); destruct (ConfigInProcessingMap.put _ _) as [m []];
    intros Hrun; res_inv; simplify_eq; split_and!; try done; intros old new [= <- <-]; split_and!; try done; by eapply bool_decide_eq_true_1.
Qed.

Lemma changeConfig_ok st a g kv c kv' r :
  sys_inv st a → sy_kv st !! g = Some kv → ctl_answer (sy_ctl st) (Num (config kv) + 1) c →
  changeConfig_start kv c = Ok (kv', r) →
  bumped kv kv' ∧ sy_ctl st !! Z.to_nat (Num (nextConfig kv')) = Some (nextConfig kv') ∧
  ∀ old new, r = Some (old, new) → old = config kv ∧ sy_ctl st !! S (numOf kv) = Some new.
Proof.
  intros Hi Hkv Hans Hrun. pose proof (si_core _ _ Hi) as Hcore. pose proof (ci_kv _ _ _ Hcore g kv Hkv) as Hok.
  pose proof (ko_num _ _ _ Hok) as Hn. destruct (si_next _ _ Hi g kv Hkv) as [N1 N2]. destruct (ko_wf _ _ _ Hok) as [Wc Wn Ws].
  apply changeConfig_fields in Hrun as (E1 & (E2 & E3 & E4 & E5 & E6 & E7) & Hr). rewrite Hn in Hans.
  assert (∃ e, sy_ctl st !! e = Some c ∧ e ≤ S (numOf kv)) as (e & Hc & He).
  { destruct (answer_spec _ _ _ Hans (ko_len _ _ _ Hok)) as [Hc|Hc]; eexists; (split; [done|]); lia. }
  destruct (co_num _ (ci_ctl _ _ _ Hcore) _ _ Hc) as [Hcn Hcl].
  assert (sy_ctl st !! Z.to_nat (Num (nextConfig kv')) = Some (nextConfig kv') ∧ (Num (nextConfig kv') ≤ Num (config kv) + 1)%Z ∧
    length (Shards (nextConfig kv')) = NShards) as (X1 & X2 & X3).
  { rewrite E1. case_bool_decide; (split_and!; [|lia|done]); [|done]. rewrite Hcn. by rewrite Nat2Z.id. }
  split_and!; [|done|].
  - split; try done; [lia|]. by split; congruence.
  - intros old new [-> [-> Hgt]]%Hr. split; [done|]. rewrite <-E1 in *. by replace (Z.to_nat (Num (nextConfig kv'))) with (S (numOf kv)) in X1 by lia.
Qed.

Lemma migration_nonempty kv old new m h l : getMigrationFromGroupShardsMap kv old new = Ok m → m !! h = Some l → l ≠ [].
Proof.
  intros H. pose proof (foldM_pres (addMigration kv old) (λ m m', (∀ h l, m !! h = Some l → l ≠ []) → ∀ h l, m' !! h = Some l → l ≠ [])) as Hp.
  eapply Hp; [done|intros b1 b2 b3 H1 H2 H0; exact (H2 (H1 H0))| |exact H|by intros ? ?; rewrite lookup_empty].
  intros m1 s m2 Hadd Hne h' l' Hl'. unfold addMigration in Hadd. res_inv. case_bool_decide; res_inv; [|by eapply Hne].
  apply lookup_insert_Some in Hl' as [[_ <-]|[_ Hl']]; [by destruct (default [] _)|by eapply Hne].
Qed.

(** The task with which a migration starts. *)
Lemma change_task_ok st a g kv kv' new m st' :
  sys_inv st a → sy_kv st !! g = Some kv → bumped kv kv' → sy_ctl st !! S (numOf kv) = Some new → sy_ctl st' = sy_ctl st →
  (if bool_decide (Num (config kv) > 0)%Z then getMigrationFromGroupShardsMap kv' (config kv) new else Ok ∅) = Ok m →
  task_ok st' a g kv' (TMigrate (config kv) new ((λ shards, (shards, FetchNew)) <$> m)).
Proof.
  intros Hi Hkv Hb Hnew Hctl Hm. pose proof (si_core _ _ Hi) as Hcore. pose proof (ci_kv _ _ _ Hcore g kv Hkv) as Hok.
  destruct (co_num _ (ci_ctl _ _ _ Hcore) _ _ Hnew) as [_ Hlen]. assert (Hn : numOf kv' = numOf kv) by (unfold numOf; by rewrite (bu_config _ _ Hb)).
  assert (Hown : ∀ s, own (sy_ctl st) (S (numOf kv)) s = Shards new !! s) by (intros s; unfold own; by rewrite Hnew).
  assert (Hhas : ∀ s, has kv' s ↔ has kv s) by (intros s; unfold has; by rewrite (bu_config _ _ Hb), (bu_gid _ _ Hb)).
  assert (Hspec : ∀ h shards, m !! h = Some shards → h ≠ g ∧ h ≠ 0%Z ∧ ∀ s, s ∈ shards → in_range s ∧
     Shards (config kv) !! Z.to_nat s = Some h ∧ Shards new !! Z.to_nat s = Some g).
  { intros h shards E. case_bool_decide; [|injection Hm as <-; by rewrite lookup_empty in E].
    destruct (migration_shards kv' (config kv) new (swf_config _ (ko_wf _ _ _ Hok)) Hlen) as (m' & Hm' & Hspec). rewrite Hm in Hm'. injection Hm' as <-.
    specialize (Hspec h). rewrite E in Hspec. simpl in Hspec. rewrite (bu_gid _ _ Hb), (ko_gid _ _ _ Hok) in Hspec.
    assert (∃ s, s ∈ shards) as [s Hs] by (destruct shards as [|s l]; [by eapply migration_nonempty in Hm|exists s; left]).
    pose proof (proj1 (Hspec s) Hs). split_and!; [tauto|tauto|]. intros s' Hs'. pose proof (proj1 (Hspec s') Hs'). tauto. }
  simpl. rewrite Hctl, Hn. split_and!; [done|..].
  - intros h x. rewrite lookup_fmap. destruct (m !! h) as [shards|] eqn:E; [|done]. intros [= <-]. simpl.
    destruct (Hspec h shards E) as (Hg & Hz & Hs). split; [done| |done]. rewrite Hctl, Hn. intros s Hin. destruct (Hs s Hin) as (Hr & H1 & H2).
    split_and!; [done| |by rewrite Hown]. assert (Hlt : Z.to_nat s < NShards) by (unfold in_range in Hr; lia).
    destruct (ko_shards _ _ _ Hok _ Hlt) as [<-|(Hh & _)]; [done|]. unfold has in Hh. rewrite Hh, (ko_gid _ _ _ Hok) in H1. congruence.
  - intros s h Ho Hg Hz Ho'. assert (Hs : s < NShards) by (eapply own_shard_lt; [apply Hcore|done]). rewrite Hhas.
    destruct (decide (has kv s)) as [|Hnot]; [by left|right]. destruct (ko_shards _ _ _ Hok s Hs) as [E|(? & _)]; [|done]. rewrite Ho in E.
    case_bool_decide as Hpos.
    + destruct (migration_shards kv' (config kv) new (swf_config _ (ko_wf _ _ _ Hok)) Hlen) as (m' & Hm' & Hx). rewrite Hm in Hm'. injection Hm' as <-.
      assert (Z.of_nat s ∈ default [] (m !! h)) as Hin.
      { apply Hx. rewrite Nat2Z.id, (bu_gid _ _ Hb), (ko_gid _ _ _ Hok), <-Hown. split_and!; try done. unfold in_range. lia. }
      destruct (m !! h) as [l|] eqn:El; [|by apply elem_of_nil in Hin]. exists (l, FetchNew). by rewrite lookup_fmap, El.
    + pose proof (ko_num _ _ _ Hok). assert (numOf kv = 0) as E0 by lia. rewrite E0 in Ho. by apply (co_first _ (ci_ctl _ _ _ Hcore)) in Ho.
  - intros h1 h2 x1 x2. rewrite lookup_fmap. destruct (m !! h1); [|done]. intros [= <-] _ [].
Qed.

Lemma idle_alive st kv kv' t' : still_alive st kv kv' TIdle t'.
Proof. split; [intros args (? & ? & ? & ? & ? & [=] & _)|intros h args (? & ? & ? & ? & [=] & _)|intros args [=]]. Qed.

Lemma poll_inv st a g kv c kv' :
  sys_inv st a → sy_kv st !! g = Some kv → sy_task st !! g = Some TIdle → ctl_answer (sy_ctl st) (Num (config kv) + 1) c →
  changeConfig_start kv c = Ok (kv', None) → sys_inv (with_kv st g kv') a.
Proof.
  intros Hi Hkv Ht Hans Hrun. destruct (changeConfig_ok _ _ _ _ _ _ _ Hi Hkv Hans Hrun) as (Hb & Hnx & _).
  rewrite (with_kv_moved st g kv' TIdle Ht). eapply goroutine_inv; [done|done|exact Ht|done|done|done|apply idle_alive|by intros ? ? ?%elem_of_nil].
Qed.

Lemma change_inv st a g kv c kv' old new m :
  sys_inv st a → sy_kv st !! g = Some kv → sy_task st !! g = Some TIdle → ctl_answer (sy_ctl st) (Num (config kv) + 1) c →
  changeConfig_start kv c = Ok (kv', Some (old, new)) →
  (if bool_decide (Num old > 0)%Z then getMigrationFromGroupShardsMap kv' old new else Ok ∅) = Ok m →
  sys_inv (moved st g kv' (TMigrate old new ((λ shards, (shards, FetchNew)) <$> m)) []) a.
Proof.
  intros Hi Hkv Ht Hans Hrun Hm. destruct (changeConfig_ok _ _ _ _ _ _ _ Hi Hkv Hans Hrun) as (Hb & Hnx & Hr).
  destruct (Hr old new eq_refl) as [-> Hnew].
  eapply goroutine_inv; [done|done|exact Ht|done|done|by eapply change_task_ok|apply idle_alive|by intros ? ? ?%elem_of_nil].
Qed.

Lemma set_inv st a g kv kv' old new fs args :
  sys_inv st a → sy_kv st !! g = Some kv → sy_task st !! g = Some (TMigrate old new fs) →
  (∀ h x, fs !! h = Some x → snd x = FetchDone) → seq_left kv → changeConfig_end kv new = (kv', args) →
  sys_inv (moved st g kv' (TSetConfig args) [(g, mkSkOp SET_CONFIG (KSetConfig args))]) a.
Proof.
  intros Hi Hkv Ht Hdone Hsl Hend. destruct (migrate_ok st a Hi g kv Hkv old new fs Ht) as (M1 & M2 & M3 & _).
  destruct (nextSeq_bumped st a Hi g kv Hkv Hsl) as (kv1 & Hnx & Hb & Hnc & Hsq). unfold changeConfig_end in Hend. rewrite Hnx in Hend.
  injection Hend as <- <-. destruct (si_next _ _ Hi g kv Hkv) as [N1 _]. destruct (bumped_view kv kv1 Hb) as [Hsv Hown].
  eapply goroutine_inv; [done|done|exact Ht|done|by rewrite Hnc| | |].
  - simpl. split; [done|left]. rewrite (sv_num _ _ Hsv), (sv_id _ _ Hsv), Hown. pose proof (si_seq _ _ Hi g g kv kv Hkv Hkv).
    split_and!; [lia|lia|done|]. intros s h. rewrite (sv_num _ _ Hsv). intros Ho Hg Hz Ho'. apply (sv_has _ _ Hsv).
    destruct (M3 s h Ho Hg Hz Ho') as [?|([shards f] & Hx & Hs)]; [done|]. pose proof (Hdone h _ Hx) as Hf. simpl in Hf. subst f.
    pose proof (fo_stage _ _ _ _ _ _ _ _ (M2 h _ Hx)) as Hrec. rewrite <-(Nat2Z.id s). by apply Hrec.
  - split; [|intros h args (o & n & fs' & sh & [= <- <- <-] & Hx); by apply Hdone in Hx|intros args [=]].
    intros args (o & n & fs' & h & sh & [= <- <- <-] & Hx). by apply Hdone in Hx.
  - intros h op [= -> ->]%list_elem_of_singleton. eapply (so_set _ g kv1); [apply lookup_insert_eq|done|]. right. eexists. split; [apply lookup_insert_eq|done].
Qed.

Lemma set_done_inv st a g kv args :
  sys_inv st a → sy_kv st !! g = Some kv → sy_task st !! g = Some (TSetConfig args) →
  (sca_SeqNum args ≤ sk_lastSeq kv (sca_ClientId args))%Z →
  sys_inv (mkSys (sy_ctl st) (sy_kv st) (<[g := TIdle]> (sy_task st)) (sy_sent st)) a.
Proof.
  intros Hi Hkv Ht Hd. destruct (si_task _ _ Hi g kv Hkv) as (t & Ht' & Htok). rewrite Ht in Ht'. injection Ht' as <-. destruct Htok as [Hid _].
  assert (mkSys (sy_ctl st) (sy_kv st) (<[g := TIdle]> (sy_task st)) (sy_sent st) = moved st g kv TIdle []) as ->
    by (unfold moved; by rewrite (insert_id (sy_kv st)), app_nil_r).
  eapply goroutine_inv; [done|done|exact Ht|by eapply bumped_refl|by eapply si_next|done| |by intros ? ? ?%elem_of_nil].
  split; [intros args' (? & ? & ? & ? & ? & [=] & _)|intros h args' (? & ? & ? & ? & [=] & _)|]. intros args' [= <-]. right. by rewrite <-Hid.
Qed.

(** ** A new configuration of the controller *)

Lemma carries_ctl st ctl a h kv shards data table :
  carries st a h kv shards data table → carries (mkSys ctl (sy_kv st) (sy_task st) (sy_sent st)) a h kv shards data table.
Proof. intros []. by split. Qed.

Lemma config_task_ok st a c g kv t :
  sys_inv st a → sy_kv st !! g = Some kv → task_ok st a g kv t →
  task_ok (mkSys (sy_ctl st ++ [c]) (sy_kv st) (sy_task st) (sy_sent st)) a g kv t.
Proof.
  intros Hi Hkv Hok. pose proof (ko_len _ _ _ (ci_kv _ _ _ (si_core _ _ Hi) g kv Hkv)) as Hlen.
  destruct t as [|old new fs|args]; [done|..]; simpl in *.
  - destruct Hok as (H1 & H2 & H3 & H4). pose proof (lookup_lt_Some _ _ _ H1). split_and!; [by apply lookup_app_l_Some| | |done].
    + intros h x Hx. destruct (H2 h x Hx) as [F1 F2 F3]. split; [done| |].
      * simpl. intros s Hs. destruct (F2 s Hs) as (? & ? & ?). split_and!; [done|by apply own_old_Some..].
      * destruct (snd x) as [|args|reply|args| |args|]; try done; [by apply carries_ctl|].
        destruct F3 as [? [(? & ? & ?)|?]]; (split; [done|]); [left|by right]. split_and!; [done|done|by apply carries_ctl].
    + intros s h. rewrite !own_old by done. apply H3.
  - destruct Hok as [? [(? & ? & Hc & Hcm)|?]]; (split; [done|]); [left|by right]. pose proof (lookup_lt_Some _ _ _ Hc).
    split_and!; [done|done|by apply lookup_app_l_Some|]. intros s h. rewrite !own_old by done. apply Hcm.
Qed.

Lemma config_inv st a c :
  sys_inv st a → length (Shards c) = NShards →
  (∀ last s g, list.last (sy_ctl st) = Some last → Shards last !! s = Some g → g ≠ 0%Z → Shards c !! s ≠ Some 0%Z) →
  sys_inv (mkSys (Configs.append (sy_ctl st) c) (sy_kv st) (sy_task st) (sy_sent st)) a.
Proof.
  intros Hi Hlen Hstay. pose proof Hi as [H1 H2 H3 H4 H5 H6 H7]. unfold Configs.append. split; simpl; try done.
  - by apply core_config.
  - intros g kv Hk. destruct (H2 g kv Hk) as (t & Ht & Hok). exists t. split; [done|]. by apply config_task_ok.
  - intros h op Hs%H3. destruct Hs; econstructor; done.
  - intros g kv Hk. destruct (H6 g kv Hk) as [? ?]. split; [by apply lookup_app_l_Some|done].
  - by destruct (sy_ctl st).
Qed.

(** ** The refinement *)

Definition abs_move (a : Abs) (ev : option Event) (a' : Abs) : Prop :=
  match ev with Some e => abs_step a e a' | None => a' = a end.

(** A read by a group that has the shard. *)
Lemma read_abs st a g kv args reply :
  sys_inv st a → sy_kv st !! g = Some kv → skGet_reply kv args true = Ok reply → skg_Err reply ≠ skErrWrongGroup →
  abs_step a (ERead args reply) a.
Proof.
  intros Hi Hkv Hrep Herr. pose proof (ci_kv _ _ _ (si_core _ _ Hi) g kv Hkv) as Hok. destruct (ko_wf _ _ _ Hok) as [Wc _ Ws].
  pose proof (key2shard_range (ga_Key args)) as Hr. destruct (range_idx _ _ Wc Hr) as (owner & Ho & Hlo), (range_idx _ _ Ws Hr) as (d & Hd & Hld).
  unfold skGet_reply, sk_get, wrongGroup in Hrep. rewrite Ho in Hrep. simpl in Hrep. case_bool_decide as Hw; [simpl in Hrep; simplify_eq; done|].
  assert (Hh : has kv (shard_of (ga_Key args))) by (unfold has, shard_of; by rewrite Hlo, Hw).
  destruct (has_ok _ _ _ (si_core _ _ Hi) g kv _ Hkv Hh) as [Hdata _]. specialize (Hdata (ga_Key args) eq_refl). unfold sk_lookup in Hdata. rewrite Hld in Hdata. simpl in Hdata.
  rewrite Hd in Hrep. simpl in Hrep. pose proof (abs_read a args) as Habs. rewrite <-Hdata in Habs. destruct (d !! ga_Key args); simpl in Hrep; by injection Hrep as <-.
Qed.

Lemma shard_step_inv st a ev st' : sys_inv st a → sys_step st ev st' → ∃ a', abs_move a ev a' ∧ sys_inv st' a'.
Proof.
  intros Hi Hstep. destruct Hstep as [g kv c kv' Hkv Ht Hans Hrun|g kv c kv' old new m Hkv Ht Hans Hrun Hm|g kv kv' old new fs h shards f f' out Hkv Ht Hf Hs Hp
    |g kv kv' old new fs args Hkv Ht Hd Hsl He|g kv args Hkv Ht Hd|g kv kv' op Hin Hkv Hop|g kv kv' isPut args Hkv Hns Hop|g kv kv' args Hkv Hns Hop
    |g kv args reply Hkv Hrep Herr|c Hlen Hstay].
  - exists a. split; [done|]. by eapply poll_inv.
  - exists a. split; [done|]. pose proof (change_inv _ _ _ _ _ _ _ _ _ Hi Hkv Ht Hans Hrun Hm) as H. unfold moved in H. by rewrite app_nil_r in H.
  - exists a. split; [done|]. by eapply fetch_step_inv.
  - exists a. split; [done|]. by eapply set_inv.
  - exists a. split; [done|]. by eapply set_done_inv.
  - exists a. split; [done|]. by eapply apply_inv.
  - pose proof (client_write_inv _ _ _ _ _ _ _ Hi Hkv Hns Hop) as H. destruct (decide (executes kv args)); [by eexists|by exists a].
  - exists a. split; [done|]. by eapply client_get_inv.
  - exists a. split; [by eapply read_abs|done].
  - exists a. split; [done|]. by apply config_inv.
Qed.

Lemma initStore_lookup kv key : sk_store kv = initStore → sk_lookup kv key = None.
Proof.
  intros Hs. unfold sk_lookup. rewrite Hs. unfold initStore. destruct (replicate NShards ∅ !! _) as [d|] eqn:E; [|done].
  apply lookup_replicate in E as [-> _]. apply lookup_empty.
Qed.

Lemma own_init e s g : own Configs.init e s = Some g → e = 0 ∧ g = 0%Z.
Proof.
  unfold own, Configs.init. destruct e as [|e]; [|done]. intros E. split; [done|].
  change (replicate NShards 0%Z !! s = Some g) in E. by apply lookup_replicate in E as [-> _].
Qed.

Lemma initial_core ctl kvs :
  ctl = Configs.init → (∀ g kv, kvs !! g = Some kv → started g kv) → core_inv ctl kvs initAbs.
Proof.
  intros -> Hst.
  assert (Hno : ∀ s e, ¬ taken Configs.init kvs s e) by (intros s e (g & kv & Ho & Hz & _); by apply own_init in Ho as [_ ?]).
  split.
  - split; [|by intros s g [_ ?]%own_init|by intros e s g [_ ->]%own_init ?]. intros [|e] c H; [|done]. injection H as <-. done.
  - intros g kv Hk. destruct (Hst g kv Hk) as (Hg & Hz & Hc & Hn & Hs & Hm & _). assert (numOf kv = 0) as E by (unfold numOf; by rewrite Hc).
    split; [done|done|by split; rewrite ?Hc, ?Hn, ?Hs|by rewrite E, Hc|rewrite E; simpl; lia| |].
    + intros c. unfold sk_lastSeq. rewrite Hm, lookup_empty. done.
    + intros s Hlt. left. rewrite E, Hc. done.
  - by intros s e h ?%Hno.
  - by intros s e h kv ?%Hno.
  - intros s Hs _. split_and!; [intros; apply lookup_empty|intros; apply lookup_empty|].
    intros g kv key Hk _. apply initStore_lookup. by destruct (Hst g kv Hk) as (_ & _ & _ & _ & ? & _).
Qed.

Lemma initial_inv st : initial st → sys_inv st initAbs.
Proof.
  intros [Hctl Hkv Hids Hsent]. split.
  - apply initial_core; [done|]. intros g kv Hk. by destruct (Hkv g kv Hk).
  - intros g kv Hk. destruct (Hkv g kv Hk) as [_ Ht]. by exists TIdle.
  - rewrite Hsent. by intros h op ?%elem_of_nil.
  - done.
  - intros g h kv kvh Hk Hkh. destruct (Hkv g kv Hk) as [(_ & _ & _ & _ & _ & _ & -> & _) _], (Hkv h kvh Hkh) as [(_ & _ & _ & _ & _ & Hm & _) _].
    unfold sk_lastSeq. by rewrite Hm, lookup_empty.
  - intros g kv Hk. destruct (Hkv g kv Hk) as [(_ & _ & Hc & Hn & _) _]. unfold next_ok. rewrite Hn, Hc, Hctl. done.
  - by rewrite Hctl.
Qed.

Lemma trace_inv st tr st' : initial st → sys_trace st tr st' → ∃ a, abs_trace initAbs tr a ∧ sys_inv st' a.
Proof.
  intros Hinit. induction 1 as [|tr ev st1 st2 Htr (a & Ha & Hi) Hstep].
  - exists initAbs. split; [constructor|by apply initial_inv].
  - destruct (shard_step_inv _ _ _ _ Hi Hstep) as (a' & Hm & Hi'). exists a'. split; [|done].
    destruct ev as [e|]; simpl in *; [by eapply atrace_step|]. subst. by rewrite app_nil_r.
Qed.

(** In the abstract service the sequence numbers of a client on a shard grow. *)
Lemma abs_trace_seq tr a :
  abs_trace initAbs tr a →
  (∀ i p args, tr !! i = Some (EWrite p args) → (paa_SeqNum args ≤ abs_lastSeq a (shard_of (paa_Key args)) (paa_ClientId args))%Z) ∧
  ∀ i j p1 p2 args1 args2, i < j → tr !! i = Some (EWrite p1 args1) → tr !! j = Some (EWrite p2 args2) →
    paa_ClientId args1 = paa_ClientId args2 → shard_of (paa_Key args1) = shard_of (paa_Key args2) →
    (paa_SeqNum args1 < paa_SeqNum args2)%Z.
Proof.
  induction 1 as [|tr ev a1 a2 Htr [IH1 IH2] Hstep]; [done|]. split.
  - intros i p args [Hi|[_ Hi]]%lookup_app_Some.
    + specialize (IH1 i p args Hi). destruct Hstep as [p' args' Hlt|]; [|done]. unfold abs_lastSeq in *; simpl.
      destruct (decide ((shard_of (paa_Key args'), paa_ClientId args') = (shard_of (paa_Key args), paa_ClientId args))) as [E|Hne].
      * rewrite E, lookup_insert_eq. simpl. injection E as E1 E2. rewrite E1, E2 in Hlt. lia.
      * by rewrite lookup_insert_ne.
    + apply list_lookup_singleton_Some in Hi as [_ ->]. inversion Hstep; subst. unfold abs_lastSeq; simpl. rewrite lookup_insert_eq. done.
  - intros i j p1 p2 args1 args2 Hij Hi [Hj|[Hge Hj]]%lookup_app_Some Hc Hs.
    + rewrite lookup_app_l in Hi by (apply lookup_lt_Some in Hj; lia). by eapply (IH2 i j).
    + apply list_lookup_singleton_Some in Hj as [Hj ->]. rewrite lookup_app_l in Hi by lia. specialize (IH1 i p1 args1 Hi).
      inversion Hstep; subst. rewrite Hc, Hs in IH1. lia.
Qed.
