(* ===== verification/ShardReplicas.v ===== *)
(** * Groups of replicas (src/shardkv/server.go)

    [ShardSystem] takes a group to be one replica that polls the controller
    and answers every request.  Here a group is a log that its Raft servers
    agree on, and its servers: each has applied a prefix of the log, has its
    own [nextConfig], [clientId], [seqNum] and [configInPrecessingMap], and
    its own goroutine of [changeConfig].  Any server that believes it is the
    leader polls; a server that is deposed in the middle of a migration goes on
    with it; any server may answer a request that it has applied; servers are
    restarted, with a new client id and an empty state, and apply the log
    again.  Requests that were sent may enter a log at any later time and more
    than once.  Snapshots are left out: a server that is restarted has its
    whole log.

    A run is [steady] for [act], one server of every group, if only that
    server polls and answers the requests of migrations, and is not restarted,
    and no configuration takes a shard from a group without giving it to
    another one.  A steady run is a run of [ShardSystem] with the states of the
    acting servers ([steady_simulates]), so the sharded service is one map.
    Without steadiness it is not: in [two_owners] of ShardReplicasWitness the leader of
    a group changes during a migration. *)

From stdpp Require Import base list gmap sets strings relations.
From Stdlib Require Import ZArith Lia.
From S2P Require Import Prelude RaftCore ShardConfig KVRaft ShardCtrler ShardKV ShardSystem ShardTransfer ShardOps ShardRefine.

(** ** The world *)

Record Replica : Type := mkReplica {
  re_kv : ShardKV;
  re_applied : nat;  (* entries of the log that were applied *)
  re_task : Task;    (* its goroutine of changeConfig *)
  re_leads : bool;   (* what its Raft answers to GetState *)
}.

Record Group : Type := mkGroup {
  gr_log : list SkOp;
  gr_reps : list Replica;
}.

Record World : Type := mkWorld {
  wo_ctl : list Config;
  wo_groups : gmap Z Group;
  wo_sent : list (Z * SkOp);
}.

Definition replica (W : World) (g : Z) (i : nat) : option Replica :=
  G ← wo_groups W !! g; gr_reps G !! i.

Definition set_replica (W : World) (g : Z) (i : nat) (re : Replica) : World :=
  mkWorld (wo_ctl W) (alter (λ G, mkGroup (gr_log G) (<[i := re]> (gr_reps G))) g (wo_groups W)) (wo_sent W).

Definition re_with_kv (re : Replica) (kv : ShardKV) : Replica := mkReplica kv (re_applied re) (re_task re) (re_leads re).

Definition re_with_task (re : Replica) (kv : ShardKV) (t : Task) : Replica := mkReplica kv (re_applied re) t (re_leads re).

Definition log_of (W : World) (g : Z) : list SkOp := default [] (gr_log <$> wo_groups W !! g).

(** The group's Raft agrees on one more entry. *)
Definition commit (W : World) (g : Z) (op : SkOp) : World :=
  mkWorld (wo_ctl W) (alter (λ G, mkGroup (gr_log G ++ [op]) (gr_reps G)) g (wo_groups W)) (wo_sent W).

Definition send (W : World) (out : list (Z * SkOp)) : World := mkWorld (wo_ctl W) (wo_groups W) (wo_sent W ++ out).

(** The client ids that the servers drew. *)
Definition server_id (W : World) (c : Z) : Prop := ∃ g i re, replica W g i = Some re ∧ sk_clientId (re_kv re) = c.

(** Requests of clients, with the id of the client. *)
Inductive client_op (c : Z) : SkOp → Prop :=
| client_write (isPut : bool) args : paa_ClientId args = c → client_op c (mkSkOp (if isPut then PUT else APPEND) (KPutAppend args))
| client_get args : ga_ClientId args = c → client_op c (mkSkOp GET (KGet args)).

(** What clients notice when a replica applies a request. *)
Definition op_event (kv : ShardKV) (op : SkOp) : option Event :=
  match sk_Args op with
  | KPutAppend args => if decide (executes kv args) then Some (EWrite (bool_decide (sk_Type op = PUT)) args) else None
  | _ => None
  end.

(** Who acts in a step: the server [i] of group [g]; where a reply is used,
    also the server that gave it. *)
Inductive Label : Type :=
| LLead (g : Z) (i : nat)
| LPoll (g : Z) (i : nat)
| LFetch (g : Z) (i : nat) (h : Z) (j : nat)
| LSet (g : Z) (i : nat)
| LSetDone (g : Z) (i j : nat)
| LCommit (g : Z)
| LApply (g : Z) (i : nat) (ev : option Event)
| LRead (g : Z) (i : nat) (ev : Event)
| LRestart (g : Z) (i : nat)
| LConfig (last c : Config).

Inductive world_step (W : World) : Label → World → Prop :=
(* elections *)
| world_lead g i re leads :
    replica W g i = Some re →
    world_step W (LLead g i) (set_replica W g i (mkReplica (re_kv re) (re_applied re) (re_task re) leads))
(* changeConfig finds nothing to do *)
| world_poll g i re c kv' :
    replica W g i = Some re → re_leads re = true → re_task re = TIdle →
    ctl_answer (wo_ctl W) (Num (config (re_kv re)) + 1) c → changeConfig_start (re_kv re) c = Ok (kv', None) →
    world_step W (LPoll g i) (set_replica W g i (re_with_kv re kv'))
(* changeConfig starts a migration *)
| world_change g i re c kv' old new m :
    replica W g i = Some re → re_leads re = true → re_task re = TIdle →
    ctl_answer (wo_ctl W) (Num (config (re_kv re)) + 1) c → changeConfig_start (re_kv re) c = Ok (kv', Some (old, new)) →
    (if bool_decide (Num old > 0)%Z then getMigrationFromGroupShardsMap kv' old new else Ok ∅) = Ok m →
    world_step W (LPoll g i) (set_replica W g i (re_with_task re kv' (TMigrate old new ((λ shards, (shards, FetchNew)) <$> m))))
(* a goroutine of the migration; server [j] of group [r] answers, if the step takes an answer *)
| world_fetch g i re kv' old new fs h shards f f' out r j rej :
    replica W g i = Some re → re_task re = TMigrate old new fs → fs !! h = Some (shards, f) →
    replica W r j = Some rej → fetch_step {[ r := re_kv rej ]} g h new shards (re_kv re) f kv' f' out →
    (is_put f' → ∀ h' x, fs !! h' = Some x → ¬ is_put (snd x)) →
    world_step W (LFetch g i r j)
      (send (set_replica W g i (re_with_task re kv' (TMigrate old new (<[h := (shards, f')]> fs)))) out)
(* the migration is complete: callSetConfigToGroup *)
| world_set g i re kv' old new fs args :
    replica W g i = Some re → re_task re = TMigrate old new fs → (∀ h x, fs !! h = Some x → snd x = FetchDone) →
    seq_left (re_kv re) → changeConfig_end (re_kv re) new = (kv', args) →
    world_step W (LSet g i)
      (send (set_replica W g i (re_with_task re kv' (TSetConfig args))) [(g, mkSkOp SET_CONFIG (KSetConfig args))])
| world_set_done g i re args j rej :
    replica W g i = Some re → re_task re = TSetConfig args → replica W g j = Some rej →
    (sca_SeqNum args ≤ sk_lastSeq (re_kv rej) (sca_ClientId args))%Z →
    world_step W (LSetDone g i j) (set_replica W g i (re_with_task re (re_kv re) TIdle))
(* a request gets into the log of its group; GetShards waits for the configuration first *)
| world_commit g i re op :
    replica W g i = Some re → re_leads re = true → (g, op) ∈ wo_sent W →
    (∀ args, sk_Args op = KGetShards args → (gsa_ConfigNum args ≤ Num (config (re_kv re)))%Z) →
    world_step W (LCommit g) (commit W g op)
| world_commit_client g i re op c :
    replica W g i = Some re → re_leads re = true → client_op c op → ¬ server_id W c →
    world_step W (LCommit g) (commit W g op)
(* the applier of a server *)
| world_apply g i re op kv' :
    replica W g i = Some re → log_of W g !! re_applied re = Some op → sk_applyOp (re_kv re) op = Ok kv' →
    world_step W (LApply g i (op_event (re_kv re) op))
      (set_replica W g i (mkReplica kv' (S (re_applied re)) (re_task re) (re_leads re)))
(* a server answers a Get that it has applied *)
| world_read g i re args reply :
    replica W g i = Some re → (ga_SeqNum args ≤ sk_lastSeq (re_kv re) (ga_ClientId args))%Z →
    skGet_reply (re_kv re) args true = Ok reply → skg_Err reply ≠ skErrWrongGroup →
    world_step W (LRead g i (ERead args reply)) W
(* a server crashes and is started again *)
| world_restart g i re kv' :
    replica W g i = Some re → started g kv' → ¬ server_id W (sk_clientId kv') →
    world_step W (LRestart g i) (set_replica W g i (mkReplica kv' 0 TIdle false))
(* the controller's history grows *)
| world_config last c :
    list.last (wo_ctl W) = Some last → length (Shards c) = NShards →
    world_step W (LConfig last c) (mkWorld (Configs.append (wo_ctl W) c) (wo_groups W) (wo_sent W)).

Inductive world_trace (W : World) : list Label → World → Prop :=
| wtrace_nil : world_trace W [] W
| wtrace_step ls l W1 W2 : world_trace W ls W1 → world_step W1 l W2 → world_trace W (ls ++ [l]) W2.

Record initial_world (W : World) : Prop := {
  iw_ctl : wo_ctl W = Configs.init;
  iw_reps : ∀ g i re, replica W g i = Some re → started g (re_kv re) ∧ re_applied re = 0 ∧ re_task re = TIdle;
  iw_ids : ∀ g g' i i' re re', replica W g i = Some re → replica W g' i' = Some re' →
    sk_clientId (re_kv re) = sk_clientId (re_kv re') → g = g' ∧ i = i';
  iw_logs : ∀ g G, wo_groups W !! g = Some G → gr_log G = [];
  iw_sent : wo_sent W = [];
}.

(** ** Steady runs *)

Section Steady.
Context (act : Z → nat).

Definition steady (l : Label) : Prop :=
  match l with
  | LPoll g i | LSet g i => i = act g
  | LFetch g i h j => i = act g ∧ j = act h
  | LSetDone g i j => i = act g ∧ j = act g
  | LRestart g i => i ≠ act g
  | LConfig last c => ∀ s g, Shards last !! s = Some g → g ≠ 0%Z → Shards c !! s ≠ Some 0%Z
  | LLead _ _ | LCommit _ | LApply _ _ _ | LRead _ _ _ => True
  end.

Definition acting (W : World) (g : Z) : option Replica := replica W g (act g).

(** What clients notice of the acting servers. *)
Definition label_event (l : Label) : option Event :=
  match l with
  | LApply g i ev => if decide (i = act g) then ev else None
  | LRead g i ev => if decide (i = act g) then Some ev else None
  | _ => None
  end.

Definition acting_events (ls : list Label) : list Event := omap label_event ls.

(** ** The acting servers are a system *)

Record projects (W : World) (st : Sys) : Prop := {
  pr_ctl : sy_ctl st = wo_ctl W;
  pr_kv : ∀ g, sy_kv st !! g = re_kv <$> acting W g;
  pr_task : ∀ g, sy_task st !! g = re_task <$> acting W g;
  pr_sent : sy_sent st = wo_sent W;
}.

Definition migration_op (op : SkOp) : Prop := match sk_Args op with KPutAppend _ | KGet _ => False | _ => True end.

(** The log of a group holds requests of its clients and of migrations. *)
Record logs_ok (W : World) (st : Sys) : Prop := {
  lo_sent : ∀ g op, (g, op) ∈ wo_sent W → migration_op op;
  lo_log : ∀ g op, op ∈ log_of W g → (g, op) ∈ wo_sent W ∨ ∃ c, client_op c op ∧ not_server st c;
}.

Lemma replica_set W g i re0 re g' i' :
  replica W g i = Some re0 →
  replica (set_replica W g i re) g' i' = if decide (g' = g ∧ i' = i) then Some re else replica W g' i'.
Proof.
  unfold replica, set_replica. simpl. intros H. destruct (decide (g' = g)) as [->|Hne].
  - rewrite lookup_alter_eq. destruct (wo_groups W !! g) as [G|]; [|done]. simpl in *. destruct (decide (i' = i)) as [->|Hi].
    + rewrite decide_True by done. apply list_lookup_insert_eq. by eapply lookup_lt_Some.
    + rewrite decide_False by tauto. by apply list_lookup_insert_ne.
  - rewrite lookup_alter_ne by done. by rewrite decide_False by tauto.
Qed.

Lemma acting_set W i g re0 re :
  replica W g i = Some re0 → i = act g → ∀ g', acting (set_replica W g i re) g' = if decide (g' = g) then Some re else acting W g'.
Proof.
  intros H -> g'. unfold acting. rewrite (replica_set _ _ _ _ _ _ _ H). destruct (decide (g' = g)) as [->|]; [by rewrite decide_True|].
  by rewrite decide_False by tauto.
Qed.

Lemma acting_set_other W i g re0 re g' :
  replica W g i = Some re0 → i ≠ act g → acting (set_replica W g i re) g' = acting W g'.
Proof. intros H Hi. unfold acting. rewrite (replica_set _ _ _ _ _ _ _ H). rewrite decide_False; [done|]. intros [-> ?]. congruence. Qed.

Lemma log_set W g i re g' : log_of (set_replica W g i re) g' = log_of W g'.
Proof.
  unfold log_of, set_replica. simpl. destruct (decide (g' = g)) as [->|Hne].
  - rewrite lookup_alter_eq. by destruct (wo_groups W !! g).
  - by rewrite lookup_alter_ne.
Qed.

Lemma replica_commit W g op g' i : replica (commit W g op) g' i = replica W g' i.
Proof.
  unfold replica, commit. simpl. destruct (decide (g' = g)) as [->|Hne].
  - rewrite lookup_alter_eq. by destruct (wo_groups W !! g).
  - by rewrite lookup_alter_ne.
Qed.

Lemma log_commit W g op g' op' : op' ∈ log_of (commit W g op) g' → op' ∈ log_of W g' ∨ g' = g ∧ op' = op.
Proof.
  unfold log_of, commit. simpl. destruct (decide (g' = g)) as [->|Hne].
  - rewrite lookup_alter_eq. destruct (wo_groups W !! g); simpl; [|by intros ?%elem_of_nil].
    intros [?|Hin]%elem_of_app; [by left|right]. by apply list_elem_of_singleton in Hin.
  - rewrite lookup_alter_ne by done. by left.
Qed.

(** One acting server moves. *)
Lemma projects_set W st g i re0 re out :
  projects W st → replica W g i = Some re0 → i = act g →
  projects (send (set_replica W g i re) out)
    (mkSys (sy_ctl st) (<[g := re_kv re]> (sy_kv st)) (<[g := re_task re]> (sy_task st)) (sy_sent st ++ out)).
Proof.
  intros [P1 P2 P3 P4] H Hi. pose proof (acting_set W i g re0 re H Hi) as Ha. split; simpl; [done|..|by rewrite P4].
  - intros g'. change (acting (send ?w out) g') with (acting w g'). rewrite Ha. destruct (decide (g' = g)) as [->|].
    + apply lookup_insert_eq.
    + rewrite lookup_insert_ne by done. apply P2.
  - intros g'. change (acting (send ?w out) g') with (acting w g'). rewrite Ha. destruct (decide (g' = g)) as [->|].
    + apply lookup_insert_eq.
    + rewrite lookup_insert_ne by done. apply P3.
Qed.

(** It sends nothing. *)
Lemma projects_set_quiet W st g i re0 re :
  projects W st → replica W g i = Some re0 → i = act g →
  projects (set_replica W g i re)
    (mkSys (sy_ctl st) (<[g := re_kv re]> (sy_kv st)) (<[g := re_task re]> (sy_task st)) (sy_sent st)).
Proof.
  intros HP H Hi. pose proof (projects_set W st g i re0 re [] HP H Hi) as [Q1 Q2 Q3 Q4]. split; [done|done|done|].
  simpl in *. by rewrite !app_nil_r in Q4.
Qed.

(** Nobody that acts moves. *)
Lemma projects_same W st W' :
  projects W st → wo_ctl W' = wo_ctl W → wo_sent W' = wo_sent W →
  (∀ g, re_kv <$> acting W' g = re_kv <$> acting W g) → (∀ g, re_task <$> acting W' g = re_task <$> acting W g) → projects W' st.
Proof.
  intros [P1 P2 P3 P4] E1 E2 E3 E4. split; [by rewrite E1|..|by rewrite E2].
  - intros g. by rewrite E3, P2.
  - intros g. by rewrite E4, P3.
Qed.

Lemma acting_kv W st g i re : projects W st → replica W g i = Some re → i = act g → sy_kv st !! g = Some (re_kv re) ∧ sy_task st !! g = Some (re_task re).
Proof. intros [_ P2 P3 _] H ->. rewrite P2, P3. unfold acting. by rewrite H. Qed.

(** The reply of an acting server is one of the system. *)
Lemma fetch_step_acting (kvs : gmap Z ShardKV) r kvr g h new shards kv f kv' f' out :
  kvs !! r = Some kvr → fetch_step {[ r := kvr ]} g h new shards kv f kv' f' out → fetch_step kvs g h new shards kv f kv' f' out.
Proof.
  intros Hr Hs. assert (Hl : ∀ x y, ({[ r := kvr ]} : gmap Z ShardKV) !! x = Some y → kvs !! x = Some y)
    by (intros x y [<- <-]%lookup_singleton_Some; done).
  destruct Hs; econstructor; eauto.
Qed.

(** The ids of the acting servers stay. *)
Definition same_ids (st st' : Sys) : Prop :=
  ∀ g kv', sy_kv st' !! g = Some kv' → ∃ kv, sy_kv st !! g = Some kv ∧ sk_clientId kv' = sk_clientId kv.

Lemma same_ids_insert st g kv kv' ctl tasks sent :
  sy_kv st !! g = Some kv → sk_clientId kv' = sk_clientId kv → same_ids st (mkSys ctl (<[g := kv']> (sy_kv st)) tasks sent).
Proof.
  intros Hk Hid g1 kv1 H. simpl in H. apply lookup_insert_Some in H as [[<- <-]|[_ H]]; [by exists kv|by exists kv1].
Qed.

Lemma same_ids_server st st' c : same_ids st st' → not_server st c → not_server st' c.
Proof. intros Hs Hn g kv' (kv & Hk & ->)%Hs. by eapply Hn. Qed.

Lemma logs_ok_step W W' st st' :
  logs_ok W st → same_ids st st' → (∀ g op, (g, op) ∈ wo_sent W → (g, op) ∈ wo_sent W') →
  (∀ g op, (g, op) ∈ wo_sent W' → (g, op) ∈ wo_sent W ∨ migration_op op) → (∀ g, log_of W' g = log_of W g) → logs_ok W' st'.
Proof.
  intros [L1 L2] Hid Hs1 Hs2 Hlog. split.
  - intros g op [?|?]%Hs2; [by eapply L1|done].
  - intros g op. rewrite Hlog. intros [?|(c & Hc & Hn)]%L2; [left; by apply Hs1|right]. exists c. split; [done|]. by eapply same_ids_server.
Qed.

Lemma send_log W out g : log_of (send W out) g = log_of W g.
Proof. done. Qed.

Lemma sent_app (out : list (Z * SkOp)) (l : list (Z * SkOp)) :
  (∀ h op, (h, op) ∈ out → migration_op op) → ∀ g op, (g, op) ∈ l ++ out → (g, op) ∈ l ∨ migration_op op.
Proof. intros Ho g op [?|?%Ho]%elem_of_app; auto. Qed.

Lemma fetch_out kvs g h new shards kv f kv' f' out :
  fetch_step kvs g h new shards kv f kv' f' out → (∀ h' op, (h', op) ∈ out → migration_op op) ∧ sk_clientId kv' = sk_clientId kv.
Proof.
  destruct 1 as [kv kv' args _ Hm|kv args kvh reply _ _ _ _|kv kv' reply args _ Hm|kv args kvg _ _|kv kv' args _ Hm|kv args kvh _ _];
    (split; [|try done]); try (by intros ? ? ?%elem_of_nil); try (by intros ? ? [= -> ->]%list_elem_of_singleton).
  - by injection Hm as <- _.
  - by injection Hm as <- _.
  - by injection Hm as <- _.
Qed.

(** The steps of one server that is not acting. *)
Lemma idle_step W st g i re0 re :
  projects W st → logs_ok W st → replica W g i = Some re0 → i ≠ act g →
  projects (set_replica W g i re) st ∧ logs_ok (set_replica W g i re) st.
Proof.
  intros HP HL H Hi. split.
  - eapply projects_same; [done|done|done|..]; intros g'; by rewrite (acting_set_other _ _ _ _ _ _ H).
  - eapply logs_ok_step; [done|intros ? kv ?; by exists kv|by auto|by auto|]. intros g'. apply log_set.
Qed.

(** The step of an acting server that sends [out]. *)
Lemma acting_step W st g i re0 re out :
  projects W st → logs_ok W st → replica W g i = Some re0 → i = act g → sk_clientId (re_kv re) = sk_clientId (re_kv re0) →
  (∀ h op, (h, op) ∈ out → migration_op op) →
  let st' := mkSys (sy_ctl st) (<[g := re_kv re]> (sy_kv st)) (<[g := re_task re]> (sy_task st)) (sy_sent st ++ out) in
  projects (send (set_replica W g i re) out) st' ∧ logs_ok (send (set_replica W g i re) out) st'.
Proof.
  intros HP HL H Hi Hid Hout st'. split; [by eapply projects_set|]. destruct (acting_kv _ _ _ _ _ HP H Hi) as [Hk _].
  eapply logs_ok_step; [done|by eapply same_ids_insert|..]; simpl.
  - intros. apply elem_of_app. by left.
  - by apply sent_app.
  - intros g'. apply log_set.
Qed.

Lemma acting_step_quiet W st g i re0 re :
  projects W st → logs_ok W st → replica W g i = Some re0 → i = act g → sk_clientId (re_kv re) = sk_clientId (re_kv re0) →
  let st' := mkSys (sy_ctl st) (<[g := re_kv re]> (sy_kv st)) (<[g := re_task re]> (sy_task st)) (sy_sent st) in
  projects (set_replica W g i re) st' ∧ logs_ok (set_replica W g i re) st'.
Proof.
  intros HP HL H Hi Hid st'. split; [by eapply projects_set_quiet|]. destruct (acting_kv _ _ _ _ _ HP H Hi) as [Hk _].
  eapply logs_ok_step; [done|by eapply same_ids_insert|by auto|by auto|]. intros g'. apply log_set.
Qed.

(** The system makes the step, or the step does not concern it. *)
Definition follows (st : Sys) (ev : option Event) (st' : Sys) : Prop := sys_step st ev st' ∨ (ev = None ∧ st' = st).

Lemma change_id kv c kv' r : changeConfig_start kv c = Ok (kv', r) → sk_clientId kv' = sk_clientId kv.
Proof. intros H%changeConfig_fields. by destruct H as (_ & (_ & _ & _ & _ & ? & _) & _). Qed.

(** Applying an entry of the log. *)
Lemma apply_simulates W st g i re op kv' :
  projects W st → logs_ok W st → replica W g i = Some re → log_of W g !! re_applied re = Some op → sk_applyOp (re_kv re) op = Ok kv' →
  let W' := set_replica W g i (mkReplica kv' (S (re_applied re)) (re_task re) (re_leads re)) in
  ∃ st', follows st (label_event (LApply g i (op_event (re_kv re) op))) st' ∧ projects W' st' ∧ logs_ok W' st'.
Proof.
  intros HP HL H Hlog Hop W'. simpl. destruct (decide (i = act g)) as [Hi|Hi].
  2:{ exists st. split; [by right|]. by eapply idle_step. }
  destruct (acting_kv _ _ _ _ _ HP H Hi) as [Hk Ht]. destruct (sk_applyOp_self _ _ _ Hop) as (Hid & _).
  pose proof (acting_step_quiet W st g i re (mkReplica kv' (S (re_applied re)) (re_task re) (re_leads re)) HP HL H Hi Hid) as [HP' HL'].
  simpl in HP', HL'. rewrite (insert_id (sy_task st)) in HP', HL' by done. eexists. split; [|by split]. left.
  destruct (lo_log _ _ HL g op) as [Hs|(c & Hc & Hns)]; [by eapply list_elem_of_lookup_2|..].
  - assert (op_event (re_kv re) op = None) as ->.
    { apply (lo_sent _ _ HL) in Hs. unfold op_event, migration_op in *. by destruct (sk_Args op). }
    apply (sys_apply st g (re_kv re) kv' op); [by rewrite (pr_sent _ _ HP)|done|done].
  - destruct Hc as [isPut args <-|args <-].
    + assert (op_event (re_kv re) (mkSkOp (if isPut then PUT else APPEND) (KPutAppend args)) =
        if decide (executes (re_kv re) args) then Some (EWrite isPut args) else None) as -> by (by destruct isPut).
      by apply (sys_write st g (re_kv re) kv' isPut args).
    + by apply (sys_get st g (re_kv re) kv' args).
Qed.

(** Entering the log. *)
Lemma commit_simulates W st g op :
  projects W st → logs_ok W st → (g, op) ∈ wo_sent W ∨ (∃ c, client_op c op ∧ not_server st c) →
  projects (commit W g op) st ∧ logs_ok (commit W g op) st.
Proof.
  intros HP [L1 L2] Hop. split.
  - eapply projects_same; [done|done|done|..]; intros g'; unfold acting; by rewrite replica_commit.
  - split; [done|]. intros g' op' [Hin|[-> ->]]%log_commit; [by apply L2|done].
Qed.

Lemma steady_step W st l W' :
  projects W st → logs_ok W st → world_step W l W' → steady l →
  ∃ st', follows st (label_event l) st' ∧ projects W' st' ∧ logs_ok W' st'.
Proof.
  intros HP HL Hstep Hst.
  destruct Hstep as [g i re leads H|g i re c kv' H _ Hidle Hans Hrun|g i re c kv' old new m H _ Hidle Hans Hrun Hm
    |g i re kv' old new fs h shards f f' out r j rej H Htask Hf Hrej Hfs Hput|g i re kv' old new fs args H Htask Hdone Hsl Hend
    |g i re args j rej H Htask Hrej Hdone|g i re op H _ Hin _|g i re op c H _ Hc Hns|g i re op kv' H Hlog Hop
    |g i re args reply H _ Hrep Herr|g i re kv' H _ _|last c Hlast Hlen]; simpl in Hst.
  - destruct (decide (i = act g)) as [Hi|Hi]; [|exists st; split; [by right|]; by eapply idle_step].
    destruct (acting_kv _ _ _ _ _ HP H Hi) as [Hk Ht].
    pose proof (acting_step_quiet W st g i re (mkReplica (re_kv re) (re_applied re) (re_task re) leads) HP HL H Hi eq_refl) as Hnext.
    simpl in Hnext. rewrite (insert_id (sy_task st)), (insert_id (sy_kv st)) in Hnext by done. exists st. split; [by right|]. by destruct st.
  - destruct (acting_kv _ _ _ _ _ HP H Hst) as [Hk Ht].
    pose proof (acting_step_quiet W st g i re (re_with_kv re kv') HP HL H Hst (change_id _ _ _ _ Hrun)) as Hnext.
    simpl in Hnext. rewrite (insert_id (sy_task st)) in Hnext by done. eexists. split; [left|exact Hnext].
    eapply sys_poll; [done|by rewrite Ht, Hidle|by rewrite (pr_ctl _ _ HP)|done].
  - destruct (acting_kv _ _ _ _ _ HP H Hst) as [Hk Ht].
    pose proof (acting_step_quiet W st g i re (re_with_task re kv' (TMigrate old new ((λ shards, (shards, FetchNew)) <$> m))) HP HL H Hst
      (change_id _ _ _ _ Hrun)) as Hnext.
    eexists. split; [left|exact Hnext]. eapply sys_change; [done|by rewrite Ht, Hidle|by rewrite (pr_ctl _ _ HP)|done|done].
  - destruct Hst as [Hi Hj]. destruct (acting_kv _ _ _ _ _ HP H Hi) as [Hk Ht], (acting_kv _ _ _ _ _ HP Hrej Hj) as [Hkr _].
    destruct (fetch_out _ _ _ _ _ _ _ _ _ _ Hfs) as [Hout Hid].
    pose proof (acting_step W st g i re (re_with_task re kv' (TMigrate old new (<[h := (shards, f')]> fs))) out HP HL H Hi Hid Hout) as Hnext.
    eexists. split; [left|exact Hnext]. eapply sys_fetch; [done|by rewrite Ht, Htask|done|by eapply fetch_step_acting|done].
  - destruct (acting_kv _ _ _ _ _ HP H Hst) as [Hk Ht]. assert (sk_clientId kv' = sk_clientId (re_kv re)) as Hid by (by injection Hend as <- _).
    pose proof (acting_step W st g i re (re_with_task re kv' (TSetConfig args)) [(g, mkSkOp SET_CONFIG (KSetConfig args))] HP HL H Hst Hid) as Hnext.
    eexists. split; [left|apply Hnext; by intros ? ? [= -> ->]%list_elem_of_singleton].
    eapply sys_set; [done|by rewrite Ht, Htask|done|done|done].
  - destruct Hst as [Hi Hj]. destruct (acting_kv _ _ _ _ _ HP H Hi) as [Hk Ht]. assert (rej = re) as -> by congruence.
    pose proof (acting_step_quiet W st g i re (re_with_task re (re_kv re) TIdle) HP HL H Hi eq_refl) as Hnext.
    simpl in Hnext. rewrite (insert_id (sy_kv st)) in Hnext by done. eexists. split; [left|exact Hnext].
    eapply sys_set_done; [done|by rewrite Ht, Htask|done].
  - exists st. split; [by right|]. apply commit_simulates; [done|done|by left].
  - exists st. split; [by right|]. apply commit_simulates; [done|done|right]. exists c. split; [done|].
    intros g' kv Hk Hid. rewrite (pr_kv _ _ HP) in Hk. destruct (acting W g') as [re'|] eqn:Ha; [|done]. injection Hk as <-.
    apply Hns. by exists g', (act g'), re'.
  - by apply apply_simulates.
  - exists st. split; [|by split]. simpl. destruct (decide (i = act g)) as [Hi|Hi]; [left|by right].
    destruct (acting_kv _ _ _ _ _ HP H Hi) as [Hk _]. by eapply sys_read.
  - exists st. split; [by right|]. by eapply idle_step.
  - eexists. split; [left; apply (sys_config st c); [done|]|].
    + intros last' s g Hl. rewrite (pr_ctl _ _ HP), Hlast in Hl. injection Hl as <-. apply Hst.
    + destruct HP as [P1 P2 P3 P4]. split; [split; [by simpl; rewrite P1|done..]|]. destruct HL as [L1 L2]. by split.
Qed.

(** ** A steady run is a run of the system *)

Definition start_sys (W : World) : Sys :=
  mkSys (wo_ctl W) (map_imap (λ g _, re_kv <$> acting W g) (wo_groups W)) (map_imap (λ g _, re_task <$> acting W g) (wo_groups W)) (wo_sent W).

Lemma acting_imap {A} (f : Replica → A) W g :
  map_imap (λ g _, f <$> acting W g) (wo_groups W) !! g = f <$> acting W g.
Proof. rewrite map_lookup_imap. unfold acting, replica. by destruct (wo_groups W !! g). Qed.

Lemma start_projects W : projects W (start_sys W).
Proof. split; [done|..|done]; intros g; apply acting_imap. Qed.

Lemma start_initial W : initial_world W → initial (start_sys W).
Proof.
  intros [I1 I2 I3 I4 I5].
  assert (Hl : ∀ g kv, sy_kv (start_sys W) !! g = Some kv → ∃ re, acting W g = Some re ∧ kv = re_kv re).
  { intros g kv Hk. simpl in Hk. rewrite acting_imap in Hk. destruct (acting W g) as [re|]; [|done]. injection Hk as <-. by exists re. }
  split; [done|..|done].
  - intros g kv (re & Ha & ->)%Hl. destruct (I2 g (act g) re Ha) as (Hs & _ & Ht). split; [done|]. simpl. rewrite acting_imap, Ha. simpl. by rewrite Ht.
  - intros g g' kv kv' (re & Ha & ->)%Hl (re' & Ha' & ->)%Hl Hid. by destruct (I3 _ _ _ _ _ _ Ha Ha' Hid).
Qed.

Lemma start_logs W : initial_world W → logs_ok W (start_sys W).
Proof.
  intros [_ _ _ I4 I5]. split; [rewrite I5; by intros g op ?%elem_of_nil|]. intros g op. unfold log_of.
  destruct (wo_groups W !! g) as [G|] eqn:E; simpl; [rewrite (I4 g G E)|]; by intros ?%elem_of_nil.
Qed.

Lemma acting_events_snoc ls l : acting_events (ls ++ [l]) = acting_events ls ++ option_list (label_event l).
Proof. unfold acting_events. rewrite omap_app. simpl. by destruct (label_event l). Qed.

(** Every steady run is followed by the system of the acting servers. *)
Lemma steady_simulates W ls W' :
  initial_world W → world_trace W ls W' → Forall steady ls →
  ∃ st, sys_trace (start_sys W) (acting_events ls) st ∧ projects W' st ∧ logs_ok W' st.
Proof.
  intros Hi. induction 1 as [|ls l W1 W2 Htr IH Hstep]; intros Hst.
  - exists (start_sys W). split; [constructor|]. split; [apply start_projects|by apply start_logs].
  - apply Forall_app in Hst as [Hst Hl]. apply Forall_cons_1 in Hl as [Hl _]. destruct (IH Hst) as (st & Hs & HP & HL).
    destruct (steady_step _ _ _ _ HP HL Hstep Hl) as (st' & Hf & HP' & HL'). exists st'. split; [|done]. rewrite acting_events_snoc.
    destruct Hf as [Hf|[-> ->]]; [by eapply trace_step|]. simpl. by rewrite app_nil_r.
Qed.

Lemma steady_inv W ls W' :
  initial_world W → world_trace W ls W' → Forall steady ls →
  ∃ st a, projects W' st ∧ abs_trace initAbs (acting_events ls) a ∧ sys_inv st a.
Proof.
  intros Hi Htr Hst. destruct (steady_simulates W ls W' Hi Htr Hst) as (st & Hs & HP & _).
  destruct (trace_inv _ _ _ (start_initial W Hi) Hs) as (a & Ha & Hinv). by exists st, a.
Qed.

Lemma projects_acting W st g re : projects W st → acting W g = Some re → sy_kv st !! g = Some (re_kv re).
Proof. intros [_ P2 _ _] Ha. by rewrite P2, Ha. Qed.

(** ** Properties *)

(** C4: in steady runs all groups together are one key/value map.  However
    clients' requests, the goroutines of migrations, late and repeated
    requests, lagging and restarted servers and new configurations interleave,
    the writes that take effect at the acting servers and their answers to
    reads are those of a single map on which a write is executed only if the
    client has executed no later one on that shard; and every acting server
    that serves a key has its value.  Steady: in every group one server, which
    is not restarted, polls and answers the requests of migrations, and no
    configuration takes a shard from a group without giving it to another. *)
Theorem sharded_refinement W ls W' :
  initial_world W → world_trace W ls W' → Forall steady ls →
  ∃ a, abs_trace initAbs (acting_events ls) a ∧
    ∀ g re key, acting W' g = Some re → serves (re_kv re) (key2shard key) → sk_lookup (re_kv re) key = ab_data a !! key.
Proof.
  intros Hi Htr Hst. destruct (steady_inv W ls W' Hi Htr Hst) as (st & a & HP & Ha & Hinv). exists a. split; [done|].
  intros g re key Hre Hs. by apply (has_ok _ _ _ (si_core _ _ Hinv) g (re_kv re) (shard_of key) (projects_acting _ _ _ _ HP Hre) Hs).
Qed.

(** C5: in steady runs the acting servers of two groups never serve a shard at
    the same time. *)
Theorem one_owner W ls W' g g' re re' s :
  initial_world W → world_trace W ls W' → Forall steady ls →
  acting W' g = Some re → acting W' g' = Some re' → serves (re_kv re) s → serves (re_kv re') s → g = g'.
Proof.
  intros Hi Htr Hst Hre Hre' Hs Hs'. destruct (steady_inv W ls W' Hi Htr Hst) as (st & a & HP & _ & Hinv).
  by eapply (owner_unique _ _ _ (si_core _ _ Hinv) g g' _ _ (Z.to_nat s)); [by eapply projects_acting..| |].
Qed.

(** C23: in steady runs a write takes effect at most once in the whole
    service, although the client sends it to several groups and the shard
    moves: of a client's writes to a shard every later one that takes effect
    at the acting servers has a larger sequence number. *)
Theorem sharded_at_most_once W ls W' i j p1 p2 args1 args2 :
  initial_world W → world_trace W ls W' → Forall steady ls → i < j →
  acting_events ls !! i = Some (EWrite p1 args1) → acting_events ls !! j = Some (EWrite p2 args2) →
  paa_ClientId args1 = paa_ClientId args2 → key2shard (paa_Key args1) = key2shard (paa_Key args2) →
  (paa_SeqNum args1 < paa_SeqNum args2)%Z.
Proof.
  intros Hi Htr Hst Hij H1 H2 Hc Hs. destruct (steady_inv W ls W' Hi Htr Hst) as (st & a & _ & Ha & _).
  eapply (proj2 (abs_trace_seq _ _ Ha) i j); [done..|]. unfold shard_of. by rewrite Hs.
Qed.
End Steady.
