(* ===== verification/ShardReplicasWitness.v ===== *)
(** * Runs of a sharded service, executed

    [exec] carries out one chosen step of [world_step]; [run] carries out a
    list of them, and is sound for [world_trace].  The properties of
    [ShardReplicas] are applied to a steady run in which two groups of two
    servers are set up, a client writes to the first one, the shard moves to
    the second one while the client retransmits its request to both, a server
    is restarted, and the key is read at the second group.  In the other run
    the leader of the second group changes during a migration, and a transfer
    that its first leader sent arrives late: [two_owners]. *)

From stdpp Require Import base list gmap sets strings relations.
From Stdlib Require Import ZArith Lia.
From S2P Require Import Prelude RaftLog RaftCore RaftWitness ShardConfig KVRaft ShardCtrler ShardKV ShardSystem ShardReplicas.

(** ** Executing steps *)

Inductive Move : Type :=
| MLead (g : Z) (i : nat) (leads : bool)
| MPoll (g : Z) (i : nat)                          (* world_poll or world_change *)
| MFetch (g : Z) (i : nat) (h r : Z) (j : nat)
| MSet (g : Z) (i : nat)
| MSetDone (g : Z) (i j : nat)
| MCommit (g : Z) (i k : nat)                      (* the k-th request that was sent *)
| MWrite (g : Z) (i : nat) (isPut : bool) (args : PutAppendArgs)
| MGet (g : Z) (i : nat) (args : GetArgs)
| MApply (g : Z) (i : nat)
| MRead (g : Z) (i : nat) (args : GetArgs)
| MRestart (g : Z) (i : nat) (id : Z)
| MConfig (c : Config).

Definition is_put_b (f : Fetch) : bool := match f with FetchPut _ => true | _ => false end.
Definition is_done_b (f : Fetch) : bool := match f with FetchDone => true | _ => false end.

Definition all_b {A} (p : A → bool) (m : gmap Z A) : bool := forallb (λ x, p (snd x)) (map_to_list m).

Lemma all_b_spec {A} (p : A → bool) (m : gmap Z A) : all_b p m = true → ∀ i x, m !! i = Some x → p x = true.
Proof.
  unfold all_b. rewrite forallb_forall. intros H i x Hx. apply (H (i, x)), list_elem_of_In. by apply elem_of_map_to_list.
Qed.

Definition ok {A} (r : Res A) : option A := match r with Ok x => Some x | Panic => None end.

Lemma ok_Some {A} (r : Res A) x : ok r = Some x → r = Ok x.
Proof. destruct r; [by intros [= ->]|done]. Qed.

Definition exec_fetch (kvs : gmap Z ShardKV) (g h : Z) (new : Config) (shards : list Z) (kv : ShardKV) (f : Fetch)
    : option (ShardKV * Fetch * list (Z * SkOp)) :=
  match f with
  | FetchNew =>
      guard (seq_left kv);;
      let '(kv', args) := migration_get kv new shards in
      Some (kv', FetchSent args, [(h, mkSkOp GET_SHARDS (KGetShards args))])
  | FetchSent args =>
      kvh ← kvs !! h;
      guard (gsa_ConfigNum args ≤ Num (config kvh))%Z;; guard (gsa_SeqNum args ≤ sk_lastSeq kvh (gsa_ClientId args))%Z;;
      reply ← ok (GetShards_reply kvh args true); Some (kv, FetchGot reply, [])
  | FetchGot reply =>
      guard (seq_left kv);;
      let '(kv', args) := migration_put kv reply in Some (kv', FetchPut args, [(g, mkSkOp PUT_SHARDS (KPutShards args))])
  | FetchPut args =>
      kvg ← kvs !! g; guard (psa_SeqNum args ≤ sk_lastSeq kvg (psa_ClientId args))%Z;; Some (kv, FetchKept, [])
  | FetchKept =>
      guard (seq_left kv);;
      let '(kv', args) := migration_delete kv new shards in Some (kv', FetchDel args, [(h, mkSkOp DELETE_SHARDS (KDeleteShards args))])
  | FetchDel args =>
      kvh ← kvs !! h; guard (dsa_SeqNum args ≤ sk_lastSeq kvh (dsa_ClientId args))%Z;; Some (kv, FetchDone, [])
  | FetchDone => None
  end.

Ltac guards :=
  repeat match goal with
  | H : (guard ?P;; _) = Some _ |- _ => destruct (decide P); [rewrite option_guard_True in H by assumption | rewrite option_guard_False in H by assumption; discriminate H]; simpl in H
  | H : mbind _ ?m = Some _ |- _ => let E := fresh "E" in destruct m eqn:E; [simpl in H | discriminate H]
  end.

Lemma exec_fetch_sound kvs g h new shards kv f kv' f' out :
  exec_fetch kvs g h new shards kv f = Some (kv', f', out) → fetch_step kvs g h new shards kv f kv' f' out.
Proof.
  destruct f as [|args|reply|args| |args|]; simpl; intros H; guards; try done.
  - destruct (migration_get kv new shards) as [kv1 args] eqn:E. simplify_eq. by constructor.
  - simplify_eq. econstructor; [done..|]. by apply ok_Some.
  - destruct (migration_put kv reply) as [kv1 args] eqn:E. simplify_eq. by constructor.
  - simplify_eq. by econstructor.
  - destruct (migration_delete kv new shards) as [kv1 args] eqn:E. simplify_eq. by constructor.
  - simplify_eq. by econstructor.
Qed.

(** Shards that have an owner keep having one. *)
Definition keeps_owners (old new : Config) : bool :=
  forallb (λ s, match Shards old !! s, Shards new !! s with
                | Some g, Some 0%Z => bool_decide (g = 0%Z)
                | _, _ => true
                end) (seq 0 NShards).

Lemma keeps_owners_spec old new s g :
  keeps_owners old new = true → length (Shards new) = NShards → Shards old !! s = Some g → g ≠ 0%Z → Shards new !! s ≠ Some 0%Z.
Proof.
  unfold keeps_owners. rewrite forallb_forall. intros H Hl Ho Hg Hn. pose proof (lookup_lt_Some _ _ _ Hn) as Hlt.
  assert (In s (seq 0 NShards)) as Hin by (apply in_seq; lia). specialize (H s Hin). rewrite Ho, Hn in H. by apply bool_decide_eq_true in H.
Qed.

(** Servers as they are started. *)
#[local] Instance gobSk : Gob (PState SkOp) := {| gob_encode _ := [Byte.x00]; gob_decode _ := None |}.

Definition new_kv (gid id : Z) : ShardKV :=
  mkShardKV 0 (examplePeer 0 LEADER 1 0 (mkLog [zeroEntry] 0)) gid (-1) zeroConfig zeroConfig initStore ∅ 0 id ∅ ∅.

Lemma new_kv_started g id : g ≠ 0%Z → started g (new_kv g id).
Proof. intros Hg. by split_and!. Qed.

(** No server has the client id. *)
Definition id_free (W : World) (c : Z) : bool :=
  all_b (λ G, forallb (λ re, bool_decide (sk_clientId (re_kv re) ≠ c)) (gr_reps G)) (wo_groups W).

Lemma id_free_spec W c : id_free W c = true → ¬ server_id W c.
Proof.
  intros H (g & i & re & Hre & Hid). unfold replica in Hre. destruct (wo_groups W !! g) as [G|] eqn:E; [|done]. simpl in Hre.
  pose proof (all_b_spec _ _ H g G E) as HG. cbn beta in HG. rewrite forallb_forall in HG.
  specialize (HG re). rewrite bool_decide_eq_true in HG. apply HG; [|done]. apply list_elem_of_In. by eapply list_elem_of_lookup_2.
Qed.

Definition exec (W : World) (m : Move) : option (Label * World) :=
  match m with
  | MLead g i leads =>
      re ← replica W g i; Some (LLead g i, set_replica W g i (mkReplica (re_kv re) (re_applied re) (re_task re) leads))
  | MPoll g i =>
      re ← replica W g i; guard (re_leads re = true);;
      match re_task re with
      | TIdle =>
          c ← ok (Configs.getConfig (wo_ctl W) (Num (config (re_kv re)) + 1));
          '(kv', r) ← ok (changeConfig_start (re_kv re) c);
          match r with
          | None => Some (LPoll g i, set_replica W g i (re_with_kv re kv'))
          | Some (old, new) =>
              m ← ok (if bool_decide (Num old > 0)%Z then getMigrationFromGroupShardsMap kv' old new else Ok ∅);
              Some (LPoll g i, set_replica W g i (re_with_task re kv' (TMigrate old new ((λ shards, (shards, FetchNew)) <$> m))))
          end
      | _ => None
      end
  | MFetch g i h r j =>
      re ← replica W g i; rej ← replica W r j;
      match re_task re with
      | TMigrate old new fs =>
          '(shards, f) ← fs !! h; '(kv', f', out) ← exec_fetch {[ r := re_kv rej ]} g h new shards (re_kv re) f;
          if negb (is_put_b f') || all_b (λ x, negb (is_put_b (snd x))) fs
          then Some (LFetch g i r j, send (set_replica W g i (re_with_task re kv' (TMigrate old new (<[h := (shards, f')]> fs)))) out)
          else None
      | _ => None
      end
  | MSet g i =>
      re ← replica W g i; guard (seq_left (re_kv re));;
      match re_task re with
      | TMigrate old new fs =>
          if all_b (λ x, is_done_b (snd x)) fs then
            let '(kv', args) := changeConfig_end (re_kv re) new in
            Some (LSet g i, send (set_replica W g i (re_with_task re kv' (TSetConfig args))) [(g, mkSkOp SET_CONFIG (KSetConfig args))])
          else None
      | _ => None
      end
  | MSetDone g i j =>
      re ← replica W g i; rej ← replica W g j;
      match re_task re with
      | TSetConfig args =>
          guard (sca_SeqNum args ≤ sk_lastSeq (re_kv rej) (sca_ClientId args))%Z;;
          Some (LSetDone g i j, set_replica W g i (re_with_task re (re_kv re) TIdle))
      | _ => None
      end
  | MCommit g i k =>
      re ← replica W g i; guard (re_leads re = true);; '(g', op) ← wo_sent W !! k; guard (g' = g);;
      if match sk_Args op with KGetShards args => bool_decide (gsa_ConfigNum args ≤ Num (config (re_kv re)))%Z | _ => true end
      then Some (LCommit g, commit W g op) else None
  | MWrite g i isPut args =>
      re ← replica W g i; guard (re_leads re = true);;
      if id_free W (paa_ClientId args)
      then Some (LCommit g, commit W g (mkSkOp (if isPut then PUT else APPEND) (KPutAppend args))) else None
  | MGet g i args =>
      re ← replica W g i; guard (re_leads re = true);;
      if id_free W (ga_ClientId args) then Some (LCommit g, commit W g (mkSkOp GET (KGet args))) else None
  | MApply g i =>
      re ← replica W g i; op ← log_of W g !! re_applied re; kv' ← ok (sk_applyOp (re_kv re) op);
      Some (LApply g i (op_event (re_kv re) op), set_replica W g i (mkReplica kv' (S (re_applied re)) (re_task re) (re_leads re)))
  | MRead g i args =>
      re ← replica W g i; guard (ga_SeqNum args ≤ sk_lastSeq (re_kv re) (ga_ClientId args))%Z;;
      reply ← ok (skGet_reply (re_kv re) args true); guard (skg_Err reply ≠ skErrWrongGroup);;
      Some (LRead g i (ERead args reply), W)
  | MRestart g i id =>
      re ← replica W g i; guard (g ≠ 0%Z);;
      if id_free W id then Some (LRestart g i, set_replica W g i (mkReplica (new_kv g id) 0 TIdle false)) else None
  | MConfig c =>
      last ← list.last (wo_ctl W); guard (length (Shards c) = NShards);;
      Some (LConfig last c, mkWorld (Configs.append (wo_ctl W) c) (wo_groups W) (wo_sent W))
  end.

Lemma world_exec_sound W m l W' : exec W m = Some (l, W') → world_step W l W'.
Proof.
  destruct m as [g i leads|g i|g i h r j|g i|g i j|g i k|g i isPut args|g i args|g i|g i args|g i id|c]; simpl; intros H; guards.
  - simplify_eq. by apply world_lead.
  - destruct (re_task r) eqn:Et; try done. guards. destruct p as [kv' [[old new]|]]; guards; simplify_eq.
    + by eapply world_change; [done|done|done|apply ok_Some|apply ok_Some|apply ok_Some].
    + by eapply world_poll; [done|done|done|apply ok_Some|apply ok_Some].
  - destruct (re_task r0) as [|old new fs|] eqn:Et; try done. guards. destruct p as [shards f]. guards. destruct p as [[kv' f'] out].
    destruct (negb (is_put_b f') || _) eqn:Ep; [|done]. simplify_eq. eapply world_fetch; [done..|by apply exec_fetch_sound|].
    intros Hp h' x Hx. apply orb_true_iff in Ep as [Ep|Ep]; [by destruct f'|].
    pose proof (all_b_spec _ _ Ep h' x Hx) as Hn. destruct x as [? []]; simpl in *; (done || tauto).
  - destruct (re_task r) as [|old new fs|] eqn:Et; try done. destruct (all_b _ fs) eqn:Ea; [|done].
    destruct (changeConfig_end (re_kv r) new) as [kv' args] eqn:Ee. simplify_eq. eapply world_set; [done..| |done|done].
    intros h x Hx. pose proof (all_b_spec _ _ Ea h x Hx) as Hd. by destruct x as [? []].
  - destruct (re_task r) as [| |args] eqn:Et; try done. guards. simplify_eq. by eapply world_set_done.
  - destruct p as [g' op]. guards. subst g'. destruct (match sk_Args op with KGetShards _ => _ | _ => _ end) eqn:Eg; [|done]. simplify_eq.
    eapply world_commit; [done|done|by eapply list_elem_of_lookup_2|]. intros args Ea. rewrite Ea in Eg. by apply bool_decide_eq_true in Eg.
  - destruct (id_free _ _) eqn:Ei; [|done]. simplify_eq. eapply world_commit_client; [done|done|by apply client_write|by apply id_free_spec].
  - destruct (id_free _ _) eqn:Ei; [|done]. simplify_eq. eapply world_commit_client; [done|done|by apply client_get|by apply id_free_spec].
  - simplify_eq. apply world_apply; [done|done|by apply ok_Some].
  - simplify_eq. eapply world_read; [done|done|by apply ok_Some|done].
  - destruct (id_free _ _) eqn:Ei; [|done]. simplify_eq. eapply world_restart; [done|by apply new_kv_started|by apply id_free_spec].
  - simplify_eq. by apply world_config.
Qed.

Fixpoint run (W : World) (ms : list Move) : option (list Label * World) :=
  match ms with
  | [] => Some ([], W)
  | m :: ms => '(l, W1) ← exec W m; '(ls, W2) ← run W1 ms; Some (l :: ls, W2)
  end.

Lemma wtrace_cons W l W1 ls W2 : world_step W l W1 → world_trace W1 ls W2 → world_trace W (l :: ls) W2.
Proof.
  intros Hs. induction 1 as [|ls l' W2 W3 Ht IH Hs'].
  - apply (wtrace_step W [] l W W1); [constructor|done].
  - apply (wtrace_step W (l :: ls) l' W2 W3); done.
Qed.

Lemma world_run_sound W ms ls W' : run W ms = Some (ls, W') → world_trace W ls W'.
Proof.
  revert W ls. induction ms as [|m ms IH]; intros W ls H; simpl in H; [simplify_eq; constructor|]. guards. destruct p as [l W1]. guards. destruct p as [ls1 W2].
  simplify_eq. eapply wtrace_cons; [by eapply world_exec_sound|by apply IH].
Qed.

(** Whether a step is steady when the first server of each group acts. *)
Definition first : Z → nat := λ _, 0.

Definition steady_b (l : Label) : bool :=
  match l with
  | LPoll g i | LSet g i => bool_decide (i = 0)
  | LFetch _ i _ j | LSetDone _ i j => bool_decide (i = 0) && bool_decide (j = 0)
  | LRestart g i => bool_decide (i ≠ 0)
  | LConfig last c => bool_decide (length (Shards c) = NShards) && keeps_owners last c
  | _ => true
  end.

Lemma steady_b_spec l : steady_b l = true → steady first l.
Proof.
  destruct l as [g i|g i|g i h j|g i|g i j|g|g i ev|g i ev|g i|last c]; unfold first; simpl;
    rewrite ?andb_true_iff, ?bool_decide_eq_true; try done.
  intros [Hl Hk] s g Hs Hg. by eapply keeps_owners_spec.
Qed.

Lemma steady_all ls : forallb steady_b ls = true → Forall (steady first) ls.
Proof. rewrite forallb_forall, Forall_forall. intros H l Hl. apply steady_b_spec, H. by apply list_elem_of_In. Qed.

(** ** Two groups of two servers *)

Definition new_rep (gid id : Z) : Replica := mkReplica (new_kv gid id) 0 TIdle false.

Definition world2 : World :=
  mkWorld Configs.init {[ 1%Z := mkGroup [] [new_rep 1 100; new_rep 1 101]; 2%Z := mkGroup [] [new_rep 2 200; new_rep 2 201] ]} [].

Lemma world2_group g G : wo_groups world2 !! g = Some G →
  g = 1%Z ∧ G = mkGroup [] [new_rep 1 100; new_rep 1 101] ∨ g = 2%Z ∧ G = mkGroup [] [new_rep 2 200; new_rep 2 201].
Proof.
  unfold world2. simpl. intros [[<- <-]|[_ Hk]]%lookup_insert_Some; [by left|right]. by apply lookup_singleton_Some in Hk as [<- <-].
Qed.

Lemma world2_replica g i re : replica world2 g i = Some re →
  (g = 1%Z ∨ g = 2%Z) ∧ (i = 0 ∨ i = 1) ∧ re = new_rep g (g * 100 + Z.of_nat i).
Proof.
  unfold replica. destruct (wo_groups world2 !! g) as [G|] eqn:E; [|done].
  apply world2_group in E as [[-> ->]|[-> ->]]; (destruct i as [|[|i]]; [| |done]); simpl; intros [= <-]; auto.
Qed.

Lemma world2_initial : initial_world world2.
Proof.
  split; [done|..|done].
  - intros g i re (Hg & _ & ->)%world2_replica. split; [|done]. apply new_kv_started. lia.
  - intros g g' i i' re re' (Hg & Hi & ->)%world2_replica (Hg' & Hi' & ->)%world2_replica Hid. simpl in Hid. lia.
  - by intros g G [[_ ->]|[_ ->]]%world2_group.
Qed.

Definition groups12 : gmap Z (list string) := {[ 1%Z := ["a1"]; 2%Z := ["a2"] ]}.

(** All shards at group 1, then shard 7 at group 2, then back. *)
Definition cfg1 : Config := mkConfig 1 (replicate NShards 1%Z) groups12.
Definition cfg2 : Config := mkConfig 2 (<[7 := 2%Z]> (replicate NShards 1%Z)) groups12.
Definition cfg3 : Config := mkConfig 3 (replicate NShards 1%Z) groups12.

(** Key "a" is in shard 7. *)
Definition put1 : PutAppendArgs := mkPutAppendArgs "a" "x" PUT 1 9.
Definition append2 : PutAppendArgs := mkPutAppendArgs "a" "y" APPEND 2 9.
Definition get3 : GetArgs := mkGetArgs "a" 3 9.

(** A request enters the log and the first server applies it. *)
Definition deliver (g : Z) (k : nat) : list Move := [MCommit g 0 k; MApply g 0].
Definition write_to (g : Z) (isPut : bool) (args : PutAppendArgs) : list Move := [MWrite g 0 isPut args; MApply g 0].

(** Group [g] goes to the next configuration without receiving a shard; its
    request is the [k]-th one. *)
Definition next_config (g : Z) (k : nat) : list Move := [MPoll g 0; MSet g 0] ++ deliver g k ++ [MSetDone g 0 0].

(** The first server of group [g] fetches from group [h]; its requests are the
    [k]-th one and the two after it, and the [k + 3]-rd one is SetConfig. *)
Definition fetch_from (g h : Z) (k : nat) : list Move :=
  [MFetch g 0 h g 0] ++ deliver h k ++ [MFetch g 0 h h 0; MFetch g 0 h g 0] ++ deliver g (k + 1) ++
  [MFetch g 0 h g 0; MFetch g 0 h g 0] ++ deliver h (k + 2) ++ [MFetch g 0 h h 0].

Definition set_up : list Move :=
  [MLead 1 0 true; MLead 2 0 true; MConfig cfg1] ++ next_config 1 0 ++ next_config 2 1 ++ write_to 1 true put1 ++
  [MConfig cfg2] ++ next_config 1 2.

(** *** A steady run *)

(** The second servers lag, one of them is restarted; the client sends its
    requests to both groups, and the requests of the migration arrive again. *)
Definition moves : list Move :=
  set_up ++ write_to 2 true put1 ++ write_to 1 false append2 ++ [MApply 1 1; MApply 1 1; MPoll 2 0] ++ fetch_from 2 1 3 ++
  [MRestart 1 1 102; MApply 1 1] ++ write_to 2 true put1 ++ write_to 2 false append2 ++
  [MSet 2 0] ++ deliver 2 6 ++ [MSetDone 2 0 0] ++ deliver 2 4 ++ deliver 1 5 ++ deliver 1 2 ++
  [MGet 2 0 get3; MApply 2 0; MRead 2 0 get3].

Definition final : list Label * World := default ([], world2) (run world2 moves).

Definition run_events : list Event := [EWrite true put1; EWrite false append2; ERead get3 (mkSkGetReply skOK "xy")].

Lemma final_trace : world_trace world2 (fst final) (snd final).
Proof. apply (world_run_sound _ moves). vm_compute. reflexivity. Qed.

Lemma final_steady : Forall (steady first) (fst final).
Proof. apply steady_all. vm_compute. reflexivity. Qed.

Lemma final_events : acting_events first (fst final) = run_events.
Proof. vm_compute. reflexivity. Qed.

Definition group1 : Replica := default (new_rep 1 100) (acting first (snd final) 1%Z).
Definition group2 : Replica := default (new_rep 2 200) (acting first (snd final) 2%Z).

Lemma group1_final : acting first (snd final) 1%Z = Some group1.
Proof. vm_compute. reflexivity. Qed.
Lemma group2_final : acting first (snd final) 2%Z = Some group2.
Proof. vm_compute. reflexivity. Qed.
Lemma group2_serves : serves (re_kv group2) 7.
Proof. vm_compute. reflexivity. Qed.

Lemma sharded_refinement_witness :
  ∃ a, abs_trace initAbs run_events a ∧ ab_data a !! "a" = Some "xy".
Proof.
  destruct (sharded_refinement first world2 (fst final) (snd final) world2_initial final_trace final_steady) as (a & Ha & Hs).
  exists a. rewrite final_events in Ha. split; [exact Ha|].
  rewrite <-(Hs 2%Z group2 "a" group2_final group2_serves). vm_compute. reflexivity.
Defined.

(** Group 2 serves the shard, so group 1 does not any more. *)
Lemma one_owner_witness : serves (re_kv group2) 7 ∧ ¬ serves (re_kv group1) 7.
Proof.
  split; [exact group2_serves|]. intros H1. enough (1%Z = 2%Z) as E by discriminate E.
  exact (one_owner first world2 (fst final) (snd final) 1 2 group1 group2 7 world2_initial final_trace final_steady
    group1_final group2_final H1 group2_serves).
Defined.

Lemma sharded_at_most_once_witness :
  acting_events first (fst final) !! 0 = Some (EWrite true put1) ∧ acting_events first (fst final) !! 1 = Some (EWrite false append2) ∧
  (paa_SeqNum put1 < paa_SeqNum append2)%Z.
Proof.
  assert (acting_events first (fst final) !! 0 = Some (EWrite true put1)) as H0 by (rewrite final_events; reflexivity).
  assert (acting_events first (fst final) !! 1 = Some (EWrite false append2)) as H1 by (rewrite final_events; reflexivity).
  split; [exact H0|]. split; [exact H1|].
  apply (sharded_at_most_once first world2 (fst final) (snd final) 0 1 true false put1 append2 world2_initial final_trace final_steady);
    [lia|exact H0|exact H1|reflexivity|reflexivity].
Defined.

(** *** A change of the leader *)

(** The second server of group 2 leads when configuration 2 appears, fetches
    shard 7 and sends PutShards, its request 4, which is delayed.  Then the
    first server leads; it does the same migration.  The shard goes back to
    group 1, where the client appends to the key; then request 4 arrives. *)
Definition moves_late : list Move :=
  set_up ++ [MApply 2 1; MLead 2 0 false; MLead 2 1 true; MPoll 2 1; MFetch 2 1 1 2 1] ++ deliver 1 3 ++
  [MFetch 2 1 1 1 0; MFetch 2 1 1 2 1; MLead 2 1 false; MLead 2 0 true; MPoll 2 0] ++ fetch_from 2 1 5 ++
  [MSet 2 0] ++ deliver 2 8 ++ [MSetDone 2 0 0; MConfig cfg3] ++ next_config 2 9 ++
  [MPoll 1 0] ++ fetch_from 1 2 10 ++ [MSet 1 0] ++ deliver 1 13 ++ [MSetDone 1 0 0] ++
  write_to 1 false append2 ++ deliver 2 4 ++ [MGet 2 0 get3; MApply 2 0; MRead 2 0 get3].

Definition late : list Label * World := default ([], world2) (run world2 moves_late).

(** The steps of the second server of group 2. *)
Definition by_second (l : Label) : bool :=
  match l with LPoll 2 1 | LFetch 2 1 _ _ => true | _ => false end.

Lemma abs_trace_snoc a tr ev a2 : abs_trace a (tr ++ [ev]) a2 → ∃ a1, abs_trace a tr a1 ∧ abs_step a1 ev a2.
Proof.
  intros H. inversion H as [E|tr' ev' a1 a2' Ht Hs E]; [by destruct tr|]. apply app_inj_tail in E as [-> ->]. by exists a1.
Qed.

Lemma abs_trace_nil a a2 : abs_trace a [] a2 → a2 = a.
Proof. inversion 1 as [|tr ev a1 a2' _ _ E]; [done|]. by destruct tr. Qed.

(** A map does not answer "x" after the append. *)
Lemma stale_read_refused : ¬ ∃ a, abs_trace initAbs [EWrite true put1; EWrite false append2; ERead get3 (mkSkGetReply skOK "x")] a.
Proof.
  intros (a & H). apply (abs_trace_snoc _ [_; _]) in H as (a2 & H & H3). apply (abs_trace_snoc _ [_]) in H as (a1 & H & H2).
  apply (abs_trace_snoc _ []) in H as (a0 & H & H1). apply abs_trace_nil in H as ->.
  inversion H1; subst. inversion H2; subst. inversion H3 as [|args Hr]. by vm_compute in Hr.
Qed.

(** C36: a change of the leader during a migration gives a shard two owners.
    PutShards carries no configuration number, and the new leader of the group
    does the same migration under its own client id: the PutShards of the
    first leader, delivered after the group has given the shard away again, is
    executed, and the group takes the shard back with its old contents beside
    the owner.  In a run whose only steps that are not steady are those of the
    first leader, the acting servers of both groups then serve the shard, with
    different values of a key, and a read is answered with the old one: the
    service is not one map. *)
Theorem two_owners :
  ∃ W ls W' re1 re2,
    initial_world W ∧ world_trace W ls W' ∧ Forall (λ l, steady first l ∨ by_second l = true) ls ∧
    acting first W' 1 = Some re1 ∧ acting first W' 2 = Some re2 ∧
    serves (re_kv re1) (key2shard "a") ∧ serves (re_kv re2) (key2shard "a") ∧
    Num (config (re_kv re1)) = 3%Z ∧ Num (config (re_kv re2)) = 3%Z ∧
    sk_lookup (re_kv re1) "a" = Some "xy" ∧ sk_lookup (re_kv re2) "a" = Some "x" ∧
    ¬ ∃ a, abs_trace initAbs (acting_events first ls) a.
Proof.
  exists world2, (fst late), (snd late).
  exists (default (new_rep 1 100) (acting first (snd late) 1%Z)), (default (new_rep 2 200) (acting first (snd late) 2%Z)).
  split_and!; try (vm_compute; reflexivity).
  - exact world2_initial.
  - apply (world_run_sound _ moves_late). vm_compute. reflexivity.
  - assert (forallb (λ l, steady_b l || by_second l) (fst late) = true) as H by (vm_compute; reflexivity).
    apply Forall_forall. intros l Hl%list_elem_of_In. rewrite forallb_forall in H. apply H, orb_true_iff in Hl as [Hl|Hl]; [left|by right].
    by apply steady_b_spec.
  - assert (acting_events first (fst late) = [EWrite true put1; EWrite false append2; ERead get3 (mkSkGetReply skOK "x")]) as ->
      by (vm_compute; reflexivity).
    exact stale_read_refused.
Qed.
