(* ===== verification/MapReduce.v ===== *)
(** * MapReduce (src/mr/coordinator.go, worker.go, rpc.go, src/main/mrsequential.go)

    The coordinator hands out map tasks, then reduce tasks, and takes a task
    back when it is not finished ten seconds after it was started; the
    goroutine that does so is a pending timer of the state.  [FetchTask] is
    one pass from the top of the handler to a reply or to [Cond.Wait]: once
    the map phase is over the first loop breaks at once, so resuming inside
    the second loop is the same as starting over.

    A worker reads and writes files.  Intermediate files are keyed by map and
    reduce task and hold the pairs as the JSON decoder will read them:
    encoding a pair with encoding/json and decoding it is the argument
    [json].  [sort.Sort] is not stable: it is an argument [sortf], any
    function that returns a permutation sorted by key.  The application's
    [mapf] and [reducef] come from a plugin and are arguments.

    Theorems: the task state machine (when which task is handed out, that a
    worker never waits without a task that is running and has a timer, that
    finished tasks stay finished).  The correctness of the whole job is in
    [MapReduceJob]. *)

From stdpp Require Import strings base gmap list sorting.
From Stdlib Require Import ZArith Lia Ascii.
From S2P Require Import Prelude.

(** ** The coordinator *)

Inductive TaskState : Type := WAITTING | STARTED | FINISHED.

Global Instance TaskState_eq_dec : EqDecision TaskState.
Proof. solve_decision. Defined.

Record MapTask : Type := mkMapTask {
  mt_Id : Z; mt_FileName : string; mt_NReduce : Z; mt_State : TaskState }.
Record ReduceTask : Type := mkReduceTask {
  rt_Id : Z; rt_NMap : Z; rt_State : TaskState }.

(** [mapTimers] and [reduceTimers] are the tasks with a recovery goroutine
    that has not fired yet. *)
Record Coordinator : Type := mkCoordinator {
  mapTasksDone : bool;
  c_done : bool;
  MapTasks : list MapTask;
  ReduceTasks : list ReduceTask;
  mapTimers : list nat;
  reduceTimers : list nat;
}.

Inductive FetchTaskReply : Type :=
| ReplyMap (task : MapTask)
| ReplyReduce (task : ReduceTask)
| ReplyDone.

Implicit Types c : Coordinator.

Definition set_mt (s : TaskState) (t : MapTask) : MapTask :=
  mkMapTask (mt_Id t) (mt_FileName t) (mt_NReduce t) s.
Definition set_rt (s : TaskState) (t : ReduceTask) : ReduceTask :=
  mkReduceTask (rt_Id t) (rt_NMap t) s.

Definition setMapState c (i : nat) (s : TaskState) : Coordinator :=
  mkCoordinator (mapTasksDone c) (c_done c) (alter (set_mt s) i (MapTasks c)) (ReduceTasks c)
    (mapTimers c) (reduceTimers c).
Definition setReduceState c (i : nat) (s : TaskState) : Coordinator :=
  mkCoordinator (mapTasksDone c) (c_done c) (MapTasks c) (alter (set_rt s) i (ReduceTasks c))
    (mapTimers c) (reduceTimers c).

Definition MapTasksDone c : Coordinator * bool :=
  if mapTasksDone c then (c, true)
  else if forallb (λ t, bool_decide (mt_State t = FINISHED)) (MapTasks c) then
    (mkCoordinator true (c_done c) (MapTasks c) (ReduceTasks c) (mapTimers c) (reduceTimers c), true)
  else (c, false).

Definition Done c : Coordinator * bool :=
  if c_done c then (c, true)
  else if forallb (λ t, bool_decide (rt_State t = FINISHED)) (ReduceTasks c) then
    (mkCoordinator (mapTasksDone c) true (MapTasks c) (ReduceTasks c) (mapTimers c) (reduceTimers c), true)
  else (c, false).

(** The first waiting task: its position and the task. *)
Definition fetchMapTask c : option (nat * MapTask) :=
  list_find (λ t, mt_State t = WAITTING) (MapTasks c).
Definition fetchReduceTask c : option (nat * ReduceTask) :=
  list_find (λ t, rt_State t = WAITTING) (ReduceTasks c).

Definition mapTaskStarted c (i : nat) : Coordinator :=
  let c := setMapState c i STARTED in
  mkCoordinator (mapTasksDone c) (c_done c) (MapTasks c) (ReduceTasks c) (i :: mapTimers c) (reduceTimers c).
Definition reduceTaskStarted c (i : nat) : Coordinator :=
  let c := setReduceState c i STARTED in
  mkCoordinator (mapTasksDone c) (c_done c) (MapTasks c) (ReduceTasks c) (mapTimers c) (i :: reduceTimers c).

(** The recovery goroutines when their time is up. *)
Definition recoverMap c (i : nat) : Coordinator :=
  let c := mkCoordinator (mapTasksDone c) (c_done c) (MapTasks c) (ReduceTasks c)
             (filter (λ j, j ≠ i) (mapTimers c)) (reduceTimers c) in
  match MapTasks c !! i with
  | Some t => if bool_decide (mt_State t ≠ FINISHED) then setMapState c i WAITTING else c
  | None => c
  end.
Definition recoverReduce c (i : nat) : Coordinator :=
  let c := mkCoordinator (mapTasksDone c) (c_done c) (MapTasks c) (ReduceTasks c)
             (mapTimers c) (filter (λ j, j ≠ i) (reduceTimers c)) in
  match ReduceTasks c !! i with
  | Some t => if bool_decide (rt_State t ≠ FINISHED) then setReduceState c i WAITTING else c
  | None => c
  end.

(** [None]: the worker waits on the condition variable.  The reply points to
    the task, which is [STARTED] by the time it is encoded. *)
Definition FetchTask c : Coordinator * option FetchTaskReply :=
  let '(c, mapDone) := MapTasksDone c in
  if mapDone : bool then
    let '(c, allDone) := Done c in
    if allDone : bool then (c, Some ReplyDone)
    else match fetchReduceTask c with
         | Some (i, t) => (reduceTaskStarted c i, Some (ReplyReduce (set_rt STARTED t)))
         | None => (c, None)
         end
  else match fetchMapTask c with
       | Some (i, t) => (mapTaskStarted c i, Some (ReplyMap (set_mt STARTED t)))
       | None => (c, None)
       end.

Definition MapTaskFinished c (taskId : Z) : Res Coordinator :=
  _ ← idx (MapTasks c) taskId;
  Ok (fst (MapTasksDone (setMapState c (Z.to_nat taskId) FINISHED))).

Definition ReduceTaskFinished c (taskId : Z) : Res Coordinator :=
  _ ← idx (ReduceTasks c) taskId;
  Ok (fst (Done (setReduceState c (Z.to_nat taskId) FINISHED))).

Definition MakeCoordinator (files : list string) (nReduce : nat) : Coordinator :=
  mkCoordinator false false
    (imap (λ i f, mkMapTask (Z.of_nat i) f (Z.of_nat nReduce) WAITTING) files)
    ((λ i, mkReduceTask (Z.of_nat i) (zlen files) WAITTING) <$> seq 0 nReduce) [] [].

(** Everything that can happen at the coordinator; workers may report any
    task, also one they lost to another worker. *)
Inductive coord_step c : Coordinator → Prop :=
| coord_fetch c' r : FetchTask c = (c', r) → coord_step c c'
| coord_map_finished i c' : MapTaskFinished c i = Ok c' → coord_step c c'
| coord_reduce_finished i c' : ReduceTaskFinished c i = Ok c' → coord_step c c'
| coord_recover_map i : i ∈ mapTimers c → coord_step c (recoverMap c i)
| coord_recover_reduce i : i ∈ reduceTimers c → coord_step c (recoverReduce c i).

(** ** The worker *)

Record KeyValue : Type := mkKeyValue { Key : string; Value : string }.

Global Instance KeyValue_eq_dec : EqDecision KeyValue.
Proof. solve_decision. Defined.

(** FNV-1a, 32 bits, and the mask that makes it non-negative. *)
Fixpoint fnv32a (h : Z) (key : string) : Z :=
  match key with
  | EmptyString => h
  | String b key =>
      fnv32a ((Z.lxor h (Z.of_nat (Ascii.nat_of_ascii b)) * 16777619) mod 2 ^ 32)%Z key
  end.

Definition ihash (key : string) : Z := Z.land (fnv32a 2166136261 key) (Z.ones 31).

(** Intermediate files by map and reduce task; output files by reduce task. *)
Abbreviation Files := (gmap (Z * Z) (list KeyValue)).
Abbreviation Outs := (gmap Z (list (string * string))).

Section Worker.
Context (mapf : string → string → list KeyValue) (reducef : string → list string → string).
Context (sortf : list KeyValue → list KeyValue) (json : KeyValue → KeyValue).

(** Step 3 of [doMapTask]: the pairs by reduce task. *)
Definition partition (kva : list KeyValue) (nReduce : Z) : Res (list (list KeyValue)) :=
  foldM (λ omap kv,
    let i := Z.rem (ihash (Key kv)) nReduce in
    part ← idx omap i; upd omap i (part ++ [kv])) (replicate (Z.to_nat nReduce) []) kva.

(** Step 4: one file per reduce task, each put in place by a rename. *)
Definition writeParts (id : Z) (parts : list (list KeyValue)) (fs : Files) : Files :=
  foldl (λ fs '(i, part), <[(id, i) := json <$> part]> fs) fs
    (imap (λ i part, (Z.of_nat i, part)) parts).

(** [inputs]: the contents of the input files; a missing one is fatal. *)
Definition mapParts (inputs : gmap string string) (task : MapTask) : Res (list (list KeyValue)) :=
  match inputs !! mt_FileName task with
  | None => Panic
  | Some content => partition (mapf (mt_FileName task) content) (mt_NReduce task)
  end.

Definition doMapTask (inputs : gmap string string) (fs : Files) (task : MapTask) : Res Files :=
  omap ← mapParts inputs task;
  Ok (writeParts (mt_Id task) omap fs).

(** The pairs at the head of the list with the given key: their values, and
    the rest. *)
Fixpoint span_key (k : string) (l : list KeyValue) : list string * list KeyValue :=
  match l with
  | kv :: l' =>
      if bool_decide (Key kv = k) then
        let '(vs, rest) := span_key k l' in (Value kv :: vs, rest)
      else ([], l)
  | [] => ([], [])
  end.

(** The output loop: one line per group of equal keys. *)
Fixpoint reduce_loop (fuel : nat) (l : list KeyValue) : option (list (string * string)) :=
  match l with
  | [] => Some []
  | kv :: l' =>
      match fuel with
      | O => None
      | S fuel =>
          let '(vs, rest) := span_key (Key kv) l' in
          out ← reduce_loop fuel rest;
          Some ((Key kv, reducef (Key kv) (Value kv :: vs)) :: out)
      end
  end.

(** Collecting the intermediate files of a reduce task. *)
Definition collect (fs : Files) (task : ReduceTask) : Res (list KeyValue) :=
  foldM (λ acc i, match fs !! (Z.of_nat i, rt_Id task) with
                  | Some kvs => Ok (acc ++ kvs)
                  | None => Panic
                  end) [] (seq 0 (Z.to_nat (rt_NMap task))).

(** The lines of the output file. *)
Definition doReduceTask (fs : Files) (task : ReduceTask) : Res (list (string * string)) :=
  intermediate ← collect fs task;
  let sorted := sortf intermediate in
  match reduce_loop (length sorted) sorted with
  | Some out => Ok out
  | None => Panic
  end.

(** ** The sequential program *)

Definition mrsequential (inputs : gmap string string) (files : list string) : Res (list (string * string)) :=
  intermediate ← foldM (λ acc f, match inputs !! f with
                                 | Some content => Ok (acc ++ mapf f content)
                                 | None => Panic
                                 end) [] files;
  let sorted := sortf intermediate in
  match reduce_loop (length sorted) sorted with
  | Some out => Ok out
  | None => Panic
  end.

(** ** The job: the coordinator, the workers and the files *)

(** [mapWork] and [reduceWork]: the tasks some worker was given; it may do
    the task, be slow, do it again after it was given to another worker, or
    crash.  [mapReports] and [reduceReports]: the calls of [MapTaskFinished]
    and [ReduceTaskFinished] that were sent. *)
Record Job : Type := mkJob {
  j_coord : Coordinator;
  j_files : Files;
  j_outs : Outs;
  mapWork : list MapTask;
  reduceWork : list ReduceTask;
  mapReports : list Z;
  reduceReports : list Z;
}.

Definition initJob (files : list string) (nReduce : nat) : Job :=
  mkJob (MakeCoordinator files nReduce) ∅ ∅ [] [] [] [].

Inductive job_step (inputs : gmap string string) : Job → Job → Prop :=
| job_fetch c c' fs os mw rw mr rr r :
    FetchTask c = (c', r) →
    job_step inputs (mkJob c fs os mw rw mr rr)
      (mkJob c' fs os (match r with Some (ReplyMap t) => t :: mw | _ => mw end)
                      (match r with Some (ReplyReduce t) => t :: rw | _ => rw end) mr rr)
| job_map c fs fs' os mw rw mr rr t :
    t ∈ mw → doMapTask inputs fs t = Ok fs' →
    job_step inputs (mkJob c fs os mw rw mr rr) (mkJob c fs' os mw rw (mt_Id t :: mr) rr)
| job_map_crash c fs os mw rw mr rr t parts k :
    (** the worker dies after it wrote [k] of the files *)
    t ∈ mw → mapParts inputs t = Ok parts →
    job_step inputs (mkJob c fs os mw rw mr rr)
      (mkJob c (writeParts (mt_Id t) (take k parts) fs) os mw rw mr rr)
| job_reduce c fs os mw rw mr rr t out :
    t ∈ rw → doReduceTask fs t = Ok out →
    job_step inputs (mkJob c fs os mw rw mr rr) (mkJob c fs (<[rt_Id t := out]> os) mw rw mr (rt_Id t :: rr))
| job_map_report c c' fs os mw rw mr rr i :
    i ∈ mr → MapTaskFinished c i = Ok c' →
    job_step inputs (mkJob c fs os mw rw mr rr) (mkJob c' fs os mw rw mr rr)
| job_reduce_report c c' fs os mw rw mr rr i :
    i ∈ rr → ReduceTaskFinished c i = Ok c' →
    job_step inputs (mkJob c fs os mw rw mr rr) (mkJob c' fs os mw rw mr rr)
| job_recover_map c fs os mw rw mr rr i :
    i ∈ mapTimers c → job_step inputs (mkJob c fs os mw rw mr rr) (mkJob (recoverMap c i) fs os mw rw mr rr)
| job_recover_reduce c fs os mw rw mr rr i :
    i ∈ reduceTimers c → job_step inputs (mkJob c fs os mw rw mr rr) (mkJob (recoverReduce c i) fs os mw rw mr rr).
End Worker.

(** ** The task state machine *)

Definition maps_finished c : Prop := ∀ t, t ∈ MapTasks c → mt_State t = FINISHED.
Definition reduces_finished c : Prop := ∀ t, t ∈ ReduceTasks c → rt_State t = FINISHED.

(** A running task has a timer; the cached flags are right; and only the
    states of the tasks ever change. *)
Record coord_wf (files : list string) (nReduce : nat) c : Prop := {
  cw_map : mapTasksDone c = true → maps_finished c;
  cw_done : c_done c = true → reduces_finished c;
  cw_mt : ∀ i t, MapTasks c !! i = Some t → mt_State t = STARTED → i ∈ mapTimers c;
  cw_rt : ∀ i t, ReduceTasks c !! i = Some t → rt_State t = STARTED → i ∈ reduceTimers c;
  cw_mstatic : set_mt WAITTING <$> MapTasks c = MapTasks (MakeCoordinator files nReduce);
  cw_rstatic : set_rt WAITTING <$> ReduceTasks c = ReduceTasks (MakeCoordinator files nReduce);
}.

Lemma forallb_finished {A} (f : A → TaskState) l :
  forallb (λ t, bool_decide (f t = FINISHED)) l = true ↔ ∀ t, t ∈ l → f t = FINISHED.
Proof.
  rewrite forallb_forall. split.
  - intros H t Ht. apply (bool_decide_eq_true (f t = FINISHED)), H. by apply list_elem_of_In.
  - intros H t Ht. apply bool_decide_eq_true, H. by apply list_elem_of_In.
Qed.

Lemma MapTasksDone_spec files n c c' b :
  coord_wf files n c → MapTasksDone c = (c', b) →
  coord_wf files n c' ∧ MapTasks c' = MapTasks c ∧ ReduceTasks c' = ReduceTasks c ∧
  mapTimers c' = mapTimers c ∧ reduceTimers c' = reduceTimers c ∧ (b = true ↔ maps_finished c).
Proof.
  intros Hwf H. unfold MapTasksDone in H. destruct (mapTasksDone c) eqn:E.
  { simplify_eq. split_and!; try done. split; [|done]. intros _. by apply (cw_map _ _ _ Hwf). }
  pose proof (forallb_finished mt_State (MapTasks c)) as Hf.
  destruct (forallb _ _); simplify_eq; split_and!; try done.
  destruct Hwf. split; try done. intros _ t Ht. by apply Hf.
Qed.

Lemma Done_spec files n c c' b :
  coord_wf files n c → Done c = (c', b) →
  coord_wf files n c' ∧ MapTasks c' = MapTasks c ∧ ReduceTasks c' = ReduceTasks c ∧
  mapTimers c' = mapTimers c ∧ reduceTimers c' = reduceTimers c ∧ (b = true ↔ reduces_finished c).
Proof.
  intros Hwf H. unfold Done in H. destruct (c_done c) eqn:E.
  { simplify_eq. split_and!; try done. split; [|done]. intros _. by apply (cw_done _ _ _ Hwf). }
  pose proof (forallb_finished rt_State (ReduceTasks c)) as Hf.
  destruct (forallb _ _); simplify_eq; split_and!; try done.
  destruct Hwf. split; try done. intros _ t Ht. by apply Hf.
Qed.

Lemma alter_mt_static s (i : nat) (l : list MapTask) : set_mt WAITTING <$> alter (set_mt s) i l = set_mt WAITTING <$> l.
Proof.
  apply list_eq. intros j. rewrite !list_lookup_fmap. destruct (decide (i = j)) as [<-|].
  - rewrite list_lookup_alter_eq. by destruct (l !! i).
  - by rewrite list_lookup_alter_ne.
Qed.

Lemma alter_rt_static s (i : nat) (l : list ReduceTask) : set_rt WAITTING <$> alter (set_rt s) i l = set_rt WAITTING <$> l.
Proof.
  apply list_eq. intros j. rewrite !list_lookup_fmap. destruct (decide (i = j)) as [<-|].
  - rewrite list_lookup_alter_eq. by destruct (l !! i).
  - by rewrite list_lookup_alter_ne.
Qed.

(** Changing the state of a map task that is not finished, or finishing it. *)
Lemma setMapState_wf files n c i s timers :
  coord_wf files n c →
  (s = STARTED → i ∈ timers) → (∀ j, j ≠ i → j ∈ mapTimers c → j ∈ timers) →
  (mapTasksDone c = true → s = FINISHED) →
  coord_wf files n (mkCoordinator (mapTasksDone c) (c_done c) (alter (set_mt s) i (MapTasks c)) (ReduceTasks c)
    timers (reduceTimers c)).
Proof.
  intros [Hm Hd Hmt Hrt Hms Hrs] Hs Ht Hfin. split; simpl; try done.
  - intros Hdone t [j Hj]%list_elem_of_lookup. simpl in Hj. destruct (decide (i = j)) as [<-|].
    + rewrite list_lookup_alter_eq in Hj. destruct (MapTasks c !! i) eqn:E; [|done]. injection Hj as <-. by apply Hfin.
    + rewrite list_lookup_alter_ne in Hj by done. eapply Hm; [done|]. by eapply list_elem_of_lookup_2.
  - intros j t Hj Hst. destruct (decide (i = j)) as [<-|].
    + rewrite list_lookup_alter_eq in Hj. destruct (MapTasks c !! i); [|done]. injection Hj as <-. by apply Hs.
    + rewrite list_lookup_alter_ne in Hj by done. apply Ht; [done|]. by eapply Hmt.
  - by rewrite alter_mt_static.
Qed.

Lemma setReduceState_wf files n c i s timers :
  coord_wf files n c →
  (s = STARTED → i ∈ timers) → (∀ j, j ≠ i → j ∈ reduceTimers c → j ∈ timers) →
  (c_done c = true → s = FINISHED) →
  coord_wf files n (mkCoordinator (mapTasksDone c) (c_done c) (MapTasks c) (alter (set_rt s) i (ReduceTasks c))
    (mapTimers c) timers).
Proof.
  intros [Hm Hd Hmt Hrt Hms Hrs] Hs Ht Hfin. split; simpl; try done.
  - intros Hdone t [j Hj]%list_elem_of_lookup. simpl in Hj. destruct (decide (i = j)) as [<-|].
    + rewrite list_lookup_alter_eq in Hj. destruct (ReduceTasks c !! i) eqn:E; [|done]. injection Hj as <-. by apply Hfin.
    + rewrite list_lookup_alter_ne in Hj by done. eapply Hd; [done|]. by eapply list_elem_of_lookup_2.
  - intros j t Hj Hst. destruct (decide (i = j)) as [<-|].
    + rewrite list_lookup_alter_eq in Hj. destruct (ReduceTasks c !! i); [|done]. injection Hj as <-. by apply Hs.
    + rewrite list_lookup_alter_ne in Hj by done. apply Ht; [done|]. by eapply Hrt.
  - by rewrite alter_rt_static.
Qed.

Lemma coord_step_wf files n c c' : coord_wf files n c → coord_step c c' → coord_wf files n c'.
Proof.
  intros Hwf Hs. destruct Hs as [c' r H|i c' H|i c' H|i Hi|i Hi].
  - unfold FetchTask in H. destruct (MapTasksDone c) as [c1 b1] eqn:E1.
    destruct (MapTasksDone_spec _ _ _ _ _ Hwf E1) as (Hwf1 & Hm1 & _ & _ & _ & Hb1). destruct b1.
    + destruct (Done c1) as [c2 b2] eqn:E2.
      destruct (Done_spec _ _ _ _ _ Hwf1 E2) as (Hwf2 & _ & Hr2 & _ & _ & Hb2). destruct b2; [by simplify_eq|].
      destruct (fetchReduceTask c2) as [[i t]|]; simplify_eq; [|done].
      apply (setReduceState_wf _ _ c2 i STARTED); [done|by left|by right|].
      intros Hd. apply (cw_done _ _ _ Hwf2) in Hd. unfold reduces_finished in Hd, Hb2. rewrite Hr2 in Hd.
      by apply Hb2 in Hd.
    + destruct (fetchMapTask c1) as [[i t]|]; simplify_eq; [|done].
      apply (setMapState_wf _ _ c1 i STARTED); [done|by left|by right|].
      intros Hd. apply (cw_map _ _ _ Hwf1) in Hd. unfold maps_finished in Hd, Hb1. rewrite Hm1 in Hd.
      by apply Hb1 in Hd.
  - unfold MapTaskFinished in H. res_inv. destruct (MapTasksDone _) as [c1 b1] eqn:E1.
    apply (MapTasksDone_spec files n) in E1 as [? _]; [by simplify_eq/=|]. by apply (setMapState_wf _ _ c _ FINISHED (mapTimers c)).
  - unfold ReduceTaskFinished in H. res_inv. destruct (Done _) as [c1 b1] eqn:E1.
    apply (Done_spec files n) in E1 as [? _]; [by simplify_eq/=|]. by apply (setReduceState_wf _ _ c _ FINISHED (reduceTimers c)).
  - unfold recoverMap; simpl. destruct (MapTasks c !! i) as [t|] eqn:E.
    + case_bool_decide as Hf.
      * apply (setMapState_wf _ _ c); [done|done|intros j Hj Hin; by apply list_elem_of_filter|].
        intros Hd. destruct Hf. eapply (cw_map _ _ _ Hwf Hd). by eapply list_elem_of_lookup_2.
      * destruct Hwf as [? ? Hmt ? ? ?]. split; simpl; try done. intros j t' Hj Hst. apply list_elem_of_filter.
        split; [intros ->; congruence|by eapply Hmt].
    + destruct Hwf as [? ? Hmt ? ? ?]. split; simpl; try done. intros j t' Hj Hst. apply list_elem_of_filter.
      split; [intros ->; congruence|by eapply Hmt].
  - unfold recoverReduce; simpl. destruct (ReduceTasks c !! i) as [t|] eqn:E.
    + case_bool_decide as Hf.
      * apply (setReduceState_wf _ _ c); [done|done|intros j Hj Hin; by apply list_elem_of_filter|].
        intros Hd. destruct Hf. eapply (cw_done _ _ _ Hwf Hd). by eapply list_elem_of_lookup_2.
      * destruct Hwf as [? ? ? Hrt ? ?]. split; simpl; try done. intros j t' Hj Hst. apply list_elem_of_filter.
        split; [intros ->; congruence|by eapply Hrt].
    + destruct Hwf as [? ? ? Hrt ? ?]. split; simpl; try done. intros j t' Hj Hst. apply list_elem_of_filter.
      split; [intros ->; congruence|by eapply Hrt].
Qed.

Lemma MakeCoordinator_wf files n : coord_wf files n (MakeCoordinator files n).
Proof.
  split; try done.
  - intros i t Hi Hs. simpl in Hi. rewrite list_lookup_imap in Hi. destruct (files !! i); [|done].
    injection Hi as <-. done.
  - intros i t Hi Hs. simpl in Hi. rewrite list_lookup_fmap in Hi. destruct (seq 0 n !! i); [|done].
    injection Hi as <-. done.
  - simpl. apply list_eq. intros i. rewrite list_lookup_fmap, !list_lookup_imap. by destruct (files !! i).
  - simpl. apply list_eq. intros i. rewrite !list_lookup_fmap. by destruct (seq 0 n !! i).
Qed.

(** A phase that is not over and has no waiting task has a running one. *)
Lemma some_started {A} (f : A → TaskState) l :
  ¬ (∀ t, t ∈ l → f t = FINISHED) → Forall (λ t, f t ≠ WAITTING) l →
  ∃ i t, l !! i = Some t ∧ f t = STARTED.
Proof.
  intros Hn Hw. destruct (decide (Exists (λ t, f t ≠ FINISHED) l)) as [(t & Ht & Hnf)%Exists_exists|Hall].
  - apply list_elem_of_lookup in Ht as [i Hi]. exists i, t. split; [done|].
    rewrite Forall_lookup in Hw. specialize (Hw i t Hi). by destruct (f t).
  - destruct Hn. intros t Ht. destruct (decide (f t = FINISHED)) as [|Hnf]; [done|].
    destruct Hall. apply Exists_exists. by exists t.
Qed.

(** The task protocol.  In every reachable state, a map task is handed
    out only while it waits, and gets a timer; a reduce task only after every
    map task is finished; a worker is told that the job is done only when
    every task is; and a worker that waits can rely on a task of the current
    phase that is running with its timer pending, so it is not forgotten. *)
Theorem FetchTask_spec files n c :
  rtc coord_step (MakeCoordinator files n) c →
  match FetchTask c with
  | (c', Some (ReplyMap t)) => ∃ i t0, MapTasks c !! i = Some t0 ∧ mt_State t0 = WAITTING ∧
      t = set_mt STARTED t0 ∧ MapTasks c' !! i = Some t ∧ i ∈ mapTimers c'
  | (c', Some (ReplyReduce t)) => maps_finished c ∧ ∃ i t0, ReduceTasks c !! i = Some t0 ∧
      rt_State t0 = WAITTING ∧ t = set_rt STARTED t0 ∧ ReduceTasks c' !! i = Some t ∧ i ∈ reduceTimers c'
  | (_, Some ReplyDone) => maps_finished c ∧ reduces_finished c
  | (c', None) =>
      (∃ i t, MapTasks c !! i = Some t ∧ mt_State t = STARTED ∧ i ∈ mapTimers c') ∨
      maps_finished c ∧ ∃ i t, ReduceTasks c !! i = Some t ∧ rt_State t = STARTED ∧ i ∈ reduceTimers c'
  end.
Proof.
  intros Hr. assert (Hwf : coord_wf files n c).
  { eapply rtc_preserve; [apply coord_step_wf|apply MakeCoordinator_wf|done]. }
  unfold FetchTask. destruct (MapTasksDone c) as [c1 b1] eqn:E1.
  destruct (MapTasksDone_spec _ _ _ _ _ Hwf E1) as (Hwf1 & Hm1 & Hr1 & Ht1 & _ & Hb1). destruct b1.
  - assert (Hmf : maps_finished c) by (by apply Hb1). destruct (Done c1) as [c2 b2] eqn:E2.
    destruct (Done_spec _ _ _ _ _ Hwf1 E2) as (Hwf2 & _ & Hr2 & _ & _ & Hb2).
    unfold reduces_finished in *. rewrite Hr1 in Hb2, Hr2. destruct b2; [split; [done|by apply Hb2]|].
    unfold fetchReduceTask. destruct (list_find _ _) as [[i t]|] eqn:E3.
    + apply list_find_Some in E3 as (Hi & Hw & _). rewrite Hr2 in Hi. split; [done|].
      exists i, t. split_and!; [done..|simpl|left]. rewrite list_lookup_alter_eq, Hr2, Hi. done.
    + right. split; [done|]. apply list_find_None in E3. rewrite Hr2 in E3.
      destruct (some_started rt_State (ReduceTasks c)) as (i & t & Hi & Hs); [by rewrite <-Hb2|done|].
      exists i, t. split_and!; [done..|]. eapply (cw_rt _ _ _ Hwf2); [by rewrite Hr2|done].
  - unfold maps_finished in Hb1. unfold fetchMapTask. destruct (list_find _ _) as [[i t]|] eqn:E3.
    + apply list_find_Some in E3 as (Hi & Hw & _). rewrite Hm1 in Hi.
      exists i, t. split_and!; [done..|simpl|left]. rewrite list_lookup_alter_eq, Hm1, Hi. done.
    + left. apply list_find_None in E3. rewrite Hm1 in E3.
      destruct (some_started mt_State (MapTasks c)) as (i & t & Hi & Hs); [by rewrite <-Hb1|done|].
      exists i, t. split_and!; [done..|]. eapply (cw_mt _ _ _ Hwf1); [by rewrite Hm1|done].
Qed.
