(* ===== verification/MapReduceJob.v ===== *)
(** * Correctness of a MapReduce job (src/mr, src/main/mrsequential.go)

    Over the definitions of [MapReduce]: the output loop computes one line
    per distinct key, with all its values; partitioning by hash puts all the
    pairs of a key into the same reduce task; and in every interleaving of
    workers that are slow, repeat a task or crash while writing, the output
    files of a job that the coordinator reports as done hold together exactly
    the lines of the sequential program.  The last section is about map
    functions that give their pairs in another order at every call. *)

From stdpp Require Import strings base gmap list sorting.
From Stdlib Require Import ZArith Lia Ascii.
From S2P Require Import Prelude MapReduce.

Section Job.
Context (mapf : string → string → list KeyValue) (reducef : string → list string → string).
Context (sortf : list KeyValue → list KeyValue) (json : KeyValue → KeyValue).

Definition key_le (a b : KeyValue) : Prop := String.le (Key a) (Key b).

(** The values of a key, in order. *)
Definition values (k : string) (l : list KeyValue) : list string :=
  Value <$> filter (λ kv, Key kv = k) l.

(** What an output must be for the pairs [l]: one line for each distinct
    key, made from all the values of the key. *)
Definition groups (l : list KeyValue) (out : list (string * string)) : Prop :=
  NoDup out.*1 ∧ ∀ k v, (k, v) ∈ out ↔ k ∈ Key <$> l ∧ v = reducef k (values k l).

Lemma span_key_spec k l vs rest :
  span_key k l = (vs, rest) →
  ∃ l1, l = l1 ++ rest ∧ Forall (λ kv, Key kv = k) l1 ∧ vs = Value <$> l1 ∧
        (∀ kv l', rest = kv :: l' → Key kv ≠ k).
Proof.
  revert vs rest. induction l as [|kv l IH]; intros vs rest H; simpl in H.
  { simplify_eq. by exists []. }
  case_bool_decide as Hk; [|simplify_eq; exists []; split_and!; [done..|]; intros ? ? [= <- <-]; done].
  destruct (span_key k l) as [vs' rest'] eqn:E. simplify_eq.
  destruct (IH _ _ eq_refl) as (l1 & -> & Hl1 & -> & Hr). exists (kv :: l1). split_and!; try done. by constructor.
Qed.

(** In a sorted list nothing after the group of the first key has this key. *)
Lemma sorted_group_end kv l1 rest :
  StronglySorted key_le (kv :: l1 ++ rest) → (∀ kv' l', rest = kv' :: l' → Key kv' ≠ Key kv) →
  ∀ x, x ∈ rest → Key x ≠ Key kv.
Proof.
  intros [Hle Hs]%StronglySorted_cons Hhd x Hx Heq. apply StronglySorted_app_1_r in Hs.
  rewrite Forall_forall in Hle. destruct rest as [|y rest]; [by apply elem_of_nil in Hx|].
  apply (Hhd y rest eq_refl). apply (anti_symm String.le).
  - rewrite <-Heq. apply StronglySorted_cons in Hs as [Hy _]. rewrite Forall_forall in Hy.
    apply elem_of_cons in Hx as [->|Hx]; [done|]. by apply Hy.
  - apply (Hle y). apply elem_of_app. right. left.
Qed.

Lemma values_app k l1 l2 : values k (l1 ++ l2) = values k l1 ++ values k l2.
Proof. unfold values. by rewrite filter_app, fmap_app. Qed.

Lemma values_all k l : Forall (λ kv, Key kv = k) l → values k l = Value <$> l.
Proof. intros H. unfold values. rewrite list_filter_all; [done|]. by apply Forall_forall. Qed.

Lemma values_none k l : (∀ kv, kv ∈ l → Key kv ≠ k) → values k l = [].
Proof. intros H. unfold values. rewrite list_filter_none; [done|]. by apply H. Qed.

(** Outputs for pairs with different keys can be put together. *)
Lemma groups_app l1 l2 o1 o2 :
  (∀ x y, x ∈ l1 → y ∈ l2 → Key x ≠ Key y) → groups l1 o1 → groups l2 o2 → groups (l1 ++ l2) (o1 ++ o2).
Proof.
  intros Hd [Hn1 H1] [Hn2 H2].
  assert (E1 : ∀ k, k ∈ Key <$> l2 → values k l1 = []).
  { intros k (y & -> & Hy)%list_elem_of_fmap. apply values_none. intros x Hx. by apply Hd. }
  assert (E2 : ∀ k, k ∈ Key <$> l1 → values k l2 = []).
  { intros k (x & -> & Hx)%list_elem_of_fmap. apply values_none. intros y Hy Heq. by apply (Hd x y). }
  split.
  - rewrite fmap_app. apply NoDup_app. split_and!; [done| |done].
    intros k ([? v1] & -> & Hv1)%list_elem_of_fmap ([? v2] & Heq & Hv2)%list_elem_of_fmap; simpl in *; subst.
    apply H1 in Hv1 as [(x & -> & Hx)%list_elem_of_fmap _]. apply H2 in Hv2 as [(y & Hxy & Hy)%list_elem_of_fmap _].
    by apply (Hd x y).
  - intros k v. rewrite elem_of_app, H1, H2, fmap_app, elem_of_app, values_app. split.
    + intros [[Hk ->]|[Hk ->]]; (split; [by auto|]); [by rewrite (E2 k Hk), app_nil_r|by rewrite (E1 k Hk)].
    + intros [[Hk|Hk] ->]; [left|right]; (split; [done|]); [by rewrite (E2 k Hk), app_nil_r|by rewrite (E1 k Hk)].
Qed.

Lemma groups_single k l : l ≠ [] → Forall (λ kv, Key kv = k) l → groups l [(k, reducef k (Value <$> l))].
Proof.
  intros Hne Hl. rewrite <-(values_all k l Hl). split; [apply NoDup_singleton|]. intros k' v.
  rewrite list_elem_of_singleton. rewrite Forall_forall in Hl. split.
  - intros [= -> ->]. split; [|done]. destruct l as [|x l]; [done|]. rewrite <-(Hl x) by left. left.
  - intros [(x & -> & Hx)%list_elem_of_fmap ->]. by rewrite (Hl x Hx).
Qed.

(** The output loop ends within as many rounds as there are pairs. *)
Lemma reduce_loop_spec fuel s :
  length s ≤ fuel → StronglySorted key_le s → ∃ out, reduce_loop reducef fuel s = Some out ∧ groups s out.
Proof.
  revert s. induction fuel as [|fuel IH]; intros [|kv s] Hlen Hs; simpl in Hlen; try lia.
  1,2: exists []; split; [done|]; split; [constructor|]; intros k v; rewrite !elem_of_nil; naive_solver.
  simpl. destruct (span_key (Key kv) s) as [vs rest] eqn:E.
  apply span_key_spec in E as (l1 & -> & Hl1 & -> & Hr).
  assert (Hend := sorted_group_end _ _ _ Hs Hr). rewrite length_app in Hlen.
  destruct (IH rest) as (out & -> & Hg); [lia| |].
  { apply StronglySorted_cons in Hs as [_ Hs]. by apply StronglySorted_app_1_r in Hs. }
  eexists. split; [done|]. apply (groups_app (kv :: l1) rest [_] out); [|by apply groups_single; [|constructor]|done].
  intros x y Hx Hy Heq. apply (Hend y Hy). rewrite <-Heq.
  apply elem_of_cons in Hx as [->|Hx]; [done|]. rewrite Forall_forall in Hl1. by apply Hl1.
Qed.

Lemma groups_unique l o1 o2 : groups l o1 → groups l o2 → o1 ≡ₚ o2.
Proof.
  intros [Hn1 H1] [Hn2 H2]. apply NoDup_Permutation; [by eapply NoDup_fmap_1..|].
  intros [k v]. by rewrite H1, H2.
Qed.

(** Up to the order of its lines, the output does not depend on the order of
    the pairs when the application's reduce function does not. *)
Lemma groups_perm l l' out :
  (∀ k vs vs', vs ≡ₚ vs' → reducef k vs = reducef k vs') → l ≡ₚ l' → groups l out → groups l' out.
Proof.
  intros Hred Hp [Hnd H]. split; [done|]. intros k v.
  rewrite H, (Hred k (values k l) (values k l')) by (unfold values; by rewrite Hp). by rewrite Hp.
Qed.

(** ** Partitioning *)

Definition in_bucket (n : nat) (r : nat) (kv : KeyValue) : Prop :=
  Z.rem (ihash (Key kv)) (Z.of_nat n) = Z.of_nat r.

Global Instance in_bucket_dec n r kv : Decision (in_bucket n r kv).
Proof. unfold in_bucket. apply _. Defined.

Lemma ihash_bounds k : (0 ≤ ihash k < 2 ^ 31)%Z.
Proof.
  unfold ihash. rewrite Z.land_ones by lia. apply Z.mod_pos_bound. lia.
Qed.

Lemma bucket_of n kv : 0 < n → ∃ r, r < n ∧ in_bucket n r kv.
Proof.
  intros Hn. pose proof (ihash_bounds (Key kv)) as Hb.
  exists (Z.to_nat (Z.rem (ihash (Key kv)) (Z.of_nat n))).
  pose proof (Z.rem_bound_pos (ihash (Key kv)) (Z.of_nat n)). unfold in_bucket. lia.
Qed.

Lemma partition_spec n kva :
  0 < n → partition kva (Z.of_nat n) = Ok ((λ r, filter (in_bucket n r) kva) <$> seq 0 n).
Proof.
  intros Hn. unfold partition. rewrite Nat2Z.id. induction kva as [|kv kva IH] using rev_ind.
  { cbn [foldM]. f_equal. apply list_eq. intros i. rewrite list_lookup_fmap.
    destruct (decide (i < n)).
    - rewrite lookup_replicate_2, lookup_seq_lt; done.
    - rewrite lookup_seq_ge by lia. apply lookup_replicate_None. lia. }
  rewrite foldM_app, IH. res_simpl. cbn [foldM]. destruct (bucket_of n kv Hn) as (r & Hr & Hb). unfold in_bucket in Hb. rewrite Hb.
  set (parts := (λ r, filter (in_bucket n r) kva) <$> seq 0 n).
  assert (Hp : parts !! r = Some (filter (in_bucket n r) kva)).
  { unfold parts. by rewrite list_lookup_fmap, lookup_seq_lt. }
  assert (idx parts (Z.of_nat r) = Ok (filter (in_bucket n r) kva)) as ->.
  { apply idx_Ok. rewrite Nat2Z.id. split; [lia|done]. }
  res_simpl. rewrite upd_in.
  2:{ apply lookup_lt_Some in Hp. unfold zlen. lia. }
  res_simpl. f_equal. rewrite Nat2Z.id. apply list_eq. intros i. rewrite list_lookup_fmap.
  destruct (decide (i = r)) as [->|Hne].
  - rewrite list_lookup_insert_eq by (by eapply lookup_lt_Some). rewrite lookup_seq_lt by done. simpl.
    by rewrite filter_app, filter_cons_True.
  - rewrite list_lookup_insert_ne by done. unfold parts. rewrite list_lookup_fmap.
    destruct (seq 0 n !! i) as [j|] eqn:E; [|done]. apply lookup_seq in E as [-> _]. simpl.
    rewrite filter_app, filter_cons_False, app_nil_r; [done|]. unfold in_bucket. lia.
Qed.

Lemma writeParts_spec id (parts : list (list KeyValue)) fs i r :
  writeParts json id parts fs !! (i, r) =
  if bool_decide (i = id ∧ 0 ≤ r)%Z then
    match parts !! Z.to_nat r with Some part => Some (json <$> part) | None => fs !! (i, r) end
  else fs !! (i, r).
Proof.
  unfold writeParts. induction parts as [|part parts IH] using rev_ind.
  { simpl. by case_bool_decide. }
  rewrite imap_app, foldl_app. simpl. rewrite Nat.add_0_r.
  destruct (decide ((i, r) = (id, Z.of_nat (length parts)))) as [[= -> ->]|Hne].
  - rewrite lookup_insert_eq, bool_decide_true, Nat2Z.id by lia.
    by rewrite lookup_app_r, Nat.sub_diag by lia.
  - rewrite lookup_insert_ne by congruence. rewrite IH. case_bool_decide as Hc; [|done].
    destruct Hc as [-> Hc]. destruct (decide (Z.to_nat r < length parts)).
    + by rewrite lookup_app_l by lia.
    + rewrite lookup_app_r by lia. rewrite (lookup_ge_None_2 parts) by lia.
      destruct (Z.to_nat r - length parts) eqn:E; [|done].
      exfalso. apply Hne. f_equal. lia.
Qed.

(** ** Which tasks are finished, and how each event changes that *)

Definition mfin (c : Coordinator) : list bool := (λ t, bool_decide (mt_State t = FINISHED)) <$> MapTasks c.
Definition rfin (c : Coordinator) : list bool := (λ t, bool_decide (rt_State t = FINISHED)) <$> ReduceTasks c.

Lemma maps_finished_mfin c : maps_finished c ↔ Forall (eq true) (mfin c).
Proof.
  unfold maps_finished, mfin. rewrite Forall_fmap, Forall_forall. apply forall_proper. intros t.
  simpl. by rewrite (comm _ true), bool_decide_eq_true.
Qed.

Lemma reduces_finished_rfin c : reduces_finished c ↔ Forall (eq true) (rfin c).
Proof.
  unfold reduces_finished, rfin. rewrite Forall_fmap, Forall_forall. apply forall_proper. intros t.
  simpl. by rewrite (comm _ true), bool_decide_eq_true.
Qed.

(** A change of state that does not finish the task, of one that is not
    finished. *)
Lemma fin_alter {A} (f : A → TaskState) (g : A → A) (i : nat) (l : list A) t :
  l !! i = Some t → f t ≠ FINISHED → f (g t) ≠ FINISHED →
  (λ t, bool_decide (f t = FINISHED)) <$> alter g i l = (λ t, bool_decide (f t = FINISHED)) <$> l.
Proof.
  intros Hi Ht Hg. apply list_eq. intros j. rewrite !list_lookup_fmap.
  destruct (decide (i = j)) as [<-|]; [|by rewrite list_lookup_alter_ne].
  rewrite list_lookup_alter_eq, Hi. simpl. f_equal.
  by rewrite (bool_decide_false (f t = FINISHED)), (bool_decide_false (f (g t) = FINISHED)).
Qed.

Lemma fin_finish {A} (f : A → TaskState) (g : A → A) (i : nat) (l : list A) :
  (∀ t, f (g t) = FINISHED) →
  (λ t, bool_decide (f t = FINISHED)) <$> alter g i l = <[i := true]> ((λ t, bool_decide (f t = FINISHED)) <$> l).
Proof.
  intros Hg. apply list_eq. intros j. rewrite list_lookup_fmap. destruct (decide (i = j)) as [<-|].
  - rewrite list_lookup_alter_eq. destruct (l !! i) as [t|] eqn:E; simpl.
    + rewrite list_lookup_insert_eq by (rewrite length_fmap; by eapply lookup_lt_Some).
      by rewrite bool_decide_true.
    + symmetry. apply lookup_ge_None. rewrite length_insert, length_fmap. by apply lookup_ge_None.
  - by rewrite list_lookup_alter_ne, list_lookup_insert_ne, list_lookup_fmap.
Qed.

Lemma MapTasksDone_tasks c c' b :
  MapTasksDone c = (c', b) → MapTasks c' = MapTasks c ∧ ReduceTasks c' = ReduceTasks c.
Proof. unfold MapTasksDone. intros H. repeat case_match; by simplify_eq/=. Qed.

Lemma Done_tasks c c' b : Done c = (c', b) → MapTasks c' = MapTasks c ∧ ReduceTasks c' = ReduceTasks c.
Proof. unfold Done. intros H. repeat case_match; by simplify_eq/=. Qed.

Lemma FetchTask_fin c c' r :
  FetchTask c = (c', r) →
  mfin c' = mfin c ∧ rfin c' = rfin c ∧
  (∀ t, r = Some (ReplyMap t) → ∃ t0, t0 ∈ MapTasks c ∧ t = set_mt STARTED t0) ∧
  (∀ t, r = Some (ReplyReduce t) → ∃ t0, t0 ∈ ReduceTasks c ∧ t = set_rt STARTED t0).
Proof.
  unfold FetchTask. destruct (MapTasksDone c) as [c1 b1] eqn:E1. apply MapTasksDone_tasks in E1 as [Hm1 Hr1].
  unfold mfin, rfin. rewrite <-Hm1, <-Hr1. destruct b1.
  - destruct (Done c1) as [c2 b2] eqn:E2. apply Done_tasks in E2 as [Hm2 Hr2]. rewrite <-Hm2, <-Hr2.
    destruct b2; [intros [= <- <-]; naive_solver|].
    unfold fetchReduceTask. destruct (list_find _ _) as [[i t]|] eqn:E; intros [= <- <-]; [|naive_solver].
    apply list_find_Some in E as (Hi & Hw & _). split_and!; simpl; [done| |done|].
    + eapply fin_alter; [done|by rewrite Hw|done].
    + intros ? [= <-]. exists t. split; [by eapply list_elem_of_lookup_2|done].
  - unfold fetchMapTask. destruct (list_find _ _) as [[i t]|] eqn:E; intros [= <- <-]; [|naive_solver].
    apply list_find_Some in E as (Hi & Hw & _). split_and!; simpl; [|done| |done].
    + eapply fin_alter; [done|by rewrite Hw|done].
    + intros ? [= <-]. exists t. split; [by eapply list_elem_of_lookup_2|done].
Qed.

Lemma recoverMap_fin c i : mfin (recoverMap c i) = mfin c ∧ rfin (recoverMap c i) = rfin c.
Proof.
  unfold recoverMap; simpl. destruct (MapTasks c !! i) as [t|] eqn:E; [|done]. case_bool_decide; [|done].
  split; [|done]. by apply (fin_alter mt_State (set_mt WAITTING) i (MapTasks c) t).
Qed.

Lemma recoverReduce_fin c i : mfin (recoverReduce c i) = mfin c ∧ rfin (recoverReduce c i) = rfin c.
Proof.
  unfold recoverReduce; simpl. destruct (ReduceTasks c !! i) as [t|] eqn:E; [|done]. case_bool_decide; [|done].
  split; [done|]. by apply (fin_alter rt_State (set_rt WAITTING) i (ReduceTasks c) t).
Qed.

Lemma MapTaskFinished_fin c i c' :
  MapTaskFinished c i = Ok c' → mfin c' = <[Z.to_nat i := true]> (mfin c) ∧ rfin c' = rfin c.
Proof.
  intros H. unfold MapTaskFinished in H. res_inv. destruct (MapTasksDone _) as [c1 b1] eqn:E1.
  apply MapTasksDone_tasks in E1 as [Hm Hr]. unfold mfin, rfin. simplify_eq/=. rewrite Hm, Hr.
  split; [|done]. by apply fin_finish.
Qed.

Lemma ReduceTaskFinished_fin c i c' :
  ReduceTaskFinished c i = Ok c' → mfin c' = mfin c ∧ rfin c' = <[Z.to_nat i := true]> (rfin c).
Proof.
  intros H. unfold ReduceTaskFinished in H. res_inv. destruct (Done _) as [c1 b1] eqn:E1.
  apply Done_tasks in E1 as [Hm Hr]. unfold mfin, rfin. simplify_eq/=. rewrite Hm, Hr.
  split; [done|]. by apply fin_finish.
Qed.

(** ** The invariant of a job *)

Context (inputs : gmap string string) (files : list string) (n : nat).

(** The pairs of input file [i], and all the pairs. *)
Definition emitted (i : nat) : list KeyValue :=
  match files !! i with
  | Some f => match inputs !! f with Some content => mapf f content | None => [] end
  | None => []
  end.
Definition emitted_upto (m : nat) : list KeyValue := concat (emitted <$> seq 0 m).
Definition all_emitted : list KeyValue := emitted_upto (length files).

(** The output of reduce task [r]. *)
Definition output_of (r : nat) (out : list (string * string)) : Prop :=
  let s := sortf (filter (in_bucket n r) all_emitted) in
  reduce_loop reducef (length s) s = Some out.

(** Everything written is right, whoever wrote it and however often; what is
    reported or finished is written; and reduce tasks are only out once every
    map task is finished. *)
Record job_inv (j : Job) : Prop := {
  ji_wf : coord_wf files n (j_coord j);
  ji_mw : ∀ t, t ∈ mapWork j → set_mt WAITTING t ∈ MapTasks (MakeCoordinator files n);
  ji_rw : ∀ t, t ∈ reduceWork j →
    set_rt WAITTING t ∈ ReduceTasks (MakeCoordinator files n) ∧ Forall (eq true) (mfin (j_coord j));
  ji_files : ∀ i r kvs, j_files j !! (Z.of_nat i, Z.of_nat r) = Some kvs →
    kvs = filter (in_bucket n r) (emitted i);
  ji_mrep : ∀ i, i ∈ mapReports j → (0 ≤ i)%Z ∧ ∀ r, r < n → is_Some (j_files j !! (i, Z.of_nat r));
  ji_mfin : ∀ i, mfin (j_coord j) !! i = Some true → ∀ r, r < n → is_Some (j_files j !! (Z.of_nat i, Z.of_nat r));
  ji_outs : ∀ r out, j_outs j !! Z.of_nat r = Some out → output_of r out;
  ji_rrep : ∀ r, r ∈ reduceReports j → (0 ≤ r)%Z ∧ is_Some (j_outs j !! r);
  ji_rfin : ∀ r, rfin (j_coord j) !! r = Some true → is_Some (j_outs j !! Z.of_nat r);
}.

Context (Hn : 0 < n) (Hin : ∀ f, f ∈ files → is_Some (inputs !! f)).
Context (Hjson : ∀ f content kv, f ∈ files → inputs !! f = Some content → kv ∈ mapf f content → json kv = kv).

Lemma MapTasks_make t :
  set_mt WAITTING t ∈ MapTasks (MakeCoordinator files n) ↔
  ∃ i, files !! i = Some (mt_FileName t) ∧ mt_Id t = Z.of_nat i ∧ mt_NReduce t = Z.of_nat n.
Proof.
  rewrite list_elem_of_lookup. apply exist_proper. intros i. simpl. rewrite list_lookup_imap.
  destruct (files !! i); simpl; [|naive_solver]. destruct t; simpl. unfold set_mt; simpl. naive_solver.
Qed.

Lemma ReduceTasks_make t :
  set_rt WAITTING t ∈ ReduceTasks (MakeCoordinator files n) ↔
  ∃ r, r < n ∧ rt_Id t = Z.of_nat r ∧ rt_NMap t = zlen files.
Proof.
  rewrite list_elem_of_lookup. apply exist_proper. intros r. simpl. rewrite list_lookup_fmap.
  destruct t; unfold set_rt; simpl. destruct (decide (r < n)).
  - rewrite lookup_seq_lt by done. simpl. naive_solver.
  - rewrite lookup_seq_ge by lia. simpl. naive_solver.
Qed.

(** No worker fails on a map task: the file is there, and its pairs fall into
    the reduce tasks. *)
Lemma mapParts_spec t :
  set_mt WAITTING t ∈ MapTasks (MakeCoordinator files n) →
  ∃ i, mt_Id t = Z.of_nat i ∧
       mapParts mapf inputs t = Ok ((λ r, filter (in_bucket n r) (emitted i)) <$> seq 0 n).
Proof.
  intros (i & Hf & Hid & Hnr)%MapTasks_make. exists i. split; [done|]. unfold mapParts, emitted. rewrite Hf.
  destruct (Hin (mt_FileName t)) as [content ->]; [by eapply list_elem_of_lookup_2|].
  rewrite Hnr. by apply partition_spec.
Qed.

Lemma json_emitted i r : json <$> filter (in_bucket n r) (emitted i) = filter (in_bucket n r) (emitted i).
Proof.
  rewrite <-(list_fmap_id (filter (in_bucket n r) (emitted i))) at 2. apply list_fmap_ext. intros k kv Hk.
  apply list_elem_of_lookup_2, list_elem_of_filter in Hk as [_ Hk]. unfold emitted in Hk.
  destruct (files !! i) as [f|] eqn:Hf; [|by apply elem_of_nil in Hk].
  destruct (inputs !! f) as [content|] eqn:Hc; [|by apply elem_of_nil in Hk].
  eapply Hjson; [by eapply list_elem_of_lookup_2|done..].
Qed.

(** What a worker that writes the first [k] files of task [i] leaves. *)
Lemma writeParts_take (fs : Files) i k (i' r : nat) :
  writeParts json (Z.of_nat i) (take k ((λ r, filter (in_bucket n r) (emitted i)) <$> seq 0 n)) fs
    !! (Z.of_nat i', Z.of_nat r) =
  if bool_decide (i' = i ∧ r < k ∧ r < n) then Some (filter (in_bucket n r) (emitted i))
  else fs !! (Z.of_nat i', Z.of_nat r).
Proof.
  rewrite writeParts_spec, Nat2Z.id. destruct (decide (i' = i)) as [->|Hne].
  - rewrite bool_decide_true by lia. destruct (decide (r < k)).
    + rewrite lookup_take_lt, list_lookup_fmap by done. destruct (decide (r < n)).
      * rewrite lookup_seq_lt by done. simpl. rewrite bool_decide_true by done. by rewrite json_emitted.
      * rewrite lookup_seq_ge by lia. simpl. by rewrite bool_decide_false by lia.
    + rewrite lookup_take_ge by lia. by rewrite bool_decide_false by lia.
  - rewrite !bool_decide_false by lia. done.
Qed.

Lemma collect_upto (fs : Files) r m :
  (∀ i, i < m → fs !! (Z.of_nat i, Z.of_nat r) = Some (filter (in_bucket n r) (emitted i))) →
  foldM (λ acc i, match fs !! (Z.of_nat i, Z.of_nat r) with Some kvs => Ok (acc ++ kvs) | None => Panic end)
    [] (seq 0 m) = Ok (filter (in_bucket n r) (emitted_upto m)).
Proof.
  induction m as [|m IH]; intros H; [done|].
  rewrite seq_S, foldM_app, IH by (intros i Hi; apply H; lia). res_simpl. cbn [foldM]. simpl.
  rewrite (H m) by lia. res_simpl. f_equal. unfold emitted_upto.
  rewrite seq_S, fmap_app, concat_app. simpl. by rewrite app_nil_r, filter_app.
Qed.

(** The state of a job whose invariant holds is such that every map task that
    is finished has its files, with the right pairs. *)
Lemma reduce_input j r :
  job_inv j → Forall (eq true) (mfin (j_coord j)) → r < n →
  ∀ i, i < length files →
  j_files j !! (Z.of_nat i, Z.of_nat r) = Some (filter (in_bucket n r) (emitted i)).
Proof.
  intros J Hall Hr i Hi.
  assert (Hlen : length (mfin (j_coord j)) = length files).
  { unfold mfin. rewrite length_fmap, <-(length_fmap (set_mt WAITTING)), (cw_mstatic _ _ _ (ji_wf _ J)).
    simpl. apply length_imap. }
  destruct (lookup_lt_is_Some_2 (mfin (j_coord j)) i) as [b Hb]; [lia|].
  assert (b = true) as -> by (rewrite Forall_lookup in Hall; by specialize (Hall i b Hb)).
  destruct (ji_mfin _ J i Hb r Hr) as [kvs Hk]. rewrite Hk. f_equal. by apply (ji_files _ J).
Qed.

Context (Hsort : ∀ l, sortf l ≡ₚ l ∧ StronglySorted key_le (sortf l)).

Lemma output_exists r : ∃ out, output_of r out ∧ groups (sortf (filter (in_bucket n r) all_emitted)) out.
Proof.
  destruct (reduce_loop_spec (length (sortf (filter (in_bucket n r) all_emitted)))
    (sortf (filter (in_bucket n r) all_emitted))) as (out & Ho & Hg); [done|apply Hsort|]. by exists out.
Qed.

(** No worker fails on a reduce task. *)
Lemma doReduceTask_spec j t :
  job_inv j → t ∈ reduceWork j →
  ∃ r out, rt_Id t = Z.of_nat r ∧ r < n ∧ doReduceTask reducef sortf (j_files j) t = Ok out ∧ output_of r out.
Proof.
  intros J Ht. destruct (ji_rw _ J t Ht) as [(r & Hr & Hid & Hnm)%ReduceTasks_make Hall].
  destruct (output_exists r) as (out & Ho & _). exists r, out. split_and!; try done.
  unfold doReduceTask, collect. rewrite Hid, Hnm. unfold zlen. rewrite Nat2Z.id.
  rewrite collect_upto by (by apply (reduce_input j)). res_simpl.
  unfold output_of, all_emitted in Ho. by rewrite Ho.
Qed.

Lemma doMapTask_spec (fs : Files) t :
  set_mt WAITTING t ∈ MapTasks (MakeCoordinator files n) →
  ∃ i fs', mt_Id t = Z.of_nat i ∧ doMapTask mapf json inputs fs t = Ok fs' ∧
    ∀ i' r : nat, fs' !! (Z.of_nat i', Z.of_nat r) =
      if bool_decide (i' = i ∧ r < n) then Some (filter (in_bucket n r) (emitted i))
      else fs !! (Z.of_nat i', Z.of_nat r).
Proof.
  intros Ht. destruct (mapParts_spec t Ht) as (i & Hid & Hp). exists i. eexists. split; [done|].
  unfold doMapTask. rewrite Hp. split; [done|]. intros i' r. rewrite Hid.
  rewrite <-(firstn_all2 (n := n) ((λ r, filter (in_bucket n r) (emitted i)) <$> seq 0 n))
    by (by rewrite length_fmap, length_seq).
  rewrite writeParts_take. by apply (f_equal (λ b : bool, if b then _ else _)), bool_decide_ext; lia.
Qed.

Lemma init_job_inv : job_inv (initJob files n).
Proof.
  assert (Hm : ∀ i, mfin (MakeCoordinator files n) !! i ≠ Some true).
  { intros i. unfold mfin. simpl. rewrite list_lookup_fmap, list_lookup_imap. by destruct (files !! i). }
  assert (Hr : ∀ r, rfin (MakeCoordinator files n) !! r ≠ Some true).
  { intros r. unfold rfin. simpl. rewrite !list_lookup_fmap. by destruct (seq 0 n !! r). }
  split; simpl; try (intros ? ?%elem_of_nil; done); [apply MakeCoordinator_wf|..].
  - intros i r kvs H. by rewrite lookup_empty in H.
  - intros i H. by destruct (Hm i).
  - intros r out H. by rewrite lookup_empty in H.
  - intros r H. by destruct (Hr r).
Qed.

(** The events at the coordinator alone. *)
Lemma job_inv_coord c c' fs os mw rw mr rr mw' rw' :
  job_inv (mkJob c fs os mw rw mr rr) → coord_step c c' →
  (∀ i, mfin c' !! i = Some true → mfin c !! i = Some true ∨ Z.of_nat i ∈ mr) →
  (∀ i, rfin c' !! i = Some true → rfin c !! i = Some true ∨ Z.of_nat i ∈ rr) →
  (Forall (eq true) (mfin c) → Forall (eq true) (mfin c')) →
  (∀ t, t ∈ mw' → t ∈ mw ∨ set_mt WAITTING t ∈ MapTasks (MakeCoordinator files n)) →
  (∀ t, t ∈ rw' → t ∈ rw ∨ set_rt WAITTING t ∈ ReduceTasks (MakeCoordinator files n) ∧ Forall (eq true) (mfin c')) →
  job_inv (mkJob c' fs os mw' rw' mr rr).
Proof.
  intros [J1 J2 J3 J4 J5 J6 J7 J8 J9] Hs Hm Hr Hf Hmw Hrw; simpl in *. split; simpl; try done.
  - by eapply coord_step_wf.
  - intros t [Ht|Ht]%Hmw; [by apply J2|done].
  - intros t [[? ?]%J3|Ht]%Hrw; [by split; [|apply Hf]|done].
  - intros i [Hi|Hi]%Hm; [by apply J6|by apply J5].
  - intros r [Hr'|Hr']%Hr; [by apply J9|by apply J8].
Qed.

Lemma insert_true_lookup (l : list bool) (k i : nat) : <[k := true]> l !! i = Some true → l !! i = Some true ∨ i = k.
Proof. destruct (decide (i = k)) as [->|]; [by right|]. rewrite list_lookup_insert_ne by done. by left. Qed.

Lemma insert_true_Forall (l : list bool) (k : nat) : Forall (eq true) l → Forall (eq true) (<[k := true]> l).
Proof. intros H. by apply Forall_insert. Qed.

(** A reduce task is only handed out after the map phase. *)
Lemma FetchTask_reduce c c' t :
  coord_wf files n c → FetchTask c = (c', Some (ReplyReduce t)) → Forall (eq true) (mfin c').
Proof.
  intros Hwf H. destruct (FetchTask_fin _ _ _ H) as (-> & _). apply maps_finished_mfin. unfold FetchTask in H.
  destruct (MapTasksDone c) as [c1 b1] eqn:E1.
  destruct (MapTasksDone_spec _ _ _ _ _ Hwf E1) as (_ & _ & _ & _ & _ & Hb).
  destruct b1; [by apply Hb|]. by destruct (fetchMapTask c1) as [[? ?]|].
Qed.

Lemma static_mt c t0 : coord_wf files n c → t0 ∈ MapTasks c → set_mt WAITTING t0 ∈ MapTasks (MakeCoordinator files n).
Proof. intros Hwf Ht. rewrite <-(cw_mstatic _ _ _ Hwf). by apply list_elem_of_fmap_2. Qed.

Lemma static_rt c t0 : coord_wf files n c → t0 ∈ ReduceTasks c → set_rt WAITTING t0 ∈ ReduceTasks (MakeCoordinator files n).
Proof. intros Hwf Ht. rewrite <-(cw_rstatic _ _ _ Hwf). by apply list_elem_of_fmap_2. Qed.

Lemma job_inv_fetch c c' fs os mw rw mr rr r :
  job_inv (mkJob c fs os mw rw mr rr) → FetchTask c = (c', r) →
  job_inv (mkJob c' fs os (match r with Some (ReplyMap t) => t :: mw | _ => mw end)
                          (match r with Some (ReplyReduce t) => t :: rw | _ => rw end) mr rr).
Proof.
  intros J H. pose proof (ji_wf _ J) as Hwf; simpl in Hwf.
  destruct (FetchTask_fin _ _ _ H) as (Hm & Hr & Hmt & Hrt).
  eapply job_inv_coord; [exact J|by eapply coord_fetch|rewrite Hm; by left|rewrite Hr; by left|by rewrite Hm|..].
  - intros t Ht. destruct r as [[t'| |]|]; [|by left..].
    apply elem_of_cons in Ht as [->|Ht]; [right|by left].
    destruct (Hmt _ eq_refl) as (t0 & Ht0 & ->). by apply (static_mt c t0).
  - intros t Ht. destruct r as [[|t'|]|]; try by left.
    apply elem_of_cons in Ht as [->|Ht]; [right|by left].
    destruct (Hrt _ eq_refl) as (t0 & Ht0 & ->). split; [by apply (static_rt c t0)|by eapply FetchTask_reduce].
Qed.

(** A worker writes files: more files, all of them right. *)
Lemma job_inv_write (c : Coordinator) (fs fs' : Files) (os : Outs) mw rw mr rr mr' i b :
  job_inv (mkJob c fs os mw rw mr rr) →
  (∀ i' r : nat, fs' !! (Z.of_nat i', Z.of_nat r) =
     if bool_decide (i' = i ∧ r < b ∧ r < n) then Some (filter (in_bucket n r) (emitted i))
     else fs !! (Z.of_nat i', Z.of_nat r)) →
  (∀ k, k ∈ mr' → k ∈ mr ∨ k = Z.of_nat i ∧ b = n) →
  job_inv (mkJob c fs' os mw rw mr' rr).
Proof.
  intros [J1 J2 J3 J4 J5 J6 J7 J8 J9] Hw Hmr; simpl in *.
  assert (Hmono : ∀ i' r : nat, is_Some (fs !! (Z.of_nat i', Z.of_nat r)) → is_Some (fs' !! (Z.of_nat i', Z.of_nat r))).
  { intros i' r H. rewrite Hw. by case_bool_decide. }
  split; simpl; try done.
  - intros i' r kvs. rewrite Hw. case_bool_decide as Hc; [|apply J4]. destruct Hc as [-> _]. by intros [= <-].
  - intros k [Hk|[-> ->]]%Hmr.
    + destruct (J5 k Hk) as [H0 Hf]. split; [done|]. intros r Hr. rewrite <-(Z2Nat.id k) by done.
      apply Hmono. rewrite Z2Nat.id by done. by apply Hf.
    + split; [lia|]. intros r Hr. by rewrite Hw, bool_decide_true.
  - intros i' Hi' r Hr. by apply Hmono, J6.
Qed.

Lemma job_step_inv j j' : job_inv j → job_step mapf reducef sortf json inputs j j' → job_inv j'.
Proof.
  intros J Hs. destruct Hs as [c c' fs os mw rw mr rr r H|c fs fs' os mw rw mr rr t Ht H
    |c fs os mw rw mr rr t parts k Ht H|c fs os mw rw mr rr t out Ht H
    |c c' fs os mw rw mr rr i Hi H|c c' fs os mw rw mr rr i Hi H
    |c fs os mw rw mr rr i Hi|c fs os mw rw mr rr i Hi].
  - by eapply job_inv_fetch.
  - destruct (doMapTask_spec fs t) as (i & fs1 & Hid & H' & Hw); [by apply (ji_mw _ J)|].
    rewrite H' in H. injection H as ->. eapply (job_inv_write _ _ _ _ _ _ _ _ _ i n); [exact J|..].
    + intros i' r. rewrite Hw. apply (f_equal (λ b : bool, if b then _ else _)), bool_decide_ext. lia.
    + intros k' [->|Hk]%elem_of_cons; [right; by split|by left].
  - destruct (mapParts_spec t) as (i & Hid & H'); [by apply (ji_mw _ J)|].
    rewrite H' in H. injection H as <-. rewrite Hid.
    eapply (job_inv_write _ _ _ _ _ _ _ _ _ i k); [exact J|intros; apply writeParts_take|by left].
  - destruct (doReduceTask_spec _ t J Ht) as (r & out' & Hid & Hr & H' & Ho). simpl in H'.
    rewrite H' in H. injection H as ->. rewrite Hid. destruct J as [J1 J2 J3 J4 J5 J6 J7 J8 J9].
    assert (Hmono : ∀ k, is_Some (os !! k) → is_Some (<[Z.of_nat r := out]> os !! k)).
    { intros k Hk. rewrite lookup_insert_is_Some'. by right. }
    split; simpl in *; try done.
    + intros r' o. destruct (decide (r' = r)) as [->|Hne].
      * rewrite lookup_insert_eq. by intros [= <-].
      * rewrite lookup_insert_ne by lia. apply J7.
    + intros k [->|Hk]%elem_of_cons; [split; [lia|by rewrite lookup_insert_eq]|].
      destruct (J8 k Hk). split; [done|by apply Hmono].
    + intros r' Hr'. by apply Hmono, J9.
  - destruct (MapTaskFinished_fin _ _ _ H) as (Hm & Hr). destruct (ji_mrep _ J i Hi) as [Hi0 _].
    eapply job_inv_coord; [exact J|by eapply coord_map_finished|..|by left|by left].
    + rewrite Hm. intros k [?| ->]%insert_true_lookup; [by left|right]. by rewrite Z2Nat.id.
    + rewrite Hr. by left.
    + rewrite Hm. apply insert_true_Forall.
  - destruct (ReduceTaskFinished_fin _ _ _ H) as (Hm & Hr). destruct (ji_rrep _ J i Hi) as [Hi0 _].
    eapply job_inv_coord; [exact J|by eapply coord_reduce_finished|..|by left|by left].
    + rewrite Hm. by left.
    + rewrite Hr. intros k [?| ->]%insert_true_lookup; [by left|right]. by rewrite Z2Nat.id.
    + by rewrite Hm.
  - destruct (recoverMap_fin c i) as [Hm Hr].
    eapply job_inv_coord; [exact J|by apply coord_recover_map|rewrite ?Hm, ?Hr; by left..|by rewrite Hm|by left|by left].
  - destruct (recoverReduce_fin c i) as [Hm Hr].
    eapply job_inv_coord; [exact J|by apply coord_recover_reduce|rewrite ?Hm, ?Hr; by left..|by rewrite Hm|by left|by left].
Qed.

(** ** The outputs of all reduce tasks together *)

Lemma buckets_perm l : concat ((λ r, filter (in_bucket n r) l) <$> seq 0 n) ≡ₚ l.
Proof.
  induction l as [|kv l IH].
  - induction (seq 0 n); done.
  - transitivity (kv :: concat ((λ r, filter (in_bucket n r) l) <$> seq 0 n)); [clear IH|by rewrite IH].
    destruct (bucket_of n kv Hn) as (r & Hr & Hb).
    assert (seq 0 n = seq 0 r ++ r :: seq (S r) (n - S r)) as ->.
    { replace n with (r + S (n - S r)) at 1 by lia. by rewrite seq_app. }
    assert (Hskip : ∀ m k, ¬ m ≤ r < m + k →
      (λ r, filter (in_bucket n r) (kv :: l)) <$> seq m k = (λ r, filter (in_bucket n r) l) <$> seq m k).
    { intros m k Hmk. apply list_fmap_ext. intros i r' [-> Hi]%lookup_seq. apply filter_cons_False.
      unfold in_bucket in *. lia. }
    rewrite !fmap_app, !fmap_cons, !concat_app, !Hskip by lia. simpl.
    rewrite filter_cons_True by done. simpl. symmetry. apply Permutation_middle.
Qed.

Lemma groups_buckets l (os : list (list (string * string))) m :
  length os = m →
  (∀ r out, os !! r = Some out → groups (filter (in_bucket n r) l) out) →
  groups (concat ((λ r, filter (in_bucket n r) l) <$> seq 0 m)) (concat os).
Proof.
  revert m. induction os as [|o os IH] using rev_ind; intros m <- Hos.
  { simpl. split; [constructor|]. intros k v. rewrite !elem_of_nil. naive_solver. }
  rewrite length_app, Nat.add_1_r, seq_S, fmap_app, !concat_app. simpl. rewrite !app_nil_r.
  apply groups_app.
  - intros x y (l1 & (r & -> & Hr)%list_elem_of_In%list_elem_of_fmap & Hx%list_elem_of_In)%list_elem_of_In%in_concat Hy Heq.
    apply elem_of_seq in Hr. apply list_elem_of_filter in Hx as [Hx _], Hy as [Hy _].
    unfold in_bucket in *. rewrite Heq in Hx. lia.
  - apply IH; [done|]. intros r out Hr. apply Hos. by apply lookup_app_l_Some.
  - apply Hos. by rewrite lookup_app_r, Nat.sub_diag.
Qed.

(** The sequential program never fails either. *)
Lemma mrsequential_spec :
  ∃ out, mrsequential mapf reducef sortf inputs files = Ok out ∧ groups (sortf all_emitted) out.
Proof.
  assert (Hall : foldM (λ acc f, match inputs !! f with Some content => Ok (acc ++ mapf f content) | None => Panic end)
    [] files = Ok all_emitted).
  { unfold all_emitted, emitted_upto. rewrite <-(firstn_all files) at 1.
    assert (Hle : length files ≤ length files) by lia. revert Hle.
    generalize (length files) at 1 3 4. intros m. induction m as [|m IH]; intros Hm; [done|].
    destruct (lookup_lt_is_Some_2 files m) as [f Hf]; [lia|].
    rewrite (take_S_r _ _ _ Hf), foldM_app, IH by lia. res_simpl. cbn [foldM].
    destruct (Hin f) as [content Hc]; [by eapply list_elem_of_lookup_2|].
    rewrite Hc. res_simpl. f_equal. rewrite seq_S, fmap_app, concat_app. simpl. unfold emitted at 3.
    by rewrite Hf, Hc, app_nil_r. }
  unfold mrsequential. rewrite Hall. res_simpl.
  destruct (reduce_loop_spec (length (sortf all_emitted)) (sortf all_emitted)) as (out & -> & Hg);
    [done|apply Hsort|]. by exists out.
Qed.

Lemma job_reachable_inv j :
  rtc (job_step mapf reducef sortf json inputs) (initJob files n) j → job_inv j.
Proof. intros Hr. eapply rtc_preserve; [intros ? ?; apply job_step_inv|apply init_job_inv|done]. Qed.

Lemma outputs_exist (os : Outs) m :
  (∀ r, r < m → is_Some (os !! Z.of_nat r)) →
  ∃ outs : list (list (string * string)), length outs = m ∧ ∀ r, r < m → os !! Z.of_nat r = outs !! r.
Proof.
  induction m as [|m IH]; intros H; [exists []; split; [done|lia]|].
  destruct IH as (outs & Hlen & Ho); [intros r Hr; apply H; lia|]. destruct (H m) as [o Hm]; [lia|].
  exists (outs ++ [o]). split; [rewrite length_app; simpl; lia|]. intros r Hr. destruct (decide (r = m)) as [->|].
  - by rewrite lookup_app_r, Hlen, Nat.sub_diag by lia.
  - rewrite lookup_app_l by lia. apply Ho. lia.
Qed.

Lemma job_outputs j :
  job_inv j → reduces_finished (j_coord j) → ∀ r, r < n → is_Some (j_outs j !! Z.of_nat r).
Proof.
  intros J Hfin%reduces_finished_rfin r Hr.
  assert (Hlen : length (rfin (j_coord j)) = n).
  { unfold rfin. rewrite length_fmap, <-(length_fmap (set_rt WAITTING)), (cw_rstatic _ _ _ (ji_wf _ J)).
    simpl. by rewrite length_fmap, length_seq. }
  destruct (lookup_lt_is_Some_2 (rfin (j_coord j)) r) as [b Hb]; [lia|].
  assert (b = true) as -> by (rewrite Forall_lookup in Hfin; by specialize (Hfin r b Hb)).
  by apply (ji_rfin _ J).
Qed.

Lemma FetchTask_done c c' :
  coord_wf files n c → FetchTask c = (c', Some ReplyDone) → reduces_finished c.
Proof.
  intros Hwf H. unfold FetchTask in H. destruct (MapTasksDone c) as [c1 b1] eqn:E1.
  destruct (MapTasksDone_spec _ _ _ _ _ Hwf E1) as (Hwf1 & _ & Hr1 & _). destruct b1.
  2:{ by destruct (fetchMapTask c1) as [[? ?]|]. }
  destruct (Done c1) as [c2 b2] eqn:E2. destruct (Done_spec _ _ _ _ _ Hwf1 E2) as (_ & _ & _ & _ & _ & Hb).
  destruct b2; [|by destruct (fetchReduceTask c2) as [[? ?]|]].
  unfold reduces_finished in *. rewrite <-Hr1. by apply Hb.
Qed.

(** The output files of a finished job, together. *)
Lemma job_groups j c' :
  (∀ k vs vs', vs ≡ₚ vs' → reducef k vs = reducef k vs') →
  rtc (job_step mapf reducef sortf json inputs) (initJob files n) j →
  FetchTask (j_coord j) = (c', Some ReplyDone) →
  ∃ outs, length outs = n ∧ (∀ r, r < n → j_outs j !! Z.of_nat r = outs !! r) ∧ groups all_emitted (concat outs).
Proof.
  intros Hred J%job_reachable_inv Hdone%(FetchTask_done _ _ (ji_wf _ J)).
  destruct (outputs_exist (j_outs j) n (job_outputs j J Hdone)) as (outs & Hlen & Houts).
  exists outs. split_and!; [done..|].
  eapply groups_perm; [done|apply buckets_perm|]. apply groups_buckets; [done|]. intros r o Ho.
  assert (Hr : r < n) by (rewrite <-Hlen; by eapply lookup_lt_Some).
  destruct (output_exists r) as (o' & Ho' & Hgo). rewrite <-Houts in Ho by done.
  apply (ji_outs _ J) in Ho. unfold output_of in *. rewrite Ho in Ho'. injection Ho' as <-.
  eapply groups_perm; [done|apply Hsort|done].
Qed.

(** C13: a job computes what the sequential program computes.  In every
    interleaving of fetching, working, reporting, timeouts, repeated work and
    crashes while the intermediate files are written: once a worker is told
    that the job is done, the output file of every reduce task is there, and
    together they hold exactly the lines of [mrsequential], each once.
    Hypotheses: [sort.Sort] sorts, JSON gives back the pairs that the
    application emits, the reduce function does not depend on the order of
    the values, the input files exist and there is a reduce task. *)
Theorem mr_correct j c' :
  (∀ k vs vs', vs ≡ₚ vs' → reducef k vs = reducef k vs') →
  rtc (job_step mapf reducef sortf json inputs) (initJob files n) j →
  FetchTask (j_coord j) = (c', Some ReplyDone) →
  ∃ outs out, length outs = n ∧ (∀ r, r < n → j_outs j !! Z.of_nat r = outs !! r) ∧
    mrsequential mapf reducef sortf inputs files = Ok out ∧ concat outs ≡ₚ out.
Proof.
  intros Hred Hr Hdone. destruct (job_groups j c' Hred Hr Hdone) as (outs & Hlen & Houts & Hgo).
  destruct mrsequential_spec as (out & Hseq & Hg). exists outs, out. split_and!; [done..|].
  apply (groups_unique all_emitted); [done|]. eapply groups_perm; [done|apply Hsort|done].
Qed.

(** No worker is ever stopped by an error.  In every reachable state of
    the job, a worker that was given a map task, now or long ago, finds its
    input file and a valid bucket for every pair; one that was given a reduce
    task finds all the intermediate files of its task, completely written,
    and its output loop ends. *)
Theorem workers_never_fail j :
  rtc (job_step mapf reducef sortf json inputs) (initJob files n) j →
  (∀ t, t ∈ mapWork j → ∃ fs, doMapTask mapf json inputs (j_files j) t = Ok fs) ∧
  (∀ t, t ∈ reduceWork j → ∃ out, doReduceTask reducef sortf (j_files j) t = Ok out).
Proof.
  intros J%job_reachable_inv. split.
  - intros t Ht. destruct (doMapTask_spec (j_files j) t) as (_ & fs & _ & H & _); [by apply (ji_mw _ J)|]. by exists fs.
  - intros t Ht. destruct (doReduceTask_spec j t J Ht) as (_ & out & _ & _ & H & _). by exists out.
Qed.
(** ** Applications whose Map is not a function

    A plugin's Map may give its pairs in another order at every call, as one
    that ranges over a Go map does.  Every step of [varied_step] runs some map
    function of a family; each is the reference [mapf] up to the order of the
    pairs.  Such a job goes the way of a job that always runs [mapf]. *)

Context (maps : (string → string → list KeyValue) → Prop).
Context (Hmaps : ∀ g f content, maps g → f ∈ files → inputs !! f = Some content → g f content ≡ₚ mapf f content).
Context (Hred : ∀ k vs vs', vs ≡ₚ vs' → reducef k vs = reducef k vs').

Definition varied_step (j j' : Job) : Prop := ∃ g, maps g ∧ job_step g reducef sortf json inputs j j'.

(** The same keys, with the same contents up to their order. *)
Definition alike {K A} `{Countable K} (m1 m2 : gmap K (list A)) : Prop :=
  ∀ k, option_Forall2 (≡ₚ) (m1 !! k) (m2 !! k).

Record alike_jobs (j1 j2 : Job) : Prop := {
  aj_coord : j_coord j1 = j_coord j2;
  aj_files : alike (j_files j1) (j_files j2);
  aj_outs : alike (j_outs j1) (j_outs j2);
  aj_mw : mapWork j1 = mapWork j2;
  aj_rw : reduceWork j1 = reduceWork j2;
  aj_mr : mapReports j1 = mapReports j2;
  aj_rr : reduceReports j1 = reduceReports j2;
}.

Lemma mapParts_alike g t parts :
  maps g → set_mt WAITTING t ∈ MapTasks (MakeCoordinator files n) → mapParts g inputs t = Ok parts →
  ∃ parts', mapParts mapf inputs t = Ok parts' ∧ Forall2 (≡ₚ) parts parts'.
Proof.
  intros Hg (i & Hf & _ & Hnr)%MapTasks_make. unfold mapParts. rewrite Hnr.
  assert (Hfile : mt_FileName t ∈ files) by (by eapply list_elem_of_lookup_2).
  destruct (inputs !! mt_FileName t) as [content|] eqn:Hc; [|done]. rewrite !partition_spec by done.
  intros [= <-]. eexists. split; [done|]. apply Forall2_fmap_2, Forall_Forall2_diag, Forall_forall. intros r _.
  by rewrite (Hmaps g _ _ Hg Hfile Hc).
Qed.

Lemma writeParts_alike (id : Z) (parts parts' : list (list KeyValue)) (fs fs' : Files) :
  Forall2 (≡ₚ) parts parts' → alike fs fs' → alike (writeParts json id parts fs) (writeParts json id parts' fs').
Proof.
  intros Hp Hfs [i r]. rewrite !writeParts_spec. case_bool_decide; [|apply Hfs].
  destruct (parts !! Z.to_nat r) as [p|] eqn:E.
  - destruct (Forall2_lookup_l _ _ _ _ _ Hp E) as (p' & -> & Hpp). constructor. by rewrite Hpp.
  - rewrite (lookup_ge_None_2 parts'); [apply Hfs|]. rewrite <-(Forall2_length _ _ _ Hp). by apply lookup_ge_None.
Qed.

Lemma collect_alike (fs fs' : Files) t l :
  alike fs fs' → collect fs t = Ok l → ∃ l', collect fs' t = Ok l' ∧ l ≡ₚ l'.
Proof.
  intros Hfs. unfold collect. set (ms := seq 0 (Z.to_nat (rt_NMap t))).
  assert (Hgen : ∀ acc acc', acc ≡ₚ acc' →
    foldM (λ acc i, match fs !! (Z.of_nat i, rt_Id t) with Some kvs => Ok (acc ++ kvs) | None => Panic end) acc ms = Ok l →
    ∃ l', foldM (λ acc i, match fs' !! (Z.of_nat i, rt_Id t) with Some kvs => Ok (acc ++ kvs) | None => Panic end) acc' ms = Ok l' ∧ l ≡ₚ l').
  { induction ms as [|i ms IH]; intros acc acc' Hacc; cbn [foldM]; [intros [= <-]; by exists acc'|].
    destruct (Hfs (Z.of_nat i, rt_Id t)) as [kvs kvs' Hk|]; [|done]. res_simpl. apply IH. by rewrite Hacc, Hk. }
  by apply Hgen.
Qed.

Lemma doReduceTask_alike (fs fs' : Files) t o :
  alike fs fs' → doReduceTask reducef sortf fs t = Ok o →
  ∃ o', doReduceTask reducef sortf fs' t = Ok o' ∧ o ≡ₚ o'.
Proof.
  intros Hfs H. unfold doReduceTask in *. destruct (collect fs t) as [l|] eqn:E; [|done..].
  destruct (collect_alike _ _ _ _ Hfs E) as (l' & -> & Hl). res_simpl.
  destruct (reduce_loop_spec (length (sortf l)) (sortf l)) as (o1 & Ho1 & Hg1); [done|apply Hsort|].
  destruct (reduce_loop_spec (length (sortf l')) (sortf l')) as (o2 & Ho2 & Hg2); [done|apply Hsort|].
  simpl in H. rewrite Ho1 in H. injection H as <-. rewrite Ho2. exists o2. split; [done|].
  apply (groups_unique (sortf l')); [|done]. eapply groups_perm; [done| |exact Hg1].
  by rewrite (proj1 (Hsort l)), (proj1 (Hsort l')).
Qed.

Lemma alike_insert {K A} `{Countable K} (m1 m2 : gmap K (list A)) k x y :
  alike m1 m2 → x ≡ₚ y → alike (<[k := x]> m1) (<[k := y]> m2).
Proof.
  intros Hm Hxy k'. destruct (decide (k' = k)) as [->|].
  - rewrite !lookup_insert_eq. by constructor.
  - rewrite !lookup_insert_ne by done. apply Hm.
Qed.

Lemma varied_simulates j1 j1' j2 :
  job_inv j2 → alike_jobs j1 j2 → varied_step j1 j1' →
  ∃ j2', job_step mapf reducef sortf json inputs j2 j2' ∧ alike_jobs j1' j2'.
Proof.
  intros J [E1 Hf Ho E2 E3 E4 E5] (g & Hg & Hs).
  destruct j2 as [c fs2 os2 mw rw mr rr]. simpl in *.
  destruct Hs as [c1 c' fs os mw1 rw1 mr1 rr1 r H|c1 fs fs' os mw1 rw1 mr1 rr1 t Ht H
    |c1 fs os mw1 rw1 mr1 rr1 t parts k Ht H|c1 fs os mw1 rw1 mr1 rr1 t out Ht H
    |c1 c' fs os mw1 rw1 mr1 rr1 i Hi H|c1 c' fs os mw1 rw1 mr1 rr1 i Hi H
    |c1 fs os mw1 rw1 mr1 rr1 i Hi|c1 fs os mw1 rw1 mr1 rr1 i Hi]; simpl in *; subst c1 mw1 rw1 mr1 rr1.
  - eexists. split; [by apply job_fetch|done].
  - unfold doMapTask in H. destruct (mapParts g inputs t) as [parts|] eqn:E; [|done..]. injection H as <-.
    destruct (mapParts_alike g t parts Hg (ji_mw _ J t Ht) E) as (parts' & E' & Hp).
    eexists. split; [apply (job_map _ _ _ _ _ _ fs2 (writeParts json (mt_Id t) parts' fs2) os2 _ _ _ _ t Ht);
      unfold doMapTask; by rewrite E'|]. split; simpl; try done. by apply writeParts_alike.
  - destruct (mapParts_alike g t parts Hg (ji_mw _ J t Ht) H) as (parts' & E' & Hp).
    eexists. split; [by apply (job_map_crash _ _ _ _ _ _ _ _ _ _ _ _ t parts' k)|].
    split; simpl; try done. apply writeParts_alike; [by apply Forall2_take|done].
  - destruct (doReduceTask_alike fs fs2 t out Hf H) as (out' & H' & Hp).
    eexists. split; [by apply (job_reduce _ _ _ _ _ _ _ _ _ _ _ _ t out')|].
    split; simpl; try done. by apply alike_insert.
  - eexists. split; [by eapply job_map_report|done].
  - eexists. split; [by eapply job_reduce_report|done].
  - eexists. split; [by apply job_recover_map|done].
  - eexists. split; [by apply job_recover_reduce|done].
Qed.

Lemma varied_reachable j :
  rtc varied_step (initJob files n) j →
  ∃ j2, rtc (job_step mapf reducef sortf json inputs) (initJob files n) j2 ∧ alike_jobs j j2.
Proof.
  intros Hr. refine (rtc_ind_r (λ j, ∃ j2, rtc (job_step mapf reducef sortf json inputs) (initJob files n) j2 ∧ alike_jobs j j2) _ _ _ _ Hr).
  - exists (initJob files n). split; [apply rtc_refl|]. split; try done; intros k; constructor.
  - intros j1 j1' _ Hs (j2 & Hr2 & Ha). destruct (varied_simulates _ _ _ (job_reachable_inv _ Hr2) Ha Hs) as (j2' & Hs2 & Ha2).
    exists j2'. split; [by eapply rtc_r|done].
Qed.

Lemma groups_lines l o o' : o ≡ₚ o' → groups l o → groups l o'.
Proof. intros Hp [Hnd H]. split; [by rewrite <-Hp|]. intros k v. by rewrite <-Hp. Qed.

Lemma concat_Permutation_Forall2 {A} (ls ls' : list (list A)) : Forall2 (≡ₚ) ls ls' → concat ls ≡ₚ concat ls'.
Proof. induction 1 as [|x y ls ls' Hxy _ IH]; [done|]. simpl. by rewrite Hxy, IH. Qed.

(** The output files of a finished job, together. *)
Lemma varied_groups j c' :
  rtc varied_step (initJob files n) j →
  FetchTask (j_coord j) = (c', Some ReplyDone) →
  ∃ outs, length outs = n ∧ (∀ r, r < n → j_outs j !! Z.of_nat r = outs !! r) ∧ groups all_emitted (concat outs).
Proof.
  intros (j2 & Hr2 & Ha)%varied_reachable Hd. rewrite (aj_coord _ _ Ha) in Hd.
  destruct (job_groups j2 c' Hred Hr2 Hd) as (outs2 & Hlen & Ho & Hg).
  destruct (outputs_exist (j_outs j) n) as (outs & Hlen1 & Ho1).
  { intros r Hr. specialize (aj_outs _ _ Ha (Z.of_nat r)). rewrite Ho by done.
    destruct (lookup_lt_is_Some_2 outs2 r) as [o ->]; [lia|]. inversion 1. by eexists. }
  exists outs. split_and!; [done..|]. eapply groups_lines; [|exact Hg]. apply concat_Permutation_Forall2.
  apply Forall2_same_length_lookup. split; [by rewrite Hlen, Hlen1|]. intros r o2 o E2 E1.
  assert (r < n) as Hr by (rewrite <-Hlen; by eapply lookup_lt_Some).
  specialize (aj_outs _ _ Ha (Z.of_nat r)). rewrite Ho, Ho1, E1, E2 by done. by inversion 1.
Qed.
End Job.
