(* ===== verification/MapReduceWitness.v ===== *)
(** * A concrete MapReduce job

    The properties of [MapReduce] and [MapReduceJob] on a job with two input
    files and one reduce task, that counts how often a file's contents occur. *)

From stdpp Require Import strings base gmap list sorting pretty.
From Stdlib Require Import ZArith Lia.
From S2P Require Import Prelude MapReduce MapReduceJob.

Definition countMap (file content : string) : list KeyValue := [mkKeyValue content file].
Definition countReduce (key : string) (vs : list string) : string := pretty (length vs).

#[local] Instance key_le_dec : RelDecision key_le.
Proof. intros a b. unfold key_le. apply _. Defined.
#[local] Instance key_le_trans : Transitive key_le.
Proof. intros a b c. unfold key_le. apply transitivity. Qed.
#[local] Instance key_le_total : Total key_le.
Proof. intros a b. unfold key_le. apply total, _. Qed.

Definition sortKeys : list KeyValue → list KeyValue := merge_sort key_le.

Lemma sortKeys_ok l : sortKeys l ≡ₚ l ∧ StronglySorted key_le (sortKeys l).
Proof. split; [apply merge_sort_Permutation|apply (StronglySorted_merge_sort key_le)]. Qed.

Definition inputsA : gmap string string := {[ "f" := "w"; "g" := "w" ]}.
Definition filesA : list string := ["f"; "g"].

Lemma inputsA_ok f : f ∈ filesA → is_Some (inputsA !! f).
Proof. intros Hf. repeat (apply elem_of_cons in Hf as [->|Hf]); [by eexists..|by apply elem_of_nil in Hf]. Qed.

Abbreviation step := (job_step countMap countReduce sortKeys id inputsA).

(** Both map tasks were handed out: the worker of the first is slow. *)
Definition mtask (i : Z) (f : string) (s : TaskState) : MapTask := mkMapTask i f 1 s.
Definition rtask (s : TaskState) : ReduceTask := mkReduceTask 0 2 s.
Definition pairOf (f : string) : list KeyValue := [mkKeyValue "w" f].
Definition filesWritten : Files := {[ (0, 0)%Z := pairOf "f"; (1, 0)%Z := pairOf "g" ]}.
Definition work : list MapTask := [mtask 1 "g" STARTED; mtask 0 "f" STARTED].

(** The reduce task is out. *)
Definition jobReduce : Job :=
  mkJob (mkCoordinator true false [mtask 0 "f" FINISHED; mtask 1 "g" FINISHED] [rtask STARTED] [1; 0] [0])
    filesWritten ∅ work [rtask STARTED] [1; 0]%Z [].

(** Everything is done. *)
Definition jobDone : Job :=
  mkJob (mkCoordinator true true [mtask 0 "f" FINISHED; mtask 1 "g" FINISHED] [rtask FINISHED] [1; 0] [0])
    filesWritten {[ 0%Z := [("w", "2")] ]} work [rtask STARTED] [1; 0]%Z [0%Z].

Lemma jobReduce_reachable : rtc step (initJob filesA 1) jobReduce.
Proof.
  eapply rtc_l; [apply job_fetch; vm_compute; reflexivity|].
  eapply rtc_l; [apply job_fetch; vm_compute; reflexivity|].
  eapply rtc_l; [eapply (job_map _ _ _ _ _ _ _ _ _ _ _ _ _ (mtask 0 "f" STARTED)); [right; left|vm_compute; reflexivity]|].
  eapply rtc_l; [eapply (job_map _ _ _ _ _ _ _ _ _ _ _ _ _ (mtask 1 "g" STARTED)); [left|vm_compute; reflexivity]|].
  eapply rtc_l; [eapply (job_map_report _ _ _ _ _ _ _ _ _ _ _ _ _ 0); [right; left|vm_compute; reflexivity]|].
  eapply rtc_l; [eapply (job_map_report _ _ _ _ _ _ _ _ _ _ _ _ _ 1); [left|vm_compute; reflexivity]|].
  eapply rtc_l; [apply job_fetch; vm_compute; reflexivity|].
  apply rtc_refl.
Qed.

Lemma jobDone_reachable : rtc step (initJob filesA 1) jobDone.
Proof.
  etransitivity; [apply jobReduce_reachable|].
  eapply rtc_l; [eapply (job_reduce _ _ _ _ _ _ _ _ _ _ _ _ (rtask STARTED)); [left|vm_compute; reflexivity]|].
  eapply rtc_l; [eapply (job_reduce_report _ _ _ _ _ _ _ _ _ _ _ _ _ 0); [left|vm_compute; reflexivity]|].
  apply rtc_refl.
Qed.

Lemma mr_correct_witness :
  ∃ out, mrsequential countMap countReduce sortKeys inputsA filesA = Ok out ∧ [("w", "2")] ≡ₚ out.
Proof.
  destruct (mr_correct countMap countReduce sortKeys id inputsA filesA 1 ltac:(lia) inputsA_ok ltac:(done) sortKeys_ok
    jobDone (j_coord jobDone)) as (outs & out & Hlen & Hr & Hs & Hp);
    [|apply jobDone_reachable|reflexivity|].
  { intros k vs vs' Hvs. unfold countReduce. by rewrite Hvs. }
  exists out. split; [done|]. destruct outs as [|o [|]]; [done| |done].
  specialize (Hr 0 ltac:(lia)). vm_compute in Hr. injection Hr as <-. done.
Defined.

Lemma workers_never_fail_witness :
  ∃ out, doReduceTask countReduce sortKeys filesWritten (rtask STARTED) = Ok out.
Proof.
  destruct (workers_never_fail countMap countReduce sortKeys id inputsA filesA 1 ltac:(lia) inputsA_ok ltac:(done)
    sortKeys_ok jobReduce jobReduce_reachable) as [_ H]. apply H. left.
Defined.

(** With both map tasks out, a third worker waits for their timers. *)
Definition coordBusy : Coordinator :=
  mkCoordinator false false [mtask 0 "f" STARTED; mtask 1 "g" STARTED] [rtask WAITTING] [1; 0] [].

Lemma coordBusy_reachable : rtc coord_step (MakeCoordinator filesA 1) coordBusy.
Proof.
  eapply rtc_l; [eapply coord_fetch; vm_compute; reflexivity|].
  eapply rtc_l; [eapply coord_fetch; vm_compute; reflexivity|]. apply rtc_refl.
Qed.

Lemma FetchTask_spec_witness :
  FetchTask coordBusy = (coordBusy, None) ∧
  ((∃ i t, MapTasks coordBusy !! i = Some t ∧ mt_State t = STARTED ∧ i ∈ mapTimers coordBusy) ∨
   maps_finished coordBusy ∧
     ∃ i t, ReduceTasks coordBusy !! i = Some t ∧ rt_State t = STARTED ∧ i ∈ reduceTimers coordBusy).
Proof. split; [reflexivity|]. exact (FetchTask_spec filesA 1 coordBusy coordBusy_reachable). Defined.
