(* ===== verification/PorcupineBitset.v ===== *)
(** * Bit sets of the checker (src/porcupine/bitset.go)

    A set of small numbers as a slice of 64-bit words.  [set] and [clear]
    work in place in the source; every caller either owns the slice or has
    cloned it, so they are functions on values here.  A position beyond the
    slice is an index panic.

    Theorem: the words stay in range and the operations are those of a set
    of the positions below the size; what [popcnt], [hash] and [equals] say of
    that set. *)

From stdpp Require Import base list gmap.
From Stdlib Require Import ZArith Lia.
From S2P Require Import Prelude.

Abbreviation bitset := (list Z).

Definition newBitset (bits : Z) : bitset :=
  let extra := if bool_decide (bits mod 64 ≠ 0)%Z then 1%Z else 0%Z in
  let chunks := (bits / 64 + extra)%Z in
  replicate (Z.to_nat chunks) 0%Z.

Definition clone (b : bitset) : bitset := b.

Definition bitsetIndex (pos : Z) : Z * Z := (pos / 64, pos mod 64)%Z.

Definition set (b : bitset) (pos : Z) : Res bitset :=
  let '(major, minor) := bitsetIndex pos in
  v ← idx b major;
  upd b major (Z.lor v (Z.shiftl 1 minor)).

Definition clear (b : bitset) (pos : Z) : Res bitset :=
  let '(major, minor) := bitsetIndex pos in
  v ← idx b major;
  upd b major (Z.ldiff v (Z.shiftl 1 minor)).

Definition get (b : bitset) (pos : Z) : Res bool :=
  let '(major, minor) := bitsetIndex pos in
  v ← idx b major;
  Ok (bool_decide (Z.land v (Z.shiftl 1 minor) ≠ 0%Z)).

(** [bits.OnesCount64] *)
Definition OnesCount64 (v : Z) : Z :=
  zlen (filter (λ k, Z.testbit v (Z.of_nat k) = true) (seq 0 64)).

Definition popcnt (b : bitset) : Z := foldl (λ total v, total + OnesCount64 v)%Z 0%Z b.

Definition hash (b : bitset) : Z := foldl Z.lxor (popcnt b) b.

Fixpoint equals_loop (b b2 : bitset) : bool :=
  match b, b2 with
  | v :: b, v2 :: b2 => if bool_decide (v ≠ v2) then false else equals_loop b b2
  | _, _ => true
  end.

Definition equals (b b2 : bitset) : bool :=
  if bool_decide (length b ≠ length b2) then false else equals_loop b b2.

(** ** Specification vocabulary *)

(** The bit at a position; 0 beyond the slice. *)
Definition bit (b : bitset) (pos : Z) : bool :=
  Z.testbit (default 0%Z (b !! Z.to_nat (pos / 64))) (pos mod 64).

(** [b] has room for [n] positions and its words are 64 bits wide. *)
Record bitset_wf (n : Z) (b : bitset) : Prop := {
  bw_room : (n ≤ 64 * zlen b)%Z;
  bw_words : ∀ v, v ∈ b → (0 ≤ v < 2 ^ 64)%Z;
}.

(** [b] is the set [X]. *)
Definition represents (b : bitset) (X : gset Z) : Prop :=
  ∀ pos, (0 ≤ pos)%Z → bit b pos = bool_decide (pos ∈ X).

(** ** Lemmas *)

Lemma pos_split p q :
  (0 ≤ p)%Z → (0 ≤ q)%Z → p ≠ q → Z.to_nat (p / 64) = Z.to_nat (q / 64) → (p mod 64 ≠ q mod 64)%Z.
Proof. intros. Z.to_euclidean_division_equations. lia. Qed.

Lemma testbit_one k j : (0 ≤ k)%Z → Z.testbit (Z.shiftl 1 k) j = bool_decide (j = k).
Proof.
  intros Hk. destruct (decide (j < 0)%Z).
  { rewrite Z.testbit_neg_r by done. symmetry. apply bool_decide_eq_false. lia. }
  rewrite Z.shiftl_1_l, Z.pow2_bits_eqb by lia.
  destruct (Z.eqb_spec k j); symmetry; [apply bool_decide_eq_true|apply bool_decide_eq_false]; lia.
Qed.

(** Replacing the word of a position by one that differs in its bit only. *)
Lemma bit_insert b pos w v x :
  (0 ≤ pos)%Z → b !! Z.to_nat (pos / 64) = Some v →
  (∀ j, (0 ≤ j)%Z → Z.testbit w j = if decide (j = pos mod 64)%Z then x else Z.testbit v j) →
  ∀ q, (0 ≤ q)%Z → bit (<[Z.to_nat (pos / 64) := w]> b) q = if decide (q = pos) then x else bit b q.
Proof.
  intros Hpos Hv Hw q Hq. unfold bit. pose proof (Z.mod_pos_bound q 64 ltac:(lia)) as Hqm.
  destruct (decide (q = pos)) as [->|Hne].
  - rewrite list_lookup_insert_eq by (by eapply lookup_lt_Some). simpl. rewrite Hw by lia. by rewrite decide_True.
  - destruct (decide (Z.to_nat (pos / 64) = Z.to_nat (q / 64))) as [Heq|].
    + rewrite <-Heq, list_lookup_insert_eq, Hv by (by eapply lookup_lt_Some). simpl. rewrite Hw by lia.
      rewrite decide_False; [done|]. apply (pos_split q pos); auto.
    + by rewrite list_lookup_insert_ne.
Qed.

Lemma word_at n (b : bitset) pos :
  (n ≤ 64 * zlen b)%Z → (0 ≤ pos < n)%Z →
  (0 ≤ pos / 64 < zlen b)%Z ∧ ∃ v, idx b (pos / 64) = Ok v ∧ b !! Z.to_nat (pos / 64) = Some v.
Proof.
  intros Hn Hpos. assert (0 ≤ pos / 64 < zlen b)%Z as Hr by (Z.to_euclidean_division_equations; lia).
  split; [done|]. by apply idx_returns.
Qed.

Lemma set_run n (b : bitset) pos :
  (n ≤ 64 * zlen b)%Z → (0 ≤ pos < n)%Z →
  ∃ b', set b pos = Ok b' ∧ zlen b' = zlen b ∧
    ∀ q, (0 ≤ q)%Z → bit b' q = if decide (q = pos) then true else bit b q.
Proof.
  intros Hn Hpos. destruct (word_at n b pos Hn Hpos) as (Hr & v & Hv & Hl).
  unfold set, bitsetIndex. rewrite Hv. simpl. rewrite upd_in by done. eexists. split; [done|].
  split; [apply zlen_insert|]. apply (bit_insert b pos _ v); [lia|done|]. intros j Hj.
  rewrite Z.lor_spec, testbit_one by (apply Z.mod_pos_bound; lia).
  destruct (decide _); [rewrite bool_decide_true by done|rewrite bool_decide_false by done];
    [apply orb_true_r|apply orb_false_r].
Qed.

Lemma clear_run n (b : bitset) pos :
  (n ≤ 64 * zlen b)%Z → (0 ≤ pos < n)%Z →
  ∃ b', clear b pos = Ok b' ∧ zlen b' = zlen b ∧
    ∀ q, (0 ≤ q)%Z → bit b' q = if decide (q = pos) then false else bit b q.
Proof.
  intros Hn Hpos. destruct (word_at n b pos Hn Hpos) as (Hr & v & Hv & Hl).
  unfold clear, bitsetIndex. rewrite Hv. simpl. rewrite upd_in by done. eexists. split; [done|].
  split; [apply zlen_insert|]. apply (bit_insert b pos _ v); [lia|done|]. intros j Hj.
  rewrite Z.ldiff_spec, testbit_one by (apply Z.mod_pos_bound; lia).
  destruct (decide _); [rewrite bool_decide_true by done|rewrite bool_decide_false by done];
    [apply andb_false_r|apply andb_true_r].
Qed.

Lemma get_run n (b : bitset) pos : (n ≤ 64 * zlen b)%Z → (0 ≤ pos < n)%Z → get b pos = Ok (bit b pos).
Proof.
  intros Hn Hpos. destruct (word_at n b pos Hn Hpos) as (Hr & v & Hv & Hl).
  unfold get, bitsetIndex, bit. rewrite Hv, Hl. simpl. f_equal.
  pose proof (Z.mod_pos_bound pos 64 ltac:(lia)) as Hm.
  destruct (Z.testbit v (pos mod 64)) eqn:E.
  - apply bool_decide_eq_true. intros H0. apply (f_equal (λ x, Z.testbit x (pos mod 64))) in H0.
    rewrite Z.land_spec, testbit_one, E, bool_decide_true, Z.bits_0 in H0 by (done || lia). done.
  - apply bool_decide_eq_false. intros Hne. apply Hne. apply Z.bits_inj_0. intros j.
    rewrite Z.land_spec, testbit_one by lia. destruct (decide (j = pos mod 64)%Z) as [->|];
      [by rewrite E|rewrite bool_decide_false by done; apply andb_false_r].
Qed.

(** Words stay in range. *)
Lemma word_range w : (0 ≤ w)%Z → (∀ j, (64 ≤ j)%Z → Z.testbit w j = false) → (0 ≤ w < 2 ^ 64)%Z.
Proof.
  intros H0 Hj. split; [done|]. destruct (decide (w < 2 ^ 64)%Z) as [|Hge]; [done|]. exfalso.
  assert (Hlog : (64 ≤ Z.log2 w)%Z) by (apply Z.log2_le_pow2; lia).
  pose proof (Hj (Z.log2 w) Hlog) as Hbit. rewrite Z.bit_log2 in Hbit by lia. done.
Qed.

Lemma range_bits w j : (0 ≤ w < 2 ^ 64)%Z → (64 ≤ j)%Z → Z.testbit w j = false.
Proof.
  intros Hw Hj. destruct (decide (w = 0)%Z) as [->|]; [apply Z.bits_0|].
  apply Z.bits_above_log2; [lia|]. assert (Z.log2 w < 64)%Z by (apply Z.log2_lt_pow2; lia). lia.
Qed.

Lemma words_insert n b i w :
  bitset_wf n b → (0 ≤ w < 2 ^ 64)%Z → bitset_wf n (<[i := w]> b).
Proof.
  intros [Hr Hw] Hin. split; [by rewrite zlen_insert|].
  intros v [k Hk]%list_elem_of_lookup.
  apply list_lookup_insert_Some in Hk as [(_ & <- & _)|[_ Hk]]; [done|]. apply Hw. by eapply list_elem_of_lookup_2.
Qed.

Lemma one_range k : (0 ≤ k < 64)%Z → ∀ j, (64 ≤ j)%Z → Z.testbit (Z.shiftl 1 k) j = false.
Proof. intros Hk j Hj. rewrite testbit_one by lia. apply bool_decide_eq_false. lia. Qed.

Lemma set_wf n b pos b' : bitset_wf n b → (0 ≤ pos)%Z → set b pos = Ok b' → bitset_wf n b'.
Proof.
  intros Hwf Hpos H. unfold set, bitsetIndex in H. res_inv. apply upd_Ok in H as [_ ->].
  apply idx_Ok in E as [_ Hv]. assert (0 ≤ x < 2 ^ 64)%Z as Hx by (apply Hwf; by eapply list_elem_of_lookup_2).
  pose proof (Z.mod_pos_bound pos 64 ltac:(lia)) as Hm.
  apply words_insert; [done|]. apply word_range.
  - apply Z.lor_nonneg. split; [lia|]. apply Z.shiftl_nonneg. lia.
  - intros j Hj. by rewrite Z.lor_spec, range_bits, one_range.
Qed.

Lemma clear_wf n b pos b' : bitset_wf n b → (0 ≤ pos)%Z → clear b pos = Ok b' → bitset_wf n b'.
Proof.
  intros Hwf Hpos H. unfold clear, bitsetIndex in H. res_inv. apply upd_Ok in H as [_ ->].
  apply idx_Ok in E as [_ Hv]. assert (0 ≤ x < 2 ^ 64)%Z as Hx by (apply Hwf; by eapply list_elem_of_lookup_2).
  apply words_insert; [done|]. apply word_range.
  - apply Z.ldiff_nonneg. lia.
  - intros j Hj. by rewrite Z.ldiff_spec, range_bits.
Qed.

Lemma newBitset_wf n : (0 ≤ n)%Z → bitset_wf n (newBitset n) ∧ represents (newBitset n) ∅.
Proof.
  intros Hn. unfold newBitset. split; [split|].
  - unfold zlen. rewrite length_replicate. case_bool_decide; Z.to_euclidean_division_equations; lia.
  - intros v [-> _]%elem_of_replicate. lia.
  - intros pos Hpos. unfold bit. rewrite (bool_decide_false (pos ∈ ∅)) by apply not_elem_of_empty.
    destruct (_ !! _) as [v|] eqn:E; [apply lookup_replicate in E as [-> _]|]; apply Z.bits_0.
Qed.

Lemma equals_eq b b2 : equals b b2 = true ↔ b = b2.
Proof.
  unfold equals. case_bool_decide as Hl; [naive_solver|].
  revert b2 Hl. induction b as [|v b IH]; intros [|v2 b2] Hl; simplify_eq/=; [done|].
  case_bool_decide as Hv; [naive_solver|]. subst v2. rewrite IH by done. naive_solver.
Qed.

(** Equal bit sets are equal sets. *)
Lemma represents_inj b X Y :
  represents b X → represents b Y → (∀ x, x ∈ X → (0 ≤ x)%Z) → (∀ x, x ∈ Y → (0 ≤ x)%Z) → X = Y.
Proof.
  intros HX HY PX PY. apply set_eq. intros x.
  split; intros Hx; [pose proof (PX x Hx) as H0|pose proof (PY x Hx) as H0];
    specialize (HX x H0); specialize (HY x H0); rewrite HX in HY;
    [rewrite (bool_decide_true (x ∈ X)) in HY by done|rewrite (bool_decide_true (x ∈ Y)) in HY by done];
    [by apply eq_sym, bool_decide_eq_true in HY|by apply bool_decide_eq_true in HY].
Qed.

(** The set after [set] and [clear]. *)
Lemma set_represents b pos b' X :
  represents b X → (∀ q, (0 ≤ q)%Z → bit b' q = if decide (q = pos) then true else bit b q) →
  represents b' ({[pos]} ∪ X).
Proof.
  intros HX Hb q Hq. rewrite Hb, HX by done. destruct (decide (q = pos)) as [->|].
  - symmetry. apply bool_decide_eq_true. set_solver.
  - apply bool_decide_ext. set_solver.
Qed.

Lemma clear_represents b pos b' X :
  represents b X → (∀ q, (0 ≤ q)%Z → bit b' q = if decide (q = pos) then false else bit b q) →
  represents b' (X ∖ {[pos]}).
Proof.
  intros HX Hb q Hq. rewrite Hb, HX by done. destruct (decide (q = pos)) as [->|].
  - symmetry. apply bool_decide_eq_false. set_solver.
  - apply bool_decide_ext. set_solver.
Qed.

(** Bit sets of the same size that hold the same positions are equal. *)
Lemma words_inj n b b2 :
  bitset_wf n b → bitset_wf n b2 → length b = length b2 → (∀ q, (0 ≤ q)%Z → bit b q = bit b2 q) → b = b2.
Proof.
  intros [_ Hw] [_ Hw2] Hlen Hbit. apply list_eq_same_length with (length b); [done|done|].
  intros i v v2 _ Hv Hv2. assert (Hr : (0 ≤ v < 2 ^ 64)%Z) by (apply Hw; by eapply list_elem_of_lookup_2).
  assert (Hr2 : (0 ≤ v2 < 2 ^ 64)%Z) by (apply Hw2; by eapply list_elem_of_lookup_2).
  apply Z.bits_inj'. intros j Hj. destruct (decide (j < 64)%Z); [|by rewrite !range_bits by lia].
  specialize (Hbit (64 * Z.of_nat i + j)%Z ltac:(lia)). unfold bit in Hbit.
  assert (Hd : ((64 * Z.of_nat i + j) / 64 = Z.of_nat i)%Z) by (Z.to_euclidean_division_equations; lia).
  assert (Hm : ((64 * Z.of_nat i + j) mod 64 = j)%Z) by (Z.to_euclidean_division_equations; lia).
  by rewrite Hd, Hm, Nat2Z.id, Hv, Hv2 in Hbit.
Qed.

(** The positions whose bits are set, of the words from [off] on. *)
Fixpoint positions (off : nat) (b : bitset) : list Z :=
  match b with
  | [] => []
  | v :: b => ((λ k, 64 * Z.of_nat off + Z.of_nat k)%Z <$> filter (λ k, Z.testbit v (Z.of_nat k) = true) (seq 0 64))
              ++ positions (S off) b
  end.

Lemma elem_of_positions b : ∀ off x,
  x ∈ positions off b ↔ (64 * Z.of_nat off ≤ x < 64 * Z.of_nat (off + length b))%Z ∧ bit b (x - 64 * Z.of_nat off) = true.
Proof.
  induction b as [|v b IH]; intros off x; cbn [positions length].
  { rewrite elem_of_nil. split; [done|]. intros [? _]. lia. }
  rewrite elem_of_app, IH, list_elem_of_fmap. setoid_rewrite list_elem_of_filter. setoid_rewrite elem_of_seq. unfold bit. split.
  - intros [(k & -> & Hk & ?)|[Hr Hb]].
    + split; [lia|]. replace (64 * Z.of_nat off + Z.of_nat k - 64 * Z.of_nat off)%Z with (Z.of_nat k) by lia.
      rewrite Z.div_small, Z.mod_small by lia. done.
    + split; [lia|]. replace (x - 64 * Z.of_nat off)%Z with (x - 64 * Z.of_nat (S off) + 1 * 64)%Z by lia.
      rewrite Z.div_add, Z.mod_add by lia. set (q := ((x - 64 * Z.of_nat (S off)) / 64)%Z) in *.
      assert (0 ≤ q)%Z by (unfold q; apply Z.div_pos; lia). replace (Z.to_nat (q + 1)) with (S (Z.to_nat q)) by lia. done.
  - intros [Hr Hb]. destruct (decide (x < 64 * Z.of_nat (S off))%Z).
    + left. exists (Z.to_nat (x - 64 * Z.of_nat off)). rewrite Z2Nat.id by lia.
      rewrite Z.div_small, Z.mod_small in Hb by lia. simpl in Hb. split_and!; [lia|done|lia|lia].
    + right. split; [lia|]. replace (x - 64 * Z.of_nat off)%Z with (x - 64 * Z.of_nat (S off) + 1 * 64)%Z in Hb by lia.
      rewrite Z.div_add, Z.mod_add in Hb by lia. set (q := ((x - 64 * Z.of_nat (S off)) / 64)%Z) in *.
      assert (0 ≤ q)%Z by (unfold q; apply Z.div_pos; lia). by replace (Z.to_nat (q + 1)) with (S (Z.to_nat q)) in Hb by lia.
Qed.

Lemma positions_NoDup b : ∀ off, NoDup (positions off b).
Proof.
  induction b as [|v b IH]; intros off; cbn [positions]; [constructor|]. apply NoDup_app. split_and!; [| |done].
  - apply NoDup_fmap_2; [intros ? ? ?; lia|]. apply NoDup_filter, NoDup_seq.
  - intros x (k & -> & [_ ?%elem_of_seq]%list_elem_of_filter)%list_elem_of_fmap [? _]%elem_of_positions. lia.
Qed.

Lemma positions_length b : ∀ off, popcnt b = zlen (positions off b).
Proof.
  intros off. unfold popcnt. assert (Hgen : ∀ acc, foldl (λ total v, total + OnesCount64 v)%Z acc b = (acc + zlen (positions off b))%Z); [|apply Hgen].
  revert off. induction b as [|v b IH]; intros off acc; cbn [positions foldl]; [rewrite zlen_nil; lia|]. rewrite (IH (S off)), zlen_app.
  unfold OnesCount64, zlen at 3. rewrite length_fmap. unfold zlen. lia.
Qed.

(** A set that a bit set represents, as a list. *)
Lemma represents_positions b X :
  represents b X → (∀ x, x ∈ X → (0 ≤ x)%Z) → X = list_to_set (positions 0 b).
Proof.
  intros HX Hnn. apply set_eq. intros x. rewrite elem_of_list_to_set, elem_of_positions, Z.sub_0_r. split.
  - intros Hx. pose proof (Hnn x Hx). assert (Hb : bit b x = true) by (rewrite HX by done; by apply bool_decide_eq_true).
    split; [|done]. unfold bit in Hb. destruct (b !! Z.to_nat (x / 64)) as [v|] eqn:E; [|by rewrite Z.bits_0 in Hb].
    apply lookup_lt_Some in E. Z.to_euclidean_division_equations. lia.
  - intros [? Hb]. rewrite HX in Hb by lia. by apply bool_decide_eq_true in Hb.
Qed.

Lemma popcnt_size b X : represents b X → (∀ x, x ∈ X → (0 ≤ x)%Z) → popcnt b = Z.of_nat (size X).
Proof.
  intros HX Hnn. rewrite (represents_positions b X HX Hnn), size_list_to_set by apply positions_NoDup. apply positions_length.
Qed.

(** The bit [k] of the words, one after the other. *)
Lemma hash_bit b k : ∀ acc, Z.testbit (foldl Z.lxor acc b) k = foldl xorb (Z.testbit acc k) ((λ v, Z.testbit v k) <$> b).
Proof. induction b as [|v b IH]; intros acc; simpl; [done|]. by rewrite IH, Z.lxor_spec. Qed.

Lemma word_bits b X k :
  represents b X → (0 ≤ k < 64)%Z →
  (λ v, Z.testbit v k) <$> b = (λ i, bool_decide (64 * Z.of_nat i + k ∈ X)%Z) <$> seq 0 (length b).
Proof.
  intros HX Hk. apply list_eq. intros i. rewrite !list_lookup_fmap. destruct (b !! i) as [v|] eqn:Hv; simpl.
  - rewrite lookup_seq_lt by (by eapply lookup_lt_Some). simpl. f_equal. rewrite <-HX by lia. unfold bit.
    assert (Hd : ((64 * Z.of_nat i + k) / 64 = Z.of_nat i)%Z) by (Z.to_euclidean_division_equations; lia).
    assert (Hm : ((64 * Z.of_nat i + k) mod 64 = k)%Z) by (Z.to_euclidean_division_equations; lia).
    by rewrite Hd, Hm, Nat2Z.id, Hv.
  - by rewrite lookup_seq_ge by (by apply lookup_ge_None).
Qed.

(** ** Property *)

(** C35: the bit set is a set of the positions below its size: on every such
    position [set], [clear] and [get] do not panic, keep every word within 64
    bits, and add, remove and test exactly that position; the new bit set is
    empty; [popcnt] is the number of elements; bit [k] of [hash] is that of
    the number of elements, flipped once for every element that is [k] modulo
    64; and [equals] holds exactly for bit sets of the same length that are
    the same set. *)
Theorem bitset_spec n b X pos :
  bitset_wf n b → represents b X → (∀ x, x ∈ X → (0 ≤ x)%Z) → (0 ≤ pos < n)%Z →
  (bitset_wf n (newBitset n) ∧ represents (newBitset n) ∅) ∧
  (∃ b', set (clone b) pos = Ok b' ∧ bitset_wf n b' ∧ represents b' ({[pos]} ∪ X)) ∧
  (∃ b', clear b pos = Ok b' ∧ bitset_wf n b' ∧ represents b' (X ∖ {[pos]})) ∧
  get b pos = Ok (bool_decide (pos ∈ X)) ∧
  popcnt b = Z.of_nat (size X) ∧
  (∀ k, (0 ≤ k < 64)%Z → Z.testbit (hash b) k =
     foldl xorb (Z.testbit (Z.of_nat (size X)) k) ((λ i, bool_decide (64 * Z.of_nat i + k ∈ X)%Z) <$> seq 0 (length b))) ∧
  (∀ b2 Y, bitset_wf n b2 → represents b2 Y → (∀ x, x ∈ Y → (0 ≤ x)%Z) →
     equals b b2 = true ↔ length b = length b2 ∧ X = Y).
Proof.
  intros Hwf HX Hnn Hpos. pose proof (bw_room _ _ Hwf) as Hroom.
  split; [apply newBitset_wf; lia|]. split_and!.
  - destruct (set_run n b pos Hroom Hpos) as (b' & Hs & _ & Hb). exists b'. split; [done|].
    split; [exact (set_wf n b pos b' Hwf ltac:(lia) Hs)|exact (set_represents b pos b' X HX Hb)].
  - destruct (clear_run n b pos Hroom Hpos) as (b' & Hs & _ & Hb). exists b'. split; [done|].
    split; [exact (clear_wf n b pos b' Hwf ltac:(lia) Hs)|exact (clear_represents b pos b' X HX Hb)].
  - rewrite (get_run n b pos Hroom Hpos). f_equal. apply HX. lia.
  - by apply popcnt_size.
  - intros k Hk. unfold hash. by rewrite hash_bit, (popcnt_size b X HX Hnn), (word_bits b X k HX Hk).
  - intros b2 Y Hwf2 HY Hnn2. rewrite equals_eq. split.
    + intros <-. split; [done|]. by apply (represents_inj b).
    + intros [Hlen <-]. apply (words_inj n); [done..|]. intros q Hq. by rewrite HX, HY.
Qed.
