(* ===== verification/Porcupine.v ===== *)
(** * The linearizability checker (src/porcupine/checker.go, model.go, porcupine.go)

    The tests of the key/value service record what every client did and
    check that the history is linearizable.  The checker searches for an
    order of the operations by depth-first search over a doubly linked list
    of call and return entries: it takes an operation off the list ([lift]),
    goes on with the rest, and puts it back ([unlift]) when it is stuck;
    configurations it has seen are in a cache.

    The list lives in a heap: [h_nodes] has the fields of the nodes that never
    change, [h_next] and [h_prev] the two pointer fields, a pointer is a
    number and nil is [None] (for a field, no entry in the map).  Following
    nil panics.  Values of type interface{} are of a type [V] with an
    element for nil.

    [checkSingle_iter] is one pass of the loop of [checkSingle]; the loop has
    fuel, [Ok None] is a run that is not over.  The atomic flag [kill] is read
    once per pass, the readings are an argument.  [sort.Sort] is not stable:
    it is an argument [sortf], any function that returns a permutation sorted
    by [Less].  What the select of [checkParallel] receives is an argument.

    That the search is right is in [PorcupineSearch]. *)

From stdpp Require Import base list gmap strings sorting.
From Stdlib Require Import ZArith Lia.
From S2P Require Import Prelude PorcupineBitset.

Section Porcupine.
Context {V S : Type} `{!Inhabited V, !EqDecision S}.

(** ** model.go *)

Record Operation : Type := mkOperation {
  o_ClientId : Z;
  o_Input : V;
  o_Call : Z;
  o_Output : V;
  o_Return : Z;
}.

Inductive EventKind : Type := CallEvent | ReturnEvent.

Global Instance EventKind_eq_dec : EqDecision EventKind.
Proof. solve_decision. Defined.

Record Event : Type := mkEvent {
  v_ClientId : Z;
  v_Kind : EventKind;
  v_Value : V;
  v_Id : Z;
}.

(** A model as its author writes it: some functions may be nil, and those that
    look at values may panic (a type assertion that fails). *)
Record Model : Type := mkModel {
  m_Partition : option (list Operation → Res (list (list Operation)));
  m_PartitionEvent : option (list Event → Res (list (list Event)));
  m_Init : S;
  m_Step : S → V → V → Res (bool * S);
  m_Equal : option (S → S → bool);
  m_DescribeOperation : option (V → V → Res string);
  m_DescribeState : option (S → string);
}.

Definition NoPartition (history : list Operation) : Res (list (list Operation)) := Ok [history].
Definition NoPartitionEvent (history : list Event) : Res (list (list Event)) := Ok [history].
Definition ShallowEqual (state1 state2 : S) : bool := bool_decide (state1 = state2).

(** The formatting verb of the fmt package for any value. *)
Context (fmtV : V → string) (fmtS : S → string).

Definition DefaultDescribeOperation (input output : V) : Res string :=
  Ok (fmtV input ++ " -> " ++ fmtV output)%string.
Definition DefaultDescribeState (state : S) : string := fmtS state.

Inductive CheckResult : Type := ResUnknown | ResOk | ResIllegal.

Global Instance CheckResult_eq_dec : EqDecision CheckResult.
Proof. solve_decision. Defined.

(** A model whose functions are all set. *)
Record FullModel : Type := mkFullModel {
  Partition : list Operation → Res (list (list Operation));
  PartitionEvent : list Event → Res (list (list Event));
  Init : S;
  Step : S → V → V → Res (bool * S);
  Equal : S → S → bool;
  DescribeOperation : V → V → Res string;
  DescribeState : S → string;
}.

Definition fillDefault (model : Model) : FullModel := {|
  Partition := default NoPartition (m_Partition model);
  PartitionEvent := default NoPartitionEvent (m_PartitionEvent model);
  Init := m_Init model;
  Step := m_Step model;
  Equal := default ShallowEqual (m_Equal model);
  DescribeOperation := default DefaultDescribeOperation (m_DescribeOperation model);
  DescribeState := default DefaultDescribeState (m_DescribeState model);
|}.

(** ** Entries *)

Inductive entryKind : Type := callEntry | returnEntry.

Global Instance entryKind_eq_dec : EqDecision entryKind.
Proof. solve_decision. Defined.

Record entry : Type := mkEntry {
  e_kind : entryKind;
  e_value : V;
  e_id : Z;
  e_time : Z;
  e_clientId : Z;
}.

(** [byTime.Less] on two elements. *)
Definition Less (a b : entry) : bool :=
  if bool_decide (e_time a ≠ e_time b) then bool_decide (e_time a < e_time b)%Z
  else bool_decide (e_kind a = callEntry) && bool_decide (e_kind b = returnEntry).

Context (sortf : list entry → list entry).

Fixpoint makeEntries_loop (history : list Operation) (id : Z) : list entry :=
  match history with
  | [] => []
  | elem :: history =>
      mkEntry callEntry (o_Input elem) id (o_Call elem) (o_ClientId elem) ::
      mkEntry returnEntry (o_Output elem) id (o_Return elem) (o_ClientId elem) ::
      makeEntries_loop history (id + 1)
  end.

Definition makeEntries (history : list Operation) : list entry :=
  sortf (makeEntries_loop history 0).

Fixpoint renumber_loop (events : list Event) (m : gmap Z Z) (id : Z) : list Event :=
  match events with
  | [] => []
  | v :: events =>
      match m !! v_Id v with
      | Some r => mkEvent (v_ClientId v) (v_Kind v) (v_Value v) r :: renumber_loop events m id
      | None =>
          mkEvent (v_ClientId v) (v_Kind v) (v_Value v) id ::
          renumber_loop events (<[v_Id v := id]> m) (id + 1)
      end
  end.

Definition renumber (events : list Event) : list Event := renumber_loop events ∅ 0.

Definition convertEntries (events : list Event) : list entry :=
  imap (λ i elem,
    mkEntry (if bool_decide (v_Kind elem = ReturnEvent) then returnEntry else callEntry)
      (v_Value elem) (v_Id elem) (Z.of_nat i) (v_ClientId elem)) events.

(** ** The linked list *)

Abbreviation ptr := (option nat).

Record node : Type := mkNode {
  n_value : V;
  n_match : ptr;  (* of a call its return, of a return nil *)
  n_id : Z;
}.

Record heap : Type := mkHeap {
  h_nodes : list node;
  h_next : gmap nat nat;
  h_prev : gmap nat nat;
}.

Definition newHeap : heap := mkHeap [] ∅ ∅.

(** A new node; its next and prev are nil. *)
Definition alloc (h : heap) (n : node) : heap * nat :=
  (mkHeap (h_nodes h ++ [n]) (h_next h) (h_prev h), length (h_nodes h)).

(** The node a pointer refers to. *)
Definition deref (p : ptr) : Res nat := match p with Some a => Ok a | None => Panic end.
Definition load (h : heap) (a : nat) : Res node :=
  match h_nodes h !! a with Some n => Ok n | None => Panic end.

Definition set_next (h : heap) (a : nat) (p : ptr) : heap :=
  mkHeap (h_nodes h) (partial_alter (λ _, p) a (h_next h)) (h_prev h).
Definition set_prev (h : heap) (a : nat) (p : ptr) : heap :=
  mkHeap (h_nodes h) (h_next h) (partial_alter (λ _, p) a (h_prev h)).

Definition insertBefore (h : heap) (n : nat) (mark : ptr) : heap :=
  match mark with
  | None => h
  | Some m =>
      let beforeMark := h_prev h !! m in
      let h := set_prev h m (Some n) in
      let h := set_next h n (Some m) in
      match beforeMark with
      | None => h
      | Some b => set_next (set_prev h n (Some b)) b (Some n)
      end
  end.

(** [length], with fuel for the nodes of the heap. *)
Fixpoint length_loop (fuel : nat) (h : heap) (n : ptr) (l : Z) : Res Z :=
  match n with
  | None => Ok l
  | Some a =>
      match fuel with
      | O => Panic
      | Datatypes.S fuel => length_loop fuel h (h_next h !! a) (l + 1)
      end
  end.

Definition list_length (h : heap) (n : ptr) : Res Z := length_loop (length (h_nodes h)) h n 0.

(** The loop of [makeLinkedEntries], over the entries from the last to the
    first; [match_] has the return nodes by id. *)
Fixpoint linkEntries (entries : list entry) (h : heap) (root : ptr) (match_ : gmap Z nat) : heap * ptr :=
  match entries with
  | [] => (h, root)
  | elem :: entries =>
      if bool_decide (e_kind elem = returnEntry) then
        let '(h, e) := alloc h (mkNode (e_value elem) None (e_id elem)) in
        let match_ := <[e_id elem := e]> match_ in
        linkEntries entries (insertBefore h e root) (Some e) match_
      else
        let '(h, e) := alloc h (mkNode (e_value elem) (match_ !! e_id elem) (e_id elem)) in
        linkEntries entries (insertBefore h e root) (Some e) match_
  end.

Definition makeLinkedEntries (entries : list entry) : heap * ptr :=
  linkEntries (reverse entries) newHeap None ∅.

Definition lift (h : heap) (e : nat) : Res heap :=
  prev ← deref (h_prev h !! e);
  let h := set_next h prev (h_next h !! e) in
  next ← deref (h_next h !! e);
  let h := set_prev h next (h_prev h !! e) in
  en ← load h e;
  m ← deref (n_match en);
  prev ← deref (h_prev h !! m);
  let h := set_next h prev (h_next h !! m) in
  match h_next h !! m with
  | Some next => Ok (set_prev h next (h_prev h !! m))
  | None => Ok h
  end.

Definition unlift (h : heap) (e : nat) : Res heap :=
  en ← load h e;
  m ← deref (n_match en);
  prev ← deref (h_prev h !! m);
  let h := set_next h prev (Some m) in
  let h := match h_next h !! m with Some next => set_prev h next (Some m) | None => h end in
  prev ← deref (h_prev h !! e);
  let h := set_next h prev (Some e) in
  next ← deref (h_next h !! e);
  Ok (set_prev h next (Some e)).

(** ** checkSingle *)

Record cacheEntry : Type := mkCacheEntry {
  ce_linearized : bitset;
  ce_state : S;
}.

Abbreviation cache_t := (gmap Z (list cacheEntry)).

Definition cacheContains (model : FullModel) (cache : cache_t) (e : cacheEntry) : bool :=
  existsb (λ elem, equals (ce_linearized e) (ce_linearized elem) && Equal model (ce_state e) (ce_state elem))
    (default [] (cache !! hash (ce_linearized e))).

Definition cacheAdd (cache : cache_t) (e : cacheEntry) : cache_t :=
  let h := hash (ce_linearized e) in
  <[h := default [] (cache !! h) ++ [e]]> cache.

(** The variables of the loop.  [longest] has pointers to sequences of ids,
    which live in [seqs]; [calls] is the stack, oldest first. *)
Record Search : Type := mkSearch {
  s_heap : heap;
  s_entry : ptr;
  s_state : S;
  s_linearized : bitset;
  s_cache : cache_t;
  s_calls : list (nat * S);
  s_seqs : list (list Z);
  s_longest : list (option nat);
}.

(** The ids of the operations on the stack. *)
Fixpoint callIds (h : heap) (calls : list (nat * S)) : Res (list Z) :=
  match calls with
  | [] => Ok []
  | (e, _) :: calls => n ← load h e; ids ← callIds h calls; Ok (n_id n :: ids)
  end.

(** The loop over [calls] that records the longest sequence; the new sequence
    is created when the first entry needs it. *)
Definition record_one (h : heap) (calls : list (nat * S)) (acc : list (list Z) * list (option nat) * ptr)
    (v : nat * S) : Res (list (list Z) * list (option nat) * ptr) :=
  let '(seqs, longest, seq) := acc in
  n ← load h v.1;
  old ← idx longest (n_id n);
  better ← match old with
           | None => Ok true
           | Some p => match seqs !! p with
                       | Some s => Ok (bool_decide (zlen calls > zlen s)%Z)
                       | None => Panic
                       end
           end;
  if better : bool then
    '(seqs, p) ← match seq with
                 | Some p => Ok (seqs, p)
                 | None => ids ← callIds h calls; Ok (seqs ++ [ids], length seqs)
                 end;
    longest ← upd longest (n_id n) (Some p);
    Ok (seqs, longest, Some p)
  else Ok (seqs, longest, seq).

Definition recordLongest (h : heap) (calls : list (nat * S)) (seqs : list (list Z))
    (longest : list (option nat)) : Res (list (list Z) * list (option nat)) :=
  '(seqs, longest, _) ← foldM (record_one h calls) (seqs, longest, None) calls;
  Ok (seqs, longest).

(** One pass of the loop body after the test of [kill]; [inr] is the return
    statement of a search that found nothing. *)
Definition checkSingle_iter (model : FullModel) (computePartial : bool) (headEntry : nat) (s : Search)
    : Res (Search + Search) :=
  let '(mkSearch h ent state lin cache calls seqs longest) := s in
  e ← deref ent;
  en ← load h e;
  match n_match en with
  | Some m =>
      matching ← load h m;
      '(ok, newState) ← Step model state (n_value en) (n_value matching);
      if ok : bool then
        newLinearized ← set (clone lin) (n_id en);
        let newCacheEntry := mkCacheEntry newLinearized newState in
        if negb (cacheContains model cache newCacheEntry) then
          let cache := cacheAdd cache newCacheEntry in
          let calls := calls ++ [(e, state)] in
          lin ← set lin (n_id en);
          h ← lift h e;
          Ok (inl (mkSearch h (h_next h !! headEntry) newState lin cache calls seqs longest))
        else Ok (inl (mkSearch h (h_next h !! e) state lin cache calls seqs longest))
      else Ok (inl (mkSearch h (h_next h !! e) state lin cache calls seqs longest))
  | None =>
      match last calls with
      | None => Ok (inr s)
      | Some (e, state) =>
          '(seqs, longest) ← (if computePartial then recordLongest h calls seqs longest else Ok (seqs, longest));
          en ← load h e;
          lin ← clear lin (n_id en);
          let calls := take (length calls - 1) calls in
          h ← unlift h e;
          Ok (inl (mkSearch h (h_next h !! e) state lin cache calls seqs longest))
      end
  end.

(** What [checkSingle] returns: the sequences and the pointers to them. *)
Record Longest : Type := mkLongest { l_seqs : list (list Z); l_longest : list (option nat) }.

Fixpoint checkSingle_loop (model : FullModel) (computePartial : bool) (headEntry : nat) (n : nat)
    (fuel : nat) (kill : nat → bool) (k : nat) (s : Search) : Res (option (bool * Longest)) :=
  match fuel with
  | O => Ok None
  | Datatypes.S fuel =>
      match h_next (s_heap s) !! headEntry with
      | None =>
          (* every operation is linearized *)
          seq ← callIds (s_heap s) (s_calls s);
          Ok (Some (true, mkLongest (s_seqs s ++ [seq]) (replicate n (Some (length (s_seqs s))))))
      | Some _ =>
          if kill k then Ok (Some (false, mkLongest (s_seqs s) (s_longest s)))
          else
            r ← checkSingle_iter model computePartial headEntry s;
            match r with
            | inl s => checkSingle_loop model computePartial headEntry n fuel kill (Datatypes.S k) s
            | inr s => Ok (Some (false, mkLongest (s_seqs s) (s_longest s)))
            end
      end
  end.

(** Enough fuel for [n] operations: each entry that is left is visited at
    most once, with everything that follows it. *)
Fixpoint search_cost (n : nat) : nat :=
  match n with O => O | Datatypes.S k => 2 * Datatypes.S k * (2 + search_cost k) end.

Definition checkSingle (model : FullModel) (history : list entry) (computePartial : bool) (kill : nat → bool)
    : Res (option (bool * Longest)) :=
  let '(h, ent) := makeLinkedEntries history in
  len ← list_length h ent;
  let n := (len / 2)%Z in
  let linearized := newBitset n in
  let longest := replicate (Z.to_nat n) None in
  let state := Init model in
  let '(h, headEntry) := alloc h (mkNode inhabitant None (-1)) in
  let h := insertBefore h headEntry ent in
  checkSingle_loop model computePartial headEntry (Z.to_nat n) (2 + search_cost (Z.to_nat n)) kill 0
    (mkSearch h ent state linearized ∅ [] [] longest).

(** ** checkParallel *)

(** What the select statement receives. *)
Inductive Received : Type :=
| RecvResult (ok : bool)
| RecvTimeout.

(** The loop: [None] while it waits.  Returns [ok] and [timedOut]. *)
Fixpoint collect (computeInfo : bool) (total : Z) (evs : list Received) (ok : bool) (count : Z)
    : option (bool * bool) :=
  match evs with
  | [] => None
  | RecvTimeout :: _ => Some (ok, true)
  | RecvResult result :: evs =>
      let count := (count + 1)%Z in
      let ok := ok && result in
      if negb ok && negb computeInfo then Some (ok, false)
      else if bool_decide (count >= total)%Z then Some (ok, false)
      else collect computeInfo total evs ok count
  end.

(** The set of distinct linearizations [longest] points to. *)
Definition partials (l : Longest) : list (list Z) :=
  omap (λ p, l_seqs l !! p) (elements (list_to_set (omap id (l_longest l)) : gset nat)).

Record linearizationInfo : Type := mkInfo {
  i_history : list (list entry);
  i_partialLinearizations : list (list (list Z));
}.

(** The channel delivers [evs]; [longest] is what the goroutines return. *)
Definition checkParallel (history : list (list entry)) (computeInfo : bool) (evs : list Received)
    (longest : list Longest) : option (CheckResult * linearizationInfo) :=
  '(ok, timedOut) ← collect computeInfo (zlen history) evs true 0;
  let info := if computeInfo : bool then mkInfo history (partials <$> longest) else mkInfo [] [] in
  let result := if negb ok then ResIllegal else if timedOut : bool then ResUnknown else ResOk in
  Some (result, info).

Definition checkEvents (model : Model) (history : list Event) (verbose : bool) (evs : list Received)
    (longest : list Longest) : Res (option (CheckResult * linearizationInfo)) :=
  let model := fillDefault model in
  partitions ← PartitionEvent model history;
  Ok (checkParallel ((λ sub, convertEntries (renumber sub)) <$> partitions) verbose evs longest).

Definition checkOperations (model : Model) (history : list Operation) (verbose : bool) (evs : list Received)
    (longest : list Longest) : Res (option (CheckResult * linearizationInfo)) :=
  let model := fillDefault model in
  partitions ← Partition model history;
  Ok (checkParallel (makeEntries <$> partitions) verbose evs longest).

(** ** porcupine.go *)

Definition CheckOperations (model : Model) (history : list Operation) (evs : list Received) : Res (option bool) :=
  res ← checkOperations model history false evs [];
  Ok (option_map (λ r, bool_decide (r.1 = ResOk)) res).

Definition CheckOperationsTimeout (model : Model) (history : list Operation) (evs : list Received)
    : Res (option CheckResult) :=
  res ← checkOperations model history false evs []; Ok (option_map fst res).

Definition CheckOperationsVerbose (model : Model) (history : list Operation) (evs : list Received)
    (longest : list Longest) : Res (option (CheckResult * linearizationInfo)) :=
  checkOperations model history true evs longest.

Definition CheckEvents (model : Model) (history : list Event) (evs : list Received) : Res (option bool) :=
  res ← checkEvents model history false evs [];
  Ok (option_map (λ r, bool_decide (r.1 = ResOk)) res).

Definition CheckEventsTimeout (model : Model) (history : list Event) (evs : list Received)
    : Res (option CheckResult) :=
  res ← checkEvents model history false evs []; Ok (option_map fst res).

Definition CheckEventsVerbose (model : Model) (history : list Event) (evs : list Received)
    (longest : list Longest) : Res (option (CheckResult * linearizationInfo)) :=
  checkEvents model history true evs longest.
End Porcupine.

Arguments Operation V : clear implicits.
Arguments Event V : clear implicits.
Arguments Model V S : clear implicits.
Arguments FullModel V S : clear implicits.
Arguments entry V : clear implicits.
Arguments node V : clear implicits.
Arguments heap V : clear implicits.
Arguments Search V S : clear implicits.
Arguments cacheEntry S : clear implicits.
