(* ===== verification/PorcupineSearch.v ===== *)
(** * The search of the linearizability checker is right

    [linearizable]: a permutation of the operations of a history is legal for
    the model and keeps the real-time order.  [checkSingle] (checker.go)
    never follows nil, ends, and returns true exactly for linearizable
    histories.  The proof shows that the linked list, however often entries
    are taken off and put back, holds the entries of the operations that are
    left ([dseg], [rem]); that taking an operation off and putting it back
    leaves the heap as it was; and that a configuration in the cache cannot be
    completed or is on the way to the current one. *)

From stdpp Require Import base list gmap sets strings sorting relations.
From Stdlib Require Import ZArith Lia.
From S2P Require Import Prelude PorcupineBitset Porcupine.

(** ** Doubly linked segments *)

Section Links.
Context {V : Type}.
Implicit Types h : heap V.

(** [ys] are the nodes of the list between [pp] and [qn]. *)
Fixpoint dseg (nx pv : gmap nat nat) (pp qn : option nat) (ys : list nat) : Prop :=
  match ys with
  | [] => True
  | a :: r => pv !! a = pp ∧ nx !! a = from_option Some qn (head r) ∧ dseg nx pv (Some a) qn r
  end.

Lemma dseg_app nx pv pp qn A p B :
  dseg nx pv pp qn (A ++ p :: B) ↔
  dseg nx pv pp (Some p) A ∧ dseg nx pv (from_option Some pp (last A)) qn (p :: B).
Proof.
  revert pp. induction A as [|a A IH]; intros pp; [simpl; naive_solver|].
  change ((a :: A) ++ p :: B) with (a :: (A ++ p :: B)). cbn [dseg]. rewrite IH.
  assert (from_option Some qn (head (A ++ p :: B)) = from_option Some (Some p) (head A)) as -> by (by destruct A).
  assert (from_option Some pp (last (a :: A)) = from_option Some (Some a) (last A)) as ->.
  { rewrite last_cons. by destruct (last A). }
  cbn [dseg]. naive_solver.
Qed.

(** A segment does not see changes elsewhere. *)
Lemma dseg_frame nx pv nx' pv' pp qn ys :
  (∀ a, a ∈ ys → nx' !! a = nx !! a) → (∀ a, a ∈ ys → pv' !! a = pv !! a) →
  dseg nx pv pp qn ys → dseg nx' pv' pp qn ys.
Proof.
  revert pp. induction ys as [|a ys IH]; intros pp Hn Hp; [done|]. cbn [dseg]. intros (H1 & H2 & H3).
  rewrite Hn, Hp by left. split_and!; [done|done|]. apply IH; [|by intros; apply Hp; right|done].
  by intros; apply Hn; right.
Qed.

Definition list_ok h (ys : list nat) : Prop := dseg (h_next h) (h_prev h) None None ys.

(** The two halves of [lift] and [unlift]: one node leaves its list, keeping
    its own pointers, and comes back. *)
Definition unlink h (p x : nat) : heap V :=
  let h := set_next h p (h_next h !! x) in
  match h_next h !! x with Some q => set_prev h q (Some p) | None => h end.

Definition relink h (p x : nat) : heap V :=
  let h := set_next h p (Some x) in
  match h_next h !! x with Some q => set_prev h q (Some x) | None => h end.

Lemma alter_back (m : gmap nat nat) a o v :
  m !! a = v → partial_alter (λ _, v) a (partial_alter (λ _, o) a m) = m.
Proof.
  intros Hv. apply map_eq. intros k. destruct (decide (a = k)) as [<-|].
  - by rewrite lookup_partial_alter_eq.
  - by rewrite !lookup_partial_alter_ne.
Qed.

Lemma unlink_spec h A p x B :
  NoDup (A ++ p :: x :: B) → list_ok h (A ++ p :: x :: B) →
  h_prev h !! x = Some p ∧ h_next h !! x = head B ∧
  list_ok (unlink h p x) (A ++ p :: B) ∧ relink (unlink h p x) p x = h ∧
  h_nodes (unlink h p x) = h_nodes h ∧
  h_prev (unlink h p x) !! x = Some p ∧ h_next (unlink h p x) !! x = head B.
Proof.
  intros Hnd Hok. unfold list_ok in Hok. apply dseg_app in Hok as [HA (Hp1 & Hp2 & Hx1 & Hx2 & HB)].
  simpl in Hp2. assert (Hhead : h_next h !! x = head B) by (rewrite Hx2; by destruct B).
  apply NoDup_app in Hnd as (_ & Hd & Hnd). apply NoDup_cons in Hnd as [Hpx Hnd]. apply NoDup_cons in Hnd as [HxB HndB].
  assert (Hpx' : p ≠ x) by (intros ->; apply Hpx; left).
  unfold unlink, relink, list_ok, set_next, set_prev. cbn [h_next h_prev h_nodes].
  rewrite (lookup_partial_alter_ne _ _ p x) by done. rewrite Hhead.
  split; [done|]. split; [done|].
  destruct B as [|q B]; cbn [head h_next h_prev h_nodes].
  - rewrite lookup_partial_alter_ne by done. rewrite lookup_partial_alter_ne by done.
    rewrite Hhead, alter_back by done. split_and!; try done; [|by destruct h].
    apply dseg_app. split.
    + eapply dseg_frame; [|done|exact HA]. intros a Ha. apply lookup_partial_alter_ne. intros ->. by apply (Hd a Ha); left.
    + simpl. rewrite lookup_partial_alter_eq. done.
  - assert (Hq : q ≠ p ∧ q ≠ x) by (split; intros ->; [apply Hpx; set_solver|apply HxB; left]).
    destruct Hq as [Hqp Hqx]. apply NoDup_cons in HndB as [HqB _]. destruct HB as (Hq1 & Hq2 & HB).
    rewrite !(lookup_partial_alter_ne _ _ p x) by done. rewrite Hhead. cbn [head h_next h_prev h_nodes].
    rewrite !alter_back by done. rewrite lookup_partial_alter_ne by done. split_and!; try done; [|by destruct h].
    apply dseg_app. split; [|split_and!].
    + eapply dseg_frame; [| |exact HA]; intros a Ha; apply lookup_partial_alter_ne; intros ->;
        apply (Hd a Ha); [left|set_solver].
    + rewrite lookup_partial_alter_ne by done. done.
    + by rewrite lookup_partial_alter_eq.
    + simpl. rewrite lookup_partial_alter_eq. split; [done|]. rewrite lookup_partial_alter_ne by done. split; [done|].
      eapply dseg_frame; [| |exact HB]; intros a Ha; apply lookup_partial_alter_ne; intros ->; [|done].
      apply Hpx. set_solver.
Qed.

(** The node before a position of a list that has another node in front. *)
Lemma split_before (A : list nat) p B : ∃ A2 p2, A ++ p :: B = A2 ++ [p2].
Proof.
  destruct B as [|b B _] using rev_ind; [by exists A, p|]. exists (A ++ p :: B), b. by rewrite <-app_assoc.
Qed.

(** [lift] takes a call and its return off the list; [unlift] undoes exactly
    that. *)
Lemma lift_spec h A p e B m D en :
  NoDup (A ++ p :: e :: B ++ m :: D) → list_ok h (A ++ p :: e :: B ++ m :: D) →
  h_nodes h !! e = Some en → n_match en = Some m →
  ∃ h', lift h e = Ok h' ∧ unlift h' e = Ok h ∧ list_ok h' (A ++ p :: B ++ D) ∧ h_nodes h' = h_nodes h ∧
    h_next h !! e = head (B ++ m :: D).
Proof.
  intros Hnd Hok Hen Hm.
  destruct (unlink_spec h A p e (B ++ m :: D) Hnd Hok) as (U1 & U2 & U3 & U4 & U5 & U6 & U7).
  assert (Hsome : ∃ q, head (B ++ m :: D) = Some q) by (destruct B; eexists; done). destruct Hsome as [q Hq].
  assert (Hpe : p ≠ e).
  { apply NoDup_app in Hnd as (_ & _ & Hnd). apply NoDup_cons in Hnd as [Hnd _]. intros ->. apply Hnd. left. }
  assert (Hnd1 : NoDup (A ++ p :: B ++ m :: D)).
  { apply (sublist_NoDup _ _ Hnd). apply sublist_app; [done|]. by apply sublist_skip, sublist_cons. }
  destruct (split_before A p B) as (A2 & p2 & Hsp).
  assert (Hl1 : A ++ p :: B ++ m :: D = A2 ++ p2 :: m :: D).
  { change (p :: B ++ m :: D) with ((p :: B) ++ m :: D). rewrite app_assoc, Hsp, <-app_assoc. done. }
  set (h1 := unlink h p e) in *. rewrite Hl1 in Hnd1, U3.
  destruct (unlink_spec h1 A2 p2 m D Hnd1 U3) as (W1 & W2 & W3 & W4 & W5 & W6 & W7).
  set (h2 := unlink h1 p2 m) in *. exists h2. split_and!.
  - unfold lift. rewrite U1. cbn [deref]. res_simpl. rewrite U2, Hq.
    assert (Hh1 : h1 = set_prev (set_next h p (Some q)) q (Some p)).
    { unfold h1, unlink. rewrite U2, Hq. cbn [set_next h_next]. by rewrite lookup_partial_alter_ne, U2, Hq by done. }
    assert (Hnext : h_next (set_next h p (Some q)) !! e = Some q).
    { cbn [set_next h_next]. by rewrite lookup_partial_alter_ne, U2, Hq by done. }
    assert (Hprev : h_prev (set_next h p (Some q)) !! e = Some p) by done.
    rewrite Hnext, Hprev. cbn [deref]. res_simpl. rewrite <-Hh1.
    unfold load. rewrite U5, Hen. res_simpl. rewrite Hm. cbn [deref]. res_simpl.
    rewrite W1. cbn [deref]. res_simpl. unfold h2, unlink.
    assert (Hpv : h_prev (set_next h1 p2 (h_next h1 !! m)) !! m = Some p2) by done. rewrite Hpv.
    by destruct (h_next (set_next h1 p2 (h_next h1 !! m)) !! m).
  - unfold unlift, load. rewrite W5, U5, Hen. res_simpl. rewrite Hm. cbn [deref]. res_simpl.
    rewrite W6. cbn [deref]. res_simpl. fold (relink h2 p2 m). rewrite W4, U6. cbn [deref]. res_simpl.
    assert (Hnext : h_next (set_next h1 p (Some e)) !! e = Some q).
    { cbn [set_next h_next]. by rewrite lookup_partial_alter_ne, U7, Hq by done. }
    unfold relink in U4. rewrite Hnext in U4 |- *. cbn [deref]. res_simpl. by rewrite U4.
  - replace (A ++ p :: B ++ D) with (A2 ++ p2 :: D); [done|].
    change (p :: B ++ D) with ((p :: B) ++ D). by rewrite app_assoc, Hsp, <-app_assoc.
  - by rewrite W5, U5.
  - done.
Qed.

(** ** Building the list *)

(** Nodes that are not allocated have no pointers. *)
Definition fresh_ok h : Prop :=
  ∀ a, length (h_nodes h) ≤ a → h_next h !! a = None ∧ h_prev h !! a = None.

Lemma insertBefore_spec h nd ys :
  fresh_ok h → list_ok h ys → NoDup ys → (∀ a, a ∈ ys → a < length (h_nodes h)) →
  let a := length (h_nodes h) in
  let h' := insertBefore (alloc h nd).1 a (head ys) in
  h_nodes h' = h_nodes h ++ [nd] ∧ fresh_ok h' ∧ list_ok h' (a :: ys).
Proof.
  intros Hf Hok Hnd Hys a. destruct (Hf a ltac:(unfold a; lia)) as [Fn Fp].
  unfold alloc, insertBefore, list_ok, fresh_ok in *. destruct ys as [|r ys]; cbn [head h_prev h_next h_nodes fst].
  - split_and!; try done. intros b Hb. rewrite length_app in Hb. apply Hf. lia.
  - pose proof (Hys r ltac:(left)) as Hrl. destruct Hok as (Hr1 & Hr2 & Hok). rewrite Hr1.
    unfold set_next, set_prev. cbn [head h_prev h_next h_nodes]. split; [done|]. split.
    + intros b Hb. rewrite length_app in Hb. simpl in Hb.
      rewrite !lookup_partial_alter_ne by (unfold a; lia). apply Hf. lia.
    + cbn [dseg head from_option]. rewrite !lookup_partial_alter_eq.
      rewrite (lookup_partial_alter_ne _ _ r a), (lookup_partial_alter_ne _ _ a r) by (unfold a; lia). split_and!; try done.
      eapply dseg_frame; [| |exact Hok]; intros b Hb; rewrite lookup_partial_alter_ne; try done; intros <-.
      * specialize (Hys a ltac:(by right)). unfold a in Hys. lia.
      * by apply NoDup_cons in Hnd as [? _].
Qed.

Lemma length_loop_spec h pp ys fuel l :
  dseg (h_next h) (h_prev h) pp None ys → length ys ≤ fuel →
  length_loop fuel h (head ys) l = Ok (l + Z.of_nat (length ys))%Z.
Proof.
  revert pp fuel l. induction ys as [|a ys IH]; intros pp fuel l Hok Hf; simpl.
  - destruct fuel; simpl; f_equal; lia.
  - destruct fuel as [|fuel]; simpl in Hf; [lia|]. simpl. destruct Hok as (_ & Hn & Hok).
    rewrite Hn. replace (from_option Some None (head ys)) with (head ys) by (by destruct ys).
    rewrite (IH (Some a)) by (done || lia). f_equal. lia.
Qed.
End Links.

(** ** Sequences of operations *)

Definition before (σ : list Z) (a b : Z) : Prop := ∃ σ1 σ2 σ3, σ = σ1 ++ a :: σ2 ++ b :: σ3.

(** What is before an operation in a sequence without repetition. *)
Lemma before_prefix σ1 σ2 a b : NoDup (σ1 ++ b :: σ2) → before (σ1 ++ b :: σ2) a b → a ∈ σ1.
Proof.
  intros Hnd (τ1 & τ2 & τ3 & Heq). change (τ1 ++ a :: τ2 ++ b :: τ3) with (τ1 ++ (a :: τ2) ++ b :: τ3) in Heq.
  rewrite app_assoc in Heq.
  assert (Hi : ∀ ρ1 ρ2, σ1 ++ b :: σ2 = ρ1 ++ b :: ρ2 → length σ1 = length ρ1).
  { intros ρ1 ρ2 H. eapply (NoDup_lookup _ _ _ _ Hnd); [by apply list_lookup_middle|]. rewrite H. by apply list_lookup_middle. }
  apply app_inj_1 in Heq as [-> _]; [set_solver|by eapply Hi].
Qed.

(** ** Histories *)

Section History.
Context {V S : Type} `{!Inhabited V}.
Implicit Types es l : list (entry V).

(** Each of the [n] operations has one call and, behind it, one return. *)
Record wf_entries (n : nat) es : Prop := {
  we_len : length es = 2 * n;
  we_ids : ∀ e, e ∈ es → (0 ≤ e_id e < Z.of_nat n)%Z;
  we_op : ∀ i, (0 ≤ i < Z.of_nat n)%Z → ∃ c r ec er, c < r ∧ es !! c = Some ec ∧ es !! r = Some er ∧
    e_kind ec = callEntry ∧ e_kind er = returnEntry ∧ e_id ec = i ∧ e_id er = i;
  we_unique : ∀ k1 k2 e1 e2, es !! k1 = Some e1 → es !! k2 = Some e2 →
    e_kind e1 = e_kind e2 → e_id e1 = e_id e2 → k1 = k2;
}.

(** The invariant of the loop of [makeLinkedEntries] when it has dealt with
    the entries [l], the last of the history first. *)
Record link_inv l (h : heap V) (root : option nat) (match_ : gmap Z nat) : Prop := {
  li_len : length (h_nodes h) = length l;
  li_fresh : fresh_ok h;
  li_list : list_ok h (reverse (seq 0 (length l)));
  li_root : root = head (reverse (seq 0 (length l)));
  li_match : ∀ j e, l !! j = Some e → e_kind e = returnEntry → match_ !! e_id e = Some j;
  li_nodes : ∀ j e, l !! j = Some e → ∃ o, h_nodes h !! j = Some (Porcupine.mkNode (e_value e) o (e_id e)) ∧
    (e_kind e = returnEntry → o = None) ∧
    (∀ j' e', e_kind e = callEntry → j' < j → l !! j' = Some e' → e_kind e' = returnEntry → e_id e' = e_id e → o = Some j');
}.

Lemma link_step l x h root match_ nd match_' :
  link_inv l h root match_ →
  (∀ j e, l !! j = Some e → e_kind e = returnEntry → e_kind x = returnEntry → e_id e ≠ e_id x) →
  match_' = (if bool_decide (e_kind x = returnEntry) then <[e_id x := length (h_nodes h)]> match_ else match_) →
  nd = Porcupine.mkNode (e_value x) (if bool_decide (e_kind x = returnEntry) then None else match_ !! e_id x) (e_id x) →
  link_inv (l ++ [x]) (insertBefore (alloc h nd).1 (length (h_nodes h)) root) (Some (length (h_nodes h))) match_'.
Proof.
  intros [H1 H2 H3 -> H5 H6] Hu -> ->. set (nd := Porcupine.mkNode _ _ _).
  assert (Hseq : reverse (seq 0 (length (l ++ [x]))) = length (h_nodes h) :: reverse (seq 0 (length l))).
  { rewrite length_app, H1. simpl. rewrite Nat.add_1_r, seq_S, reverse_app. done. }
  assert (Hrange : ∀ a, a ∈ reverse (seq 0 (length l)) → a < length (h_nodes h)).
  { intros a Ha. apply elem_of_reverse, elem_of_seq in Ha. lia. }
  destruct (insertBefore_spec h nd (reverse (seq 0 (length l))) H2 H3) as (N1 & N2 & N3);
    [rewrite reverse_Permutation; apply NoDup_seq|done|].
  split.
  - rewrite N1, !length_app, H1. done.
  - done.
  - by rewrite Hseq.
  - by rewrite Hseq.
  - intros j e Hj He. apply lookup_app_Some in Hj as [Hj|[Hlen Hj]].
    + case_bool_decide as Hx; [|by apply H5]. rewrite lookup_insert_ne; [by apply H5|]. intros Heq. by apply (Hu j e).
    + apply list_lookup_singleton_Some in Hj as [Hj <-]. rewrite bool_decide_true by done.
      rewrite lookup_insert_eq, H1. f_equal. lia.
  - intros j e Hj. rewrite N1. apply lookup_app_Some in Hj as [Hj|[Hlen Hj]].
    + destruct (H6 j e Hj) as (o & Ho & Hr & Hc). exists o. split; [by apply lookup_app_l_Some|]. split; [done|].
      intros j' e' Hk Hlt Hj'. apply lookup_lt_Some in Hj. rewrite lookup_app_l in Hj' by lia. by apply Hc.
    + apply list_lookup_singleton_Some in Hj as [Hj <-]. assert (j = length l) as -> by lia.
      eexists. split; [rewrite <-H1; by apply list_lookup_middle|]. split.
      * intros Hk. by rewrite bool_decide_true.
      * intros j' e' Hk Hlt Hj' Hr Hid. rewrite bool_decide_false by congruence.
        rewrite lookup_app_l in Hj' by lia. rewrite <-Hid. by apply H5.
Qed.

Lemma link_loop l2 : ∀ l1 h root match_,
  link_inv l1 h root match_ →
  (∀ k1 k2 e1 e2, (l1 ++ l2) !! k1 = Some e1 → (l1 ++ l2) !! k2 = Some e2 →
     e_kind e1 = e_kind e2 → e_id e1 = e_id e2 → k1 = k2) →
  ∃ h' root' match_', linkEntries l2 h root match_ = (h', root') ∧ link_inv (l1 ++ l2) h' root' match_'.
Proof.
  induction l2 as [|x l2 IH]; intros l1 h root match_ Hi Hu.
  - rewrite app_nil_r. by exists h, root, match_.
  - assert (Hux : ∀ j e, l1 !! j = Some e → e_kind e = returnEntry → e_kind x = returnEntry → e_id e ≠ e_id x).
    { intros j e Hj He Hx Hid. assert (j = length l1) as ->.
      { apply (Hu j (length l1) e x); [by apply lookup_app_l_Some|by apply list_lookup_middle|congruence|done]. }
      apply lookup_lt_Some in Hj. lia. }
    pose proof (link_step l1 x h root match_ _ _ Hi Hux eq_refl eq_refl) as Hi'.
    replace (l1 ++ x :: l2) with ((l1 ++ [x]) ++ l2) in * by (by rewrite <-app_assoc).
    simpl. case_bool_decide; by eapply IH.
Qed.

(** The address of the [k]-th entry. *)
Definition loc (n k : nat) : nat := 2 * n - 1 - k.

(** The node of the [k]-th entry. *)
Definition node_ok (n : nat) es (nodes : list (node V)) : Prop :=
  ∀ k e, es !! k = Some e → ∃ o, nodes !! loc n k = Some (Porcupine.mkNode (e_value e) o (e_id e)) ∧
    (e_kind e = returnEntry → o = None) ∧
    (∀ r er, e_kind e = callEntry → es !! r = Some er → e_kind er = returnEntry → e_id er = e_id e → o = Some (loc n r)).

Lemma reverse_seq_loc n : reverse (seq 0 (2 * n)) = loc n <$> seq 0 (2 * n).
Proof.
  apply list_eq. intros k. rewrite list_lookup_fmap. destruct (decide (k < 2 * n)).
  - rewrite reverse_lookup by (rewrite length_seq; lia). rewrite length_seq, !lookup_seq_lt by lia. simpl. f_equal.
    unfold loc. lia.
  - rewrite !lookup_ge_None_2; [done|rewrite length_seq; lia|rewrite length_reverse, length_seq; lia].
Qed.

Lemma call_before_return n es c r ec er :
  wf_entries n es → es !! c = Some ec → es !! r = Some er → e_kind ec = callEntry → e_kind er = returnEntry →
  e_id ec = e_id er → c < r.
Proof.
  intros Hwf Hc Hr Kc Kr Hid.
  destruct (we_op _ _ Hwf (e_id ec)) as (c' & r' & ec' & er' & Hlt & Hc' & Hr' & Kc' & Kr' & Ic & Ir).
  { eapply we_ids; [done|by eapply list_elem_of_lookup_2]. }
  assert (c = c') as -> by (eapply (we_unique _ _ Hwf); [done|done|congruence..]).
  assert (r = r') as -> by (eapply (we_unique _ _ Hwf); [done|done|congruence..]). done.
Qed.

Lemma makeLinkedEntries_spec n es :
  wf_entries n es →
  ∃ h, makeLinkedEntries es = (h, head (loc n <$> seq 0 (2 * n))) ∧ length (h_nodes h) = 2 * n ∧ fresh_ok h ∧
    list_ok h (loc n <$> seq 0 (2 * n)) ∧ node_ok n es (h_nodes h).
Proof.
  intros Hwf. pose proof (we_len _ _ Hwf) as Hlen. unfold makeLinkedEntries.
  assert (Hrev : ∀ k e, reverse es !! k = Some e → es !! loc n k = Some e ∧ k < 2 * n).
  { intros k e Hk. pose proof (lookup_lt_Some _ _ _ Hk) as Hlt. rewrite length_reverse in Hlt.
    rewrite reverse_lookup in Hk by done. rewrite Hlen in *. split; [|done].
    unfold loc. by replace (2 * n - 1 - k) with (2 * n - Datatypes.S k) by lia. }
  destruct (link_loop (reverse es) [] newHeap None ∅) as (h & root & m & Hl & Hi).
  - split; try done.
  - simpl. intros k1 k2 e1 e2 H1%Hrev H2%Hrev Hk Hid. destruct H1 as [H1 ?], H2 as [H2 ?].
    pose proof (we_unique _ _ Hwf _ _ _ _ H1 H2 Hk Hid) as Heq. unfold loc in Heq. lia.
  - simpl in Hi. destruct Hi as [I1 I2 I3 I4 I5 I6]. rewrite length_reverse, Hlen in *.
    rewrite reverse_seq_loc in *. exists h. rewrite Hl, I4. split_and!; try done.
    intros k e Hk. pose proof (lookup_lt_Some _ _ _ Hk) as Hlt. rewrite Hlen in Hlt.
    assert (Hfwd : ∀ k e, es !! k = Some e → reverse es !! loc n k = Some e).
    { intros k' e' Hk'. pose proof (lookup_lt_Some _ _ _ Hk') as Hlt'. rewrite Hlen in Hlt'.
      rewrite reverse_lookup by (rewrite Hlen; unfold loc; lia). rewrite Hlen. unfold loc.
      by replace (2 * n - Datatypes.S (2 * n - 1 - k')) with k' by lia. }
    destruct (I6 (loc n k) e (Hfwd k e Hk)) as (o & Ho & Hr & Hc). exists o. split_and!; [done..|].
    intros r er Kc Hre Kr Hid. apply (Hc (loc n r) er); [done| |by apply Hfwd|done|done].
    pose proof (call_before_return n es k r e er Hwf Hk Hre Kc Kr ltac:(done)).
    apply lookup_lt_Some in Hre. unfold loc. lia.
Qed.

(** ** Linearizability *)

Context (model : FullModel V S).

(** Operation [a] returned before operation [b] was called. *)
Definition precedes es (a b : Z) : Prop :=
  ∃ r c er ec, r < c ∧ es !! r = Some er ∧ es !! c = Some ec ∧
    e_kind er = returnEntry ∧ e_kind ec = callEntry ∧ e_id er = a ∧ e_id ec = b.

(** The model can take the operations in this order. *)
Inductive legal es : S → list Z → Prop :=
| legal_nil s : legal es s []
| legal_cons s s' ec er σ :
    ec ∈ es → er ∈ es → e_kind ec = callEntry → e_kind er = returnEntry → e_id ec = e_id er →
    Step model s (e_value ec) (e_value er) = Ok (true, s') → legal es s' σ → legal es s (e_id ec :: σ).

Definition linearization es (σ : list Z) : Prop :=
  σ ≡ₚ (Z.of_nat <$> seq 0 (length es / 2)) ∧ legal es (Init model) σ ∧
  ∀ a b, precedes es a b → before σ a b.

Definition linearizable es : Prop := ∃ σ, linearization es σ.

(** ** Configurations of the search *)

Section Search.
Context (n : nat) (es : list (entry V)) (Hwf : wf_entries n es).

Abbreviation op i := (0 ≤ i < Z.of_nat n)%Z.

(** Whether the [k]-th entry is still on the list when [X] is linearized. *)
Definition keep (X : gset Z) (k : nat) : bool :=
  match es !! k with Some e => bool_decide (e_id e ∉ X) | None => false end.

Definition rem (X : gset Z) : list nat := filter (λ k, keep X k = true) (seq 0 (2 * n)).

Lemma elem_of_rem X k : k ∈ rem X ↔ ∃ e, es !! k = Some e ∧ e_id e ∉ X.
Proof.
  unfold rem, keep. rewrite list_elem_of_filter, elem_of_seq. split.
  - intros [Hk _]. destruct (es !! k) as [e|]; [|done]. exists e. by apply bool_decide_eq_true in Hk.
  - intros (e & He & Hid). rewrite He. apply lookup_lt_Some in He. rewrite (we_len _ _ Hwf) in He.
    split; [by apply bool_decide_eq_true|lia].
Qed.

Lemma rem_NoDup X : NoDup (rem X).
Proof. apply NoDup_filter, NoDup_seq. Qed.

Lemma filter_seq_sorted (P : nat → Prop) `{!∀ k, Decision (P k)} a m : StronglySorted lt (filter P (seq a m)).
Proof.
  revert a. induction m as [|m IH]; intros a; [constructor|]. simpl. rewrite filter_cons. case_decide; [|done].
  constructor; [done|]. apply Forall_forall. intros k [_ Hk%elem_of_seq]%list_elem_of_filter. lia.
Qed.

(** The list, cut at one of its entries. *)
Lemma rem_cut X k pre post :
  rem X = pre ++ k :: post → (∀ j, j ∈ pre → j < k) ∧ (∀ j, j ∈ post → k < j).
Proof.
  intros H. pose proof (filter_seq_sorted (λ k, keep X k = true) 0 (2 * n)) as Hs. fold (rem X) in Hs.
  rewrite H in Hs. split; intros j Hj.
  - eapply (StronglySorted_app_1_elem_of lt pre); [done..|left].
  - change (pre ++ k :: post) with (pre ++ [k] ++ post) in Hs. rewrite app_assoc in Hs.
    eapply (StronglySorted_app_1_elem_of lt (pre ++ [k])); [done|set_solver|done].
Qed.

Lemma filter_ext_in {A} (P Q : A → Prop) `{!∀ x, Decision (P x), !∀ x, Decision (Q x)} (l : list A) :
  (∀ x, x ∈ l → P x ↔ Q x) → filter P l = filter Q l.
Proof.
  induction l as [|x l IH]; intros Hx; [done|]. rewrite !filter_cons.
  rewrite IH by (intros; apply Hx; by right). specialize (Hx x ltac:(left)). repeat case_decide; tauto || done.
Qed.

Lemma seq_cut a m k : k < m → seq a m = seq a k ++ (a + k) :: seq (a + k + 1) (m - k - 1).
Proof.
  intros Hk. replace m with (k + Datatypes.S (m - k - 1)) at 1 by lia. rewrite seq_app. simpl. by rewrite Nat.add_1_r.
Qed.

(** Linearizing one more operation takes its two entries off the list. *)
Lemma rem_lift X c r ec er :
  es !! c = Some ec → es !! r = Some er → e_kind ec = callEntry → e_kind er = returnEntry →
  e_id ec = e_id er → e_id ec ∉ X →
  ∃ A B D, rem X = A ++ c :: B ++ r :: D ∧ rem ({[e_id ec]} ∪ X) = A ++ B ++ D.
Proof.
  intros Hc Hr Kc Kr Hid HX. pose proof (call_before_return n es c r ec er Hwf Hc Hr Kc Kr Hid) as Hlt.
  pose proof (lookup_lt_Some _ _ _ Hr) as Hrl. rewrite (we_len _ _ Hwf) in Hrl.
  assert (Hseq : seq 0 (2 * n) = seq 0 c ++ c :: seq (c + 1) (r - c - 1) ++ r :: seq (r + 1) (2 * n - r - 1)).
  { rewrite (seq_cut 0 (2 * n) c), (seq_cut (0 + c + 1) _ (r - c - 1)) by lia. simpl.
    replace (c + 1 + (r - c - 1)) with r by lia.
    by replace (n + (n + 0) - c - 1 - (r - c - 1) - 1) with (n + (n + 0) - r - 1) by lia. }
  assert (Hsame : ∀ a m, (a + m ≤ c ∨ c < a ∧ a + m ≤ r ∨ r < a) →
    filter (λ k, keep ({[e_id ec]} ∪ X) k = true) (seq a m) = filter (λ k, keep X k = true) (seq a m)).
  { intros a m Ham. apply filter_ext_in. intros k Hk%elem_of_seq. unfold keep.
    destruct (es !! k) as [e|] eqn:He; [|done]. rewrite !bool_decide_eq_true.
    assert (e_id e ≠ e_id ec); [|set_solver]. intros Heq.
    destruct (e_kind e) eqn:Ke.
    - assert (k = c) by (eapply (we_unique _ _ Hwf); [done|done|congruence..]). lia.
    - assert (k = r) by (eapply (we_unique _ _ Hwf); [done|done|congruence..]). lia. }
  assert (Kin : keep X c = true ∧ keep X r = true).
  { unfold keep. rewrite Hc, Hr, <-Hid. by rewrite !bool_decide_true. }
  assert (Kout : keep ({[e_id ec]} ∪ X) c ≠ true ∧ keep ({[e_id ec]} ∪ X) r ≠ true).
  { unfold keep. rewrite Hc, Hr, <-Hid. rewrite !bool_decide_false by set_solver. done. }
  destruct Kin as [K1 K2], Kout as [K3 K4].
  eexists _, _, _. unfold rem. rewrite Hseq. rewrite !filter_app, !filter_cons, !filter_app, !filter_cons.
  rewrite (decide_True _ _ K1), (decide_True _ _ K2), (decide_False _ _ K3), (decide_False _ _ K4).
  split; [done|]. by rewrite !Hsame by lia.
Qed.

(** ** Completions *)

(** No operation that is left returned before [i] was called. *)
Definition minimal (X : gset Z) (i : Z) : Prop := ∀ a, op a → a ∉ X → ¬ precedes es a i.

(** [σ] completes the linearization of [X] from state [s]. *)
Inductive completes : gset Z → S → list Z → Prop :=
| completes_nil X s : (∀ a, op a → a ∈ X) → completes X s []
| completes_cons X s s' c r ec er σ :
    es !! c = Some ec → es !! r = Some er → e_kind ec = callEntry → e_kind er = returnEntry →
    e_id ec = e_id er → e_id ec ∉ X → minimal X (e_id ec) →
    Step model s (e_value ec) (e_value er) = Ok (true, s') →
    completes ({[e_id ec]} ∪ X) s' σ → completes X s (e_id ec :: σ).

Definition dead (X : gset Z) (s : S) : Prop := ∀ σ, ¬ completes X s σ.

(** Taking the call at [c] next leads nowhere. *)
Definition dead_end (X : gset Z) (s : S) (c : nat) : Prop :=
  ∀ r ec er s', es !! c = Some ec → es !! r = Some er → e_kind ec = callEntry → e_kind er = returnEntry →
    e_id ec = e_id er → Step model s (e_value ec) (e_value er) = Ok (true, s') → dead ({[e_id ec]} ∪ X) s'.

(** When the search has come to a return, all that could be taken next has
    been tried. *)
Lemma stuck_dead X s pre r er post :
  rem X = pre ++ r :: post → es !! r = Some er → e_kind er = returnEntry →
  (∀ c, c ∈ pre → dead_end X s c) → dead X s.
Proof.
  intros Hrem Her Kr Hpre σ Hσ.
  assert (Hr : r ∈ rem X) by (rewrite Hrem; set_solver). apply elem_of_rem in Hr as (e & He & HX).
  rewrite Her in He. injection He as <-.
  assert (Hop : op (e_id er)) by (eapply we_ids; [done|by eapply list_elem_of_lookup_2]).
  inversion Hσ as [? ? Hall|? ? s' c r' ec er' σ' Hc Hr' Kc Kr' Hid HcX Hmin Hst Hσ']; subst.
  - by apply HX, Hall.
  - assert (Hcr : ¬ r < c).
    { intros Hlt. apply (Hmin (e_id er) Hop HX). exists r, c, er, ec. by split_and!. }
    assert (c ≠ r) by congruence.
    assert (Hin : c ∈ rem X) by (apply elem_of_rem; by exists ec).
    rewrite Hrem in Hin. apply elem_of_app in Hin as [Hin|[->|Hin]%elem_of_cons]; [|done|].
    + by eapply (Hpre c Hin).
    + destruct (rem_cut X r pre post Hrem) as [_ Hgt]. specialize (Hgt c Hin). lia.
Qed.

(** ** The state of the search *)

(** The stack: the operations taken so far, each with the state before it. *)
Inductive chain : list (nat * S) → S → list Z → Prop :=
| chain_nil : chain [] (Init model) []
| chain_snoc calls s ids c r ec er s' :
    chain calls s ids → es !! c = Some ec → es !! r = Some er → e_kind ec = callEntry → e_kind er = returnEntry →
    e_id ec = e_id er → e_id ec ∉ ids → minimal (list_to_set ids) (e_id ec) →
    Step model s (e_value ec) (e_value er) = Ok (true, s') →
    chain (calls ++ [(loc n c, s)]) s' (ids ++ [e_id ec]).

Definition longest_ok (seqs : list (list Z)) (longest : list (option nat)) : Prop :=
  length longest = n ∧
  ∀ k p, longest !! k = Some (Some p) → ∃ seq calls s, seqs !! p = Some seq ∧ chain calls s seq ∧ Z.of_nat k ∈ seq.

Context (nodes : list (node V)) (hd : nat).
Context (Hnodes : node_ok n es nodes) (Hhd : hd = 2 * n).

Record conf (X : gset Z) (ids : list Z) (σ : Search V S) : Prop := {
  cf_nodes : h_nodes (s_heap σ) = nodes;
  cf_list : list_ok (s_heap σ) (hd :: (loc n <$> rem X));
  cf_room : (Z.of_nat n ≤ 64 * zlen (s_linearized σ))%Z;
  cf_lin : represents (s_linearized σ) X;
  cf_chain : chain (s_calls σ) (s_state σ) ids;
  cf_ids : X = list_to_set ids;
  cf_longest : longest_ok (s_seqs σ) (s_longest σ);
}.

Definition in_cache (cache : gmap Z (list (cacheEntry S))) (e : cacheEntry S) : Prop :=
  ∃ h bucket, cache !! h = Some bucket ∧ e ∈ bucket.

(** A cached configuration cannot be completed, or is above the current one. *)
Definition cache_ok (X : gset Z) (cache : gmap Z (list (cacheEntry S))) : Prop :=
  ∀ e, in_cache cache e → ∃ Y, represents (ce_linearized e) Y ∧ (∀ i, i ∈ Y → op i) ∧
    (dead Y (ce_state e) ∨ Y ⊆ X).

(** What the search adds to the cache below a configuration is dead. *)
Definition cache_grows (cache cache' : gmap Z (list (cacheEntry S))) : Prop :=
  ∀ e, in_cache cache' e → in_cache cache e ∨
    ∃ Y, represents (ce_linearized e) Y ∧ (∀ i, i ∈ Y → op i) ∧ dead Y (ce_state e).

Lemma chain_ids calls s ids : chain calls s ids → ∀ i, i ∈ ids → op i.
Proof.
  induction 1 as [|calls s ids c r ec er s' _ IH Hc]; intros i Hi; [by apply elem_of_nil in Hi|].
  apply elem_of_app in Hi as [Hi|Hi]; [by apply IH|]. apply list_elem_of_singleton in Hi as ->.
  eapply we_ids; [done|by eapply list_elem_of_lookup_2].
Qed.

Lemma callIds_snoc (h : heap V) (calls : list (nat * S)) a st nd ids :
  callIds h calls = Ok ids → load h a = Ok nd → callIds h (calls ++ [(a, st)]) = Ok (ids ++ [n_id nd]).
Proof.
  intros Hc Ha. revert ids Hc. induction calls as [|[b st'] calls IH]; intros ids Hc; simpl in *.
  - injection Hc as <-. by rewrite Ha.
  - destruct (load h b); [|done]. res_simpl. destruct (callIds h calls) as [js|]; [|done]. res_simpl.
    injection Hc as <-. by rewrite (IH js eq_refl).
Qed.

Lemma chain_load h calls s ids :
  h_nodes h = nodes → chain calls s ids →
  callIds h calls = Ok ids ∧ ∀ v, v ∈ calls → ∃ nd, load h v.1 = Ok nd ∧ n_id nd ∈ ids.
Proof.
  intros Hn. induction 1 as [|calls s ids c r ec er s' _ IH Hc].
  { split; [done|]. by intros v ?%elem_of_nil. }
  destruct (Hnodes c ec Hc) as (o & Ho & _). destruct IH as [IH1 IH2].
  assert (Hload : load h (loc n c) = Ok (Porcupine.mkNode (e_value ec) o (e_id ec))) by (unfold load; by rewrite Hn, Ho).
  split.
  - by rewrite (callIds_snoc _ _ _ _ _ _ IH1 Hload).
  - intros v [Hv|Hv]%elem_of_app.
    + destruct (IH2 v Hv) as (nd & ? & ?). exists nd. split; [done|]. apply elem_of_app. by left.
    + apply list_elem_of_singleton in Hv as ->. eexists. split; [exact Hload|]. apply elem_of_app. right. left.
Qed.

(** Recording the longest sequences never panics. *)
Lemma recordLongest_spec h calls s ids seqs longest :
  h_nodes h = nodes → chain calls s ids → longest_ok seqs longest →
  ∃ seqs' longest', recordLongest h calls seqs longest = Ok (seqs', longest') ∧ longest_ok seqs' longest'.
Proof.
  intros Hn Hch Hlo. destruct (chain_load h calls s ids Hn Hch) as [Hids Hload].
  set (P := λ acc : list (list Z) * list (option nat) * option nat,
    longest_ok acc.1.1 acc.1.2 ∧ ∀ p, acc.2 = Some p → acc.1.1 !! p = Some ids).
  destruct (foldM_inv (record_one h calls) P calls (seqs, longest, None)) as ([[seqs' longest'] sq] & Hf & Hlo' & _).
  { by split. }
  - intros [[sq lg] o] v Hv [[Hlen Hlo1] Ho]. simpl in *. destruct (Hload v Hv) as (nd & Hnd & Hin).
    pose proof (chain_ids _ _ _ Hch _ Hin) as Hop. unfold record_one. rewrite Hnd. res_simpl.
    destruct (idx_returns lg (n_id nd)) as (old & Hold & Hlk); [unfold zlen; lia|]. rewrite Hold. res_simpl.
    assert (Hbetter : ∃ b : bool, match old with None => Ok true | Some p => match sq !! p with
      | Some s => Ok (bool_decide (zlen calls > zlen s)%Z) | None => Panic end end = Ok b).
    { destruct old as [p|]; [|by eexists]. destruct (Hlo1 _ _ Hlk) as (q & ? & ? & -> & _). by eexists. }
    destruct Hbetter as [better ->]. res_simpl. destruct better; [|by exists (sq, lg, o)].
    assert (Hptr : ∃ sq' p, match o with Some p => Ok (sq, p) | None => ids ← callIds h calls; Ok (sq ++ [ids], length sq) end
      = Ok (sq', p) ∧ sq' !! p = Some ids ∧ ∀ k x, sq !! k = Some x → sq' !! k = Some x).
    { destruct o as [p|]; [exists sq, p; by auto|]. rewrite Hids. res_simpl. eexists _, _. split; [done|].
      split; [by apply list_lookup_middle|]. intros k x Hk. by apply lookup_app_l_Some. }
    destruct Hptr as (sq' & p & -> & Hp & Hmono). res_simpl.
    rewrite upd_in by (unfold zlen; lia). res_simpl. eexists. split; [done|]. split; [split|]; simpl.
    + by rewrite length_insert.
    + intros k q Hk. apply list_lookup_insert_Some in Hk as [(<- & [= <-] & _)|[_ Hk]].
      * exists ids, calls, s. split_and!; [done..|]. by rewrite Z2Nat.id by lia.
      * destruct (Hlo1 k q Hk) as (x & cs & st & Hx & ? & ?). exists x, cs, st. split; [by apply Hmono|done].
    + by intros q [= <-].
  - exists seqs', longest'. unfold recordLongest. by rewrite Hf.
Qed.

Lemma cacheAdd_spec (cache : gmap Z (list (cacheEntry S))) e e' :
  in_cache (cacheAdd cache e) e' → in_cache cache e' ∨ e' = e.
Proof.
  intros (h & l & Hl & Hin). unfold cacheAdd in Hl. apply lookup_insert_Some in Hl as [[<- <-]|[_ Hl]].
  - apply elem_of_app in Hin as [Hin|Hin]; [left|right; by apply list_elem_of_singleton in Hin].
    destruct (cache !! hash (ce_linearized e)) as [l|] eqn:E; [by exists (hash (ce_linearized e)), l|by apply elem_of_nil in Hin].
  - left. by exists h, l.
Qed.

Lemma cacheContains_spec (cache : gmap Z (list (cacheEntry S))) e :
  cacheContains model cache e = true →
  ∃ e', in_cache cache e' ∧ ce_linearized e = ce_linearized e' ∧ Equal model (ce_state e) (ce_state e') = true.
Proof.
  unfold cacheContains. intros (e' & Hin & Heq)%existsb_exists. apply list_elem_of_In in Hin.
  apply andb_true_iff in Heq as [Hl%equals_eq He]. exists e'. split_and!; [|done|done].
  destruct (cache !! _) as [l|] eqn:E; [by eexists _, l|by apply elem_of_nil in Hin].
Qed.

(** ** Single passes of the loop *)

Context (computePartial : bool) (HEqual : ∀ s t, Equal model s t = true → s = t).

(** The model takes the values of the history. *)
Definition steps_return es : Prop :=
  ∀ s ec er, ec ∈ es → er ∈ es → e_kind ec = callEntry → e_kind er = returnEntry → e_id ec = e_id er →
    returns (Step model s (e_value ec) (e_value er)).

Context (HStep : steps_return es).

(** One pass of the loop from [σ] leads to [σ']; what has been recorded is
    right. *)
Definition goes (σ σ' : Search V S) : Prop :=
  h_next (s_heap σ) !! hd ≠ None ∧ checkSingle_iter model computePartial hd σ = Ok (inl σ') ∧
  longest_ok (s_seqs σ) (s_longest σ).

Definition set_entry (σ : Search V S) (p : option nat) : Search V S :=
  mkSearch (s_heap σ) p (s_state σ) (s_linearized σ) (s_cache σ) (s_calls σ) (s_seqs σ) (s_longest σ).

Lemma conf_entry X ids σ p : conf X ids σ → conf X ids (set_entry σ p).
Proof. by intros []. Qed.

Lemma next_head (h : heap V) X : list_ok h (hd :: (loc n <$> rem X)) → h_next h !! hd = loc n <$> head (rem X).
Proof. intros (_ & Hn & _). rewrite Hn. by destruct (rem X). Qed.

Lemma next_entry (h : heap V) X pre c post :
  list_ok h (hd :: (loc n <$> rem X)) → rem X = pre ++ c :: post → h_next h !! loc n c = loc n <$> head post.
Proof.
  intros (_ & _ & Hok) Hrem. rewrite Hrem, fmap_app in Hok. apply dseg_app in Hok as [_ (_ & Hn & _)].
  rewrite Hn. by destruct post.
Qed.

Lemma head_busy X ids σ c : conf X ids σ → c ∈ rem X → h_next (s_heap σ) !! hd ≠ None.
Proof.
  intros Hc Hin. rewrite (next_head _ X) by apply Hc. destruct (rem X); [by apply elem_of_nil in Hin|done].
Qed.

Lemma load_entry (h : heap V) k e :
  h_nodes h = nodes → es !! k = Some e →
  ∃ o, load h (loc n k) = Ok (Porcupine.mkNode (e_value e) o (e_id e)) ∧
    (e_kind e = returnEntry → o = None) ∧
    (∀ r er, e_kind e = callEntry → es !! r = Some er → e_kind er = returnEntry → e_id er = e_id e → o = Some (loc n r)).
Proof.
  intros Hn He. destruct (Hnodes k e He) as (o & Ho & ?). exists o. split; [|done]. unfold load. by rewrite Hn, Ho.
Qed.

(** The call at [c] with its return at [r]. *)
Section Call.
Context (X : gset Z) (ids : list Z) (σ : Search V S) (c r : nat) (ec er : entry V) (pre post : list nat).
Context (Hcf : conf X ids σ) (Hent : s_entry σ = Some (loc n c)) (Hrem : rem X = pre ++ c :: post).
Context (Hc : es !! c = Some ec) (Hr : es !! r = Some er) (Kc : e_kind ec = callEntry) (Kr : e_kind er = returnEntry).
Context (Hid : e_id ec = e_id er).

Lemma call_in : c ∈ rem X.
Proof. rewrite Hrem. apply elem_of_app. right. left. Qed.

Lemma call_fresh : e_id ec ∉ X ∧ op (e_id ec).
Proof.
  pose proof call_in as Hin. apply elem_of_rem in Hin as (e & He & HX). rewrite Hc in He. injection He as <-.
  split; [done|]. eapply we_ids; [done|by eapply list_elem_of_lookup_2].
Qed.

(** The return is further down the list. *)
Lemma return_behind : r ∈ post.
Proof.
  assert (Hin : r ∈ rem X) by (apply elem_of_rem; exists er; rewrite <-Hid; split; [done|apply call_fresh]).
  pose proof (call_before_return n es c r ec er Hwf Hc Hr Kc Kr Hid) as Hlt.
  destruct (rem_cut X c pre post Hrem) as [Hpre _]. rewrite Hrem in Hin.
  apply elem_of_app in Hin as [Hin|[->|Hin]%elem_of_cons]; [specialize (Hpre r Hin); lia|lia|done].
Qed.

(** The pass up to the answer of the model. *)
Lemma iter_call :
  checkSingle_iter model computePartial hd σ =
    '(ok, newState) ← Step model (s_state σ) (e_value ec) (e_value er);
    if ok : bool then
      newLinearized ← set (s_linearized σ) (e_id ec);
      let ce := mkCacheEntry newLinearized newState in
      if negb (cacheContains model (s_cache σ) ce) then
        lin ← set (s_linearized σ) (e_id ec);
        h ← lift (s_heap σ) (loc n c);
        Ok (inl (mkSearch h (h_next h !! hd) newState lin (cacheAdd (s_cache σ) ce)
                   (s_calls σ ++ [(loc n c, s_state σ)]) (s_seqs σ) (s_longest σ)))
      else Ok (inl (set_entry σ (loc n <$> head post)))
    else Ok (inl (set_entry σ (loc n <$> head post))).
Proof.
  pose proof (cf_nodes _ _ _ Hcf) as Hn. pose proof (next_entry _ _ _ _ _ (cf_list _ _ _ Hcf) Hrem) as Hnext.
  destruct (load_entry (s_heap σ) c ec Hn Hc) as (o & Hlc & _ & Ho). rewrite (Ho r er Kc Hr Kr ltac:(done)) in Hlc.
  destruct (load_entry (s_heap σ) r er Hn Hr) as (o' & Hlr & _).
  unfold checkSingle_iter. destruct σ as [h ent st lin cache calls seqs longest]. simpl in *. subst ent.
  cbn [deref]. res_simpl. rewrite Hlc. res_simpl. cbn [n_match n_value n_id]. rewrite Hlr. res_simpl. cbn [n_value].
  destruct (Step model st (e_value ec) (e_value er)) as [[[] s']|]; [|by res_simpl; rewrite Hnext|done]. res_simpl.
  unfold clone. destruct (set lin (e_id ec)); [|done]. res_simpl. destruct (negb _); [done|by rewrite Hnext].
Qed.

(** The operation has one return. *)
Lemma call_dead_end :
  (∀ s', Step model (s_state σ) (e_value ec) (e_value er) = Ok (true, s') → dead ({[e_id ec]} ∪ X) s') →
  dead_end X (s_state σ) c.
Proof.
  intros Hd r' ec' er' s1 Hc' Hr' _ Kr' Hid' Hst. rewrite Hc in Hc'. injection Hc' as <-.
  assert (r' = r) as -> by (eapply (we_unique _ _ Hwf); [done|done|congruence..]). rewrite Hr in Hr'. injection Hr' as <-.
  by apply Hd.
Qed.

(** The answer is no, or the configuration is known: on to the next entry. *)
Lemma iter_next s' :
  cache_ok X (s_cache σ) →
  (∀ newLinearized, Step model (s_state σ) (e_value ec) (e_value er) = Ok (true, s') →
     set (s_linearized σ) (e_id ec) = Ok newLinearized →
     cacheContains model (s_cache σ) (mkCacheEntry newLinearized s') = true) →
  (∃ ok, Step model (s_state σ) (e_value ec) (e_value er) = Ok (ok, s')) →
  goes σ (set_entry σ (loc n <$> head post)) ∧ dead_end X (s_state σ) c.
Proof.
  intros Hco Hcon [ok Hs']. destruct call_fresh as [HX Hop]. split.
  - split; [eapply head_busy; [done|apply call_in]|]. split; [|apply Hcf]. rewrite iter_call.
    rewrite Hs'. res_simpl. destruct ok; [|done].
    destruct (set_run (Z.of_nat n) (s_linearized σ) (e_id ec) (cf_room _ _ _ Hcf) Hop) as (b' & Hb & _).
    rewrite Hb. res_simpl. by rewrite (Hcon b').
  - apply call_dead_end. intros s1 Hst. rewrite Hst in Hs'. injection Hs' as <- <-.
    destruct (set_run (Z.of_nat n) (s_linearized σ) (e_id ec) (cf_room _ _ _ Hcf) Hop) as (b' & Hb & _ & Hbit).
    destruct (cacheContains_spec _ _ (Hcon b' Hst Hb)) as (e' & Hin & Hlin & HEq). simpl in *.
    apply HEqual in HEq as ->. destruct (Hco e' Hin) as (Y & HY & HYr & Hd).
    rewrite <-Hlin in HY. pose proof (set_represents _ _ _ _ (cf_lin _ _ _ Hcf) Hbit) as HX'.
    assert (Y = {[e_id ec]} ∪ X) as ->.
    { eapply represents_inj; [done|done|by intros; apply HYr|].
      intros x [->%elem_of_singleton|Hx]%elem_of_union; [lia|]. rewrite (cf_ids _ _ _ Hcf) in Hx.
      apply elem_of_list_to_set in Hx. by apply (chain_ids _ _ _ (cf_chain _ _ _ Hcf)). }
    destruct Hd as [Hd|Hsub]; [done|]. exfalso. apply HX, Hsub. set_solver.
Qed.

(** Only calls come before: nothing that is left precedes the operation. *)
Lemma call_minimal : (∀ k e, k ∈ pre → es !! k = Some e → e_kind e = callEntry) → minimal X (e_id ec).
Proof.
  intros Hpre a Ha HaX (r' & c' & er' & ec' & Hlt & Hr' & Hc' & Kr' & Kc' & <- & Hi).
  assert (c' = c) as -> by (eapply (we_unique _ _ Hwf); [done|done|congruence..]).
  assert (Hin : r' ∈ rem X) by (apply elem_of_rem; by exists er').
  destruct (rem_cut X c pre post Hrem) as [_ Hpost]. rewrite Hrem in Hin.
  apply elem_of_app in Hin as [Hin|[->|Hin]%elem_of_cons]; [|lia|specialize (Hpost r' Hin); lia].
  specialize (Hpre r' er' Hin Hr'). congruence.
Qed.

Lemma loc_NoDup : NoDup (hd :: (loc n <$> rem X)).
Proof.
  assert (Hlt : ∀ k, k ∈ rem X → k < 2 * n).
  { intros k Hk. unfold rem in Hk. apply list_elem_of_filter in Hk as [_ Hk%elem_of_seq]. lia. }
  apply NoDup_cons. split.
  - intros (k & Hk & Hin)%list_elem_of_fmap. specialize (Hlt k Hin). unfold loc in Hk. lia.
  - apply NoDup_fmap_2_strong; [|apply rem_NoDup]. intros x y Hx%Hlt Hy%Hlt. unfold loc. lia.
Qed.

(** Taking the operation: its entries leave the list, and [unlift] would give
    back the same heap. *)
Lemma lift_call :
  ∃ h', lift (s_heap σ) (loc n c) = Ok h' ∧ unlift h' (loc n c) = Ok (s_heap σ) ∧ h_nodes h' = nodes ∧
    list_ok h' (hd :: (loc n <$> rem ({[e_id ec]} ∪ X))).
Proof.
  destruct call_fresh as [HX Hop]. destruct (rem_lift X c r ec er Hc Hr Kc Kr Hid HX) as (A & B & D & H1 & H2).
  pose proof (cf_nodes _ _ _ Hcf) as Hn. pose proof (cf_list _ _ _ Hcf) as Hl. pose proof loc_NoDup as Hnd.
  destruct (load_entry (s_heap σ) c ec Hn Hc) as (o & Hlc & _ & Ho). rewrite (Ho r er Kc Hr Kr ltac:(done)) in Hlc.
  unfold load in Hlc. destruct (h_nodes (s_heap σ) !! loc n c) as [nd|] eqn:End; [|done].
  rewrite H1 in Hl, Hnd. rewrite H2. rewrite !fmap_app, fmap_cons, fmap_app, fmap_cons in Hl, Hnd.
  destruct (split_before [] hd (loc n <$> A)) as (A2 & p & Hsp). simpl in Hsp.
  assert (Hsplit : ∀ L : list nat, hd :: (loc n <$> A) ++ L = A2 ++ p :: L).
  { intros L. rewrite app_comm_cons, Hsp, <-app_assoc. done. }
  rewrite Hsplit in Hl, Hnd.
  destruct (lift_spec (s_heap σ) A2 p (loc n c) (loc n <$> B) (loc n r) (loc n <$> D) nd Hnd Hl End) as (h' & L1 & L2 & L3 & L4 & _).
  { by injection Hlc as ->. }
  exists h'. split_and!; [done|done|congruence|]. by rewrite !fmap_app, Hsplit.
Qed.

(** The state after the operation is taken. *)
Definition taken (s' : S) (b' : bitset) (h' : heap V) : Search V S :=
  mkSearch h' (loc n <$> head (rem ({[e_id ec]} ∪ X))) s' b' (cacheAdd (s_cache σ) (mkCacheEntry b' s'))
    (s_calls σ ++ [(loc n c, s_state σ)]) (s_seqs σ) (s_longest σ).

Lemma iter_push s' b' :
  (∀ k e, k ∈ pre → es !! k = Some e → e_kind e = callEntry) →
  Step model (s_state σ) (e_value ec) (e_value er) = Ok (true, s') →
  set (s_linearized σ) (e_id ec) = Ok b' →
  cacheContains model (s_cache σ) (mkCacheEntry b' s') = false →
  ∃ h', unlift h' (loc n c) = Ok (s_heap σ) ∧ goes σ (taken s' b' h') ∧
    conf ({[e_id ec]} ∪ X) (ids ++ [e_id ec]) (taken s' b' h').
Proof.
  intros Hpre Hst Hb Hcon. destruct lift_call as (h' & L1 & L2 & L3 & L4). destruct call_fresh as [HX Hop].
  exists h'. split; [done|]. split.
  - split; [eapply head_busy; [done|apply call_in]|]. split; [|apply Hcf]. rewrite iter_call, Hst, Hb. res_simpl.
    rewrite Hcon. simpl. rewrite L1. res_simpl. by rewrite (next_head h' _ L4).
  - destruct (set_run (Z.of_nat n) (s_linearized σ) (e_id ec) (cf_room _ _ _ Hcf) Hop) as (b2 & Hb2 & Hlen & Hbit).
    rewrite Hb in Hb2. injection Hb2 as <-. pose proof (cf_ids _ _ _ Hcf) as HXi. split; simpl; try done.
    + rewrite Hlen. apply Hcf.
    + eapply set_represents; [apply Hcf|done].
    + eapply chain_snoc; [apply Hcf|done..|rewrite HXi, elem_of_list_to_set in HX; done| |done].
      rewrite <-HXi. by apply call_minimal.
    + rewrite HXi. set_solver.
    + apply Hcf.
Qed.

(** The search below is stuck at a return: the operation is put back and the
    next entry is tried. *)
Lemma iter_pop σ1 h' k ek :
  conf ({[e_id ec]} ∪ X) (ids ++ [e_id ec]) σ1 →
  s_calls σ1 = s_calls σ ++ [(loc n c, s_state σ)] → s_heap σ1 = h' → unlift h' (loc n c) = Ok (s_heap σ) →
  s_entry σ1 = Some (loc n k) → es !! k = Some ek → e_kind ek = returnEntry → k ∈ rem ({[e_id ec]} ∪ X) →
  ∃ σ2, goes σ1 σ2 ∧ conf X ids σ2 ∧ s_heap σ2 = s_heap σ ∧ s_state σ2 = s_state σ ∧ s_calls σ2 = s_calls σ ∧
    s_cache σ2 = s_cache σ1 ∧ s_entry σ2 = loc n <$> head post.
Proof.
  intros Hcf1 Hcalls Hh Hun Hent1 Hk Kk Hkin. destruct call_fresh as [HX Hop].
  pose proof (cf_nodes _ _ _ Hcf1) as Hn1. pose proof (head_busy _ _ _ _ Hcf1 Hkin) as Hbusy.
  destruct (load_entry (s_heap σ1) k ek Hn1 Hk) as (o & Hlk & Ho & _). rewrite (Ho Kk) in Hlk.
  destruct (load_entry (s_heap σ1) c ec Hn1 Hc) as (o' & Hlc & _).
  destruct (recordLongest_spec _ _ _ _ _ _ Hn1 (cf_chain _ _ _ Hcf1) (cf_longest _ _ _ Hcf1)) as (seqs' & longest' & Hrec & Hlo).
  destruct (clear_run (Z.of_nat n) (s_linearized σ1) (e_id ec) (cf_room _ _ _ Hcf1) Hop) as (b2 & Hb2 & Hlen & Hbit).
  pose proof (clear_represents _ _ _ _ (cf_lin _ _ _ Hcf1) Hbit) as Hrep.
  replace (({[e_id ec]} ∪ X) ∖ {[e_id ec]}) with X in Hrep by set_solver.
  assert (Hrec' : ∃ sq lg, (if computePartial then recordLongest (s_heap σ1) (s_calls σ1) (s_seqs σ1) (s_longest σ1)
    else Ok (s_seqs σ1, s_longest σ1)) = Ok (sq, lg) ∧ longest_ok sq lg).
  { destruct computePartial; [by eexists _, _|]. eexists _, _. split; [done|apply Hcf1]. }
  destruct Hrec' as (sq & lg & Hrec' & Hlo').
  exists (mkSearch (s_heap σ) (loc n <$> head post) (s_state σ) b2 (s_cache σ1) (s_calls σ) sq lg).
  split_and!; try done.
  - split; [done|]. split; [|apply Hcf1]. pose proof (next_entry _ _ _ _ _ (cf_list _ _ _ Hcf) Hrem) as Hnext.
    unfold checkSingle_iter. destruct σ1 as [h1 ent1 st1 lin1 cache1 calls1 seqs1 longest1]. simpl in *.
    subst ent1 h1 calls1. cbn [deref]. res_simpl. rewrite Hlk. res_simpl. cbn [n_match].
    rewrite last_snoc, Hrec'. res_simpl. rewrite Hlc. res_simpl. cbn [n_id]. rewrite Hb2. res_simpl.
    rewrite Hun. res_simpl. rewrite Hnext. rewrite length_app. simpl. rewrite Nat.add_sub.
    by rewrite take_app_length.
  - destruct Hcf. split; try done. simpl. rewrite Hlen. apply Hcf1.
Qed.
End Call.

(** ** The whole search *)

(** The search is at [post]; the calls in [pre] have been tried. *)
Record at_entry (X : gset Z) (ids : list Z) (σ : Search V S) (pre post : list nat) : Prop := {
  ae_conf : conf X ids σ;
  ae_rem : rem X = pre ++ post;
  ae_entry : s_entry σ = loc n <$> head post;
  ae_calls : ∀ k e, k ∈ pre → es !! k = Some e → e_kind e = callEntry;
  ae_tried : ∀ c, c ∈ pre → dead_end X (s_state σ) c;
  ae_cache : cache_ok X (s_cache σ);
}.

(** What a search below a configuration leaves as it was. *)
Record resumes (σ σ' : Search V S) : Prop := {
  re_heap : s_heap σ' = s_heap σ;
  re_state : s_state σ' = s_state σ;
  re_calls : s_calls σ' = s_calls σ;
  re_cache : cache_grows (s_cache σ) (s_cache σ');
}.

Lemma resumes_trans σ1 σ2 σ3 : resumes σ1 σ2 → resumes σ2 σ3 → resumes σ1 σ3.
Proof.
  intros [H1 H2 H3 H4] [G1 G2 G3 G4]. split; [congruence..|]. intros e He. destruct (G4 e He) as [H|]; [by apply H4|by right].
Qed.

Definition success (σ : Search V S) : Prop := ∃ X ids, conf X ids σ ∧ rem X = [].

Definition stuck (X : gset Z) (ids : list Z) (σ σ' : Search V S) : Prop :=
  conf X ids σ' ∧ resumes σ σ' ∧ dead X (s_state σ) ∧
  ∃ k ek, s_entry σ' = Some (loc n k) ∧ k ∈ rem X ∧ es !! k = Some ek ∧ e_kind ek = returnEntry.

Lemma cache_ok_mono X Y cache cache' :
  cache_ok X cache → X ⊆ Y → cache_grows cache cache' → cache_ok Y cache'.
Proof.
  intros Hok Hsub Hg e He. destruct (Hg e He) as [H|(Z & HZ & HZop & Hd)].
  - destruct (Hok e H) as (Z & ? & ? & [Hd|Hs]); exists Z; (split_and!; [done..|]); [by left|right; set_solver].
  - exists Z. split_and!; [done..|by left].
Qed.


(** The cache once the configuration of an operation has been added, while the
    search is below it and when it has come back. *)
Lemma cache_taken X ids (σ σ1 : Search V S) i s' b' :
  conf ({[i]} ∪ X) ids σ1 → represents b' ({[i]} ∪ X) → cache_ok X (s_cache σ) →
  s_cache σ1 = cacheAdd (s_cache σ) (mkCacheEntry b' s') →
  cache_ok ({[i]} ∪ X) (s_cache σ1) ∧
  ∀ cache, dead ({[i]} ∪ X) s' → cache_grows (s_cache σ1) cache → cache_grows (s_cache σ) cache.
Proof.
  intros Hcf Hb Hco ->.
  assert (Hop : ∀ k, k ∈ {[i]} ∪ X → op k).
  { intros k Hk. rewrite (cf_ids _ _ _ Hcf), elem_of_list_to_set in Hk. by apply (chain_ids _ _ _ (cf_chain _ _ _ Hcf)). }
  split.
  - intros e [He| ->]%cacheAdd_spec.
    + eapply (cache_ok_mono X _ (s_cache σ)); [done|set_solver| |done]. intros e'. by left.
    + exists ({[i]} ∪ X). split_and!; [done..|by right].
  - intros cache Hd Hg e He. destruct (Hg e He) as [[H| ->]%cacheAdd_spec|H]; [by left|right|by right].
    by exists ({[i]} ∪ X).
Qed.

(** A call is visited: the search goes on behind it, or has succeeded. *)
Section Visit.
Context (X : gset Z) (ids : list Z) (σ : Search V S) (pre : list nat) (c : nat) (post : list nat).
Context (r : nat) (ec er : entry V).
Context (Hat : at_entry X ids σ pre (c :: post)).
Context (Hc : es !! c = Some ec) (Hr : es !! r = Some er) (Kc : e_kind ec = callEntry) (Kr : e_kind er = returnEntry).
Context (Hid : e_id ec = e_id er).

Lemma at_behind σ' :
  conf X ids σ' → s_entry σ' = loc n <$> head post → s_state σ' = s_state σ →
  dead_end X (s_state σ) c → cache_ok X (s_cache σ') → at_entry X ids σ' (pre ++ [c]) post.
Proof.
  destruct Hat as [_ Hrem _ Hpre Htried _]. intros H1 H2 H3 H4 H5. split; [done|by rewrite <-app_assoc|done| | |done].
  - intros k e [Hk|Hk]%elem_of_app He; [by apply (Hpre k)|]. apply list_elem_of_singleton in Hk as ->. congruence.
  - rewrite H3. intros k [Hk|Hk]%elem_of_app; [by apply Htried|]. by apply list_elem_of_singleton in Hk as ->.
Qed.

Lemma visit_call cost :
  (∀ ids' σ', at_entry ({[e_id ec]} ∪ X) ids' σ' [] (rem ({[e_id ec]} ∪ X)) → ∃ j σ'', j ≤ cost ∧ nsteps goes j σ' σ'' ∧
     (success σ'' ∨ stuck ({[e_id ec]} ∪ X) ids' σ' σ'')) →
  ∃ j σ', j ≤ 2 + cost ∧ nsteps goes j σ σ' ∧
    (success σ' ∨ at_entry X ids σ' (pre ++ [c]) post ∧ resumes σ σ').
Proof.
  destruct Hat as [Hcf Hrem Hent Hpre Htried Hco]. intros Hbelow. simpl in Hent.
  destruct (call_fresh X c ec pre post Hrem Hc) as [HX Hop].
  destruct (set_run (Z.of_nat n) (s_linearized σ) (e_id ec) (cf_room _ _ _ Hcf) Hop) as (b' & Hb & _ & Hbit).
  destruct (HStep (s_state σ) ec er) as ([ok s'] & Hst); [by eapply list_elem_of_lookup_2..|done|done|done|].
  destruct (ok && negb (cacheContains model (s_cache σ) (mkCacheEntry b' s'))) eqn:Hcase.
  - apply andb_true_iff in Hcase as [-> Hcon%negb_true_iff].
    destruct (iter_push X ids σ c r ec er pre post Hcf Hent Hrem Hc Hr Kc Kr Hid s' b' Hpre Hst Hb Hcon) as (h' & Hun & Hgo & Hcf1).
    set (σ1 := taken X σ c ec s' b' h') in *.
    destruct (cache_taken X _ σ σ1 _ s' b' Hcf1) as [Hco1 Hback];
      [by eapply set_represents; [apply Hcf|]|done|done|].
    destruct (Hbelow (ids ++ [e_id ec]) σ1) as (j & σ2 & Hj & Hsteps & Hout).
    { split; [done|done|done|by intros ? ? ?%elem_of_nil|by intros ? ?%elem_of_nil|done]. }
    destruct Hout as [Hs|(Hcf2 & [R1 R2 R3 R4] & Hdead & k & ek & Hent2 & Hk & Hek & Kk)].
    { exists (1 + j), σ2. split; [lia|]. split; [by eapply nsteps_l|by left]. }
    destruct (iter_pop X ids σ c r ec er pre post Hcf Hent Hrem Hc Hr Kc Kr Hid σ2 h' k ek) as (σ3 & Hgo3 & Hcf3 & P1 & P2 & P3 & P4 & P5); try done.
    assert (Hg : cache_grows (s_cache σ) (s_cache σ3)) by (rewrite P4; by apply Hback).
    exists (1 + (j + 1)), σ3. split; [lia|]. split; [eapply nsteps_l, nsteps_trans; [done|done|by apply nsteps_once]|].
    right. split; [|by split]. apply at_behind; try done.
    + eapply (call_dead_end X σ c r ec er); try done. intros s1 Hs1. rewrite Hst in Hs1. by injection Hs1 as <-.
    + eapply (cache_ok_mono X); [done|set_solver|done].
  - destruct (iter_next X ids σ c r ec er pre post Hcf Hent Hrem Hc Hr Kc Kr Hid s' Hco) as [Hgo Hdead].
    { intros b Hok Hb2. rewrite Hst in Hok. injection Hok as ->. rewrite Hb in Hb2. injection Hb2 as <-.
      simpl in Hcase. by apply negb_false_iff. }
    { by eexists. }
    exists 1, (set_entry σ (loc n <$> head post)). split; [lia|]. split; [by apply nsteps_once|]. right. split.
    + apply at_behind; try done. by apply conf_entry.
    + split; try done. intros e He. by left.
Qed.
End Visit.

(** The last entry is a return. *)
Lemma pre_empty X pre : rem X = pre → (∀ k e, k ∈ pre → es !! k = Some e → e_kind e = callEntry) → pre = [].
Proof.
  intros Hrem Hpre. destruct pre as [|k pre]; [done|]. exfalso.
  assert (Hk : k ∈ rem X) by (rewrite Hrem; left). apply elem_of_rem in Hk as (e & He & HX).
  destruct (we_op _ _ Hwf (e_id e)) as (c & r & ec & er & _ & _ & Hr & _ & Kr & _ & Ir).
  { eapply we_ids; [done|by eapply list_elem_of_lookup_2]. }
  assert (Hin : r ∈ rem X) by (apply elem_of_rem; exists er; by rewrite Ir). rewrite Hrem in Hin.
  specialize (Hpre r er Hin Hr). congruence.
Qed.

Lemma explore k : ∀ X ids σ pre post,
  length (rem X) = 2 * k → at_entry X ids σ pre post →
  ∃ j σ', j ≤ length post * (2 + search_cost (k - 1)) ∧ nsteps goes j σ σ' ∧ (success σ' ∨ stuck X ids σ σ').
Proof.
  induction k as [k IHk] using lt_wf_ind. intros X ids σ pre post Hk. revert σ pre.
  induction post as [|c post IHpost]; intros σ pre Hat.
  { assert (pre = []) as ->.
    { eapply (pre_empty X); [|apply Hat]. rewrite (ae_rem _ _ _ _ _ Hat). apply app_nil_r. }
    exists 0, σ. split; [lia|]. split; [constructor|]. left. exists X, ids. split; apply Hat. }
  assert (Hin : c ∈ rem X) by (rewrite (ae_rem _ _ _ _ _ Hat); set_solver).
  pose proof Hin as (e & He & HX)%elem_of_rem. destruct (e_kind e) eqn:Ke; cycle 1.
  { exists 0, σ. split; [lia|]. split; [constructor|]. right. split; [apply Hat|].
    split; [split; try done; by left|]. split.
    - eapply stuck_dead; [apply Hat|done|done|apply Hat].
    - exists c, e. split_and!; try done. apply Hat. }
  destruct (we_op _ _ Hwf (e_id e)) as (c' & r & ec & er & _ & Hc' & Hr & Kc & Kr & Ic & Ir).
  { eapply we_ids; [done|by eapply list_elem_of_lookup_2]. }
  assert (c' = c) as -> by (eapply (we_unique _ _ Hwf); [done|done|congruence..]).
  rewrite He in Hc'. injection Hc' as <-.
  destruct (rem_lift X c r e er He Hr Ke Kr ltac:(done) HX) as (A & B & D & HR & HR').
  assert (Hlen : length (rem ({[e_id e]} ∪ X)) = 2 * (k - 1)).
  { rewrite HR in Hk. rewrite HR'. rewrite !length_app in *. simpl in Hk. rewrite !length_app in Hk. simpl in Hk. lia. }
  assert (Hk0 : 0 < k) by (rewrite HR, length_app in Hk; simpl in Hk; lia).
  destruct (visit_call X ids σ pre c post r e er Hat He Hr Ke Kr ltac:(done) (search_cost (k - 1)))
    as (j & σ1 & Hj & Hsteps & Hout).
  { intros ids' σ' Hat'. destruct (IHk (k - 1) ltac:(lia) _ _ _ _ _ Hlen Hat') as (j & σ'' & Hj & ? & ?).
    exists j, σ''. split; [|done]. rewrite Hlen in Hj. destruct (k - 1) as [|m]; [simpl in *; lia|].
    simpl Nat.sub in Hj. rewrite Nat.sub_0_r in Hj. exact Hj. }
  destruct Hout as [Hs|[Hat1 Hre]].
  { exists j, σ1. split; [simpl; lia|]. split; [done|by left]. }
  destruct (IHpost σ1 _ Hat1) as (j2 & σ2 & Hj2 & Hsteps2 & Hout).
  exists (j + j2), σ2. split; [simpl; lia|]. split; [by eapply nsteps_trans|].
  destruct Hout as [Hs|(Hcf2 & Hre2 & Hdead & Hend)]; [by left|right]. split; [done|].
  split; [by eapply resumes_trans|]. split; [by rewrite <-(re_state _ _ Hre)|done].
Qed.

(** ** From passes to the loop *)

(** What is known of the sequences [checkSingle] returns. *)
Definition recorded (lg : Longest) : Prop := longest_ok (l_seqs lg) (l_longest lg).

(** The loop makes the passes, unless it is told to stop. *)
Lemma loop_steps j : ∀ σ σ' fuel kill k,
  nsteps goes j σ σ' →
  checkSingle_loop model computePartial hd n (j + fuel) kill k σ =
    checkSingle_loop model computePartial hd n fuel kill (k + j) σ' ∨
  (∃ i, kill i = true) ∧
  ∃ lg, checkSingle_loop model computePartial hd n (j + fuel) kill k σ = Ok (Some (false, lg)) ∧ recorded lg.
Proof.
  induction j as [|j IH]; intros σ σ' fuel kill k Hs; inversion Hs as [|? ? σ1 ? Hgo Hs']; subst.
  { left. by rewrite Nat.add_0_r. }
  destruct Hgo as (Hbusy & Hiter & Hlo). cbn [checkSingle_loop Nat.add].
  destruct (h_next (s_heap σ) !! hd); [|done]. destruct (kill k) eqn:Ek.
  { right. split; [by exists k|]. eexists. by split. }
  rewrite Hiter. res_simpl. destruct (IH σ1 σ' fuel kill (Datatypes.S k) Hs') as [->|H]; [|by right].
  left. f_equal. lia.
Qed.

(** A sequence of operations the model can take in the real-time order. *)
Definition partial_linearization (σ : list Z) : Prop :=
  NoDup σ ∧ legal es (Init model) σ ∧ ∀ a b, b ∈ σ → precedes es a b → before σ a b.

Lemma precedes_op a b : precedes es a b → op a ∧ op b.
Proof.
  intros (r & c & er & ec & _ & Hr & Hc & _ & _ & <- & <-).
  split; (eapply we_ids; [done|by eapply list_elem_of_lookup_2]).
Qed.

Lemma chain_partial calls s ids : chain calls s ids → partial_linearization ids.
Proof.
  intros H. split_and!.
  - induction H as [|calls s ids c r ec er s' Hch IH Hc Hr Kc Kr Hid Hnin]; [constructor|].
    apply NoDup_app. split; [done|]. split; [|apply NoDup_singleton]. by intros x Hx ->%list_elem_of_singleton.
  - assert (Hgen : ∀ σ, legal es s σ → legal es (Init model) (ids ++ σ)).
    { induction H as [|calls s ids c r ec er s' Hch IH Hc Hr Kc Kr Hid Hnin Hmin Hst]; [done|]. intros σ Hσ.
      rewrite <-app_assoc. simpl. apply IH.
      eapply legal_cons; [by eapply list_elem_of_lookup_2|by eapply list_elem_of_lookup_2|done..]. }
    rewrite <-(app_nil_r ids). apply Hgen. constructor.
  - induction H as [|calls s ids c r ec er s' Hch IH Hc Hr Kc Kr Hid Hnin Hmin Hst].
    { by intros a b ?%elem_of_nil. }
    intros a b Hb Hab. apply elem_of_app in Hb as [Hb|Hb].
    + destruct (IH a b Hb Hab) as (σ1 & σ2 & σ3 & ->). exists σ1, σ2, (σ3 ++ [e_id ec]).
      by rewrite <-app_assoc, app_comm_cons, <-app_assoc.
    + apply list_elem_of_singleton in Hb as ->. destruct (precedes_op _ _ Hab) as [Ha _].
      destruct (decide (a ∈ ids)) as [Hin|Hin].
      * apply list_elem_of_split in Hin as (σ1 & σ2 & ->). exists σ1, σ2, []. by rewrite <-app_assoc.
      * exfalso. apply (Hmin a Ha); [by rewrite elem_of_list_to_set|done].
Qed.

Lemma rem_nil X : rem X = [] → ∀ a, op a → a ∈ X.
Proof.
  intros Hr a Ha. destruct (decide (a ∈ X)) as [|Hn]; [done|]. exfalso.
  destruct (we_op _ _ Hwf a Ha) as (c & _ & ec & _ & _ & Hc & _ & _ & _ & Ic & _).
  assert (Hin : c ∈ rem X) by (apply elem_of_rem; exists ec; by rewrite Ic). rewrite Hr in Hin. by apply elem_of_nil in Hin.
Qed.

Lemma ops_perm σ : NoDup σ → (∀ i, i ∈ σ ↔ op i) → σ ≡ₚ (Z.of_nat <$> seq 0 (length es / 2)).
Proof using Hwf.
  clear - Hwf.
  intros Hnd Hin. rewrite (we_len _ _ Hwf), Nat.mul_comm, Nat.div_mul by lia. apply NoDup_Permutation; [done| |].
  - apply NoDup_fmap; [apply _|apply NoDup_seq].
  - intros i. rewrite Hin, list_elem_of_fmap. split.
    + intros Hi. exists (Z.to_nat i). rewrite elem_of_seq. lia.
    + intros (k & -> & Hk%elem_of_seq). lia.
Qed.

Lemma full_linearization calls s ids : chain calls s ids → (∀ a, op a → a ∈ ids) → linearization es ids.
Proof.
  intros Hch Hall. destruct (chain_partial _ _ _ Hch) as (Hnd & Hleg & Hbef).
  split; [|split; [done|]].
  - apply ops_perm; [done|]. intros i. split; [by apply (chain_ids _ _ _ Hch)|by apply Hall].
  - intros a b Hab. apply Hbef; [|done]. by apply Hall, (precedes_op _ _ Hab).
Qed.

Lemma linearization_completes σ : linearization es σ → completes ∅ (Init model) σ.
Proof.
  intros (Hperm & Hleg & Hbef). rewrite (we_len _ _ Hwf), Nat.mul_comm, Nat.div_mul in Hperm by lia.
  assert (Hnd : NoDup σ) by (rewrite Hperm; apply NoDup_fmap; [apply _|apply NoDup_seq]).
  assert (Hall : ∀ a, op a → a ∈ σ).
  { intros a Ha. rewrite Hperm. apply list_elem_of_fmap. exists (Z.to_nat a). rewrite elem_of_seq. lia. }
  assert (Hgen : ∀ σ2 s σ1, σ1 ++ σ2 = σ → legal es s σ2 → completes (list_to_set σ1) s σ2).
  { induction σ2 as [|i σ2 IH]; intros s σ1 Heq Hl; inversion Hl as [|? s' ec er ? Hec Her Kc Kr Hid Hst Hl']; subst.
    - constructor. intros a Ha. rewrite elem_of_list_to_set. specialize (Hall a Ha). by rewrite app_nil_r in Hall.
    - apply list_elem_of_lookup in Hec as [c Hc]. apply list_elem_of_lookup in Her as [r Hr].
      eapply (completes_cons _ s s' c r ec er); try done.
      + rewrite elem_of_list_to_set. apply NoDup_app in Hnd as (_ & Hnd & _). intros H. by apply (Hnd _ H); left.
      + intros a Ha HaX Hpr. apply HaX, elem_of_list_to_set. eapply before_prefix; [done|]. by apply Hbef.
      + replace ({[e_id ec]} ∪ list_to_set σ1) with (list_to_set (σ1 ++ [e_id ec]) : gset Z) by set_solver.
        apply IH; [by rewrite <-app_assoc|done]. }
  by apply (Hgen σ (Init model) []).
Qed.

(** The end of the search. *)
Lemma loop_success σ fuel kill k :
  success σ → ∃ lg, checkSingle_loop model computePartial hd n (1 + fuel) kill k σ = Ok (Some (true, lg)) ∧
    recorded lg ∧ linearizable es.
Proof.
  intros (X & ids & Hcf & Hrem). cbn [checkSingle_loop Nat.add].
  rewrite (next_head _ X) by apply Hcf. rewrite Hrem. simpl.
  destruct (chain_load _ _ _ _ (cf_nodes _ _ _ Hcf) (cf_chain _ _ _ Hcf)) as [-> _]. res_simpl.
  assert (Hall : ∀ a, op a → a ∈ ids).
  { intros a Ha. pose proof (rem_nil X Hrem a Ha) as H. by rewrite (cf_ids _ _ _ Hcf), elem_of_list_to_set in H. }
  eexists. split; [done|]. split.
  - split; [apply length_replicate|]. intros i p Hp. simpl in Hp. apply lookup_replicate in Hp as [[= ->] Hi].
    exists ids, (s_calls σ), (s_state σ). split; [by apply list_lookup_middle|]. split; [apply Hcf|]. apply Hall. lia.
  - exists ids. eapply full_linearization; [apply Hcf|done].
Qed.

Lemma loop_stuck σ0 σ fuel kill k :
  stuck ∅ [] σ0 σ → s_state σ0 = Init model → s_calls σ0 = [] →
  ∃ lg, checkSingle_loop model computePartial hd n (1 + fuel) kill k σ = Ok (Some (false, lg)) ∧
    recorded lg ∧ ¬ linearizable es.
Proof.
  intros (Hcf & Hre & Hdead & i & ei & Hent & Hin & Hi & Ki) Hinit Hcalls.
  exists (mkLongest (s_seqs σ) (s_longest σ)). split; [|split; [apply Hcf|]].
  - cbn [checkSingle_loop Nat.add]. pose proof (head_busy _ _ _ _ Hcf Hin) as Hb.
    destruct (h_next (s_heap σ) !! hd); [|done]. destruct (kill k); [done|].
    destruct (load_entry (s_heap σ) i ei (cf_nodes _ _ _ Hcf) Hi) as (o & Hl & Ho & _). rewrite (Ho Ki) in Hl.
    pose proof (re_calls _ _ Hre) as Hc. rewrite Hcalls in Hc.
    unfold checkSingle_iter. destruct σ as [h1 ent1 st1 lin1 cache1 calls1 seqs1 longest1]. simpl in *.
    subst. cbn [deref]. res_simpl. rewrite Hl. by res_simpl.
  - intros [σl Hσ%linearization_completes]. rewrite Hinit in Hdead. by apply (Hdead σl).
Qed.

Lemma search_cost_enough k : 2 * k * (2 + search_cost (k - 1)) = search_cost k.
Proof. destruct k as [|k]; [done|]. simpl. by rewrite Nat.sub_0_r. Qed.

Lemma loop_result σ kill :
  at_entry ∅ [] σ [] (rem ∅) → s_state σ = Init model → s_calls σ = [] → length (rem ∅) = 2 * n →
  ∃ b lg, checkSingle_loop model computePartial hd n (2 + search_cost n) kill 0 σ = Ok (Some (b, lg)) ∧
    recorded lg ∧ (b = true → linearizable es) ∧ (b = false → (∃ i, kill i = true) ∨ ¬ linearizable es).
Proof.
  intros Hat Hst Hcalls Hlen. destruct (explore n _ _ _ _ _ Hlen Hat) as (j & σ' & Hj & Hsteps & Hout).
  rewrite Hlen, search_cost_enough in Hj.
  replace (2 + search_cost n) with (j + (1 + (1 + search_cost n - j))) by lia.
  destruct (loop_steps j σ σ' (1 + (1 + search_cost n - j)) kill 0 Hsteps) as [->|(Hk & lg & -> & Hrec)]; cycle 1.
  { exists false, lg. split_and!; try done. by left. }
  destruct Hout as [Hs|Hs].
  - destruct (loop_success σ' (1 + search_cost n - j) kill (0 + j) Hs) as (lg & -> & Hrec & Hlin). by exists true, lg.
  - destruct (loop_stuck σ σ' (1 + search_cost n - j) kill (0 + j) Hs Hst Hcalls) as (lg & -> & Hrec & Hlin).
    exists false, lg. split; [done|]. split; [done|]. split; [done|by right].
Qed.
End Search.

(** ** The first configuration *)

Lemma rem_empty n es : wf_entries n es → rem n es ∅ = seq 0 (2 * n).
Proof.
  intros Hwf. unfold rem, keep. assert (Hall : ∀ k, k ∈ seq 0 (2 * n) →
    match es !! k with Some e => bool_decide (e_id e ∉ (∅ : gset Z)) | None => false end = true).
  { intros k Hk%elem_of_seq. destruct (lookup_lt_is_Some_2 es k) as [e ->]; [rewrite (we_len _ _ Hwf); lia|].
    apply bool_decide_eq_true. set_solver. }
  induction (seq 0 (2 * n)) as [|k ks IH]; [done|].
  rewrite filter_cons, decide_True by (apply Hall; left). f_equal. apply IH. intros. apply Hall. by right.
Qed.

Lemma checkSingle_result n es computePartial kill :
  wf_entries n es → steps_return es → (∀ s t, Equal model s t = true → s = t) →
  ∃ b lg, checkSingle model es computePartial kill = Ok (Some (b, lg)) ∧
    recorded n es lg ∧ (b = true → linearizable es) ∧ (b = false → (∃ i, kill i = true) ∨ ¬ linearizable es).
Proof.
  intros Hwf HStep HEq. destruct (makeLinkedEntries_spec n es Hwf) as (h & Hmk & Hlen & Hf & Hok & Hnodes).
  unfold checkSingle. rewrite Hmk. unfold list_length.
  rewrite (length_loop_spec h None) by (done || rewrite Hlen, length_fmap, length_seq; lia). res_simpl.
  rewrite length_fmap, length_seq. replace ((0 + Z.of_nat (2 * n)) / 2)%Z with (Z.of_nat n) by (Z.to_euclidean_division_equations; lia).
  rewrite Nat2Z.id.
  assert (Hlt : ∀ a, a ∈ loc n <$> seq 0 (2 * n) → a < length (h_nodes h)).
  { intros a (k & -> & Hk%elem_of_seq)%list_elem_of_fmap. rewrite Hlen. unfold loc. lia. }
  assert (Hnd : NoDup (loc n <$> seq 0 (2 * n))) by (rewrite <-reverse_seq_loc, reverse_Permutation; apply NoDup_seq).
  set (nd := Porcupine.mkNode inhabitant None (-1)).
  pose proof (insertBefore_spec h nd _ Hf Hok Hnd Hlt) as (N1 & _ & N3). unfold alloc in *.
  cbn [fst] in N1, N3. rewrite Hlen in *. destruct (newBitset_wf (Z.of_nat n) ltac:(lia)) as [Hbw Hbr].
  assert (Hnodes' : node_ok n es (h_nodes h ++ [nd])).
  { intros k e Hk. destruct (Hnodes k e Hk) as (o & Ho & ?). exists o. split; [|done]. by apply lookup_app_l_Some. }
  apply (loop_result n es Hwf (h_nodes h ++ [nd]) (2 * n) Hnodes' eq_refl computePartial HEq HStep); [|done|done|].
  - split; rewrite ?(rem_empty n es Hwf).
    + split; try done; simpl.
      * by rewrite (rem_empty n es Hwf).
      * apply Hbw.
      * constructor.
      * split; [apply length_replicate|]. intros k p Hk. by apply lookup_replicate in Hk as [? _].
    + done.
    + cbn [s_entry]. by destruct (seq 0 (2 * n)).
    + by intros ? ? ?%elem_of_nil.
    + by intros ? ?%elem_of_nil.
    + intros e (? & ? & Hl & _). simpl in Hl; by rewrite lookup_empty in Hl.
  - rewrite (rem_empty n es Hwf). apply length_seq.
Qed.
End History.
