(* ===== verification/PorcupineHistory.v ===== *)
(** * Histories of operations and of events (src/porcupine/checker.go)

    What the callers of the checker mean: a history of operations, each with
    the time of its call and of its return, is linearizable when its
    operations can be put in an order the model accepts and in which no
    operation comes after one that was called when it had returned
    ([history_linearizable]).  [makeEntries] turns such a history into entries
    on which [checkSingle] answers that question; [renumber] and
    [convertEntries] do the same for a history of events, whatever the ids of
    its operations are. *)

From stdpp Require Import base list gmap sets strings sorting.
From Stdlib Require Import ZArith Lia.
From S2P Require Import Prelude PorcupineBitset Porcupine PorcupineSearch.

Section Operations.
Context {V S : Type} `{!Inhabited V}.
Context (model : FullModel V S).
Implicit Types o : Operation V.

Inductive op_legal : S → list (Operation V) → Prop :=
| op_legal_nil s : op_legal s []
| op_legal_cons s s' o σ :
    Step model s (o_Input o) (o_Output o) = Ok (true, s') → op_legal s' σ → op_legal s (o :: σ).

(** An operation was not called after a later one had returned. *)
Definition real_time : list (Operation V) → Prop := StronglySorted (λ a b, (o_Call a ≤ o_Return b)%Z).

Definition history_linearizable (history : list (Operation V)) : Prop :=
  ∃ σ, σ ≡ₚ history ∧ op_legal (Init model) σ ∧ real_time σ.

(** The clock does not run backwards during an operation. *)
Definition timed (history : list (Operation V)) : Prop := ∀ o, o ∈ history → (o_Call o ≤ o_Return o)%Z.

(** The contract of [sort.Sort]. *)
Definition sort_contract (sortf : list (entry V) → list (entry V)) : Prop :=
  ∀ l, sortf l ≡ₚ l ∧
    ∀ i j a b, i < j → sortf l !! i = Some a → sortf l !! j = Some b → Less b a = false.

(** ** The entries of a history *)

Definition call_of o (i : Z) : entry V := mkEntry callEntry (o_Input o) i (o_Call o) (o_ClientId o).
Definition return_of o (i : Z) : entry V := mkEntry returnEntry (o_Output o) i (o_Return o) (o_ClientId o).

Lemma elem_of_makeEntries_loop history : ∀ i e,
  e ∈ makeEntries_loop history i ↔
  ∃ k o, history !! k = Some o ∧ (e = call_of o (i + Z.of_nat k) ∨ e = return_of o (i + Z.of_nat k)).
Proof.
  induction history as [|o history IH]; intros i e; simpl.
  { split; [by intros ?%elem_of_nil|]. by intros (k & o & Hk & _). }
  rewrite !elem_of_cons, IH. split.
  - intros [->|[->|(k & o' & Hk & He)]].
    + exists 0, o. split; [done|]. left. unfold call_of. f_equal. lia.
    + exists 0, o. split; [done|]. right. unfold return_of. f_equal. lia.
    + exists (Datatypes.S k), o'. split; [done|]. by replace (i + Z.of_nat (Datatypes.S k))%Z with (i + 1 + Z.of_nat k)%Z by lia.
  - intros ([|k] & o' & Hk & He); simpl in Hk.
    + injection Hk as <-. rewrite Z.add_0_r in He. destruct He as [->| ->]; auto.
    + right. right. exists k, o'. split; [done|]. by replace (i + 1 + Z.of_nat k)%Z with (i + Z.of_nat (Datatypes.S k))%Z by lia.
Qed.

Lemma makeEntries_loop_NoDup (history : list (Operation V)) : ∀ i, NoDup ((λ e, (e_kind e, e_id e)) <$> makeEntries_loop history i).
Proof.
  induction history as [|o history IH]; intros i; simpl; [constructor|].
  assert (Hn : ∀ kd, (kd, i) ∉ (λ e, (e_kind e, e_id e)) <$> makeEntries_loop history (i + 1)).
  { intros kd (e & Heq & He)%list_elem_of_fmap. apply elem_of_makeEntries_loop in He as (k & o' & _ & [->| ->]);
      unfold call_of, return_of in Heq; simplify_eq/=; lia. }
  apply NoDup_cons. split; [|apply NoDup_cons; split; [apply Hn|apply IH]].
  intros [Heq|Hin]%elem_of_cons; [done|by apply (Hn callEntry)].
Qed.

Lemma makeEntries_loop_length (history : list (Operation V)) : ∀ i, length (makeEntries_loop history i) = 2 * length history.
Proof. induction history as [|o history IH]; intros i; simpl; [done|]. rewrite IH. lia. Qed.

Section Entries.
Context (sortf : list (entry V) → list (entry V)) (Hsort : sort_contract sortf).
Context (history : list (Operation V)) (Htimed : timed history).

Abbreviation es := (makeEntries sortf history).

Lemma es_perm : es ≡ₚ makeEntries_loop history 0.
Proof. apply Hsort. Qed.

Lemma elem_of_es e :
  e ∈ es ↔ ∃ k o, history !! k = Some o ∧ (e = call_of o (Z.of_nat k) ∨ e = return_of o (Z.of_nat k)).
Proof. rewrite es_perm. apply elem_of_makeEntries_loop. Qed.

Lemma es_unique k1 k2 e1 e2 :
  es !! k1 = Some e1 → es !! k2 = Some e2 → e_kind e1 = e_kind e2 → e_id e1 = e_id e2 → k1 = k2.
Proof.
  intros H1 H2 Hk Hi. assert (Hnd : NoDup ((λ e, (e_kind e, e_id e)) <$> es)).
  { rewrite es_perm. apply makeEntries_loop_NoDup. }
  eapply (NoDup_lookup _ k1 k2 _ Hnd); rewrite list_lookup_fmap; [rewrite H1|rewrite H2]; simpl; [done|].
  by rewrite Hk, Hi.
Qed.

Lemma es_sorted i j a b : i < j → es !! i = Some a → es !! j = Some b → Less b a = false.
Proof. apply Hsort. Qed.

Lemma less_call o i o' i' :
  Less (call_of o i) (return_of o' i') = bool_decide (o_Call o ≤ o_Return o')%Z.
Proof. unfold Less. simpl. repeat case_bool_decide; done || lia. Qed.

Lemma less_return o i o' i' :
  Less (return_of o i) (call_of o' i') = bool_decide (o_Return o < o_Call o')%Z.
Proof. unfold Less. simpl. repeat case_bool_decide; done || lia. Qed.

(** A call and a return on the list are in the order of their times. *)
Lemma es_order c r o i o' i' :
  es !! c = Some (call_of o i) → es !! r = Some (return_of o' i') → c < r ↔ (o_Call o ≤ o_Return o')%Z.
Proof.
  intros Hc Hr. split.
  - intros Hlt. pose proof (es_sorted _ _ _ _ Hlt Hc Hr) as H. rewrite less_return in H.
    apply bool_decide_eq_false in H. lia.
  - intros Hle. destruct (decide (c < r)) as [|Hge]; [done|]. exfalso.
    assert (Hne : c ≠ r) by (intros ->; rewrite Hr in Hc; done).
    assert (Hrc : r < c) by lia. pose proof (es_sorted _ _ _ _ Hrc Hr Hc) as H. rewrite less_call in H.
    by apply bool_decide_eq_false in H.
Qed.

Lemma es_lookup k o : history !! k = Some o →
  ∃ c r, es !! c = Some (call_of o (Z.of_nat k)) ∧ es !! r = Some (return_of o (Z.of_nat k)).
Proof.
  intros Hk. assert (Hc : call_of o (Z.of_nat k) ∈ es) by (apply elem_of_es; exists k, o; auto).
  assert (Hr : return_of o (Z.of_nat k) ∈ es) by (apply elem_of_es; exists k, o; auto).
  apply list_elem_of_lookup in Hc as [c Hc]. apply list_elem_of_lookup in Hr as [r Hr]. by exists c, r.
Qed.

Lemma es_wf : wf_entries (length history) es.
Proof.
  split.
  - rewrite es_perm. apply makeEntries_loop_length.
  - intros e (k & o & Hk%lookup_lt_Some & [->| ->])%elem_of_es; simpl; lia.
  - intros i Hi. destruct (lookup_lt_is_Some_2 history (Z.to_nat i)) as [o Ho]; [lia|].
    destruct (es_lookup _ _ Ho) as (c & r & Hc & Hr). rewrite Z2Nat.id in Hc, Hr by lia.
    eexists c, r, _, _. split_and!; try done. eapply es_order; [done..|].
    apply Htimed. by eapply list_elem_of_lookup_2.
  - apply es_unique.
Qed.

Lemma es_call k ec : es !! k = Some ec → e_kind ec = callEntry →
  ∃ i o, history !! i = Some o ∧ ec = call_of o (Z.of_nat i).
Proof. intros He K. apply list_elem_of_lookup_2, elem_of_es in He as (i & o & Hi & [->| ->]); [by exists i, o|done]. Qed.

Lemma es_return k er : es !! k = Some er → e_kind er = returnEntry →
  ∃ i o, history !! i = Some o ∧ er = return_of o (Z.of_nat i).
Proof. intros He K. apply list_elem_of_lookup_2, elem_of_es in He as (i & o & Hi & [->| ->]); [done|by exists i, o]. Qed.

(** An operation precedes another on the list when it returned first. *)
Lemma es_precedes a b :
  precedes es (Z.of_nat a) (Z.of_nat b) ↔
  ∃ oa ob, history !! a = Some oa ∧ history !! b = Some ob ∧ (o_Return oa < o_Call ob)%Z.
Proof.
  split.
  - intros (r & c & er & ec & Hlt & Hr & Hc & Kr & Kc & Ha & Hb).
    destruct (es_return r er Hr Kr) as (i & o & Hi & ->). destruct (es_call c ec Hc Kc) as (i' & o' & Hi' & ->).
    simpl in *. assert (i = a) as -> by lia. assert (i' = b) as -> by lia. exists o, o'. split_and!; [done..|].
    destruct (decide (o_Return o < o_Call o')%Z) as [|Hle]; [done|]. exfalso.
    assert (c < r) by (eapply es_order; [done..|lia]). lia.
  - intros (oa & ob & Ha & Hb & Hlt). destruct (es_lookup _ _ Ha) as (_ & r & _ & Hr).
    destruct (es_lookup _ _ Hb) as (c & _ & Hc & _). eexists r, c, _, _. split_and!; try done.
    assert (Hne : c ≠ r) by (intros ->; rewrite Hr in Hc; done).
    destruct (decide (c < r)) as [Hcr|]; [|lia]. eapply es_order in Hcr; [|done..]. lia.
Qed.

(** The operation with an id. *)
Definition opOf (i : Z) : Operation V := default (mkOperation 0 inhabitant 0 inhabitant 0) (history !! Z.to_nat i).

Abbreviation ids := (Z.of_nat <$> seq 0 (length history)).

Lemma opOf_lookup k o : history !! k = Some o → opOf (Z.of_nat k) = o.
Proof. unfold opOf. rewrite Nat2Z.id. by intros ->. Qed.

Lemma elem_of_ids i : i ∈ ids ↔ ∃ k o, i = Z.of_nat k ∧ history !! k = Some o.
Proof.
  rewrite list_elem_of_fmap. split.
  - intros (k & -> & Hk%elem_of_seq). destruct (lookup_lt_is_Some_2 history k) as [o Ho]; [lia|]. by exists k, o.
  - intros (k & o & -> & Ho%lookup_lt_Some). exists k. split; [done|]. apply elem_of_seq. lia.
Qed.

Lemma opOf_ids : opOf <$> ids = history.
Proof.
  apply list_eq. intros k. rewrite !list_lookup_fmap. destruct (history !! k) as [o|] eqn:Hk.
  - rewrite lookup_seq_lt by (by eapply lookup_lt_Some). simpl. by rewrite (opOf_lookup _ _ Hk).
  - rewrite lookup_ge_None_2; [done|]. rewrite length_seq. by apply lookup_ge_None_1.
Qed.

Lemma es_legal σ : (∀ i, i ∈ σ → i ∈ ids) → ∀ s, legal model es s σ ↔ op_legal s (opOf <$> σ).
Proof.
  induction σ as [|i σ IH]; intros Hids s; [split; constructor|].
  assert (Hσ : ∀ i, i ∈ σ → i ∈ ids) by (intros; apply Hids; by right). rewrite fmap_cons. split.
  - intros H. inversion H as [|? s' ec er ? Hec Her Kc Kr Hid Hst Hl]; subst.
    apply list_elem_of_lookup in Hec as [c Hc]. apply list_elem_of_lookup in Her as [r Hr].
    destruct (es_call c ec Hc Kc) as (k & o & Hk & ->). destruct (es_return r er Hr Kr) as (k' & o' & Hk' & ->).
    simpl in *. assert (k' = k) as -> by lia. rewrite Hk in Hk'. injection Hk' as <-.
    rewrite (opOf_lookup _ _ Hk). econstructor; [done|]. by apply IH.
  - intros H. inversion H as [|? s' ? ? Hst Hl]; subst. destruct (proj1 (elem_of_ids i) (Hids i ltac:(left))) as (k & o & -> & Hk).
    rewrite (opOf_lookup _ _ Hk) in Hst.
    change (Z.of_nat k) with (e_id (call_of o (Z.of_nat k))).
    eapply (legal_cons _ _ _ s' _ (return_of o (Z.of_nat k))); try done.
    + apply elem_of_es. exists k, o. auto.
    + apply elem_of_es. exists k, o. auto.
    + by apply IH.
Qed.

Lemma before_cons x σ a b : before σ a b → before (x :: σ) a b.
Proof. intros (σ1 & σ2 & σ3 & ->). by exists (x :: σ1), σ2, σ3. Qed.

(** Keeping the real-time order, by positions and by neighbours. *)
Lemma before_real_time σ :
  NoDup σ → (∀ i, i ∈ σ → i ∈ ids) →
  (∀ a b, a ∈ σ → b ∈ σ → (o_Return (opOf a) < o_Call (opOf b))%Z → before σ a b) ↔ real_time (opOf <$> σ).
Proof.
  unfold real_time. induction σ as [|i σ IH]; intros Hnd Hids.
  { split; [constructor|]. by intros _ a b ?%elem_of_nil. }
  apply NoDup_cons in Hnd as [Hi Hnd]. rewrite fmap_cons, StronglySorted_cons, Forall_fmap, Forall_forall.
  rewrite <-IH by (done || intros; apply Hids; by right). split.
  - intros H. split.
    + intros b Hb. simpl. destruct (decide (o_Call (opOf i) ≤ o_Return (opOf b))%Z) as [|Hlt]; [done|]. exfalso.
      assert (Hbi : before (i :: σ) b i) by (apply H; [by right|left|lia]).
      apply (before_prefix [] σ) in Hbi; [by apply elem_of_nil in Hbi|by constructor].
    + intros a b Ha Hb Hlt. destruct (H a b ltac:(by right) ltac:(by right) Hlt) as (σ1 & σ2 & σ3 & Heq).
      destruct σ1 as [|x σ1]; injection Heq as -> Heq; [by destruct Hi|]. by exists σ1, σ2, σ3.
  - intros [Hhead Htail] a b [->|Ha]%elem_of_cons [->|Hb]%elem_of_cons Hlt.
    + exfalso. destruct (proj1 (elem_of_ids i) (Hids i ltac:(left))) as (k & o & -> & Hk).
      rewrite (opOf_lookup _ _ Hk) in Hlt. pose proof (Htimed o ltac:(by eapply list_elem_of_lookup_2)). lia.
    + apply list_elem_of_split in Hb as (σ2 & σ3 & ->). by exists [], σ2, σ3.
    + specialize (Hhead a Ha). simpl in Hhead. lia.
    + by apply before_cons, Htail.
Qed.

Lemma precedes_opOf a b :
  a ∈ ids → b ∈ ids → precedes es a b ↔ (o_Return (opOf a) < o_Call (opOf b))%Z.
Proof.
  intros (ka & oa & -> & Ha)%elem_of_ids (kb & ob & -> & Hb)%elem_of_ids.
  rewrite es_precedes, (opOf_lookup _ _ Ha), (opOf_lookup _ _ Hb). naive_solver.
Qed.

(** The entries are linearizable exactly when the history is. *)
Lemma makeEntries_linearizable : linearizable model es ↔ history_linearizable history.
Proof.
  assert (Hn : length es / 2 = length history).
  { rewrite (we_len _ _ es_wf), Nat.mul_comm. by apply Nat.div_mul. }
  assert (Hnd : NoDup ids) by (apply NoDup_fmap; [apply _|apply NoDup_seq]).
  unfold linearizable, linearization. rewrite Hn. split.
  - intros (σ & Hp & Hl & Hb). assert (Hids : ∀ i, i ∈ σ → i ∈ ids) by (intros i; by rewrite Hp).
    exists (opOf <$> σ). split_and!.
    + rewrite Hp, opOf_ids. done.
    + by apply es_legal.
    + apply before_real_time; [by rewrite Hp|done|]. intros a b Ha Hb' Hlt. apply Hb, precedes_opOf; auto.
  - intros (σo & Hp & Hl & Hr). rewrite <-opOf_ids in Hp.
    destruct (Permutation_map_inv _ _ Hp) as (σ & -> & Hp'). symmetry in Hp'.
    assert (Hids : ∀ i, i ∈ σ → i ∈ ids) by (intros i; by rewrite Hp').
    exists σ. split_and!; [done|by apply es_legal|].
    intros a b Hab. destruct (precedes_op _ _ es_wf _ _ Hab) as [Ha Hb].
    assert (Hop : ∀ i, (0 ≤ i < Z.of_nat (length history))%Z → i ∈ ids).
    { intros i Hi. apply list_elem_of_fmap. exists (Z.to_nat i). rewrite elem_of_seq. lia. }
    eapply (before_real_time σ); [by rewrite Hp'|done|done|rewrite Hp'; auto..|]. apply precedes_opOf; auto.
Qed.
End Entries.
End Operations.
