(* ===== verification/PorcupineCheck.v ===== *)
(** * The answer of the linearizability checker (src/porcupine/checker.go)

    [checkParallel] runs one goroutine per partition and puts their answers
    together, in the order in which they come and until the timer fires.
    Theorems: [checkSingle] ends with the right answer; whatever the order of
    the answers, [checkParallel] says Ok exactly when every partition is
    linearizable, and an answer it gives after a timeout is right as well; the
    partial linearizations it reports are ones. *)

From stdpp Require Import base list gmap sets strings sorting.
From Stdlib Require Import ZArith Lia.
From S2P Require Import Prelude PorcupineBitset Porcupine PorcupineSearch PorcupineHistory.

(** ** Collecting answers *)

Lemma collect_all computeInfo total bs : ∀ ok count,
  bs ≠ [] → (count + zlen bs = total)%Z →
  collect computeInfo total (RecvResult <$> bs) ok count = Some (ok && forallb id bs, false).
Proof.
  induction bs as [|b bs IH]; intros ok count Hne Hlen; [done|]. rewrite zlen_cons in Hlen. simpl.
  destruct (negb (ok && b) && negb computeInfo) eqn:Estop.
  { apply andb_true_iff in Estop as [E _]. apply negb_true_iff in E. rewrite andb_assoc, E. done. }
  destruct bs as [|b' bs].
  - rewrite bool_decide_true by (rewrite zlen_nil in Hlen; lia). by rewrite andb_true_r.
  - rewrite bool_decide_false by (rewrite zlen_cons in Hlen; pose proof (zlen_nonneg bs); lia).
    rewrite IH by (done || lia). by rewrite andb_assoc.
Qed.

Lemma collect_timeout computeInfo total bs rest : ∀ ok count,
  (count + zlen bs ≤ total)%Z →
  ∃ ok' late, collect computeInfo total ((RecvResult <$> bs) ++ RecvTimeout :: rest) ok count = Some (ok', late) ∧
    (ok' = false → ok = false ∨ false ∈ bs) ∧
    (ok' = true → late = false → ok = true ∧ (count + zlen bs = total)%Z ∧ forallb id bs = true).
Proof.
  induction bs as [|b bs IH]; intros ok count Hle.
  { exists ok, true. split_and!; [done|by left|done]. }
  rewrite fmap_cons, zlen_cons in *. pose proof (zlen_nonneg bs). cbn [app collect].
  assert (Hb : ok && b = false → ok = false ∨ false ∈ b :: bs).
  { destruct ok; [|by left]. simpl. intros ->. right. left. }
  destruct (negb (ok && b) && negb computeInfo) eqn:Estop.
  { apply andb_true_iff in Estop as [E _]. apply negb_true_iff in E. exists (ok && b), false. rewrite E. split_and!; [done| |done].
    intros _. by apply Hb. }
  case_bool_decide.
  - exists (ok && b), false. split_and!; [done|done|]. intros [-> ->]%andb_true_iff _.
    destruct bs; [split_and!; [done| |done]; rewrite zlen_nil in *; lia|].
    rewrite zlen_cons in *. pose proof (zlen_nonneg bs). lia.
  - destruct (IH (ok && b) (count + 1)%Z) as (ok' & late & -> & Hf & Ht); [lia|]. exists ok', late. split_and!; [done| |].
    + intros [H1|H1]%Hf; [by apply Hb|right; by right].
    + intros H1 H2. destruct (Ht H1 H2) as ([-> ->]%andb_true_iff & ? & Hbs). split_and!; [done|lia|done].
Qed.

Section Check.
Context {V S : Type} `{!Inhabited V}.
Context (model : FullModel V S).

(** A partition [checkSingle] can check. *)
Definition checkable (part : list (entry V)) : Prop :=
  (∃ n, wf_entries n part) ∧ steps_return model part.

(** The two states [Equal] takes for one are one. *)
Definition sound_equal : Prop := ∀ s t, Equal model s t = true → s = t.

(** The answer of the goroutine of a partition, when it is not stopped. *)
Definition answers (computeInfo : bool) (part : list (entry V)) (b : bool) : Prop :=
  ∃ lg, checkSingle model part computeInfo (λ _, false) = Ok (Some (b, lg)).

Lemma answers_linearizable computeInfo part b :
  sound_equal → checkable part → answers computeInfo part b → b = true ↔ linearizable model part.
Proof.
  intros HE [[n Hwf] Hst] [lg Hlg]. destruct (checkSingle_result model n part computeInfo (λ _, false) Hwf Hst HE)
    as (b' & lg' & Hr & _ & Ht & Hf). rewrite Hlg in Hr. injection Hr as <- <-. split; [done|]. intros Hl.
  destruct b; [done|]. by destruct (Hf eq_refl) as [[i ?]|?].
Qed.

Lemma answers_exist computeInfo parts :
  sound_equal → Forall checkable parts → ∃ bs, Forall2 (answers computeInfo) parts bs.
Proof.
  intros HE Hc. induction Hc as [|part parts [[n Hwf] Hst] _ (bs & IH)]; [by exists []|].
  destruct (checkSingle_result model n part computeInfo (λ _, false) Hwf Hst HE) as (b & lg & Hr & _).
  exists (b :: bs). constructor; [by exists lg|done].
Qed.

Lemma all_answers computeInfo parts bs :
  sound_equal → Forall checkable parts → Forall2 (answers computeInfo) parts bs →
  forallb id bs = true ↔ Forall (linearizable model) parts.
Proof.
  intros HE Hc Ha. induction Ha as [|part b parts bs Hb _ IH]; [by split|].
  apply Forall_cons in Hc as [Hp Hc]. simpl. rewrite andb_true_iff, IH, Forall_cons by done. unfold id.
  by rewrite (answers_linearizable _ _ _ HE Hp Hb).
Qed.

Lemma false_answer computeInfo parts bs :
  sound_equal → Forall checkable parts → Forall2 (answers computeInfo) parts bs →
  false ∈ bs → ¬ Forall (linearizable model) parts.
Proof.
  intros HE Hc Ha Hin Hall. apply (all_answers _ _ _ HE Hc Ha) in Hall.
  rewrite forallb_forall in Hall. apply list_elem_of_In in Hin. by specialize (Hall _ Hin).
Qed.

Lemma forallb_perm (bs order : list bool) : order ≡ₚ bs → forallb id order = forallb id bs.
Proof. induction 1; simpl; [done|congruence|by destruct x, y|congruence]. Qed.

Lemma checkParallel_answer computeInfo parts bs order longest :
  sound_equal → Forall checkable parts → Forall2 (answers computeInfo) parts bs → order ≡ₚ bs → parts ≠ [] →
  ∃ res info, checkParallel parts computeInfo (RecvResult <$> order) longest = Some (res, info) ∧
    (res = ResOk ∧ Forall (linearizable model) parts ∨ res = ResIllegal ∧ ¬ Forall (linearizable model) parts).
Proof.
  intros HE Hc Ha Hp Hne. assert (Hlen : zlen order = zlen parts).
  { unfold zlen. rewrite Hp. f_equal. symmetry. by eapply Forall2_length. }
  assert (Ho : order ≠ []).
  { intros ->. destruct parts; [done|]. rewrite zlen_cons, zlen_nil in Hlen. pose proof (zlen_nonneg parts). lia. }
  unfold checkParallel. rewrite collect_all by (done || lia). simpl. eexists _, _. split; [done|].
  pose proof (all_answers _ _ _ HE Hc Ha) as Hall. rewrite (forallb_perm _ _ Hp). destruct (forallb id bs); simpl.
  - left. split; [done|]. by apply Hall.
  - right. split; [done|]. by intros ?%Hall.
Qed.

Lemma checkParallel_timed computeInfo parts bs order k rest longest :
  sound_equal → Forall checkable parts → Forall2 (answers computeInfo) parts bs → order ≡ₚ bs → parts ≠ [] →
  ∃ res info, checkParallel parts computeInfo ((RecvResult <$> take k order) ++ RecvTimeout :: rest) longest = Some (res, info) ∧
    (res = ResOk → Forall (linearizable model) parts) ∧ (res = ResIllegal → ¬ Forall (linearizable model) parts).
Proof.
  intros HE Hc Ha Hp Hne. unfold checkParallel.
  assert (Hlen : length order = length parts) by (rewrite Hp; symmetry; by eapply Forall2_length).
  destruct (collect_timeout computeInfo (zlen parts) (take k order) rest true 0) as (ok & late & -> & Hf & Ht).
  { unfold zlen. rewrite length_take. lia. }
  simpl. eexists _, _. split; [done|]. split.
  - destruct ok; [|done]. destruct late; [done|]. intros _. destruct (Ht eq_refl eq_refl) as (_ & Hk & Hall).
    apply (all_answers _ _ _ HE Hc Ha). unfold zlen in Hk. rewrite length_take in Hk.
    rewrite take_ge in Hall by lia. by rewrite <-(forallb_perm _ _ Hp).
  - destruct ok; [by destruct late|]. intros _. eapply (false_answer _ _ _ HE Hc Ha).
    destruct (Hf eq_refl) as [?|Hin]; [done|]. rewrite <-Hp. apply elem_of_take in Hin as (i & Hi & _).
    by eapply list_elem_of_lookup_2.
Qed.

(** The sequences [checkSingle] returns, and what is reported of them. *)
Lemma partials_ok part computeInfo kill b lg :
  sound_equal → checkable part → checkSingle model part computeInfo kill = Ok (Some (b, lg)) →
  ∀ σ, σ ∈ partials lg → partial_linearization model part σ.
Proof.
  intros HE [[n Hwf] Hst] Hrun σ Hσ. destruct (checkSingle_result model n part computeInfo kill Hwf Hst HE)
    as (b' & lg' & Hr & [_ Hrec] & _). rewrite Hrun in Hr. injection Hr as <- <-.
  unfold partials in Hσ. apply list_elem_of_omap in Hσ as (p & Hp & Hlk).
  rewrite elem_of_elements, elem_of_list_to_set in Hp. apply list_elem_of_omap in Hp as (q & Hq & Hqp).
  unfold id in Hqp. subst q. apply list_elem_of_lookup in Hq as [k Hk].
  destruct (Hrec k p Hk) as (seq & calls & s & Hseq & Hch & _). rewrite Hlk in Hseq. injection Hseq as <-.
  by eapply chain_partial.
Qed.
End Check.

(** ** Properties *)

Section Properties.
Context {V S : Type} `{!Inhabited V, !EqDecision S}.
Context (fmtV : V → string) (fmtS : S → string) (sortf : list (entry V) → list (entry V)).

(** C16: [checkSingle] always ends, without following a nil pointer or an
    index out of range, whenever it is told to stop: it returns true only for
    linearizable histories, and false only for histories that are not, or when
    it was stopped. *)
Theorem checkSingle_correct (model : FullModel V S) n es computePartial kill :
  wf_entries n es → steps_return model es → sound_equal model →
  ∃ b lg, checkSingle model es computePartial kill = Ok (Some (b, lg)) ∧
    (b = true → linearizable model es) ∧ (b = false → (∃ i, kill i = true) ∨ ¬ linearizable model es).
Proof.
  intros Hwf Hst HE. destruct (checkSingle_result model n es computePartial kill Hwf Hst HE) as (b & lg & ? & _ & ? & ?).
  by exists b, lg.
Qed.

(** The histories of the partitions. *)
Definition parts_ok (model : FullModel V S) (parts : list (list (Operation V))) : Prop :=
  ∀ part, part ∈ parts → timed part ∧ ∀ o s, o ∈ part → returns (Step model s (o_Input o) (o_Output o)).

Lemma parts_checkable (model : FullModel V S) parts :
  sort_contract sortf → parts_ok model parts → Forall (checkable model) (makeEntries sortf <$> parts).
Proof.
  intros Hs Hp. apply Forall_fmap, Forall_forall. intros part Hin. destruct (Hp part Hin) as [Ht Hst]. split.
  - exists (length part). by apply es_wf.
  - intros s ec er [c Hc]%list_elem_of_lookup [r Hr]%list_elem_of_lookup Kc Kr Hid.
    destruct (es_call sortf Hs part c ec Hc Kc) as (i & o & Hi & ->).
    destruct (es_return sortf Hs part r er Hr Kr) as (i' & o' & Hi' & ->). simpl in *.
    assert (i' = i) as -> by lia. rewrite Hi in Hi'. injection Hi' as <-. apply Hst. by eapply list_elem_of_lookup_2.
Qed.

Lemma parts_linearizable (model : FullModel V S) parts :
  sort_contract sortf → parts_ok model parts →
  Forall (linearizable model) (makeEntries sortf <$> parts) ↔ Forall (history_linearizable model) parts.
Proof.
  intros Hs Hp. rewrite Forall_fmap, !Forall_forall. unfold compose.
  split; intros H part Hin; specialize (H part Hin); destruct (Hp part Hin) as [Ht _];
    [by apply makeEntries_linearizable in H|by apply makeEntries_linearizable].
Qed.

(** When every goroutine has delivered its answer, in whatever order, the
    answer is Ok when every partition is linearizable and Illegal otherwise;
    and when the timer fires first, an answer Ok or Illegal is still right. *)
Lemma checkOperations_answers (model : Model V S) history parts verbose bs order k rest longest :
  let full := fillDefault fmtV fmtS model in
  sort_contract sortf → sound_equal full → Partition full history = Ok parts → parts ≠ [] → parts_ok full parts →
  Forall2 (answers full verbose) (makeEntries sortf <$> parts) bs → order ≡ₚ bs →
  (∃ res info, checkOperations fmtV fmtS sortf model history verbose (RecvResult <$> order) longest = Ok (Some (res, info)) ∧
    (res = ResOk ∧ Forall (history_linearizable full) parts ∨
     res = ResIllegal ∧ ¬ Forall (history_linearizable full) parts)) ∧
  (∃ res info, checkOperations fmtV fmtS sortf model history verbose
      ((RecvResult <$> take k order) ++ RecvTimeout :: rest) longest = Ok (Some (res, info)) ∧
    (res = ResOk → Forall (history_linearizable full) parts) ∧
    (res = ResIllegal → ¬ Forall (history_linearizable full) parts)).
Proof.
  intros full Hs HE Hpart Hne Hok Ha Hp. unfold checkOperations. fold full. rewrite Hpart. res_simpl.
  pose proof (parts_checkable full parts Hs Hok) as Hc. pose proof (parts_linearizable full parts Hs Hok) as Hiff.
  assert (Hne' : makeEntries sortf <$> parts ≠ []) by (by destruct parts).
  split.
  - destruct (checkParallel_answer full verbose _ bs order longest HE Hc Ha Hp Hne') as (res & info & -> & H).
    exists res, info. split; [done|]. tauto.
  - destruct (checkParallel_timed full verbose _ bs order k rest longest HE Hc Ha Hp Hne') as (res & info & -> & H).
    exists res, info. split; [done|]. tauto.
Qed.

Lemma verbose_report (model : Model V S) history parts evs longest res info :
  let full := fillDefault fmtV fmtS model in
  sort_contract sortf → sound_equal full → Partition full history = Ok parts → parts_ok full parts →
  Forall2 (λ part lg, ∃ kill b, checkSingle full part true kill = Ok (Some (b, lg))) (makeEntries sortf <$> parts) longest →
  CheckOperationsVerbose fmtV fmtS sortf model history evs longest = Ok (Some (res, info)) →
  i_history info = makeEntries sortf <$> parts ∧
  Forall2 (λ part ls, ∀ σ, σ ∈ ls → partial_linearization full part σ) (i_history info) (i_partialLinearizations info).
Proof.
  intros full Hs HE Hpart Hok Hrun Hres. unfold CheckOperationsVerbose, checkOperations in Hres. fold full in Hres.
  rewrite Hpart in Hres. res_simpl. unfold checkParallel in Hres.
  destruct (collect _ _ _ _ _) as [[ok late]|]; [|done]. simpl in Hres. injection Hres as _ <-. simpl.
  pose proof (parts_checkable full parts Hs Hok) as Hc. split; [done|].
  induction Hrun as [|part lg ps lgs (kill & b & Hb) _ IH]; [constructor|].
  apply Forall_cons in Hc as [Hp Hc]. rewrite fmap_cons. constructor; [|by apply IH].
  by eapply partials_ok.
Qed.
End Properties.
