(* ===== verification/PorcupineEvents.v ===== *)
(** * Histories of events (src/porcupine/checker.go, checkEvents)

    A history can also be given as a sequence of call and return events in
    their real-time order; the events of one operation have the same id,
    which may be any number.  [renumber] gives the operations the ids
    0, 1, ..., which the checker uses as indices.

    Theorem: the check of a history of events is right whatever the ids are. *)

From stdpp Require Import base list gmap sets strings sorting.
From Stdlib Require Import ZArith Lia.
From S2P Require Import Prelude PorcupineBitset Porcupine PorcupineSearch PorcupineHistory PorcupineCheck.

(** ** Renumbering *)

(** [m] numbers ids with 0, ..., [id - 1]. *)
Record numbering (m : gmap Z Z) (id : Z) : Prop := {
  nb_range : ∀ x i, m !! x = Some i → (0 ≤ i < id)%Z;
  nb_inj : ∀ x y i, m !! x = Some i → m !! y = Some i → x = y;
  nb_onto : ∀ i, (0 ≤ i < id)%Z → ∃ x, m !! x = Some i;
  nb_nonneg : (0 ≤ id)%Z;
}.

Lemma numbering_insert m id x : numbering m id → m !! x = None → numbering (<[x := id]> m) (id + 1).
Proof.
  intros [Hr Hi Ho H0] Hx. split.
  - intros y i [[<- <-]|[_ Hy]]%lookup_insert_Some; [lia|]. specialize (Hr _ _ Hy). lia.
  - intros y z i [[<- <-]|[_ Hy]]%lookup_insert_Some [[<- Hz]|[_ Hz]]%lookup_insert_Some; try done.
    + specialize (Hr _ _ Hz). lia.
    + subst i. specialize (Hr _ _ Hy). lia.
    + by eapply Hi.
  - intros i Hlt. destruct (decide (i = id)) as [->|]; [exists x; apply lookup_insert_eq|].
    destruct (Ho i) as [y Hy]; [lia|]. exists y. rewrite lookup_insert_ne; [done|]. congruence.
  - lia.
Qed.

Section Events.
Context {V S : Type} `{!Inhabited V, !EqDecision S}.
Implicit Types evs : list (Event V).

Definition rename (m : gmap Z Z) (v : Event V) : Event V :=
  mkEvent (v_ClientId v) (v_Kind v) (v_Value v) (default 0%Z (m !! v_Id v)).

Lemma renumber_loop_spec evs : ∀ m id,
  numbering m id →
  ∃ m' id', numbering m' id' ∧ m ⊆ m' ∧ (∀ x, x ∈ dom m' ↔ x ∈ dom m ∨ ∃ v, v ∈ evs ∧ v_Id v = x) ∧
    renumber_loop evs m id = rename m' <$> evs.
Proof.
  induction evs as [|v evs IH]; intros m id Hn.
  { exists m, id. split; [done|]. split; [done|]. split; [|done]. intros x. split; [by left|].
    by intros [?|(v & ?%elem_of_nil & _)]. }
  cbn [renumber_loop]. destruct (m !! v_Id v) as [r|] eqn:Hr.
  - destruct (IH m id Hn) as (m' & id' & Hn' & Hsub & Hdom & Heq). exists m', id'. split; [done|]. split; [done|]. split.
    + intros x. rewrite Hdom. setoid_rewrite elem_of_cons. apply (elem_of_dom_2 (D := gset Z)) in Hr. naive_solver.
    + rewrite fmap_cons, Heq. unfold rename at 2. by rewrite (lookup_weaken _ _ _ _ Hr Hsub).
  - destruct (IH (<[v_Id v := id]> m) (id + 1)%Z) as (m' & id' & Hn' & Hsub & Hdom & Heq); [by apply numbering_insert|].
    exists m', id'. split; [done|]. split; [etrans; [by apply insert_subseteq|done]|]. split.
    + intros x. rewrite Hdom, dom_insert. setoid_rewrite elem_of_cons. set_solver.
    + rewrite fmap_cons, Heq. unfold rename at 2. rewrite (lookup_weaken _ _ _ id (lookup_insert_eq _ _ _) Hsub). done.
Qed.

(** An entry with another id. *)
Definition reid (ρ : Z → Z) (e : entry V) : entry V :=
  mkEntry (e_kind e) (e_value e) (ρ (e_id e)) (e_time e) (e_clientId e).

Lemma renumber_spec evs :
  ∃ m id, numbering m id ∧ (∀ x, x ∈ dom m ↔ ∃ v, v ∈ evs ∧ v_Id v = x) ∧
    convertEntries (renumber evs) = reid (λ x, default 0%Z (m !! x)) <$> convertEntries evs.
Proof.
  destruct (renumber_loop_spec evs ∅ 0) as (m & id & Hn & _ & Hdom & Heq).
  { split; [by intros|by intros|intros; lia|lia]. }
  exists m, id. split; [done|]. split; [intros x; rewrite Hdom, dom_empty; set_solver|].
  unfold renumber. rewrite Heq. unfold convertEntries. apply list_eq. intros i.
  rewrite list_lookup_fmap, !list_lookup_imap, list_lookup_fmap. by destruct (evs !! i).
Qed.

(** ** Other ids, the same answer *)

Section Reid.
Context (model : FullModel V S) (raw : list (entry V)) (ρ : Z → Z).

Definition has_id (i : Z) : Prop := ∃ e, e ∈ raw ∧ e_id e = i.

Context (Hinj : ∀ a b, has_id a → has_id b → ρ a = ρ b → a = b).

Lemma elem_of_reid e : e ∈ reid ρ <$> raw ↔ ∃ e0, e0 ∈ raw ∧ e = reid ρ e0.
Proof. rewrite list_elem_of_fmap. naive_solver. Qed.

Lemma reid_precedes a b : has_id a → has_id b → precedes (reid ρ <$> raw) (ρ a) (ρ b) ↔ precedes raw a b.
Proof.
  intros Ha Hb. split.
  - intros (r & c & er & ec & Hlt & Hr & Hc & Kr & Kc & Ir & Ic).
    apply list_lookup_fmap_Some in Hr as (er0 & -> & Hr). apply list_lookup_fmap_Some in Hc as (ec0 & -> & Hc).
    simpl in *. exists r, c, er0, ec0. split_and!; try done; (apply Hinj; [|done|done]); eexists; (split; [|done]);
      by eapply list_elem_of_lookup_2.
  - intros (r & c & er & ec & Hlt & Hr & Hc & Kr & Kc & <- & <-).
    exists r, c, (reid ρ er), (reid ρ ec). rewrite !list_lookup_fmap, Hr, Hc. done.
Qed.

Lemma reid_legal σ : (∀ i, i ∈ σ → has_id i) → ∀ s, legal model (reid ρ <$> raw) s (ρ <$> σ) ↔ legal model raw s σ.
Proof.
  induction σ as [|i σ IH]; intros Hids s; [split; constructor|].
  assert (Hσ : ∀ i, i ∈ σ → has_id i) by (intros; apply Hids; by right). specialize (IH Hσ). rewrite fmap_cons. split.
  - intros H. inversion H as [|? s' ec er ? Hec Her Kc Kr Hid Hst Hl Hs Hi]; subst. clear H.
    apply elem_of_reid in Hec as (ec0 & Hec & ->). apply elem_of_reid in Her as (er0 & Her & ->). simpl in *.
    assert (e_id ec0 = i) as <- by (apply Hinj; [by exists ec0|apply Hids; left|done]).
    eapply (legal_cons _ _ s s' ec0 er0); try done; [|by apply IH]. apply Hinj; [by exists ec0|by exists er0|done].
  - intros H. inversion H as [|? s' ec er ? Hec Her Kc Kr Hid Hst Hl Hs Hi]; subst. clear H.
    change (ρ (e_id ec)) with (e_id (reid ρ ec)). eapply (legal_cons _ _ s s' _ (reid ρ er)); try done.
    + apply elem_of_reid. by exists ec.
    + apply elem_of_reid. by exists er.
    + simpl. by rewrite Hid.
    + by apply IH.
Qed.

Lemma reid_before σ a b : (∀ i, i ∈ σ → has_id i) → has_id a → has_id b →
  before (ρ <$> σ) (ρ a) (ρ b) ↔ before σ a b.
Proof.
  intros Hids Ha Hb. split.
  - intros (τ1 & τ2 & τ3 & Heq). apply fmap_app_inv in Heq as (σ1 & σ' & -> & Heq & ->).
    destruct σ' as [|a' σ']; [done|]. rewrite fmap_cons in Heq. injection Heq as Ha' Heq.
    symmetry in Heq. apply fmap_app_inv in Heq as (σ2 & σ'' & -> & Heq & ->).
    destruct σ'' as [|b' σ3]; [done|]. rewrite fmap_cons in Heq. injection Heq as Hb' Heq.
    assert (a = a') as <- by (apply Hinj; [done|apply Hids; set_solver|done]).
    assert (b = b') as <- by (apply Hinj; [done|apply Hids; set_solver|done]).
    by exists σ1, σ2, σ3.
  - intros (σ1 & σ2 & σ3 & ->). exists (ρ <$> σ1), (ρ <$> σ2), (ρ <$> σ3). by rewrite fmap_app, fmap_cons, fmap_app, fmap_cons.
Qed.
End Reid.

(** ** Histories of events *)

(** Every operation has one call and, behind it, one return. *)
Record wf_events evs : Prop := {
  wv_pair : ∀ v, v ∈ evs → ∃ c r vc vr, c < r ∧ evs !! c = Some vc ∧ evs !! r = Some vr ∧
    v_Kind vc = CallEvent ∧ v_Kind vr = ReturnEvent ∧ v_Id vc = v_Id v ∧ v_Id vr = v_Id v;
  wv_unique : ∀ k1 k2 v1 v2, evs !! k1 = Some v1 → evs !! k2 = Some v2 → v_Kind v1 = v_Kind v2 → v_Id v1 = v_Id v2 → k1 = k2;
}.

(** The operations can be put in an order the model accepts in which each
    comes after those that had returned when it was called. *)
Definition events_linearizable (model : FullModel V S) evs : Prop :=
  ∃ σ, NoDup σ ∧ (∀ i, i ∈ σ ↔ ∃ v, v ∈ evs ∧ v_Id v = i) ∧
    legal model (convertEntries evs) (Init model) σ ∧ ∀ a b, precedes (convertEntries evs) a b → before σ a b.

Definition kindOf (k : EventKind) : entryKind := match k with CallEvent => callEntry | ReturnEvent => returnEntry end.

Lemma convert_lookup evs k e :
  convertEntries evs !! k = Some e ↔
  ∃ v, evs !! k = Some v ∧ e = mkEntry (kindOf (v_Kind v)) (v_Value v) (v_Id v) (Z.of_nat k) (v_ClientId v).
Proof.
  unfold convertEntries. rewrite list_lookup_imap. destruct (evs !! k) as [v|]; simpl; [|naive_solver].
  assert (Hk : (if bool_decide (v_Kind v = ReturnEvent) then returnEntry else callEntry) = kindOf (v_Kind v)) by (by destruct (v_Kind v)).
  rewrite Hk. naive_solver.
Qed.

Lemma kindOf_inj a b : kindOf a = kindOf b → a = b.
Proof. by destruct a, b. Qed.

Lemma convert_has_id evs i : has_id (convertEntries evs) i ↔ ∃ v, v ∈ evs ∧ v_Id v = i.
Proof.
  split.
  - intros (e & [k (v & Hv & ->)%convert_lookup]%list_elem_of_lookup & <-). exists v. split; [by eapply list_elem_of_lookup_2|done].
  - intros (v & [k Hv]%list_elem_of_lookup & <-). eexists. split; [eapply list_elem_of_lookup_2, convert_lookup; by exists v|done].
Qed.

Section Renumbered.
Context evs (Hwf : wf_events evs) (m : gmap Z Z) (id : Z) (Hn : numbering m id).
Context (Hdom : ∀ x, x ∈ dom m ↔ ∃ v, v ∈ evs ∧ v_Id v = x).

Abbreviation num x := (default 0%Z (m !! x)).
Abbreviation es := (reid (λ x, num x) <$> convertEntries evs).

Lemma num_some i : has_id (convertEntries evs) i → m !! i = Some (num i) ∧ (0 ≤ num i < id)%Z.
Proof.
  intros Hi. apply convert_has_id, Hdom, elem_of_dom in Hi as [j Hj]. rewrite Hj. split; [done|]. by apply (nb_range _ _ Hn i).
Qed.

Lemma num_inj a b : has_id (convertEntries evs) a → has_id (convertEntries evs) b → num a = num b → a = b.
Proof.
  intros [Ha _]%num_some [Hb _]%num_some Heq. eapply (nb_inj _ _ Hn); [exact Ha|]. by rewrite Heq.
Qed.

Lemma num_onto i : (0 ≤ i < id)%Z → ∃ x, has_id (convertEntries evs) x ∧ num x = i.
Proof.
  intros [x Hx]%(nb_onto _ _ Hn). exists x. split; [|by rewrite Hx].
  apply convert_has_id, Hdom, elem_of_dom. by exists i.
Qed.

Lemma es_event k e :
  es !! k = Some e → ∃ v, evs !! k = Some v ∧ e_kind e = kindOf (v_Kind v) ∧ e_id e = num (v_Id v) ∧
    has_id (convertEntries evs) (v_Id v).
Proof.
  intros Hk. apply list_lookup_fmap_Some in Hk as (e0 & -> & (v & Hv & ->)%convert_lookup). exists v. split_and!; try done.
  apply convert_has_id. exists v. split; [by eapply list_elem_of_lookup_2|done].
Qed.

Lemma event_es k v :
  evs !! k = Some v → ∃ e, es !! k = Some e ∧ e_kind e = kindOf (v_Kind v) ∧ e_id e = num (v_Id v).
Proof.
  intros Hv. eexists. split; [|split].
  - apply list_lookup_fmap_Some. eexists. split; [done|]. apply convert_lookup. by exists v.
  - done.
  - done.
Qed.

Lemma es_event_unique k1 k2 e1 e2 :
  es !! k1 = Some e1 → es !! k2 = Some e2 → e_kind e1 = e_kind e2 → e_id e1 = e_id e2 → k1 = k2.
Proof.
  intros (v1 & H1 & K1 & I1 & X1)%es_event (v2 & H2 & K2 & I2 & X2)%es_event Hk Hi.
  eapply (wv_unique _ Hwf); [exact H1|exact H2|apply kindOf_inj; congruence|apply num_inj; [done|done|congruence]].
Qed.

Lemma es_event_pair i : (0 ≤ i < id)%Z →
  ∃ c r ec er, c < r ∧ es !! c = Some ec ∧ es !! r = Some er ∧
    e_kind ec = callEntry ∧ e_kind er = returnEntry ∧ e_id ec = i ∧ e_id er = i.
Proof.
  intros (x & (v & Hv & <-)%convert_has_id & <-)%num_onto.
  destruct (wv_pair _ Hwf v Hv) as (c & r & vc & vr & Hlt & Hc & Hr & Kc & Kr & Ic & Ir).
  destruct (event_es c vc Hc) as (ec & Hec & Kec & Iec). destruct (event_es r vr Hr) as (er & Her & Ker & Ier).
  exists c, r, ec, er. rewrite Kec, Ker, Iec, Ier, Kc, Kr, Ic, Ir. done.
Qed.

(** There are two entries per number. *)
Lemma es_event_length : length es = 2 * Z.to_nat id.
Proof.
  set (pairs := (λ e, (e_kind e, e_id e)) <$> es).
  assert (Hnd : NoDup pairs).
  { apply NoDup_alt. intros k1 k2 p H1 H2. apply list_lookup_fmap_Some in H1 as (e1 & -> & H1).
    apply list_lookup_fmap_Some in H2 as (e2 & Heq & H2). injection Heq as Hk Hi. by eapply es_event_unique. }
  assert (Hp : pairs ≡ₚ (pair callEntry <$> (Z.of_nat <$> seq 0 (Z.to_nat id))) ++ (pair returnEntry <$> (Z.of_nat <$> seq 0 (Z.to_nat id)))).
  { apply NoDup_Permutation; [done| |].
    - apply NoDup_app. split_and!.
      + apply NoDup_fmap; [by intros ? ? [=]|]. apply NoDup_fmap; [apply _|apply NoDup_seq].
      + intros p (x & -> & _)%list_elem_of_fmap (y & Hy & _)%list_elem_of_fmap. done.
      + apply NoDup_fmap; [by intros ? ? [=]|]. apply NoDup_fmap; [apply _|apply NoDup_seq].
    - assert (Hseq : ∀ i, i ∈ Z.of_nat <$> seq 0 (Z.to_nat id) ↔ (0 ≤ i < id)%Z).
      { intros i. rewrite list_elem_of_fmap. split; [intros (k & -> & Hk%elem_of_seq); lia|].
        intros Hi. exists (Z.to_nat i). rewrite elem_of_seq. lia. }
      intros [kd i]. unfold pairs. rewrite elem_of_app, !(list_elem_of_fmap _ _ (kd, i)). split.
      + intros (e & [= -> ->] & [k (v & _ & _ & Hi & [_ Hx]%num_some)%es_event]%list_elem_of_lookup).
        rewrite <-Hi in Hx. destruct (e_kind e); [left|right]; eexists; (split; [done|]); by apply Hseq.
      + intros [(j & [= -> ->] & Hj%Hseq)|(j & [= -> ->] & Hj%Hseq)];
          destruct (es_event_pair j Hj) as (c & r & ec & er & _ & Hc & Hr & Kc & Kr & Ic & Ir).
        * exists ec. rewrite Kc, Ic. split; [done|]. by eapply list_elem_of_lookup_2.
        * exists er. rewrite Kr, Ir. split; [done|]. by eapply list_elem_of_lookup_2. }
  pose proof (Permutation_length Hp) as Hlen. unfold pairs in Hlen.
  rewrite length_app, !length_fmap, length_seq in Hlen. rewrite length_fmap. lia.
Qed.

Lemma es_event_wf : wf_entries (Z.to_nat id) es.
Proof.
  pose proof (nb_nonneg _ _ Hn). split.
  - apply es_event_length.
  - intros e [k (v & _ & _ & -> & [_ Hx]%num_some)%es_event]%list_elem_of_lookup. lia.
  - intros i Hi. apply es_event_pair. lia.
  - apply es_event_unique.
Qed.

Lemma renumber_linearizable (model : FullModel V S) : linearizable model es ↔ events_linearizable model evs.
Proof.
  pose proof (nb_nonneg _ _ Hn) as H0. pose proof es_event_wf as Hes.
  assert (Hpre : ∀ a b, precedes es a b → ∃ a' b', a = num a' ∧ b = num b' ∧ has_id (convertEntries evs) a' ∧ has_id (convertEntries evs) b').
  { intros a b (r & c & er & ec & _ & Hr & Hc & _ & _ & <- & <-).
    apply es_event in Hr as (vr & _ & _ & Ir & ?). apply es_event in Hc as (vc & _ & _ & Ic & ?). by exists (v_Id vr), (v_Id vc). }
  assert (Hpre' : ∀ a b, precedes (convertEntries evs) a b → has_id (convertEntries evs) a ∧ has_id (convertEntries evs) b).
  { intros a b (r & c & er & ec & _ & Hr & Hc & _ & _ & <- & <-).
    split; eexists; (split; [|done]); by eapply list_elem_of_lookup_2. }
  split.
  - intros (σ' & Hp & Hl & Hb).
    assert (Hp' : (λ x, num x) <$> elements (dom m) ≡ₚ (Z.of_nat <$> seq 0 (length es / 2))).
    { apply (ops_perm (Z.to_nat id) es Hes).
      - apply NoDup_fmap_2_strong; [|apply NoDup_elements]. intros x y Hx Hy.
        apply num_inj; apply convert_has_id, Hdom; by apply elem_of_elements.
      - intros i. rewrite list_elem_of_fmap. split.
        + intros (x & -> & Hx). apply elem_of_elements, Hdom, convert_has_id, num_some in Hx. lia.
        + intros Hi. destruct (num_onto i) as (x & Hx & <-); [lia|]. exists x. split; [done|].
          by apply elem_of_elements, Hdom, convert_has_id. }
    rewrite <-Hp' in Hp. destruct (Permutation_map_inv _ _ Hp) as (σ & -> & Hσ).
    assert (Hids : ∀ i, i ∈ σ ↔ has_id (convertEntries evs) i).
    { intros i. by rewrite <-Hσ, elem_of_elements, Hdom, convert_has_id. }
    exists σ. split_and!.
    + rewrite <-Hσ. apply NoDup_elements.
    + intros i. by rewrite Hids, convert_has_id.
    + eapply (reid_legal model (convertEntries evs) (λ x, num x) num_inj); [by intros; apply Hids|exact Hl].
    + intros a b Hab. destruct (Hpre' a b Hab) as [Ha Hb'].
      eapply (reid_before (convertEntries evs) (λ x, num x) num_inj); [by intros; apply Hids|done|done|].
      apply Hb. by apply (reid_precedes (convertEntries evs) (λ x, num x) num_inj).
  - intros (σ & Hnd & Hin & Hl & Hb). assert (Hids : ∀ i, i ∈ σ → has_id (convertEntries evs) i).
    { intros i Hi. by apply convert_has_id, Hin. }
    exists ((λ x, num x) <$> σ). split_and!.
    + apply (ops_perm (Z.to_nat id) es Hes).
      * apply NoDup_fmap_2_strong; [|done]. intros x y Hx Hy. apply num_inj; by apply Hids.
      * intros i. rewrite list_elem_of_fmap. split.
        -- intros (x & -> & [_ Hx]%Hids%num_some). lia.
        -- intros Hi. destruct (num_onto i) as (x & Hx & <-); [lia|]. exists x. split; [done|]. by apply Hin, convert_has_id.
    + by apply (reid_legal model (convertEntries evs) (λ x, num x) num_inj).
    + intros a b Hab. destruct (Hpre a b Hab) as (a' & b' & -> & -> & Ha & Hb').
      apply (reid_before (convertEntries evs) (λ x, num x) num_inj); [done..|]. apply Hb.
      by apply (reid_precedes (convertEntries evs) (λ x, num x) num_inj) in Hab.
Qed.
End Renumbered.

(** The model takes the values of the events. *)
Definition events_return (model : FullModel V S) evs : Prop :=
  ∀ s vc vr, vc ∈ evs → vr ∈ evs → v_Kind vc = CallEvent → v_Kind vr = ReturnEvent → v_Id vc = v_Id vr →
    returns (Step model s (v_Value vc) (v_Value vr)).

Lemma events_checkable (model : FullModel V S) evs :
  wf_events evs → events_return model evs →
  checkable model (convertEntries (renumber evs)) ∧
  (linearizable model (convertEntries (renumber evs)) ↔ events_linearizable model evs).
Proof.
  intros Hwf Hst. destruct (renumber_spec evs) as (m & id & Hn & Hdom & ->). split; [split|].
  - exists (Z.to_nat id). by apply es_event_wf.
  - intros s ec er (ec0 & -> & [c (vc & Hc & ->)%convert_lookup]%list_elem_of_lookup)%list_elem_of_fmap
      (er0 & -> & [r (vr & Hr & ->)%convert_lookup]%list_elem_of_lookup)%list_elem_of_fmap Kc Kr Hid. simpl in *.
    apply list_elem_of_lookup_2 in Hc, Hr.
    apply Hst; [done|done|by destruct (v_Kind vc)|by destruct (v_Kind vr)|].
    eapply (num_inj evs m id); try done; apply convert_has_id; eauto.
  - by eapply renumber_linearizable.
Qed.

(** The check of a history of events is right, whatever numbers its
    operations have: when every goroutine has delivered its answer, in
    whatever order, [CheckEvents] returns true exactly when every partition is
    linearizable. *)
Theorem checkEvents_correct (fmtV : V → string) (fmtS : S → string) (model : Model V S) history parts bs order :
  let full := fillDefault fmtV fmtS model in
  sound_equal full → PartitionEvent full history = Ok parts → parts ≠ [] →
  (∀ part, part ∈ parts → wf_events part ∧ events_return full part) →
  Forall2 (answers full false) ((λ sub, convertEntries (renumber sub)) <$> parts) bs → order ≡ₚ bs →
  ∃ b, CheckEvents fmtV fmtS model history (RecvResult <$> order) = Ok (Some b) ∧
    (b = true ↔ Forall (events_linearizable full) parts).
Proof.
  intros full HE Hpart Hne Hok Ha Hp. unfold CheckEvents, checkEvents. fold full. rewrite Hpart. res_simpl.
  assert (Hc : Forall (checkable full) ((λ sub, convertEntries (renumber sub)) <$> parts)).
  { apply Forall_fmap, Forall_forall. intros part Hin. by apply events_checkable; apply (Hok part Hin). }
  assert (Hne' : (λ sub, convertEntries (renumber sub)) <$> parts ≠ []) by (by destruct parts).
  assert (Hiff : Forall (linearizable full) ((λ sub, convertEntries (renumber sub)) <$> parts) ↔ Forall (events_linearizable full) parts).
  { rewrite Forall_fmap, !Forall_forall. unfold compose. split; intros H part Hin; destruct (Hok part Hin) as [H1 H2];
      [by apply (events_checkable full part H1 H2), H|by apply (events_checkable full part H1 H2), H]. }
  destruct (checkParallel_answer full false _ bs order [] HE Hc Ha Hp Hne') as (res & info & -> & H).
  eexists. split; [done|]. rewrite <-Hiff. simpl. rewrite bool_decide_eq_true. naive_solver.
Qed.
End Events.
