(* ===== verification/PorcupineKv.v ===== *)
(** * The key/value model of the checker (src/models/kv.go)

    The tests check the histories of the key/value clients against
    [KvModel], which cuts a history by key and models a single value.  The
    values of a history are of type interface{}: [KvValue] has those the
    tests record; a type assertion on another one panics.

    Theorems: cutting by key is right, a history is linearizable for the store
    of the server ([KVRaft.Store]) exactly when the history of every key is
    linearizable for a single value; so the check answers whether the clients
    saw the key/value store of the server. *)

From stdpp Require Import base list gmap sets strings sorting.
From Stdlib Require Import ZArith Lia.
From S2P Require Import Prelude KVRaft PorcupineBitset Porcupine PorcupineSearch PorcupineHistory PorcupineCheck.

Record KvInput : Type := mkKvInput {
  in_Op : Z; (* 0 get, 1 put, 2 append *)
  in_Key : string;
  in_Value : string;
}.

Record KvOutput : Type := mkKvOutput { out_Value : string }.

Inductive KvValue : Type := VNil | VIn (i : KvInput) | VOut (o : KvOutput).

Global Instance KvValue_inhabited : Inhabited KvValue := populate VNil.

(** The type assertions [x.(KvInput)] and [x.(KvOutput)]. *)
Definition asKvInput (x : KvValue) : Res KvInput := match x with VIn i => Ok i | _ => Panic end.
Definition asKvOutput (x : KvValue) : Res KvOutput := match x with VOut o => Ok o | _ => Panic end.

(** [sort.Strings] *)
Definition sort_Strings (l : list string) : list string := merge_sort String.le l.

Definition KvPartition_group (m : gmap string (list (Operation KvValue))) (v : Operation KvValue)
    : Res (gmap string (list (Operation KvValue))) :=
  i ← asKvInput (o_Input v);
  let key := in_Key i in
  Ok (<[key := default [] (m !! key) ++ [v]]> m).

Definition KvPartition (history : list (Operation KvValue)) : Res (list (list (Operation KvValue))) :=
  m ← foldM KvPartition_group ∅ history;
  let keys := sort_Strings (elements (dom m)) in
  Ok ((λ k, default [] (m !! k)) <$> keys).

Definition KvStep (state : string) (input output : KvValue) : Res (bool * string) :=
  inp ← asKvInput input;
  out ← asKvOutput output;
  if bool_decide (in_Op inp = 0)%Z then Ok (bool_decide (out_Value out = state), state)
  else if bool_decide (in_Op inp = 1)%Z then Ok (true, in_Value inp)
  else Ok (true, state +:+ in_Value inp).

Definition KvDescribeOperation (input output : KvValue) : Res string :=
  inp ← asKvInput input;
  out ← asKvOutput output;
  if bool_decide (in_Op inp = 0)%Z then Ok ("get('" +:+ in_Key inp +:+ "') -> '" +:+ out_Value out +:+ "'")
  else if bool_decide (in_Op inp = 1)%Z then Ok ("put('" +:+ in_Key inp +:+ "', '" +:+ in_Value inp +:+ "')")
  else if bool_decide (in_Op inp = 2)%Z then Ok ("append('" +:+ in_Key inp +:+ "', '" +:+ in_Value inp +:+ "')")
  else Ok "<invalid>".

Definition KvModel : Model KvValue string :=
  mkModel (Some KvPartition) None EmptyString KvStep None (Some KvDescribeOperation) None.

(** ** The store the model stands for *)

(** What a client sees of the store of the server: a get returns the value,
    "" for a key that is not there. *)
Definition storeStep (s : Data) (input output : KvValue) : Res (bool * Data) :=
  inp ← asKvInput input;
  out ← asKvOutput output;
  if bool_decide (in_Op inp = 0)%Z then Ok (bool_decide (out_Value out = (Store.get s (in_Key inp)).1), s)
  else if bool_decide (in_Op inp = 1)%Z then Ok (true, Store.put s (in_Key inp) (in_Value inp))
  else Ok (true, Store.append s (in_Key inp) (in_Value inp)).

Definition StoreModel : Model KvValue Data := mkModel None None Store.init storeStep None None None.

(** The recorded values have the right types. *)
Definition typed (history : list (Operation KvValue)) : Prop :=
  ∀ o, o ∈ history → ∃ i r, o_Input o = VIn i ∧ o_Output o = VOut r.

Definition keyOf (o : Operation KvValue) : string :=
  match o_Input o with VIn i => in_Key i | _ => EmptyString end.

(** The operations on a key. *)
Definition ofKey (k : string) (history : list (Operation KvValue)) : list (Operation KvValue) :=
  filter (λ o, keyOf o = k) history.

(** ** Partition *)

Lemma group_loop history : ∀ m,
  typed history →
  ∃ m', foldM KvPartition_group m history = Ok m' ∧
    (∀ k, default [] (m' !! k) = default [] (m !! k) ++ ofKey k history) ∧
    (∀ k, k ∈ dom m' ↔ k ∈ dom m ∨ ∃ o, o ∈ history ∧ keyOf o = k).
Proof.
  induction history as [|o history IH]; intros m Ht.
  { exists m. split; [done|]. split; [intros k; by rewrite app_nil_r|]. intros k. split; [by left|].
    by intros [?|(o & ?%elem_of_nil & _)]. }
  destruct (Ht o ltac:(left)) as (i & r & Hi & Hr).
  assert (Hg : KvPartition_group m o = Ok (<[in_Key i := default [] (m !! in_Key i) ++ [o]]> m)).
  { unfold KvPartition_group. by rewrite Hi. }
  cbn [foldM]. rewrite Hg. res_simpl. destruct (IH (<[in_Key i := default [] (m !! in_Key i) ++ [o]]> m)) as (m' & Hf & Hl & Hd).
  { intros o' Ho'. apply Ht. by right. }
  assert (Hk : keyOf o = in_Key i) by (unfold keyOf; by rewrite Hi).
  exists m'. split; [exact Hf|]. split; intros k.
  - rewrite Hl. unfold ofKey. rewrite filter_cons. destruct (decide (in_Key i = k)) as [<-|Hne].
    + rewrite lookup_insert_eq, decide_True by done. simpl. by rewrite <-app_assoc.
    + by rewrite lookup_insert_ne, decide_False by congruence.
  - rewrite Hd, dom_insert, elem_of_union, elem_of_singleton. setoid_rewrite elem_of_cons. naive_solver.
Qed.

Lemma KvPartition_spec history :
  typed history →
  ∃ keys, KvPartition history = Ok ((λ k, ofKey k history) <$> keys) ∧ NoDup keys ∧
    ∀ k, k ∈ keys ↔ ∃ o, o ∈ history ∧ keyOf o = k.
Proof.
  intros Ht. destruct (group_loop history ∅ Ht) as (m & Hf & Hl & Hd).
  unfold KvPartition. rewrite Hf. res_simpl. unfold sort_Strings. set (keys := merge_sort _ _).
  assert (Hp : keys ≡ₚ elements (dom m)) by apply merge_sort_Permutation.
  exists keys. split; [|split].
  - f_equal. apply list_fmap_ext. intros _ k _. by rewrite Hl, lookup_empty.
  - rewrite Hp. apply NoDup_elements.
  - intros k. rewrite Hp, elem_of_elements, Hd, dom_empty. set_solver.
Qed.

(** ** Locality *)

Section Locality.
Context (fmtV : KvValue → string) (fmtD : Data → string) (fmtS : string → string).

Abbreviation kvM := (fillDefault fmtV fmtS KvModel).
Abbreviation storeM := (fillDefault fmtV fmtD StoreModel).

Lemma ofKey_cons k o l : ofKey k (o :: l) = if decide (keyOf o = k) then o :: ofKey k l else ofKey k l.
Proof. unfold ofKey. by rewrite filter_cons. Qed.

Lemma elem_of_ofKey k o l : o ∈ ofKey k l ↔ keyOf o = k ∧ o ∈ l.
Proof. unfold ofKey. by rewrite list_elem_of_filter. Qed.

Lemma typed_cons o l : typed (o :: l) → (∃ i r, o_Input o = VIn i ∧ o_Output o = VOut r) ∧ typed l.
Proof. intros H. split; [apply H; left|]. intros o' Ho'. apply H. by right. Qed.

(** A step of the store is a step of the value of its key. *)
Lemma store_step s o :
  (∃ i r, o_Input o = VIn i ∧ o_Output o = VOut r) →
  ∃ b v s', KvStep (Store.get s (keyOf o)).1 (o_Input o) (o_Output o) = Ok (b, v) ∧
    storeStep s (o_Input o) (o_Output o) = Ok (b, s') ∧
    ∀ k, (Store.get s' k).1 = if decide (keyOf o = k) then v else (Store.get s k).1.
Proof.
  intros (i & r & Hi & Hr). unfold KvStep, storeStep, keyOf. rewrite Hi, Hr. res_simpl. cbn [asKvInput asKvOutput mbind Res_bind].
  case_bool_decide; [|case_bool_decide]; eexists _, _, _; (split; [done|]); (split; [done|]); intros k.
  - by destruct (decide (in_Key i = k)) as [->|].
  - unfold Store.get, Store.put. destruct (decide (in_Key i = k)) as [->|]; [by rewrite lookup_insert_eq|by rewrite lookup_insert_ne].
  - unfold Store.get, Store.append.
    destruct (s !! in_Key i) as [v|] eqn:E; (destruct (decide (in_Key i = k)) as [<-|];
      [by rewrite lookup_insert_eq|by rewrite lookup_insert_ne]).
Qed.

Lemma legal_by_key σ : ∀ s,
  typed σ → op_legal storeM s σ ↔ ∀ k, op_legal kvM (Store.get s k).1 (ofKey k σ).
Proof.
  induction σ as [|o σ IH]; intros s Ht; [split; intros; constructor|].
  apply typed_cons in Ht as [Ho Ht]. destruct (store_step s o Ho) as (b & v & s' & Hv & Hs & Hget). split.
  - intros H k. inversion H as [|? s1 ? ? Hst Hl]; subst. simpl in Hst. rewrite Hs in Hst. injection Hst as -> ->.
    rewrite IH in Hl by done. specialize (Hl k). rewrite Hget in Hl. rewrite ofKey_cons.
    destruct (decide (keyOf o = k)) as [<-|]; [by econstructor|done].
  - intros H. pose proof (H (keyOf o)) as Hk. rewrite ofKey_cons, decide_True in Hk by done.
    inversion Hk as [|? v1 ? ? Hst Hl]; subst. simpl in Hst. rewrite Hv in Hst. injection Hst as -> ->.
    econstructor; [exact Hs|]. apply IH; [done|]. intros k. rewrite Hget. specialize (H k). rewrite ofKey_cons in H.
    destruct (decide (keyOf o = k)) as [<-|]; [done|]. done.
Qed.

(** ** Merging the linearizations of the keys *)

Inductive interleaving {A} : list A → list A → list A → Prop :=
| il_nil : interleaving [] [] []
| il_left a l k m : interleaving l k m → interleaving (a :: l) k (a :: m)
| il_right a l k m : interleaving l k m → interleaving l (a :: k) (a :: m).

Lemma interleaving_left {A} (l : list A) : interleaving l [] l.
Proof. induction l; by constructor. Qed.

Lemma interleaving_right {A} (l : list A) : interleaving [] l l.
Proof. induction l; by constructor. Qed.

Lemma interleaving_perm {A} (l k m : list A) : interleaving l k m → m ≡ₚ l ++ k.
Proof.
  induction 1 as [|a l k m _ IH|a l k m _ IH]; [done|by rewrite IH|]. rewrite IH. apply Permutation_middle.
Qed.

Lemma interleaving_filter {A} (P : A → Prop) `{!∀ x, Decision (P x)} (l k m : list A) :
  interleaving l k m → interleaving (filter P l) (filter P k) (filter P m).
Proof. induction 1; [constructor|..]; rewrite !filter_cons; case_decide; by try constructor. Qed.

Lemma interleaving_nil_r {A} (l m : list A) : interleaving l [] m → m = l.
Proof.
  remember [] as k eqn:Hk. induction 1; [done| |done]. f_equal. auto.
Qed.

Lemma interleaving_nil_l {A} (k m : list A) : interleaving [] k m → m = k.
Proof.
  remember [] as l eqn:Hl. induction 1; [done|done|]. f_equal. auto.
Qed.

(** The operation of a non-empty history that returned first. *)
Lemma first_return (l : list (Operation KvValue)) :
  l ≠ [] → ∃ x, x ∈ l ∧ ∀ z, z ∈ l → (o_Return x ≤ o_Return z)%Z.
Proof.
  induction l as [|a l IH]; intros Hne; [done|]. destruct l as [|b l].
  { exists a. split; [left|]. by intros z ->%list_elem_of_singleton. }
  destruct IH as (x & Hx & Hmin); [done|]. destruct (decide (o_Return a ≤ o_Return x)%Z).
  - exists a. split; [left|]. intros z [->|Hz]%elem_of_cons; [done|]. specialize (Hmin z Hz). lia.
  - exists x. split; [by right|]. intros z [->|Hz]%elem_of_cons; [lia|by apply Hmin].
Qed.

Lemma head_first (y x : Operation KvValue) l :
  real_time (y :: l) → timed (y :: l) → x ∈ y :: l → (o_Call y ≤ o_Return x)%Z.
Proof.
  intros Hr Ht [->|Hx]%elem_of_cons; [apply Ht; left|].
  apply StronglySorted_cons in Hr as [Hf _]. rewrite Forall_forall in Hf. by apply Hf.
Qed.

Lemma timed_tail (y : Operation KvValue) l : timed (y :: l) → timed l.
Proof. intros H o Ho. apply H. by right. Qed.

(** One of the two next operations can go first: that of the list which has
    the operation that returned first. *)
Lemma merge_real_time n : ∀ l k : list (Operation KvValue),
  length l + length k ≤ n → real_time l → real_time k → timed l → timed k →
  ∃ m, interleaving l k m ∧ real_time m.
Proof.
  induction n as [|n IH]; intros l k Hn Rl Rk Tl Tk.
  { destruct l, k; simpl in Hn; try lia. exists []. split; constructor. }
  destruct l as [|a l]; [exists k; split; [apply interleaving_right|done]|].
  destruct k as [|b k]; [exists (a :: l); split; [apply interleaving_left|done]|].
  destruct (first_return ((a :: l) ++ b :: k)) as (x & Hx & Hmin); [done|]. simpl in Hn.
  apply elem_of_app in Hx as [Hx|Hx].
  - pose proof (head_first a x l Rl Tl Hx) as Ha. apply StronglySorted_cons in Rl as [Fl Rl].
    destruct (IH l (b :: k)) as (m & Hm & Rm); [simpl; lia|done|done|by eapply timed_tail|done|].
    exists (a :: m). split; [by constructor|]. apply StronglySorted_cons. split; [|done].
    apply Forall_forall. intros z Hz. rewrite (interleaving_perm _ _ _ Hm) in Hz. specialize (Hmin z ltac:(set_solver)). lia.
  - pose proof (head_first b x k Rk Tk Hx) as Hb. apply StronglySorted_cons in Rk as [Fk Rk].
    destruct (IH (a :: l) k) as (m & Hm & Rm); [simpl; lia|done|done|done|by eapply timed_tail|].
    exists (b :: m). split; [by constructor|]. apply StronglySorted_cons. split; [|done].
    apply Forall_forall. intros z Hz. rewrite (interleaving_perm _ _ _ Hm) in Hz. specialize (Hmin z ltac:(set_solver)). lia.
Qed.

Lemma ofKey_none k l : (∀ o, o ∈ l → keyOf o ≠ k) → ofKey k l = [].
Proof. intros H. by apply list_filter_none. Qed.

Lemma ofKey_all k l : (∀ o, o ∈ l → keyOf o = k) → ofKey k l = l.
Proof. intros H. by apply list_filter_all. Qed.

Lemma elem_of_parts o keys ops :
  o ∈ concat ((λ k, ofKey k ops) <$> keys) → keyOf o ∈ keys ∧ o ∈ ops.
Proof.
  intros (l & Hl & Ho)%list_elem_of_In%in_concat. apply list_elem_of_In, list_elem_of_fmap in Hl as (k & -> & Hk).
  by apply list_elem_of_In, elem_of_ofKey in Ho as [<- Ho].
Qed.

Lemma merge_keys ops keys :
  NoDup keys → timed ops → (∀ k, k ∈ keys → history_linearizable kvM (ofKey k ops)) →
  ∃ σ, real_time σ ∧ σ ≡ₚ concat ((λ k, ofKey k ops) <$> keys) ∧ ∀ k, k ∈ keys → op_legal kvM EmptyString (ofKey k σ).
Proof.
  intros Hnd Ht. induction keys as [|k keys IH]; intros Hlin.
  { exists []. split; [constructor|]. split; [done|]. by intros k ?%elem_of_nil. }
  apply NoDup_cons in Hnd as [Hk Hnd].
  destruct IH as (σ & Rσ & Pσ & Lσ); [done|intros; apply Hlin; by right|].
  destruct (Hlin k ltac:(left)) as (τ & Pτ & Lτ & Rτ).
  assert (Hτ : ∀ o, o ∈ τ → keyOf o = k ∧ o ∈ ops) by (intros o Ho; rewrite Pτ in Ho; by apply elem_of_ofKey).
  assert (Hσ : ∀ o, o ∈ σ → keyOf o ∈ keys ∧ o ∈ ops) by (intros o Ho; rewrite Pσ in Ho; by apply elem_of_parts).
  destruct (merge_real_time (length τ + length σ) τ σ) as (m & Hm & Rm);
    [done|done|done|intros o Ho; apply Ht, Hτ, Ho|intros o Ho; apply Ht, Hσ, Ho|].
  exists m. split; [done|]. split; [by rewrite (interleaving_perm _ _ _ Hm), Pτ, Pσ|].
  intros k' Hk'. pose proof (interleaving_filter (λ o, keyOf o = k') _ _ _ Hm) as Hf.
  apply elem_of_cons in Hk' as [->|Hk'].
  - fold (ofKey k τ) (ofKey k σ) (ofKey k m) in Hf. rewrite (ofKey_none k σ), (ofKey_all k τ) in Hf.
    + by apply interleaving_nil_r in Hf as ->.
    + intros o Ho. by apply Hτ.
    + intros o Ho Heq. apply Hk. rewrite <-Heq. by apply Hσ.
  - fold (ofKey k' τ) (ofKey k' σ) (ofKey k' m) in Hf. rewrite (ofKey_none k' τ) in Hf.
    + apply interleaving_nil_l in Hf as ->. by apply Lσ.
    + intros o [Ho _]%Hτ Heq. apply Hk. by rewrite <-Ho, Heq.
Qed.

(** Every operation is in the part of its key. *)
Lemma parts_perm keys : ∀ ops,
  NoDup keys → (∀ o, o ∈ ops → keyOf o ∈ keys) → concat ((λ k, ofKey k ops) <$> keys) ≡ₚ ops.
Proof.
  induction keys as [|k keys IH]; intros ops Hnd Hops.
  { destruct ops as [|o ops]; [done|]. by specialize (Hops o ltac:(left)) as ?%elem_of_nil. }
  apply NoDup_cons in Hnd as [Hk Hnd]. rewrite fmap_cons. cbn [concat]. set (rest := filter (λ o, keyOf o ≠ k) ops).
  assert (Hrest : (λ k', ofKey k' ops) <$> keys = (λ k', ofKey k' rest) <$> keys).
  { apply list_fmap_ext. intros i k' Hi. apply list_elem_of_lookup_2 in Hi. unfold ofKey, rest.
    rewrite list_filter_filter. apply filter_ext_in. intros o Ho.
    assert (k' ≠ k) by congruence. split; [|tauto]. intros Heq. split; congruence. }
  rewrite Hrest, IH; [|done|].
  - apply filter_app_complement.
  - intros o [Hne Ho]%list_elem_of_filter. specialize (Hops o Ho). apply elem_of_cons in Hops as [Heq|]; [by destruct Hne|done].
Qed.

Lemma real_time_filter (P : Operation KvValue → Prop) `{!∀ o, Decision (P o)} σ : real_time σ → real_time (filter P σ).
Proof.
  unfold real_time. induction σ as [|o σ IH]; intros Hs; [constructor|]. apply StronglySorted_cons in Hs as [Hf Hs].
  rewrite filter_cons. case_decide; [|by apply IH]. apply StronglySorted_cons. split; [|by apply IH].
  rewrite Forall_forall in Hf |- *. intros o' [_ Ho']%list_elem_of_filter. by apply Hf.
Qed.

Lemma locality keys ops :
  typed ops → timed ops → NoDup keys → (∀ k, k ∈ keys ↔ ∃ o, o ∈ ops ∧ keyOf o = k) →
  history_linearizable storeM ops ↔ Forall (history_linearizable kvM) ((λ k, ofKey k ops) <$> keys).
Proof.
  intros Hty Ht Hnd Hkeys. rewrite Forall_fmap, Forall_forall. unfold compose. split.
  - intros (σ & Hp & Hl & Hr) k Hk. exists (ofKey k σ). split_and!.
    + unfold ofKey. by rewrite Hp.
    + rewrite legal_by_key in Hl by (intros o Ho; apply Hty; by rewrite <-Hp). apply (Hl k).
    + by apply real_time_filter.
  - intros Hall. destruct (merge_keys ops keys Hnd Ht Hall) as (σ & Hr & Hp & Hl).
    rewrite (parts_perm keys ops Hnd) in Hp by (intros o Ho; apply Hkeys; by exists o).
    exists σ. split_and!; [done| |done]. apply legal_by_key; [intros o Ho; apply Hty; by rewrite <-Hp|].
    intros k. destruct (decide (k ∈ keys)) as [Hk|Hk]; [by apply Hl|]. rewrite ofKey_none; [constructor|].
    intros o Ho <-. apply Hk, Hkeys. exists o. by rewrite <-Hp.
Qed.

Lemma kv_sound_equal : sound_equal kvM.
Proof. intros s t H. by apply bool_decide_eq_true in H. Qed.

Lemma kv_parts_ok history keys :
  typed history → timed history → parts_ok kvM ((λ k, ofKey k history) <$> keys).
Proof.
  intros Hty Ht part (k & -> & _)%list_elem_of_fmap. split.
  - intros o [_ Ho]%elem_of_ofKey. by apply Ht.
  - intros o s [_ Ho]%elem_of_ofKey. destruct (Hty o Ho) as (i & r & Hi & Hr).
    destruct (store_step (<[keyOf o := s]> ∅) o) as (b & v & _ & Hv & _); [by exists i, r|].
    unfold Store.get in Hv. rewrite lookup_insert_eq in Hv. by exists (b, v).
Qed.

(** The check, from the partition to the result. *)
Lemma kv_check_answers sortf history :
  sort_contract sortf → typed history → timed history →
  ∃ parts bs, Partition kvM history = Ok parts ∧ Forall2 (answers kvM true) (makeEntries sortf <$> parts) bs ∧
  ∀ order longest, order ≡ₚ bs →
    let check evs := CheckOperationsVerbose fmtV fmtS sortf KvModel history evs longest in
    (history = [] → check (RecvResult <$> order) = Ok None) ∧
    (history ≠ [] →
      (∃ res info, check (RecvResult <$> order) = Ok (Some (res, info)) ∧
        (res = ResOk ∧ history_linearizable storeM history ∨
         res = ResIllegal ∧ ¬ history_linearizable storeM history)) ∧
      (∀ k rest, ∃ res info, check ((RecvResult <$> take k order) ++ RecvTimeout :: rest) = Ok (Some (res, info)) ∧
        (res = ResOk → history_linearizable storeM history) ∧
        (res = ResIllegal → ¬ history_linearizable storeM history))).
Proof.
  intros Hs Hty Ht. destruct (KvPartition_spec history Hty) as (keys & Hp & Hnd & Hk).
  pose proof (kv_parts_ok history keys Hty Ht) as Hok.
  destruct (answers_exist kvM true _ kv_sound_equal (parts_checkable sortf kvM _ Hs Hok)) as (bs & Hbs).
  pose proof (locality keys history Hty Ht Hnd Hk) as Hloc.
  eexists _, bs. split; [exact Hp|]. split; [exact Hbs|]. intros order longest Hord check. split.
  - intros ->. assert (keys = []) as ->.
    { destruct keys as [|k keys]; [done|]. destruct (proj1 (Hk k) ltac:(left)) as (o & ?%elem_of_nil & _). done. }
    apply Forall2_nil_inv_l in Hbs as ->. apply Permutation_nil_r in Hord as ->. done.
  - intros Hne. assert (Hparts : (λ k, ofKey k history) <$> keys ≠ []).
    { destruct keys as [|k keys]; [|done]. destruct history as [|o history]; [done|].
      assert (Hin : keyOf o ∈ []) by (apply Hk; exists o; split; [left|done]). by apply elem_of_nil in Hin. }
    pose proof (λ j rest, checkOperations_answers fmtV fmtS sortf KvModel history _ true bs order j rest longest
      Hs kv_sound_equal Hp Hparts Hok Hbs Hord) as Hall. split.
    + destruct (Hall 0 []) as [(res & info & Hres & H) _]. exists res, info. split; [exact Hres|]. rewrite Hloc. exact H.
    + intros j rest. destruct (Hall j rest) as [_ (res & info & Hres & H)]. exists res, info. split; [exact Hres|].
      rewrite Hloc. exact H.
Qed.

(** ** Properties *)

(** Cutting by key is right (what the comment on [Partition] in model.go
    asks for): whatever keys a history uses, it is linearizable for the store
    of the server exactly when every part of the partition is linearizable
    for a single value. *)
Theorem kv_partition_local history :
  typed history → timed history →
  ∃ parts, Partition kvM history = Ok parts ∧
    (history_linearizable storeM history ↔ Forall (history_linearizable kvM) parts).
Proof.
  intros Hty Ht. destruct (KvPartition_spec history Hty) as (keys & Hp & Hnd & Hk).
  eexists. split; [exact Hp|]. by apply locality.
Qed.

(** C17: the check the tests run is right.  Every goroutine ends with an
    answer; when all have been delivered, in any order, the result is Ok if
    the history is linearizable for the store of the server and Illegal if it
    is not; when the timer fires before that, Ok and Illegal are still right.
    For an empty history there is no goroutine to wait for: the check waits
    until the timer fires. *)
Theorem kv_check_correct sortf history :
  sort_contract sortf → typed history → timed history →
  ∃ parts bs, Partition kvM history = Ok parts ∧ Forall2 (answers kvM true) (makeEntries sortf <$> parts) bs ∧
  ∀ order longest, order ≡ₚ bs →
    let check evs := CheckOperationsVerbose fmtV fmtS sortf KvModel history evs longest in
    (history = [] → check (RecvResult <$> order) = Ok None) ∧
    (history ≠ [] →
      (∃ res info, check (RecvResult <$> order) = Ok (Some (res, info)) ∧
        (res = ResOk ∧ history_linearizable storeM history ∨
         res = ResIllegal ∧ ¬ history_linearizable storeM history)) ∧
      (∀ k rest, ∃ res info, check ((RecvResult <$> take k order) ++ RecvTimeout :: rest) = Ok (Some (res, info)) ∧
        (res = ResOk → history_linearizable storeM history) ∧
        (res = ResIllegal → ¬ history_linearizable storeM history))).
Proof. apply kv_check_answers. Qed.
End Locality.
