(* ===== verification/PorcupineVisual.v ===== *)
(** * The data of the visualization (src/porcupine/visualization.go)

    [computeVisualizationData] turns what a verbose check reports into what
    the HTML page shows.  It runs the model again over every reported
    sequence and panics when the model does not accept a step.  [sort.Slice]
    is not stable: it is an argument [sortp], any function that returns a
    permutation.  The page itself and writing it to a file are not modelled.

    Theorem: on what the checker reports it never panics, and what it returns
    describes the history. *)

From stdpp Require Import base list gmap sets strings sorting.
From Stdlib Require Import ZArith Lia.
From S2P Require Import Prelude PorcupineBitset Porcupine PorcupineSearch PorcupineHistory PorcupineCheck.

Record historyElement : Type := mkHistoryElement {
  he_ClientId : Z;
  he_Start : Z;
  he_End : Z;
  he_Description : string;
}.

Definition zeroElement : historyElement := mkHistoryElement 0 0 0 EmptyString.

Record linearizationStep : Type := mkLinearizationStep {
  ls_Index : Z;
  ls_StateDescription : string;
}.

Abbreviation partialLinearization := (list linearizationStep).

Record partitionVisualizationData : Type := mkPartitionData {
  pd_History : list historyElement;
  pd_PartialLinearizations : list partialLinearization;
  pd_Largest : gmap Z Z;
}.

Section Visual.
Context {V S : Type} `{!Inhabited V, !EqDecision S}.
Context (fmtV : V → string) (fmtS : S → string).
Context (sortp : list (list Z) → list (list Z)).

(** The switch on the kind of an entry. *)
Definition viz_entry (model : FullModel V S) (acc : list historyElement * gmap Z V * gmap Z V) (elem : entry V)
    : Res (list historyElement * gmap Z V * gmap Z V) :=
  let '(history, callValue, returnValue) := acc in
  match e_kind elem with
  | callEntry =>
      h ← idx history (e_id elem);
      history ← upd history (e_id elem) (mkHistoryElement (e_clientId elem) (e_time elem) (he_End h) (he_Description h));
      Ok (history, <[e_id elem := e_value elem]> callValue, returnValue)
  | returnEntry =>
      h ← idx history (e_id elem);
      d ← DescribeOperation model (default inhabitant (callValue !! e_id elem)) (e_value elem);
      history ← upd history (e_id elem) (mkHistoryElement (he_ClientId h) (he_Start h) (e_time elem) d);
      Ok (history, callValue, <[e_id elem := e_value elem]> returnValue)
  end.

(** The body of the loop over a partial linearization, the [i]-th, of [size]
    operations. *)
Definition viz_step (model : FullModel V S) (callValue returnValue : gmap Z V) (i size : Z)
    (acc : S * partialLinearization * gmap Z Z * gmap Z Z) (histId : Z)
    : Res (S * partialLinearization * gmap Z Z * gmap Z Z) :=
  let '(state, linearization, largestIndex, largestSize) := acc in
  '(ok, state) ← Step model state (default inhabitant (callValue !! histId)) (default inhabitant (returnValue !! histId));
  if negb ok then Panic
  else
    let stateDesc := DescribeState model state in
    let linearization := linearization ++ [mkLinearizationStep histId stateDesc] in
    if bool_decide (default 0 (largestSize !! histId) < size)%Z then
      Ok (state, linearization, <[histId := i]> largestIndex, <[histId := size]> largestSize)
    else Ok (state, linearization, largestIndex, largestSize).

(** The loop over the partial linearizations, from the [i]-th. *)
Fixpoint viz_partials (model : FullModel V S) (callValue returnValue : gmap Z V) (partials : list (list Z)) (i : Z)
    (largestIndex largestSize : gmap Z Z) : Res (list partialLinearization * gmap Z Z) :=
  match partials with
  | [] => Ok ([], largestIndex)
  | partial :: partials =>
      '(_, linearization, largestIndex, largestSize) ←
        foldM (viz_step model callValue returnValue i (zlen partial)) (Init model, [], largestIndex, largestSize) partial;
      '(linearizations, largestIndex) ← viz_partials model callValue returnValue partials (i + 1) largestIndex largestSize;
      Ok (linearization :: linearizations, largestIndex)
  end.

Definition viz_partition (model : FullModel V S) (entries : list (entry V)) (partials : list (list Z))
    : Res partitionVisualizationData :=
  let n := (zlen entries / 2)%Z in
  '(history, callValue, returnValue) ← foldM (viz_entry model) (replicate (Z.to_nat n) zeroElement, ∅, ∅) entries;
  '(linearizations, largestIndex) ← viz_partials model callValue returnValue (sortp partials) 0 ∅ ∅;
  Ok (mkPartitionData history linearizations largestIndex).

Fixpoint viz_loop (model : FullModel V S) (history : list (list (entry V))) (partition : Z)
    (partialLinearizations : list (list (list Z))) : Res (list partitionVisualizationData) :=
  match history with
  | [] => Ok []
  | entries :: history =>
      partials ← idx partialLinearizations partition;
      d ← viz_partition model entries partials;
      data ← viz_loop model history (partition + 1) partialLinearizations;
      Ok (d :: data)
  end.

Definition computeVisualizationData (model : Model V S) (info : linearizationInfo) : Res (list partitionVisualizationData) :=
  let model := fillDefault fmtV fmtS model in
  viz_loop model (i_history info) 0 (i_partialLinearizations info).

(** ** The history of a partition *)

Section Partition.
Context (model : FullModel V S) (n : nat) (es : list (entry V)) (Hwf : wf_entries n es).
Context (Hdesc : ∀ ec er, ec ∈ es → er ∈ es → e_kind ec = callEntry → e_kind er = returnEntry → e_id ec = e_id er →
  returns (DescribeOperation model (e_value ec) (e_value er))).

(** The element of the history for the call [ec], and for its return [er]. *)
Definition shows_call (ec : entry V) (h : historyElement) : Prop :=
  he_ClientId h = e_clientId ec ∧ he_Start h = e_time ec.
Definition shows_return (er : entry V) (h : historyElement) : Prop :=
  he_End h = e_time er ∧ ∀ ec, ec ∈ es → e_kind ec = callEntry → e_id ec = e_id er →
    DescribeOperation model (e_value ec) (e_value er) = Ok (he_Description h).

Definition elem_shown (hs : list historyElement) (e : entry V) (P : historyElement → Prop) : Prop :=
  ∃ h, hs !! Z.to_nat (e_id e) = Some h ∧ P h.

(** After the entries of [pre]. *)
Record viz_inv (pre : list (entry V)) (acc : list historyElement * gmap Z V * gmap Z V) : Prop := {
  vi_len : length acc.1.1 = n;
  vi_call : ∀ e, e ∈ pre → e_kind e = callEntry → acc.1.2 !! e_id e = Some (e_value e) ∧ elem_shown acc.1.1 e (shows_call e);
  vi_return : ∀ e, e ∈ pre → e_kind e = returnEntry → acc.2 !! e_id e = Some (e_value e) ∧ elem_shown acc.1.1 e (shows_return e);
}.

(** Two entries of one kind for one operation are one entry. *)
Lemma same_entry e1 e2 : e1 ∈ es → e2 ∈ es → e_kind e1 = e_kind e2 → e_id e1 = e_id e2 → e1 = e2.
Proof.
  intros [k1 H1]%list_elem_of_lookup [k2 H2]%list_elem_of_lookup Hk Hi.
  pose proof (we_unique _ _ Hwf _ _ _ _ H1 H2 Hk Hi) as ->. congruence.
Qed.

Lemma elem_shown_insert hs (e e' : entry V) h' (P : historyElement → Prop) :
  (0 ≤ e_id e)%Z → (0 ≤ e_id e' < zlen hs)%Z → elem_shown hs e P →
  (e_id e = e_id e' → ∀ h, hs !! Z.to_nat (e_id e) = Some h → P h → P h') →
  elem_shown (<[Z.to_nat (e_id e') := h']> hs) e P.
Proof.
  intros H0 Hr (h & Hh & HP) Hsame. unfold elem_shown. destruct (decide (e_id e = e_id e')) as [Heq|Hne].
  - exists h'. rewrite Heq, list_lookup_insert_eq by (unfold zlen in Hr; lia). split; [done|]. by apply (Hsame Heq h).
  - exists h. rewrite list_lookup_insert_ne by lia. done.
Qed.

Lemma viz_entry_step pre e post acc :
  es = pre ++ e :: post → viz_inv pre acc → ∃ acc', viz_entry model acc e = Ok acc' ∧ viz_inv (pre ++ [e]) acc'.
Proof.
  destruct acc as [[hs cv] rv]. intros Hes [Hlen Hcall Hret]. simpl in *.
  assert (Hsub : ∀ x, x ∈ pre → x ∈ es) by (intros; rewrite Hes; set_solver).
  assert (He : e ∈ es) by (rewrite Hes; set_solver).
  assert (Hlook : es !! length pre = Some e) by (rewrite Hes; by apply list_lookup_middle).
  pose proof (we_ids _ _ Hwf) as Hid. pose proof (Hid e He) as Hr.
  destruct (idx_returns hs (e_id e)) as (h & Hh & Hhl); [unfold zlen; lia|].
  assert (Hlen' : (0 ≤ e_id e < zlen hs)%Z) by (unfold zlen; lia). pose proof (zlen_insert hs) as Hzi.
  destruct (e_kind e) eqn:Ke.
  - rewrite Hh. res_simpl. rewrite upd_in by done. res_simpl. eexists. split; [done|]. split; simpl.
    + by rewrite length_insert.
    + intros x [Hx|Hx]%elem_of_app Kx.
      * destruct (Hcall x Hx Kx) as [Hcv Hsh]. assert (e_id e = e_id x → e = x) as Heq by (intros; apply same_entry; auto; congruence).
        split; [destruct (decide (e_id e = e_id x)) as [Hi|]; [rewrite (Heq Hi); apply lookup_insert_eq|by rewrite lookup_insert_ne]|].
        apply elem_shown_insert; [apply Hid; auto|done|done|]. intros Hi ? _ _. by rewrite (Heq ltac:(done)).
      * apply list_elem_of_singleton in Hx as ->. rewrite lookup_insert_eq. split; [done|].
        eexists. rewrite list_lookup_insert_eq by lia. done.
    + intros x [Hx|Hx]%elem_of_app Kx; [|apply list_elem_of_singleton in Hx as ->; congruence].
      destruct (Hret x Hx Kx) as [Hrv Hsh]. split; [done|]. apply elem_shown_insert; [apply Hid; auto|done|done|].
      intros Hi h0 Hh0 Hs. rewrite Hi, Hhl in Hh0. by injection Hh0 as <-.
  - destruct (we_op _ _ Hwf (e_id e) Hr) as (c & r & ec & er & Hlt & Hc & Hre & Kc & Kr & Ic & Ir).
    assert (r = length pre) as -> by (eapply (we_unique _ _ Hwf); [done|done|congruence..]).
    assert (Hec : ec ∈ pre).
    { rewrite Hes, lookup_app_l in Hc by done. by eapply list_elem_of_lookup_2. }
    destruct (Hcall ec Hec Kc) as [Hcv _]. rewrite Ic in Hcv.
    destruct (Hdesc ec e) as [d Hd]; auto. rewrite Hh. res_simpl. rewrite Hcv. simpl. rewrite Hd. simpl. rewrite upd_in by done. simpl.
    eexists. split; [done|]. split; simpl.
    + by rewrite length_insert.
    + intros x [Hx|Hx]%elem_of_app Kx; [|apply list_elem_of_singleton in Hx as ->; congruence].
      destruct (Hcall x Hx Kx) as [Hxv Hsh]. split; [done|]. apply elem_shown_insert; [apply Hid; auto|done|done|].
      intros Hi h0 Hh0 Hs. rewrite Hi, Hhl in Hh0. by injection Hh0 as <-.
    + assert (Hshow : shows_return e (mkHistoryElement (he_ClientId h) (he_Start h) (e_time e) d)).
      { split; [done|]. intros ec' Hec' Kc' Hi'. rewrite (same_entry ec' ec); auto; congruence. }
      intros x [Hx|Hx]%elem_of_app Kx.
      * destruct (Hret x Hx Kx) as [Hxv Hsh]. assert (e_id e = e_id x → e = x) as Heq by (intros; apply same_entry; auto; congruence).
        split; [destruct (decide (e_id e = e_id x)) as [Hi|]; [rewrite (Heq Hi); apply lookup_insert_eq|by rewrite lookup_insert_ne]|].
        apply elem_shown_insert; [apply Hid; auto|done|done|]. intros Hi ? _ _. by rewrite <-(Heq ltac:(done)).
      * apply list_elem_of_singleton in Hx as ->. rewrite lookup_insert_eq. split; [done|].
        eexists. rewrite list_lookup_insert_eq by lia. done.
Qed.

Lemma viz_entries : ∃ acc, foldM (viz_entry model) (replicate n zeroElement, ∅, ∅) es = Ok acc ∧ viz_inv es acc.
Proof.
  assert (Hgen : ∀ post pre acc, es = pre ++ post → viz_inv pre acc →
    ∃ acc', foldM (viz_entry model) acc post = Ok acc' ∧ viz_inv es acc').
  { induction post as [|e post IH]; intros pre acc Hes Hi.
    - rewrite app_nil_r in Hes. subst pre. by exists acc.
    - destruct (viz_entry_step pre e post acc Hes Hi) as (acc1 & H1 & Hi1). cbn [foldM]. rewrite H1. res_simpl.
      apply (IH (pre ++ [e])); [by rewrite <-app_assoc|done]. }
  apply (Hgen es []); [done|]. split; simpl; [apply length_replicate|by intros e ?%elem_of_nil..].
Qed.

(** ** The partial linearizations of a partition *)

(** The operations of a sequence that is shown. *)
Definition stepIds (l : partialLinearization) : list Z := ls_Index <$> l.

(** The index of a longest sequence with an operation, and its length. *)
Definition largest_ok (ps : list (list Z)) (li ls : gmap Z Z) : Prop :=
  ∀ h, match ls !! h with
       | None => li !! h = None ∧ ∀ p, p ∈ ps → h ∉ p
       | Some z => ∃ j p, li !! h = Some (Z.of_nat j) ∧ ps !! j = Some p ∧ h ∈ p ∧ z = zlen p ∧
           ∀ p', p' ∈ ps → h ∈ p' → (zlen p' ≤ z)%Z
       end.

Lemma viz_steps acc i size σ : ∀ s lin li ls,
  viz_inv es acc → legal model es s σ →
  ∃ s' steps li' ls', foldM (viz_step model acc.1.2 acc.2 i size) (s, lin, li, ls) σ = Ok (s', lin ++ steps, li', ls') ∧
    stepIds steps = σ ∧
    ∀ h, (li' !! h, ls' !! h) =
      if decide (h ∈ σ ∧ (default 0 (ls !! h) < size)%Z) then (Some i, Some size) else (li !! h, ls !! h).
Proof.
  induction σ as [|a σ IH]; intros s lin li ls Hi Hl.
  { exists s, [], li, ls. split; [by rewrite app_nil_r|]. split; [done|]. intros h.
    rewrite decide_False; [done|]. by intros [?%elem_of_nil _]. }
  inversion Hl as [|? s' ec er ? Hec Her Kc Kr Hid Hst Hl']; subst.
  destruct (vi_call _ _ Hi ec Hec Kc) as [Hcv _]. destruct (vi_return _ _ Hi er Her Kr) as [Hrv _].
  assert (Hstep : ∃ li1 ls1, viz_step model acc.1.2 acc.2 i size (s, lin, li, ls) (e_id ec) =
      Ok (s', lin ++ [mkLinearizationStep (e_id ec) (DescribeState model s')], li1, ls1) ∧
      ∀ h, (li1 !! h, ls1 !! h) =
        if decide (h = e_id ec ∧ (default 0 (ls !! h) < size)%Z) then (Some i, Some size) else (li !! h, ls !! h)).
  { unfold viz_step. rewrite Hcv, Hid, Hrv. cbn [default from_option id]. unfold id. rewrite Hst. res_simpl. cbn [negb].
    case_bool_decide as Hlt; eexists _, _; (split; [done|]); intros h; (destruct (decide (h = e_id er)) as [->|Hne]).
    - by rewrite !lookup_insert_eq, decide_True.
    - rewrite !lookup_insert_ne, decide_False by (done || tauto). done.
    - rewrite decide_False by tauto. done.
    - rewrite decide_False by tauto. done. }
  destruct Hstep as (li1 & ls1 & Hs1 & Hl1). cbn [foldM]. rewrite Hs1. res_simpl.
  destruct (IH s' (lin ++ [mkLinearizationStep (e_id ec) (DescribeState model s')]) li1 ls1 Hi Hl')
    as (s2 & steps & li2 & ls2 & Hf & Hix & Hl2).
  exists s2, (mkLinearizationStep (e_id ec) (DescribeState model s') :: steps), li2, ls2.
  split; [rewrite Hf, <-app_assoc; done|]. split; [unfold stepIds in *; by rewrite fmap_cons, Hix|]. intros h. rewrite Hl2.
  specialize (Hl1 h). destruct (decide (h = e_id ec ∧ _)) as [[-> Hlt]|Hno]; injection Hl1 as Hli Hls; rewrite Hli, Hls.
  - rewrite (decide_True (P := e_id ec ∈ e_id ec :: σ ∧ _)) by (split; [left|done]).
    rewrite decide_False; [done|]. intros [_ Hx]. simpl in Hx. lia.
  - destruct (decide (h ∈ σ ∧ _)) as [[Hin Hlt]|Hno2].
    + rewrite decide_True; [done|]. split; [by right|done].
    + rewrite decide_False; [done|]. rewrite elem_of_cons. tauto.
Qed.

Lemma largest_step ps p li ls li' ls' :
  largest_ok ps li ls →
  (∀ h, (li' !! h, ls' !! h) =
     if decide (h ∈ p ∧ (default 0 (ls !! h) < zlen p)%Z) then (Some (zlen ps), Some (zlen p)) else (li !! h, ls !! h)) →
  largest_ok (ps ++ [p]) li' ls'.
Proof.
  intros Hok Hst h. specialize (Hok h). specialize (Hst h).
  assert (Hin : ∀ p', p' ∈ ps ++ [p] ↔ p' ∈ ps ∨ p' = p) by (intros; rewrite elem_of_app, list_elem_of_singleton; done).
  destruct (decide _) as [[Hh Hlt]|Hno]; injection Hst as Hli Hls; rewrite Hli, Hls.
  - exists (length ps), p. split_and!; [done|by apply list_lookup_middle|done|done|].
    intros p' [Hp'| ->]%Hin Hh'; [|lia]. destruct (ls !! h) as [z|]; simpl in Hlt.
    + destruct Hok as (_ & _ & _ & _ & _ & _ & Hmax). specialize (Hmax p' Hp' Hh'). lia.
    + by destruct Hok as [_ Hn]; apply (Hn p' Hp') in Hh'.
  - destruct (ls !! h) as [z|] eqn:Ez; simpl in Hno.
    + destruct Hok as (j & q & H1 & H2 & H3 & H4 & H5). exists j, q. split_and!; try done; [by apply lookup_app_l_Some|].
      intros p' [Hp'| ->]%Hin Hh'; [by apply H5|]. destruct (decide (zlen p ≤ z)%Z); [done|]. exfalso. apply Hno. split; [done|lia].
    + destruct Hok as [H1 H2]. split; [done|]. intros p' [Hp'| ->]%Hin; [by apply H2|]. intros Hh. apply Hno. split; [done|].
      destruct p; [by apply elem_of_nil in Hh|]. rewrite zlen_cons. pose proof (zlen_nonneg p). lia.
Qed.

Lemma viz_partials_run acc todo : ∀ ps li ls,
  viz_inv es acc → Forall (legal model es (Init model)) todo → largest_ok ps li ls →
  ∃ lins li' ls', viz_partials model acc.1.2 acc.2 todo (zlen ps) li ls = Ok (lins, li') ∧
    stepIds <$> lins = todo ∧ largest_ok (ps ++ todo) li' ls'.
Proof.
  induction todo as [|p todo IH]; intros ps li ls Hi Hall Hok.
  { exists [], li, ls. rewrite app_nil_r. done. }
  apply Forall_cons in Hall as [Hp Hall].
  destruct (viz_steps acc (zlen ps) (zlen p) p (Init model) [] li ls Hi Hp) as (s' & steps & li1 & ls1 & Hf & Hix & Hl).
  pose proof (largest_step ps p li ls li1 ls1 Hok Hl) as Hok1.
  destruct (IH (ps ++ [p]) li1 ls1 Hi Hall Hok1) as (lins & li2 & ls2 & Hr & Hm & Hok2).
  cbn [viz_partials]. rewrite Hf. res_simpl. rewrite zlen_app in Hr. change (zlen [p]) with 1%Z in Hr. rewrite Hr. res_simpl.
  eexists _, _, _. split; [done|]. rewrite fmap_cons, Hm. split; [by rewrite <-Hix|]. by rewrite <-app_assoc in Hok2.
Qed.

(** What is shown of a partition: every operation with its client, its times
    and its description; the reported sequences, sorted; and for every
    operation in one of them, a longest one that has it. *)
Record shown (partials : list (list Z)) (d : partitionVisualizationData) : Prop := {
  sh_len : length (pd_History d) = n;
  sh_call : ∀ e, e ∈ es → e_kind e = callEntry → elem_shown (pd_History d) e (shows_call e);
  sh_return : ∀ e, e ∈ es → e_kind e = returnEntry → elem_shown (pd_History d) e (shows_return e);
  sh_partials : stepIds <$> pd_PartialLinearizations d = sortp partials;
  sh_largest : ∃ sizes, largest_ok (sortp partials) (pd_Largest d) sizes;
}.

Lemma viz_partition_run partials :
  (∀ p, p ∈ sortp partials → partial_linearization model es p) →
  ∃ d, viz_partition model es partials = Ok d ∧ shown partials d.
Proof.
  intros Hp. destruct viz_entries as (acc & Hf & Hi). unfold viz_partition.
  replace (Z.to_nat (zlen es / 2)) with n.
  2: { unfold zlen. rewrite (we_len _ _ Hwf). replace (Z.of_nat (2 * n) / 2)%Z with (Z.of_nat n); [by rewrite Nat2Z.id|].
       Z.to_euclidean_division_equations. lia. }
  rewrite Hf. res_simpl. destruct acc as [[hs cv] rv].
  destruct (viz_partials_run (hs, cv, rv) (sortp partials) [] ∅ ∅ Hi) as (lins & li & ls & Hr & Hm & Hl).
  { apply Forall_forall. intros p Hin. by apply (Hp p Hin). }
  { intros h. rewrite !lookup_empty. split; [done|]. by intros p ?%elem_of_nil. }
  simpl in Hr. change (zlen []) with 0%Z in Hr. rewrite Hr. res_simpl. eexists. split; [done|].
  destruct Hi as [H1 H2 H3]. split; simpl; try done; [by intros e He K; apply H2|by intros e He K; apply H3|by exists ls].
Qed.
End Partition.

Lemma viz_loop_run (model : FullModel V S) hist todo : ∀ before,
  Forall2 (λ es ps, ∃ d, viz_partition model es ps = Ok d ∧ ∃ n, shown model n es ps d) hist todo →
  ∃ data, viz_loop model hist (zlen before) (before ++ todo) = Ok data ∧
    Forall3 (λ es ps d, ∃ n, shown model n es ps d) hist todo data.
Proof.
  intros before H. revert before. induction H as [|es ps hist todo (d & Hd & Hsh) _ IH]; intros before.
  { exists []. split; [done|constructor]. }
  destruct (IH (before ++ [ps])) as (data & Hdata & Hall). exists (d :: data). split; [|by constructor].
  cbn [viz_loop]. assert (Hidx : idx (before ++ ps :: todo) (zlen before) = Ok ps).
  { apply idx_Ok. split; [apply zlen_nonneg|]. unfold zlen. rewrite Nat2Z.id. by apply list_lookup_middle. }
  rewrite Hidx. res_simpl. rewrite Hd. res_simpl. rewrite zlen_app, <-app_assoc in Hdata.
  change (zlen [ps]) with 1%Z in Hdata. simpl in Hdata. by rewrite Hdata.
Qed.

(** The functions that describe the values of the history return. *)
Definition described (model : FullModel V S) (parts : list (list (Operation V))) : Prop :=
  ∀ part o, part ∈ parts → o ∈ part → returns (DescribeOperation model (o_Input o) (o_Output o)).

(** The data of the visualization can be computed from whatever a verbose
    check reports, also after a timeout: the panic on a step that the model
    does not accept is never reached, nor an index out of range.  What is
    computed shows every operation of every partition with its client, its
    times and its description, all the reported sequences, and for every
    operation the index of a longest sequence that has it. *)
Theorem visualization_safe sortf (model : Model V S) history parts evs longest res info :
  let full := fillDefault fmtV fmtS model in
  sort_contract sortf → (∀ l, sortp l ≡ₚ l) → sound_equal full →
  Partition full history = Ok parts → parts_ok full parts → described full parts →
  Forall2 (λ part lg, ∃ kill b, checkSingle full part true kill = Ok (Some (b, lg))) (makeEntries sortf <$> parts) longest →
  CheckOperationsVerbose fmtV fmtS sortf model history evs longest = Ok (Some (res, info)) →
  ∃ data, computeVisualizationData model info = Ok data ∧
    Forall3 (λ es ps d, ∃ n, shown full n es ps d) (makeEntries sortf <$> parts) (i_partialLinearizations info) data.
Proof.
  intros full Hs Hsp HE Hpart Hok Hdesc Hrun Hres.
  destruct (verbose_report fmtV fmtS sortf model history parts evs longest res info Hs HE Hpart Hok Hrun Hres) as [Hh Hp].
  unfold computeVisualizationData. fold full. rewrite Hh in *.
  destruct (viz_loop_run full (makeEntries sortf <$> parts) (i_partialLinearizations info) []) as (data & Hd & Hall); [|by exists data].
  apply (Forall2_impl_in _ _ _ _ Hp). intros es ps Hes Hpl.
  apply list_elem_of_fmap in Hes as (part & -> & Hin). destruct (Hok part Hin) as [Ht _].
  destruct (viz_partition_run full (length part) (makeEntries sortf part)) with (partials := ps) as (d & Hd & Hsh).
  - by apply es_wf.
  - intros ec er [c Hc]%list_elem_of_lookup [r Hr]%list_elem_of_lookup Kc Kr Hid.
    destruct (es_call sortf Hs part c ec Hc Kc) as (i & o & Hi & ->).
    destruct (es_return sortf Hs part r er Hr Kr) as (i' & o' & Hi' & ->). simpl in *.
    assert (i' = i) as -> by lia. rewrite Hi in Hi'. injection Hi' as <-.
    apply (Hdesc part); [done|]. by eapply list_elem_of_lookup_2.
  - intros p Hin'. apply Hpl. by rewrite Hsp in Hin'.
  - exists d. split; [done|]. by exists (length part).
Qed.
End Visual.
