(* ===== verification/KVLinearizable.v ===== *)
(** * The key/value service is linearizable (src/kvraft)

    The clients, the servers and what Raft promises them, in one transition
    system: an agreed log that only grows (state machine safety), requests
    that get into it after they were sent, and again when they are
    retransmitted, servers that apply it in order, each at its own pace and
    with snapshots in between, and replies computed by the handlers of
    server.go from the state of such a server.  A client sends one request at
    a time, with consecutive sequence numbers, and waits for the reply.

    A handler looks at the client status and at the store in two critical
    sections: the reply comes from a server state that may be later than the
    one in which the wait ended.

    Theorem: the history of completed requests, with the pending writes that
    are in the log already, is linearizable for the store in the sense of the
    checker ([history_linearizable]); so the check of the tests never reports
    Illegal. *)

From stdpp Require Import base list gmap sets strings sorting relations.
From Stdlib Require Import ZArith Lia.
From S2P Require Import Prelude RaftCore RaftNode KVRaft PorcupineBitset Porcupine PorcupineSearch PorcupineHistory PorcupineCheck PorcupineKv.

Section Linearizable.
Context `{!Gob (PState Op), !Gob KVSnapshot, !GobOk KVSnapshot}.

(** ** The system *)

(** A request that waits for its reply; [pe_len] is the length of the agreed
    log when it was sent. *)
Record Pending : Type := mkPending {
  pe_op : Op;
  pe_call : Z;
  pe_len : nat;
}.

(** A request that has returned.  [it_at] is the length of the prefix of the
    log that the server had applied when it read the value, [it_len] and
    [it_rlen] the length of the log at the call and at the return. *)
Record Item : Type := mkItem {
  it_op : Op;
  it_value : string;
  it_call : Z;
  it_ret : Z;
  it_at : nat;
  it_len : nat;
  it_rlen : nat;
}.

Record System : Type := mkSystem {
  sy_now : Z;
  sy_log : list Op;
  sy_seq : gmap Z Z; (* the clerks' seqNum *)
  sy_pending : gmap Z Pending;
  sy_done : list Item;
}.

Definition initSystem : System := mkSystem 0 [] ∅ ∅ [].

Definition clientSeq (s : System) (c : Z) : Z := default 0%Z (sy_seq s !! c).

(** A server that started empty and got commands and snapshots of the agreed
    log. *)
Definition server_at (ops : list Op) (kv : KVServer) (n : nat) : Prop :=
  ∃ kv0 tr, pristine kv0 ∧ kv_run kv0 tr kv ∧ in_order 0 tr ∧ Forall (msg_agrees ops) tr ∧ n = Z.to_nat (trace_index tr).

(** What the clerk's methods send. *)
Inductive request (c seq : Z) : Op → Prop :=
| request_get key : request c seq (Get_op (mkGetArgs key seq c))
| request_put key value : request c seq (PutAppend_op (mkPutAppendArgs key value PUT seq c))
| request_append key value : request c seq (PutAppend_op (mkPutAppendArgs key value APPEND seq c)).

(** The value of the reply. *)
Definition reply_value (kv : KVServer) (op : Op) : string :=
  if bool_decide (op_Type op = GET) then
    gr_Value (Get_reply kv (mkGetArgs (op_Key op) (op_SeqNum op) (op_ClientId op)) true)
  else EmptyString.

Inductive sys_step : System → System → Prop :=
| sys_tick s now : (sy_now s ≤ now)%Z →
    sys_step s (mkSystem now (sy_log s) (sy_seq s) (sy_pending s) (sy_done s))
| sys_call s c op :
    sy_pending s !! c = None → request c (clientSeq s c + 1) op →
    sys_step s (mkSystem (sy_now s) (sy_log s) (<[c := (clientSeq s c + 1)%Z]> (sy_seq s))
      (<[c := mkPending op (sy_now s) (length (sy_log s))]> (sy_pending s)) (sy_done s))
| sys_commit s op :
    ((∃ c pe, sy_pending s !! c = Some pe ∧ pe_op pe = op) ∨ op ∈ sy_log s) →
    sys_step s (mkSystem (sy_now s) (sy_log s ++ [op]) (sy_seq s) (sy_pending s) (sy_done s))
| sys_return s c pe kv1 n1 kv2 n2 :
    sy_pending s !! c = Some pe →
    server_at (sy_log s) kv1 n1 → operate_ready kv1 (pe_op pe) = true →
    server_at (sy_log s) kv2 n2 → n1 ≤ n2 →
    sys_step s (mkSystem (sy_now s) (sy_log s) (sy_seq s) (delete c (sy_pending s))
      (sy_done s ++ [mkItem (pe_op pe) (reply_value kv2 (pe_op pe)) (pe_call pe) (sy_now s)
                       (Nat.min n2 (length (sy_log s))) (pe_len pe) (length (sy_log s))])).

(** What the tests record of a request. *)
Definition kvOperation (op : Op) (value : string) (call ret : Z) : Operation KvValue :=
  mkOperation (op_ClientId op)
    (VIn (mkKvInput (if bool_decide (op_Type op = GET) then 0 else if bool_decide (op_Type op = PUT) then 1 else 2)
            (op_Key op) (op_Value op)))
    call (VOut (mkKvOutput value)) ret.

Definition itemOperation (it : Item) : Operation KvValue :=
  kvOperation (it_op it) (it_value it) (it_call it) (it_ret it).

Definition history (s : System) : list (Operation KvValue) := itemOperation <$> sy_done s.

(** ** The store after a prefix of the log *)

Definition absStore (ops : list Op) (n : nat) : Data := foldl spec_op ∅ (first_occurrences [] (take n ops)).

Definition isGet (op : Op) : bool := bool_decide (op_Type op = GET).

(** The request at [i] is a write that was not there before. *)
Definition fresh_write (ops : list Op) (i : nat) (op : Op) : Prop :=
  ops !! i = Some op ∧ op ∉ take i ops ∧ isGet op = false.

Lemma absStore_S ops n op :
  ops !! n = Some op →
  absStore ops (S n) = if decide (op ∈ take n ops) then absStore ops n else spec_op (absStore ops n) op.
Proof.
  intros Hop. unfold absStore. rewrite (take_S_r _ _ _ Hop), first_occurrences_snoc, foldl_app.
  destruct (decide (op ∈ take n ops)) as [Hin|Hin].
  - by rewrite decide_True by (by right).
  - rewrite decide_False; [done|]. by intros [?%elem_of_nil|?].
Qed.

Lemma spec_op_get d op : isGet op = true → spec_op d op = d.
Proof. unfold isGet, spec_op. intros ->%bool_decide_eq_true. done. Qed.

(** Without fresh writes in between, the store is the same. *)
Lemma absStore_same ops m n :
  m ≤ n → n ≤ length ops → (∀ i op, m ≤ i < n → ¬ fresh_write ops i op) → absStore ops m = absStore ops n.
Proof.
  intros Hmn Hn Hno. induction n as [|n IH]; [by replace m with 0 by lia|].
  destruct (decide (m = S n)) as [->|Hne]; [done|].
  rewrite IH by (lia || intros; apply Hno; lia).
  destruct (lookup_lt_is_Some_2 ops n) as [op Hop]; [lia|]. rewrite (absStore_S _ _ _ Hop).
  case_decide as Hin; [done|]. destruct (isGet op) eqn:Hg; [by rewrite spec_op_get|].
  exfalso. apply (Hno n op); [lia|]. done.
Qed.

Context (fmtV : KvValue → string) (fmtD : Data → string).
Abbreviation storeM := (fillDefault fmtV fmtD StoreModel).

(** The model accepts a get of the current value, and every write. *)
Lemma get_step d op call ret :
  isGet op = true →
  Step storeM d (o_Input (kvOperation op (Store.get d (op_Key op)).1 call ret))
    (o_Output (kvOperation op (Store.get d (op_Key op)).1 call ret)) = Ok (true, d).
Proof.
  unfold isGet. intros Hg. simpl. unfold storeStep. simpl. rewrite Hg. simpl. by rewrite bool_decide_true.
Qed.

Lemma write_step d op value call ret :
  isGet op = false → op_Type op = PUT ∨ op_Type op = APPEND →
  Step storeM d (o_Input (kvOperation op value call ret)) (o_Output (kvOperation op value call ret)) = Ok (true, spec_op d op).
Proof.
  unfold isGet. intros Hg Ht. simpl. unfold storeStep, spec_op. simpl. rewrite Hg. destruct Ht as [Ht|Ht]; rewrite Ht; simpl.
  - done.
  - unfold Store.append. by destruct (d !! op_Key op).
Qed.

(** ** The order of the operations *)

(** Where the first occurrence of a request is. *)
Definition first_index (ops : list Op) (op : Op) : nat := default 0 (fst <$> list_find (λ x, x = op) ops).

Lemma first_index_spec ops op :
  op ∈ ops → ops !! first_index ops op = Some op ∧ op ∉ take (first_index ops op) ops.
Proof.
  intros Hin. destruct (list_find_elem_of (λ x, x = op) ops op Hin eq_refl) as [[i x] Hf].
  unfold first_index. rewrite Hf. simpl. apply list_find_Some in Hf as (Hi & -> & Hno). split; [done|].
  intros (j & Hj & Hlt)%elem_of_take. by apply (Hno j op).
Qed.

Lemma first_index_prefix ops op n : op ∈ take n ops → first_index ops op < n.
Proof.
  intros Hin. destruct (first_index_spec ops op) as [_ Hno].
  { apply elem_of_take in Hin as (i & Hi & _). by eapply list_elem_of_lookup_2. }
  destruct (decide (first_index ops op < n)) as [|Hge]; [done|]. exfalso. apply Hno.
  apply elem_of_take in Hin as (i & Hi & Hlt). apply elem_of_take. exists i. split; [done|lia].
Qed.

Lemma first_index_unique ops op i : ops !! i = Some op → op ∉ take i ops → first_index ops op = i.
Proof.
  intros Hi Hno. assert (Hin : op ∈ ops) by (by eapply list_elem_of_lookup_2).
  destruct (first_index_spec ops op Hin) as [H1 H2].
  destruct (Nat.lt_trichotomy (first_index ops op) i) as [Hlt|[|Hlt]]; [|done|]; exfalso.
  - apply Hno, elem_of_take. eauto.
  - apply H2, elem_of_take. eauto.
Qed.

(** A get is at the prefix it has read, a write behind the prefix before it. *)
Definition position (ops : list Op) (it : Item) : nat :=
  if isGet (it_op it) then 2 * it_at it else 2 * first_index ops (it_op it) + 1.

Record item_ok (ops : list Op) (it : Item) : Prop := {
  io_in : it_op it ∈ ops;
  io_type : isGet (it_op it) = false → op_Type (it_op it) = PUT ∨ op_Type (it_op it) = APPEND;
  io_at : isGet (it_op it) = true → first_index ops (it_op it) < it_at it ≤ length ops;
  io_value : isGet (it_op it) = true → it_value it = (Store.get (absStore ops (it_at it)) (op_Key (it_op it))).1;
}.

(** Items in the order of their positions, from position [2 * m] on, are a
    run of the store. *)
Lemma sorted_legal ops items : ∀ m,
  StronglySorted (λ a b, position ops a ≤ position ops b) items →
  Forall (item_ok ops) items → NoDup (it_op <$> items) →
  (∀ it, it ∈ items → 2 * m ≤ position ops it) →
  (∀ i op, m ≤ i → fresh_write ops i op → ∃ it, it ∈ items ∧ it_op it = op) →
  op_legal storeM (absStore ops m) (itemOperation <$> items).
Proof.
  induction items as [|it items IH]; intros m Hs Hok Hnd Hpos Hall; [constructor|].
  apply StronglySorted_cons in Hs as [Hle Hs]. rewrite Forall_forall in Hle.
  apply Forall_cons in Hok as [[H1 H2 H3 H4] Hok]. rewrite fmap_cons in Hnd. apply NoDup_cons in Hnd as [Hnin Hnd].
  pose proof (Hpos it ltac:(left)) as Hit.
  (* no fresh write comes before this item *)
  assert (Hbefore : ∀ i op, m ≤ i → 2 * i + 1 < position ops it → ¬ fresh_write ops i op).
  { intros i op Hi Hlt Hf. destruct (Hall i op Hi Hf) as (x & Hx & <-). destruct Hf as (Hl & Hno & Hg).
    assert (Hpx : position ops x = 2 * i + 1) by (unfold position; by rewrite Hg, (first_index_unique _ _ _ Hl Hno)).
    apply elem_of_cons in Hx as [->|Hx]; [lia|]. specialize (Hle x Hx). lia. }
  rewrite fmap_cons. destruct (isGet (it_op it)) eqn:Hg.
  - assert (Hp : position ops it = 2 * it_at it) by (unfold position; by rewrite Hg).
    destruct (H3 eq_refl) as [_ Hat]. rewrite (absStore_same ops m (it_at it)) by (lia || intros; apply Hbefore; lia).
    eapply op_legal_cons; [unfold itemOperation; rewrite (H4 eq_refl); by apply get_step|].
    apply IH; [done..| |].
    + intros x Hx. specialize (Hle x Hx). lia.
    + intros i op Hi Hf. destruct (Hall i op ltac:(lia) Hf) as (x & [->|Hx]%elem_of_cons & Hop); [|by exists x].
      exfalso. destruct Hf as (_ & _ & Hg'). congruence.
  - destruct (first_index_spec ops (it_op it) H1) as [Hl Hno]. set (i := first_index ops (it_op it)) in *.
    assert (Hp : position ops it = 2 * i + 1) by (unfold position; by rewrite Hg).
    pose proof (lookup_lt_Some _ _ _ Hl) as Hlen.
    rewrite (absStore_same ops m i) by (lia || intros; apply Hbefore; lia).
    eapply op_legal_cons; [apply write_step; auto|].
    pose proof (absStore_S ops i (it_op it) Hl) as HS. rewrite decide_False in HS by done. rewrite <-HS.
    apply IH; [done..| |].
    + intros x Hx. specialize (Hle x Hx). destruct (decide (position ops x = 2 * i + 1)) as [Heq|]; [|lia]. exfalso.
      unfold position in Heq. destruct (isGet (it_op x)); [lia|].
      assert (Hix : first_index ops (it_op x) = i) by lia. rewrite Forall_forall in Hok.
      destruct (first_index_spec ops (it_op x)) as [Hl' _]; [by apply Hok|]. rewrite Hix, Hl in Hl'.
      apply Hnin, list_elem_of_fmap. exists x. split; [congruence|done].
    + intros j op Hj Hf. destruct (Hall j op ltac:(lia) Hf) as (x & [->|Hx]%elem_of_cons & Hop); [|by exists x].
      exfalso. destruct Hf as (Hlj & Hnj & _). pose proof (first_index_unique _ _ _ Hlj Hnj) as Hij. rewrite <-Hop in Hij. lia.
Qed.

(** ** The invariant *)

Definition requestOf (op : Op) : Z * Z := (op_ClientId op, op_SeqNum op).

Record done_ok (s : System) (it : Item) : Prop := {
  do_item : item_ok (sy_log s) it;
  do_after : it_len it ≤ first_index (sy_log s) (it_op it);
  do_before : it_op it ∈ take (it_rlen it) (sy_log s) ∧ it_at it ≤ it_rlen it ≤ length (sy_log s);
  do_times : (it_call it ≤ it_ret it ≤ sy_now s)%Z;
  do_seq : (0 < op_SeqNum (it_op it) ≤ clientSeq s (op_ClientId (it_op it)))%Z;
  do_next : sy_pending s !! op_ClientId (it_op it) ≠ None → (op_SeqNum (it_op it) < clientSeq s (op_ClientId (it_op it)))%Z;
}.

Record pending_ok (s : System) (c : Z) (pe : Pending) : Prop := {
  po_request : request c (clientSeq s c) (pe_op pe);
  po_pos : (0 < clientSeq s c)%Z;
  po_after : pe_op pe ∉ take (pe_len pe) (sy_log s) ∧ pe_len pe ≤ length (sy_log s);
  po_time : (pe_call pe ≤ sy_now s)%Z;
}.

Record sys_inv (s : System) : Prop := {
  si_order : client_order (sy_log s);
  si_done : ∀ it, it ∈ sy_done s → done_ok s it;
  si_pending : ∀ c pe, sy_pending s !! c = Some pe → pending_ok s c pe;
  si_log : ∀ op, op ∈ sy_log s →
    (∃ it, it ∈ sy_done s ∧ it_op it = op) ∨ ∃ c pe, sy_pending s !! c = Some pe ∧ pe_op pe = op;
  si_unique : NoDup ((λ it, requestOf (it_op it)) <$> sy_done s);
  si_time : ∀ b, b ∈ sy_done s →
    (∀ a, a ∈ sy_done s → (it_ret b < it_call a)%Z → it_rlen b ≤ it_len a) ∧
    (∀ c pe, sy_pending s !! c = Some pe → (it_ret b < pe_call pe)%Z → it_rlen b ≤ pe_len pe);
  si_seq : ∀ c, (0 ≤ clientSeq s c)%Z;
}.

Lemma request_facts c seq op :
  request c seq op → op_ClientId op = c ∧ op_SeqNum op = seq ∧
    (isGet op = false → op_Type op = PUT ∨ op_Type op = APPEND).
Proof. destruct 1; simpl; split_and!; auto; done. Qed.

Lemma first_index_app ops x op : op ∈ ops → first_index (ops ++ [x]) op = first_index ops op.
Proof.
  intros Hin. destruct (first_index_spec ops op Hin) as [Hl Hno]. pose proof (lookup_lt_Some _ _ _ Hl).
  apply first_index_unique; [by apply lookup_app_l_Some|]. by rewrite take_app_le by lia.
Qed.

Lemma item_ok_app ops x it : item_ok ops it → item_ok (ops ++ [x]) it.
Proof.
  intros [H1 H2 H3 H4]. split; [set_solver|done| |].
  - intros Hg. rewrite first_index_app, length_app by done. specialize (H3 Hg). lia.
  - intros Hg. rewrite (H4 Hg). destruct (H3 Hg) as [_ Hat]. unfold absStore. by rewrite take_app_le by lia.
Qed.

(** Which of the requests a client has in the log can be pending. *)
Lemma log_request s op :
  sys_inv s → op ∈ sy_log s →
  (0 < op_SeqNum op ≤ clientSeq s (op_ClientId op))%Z ∧
  ∀ pe, sy_pending s !! op_ClientId op = Some pe → op_SeqNum op = clientSeq s (op_ClientId op) → op = pe_op pe.
Proof.
  intros Hi Hin. destruct (si_log _ Hi op Hin) as [(it & Hit & <-)|(c & pe & Hpe & <-)].
  - destruct (si_done _ Hi it Hit) as [_ _ _ _ Hseq Hnext]. split; [done|]. intros pe Hpe Heq.
    rewrite Hpe in Hnext. specialize (Hnext ltac:(done)). lia.
  - destruct (si_pending _ Hi c pe Hpe) as [Hreq Hpos _ _]. destruct (request_facts _ _ _ Hreq) as (Hc & Hs & _).
    rewrite Hc, Hs. split; [lia|]. intros pe' Hpe'. rewrite Hpe in Hpe'. by injection Hpe' as <-.
Qed.

(** A request number stands for one request. *)
Lemma log_unique s op1 op2 :
  sys_inv s → op1 ∈ sy_log s → op2 ∈ sy_log s → requestOf op1 = requestOf op2 → op1 = op2.
Proof.
  intros Hi H1 H2 [= Hc Hs].
  destruct (si_log _ Hi op1 H1) as [(it1 & Hit1 & <-)|(c1 & pe1 & Hpe1 & <-)].
  - destruct (si_log _ Hi op2 H2) as [(it2 & Hit2 & <-)|(c2 & pe2 & Hpe2 & <-)].
    + apply list_elem_of_lookup in Hit1 as [k1 Hk1]. apply list_elem_of_lookup in Hit2 as [k2 Hk2].
      assert (k1 = k2) as ->.
      { eapply (NoDup_lookup _ _ _ (requestOf (it_op it1)) (si_unique _ Hi)); rewrite list_lookup_fmap; [by rewrite Hk1|].
        rewrite Hk2. simpl. unfold requestOf. by rewrite Hc, Hs. }
      congruence.
    + destruct (si_pending _ Hi c2 pe2 Hpe2) as [Hreq _ _ _]. destruct (request_facts _ _ _ Hreq) as (Hc2 & Hs2 & _).
      eapply log_request; [done|done|rewrite Hc, Hc2; done|]. by rewrite Hc, Hs, Hc2, Hs2.
  - destruct (si_pending _ Hi c1 pe1 Hpe1) as [Hreq _ _ _]. destruct (request_facts _ _ _ Hreq) as (Hc1 & Hs1 & _).
    symmetry. eapply log_request; [done|done|rewrite <-Hc, Hc1; done|]. by rewrite <-Hc, <-Hs, Hc1, Hs1.
Qed.

(** ** Every step keeps it *)

Lemma inv_tick s now :
  sys_inv s → (sy_now s ≤ now)%Z → sys_inv (mkSystem now (sy_log s) (sy_seq s) (sy_pending s) (sy_done s)).
Proof.
  intros [H1 H2 H3 H4 H5 H6 H7] Hnow. split; try done.
  - intros it Hit. destruct (H2 it Hit). split; try done. simpl. lia.
  - intros c pe Hpe. destruct (H3 c pe Hpe). split; try done. simpl. lia.
Qed.

Lemma inv_call s c op :
  sys_inv s → sy_pending s !! c = None → request c (clientSeq s c + 1) op →
  sys_inv (mkSystem (sy_now s) (sy_log s) (<[c := (clientSeq s c + 1)%Z]> (sy_seq s))
    (<[c := mkPending op (sy_now s) (length (sy_log s))]> (sy_pending s)) (sy_done s)).
Proof.
  intros Hi Hc Hreq. pose proof Hi as [H1 H2 H3 H4 H5 H6 H7]. set (s' := mkSystem _ _ _ _ _).
  assert (Hseq : ∀ c', clientSeq s' c' = if decide (c = c') then (clientSeq s c + 1)%Z else clientSeq s c').
  { intros c'. unfold clientSeq, s'. simpl. destruct (decide (c = c')) as [->|]; [by rewrite lookup_insert_eq|by rewrite lookup_insert_ne]. }
  split; simpl; try done.
  - intros it Hit. destruct (H2 it Hit) as [D1 D2 D3 D4 D5 D6]. split; try done.
    + rewrite Hseq. destruct (decide _) as [Heq|]; [subst c|done]. lia.
    + rewrite Hseq. intros Hp. simpl in Hp. destruct (decide _) as [Heq|Hne]; [subst c; lia|].
      rewrite lookup_insert_ne in Hp by done. by apply D6.
  - intros c' pe [[<- <-]|[Hne Hpe]]%lookup_insert_Some.
    + split; simpl; [by rewrite Hseq, decide_True|rewrite Hseq, decide_True by done; specialize (H7 c); lia| |done].
      split; [|done]. rewrite take_ge by done. intros Hin. destruct (request_facts _ _ _ Hreq) as (Ho & Hs & _).
      destruct (log_request s op Hi Hin) as [Hle _]. rewrite Ho in Hle. lia.
    + destruct (H3 c' pe Hpe) as [P1 P2 P3 P4]. split; simpl; [by rewrite Hseq, decide_False|by rewrite Hseq, decide_False|done|done].
  - intros o Ho. destruct (H4 o Ho) as [?|(c' & pe & Hpe & ?)]; [by left|]. right. exists c', pe. split; [|done].
    rewrite lookup_insert_ne; [done|]. congruence.
  - intros b Hb. destruct (H6 b Hb) as [T1 T2]. split; [done|]. intros c' pe [[<- <-]|[Hne Hpe]]%lookup_insert_Some; [|by eapply T2].
    intros _. simpl. apply (H2 b Hb).
  - intros c'. rewrite Hseq. pose proof (H7 c). pose proof (H7 c'). destruct (decide _); lia.
Qed.

Lemma client_order_app ops op :
  client_order ops → (0 < op_SeqNum op)%Z →
  (∀ op', op' ∈ ops → op_ClientId op' = op_ClientId op →
     ((op_SeqNum op' < op_SeqNum op)%Z ∨ op ∈ ops) ∧ (op_SeqNum op' = op_SeqNum op → op' = op)) →
  client_order (ops ++ [op]).
Proof.
  intros Ho Hpos Hnew l1 o l2 Heq. destruct l2 as [|x l2 _] using rev_ind.
  - apply app_inj_tail in Heq as [<- <-]. done.
  - rewrite app_comm_cons, app_assoc in Heq. apply app_inj_tail in Heq as [-> _]. by apply (Ho l1 o l2).
Qed.

Lemma inv_commit s op :
  sys_inv s → ((∃ c pe, sy_pending s !! c = Some pe ∧ pe_op pe = op) ∨ op ∈ sy_log s) →
  sys_inv (mkSystem (sy_now s) (sy_log s ++ [op]) (sy_seq s) (sy_pending s) (sy_done s)).
Proof.
  intros Hi Hop. pose proof Hi as [H1 H2 H3 H4 H5 H6 H7]. split; simpl; try done.
  - apply client_order_app; [done| |].
    + destruct Hop as [(c & pe & Hpe & <-)|Hin]; [|by apply (log_request s op)].
      destruct (H3 c pe Hpe) as [Hreq Hpos _ _]. destruct (request_facts _ _ _ Hreq) as (_ & -> & _). done.
    + intros op' Hin' Hc. destruct (decide (op ∈ sy_log s)) as [Hin|Hnin].
      { split; [by right|]. intros Hs. apply (log_unique s); [done..|]. unfold requestOf. by rewrite Hc, Hs. }
      destruct Hop as [(c & pe & Hpe & <-)|]; [|done]. destruct (H3 c pe Hpe) as [Hreq _ _ _].
      destruct (request_facts _ _ _ Hreq) as (Hc1 & Hs1 & _). destruct (log_request s op' Hi Hin') as [Hle Huniq].
      rewrite Hc, Hc1 in Hle, Huniq. assert (op_SeqNum op' ≠ clientSeq s c).
      { intros Heq. specialize (Huniq pe Hpe Heq). by subst op'. }
      split; [left; lia|]. intros. lia.
  - intros it Hit. destruct (H2 it Hit) as [D1 D2 D3 D4 D5 D6]. split; simpl; try done.
    + by apply item_ok_app.
    + rewrite first_index_app; [done|apply D1].
    + rewrite length_app, take_app_le by lia. destruct D3. split; [done|]. simpl. lia.
  - intros c pe Hpe. destruct (H3 c pe Hpe) as [P1 P2 P3 P4]. split; simpl; try done.
    rewrite length_app, take_app_le by lia. destruct P3. split; [done|]. lia.
  - intros o [Ho|Ho]%elem_of_app; [by apply H4|]. apply list_elem_of_singleton in Ho as ->.
    destruct Hop as [Hp|Hin]; [by right|by apply H4].
Qed.

Lemma client_order_take ops n : client_order ops → client_order (take n ops).
Proof.
  intros Ho l1 o l2 Heq. apply (Ho l1 o (l2 ++ drop n ops)). rewrite <-(take_drop n ops) at 1. by rewrite Heq, <-app_assoc.
Qed.

(** A server that is done with a request has it in its prefix of the log. *)
Lemma ready_in_log s c pe kv n :
  sys_inv s → sy_pending s !! c = Some pe → server_at (sy_log s) kv n → operate_ready kv (pe_op pe) = true →
  pe_op pe ∈ take n (sy_log s).
Proof.
  intros Hi Hpe (kv0 & tr & H0 & Hrun & Hord & Hall & ->) Hready. set (n := Z.to_nat (trace_index tr)).
  destruct (replica_run _ _ _ _ H0 Hrun Hord Hall) as [[_ Hl] _].
  destruct (si_pending _ Hi c pe Hpe) as [Hreq Hpos _ _]. destruct (request_facts _ _ _ Hreq) as (Hc & Hs & _).
  unfold operate_ready in Hready. rewrite getClientStatus_snd in Hready. unfold done in Hready.
  apply bool_decide_eq_true in Hready. rewrite Hl in Hready.
  destruct (lastSeq_source kv0 (take n (sy_log s)) c (clientSeq s c) H0) as (op & Hop & Hoc & Hos).
  { rewrite Hc, Hs in Hready. unfold n. lia. }
  assert (Hin : op ∈ sy_log s) by (apply elem_of_take in Hop as (k & Hk & _); by eapply list_elem_of_lookup_2).
  destruct (log_request s op Hi Hin) as [Hle Huniq]. rewrite Hoc in *. by rewrite <-(Huniq pe Hpe ltac:(lia)).
Qed.

(** The value it reads is that of the store after its prefix. *)
Lemma reply_from_prefix s kv n op :
  sys_inv s → server_at (sy_log s) kv n → isGet op = true →
  reply_value kv op = (Store.get (absStore (sy_log s) (Nat.min n (length (sy_log s)))) (op_Key op)).1.
Proof.
  intros Hi (kv0 & tr & H0 & Hrun & Hord & Hall & ->) Hg. destruct (replica_run _ _ _ _ H0 Hrun Hord Hall) as [[Hs _] _].
  unfold reply_value, isGet in *. rewrite Hg. simpl. rewrite Hs, (store_replay kv0); [|by apply H0|apply client_order_take, Hi].
  destruct H0 as [-> _]. unfold absStore. do 4 f_equal.
  destruct (decide (Z.to_nat (trace_index tr) ≤ length (sy_log s))); [by rewrite Nat.min_l|].
  by rewrite Nat.min_r, !take_ge by lia.
Qed.

Lemma inv_return s c pe kv1 n1 kv2 n2 :
  sys_inv s → sy_pending s !! c = Some pe →
  server_at (sy_log s) kv1 n1 → operate_ready kv1 (pe_op pe) = true → server_at (sy_log s) kv2 n2 → n1 ≤ n2 →
  sys_inv (mkSystem (sy_now s) (sy_log s) (sy_seq s) (delete c (sy_pending s))
    (sy_done s ++ [mkItem (pe_op pe) (reply_value kv2 (pe_op pe)) (pe_call pe) (sy_now s)
                     (Nat.min n2 (length (sy_log s))) (pe_len pe) (length (sy_log s))])).
Proof.
  intros Hi Hpe Hs1 Hready Hs2 Hle. pose proof Hi as [H1 H2 H3 H4 H5 H6 H7].
  destruct (H3 c pe Hpe) as [Hreq Hpos [Haf Hlen] Ht]. destruct (request_facts _ _ _ Hreq) as (Hc & Hs & Hty).
  pose proof (ready_in_log s c pe kv1 n1 Hi Hpe Hs1 Hready) as Hin.
  pose proof (first_index_prefix _ _ _ Hin) as Hidx.
  assert (HinL : pe_op pe ∈ sy_log s) by (apply elem_of_take in Hin as (k & Hk & _); by eapply list_elem_of_lookup_2).
  destruct (first_index_spec _ _ HinL) as [Hfi _]. pose proof (lookup_lt_Some _ _ _ Hfi) as Hfl.
  assert (Hnew : ∀ it, it ∈ sy_done s → requestOf (it_op it) ≠ requestOf (pe_op pe)).
  { intros it Hit [= Hic His]. destruct (H2 it Hit) as [_ _ _ _ _ Hnext]. rewrite Hic, Hc, Hpe in Hnext.
    specialize (Hnext ltac:(done)). rewrite Hs in His. lia. }
  split; simpl; try done.
  - intros it [Hit|Hit]%elem_of_app.
    + destruct (H2 it Hit) as [D1 D2 D3 D4 D5 D6]. split; try done. intros Hp. apply D6. intros Hnone. apply Hp. simpl.
      apply lookup_delete_None. by right.
    + apply list_elem_of_singleton in Hit as ->. split; simpl.
      * split; simpl; [done|done|intros _; lia|]. intros Hg. by apply reply_from_prefix.
      * destruct (decide (pe_len pe ≤ first_index (sy_log s) (pe_op pe))) as [|Hgt]; [done|]. exfalso.
        apply Haf, elem_of_take. exists (first_index (sy_log s) (pe_op pe)). split; [done|lia].
      * rewrite take_ge by done. split; [done|]. lia.
      * lia.
      * unfold clientSeq in *. simpl. rewrite Hc, Hs. lia.
      * rewrite Hc. intros Hp. exfalso. apply Hp. apply lookup_delete_eq.
  - intros c' pe' [Hne Hpe']%lookup_delete_Some. destruct (H3 c' pe' Hpe'). by split.
  - intros o Ho. destruct (H4 o Ho) as [(it & Hit & <-)|(c' & pe' & Hpe' & <-)].
    + left. exists it. split; [by apply elem_of_app; left|done].
    + destruct (decide (c' = c)) as [->|Hne].
      * left. eexists. split; [apply elem_of_app; right; left|]. simpl. congruence.
      * right. exists c', pe'. split; [by rewrite lookup_delete_ne|done].
  - rewrite fmap_app. apply NoDup_app. split; [done|]. split; [|apply NoDup_singleton].
    intros x (it & -> & Hit)%list_elem_of_fmap Hx%list_elem_of_singleton. by apply (Hnew it).
  - intros b [Hb|Hb]%elem_of_app.
    + destruct (H6 b Hb) as [T1 T2]. split.
      * intros a [Ha|Ha]%elem_of_app; [by apply T1|]. apply list_elem_of_singleton in Ha as ->. simpl. by eapply T2.
      * intros c' pe' [_ Hpe']%lookup_delete_Some. by eapply T2.
    + apply list_elem_of_singleton in Hb as ->. simpl. split.
      * intros a [Ha|Ha]%elem_of_app Hlt; [destruct (H2 a Ha); lia|]. apply list_elem_of_singleton in Ha as ->. simpl in Hlt. lia.
      * intros c' pe' [_ Hpe']%lookup_delete_Some Hlt. destruct (H3 c' pe' Hpe'). lia.
Qed.

Lemma sys_step_inv s s' : sys_inv s → sys_step s s' → sys_inv s'.
Proof.
  intros Hi Hstep. destruct Hstep as [s now H|s c op Hc Hr|s op Ho|s c pe kv1 n1 kv2 n2 Hpe Hs1 Hr Hs2 Hn].
  - by apply inv_tick.
  - by apply inv_call.
  - by apply inv_commit.
  - by apply (inv_return s c pe kv1 n1 kv2 n2).
Qed.

Lemma init_inv : sys_inv initSystem.
Proof.
  split; simpl; try (by intros; set_solver); try done.
  - by intros l1 o l2 Heq%eq_sym%app_nil%proj2.
  - constructor.
Qed.

Lemma reachable_sys_inv s : rtc sys_step initSystem s → sys_inv s.
Proof. apply rtc_preserve; [exact sys_step_inv|exact init_inv]. Qed.

(** ** The linearization *)

(** A pending write that is in the log already has taken effect. *)
Definition in_flight (s : System) : list Item :=
  omap (λ '(_, pe),
    if decide (pe_op pe ∈ sy_log s ∧ isGet (pe_op pe) = false)
    then Some (mkItem (pe_op pe) EmptyString (pe_call pe) (sy_now s) 0 (pe_len pe) (length (sy_log s))) else None)
    (map_to_list (sy_pending s)).

Lemma elem_of_in_flight s it :
  it ∈ in_flight s ↔ ∃ c pe, sy_pending s !! c = Some pe ∧ pe_op pe ∈ sy_log s ∧ isGet (pe_op pe) = false ∧
    it = mkItem (pe_op pe) EmptyString (pe_call pe) (sy_now s) 0 (pe_len pe) (length (sy_log s)).
Proof.
  unfold in_flight. rewrite list_elem_of_omap. split.
  - intros ([c pe] & Hin%elem_of_map_to_list & Hit). case_decide as Hd; [|done]. injection Hit as <-. exists c, pe. tauto.
  - intros (c & pe & Hpe & Hl & Hg & ->). exists (c, pe). split; [by apply elem_of_map_to_list|]. by rewrite decide_True.
Qed.

(** What both kinds of items have in common. *)
Record placed (s : System) (it : Item) : Prop := {
  pl_item : item_ok (sy_log s) it;
  pl_after : it_len it ≤ first_index (sy_log s) (it_op it);
  pl_call : (it_call it ≤ sy_now s)%Z;
}.

Abbreviation items s := (sy_done s ++ in_flight s).

Lemma items_placed s it : sys_inv s → it ∈ items s → placed s it.
Proof.
  intros Hi [Hit|Hit]%elem_of_app.
  - destruct (si_done _ Hi it Hit). split; try done. lia.
  - apply elem_of_in_flight in Hit as (c & pe & Hpe & Hl & Hg & ->).
    destruct (si_pending _ Hi c pe Hpe) as [Hreq _ [Haf _] Ht]. destruct (request_facts _ _ _ Hreq) as (_ & _ & Hty).
    split; simpl; [split; simpl; try done; congruence| |done].
    destruct (first_index_spec _ _ Hl) as [Hfi _].
    destruct (decide (pe_len pe ≤ first_index (sy_log s) (pe_op pe))) as [|Hgt]; [done|]. exfalso.
    apply Haf, elem_of_take. eexists. split; [exact Hfi|lia].
Qed.

Lemma in_flight_NoDup s : sys_inv s → NoDup (it_op <$> in_flight s).
Proof.
  intros Hi. unfold in_flight. pose proof (NoDup_fst_map_to_list (sy_pending s)) as Hnd.
  assert (Hcl : ∀ c pe, (c, pe) ∈ map_to_list (sy_pending s) → op_ClientId (pe_op pe) = c).
  { intros c pe Hin%elem_of_map_to_list. destruct (si_pending _ Hi c pe Hin) as [Hreq _ _ _]. by destruct (request_facts _ _ _ Hreq). }
  induction (map_to_list (sy_pending s)) as [|[c pe] l IH]; [constructor|].
  rewrite fmap_cons in Hnd. apply NoDup_cons in Hnd as [Hc Hnd]. simpl in Hc.
  specialize (IH Hnd ltac:(intros; apply Hcl; by right)). cbn [omap list_omap]. case_decide as Hd; [|exact IH].
  rewrite fmap_cons. apply NoDup_cons. split; [|exact IH]. simpl.
  intros (it & Heq & ([c' pe'] & Hin & Hit)%list_elem_of_omap)%list_elem_of_fmap.
  case_decide; [|done]. injection Hit as <-. simpl in Heq.
  pose proof (Hcl c' pe' ltac:(by right)) as Hc'. pose proof (Hcl c pe ltac:(left)) as Hc0.
  apply Hc. apply list_elem_of_fmap. exists (c', pe'). split; [simpl; congruence|done].
Qed.

Lemma items_NoDup s : sys_inv s → NoDup (it_op <$> items s).
Proof.
  intros Hi. rewrite fmap_app. apply NoDup_app. split; [|split; [|by apply in_flight_NoDup]].
  - apply (NoDup_fmap_1 requestOf). rewrite <-list_fmap_compose. apply Hi.
  - intros op (it & -> & Hit)%list_elem_of_fmap (it' & Heq & Hit')%list_elem_of_fmap.
    apply elem_of_in_flight in Hit' as (c & pe & Hpe & _ & _ & ->). simpl in Heq.
    destruct (si_pending _ Hi c pe Hpe) as [Hreq _ _ _]. destruct (request_facts _ _ _ Hreq) as (Hc & Hs & _).
    destruct (si_done _ Hi it Hit) as [_ _ _ _ _ Hnext]. rewrite Heq, Hc, Hpe, Hs in Hnext. specialize (Hnext ltac:(done)). lia.
Qed.

Lemma items_complete s i op : sys_inv s → fresh_write (sy_log s) i op → ∃ it, it ∈ items s ∧ it_op it = op.
Proof.
  intros Hi (Hl & _ & Hg). assert (Hin : op ∈ sy_log s) by (by eapply list_elem_of_lookup_2).
  destruct (si_log _ Hi op Hin) as [(it & Hit & <-)|(c & pe & Hpe & <-)].
  - exists it. split; [apply elem_of_app; by left|done].
  - eexists. split; [apply elem_of_app; right; apply elem_of_in_flight; by exists c, pe|done].
Qed.

(** An item that is not behind another was not called after its return. *)
Lemma position_time s a b :
  sys_inv s → a ∈ items s → b ∈ items s → position (sy_log s) a ≤ position (sy_log s) b → (it_call a ≤ it_ret b)%Z.
Proof.
  intros Hi Ha Hb Hpos. destruct (items_placed s a Hi Ha) as [[Hin Hty Hat _] Haf Hcall].
  apply elem_of_app in Hb as [Hb|Hb]; [|by apply elem_of_in_flight in Hb as (? & ? & _ & _ & _ & ->)].
  destruct (decide (it_call a ≤ it_ret b)%Z) as [|Hlt]; [done|]. exfalso.
  assert (Hlen : it_rlen b ≤ it_len a).
  { destruct (si_time _ Hi b Hb) as [T1 T2]. apply elem_of_app in Ha as [Ha|Ha]; [apply T1; [done|lia]|].
    apply elem_of_in_flight in Ha as (c & pe & Hpe & _ & _ & ->). simpl in *. apply (T2 c pe Hpe). lia. }
  destruct (si_done _ Hi b Hb) as [_ _ [Hbin [Hbat _]] _ _ _]. pose proof (first_index_prefix _ _ _ Hbin) as Hfb.
  unfold position in Hpos. destruct (isGet (it_op a)); [specialize (Hat eq_refl)|]; destruct (isGet (it_op b)); lia.
Qed.

Definition by_position (s : System) (a b : Item) : Prop := position (sy_log s) a ≤ position (sy_log s) b.
Local Instance by_position_dec s : RelDecision (by_position s).
Proof. intros a b. unfold by_position. apply _. Defined.
Local Instance by_position_trans s : Transitive (by_position s).
Proof. intros a b c. unfold by_position. lia. Qed.
Local Instance by_position_total s : Total (by_position s).
Proof. intros a b. unfold by_position. lia. Qed.

Lemma sorted_impl {A} (R Q : relation A) (l : list A) :
  StronglySorted R l → (∀ a b, a ∈ l → b ∈ l → R a b → Q a b) → StronglySorted Q l.
Proof.
  induction 1 as [|x l Hs IH Hf]; intros HRQ; constructor.
  - apply IH. intros a b Ha Hb. apply HRQ; by right.
  - rewrite Forall_forall in Hf |- *. intros y Hy. apply HRQ; [left|by right|by apply Hf].
Qed.

Lemma history_with_pending s :
  sys_inv s → history_linearizable storeM (itemOperation <$> items s).
Proof.
  intros Hi. set (σ := merge_sort (by_position s) (items s)).
  assert (Hp : σ ≡ₚ items s) by apply merge_sort_Permutation.
  assert (Hs : StronglySorted (by_position s) σ) by apply (StronglySorted_merge_sort (by_position s)).
  exists (itemOperation <$> σ). split_and!.
  - by rewrite Hp.
  - apply (sorted_legal (sy_log s) σ 0); [done| | |intros; lia|].
    + apply Forall_forall. intros it Hit. rewrite Hp in Hit. by apply items_placed.
    + rewrite Hp. by apply items_NoDup.
    + intros i op _ Hf. destruct (items_complete s i op Hi Hf) as (it & Hit & Hop). exists it. by rewrite Hp.
  - apply (StronglySorted_fmap itemOperation (λ a b, (it_call a ≤ it_ret b)%Z)); [done|].
    eapply sorted_impl; [exact Hs|]. intros a b Ha Hb. rewrite Hp in Ha, Hb. by apply position_time.
Qed.

(** ** Properties *)

(** C3: the key/value service is linearizable.  Whatever clients send, however
    requests and replies are lost, repeated and delayed, and whatever servers
    answer, from whatever prefix of the log they have applied, with or without
    snapshots: the requests that have returned, with the pending writes that
    are in the log, can be put in an order that respects the times of calls
    and returns and in which every get returns the value of the store. *)
Theorem kv_linearizable s :
  rtc sys_step initSystem s →
  ∃ extra, history_linearizable storeM (history s ++ extra) ∧
    ∀ o, o ∈ extra → ∃ c pe, sy_pending s !! c = Some pe ∧ pe_op pe ∈ sy_log s ∧
      o = kvOperation (pe_op pe) EmptyString (pe_call pe) (sy_now s).
Proof.
  intros Hi%reachable_sys_inv. exists (itemOperation <$> in_flight s). split.
  - unfold history. rewrite <-fmap_app. by apply history_with_pending.
  - intros o (it & -> & (c & pe & Hpe & Hl & _ & ->)%elem_of_in_flight)%list_elem_of_fmap. by exists c, pe.
Qed.

(** The check of the tests accepts what the service does.  On the history
    of any run after which no request is pending, the checker says Ok when all
    its goroutines have answered, in whatever order, and if it is stopped
    before that it does not say Illegal. *)
Theorem kv_passes_check (fmtS : string → string) sortf s :
  rtc sys_step initSystem s → sy_pending s = ∅ → history s ≠ [] → sort_contract sortf →
  ∃ parts bs, Partition (fillDefault fmtV fmtS KvModel) (history s) = Ok parts ∧
    Forall2 (answers (fillDefault fmtV fmtS KvModel) true) (makeEntries sortf <$> parts) bs ∧
  ∀ order longest, order ≡ₚ bs →
    let check evs := CheckOperationsVerbose fmtV fmtS sortf KvModel (history s) evs longest in
    (∃ info, check (RecvResult <$> order) = Ok (Some (ResOk, info))) ∧
    (∀ k rest, ∃ res info, check ((RecvResult <$> take k order) ++ RecvTimeout :: rest) = Ok (Some (res, info)) ∧
      res ≠ ResIllegal).
Proof.
  intros Hi%reachable_sys_inv Hnone Hne Hsort.
  assert (Hlin : history_linearizable storeM (history s)).
  { pose proof (history_with_pending s Hi) as H. unfold in_flight in H. rewrite Hnone, map_to_list_empty in H.
    simpl in H. by rewrite app_nil_r in H. }
  assert (Hty : typed (history s)) by (intros o (it & -> & _)%list_elem_of_fmap; by eexists _, _).
  assert (Htm : timed (history s)).
  { intros o (it & -> & Hit)%list_elem_of_fmap. destruct (si_done _ Hi it Hit). simpl. lia. }
  destruct (kv_check_answers fmtV fmtD fmtS sortf (history s) Hsort Hty Htm) as (parts & bs & Hp & Hb & Hall).
  exists parts, bs. split; [done|]. split; [done|]. intros order longest Hord check.
  destruct (Hall order longest Hord) as [_ Hcase]. destruct (Hcase Hne) as [(res & info & Hres & Hok) Htime]. split.
  - destruct Hok as [[-> _]|[_ Hbad]]; [by exists info|done].
  - intros k rest. destruct (Htime k rest) as (r & i & Hr & _ & Hbad). exists r, i. split; [done|]. intros ->. by apply Hbad.
Qed.
End Linearizable.
