(* ===== verification/PorcupineWitness.v ===== *)
(** * Runs of the linearizability checker

    The theorems about the checker on concrete inputs: a history of three
    operations on two keys, overlapping in time, and a history of events. *)

From stdpp Require Import base list gmap sets strings sorting.
From Stdlib Require Import ZArith Lia.
From S2P Require Import Prelude KVRaft PorcupineBitset Porcupine PorcupineSearch PorcupineHistory PorcupineCheck PorcupineEvents PorcupineKv PorcupineVisual.

(** A sorting function that meets the contract of [sort.Sort]. *)
Definition not_after {V} (a b : entry V) : Prop := Less b a = false.

Global Instance not_after_dec {V} : RelDecision (@not_after V).
Proof. intros a b. unfold not_after. apply _. Defined.

Definition sortEntries {V} (l : list (entry V)) : list (entry V) := merge_sort not_after l.

Lemma less_spec {V} (a b : entry V) :
  Less a b = true ↔ (e_time a < e_time b)%Z ∨ e_time a = e_time b ∧ e_kind a = callEntry ∧ e_kind b = returnEntry.
Proof.
  unfold Less. case_bool_decide; [rewrite bool_decide_eq_true; lia|].
  rewrite andb_true_iff, !bool_decide_eq_true. intuition lia.
Qed.

Lemma not_after_spec {V} (a b : entry V) :
  not_after a b ↔ (e_time a < e_time b)%Z ∨ e_time a = e_time b ∧ (e_kind b = returnEntry ∨ e_kind a = callEntry).
Proof.
  unfold not_after. rewrite <-not_true_iff_false, less_spec. pose proof (Z.lt_trichotomy (e_time a) (e_time b)) as Ht.
  destruct (e_kind a), (e_kind b); naive_solver lia.
Qed.

Global Instance not_after_trans {V} : Transitive (@not_after V).
Proof.
  intros a b c. rewrite !not_after_spec. destruct (e_kind a), (e_kind b), (e_kind c); naive_solver lia.
Qed.

Global Instance not_after_total {V} : Total (@not_after V).
Proof.
  intros a b. rewrite !not_after_spec. destruct (Z.lt_trichotomy (e_time a) (e_time b)) as [|[|]]; [tauto| |tauto].
  destruct (e_kind a), (e_kind b); naive_solver.
Qed.

Lemma sorted_lookup {A} (R : relation A) (l : list A) : StronglySorted R l →
  ∀ i j a b, i < j → l !! i = Some a → l !! j = Some b → R a b.
Proof.
  induction 1 as [|x l Hs IH Hf]; intros i j a b Hij Hi Hj; [done|]. rewrite Forall_forall in Hf.
  destruct i as [|i], j as [|j]; simpl in *; try lia.
  - injection Hi as <-. apply Hf. by eapply list_elem_of_lookup_2.
  - eapply (IH i j); [lia|done|done].
Qed.

Lemma sortEntries_contract {V} : sort_contract (@sortEntries V).
Proof.
  intros l. split; [apply merge_sort_Permutation|]. apply sorted_lookup.
  apply (StronglySorted_merge_sort not_after).
Qed.

(** ** A history of the key/value service *)

Definition w_op (client op : Z) (key value out : string) (call ret : Z) : Operation KvValue :=
  mkOperation client (VIn (mkKvInput op key value)) call (VOut (mkKvOutput out)) ret.

(** A put of x, a get of x that overlaps it, and a get of y. *)
Definition w_history : list (Operation KvValue) :=
  [w_op 0 1 "x" "a" "" 0 10; w_op 1 0 "x" "" "a" 5 15; w_op 2 0 "y" "" "" 3 4].

Definition w_fmt {A : Type} (x : A) : string := "".

Lemma w_typed : typed w_history.
Proof. intros o Ho. repeat (apply elem_of_cons in Ho as [->|Ho]; [by eexists _, _|]). by apply elem_of_nil in Ho. Qed.

Lemma w_timed : timed w_history.
Proof. intros o Ho. repeat (apply elem_of_cons in Ho as [->|Ho]; [simpl; lia|]). by apply elem_of_nil in Ho. Qed.

Abbreviation w_kv := (fillDefault w_fmt w_fmt KvModel).
Abbreviation w_store := (fillDefault w_fmt w_fmt StoreModel).

Definition w_parts : list (list (Operation KvValue)) :=
  match Partition w_kv w_history with Ok p => p | Panic => [] end.

Definition w_longest (computePartial : bool) : list Longest :=
  (λ part, match checkSingle w_kv (makeEntries sortEntries part) computePartial (λ _, false) with
           | Ok (Some (_, lg)) => lg | _ => mkLongest [] [] end) <$> w_parts.

Definition w_check : Res (option (CheckResult * linearizationInfo)) :=
  CheckOperationsVerbose w_fmt w_fmt sortEntries KvModel w_history [RecvResult true; RecvResult true] (w_longest true).

Definition w_info : linearizationInfo := match w_check with Ok (Some (_, i)) => i | _ => mkInfo [] [] end.

(** The check finds the order put, get on x. *)
Example w_check_ok :
  w_check = Ok (Some (ResOk, w_info)) ∧ i_partialLinearizations w_info = [[[0; 1]]; [[0]]]%Z.
Proof. vm_compute. done. Qed.

(** ** Witnesses *)

Lemma bitset_spec_witness :
  set (clone (newBitset 70)) 65 = Ok [0; 2]%Z ∧
  ∃ b', set (clone (newBitset 70)) 65 = Ok b' ∧ bitset_wf 70 b' ∧ represents b' ({[65%Z]} ∪ ∅).
Proof.
  split; [vm_compute; reflexivity|].
  destruct (newBitset_wf 70 ltac:(lia)) as [Hw Hr].
  exact (proj1 (proj2 (bitset_spec 70 (newBitset 70) ∅ 65 Hw Hr ltac:(set_solver) ltac:(lia)))).
Defined.

Lemma checkSingle_correct_witness :
  ∃ b lg, checkSingle w_kv (makeEntries sortEntries w_history) true (λ _, false) = Ok (Some (b, lg)) ∧
    (b = true → linearizable w_kv (makeEntries sortEntries w_history)) ∧
    (b = false → (∃ i : nat, false = true) ∨ ¬ linearizable w_kv (makeEntries sortEntries w_history)).
Proof.
  apply (checkSingle_correct w_kv 3 (makeEntries sortEntries w_history) true (λ _, false)).
  - exact (es_wf sortEntries sortEntries_contract w_history w_timed).
  - intros s ec er Hec Her Kc Kr Hid. apply (elem_of_es sortEntries sortEntries_contract w_history) in Hec as (i & o & Hi & [->| ->]); [|done].
    apply (elem_of_es sortEntries sortEntries_contract w_history) in Her as (i' & o' & Hi' & [->| ->]); [done|].
    simpl in Hid. assert (i' = i) as -> by lia. rewrite Hi in Hi'. injection Hi' as <-.
    destruct (w_typed o) as (k & r & Hk & Hr); [by eapply list_elem_of_lookup_2|]. simpl.
    unfold KvStep. rewrite Hk, Hr. simpl. repeat case_bool_decide; by eexists.
  - exact (kv_sound_equal w_fmt w_fmt).
Defined.

Lemma kv_partition_local_witness :
  ∃ parts, Partition w_kv w_history = Ok parts ∧
    (history_linearizable w_store w_history ↔ Forall (history_linearizable w_kv) parts).
Proof. exact (kv_partition_local w_fmt w_fmt w_fmt w_history w_typed w_timed). Defined.

Lemma kv_check_correct_witness :
  ∃ parts bs, Partition w_kv w_history = Ok parts ∧ Forall2 (answers w_kv true) (makeEntries sortEntries <$> parts) bs.
Proof.
  destruct (kv_check_correct w_fmt w_fmt w_fmt sortEntries w_history sortEntries_contract w_typed w_timed)
    as (parts & bs & Hp & Hb & _).
  by exists parts, bs.
Defined.

(** The runs of the goroutines of the history. *)
Lemma w_runs :
  Forall2 (λ part lg, ∃ kill b, checkSingle w_kv part true kill = Ok (Some (b, lg)))
    (makeEntries sortEntries <$> w_parts) (w_longest true).
Proof. repeat constructor; exists (λ _, false), true; vm_compute; reflexivity. Qed.

Lemma visualization_safe_witness :
  ∃ data, computeVisualizationData w_fmt w_fmt id KvModel w_info = Ok data ∧
    Forall3 (λ es ps d, ∃ n, shown id w_kv n es ps d) (makeEntries sortEntries <$> w_parts)
      (i_partialLinearizations w_info) data.
Proof.
  destruct (KvPartition_spec w_history w_typed) as (keys & Hp & _ & _).
  assert (Hw : w_parts = (λ k, ofKey k w_history) <$> keys) by (unfold w_parts; cbn [fillDefault Partition KvModel m_Partition default from_option id]; unfold id; by rewrite Hp).
  apply (visualization_safe w_fmt w_fmt id sortEntries KvModel w_history w_parts [RecvResult true; RecvResult true]
    (w_longest true) ResOk w_info).
  - exact sortEntries_contract.
  - done.
  - exact (kv_sound_equal w_fmt w_fmt).
  - vm_compute. reflexivity.
  - rewrite Hw. exact (kv_parts_ok w_fmt w_fmt w_history keys w_typed w_timed).
  - intros part o Hin Ho. rewrite Hw in Hin. apply list_elem_of_fmap in Hin as (k & -> & _).
    apply elem_of_ofKey in Ho as [_ Ho]. destruct (w_typed o Ho) as (i & r & Hi & Hr). simpl.
    unfold KvDescribeOperation. rewrite Hi, Hr. simpl. repeat case_bool_decide; by eexists.
  - exact w_runs.
  - vm_compute. reflexivity.
Defined.

(** Two events with ids that are not 0, 1, ...: a put of client 7 around a get
    of client 9. *)
Definition w_events : list (Event KvValue) :=
  [mkEvent 7 CallEvent (VIn (mkKvInput 1 "x" "a")) 70;
   mkEvent 9 CallEvent (VIn (mkKvInput 0 "x" "")) (-3);
   mkEvent 9 ReturnEvent (VOut (mkKvOutput "a")) (-3);
   mkEvent 7 ReturnEvent (VOut (mkKvOutput "")) 70].

Lemma w_events_wf : wf_events w_events.
Proof.
  split.
  - intros v Hv. repeat (apply elem_of_cons in Hv as [->|Hv]; [|]); [..|by apply elem_of_nil in Hv];
      first [exists 0, 3; by eexists _, _; split_and!; try done; lia|exists 1, 2; by eexists _, _; split_and!; try done; lia].
  - intros k1 k2 v1 v2 H1 H2 Hk Hi.
    do 4 (destruct k1 as [|k1]; [injection H1 as <-; do 4 (destruct k2 as [|k2]; [by injection H2 as <-|]); done|]). done.
Qed.

Lemma checkEvents_correct_witness :
  ∃ b, CheckEvents w_fmt w_fmt KvModel w_events (RecvResult <$> [true]) = Ok (Some b) ∧
    (b = true ↔ Forall (events_linearizable w_kv) [w_events]).
Proof.
  apply (checkEvents_correct w_fmt w_fmt KvModel w_events [w_events] [true] [true]).
  - exact (kv_sound_equal w_fmt w_fmt).
  - reflexivity.
  - done.
  - intros part ->%list_elem_of_singleton. split; [exact w_events_wf|].
    intros s vc vr Hc Hr Kc Kr Hid.
    repeat (apply elem_of_cons in Hc as [->|Hc]; [try discriminate Kc|]); [..|by apply elem_of_nil in Hc];
      (repeat (apply elem_of_cons in Hr as [->|Hr]; [try discriminate Kr|]); [..|by apply elem_of_nil in Hr]); by eexists.
  - repeat constructor. eexists. vm_compute. reflexivity.
  - reflexivity.
Defined.
