(* ===== verification/KVLinWitness.v ===== *)
(** * A run of the key/value service

    Two clients, a put that is in the log twice, and a get that overlaps it;
    the theorems of [KVLinearizable] on that run. *)

From stdpp Require Import base list gmap sets strings sorting relations.
From Stdlib Require Import ZArith Lia.
From S2P Require Import Prelude RaftLog RaftCore RaftApply RaftNode RaftWitness KVRaft KVWitness PorcupineBitset Porcupine PorcupineSearch PorcupineHistory PorcupineCheck PorcupineKv PorcupineWitness KVLinearizable.

#[local] Instance linGobOp : Gob (PState Op) := {| gob_encode _ := [Byte.x00]; gob_decode _ := None |}.
#[local] Instance linGobKV : Gob KVSnapshot := countable_gob KVSnapshot.
#[local] Instance linGobKV_ok : GobOk KVSnapshot := countable_gob_ok KVSnapshot.

Definition lw_log : list Op := [opPut; opGet; opPut].

(** The server that answers has applied all three. *)
Definition lw_trace : list (ApplyMsg Op) := [cmd 1 opPut; cmd 2 opGet; cmd 3 opPut].
Definition lw_kv : KVServer := match foldM kv_applier kvNoSnap lw_trace with Ok kv => kv | Panic => kvNoSnap end.

(** The states of the run. *)
Definition lw_pend1 : Pending := mkPending opPut 0 0.
Definition lw_pend2 : Pending := mkPending opGet 5 0.
Definition lw_seq1 : gmap Z Z := {[1 := 1]}%Z.
Definition lw_seq2 : gmap Z Z := <[2%Z := 1%Z]> lw_seq1.
Definition lw_both : gmap Z Pending := <[2%Z := lw_pend2]> {[1%Z := lw_pend1]}.
Definition lw_item1 : Item := mkItem opPut "" 0 5 3 0 3.
Definition lw_item2 : Item := mkItem opGet "a" 5 9 3 0 3.

Definition lw_1 : System := mkSystem 0 [] lw_seq1 {[1%Z := lw_pend1]} [].
Definition lw_2 : System := mkSystem 5 [] lw_seq1 {[1%Z := lw_pend1]} [].
Definition lw_3 : System := mkSystem 5 [] lw_seq2 lw_both [].
Definition lw_4 : System := mkSystem 5 [opPut] lw_seq2 lw_both [].
Definition lw_5 : System := mkSystem 5 [opPut; opGet] lw_seq2 lw_both [].
Definition lw_6 : System := mkSystem 5 lw_log lw_seq2 lw_both [].
Definition lw_7 : System := mkSystem 5 lw_log lw_seq2 {[2%Z := lw_pend2]} [lw_item1].
Definition lw_8 : System := mkSystem 9 lw_log lw_seq2 {[2%Z := lw_pend2]} [lw_item1].
Definition lw_end : System := mkSystem 9 lw_log lw_seq2 ∅ [lw_item1; lw_item2].

Lemma lw_server : server_at lw_log lw_kv 3.
Proof.
  exists kvNoSnap, lw_trace. split_and!; [done|apply run_deliver; vm_compute; reflexivity|repeat split| |reflexivity].
  repeat constructor; try (vm_compute; congruence); eexists; by split.
Qed.

Lemma lw_ready : operate_ready lw_kv opPut = true ∧ operate_ready lw_kv opGet = true ∧
  reply_value lw_kv opPut = "" ∧ reply_value lw_kv opGet = "a".
Proof. vm_compute. done. Qed.

Lemma lw_return1 : sys_step lw_6 lw_7.
Proof.
  destruct lw_ready as (Hr & _ & Hv & _).
  pose proof (sys_return lw_6 1 lw_pend1 lw_kv 3 lw_kv 3 eq_refl lw_server Hr lw_server ltac:(done)) as H.
  cbn [pe_op lw_pend1] in H. rewrite Hv in H. exact H.
Qed.

Lemma lw_return2 : sys_step lw_8 lw_end.
Proof.
  destruct lw_ready as (_ & Hr & _ & Hv).
  pose proof (sys_return lw_8 2 lw_pend2 lw_kv 3 lw_kv 3 eq_refl lw_server Hr lw_server ltac:(done)) as H.
  cbn [pe_op lw_pend2] in H. rewrite Hv in H. exact H.
Qed.

Lemma lw_run : rtc sys_step initSystem lw_end.
Proof.
  apply (rtc_l _ _ lw_1); [exact (sys_call initSystem 1 opPut eq_refl (request_put 1 1 "x" "a"))|].
  apply (rtc_l _ _ lw_2); [exact (sys_tick lw_1 5 ltac:(simpl; lia))|].
  apply (rtc_l _ _ lw_3); [exact (sys_call lw_2 2 opGet eq_refl (request_get 2 1 "x"))|].
  apply (rtc_l _ _ lw_4); [apply (sys_commit lw_3 opPut); left; by exists 1%Z, lw_pend1|].
  apply (rtc_l _ _ lw_5); [apply (sys_commit lw_4 opGet); left; by exists 2%Z, lw_pend2|].
  apply (rtc_l _ _ lw_6); [apply (sys_commit lw_5 opPut); right; left|].
  apply (rtc_l _ _ lw_7); [exact lw_return1|].
  apply (rtc_l _ _ lw_8); [exact (sys_tick lw_7 9 ltac:(simpl; lia))|].
  apply (rtc_l _ _ lw_end); [exact lw_return2|apply rtc_refl].
Qed.

Lemma kv_linearizable_witness :
  ∃ extra, history_linearizable w_store (history lw_end ++ extra) ∧
    ∀ o, o ∈ extra → ∃ c pe, sy_pending lw_end !! c = Some pe ∧ pe_op pe ∈ sy_log lw_end ∧
      o = kvOperation (pe_op pe) EmptyString (pe_call pe) (sy_now lw_end).
Proof. exact (kv_linearizable w_fmt w_fmt lw_end lw_run). Defined.

Lemma kv_passes_check_witness :
  ∃ parts bs, Partition w_kv (history lw_end) = Ok parts ∧
    Forall2 (answers w_kv true) (makeEntries sortEntries <$> parts) bs.
Proof.
  destruct (kv_passes_check w_fmt w_fmt w_fmt sortEntries lw_end lw_run eq_refl ltac:(done) sortEntries_contract)
    as (parts & bs & Hp & Hb & _).
  by exists parts, bs.
Defined.
