(* ===== verification/LabRPC.v ===== *)
(** * The simulated network (src/labrpc/labrpc.go)

    Client ends send requests into a network that loses and delays them and
    calls the handlers of servers.  Every request is dealt with by a
    goroutine, [processReq]; between its critical sections the rest of the
    program runs, so a request has a [Stage], the point its goroutine has
    reached, and every part of [processReq] between two such points is a
    function.  The handler runs in a goroutine of its own ([rq_handler]).
    What rand returns is an argument: whether the request or the reply is
    dropped or delayed; sleeping is a pause between two steps.

    A handler is found by reflection: [Method] is what reflect says of a
    method, with its argument and reply types and their encoders, and
    [me_Func], what it leaves in its reply in a state [St] of the program
    around the network; that state is an argument of the call.  End and server names
    are of type interface{}; nil is [None].  A pointer to a [Server] is its
    index in [ls_heap].

    A state keeps a history of what the goroutines read and of the calls of
    [dispatch], so that theorems can say which call a reply comes from.

    Theorems: a handler is called at most once per request, and every request
    gets exactly one reply, which is a failure or what that call returned, at
    the server the request was sent to; nothing is ever stuck, the tick that
    looks for a dead server ends a wait without the handler; a reliable
    network loses nothing; and arguments and replies come through
    unchanged. *)

From Stdlib Require Import Ascii.
From stdpp Require Import base list gmap sets strings relations.
From Stdlib Require Import ZArith Lia.
From S2P Require Import Prelude Runes.

(** [atomic.AddInt32] *)
Definition wrap32 (x : Z) : Z := ((x + 2 ^ 31) mod 2 ^ 32 - 2 ^ 31)%Z.

Section Network.
Context {St : Type} {Name : Type} `{!EqDecision Name, !Countable Name}.

(** ** Services *)

(** A method as reflect describes it. *)
Record Method : Type := mkMethod {
  me_Name : string;
  me_PkgPath : string; (* empty for an exported method *)
  me_NumIn : Z;
  me_In2Ptr : bool;    (* the third parameter is a pointer *)
  me_NumOut : Z;
  me_argsType : string;
  me_args : Type;
  me_reply : Type;
  me_gobArgs : Gob me_args;
  me_gobReply : Gob me_reply;
  me_zeroArgs : me_args;   (* what reflect.New gives *)
  me_zeroReply : me_reply;
  me_Func : St → me_args → me_reply → me_reply;
}.

Record Service : Type := mkService {
  svc_name : string;
  svc_methods : gmap string Method;
}.

Definition suitable (m : Method) : bool :=
  negb (negb (bool_decide (me_PkgPath m = "")) || negb (bool_decide (me_NumIn m = 3)%Z) ||
        negb (me_In2Ptr m) || negb (bool_decide (me_NumOut m = 0)%Z)).

(** [name] and [methods] are what reflect says of the receiver. *)
Definition MakeService (name : string) (methods : list Method) : Service :=
  mkService name (foldl (λ ms m, if suitable m then <[me_Name m := m]> ms else ms) ∅ methods).

Record Server : Type := mkServer {
  sv_services : gmap string Service;
  sv_count : Z;
}.

Definition MakeServer : Server := mkServer ∅ 0.

Definition AddService (rs : Server) (svc : Service) : Server :=
  mkServer (<[svc_name svc := svc]> (sv_services rs)) (sv_count rs).

Definition Server_GetCount (rs : Server) : Z := sv_count rs.

(** [strings.LastIndex(s, ".")] *)
Fixpoint lastDot (s : string) : option nat :=
  match s with
  | EmptyString => None
  | String a s =>
      match lastDot s with
      | Some i => Some (S i)
      | None => if decide (a = "."%char) then Some 0 else None
      end
  end.

(** ** Lemmas on names and services *)

Lemma lastDot_app s t : lastDot t = None → lastDot (s +:+ String "." t) = Some (String.length s).
Proof.
  intros Ht. induction s as [|a s IH]; [|rewrite append_cons; simpl; by rewrite IH].
  change ("" +:+ ?x) with x. simpl. by rewrite Ht.
Qed.

Lemma substring_whole s : String.substring 0 (String.length s) s = s.
Proof. induction s as [|a s IH]; simpl; [done|]. by rewrite IH. Qed.

Lemma substring_after s a t n :
  String.substring (String.length s + 1) n (s +:+ String a t) = String.substring 0 n t.
Proof. induction s as [|b s IH]; [done|]. rewrite append_cons. exact IH. Qed.

Lemma string_length_app s t : String.length (s +:+ t) = String.length s + String.length t.
Proof. induction s as [|a s IH]; [done|]. rewrite append_cons. simpl. by rewrite IH. Qed.

(** The methods of a service are the suitable ones of its receiver. *)
Lemma foldl_methods_ne (ms : gmap string Method) methods x :
  x ∉ me_Name <$> methods →
  foldl (λ ms m, if suitable m then <[me_Name m := m]> ms else ms) ms methods !! x = ms !! x.
Proof.
  revert ms. induction methods as [|m methods IH]; intros ms Hx; [done|]. simpl.
  apply not_elem_of_cons in Hx as [Hne Hx]. rewrite IH by done. destruct (suitable m); [|done]. by apply lookup_insert_ne.
Qed.

Lemma MakeService_lookup name methods m :
  NoDup (me_Name <$> methods) → m ∈ methods →
  svc_methods (MakeService name methods) !! me_Name m = if suitable m then Some m else None.
Proof.
  simpl. assert (H0 : (∅ : gmap string Method) !! me_Name m = None) by apply lookup_empty. revert H0.
  generalize (∅ : gmap string Method) as ms. induction methods as [|m' methods IH]; intros ms H0 Hnd Hm; [by apply elem_of_nil in Hm|].
  simpl in Hnd. apply NoDup_cons in Hnd as [Hnew Hnd]. simpl. apply elem_of_cons in Hm as [<-|Hm].
  - rewrite foldl_methods_ne by done. destruct (suitable m); [apply lookup_insert_eq|done].
  - apply IH; [|done|done]. destruct (suitable m'); [|done]. rewrite lookup_insert_ne; [done|].
    intros E. apply Hnew. rewrite E. by apply list_elem_of_fmap_2.
Qed.

(** The running sum of [atomic.AddInt32] wraps once. *)
Lemma wrap32_add x y : wrap32 (wrap32 x + y) = wrap32 (x + y).
Proof.
  unfold wrap32. f_equal. replace ((x + 2 ^ 31) mod 2 ^ 32 - 2 ^ 31 + y + 2 ^ 31)%Z with ((x + 2 ^ 31) mod 2 ^ 32 + y)%Z by lia.
  rewrite Zplus_mod_idemp_l. f_equal. lia.
Qed.

Record reqMsg : Type := mkReqMsg {
  rm_endname : Name;
  rm_svcMeth : string;
  rm_argsType : string;
  rm_args : bytes;
}.

Record replyMsg : Type := mkReplyMsg {
  rp_ok : bool;
  rp_reply : bytes;
}.

Definition failure : replyMsg := mkReplyMsg false [].

(** [Service.dispatch].  The error of decoding is ignored; a call with a value
    of another type than the parameter's is a panic of reflect. *)
Definition Service_dispatch (σ : St) (svc : Service) (methname : string) (req : reqMsg) : Res replyMsg :=
  match svc_methods svc !! methname with
  | Some m =>
      if bool_decide (rm_argsType req = me_argsType m) then
        let args := default (me_zeroArgs m) (@gob_decode _ (me_gobArgs m) (rm_args req)) in
        Ok (mkReplyMsg true (@gob_encode _ (me_gobReply m) (me_Func m σ args (me_zeroReply m))))
      else Panic
  | None => Panic
  end.

(** [Server.dispatch]: the first critical section, then the service. *)
Definition Server_dispatch (σ : St) (rs : Server) (req : reqMsg) : Res (Server * replyMsg) :=
  let rs := mkServer (sv_services rs) (wrap64 (sv_count rs + 1)) in
  match lastDot (rm_svcMeth req) with
  | None => Panic (* the slice expression [:-1] *)
  | Some dot =>
      let serviceName := String.substring 0 dot (rm_svcMeth req) in
      let methodName := String.substring (dot + 1) (String.length (rm_svcMeth req) - dot - 1) (rm_svcMeth req) in
      match sv_services rs !! serviceName with
      | Some service => r ← Service_dispatch σ service methodName req; Ok (rs, r)
      | None => Panic
      end
  end.

(** ** The network *)

Record Network : Type := mkNetwork {
  reliable : bool;
  longDelays : bool;
  longReordering : bool;
  ends : gset Name;
  enabled : gmap Name bool;
  servers : gmap Name (option nat);
  connections : gmap Name (option Name);
  nw_done : bool;
  nw_count : Z;
  nw_bytes : Z;
}.

Definition MakeNetwork : Network := mkNetwork true false false ∅ ∅ ∅ ∅ false 0 0.

Definition Cleanup (rn : Network) : Res Network :=
  if nw_done rn then Panic (* close of a closed channel *)
  else Ok (mkNetwork (reliable rn) (longDelays rn) (longReordering rn) (ends rn) (enabled rn) (servers rn)
             (connections rn) true (nw_count rn) (nw_bytes rn)).

Definition Reliable (rn : Network) (yes : bool) : Network :=
  mkNetwork yes (longDelays rn) (longReordering rn) (ends rn) (enabled rn) (servers rn) (connections rn)
    (nw_done rn) (nw_count rn) (nw_bytes rn).

Definition LongReordering (rn : Network) (yes : bool) : Network :=
  mkNetwork (reliable rn) (longDelays rn) yes (ends rn) (enabled rn) (servers rn) (connections rn)
    (nw_done rn) (nw_count rn) (nw_bytes rn).

Definition LongDelays (rn : Network) (yes : bool) : Network :=
  mkNetwork (reliable rn) yes (longReordering rn) (ends rn) (enabled rn) (servers rn) (connections rn)
    (nw_done rn) (nw_count rn) (nw_bytes rn).

(** A second end of the same name is fatal. *)
Definition MakeEnd (rn : Network) (endname : Name) : Res Network :=
  if bool_decide (endname ∈ ends rn) then Panic
  else Ok (mkNetwork (reliable rn) (longDelays rn) (longReordering rn) ({[endname]} ∪ ends rn)
             (<[endname := false]> (enabled rn)) (servers rn) (<[endname := None]> (connections rn))
             (nw_done rn) (nw_count rn) (nw_bytes rn)).

Definition AddServer (rn : Network) (servername : Name) (rs : nat) : Network :=
  mkNetwork (reliable rn) (longDelays rn) (longReordering rn) (ends rn) (enabled rn)
    (<[servername := Some rs]> (servers rn)) (connections rn) (nw_done rn) (nw_count rn) (nw_bytes rn).

Definition DeleteServer (rn : Network) (servername : Name) : Network :=
  mkNetwork (reliable rn) (longDelays rn) (longReordering rn) (ends rn) (enabled rn)
    (<[servername := None]> (servers rn)) (connections rn) (nw_done rn) (nw_count rn) (nw_bytes rn).

Definition Connect (rn : Network) (endname servername : Name) : Network :=
  mkNetwork (reliable rn) (longDelays rn) (longReordering rn) (ends rn) (enabled rn) (servers rn)
    (<[endname := Some servername]> (connections rn)) (nw_done rn) (nw_count rn) (nw_bytes rn).

Definition Enable (rn : Network) (endname : Name) (yes : bool) : Network :=
  mkNetwork (reliable rn) (longDelays rn) (longReordering rn) (ends rn) (<[endname := yes]> (enabled rn))
    (servers rn) (connections rn) (nw_done rn) (nw_count rn) (nw_bytes rn).

(** A server that is not there is a nil pointer. *)
Definition GetCount (rn : Network) (heap : list Server) (servername : Name) : Res Z :=
  match default None (servers rn !! servername) with
  | Some p => match heap !! p with Some rs => Ok (Server_GetCount rs) | None => Panic end
  | None => Panic
  end.

Definition GetTotalCount (rn : Network) : Z := nw_count rn.
Definition GetTotalBytes (rn : Network) : Z := nw_bytes rn.

(** The goroutine of [MakeNetwork], on a request. *)
Definition countRequest (rn : Network) (req : reqMsg) : Network :=
  mkNetwork (reliable rn) (longDelays rn) (longReordering rn) (ends rn) (enabled rn) (servers rn) (connections rn)
    (nw_done rn) (wrap32 (nw_count rn + 1)) (wrap64 (nw_bytes rn + zlen (rm_args req))).

Definition countReply (rn : Network) (r : replyMsg) : Network :=
  mkNetwork (reliable rn) (longDelays rn) (longReordering rn) (ends rn) (enabled rn) (servers rn) (connections rn)
    (nw_done rn) (nw_count rn) (wrap64 (nw_bytes rn + zlen (rp_reply r))).

(** What [processReq] reads of its end. *)
Record EndInfo : Type := mkEndInfo {
  ei_enabled : bool;
  ei_servername : option Name;
  ei_server : option nat;
  ei_reliable : bool;
  ei_longreordering : bool;
}.

Definition readEndnameInfo (rn : Network) (endname : Name) : EndInfo :=
  let servername := default None (connections rn !! endname) in
  mkEndInfo (default false (enabled rn !! endname)) servername
    (match servername with Some n => default None (servers rn !! n) | None => None end)
    (reliable rn) (longReordering rn).

Definition isServerDead (rn : Network) (endname servername : Name) (server : nat) : bool :=
  negb (default false (enabled rn !! endname)) || negb (bool_decide (default None (servers rn !! servername) = Some server)).

(** ** processReq *)

(** What a goroutine with a live server has read. *)
Record Target : Type := mkTarget {
  tg_servername : Name;
  tg_server : nat;
  tg_reliable : bool;
  tg_longreordering : bool;
}.

Inductive Stage : Type :=
| AtStart
| AtDelay (t : Target)                      (* the short delay *)
| AtWait (t : Target)                       (* the loop that waits for the handler *)
| AtReply (t : Target) (reply : option replyMsg) (* after the loop; None: replyOK is false *)
| AtTimer (reply : replyMsg)                (* time.AfterFunc, of the reply or of a failure *)
| AtEnd.

Inductive Handler : Type :=
| HNone
| HRunning (server : nat)
| HFinished (reply : replyMsg).

(** Lines 223 to 225 and the else branch. *)
Definition proc_start (rn : Network) (req : reqMsg) : Stage :=
  let i := readEndnameInfo rn (rm_endname req) in
  match ei_enabled i, ei_servername i, ei_server i with
  | true, Some n, Some s => AtDelay (mkTarget n s (ei_reliable i) (ei_longreordering i))
  | _, _, _ => AtTimer failure
  end.

(** After the delay: the request is dropped, or the handler is started.  The
    replies sent on [replyCh] are returned. *)
Definition proc_send (t : Target) (drop : bool) : Stage * Handler * list replyMsg :=
  if negb (tg_reliable t) && drop then (AtEnd, HNone, [failure])
  else (AtWait t, HRunning (tg_server t), []).

(** One pass of the loop: the reply of the handler, or the tick of 100 ms. *)
Definition proc_wait_reply (t : Target) (reply : replyMsg) : Stage := AtReply t (Some reply).
Definition proc_wait_tick (rn : Network) (req : reqMsg) (t : Target) : Stage :=
  if isServerDead rn (rm_endname req) (tg_servername t) (tg_server t) then AtReply t None else AtWait t.

(** The last part; [drop] and [delay] are what rand says. *)
Definition proc_reply (rn : Network) (req : reqMsg) (t : Target) (reply : option replyMsg) (drop delay : bool)
    : Network * Stage * list replyMsg :=
  let serverDead := isServerDead rn (rm_endname req) (tg_servername t) (tg_server t) in
  match reply with
  | None => (rn, AtEnd, [failure])
  | Some r =>
      if serverDead then (rn, AtEnd, [failure])
      else if negb (tg_reliable t) && drop then (rn, AtEnd, [failure])
      else if tg_longreordering t && delay then (rn, AtTimer r, [])
      else (countReply rn r, AtEnd, [r])
  end.

(** The timer fires; a reply is counted, a failure is not. *)
Definition proc_timer (rn : Network) (r : replyMsg) : Network * Stage * list replyMsg :=
  (if rp_ok r then countReply rn r else rn, AtEnd, [r]).

(** ** ClientEnd.Call *)

Definition Call_request {A} `{!Gob A} (endname : Name) (svcMeth argsType : string) (args : A) : reqMsg :=
  mkReqMsg endname svcMeth argsType (gob_encode args).

(** What the caller makes of the reply: [None] is the result false. *)
Definition Call_reply {R} `{!Gob R} (rep : replyMsg) : Res (option R) :=
  if rp_ok rep then
    match gob_decode (rp_reply rep) with Some r => Ok (Some r) | None => Panic end
  else Ok None.

(** ** The whole *)

Record Request : Type := mkRequest {
  rq_msg : reqMsg;
  rq_stage : Stage;
  rq_handler : Handler;
  rq_replies : list replyMsg; (* what was sent on replyCh *)
}.

(** What the goroutines of the requests did, in order: [processReq] of request
    [k] read its end in the network [rn]; the goroutine it started called
    [dispatch] on server [p], which was then [rs], in the state [σ] of the
    program, and [dispatch] returned [r]. *)
Inductive NetEvent : Type :=
| EvRead (k : nat) (rn : Network)
| EvCall (k p : nat) (σ : St) (rs : Server) (r : replyMsg).

Record LabState : Type := mkLabState {
  ls_net : Network;
  ls_listening : bool; (* the goroutine of MakeNetwork has not returned *)
  ls_heap : list Server;
  ls_reqs : list Request;
  ls_history : list NetEvent;
}.

(** The requests that read their ends, and those whose handlers were called. *)
Definition rpc_reads (h : list NetEvent) : list nat := omap (λ e, match e with EvRead k _ => Some k | _ => None end) h.
Definition rpc_calls (h : list NetEvent) : list nat := omap (λ e, match e with EvCall k _ _ _ _ => Some k | _ => None end) h.

(** What the program does to the network between requests. *)
Inductive net_op (heap : list Server) : Network → Network → Prop :=
| op_reliable rn yes : net_op heap rn (Reliable rn yes)
| op_reordering rn yes : net_op heap rn (LongReordering rn yes)
| op_delays rn yes : net_op heap rn (LongDelays rn yes)
| op_end rn e rn' : MakeEnd rn e = Ok rn' → net_op heap rn rn'
| op_add rn n p : p < length heap → net_op heap rn (AddServer rn n p)
| op_delete rn n : net_op heap rn (DeleteServer rn n)
| op_connect rn e n : net_op heap rn (Connect rn e n)
| op_enable rn e yes : net_op heap rn (Enable rn e yes)
| op_cleanup rn rn' : Cleanup rn = Ok rn' → net_op heap rn rn'.

Definition set_reqs (st : LabState) (rn : Network) (reqs : list Request) : LabState :=
  mkLabState rn (ls_listening st) (ls_heap st) reqs (ls_history st).

(** The steps of the goroutines of request [k]. *)
Inductive req_step (k : nat) (st : LabState) : LabState → Prop :=
| req_start rq :
    ls_reqs st !! k = Some rq → rq_stage rq = AtStart →
    req_step k st (mkLabState (ls_net st) (ls_listening st) (ls_heap st)
      (<[k := mkRequest (rq_msg rq) (proc_start (ls_net st) (rq_msg rq)) (rq_handler rq) (rq_replies rq)]> (ls_reqs st))
      (ls_history st ++ [EvRead k (ls_net st)]))
| req_send rq t drop stage h out :
    ls_reqs st !! k = Some rq → rq_stage rq = AtDelay t → proc_send t drop = (stage, h, out) →
    req_step k st (set_reqs st (ls_net st) (<[k := mkRequest (rq_msg rq) stage h (rq_replies rq ++ out)]> (ls_reqs st)))
| req_handle rq p rs σ rs' r :
    ls_reqs st !! k = Some rq → rq_handler rq = HRunning p → ls_heap st !! p = Some rs →
    Server_dispatch σ rs (rq_msg rq) = Ok (rs', r) →
    req_step k st (mkLabState (ls_net st) (ls_listening st) (<[p := rs']> (ls_heap st))
      (<[k := mkRequest (rq_msg rq) (rq_stage rq) (HFinished r) (rq_replies rq)]> (ls_reqs st))
      (ls_history st ++ [EvCall k p σ rs r]))
| req_wait_reply rq t r :
    ls_reqs st !! k = Some rq → rq_stage rq = AtWait t → rq_handler rq = HFinished r →
    req_step k st (set_reqs st (ls_net st)
      (<[k := mkRequest (rq_msg rq) (proc_wait_reply t r) (rq_handler rq) (rq_replies rq)]> (ls_reqs st)))
| req_wait_tick rq t :
    ls_reqs st !! k = Some rq → rq_stage rq = AtWait t →
    req_step k st (set_reqs st (ls_net st)
      (<[k := mkRequest (rq_msg rq) (proc_wait_tick (ls_net st) (rq_msg rq) t) (rq_handler rq) (rq_replies rq)]> (ls_reqs st)))
| req_reply rq t reply drop delay rn stage out :
    ls_reqs st !! k = Some rq → rq_stage rq = AtReply t reply →
    proc_reply (ls_net st) (rq_msg rq) t reply drop delay = (rn, stage, out) →
    req_step k st (set_reqs st rn (<[k := mkRequest (rq_msg rq) stage (rq_handler rq) (rq_replies rq ++ out)]> (ls_reqs st)))
| req_timer rq r rn stage out :
    ls_reqs st !! k = Some rq → rq_stage rq = AtTimer r → proc_timer (ls_net st) r = (rn, stage, out) →
    req_step k st (set_reqs st rn (<[k := mkRequest (rq_msg rq) stage (rq_handler rq) (rq_replies rq ++ out)]> (ls_reqs st))).

(** Everything that leaves the settings of the network alone. *)
Inductive quiet_step (st : LabState) : LabState → Prop :=
| quiet_req k st' : req_step k st st' → quiet_step st st'
| quiet_call req : ls_listening st = true →
    quiet_step st (mkLabState (countRequest (ls_net st) req) (ls_listening st) (ls_heap st)
      (ls_reqs st ++ [mkRequest req AtStart HNone []]) (ls_history st))
| quiet_server : quiet_step st (mkLabState (ls_net st) (ls_listening st) (ls_heap st ++ [MakeServer]) (ls_reqs st) (ls_history st))
| quiet_service p rs svc : ls_heap st !! p = Some rs →
    quiet_step st (mkLabState (ls_net st) (ls_listening st) (<[p := AddService rs svc]> (ls_heap st)) (ls_reqs st) (ls_history st))
| quiet_unlisten : nw_done (ls_net st) = true →
    quiet_step st (mkLabState (ls_net st) false (ls_heap st) (ls_reqs st) (ls_history st)).

Inductive lab_step (st : LabState) : LabState → Prop :=
| lab_quiet st' : quiet_step st st' → lab_step st st'
| lab_net rn : net_op (ls_heap st) (ls_net st) rn → lab_step st (set_reqs st rn (ls_reqs st)).

Definition initLab : LabState := mkLabState MakeNetwork true [] [] [].

(** ** Every request gets one reply *)

(** When [processReq] of request [k] read its end, the end was enabled and
    connected to the name [n], which was server [p]. *)
Definition sent_to (h : list NetEvent) (k : nat) (req : reqMsg) (n : Name) (p : nat) : Prop :=
  ∃ rn, EvRead k rn ∈ h ∧ enabled rn !! rm_endname req = Some true ∧
    connections rn !! rm_endname req = Some (Some n) ∧ servers rn !! n = Some (Some p).

(** The call of request [k] at server [p] returned [r]. *)
Definition answered (h : list NetEvent) (k : nat) (req : reqMsg) (p : nat) (r : replyMsg) : Prop :=
  ∃ σ rs rs', EvCall k p σ rs r ∈ h ∧ Server_dispatch σ rs req = Ok (rs', r).

(** The reply of the handler of request [k], at the server it was sent to. *)
Definition from_handler (h : list NetEvent) (k : nat) (req : reqMsg) (r : replyMsg) : Prop :=
  ∃ n p, sent_to h k req n p ∧ answered h k req p r.

Lemma reads_app h h' : rpc_reads (h ++ h') = rpc_reads h ++ rpc_reads h'.
Proof. apply omap_app. Qed.

Lemma calls_app h h' : rpc_calls (h ++ h') = rpc_calls h ++ rpc_calls h'.
Proof. apply omap_app. Qed.

Lemma elem_reads h k : k ∈ rpc_reads h ↔ ∃ rn, EvRead k rn ∈ h.
Proof.
  unfold rpc_reads. rewrite list_elem_of_omap. split.
  - intros ([j rn|] & He & Hj); [|done]. injection Hj as ->. by exists rn.
  - intros [rn He]. by exists (EvRead k rn).
Qed.

Lemma elem_calls h k : k ∈ rpc_calls h ↔ ∃ p σ rs r, EvCall k p σ rs r ∈ h.
Proof.
  unfold rpc_calls. rewrite list_elem_of_omap. split.
  - intros ([|j p σ rs r] & He & Hj); [done|]. injection Hj as ->. by exists p, σ, rs, r.
  - intros (p & σ & rs & r & He). by exists (EvCall k p σ rs r).
Qed.

Lemma sent_to_mono h h' k req n p : h ⊆ h' → sent_to h k req n p → sent_to h' k req n p.
Proof. intros Hsub (rn & He & H). exists rn. by split; [apply Hsub|]. Qed.

Lemma answered_mono h h' k req p r : h ⊆ h' → answered h k req p r → answered h' k req p r.
Proof. intros Hsub (σ & rs & rs' & He & H). exists σ, rs, rs'. by split; [apply Hsub|]. Qed.

Lemma dispatch_ok σ rs req rs' r : Server_dispatch σ rs req = Ok (rs', r) → rp_ok r = true.
Proof.
  unfold Server_dispatch. destruct (lastDot _); [|done]. destruct (_ !! _) as [svc|]; [|done].
  intros H. res_inv. simplify_eq. unfold Service_dispatch in E. destruct (_ !! _); [|done]. case_bool_decide; [|done]. by simplify_eq.
Qed.

(** What a request has, at every stage of its goroutine. *)
Record request_ok (heap : list Server) (h : list NetEvent) (k : nat) (rq : Request) : Prop := {
  ro_handler : match rq_handler rq with
               | HNone => k ∉ rpc_calls h
               | HRunning p => k ∉ rpc_calls h ∧ p < length heap ∧ ∃ n, sent_to h k (rq_msg rq) n p
               | HFinished r => from_handler h k (rq_msg rq) r ∧ rp_ok r = true
               end;
  ro_stage : match rq_stage rq with
             | AtStart => rq_handler rq = HNone ∧ rq_replies rq = [] ∧ k ∉ rpc_reads h
             | AtDelay t => rq_handler rq = HNone ∧ rq_replies rq = [] ∧ tg_server t < length heap ∧
                            sent_to h k (rq_msg rq) (tg_servername t) (tg_server t)
             | AtWait t => rq_replies rq = [] ∧ (rq_handler rq = HRunning (tg_server t) ∨ ∃ r, rq_handler rq = HFinished r)
             | AtReply t reply => rq_replies rq = [] ∧ ∀ r, reply = Some r → rq_handler rq = HFinished r
             | AtTimer r => rq_replies rq = [] ∧ (r = failure ∨ rq_handler rq = HFinished r)
             | AtEnd => ∃ r, rq_replies rq = [r] ∧ (r = failure ∨ rq_handler rq = HFinished r)
             end;
}.

Record lab_inv (st : LabState) : Prop := {
  li_reqs : ∀ k rq, ls_reqs st !! k = Some rq → request_ok (ls_heap st) (ls_history st) k rq;
  li_reads : NoDup (rpc_reads (ls_history st)) ∧ ∀ k, k ∈ rpc_reads (ls_history st) → k < length (ls_reqs st);
  li_calls : NoDup (rpc_calls (ls_history st)) ∧ ∀ k, k ∈ rpc_calls (ls_history st) → k < length (ls_reqs st);
  li_servers : ∀ n p, servers (ls_net st) !! n = Some (Some p) → p < length (ls_heap st);
}.

Lemma request_ok_frame heap heap' h h' k rq :
  request_ok heap h k rq → length heap ≤ length heap' → h ⊆ h' → (k ∈ rpc_reads h' → k ∈ rpc_reads h) → (k ∈ rpc_calls h' → k ∈ rpc_calls h) →
  request_ok heap' h' k rq.
Proof.
  intros [Hh Hs] Hlen Hsub Hrd Hc. split.
  - destruct (rq_handler rq) as [|p|r]; [tauto| |].
    + destruct Hh as (Hn & Hp & n & Hsent). split_and!; [tauto|lia|]. exists n. by eapply sent_to_mono.
    + destruct Hh as [(n & p & Hsent & Ha) Hok]. split; [|done]. exists n, p. split; [by eapply sent_to_mono|by eapply answered_mono].
  - destruct (rq_stage rq); try done; [naive_solver|]. destruct Hs as (? & ? & ? & ?).
    split_and!; [done|done|lia|by eapply sent_to_mono].
Qed.

Lemma NoDup_snoc_N (l : list nat) k : NoDup l → k ∉ l → NoDup (l ++ [k]).
Proof.
  intros Hl Hk. apply NoDup_app. split; [done|]. split; [|apply NoDup_singleton].
  by intros x Hx ->%list_elem_of_singleton.
Qed.

(** What a step of request [k] adds to the history. *)
Definition fresh_events (k : nat) (h evs : list NetEvent) : Prop :=
  evs = [] ∨ (∃ rn, evs = [EvRead k rn] ∧ k ∉ rpc_reads h) ∨ (∃ p σ rs r, evs = [EvCall k p σ rs r] ∧ k ∉ rpc_calls h).

Lemma fresh_reads k h evs : fresh_events k h evs → rpc_reads evs = [] ∨ rpc_reads evs = [k] ∧ k ∉ rpc_reads h.
Proof. intros [->|[(rn & -> & ?)|(p & σ & rs & r & -> & ?)]]; [by left|by right|by left]. Qed.

Lemma fresh_calls k h evs : fresh_events k h evs → rpc_calls evs = [] ∨ rpc_calls evs = [k] ∧ k ∉ rpc_calls h.
Proof. intros [->|[(rn & -> & ?)|(p & σ & rs & r & -> & ?)]]; [by left|by left|by right]. Qed.

Lemma fresh_frame k j h evs :
  fresh_events k h evs → j ≠ k → (j ∈ rpc_reads (h ++ evs) → j ∈ rpc_reads h) ∧ (j ∈ rpc_calls (h ++ evs) → j ∈ rpc_calls h).
Proof.
  intros Hf Hne. rewrite reads_app, calls_app, !elem_of_app. split.
  - intros [?|Hj]; [done|]. destruct (fresh_reads _ _ _ Hf) as [E|[E _]]; rewrite E in Hj; set_solver.
  - intros [?|Hj]; [done|]. destruct (fresh_calls _ _ _ Hf) as [E|[E _]]; rewrite E in Hj; set_solver.
Qed.

Lemma fresh_NoDup (l evs : list nat) k n :
  NoDup l → (∀ j, j ∈ l → j < n) → k < n → evs = [] ∨ evs = [k] ∧ k ∉ l → NoDup (l ++ evs) ∧ ∀ j, j ∈ l ++ evs → j < n.
Proof.
  intros Hl Hb Hk [->|[-> Hn]]; [by rewrite app_nil_r|]. split; [by apply NoDup_snoc_N|].
  intros j [Hj|Hj]%elem_of_app; [by apply Hb|]. by apply list_elem_of_singleton in Hj as ->.
Qed.

(** One request moves on. *)
Lemma inv_request st k rq rq' rn b heap h evs :
  lab_inv st → ls_reqs st !! k = Some rq → h = ls_history st ++ evs → fresh_events k (ls_history st) evs →
  request_ok heap h k rq' → length (ls_heap st) ≤ length heap → servers rn = servers (ls_net st) →
  lab_inv (mkLabState rn b heap (<[k := rq']> (ls_reqs st)) h).
Proof.
  intros [H1 [H2 H2'] [H3 H3'] H4] Hk -> Hf Hok Hlen Hsrv. pose proof (lookup_lt_Some _ _ _ Hk) as Hlt. split; simpl.
  - intros j rqj [(<- & <- & _)|[Hne Hj]]%list_lookup_insert_Some; [done|].
    destruct (fresh_frame k j _ _ Hf) as [Hr Hc]; [done|]. eapply request_ok_frame; [by apply H1|done|set_solver|done|done].
  - rewrite length_insert, reads_app. apply (fresh_NoDup _ _ k); [done..|by apply fresh_reads].
  - rewrite length_insert, calls_app. apply (fresh_NoDup _ _ k); [done..|by apply fresh_calls].
  - intros n p Hp. rewrite Hsrv in Hp. specialize (H4 n p Hp). lia.
Qed.

(** The history stays as it is. *)
Lemma inv_request_same st k rq rq' rn :
  lab_inv st → ls_reqs st !! k = Some rq → request_ok (ls_heap st) (ls_history st) k rq' →
  servers rn = servers (ls_net st) → lab_inv (set_reqs st rn (<[k := rq']> (ls_reqs st))).
Proof. intros Hi Hk Hok Hs. eapply (inv_request st k rq rq' rn _ _ _ []); [done|done|by rewrite app_nil_r|by left|done|done|done]. Qed.

Lemma proc_start_cases rn req :
  proc_start rn req = AtTimer failure ∨
  ∃ n p, proc_start rn req = AtDelay (mkTarget n p (reliable rn) (longReordering rn)) ∧
    enabled rn !! rm_endname req = Some true ∧ connections rn !! rm_endname req = Some (Some n) ∧
    servers rn !! n = Some (Some p).
Proof.
  unfold proc_start, readEndnameInfo. simpl. destruct (enabled rn !! rm_endname req) as [[]|]; simpl; [|by left|by left].
  destruct (connections rn !! rm_endname req) as [[n|]|]; simpl; [|by left|by left].
  destruct (servers rn !! n) as [[p|]|] eqn:E; simpl; [|by left|by left]. right. by exists n, p.
Qed.

Lemma start_inv st k rq :
  lab_inv st → ls_reqs st !! k = Some rq → rq_stage rq = AtStart →
  lab_inv (mkLabState (ls_net st) (ls_listening st) (ls_heap st)
    (<[k := mkRequest (rq_msg rq) (proc_start (ls_net st) (rq_msg rq)) (rq_handler rq) (rq_replies rq)]> (ls_reqs st))
    (ls_history st ++ [EvRead k (ls_net st)])).
Proof.
  intros Hi Hk Hst. destruct (li_reqs _ Hi k rq Hk) as [Rh Rs]. rewrite Hst in Rs. destruct Rs as (Hn & Hr & Hnr).
  rewrite Hn in Rh. eapply inv_request; [done|done|done|right; left; by eexists| |done|done]. split; simpl.
  { rewrite Hn, calls_app. simpl. by rewrite app_nil_r. }
  destruct (proc_start_cases (ls_net st) (rq_msg rq)) as [->|(n & p & -> & He & Hc & Hp)]; simpl.
  - split; [done|by left].
  - split_and!; [done|done|by eapply (li_servers _ Hi)|]. exists (ls_net st). split_and!; [set_solver|done..].
Qed.

Lemma handle_inv st k rq p rs σ rs' r :
  lab_inv st → ls_reqs st !! k = Some rq → rq_handler rq = HRunning p → ls_heap st !! p = Some rs →
  Server_dispatch σ rs (rq_msg rq) = Ok (rs', r) →
  lab_inv (mkLabState (ls_net st) (ls_listening st) (<[p := rs']> (ls_heap st))
    (<[k := mkRequest (rq_msg rq) (rq_stage rq) (HFinished r) (rq_replies rq)]> (ls_reqs st))
    (ls_history st ++ [EvCall k p σ rs r])).
Proof.
  intros Hi Hk Hh Hrs Hd. destruct (li_reqs _ Hi k rq Hk) as [Rh Rs]. rewrite Hh in Rh. destruct Rh as (Hnc & Hp & n & Hsent).
  eapply inv_request; [done|done|done|right; right; by eexists _, _, _, _| |by rewrite length_insert|done]. split; simpl.
  - split; [|by eapply dispatch_ok]. exists n, p. split; [eapply sent_to_mono; [|done]; set_solver|].
    exists σ, rs, rs'. split; [set_solver|done].
  - rewrite Hh in Rs. destruct (rq_stage rq).
    + by destruct Rs.
    + by destruct Rs.
    + split; [by destruct Rs|]. right. by eexists.
    + destruct Rs as [Hr Hx]. split; [done|]. intros r' Hr'. by specialize (Hx r' Hr').
    + destruct Rs as [Hr [->|Hx]]; [split; [done|by left]|done].
    + destruct Rs as (r' & Hr & [->|Hx]); [exists failure; split; [done|by left]|done].
Qed.

(** What the last part sends is a failure or the reply of the handler. *)
Lemma proc_reply_cases rn req t reply drop delay rn' stage out :
  proc_reply rn req t reply drop delay = (rn', stage, out) →
  servers rn' = servers rn ∧
  ((stage = AtEnd ∧ out = [failure]) ∨
   ∃ r, reply = Some r ∧ (stage = AtEnd ∧ out = [r] ∨ stage = AtTimer r ∧ out = [])).
Proof.
  unfold proc_reply. intros Hp. destruct reply as [r|]; [|by injection Hp as <- <- <-; auto].
  destruct (isServerDead _ _ _ _); [by injection Hp as <- <- <-; auto|].
  destruct (negb _ && drop); [by injection Hp as <- <- <-; auto|].
  destruct (_ && delay); injection Hp as <- <- <-; (split; [done|]); right; exists r; auto.
Qed.

Lemma req_step_inv k st st' : lab_inv st → req_step k st st' → lab_inv st'.
Proof.
  intros Hi Hstep.
  destruct Hstep as [rq Hk Hst|rq t drop stage h out Hk Hst Hp|rq p rs σ rs' r Hk Hh Hrs Hd|rq t r Hk Hst Hh
    |rq t Hk Hst|rq t reply drop delay rn stage out Hk Hst Hp|rq r rn stage out Hk Hst Hp];
    [by apply start_inv| |by eapply handle_inv|..]; destruct (li_reqs _ Hi k rq Hk) as [Rh Rs]; rewrite Hst in Rs.
  - destruct Rs as (Hn & Hr & Hlt & Hsent). rewrite Hn in Rh. apply (inv_request_same st k rq); [done|done| |done].
    unfold proc_send in Hp. destruct (negb _ && drop); injection Hp as <- <- <-; rewrite Hr; split; simpl; try done.
    + exists failure. split; [done|by left].
    + split_and!; [done|done|by eexists].
    + split; [done|by left].
  - destruct Rs as [Hr Hn]. apply (inv_request_same st k rq); [done|done| |done]. split; simpl; [done|].
    split; [done|]. by intros ? [= <-].
  - destruct Rs as [Hr Hn]. apply (inv_request_same st k rq); [done|done| |done].
    split; simpl; [done|]. unfold proc_wait_tick. destruct (isServerDead _ _ _ _); simpl; done.
  - destruct Rs as [Hr Hx]. destruct (proc_reply_cases _ _ _ _ _ _ _ _ _ Hp) as [Hsrv Hcases].
    apply (inv_request_same st k rq); [done|done| |done]. split; simpl; [done|]. rewrite Hr.
    destruct Hcases as [[-> ->]|(r & Hreply & [[-> ->]|[-> ->]])]; simpl.
    + eexists. split; [done|by left].
    + exists r. split; [done|right; by apply Hx].
    + split; [done|right; by apply Hx].
  - destruct Rs as [Hr Hx]. unfold proc_timer in Hp. injection Hp as <- <- <-.
    apply (inv_request_same st k rq); [done|done| |by destruct (rp_ok r)]. split; simpl; [done|]. rewrite Hr. by exists r.
Qed.

Lemma net_op_servers heap rn rn' n p :
  net_op heap rn rn' → servers rn' !! n = Some (Some p) → servers rn !! n = Some (Some p) ∨ p < length heap.
Proof.
  destruct 1 as [| | |rn e rn' He|rn n' p' Hp|rn n'| | |rn rn' Hc]; simpl; auto.
  - unfold MakeEnd in He. case_bool_decide; [done|]. injection He as <-. by left.
  - intros [[_ [= <-]]|[_ ?]]%lookup_insert_Some; auto.
  - intros [[_ ?]|[_ ?]]%lookup_insert_Some; auto. done.
  - unfold Cleanup in Hc. destruct (nw_done rn); [done|]. injection Hc as <-. by left.
Qed.

Lemma quiet_step_inv st st' : lab_inv st → quiet_step st st' → lab_inv st'.
Proof.
  intros Hi Hstep. destruct Hstep as [k st' Hr|req Hd| |p rs svc Hp|Hd]; [by eapply req_step_inv|..]; destruct Hi as [H1 [H2 H2'] [H3 H3'] H4].
  - split; simpl; [| | |done].
    + intros k rq [Hk|[Hlen Hk]]%lookup_app_Some; [by apply H1|]. apply list_lookup_singleton_Some in Hk as [Hk <-].
      assert (k = length (ls_reqs st)) as -> by lia. split; simpl; [intros Hin%H3'; lia|].
      split_and!; [done|done|]. intros Hin%H2'. lia.
    + split; [done|]. intros k Hk. rewrite length_app. specialize (H2' k Hk). lia.
    + split; [done|]. intros k Hk. rewrite length_app. specialize (H3' k Hk). lia.
  - split; simpl; [|done|done|].
    + intros k rq Hk. eapply request_ok_frame; [by apply H1|rewrite length_app; lia|done..].
    + intros n p Hp. rewrite length_app. specialize (H4 n p Hp). lia.
  - split; simpl; [|done|done|by intros; rewrite length_insert; eapply H4].
    intros k rq Hk. eapply request_ok_frame; [by apply H1|by rewrite length_insert|done..].
  - by split.
Qed.

Lemma lab_step_inv st st' : lab_inv st → lab_step st st' → lab_inv st'.
Proof.
  intros Hi [st1 Hq|rn Hop]; [by eapply quiet_step_inv|]. destruct Hi as [H1 H2 H3 H4]. split; simpl; [done|done|done|].
  intros n p Hp. by destruct (net_op_servers _ _ _ _ _ Hop Hp) as [?%H4|?].
Qed.

Lemma initLab_inv : lab_inv initLab.
Proof.
  split; simpl; [done|split; [constructor|]; by intros k ?%elem_of_nil..|]. intros n p. by rewrite lookup_empty.
Qed.

Lemma lab_reachable_inv st : rtc lab_step initLab st → lab_inv st.
Proof. apply rtc_preserve; [exact lab_step_inv|exact initLab_inv]. Qed.

(** ** No request is stuck *)

(** The server the goroutine of a request will wait for: the one it has read,
    or the one it reads next. *)
Definition target_of (rn : Network) (rq : Request) : option Target :=
  match rq_stage rq with
  | AtStart => match proc_start rn (rq_msg rq) with AtDelay t => Some t | _ => None end
  | AtDelay t | AtWait t => Some t
  | _ => None
  end.

Definition target_dead (rn : Network) (rq : Request) (t : Target) : bool :=
  isServerDead rn (rm_endname (rq_msg rq)) (tg_servername t) (tg_server t).

(** In some state of the program the handler returns. *)
Definition can_answer (heap : list Server) (req : reqMsg) (p : nat) : Prop :=
  ∃ rs σ rs' r, heap !! p = Some rs ∧ Server_dispatch σ rs req = Ok (rs', r).

Definition comes_to_end (k : nat) (st : LabState) : Prop :=
  ∃ st' rq, rtc (req_step k) st st' ∧ ls_reqs st' !! k = Some rq ∧ rq_stage rq = AtEnd.

(** It ends with a failure, and without a call of the handler. *)
Definition gives_up (k : nat) (st : LabState) : Prop :=
  ∃ st' rq, rtc (req_step k) st st' ∧ ls_reqs st' !! k = Some rq ∧ rq_stage rq = AtEnd ∧
    rq_replies rq = [failure] ∧ rpc_calls (ls_history st') = rpc_calls (ls_history st).

Lemma comes_to_end_step k st st1 : req_step k st st1 → comes_to_end k st1 → comes_to_end k st.
Proof. intros Hs (st' & rq & Hr & H). exists st', rq. split; [by eapply rtc_l|done]. Qed.

Lemma gives_up_step k st st1 :
  req_step k st st1 → rpc_calls (ls_history st1) = rpc_calls (ls_history st) → gives_up k st1 → gives_up k st.
Proof.
  intros Hs Hc (st' & rq & Hr & Hk & He & Hf & Hc'). exists st', rq. split; [by eapply rtc_l|].
  split_and!; [done..|by rewrite Hc', Hc].
Qed.

Lemma gives_up_ends k st : gives_up k st → comes_to_end k st.
Proof. intros (st' & rq & H1 & H2 & H3 & _). by exists st', rq. Qed.

Lemma set_lookup st rn k rq rq' :
  ls_reqs st !! k = Some rq → ls_reqs (set_reqs st rn (<[k := rq']> (ls_reqs st))) !! k = Some rq'.
Proof. intros H. simpl. apply list_lookup_insert_eq. by eapply lookup_lt_Some. Qed.

Lemma end_at_timer k st rq r : ls_reqs st !! k = Some rq → rq_stage rq = AtTimer r → comes_to_end k st.
Proof.
  intros Hk Hs. eexists _, _. split; [by apply rtc_once; eapply req_timer|].
  split; [by apply (set_lookup st _ k rq)|done].
Qed.

Lemma end_at_reply k st rq t reply : ls_reqs st !! k = Some rq → rq_stage rq = AtReply t reply → comes_to_end k st.
Proof.
  intros Hk Hs. destruct (proc_reply (ls_net st) (rq_msg rq) t reply false false) as [[rn stage] out] eqn:Hp.
  eexists _, _. split; [by apply rtc_once; eapply req_reply|]. split; [by apply (set_lookup st _ k rq)|]. simpl.
  unfold proc_reply in Hp. rewrite !andb_false_r in Hp. destruct reply; [destruct (isServerDead _ _ _ _)|]; by injection Hp as <- <- <-.
Qed.

(** The tick finds the server dead. *)
Lemma wait_gives_up k st rq t :
  ls_reqs st !! k = Some rq → rq_stage rq = AtWait t → rq_replies rq = [] → target_dead (ls_net st) rq t = true → gives_up k st.
Proof.
  intros Hk Hs Hr Hd. eapply gives_up_step; [by eapply req_wait_tick|done|]. unfold proc_wait_tick. unfold target_dead in Hd. rewrite Hd.
  eexists _, _. split_and!.
  - apply rtc_once. eapply (req_reply k _ _ t None false false); [by apply (set_lookup st _ k rq)|done|done].
  - apply (set_lookup (set_reqs st _ _) _ k (mkRequest (rq_msg rq) (AtReply t None) (rq_handler rq) (rq_replies rq))).
    by apply (set_lookup st _ k rq).
  - done.
  - simpl. by rewrite Hr.
  - done.
Qed.

Lemma wait_ends k st rq t :
  lab_inv st → ls_reqs st !! k = Some rq → rq_stage rq = AtWait t → can_answer (ls_heap st) (rq_msg rq) (tg_server t) →
  comes_to_end k st.
Proof.
  intros Hi Hk Hs (rs & σ & rs' & r & Hrs & Hd). destruct (li_reqs _ Hi k rq Hk) as [Hh Hst]. rewrite Hs in Hst.
  assert (Hfin : ∀ st1 rq1 r, ls_reqs st1 !! k = Some rq1 → rq_stage rq1 = AtWait t → rq_handler rq1 = HFinished r → comes_to_end k st1).
  { intros st1 rq1 r1 Hk1 Hs1 Hh1. eapply comes_to_end_step; [by eapply req_wait_reply|].
    eapply end_at_reply; [by apply (set_lookup st1 _ k rq1)|done]. }
  destruct Hst as [_ [Eh|[r1 Eh]]]; [|by eapply Hfin]. eapply comes_to_end_step; [by eapply req_handle|].
  eapply (Hfin _ _ r); [simpl; apply list_lookup_insert_eq; by eapply lookup_lt_Some|done|done].
Qed.

(** The request is not dropped. *)
Lemma send_step k st rq t :
  ls_reqs st !! k = Some rq → rq_stage rq = AtDelay t →
  req_step k st (set_reqs st (ls_net st)
    (<[k := mkRequest (rq_msg rq) (AtWait t) (HRunning (tg_server t)) (rq_replies rq ++ [])]> (ls_reqs st))).
Proof. intros Hk Hs. apply (req_send k st rq t false); [done|done|]. unfold proc_send. by rewrite andb_false_r. Qed.

Lemma delay_gives_up k st rq t :
  ls_reqs st !! k = Some rq → rq_stage rq = AtDelay t → rq_replies rq = [] → target_dead (ls_net st) rq t = true → gives_up k st.
Proof.
  intros Hk Hs Hr Hd. eapply gives_up_step; [by eapply send_step|done|].
  eapply wait_gives_up; [by apply (set_lookup st _ k rq)|done|by rewrite Hr|exact Hd].
Qed.

Lemma delay_ends k st rq t :
  lab_inv st → ls_reqs st !! k = Some rq → rq_stage rq = AtDelay t → can_answer (ls_heap st) (rq_msg rq) (tg_server t) →
  comes_to_end k st.
Proof.
  intros Hi Hk Hs Ha. pose proof (send_step k st rq t Hk Hs) as Hstep. eapply comes_to_end_step; [exact Hstep|].
  eapply wait_ends; [by eapply req_step_inv|by apply (set_lookup st _ k rq)|done|exact Ha].
Qed.

(** The goroutine of a request whose server is dead ends, without the handler. *)
Lemma request_gives_up k st rq t :
  lab_inv st → ls_reqs st !! k = Some rq → target_of (ls_net st) rq = Some t → target_dead (ls_net st) rq t = true → gives_up k st.
Proof.
  intros Hi Hk Ht Hd. destruct (li_reqs _ Hi k rq Hk) as [_ Hs]. unfold target_of in Ht.
  destruct (rq_stage rq) as [|t'|t'| | |] eqn:Es; try done.
  - pose proof (req_start k st rq Hk Es) as Hstep. destruct Hs as (Hn & Hr & _).
    destruct (proc_start (ls_net st) (rq_msg rq)) as [|t1| | | |] eqn:Ep; try done. injection Ht as ->.
    eapply gives_up_step; [exact Hstep|simpl; rewrite calls_app; apply app_nil_r|].
    eapply (delay_gives_up k _ _ t); [simpl; apply list_lookup_insert_eq; by eapply lookup_lt_Some|done|done|exact Hd].
  - injection Ht as ->. eapply delay_gives_up; [done|done|tauto|done].
  - injection Ht as ->. eapply wait_gives_up; [done|done|tauto|done].
Qed.

(** The goroutine of a request in any stage ends. *)
Lemma request_ends k st rq :
  lab_inv st → ls_reqs st !! k = Some rq →
  (∀ t, target_of (ls_net st) rq = Some t → can_answer (ls_heap st) (rq_msg rq) (tg_server t)) → comes_to_end k st.
Proof.
  intros Hi Hk Hserve. unfold target_of in Hserve. destruct (rq_stage rq) as [|t|t|t reply|r|] eqn:Es.
  - pose proof (req_start k st rq Hk Es) as Hstep. eapply comes_to_end_step; [exact Hstep|].
    assert (Hk1 := list_lookup_insert_eq (ls_reqs st) k
      (mkRequest (rq_msg rq) (proc_start (ls_net st) (rq_msg rq)) (rq_handler rq) (rq_replies rq)) (lookup_lt_Some _ _ _ Hk)).
    destruct (proc_start_cases (ls_net st) (rq_msg rq)) as [E|(n & p & E & _)]; rewrite E in *.
    + by eapply end_at_timer.
    + eapply delay_ends; [by eapply req_step_inv|exact Hk1|done|]. by apply Hserve.
  - eapply delay_ends; [done..|]. by apply Hserve.
  - eapply wait_ends; [done..|]. by apply Hserve.
  - by eapply end_at_reply.
  - by eapply end_at_timer.
  - exists st, rq. split; [apply rtc_refl|done].
Qed.

(** The steps the goroutines of a request have left at most, ticks that find
    the server alive not counted. *)
Definition stage_left (s : Stage) : nat :=
  match s with AtStart => 10 | AtDelay _ => 8 | AtWait _ => 6 | AtReply _ _ => 4 | AtTimer _ => 2 | AtEnd => 0 end.

Definition handler_left (h : Handler) : nat := match h with HRunning _ => 1 | _ => 0 end.

Definition steps_left (k : nat) (st : LabState) : nat :=
  match ls_reqs st !! k with Some rq => stage_left (rq_stage rq) + handler_left (rq_handler rq) | None => 0 end.

(** A tick that finds the server alive. *)
Definition idle_tick (k : nat) (st : LabState) : Prop :=
  ∃ rq t, ls_reqs st !! k = Some rq ∧ rq_stage rq = AtWait t ∧ target_dead (ls_net st) rq t = false.

Lemma steps_left_insert k st rq rn b heap h :
  k < length (ls_reqs st) →
  steps_left k (mkLabState rn b heap (<[k := rq]> (ls_reqs st)) h) = stage_left (rq_stage rq) + handler_left (rq_handler rq).
Proof. intros Hk. unfold steps_left. simpl. by rewrite list_lookup_insert_eq. Qed.

Lemma steps_left_bound k st : steps_left k st ≤ 11.
Proof.
  unfold steps_left. destruct (ls_reqs st !! k) as [rq|]; [|lia].
  destruct (rq_stage rq); destruct (rq_handler rq); simpl; lia.
Qed.

Lemma req_step_progress k st st' : req_step k st st' → steps_left k st' < steps_left k st ∨ st' = st ∧ idle_tick k st.
Proof.
  intros Hstep.
  destruct Hstep as [rq Hk Hst|rq t drop stage h out Hk Hst Hp|rq p rs σ rs' r Hk Hh Hrs Hd|rq t r Hk Hst Hh
    |rq t Hk Hst|rq t reply drop delay rn stage out Hk Hst Hp|rq r rn stage out Hk Hst Hp];
    pose proof (lookup_lt_Some _ _ _ Hk) as Hlt; unfold set_reqs; rewrite steps_left_insert by done;
    assert (steps_left k st = stage_left (rq_stage rq) + handler_left (rq_handler rq)) as -> by (unfold steps_left; by rewrite Hk);
    try rewrite Hst; simpl.
  - left. destruct (proc_start_cases (ls_net st) (rq_msg rq)) as [->|(n & p & -> & _)]; simpl; lia.
  - left. unfold proc_send in Hp. destruct (negb _ && drop); injection Hp as <- <- <-; simpl; lia.
  - left. rewrite Hh. simpl. lia.
  - left. lia.
  - unfold proc_wait_tick. destruct (isServerDead _ _ _ _) eqn:Ed; [left; simpl; lia|right]. split; [|by exists rq, t].
    rewrite list_insert_id; [by destruct st|]. rewrite Hk, <-Hst. by destruct rq.
  - left. destruct (proc_reply_cases _ _ _ _ _ _ _ _ _ Hp) as [_ [[-> _]|(r & _ & [[-> _]|[-> _]])]]; simpl; lia.
  - left. unfold proc_timer in Hp. injection Hp as _ <- _. simpl. lia.
Qed.

(** ** A reliable network *)

(** The end is connected to a server that is there, and the network does not
    lose messages. *)
Record connected (rn : Network) (e : Name) (n : Name) (p : nat) : Prop := {
  cn_reliable : reliable rn = true;
  cn_enabled : enabled rn !! e = Some true;
  cn_connection : connections rn !! e = Some (Some n);
  cn_server : servers rn !! n = Some (Some p);
}.

Lemma connected_alive rn e n p : connected rn e n p → isServerDead rn e n p = false.
Proof. intros [_ He _ Hs]. unfold isServerDead. rewrite He, Hs. simpl. by rewrite bool_decide_true. Qed.

Lemma connected_ext rn rn' e n p :
  connected rn e n p → reliable rn' = reliable rn → enabled rn' = enabled rn → connections rn' = connections rn →
  servers rn' = servers rn → connected rn' e n p.
Proof. intros [] E0 E1 E2 E3. split; congruence. Qed.

(** A request that nothing has happened to. *)
Definition unharmed (n : Name) (p : nat) (rq : Request) : Prop :=
  match rq_stage rq with
  | AtStart => True
  | AtDelay t | AtWait t => tg_servername t = n ∧ tg_server t = p ∧ tg_reliable t = true
  | AtReply t reply => tg_servername t = n ∧ tg_server t = p ∧ tg_reliable t = true ∧ reply ≠ None
  | AtTimer r => rp_ok r = true
  | AtEnd => ∃ r, rq_replies rq = [r] ∧ rp_ok r = true
  end.

Record safe_request (req : reqMsg) (n : Name) (p k : nat) (st : LabState) : Prop := {
  sr_inv : lab_inv st;
  sr_net : connected (ls_net st) (rm_endname req) n p;
  sr_req : ∃ rq, ls_reqs st !! k = Some rq ∧ rq_msg rq = req ∧ unharmed n p rq;
  sr_sent : ∀ n' p', sent_to (ls_history st) k req n' p' → n' = n ∧ p' = p;
}.

(** The settings do not change in a quiet step. *)
Lemma quiet_settings st st' e n p : quiet_step st st' → connected (ls_net st) e n p → connected (ls_net st') e n p.
Proof.
  intros [k st1 Hr|req _| |p' rs svc _|_] Hc; simpl; try (by eapply connected_ext).
  destruct Hr as [| | | | |rq t reply drop delay rn stage out _ _ Hp|rq r rn stage out _ _ Hp]; simpl; try done.
  - unfold proc_reply in Hp. destruct reply as [r|]; [|by injection Hp as <- _ _].
    destruct (isServerDead _ _ _ _); [by injection Hp as <- _ _|]. destruct (negb _ && drop); [by injection Hp as <- _ _|].
    destruct (_ && delay); injection Hp as <- _ _; [done|by eapply connected_ext].
  - unfold proc_timer in Hp. injection Hp as <- _ _. destruct (rp_ok r); [by eapply connected_ext|done].
Qed.

Lemma unharmed_step req n p k st st' rq :
  lab_inv st → connected (ls_net st) (rm_endname req) n p → req_step k st st' → ls_reqs st !! k = Some rq → rq_msg rq = req →
  unharmed n p rq → ∃ rq', ls_reqs st' !! k = Some rq' ∧ rq_msg rq' = req ∧ unharmed n p rq'.
Proof.
  intros Hi Hc Hstep Hk He Hu. pose proof (li_reqs _ Hi k rq Hk) as [Hh Hs]. pose proof (connected_alive _ _ _ _ Hc) as Halive.
  destruct Hstep as [rq1 Hk1 Hst|rq1 t drop stage h out Hk1 Hst Hp|rq1 p1 rs σ rs' r Hk1 Hhd Hrs Hd|rq1 t r Hk1 Hst Hhd
    |rq1 t Hk1 Hst|rq1 t reply drop delay rn stage out Hk1 Hst Hp|rq1 r rn stage out Hk1 Hst Hp];
    rewrite Hk in Hk1; injection Hk1 as <-; (eexists; split; [simpl; apply list_lookup_insert_eq; by eapply lookup_lt_Some|]);
    (split; [done|]); unfold unharmed in *; try rewrite Hst in Hu; try rewrite Hst in Hs; simpl.
  - unfold proc_start, readEndnameInfo. destruct Hc as [H1 H2 H3 H4]. rewrite He, H2, H3. simpl. rewrite H4. simpl. by rewrite H1.
  - destruct Hu as (Hn & Hp' & Hr). unfold proc_send in Hp. rewrite Hr in Hp. simpl in Hp. by injection Hp as <- <- <-.
  - destruct (rq_stage rq); done.
  - destruct Hu as (Hn & Hp' & Hr). done.
  - destruct Hu as (Hn & Hp' & Hr). unfold proc_wait_tick. rewrite He, Hn, Hp', Halive. done.
  - destruct Hu as (Hn & Hp' & Hr & Hne). destruct Hs as [Hrep Hx]. destruct reply as [r|]; [|done].
    specialize (Hx r eq_refl). rewrite Hx in Hh. destruct Hh as [_ Hok].
    unfold proc_reply in Hp. rewrite He, Hn, Hp', Halive, Hr in Hp. simpl in Hp.
    destruct (_ && delay); injection Hp as _ <- <-; [done|]. exists r. by rewrite Hrep.
  - destruct Hs as [Hrep _]. unfold proc_timer in Hp. injection Hp as _ <- <-. exists r. by rewrite Hrep.
Qed.

(** Every step of the whole adds to the history what the network is then. *)
Lemma quiet_history st st' k rn : quiet_step st st' → EvRead k rn ∈ ls_history st' → EvRead k rn ∈ ls_history st ∨ rn = ls_net st.
Proof.
  intros [j st1 Hr|req _| |p' rs svc _|_]; simpl; auto. destruct Hr; simpl; auto; rewrite elem_of_app, list_elem_of_singleton.
  - intros [?|[= _ ->]]; auto.
  - intros [?|?]; [auto|done].
Qed.

Lemma sent_connected rn e n p n' p' :
  connected rn e n p → connections rn !! e = Some (Some n') → servers rn !! n' = Some (Some p') → n' = n ∧ p' = p.
Proof. intros [_ _ H3 H4] H1 H2. rewrite H3 in H1. injection H1 as ->. rewrite H4 in H2. by injection H2 as ->. Qed.

Lemma safe_request_step req n p k st st' : safe_request req n p k st → quiet_step st st' → safe_request req n p k st'.
Proof.
  intros [Hi Hc (rq & Hk & He & Hu) Hsent] Hq. split; [by eapply quiet_step_inv|by eapply quiet_settings| |]; cycle 1.
  { intros n' p' (rn & Hin & H1 & H2 & H3). destruct (quiet_history _ _ _ _ Hq Hin) as [Hold| ->]; [|by eapply sent_connected].
    apply Hsent. by exists rn. }
  destruct Hq as [j st1 Hr|req' _| |p' rs svc _|_]; simpl; try (by exists rq); cycle 1.
  { exists rq. split; [by apply lookup_app_l_Some|done]. }
  destruct (decide (j = k)) as [->|Hne]; [by eapply unharmed_step|].
  exists rq. split; [|done]. destruct Hr; simpl; by rewrite list_lookup_insert_ne.
Qed.

(** ** A server that was deleted *)

Definition stage_target (s : Stage) : option Target :=
  match s with AtDelay t | AtWait t | AtReply t _ => Some t | _ => None end.

(** A request whose server is gone before the last look at it. *)
Definition doomed (n : Name) (p k : nat) (st : LabState) : Prop :=
  ∃ rq, ls_reqs st !! k = Some rq ∧
    ((∃ t, stage_target (rq_stage rq) = Some t ∧ tg_servername t = n ∧ tg_server t = p) ∨
     (rq_stage rq = AtEnd ∧ rq_replies rq = [failure])).

(** Steps of the whole during which the server is not put back. *)
Definition gone_step (n : Name) (p : nat) (st st' : LabState) : Prop :=
  lab_step st st' ∧ servers (ls_net st') !! n ≠ Some (Some p).

Lemma gone_dead rn e n p : servers rn !! n ≠ Some (Some p) → isServerDead rn e n p = true.
Proof.
  intros H. unfold isServerDead. rewrite bool_decide_false; [by rewrite orb_true_r|].
  destruct (servers rn !! n) as [[q|]|]; simpl; congruence.
Qed.

Lemma doomed_req_step n p k st st' :
  lab_inv st → servers (ls_net st) !! n ≠ Some (Some p) → doomed n p k st → req_step k st st' → doomed n p k st'.
Proof.
  intros Hi Hgone (rq & Hk & Hd) Hstep. destruct (li_reqs _ Hi k rq Hk) as [Hh Hs].
  destruct Hstep as [rq1 Hk1 Hst|rq1 t drop stage h out Hk1 Hst Hp|rq1 p1 rs σ rs' r Hk1 Hhd Hrs Hdi|rq1 t r Hk1 Hst Hhd
    |rq1 t Hk1 Hst|rq1 t reply drop delay rn stage out Hk1 Hst Hp|rq1 r rn stage out Hk1 Hst Hp];
    rewrite Hk in Hk1; injection Hk1 as <-; (eexists; split; [simpl; apply list_lookup_insert_eq; by eapply lookup_lt_Some|]); simpl;
    try exact Hd; rewrite Hst in Hs; rewrite Hst in Hd; destruct Hd as [(t' & Ht & Hn & Hp')|[? _]]; try done; injection Ht as <-.
  - unfold proc_send in Hp. destruct (negb _ && drop); injection Hp as <- _ <-.
    + right. destruct Hs as (_ & -> & _). done.
    + left. by exists t.
  - left. by exists t.
  - left. unfold proc_wait_tick. destruct (isServerDead _ _ _ _); by exists t.
  - right. destruct Hs as [-> _]. unfold proc_reply in Hp. rewrite Hn, Hp', gone_dead in Hp by done.
    by destruct reply; injection Hp as _ <- <-.
Qed.

Lemma doomed_step n p k st st' :
  lab_inv st → servers (ls_net st) !! n ≠ Some (Some p) → doomed n p k st → lab_step st st' → doomed n p k st'.
Proof.
  intros Hi Hgone Hd [st1 [j st2 Hr|req _| |p' rs svc _|_]|rn _]; try exact Hd.
  - destruct (decide (j = k)) as [->|Hne]; [by eapply doomed_req_step|].
    destruct Hd as (rq & Hk & Hd). exists rq. split; [|done]. destruct Hr; simpl; by rewrite list_lookup_insert_ne.
  - destruct Hd as (rq & Hk & Hd). exists rq. split; [by apply lookup_app_l_Some|done].
Qed.

(** ** The properties of the network *)

(** C18: whatever the network is told to do, and whatever it loses or delays,
    [processReq] of a request reads its end once, the handler of a request is
    called at most once, and [Call] gets at most one reply, exactly one when
    the goroutine of the request is done.  The reply is a failure, or it is
    what the call of this request returned, at the server that its end was
    enabled for and connected to when [processReq] read it. *)
Theorem rpc_at_most_once st :
  rtc lab_step initLab st →
  NoDup (rpc_reads (ls_history st)) ∧ NoDup (rpc_calls (ls_history st)) ∧
  ∀ k rq, ls_reqs st !! k = Some rq →
    (rq_stage rq ≠ AtEnd → rq_replies rq = []) ∧ (rq_stage rq = AtEnd → ∃ r, rq_replies rq = [r]) ∧
    ∀ r, r ∈ rq_replies rq →
      r = failure ∨
      (rp_ok r = true ∧ ∃ n p, sent_to (ls_history st) k (rq_msg rq) n p ∧ answered (ls_history st) k (rq_msg rq) p r).
Proof.
  intros [H1 [H2 _] [H3 _] _]%lab_reachable_inv. split_and!; [done|done|]. intros k rq [Hh Hs]%H1.
  destruct (rq_stage rq) as [|t|t|t reply|r|].
  1-5: assert (rq_replies rq = []) as -> by (destruct Hs; tauto); split; [done|]; split; [done|]; by intros ? ?%elem_of_nil.
  destruct Hs as (r & -> & Hr). split; [done|]. split; [by exists r|]. intros r' ->%list_elem_of_singleton.
  destruct Hr as [->|Hr]; [by left|right]. rewrite Hr in Hh. destruct Hh as [Hf Hok]. split; [done|exact Hf].
Qed.

(** C34: no call hangs.  The goroutines of a request can, by their own steps,
    send it a reply, if its handler can return or its server is dead (its end
    disabled, or the server deleted or replaced); when the server is dead, the
    100 ms tick ends the wait with a failure even if the handler is not called
    at all.  And they cannot go on for ever: apart from the ticks that find
    the server alive, every step of theirs is one of at most eleven. *)
Theorem rpc_returns st k rq :
  rtc lab_step initLab st → ls_reqs st !! k = Some rq →
  (∀ t, target_of (ls_net st) rq = Some t → target_dead (ls_net st) rq t = true →
     ∃ st' rq', rtc (req_step k) st st' ∧ ls_reqs st' !! k = Some rq' ∧ rq_stage rq' = AtEnd ∧ rq_replies rq' = [failure] ∧
       rpc_calls (ls_history st') = rpc_calls (ls_history st)) ∧
  ((∀ t, target_of (ls_net st) rq = Some t → target_dead (ls_net st) rq t = false →
      can_answer (ls_heap st) (rq_msg rq) (tg_server t)) →
   ∃ st' rq' r, rtc (req_step k) st st' ∧ ls_reqs st' !! k = Some rq' ∧ rq_stage rq' = AtEnd ∧ rq_replies rq' = [r]) ∧
  (∀ st1 st2, req_step k st1 st2 → steps_left k st2 < steps_left k st1 ≤ 11 ∨ (st2 = st1 ∧ idle_tick k st1)).
Proof.
  intros Hi%lab_reachable_inv Hk. split; [|split].
  - intros t Ht Hd. by eapply request_gives_up.
  - intros Hserve. assert (comes_to_end k st) as (st' & rq' & Hsteps & Hk' & Hend).
    { destruct (target_of (ls_net st) rq) as [t|] eqn:Ht; [destruct (target_dead (ls_net st) rq t) eqn:Hd|].
      - by eapply gives_up_ends, request_gives_up.
      - eapply request_ends; [done|done|]. rewrite Ht. intros t' [= <-]. by apply Hserve.
      - eapply request_ends; [done|done|]. by rewrite Ht. }
    assert (lab_inv st') as Hi' by (eapply rtc_preserve; [apply (req_step_inv k)|done..]).
    destruct (li_reqs _ Hi' _ _ Hk') as [_ Hs]. rewrite Hend in Hs. destruct Hs as (r & Hr & _). by exists st', rq', r.
  - intros st1 st2 Hstep. destruct (req_step_progress _ _ _ Hstep) as [Hlt|?]; [left|by right]. split; [done|apply steps_left_bound].
Qed.

(** C19: when the network is reliable and the end is enabled and connected to
    a server, then as long as nobody changes that, a call that returns returns
    what that server's handler answered to it: no request and no reply is
    lost, and no reply goes to another call, however requests interleave and
    replies are reordered. *)
Theorem reliable_network st req n p st' rq :
  rtc lab_step initLab st → connected (ls_net st) (rm_endname req) n p → ls_listening st = true →
  rtc quiet_step (mkLabState (countRequest (ls_net st) req) true (ls_heap st)
                    (ls_reqs st ++ [mkRequest req AtStart HNone []]) (ls_history st)) st' →
  ls_reqs st' !! length (ls_reqs st) = Some rq → rq_stage rq = AtEnd →
  rq_msg rq = req ∧ ∃ r, rq_replies rq = [r] ∧ rp_ok r = true ∧ answered (ls_history st') (length (ls_reqs st)) req p r.
Proof.
  intros Hi%lab_reachable_inv Hc Hl Hsteps Hk Hend.
  assert (safe_request req n p (length (ls_reqs st)) st') as [Hi' _ (rq' & Hk' & Hm & Hu) Hsent].
  { eapply rtc_preserve; [apply (safe_request_step req n p)| |exact Hsteps]. split.
    - rewrite <-Hl. eapply quiet_step_inv; [done|by apply quiet_call].
    - by eapply connected_ext.
    - eexists. split; [by apply list_lookup_middle|done].
    - intros n' p' (rn & Hin & _). destruct (li_reads _ Hi) as [_ Hb].
      assert (length (ls_reqs st) ∈ rpc_reads (ls_history st)) as ?%Hb by (apply elem_reads; by exists rn). lia. }
  rewrite Hk in Hk'. injection Hk' as <-. split; [done|]. unfold unharmed in Hu. rewrite Hend in Hu. destruct Hu as (r & Hr & Hok).
  exists r. split_and!; [done|done|]. destruct (li_reqs _ Hi' _ _ Hk) as [Hh Hs]. rewrite Hend in Hs. destruct Hs as (r' & Hr' & Hx).
  rewrite Hr in Hr'. injection Hr' as <-. destruct Hx as [->|Hx]; [done|]. rewrite Hx, Hm in Hh.
  destruct Hh as [(n' & p' & Hst & Ha) _]. by destruct (Hsent _ _ Hst) as [_ ->].
Qed.

(** A server that was deleted while it was dealing with a request gives
    no positive answer any more, whatever its handler returns: unless the same
    server is added again, all that [Call] gets is a failure. *)
Theorem deleted_server_fails st k rq t st' rq' :
  rtc lab_step initLab st → ls_reqs st !! k = Some rq → stage_target (rq_stage rq) = Some t →
  servers (ls_net st) !! tg_servername t ≠ Some (Some (tg_server t)) →
  rtc (gone_step (tg_servername t) (tg_server t)) st st' → ls_reqs st' !! k = Some rq' →
  rq_replies rq' = [] ∨ rq_replies rq' = [failure].
Proof.
  intros Hi%lab_reachable_inv Hk Ht Hgone Hsteps Hk'. set (n := tg_servername t) in *. set (p := tg_server t) in *.
  assert (lab_inv st' ∧ servers (ls_net st') !! n ≠ Some (Some p) ∧ doomed n p k st') as (Hi' & _ & rq1 & Hk1 & Hd).
  { refine (rtc_preserve (gone_step n p) (λ st, lab_inv st ∧ servers (ls_net st) !! n ≠ Some (Some p) ∧ doomed n p k st) _ _ _ _ Hsteps).
    - intros x y (H1 & H2 & H3) [Hst Hg]. split_and!; [by eapply lab_step_inv|done|by eapply doomed_step].
    - split_and!; [done|done|]. exists rq. split; [done|]. left. by exists t. }
  rewrite Hk' in Hk1. injection Hk1 as <-. destruct Hd as [(t' & Ht' & _)|[_ ?]]; [left|by right].
  destruct (li_reqs _ Hi' _ _ Hk') as [_ Hs]. destruct (rq_stage rq'); try done; tauto.
Qed.

(** Arguments and results come through: a call of a suitable method of a
    service, by the name ["Service.Method"], gives the handler the caller's
    arguments and the caller the handler's reply, and counts one RPC; the
    name of a method has no dot, the name of the service may. *)
Theorem rpc_roundtrip σ rs name methods m endname args :
  suitable m = true → m ∈ methods → NoDup (me_Name <$> methods) → lastDot (me_Name m) = None →
  @GobOk (me_args m) (me_gobArgs m) → @GobOk (me_reply m) (me_gobReply m) →
  ∃ rs' r,
    Server_dispatch σ (AddService rs (MakeService name methods))
      (@Call_request _ (me_gobArgs m) endname (name +:+ "." +:+ me_Name m) (me_argsType m) args) = Ok (rs', r) ∧
    @Call_reply _ (me_gobReply m) r = Ok (Some (me_Func m σ args (me_zeroReply m))) ∧
    Server_GetCount rs' = wrap64 (Server_GetCount rs + 1).
Proof.
  intros Hs Hm Hnd Hdot Ha Hr. unfold Server_dispatch. simpl. change ("." +:+ me_Name m) with (String "." (me_Name m)). rewrite (lastDot_app name _ Hdot).
  rewrite substring_before, substring_after, string_length_app. simpl.
  replace (String.length name + S (String.length (me_Name m)) - String.length name - 1) with (String.length (me_Name m)) by lia.
  rewrite substring_whole, lookup_insert_eq. unfold Service_dispatch. rewrite MakeService_lookup, Hs by done. simpl.
  rewrite bool_decide_true by done. eexists _, _. split; [done|]. split; [|done].
  unfold Call_reply. simpl. by rewrite !gob_roundtrip.
Qed.

(** ** The statistics *)

Lemma req_step_count k st st' :
  req_step k st st' → nw_count (ls_net st') = nw_count (ls_net st) ∧ length (ls_reqs st') = length (ls_reqs st).
Proof.
  destruct 1 as [| | | | |rq t reply drop delay rn stage out _ _ Hp|rq r rn stage out _ _ Hp]; simpl; rewrite length_insert;
    (split; [|done]); try done.
  - unfold proc_reply in Hp. destruct reply as [r|]; [|by injection Hp as <- _ _].
    destruct (isServerDead _ _ _ _); [by injection Hp as <- _ _|]. destruct (negb _ && drop); [by injection Hp as <- _ _|].
    destruct (_ && delay); by injection Hp as <- _ _.
  - unfold proc_timer in Hp. injection Hp as <- _ _. by destruct (rp_ok r).
Qed.

Lemma net_op_count heap rn rn' : net_op heap rn rn' → nw_count rn' = nw_count rn.
Proof.
  destruct 1 as [| | |rn e rn' He| | | | |rn rn' Hc]; try done.
  - unfold MakeEnd in He. case_bool_decide; by simplify_eq.
  - unfold Cleanup in Hc. destruct (nw_done rn); by simplify_eq.
Qed.

(** The total is the number of requests the network took, at 32 bits:
    after 2^31 of them it is negative. *)
Theorem total_count st :
  rtc lab_step initLab st → GetTotalCount (ls_net st) = wrap32 (zlen (ls_reqs st)).
Proof.
  unfold GetTotalCount. intros Hr. refine (rtc_preserve lab_step (λ st, nw_count (ls_net st) = wrap32 (zlen (ls_reqs st))) _ _ _ _ Hr); [|done].
  clear. intros st st' IH [st1 [k st2 Hk|req _| |p rs svc _|_]|rn Hop]; simpl; try done.
  - apply req_step_count in Hk as [-> Hlen]. unfold zlen. by rewrite Hlen.
  - rewrite IH, wrap32_add. unfold zlen. rewrite length_app. simpl. f_equal. lia.
  - by rewrite (net_op_count _ _ _ Hop).
Qed.
End Network.

Arguments Method St : clear implicits.
Arguments Service St : clear implicits.
Arguments Server St : clear implicits.
Arguments reqMsg Name : clear implicits.
Arguments Network Name {_ _}.
Arguments Target Name : clear implicits.
Arguments Stage Name : clear implicits.
Arguments Request Name : clear implicits.
Arguments LabState St Name {_ _}.
Arguments NetEvent St Name {_ _}.
