(* ===== verification/LabRPCWitness.v ===== *)
(** * A concrete run of the simulated network

    One server with the service ["Echo.Raft"], whose method ["Get"] adds its
    argument to a counter, and one client end: the end is connected, a call is
    made, and the steps of its goroutines bring the reply back.  The theorems
    of LabRPC are applied to the states of this run. *)

From stdpp Require Import base list gmap strings relations.
From Stdlib Require Import ZArith Lia.
From S2P Require Import Prelude LabRPC.

(** The state of the program is a counter. *)
Definition w_method : Method nat :=
  mkMethod "Get" "" 3 true 0 "int" nat nat (countable_gob nat) (countable_gob nat) 0 0 (λ σ a _, σ + a).

(** A method that is not exported, and is not offered. *)
Definition w_hidden : Method nat :=
  mkMethod "apply" "raft" 3 true 0 "int" nat nat (countable_gob nat) (countable_gob nat) 0 0 (λ _ _ r, r).

Definition w_service : Service nat := MakeService "Echo.Raft" [w_hidden; w_method].
Definition w_server : Server nat := AddService MakeServer w_service.

Definition w_net0 : Network nat := match MakeEnd MakeNetwork 1 with Ok rn => rn | _ => MakeNetwork end.
Definition w_net : Network nat := Enable (Connect (AddServer w_net0 100 0) 1 100) 1 true.
Definition w_ready : LabState nat nat := mkLabState w_net true [w_server] [] [].

Definition w_req : reqMsg nat := @Call_request _ _ (countable_gob nat) 1 "Echo.Raft.Get" "int" 5.
Definition w_called : LabState nat nat :=
  mkLabState (countRequest w_net w_req) true [w_server] [mkRequest w_req AtStart HNone []] [].

(** The handler runs when the counter is 37. *)
Definition w_dispatched : Server nat * replyMsg :=
  match Server_dispatch 37 w_server w_req with Ok x => x | _ => (w_server, failure) end.
Definition w_reply : replyMsg := w_dispatched.2.
Definition w_ended : LabState nat nat :=
  mkLabState (countReply (countRequest w_net w_req) w_reply) true [w_dispatched.1]
    [mkRequest w_req AtEnd (HFinished w_reply) [w_reply]]
    [EvRead 0 (countRequest w_net w_req); EvCall 0 0 37 w_server w_reply].

Lemma w_ready_reachable : rtc lab_step initLab w_ready.
Proof.
  eapply rtc_l; [apply lab_quiet, quiet_server|].
  eapply rtc_l; [apply lab_quiet, (quiet_service _ 0 MakeServer w_service); reflexivity|].
  eapply rtc_l; [apply lab_net, (op_end _ _ 1 w_net0); reflexivity|].
  eapply rtc_l; [apply lab_net, (op_add _ _ 100 0); simpl; lia|].
  eapply rtc_l; [apply lab_net, (op_connect _ _ 1 100)|].
  eapply rtc_l; [apply lab_net, (op_enable _ _ 1 true)|]. apply rtc_refl.
Qed.

Lemma w_call_step : quiet_step w_ready w_called.
Proof. apply (quiet_call w_ready w_req). reflexivity. Qed.

Lemma w_called_ends : rtc (req_step 0) w_called w_ended.
Proof.
  eapply rtc_l; [eapply req_start; reflexivity|].
  eapply rtc_l; [eapply (req_send 0 _ _ _ true); reflexivity|].
  eapply rtc_l; [eapply (req_handle 0 _ _ 0 w_server 37); reflexivity|].
  eapply rtc_l; [eapply req_wait_tick; reflexivity|].
  eapply rtc_l; [eapply req_wait_reply; reflexivity|].
  eapply rtc_l; [eapply (req_reply 0 _ _ _ _ true true); reflexivity|]. apply rtc_refl.
Qed.

Lemma rtc_req_quiet (k : nat) (st st' : LabState nat nat) : rtc (req_step k) st st' → rtc quiet_step st st'.
Proof. apply rtc_subrel. intros x y. apply quiet_req. Qed.

Lemma w_called_reachable : rtc lab_step initLab w_called.
Proof. eapply rtc_r; [exact w_ready_reachable|]. apply lab_quiet, w_call_step. Qed.

Lemma w_ended_reachable : rtc lab_step initLab w_ended.
Proof.
  etrans; [exact w_called_reachable|]. eapply (rtc_subrel quiet_step); [intros x y; apply lab_quiet|].
  apply (rtc_req_quiet 0), w_called_ends.
Qed.

Lemma w_gob : @GobOk nat (countable_gob nat).
Proof. apply countable_gob_ok. Qed.

(** The caller gets 37 + 5. *)
Example w_call_result : @Call_reply _ (countable_gob nat) w_reply = Ok (Some 42).
Proof. reflexivity. Qed.

(** The call has one reply, the 42 of the server at index 0. *)
Lemma rpc_at_most_once_witness :
  w_reply ≠ failure ∧
  ∃ n p, sent_to (ls_history w_ended) 0 w_req n p ∧ answered (ls_history w_ended) 0 w_req p w_reply.
Proof.
  destruct (rpc_at_most_once w_ended w_ended_reachable) as (_ & _ & H). split; [vm_compute; discriminate|].
  destruct (H 0 (mkRequest w_req AtEnd (HFinished w_reply) [w_reply]) eq_refl) as (_ & _ & Hr).
  destruct (Hr w_reply) as [Hf|[_ Ha]]; [left|vm_compute in Hf; discriminate Hf|exact Ha].
Defined.

Lemma w_connected : connected (ls_net w_ready) (rm_endname w_req) 100 0.
Proof. split; reflexivity. Qed.

Lemma reliable_network_witness : ∃ r, [w_reply] = [r] ∧ rp_ok r = true ∧ answered (ls_history w_ended) 0 w_req 0 r.
Proof.
  destruct (reliable_network w_ready w_req 100 0 w_ended (mkRequest w_req AtEnd (HFinished w_reply) [w_reply])
    w_ready_reachable w_connected eq_refl (rtc_req_quiet 0 _ _ w_called_ends) eq_refl eq_refl) as (_ & r & Hr & Hok & Ha).
  exists r. split; [exact Hr|]. split; [exact Hok|exact Ha].
Defined.

Lemma rpc_roundtrip_witness :
  ∃ rs' r, Server_dispatch 37 w_server w_req = Ok (rs', r) ∧
    @Call_reply _ (countable_gob nat) r = Ok (Some 42) ∧ Server_GetCount rs' = 1%Z.
Proof.
  apply (rpc_roundtrip 37 MakeServer "Echo.Raft" [w_hidden; w_method] w_method 1 5).
  - reflexivity.
  - right. left.
  - apply (bool_decide_unpack _). vm_compute. exact I.
  - reflexivity.
  - exact w_gob.
  - exact w_gob.
Defined.

Lemma total_count_witness : GetTotalCount (ls_net w_ended) = 1%Z.
Proof. exact (total_count w_ended w_ended_reachable). Defined.

(** The server is deleted while its handler is running. *)
Definition w_target : Target nat := mkTarget 100 0 true false.
Definition w_running : LabState nat nat :=
  mkLabState (countRequest w_net w_req) true [w_server] [mkRequest w_req (AtWait w_target) (HRunning 0) []]
    [EvRead 0 (countRequest w_net w_req)].
Definition w_deleted : LabState nat nat := set_reqs w_running (DeleteServer (ls_net w_running) 100) (ls_reqs w_running).
Definition w_failed : LabState nat nat :=
  mkLabState (ls_net w_deleted) true [w_dispatched.1] [mkRequest w_req AtEnd (HFinished w_reply) [failure]]
    [EvRead 0 (countRequest w_net w_req); EvCall 0 0 37 w_server w_reply].

Lemma w_deleted_reachable : rtc lab_step initLab w_deleted.
Proof.
  etrans; [exact w_called_reachable|].
  eapply rtc_l; [apply lab_quiet, (quiet_req _ 0); eapply req_start; reflexivity|].
  eapply rtc_l; [apply lab_quiet, (quiet_req _ 0); eapply (req_send 0 _ _ _ false); reflexivity|].
  eapply rtc_l; [apply lab_net, (op_delete _ _ 100)|]. apply rtc_refl.
Qed.

(** The handler returns, but too late. *)
Lemma w_deleted_fails : rtc (gone_step 100 0) w_deleted w_failed.
Proof.
  eapply rtc_l; [split; [apply lab_quiet, (quiet_req _ 0); eapply (req_handle 0 _ _ 0 w_server 37); reflexivity|vm_compute; discriminate]|].
  eapply rtc_l; [split; [apply lab_quiet, (quiet_req _ 0); eapply req_wait_reply; reflexivity|vm_compute; discriminate]|].
  eapply rtc_l; [split; [apply lab_quiet, (quiet_req _ 0); eapply (req_reply 0 _ _ _ _ false false); reflexivity|vm_compute; discriminate]|].
  apply rtc_refl.
Qed.

Lemma deleted_server_fails_witness : [failure] = [] ∨ [failure] = [failure].
Proof.
  apply (deleted_server_fails w_deleted 0 (mkRequest w_req (AtWait w_target) (HRunning 0) []) w_target w_failed
    (mkRequest w_req AtEnd (HFinished w_reply) [failure])).
  - exact w_deleted_reachable.
  - reflexivity.
  - reflexivity.
  - vm_compute. discriminate.
  - exact w_deleted_fails.
  - reflexivity.
Defined.

(** From the deleted server the call gets a failure without its handler; from
    the server that is there, it gets a reply. *)
Lemma rpc_returns_witness :
  (∃ st' rq', rtc (req_step 0) w_deleted st' ∧ ls_reqs st' !! 0 = Some rq' ∧ rq_stage rq' = AtEnd ∧
     rq_replies rq' = [failure] ∧ rpc_calls (ls_history st') = []) ∧
  (∃ st' rq' r, rtc (req_step 0) w_called st' ∧ ls_reqs st' !! 0 = Some rq' ∧ rq_stage rq' = AtEnd ∧ rq_replies rq' = [r]).
Proof.
  split.
  - destruct (rpc_returns w_deleted 0 (mkRequest w_req (AtWait w_target) (HRunning 0) []) w_deleted_reachable eq_refl) as [H _].
    exact (H w_target eq_refl eq_refl).
  - destruct (rpc_returns w_called 0 (mkRequest w_req AtStart HNone []) w_called_reachable eq_refl) as (_ & H & _).
    apply H. intros t Ht _. injection Ht as <-. exists w_server, 37. eexists _, _. split; reflexivity.
Defined.
