(* ===== verification/LabGob.v ===== *)
(** * The encoder's checks (src/labgob/labgob.go)

    [labgob] wraps encoding/gob and looks at types and values before it hands
    them on: [checkType] walks a type and panics at a struct field whose name
    is not capitalised (gob would silently drop it), [checkDefault] counts
    and reports values that a decoder would not overwrite.

    Types are identities with a description, as [reflect.Type] is: a type may
    mention itself, so the walk is over a graph and [checked] is what makes it
    end.  Values are trees of structs over a heap of pointers; [RO] is the
    flag with which reflect marks what it reached through an unexported field;
    [Interface] panics on it.  The mutable globals [checked] and
    [errorCount] are the record [Globals] together with what was printed.  The
    methods of gob itself are arguments.

    Theorems: with fuel for one more call than there are unchecked types the
    walk ends; as long as no check has panicked before, it panics iff a type
    that can be reached has a field that is not capitalised, and otherwise it
    has checked exactly what can be reached; a type whose check panicked is
    remembered, and a second Encode hands it to gob;
    a type that passed is safe to decode into, and then [Decode] is gob's,
    with the warning printed exactly once. *)

From stdpp Require Import base list gmap sets strings.
From Stdlib Require Import ZArith Lia.
From S2P Require Import Prelude Runes.

(** ** Types and values as reflect shows them *)

Abbreviation Typ := positive (only parsing).

Record StructField : Type := mkField { sf_Name : string; sf_Type : Typ; sf_Anonymous : bool }.

Inductive Kind : Type :=
| KStruct (fields : list StructField)
| KSlice (elem : Typ)
| KArray (elem : Typ)
| KPtr (elem : Typ)
| KMap (key elem : Typ)
| KScalar
| KOther.

Record TypeInfo : Type := mkTypeInfo { t_Name : string; t_Kind : Kind }.

(** Values of the kinds that [checkDefault1] looks into; all else (slices,
    maps, interfaces, ...) is [VOther]. *)
Inductive Value : Type :=
| VStruct (fields : list Value)
| VPtr (addr : option positive)
| VBool (b : bool)
| VInt (z : Z)
| VFloat (bits : Z)
| VString (s : string)
| VOther.

(** Whether a value was reached through an unexported field: not at all, as an
    unexported embedded field itself, or below an unexported field. *)
Inductive RO : Type := RoNone | RoEmbed | RoSticky.

Definition isRoNone (ro : RO) : bool := match ro with RoNone => true | _ => false end.

(** [reflect.DeepEqual] of a value and the zero value of its type; both
    floating-point zeros are equal to it. *)
Definition is_default (v : Value) : bool :=
  match v with
  | VBool b => negb b
  | VInt z => (z =? 0)%Z
  | VFloat bits => (bits mod 2 ^ 63 =? 0)%Z
  | VString s => bool_decide (s = EmptyString)
  | _ => true
  end.

(** The globals of the package, and standard output. *)
Record Globals : Type := mkGlobals {
  checked : gset Typ;
  errorCount : Z;
  printed : list string;
}.

(** A call may return or panic; the globals stay as they were left. *)
Inductive Outcome (A : Type) : Type :=
| Returned (a : A)
| Panicked (field tname : string).
Arguments Returned {A} a.
Arguments Panicked {A} field tname.

Section LabGob.
Context `{Unicode}.
(** The types of the program. *)
Context (types : gmap Typ TypeInfo).

Definition TypeName (t : Typ) : string := default EmptyString (t_Name <$> types !! t).

(** What [checkType] does after [checked[t] = true]: the fields to look at in
    turn, each with the name that is tested first, and the types it goes on
    with. *)
Definition visits (k : Kind) : list (option string * Typ) :=
  match k with
  | KStruct fs => (λ f, (Some (sf_Name f), sf_Type f)) <$> fs
  | KSlice e | KArray e | KPtr e => [(None, e)]
  | KMap key elem => [(None, elem); (None, key)]
  | KScalar | KOther => []
  end.

Definition capitalised (name : string) : bool := IsUpper (DecodeRuneInString name).1.

(** One after the other, until a field is not capitalised; [rec] is the
    recursive call. *)
Fixpoint checkFields (rec : Typ → gset Typ → option (gset Typ * Outcome unit))
    (tname : string) (l : list (option string * Typ)) (c : gset Typ) : option (gset Typ * Outcome unit) :=
  match l with
  | [] => Some (c, Returned tt)
  | (name, t) :: l =>
      match name with
      | Some f => if capitalised f then
          match rec t c with
          | Some (c, Returned _) => checkFields rec tname l c
          | r => r
          end
        else Some (c, Panicked f tname)
      | None =>
          match rec t c with
          | Some (c, Returned _) => checkFields rec tname l c
          | r => r
          end
      end
  end.

(** [None]: the depth of the recursion exceeds the fuel. *)
Fixpoint checkType (fuel : nat) (t : Typ) (c : gset Typ) : option (gset Typ * Outcome unit) :=
  match fuel with
  | O => None
  | S fuel =>
      if bool_decide (t ∈ c) then Some (c, Returned tt) else
      match types !! t with
      | Some ti => checkFields (checkType fuel) (t_Name ti) (visits (t_Kind ti)) ({[t]} ∪ c)
      | None => Some ({[t]} ∪ c, Returned tt)
      end
  end.

(** Enough for every walk: see [checkType_fuel]. *)
Definition walk_fuel : nat := S (size types).

(** [reflect.TypeOf(nil)] is nil, on which [Kind] panics. *)
Definition checkValue (t : option Typ) (g : Globals) : option (Globals * Outcome unit) :=
  match t with
  | None => Some (g, Panicked EmptyString EmptyString)
  | Some t =>
      match checkType walk_fuel t (checked g) with
      | Some (c, o) => Some (mkGlobals c (errorCount g) (printed g), o)
      | None => None
      end
  end.

(** ** Default values *)

(** Reporting one non-default value. *)
Definition report (what : string) (g : Globals) : Globals :=
  mkGlobals (checked g) (errorCount g + 1)
    (if bool_decide (errorCount g < 1)%Z then printed g ++ [what] else printed g).

Definition joinName (name name1 : string) : string :=
  if bool_decide (name ≠ EmptyString) then String.append name (String.append "." name1) else name1.

(** The flag of [value.Field(i)]: [RoSticky] is inherited, [RoEmbed] is not. *)
Definition fieldRO (ro : RO) (f : StructField) : RO :=
  match ro with
  | RoSticky => RoSticky
  | _ => if capitalised (sf_Name f) then RoNone else if sf_Anonymous f then RoEmbed else RoSticky
  end.

(** The loop over the fields of a struct. *)
Fixpoint overFields (rec : Typ → Value → RO → string → Globals → Globals * Outcome unit)
    (ro : RO) (name : string) (fs : list StructField) (vs : list Value) (g : Globals)
    : Globals * Outcome unit :=
  match fs, vs with
  | f :: fs, v :: vs =>
      match rec (sf_Type f) v (fieldRO ro f) (joinName name (sf_Name f)) g with
      | (g, Returned _) => overFields rec ro name fs vs g
      | r => r
      end
  | _, _ => (g, Returned tt)
  end.

(** [levels] is [4 - depth]: nothing is looked at below depth 3. *)
Fixpoint checkDefault1 (heap : gmap positive Value) (levels : nat) (t : Typ) (v : Value) (ro : RO)
    (name : string) (g : Globals) : Globals * Outcome unit :=
  match levels with
  | O => (g, Returned tt)
  | S levels =>
      match types !! t, v with
      | Some (mkTypeInfo _ (KStruct fs)), VStruct vs => overFields (checkDefault1 heap levels) ro name fs vs g
      | Some (mkTypeInfo _ (KPtr e)), VPtr (Some a) =>
          match heap !! a with
          | Some v => checkDefault1 heap levels e v ro name g
          | None => (g, Returned tt)
          end
      | Some (mkTypeInfo tname KScalar), v =>
          if negb (isRoNone ro) then (g, Panicked name tname)
          else if is_default v then (g, Returned tt)
          else (report (if bool_decide (name = EmptyString) then tname else name) g, Returned tt)
      | _, _ => (g, Returned tt)
      end
  end.

(** An interface value: nil, or a type and a value. *)
Definition checkDefault (heap : gmap positive Value) (e : option (Typ * Value)) (g : Globals) : Globals * Outcome unit :=
  match e with
  | None => (g, Returned tt)
  | Some (t, v) => checkDefault1 heap 3 t v RoNone EmptyString g
  end.

(** ** The wrapper's methods; [gob] is the wrapped method. *)

Definition after_check {A} (e : option (Typ * Value)) (k : Globals → Globals * Outcome A) (g : Globals)
    : option (Globals * Outcome A) :=
  match checkValue (fst <$> e) g with
  | None => None
  | Some (g, Panicked f t) => Some (g, Panicked f t)
  | Some (g, Returned _) => Some (k g)
  end.

Definition Encode {A} (gob : option (Typ * Value) → A) (e : option (Typ * Value)) (g : Globals)
    : option (Globals * Outcome A) := after_check e (λ g, (g, Returned (gob e))) g.

Definition EncodeValue {A} (gob : Typ * Value → A) (value : Typ * Value) (g : Globals)
    : option (Globals * Outcome A) := after_check (Some value) (λ g, (g, Returned (gob value))) g.

Definition Decode {A} (gob : option (Typ * Value) → A) (heap : gmap positive Value) (e : option (Typ * Value))
    (g : Globals) : option (Globals * Outcome A) :=
  after_check e (λ g, match checkDefault heap e g with
                      | (g, Returned _) => (g, Returned (gob e))
                      | (g, Panicked f t) => (g, Panicked f t)
                      end) g.

Definition Register {A} (gob : option (Typ * Value) → A) (e : option (Typ * Value)) (g : Globals)
    : option (Globals * Outcome A) := after_check e (λ g, (g, Returned (gob e))) g.

Definition RegisterName {A} (gob : string → option (Typ * Value) → A) (name : string) (e : option (Typ * Value))
    (g : Globals) : option (Globals * Outcome A) := after_check e (λ g, (g, Returned (gob name e))) g.

(** ** The walk over types *)

Definition edge (t t' : Typ) : Prop := ∃ ti, types !! t = Some ti ∧ t' ∈ (visits (t_Kind ti)).*2.

Definition reach : Typ → Typ → Prop := rtc edge.

(** [t] is a struct named [tname] with a field [f] that is not capitalised. *)
Definition hides (t : Typ) (f tname : string) : Prop :=
  ∃ ti t', types !! t = Some ti ∧ t_Name ti = tname ∧ (Some f, t') ∈ visits (t_Kind ti) ∧ capitalised f = false.

Definition exported (t : Typ) : Prop := ∀ f tname, ¬ hides t f tname.

(** Checked types need no second look. *)
Definition settled (c : gset Typ) : Prop := ∀ t, t ∈ c → exported t ∧ ∀ t', edge t t' → t' ∈ c.

(** What the walk adds to [c]. *)
Definition adds (from : Typ → Prop) (c c' : gset Typ) : Prop :=
  c ⊆ c' ∧ ∀ x, x ∈ c' → x ∈ c ∨ (∃ t, from t ∧ reach t x) ∧ exported x ∧ ∀ x', edge x x' → x' ∈ c'.

(** A recursive call that behaves. *)
Definition good_rec (rec : Typ → gset Typ → option (gset Typ * Outcome unit)) : Prop :=
  (∀ t c c' u, rec t c = Some (c', Returned u) → t ∈ c' ∧ adds (eq t) c c') ∧
  (∀ t c c' f n, rec t c = Some (c', Panicked f n) → ∃ x, reach t x ∧ hides x f n).

Lemma adds_trans (from1 from2 from : Typ → Prop) c1 c2 c3 :
  (∀ t, from1 t → from t) → (∀ t, from2 t → from t) →
  adds from1 c1 c2 → adds from2 c2 c3 → adds from c1 c3.
Proof.
  intros H1 H2 [Hs1 Ha1] [Hs2 Ha2]. split; [set_solver|]. intros x Hx.
  destruct (Ha2 x Hx) as [Hx2|((t & Ht & Hr) & He)]; [|right; eauto].
  destruct (Ha1 x Hx2) as [?|((t & Ht & Hr) & He & Hc)]; [by left|]. right. split_and!; eauto.
Qed.

Lemma checkFields_returned rec tname l c c' u :
  good_rec rec → checkFields rec tname l c = Some (c', Returned u) →
  adds (λ t, t ∈ l.*2) c c' ∧
  ∀ name t, (name, t) ∈ l → t ∈ c' ∧ match name with Some f => capitalised f = true | None => True end.
Proof.
  intros [Hret _]. revert c. induction l as [|[name t] l IH]; intros c; cbn [checkFields].
  { intros [= -> _]. split; [|by intros ? ? ?%elem_of_nil]. split; [done|]. by left. }
  assert (Hgo : ∀ r, match rec t c with Some (c, Returned _) => checkFields rec tname l c | r => r end
            = Some (c', Returned r) → adds (λ x, x ∈ t :: l.*2) c c' ∧ t ∈ c' ∧
            ∀ name t, (name, t) ∈ l → t ∈ c' ∧ match name with Some f => capitalised f = true | None => True end).
  { intros r Hr. destruct (rec t c) as [[c1 [u1|]]|] eqn:E; [|done..].
    destruct (Hret _ _ _ _ E) as [Ht Ha]. destruct (IH _ ltac:(by destruct u, r)) as [Ha' Hl].
    split_and!; [|by apply Ha'|done].
    eapply adds_trans; [| |exact Ha|exact Ha']; simpl; set_solver. }
  destruct name as [f|]; [destruct (capitalised f) eqn:Ec; [|done]|];
    intros (Ha & Ht & Hl)%Hgo; (split; [done|]); intros n' t' [[= -> ->]|?]%elem_of_cons; eauto.
Qed.

Lemma checkFields_panicked rec tname l c c' f n :
  good_rec rec → checkFields rec tname l c = Some (c', Panicked f n) →
  (n = tname ∧ capitalised f = false ∧ ∃ t, (Some f, t) ∈ l) ∨ ∃ t x, t ∈ l.*2 ∧ reach t x ∧ hides x f n.
Proof.
  intros [_ Hpan]. revert c. induction l as [|[name t] l IH]; intros c; cbn [checkFields]; [done|].
  assert (Hgo : match rec t c with Some (c, Returned _) => checkFields rec tname l c | r => r end
            = Some (c', Panicked f n) →
      (n = tname ∧ capitalised f = false ∧ ∃ t, (Some f, t) ∈ l) ∨ ∃ t' x, t' ∈ t :: l.*2 ∧ reach t' x ∧ hides x f n).
  { destruct (rec t c) as [[c1 [u1|f' n']]|] eqn:E; [| |done].
    - intros [?|(t' & x & ? & ?)]%IH; [by left|right]. exists t', x. set_solver.
    - intros [= -> -> ->]. destruct (Hpan _ _ _ _ _ E) as (x & ? & ?). right. exists t, x. set_solver. }
  destruct name as [f'|]; [destruct (capitalised f') eqn:Ec|].
  - intros [(? & ? & t' & ?)|?]%Hgo; [left|by right]. split_and!; [done..|]. exists t'. by right.
  - intros [= -> -> ->]. left. split_and!; [done..|]. exists t. by left.
  - intros [(? & ? & t' & ?)|?]%Hgo; [left|by right]. split_and!; [done..|]. exists t'. by right.
Qed.

Lemma checkType_good fuel : good_rec (checkType fuel).
Proof.
  induction fuel as [|fuel IH]; [done|]. split; intros t c c'; cbn [checkType].
  - intros u. case_bool_decide as Hin.
    { intros [= -> _]. split; [done|]. split; [done|]. by left. }
    destruct (types !! t) as [ti|] eqn:Et.
    + intros [Ha Hl]%(checkFields_returned _ _ _ _ _ _ IH). split; [apply Ha; set_solver|].
      split; [destruct Ha; set_solver|]. intros x Hx.
      destruct (proj2 Ha x Hx) as [Hc|((t' & Ht' & Hr) & He)].
      * destruct (decide (x = t)) as [->|]; [right|left; set_solver]. split_and!; [exists t; split; [done|apply rtc_refl]|..].
        -- intros f n (ti' & t' & Heq & _ & Hf & Hcap). rewrite Et in Heq. simplify_eq.
           apply Hl in Hf as [_ Hf]. congruence.
        -- intros x' (ti' & Heq & Hx'). rewrite Et in Heq. simplify_eq.
           apply list_elem_of_fmap in Hx' as ([nm ?] & -> & Hin'). by apply Hl in Hin' as [? _].
      * right. split; [|done]. exists t. split; [done|]. eapply rtc_l; [|exact Hr]. exists ti. done.
    + intros [= <- _]. split; [set_solver|]. split; [set_solver|]. intros x [->%elem_of_singleton|Hx]%elem_of_union; [right|by left].
      split_and!; [exists t; split; [done|apply rtc_refl]|..].
      * intros f n (ti' & t' & Heq & _). congruence.
      * intros x' (ti' & Heq & _). congruence.
  - intros f n. case_bool_decide as Hin; [done|]. destruct (types !! t) as [ti|] eqn:Et; [|done].
    intros [(-> & Hcap & t' & Hin')|(t' & x & Ht' & Hr & Hh)]%(checkFields_panicked _ _ _ _ _ _ _ IH).
    + exists t. split; [apply rtc_refl|]. by exists ti, t'.
    + exists x. split; [|done]. eapply rtc_l; [|exact Hr]. by exists ti.
Qed.

(** Each nested call has one more type checked. *)
Definition unchecked (c : gset Typ) : nat := size (dom types ∖ c).

Lemma unchecked_mono c c' : c ⊆ c' → unchecked c' ≤ unchecked c.
Proof. intros. unfold unchecked. apply subseteq_size. set_solver. Qed.

Lemma unchecked_add c t : t ∉ c → is_Some (types !! t) → unchecked ({[t]} ∪ c) < unchecked c.
Proof.
  intros Hc Ht%elem_of_dom. unfold unchecked. apply subset_size. split; [set_solver|]. intros Hsub. specialize (Hsub t). set_solver.
Qed.

Lemma checkFields_fuel fuel tname l c :
  (∀ t c', c ⊆ c' → is_Some (checkType fuel t c')) → is_Some (checkFields (checkType fuel) tname l c).
Proof.
  revert c. induction l as [|[name t] l IH]; intros c Hrec; cbn [checkFields]; [done|].
  assert (Hgo : is_Some match checkType fuel t c with
      Some (c, Returned _) => checkFields (checkType fuel) tname l c | r => r end).
  { destruct (Hrec t c) as [[c' [u|]] E]; [done| |by rewrite E]. rewrite E. apply IH. intros t' c'' Hsub. apply Hrec.
    apply checkType_good in E as [_ [? _]]. set_solver. }
  destruct name as [f|]; [by destruct (capitalised f)|done].
Qed.

Lemma checkType_fuel fuel t c : unchecked c < fuel → is_Some (checkType fuel t c).
Proof.
  revert t c. induction fuel as [|fuel IH]; intros t c Hf; [lia|]. cbn [checkType].
  case_bool_decide as Hin; [done|]. destruct (types !! t) as [ti|] eqn:Et; [|done].
  apply checkFields_fuel. intros t' c' Hsub. apply IH.
  pose proof (unchecked_mono _ _ Hsub). pose proof (unchecked_add c t Hin (mk_is_Some _ _ Et)). lia.
Qed.

Lemma settled_empty : settled ∅.
Proof. set_solver. Qed.

Lemma settled_reach c t x : settled c → t ∈ c → reach t x → x ∈ c.
Proof. intros Hs Ht Hr. induction Hr as [|t t' x He _ IH]; [done|]. apply IH. by apply (Hs t). Qed.

Lemma walk_spec t c :
  settled c →
  (∃ c' u, checkType walk_fuel t c = Some (c', Returned u) ∧ settled c' ∧
     (∀ x, x ∈ c' ↔ x ∈ c ∨ reach t x) ∧ (∀ x, reach t x → exported x)) ∨
  (∃ c' f n x, checkType walk_fuel t c = Some (c', Panicked f n) ∧ reach t x ∧ hides x f n).
Proof.
  intros Hs. destruct (checkType_fuel walk_fuel t c) as [[c' [u|f n]] E].
  { unfold walk_fuel, unchecked. rewrite <-size_dom. pose proof (subseteq_size (dom types ∖ c) (dom types)) as Hle.
    specialize (Hle ltac:(set_solver)). lia. }
  - left. destruct (proj1 (checkType_good _) _ _ _ _ E) as [Ht [Hsub Ha]].
    assert (Hs' : settled c').
    { intros x Hx. destruct (Ha x Hx) as [Hc|(_ & ? & ?)]; [|done]. destruct (Hs x Hc). split; [done|]. set_solver. }
    exists c', u. split_and!; [done..| |].
    + intros x. split; [|intros [?|Hr]; [set_solver|by eapply settled_reach]].
      intros [?|((t' & <- & Hr) & _)]%Ha; [by left|by right].
    + intros x Hr. by apply Hs', (settled_reach _ t).
  - right. destruct (proj2 (checkType_good _) _ _ _ _ _ E) as (x & ? & ?). by exists c', f, n, x.
Qed.

(** ** Default values *)

(** The names of the scalars that are not default, down to [levels] levels,
    in the order of the fields. *)
Fixpoint nondefaults (heap : gmap positive Value) (levels : nat) (t : Typ) (v : Value) (name : string) : list string :=
  match levels with
  | O => []
  | S levels =>
      match types !! t, v with
      | Some (mkTypeInfo _ (KStruct fs)), VStruct vs =>
          concat (zip_with (λ f v, nondefaults heap levels (sf_Type f) v (joinName name (sf_Name f))) fs vs)
      | Some (mkTypeInfo _ (KPtr e)), VPtr (Some a) =>
          match heap !! a with Some v => nondefaults heap levels e v name | None => [] end
      | Some (mkTypeInfo tname KScalar), v =>
          if is_default v then [] else [if bool_decide (name = EmptyString) then tname else name]
      | _, _ => []
      end
  end.

Definition reportAll (ws : list string) (g : Globals) : Globals := foldl (λ g w, report w g) g ws.

Lemma reportAll_spec ws g :
  (0 ≤ errorCount g)%Z →
  reportAll ws g = mkGlobals (checked g) (errorCount g + zlen ws)
    (printed g ++ if bool_decide (errorCount g = 0)%Z then take 1 ws else []).
Proof.
  unfold reportAll. revert g. induction ws as [|w ws IH]; intros g Hg; simpl.
  { rewrite zlen_nil, Z.add_0_r. by destruct g, (bool_decide _); rewrite ?app_nil_r. }
  rewrite IH by (simpl; lia). unfold report. cbn [checked errorCount printed]. rewrite zlen_cons.
  rewrite (bool_decide_false (errorCount g + 1 = 0)%Z) by lia. rewrite app_nil_r, take_0.
  f_equal; [lia|]. case_bool_decide; case_bool_decide; rewrite ?app_nil_r; first [done|lia].
Qed.

Lemma reach_edge t x : (∀ y, reach t y → exported y) → edge t x → ∀ y, reach x y → exported y.
Proof. intros Ht He y Hr. apply Ht. by eapply rtc_l. Qed.

Lemma exported_field t ti f t' : exported t → types !! t = Some ti → (Some f, t') ∈ visits (t_Kind ti) → capitalised f = true.
Proof.
  intros He Et Hin. destruct (capitalised f) eqn:Ec; [done|]. destruct (He f (t_Name ti)). by exists ti, t'.
Qed.

Lemma overFields_spec rec (ref : Typ → Value → string → list string) name fs vs g :
  (∀ f v name g, f ∈ fs → rec (sf_Type f) v RoNone name g = (reportAll (ref (sf_Type f) v name) g, Returned tt)) →
  (∀ f, f ∈ fs → capitalised (sf_Name f) = true) →
  overFields rec RoNone name fs vs g =
    (reportAll (concat (zip_with (λ f v, ref (sf_Type f) v (joinName name (sf_Name f))) fs vs)) g, Returned tt).
Proof.
  revert vs g. induction fs as [|f fs IH]; intros [|v vs] g Hrec Hcap; cbn [overFields]; [done..|].
  unfold fieldRO. rewrite Hcap by left. rewrite Hrec by left. rewrite IH.
  - unfold reportAll. simpl. by rewrite foldl_app.
  - intros. apply Hrec. by right.
  - intros. apply Hcap. by right.
Qed.

Lemma checkDefault1_spec heap levels t v name g :
  (∀ x, reach t x → exported x) →
  checkDefault1 heap levels t v RoNone name g = (reportAll (nondefaults heap levels t v name) g, Returned tt).
Proof.
  revert t v name g. induction levels as [|levels IH]; intros t v name g Ht; [done|]. cbn [checkDefault1 nondefaults].
  destruct (types !! t) as [[tn k]|] eqn:Et; [|done].
  pose proof (Ht t ltac:(apply rtc_refl)) as Hexp.
  assert (Hedge : ∀ x, x ∈ (visits k).*2 → ∀ y, reach x y → exported y).
  { intros x Hx. apply (reach_edge t); [done|]. by exists (mkTypeInfo tn k). }
  destruct k as [fs|e|e|e|key e| |]; try (by destruct v as [|[]|?|?|?|?|]).
  - destruct v; try done. apply (overFields_spec _ (nondefaults heap levels)).
    + intros f v name' g' Hf. apply IH, Hedge. simpl. rewrite <-list_fmap_compose.
      apply (list_elem_of_fmap_2 (λ f, sf_Type f) fs f Hf).
    + intros f Hf. apply (exported_field t _ _ (sf_Type f) Hexp Et). simpl.
      apply (list_elem_of_fmap_2 (λ f, (Some (sf_Name f), sf_Type f)) fs f Hf).
  - destruct v as [|[a|]| | | | |]; try done. destruct (heap !! a); [|done]. apply IH, Hedge. set_solver.
  - cbn [isRoNone negb]. by destruct v; cbn [is_default]; repeat case_match.
Qed.

(** ** The wrapper *)

(** A type that was looked at is remembered, also when the walk panics. *)
Lemma checkType_remembers fuel : ∀ t c c' o, checkType fuel t c = Some (c', o) → c ⊆ c' ∧ t ∈ c'.
Proof.
  induction fuel as [|fuel IH]; intros t c c' o; cbn [checkType]; [done|]. case_bool_decide; [by intros [= <- _]|].
  destruct (types !! t) as [ti|]; [|intros [= <- _]; set_solver].
  assert (Hl : ∀ l c1, checkFields (checkType fuel) (t_Name ti) l c1 = Some (c', o) → c1 ⊆ c'); [|intros Hc%Hl; set_solver].
  induction l as [|[name x] l IHl]; intros c1; cbn [checkFields]; [by intros [= <- _]|].
  assert (Hgo : match checkType fuel x c1 with
      Some (c, Returned _) => checkFields (checkType fuel) (t_Name ti) l c | r => r end = Some (c', o) → c1 ⊆ c').
  { destruct (checkType fuel x c1) as [[c2 [u|f n]]|] eqn:E; [| |done]; apply IH in E as [? _].
    - intros ?%IHl. set_solver.
    - by intros [= <- _]. }
  destruct name as [f|]; [|done]. destruct (capitalised f); [done|by intros [= <- _]].
Qed.

(** What [after_check] does with a type, once: the types that can be reached
    are remembered, and what follows runs iff they hide nothing. *)
Lemma after_check_spec {A} t v (k : Globals → Globals * Outcome A) g :
  settled (checked g) →
  (∃ c, after_check (Some (t, v)) k g = Some (k (mkGlobals c (errorCount g) (printed g))) ∧ settled c ∧
     (∀ x, x ∈ c ↔ x ∈ checked g ∨ reach t x) ∧ ∀ x, reach t x → exported x) ∨
  (∃ c f n x, after_check (Some (t, v)) k g = Some (mkGlobals c (errorCount g) (printed g), Panicked f n) ∧
     t ∈ c ∧ reach t x ∧ hides x f n).
Proof.
  intros Hs. unfold after_check, checkValue. cbn [fmap option_fmap option_map fst].
  destruct (walk_spec t _ Hs) as [(c & u & -> & ? & ? & ?)|(c & f & n & x & E & ? & ?)]; [left|right].
  - by exists c.
  - rewrite E. apply checkType_remembers in E as [_ ?]. by exists c, f, n, x.
Qed.

(** A type that is remembered passes. *)
Lemma after_check_known {A} t v (k : Globals → Globals * Outcome A) g :
  t ∈ checked g → after_check (Some (t, v)) k g = Some (k g).
Proof.
  intros Ht. unfold after_check, checkValue, walk_fuel. cbn [fmap option_fmap option_map fst checkType].
  rewrite bool_decide_true by done. by destruct g.
Qed.

(** Before anything is encoded, its type is walked completely, as long as
    no earlier call has panicked ([settled]: what [checked] holds hides
    nothing; true of the empty set, and kept by calls that return).  The walk
    over the graph of types ends, whatever cycles the types have.  If no
    struct that can be reached has a field whose name does not start with an
    upper case letter, the call is gob's [Encode] and remembers exactly the
    types that can be reached.  Otherwise the call panics with such a field
    and its type, gob never sees the value, and neither [errorCount] nor the
    output changes; but the type is remembered by then, so that a second
    call on the same value does not panic and gives it to gob. *)
Theorem Encode_spec {A} (gob : option (Typ * Value) → A) t v g :
  settled (checked g) →
  (∃ c, Encode gob (Some (t, v)) g = Some (mkGlobals c (errorCount g) (printed g), Returned (gob (Some (t, v)))) ∧
     settled c ∧ (∀ x, x ∈ c ↔ x ∈ checked g ∨ reach t x) ∧ ∀ x, reach t x → exported x) ∨
  (∃ g' f n x, Encode gob (Some (t, v)) g = Some (g', Panicked f n) ∧ reach t x ∧ hides x f n ∧
     errorCount g' = errorCount g ∧ printed g' = printed g ∧
     Encode gob (Some (t, v)) g' = Some (g', Returned (gob (Some (t, v))))).
Proof.
  intros Hs. destruct (after_check_spec t v (λ g, (g, Returned (gob (Some (t, v))))) g Hs)
    as [(c & Ha & ?)|(c & f & n & x & Ha & Ht & ? & ?)].
  - left. by exists c.
  - right. exists (mkGlobals c (errorCount g) (printed g)), f, n, x. split_and!; [done..|].
    by apply (after_check_known t v (λ g, (g, Returned (gob (Some (t, v)))))).
Qed.

(** C33: decoding into a value of a type that hides no fields.  [Decode] does
    not panic, neither in the walk nor when reflection reads the fields, and
    gives gob's answer; [errorCount] grows by the number of scalars that are
    not default, down to three levels of fields and pointers, and the first
    one of the process, and no other, is reported. *)
Theorem Decode_spec {A} (gob : option (Typ * Value) → A) heap t v g :
  settled (checked g) → (0 ≤ errorCount g)%Z → (∀ x, reach t x → exported x) →
  let ws := nondefaults heap 3 t v EmptyString in
  ∃ g', Decode gob heap (Some (t, v)) g = Some (g', Returned (gob (Some (t, v)))) ∧
    settled (checked g') ∧ errorCount g' = (errorCount g + zlen ws)%Z ∧
    printed g' = printed g ++ (if bool_decide (errorCount g = 0)%Z then take 1 ws else []).
Proof.
  intros Hs Hg Ht ws. unfold Decode.
  destruct (after_check_spec t v (λ g, match checkDefault heap (Some (t, v)) g with
    | (g, Returned _) => (g, Returned (gob (Some (t, v)))) | (g, Panicked f n) => (g, Panicked f n) end) g Hs)
    as [(c & -> & Hc & _ & _)|(c & f & n & x & _ & _ & Hr & Hh)]; [|by destruct (Ht x Hr f n)].
  unfold checkDefault. rewrite checkDefault1_spec by done.
  eexists. split; [reflexivity|]. by rewrite reportAll_spec.
Qed.
End LabGob.
