(* ===== verification/LabGobWitness.v ===== *)
(** * Concrete runs of the encoder's checks

    A recursive type whose fields are capitalised, decoded into a value that
    is not default, and the type of the test TestCapital of
    src/labgob/test_test.go, which hides a field behind a slice, a map and a
    pointer. *)

From stdpp Require Import base list gmap sets strings.
From Stdlib Require Import ZArith Lia.
From S2P Require Import Prelude Runes LabGob.

Global Instance latin1 : Unicode := {| Upper_table _ := false; Letter_table _ := false |}.

Open Scope string_scope.

(** [type Node struct { Val int; Next *Node }], and [*Node] *)
Definition node_types : gmap positive TypeInfo := {[
  1%positive := mkTypeInfo "int" KScalar;
  2%positive := mkTypeInfo "Node" (KStruct [mkField "Val" 1 false; mkField "Next" 3 false]);
  3%positive := mkTypeInfo "" (KPtr 2) ]}.

(** [[]map[*T4]int], [type T4 struct { Yes int; no int }] *)
Definition capital_types : gmap positive TypeInfo := {[
  1%positive := mkTypeInfo "int" KScalar;
  2%positive := mkTypeInfo "T4" (KStruct [mkField "Yes" 1 false; mkField "no" 1 false]);
  3%positive := mkTypeInfo "" (KPtr 2);
  4%positive := mkTypeInfo "" (KMap 3 1);
  5%positive := mkTypeInfo "" (KSlice 4) ]}.

Definition initGlobals : Globals := mkGlobals ∅ 0 [].

(** A node that points to itself. *)
Definition ring : gmap positive Value := {[ 1%positive := VStruct [VInt 7; VPtr (Some 1%positive)] ]}.

Example capital_panics {A} (gob : option (positive * Value) → A) :
  ∃ g, Encode capital_types gob (Some (5%positive, VOther)) initGlobals = Some (g, Panicked "no" "T4") ∧ errorCount g = 0%Z.
Proof. eexists. split; vm_compute; reflexivity. Qed.

Lemma node_exported x : reach node_types 3 x → exported node_types x.
Proof.
  destruct (walk_spec node_types 3 ∅ (settled_empty _)) as [(c & u & _ & _ & _ & Hx)|(c & f & n & y & E & _)].
  - apply Hx.
  - exfalso. revert E. vm_compute. done.
Qed.

(** The type of TestCapital: the first call panics, the second one does not. *)
Lemma Encode_spec_witness : ∃ g' f n,
  Encode capital_types (λ _, 0) (Some (5%positive, VOther)) initGlobals = Some (g', Panicked f n) ∧
  errorCount g' = 0%Z ∧ Encode capital_types (λ _, 0) (Some (5%positive, VOther)) g' = Some (g', Returned 0).
Proof.
  destruct (Encode_spec capital_types (λ _, 0) 5 VOther initGlobals (settled_empty _)) as [(c & H & _)|(g' & f & n & x & H & _ & _ & He & _ & H2)].
  - exfalso. revert H. vm_compute. done.
  - by exists g', f, n.
Defined.

(** The value 7 is seen at depth 3, on the second way around it is too deep. *)
Lemma Decode_spec_witness :
  nondefaults node_types ring 3 3 (VPtr (Some 1%positive)) "" = ["Val"] ∧
  ∃ g', Decode node_types (λ _, 0) ring (Some (3%positive, VPtr (Some 1%positive))) initGlobals = Some (g', Returned 0) ∧
    settled node_types (checked g') ∧ errorCount g' = 1%Z ∧ printed g' = ["Val"].
Proof.
  split; [vm_compute; reflexivity|].
  exact (Decode_spec node_types (λ _, 0) ring 3 (VPtr (Some 1%positive)) initGlobals (settled_empty _)
           ltac:(done) node_exported).
Defined.
