(* ===== verification/MRApps.v ===== *)
(** * MapReduce applications (src/mrapps/wc.go, indexer.go, crash.go, nocrash.go, early_exit.go)

    The plugins that a job is run with, and what the jobs compute.  A job's
    files hold pairs that went through JSON; encoding/json replaces bytes that
    are not UTF-8 by U+FFFD, so what the code relies on is that it keeps pairs
    of valid text ([json_keeps]), and that the applications emit valid text is
    proved here.  The order in which one call of the indexer's Map ranges over
    its Go map is the argument [range] of that call; two calls may range
    differently, also on the same file, so a job of the indexer takes
    [varied_step], whose every step may run [Map] with another [range].

    Theorems: a finished word count has one line for each word of the input,
    with the number of its occurrences; a finished index has one line for each
    word, with the sorted names of the files it occurs in; the crashing
    application computes what the application that does not crash computes. *)

From stdpp Require Import strings base gmap list sorting pretty.
From Stdlib Require Import ZArith Lia.
From S2P Require Import Prelude Runes MapReduce MapReduceJob.

(** [sort.Strings] *)
Definition sort_Strings (l : list string) : list string := merge_sort String.le l.

(** What encoding/json documents of strings. *)
Definition json_keeps (json : KeyValue → KeyValue) : Prop :=
  ∀ kv, ValidString (Key kv) → ValidString (Value kv) → json kv = kv.

Section Words.
Context `{Unicode}.

(** [strings.FieldsFunc(contents, ff)] with both applications' [ff]. *)
Definition words (contents : string) : list string := FieldsFunc (λ r, negb (IsLetter r)) contents.

Lemma words_valid s w : IsLetter RuneError = false → w ∈ words s → ValidString w.
Proof.
  intros Hr Hw. destruct (FieldsFunc_words (λ r, negb (IsLetter r)) s w) as (_ & ? & _); [by simpl; rewrite Hr|done|done].
Qed.
End Words.

Module Wc.
Section Wc.
Context `{Unicode}.

Definition Map (filename contents : string) : list KeyValue :=
  (λ w, mkKeyValue w "1") <$> words contents.

Definition Reduce (key : string) (values : list string) : string := Itoa (zlen values).
End Wc.
End Wc.

(** [range]: the order in which this call ranges over the keys of [m]. *)
Module Indexer.
Section Indexer.
Context `{Unicode} (range : gset string → list string).

Definition Map (document value : string) : list KeyValue :=
  let m : gset string := foldl (λ m w, {[w]} ∪ m) ∅ (words value) in
  (λ w, mkKeyValue w document) <$> range m.

Definition Reduce (key : string) (values : list string) : string :=
  let values := sort_Strings values in
  String.append (Itoa (zlen values)) (String.append " " (Join values ",")).
End Indexer.

(** The calls of [Map]: Go ranges over every key once, in any order. *)
Definition Maps `{Unicode} (g : string → string → list KeyValue) : Prop :=
  ∃ range, (∀ m, range m ≡ₚ elements m) ∧ g = Map range.
End Indexer.

(** [maybeCrash] draws [rr] from 0 to 999 and [ms] for the delay; [None] is
    [os.Exit], otherwise the milliseconds it sleeps. *)
Module Crash.
Definition maybeCrash (rr ms : Z) : option Z :=
  if bool_decide (rr < 330)%Z then None
  else if bool_decide (rr < 660)%Z then Some ms
  else Some 0%Z.

Definition Map (rr ms : Z) (filename contents : string) : option (list KeyValue) :=
  _ ← maybeCrash rr ms;
  Some [mkKeyValue "a" filename;
        mkKeyValue "b" (Itoa (Z.of_nat (String.length filename)));
        mkKeyValue "c" (Itoa (Z.of_nat (String.length contents)));
        mkKeyValue "d" "xyzzy"].

Definition Reduce (rr ms : Z) (key : string) (values : list string) : option string :=
  _ ← maybeCrash rr ms;
  let vv := sort_Strings values in
  Some (Join vv " ").
End Crash.

Module NoCrash.
Definition maybeCrash (rr : Z) : option unit :=
  if false && bool_decide (rr < 500)%Z then None else Some tt.

Definition Map (rr : Z) (filename contents : string) : option (list KeyValue) :=
  _ ← maybeCrash rr;
  Some [mkKeyValue "a" filename;
        mkKeyValue "b" (Itoa (Z.of_nat (String.length filename)));
        mkKeyValue "c" (Itoa (Z.of_nat (String.length contents)));
        mkKeyValue "d" "xyzzy"].

Definition Reduce (rr : Z) (key : string) (values : list string) : option string :=
  _ ← maybeCrash rr;
  let vv := sort_Strings values in
  Some (Join vv " ").
End NoCrash.

(** Counts how often each file name is given; [Reduce] also sleeps for some
    keys. *)
Module EarlyExit.
Definition Map (filename contents : string) : list KeyValue := [mkKeyValue filename "1"].
Definition Reduce (key : string) (values : list string) : string := Itoa (zlen values).
End EarlyExit.

(** ** What the reduce functions compute does not depend on the order of the values *)

Lemma sort_Strings_ext l k : l ≡ₚ k → sort_Strings l = sort_Strings k.
Proof.
  intros Hp. eapply (StronglySorted_unique String.le);
    [apply (StronglySorted_merge_sort String.le)..|]. unfold sort_Strings. by rewrite !merge_sort_Permutation.
Qed.

Lemma zlen_perm {A} (l k : list A) : l ≡ₚ k → zlen l = zlen k.
Proof. intros Hp. unfold zlen. by rewrite Hp. Qed.

Lemma Wc_Reduce_perm k vs vs' : vs ≡ₚ vs' → Wc.Reduce k vs = Wc.Reduce k vs'.
Proof. intros Hp. unfold Wc.Reduce. by rewrite (zlen_perm _ _ Hp). Qed.

Lemma Indexer_Reduce_perm k vs vs' : vs ≡ₚ vs' → Indexer.Reduce k vs = Indexer.Reduce k vs'.
Proof. intros Hp. unfold Indexer.Reduce. by rewrite (sort_Strings_ext _ _ Hp). Qed.

(** ** All the pairs of a job *)

Lemma fmap_concat {A B} (f : A → B) (ls : list (list A)) : fmap (M:=list) f (concat ls) = concat (fmap (M:=list) (fmap (M:=list) f) ls).
Proof. induction ls as [|l ls IH]; [done|]. simpl. by rewrite fmap_app, IH. Qed.

Lemma all_emitted_files mapf inputs files :
  all_emitted mapf inputs files = concat ((λ f, match inputs !! f with Some content => mapf f content | None => [] end) <$> files).
Proof.
  unfold all_emitted, emitted_upto. f_equal. unfold emitted.
  induction files as [|f files IH] using rev_ind; [done|].
  rewrite length_app, Nat.add_1_r, seq_S, !fmap_app, <-IH. f_equal.
  - apply list_fmap_ext. intros i k Hk%lookup_seq. rewrite lookup_app_l by lia. done.
  - simpl. by rewrite lookup_app_r, Nat.sub_diag by lia.
Qed.

Lemma elem_of_emitted mapf inputs files kv :
  kv ∈ all_emitted mapf inputs files ↔ ∃ f content, f ∈ files ∧ inputs !! f = Some content ∧ kv ∈ mapf f content.
Proof.
  rewrite all_emitted_files, list_elem_of_In, in_concat. split.
  - intros (x & (f & -> & Hf)%list_elem_of_In%list_elem_of_fmap & Hkv%list_elem_of_In).
    destruct (inputs !! f) as [content|] eqn:E; [|by apply elem_of_nil in Hkv]. by exists f, content.
  - intros (f & content & Hf & Hc & Hkv). exists (mapf f content). rewrite <-!list_elem_of_In. split; [|done].
    apply list_elem_of_fmap. exists f. by rewrite Hc.
Qed.

(** ** The jobs *)

Section Jobs.
Context `{Unicode} (Hletter : IsLetter RuneError = false).
Context (sortf : list KeyValue → list KeyValue) (Hsort : ∀ l, sortf l ≡ₚ l ∧ StronglySorted key_le (sortf l)).
Context (json : KeyValue → KeyValue) (Hjson : json_keeps json).
Context (inputs : gmap string string) (files : list string) (n : nat).
Context (Hn : 0 < n) (Hin : ∀ f, f ∈ files → is_Some (inputs !! f)).

(** The contents of a file, and how often a word occurs in all the input. *)
Definition content (f : string) : string := default EmptyString (inputs !! f).
Definition occurrences (w : string) : nat := length (filter (λ x, x = w) (concat ((words ∘ content) <$> files))).

(** The files in which a word occurs. *)
Definition documents (w : string) : list string := filter (λ f, w ∈ words (content f)) files.

Lemma content_lookup f c : inputs !! f = Some c → content f = c.
Proof. unfold content. by intros ->. Qed.

Lemma wc_emitted : all_emitted Wc.Map inputs files = (λ w, mkKeyValue w "1") <$> concat ((words ∘ content) <$> files).
Proof.
  rewrite all_emitted_files, fmap_concat, <-list_fmap_compose. f_equal. apply list_fmap_ext. intros i f Hf.
  destruct (Hin f) as [c Hc]; [by eapply list_elem_of_lookup_2|]. simpl. rewrite Hc. by rewrite (content_lookup _ _ Hc).
Qed.

Lemma wc_values w : length (values w (all_emitted Wc.Map inputs files)) = occurrences w.
Proof.
  rewrite wc_emitted. unfold values, occurrences. rewrite length_fmap.
  induction (concat _) as [|x l IH]; [done|]. rewrite fmap_cons, !filter_cons. simpl. case_decide; simpl; by rewrite IH.
Qed.

Lemma wc_keys w : w ∈ Key <$> all_emitted Wc.Map inputs files ↔ occurrences w ≠ 0.
Proof.
  rewrite wc_emitted, <-list_fmap_compose. unfold occurrences, compose. simpl. rewrite list_fmap_id.
  rewrite length_zero_iff_nil. split.
  - intros Hw Hf. by eapply (filter_nil_not_elem_of _ _ w Hf).
  - intros Hf. destruct (filter _ _) as [|x l] eqn:E; [done|].
    assert (Hx : x ∈ x :: l) by left. rewrite <-E in Hx. by apply list_elem_of_filter in Hx as [-> ?].
Qed.

(** C14: what a word count computes.  In every interleaving of workers that
    are slow, repeat tasks or crash, once a worker is told that the job is
    done the output files are there, no word has two lines, and the lines are
    exactly the words of the input files (the maximal runs of letters, decoded
    from UTF-8), each with the decimal number of its occurrences in all the
    files.  Hypotheses: U+FFFD is not a letter, [sort.Sort] sorts, JSON keeps
    valid text, the input files exist and there is a reduce task. *)
Theorem wc_correct j c' :
  rtc (job_step Wc.Map Wc.Reduce sortf json inputs) (initJob files n) j →
  FetchTask (j_coord j) = (c', Some ReplyDone) →
  ∃ outs, length outs = n ∧ (∀ r, r < n → j_outs j !! Z.of_nat r = outs !! r) ∧
    NoDup (concat outs).*1 ∧
    ∀ w v, (w, v) ∈ concat outs ↔ occurrences w ≠ 0 ∧ v = Itoa (Z.of_nat (occurrences w)).
Proof.
  intros Hr Hd. destruct (job_groups Wc.Map Wc.Reduce sortf json inputs files n Hn Hin) with (j := j) (c' := c')
    as (outs & Hlen & Ho & Hnd & Hg); [|done|apply Wc_Reduce_perm|done|done|].
  { intros f c kv Hf Hc (w & -> & Hw)%list_elem_of_fmap. apply Hjson; simpl; [by eapply words_valid|].
    intros r ch Hin'. vm_compute in Hin'. apply list_elem_of_singleton in Hin'. by injection Hin' as -> ->. }
  exists outs. split_and!; [done..|]. intros w v. rewrite Hg, wc_keys. unfold Wc.Reduce, zlen. by rewrite wc_values.
Qed.

(** *** The index *)

Lemma word_set_spec l w : w ∈ foldl (λ (m : gset string) w, {[w]} ∪ m) ∅ l ↔ w ∈ l.
Proof.
  assert (Hgen : ∀ m : gset string, w ∈ foldl (λ m w, {[w]} ∪ m) m l ↔ w ∈ m ∨ w ∈ l).
  { induction l as [|x l IH]; intros m; simpl; [set_solver|]. rewrite IH. set_solver. }
  rewrite Hgen. set_solver.
Qed.

(** Each document emits each of its words once. *)
Lemma indexer_doc f c w :
  values w (Indexer.Map elements f c) = if decide (w ∈ words c) then [f] else [].
Proof.
  unfold Indexer.Map, values. set (m := foldl _ ∅ (words c)).
  assert (Hnd : NoDup (elements m)) by apply NoDup_elements.
  assert (Hw : w ∈ words c ↔ w ∈ elements m) by (by rewrite elem_of_elements, <-word_set_spec).
  transitivity (if decide (w ∈ elements m) then [f] else []); [|repeat case_decide; tauto]. clear Hw.
  revert Hnd. generalize (elements m). intros l. induction 1 as [|x l Hx Hnd IH]; [done|].
  rewrite fmap_cons, filter_cons. cbn [Key]. destruct (decide (x = w)) as [->|Hne].
  - rewrite decide_True by left. rewrite fmap_cons, IH, decide_False by done. done.
  - rewrite IH. repeat case_decide; set_solver.
Qed.

Lemma indexer_values w : values w (all_emitted (Indexer.Map elements) inputs files) = documents w.
Proof.
  rewrite all_emitted_files. unfold documents. pose proof Hin as Hfs. revert Hfs. generalize files. intros fs Hfs.
  induction fs as [|f fs IH]; [done|]. rewrite fmap_cons, filter_cons. simpl. rewrite values_app, IH by set_solver.
  destruct (Hfs f) as [c Hc]; [left|]. rewrite Hc, indexer_doc, (content_lookup _ _ Hc). by case_decide.
Qed.

Lemma indexer_keys w : w ∈ Key <$> all_emitted (Indexer.Map elements) inputs files ↔ documents w ≠ [].
Proof.
  rewrite <-indexer_values. generalize (all_emitted (Indexer.Map elements) inputs files). intros l.
  unfold values. split.
  - intros (kv & -> & Hkv)%list_elem_of_fmap Hnil. apply fmap_nil_inv in Hnil.
    by eapply (filter_nil_not_elem_of _ _ kv Hnil).
  - intros Hne. destruct (filter _ _) as [|kv k] eqn:E; [done|].
    assert (Hkv : kv ∈ kv :: k) by left. rewrite <-E in Hkv. apply list_elem_of_filter in Hkv as [<- ?].
    by apply list_elem_of_fmap_2.
Qed.

Lemma indexer_maps g f c : Indexer.Maps g → g f c ≡ₚ Indexer.Map elements f c.
Proof. intros (range & Hrange & ->). unfold Indexer.Map. by rewrite Hrange. Qed.

(** C15: what an index computes.  In every interleaving, a finished job has
    one line for each word of the input, with the number of the files it
    occurs in and their names, sorted and separated by commas; a file that has
    a word many times is listed once.  The order in which Go ranges over a map
    does not show, though every call of [Map], of a repeated task as well,
    may range in another order. *)
Theorem indexer_correct j c' :
  (∀ f, f ∈ files → ValidString f) →
  rtc (varied_step Indexer.Reduce sortf json inputs Indexer.Maps) (initJob files n) j →
  FetchTask (j_coord j) = (c', Some ReplyDone) →
  ∃ outs, length outs = n ∧ (∀ r, r < n → j_outs j !! Z.of_nat r = outs !! r) ∧
    NoDup (concat outs).*1 ∧
    ∀ w v, (w, v) ∈ concat outs ↔ documents w ≠ [] ∧
      v = String.append (Itoa (zlen (documents w))) (String.append " " (Join (sort_Strings (documents w)) ",")).
Proof.
  intros Hnames Hr Hd.
  destruct (varied_groups (Indexer.Map elements) Indexer.Reduce sortf json inputs files n Hn Hin) with
    (maps := Indexer.Maps) (j := j) (c' := c') as (outs & Hlen & Ho & Hnd & Hg);
    [|done|by intros; apply indexer_maps|apply Indexer_Reduce_perm|done|done|].
  { intros f c kv Hf Hc (w & -> & Hw)%list_elem_of_fmap. apply Hjson; simpl; [|by apply Hnames].
    rewrite elem_of_elements, word_set_spec in Hw. by eapply words_valid. }
  exists outs. split_and!; [done..|]. intros w v. rewrite Hg, indexer_keys, indexer_values. unfold Indexer.Reduce.
  rewrite (zlen_perm (sort_Strings _) (documents w)); [done|]. apply merge_sort_Permutation.
Qed.
End Jobs.

(** Calls that do not exit agree with the application that never does; which
    calls exit does not depend on the input. *)
Lemma crash_spec rr ms rr' :
  (∀ f c, Crash.Map rr ms f c = if bool_decide (rr < 330)%Z then None else NoCrash.Map rr' f c) ∧
  (∀ k vs, Crash.Reduce rr ms k vs = if bool_decide (rr < 330)%Z then None else NoCrash.Reduce rr' k vs).
Proof.
  unfold Crash.Map, Crash.Reduce, Crash.maybeCrash. split; intros; repeat case_bool_decide; done.
Qed.

Lemma crash_Reduce_perm rr ms k vs vs' : vs ≡ₚ vs' → Crash.Reduce rr ms k vs = Crash.Reduce rr ms k vs'.
Proof. intros Hp. unfold Crash.Reduce. by rewrite (sort_Strings_ext _ _ Hp). Qed.

Lemma EarlyExit_Reduce_perm k vs vs' : vs ≡ₚ vs' → EarlyExit.Reduce k vs = EarlyExit.Reduce k vs'.
Proof. intros Hp. unfold EarlyExit.Reduce. by rewrite (zlen_perm _ _ Hp). Qed.
