(* ===== verification/MRAppsWitness.v ===== *)
(** * Concrete word counts and indexes

    The jobs of [MRApps] on two small files with one reduce task: both map
    tasks, then the reduce task. *)

From stdpp Require Import strings base gmap list sorting pretty.
From Stdlib Require Import ZArith Lia.
From S2P Require Import Prelude Runes MapReduce MapReduceJob MRApps MapReduceWitness LabGobWitness.

Open Scope string_scope.

Definition inputsW : gmap string string := {[ "f" := "the cat, the hat"; "g" := "a cat!" ]}.

Lemma inputsW_ok f : f ∈ filesA → is_Some (inputsW !! f).
Proof. intros Hf. repeat (apply elem_of_cons in Hf as [->|Hf]); [by eexists..|by apply elem_of_nil in Hf]. Qed.

Lemma replacement_no_letter : IsLetter RuneError = false.
Proof. reflexivity. Qed.

Lemma id_keeps : json_keeps id.
Proof. done. Qed.

(** The run of [MapReduceWitness], on other files. *)
Ltac run_job :=
  eapply rtc_l; [apply job_fetch; vm_compute; reflexivity|];
  eapply rtc_l; [apply job_fetch; vm_compute; reflexivity|];
  eapply rtc_l; [eapply (job_map _ _ _ _ _ _ _ _ _ _ _ _ _ (mtask 0 "f" STARTED)); [right; left|vm_compute; reflexivity]|];
  eapply rtc_l; [eapply (job_map _ _ _ _ _ _ _ _ _ _ _ _ _ (mtask 1 "g" STARTED)); [left|vm_compute; reflexivity]|];
  eapply rtc_l; [eapply (job_map_report _ _ _ _ _ _ _ _ _ _ _ _ _ 0); [right; left|vm_compute; reflexivity]|];
  eapply rtc_l; [eapply (job_map_report _ _ _ _ _ _ _ _ _ _ _ _ _ 1); [left|vm_compute; reflexivity]|];
  eapply rtc_l; [apply job_fetch; vm_compute; reflexivity|];
  eapply rtc_l; [eapply (job_reduce _ _ _ _ _ _ _ _ _ _ _ _ (rtask STARTED)); [left|vm_compute; reflexivity]|];
  eapply rtc_l; [eapply (job_reduce_report _ _ _ _ _ _ _ _ _ _ _ _ _ 0); [left|vm_compute; reflexivity]|];
  apply rtc_refl.

Lemma wc_run : ∃ j, rtc (job_step Wc.Map Wc.Reduce sortKeys id inputsW) (initJob filesA 1) j ∧
  FetchTask (j_coord j) = (j_coord j, Some ReplyDone) ∧
  j_outs j !! 0%Z = Some [("a", "1"); ("cat", "2"); ("hat", "1"); ("the", "2")].
Proof. eexists. split; [run_job|]. split; vm_compute; reflexivity. Qed.

(** Calls of the indexer's Map that range in opposite orders. *)
Lemma maps_forward : Indexer.Maps (Indexer.Map elements).
Proof. by exists elements. Qed.

Lemma maps_backward : Indexer.Maps (Indexer.Map (λ m, reverse (elements m))).
Proof. exists (λ m, reverse (elements m)). split; [|done]. intros m. apply reverse_Permutation. Qed.

Ltac indexer_step tac := eapply rtc_l; [exists (Indexer.Map elements); split; [exact maps_forward|tac]|].

(** The task of the first file is done twice, and its files are written in
    two orders. *)
Lemma indexer_run : ∃ j, rtc (varied_step Indexer.Reduce sortKeys id inputsW Indexer.Maps) (initJob filesA 1) j ∧
  FetchTask (j_coord j) = (j_coord j, Some ReplyDone) ∧
  j_outs j !! 0%Z = Some [("a", "1 g"); ("cat", "2 f,g"); ("hat", "1 f"); ("the", "1 f")].
Proof.
  eexists. split.
  - indexer_step ltac:(apply job_fetch; vm_compute; reflexivity).
    indexer_step ltac:(apply job_fetch; vm_compute; reflexivity).
    indexer_step ltac:(eapply (job_map _ _ _ _ _ _ _ _ _ _ _ _ _ (mtask 0 "f" STARTED)); [right; left|vm_compute; reflexivity]).
    eapply rtc_l; [exists (Indexer.Map (λ m, reverse (elements m))); split; [exact maps_backward|]|].
    { eapply (job_map _ _ _ _ _ _ _ _ _ _ _ _ _ (mtask 0 "f" STARTED)); [right; left|vm_compute; reflexivity]. }
    indexer_step ltac:(eapply (job_map _ _ _ _ _ _ _ _ _ _ _ _ _ (mtask 1 "g" STARTED)); [left|vm_compute; reflexivity]).
    indexer_step ltac:(eapply (job_map_report _ _ _ _ _ _ _ _ _ _ _ _ _ 0); [right; left|vm_compute; reflexivity]).
    indexer_step ltac:(eapply (job_map_report _ _ _ _ _ _ _ _ _ _ _ _ _ 1); [left|vm_compute; reflexivity]).
    indexer_step ltac:(apply job_fetch; vm_compute; reflexivity).
    indexer_step ltac:(eapply (job_reduce _ _ _ _ _ _ _ _ _ _ _ _ (rtask STARTED)); [left|vm_compute; reflexivity]).
    indexer_step ltac:(eapply (job_reduce_report _ _ _ _ _ _ _ _ _ _ _ _ _ 0); [left|vm_compute; reflexivity]).
    apply rtc_refl.
  - split; vm_compute; reflexivity.
Qed.

Example ranges_differ :
  Indexer.Map elements "f" "the cat, the hat" ≠ Indexer.Map (λ m, reverse (elements m)) "f" "the cat, the hat".
Proof. vm_compute. discriminate. Qed.

Lemma wc_correct_witness : ∃ v, v = Itoa (Z.of_nat (occurrences inputsW filesA "cat")) ∧ v = "2".
Proof.
  destruct wc_run as (j & Hr & Hd & Ho).
  destruct (wc_correct replacement_no_letter sortKeys sortKeys_ok id id_keeps inputsW filesA 1 ltac:(lia) inputsW_ok j _ Hr Hd)
    as (outs & Hlen & Houts & _ & Hlines).
  destruct outs as [|o [|]]; [done| |done]. specialize (Houts 0 ltac:(lia)). change (Z.of_nat 0) with 0%Z in Houts. rewrite Ho in Houts. injection Houts as <-.
  exists "2". split; [|done]. apply (Hlines "cat" "2"). right; left.
Defined.

Lemma filesA_valid f : f ∈ filesA → ValidString f.
Proof.
  intros Hf. repeat (apply elem_of_cons in Hf as [->|Hf]);
    [intros r c Hin; vm_compute in Hin; apply list_elem_of_singleton in Hin; by injection Hin as -> ->..
    |by apply elem_of_nil in Hf].
Qed.

Lemma indexer_correct_witness :
  documents inputsW filesA "cat" ≠ [] ∧
  "2 f,g" = String.append (Itoa (zlen (documents inputsW filesA "cat")))
    (String.append " " (Join (sort_Strings (documents inputsW filesA "cat")) ",")).
Proof.
  destruct indexer_run as (j & Hr & Hd & Ho).
  destruct (indexer_correct replacement_no_letter sortKeys sortKeys_ok id id_keeps inputsW filesA 1 ltac:(lia) inputsW_ok
    j _ filesA_valid Hr Hd) as (outs & Hlen & Houts & _ & Hlines).
  destruct outs as [|o [|]]; [done| |done]. specialize (Houts 0 ltac:(lia)). change (Z.of_nat 0) with 0%Z in Houts. rewrite Ho in Houts. injection Houts as <-.
  apply (Hlines "cat" "2 f,g"). right; left.
Defined.
