(* ===== verification/Harness.v ===== *)
(** * What the test harnesses share (src/raft/config.go, src/kvraft/config.go,
      src/shardctrler/config.go, src/shardkv/config.go)

    Every harness drives the simulated network of [LabRPC]: it gives servers
    and clerks client ends with random names, connects them to servers, and
    enables and disables ends to partition the network.  Here are the names,
    the loops over ends and what they leave in the network, the table of end
    names of a group of servers with its invariant [wired], the objects that
    persisters are (a heap of them: a harness replaces a server's persister by
    a copy so that an old instance, which cannot be killed, writes to an object
    nobody reads any more), and the shuffle of a clerk's handles. *)

From stdpp Require Import base list gmap sets strings.
From Stdlib Require Import ZArith Lia.
From S2P Require Import Prelude Runes RaftCore LabRPC.

(** ** Names

    End and server names are of type interface{}: servers of a single group
    are named by ints, everything else by strings. *)

Inductive NetName : Type :=
| NInt (i : Z)
| NStr (s : string).

Global Instance NetName_eq_dec : EqDecision NetName.
Proof. solve_decision. Defined.

Global Instance NetName_countable : Countable NetName.
Proof.
  refine (inj_countable' (λ x, match x with NInt i => inl i | NStr s => inr s end)
    (λ y, match y with inl i => NInt i | inr s => NStr s end) _). by intros [].
Defined.

Abbreviation Net := (Network NetName).

(** ** Slices by position

    The harnesses index by loop variables; an index out of range is a panic. *)

Definition at_ {A} (l : list A) (i : nat) : Res A :=
  match l !! i with Some x => Ok x | None => Panic end.

Definition put_ {A} (l : list A) (i : nat) (x : A) : Res (list A) :=
  if bool_decide (i < length l) then Ok (<[i := x]> l) else Panic.

(** ** Persisters are objects *)

Abbreviation PHeap := (list Persister).

(** [saved[i].Copy()], or what else makes an object: its address and the heap. *)
Definition new_ (h : PHeap) (p : Persister) : nat * PHeap := (length h, h ++ [p]).

(** ** End names of servers: [endnames[i][j]] is the end of server [i] to [j];
    a slice may be nil. *)

Abbreviation EndNames := (list (option (list NetName))).

Definition endname (en : EndNames) (i j : nat) : Res NetName :=
  names ← at_ en i;
  match names with Some names => at_ names j | None => Panic end.

(** Loops that enable or disable ends, all at once. *)
Definition enableAll (net : Net) (es : list NetName) (yes : bool) : Net :=
  foldl (λ net e, Enable net e yes) net es.

(** The loop that makes a set of ends and connects them. *)
Definition makeEnds (net : Net) (names : list (NetName * NetName)) : Res Net :=
  foldM (λ net '(e, server), net ← MakeEnd net e; Ok (Connect net e server)) net names.

(** ** Randomize server handles

    [js] are the results of [rand.Intn(i + 1)]. *)
Definition swap_ {A} (sa : list A) (i j : nat) : Res (list A) :=
  x ← at_ sa i; y ← at_ sa j; sa ← put_ sa i y; put_ sa j x.

Definition random_handles {A} (kvh : list A) (js : nat → nat) : Res (list A) :=
  foldM (λ sa i, swap_ sa i (js i)) kvh (seq 0 (length kvh)).

(** ** Lemmas *)

Lemma at_Some {A} (l : list A) i x : l !! i = Some x → at_ l i = Ok x.
Proof. unfold at_. by intros ->. Qed.

Lemma at_Ok {A} (l : list A) i x : at_ l i = Ok x ↔ l !! i = Some x.
Proof. unfold at_. destruct (l !! i); naive_solver. Qed.

Lemma put_Ok {A} (l : list A) i x : i < length l → put_ l i x = Ok (<[i := x]> l).
Proof. intros ?. unfold put_. by rewrite bool_decide_true. Qed.

(** A loop whose passes enable at most one end each. *)
Lemma loop_enable {A} (body : Net → A → Res Net) (sel : A → option NetName) yes (l : list A) net :
  (∀ net x, x ∈ l → body net x = Ok (match sel x with Some e => Enable net e yes | None => net end)) →
  foldM body net l = Ok (enableAll net (omap sel l) yes).
Proof.
  revert net. induction l as [|x l IH]; intros net Hb; [done|]. cbn [foldM]. rewrite Hb by left. res_simpl.
  rewrite IH by (intros; apply Hb; by right). simpl. by destruct (sel x).
Qed.

Lemma enableAll_enabled net es yes e :
  enabled (enableAll net es yes) !! e = if decide (e ∈ es) then Some yes else enabled net !! e.
Proof.
  unfold enableAll. revert net. induction es as [|x es IH]; intros net; simpl; [done|].
  rewrite IH. simpl. destruct (decide (e = x)) as [->|Hne].
  - rewrite lookup_insert_eq. repeat case_decide; set_solver.
  - rewrite lookup_insert_ne by done. repeat case_decide; set_solver.
Qed.

(** Everything but [enabled] is left alone. *)
Lemma enableAll_rest net es yes :
  ends (enableAll net es yes) = ends net ∧ servers (enableAll net es yes) = servers net ∧
  connections (enableAll net es yes) = connections net.
Proof. unfold enableAll. revert net. induction es as [|x es IH]; intros net; [done|]. exact (IH (Enable net x yes)). Qed.

(** Ends with new names can be made; they are disabled, and connected. *)
Lemma makeEnds_spec net names :
  NoDup names.*1 → (∀ e, e ∈ names.*1 → e ∉ ends net) →
  ∃ net', makeEnds net names = Ok net' ∧
    (∀ e, e ∈ ends net' ↔ e ∈ names.*1 ∨ e ∈ ends net) ∧ servers net' = servers net ∧
    (∀ e, enabled net' !! e = if decide (e ∈ names.*1) then Some false else enabled net !! e) ∧
    (∀ e, e ∉ names.*1 → connections net' !! e = connections net !! e) ∧
    (∀ e s, (e, s) ∈ names → connections net' !! e = Some (Some s)).
Proof.
  unfold makeEnds. revert net. induction names as [|[x s] names IH]; intros net Hnd Hnew.
  { exists net. split_and!; try done; set_solver. }
  rewrite fmap_cons in Hnd. apply NoDup_cons in Hnd as [Hx Hnd]. simpl in Hx.
  cbn [foldM]. unfold MakeEnd at 2. rewrite bool_decide_false by (apply Hnew; rewrite fmap_cons; left). res_simpl.
  set (net1 := Connect _ x s).
  destruct (IH net1 Hnd) as (net' & -> & He & Hs & Hen & Hc & Hc').
  { intros e Hin. simpl. intros [->%elem_of_singleton|?]%elem_of_union; [done|]. eapply Hnew; [|done]. rewrite fmap_cons. by right. }
  exists net'. split; [done|]. split_and!.
  - intros e. rewrite He. simpl. set_solver.
  - by rewrite Hs.
  - intros e. rewrite Hen. simpl. destruct (decide (e = x)) as [->|Hne].
    + rewrite lookup_insert_eq. repeat case_decide; set_solver.
    + rewrite lookup_insert_ne by done. repeat case_decide; set_solver.
  - intros e Hne. rewrite fmap_cons in Hne. apply not_elem_of_cons in Hne as [? ?]. rewrite Hc by done. simpl.
    rewrite !lookup_insert_ne by done. done.
  - intros e s' [[= -> ->]|Hin]%elem_of_cons; [|by apply Hc'].
    rewrite Hc by done. simpl. by rewrite lookup_insert_eq.
Qed.

(** *** The shuffle *)

Lemma swap_perm {A} (sa : list A) i j : i < length sa → j < length sa → ∃ sa', swap_ sa i j = Ok sa' ∧ sa' ≡ₚ sa.
Proof.
  intros Hi Hj. destruct (lookup_lt_is_Some_2 sa i Hi) as [x Hx]. destruct (lookup_lt_is_Some_2 sa j Hj) as [y Hy].
  unfold swap_. rewrite (at_Some _ _ _ Hx), (at_Some _ _ _ Hy). res_simpl. rewrite put_Ok by done. res_simpl.
  rewrite put_Ok by (by rewrite length_insert). eexists. split; [done|].
  destruct (decide (i = j)) as [->|Hne].
  { simplify_eq. by rewrite list_insert_insert_eq, list_insert_id. }
  symmetry. eapply Permutation_inj. split; [by rewrite !length_insert|].
  exists (λ k, if decide (k = i) then j else if decide (k = j) then i else k). split.
  { intros a b. repeat case_decide; congruence. }
  intros k. destruct (decide (k = i)) as [->|]; [|destruct (decide (k = j)) as [->|]].
  - rewrite list_lookup_insert_eq by (by rewrite length_insert). by rewrite Hx.
  - rewrite list_lookup_insert_ne by done. rewrite list_lookup_insert_eq by done. by rewrite Hy.
  - by rewrite !list_lookup_insert_ne by done.
Qed.

(** Whatever [rand.Intn] returns, a clerk gets all its handles. *)
Lemma random_handles_perm {A} (kvh : list A) js :
  (∀ i, js i ≤ i) → ∃ sa, random_handles kvh js = Ok sa ∧ sa ≡ₚ kvh.
Proof.
  intros Hjs. apply (foldM_inv _ (λ sa, sa ≡ₚ kvh)); [done|]. intros sa i [_ Hi]%elem_of_seq Hp.
  assert (Hlen : length sa = length kvh) by (by rewrite Hp). specialize (Hjs i).
  destruct (swap_perm sa i (js i)) as (sa' & ? & Hp'); [lia..|]. exists sa'. split; [done|]. by transitivity sa.
Qed.

(** *** The table of end names *)

(** The end of server [i] to server [j] is called [e]. *)
Definition slot (en : EndNames) (i j : nat) (e : NetName) : Prop :=
  ∃ names, en !! i = Some (Some names) ∧ names !! j = Some e.

Lemma endname_slot en i j e : endname en i j = Ok e ↔ slot en i j e.
Proof.
  unfold endname, slot. split.
  - intros H. res_inv. apply at_Ok in E. destruct x as [names|]; [|done]. exists names. by apply at_Ok in H.
  - intros (names & Hi & Hj). by rewrite (at_Some _ _ _ Hi), <-(at_Some _ _ _ Hj).
Qed.

Record wired (n : nat) (target : nat → NetName) (net : Net) (en : EndNames) : Prop := {
  w_len : length en = n;
  w_row : ∀ i names, en !! i = Some (Some names) → length names = n;
  w_ends : ∀ i j e, slot en i j e → e ∈ ends net;
  w_conn : ∀ i j e, slot en i j e → connections net !! e = Some (Some (target j));
  w_inj : ∀ i j i' j' e, slot en i j e → slot en i' j' e → i = i' ∧ j = j';
}.

Lemma slot_exists n target net en i j :
  wired n target net en → i < n → j < n → en !! i ≠ Some None → ∃ e, slot en i j e.
Proof.
  intros W Hi Hj Hne. destruct (lookup_lt_is_Some_2 en i) as [[names|] Hn]; [by rewrite (w_len _ _ _ _ W)| |done].
  destruct (lookup_lt_is_Some_2 names j) as [e He]; [by rewrite (w_row _ _ _ _ W i names Hn)|]. by exists e, names.
Qed.

Lemma slot_bounds n target net en i j e : wired n target net en → slot en i j e → i < n ∧ j < n.
Proof.
  intros W (names & Hi & Hj). rewrite <-(w_len _ _ _ _ W), <-(w_row _ _ _ _ W _ _ Hi) at 1.
  split; by eapply lookup_lt_Some.
Qed.

Lemma wired_ext n target net net' en :
  ends net' = ends net → connections net' = connections net → wired n target net en → wired n target net' en.
Proof. intros He Hc [? ? Hends Hconn ?]. split; try done; [by rewrite He|by rewrite Hc]. Qed.

Lemma slot_insert en i names i' j e :
  slot (<[i := Some names]> en) i' j e → (i' = i ∧ names !! j = Some e) ∨ (i' ≠ i ∧ slot en i' j e).
Proof.
  intros (ns & Hi & Hj). apply list_lookup_insert_Some in Hi as [(-> & [= ->] & _)|[? Hi]]; [by left|].
  right. split; [done|]. by exists ns.
Qed.

Lemma slot_insert_eq en i names j e :
  i < length en → names !! j = Some e → slot (<[i := Some names]> en) i j e.
Proof. intros Hi Hj. exists names. by rewrite list_lookup_insert_eq. Qed.

Lemma slot_insert_ne en i names i' j e : i ≠ i' → slot en i' j e → slot (<[i := names]> en) i' j e.
Proof. intros Hne (ns & ? & ?). exists ns. by rewrite list_lookup_insert_ne. Qed.

(** A server starts with a fresh set of ends. *)
Definition freshNames (n : nat) (names : list NetName) (net : Net) : Prop :=
  length names = n ∧ NoDup names ∧ ∀ e, e ∈ names → e ∉ ends net.

Lemma zip_targets n (target : nat → NetName) (names : list NetName) :
  length names = n → (zip names (target <$> seq 0 n)).*1 = names.
Proof. intros <-. apply fst_zip. by rewrite length_fmap, length_seq. Qed.

Lemma wired_fresh n target net en i names :
  wired n target net en → i < n → freshNames n names net →
  ∃ net', makeEnds net (zip names (target <$> seq 0 n)) = Ok net' ∧
    wired n target net' (<[i := Some names]> en) ∧ servers net' = servers net ∧
    (∀ e, e ∈ ends net' ↔ e ∈ names ∨ e ∈ ends net) ∧
    (∀ e, enabled net' !! e = if decide (e ∈ names) then Some false else enabled net !! e).
Proof.
  intros W Hi (Hlen & Hnd & Hnew). pose proof (zip_targets n target names Hlen) as Hz.
  destruct (makeEnds_spec net (zip names (target <$> seq 0 n))) as (net' & Hm & He & Hs & Hen & Hc & Hc');
    rewrite ?Hz in *; [done..|].
  exists net'. split; [done|]. split_and!; [|done..]. split.
  - rewrite length_insert. apply W.
  - intros i' ns [(-> & [= ->] & _)|[? Hi']]%list_lookup_insert_Some; [done|by eapply (w_row _ _ _ _ W)].
  - intros i' j e [[-> Hj]|[? Hsl]]%slot_insert; apply He; [left; by eapply list_elem_of_lookup_2|right; by eapply (w_ends _ _ _ _ W)].
  - intros i' j e [[-> Hj]|[? Hsl]]%slot_insert.
    + apply Hc'. apply list_elem_of_lookup. exists j. apply lookup_zip_with_Some. exists e, (target j). split_and!; [done..|].
      rewrite list_lookup_fmap, lookup_seq_lt; [done|]. rewrite <-Hlen. by eapply lookup_lt_Some.
    + rewrite Hc; [by eapply (w_conn _ _ _ _ W)|]. intros Hin%Hnew. by apply Hin, (w_ends _ _ _ _ W i' j).
  - assert (Hold : ∀ i' j e k, slot en i' j e → names !! k = Some e → False).
    { intros i' j e k Hsl Hk. eapply Hnew; [by eapply list_elem_of_lookup_2|]. by eapply (w_ends _ _ _ _ W). }
    intros i1 j1 i2 j2 e [[-> H1]|[? H1]]%slot_insert [[-> H2]|[? H2]]%slot_insert; try (exfalso; by eauto).
    + split; [done|]. by eapply NoDup_lookup.
    + by eapply (w_inj _ _ _ _ W).
Qed.
