(* ===== verification/RaftHarness.v ===== *)
(** * The tester of Raft (src/raft/config.go)

    [config] is the struct of the tester: the network, the running instances,
    who is connected, what the instances have delivered so far, and their
    persisters, which are objects of a heap ([cfg_heap], see [Harness]).  An
    instance is a peer with the address of its persister; an instance that was
    replaced cannot really be killed and is kept in [cfg_retired].  Random end
    names, clock readings and the moments at which an unlocked loop looks at
    the peers are arguments.  [log.Fatalf], [t.Fatal] and [panic] are [Panic].

    Theorems: connecting, disconnecting, crashing and starting servers in any
    order leaves exactly the ends between connected servers enabled, and the
    ends of replaced instances disabled for ever; a restart gets the state that
    was persisted last, and replaced instances cannot touch it.  What the checks
    find is in [RaftTester]. *)

From stdpp Require Import base list gmap sets strings.
From Stdlib Require Import ZArith Lia.
From S2P Require Import Prelude Runes RaftLog RaftCore RaftApply LabRPC Harness.

Section RaftHarness.
Context {C : Type} `{!EqDecision C, !Gob (PState C)}.

(** What [applierSnap] encodes: the index and the commands from 0. *)
Abbreviation TestSnapshot := (Z * list (option C))%type.
Context `{!Gob TestSnapshot}.

Record Instance_ : Type := mkInstance {
  in_raft : Raft C;
  in_ps : nat; (* the address of its persister *)
}.

Record config : Type := mkConfig {
  cfg_finished : bool;
  cfg_net : Net;
  cfg_n : nat;
  cfg_rafts : list (option Instance_);
  cfg_connected : list bool;
  cfg_saved : list (option nat);
  cfg_endnames : EndNames;
  cfg_logs : list (gmap Z (option C));
  cfg_lastApplied : list Z;
  cfg_maxIndex : Z;
  cfg_heap : PHeap;
  cfg_retired : list Instance_;
  cfg_nsrv : nat; (* the number of labrpc.Server objects made so far *)
}.

Implicit Types cfg : config.

Ltac cfg_set cfg x v :=
  field_update constr:(mkConfig (cfg_finished cfg) (cfg_net cfg) (cfg_n cfg) (cfg_rafts cfg) (cfg_connected cfg)
    (cfg_saved cfg) (cfg_endnames cfg) (cfg_logs cfg) (cfg_lastApplied cfg) (cfg_maxIndex cfg) (cfg_heap cfg)
    (cfg_retired cfg) (cfg_nsrv cfg)) x v.

Definition set_finished v cfg : config := ltac:(cfg_set cfg (cfg_finished cfg) v).
Definition set_net v cfg : config := ltac:(cfg_set cfg (cfg_net cfg) v).
Definition set_rafts v cfg : config := ltac:(cfg_set cfg (cfg_rafts cfg) v).
Definition set_connected v cfg : config := ltac:(cfg_set cfg (cfg_connected cfg) v).
Definition set_saved v cfg : config := ltac:(cfg_set cfg (cfg_saved cfg) v).
Definition set_endnames v cfg : config := ltac:(cfg_set cfg (cfg_endnames cfg) v).
Definition set_logs v cfg : config := ltac:(cfg_set cfg (cfg_logs cfg) v).
Definition set_lastApplied v cfg : config := ltac:(cfg_set cfg (cfg_lastApplied cfg) v).
Definition set_maxIndex v cfg : config := ltac:(cfg_set cfg (cfg_maxIndex cfg) v).
Definition set_heap v cfg : config := ltac:(cfg_set cfg (cfg_heap cfg) v).
Definition set_retired v cfg : config := ltac:(cfg_set cfg (cfg_retired cfg) v).
Definition set_nsrv v cfg : config := ltac:(cfg_set cfg (cfg_nsrv cfg) v).

(** ** The network between the servers *)

Definition server (i : nat) : NetName := NInt (Z.of_nat i).

(** attach server i to the net. *)
Definition connect cfg (i : nat) : Res config :=
  connected ← put_ (cfg_connected cfg) i true;
  let enable_if (f : nat → Res NetName) net j :=
    c ← at_ connected j;
    if c : bool then e ← f j; Ok (Enable net e true) else Ok net in
  net ← foldM (enable_if (λ j, endname (cfg_endnames cfg) i j)) (cfg_net cfg) (seq 0 (cfg_n cfg));
  net ← foldM (enable_if (λ j, endname (cfg_endnames cfg) j i)) net (seq 0 (cfg_n cfg));
  Ok (set_net net (set_connected connected cfg)).

(** detach server i from the net. *)
Definition disconnect cfg (i : nat) : Res config :=
  connected ← put_ (cfg_connected cfg) i false;
  let disable_if (row : nat → nat) (f : nat → Res NetName) net j :=
    names ← at_ (cfg_endnames cfg) (row j);
    match names with
    | Some _ => e ← f j; Ok (Enable net e false)
    | None => Ok net
    end in
  net ← foldM (disable_if (λ _, i) (λ j, endname (cfg_endnames cfg) i j)) (cfg_net cfg) (seq 0 (cfg_n cfg));
  net ← foldM (disable_if (λ j, j) (λ j, endname (cfg_endnames cfg) j i)) net (seq 0 (cfg_n cfg));
  Ok (set_net net (set_connected connected cfg)).

(** ** Persisters *)

Definition deref cfg (a : nat) : Res Persister := at_ (cfg_heap cfg) a.

(** [cfg.saved[i] = p], with a new object [p]. *)
Definition save cfg (i : nat) (p : Persister) : Res config :=
  let '(a, heap) := new_ (cfg_heap cfg) p in
  saved ← put_ (cfg_saved cfg) i (Some a);
  Ok (set_saved saved (set_heap heap cfg)).

(** ** Starting and stopping *)

(** shut down a Raft server but save its persistent state. *)
Definition crash1 cfg (i : nat) : Res config :=
  cfg ← disconnect cfg i;
  let cfg := set_net (DeleteServer (cfg_net cfg) (server i)) cfg in
  sv ← at_ (cfg_saved cfg) i;
  cfg ← match sv with
        | Some a => p ← deref cfg a; save cfg i (Persister.Copy p)
        | None => Ok cfg
        end;
  rf ← at_ (cfg_rafts cfg) i;
  cfg ← match rf with
        | Some inst =>
            rafts ← put_ (cfg_rafts cfg) i None;
            Ok (set_retired (mkInstance (Kill (in_raft inst)) (in_ps inst) :: cfg_retired cfg) (set_rafts rafts cfg))
        | None => Ok cfg
        end;
  sv ← at_ (cfg_saved cfg) i;
  match sv with
  | Some a =>
      p ← deref cfg a;
      let raftlog := Persister.ReadRaftState p in
      let snapshot := Persister.ReadSnapshot p in
      save cfg i (Persister.Save (Persister.mk [] []) raftlog snapshot)
  | None => Ok cfg
  end.

(** [None]: the error that the snapshot does not match the index. *)
Definition ingestSnap cfg (i : nat) (snapshot : bytes) (index : Z) : Res (option config) :=
  match gob_decode snapshot with
  | None => Panic
  | Some (lastIncludedIndex, xlog) =>
      if bool_decide (index ≠ (-1)%Z ∧ index ≠ lastIncludedIndex) then Ok None else
      let log := foldl (λ (m : gmap Z (option C)) '(j, v), <[Z.of_nat j := v]> m) ∅ (imap pair xlog) in
      logs ← put_ (cfg_logs cfg) i log;
      lastApplied ← put_ (cfg_lastApplied cfg) i lastIncludedIndex;
      Ok (Some (set_lastApplied lastApplied (set_logs logs cfg)))
  end.

(** The part of [start1] that gives the server a persister of its own. *)
Definition loadSaved cfg (i : nat) : Res config :=
  sv ← at_ (cfg_saved cfg) i;
  match sv with
  | Some a =>
      p ← deref cfg a;
      cfg ← save cfg i (Persister.Copy p);
      let snapshot := Persister.ReadSnapshot p in
      if bool_decide (snapshot ≠ []) then
        r ← ingestSnap cfg i snapshot (-1);
        match r with Some cfg => Ok cfg | None => Panic end
      else Ok cfg
  | None => save cfg i Persister.MakePersister
  end.

(** The part that makes the instance and adds it to the network. *)
Definition launch cfg (i : nat) (now : Z) : Res config :=
  sv ← at_ (cfg_saved cfg) i;
  match sv with
  | None => Panic
  | Some a =>
      p ← deref cfg a;
      rf ← Make (cfg_n cfg) (Z.of_nat i) p now;
      rafts ← put_ (cfg_rafts cfg) i (Some (mkInstance rf a));
      Ok (set_nsrv (S (cfg_nsrv cfg)) (set_net (AddServer (cfg_net cfg) (server i) (cfg_nsrv cfg)) (set_rafts rafts cfg)))
  end.

(** start or re-start a Raft; [names] are the new end names. *)
Definition start1 cfg (i : nat) (names : list NetName) (now : Z) : Res config :=
  cfg ← crash1 cfg i;
  endnames ← put_ (cfg_endnames cfg) i (Some names);
  let cfg := set_endnames endnames cfg in
  net ← makeEnds (cfg_net cfg) (zip names (server <$> seq 0 (cfg_n cfg)));
  lastApplied ← put_ (cfg_lastApplied cfg) i 0%Z;
  let cfg := set_lastApplied lastApplied (set_net net cfg) in
  cfg ← loadSaved cfg i;
  launch cfg i now.

(** ** The checks *)

(** [cfg.checkLogs]: a different command at the index panics; whether the
    server has the index before. *)
Definition checkLogs cfg (i : nat) (m : ApplyMsg C) : Res (config * bool) :=
  let v := msgCommand m in
  _ ← foldM (λ _ log, match log !! CommandIndex m with
                      | Some old => if bool_decide (old ≠ v) then Panic else Ok tt
                      | None => Ok tt
                      end) tt (cfg_logs cfg);
  log ← at_ (cfg_logs cfg) i;
  let prevok := bool_decide (is_Some (log !! (CommandIndex m - 1)%Z)) in
  logs ← put_ (cfg_logs cfg) i (<[CommandIndex m := v]> log);
  let cfg := set_logs logs cfg in
  Ok (if bool_decide (CommandIndex m > cfg_maxIndex cfg)%Z then set_maxIndex (CommandIndex m) cfg else cfg, prevok).

(** What the applier does with one message. *)
Definition applier_msg cfg (i : nat) (m : ApplyMsg C) : Res config :=
  if negb (CommandValid m) then Ok cfg
  else
    '(cfg, prevok) ← checkLogs cfg i m;
    if bool_decide (CommandIndex m > 1)%Z && negb prevok then Panic else Ok cfg.

Definition SnapShotInterval : Z := 10.

(** What the applier with snapshots does; it returns the arguments with which
    [rf.Snapshot] is to be called.  After a command with an error the source
    goes on to its snapshot before it exits; nobody is there to see it. *)
Definition applierSnap_msg cfg (i : nat) (m : ApplyMsg C) : Res (config * option (Z * bytes)) :=
  if SnapshotValid m then
    r ← ingestSnap cfg i (msgSnapshot m) (SnapshotIndex m);
    match r with Some cfg => Ok (cfg, None) | None => Panic end
  else if CommandValid m then
    la ← at_ (cfg_lastApplied cfg) i;
    if bool_decide (CommandIndex m ≠ la + 1)%Z then Panic else
    '(cfg, prevok) ← checkLogs cfg i m;
    if bool_decide (CommandIndex m > 1)%Z && negb prevok then Panic else
    lastApplied ← put_ (cfg_lastApplied cfg) i (CommandIndex m);
    let cfg := set_lastApplied lastApplied cfg in
    if bool_decide ((CommandIndex m + 1) mod SnapShotInterval = 0)%Z then
      log ← at_ (cfg_logs cfg) i;
      let xlog := (λ j, default None (log !! Z.of_nat j)) <$> seq 0 (Z.to_nat (CommandIndex m + 1)) in
      Ok (cfg, Some (CommandIndex m, gob_encode (CommandIndex m, xlog)))
    else Ok (cfg, None)
  else Ok (cfg, None).

(** [cfg.rafts[i].GetState()] of a connected server; nil is a panic. *)
Definition peerState cfg (i : nat) : Res (Z * bool) :=
  rf ← at_ (cfg_rafts cfg) i;
  match rf with Some inst => Ok (GetState (in_raft inst)) | None => Panic end.

(** The connected leaders, by term. *)
Definition leadersByTerm cfg : Res (gmap Z (list nat)) :=
  foldM (λ leaders i,
    c ← at_ (cfg_connected cfg) i;
    if c : bool then
      '(term, leader) ← peerState cfg i;
      if leader : bool then Ok (<[term := default [] (leaders !! term) ++ [i]]> leaders) else Ok leaders
    else Ok leaders) ∅ (seq 0 (cfg_n cfg)).

(** One iteration of [checkOneLeader]; [None]: nobody is leader. *)
Definition checkOneLeader_iter cfg : Res (option nat) :=
  leaders ← leadersByTerm cfg;
  lastTermWithLeader ← foldM (λ last '(term, ids),
    if bool_decide (1 < length ids) then Panic
    else Ok (if bool_decide (term > last)%Z then term else last)) (-1)%Z (map_to_list leaders);
  if bool_decide (leaders ≠ ∅) then
    ids ← (match leaders !! lastTermWithLeader with Some ids => Ok ids | None => Panic end);
    i ← at_ ids 0; Ok (Some i)
  else Ok None.

(** The ten iterations look at the tester at ten moments. *)
Fixpoint checkOneLeader (moments : list config) : Res nat :=
  match moments with
  | [] => Panic (* expected one leader, got none *)
  | cfg :: moments =>
      r ← checkOneLeader_iter cfg;
      match r with Some i => Ok i | None => checkOneLeader moments end
  end.

(** check that everyone agrees on the term. *)
Definition checkTerms cfg : Res Z :=
  foldM (λ term i,
    c ← at_ (cfg_connected cfg) i;
    if c : bool then
      '(xterm, _) ← peerState cfg i;
      if bool_decide (term = -1)%Z then Ok xterm
      else if bool_decide (term ≠ xterm) then Panic else Ok term
    else Ok term) (-1)%Z (seq 0 (cfg_n cfg)).

Definition checkNoLeader cfg : Res unit :=
  foldM (λ _ i,
    c ← at_ (cfg_connected cfg) i;
    if c : bool then
      '(_, is_leader) ← peerState cfg i;
      if is_leader : bool then Panic else Ok tt
    else Ok tt) tt (seq 0 (cfg_n cfg)).

(** how many servers think a log entry is committed? *)
Definition nCommitted cfg (index : Z) : Res (Z * option C) :=
  foldM (λ '(count, cmd) i,
    log ← at_ (cfg_logs cfg) i;
    match log !! index with
    | Some cmd1 =>
        if bool_decide (count > 0)%Z && bool_decide (cmd ≠ cmd1) then Panic
        else Ok ((count + 1)%Z, cmd1)
    | None => Ok (count, cmd)
    end) (0%Z, None) (seq 0 (length (cfg_rafts cfg))).

(** *** Waiting for agreement *)

Definition someoneMovedOn cfg (startTerm : Z) : Res bool :=
  foldM (λ moved rf,
    if moved : bool then Ok true else
    match rf with
    | Some inst => Ok (bool_decide ((GetState (in_raft inst)).1 > startTerm)%Z)
    | None => Panic
    end) false (cfg_rafts cfg).

Inductive WaitResult : Type := MovedOn | Decided (cmd : option C).

(** The iterations of [wait]: each looks at the logs, sleeps, and looks at the
    terms.  Whether someone has moved on. *)
Fixpoint wait_loop (moments : list (config * config)) (index n startTerm : Z) : Res bool :=
  match moments with
  | [] => Ok false
  | (cfg, cfg1) :: moments =>
      '(nd, _) ← nCommitted cfg index;
      if bool_decide (nd >= n)%Z then Ok false else
      if bool_decide (startTerm > -1)%Z then
        moved ← someoneMovedOn cfg1 startTerm;
        if moved : bool then Ok true else wait_loop moments index n startTerm
      else wait_loop moments index n startTerm
  end.

(** wait for at least n servers to commit, but don't wait forever; [moments]
    has thirty pairs. *)
Definition wait (moments : list (config * config)) (last : config) (index n startTerm : Z) : Res WaitResult :=
  moved ← wait_loop moments index n startTerm;
  if moved : bool then Ok MovedOn else
  '(nd, cmd) ← nCommitted last index;
  if bool_decide (nd < n)%Z then Panic else Ok (Decided cmd).

(** *** One agreement *)

(** [one] tries all the servers, beginning after [starts]: where it stopped, the
    index that a leader gave, or -1. *)
Definition one_start cfg (starts : nat) (cmd : C) : Res (config * nat * Z) :=
  foldM (λ '(cfg, starts, index) _,
    if bool_decide (index ≠ (-1)%Z) then Ok (cfg, starts, index) else
    let starts := (starts + 1) mod cfg_n cfg in
    c ← at_ (cfg_connected cfg) starts;
    rf ← at_ (cfg_rafts cfg) starts;
    match (if c : bool then rf else None) with
    | Some inst =>
        let '(rf', (index1, _, ok)) := Start (in_raft inst) cmd in
        rafts ← put_ (cfg_rafts cfg) starts (Some (mkInstance rf' (in_ps inst)));
        heap ← put_ (cfg_heap cfg) (in_ps inst) (persister rf');
        Ok (set_heap heap (set_rafts rafts cfg), starts, if ok : bool then index1 else (-1)%Z)
    | None => Ok (cfg, starts, index)
    end) (cfg, starts, (-1)%Z) (seq 0 (cfg_n cfg)).

(** Whether [one] is satisfied with what was committed at the index. *)
Definition one_poll cfg (index : Z) (cmd : C) (expectedServers : Z) : Res bool :=
  '(nd, cmd1) ← nCommitted cfg index;
  Ok (bool_decide (nd > 0)%Z && bool_decide (nd >= expectedServers)%Z && bool_decide (cmd1 = Some cmd)).

(** The looks of two seconds. *)
Fixpoint one_polls (polls : list config) (index : Z) (cmd : C) (expectedServers : Z) : Res bool :=
  match polls with
  | [] => Ok false
  | cfg :: polls =>
      agreed ← one_poll cfg index cmd expectedServers;
      if agreed : bool then Ok true else one_polls polls index cmd expectedServers
  end.

(** do a complete agreement.  [rounds] are the iterations of ten seconds: the
    tester as [one_start] finds it, and as the looks after it do; [last] is the
    tester when the time is over.  -1: the test has finished. *)
Fixpoint one (rounds : list (config * list config)) (last : config) (starts : nat) (cmd : C) (expectedServers : Z)
    (retry : bool) : Res Z :=
  match rounds with
  | [] => if cfg_finished last then Ok (-1)%Z else Panic
  | (cfg, polls) :: rounds =>
      if cfg_finished cfg then Ok (-1)%Z else
      '(_, starts, index) ← one_start cfg starts cmd;
      if bool_decide (index ≠ (-1)%Z) then
        agreed ← one_polls polls index cmd expectedServers;
        if agreed : bool then Ok index
        else if negb retry then Panic else one rounds last starts cmd expectedServers retry
      else one rounds last starts cmd expectedServers retry
  end.

(** ** The rest *)

(** Maximum log size across all servers *)
Definition LogSize cfg : Res Z :=
  foldM (λ logsize i,
    sv ← at_ (cfg_saved cfg) i;
    match sv with
    | Some a => p ← deref cfg a;
        Ok (if bool_decide (Persister.RaftStateSize p > logsize)%Z then Persister.RaftStateSize p else logsize)
    | None => Panic
    end) 0%Z (seq 0 (cfg_n cfg)).

Definition setunreliable cfg (unrel : bool) : config := set_net (Reliable (cfg_net cfg) (negb unrel)) cfg.
Definition setlongreordering cfg (longrel : bool) : config := set_net (LongReordering (cfg_net cfg) longrel) cfg.
Definition rpcTotal cfg : Z := GetTotalCount (cfg_net cfg).
Definition bytesTotal cfg : Z := GetTotalBytes (cfg_net cfg).

Definition cleanup cfg : Res config :=
  let cfg := set_finished true cfg in
  let rafts := (λ rf, match rf with
                      | Some inst => Some (mkInstance (Kill (in_raft inst)) (in_ps inst))
                      | None => None
                      end) <$> cfg_rafts cfg in
  net ← Cleanup (cfg_net cfg);
  Ok (set_net net (set_rafts rafts cfg)).

(** The tester before its servers are started. *)
Definition emptyConfig (n : nat) (unreliable : bool) : config :=
  let cfg := mkConfig false MakeNetwork n (replicate n None) (replicate n false)
    (replicate n None) (replicate n None) (replicate n ∅) (replicate n 0%Z) 0 [] [] 0 in
  let cfg := setunreliable cfg unreliable in
  set_net (LongDelays (cfg_net cfg) true) cfg.

(** [names i] are the first end names of server [i]. *)
Definition make_config (n : nat) (unreliable : bool) (names : nat → list NetName) (now : Z) : Res config :=
  cfg ← foldM (λ cfg i, start1 cfg i (names i) now) (emptyConfig n unreliable) (seq 0 n);
  foldM (λ cfg i, connect cfg i) cfg (seq 0 n).

(** ** The network of a tester *)

(** The persister that [saved[i]] points to. *)
Definition content cfg (i : nat) : option Persister := a ← cfg_saved cfg !! i; p ← a; cfg_heap cfg !! p.

(** The invariant of a tester; while a server is stopped or started, what
    holds of its instance is suspended ([x]). *)
Record cfg_wf_but (x : nat → Prop) cfg : Prop := {
  cw_rafts : length (cfg_rafts cfg) = cfg_n cfg;
  cw_connected : length (cfg_connected cfg) = cfg_n cfg;
  cw_saved : length (cfg_saved cfg) = cfg_n cfg;
  cw_logs : length (cfg_logs cfg) = cfg_n cfg;
  cw_lastApplied : length (cfg_lastApplied cfg) = cfg_n cfg;
  cw_wired : wired (cfg_n cfg) server (cfg_net cfg) (cfg_endnames cfg);
  cw_started : ∀ i, cfg_connected cfg !! i = Some true → cfg_endnames cfg !! i ≠ Some None;
  (** exactly the ends between connected servers are enabled *)
  cw_links : ∀ e, enabled (cfg_net cfg) !! e = Some true ↔
    ∃ i j, slot (cfg_endnames cfg) i j e ∧ cfg_connected cfg !! i = Some true ∧ cfg_connected cfg !! j = Some true;
  (** exactly the running servers are known *)
  cw_servers : ∀ i, ¬ x i → (∃ s, servers (cfg_net cfg) !! server i = Some (Some s)) ↔ ∃ inst, cfg_rafts cfg !! i = Some (Some inst);
  (** an instance owns its persister *)
  cw_own : ∀ i inst, ¬ x i → cfg_rafts cfg !! i = Some (Some inst) →
    cfg_saved cfg !! i = Some (Some (in_ps inst)) ∧ cfg_heap cfg !! in_ps inst = Some (persister (in_raft inst));
  cw_alloc : ∀ i a, cfg_saved cfg !! i = Some (Some a) → a < length (cfg_heap cfg);
  cw_distinct : ∀ i j a, cfg_saved cfg !! i = Some (Some a) → cfg_saved cfg !! j = Some (Some a) → i = j;
  cw_retired : ∀ inst, inst ∈ cfg_retired cfg →
    in_ps inst < length (cfg_heap cfg) ∧ ∀ i, cfg_saved cfg !! i ≠ Some (Some (in_ps inst));
}.

Abbreviation cfg_wf := (cfg_wf_but (λ _, False)).

(** The end of server [i] to [j], if [p] says so. *)
Definition sel (en : EndNames) (p : bool) (i j : nat) : option NetName :=
  if p then match endname en i j with Ok e => Some e | Panic => None end else None.

Lemma elem_of_sel {A} (en : EndNames) (p : A → bool) (r c : A → nat) (l : list A) e :
  e ∈ omap (λ j, sel en (p j) (r j) (c j)) l ↔ ∃ j, j ∈ l ∧ p j = true ∧ slot en (r j) (c j) e.
Proof.
  rewrite list_elem_of_omap. unfold sel. split.
  - intros (j & Hj & Hs). exists j. destruct (p j); [|done]. destruct (endname en (r j) (c j)) as [e'|] eqn:E; [|done].
    simplify_eq. by apply endname_slot in E.
  - intros (j & Hj & Hp & Hs%endname_slot). exists j. by rewrite Hp, Hs.
Qed.

(** The loops of [connect] and [disconnect]. *)
Lemma loop_ends cfg net (body : Net → nat → Res Net) (p : nat → bool) (r c : nat → nat) yes :
  cfg_wf cfg → (∀ j, j < cfg_n cfg → r j < cfg_n cfg ∧ c j < cfg_n cfg) →
  (∀ j, j < cfg_n cfg → p j = true → cfg_endnames cfg !! r j ≠ Some None) →
  (∀ net j, j < cfg_n cfg → body net j =
     if p j then e ← endname (cfg_endnames cfg) (r j) (c j); Ok (Enable net e yes) else Ok net) →
  foldM body net (seq 0 (cfg_n cfg)) =
    Ok (enableAll net (omap (λ j, sel (cfg_endnames cfg) (p j) (r j) (c j)) (seq 0 (cfg_n cfg))) yes).
Proof.
  intros Hwf Hrc Hst Hbody. apply loop_enable. intros net' j [_ Hj]%elem_of_seq. rewrite Hbody by lia. unfold sel.
  destruct (p j) eqn:Hp; [|done]. destruct (Hrc j) as [? ?]; [lia|].
  destruct (slot_exists _ _ _ _ (r j) (c j) (cw_wired _ _ Hwf)) as [e He%endname_slot]; [done|done|by apply Hst; [lia|]|].
  by rewrite He.
Qed.

Lemma connect_eq cfg i :
  cfg_wf cfg → i < cfg_n cfg → cfg_endnames cfg !! i ≠ Some None →
  let conn := <[i := true]> (cfg_connected cfg) in
  let p j := bool_decide (conn !! j = Some true) in
  connect cfg i = Ok (set_net (enableAll (enableAll (cfg_net cfg)
      (omap (λ j, sel (cfg_endnames cfg) (p j) i j) (seq 0 (cfg_n cfg))) true)
      (omap (λ j, sel (cfg_endnames cfg) (p j) j i) (seq 0 (cfg_n cfg))) true)
    (set_connected conn cfg)).
Proof.
  intros Hwf Hi Hst conn p. unfold connect. rewrite put_Ok by (by rewrite (cw_connected _ _ Hwf)). res_simpl. fold conn.
  assert (Hlen : length conn = cfg_n cfg) by (unfold conn; by rewrite length_insert, (cw_connected _ _ Hwf)).
  assert (Hat : ∀ j, j < cfg_n cfg → at_ conn j = Ok (p j)).
  { intros j Hj. destruct (lookup_lt_is_Some_2 conn j) as [b Hb]; [lia|]. rewrite (at_Some _ _ _ Hb). f_equal.
    unfold p. destruct b; [by rewrite bool_decide_true|rewrite bool_decide_false; [done|congruence]]. }
  assert (Hstj : ∀ j, j < cfg_n cfg → p j = true → cfg_endnames cfg !! j ≠ Some None).
  { intros j Hj Hp. apply bool_decide_eq_true_1 in Hp. unfold conn in Hp.
    apply list_lookup_insert_Some in Hp as [(-> & _)|[_ Hp]]; [done|]. by apply (cw_started _ _ Hwf). }
  rewrite (loop_ends cfg (cfg_net cfg) _ p (λ _, i) (λ j, j) true); [|done|done|by intros|].
  2:{ intros net j Hj. rewrite Hat by done. res_simpl. by destruct (p j). }
  res_simpl. rewrite (loop_ends cfg _ _ p (λ j, j) (λ _, i) true); [done|done|done|done|].
  intros net j Hj. rewrite Hat by done. res_simpl. by destruct (p j).
Qed.

Lemma disconnect_eq cfg i :
  cfg_wf cfg → i < cfg_n cfg →
  let p j := bool_decide (cfg_endnames cfg !! j ≠ Some None) in
  disconnect cfg i = Ok (set_net (enableAll (enableAll (cfg_net cfg)
      (omap (λ j, sel (cfg_endnames cfg) (p i) i j) (seq 0 (cfg_n cfg))) false)
      (omap (λ j, sel (cfg_endnames cfg) (p j) j i) (seq 0 (cfg_n cfg))) false)
    (set_connected (<[i := false]> (cfg_connected cfg)) cfg)).
Proof.
  intros Hwf Hi p. unfold disconnect. rewrite put_Ok by (by rewrite (cw_connected _ _ Hwf)). res_simpl.
  assert (Hp : ∀ j, p j = true → cfg_endnames cfg !! j ≠ Some None) by (intros j Hj; by apply bool_decide_eq_true_1 in Hj).
  assert (Hbody : ∀ (net : Net) r c, r < cfg_n cfg → (
      names ← at_ (cfg_endnames cfg) r;
      match names with Some _ => e ← endname (cfg_endnames cfg) r c; Ok (Enable net e false) | None => Ok net end) =
      if p r then e ← endname (cfg_endnames cfg) r c; Ok (Enable net e false) else Ok net).
  { intros net r c Hr. destruct (lookup_lt_is_Some_2 (cfg_endnames cfg) r) as [names Hn].
    { by rewrite (w_len _ _ _ _ (cw_wired _ _ Hwf)). }
    rewrite (at_Some _ _ _ Hn). res_simpl. unfold p. rewrite Hn. by destruct names. }
  rewrite (loop_ends cfg (cfg_net cfg) _ (λ _, p i) (λ _, i) (λ j, j) false); [|done|done|by intros; apply Hp|by intros; apply Hbody].
  res_simpl. rewrite (loop_ends cfg _ _ p (λ j, j) (λ _, i) false); [done|done|done|by intros; apply Hp|by intros; apply Hbody].
Qed.

(** A step that only touches [enabled] and [connected]. *)
Lemma wf_rewire cfg net conn :
  cfg_wf cfg → length conn = cfg_n cfg →
  ends net = ends (cfg_net cfg) → servers net = servers (cfg_net cfg) → connections net = connections (cfg_net cfg) →
  (∀ i, conn !! i = Some true → cfg_endnames cfg !! i ≠ Some None) →
  (∀ e, enabled net !! e = Some true ↔
     ∃ i j, slot (cfg_endnames cfg) i j e ∧ conn !! i = Some true ∧ conn !! j = Some true) →
  cfg_wf (set_net net (set_connected conn cfg)).
Proof.
  intros [] Hlen He Hs Hc Hst Hl. split; simpl; try done.
  - by apply (wired_ext _ _ (cfg_net cfg)).
  - by rewrite Hs.
Qed.

Lemma connect_wf cfg i :
  cfg_wf cfg → i < cfg_n cfg → cfg_endnames cfg !! i ≠ Some None → ∃ cfg', connect cfg i = Ok cfg' ∧ cfg_wf cfg'.
Proof.
  intros Hwf Hi Hst. eexists. split; [by apply connect_eq|]. set (conn := <[i := true]> (cfg_connected cfg)).
  assert (Hci : conn !! i = Some true) by (apply list_lookup_insert_eq; by rewrite (cw_connected _ _ Hwf)).
  assert (Hcj : ∀ j, conn !! j = Some true ↔ j = i ∨ cfg_connected cfg !! j = Some true).
  { intros j. destruct (decide (j = i)) as [->|Hne]; [naive_solver|]. unfold conn. rewrite list_lookup_insert_ne by done. naive_solver. }
  apply wf_rewire; rewrite ?(proj1 (enableAll_rest _ _ _)), ?(proj1 (proj2 (enableAll_rest _ _ _))), ?(proj2 (proj2 (enableAll_rest _ _ _)));
    try done.
  - unfold conn. by rewrite length_insert, (cw_connected _ _ Hwf).
  - intros j [->|Hj]%Hcj; [done|by apply (cw_started _ _ Hwf)].
  - intros e. rewrite !enableAll_enabled.
    assert (Hb : ∀ j, j < cfg_n cfg → bool_decide (conn !! j = Some true) = true ↔ conn !! j = Some true)
      by (intros; apply bool_decide_eq_true).
    split.
    + case_decide as H1; [|case_decide as H2].
      * intros _. apply (elem_of_sel _ _ (λ j, j) (λ _, i)) in H1 as (j & _ & Hj%bool_decide_eq_true & Hs). by exists j, i.
      * intros _. apply (elem_of_sel _ _ (λ _, i) (λ j, j)) in H2 as (j & _ & Hj%bool_decide_eq_true & Hs). by exists i, j.
      * intros (a & b & Hs & Ha & Hb')%(cw_links _ _ Hwf). exists a, b. split; [done|]. rewrite !Hcj. auto.
    + intros (a & b & Hs & Ha & Hb'). destruct (slot_bounds _ _ _ _ _ _ _ (cw_wired _ _ Hwf) Hs) as [Hla Hlb].
      case_decide as H1; [done|]. case_decide as H2; [done|].
      apply (cw_links _ _ Hwf). exists a, b. split; [done|]. split.
      * apply Hcj in Ha as [->|?]; [|done]. exfalso. apply H2, (elem_of_sel _ _ (λ _, i) (λ j, j)).
        exists b. rewrite elem_of_seq, bool_decide_eq_true. split; [lia|done].
      * apply Hcj in Hb' as [->|?]; [|done]. exfalso. apply H1, (elem_of_sel _ _ (λ j, j) (λ _, i)).
        exists a. rewrite elem_of_seq, bool_decide_eq_true. split; [lia|done].
Qed.

Lemma disconnect_wf cfg i :
  cfg_wf cfg → i < cfg_n cfg →
  ∃ net, disconnect cfg i = Ok (set_net net (set_connected (<[i := false]> (cfg_connected cfg)) cfg)) ∧
    servers net = servers (cfg_net cfg) ∧ ends net = ends (cfg_net cfg) ∧
    cfg_wf (set_net net (set_connected (<[i := false]> (cfg_connected cfg)) cfg)).
Proof.
  intros Hwf Hi. eexists. split; [by apply disconnect_eq|].
  set (conn := <[i := false]> (cfg_connected cfg)).
  split; [by rewrite !(proj1 (proj2 (enableAll_rest _ _ _)))|].
  split; [by rewrite !(proj1 (enableAll_rest _ _ _))|].
  assert (Hcj : ∀ j, conn !! j = Some true ↔ j ≠ i ∧ cfg_connected cfg !! j = Some true).
  { intros j. unfold conn. destruct (decide (j = i)) as [->|Hne].
    - rewrite list_lookup_insert_eq by (by rewrite (cw_connected _ _ Hwf)). naive_solver.
    - rewrite list_lookup_insert_ne by done. naive_solver. }
  apply wf_rewire; rewrite ?(proj1 (enableAll_rest _ _ _)), ?(proj1 (proj2 (enableAll_rest _ _ _))), ?(proj2 (proj2 (enableAll_rest _ _ _)));
    try done.
  - unfold conn. by rewrite length_insert, (cw_connected _ _ Hwf).
  - intros j [_ Hj]%Hcj. by apply (cw_started _ _ Hwf).
  - intros e. rewrite !enableAll_enabled. split.
    + case_decide as H1; [done|]. case_decide as H2; [done|]. intros (a & b & Hs & Ha & Hb)%(cw_links _ _ Hwf).
      destruct (slot_bounds _ _ _ _ _ _ _ (cw_wired _ _ Hwf) Hs) as [Hla Hlb].
      exists a, b. rewrite !Hcj. split_and!; try done.
      * intros ->. apply H2, (elem_of_sel _ (λ _, _) (λ _, i) (λ j, j)). exists b.
        rewrite elem_of_seq, bool_decide_eq_true. split_and!; [lia..|by apply (cw_started _ _ Hwf)|done].
      * intros ->. apply H1, (elem_of_sel _ _ (λ j, j) (λ _, i)). exists a.
        rewrite elem_of_seq, bool_decide_eq_true. split_and!; [lia..|by apply (cw_started _ _ Hwf)|done].
    + intros (a & b & Hs & [Hna Ha]%Hcj & [Hnb Hb]%Hcj). rewrite !decide_False.
      * apply (cw_links _ _ Hwf). by exists a, b.
      * intros (j & _ & _ & Hs')%(elem_of_sel _ (λ _, _) (λ _, i) (λ j, j)). by destruct (w_inj _ _ _ _ (cw_wired _ _ Hwf) _ _ _ _ _ Hs Hs').
      * intros (j & _ & _ & Hs')%(elem_of_sel _ _ (λ j, j) (λ _, i)). by destruct (w_inj _ _ _ _ (cw_wired _ _ Hwf) _ _ _ _ _ Hs Hs').
Qed.

(** *** Objects *)

Lemma Copy_eq p : Persister.Copy p = p.
Proof. by destruct p. Qed.

Lemma Save_eq p : Persister.Save (Persister.mk [] []) (Persister.ReadRaftState p) (Persister.ReadSnapshot p) = p.
Proof. by destruct p. Qed.

(** A new object for a server whose instance is not looked at. *)
Lemma save_wf x cfg i p :
  cfg_wf_but x cfg → x i → i < cfg_n cfg →
  let cfg' := set_saved (<[i := Some (length (cfg_heap cfg))]> (cfg_saved cfg)) (set_heap (cfg_heap cfg ++ [p]) cfg) in
  save cfg i p = Ok cfg' ∧ cfg_wf_but x cfg' ∧ content cfg' i = Some p ∧ ∀ j, j ≠ i → content cfg' j = content cfg j.
Proof.
  intros Hwf Hx Hi cfg'. unfold save. cbn [new_]. rewrite put_Ok by (simpl; by rewrite (cw_saved _ _ Hwf)). split; [done|].
  assert (Hsv : cfg_saved cfg' !! i = Some (Some (length (cfg_heap cfg)))).
  { simpl. apply list_lookup_insert_eq. by rewrite (cw_saved _ _ Hwf). }
  assert (Hne : ∀ j, j ≠ i → cfg_saved cfg' !! j = cfg_saved cfg !! j) by (intros; simpl; by rewrite list_lookup_insert_ne).
  split_and!.
  - destruct Hwf. split; try done; simpl.
    + by rewrite length_insert.
    + intros j inst Hj Hr. destruct (cw_own0 j inst Hj Hr) as [Hs Hh]. assert (j ≠ i) by (by intros ->).
      rewrite list_lookup_insert_ne by done. split; [done|]. rewrite lookup_app_l; [done|]. by apply (cw_alloc0 j).
    + intros j a. rewrite length_app. intros [(-> & [= <-] & _)|[_ Hj]]%list_lookup_insert_Some; [simpl; lia|].
      apply cw_alloc0 in Hj. lia.
    + intros j k a [(-> & [= <-] & _)|[? Hj]]%list_lookup_insert_Some [(-> & Hk & _)|[? Hk]]%list_lookup_insert_Some; try done.
      * apply cw_alloc0 in Hk. lia.
      * simplify_eq. apply cw_alloc0 in Hj. lia.
      * by eapply cw_distinct0.
    + intros inst Hin. destruct (cw_retired0 inst Hin) as [Hl Hno]. split; [rewrite length_app; lia|].
      intros j [(-> & [= ?] & _)|[_ Hj]]%list_lookup_insert_Some; [lia|by eapply Hno].
  - unfold content. rewrite Hsv. simpl. by rewrite lookup_app_r, Nat.sub_diag.
  - intros j Hj. unfold content. rewrite Hne by done. destruct (cfg_saved cfg !! j) as [[a|]|] eqn:Ej; [|done..]. simpl.
    apply (cw_alloc _ _ Hwf) in Ej. by rewrite lookup_app_l.
Qed.

Lemma server_inj i j : server i = server j → i = j.
Proof. unfold server. intros [= ?]. lia. Qed.

Lemma wf_suspend cfg i :
  cfg_wf cfg → cfg_wf_but (eq i) (set_net (DeleteServer (cfg_net cfg) (server i)) cfg).
Proof.
  intros []. split; try done; simpl; [by apply (wired_ext _ _ (cfg_net cfg))| |naive_solver].
  intros j Hj. rewrite lookup_insert_ne by (by intros ?%server_inj). auto.
Qed.

Lemma wf_resume cfg i :
  cfg_wf_but (eq i) cfg →
  ((∃ s, servers (cfg_net cfg) !! server i = Some (Some s)) ↔ ∃ inst, cfg_rafts cfg !! i = Some (Some inst)) →
  (∀ inst, cfg_rafts cfg !! i = Some (Some inst) →
    cfg_saved cfg !! i = Some (Some (in_ps inst)) ∧ cfg_heap cfg !! in_ps inst = Some (persister (in_raft inst))) →
  cfg_wf cfg.
Proof.
  intros [] Hs Ho. split; try done.
  - intros j _. destruct (decide (i = j)) as [<-|Hne]; [done|auto].
  - intros j inst _. destruct (decide (i = j)) as [<-|Hne]; [auto|auto].
Qed.

Lemma retire_wf cfg i inst :
  cfg_wf_but (eq i) cfg → in_ps inst < length (cfg_heap cfg) → (∀ j, cfg_saved cfg !! j ≠ Some (Some (in_ps inst))) →
  cfg_wf_but (eq i) (set_retired (inst :: cfg_retired cfg) (set_rafts (<[i := None]> (cfg_rafts cfg)) cfg)).
Proof.
  intros [] Hl Hno. split; try done; simpl.
  - by rewrite length_insert.
  - intros j Hj. rewrite list_lookup_insert_ne by done. auto.
  - intros j inst' Hj. rewrite list_lookup_insert_ne by done. auto.
  - intros inst' [->|?]%elem_of_cons; auto.
Qed.

(** The last step of [crash1], a second copy. *)
Lemma crash1_resave cfg i :
  cfg_wf_but (eq i) cfg → i < cfg_n cfg → cfg_rafts cfg !! i = Some None →
  servers (cfg_net cfg) !! server i = Some None →
  ∃ cfg', (sv ← at_ (cfg_saved cfg) i;
    match sv with
    | Some a => p ← deref cfg a; save cfg i (Persister.Save (Persister.mk [] []) (Persister.ReadRaftState p) (Persister.ReadSnapshot p))
    | None => Ok cfg
    end) = Ok cfg' ∧ cfg_wf cfg' ∧ (∃ saved heap, cfg' = set_saved saved (set_heap heap cfg)) ∧ ∀ j, content cfg' j = content cfg j.
Proof.
  intros Hwf Hi Hr Hs.
  assert (Hres : ∀ cfg', cfg_wf_but (eq i) cfg' → cfg_rafts cfg' = cfg_rafts cfg → cfg_net cfg' = cfg_net cfg → cfg_wf cfg').
  { intros cfg' Hwf' Er En. apply (wf_resume _ i Hwf'); rewrite ?Er, ?En, Hr, ?Hs; naive_solver. }
  destruct (lookup_lt_is_Some_2 (cfg_saved cfg) i) as [[a|] Ha]; [by rewrite (cw_saved _ _ Hwf)|..];
    rewrite (at_Some _ _ _ Ha); res_simpl.
  - pose proof (cw_alloc _ _ Hwf _ _ Ha) as Hla. destruct (lookup_lt_is_Some_2 _ _ Hla) as [p Hp].
    unfold deref. rewrite (at_Some _ _ _ Hp). res_simpl. rewrite Save_eq.
    destruct (save_wf (eq i) cfg i p Hwf eq_refl Hi) as (-> & Hwf' & Hc & Hc').
    eexists. split; [done|]. split; [by apply Hres|]. split; [by do 2 eexists|]. intros j. destruct (decide (j = i)) as [->|]; [|by apply Hc'].
    rewrite Hc. unfold content. by rewrite Ha.
  - exists cfg. split; [done|]. split; [by apply Hres|]. split; [|done]. exists (cfg_saved cfg), (cfg_heap cfg). by destruct cfg.
Qed.

Lemma crash1_spec cfg i :
  cfg_wf cfg → i < cfg_n cfg →
  ∃ cfg', crash1 cfg i = Ok cfg' ∧ cfg_wf cfg' ∧ cfg_n cfg' = cfg_n cfg ∧ cfg_endnames cfg' = cfg_endnames cfg ∧
    cfg_logs cfg' = cfg_logs cfg ∧ cfg_lastApplied cfg' = cfg_lastApplied cfg ∧
    cfg_rafts cfg' = <[i := None]> (cfg_rafts cfg) ∧ cfg_connected cfg' = <[i := false]> (cfg_connected cfg) ∧
    ends (cfg_net cfg') = ends (cfg_net cfg) ∧ ∀ j, content cfg' j = content cfg j.
Proof.
  intros Hwf Hi. unfold crash1. destruct (disconnect_wf cfg i Hwf Hi) as (net & -> & Hsv & Hends & Hwf1). res_simpl.
  set (cfg1 := set_net net _) in *. pose proof (wf_suspend cfg1 i Hwf1) as Hwf2.
  set (cfg2 := set_net (DeleteServer _ _) _) in *. change (cfg_saved cfg2) with (cfg_saved cfg).
  assert (Hs2 : servers (cfg_net cfg2) !! server i = Some None) by (simpl; by rewrite lookup_insert_eq).
  destruct (lookup_lt_is_Some_2 (cfg_saved cfg) i) as [sv Ha]; [by rewrite (cw_saved _ _ Hwf)|].
  rewrite (at_Some _ _ _ Ha). res_simpl.
  assert (H3 : ∃ saved heap, match sv with Some a => p ← deref cfg2 a; save cfg2 i (Persister.Copy p) | None => Ok cfg2 end
            = Ok (set_saved saved (set_heap heap cfg2)) ∧ cfg_wf_but (eq i) (set_saved saved (set_heap heap cfg2)) ∧
          (∀ j, content (set_saved saved (set_heap heap cfg2)) j = content cfg j) ∧
          ∀ inst, cfg_rafts cfg !! i = Some (Some inst) →
            in_ps inst < length heap ∧ ∀ j, saved !! j ≠ Some (Some (in_ps inst))).
  { destruct sv as [a|].
    - pose proof (cw_alloc _ _ Hwf _ _ Ha) as Hla. destruct (lookup_lt_is_Some_2 _ _ Hla) as [p Hp].
      unfold deref. change (cfg_heap cfg2) with (cfg_heap cfg). rewrite (at_Some _ _ _ Hp). res_simpl. rewrite Copy_eq.
      destruct (save_wf (eq i) cfg2 i p Hwf2 eq_refl Hi) as (-> & Hwf' & Hc & Hc').
      do 2 eexists. split; [done|]. split; [done|]. split.
      + intros j. destruct (decide (j = i)) as [->|]; [|by rewrite Hc']. rewrite Hc. unfold content. by rewrite Ha.
      + intros inst Hinst. destruct (cw_own _ _ Hwf i inst ltac:(tauto) Hinst) as [Hsi _]. simplify_eq. simpl.
        rewrite length_app. split; [lia|]. intros j [(-> & [= ?] & _)|[Hne Hj]]%list_lookup_insert_Some; [lia|].
        by apply Hne, (cw_distinct _ _ Hwf _ _ _ Ha).
    - exists (cfg_saved cfg), (cfg_heap cfg). split; [done|]. split; [done|]. split; [done|].
      intros inst Hinst. destruct (cw_own _ _ Hwf i inst ltac:(tauto) Hinst) as [Hsi _]. congruence. }
  destruct H3 as (saved & heap & -> & Hwf3 & Hc3 & Hold). res_simpl. set (cfg3 := set_saved _ _) in *.
  destruct (lookup_lt_is_Some_2 (cfg_rafts cfg) i) as [rf Hrf]; [by rewrite (cw_rafts _ _ Hwf)|].
  change (cfg_rafts cfg3) with (cfg_rafts cfg). rewrite (at_Some _ _ _ Hrf). res_simpl. destruct rf as [inst|].
  - rewrite put_Ok by (by rewrite (cw_rafts _ _ Hwf)). res_simpl. destruct (Hold inst Hrf) as [Hl Hno].
    pose proof (retire_wf cfg3 i (mkInstance (Kill (in_raft inst)) (in_ps inst)) Hwf3 Hl Hno) as Hwf4.
    destruct (crash1_resave _ i Hwf4 Hi) as (cfg' & Heq & Hwf' & (sv' & h' & ->) & Hc'); [|done|].
    { simpl. apply list_lookup_insert_eq. by rewrite (cw_rafts _ _ Hwf). }
    eexists. split; [exact Heq|]. split_and!; try done. intros j. rewrite Hc'. apply Hc3.
  - destruct (crash1_resave cfg3 i Hwf3 Hi) as (cfg' & Heq & Hwf' & (sv' & h' & ->) & Hc'); [done|done|].
    eexists. split; [exact Heq|]. split_and!; try done; [simpl; by rewrite list_insert_id|]. intros j. rewrite Hc'. apply Hc3.
Qed.

(** *** Starting *)

Lemma wf_weaken (x y : nat → Prop) cfg : (∀ i, x i → y i) → cfg_wf_but x cfg → cfg_wf_but y cfg.
Proof.
  intros Hxy []. split; try done.
  - intros i Hi. apply cw_servers0. auto.
  - intros i inst Hi. apply cw_own0. auto.
Qed.

Lemma wf_renew cfg i names :
  cfg_wf cfg → i < cfg_n cfg → cfg_connected cfg !! i = Some false → freshNames (cfg_n cfg) names (cfg_net cfg) →
  ∃ net, makeEnds (cfg_net cfg) (zip names (server <$> seq 0 (cfg_n cfg))) = Ok net ∧
    cfg_wf (set_net net (set_endnames (<[i := Some names]> (cfg_endnames cfg)) cfg)).
Proof.
  intros Hwf Hi Hci Hnew.
  destruct (wired_fresh _ server _ _ i names (cw_wired _ _ Hwf) Hi Hnew) as (net & Hm & Hw & Hs & He & Hen).
  exists net. split; [done|]. destruct Hwf. split; try done; simpl.
  - intros j Hj. destruct (decide (j = i)) as [->|Hne]; [congruence|]. rewrite list_lookup_insert_ne by done. auto.
  - intros e. rewrite Hen. split.
    + case_decide as Hin; [done|]. intros (a & b & Hsl & Ha & Hb)%cw_links0. exists a, b. split_and!; try done.
      apply slot_insert_ne; [congruence|done].
    + intros (a & b & Hsl & Ha & Hb). apply slot_insert in Hsl as [[-> _]|[Hne Hsl]]; [congruence|].
      rewrite decide_False; [apply cw_links0; by exists a, b|]. intros Hin. destruct Hnew as (_ & _ & Hnew).
      apply Hnew in Hin. by apply Hin, (w_ends _ _ _ _ cw_wired0 a b).
  - intros j _. rewrite Hs. exact (cw_servers0 j ltac:(tauto)).
Qed.

Lemma wf_logs x cfg logs la :
  cfg_wf_but x cfg → length logs = cfg_n cfg → length la = cfg_n cfg → cfg_wf_but x (set_lastApplied la (set_logs logs cfg)).
Proof. intros [] ? ?. by split. Qed.

Lemma ingestSnap_inv x cfg i snap index cfg' :
  cfg_wf_but x cfg → ingestSnap cfg i snap index = Ok (Some cfg') →
  cfg_wf_but x cfg' ∧ ∃ logs la, cfg' = set_lastApplied la (set_logs logs cfg).
Proof.
  intros Hwf H. unfold ingestSnap in H. destruct (gob_decode snap) as [[lii xlog]|]; [|done]. case_bool_decide; [done|].
  unfold put_ in H. destruct (bool_decide (i < length (cfg_logs cfg))); [|done]. res_simpl.
  destruct (bool_decide (i < length (cfg_lastApplied cfg))); [|done]. res_simpl. simplify_eq. split; [|by do 2 eexists].
  apply wf_logs; rewrite ?length_insert; [done|apply Hwf..].
Qed.

Lemma Make_persister n me_ ps now (rf : Raft C) : Make n me_ ps now = Ok rf → persister rf = ps.
Proof.
  unfold Make, readPersist. intros H. res_inv. simpl. repeat case_match; by simplify_eq/=.
Qed.

(** [cfg'] has the network and the instances of [cfg]. *)
Definition same_servers cfg cfg' : Prop :=
  cfg_n cfg' = cfg_n cfg ∧ cfg_net cfg' = cfg_net cfg ∧ cfg_rafts cfg' = cfg_rafts cfg ∧
  cfg_connected cfg' = cfg_connected cfg ∧ cfg_endnames cfg' = cfg_endnames cfg.

Lemma loadSaved_spec cfg i cfg' :
  cfg_wf_but (eq i) cfg → i < cfg_n cfg → loadSaved cfg i = Ok cfg' →
  cfg_wf_but (eq i) cfg' ∧ same_servers cfg cfg' ∧ (∃ a, cfg_saved cfg' !! i = Some (Some a)) ∧
  content cfg' i = Some (default Persister.MakePersister (content cfg i)) ∧ ∀ j, j ≠ i → content cfg' j = content cfg j.
Proof.
  intros Hwf Hi. unfold loadSaved.
  destruct (lookup_lt_is_Some_2 (cfg_saved cfg) i) as [[a|] Ha]; [by rewrite (cw_saved _ _ Hwf)|..];
    rewrite (at_Some _ _ _ Ha); res_simpl.
  - pose proof (cw_alloc _ _ Hwf _ _ Ha) as Hla. destruct (lookup_lt_is_Some_2 _ _ Hla) as [p Hp].
    unfold deref. rewrite (at_Some _ _ _ Hp). res_simpl. rewrite Copy_eq.
    assert (Hci : content cfg i = Some p) by (unfold content; by rewrite Ha). rewrite Hci. cbn [default from_option id].
    destruct (save_wf (eq i) cfg i p Hwf eq_refl Hi) as (-> & Hwf' & Hc & Hc'). res_simpl.
    assert (Hs : ∃ a0, <[i:=Some (length (cfg_heap cfg))]> (cfg_saved cfg) !! i = Some (Some a0)).
    { eexists. apply list_lookup_insert_eq. by rewrite (cw_saved _ _ Hwf). }
    case_bool_decide; [|intros [= <-]; by split_and!].
    destruct (ingestSnap _ _ _ _) as [[cfg2|]|] eqn:E; [|done..]. res_simpl. intros [= <-].
    apply (ingestSnap_inv _ _ _ _ _ _ Hwf') in E as (Hwf2 & logs & la & ->). split_and!; done.
  - assert (Hci : content cfg i = None) by (unfold content; by rewrite Ha). rewrite Hci. cbn [default from_option id].
    destruct (save_wf (eq i) cfg i Persister.MakePersister Hwf eq_refl Hi) as (-> & Hwf' & Hc & Hc'). intros [= <-].
    split_and!; try done. eexists. apply list_lookup_insert_eq. by rewrite (cw_saved _ _ Hwf).
Qed.

Lemma launch_spec cfg i now cfg' p :
  cfg_wf_but (eq i) cfg → i < cfg_n cfg → content cfg i = Some p → launch cfg i now = Ok cfg' →
  cfg_wf cfg' ∧ cfg_n cfg' = cfg_n cfg ∧ cfg_connected cfg' = cfg_connected cfg ∧ cfg_endnames cfg' = cfg_endnames cfg ∧
  (∀ j, content cfg' j = content cfg j) ∧
  ∃ inst, cfg_rafts cfg' = <[i := Some inst]> (cfg_rafts cfg) ∧ Make (cfg_n cfg) (Z.of_nat i) p now = Ok (in_raft inst).
Proof.
  intros Hwf Hi Hci. unfold launch. unfold content in Hci.
  destruct (cfg_saved cfg !! i) as [[a|]|] eqn:Ha; simpl in Hci; [|done..]. rewrite (at_Some _ _ _ Ha). res_simpl.
  unfold deref. rewrite (at_Some _ _ _ Hci). res_simpl. intros H. res_inv.
  unfold put_ in E0. case_bool_decide as Hb; [|done]. simplify_eq. split_and!; try done; [|by exists (mkInstance x a)].
  assert (Hri : <[i:=Some (mkInstance x a)]> (cfg_rafts cfg) !! i = Some (Some (mkInstance x a)))
    by (by apply list_lookup_insert_eq).
  destruct Hwf. apply (wf_resume _ i).
  - split; try done; simpl.
    + by rewrite length_insert.
    + by apply (wired_ext _ _ (cfg_net cfg)).
    + intros j Hj. rewrite lookup_insert_ne by (by intros ?%server_inj). rewrite list_lookup_insert_ne by done. auto.
    + intros j inst Hj. rewrite list_lookup_insert_ne by done. auto.
  - simpl. rewrite lookup_insert_eq, Hri. naive_solver.
  - simpl. rewrite Hri. intros inst [= <-]. simpl. by rewrite (Make_persister _ _ _ _ _ E).
Qed.

Lemma start1_spec cfg i names now cfg' :
  cfg_wf cfg → i < cfg_n cfg → freshNames (cfg_n cfg) names (cfg_net cfg) → start1 cfg i names now = Ok cfg' →
  cfg_wf cfg' ∧ cfg_n cfg' = cfg_n cfg ∧ cfg_connected cfg' = <[i := false]> (cfg_connected cfg) ∧
  cfg_endnames cfg' = <[i := Some names]> (cfg_endnames cfg) ∧
  let p := default Persister.MakePersister (content cfg i) in
  (∃ inst, cfg_rafts cfg' = <[i := Some inst]> (cfg_rafts cfg) ∧ Make (cfg_n cfg) (Z.of_nat i) p now = Ok (in_raft inst)) ∧
  content cfg' i = Some p ∧ ∀ j, j ≠ i → content cfg' j = content cfg j.
Proof.
  intros Hwf Hi Hnew. unfold start1.
  destruct (crash1_spec cfg i Hwf Hi) as (cfg1 & -> & Hwf1 & Hn & Hen & _ & _ & Hr & Hcn & Hends & Hc). res_simpl.
  rewrite put_Ok by (by rewrite (w_len _ _ _ _ (cw_wired _ _ Hwf1)), Hn). res_simpl.
  destruct (wf_renew cfg1 i names Hwf1) as (net & Hm & Hwf2);
    [by rewrite Hn| |unfold freshNames; rewrite Hn, Hends; apply Hnew|].
  { rewrite Hcn. apply list_lookup_insert_eq. by rewrite (cw_connected _ _ Hwf). }
  simpl. simpl in Hm. rewrite Hm. res_simpl. rewrite put_Ok by (simpl; by rewrite (cw_lastApplied _ _ Hwf1), Hn). res_simpl.
  set (cfg2 := set_lastApplied _ _).
  assert (Hwf3 : cfg_wf_but (eq i) cfg2).
  { apply (wf_weaken (λ _, False)); [done|]. destruct Hwf2. split; try done. simpl. rewrite length_insert. apply Hwf1. }
  intros H. destruct (loadSaved cfg2 i) as [cfg3|] eqn:E; [|done]. res_simpl.
  apply loadSaved_spec in E as (Hwf4 & (Hn4 & Hnet4 & Hr4 & Hcn4 & Hen4) & _ & Hci & Hcj); [|done|simpl; by rewrite Hn].
  apply (launch_spec _ _ _ _ (default Persister.MakePersister (content cfg2 i)) Hwf4) in H
    as (Hwf5 & Hn5 & Hcn5 & Hen5 & Hc5 & inst & Hr5 & Hmk); [|by rewrite Hn4; simpl; rewrite Hn|done].
  assert (Hc2 : ∀ j, content cfg2 j = content cfg j) by (intros j; by rewrite <-Hc).
  change (cfg_n cfg2) with (cfg_n cfg1) in *. change (cfg_connected cfg2) with (cfg_connected cfg1) in *.
  change (cfg_rafts cfg2) with (cfg_rafts cfg1) in *.
  change (cfg_endnames cfg2) with (<[i := Some names]> (cfg_endnames cfg1)) in *.
  cbv zeta. split_and!; try congruence.
  - exists inst. rewrite Hr5, Hr4, Hr, list_insert_insert_eq. split; [done|]. by rewrite <-Hc2, <-Hn, <-Hn4.
  - intros j Hj. by rewrite Hc5, Hcj, Hc2.
Qed.

(** *** Every run of a tester *)

(** What the test, the instances, and the instances that were replaced do, in
    any order.  A running instance may do anything to itself and its
    persister. *)
Inductive cfg_step cfg : config → Prop :=
| step_connect i cfg' :
    i < cfg_n cfg → cfg_endnames cfg !! i ≠ Some None → connect cfg i = Ok cfg' → cfg_step cfg cfg'
| step_disconnect i cfg' : i < cfg_n cfg → disconnect cfg i = Ok cfg' → cfg_step cfg cfg'
| step_crash1 i cfg' : i < cfg_n cfg → crash1 cfg i = Ok cfg' → cfg_step cfg cfg'
| step_start1 i names now cfg' :
    i < cfg_n cfg → freshNames (cfg_n cfg) names (cfg_net cfg) → start1 cfg i names now = Ok cfg' → cfg_step cfg cfg'
| step_unreliable unrel : cfg_step cfg (setunreliable cfg unrel)
| step_reordering yes : cfg_step cfg (setlongreordering cfg yes)
| step_applier i m cfg' : applier_msg cfg i m = Ok cfg' → cfg_step cfg cfg'
| step_applierSnap i m cfg' call : applierSnap_msg cfg i m = Ok (cfg', call) → cfg_step cfg cfg'
| step_run i inst rf' :
    cfg_rafts cfg !! i = Some (Some inst) →
    cfg_step cfg (set_heap (<[in_ps inst := persister rf']> (cfg_heap cfg))
                   (set_rafts (<[i := Some (mkInstance rf' (in_ps inst))]> (cfg_rafts cfg)) cfg))
| step_retired inst p :
    inst ∈ cfg_retired cfg → cfg_step cfg (set_heap (<[in_ps inst := p]> (cfg_heap cfg)) cfg).

(** Everything but what was delivered. *)
Definition same_but_logs cfg cfg' : Prop :=
  ∃ logs la mi, cfg' = set_maxIndex mi (set_lastApplied la (set_logs logs cfg)) ∧
    length logs = length (cfg_logs cfg) ∧ length la = length (cfg_lastApplied cfg).

Lemma checkLogs_same cfg i m cfg' b : checkLogs cfg i m = Ok (cfg', b) → same_but_logs cfg cfg'.
Proof.
  unfold checkLogs. intros H. res_inv. unfold put_ in E1. case_bool_decide; [|done]. simplify_eq.
  exists (<[i := <[CommandIndex m := msgCommand m]> x0]> (cfg_logs cfg)), (cfg_lastApplied cfg),
    (if bool_decide (CommandIndex m > cfg_maxIndex cfg)%Z then CommandIndex m else cfg_maxIndex cfg).
  split; [destruct cfg; simpl; by case_bool_decide|]. by rewrite length_insert.
Qed.

Lemma ingestSnap_same cfg i snap index cfg' : ingestSnap cfg i snap index = Ok (Some cfg') → same_but_logs cfg cfg'.
Proof.
  unfold ingestSnap, put_. destruct (gob_decode snap) as [[lii xlog]|]; [|done]. case_bool_decide; [done|].
  destruct (bool_decide (i < length (cfg_logs cfg))); [|done]. res_simpl.
  destruct (bool_decide (i < length (cfg_lastApplied cfg))); [|done]. res_simpl. intros [= <-].
  set (log := foldl _ ∅ _). exists (<[i := log]> (cfg_logs cfg)), (<[i := lii]> (cfg_lastApplied cfg)), (cfg_maxIndex cfg).
  split; [reflexivity|]. by rewrite !length_insert.
Qed.

Lemma applier_msg_same cfg i m cfg' : applier_msg cfg i m = Ok cfg' → same_but_logs cfg cfg'.
Proof.
  unfold applier_msg. destruct (CommandValid m); simpl.
  - destruct (checkLogs cfg i m) as [[cfg1 b]|] eqn:E; res_simpl; [|done]. case_match; [done|]. intros [= <-].
    by eapply checkLogs_same.
  - intros [= <-]. exists (cfg_logs cfg), (cfg_lastApplied cfg), (cfg_maxIndex cfg). by destruct cfg.
Qed.

Lemma applierSnap_msg_same cfg i m cfg' call : applierSnap_msg cfg i m = Ok (cfg', call) → same_but_logs cfg cfg'.
Proof.
  unfold applierSnap_msg. destruct (SnapshotValid m).
  { destruct (ingestSnap _ _ _ _) as [[cfg1|]|] eqn:E; [|done..]. res_simpl. intros [= <- _]. by eapply ingestSnap_same. }
  destruct (CommandValid m).
  2:{ intros [= <- _]. exists (cfg_logs cfg), (cfg_lastApplied cfg), (cfg_maxIndex cfg). by destruct cfg. }
  destruct (at_ (cfg_lastApplied cfg) i) as [la|]; [|done]. res_simpl. case_bool_decide; [done|].
  destruct (checkLogs cfg i m) as [[cfg1 b]|] eqn:E; res_simpl; [|done]. case_match; [done|].
  apply checkLogs_same in E as (logs & la1 & mi & -> & Hl1 & Hl2). unfold put_.
  destruct (bool_decide (i < _)); [|done]. res_simpl. intros H'.
  assert (cfg' = set_maxIndex mi (set_lastApplied (<[i := CommandIndex m]> la1) (set_logs logs cfg))) as ->.
  { case_bool_decide; res_inv; by simplify_eq. }
  eexists _, _, _. split; [done|]. by rewrite length_insert.
Qed.

Lemma same_but_logs_wf cfg cfg' :
  cfg_wf cfg → same_but_logs cfg cfg' → cfg_wf cfg' ∧ ∀ i, content cfg' i = content cfg i.
Proof. intros [] (logs & la & mi & -> & H1 & H2). split; [|done]. split; try done; simpl; congruence. Qed.

Lemma content_write cfg a p rafts i :
  cfg_saved cfg !! i ≠ Some (Some a) → content (set_heap (<[a := p]> (cfg_heap cfg)) (set_rafts rafts cfg)) i = content cfg i.
Proof.
  intros Hne. unfold content. simpl. destruct (cfg_saved cfg !! i) as [[b|]|] eqn:E; [|done..]. simpl.
  rewrite list_lookup_insert_ne; [done|congruence].
Qed.

Lemma wf_write_own cfg i inst rf' :
  cfg_wf cfg → cfg_rafts cfg !! i = Some (Some inst) →
  cfg_wf (set_heap (<[in_ps inst := persister rf']> (cfg_heap cfg))
           (set_rafts (<[i := Some (mkInstance rf' (in_ps inst))]> (cfg_rafts cfg)) cfg)).
Proof.
  intros [] Hi. destruct (cw_own0 i inst ltac:(tauto) Hi) as [Hs Hh].
  assert (Hli : i < length (cfg_rafts cfg)) by (by eapply lookup_lt_Some). split; try done; simpl; rewrite ?length_insert; try done.
  - intros j _. destruct (decide (j = i)) as [->|Hne].
    + rewrite list_lookup_insert_eq by done. rewrite cw_servers0 by tauto. naive_solver.
    + rewrite list_lookup_insert_ne by done. exact (cw_servers0 j ltac:(tauto)).
  - intros j inst' _ [(-> & [= <-] & _)|[Hne Hj]]%list_lookup_insert_Some; simpl.
    + split; [done|]. apply list_lookup_insert_eq. by eapply lookup_lt_Some.
    + destruct (cw_own0 j inst' ltac:(tauto) Hj) as [Hs' Hh']. split; [done|]. rewrite list_lookup_insert_ne; [done|].
      intros Heq. rewrite <-Heq in Hs'. by apply Hne, (cw_distinct0 _ _ _ Hs).
Qed.

Lemma wf_write_retired cfg inst p :
  cfg_wf cfg → inst ∈ cfg_retired cfg → cfg_wf (set_heap (<[in_ps inst := p]> (cfg_heap cfg)) cfg).
Proof.
  intros [] Hin. destruct (cw_retired0 inst Hin) as [Hl Hno]. split; try done; simpl; rewrite ?length_insert; try done.
  intros j inst' _ Hj. destruct (cw_own0 j inst' ltac:(tauto) Hj) as [Hs Hh]. split; [done|].
  rewrite list_lookup_insert_ne; [done|]. intros Heq. rewrite <-Heq in Hs. by apply (Hno j).
Qed.

Lemma wf_setting cfg net :
  cfg_wf cfg → ends net = ends (cfg_net cfg) → enabled net = enabled (cfg_net cfg) → servers net = servers (cfg_net cfg) →
  connections net = connections (cfg_net cfg) → cfg_wf (set_net net cfg).
Proof.
  intros [] H1 H2 H3 H4. split; try done; simpl; [by apply (wired_ext _ _ (cfg_net cfg))|by rewrite H2|by rewrite H3].
Qed.

Lemma connect_content cfg i cfg' j : connect cfg i = Ok cfg' → content cfg' j = content cfg j ∧ cfg_rafts cfg' = cfg_rafts cfg ∧ cfg_n cfg' = cfg_n cfg.
Proof. unfold connect. intros H. res_inv. done. Qed.

(** What a step does to the invariant, and to the persister of a server that
    is down before and after. *)
Lemma cfg_step_spec cfg cfg' :
  cfg_wf cfg → cfg_step cfg cfg' →
  cfg_wf cfg' ∧ cfg_n cfg' = cfg_n cfg ∧
  ∀ i, cfg_rafts cfg !! i = Some None → cfg_rafts cfg' !! i = Some None → content cfg' i = content cfg i.
Proof.
  intros Hwf Hst. destruct Hst as [i cfg' Hi Hne H|i cfg' Hi H|i cfg' Hi H|i names now cfg' Hi Hnew H|unrel|yes
    |i m cfg' H|i m cfg' call H|i inst rf' Hr|inst p Hin].
  - destruct (connect_wf cfg i Hwf Hi Hne) as (cfg2 & H2 & Hwf2). rewrite H2 in H. simplify_eq.
    destruct (connect_content _ _ _ 0 H2) as (_ & _ & ?). split_and!; [done..|]. intros j _ _. by apply (connect_content _ _ _ j H2).
  - destruct (disconnect_wf cfg i Hwf Hi) as (net & H2 & _ & _ & Hwf2). rewrite H2 in H. simplify_eq. done.
  - destruct (crash1_spec cfg i Hwf Hi) as (cfg2 & H2 & Hwf2 & Hn & _ & _ & _ & _ & _ & _ & Hc). rewrite H2 in H. simplify_eq. done.
  - destruct (start1_spec _ _ _ _ _ Hwf Hi Hnew H) as (Hwf2 & Hn & _ & _ & (inst & Hr & _) & _ & Hc). split_and!; [done..|].
    intros j _ Hj. apply Hc. intros ->. rewrite Hr, list_lookup_insert_eq in Hj; [done|]. by rewrite (cw_rafts _ _ Hwf).
  - split_and!; [by apply wf_setting|done..].
  - split_and!; [by apply wf_setting|done..].
  - apply applier_msg_same in H. pose proof (same_but_logs_wf _ _ Hwf H) as [? ?]. destruct H as (? & ? & ? & -> & _). done.
  - apply applierSnap_msg_same in H. pose proof (same_but_logs_wf _ _ Hwf H) as [? ?]. destruct H as (? & ? & ? & -> & _). done.
  - split_and!; [by apply wf_write_own|done|]. intros j Hj _. apply content_write. intros Hs.
    destruct (cw_own _ _ Hwf i inst ltac:(tauto) Hr) as [Hs' _]. pose proof (cw_distinct _ _ Hwf _ _ _ Hs Hs') as ->. congruence.
  - split_and!; [by apply wf_write_retired|done|]. intros j _ _.
    destruct (cw_retired _ _ Hwf inst Hin) as [_ Hno]. specialize (Hno j).
    rewrite <-(content_write cfg (in_ps inst) p (cfg_rafts cfg) j Hno). by destruct cfg.
Qed.

Lemma emptyConfig_wf n unrel : cfg_wf (emptyConfig n unrel).
Proof.
  assert (Hnone : ∀ {A} (x : A) i y, replicate n x !! i = Some y → y = x) by (intros A x i y Hy; by apply lookup_replicate in Hy as [-> _]).
  split; simpl; rewrite ?length_replicate; try done.
  - split; simpl; try (intros * (? & Hx%Hnone & _); done); [by rewrite length_replicate|]. intros i names Hx%Hnone. done.
  - intros i Hx%Hnone. done.
  - intros e. rewrite lookup_empty. split; [done|]. intros (i & j & (? & Hx%Hnone & _) & _). done.
  - intros i _. rewrite lookup_empty. split; [by intros [? ?]|]. intros (? & Hx%Hnone). done.
  - intros i inst _ Hx%Hnone. done.
  - intros i a Hx%Hnone. done.
  - intros i j a Hx%Hnone. done.
  - by intros inst ?%elem_of_nil.
Qed.

Definition cfg_reachable (n : nat) (unrel : bool) cfg : Prop := rtc cfg_step (emptyConfig n unrel) cfg.

Lemma cfg_reachable_wf n unrel cfg : cfg_reachable n unrel cfg → cfg_wf cfg ∧ cfg_n cfg = n.
Proof.
  intros Hr. apply (rtc_preserve cfg_step (λ cfg, cfg_wf cfg ∧ cfg_n cfg = n)) in Hr; [done| |].
  - intros c c' [Hwf Hn] Hst. destruct (cfg_step_spec _ _ Hwf Hst) as (? & ? & _). split; [done|congruence].
  - split; [apply emptyConfig_wf|done].
Qed.

(** C20: the tester controls who can talk to whom.  Whatever sequence of
    connects, disconnects, crashes and (re)starts the tests perform, a request
    on the end of server [i] to server [j] is sent on to server [j] iff both
    are connected and [j] runs, and a request on any other end, in particular
    on an end of an instance that was replaced, fails at once. *)
Theorem tester_network n unrel cfg (req : reqMsg NetName) :
  cfg_reachable n unrel cfg →
  (∀ i j, slot (cfg_endnames cfg) i j (rm_endname req) →
     (∃ t, proc_start (cfg_net cfg) req = AtDelay t ∧ tg_servername t = server j) ↔
     cfg_connected cfg !! i = Some true ∧ cfg_connected cfg !! j = Some true ∧ ∃ inst, cfg_rafts cfg !! j = Some (Some inst)) ∧
  ((∀ i j, ¬ slot (cfg_endnames cfg) i j (rm_endname req)) → proc_start (cfg_net cfg) req = AtTimer failure).
Proof.
  intros [Hwf Hn]%cfg_reachable_wf. unfold proc_start, readEndnameInfo. cbn [ei_enabled ei_servername ei_server ei_reliable ei_longreordering].
  pose proof (cw_links _ _ Hwf (rm_endname req)) as Hl. split.
  - intros i j Hs. rewrite (w_conn _ _ _ _ (cw_wired _ _ Hwf) _ _ _ Hs). cbn [default from_option id].
    rewrite <-(cw_servers _ _ Hwf j) by tauto.
    assert (Hen : enabled (cfg_net cfg) !! rm_endname req = Some true ↔
      cfg_connected cfg !! i = Some true ∧ cfg_connected cfg !! j = Some true).
    { rewrite Hl. split; [|by intros [? ?]; exists i, j]. intros (a & b & Hs' & Ha & Hb).
      by destruct (w_inj _ _ _ _ (cw_wired _ _ Hwf) _ _ _ _ _ Hs Hs') as [-> ->]. }
    transitivity (enabled (cfg_net cfg) !! rm_endname req = Some true ∧ ∃ s, servers (cfg_net cfg) !! server j = Some (Some s));
      [|rewrite Hen; tauto]. clear Hen Hl.
    destruct (enabled (cfg_net cfg) !! rm_endname req) as [[]|]; simpl;
      destruct (servers (cfg_net cfg) !! server j) as [[s|]|]; simpl; naive_solver.
  - intros Hno. assert (Hen : enabled (cfg_net cfg) !! rm_endname req ≠ Some true).
    { rewrite Hl. intros (a & b & Hs' & _). by apply (Hno a b). }
    by destruct (enabled (cfg_net cfg) !! rm_endname req) as [[]|].
Qed.

(** C21: a restart loses nothing and an old instance spoils nothing.  A server
    is crashed and started again later, while the other servers run, crash and
    start, and while the instances that were replaced before keep writing to
    the persisters they know: the new instance is made from exactly what the
    old one had persisted when it was crashed. *)
Theorem restart_state n unrel cfg cfg1 cfg2 cfg3 i names now inst :
  cfg_reachable n unrel cfg → i < n → cfg_rafts cfg !! i = Some (Some inst) →
  crash1 cfg i = Ok cfg1 →
  rtc (λ a b, cfg_step a b ∧ cfg_rafts b !! i = Some None) cfg1 cfg2 →
  freshNames n names (cfg_net cfg2) → start1 cfg2 i names now = Ok cfg3 →
  ∃ inst', cfg_rafts cfg3 !! i = Some (Some inst') ∧
    Make n (Z.of_nat i) (persister (in_raft inst)) now = Ok (in_raft inst').
Proof.
  intros [Hwf Hn]%cfg_reachable_wf Hi Hinst Hcr Hrun Hnew Hst.
  destruct (crash1_spec cfg i Hwf) as (cfg1' & Heq & Hwf1 & Hn1 & _ & _ & _ & Hr1 & _ & _ & Hc1); [lia|].
  rewrite Heq in Hcr. simplify_eq.
  assert (Hdown : cfg_rafts cfg1 !! i = Some None) by (rewrite Hr1; apply list_lookup_insert_eq; by rewrite (cw_rafts _ _ Hwf)).
  assert (H2 : cfg_wf cfg2 ∧ cfg_n cfg2 = cfg_n cfg ∧ cfg_rafts cfg2 !! i = Some None ∧ content cfg2 i = content cfg i).
  { apply (rtc_preserve _ (λ c, cfg_wf c ∧ cfg_n c = cfg_n cfg ∧ cfg_rafts c !! i = Some None ∧ content c i = content cfg i)) in Hrun;
      [done| |by split_and!].
    intros a b (Hwfa & Hna & Hra & Hca) [Hstep Hrb]. destruct (cfg_step_spec _ _ Hwfa Hstep) as (? & ? & Hc).
    split_and!; [done|congruence|done|]. rewrite Hc; [done|done|done]. }
  destruct H2 as (Hwf2 & Hn2 & Hr2 & Hc2). rewrite <-Hn2 in Hi, Hnew.
  destruct (start1_spec _ _ _ _ _ Hwf2 Hi Hnew Hst) as (_ & _ & _ & _ & (inst' & Hr3 & Hmk) & _).
  exists inst'. split; [rewrite Hr3; apply list_lookup_insert_eq; by rewrite (cw_rafts _ _ Hwf2)|].
  destruct (cw_own _ _ Hwf i inst ltac:(tauto) Hinst) as [Hs Hh].
  assert (Hci : content cfg i = Some (persister (in_raft inst))) by (unfold content; by rewrite Hs). by rewrite <-Hn2, <-Hmk, Hc2, Hci.
Qed.
End RaftHarness.

Arguments Instance_ C : clear implicits.
Arguments config C : clear implicits.
