(* ===== verification/RaftTester.v ===== *)
(** * The tester's checks against Raft

    [run_tester] feeds what the servers deliver to the checks of
    [RaftHarness].  The checks accept exactly the sequences in which the
    servers agree on every index and no server skips one, and every orderly
    run of the cluster of [RaftShared] without compaction delivers such a
    sequence: what the tests look for does not happen there. *)

From stdpp Require Import base list gmap sets strings.
From Stdlib Require Import ZArith Lia.
From S2P Require Import Prelude Runes RaftLog RaftCore RaftElection RaftReplication RaftApply RaftNode RaftCluster RaftLogMatching RaftSafety RaftMemory RaftShared LabRPC Harness RaftHarness.

Section RaftTester.
Context {C : Type} `{!EqDecision C, !Gob (PState C), !GobOk (PState C), !Gob (Z * list (option C))}.
Implicit Types (cfg : config C) (m : ApplyMsg C) (tr : list (nat * ApplyMsg C)).

(** The appliers of all the servers, in the order in which they take messages. *)
Definition run_tester cfg tr : Res (config C) := foldM (λ cfg '(i, m), applier_msg cfg i m) cfg tr.

(** Server [i] got command [v] at index [k]. *)
Definition got tr (i : nat) (k : Z) (v : option C) : Prop :=
  ∃ m, (i, m) ∈ tr ∧ CommandValid m = true ∧ CommandIndex m = k ∧ msgCommand m = v.

(** What the checks are meant to accept. *)
Record acceptable (n : nat) tr : Prop := {
  acc_server : ∀ i m, (i, m) ∈ tr → CommandValid m = true → i < n;
  acc_agree : ∀ i j k v w, got tr i k v → got tr j k w → v = w;
  acc_order : ∀ tr1 i m tr2, tr = tr1 ++ (i, m) :: tr2 → CommandValid m = true → (1 < CommandIndex m)%Z →
    ∃ v, got tr1 i (CommandIndex m - 1) v;
}.

(** ** One message *)

(** Some server has another command at the index. *)
Definition conflicts cfg m : bool :=
  existsb (λ log, match log !! CommandIndex m with Some old => bool_decide (old ≠ msgCommand m) | None => false end)
    (cfg_logs cfg).

Lemma checkLogs_loop (logs : list (gmap Z (option C))) m :
  foldM (λ _ log, match log !! CommandIndex m with
                  | Some old => if bool_decide (old ≠ msgCommand m) then Panic else Ok tt
                  | None => Ok tt
                  end) tt logs =
  if existsb (λ log, match log !! CommandIndex m with Some old => bool_decide (old ≠ msgCommand m) | None => false end) logs
  then Panic else Ok tt.
Proof.
  induction logs as [|log logs IH]; [done|]. simpl. destruct (log !! CommandIndex m) as [old|]; simpl; [|done].
  by destruct (bool_decide (old ≠ msgCommand m)).
Qed.

(** What the applier does with a command: it stops the test, or notes it. *)
Lemma applier_msg_spec cfg i m :
  CommandValid m = true →
  match cfg_logs cfg !! i with
  | Some log =>
      if conflicts cfg m then applier_msg cfg i m = Panic
      else if bool_decide (1 < CommandIndex m)%Z && bool_decide (log !! (CommandIndex m - 1)%Z = None)
      then applier_msg cfg i m = Panic
      else ∃ cfg', applier_msg cfg i m = Ok cfg' ∧ cfg_logs cfg' = <[i := <[CommandIndex m := msgCommand m]> log]> (cfg_logs cfg)
  | None => applier_msg cfg i m = Panic
  end.
Proof.
  intros Hv. unfold applier_msg, checkLogs. rewrite Hv, checkLogs_loop. fold (conflicts cfg m). simpl.
  destruct (cfg_logs cfg !! i) as [log|] eqn:El.
  2:{ destruct (conflicts cfg m); [done|]. res_simpl. unfold at_. by rewrite El. }
  destruct (conflicts cfg m); [done|]. res_simpl. rewrite (at_Some _ _ _ El). res_simpl.
  rewrite put_Ok by (by eapply lookup_lt_Some). res_simpl.
  rewrite (bool_decide_ext (CommandIndex m > 1)%Z (1 < CommandIndex m)%Z) by lia.
  destruct (log !! (CommandIndex m - 1)%Z) as [w|].
  - rewrite (bool_decide_true (is_Some (Some w))) by (by eexists). rewrite (bool_decide_false (Some w = None)) by done.
    simpl. rewrite andb_false_r. eexists. split; [done|]. by case_bool_decide.
  - rewrite (bool_decide_false (is_Some None)) by (by intros [? ?]). rewrite (bool_decide_true (None = None)) by done.
    simpl. rewrite andb_true_r. case_bool_decide; [done|]. eexists. split; [done|]. by case_bool_decide.
Qed.

(** ** Sequences *)

(** The logs hold what was delivered. *)
Definition recorded (n : nat) cfg tr : Prop :=
  length (cfg_logs cfg) = n ∧ ∀ i k v, (∃ log, cfg_logs cfg !! i = Some log ∧ log !! k = Some v) ↔ got tr i k v.

Lemma got_snoc tr i m j k v :
  got (tr ++ [(i, m)]) j k v ↔ got tr j k v ∨ (j = i ∧ CommandValid m = true ∧ CommandIndex m = k ∧ msgCommand m = v).
Proof.
  unfold got. setoid_rewrite elem_of_app. setoid_rewrite list_elem_of_singleton. split.
  - intros (m' & [H|[= -> ->]] & ?); [left; eauto|right; done].
  - intros [(m' & ? & ?)|(-> & ?)]; [exists m'; eauto|exists m; eauto].
Qed.

Lemma conflicts_spec n cfg tr m :
  recorded n cfg tr → conflicts cfg m = false ↔ ∀ j w, got tr j (CommandIndex m) w → w = msgCommand m.
Proof.
  intros [_ Hr]. unfold conflicts. rewrite <-not_true_iff_false, existsb_exists. split.
  - intros Hno j w (log & Hl & Hw)%Hr. apply dec_stable. intros Hne. apply Hno. exists log.
    split; [apply list_elem_of_In; by eapply list_elem_of_lookup_2|]. rewrite Hw. by apply bool_decide_eq_true.
  - intros Hall (log & Hin%list_elem_of_In & Hc). apply list_elem_of_lookup in Hin as [j Hj].
    destruct (log !! CommandIndex m) as [old|] eqn:E; [|done]. apply bool_decide_eq_true in Hc. apply Hc, (Hall j), Hr. by exists log.
Qed.

Lemma recorded_snoc n cfg cfg' tr i m log :
  recorded n cfg tr → CommandValid m = true → cfg_logs cfg !! i = Some log →
  cfg_logs cfg' = <[i := <[CommandIndex m := msgCommand m]> log]> (cfg_logs cfg) →
  (∀ j w, got tr j (CommandIndex m) w → w = msgCommand m) → recorded n cfg' (tr ++ [(i, m)]).
Proof.
  intros [Hlen Hr] Hv Hi Hl Hag. split; [by rewrite Hl, length_insert|]. intros j k v. rewrite Hl, got_snoc.
  destruct (decide (j = i)) as [->|Hne].
  - rewrite list_lookup_insert_eq by (by eapply lookup_lt_Some). destruct (decide (k = CommandIndex m)) as [->|Hk].
    + split.
      * intros (l' & [= <-] & Hkv). rewrite lookup_insert_eq in Hkv. right. naive_solver.
      * intros [Hg|(_ & _ & _ & <-)]; eexists; (split; [done|]); rewrite lookup_insert_eq; [by rewrite (Hag i v)|done].
    + rewrite <-Hr. split.
      * intros (l' & [= <-] & Hkv). rewrite lookup_insert_ne in Hkv by done. left. by exists log.
      * intros [(l' & Hl' & Hkv)|(_ & _ & ? & _)]; [|done]. simplify_eq. eexists. split; [done|]. by rewrite lookup_insert_ne.
  - rewrite list_lookup_insert_ne by done. rewrite Hr. naive_solver.
Qed.

Lemma recorded_skip n cfg tr i m : CommandValid m = false → recorded n cfg tr → recorded n cfg (tr ++ [(i, m)]).
Proof. intros Hv [Hlen Hr]. split; [done|]. intros j k v. rewrite Hr, got_snoc. naive_solver congruence. Qed.

Lemma acceptable_prefix n tr x : acceptable n (tr ++ [x]) → acceptable n tr.
Proof.
  intros [H1 H2 H3].
  assert (Hmono : ∀ i k v, got tr i k v → got (tr ++ [x]) i k v).
  { intros i k v (m & ? & ?). exists m. rewrite elem_of_app. naive_solver. }
  split.
  - intros i m Hin. apply H1. rewrite elem_of_app. by left.
  - intros i j k v w ? ?. eapply H2; by apply Hmono.
  - intros tr1 i m tr2 ->. eapply (H3 tr1 i m (tr2 ++ [x])). by rewrite <-app_assoc.
Qed.

(** A sequence that is acceptable stays so if the next message is. *)
Lemma acceptable_snoc n tr i m :
  acceptable n tr →
  (CommandValid m = true → i < n ∧ (∀ j w, got tr j (CommandIndex m) w → w = msgCommand m) ∧
     ((1 < CommandIndex m)%Z → ∃ v, got tr i (CommandIndex m - 1) v)) ↔ acceptable n (tr ++ [(i, m)]).
Proof.
  intros Hacc. split.
  - intros Hm. destruct Hacc as [H1 H2 H3]. split.
    + intros j m' [Hin|[= -> ->]%list_elem_of_singleton]%elem_of_app Hv; [by eapply H1|by apply Hm].
    + intros j1 j2 k v w. rewrite !got_snoc. intros [Hg1|(-> & Hv1 & <- & <-)] [Hg2|(-> & Hv2 & Hk & <-)]; [by eapply H2| | |done].
      * destruct (Hm Hv2) as (_ & Hag & _). rewrite <-Hk in Hg1. by apply (Hag j1).
      * destruct (Hm Hv1) as (_ & Hag & _). symmetry. by apply (Hag j2).
    + intros tr1 j m' tr2 Heq Hv Hk. destruct tr2 as [|x tr2 _] using rev_ind.
      * apply app_inj_tail in Heq as [-> [= -> ->]]. by apply Hm.
      * rewrite app_comm_cons, app_assoc in Heq. apply app_inj_tail in Heq as [-> _]. by eapply H3.
  - intros [H1 H2 H3] Hv. split_and!.
    + eapply H1; [|done]. rewrite elem_of_app, list_elem_of_singleton. by right.
    + intros j w Hg. eapply H2; apply got_snoc; [by left|right; by split_and!].
    + intros Hk. by eapply (H3 tr i m []).
Qed.

Lemma tester_run n cfg tr :
  cfg_logs cfg = replicate n ∅ →
  match run_tester cfg tr with
  | Ok cfg' => acceptable n tr ∧ recorded n cfg' tr
  | Panic => ¬ acceptable n tr
  end.
Proof.
  intros Hinit. induction tr as [|[i m] tr IH] using rev_ind.
  { simpl. split; [split; [by intros ? ? ?%elem_of_nil|by intros ? ? ? ? ? (? & ?%elem_of_nil & _)|by intros []]|].
    split; [by rewrite Hinit, length_replicate|]. intros i k v. rewrite Hinit. split.
    - intros (log & [-> _]%lookup_replicate & Hk). by rewrite lookup_empty in Hk.
    - by intros (? & ?%elem_of_nil & _). }
  unfold run_tester in *. rewrite foldM_app. destruct (foldM _ cfg tr) as [cfg1|]; res_simpl.
  2:{ intros Ha. apply IH. by eapply acceptable_prefix. }
  destruct IH as [Hacc Hrec]. cbn [foldM]. pose proof (acceptable_snoc n tr i m Hacc) as Hsn.
  destruct (CommandValid m) eqn:Hv.
  2:{ unfold applier_msg. rewrite Hv. simpl. split; [by apply Hsn|]. by apply recorded_skip. }
  pose proof (applier_msg_spec cfg1 i m Hv) as Hspec. destruct (cfg_logs cfg1 !! i) as [log|] eqn:El.
  2:{ rewrite Hspec. res_simpl. intros Hm%Hsn; [|done]. destruct Hm as [Hi _]. rewrite <-(proj1 Hrec) in Hi.
      apply lookup_lt_is_Some_2 in Hi as [? ?]. congruence. }
  assert (Hi : i < n) by (rewrite <-(proj1 Hrec); by eapply lookup_lt_Some).
  pose proof (conflicts_spec n cfg1 tr m Hrec) as Hc. destruct (conflicts cfg1 m).
  { rewrite Hspec. res_simpl. intros Hm%Hsn; [|done]. destruct Hm as (_ & Hag & _). by apply Hc in Hag. }
  assert (Hprev : ∀ k v, log !! k = Some v ↔ got tr i k v).
  { intros k v. rewrite <-(proj2 Hrec), El. naive_solver. }
  destruct (bool_decide (1 < CommandIndex m)%Z && bool_decide (log !! (CommandIndex m - 1)%Z = None)) eqn:Eb.
  - rewrite Hspec. res_simpl. intros Hm%Hsn; [|done]. destruct Hm as (_ & _ & Hord).
    apply andb_true_iff in Eb as [E1%bool_decide_eq_true E2%bool_decide_eq_true].
    destruct (Hord E1) as [v Hg%Hprev]. congruence.
  - destruct Hspec as (cfg' & -> & Hl). res_simpl. split; [apply Hsn; intros _; split_and!; [done|by apply Hc|]|].
    + intros Hk. apply andb_false_iff in Eb as [E%bool_decide_eq_false|E%bool_decide_eq_false]; [done|].
      destruct (log !! (CommandIndex m - 1)%Z) as [v|] eqn:Ev; [|done]. exists v. by apply Hprev.
    + eapply recorded_snoc; [done..|by apply Hc].
Qed.

(** C22: what the tester's checks check.  Fed with the messages that the
    servers deliver, in any interleaving, the appliers stop the test iff two
    servers (or one, before and after a restart) delivered different commands
    at an index or a server delivered an index without the one before it;
    otherwise the logs that the other checks read hold exactly the commands
    that were delivered. *)
Theorem tester_checks n unrel tr :
  (acceptable n tr → ∃ cfg, run_tester (emptyConfig n unrel) tr = Ok cfg) ∧
  (∀ cfg, run_tester (emptyConfig n unrel) tr = Ok cfg →
     acceptable n tr ∧ ∀ i k v, (∃ log, cfg_logs cfg !! i = Some log ∧ log !! k = Some v) ↔ got tr i k v).
Proof.
  pose proof (tester_run n (emptyConfig n unrel) tr eq_refl) as Hrun.
  destruct (run_tester (emptyConfig n unrel) tr) as [cfg'|]; split; try done; [by eexists|].
  intros cfg [= <-]. destruct Hrun as [? [_ ?]]. done.
Qed.

(** ** What a cluster delivers *)

Implicit Types c : Cluster (C := C).




















(** ** Looking for the leader *)

(** Server [i] is connected and says that it leads term [t]. *)
Definition leads cfg (i : nat) (t : Z) : Prop :=
  cfg_connected cfg !! i = Some true ∧ ∃ inst, cfg_rafts cfg !! i = Some (Some inst) ∧ GetState (in_raft inst) = (t, true).

(** All the connected servers run. *)
Definition all_running cfg : Prop :=
  length (cfg_connected cfg) = cfg_n cfg ∧ ∀ i, cfg_connected cfg !! i = Some true → ∃ inst, cfg_rafts cfg !! i = Some (Some inst).

(** What the map of [checkOneLeader] holds after the servers [l]. *)
Definition by_term cfg (l : list nat) (leaders : gmap Z (list nat)) : Prop :=
  ∀ t, (leaders !! t ≠ Some []) ∧ NoDup (default [] (leaders !! t)) ∧
    ∀ i, i ∈ default [] (leaders !! t) ↔ i ∈ l ∧ leads cfg i t.

Lemma leadersByTerm_spec cfg :
  all_running cfg → ∃ leaders, leadersByTerm cfg = Ok leaders ∧ by_term cfg (seq 0 (cfg_n cfg)) leaders.
Proof.
  intros [Hlen Hrun]. unfold leadersByTerm.
  assert (Hgen : ∀ k, k ≤ cfg_n cfg → ∃ leaders, foldM (λ leaders i,
      c ← at_ (cfg_connected cfg) i;
      if c : bool then
        '(term, leader) ← peerState cfg i;
        if leader : bool then Ok (<[term := default [] (leaders !! term) ++ [i]]> leaders) else Ok leaders
      else Ok leaders) ∅ (seq 0 k) = Ok leaders ∧ by_term cfg (seq 0 k) leaders); [|by apply Hgen].
  induction k as [|k IH]; intros Hk.
  { exists ∅. split; [done|]. intros t. rewrite lookup_empty. split; [done|]. split; [constructor|]. intros i. simpl. rewrite !elem_of_nil. tauto. }
  destruct IH as (leaders & Hl & Hb); [lia|]. rewrite seq_S, foldM_app, Hl. res_simpl. cbn [foldM].
  destruct (lookup_lt_is_Some_2 (cfg_connected cfg) k) as [c Hc]; [lia|]. change (0 + k) with k. rewrite (at_Some _ _ _ Hc). res_simpl.
  assert (Hskip : (∀ t, ¬ leads cfg k t) → by_term cfg (seq 0 k ++ [k]) leaders).
  { intros Hno t. destruct (Hb t) as (H1 & H2 & H3). split_and!; [done..|]. intros i. rewrite H3, elem_of_app, list_elem_of_singleton.
    split; [tauto|]. intros [[?| ->] ?]; [done|]. by destruct (Hno t). }
  destruct c; res_simpl.
  2:{ exists leaders. split; [done|]. apply Hskip. intros t [? _]. congruence. }
  destruct (Hrun k Hc) as [inst Hi]. unfold peerState. rewrite (at_Some _ _ _ Hi). res_simpl.
  destruct (GetState (in_raft inst)) as [term [|]] eqn:Eg; res_simpl.
  2:{ exists leaders. split; [done|]. apply Hskip. intros t (_ & inst' & Hi' & Hg'). congruence. }
  eexists. split; [done|]. intros t. destruct (decide (t = term)) as [->|Hne].
  - rewrite lookup_insert_eq. cbn [default from_option id]. destruct (Hb term) as (H1 & H2 & H3).
    assert (Hk' : k ∉ default [] (leaders !! term)) by (rewrite H3, elem_of_seq; lia).
    split_and!; [by destruct (default [] (leaders !! term))| |].
    + apply NoDup_app. split_and!; [done| |apply NoDup_singleton]. intros x Hx ->%list_elem_of_singleton. done.
    + intros i. rewrite !elem_of_app, !list_elem_of_singleton, H3. split; [|tauto].
      intros [?| ->]; [tauto|]. split; [by right|]. split; [done|]. by exists inst.
  - rewrite lookup_insert_ne by done. destruct (Hb t) as (H1 & H2 & H3). split_and!; [done..|]. intros i.
    rewrite H3, elem_of_app, list_elem_of_singleton. split; [tauto|]. intros [[?| ->] Hld]; [done|].
    destruct Hld as (_ & inst' & Hi' & Hg'). congruence.
Qed.

Lemma terms_loop (l : list (Z * list nat)) (b : Z) :
  let loop := foldM (λ last '(term, ids), if bool_decide (1 < length ids) then Panic
                                          else Ok (if bool_decide (term > last)%Z then term else last)) b l in
  match loop with
  | Panic => ∃ t ids, (t, ids) ∈ l ∧ 1 < length ids
  | Ok m => (∀ t ids, (t, ids) ∈ l → length ids ≤ 1 ∧ (t ≤ m)%Z) ∧ (b ≤ m)%Z ∧ (m = b ∨ ∃ ids, (m, ids) ∈ l)
  end.
Proof.
  revert b. induction l as [|[t ids] l IH]; intros b; cbn [foldM].
  { split; [by intros ? ? ?%elem_of_nil|]. split; [lia|by left]. }
  case_bool_decide as Hlen; [exists t, ids; split; [left|done]|]. res_simpl.
  set (b' := if bool_decide (t > b)%Z then t else b). assert (Hb' : (b ≤ b')%Z ∧ (t ≤ b')%Z ∧ (b' = b ∨ b' = t))
    by (unfold b'; case_bool_decide; lia).
  specialize (IH b'). destruct (foldM _ b' l) as [m|].
  - destruct IH as (H1 & H2 & H3). split_and!; [|lia|].
    + intros t' ids' [[= -> ->]|Hin]%elem_of_cons; [lia|by apply H1].
    + destruct H3 as [->|[ids' Hin]]; [|right; exists ids'; by right].
      destruct Hb' as (_ & _ & [->| ->]); [by left|right; exists ids; left].
  - destruct IH as (t' & ids' & Hin & ?). exists t', ids'. split; [by right|done].
Qed.

(** What one look of [checkOneLeader] finds. *)
Lemma checkOneLeader_iter_spec cfg :
  all_running cfg → (∀ i t, leads cfg i t → (0 ≤ t)%Z) →
  match checkOneLeader_iter cfg with
  | Ok (Some i) => ∃ t, leads cfg i t ∧ ∀ j t', leads cfg j t' → (t' ≤ t)%Z ∧ (t' = t → j = i)
  | Ok None => ∀ i t, ¬ leads cfg i t
  | Panic => ∃ i j t, i ≠ j ∧ leads cfg i t ∧ leads cfg j t
  end.
Proof.
  intros Hrun Hpos. destruct (leadersByTerm_spec cfg Hrun) as (leaders & Hl & Hb). unfold checkOneLeader_iter. rewrite Hl. res_simpl.
  assert (Hin : ∀ i t, leads cfg i t → i ∈ seq 0 (cfg_n cfg)).
  { intros i t [Hc _]. apply lookup_lt_Some in Hc. rewrite (proj1 Hrun) in Hc. rewrite elem_of_seq. lia. }
  pose proof (terms_loop (map_to_list leaders) (-1)) as Hloop. cbv zeta in Hloop.
  destruct (foldM _ (-1)%Z _) as [m|]; res_simpl.
  2:{ destruct Hloop as (t & ids & Hids%elem_of_map_to_list & Hlen). destruct (Hb t) as (_ & Hnd & Hm). rewrite Hids in *. simpl in *.
      destruct ids as [|i [|j ids]]; simpl in Hlen; [lia..|]. exists i, j, t. split_and!.
      - apply NoDup_cons in Hnd as [Hnd _]. intros ->. apply Hnd. left.
      - apply Hm. left.
      - apply Hm. right. left. }
  destruct Hloop as (Hall & Hge & Hmax).
  assert (Hfound : ∀ j t, leads cfg j t → ∃ ids, leaders !! t = Some ids ∧ j ∈ ids).
  { intros j t Hld. destruct (Hb t) as (_ & _ & Hm). destruct (Hm j) as [_ Hj]. specialize (Hj (conj (Hin _ _ Hld) Hld)).
    destruct (leaders !! t) as [ids|]; [by exists ids|by apply elem_of_nil in Hj]. }
  case_bool_decide as Hemp.
  2:{ intros i t (ids & Hids & _)%Hfound. rewrite Hemp, lookup_empty in Hids. done. }
  assert (Hmm : ∃ ids, leaders !! m = Some ids).
  { destruct Hmax as [->|[ids Hids%elem_of_map_to_list]]; [|by exists ids].
    destruct (map_choose _ Hemp) as (t & ids & Hids). destruct (Hb t) as (Hne & _ & Hm). rewrite Hids in *.
    destruct ids as [|i ids]; [done|]. destruct (Hm i) as [Hm' _]. destruct Hm' as [_ Hld]; [left|].
    apply Hpos in Hld. apply elem_of_map_to_list, Hall in Hids as [_ ?]. lia. }
  destruct Hmm as [ids Hids]. rewrite Hids. res_simpl. destruct (Hb m) as (Hne & _ & Hm). rewrite Hids in *.
  destruct ids as [|i ids]; [done|]. res_simpl. cbn [at_ lookup list_lookup]. exists m.
  pose proof Hids as Hone. apply elem_of_map_to_list, Hall in Hone as [Hone _]. simpl in Hone.
  destruct ids; [|simpl in Hone; lia]. split; [apply Hm; left|]. intros j t' (ids' & Hids' & Hj)%Hfound.
  split; [by apply elem_of_map_to_list, Hall in Hids' as [_ ?]|]. intros ->. rewrite Hids in Hids'. injection Hids' as <-.
  by apply list_elem_of_singleton in Hj.
Qed.

(** *** The leaders of a cluster *)

Lemma cluster_step_leaders c c' : cluster_step c c' → ∀ x, x ∈ cl_leaders c → x ∈ cl_leaders c'.
Proof. destruct 1; try done. intros x Hx. unfold c'. case_bool_decide; [by right|done]. Qed.

Lemma cluster_steps_leaders c c' : rtc cluster_step c c' → ∀ x, x ∈ cl_leaders c → x ∈ cl_leaders c'.
Proof. induction 1 as [|c c1 c' Hs _ IH]; [done|]. intros x Hx. by eapply IH, cluster_step_leaders. Qed.

(** A peer's term is never negative. *)
Lemma reachable_cand n c i nd : reachable n c → cl_nodes c !! i = Some nd → cand_ok (nd_raft nd).
Proof.
  intros [now Hr]. assert (cluster_inv n c ∧ ∀ i nd, cl_nodes c !! i = Some nd → cand_ok (nd_raft nd)) as [_ Hc]; [|by apply Hc].
  eapply (rtc_preserve _ (λ c, cluster_inv n c ∧ ∀ i nd, cl_nodes c !! i = Some nd → cand_ok (nd_raft nd))); [| |done].
  - intros x y [Hi Hc] Hs. split; [by eapply cluster_step_inv|by eapply cand_step].
  - destruct (initCluster_lm (C := C) n now) as [? ? _]. done.
Qed.

(** The servers that [cfg] shows are peers of the cluster, each as it was at
    some moment of the run that led to [c]: [checkOneLeader] asks one server
    after the other while the cluster goes on. *)
Definition observed (n : nat) (c : Cluster) cfg : Prop :=
  ∀ i inst, cfg_rafts cfg !! i = Some (Some inst) →
    ∃ c' nd, reachable n c' ∧ rtc cluster_step c' c ∧ cl_nodes c' !! Z.of_nat i = Some nd ∧ in_raft inst = nd_raft nd.

Lemma observed_leads n c cfg i t :
  observed n c cfg → leads cfg i t → (0 ≤ t)%Z ∧ (t, Z.of_nat i) ∈ cl_leaders c.
Proof.
  intros Hobs (_ & inst & Hi & Hg). destruct (Hobs i inst Hi) as (c' & nd & Hr & Hs & Hnd & Heq).
  rewrite Heq in Hg. unfold GetState in Hg. injection Hg as <- Hl%bool_decide_eq_true.
  split; [by eapply reachable_cand|]. eapply cluster_steps_leaders; [done|].
  apply reachable_inv in Hr. by apply (ni_leader _ _ _ _ (ci_nodes _ _ Hr _ _ Hnd)).
Qed.

Lemma observed_iter n c cfg :
  reachable n c → all_running cfg → observed n c cfg →
  match checkOneLeader_iter cfg with
  | Ok (Some i) => ∃ t, leads cfg i t ∧ ∀ j t', leads cfg j t' → (t' ≤ t)%Z ∧ (t' = t → j = i)
  | Ok None => ∀ i t, ¬ leads cfg i t
  | Panic => False
  end.
Proof.
  intros Hr Hrun Hobs. pose proof (λ i t, observed_leads n c cfg i t Hobs) as Hlead.
  pose proof (checkOneLeader_iter_spec cfg Hrun (λ i t H, proj1 (Hlead i t H))) as Hspec.
  destruct (checkOneLeader_iter cfg) as [[i|]|]; [done..|].
  destruct Hspec as (i & j & t & Hne & [_ Hi]%Hlead & [_ Hj]%Hlead).
  apply Hne. apply Nat2Z.inj. eapply unique_leader; [by apply reachable_inv|done|done].
Qed.

(** C10: [checkOneLeader] never meets two leaders of a term.  Whatever it reads
    of a running cluster, at whatever moments, it stops the test only when no
    connected server said that it leads in any of the looks, and the server
    that it returns leads, in the newest term that was seen in that look, and
    alone. *)
Theorem checkOneLeader_sound n c (moments : list (config C)) :
  reachable n c → (∀ cfg, cfg ∈ moments → all_running cfg ∧ observed n c cfg) →
  match checkOneLeader moments with
  | Ok i => ∃ cfg t, cfg ∈ moments ∧ leads cfg i t ∧ ∀ j t', leads cfg j t' → (t' ≤ t)%Z ∧ (t' = t → j = i)
  | Panic => ∀ cfg i t, cfg ∈ moments → ¬ leads cfg i t
  end.
Proof.
  intros Hr. induction moments as [|cfg moments IH]; intros Hm; cbn [checkOneLeader].
  { by intros cfg i t ?%elem_of_nil. }
  destruct (Hm cfg) as [Hrun Hobs]; [left|]. pose proof (observed_iter n c cfg Hr Hrun Hobs) as Hspec.
  destruct (checkOneLeader_iter cfg) as [[i|]|]; res_simpl; [|clear Hrun Hobs|done].
  { destruct Hspec as (t & ? & ?). exists cfg, t. split; [left|done]. }
  specialize (IH (λ cfg' H, Hm cfg' (list_elem_of_further _ _ _ H))). destruct (checkOneLeader moments) as [i|].
  - destruct IH as (cfg' & t & Hin & ?). exists cfg', t. split; [by right|done].
  - intros cfg' i t [->|Hin]%elem_of_cons; [apply Hspec|by apply IH].
Qed.

(** ** Counting agreement *)

(** Server [i] has delivered [v] at [index]. *)
Definition has_at cfg (index : Z) (i : nat) : option (option C) := log ← cfg_logs cfg !! i; log !! index.

(** The servers that have delivered something at [index]. *)
Definition holders cfg (index : Z) : list nat :=
  filter (λ i, is_Some (has_at cfg index i)) (seq 0 (length (cfg_rafts cfg))).

Lemma nCommitted_spec cfg index k cmd :
  nCommitted cfg index = Ok (k, cmd) →
  k = zlen (holders cfg index) ∧ ∀ i, i ∈ holders cfg index → has_at cfg index i = Some cmd.
Proof.
  unfold nCommitted, holders.
  match goal with |- foldM ?f _ _ = _ → _ => assert (Hgen : ∀ l k0 v0 k cmd, (0 ≤ k0)%Z → foldM f (k0, v0) l = Ok (k, cmd) →
    k = (k0 + zlen (filter (λ i, is_Some (has_at cfg index i)) l))%Z ∧
    (∀ i, i ∈ filter (λ i, is_Some (has_at cfg index i)) l → has_at cfg index i = Some cmd) ∧ (0 < k0 → cmd = v0)%Z) end.
  { clear k cmd. induction l as [|i l IH]; intros k0 v0 k cmd Hk0 H; cbn [foldM] in H.
    { injection H as <- <-. split_and!; [by rewrite filter_nil, Z.add_0_r|by intros i ?%elem_of_nil|done]. }
    unfold at_ in H. destruct (cfg_logs cfg !! i) as [log|] eqn:El; res_simpl; [|done].
    assert (Hh : has_at cfg index i = log !! index) by (unfold has_at; by rewrite El).
    rewrite filter_cons. destruct (log !! index) as [cmd1|] eqn:Ei; rewrite Hh.
    - rewrite decide_True by (by eexists).
      destruct (bool_decide (k0 > 0)%Z && bool_decide (v0 ≠ cmd1)) eqn:Eb; [done|]. cbn [mbind Res_bind] in H.
      apply IH in H as (-> & Hall & Hc); [|lia]. specialize (Hc ltac:(lia)) as ->.
      split_and!; [rewrite zlen_cons; lia| |].
      + intros j [->|Hj]%elem_of_cons; [done|by apply Hall].
      + intros Hpos. rewrite bool_decide_true in Eb by lia. apply bool_decide_eq_false in Eb. destruct (decide (v0 = cmd1)); [done|by destruct Eb].
    - rewrite decide_False by (by intros [? ?]). by apply IH in H. }
  intros (-> & Hall & _)%Hgen; [|lia]. split; [lia|exact Hall].
Qed.

Lemma one_polls_true polls index cmd expected :
  one_polls polls index cmd expected = Ok true →
  ∃ cfg, cfg ∈ polls ∧ (0 < zlen (holders cfg index))%Z ∧ (expected ≤ zlen (holders cfg index))%Z ∧
    ∀ i, i ∈ holders cfg index → has_at cfg index i = Some (Some cmd).
Proof.
  induction polls as [|cfg polls IH]; [done|]. cbn [one_polls]. unfold one_poll.
  destruct (nCommitted cfg index) as [[k cmd1]|] eqn:E; res_simpl; [|done].
  destruct (bool_decide (k > 0)%Z && _ && _) eqn:Eb.
  - intros _. apply nCommitted_spec in E as [-> Hall].
    apply andb_true_iff in Eb as [[H1%bool_decide_eq_true H2%bool_decide_eq_true]%andb_true_iff ->%bool_decide_eq_true].
    exists cfg. split_and!; [left|lia|lia|done].
  - intros (cfg' & ? & ?)%IH. exists cfg'. split; [by right|done].
Qed.

(** What an agreement of [one] is.  When it returns an index, there was a
    moment at which at least the expected number of servers, and at least one,
    had delivered the command at that index, and none something else.  It
    returns -1 only when the test has finished. *)
Theorem one_agreement rounds (last : config C) starts cmd expected retry index :
  one rounds last starts cmd expected retry = Ok index →
  (index = (-1)%Z ∧ ∃ cfg, (cfg = last ∨ cfg ∈ rounds.*1) ∧ cfg_finished cfg = true) ∨
  ∃ polls cfg, polls ∈ rounds.*2 ∧ cfg ∈ polls ∧ (0 < zlen (holders cfg index))%Z ∧ (expected ≤ zlen (holders cfg index))%Z ∧
    ∀ i, i ∈ holders cfg index → has_at cfg index i = Some (Some cmd).
Proof.
  revert starts. induction rounds as [|[cfg polls] rounds IH]; intros starts; cbn [one].
  { destruct (cfg_finished last) eqn:E; [|done]. intros [= <-]. left. split; [done|]. exists last. by split; [left|]. }
  assert (Hmore : ∀ starts, one rounds last starts cmd expected retry = Ok index → _) by exact IH. clear IH.
  destruct (cfg_finished cfg) eqn:Ef.
  { intros [= <-]. left. split; [done|]. exists cfg. split; [right; left|done]. }
  destruct (one_start cfg starts cmd) as [[[? starts'] index']|]; res_simpl; [|done].
  assert (Hlater : one rounds last starts' cmd expected retry = Ok index →
    (index = (-1)%Z ∧ ∃ cfg1, (cfg1 = last ∨ cfg1 ∈ ((cfg, polls) :: rounds).*1) ∧ cfg_finished cfg1 = true) ∨
    ∃ ps cfg1, ps ∈ ((cfg, polls) :: rounds).*2 ∧ cfg1 ∈ ps ∧ (0 < zlen (holders cfg1 index))%Z ∧ (expected ≤ zlen (holders cfg1 index))%Z ∧
      ∀ i, i ∈ holders cfg1 index → has_at cfg1 index i = Some (Some cmd)).
  { intros [(-> & cfg1 & [->|Hc] & Hf)|(ps & cfg1 & Hps & Hrest)]%Hmore; [left|left|right].
    - split; [done|]. exists last. by split; [left|].
    - split; [done|]. exists cfg1. split; [right; by right|done].
    - exists ps, cfg1. split; [by right|done]. }
  case_bool_decide; [|exact Hlater]. destruct (one_polls polls index' cmd expected) as [[]|] eqn:Ep; res_simpl; [| |done].
  - intros [= <-]. right. apply one_polls_true in Ep as (cfg1 & Hc & Hrest). exists polls, cfg1. split; [left|done].
  - by destruct retry.
Qed.
End RaftTester.
