(* ===== verification/HarnessWitness.v ===== *)
(** * Concrete testers

    The properties of [RaftHarness], [RaftTester], [KVHarness] and
    [ShardHarness] at concrete runs. *)

From stdpp Require Import base list gmap sets strings countable.
From Stdlib Require Import ZArith Lia.
From S2P Require Import Prelude Runes RaftLog RaftCore RaftElection RaftReplication RaftApply RaftNode RaftCluster RaftLogMatching RaftSafety RaftMemory RaftShared RaftSharedWitness LabRPC Harness RaftHarness RaftTester.

#[local] Instance gobZ : Gob (PState Z) := countable_gob (PState Z).
#[local] Instance gobZ_ok : GobOk (PState Z) := countable_gob_ok (PState Z).
#[local] Instance gobSnap : Gob (Z * list (option Z)) := countable_gob _.

(** The result of a run that is known to return. *)
Definition result {A} (d : A) (r : Res A) : A := match r with Ok x => x | Panic => d end.

(** Names of ends: [k] is the number of starts so far. *)
Definition wnames (n k : nat) : list NetName := (λ j, NInt (1000 + Z.of_nat (n * k + j))) <$> seq 0 n.

Lemma fresh_check n names (net : Net) :
  bool_decide (length names = n ∧ NoDup names ∧ (list_to_set names : gset NetName) ## ends net) = true → freshNames n names net.
Proof. intros (? & ? & Hf)%bool_decide_eq_true. split_and!; [done..|]. set_solver. Qed.

(** ** Raft *)

Definition w0 : config Z := emptyConfig 2 false.
Definition w1 : config Z := result w0 (start1 w0 0 (wnames 2 0) 0).
Definition w2 : config Z := result w0 (start1 w1 1 (wnames 2 1) 0).
Definition w3 : config Z := result w0 (connect w2 0).
Definition w4 : config Z := result w0 (connect w3 1).

Lemma w4_reachable : cfg_reachable 2 false w4.
Proof.
  apply rtc_l with w1; [eapply (step_start1 _ 0 (wnames 2 0) 0); [simpl; lia|apply fresh_check; by vm_compute|by vm_compute]|].
  apply rtc_l with w2; [eapply (step_start1 _ 1 (wnames 2 1) 0); [vm_compute; lia|apply fresh_check; by vm_compute|by vm_compute]|].
  apply rtc_l with w3; [apply (step_connect _ 0); [vm_compute; lia|by vm_compute|by vm_compute]|].
  apply rtc_once. apply (step_connect _ 1); [vm_compute; lia|by vm_compute|by vm_compute].
Qed.

(** Both servers are connected: a request of server 0 to server 1 is sent on. *)
Lemma tester_network_witness : cfg_reachable 2 false w4 ∧
  ∃ t, proc_start (cfg_net w4) (mkReqMsg (NInt 1001) "Raft.RequestVote" "" []) = AtDelay t ∧ tg_servername t = server 1.
Proof.
  split; [exact w4_reachable|].
  apply (proj1 (tester_network 2 false w4 (mkReqMsg (NInt 1001) "Raft.RequestVote" "" []) w4_reachable) 0 1).
  - exists (wnames 2 0). by vm_compute.
  - split; [by vm_compute|]. split; [by vm_compute|]. eexists. by vm_compute.
Defined.

(** Server 0 starts an election, so that it persists something. *)
Definition wraft : Raft Z :=
  match cfg_rafts w4 !! 0 with
  | Some (Some inst) => match leaderElection_start (in_raft inst) 300 300 300 with Ok (rf, _) => rf | Panic => in_raft inst end
  | _ => freshRaft 2 0 Persister.MakePersister
  end.
Definition w5 : config Z :=
  set_heap (<[0 := persister wraft]> (cfg_heap w4)) (set_rafts (<[0 := Some (mkInstance wraft 0)]> (cfg_rafts w4)) w4).
Definition w6 : config Z := result w0 (crash1 w5 0).
Definition w7 : config Z := result w0 (start1 w6 0 (wnames 2 2) 400).

Lemma w5_reachable : cfg_reachable 2 false w5.
Proof.
  apply rtc_r with w4; [exact w4_reachable|].
  assert (∃ rf, cfg_rafts w4 !! 0 = Some (Some (mkInstance rf 0))) as [rf Hrf] by (eexists; by vm_compute).
  exact (step_run w4 0 _ wraft Hrf).
Qed.

Lemma w5_inst : cfg_rafts w5 !! 0 = Some (Some (mkInstance wraft 0)).
Proof. reflexivity. Qed.

Lemma w6_run : crash1 w5 0 = Ok w6.
Proof. by vm_compute. Qed.

Lemma w7_run : start1 w6 0 (wnames 2 2) 400 = Ok w7.
Proof. by vm_compute. Qed.

Lemma w6_fresh : freshNames 2 (wnames 2 2) (cfg_net w6).
Proof. apply fresh_check. by vm_compute. Qed.

Lemma wraft_make : ∃ rf, Make 2 (Z.of_nat 0) (persister (in_raft (mkInstance wraft 0))) 400 = Ok rf ∧ currentTerm rf = 1%Z ∧ votedFor rf = 0%Z.
Proof. eexists. split; [vm_compute; reflexivity|]. split; reflexivity. Qed.

(** After a crash server 0 has its term and vote again. *)
Lemma restart_state_witness : ∃ inst', cfg_rafts w7 !! 0 = Some (Some inst') ∧
  currentTerm (in_raft inst') = 1%Z ∧ votedFor (in_raft inst') = 0%Z.
Proof.
  destruct (restart_state 2 false w5 w6 w6 w7 0 (wnames 2 2) 400 (mkInstance wraft 0) w5_reachable ltac:(lia) w5_inst w6_run
    (rtc_refl _ _) w6_fresh w7_run) as (inst' & H1 & H2).
  destruct wraft_make as (rf & Hrf & Ht & Hv). exists inst'. rewrite Hrf in H2. injection H2 as <-. split; [exact H1|]. split; [exact Ht|exact Hv].
Defined.

(** *** The checks *)



(** The tester's view of two peers of a cluster, the third being disconnected. *)
Definition viewed (rf1 rf2 : Raft Z) : config Z :=
  set_connected [true; true; false] (set_rafts [Some (mkInstance rf1 0); Some (mkInstance rf2 1); None] (emptyConfig 3 false)).

Lemma checkOneLeader_sound_witness : ∃ (c : Cluster (C := Z)) cfg i t,
  reachable 3 c ∧ observed 3 c cfg ∧ checkOneLeader [cfg] = Ok i ∧ leads cfg i t.
Proof.
  destruct applied_run as (c & nd1 & nd2 & [now Hc] & H1 & H2 & Hr & Ht & _).
  assert (Hreach : reachable 3 c) by (exists now; eapply rtc_subrel; [|exact Hc]; by intros ? ? [? _]).
  set (cfg := viewed (nd_raft nd1) (nd_raft nd2)).
  assert (Hl : leads cfg 0 1).
  { split; [done|]. eexists. split; [done|]. unfold GetState. simpl. by rewrite Hr, Ht. }
  assert (Hobs : observed 3 c cfg).
  { intros [|[|[|i]]] inst; intros [= <-]; exists c; [exists nd1|exists nd2]; (split; [done|]); (split; [apply rtc_refl|]); by split. }
  assert (Hrun : all_running cfg).
  { split; [done|]. intros [|[|[|i]]] Hi; try done; by eexists. }
  pose proof (checkOneLeader_sound 3 c [cfg] Hreach) as Hs.
  destruct (checkOneLeader [cfg]) as [i|] eqn:E.
  - destruct Hs as (cfg' & t & ->%list_elem_of_singleton & Hld & _); [by intros cfg' ->%list_elem_of_singleton|].
    exists c, cfg, i, t. by split_and!.
  - exfalso. refine (Hs _ cfg 0 1%Z _ Hl); [by intros cfg' ->%list_elem_of_singleton|by apply list_elem_of_singleton].
Defined.

(** A single server leads, takes the command 7 and delivers it at index 1. *)
Definition alone : config Z :=
  set_heap [Persister.MakePersister]
    (set_connected [true] (set_rafts [Some (mkInstance (set_role LEADER (freshRaft 1 0 Persister.MakePersister)) 0)] (emptyConfig 1 false))).
Definition alone_later : config Z := set_logs [{[ 1%Z := Some 7%Z ]}] alone.

Lemma one_agreement_witness : one [(alone, [alone; alone_later])] alone_later 0 7%Z 1 false = Ok 1%Z ∧
  ∃ cfg, cfg ∈ [alone; alone_later] ∧ (1 ≤ zlen (holders cfg 1))%Z.
Proof.
  assert (H : one [(alone, [alone; alone_later])] alone_later 0 7%Z 1 false = Ok 1%Z) by (by vm_compute). split; [exact H|].
  destruct (one_agreement _ _ _ _ _ _ _ H) as [[? _]|(polls & cfg & Hp & Hc & _ & Hk & _)]; [done|].
  apply list_elem_of_singleton in Hp as ->. by exists cfg.
Defined.
