(* ===== verification/KVHarness.v ===== *)
(** * The tester of a replicated service (src/kvraft/config.go,
      src/shardctrler/config.go)

    The two testers are the same code over different servers, so the servers
    are the argument [Srv] with what the tester uses of them: [kill], [start]
    (what StartKVServer or StartServer makes of a persister), [leads] (whether
    the Raft peer of the server is leader), and [leads_nil], what [Leader] does
    at a server that is down: kvraft follows the nil pointer, shardctrler skips
    it.  [KVTesters] has the two instances.

    Theorems: a partition cuts the servers into two sides that can talk inside
    and not across; which sides [make_partition] picks, that for an odd number
    of servers it is a partition with the leader in the minority, and that for
    an even number of four or more it puts server 0 on both sides unless it
    leads; a new clerk reaches exactly
    the servers it was given; a shutdown cuts a server off and keeps its
    persisted state for the next start. *)

From stdpp Require Import base list gmap sets strings.
From Stdlib Require Import ZArith Lia.
From S2P Require Import Prelude Runes RaftLog RaftCore LabRPC Harness.

Section KVHarness.
Context {Srv : Type}.

Record gconfig : Type := mkGconfig {
  g_net : Net;
  g_n : nat;
  g_servers : list (option Srv);
  g_saved : list (option nat);
  g_endnames : EndNames;
  g_clerks : gmap nat (list NetName); (* a clerk is the address of its object *)
  g_nextClientId : Z;
  g_heap : PHeap;
  g_nsrv : nat;
}.

Implicit Types cfg : gconfig.

Definition g_set_net net cfg : gconfig :=
  mkGconfig net (g_n cfg) (g_servers cfg) (g_saved cfg) (g_endnames cfg) (g_clerks cfg) (g_nextClientId cfg) (g_heap cfg) (g_nsrv cfg).
Definition g_set_servers l cfg : gconfig :=
  mkGconfig (g_net cfg) (g_n cfg) l (g_saved cfg) (g_endnames cfg) (g_clerks cfg) (g_nextClientId cfg) (g_heap cfg) (g_nsrv cfg).
Definition g_set_saved l heap cfg : gconfig :=
  mkGconfig (g_net cfg) (g_n cfg) (g_servers cfg) l (g_endnames cfg) (g_clerks cfg) (g_nextClientId cfg) heap (g_nsrv cfg).
Definition g_set_endnames en cfg : gconfig :=
  mkGconfig (g_net cfg) (g_n cfg) (g_servers cfg) (g_saved cfg) en (g_clerks cfg) (g_nextClientId cfg) (g_heap cfg) (g_nsrv cfg).
Definition g_set_clerks cl id cfg : gconfig :=
  mkGconfig (g_net cfg) (g_n cfg) (g_servers cfg) (g_saved cfg) (g_endnames cfg) cl id (g_heap cfg) (g_nsrv cfg).
Definition g_set_nsrv k cfg : gconfig :=
  mkGconfig (g_net cfg) (g_n cfg) (g_servers cfg) (g_saved cfg) (g_endnames cfg) (g_clerks cfg) (g_nextClientId cfg) (g_heap cfg) k.

Definition gserver (i : nat) : NetName := NInt (Z.of_nat i).

(** ** Connections between servers *)

(** attach server i to servers listed in to *)
Definition connectUnlocked cfg (i : nat) (to : list nat) : Res gconfig :=
  net ← foldM (λ net t, e ← endname (g_endnames cfg) i t; Ok (Enable net e true)) (g_net cfg) to;
  net ← foldM (λ net t, e ← endname (g_endnames cfg) t i; Ok (Enable net e true)) net to;
  Ok (g_set_net net cfg).

(** detach server i from the servers listed in from; the second loop tests the
    names of server [j], the position in the list, and uses those of [from[j]] *)
Definition disconnectUnlocked cfg (i : nat) (from : list nat) : Res gconfig :=
  net ← foldM (λ net f,
    names ← at_ (g_endnames cfg) i;
    match names with Some _ => e ← endname (g_endnames cfg) i f; Ok (Enable net e false) | None => Ok net end) (g_net cfg) from;
  net ← foldM (λ net j,
    names ← at_ (g_endnames cfg) j;
    match names with
    | Some _ => f ← at_ from j; e ← endname (g_endnames cfg) f i; Ok (Enable net e false)
    | None => Ok net
    end) net (seq 0 (length from));
  Ok (g_set_net net cfg).

Definition All cfg : list nat := seq 0 (g_n cfg).

Definition ConnectAll cfg : Res gconfig := foldM (λ cfg i, connectUnlocked cfg i (All cfg)) cfg (seq 0 (g_n cfg)).

(** Sets up 2 partitions with connectivity between servers in each partition. *)
Definition partition cfg (p1 p2 : list nat) : Res gconfig :=
  let side mine other cfg i :=
    cfg ← disconnectUnlocked cfg i other; connectUnlocked cfg i mine in
  cfg ← foldM (side p1 p2) cfg p1;
  foldM (side p2 p1) cfg p2.

(** ** Clerks *)

(** [cfg.clerks[ck]] of an unknown clerk is nil. *)
Definition clerkEnds cfg (ck : nat) : list NetName := default [] (g_clerks cfg !! ck).

Definition ConnectClientUnlocked cfg (ck : nat) (to : list nat) : Res gconfig :=
  net ← foldM (λ net t, s ← at_ (clerkEnds cfg ck) t; Ok (Enable net s true)) (g_net cfg) to;
  Ok (g_set_net net cfg).

Definition DisconnectClientUnlocked cfg (ck : nat) (from : list nat) : Res gconfig :=
  net ← foldM (λ net f, s ← at_ (clerkEnds cfg ck) f; Ok (Enable net s false)) (g_net cfg) from;
  Ok (g_set_net net cfg).

(** [ck] is the new object, [names] the random end names, [js] what the shuffle
    of the handles draws; the handles, which are what the clerk is made of, are
    returned by the names of their ends. *)
Definition makeClient cfg (ck : nat) (names : list NetName) (js : nat → nat) (to : list nat) : Res (gconfig * list NetName) :=
  net ← makeEnds (g_net cfg) (zip names (gserver <$> seq 0 (g_n cfg)));
  handles ← random_handles names js;
  let cfg := g_set_clerks (<[ck := names]> (g_clerks cfg)) (g_nextClientId cfg + 1) (g_set_net net cfg) in
  cfg ← ConnectClientUnlocked cfg ck to;
  Ok (cfg, handles).

Definition deleteClient cfg (ck : nat) : gconfig := g_set_clerks (delete ck (g_clerks cfg)) (g_nextClientId cfg) cfg.

(** ** Servers *)

Definition gsave cfg (i : nat) (p : Persister) : Res gconfig :=
  let '(a, heap) := new_ (g_heap cfg) p in
  saved ← put_ (g_saved cfg) i (Some a);
  Ok (g_set_saved saved heap cfg).

Definition gderef cfg (a : nat) : Res Persister := at_ (g_heap cfg) a.

(** Shutdown a server by isolating it *)
Definition ShutdownServer cfg (i : nat) : Res gconfig :=
  cfg ← disconnectUnlocked cfg i (All cfg);
  let cfg := g_set_net (DeleteServer (g_net cfg) (gserver i)) cfg in
  sv ← at_ (g_saved cfg) i;
  cfg ← match sv with
        | Some a => p ← gderef cfg a; gsave cfg i (Persister.Copy p)
        | None => Ok cfg
        end;
  kv ← at_ (g_servers cfg) i;
  match kv with
  | Some _ => servers ← put_ (g_servers cfg) i None; Ok (g_set_servers servers cfg)
  | None => Ok cfg
  end.

(** Partition servers into 2 groups and put current leader in minority: the
    loop of [make_partition], given the leader. *)
Definition split_servers (n l : nat) : Res (list nat * list nat) :=
  let p1 := replicate (n / 2 + 1) 0 in
  let p2 := replicate (n / 2) 0 in
  '(p1, p2, _) ← foldM (λ '(p1, p2, j) i,
    if bool_decide (i ≠ l) then
      if bool_decide (j < length p1) then p1 ← put_ p1 j i; Ok (p1, p2, S j)
      else p2 ← put_ p2 (j - length p1) i; Ok (p1, p2, S j)
    else Ok (p1, p2, j)) (p1, p2, 0) (seq 0 n);
  if bool_decide (length p2 = 0) then Panic (* p2[-1] *)
  else p2 ← put_ p2 (length p2 - 1) l; Ok (p1, p2).

(** ** The rest *)

Definition max_over cfg (size : Persister → Z) : Res Z :=
  foldM (λ acc i,
    sv ← at_ (g_saved cfg) i;
    match sv with
    | Some a => p ← gderef cfg a; Ok (if bool_decide (size p > acc)%Z then size p else acc)
    | None => Panic
    end) 0%Z (seq 0 (g_n cfg)).

Definition LogSize cfg : Res Z := max_over cfg Persister.RaftStateSize.
Definition SnapshotSize cfg : Res Z := max_over cfg Persister.SnapshotSize.

(** ** Partitions *)

(** All the servers have ends. *)
Definition all_started cfg : Prop :=
  wired (g_n cfg) gserver (g_net cfg) (g_endnames cfg) ∧ ∀ i, g_endnames cfg !! i ≠ Some None.

Lemma endname_started cfg i j :
  all_started cfg → i < g_n cfg → j < g_n cfg → ∃ e, endname (g_endnames cfg) i j = Ok e ∧ slot (g_endnames cfg) i j e.
Proof.
  intros [W Hst] Hi Hj. destruct (slot_exists _ _ _ _ i j W Hi Hj (Hst i)) as [e He]. exists e. by rewrite endname_slot.
Qed.

(** The names of the ends of [i] to [js], and back. *)
Definition names_of cfg (f : nat → nat * nat) (js : list nat) : list NetName :=
  omap (λ j, match endname (g_endnames cfg) (f j).1 (f j).2 with Ok e => Some e | Panic => None end) js.

Lemma elem_of_names cfg f js e : e ∈ names_of cfg f js ↔ ∃ j, j ∈ js ∧ slot (g_endnames cfg) (f j).1 (f j).2 e.
Proof.
  unfold names_of. rewrite list_elem_of_omap. apply exist_proper. intros j. rewrite <-endname_slot.
  destruct (endname _ _ _); naive_solver.
Qed.

Lemma loop_names cfg net f js yes (body : Net → nat → Res Net) :
  all_started cfg → (∀ j, j ∈ js → (f j).1 < g_n cfg ∧ (f j).2 < g_n cfg) →
  (∀ net j, j ∈ js → body net j = (e ← endname (g_endnames cfg) (f j).1 (f j).2; Ok (Enable net e yes))) →
  foldM body net js = Ok (enableAll net (names_of cfg f js) yes).
Proof.
  intros Hst Hr Hb. apply loop_enable. intros net' j Hj. rewrite Hb by done. destruct (Hr j Hj) as [H1 H2].
  destruct (endname_started cfg _ _ Hst H1 H2) as (e & -> & _). done.
Qed.

(** The ends between [i] and [js], in both directions. *)
Definition around cfg (i : nat) (js : list nat) : list NetName :=
  names_of cfg (λ j, (i, j)) js ++ names_of cfg (λ j, (j, i)) js.

Lemma enableAll_app net l k yes : enableAll net (l ++ k) yes = enableAll (enableAll net l yes) k yes.
Proof. unfold enableAll. by rewrite foldl_app. Qed.

Lemma connectUnlocked_eq cfg i to :
  all_started cfg → i < g_n cfg → (∀ j, j ∈ to → j < g_n cfg) →
  connectUnlocked cfg i to = Ok (g_set_net (enableAll (g_net cfg) (around cfg i to) true) cfg).
Proof.
  intros Hst Hi Hto. unfold connectUnlocked, around. rewrite enableAll_app.
  rewrite (loop_names cfg (g_net cfg) (λ j, (i, j)) to true); [|done|by auto|done]. res_simpl.
  rewrite (loop_names cfg _ (λ j, (j, i)) to true); [done|done|by auto|done].
Qed.

(** When every server has ends, it does not matter whose names the loop of
    [disconnectUnlocked] tests. *)
Lemma disconnectUnlocked_eq cfg i from :
  all_started cfg → i < g_n cfg → (∀ j, j ∈ from → j < g_n cfg) → length from ≤ g_n cfg →
  ∃ es, disconnectUnlocked cfg i from = Ok (g_set_net (enableAll (g_net cfg) es false) cfg) ∧
    ∀ e, e ∈ es ↔ e ∈ around cfg i from.
Proof.
  intros Hst Hi Hfrom Hlen. unfold disconnectUnlocked.
  assert (Hrow : ∀ j, j < g_n cfg → ∃ names, at_ (g_endnames cfg) j = Ok (Some names)).
  { intros j Hj. destruct Hst as [W Hst]. destruct (lookup_lt_is_Some_2 (g_endnames cfg) j) as [[names|] Hn];
      [by rewrite (w_len _ _ _ _ W)|exists names; by apply at_Some|by destruct (Hst j)]. }
  rewrite (loop_names cfg (g_net cfg) (λ j, (i, j)) from false); [|done|by auto|].
  2:{ intros net j Hj. destruct (Hrow i Hi) as [names ->]. done. }
  res_simpl. set (sel j := match from !! j with
      | Some f => match endname (g_endnames cfg) f i with Ok e => Some e | Panic => None end | None => None end).
  rewrite (loop_enable _ sel false).
  2:{ intros net j [_ Hj]%elem_of_seq. destruct (Hrow j) as [names ->]; [lia|]. res_simpl.
      destruct (lookup_lt_is_Some_2 from j) as [f Hf]; [lia|]. rewrite (at_Some _ _ _ Hf). res_simpl. unfold sel. rewrite Hf.
      destruct (endname_started cfg f i Hst) as (e & -> & _); [by apply Hfrom; eapply list_elem_of_lookup_2|done|done]. }
  res_simpl. rewrite <-enableAll_app. eexists. split; [done|]. intros e. unfold around. rewrite !elem_of_app.
  apply or_iff_compat_l. rewrite list_elem_of_omap, elem_of_names. unfold sel. split.
  - intros (j & _ & Hj). destruct (from !! j) as [f|] eqn:Ef; [|done]. exists f. split; [by eapply list_elem_of_lookup_2|].
    apply endname_slot. by destruct (endname _ _ _); simplify_eq.
  - intros (f & Hin & Hs%endname_slot). apply list_elem_of_lookup in Hin as [j Hj]. exists j. rewrite elem_of_seq, Hj.
    simpl in Hs. rewrite Hs. split; [|done]. apply lookup_lt_Some in Hj. lia.
Qed.

(** The state of the ends: [linked cfg a b] is what [enabled] says of the end
    of [a] to [b]. *)
Definition linked cfg (a b : nat) : option bool :=
  match endname (g_endnames cfg) a b with Ok e => enabled (g_net cfg) !! e | Panic => None end.

Lemma in_around cfg i js a b e :
  all_started cfg → slot (g_endnames cfg) a b e →
  e ∈ around cfg i js ↔ (a = i ∧ b ∈ js) ∨ (b = i ∧ a ∈ js).
Proof.
  intros [W _] Hs. unfold around. rewrite elem_of_app, !elem_of_names. split.
  - intros [(j & Hj & Hs')|(j & Hj & Hs')]; destruct (w_inj _ _ _ _ W _ _ _ _ _ Hs Hs') as [-> ->]; auto.
  - intros [[-> Hb]|[-> Ha]]; [left; by exists b|right; by exists a].
Qed.

Lemma all_started_enable cfg es yes : all_started cfg → all_started (g_set_net (enableAll (g_net cfg) es yes) cfg).
Proof. intros [W Hst]. split; [|done]. by eapply wired_ext; [..|exact W]; apply enableAll_rest. Qed.

(** One side of [partition], for one server. *)
Lemma side_spec cfg i mine other :
  all_started cfg → i < g_n cfg → (∀ j, j ∈ mine ∨ j ∈ other → j < g_n cfg) → length other ≤ g_n cfg →
  ∃ cfg', (cfg ← disconnectUnlocked cfg i other; connectUnlocked cfg i mine) = Ok cfg' ∧
    all_started cfg' ∧ g_n cfg' = g_n cfg ∧ g_endnames cfg' = g_endnames cfg ∧ g_clerks cfg' = g_clerks cfg ∧
    (∀ e, (∀ a b, ¬ slot (g_endnames cfg) a b e) → enabled (g_net cfg') !! e = enabled (g_net cfg) !! e) ∧
    ∀ a b, a < g_n cfg → b < g_n cfg → linked cfg' a b =
      if decide ((a = i ∧ b ∈ mine) ∨ (b = i ∧ a ∈ mine)) then Some true
      else if decide ((a = i ∧ b ∈ other) ∨ (b = i ∧ a ∈ other)) then Some false
      else linked cfg a b.
Proof.
  intros Hst Hi Hr Hlen.
  destruct (disconnectUnlocked_eq cfg i other Hst Hi) as (es & -> & Hes); [by auto|done|]. res_simpl.
  pose proof (all_started_enable cfg es false Hst) as Hst1. set (cfg1 := g_set_net _ cfg) in *.
  rewrite (connectUnlocked_eq cfg1 i mine Hst1 Hi) by auto.
  pose proof (all_started_enable cfg1 (around cfg1 i mine) true Hst1) as Hst2. set (cfg2 := g_set_net _ cfg1) in *.
  exists cfg2. split_and!; try done.
  - intros e Hno. simpl. rewrite !enableAll_enabled, !decide_False; [done|..].
    + intros Hin%Hes. unfold around in Hin. rewrite elem_of_app, !elem_of_names in Hin. naive_solver.
    + unfold around. rewrite elem_of_app, !elem_of_names. simpl. naive_solver.
  - intros a b Ha Hb. unfold linked. destruct (endname_started cfg a b Hst Ha Hb) as (e & He & Hs).
    change (g_endnames cfg2) with (g_endnames cfg). rewrite He. simpl. rewrite !enableAll_enabled.
    pose proof (in_around cfg1 i mine a b e Hst1 Hs) as H1. pose proof (in_around cfg i other a b e Hst Hs) as H2.
    rewrite <-Hes in H2. repeat case_decide; tauto.
Qed.

(** The loop over a side, for the servers [D] of it. *)
Lemma side_loop cfg D mine other :
  all_started cfg → (∀ j, j ∈ D → j ∈ mine) → (∀ j, j ∈ mine → j ∉ other) →
  (∀ j, j ∈ mine ∨ j ∈ other → j < g_n cfg) → length other ≤ g_n cfg →
  ∃ cfg', foldM (λ cfg i, cfg ← disconnectUnlocked cfg i other; connectUnlocked cfg i mine) cfg D = Ok cfg' ∧
    all_started cfg' ∧ g_n cfg' = g_n cfg ∧ g_endnames cfg' = g_endnames cfg ∧ g_clerks cfg' = g_clerks cfg ∧
    (∀ e, (∀ a b, ¬ slot (g_endnames cfg) a b e) → enabled (g_net cfg') !! e = enabled (g_net cfg) !! e) ∧
    ∀ a b, a < g_n cfg → b < g_n cfg → linked cfg' a b =
      if decide ((a ∈ D ∧ b ∈ mine) ∨ (b ∈ D ∧ a ∈ mine)) then Some true
      else if decide ((a ∈ D ∧ b ∈ other) ∨ (b ∈ D ∧ a ∈ other)) then Some false
      else linked cfg a b.
Proof.
  revert cfg. induction D as [|i D IH]; intros cfg Hst HD Hdis Hr Hlen.
  { exists cfg. by split_and!. }
  assert (Him : i ∈ mine) by (apply HD; left).
  destruct (side_spec cfg i mine other Hst) as (cfg1 & Heq & Hst1 & Hn1 & Hen1 & Hcl1 & Hrest1 & Hl1); [by auto..|].
  cbn [foldM]. rewrite Heq. res_simpl.
  destruct (IH cfg1) as (cfg2 & -> & Hst2 & Hn2 & Hen2 & Hcl2 & Hrest2 & Hl2); [done|by intros; apply HD; right|done|by rewrite Hn1|by rewrite Hn1|].
  exists cfg2. split_and!; try congruence.
  - intros e Hno. rewrite Hrest2 by (by rewrite Hen1). by apply Hrest1.
  - intros a b Ha Hb. rewrite Hl2, Hl1 by congruence.
    assert (HD' : ∀ j, j ∈ D → j ∈ mine) by (intros; apply HD; by right).
    pose proof (HD' a). pose proof (HD' b). pose proof (Hdis a). pose proof (Hdis b).
    repeat case_decide; try done; exfalso; rewrite ?elem_of_cons in *; naive_solver.
Qed.

(** C30: a partition is a partition.  For two sides without a common server,
    after [partition] a server can reach another iff both are on the same side
    (servers on no side and the ends of clerks are left alone). *)
Theorem partition_cuts cfg p1 p2 :
  all_started cfg → (∀ j, j ∈ p1 ∨ j ∈ p2 → j < g_n cfg) → (∀ j, j ∈ p1 → j ∉ p2) →
  length p1 ≤ g_n cfg → length p2 ≤ g_n cfg →
  ∃ cfg', partition cfg p1 p2 = Ok cfg' ∧ all_started cfg' ∧
    (∀ a b, a ∈ p1 ++ p2 → b ∈ p1 ++ p2 →
       linked cfg' a b = Some true ↔ (a ∈ p1 ∧ b ∈ p1) ∨ (a ∈ p2 ∧ b ∈ p2)) ∧
    (∀ a b, a < g_n cfg → b < g_n cfg → a ∉ p1 ++ p2 ∨ b ∉ p1 ++ p2 → linked cfg' a b = linked cfg a b) ∧
    (∀ e, (∀ a b, ¬ slot (g_endnames cfg) a b e) → enabled (g_net cfg') !! e = enabled (g_net cfg) !! e).
Proof.
  intros Hst Hr Hdis Hl1 Hl2. unfold partition.
  destruct (side_loop cfg p1 p1 p2) as (cfg1 & -> & Hst1 & Hn1 & Hen1 & _ & Hrest1 & Hk1); [by auto..|]. res_simpl.
  destruct (side_loop cfg1 p2 p2 p1) as (cfg2 & Heq & Hst2 & Hn2 & Hen2 & _ & Hrest2 & Hk2);
    [done|done|by intros j H2 H1; apply (Hdis j)|rewrite Hn1; naive_solver|by rewrite Hn1|].
  exists cfg2. split; [exact Heq|]. split_and!; [done|..].
  - intros a b. rewrite !elem_of_app. intros Ha Hb.
    rewrite Hk2, Hk1 by (rewrite ?Hn1; by apply Hr).
    pose proof (Hdis a). pose proof (Hdis b). repeat case_decide; naive_solver.
  - intros a b Ha Hb. rewrite !elem_of_app. intros Hno. rewrite Hk2, Hk1 by (by rewrite ?Hn1). rewrite !decide_False; naive_solver.
  - intros e Hno. rewrite Hrest2 by (by rewrite Hen1). by apply Hrest1.
Qed.

(** ** The sides that make_partition picks *)

Definition others (n l : nat) : list nat := filter (λ i, i ≠ l) (seq 0 n).

(** The array [p] of length [k] after the elements of [xs] were stored from
    the front. *)
Definition filled (k : nat) (xs : list nat) : list nat := resize k 0 xs.

Lemma filled_length k xs : length (filled k xs) = k.
Proof. apply length_resize. Qed.

Lemma filled_put k xs x : length xs < k → put_ (filled k xs) (length xs) x = Ok (filled k (xs ++ [x])).
Proof.
  intros Hk. unfold filled. rewrite put_Ok by (by rewrite length_resize). f_equal.
  rewrite !resize_spec, !take_ge, insert_app_r_alt, Nat.sub_diag by (rewrite ?length_app; simpl; lia).
  rewrite <-app_assoc. f_equal. rewrite length_app. simpl. replace (k - length xs) with (S (k - (length xs + 1))) by lia. done.
Qed.

Lemma filled_last k xs x : length xs ≤ k → <[k := x]> (filled (S k) xs) = filled k xs ++ [x].
Proof.
  intros Hk. unfold filled. rewrite !resize_spec, !take_ge by lia.
  replace (S k - length xs) with ((k - length xs) + 1) by lia. rewrite replicate_add, app_assoc.
  rewrite insert_app_r_alt by (rewrite length_app, length_replicate; lia). f_equal.
  rewrite length_app, length_replicate. by replace (k - (length xs + (k - length xs))) with 0 by lia.
Qed.

Lemma others_S n l : others (S n) l = others n l ++ (if decide (n = l) then [] else [n]).
Proof.
  unfold others. rewrite seq_S, filter_app. f_equal. rewrite filter_cons, filter_nil. simpl. repeat case_decide; naive_solver.
Qed.

Lemma others_length n l : length (others n l) = if decide (l < n) then n - 1 else n.
Proof.
  induction n as [|n IH]; [by rewrite decide_False by lia|]. rewrite others_S, length_app, IH.
  repeat case_decide; simpl; lia.
Qed.

Lemma split_loop (m l k1 k2 : nat) :
  length (others m l) ≤ k1 + k2 →
  foldM (λ '(p1, p2, j) i,
    if bool_decide (i ≠ l) then
      if bool_decide (j < length p1) then p1 ← put_ p1 j i; Ok (p1, p2, S j)
      else p2 ← put_ p2 (j - length p1) i; Ok (p1, p2, S j)
    else Ok (p1, p2, j)) (replicate k1 0, replicate k2 0, 0) (seq 0 m) =
  Ok (filled k1 (others m l), filled k2 (drop k1 (others m l)), length (others m l)).
Proof.
  induction m as [|m IH]; intros Hm.
  { change (others 0 l) with (@nil nat). unfold filled. by rewrite drop_nil, !resize_nil. }
  rewrite others_S in *. rewrite length_app in Hm. rewrite seq_S, foldM_app, IH by lia. res_simpl. cbn [foldM].
  destruct (decide (m = l)) as [->|Hne].
  { rewrite bool_decide_false by tauto. res_simpl. by rewrite app_nil_r. }
  rewrite bool_decide_true by done. rewrite filled_length. simpl in Hm.
  case_bool_decide as Hj.
  - rewrite filled_put by done. res_simpl. rewrite length_app. simpl. rewrite Nat.add_1_r.
    rewrite !drop_ge by (rewrite ?length_app; simpl; lia). done.
  - replace (length (others m l) - k1) with (length (drop k1 (others m l))) by (rewrite length_drop; lia).
    rewrite filled_put by (rewrite length_drop; lia). res_simpl. rewrite length_app. simpl. rewrite Nat.add_1_r.
    rewrite drop_app_le by lia. unfold filled. by rewrite (resize_app_le (others m l)) by lia.
Qed.

Lemma split_servers_spec n l :
  2 ≤ n → l < n →
  split_servers n l = Ok (filled (n / 2 + 1) (others n l), filled (n / 2 - 1) (drop (n / 2 + 1) (others n l)) ++ [l]).
Proof.
  intros Hn Hl. pose proof (Nat.div_mod_eq n 2). pose proof (Nat.mod_upper_bound n 2).
  assert (Hlen : length (others n l) = n - 1) by (by rewrite others_length, decide_True).
  unfold split_servers. rewrite split_loop by lia. res_simpl.
  rewrite filled_length, bool_decide_false by lia. rewrite put_Ok by (rewrite filled_length; lia). res_simpl. do 2 f_equal.
  assert (Hk : n / 2 = S (n / 2 - 1)) by lia. rewrite Hk at 1 2. rewrite Nat.sub_1_r. cbn [pred].
  apply filled_last. rewrite length_drop. lia.
Qed.

(** ** Clerks *)

(** A new clerk.  With fresh names, [makeClient] returns; the clerk has a
    handle for every server, in some order, its end to server [j] is connected
    to server [j] and enabled iff [j] is in [to], and no other end changes. *)
Theorem makeClient_spec cfg ck names js to :
  freshNames (g_n cfg) names (g_net cfg) → (∀ i, js i ≤ i) → (∀ j, j ∈ to → j < g_n cfg) →
  ∃ cfg' handles, makeClient cfg ck names js to = Ok (cfg', handles) ∧ handles ≡ₚ names ∧
    g_clerks cfg' = <[ck := names]> (g_clerks cfg) ∧
    (∀ j e, names !! j = Some e →
       connections (g_net cfg') !! e = Some (Some (gserver j)) ∧ enabled (g_net cfg') !! e = Some (bool_decide (j ∈ to))) ∧
    (∀ e, e ∉ names → enabled (g_net cfg') !! e = enabled (g_net cfg) !! e ∧
                       connections (g_net cfg') !! e = connections (g_net cfg) !! e).
Proof.
  intros (Hlen & Hnd & Hnew) Hjs Hto. unfold makeClient. pose proof (zip_targets (g_n cfg) gserver names Hlen) as Hz.
  destruct (makeEnds_spec (g_net cfg) (zip names (gserver <$> seq 0 (g_n cfg)))) as (net & -> & He & Hs & Hen & Hc & Hc');
    rewrite ?Hz in *; [done..|]. res_simpl.
  destruct (random_handles_perm names js Hjs) as (handles & -> & Hp). res_simpl. set (cfg1 := g_set_clerks _ _ _).
  unfold ConnectClientUnlocked. rewrite (loop_enable _ (λ t, names !! t) true).
  2:{ intros net' t Ht. unfold clerkEnds. simpl. rewrite lookup_insert_eq. simpl.
      destruct (lookup_lt_is_Some_2 names t) as [e Het]; [rewrite Hlen; by apply Hto|]. by rewrite (at_Some _ _ _ Het), Het. }
  res_simpl. do 2 eexists. split; [done|]. split; [done|]. split; [done|]. simpl.
  rewrite (proj2 (proj2 (enableAll_rest _ _ _))). split.
  - intros j e Hj. split.
    + apply Hc', list_elem_of_lookup. exists j. apply lookup_zip_with_Some. exists e, (gserver j). split_and!; [done..|].
      rewrite list_lookup_fmap, lookup_seq_lt; [done|]. rewrite <-Hlen. by eapply lookup_lt_Some.
    + rewrite enableAll_enabled, Hen, (decide_True (P := e ∈ names)) by (by eapply list_elem_of_lookup_2).
      assert (Hm : e ∈ omap (λ t, names !! t) to ↔ j ∈ to).
      { rewrite list_elem_of_omap. split; [|by exists j]. intros (t & Ht & Het). by rewrite (NoDup_lookup _ _ _ _ Hnd Hj Het). }
      case_decide; case_bool_decide; tauto.
  - intros e Hno. split; [|by apply Hc]. rewrite enableAll_enabled, Hen, (decide_False (P := e ∈ names)) by done.
    rewrite decide_False; [done|]. rewrite list_elem_of_omap. intros (t & _ & Ht). by eapply Hno, list_elem_of_lookup_2.
Qed.

(** ** Shutting down and starting *)

Definition gcontent cfg (i : nat) : option Persister := a ← g_saved cfg !! i; p ← a; g_heap cfg !! p.

Record g_wf cfg : Prop := {
  gw_started : all_started cfg;
  gw_servers : length (g_servers cfg) = g_n cfg;
  gw_saved : length (g_saved cfg) = g_n cfg;
  gw_alloc : ∀ i a, g_saved cfg !! i = Some (Some a) → a < length (g_heap cfg);
}.

Lemma gsave_spec cfg i p :
  length (g_saved cfg) = g_n cfg → i < g_n cfg → (∀ i a, g_saved cfg !! i = Some (Some a) → a < length (g_heap cfg)) →
  let cfg' := g_set_saved (<[i := Some (length (g_heap cfg))]> (g_saved cfg)) (g_heap cfg ++ [p]) cfg in
  gsave cfg i p = Ok cfg' ∧ gcontent cfg' i = Some p ∧ (∀ j, j ≠ i → gcontent cfg' j = gcontent cfg j) ∧
  g_saved cfg' !! i = Some (Some (length (g_heap cfg))) ∧
  ∀ j a, g_saved cfg' !! j = Some (Some a) → a < length (g_heap cfg').
Proof.
  intros Hlen Hi Hal cfg'. unfold gsave. cbn [new_]. rewrite put_Ok by lia. split; [done|].
  assert (Hsi : g_saved cfg' !! i = Some (Some (length (g_heap cfg)))) by (simpl; apply list_lookup_insert_eq; lia).
  split_and!; [| |done|].
  - unfold gcontent. rewrite Hsi. simpl. by rewrite lookup_app_r, Nat.sub_diag.
  - intros j Hj. unfold gcontent. simpl. rewrite list_lookup_insert_ne by done.
    destruct (g_saved cfg !! j) as [[a|]|] eqn:E; [|done..]. simpl. by rewrite lookup_app_l by (by eapply Hal).
  - intros j a. simpl. rewrite length_app. intros [(-> & [= <-] & _)|[_ Hj]]%list_lookup_insert_Some; [simpl; lia|].
    apply Hal in Hj. lia.
Qed.

(** After a shutdown nobody reaches the server and the server reaches nobody,
    it is unknown to the network, and what it had persisted is kept in a new
    object. *)
Lemma ShutdownServer_spec cfg i :
  g_wf cfg → i < g_n cfg →
  ∃ cfg', ShutdownServer cfg i = Ok cfg' ∧ g_wf cfg' ∧ g_n cfg' = g_n cfg ∧
    (∀ j, j < g_n cfg → linked cfg' i j = Some false ∧ linked cfg' j i = Some false) ∧
    servers (g_net cfg') !! gserver i = Some None ∧ g_servers cfg' !! i = Some None ∧
    (∀ j, gcontent cfg' j = gcontent cfg j) ∧ ends (g_net cfg') = ends (g_net cfg).
Proof.
  intros [Hst Hsv Hsa Hal] Hi. unfold ShutdownServer.
  destruct (disconnectUnlocked_eq cfg i (All cfg) Hst Hi) as (es & -> & Hes);
    [intros j Hj; unfold All in Hj; apply elem_of_seq in Hj; lia|unfold All; by rewrite length_seq|]. res_simpl.
  set (cfg1 := g_set_net (DeleteServer _ _) _).
  assert (Hst1 : all_started cfg1).
  { destruct (all_started_enable cfg es false Hst) as [W Hn]. split; [|done]. by eapply wired_ext; [..|exact W]. }
  assert (Hlink : ∀ j, j < g_n cfg → linked cfg1 i j = Some false ∧ linked cfg1 j i = Some false).
  { intros j Hj. unfold linked. change (g_endnames cfg1) with (g_endnames cfg).
    destruct (endname_started cfg i j Hst Hi Hj) as (e1 & -> & Hs1). destruct (endname_started cfg j i Hst Hj Hi) as (e2 & -> & Hs2).
    simpl. rewrite !enableAll_enabled, !decide_True; [done|apply Hes, (in_around cfg i _ j i e2 Hst Hs2)|apply Hes, (in_around cfg i _ i j e1 Hst Hs1)].
    - right. split; [done|]. unfold All. rewrite elem_of_seq. lia.
    - left. split; [done|]. unfold All. rewrite elem_of_seq. lia. }
  destruct (lookup_lt_is_Some_2 (g_saved cfg) i) as [sv Ha]; [lia|]. change (g_saved cfg1) with (g_saved cfg).
  rewrite (at_Some _ _ _ Ha). res_simpl.
  assert (H2 : ∃ saved heap, match sv with Some a => p ← gderef cfg1 a; gsave cfg1 i (Persister.Copy p) | None => Ok cfg1 end
            = Ok (g_set_saved saved heap cfg1) ∧ length saved = g_n cfg ∧
          (∀ j a, saved !! j = Some (Some a) → a < length heap) ∧ ∀ j, gcontent (g_set_saved saved heap cfg1) j = gcontent cfg j).
  { destruct sv as [a|]; [|by exists (g_saved cfg), (g_heap cfg)].
    destruct (lookup_lt_is_Some_2 (g_heap cfg) a) as [p Hp]; [by eapply Hal|].
    unfold gderef. change (g_heap cfg1) with (g_heap cfg). rewrite (at_Some _ _ _ Hp). res_simpl.
    replace (Persister.Copy p) with p by (by destruct p).
    destruct (gsave_spec cfg1 i p) as (-> & Hci & Hcj & _ & Hal'); [done..|]. do 2 eexists.
    split; [done|]. split; [simpl; by rewrite length_insert|]. split; [done|]. intros j.
    destruct (decide (j = i)) as [->|]; [|by rewrite Hcj]. rewrite Hci. unfold gcontent. by rewrite Ha. }
  destruct H2 as (saved & heap & -> & Hl2 & Hal2 & Hc2). res_simpl. simpl.
  destruct (lookup_lt_is_Some_2 (g_servers cfg) i) as [kv Hkv]; [lia|]. rewrite (at_Some _ _ _ Hkv). res_simpl.
  destruct kv as [kv|]; [rewrite put_Ok by lia; res_simpl|]; eexists; (split; [done|]); split_and!; try done; simpl;
    rewrite ?lookup_insert_eq; try done; try apply enableAll_rest.
  - split; try done. simpl. by rewrite length_insert.
  - apply list_lookup_insert_eq. lia.
Qed.
End KVHarness.

Arguments gconfig Srv : clear implicits.

(** ** With the servers *)

Section Servers.
Context {Srv : Type} (kill : Srv → Srv) (start : nat → Z → Persister → Res Srv).
Context (leads : Srv → bool) (leads_nil : Res bool).
Implicit Types cfg : gconfig Srv.

(** If restart servers, first call ShutdownServer *)
Definition StartServer cfg (i : nat) (names : list NetName) : Res (gconfig Srv) :=
  endnames ← put_ (g_endnames cfg) i (Some names);
  let cfg := g_set_endnames endnames cfg in
  net ← makeEnds (g_net cfg) (zip names (gserver <$> seq 0 (g_n cfg)));
  let cfg := g_set_net net cfg in
  sv ← at_ (g_saved cfg) i;
  cfg ← match sv with
        | Some a => p ← gderef cfg a; gsave cfg i (Persister.Copy p)
        | None => gsave cfg i Persister.MakePersister
        end;
  sv ← at_ (g_saved cfg) i;
  match sv with
  | Some a =>
      p ← gderef cfg a;
      srv ← start (g_n cfg) (Z.of_nat i) p;
      servers ← put_ (g_servers cfg) i (Some srv);
      Ok (g_set_nsrv (S (g_nsrv cfg)) (g_set_net (AddServer (g_net cfg) (gserver i) (g_nsrv cfg)) (g_set_servers servers cfg)))
  | None => Panic
  end.

(** The first server that says it is leader; (false, 0) if none does. *)
Definition Leader cfg : Res (bool * nat) :=
  foldM (λ '(found, l) i,
    if found : bool then Ok (found, l) else
    srv ← at_ (g_servers cfg) i;
    b ← match srv with Some srv => Ok (leads srv) | None => leads_nil end;
    Ok (if b : bool then (true, i) else (false, l))) (false, 0) (seq 0 (g_n cfg)).

Definition make_partition cfg : Res (list nat * list nat) :=
  '(_, l) ← Leader cfg;
  split_servers (g_n cfg) l.

Definition cleanup cfg : Res (gconfig Srv) :=
  let servers := map (option_map kill) (g_servers cfg) in
  net ← Cleanup (g_net cfg);
  Ok (g_set_net net (g_set_servers servers cfg)).

(** [names i]: the end names of server [i]. *)
Definition make_config (n : nat) (unreliable : bool) (names : nat → list NetName) : Res (gconfig Srv) :=
  let cfg := mkGconfig MakeNetwork n (replicate n None) (replicate n None) (replicate n None) ∅
               (Z.of_nat n + 1000) [] 0 in
  cfg ← foldM (λ cfg i, StartServer cfg i (names i)) cfg (seq 0 n);
  cfg ← ConnectAll cfg;
  Ok (g_set_net (Reliable (g_net cfg) (negb unreliable)) cfg).

(** The sides that [make_partition] picks, for at least two servers.  The
    first has one more than half of the servers, the second half, and the
    leader is in the second.  For an odd number of servers they are a
    partition.  For an even number the two sides together name every server
    and server 0 once more: it is the slot that nothing was written to.  So
    from four servers on, server 0 is on both sides unless it is the leader
    (and then it is named twice on the second side). *)
Theorem make_partition_spec cfg found l :
  Leader cfg = Ok (found, l) → l < g_n cfg → 2 ≤ g_n cfg →
  ∃ p1 p2, make_partition cfg = Ok (p1, p2) ∧ length p1 = g_n cfg / 2 + 1 ∧ length p2 = g_n cfg / 2 ∧ l ∈ p2 ∧
    p1 ++ p2 ≡ₚ (if bool_decide (g_n cfg mod 2 = 0) then [0] else []) ++ seq 0 (g_n cfg) ∧
    (g_n cfg mod 2 = 0 → 4 ≤ g_n cfg → l ≠ 0 → 0 ∈ p1 ∧ 0 ∈ p2).
Proof.
  intros Hld Hl Hn. unfold make_partition. rewrite Hld. res_simpl. set (n := g_n cfg) in *.
  pose proof (Nat.div_mod_eq n 2). pose proof (Nat.mod_upper_bound n 2).
  assert (Hlen : length (others n l) = n - 1) by (by rewrite others_length, decide_True).
  rewrite split_servers_spec by done. do 2 eexists. split; [done|].
  rewrite length_app, !filled_length. split_and!; [done|cbn [length]; lia|apply elem_of_app; right; left|..].
  - unfold filled. rewrite !resize_spec. rewrite (take_ge (drop _ _)) by (rewrite length_drop; lia). rewrite length_drop, Hlen.
    assert (Hzeros : replicate (n / 2 + 1 - (n - 1)) 0 ++ replicate (n / 2 - 1 - (n - 1 - (n / 2 + 1))) 0 =
      if bool_decide (n mod 2 = 0) then [0] else []).
    { rewrite <-replicate_add. case_bool_decide.
      - replace (n / 2 + 1 - (n - 1) + (n / 2 - 1 - (n - 1 - (n / 2 + 1)))) with 1 by lia. done.
      - replace (n / 2 + 1 - (n - 1) + (n / 2 - 1 - (n - 1 - (n / 2 + 1)))) with 0 by lia. done. }
    rewrite <-Hzeros. clear Hzeros. set (z1 := replicate _ 0). set (z2 := replicate _ 0).
    assert (Hl1 : seq 0 n ≡ₚ others n l ++ [l]).
    { rewrite <-(filter_app_complement (λ i, i ≠ l) (seq 0 n)). fold (others n l). apply Permutation_app_head.
      assert (Hf : filter (λ i, ¬ i ≠ l) (seq 0 n) ≡ₚ [l]); [|done].
      apply NoDup_Permutation; [apply NoDup_filter, NoDup_seq|apply NoDup_singleton|].
      intros x. rewrite list_elem_of_filter, elem_of_seq, list_elem_of_singleton. split; [|intros ->; lia].
      intros [? _]. by destruct (decide (x = l)). }
    rewrite Hl1. rewrite <-(take_drop (n / 2 + 1) (others n l)) at 3. solve_Permutation.
  - intros Heven Hn4 Hl0. unfold filled. rewrite !resize_spec. split.
    + apply elem_of_app. left. assert (Hfst : others n l !! 0 = Some 0).
      { unfold others. destruct n as [|n']; [lia|]. simpl. rewrite filter_cons. by rewrite decide_True. }
      apply (list_elem_of_lookup_2 _ 0). by rewrite lookup_take_lt by lia.
    + rewrite length_drop, Hlen. apply elem_of_app. left. apply elem_of_app. right.
      replace (n / 2 - 1 - (n - 1 - (n / 2 + 1))) with 1 by lia. left.
Qed.

(** ** What a start leaves *)

Record g_base cfg : Prop := {
  gb_wired : wired (g_n cfg) gserver (g_net cfg) (g_endnames cfg);
  gb_servers : length (g_servers cfg) = g_n cfg;
  gb_saved : length (g_saved cfg) = g_n cfg;
  gb_alloc : ∀ i a, g_saved cfg !! i = Some (Some a) → a < length (g_heap cfg);
}.

(** The persister that [StartServer] hands over. *)
Definition handed cfg (i : nat) : Persister := default Persister.MakePersister (gcontent cfg i).

Lemma StartServer_spec cfg i names srv :
  g_base cfg → i < g_n cfg → freshNames (g_n cfg) names (g_net cfg) →
  start (g_n cfg) (Z.of_nat i) (handed cfg i) = Ok srv →
  ∃ cfg', StartServer cfg i names = Ok cfg' ∧ g_base cfg' ∧ g_n cfg' = g_n cfg ∧
    g_endnames cfg' = <[i := Some names]> (g_endnames cfg) ∧ g_servers cfg' = <[i := Some srv]> (g_servers cfg) ∧
    (∀ e, e ∈ ends (g_net cfg') ↔ e ∈ names ∨ e ∈ ends (g_net cfg)) ∧
    (∀ e, enabled (g_net cfg') !! e = if decide (e ∈ names) then Some false else enabled (g_net cfg) !! e) ∧
    servers (g_net cfg') = <[gserver i := Some (g_nsrv cfg)]> (servers (g_net cfg)) ∧
    gcontent cfg' i = Some (handed cfg i) ∧ ∀ j, j ≠ i → gcontent cfg' j = gcontent cfg j.
Proof.
  intros [W Hsv Hsa Hal] Hi Hnew Hstart. unfold StartServer.
  rewrite put_Ok by (rewrite (w_len _ _ _ _ W); lia). res_simpl. cbn [g_net g_n g_set_endnames].
  destruct (wired_fresh _ _ _ _ i names W Hi Hnew) as (net & -> & Hw & Hs & He & Hen). res_simpl.
  set (cfg1 := g_set_net net _). change (g_saved cfg1) with (g_saved cfg).
  destruct (lookup_lt_is_Some_2 (g_saved cfg) i) as [sv Ha]; [lia|]. rewrite (at_Some _ _ _ Ha). res_simpl.
  destruct (gsave_spec cfg1 i (handed cfg i)) as (Hg & Hci & Hcj & Hsi & Hal'); [done..|].
  assert (match sv with Some a => p ← gderef cfg1 a; gsave cfg1 i (Persister.Copy p) | None => gsave cfg1 i Persister.MakePersister end
    = gsave cfg1 i (handed cfg i)) as ->.
  { unfold handed, gcontent. rewrite Ha. destruct sv as [a|]; [|done]. simpl.
    destruct (lookup_lt_is_Some_2 (g_heap cfg) a) as [p Hp]; [by eapply Hal|].
    unfold gderef. change (g_heap cfg1) with (g_heap cfg). rewrite (at_Some _ _ _ Hp), Hp. simpl. by destruct p. }
  rewrite Hg. res_simpl. rewrite (at_Some _ _ _ Hsi). res_simpl. pose proof Hci as Hci0. unfold gcontent in Hci. rewrite Hsi in Hci. cbn [mbind option_bind] in Hci.
  unfold gderef. rewrite (at_Some _ _ _ Hci). res_simpl. change (g_n (g_set_saved _ _ cfg1)) with (g_n cfg). rewrite Hstart. res_simpl.
  rewrite put_Ok by (simpl; lia). res_simpl. eexists. split; [done|]. split_and!; try done; [|simpl; by rewrite Hs].
  split; simpl; [|by rewrite length_insert..|done]. by eapply wired_ext; [..|exact Hw].
Qed.

Lemma wf_base cfg : g_wf cfg → g_base cfg.
Proof. intros [[? ?] ? ? ?]. by split. Qed.

(** A server that is shut down and started again.  It is made from what it
    had persisted when it was shut down, by whatever object was its persister
    then, and until it is connected again it neither reaches another server nor
    is reached. *)
Theorem service_restart cfg i names srv :
  g_wf cfg → i < g_n cfg → freshNames (g_n cfg) names (g_net cfg) →
  start (g_n cfg) (Z.of_nat i) (handed cfg i) = Ok srv →
  ∃ cfg1 cfg2, ShutdownServer cfg i = Ok cfg1 ∧ StartServer cfg1 i names = Ok cfg2 ∧ g_wf cfg2 ∧
    g_servers cfg2 !! i = Some (Some srv) ∧ gcontent cfg2 i = Some (handed cfg i) ∧
    (∃ k, servers (g_net cfg2) !! gserver i = Some (Some k)) ∧
    ∀ j, j < g_n cfg → linked cfg2 i j = Some false ∧ linked cfg2 j i = Some false.
Proof.
  intros Hwf Hi (Hlen & Hnd & Hnew) Hstart.
  destruct (ShutdownServer_spec cfg i Hwf Hi) as (cfg1 & Hsd & Hwf1 & Hn1 & Hl1 & _ & _ & Hc1 & He1).
  destruct (StartServer_spec cfg1 i names srv) as (cfg2 & Hst & Hb & Hn2 & Hen2 & Hsv2 & He2 & Hena2 & Hs2 & Hc2 & _).
  { by apply wf_base. } { lia. } { rewrite Hn1. split_and!; [done..|]. intros e. rewrite He1. apply Hnew. }
  { unfold handed. by rewrite Hc1, Hn1. }
  exists cfg1, cfg2. split; [done|]. split; [done|].
  assert (Hall : all_started cfg2).
  { split; [apply Hb|]. intros j. rewrite Hen2. intros [(_ & ? & _)|[_ Hj]]%list_lookup_insert_Some; [done|].
    by apply (proj2 (gw_started _ Hwf1) j). }
  split_and!.
  - destruct Hb. by split.
  - rewrite Hsv2. apply list_lookup_insert_eq. rewrite (gw_servers _ Hwf1). lia.
  - rewrite Hc2. unfold handed. by rewrite Hc1.
  - rewrite Hs2. eexists. apply lookup_insert_eq.
  - intros j Hj. destruct (Hl1 j Hj) as [Hij Hji].
    assert (Hrow : ∀ k, k < g_n cfg → linked cfg2 i k = Some false).
    { intros k Hk. unfold linked. destruct (endname_started cfg2 i k Hall) as (e & -> & Hs); [lia..|]. rewrite Hena2, decide_True; [done|].
      rewrite Hen2 in Hs. apply slot_insert in Hs as [[_ Hs]|[? _]]; [by eapply list_elem_of_lookup_2|done]. }
    split; [by apply Hrow|]. destruct (decide (j = i)) as [->|Hne]; [by apply Hrow|]. unfold linked in *.
    assert (Heq : endname (g_endnames cfg2) j i = endname (g_endnames cfg1) j i)
      by (unfold endname, at_; by rewrite Hen2, list_lookup_insert_ne by done).
    rewrite Heq. destruct (endname_started cfg1 j i (gw_started _ Hwf1)) as (e & Hee & Hs); [lia..|]. rewrite Hee in *.
    rewrite Hena2, decide_False; [done|]. intros He%Hnew. apply He. rewrite <-He1. by eapply (w_ends _ _ _ _ (proj1 (gw_started _ Hwf1))).
Qed.

(** ** A new tester *)

(** The random names of the ends are all different. *)
Definition distinctNames (n : nat) (names : nat → list NetName) : Prop :=
  ∀ i, i < n → length (names i) = n ∧ NoDup (names i) ∧ ∀ j e, j < n → e ∈ names i → e ∈ names j → i = j.

(** The first [k] servers are started. *)
Record booted (n k : nat) (names : nat → list NetName) cfg : Prop := {
  bo_base : g_base cfg;
  bo_n : g_n cfg = n;
  bo_ends : ∀ e, e ∈ ends (g_net cfg) → ∃ j, j < k ∧ e ∈ names j;
  bo_names : ∀ i, i < k → g_endnames cfg !! i = Some (Some (names i));
  bo_servers : ∀ i, i < k → ∃ srv, g_servers cfg !! i = Some (Some srv) ∧ start n (Z.of_nat i) Persister.MakePersister = Ok srv;
  bo_none : ∀ i, k ≤ i → gcontent cfg i = None;
}.

Lemma boot_loop n names k cfg :
  distinctNames n names → (∀ i, i < n → ∃ srv, start n (Z.of_nat i) Persister.MakePersister = Ok srv) →
  k ≤ n → booted n 0 names cfg →
  ∃ cfg', foldM (λ cfg i, StartServer cfg i (names i)) cfg (seq 0 k) = Ok cfg' ∧ booted n k names cfg'.
Proof.
  intros Hd Hstart Hk H0. induction k as [|k IH]; [by exists cfg|].
  destruct IH as (cfg1 & Hl & [Hb Hn He Hnm Hsv Hno]); [lia|]. rewrite seq_S, foldM_app, Hl. res_simpl. cbn [foldM]. change (0 + k) with k.
  destruct (Hstart k Hk) as [srv Hsrv]. destruct (Hd k Hk) as (Hlen & Hnd & Hdis).
  assert (Hhand : handed cfg1 k = Persister.MakePersister) by (unfold handed; by rewrite Hno).
  destruct (StartServer_spec cfg1 k (names k) srv) as (cfg2 & -> & Hb2 & Hn2 & Hen2 & Hsv2 & He2 & _ & _ & _ & Hc2);
    [done|lia| |by rewrite Hhand, Hn|].
  { rewrite Hn. split_and!; [done..|]. intros e Hin (j & Hj & Hin')%He. assert (k = j); [eapply Hdis; [|done..]; lia|lia]. }
  res_simpl. exists cfg2. split; [done|]. split.
  - done.
  - lia.
  - intros e [?|(j & ? & ?)%He]%He2; [exists k|exists j]; split; (done || lia).
  - intros i Hi. rewrite Hen2. destruct (decide (i = k)) as [->|]; [apply list_lookup_insert_eq; rewrite (w_len _ _ _ _ (gb_wired _ Hb)); lia|].
    rewrite list_lookup_insert_ne by done. apply Hnm. lia.
  - intros i Hi. rewrite Hsv2. destruct (decide (i = k)) as [->|].
    + exists srv. split; [apply list_lookup_insert_eq; rewrite (gb_servers _ Hb); lia|done].
    + rewrite list_lookup_insert_ne by done. apply Hsv. lia.
  - intros i Hi. rewrite Hc2 by lia. apply Hno. lia.
Qed.

Lemma connect_loop cfg k :
  all_started cfg → k ≤ g_n cfg →
  ∃ es, foldM (λ cfg i, connectUnlocked cfg i (All cfg)) cfg (seq 0 k) = Ok (g_set_net (enableAll (g_net cfg) es true) cfg) ∧
    ∀ a b e, slot (g_endnames cfg) a b e → a < k → e ∈ es.
Proof.
  intros Hst. induction k as [|k IH]; intros Hk.
  { exists []. split; [by destruct cfg|lia]. }
  destruct IH as (es & Hl & Hes); [lia|]. rewrite seq_S, foldM_app, Hl. res_simpl. cbn [foldM]. change (0 + k) with k.
  set (cfg1 := g_set_net _ cfg). assert (Hst1 : all_started cfg1) by (by apply all_started_enable).
  rewrite connectUnlocked_eq; [|done|done|intros j Hj; unfold All in Hj; apply elem_of_seq in Hj; simpl in *; lia]. res_simpl.
  exists (es ++ around cfg1 k (All cfg1)). rewrite enableAll_app. split; [done|].
  intros a b e Hs Ha. apply elem_of_app. destruct (decide (a = k)) as [->|]; [right|left; eapply Hes; [done|lia]].
  apply (in_around cfg1 k _ k b e Hst1 Hs). left. split; [done|]. unfold All. rewrite elem_of_seq.
  destruct (slot_bounds _ _ _ _ _ _ _ (proj1 Hst) Hs). simpl. lia.
Qed.

(** With end names that are all different, and servers that
    start from an empty persister, [make_config] returns; every server runs, as
    started from an empty persister, and reaches every other. *)
Lemma make_config_spec n unreliable names :
  distinctNames n names → (∀ i, i < n → ∃ srv, start n (Z.of_nat i) Persister.MakePersister = Ok srv) →
  ∃ cfg, make_config n unreliable names = Ok cfg ∧ g_wf cfg ∧ g_n cfg = n ∧ reliable (g_net cfg) = negb unreliable ∧
    (∀ a b, a < n → b < n → linked cfg a b = Some true) ∧
    ∀ i, i < n → ∃ srv, g_servers cfg !! i = Some (Some srv) ∧ start n (Z.of_nat i) Persister.MakePersister = Ok srv.
Proof.
  intros Hd Hstart. unfold make_config. set (cfg0 := mkGconfig _ _ _ _ _ _ _ _ _).
  destruct (boot_loop n names n cfg0 Hd Hstart (le_n _)) as (cfg1 & -> & [Hb Hn He Hnm Hsv _]).
  { split; simpl; try done; try lia.
    - split; simpl; rewrite ?length_replicate; try done; [|by intros i a [? _]%lookup_replicate].
      split; rewrite ?length_replicate; try done; [by intros i names' [? _]%lookup_replicate|..];
        intros i j; [intros e|intros e|intros i' j' e]; by intros (? & [? _]%lookup_replicate & _).
    - intros i _. unfold gcontent. simpl. destruct (replicate n None !! i) as [x|] eqn:E; [|done]. by apply lookup_replicate in E as [-> _]. }
  assert (Hst : all_started cfg1).
  { split; [apply Hb|]. intros i Hi. assert (i < n) by (apply lookup_lt_Some in Hi; rewrite (w_len _ _ _ _ (gb_wired _ Hb)) in Hi; lia).
    by rewrite Hnm in Hi. }
  res_simpl. unfold ConnectAll. destruct (connect_loop cfg1 (g_n cfg1) Hst (le_n _)) as (es & -> & Hes). res_simpl.
  eexists. split; [done|]. simpl. split_and!; try done.
  - destruct (all_started_enable cfg1 es true Hst) as [W Hno]. destruct Hb. split; try done. split; [|done]. by eapply wired_ext; [..|exact W].
  - intros a b Ha Hb'. unfold linked. simpl. destruct (endname_started cfg1 a b Hst) as (e & -> & Hs); [lia..|].
    rewrite enableAll_enabled, decide_True; [done|]. eapply Hes; [done|lia].
Qed.
End Servers.
