(* ===== verification/KVTesters.v ===== *)
(** * The testers of the key/value service and of the shard controller
      (src/kvraft/config.go, src/shardctrler/config.go)

    The code of [KVHarness] with the two kinds of servers.  The testers differ
    in one place: [Leader] of kvraft follows the pointer of a server that is
    down. *)

From stdpp Require Import base list gmap sets strings.
From Stdlib Require Import ZArith Lia.
From S2P Require Import Prelude RaftLog RaftCore LabRPC Harness KVHarness KVRaft ShardConfig ShardCtrler.

#[local] Instance Res_bool_eq_dec : EqDecision (Res bool).
Proof. solve_decision. Defined.

(** ** Finding the leader *)

Section Leader.
Context {Srv : Type} (leads : Srv → bool) (leads_nil : Res bool).

(** What [Leader] learns of server [i]. *)
Definition asks (cfg : gconfig Srv) (i : nat) : Res bool :=
  srv ← at_ (g_servers cfg) i;
  match srv with Some srv => Ok (leads srv) | None => leads_nil end.

Lemma Leader_loop cfg (l : list nat) :
  foldM (λ '(found, l) i,
    if found : bool then Ok (found, l) else
    srv ← at_ (g_servers cfg) i;
    b ← match srv with Some srv => Ok (leads srv) | None => leads_nil end;
    Ok (if b : bool then (true, i) else (false, l))) (false, 0) l =
  match list_find (λ i, asks cfg i ≠ Ok false) l with
  | Some (_, i) => b ← asks cfg i; Ok (b, i)
  | None => Ok (false, 0)
  end.
Proof.
  assert (Hfound : ∀ (l : list nat) k, foldM (λ '(found, l) i,
    if found : bool then Ok (found, l) else
    srv ← at_ (g_servers cfg) i;
    b ← match srv with Some srv => Ok (leads srv) | None => leads_nil end;
    Ok (if b : bool then (true, i) else (false, l))) (true, k) l = Ok (true, k)).
  { clear l. intros l k. induction l as [|i l IH]; [done|]. simpl. apply IH. }
  induction l as [|i l IH]; [done|]. cbn [foldM list_find].
  assert (Ha : (srv ← at_ (g_servers cfg) i; b ← match srv with Some srv => Ok (leads srv) | None => leads_nil end;
      Ok (if b : bool then (true, i) else (false, 0))) = (b ← asks cfg i; Ok (if b : bool then (true, i) else (false, 0)))).
  { unfold asks. destruct (at_ (g_servers cfg) i) as [srv|]; res_simpl; done. }
  rewrite Ha. clear Ha. destruct (asks cfg i) as [[]|] eqn:E; res_simpl.
  - rewrite decide_True by done. rewrite Hfound, E. done.
  - rewrite decide_False by tauto. rewrite IH. by destruct (list_find _ l) as [[? ?]|].
  - rewrite decide_True by done. rewrite E. done.
Qed.

(** The first server that says it is leader, unless the search trips before. *)
Lemma Leader_first cfg :
  Leader leads leads_nil cfg =
  match list_find (λ i, asks cfg i ≠ Ok false) (seq 0 (g_n cfg)) with
  | Some (_, i) => b ← asks cfg i; Ok (b, i)
  | None => Ok (false, 0)
  end.
Proof. apply Leader_loop. Qed.

Lemma Leader_none cfg :
  (∀ i, i < g_n cfg → ∃ srv, g_servers cfg !! i = Some (Some srv) ∧ leads srv = false) → Leader leads leads_nil cfg = Ok (false, 0).
Proof.
  intros H. rewrite Leader_first. destruct (list_find _ _) as [[k i]|] eqn:E; [|done].
  apply list_find_Some in E as ([-> Hk]%lookup_seq & Ha & _). destruct (H (0 + k)) as (srv & Hs & Hl); [lia|].
  exfalso. apply Ha. unfold asks. by rewrite (at_Some _ _ _ Hs), <-Hl.
Qed.
End Leader.

(** ** kvraft *)

Module KVTester.
Section KVTester.
Context `{!Gob (PState Op)} (maxraftstate now : Z).

Abbreviation config := (gconfig KVServer).

Definition start (n : nat) (me_ : Z) (ps : Persister) : Res KVServer := StartKVServer n me_ ps maxraftstate now.
Definition leads (kv : KVServer) : bool := (GetState (kv_rf kv)).2.

(** [cfg.kvservers[i].rf] of a server that is down is a nil pointer. *)
Definition Leader : config → Res (bool * nat) := KVHarness.Leader leads Panic.
Definition make_partition : config → Res (list nat * list nat) := KVHarness.make_partition leads Panic.
Definition StartServer : config → nat → list NetName → Res config := KVHarness.StartServer start.
Definition cleanup : config → Res config := KVHarness.cleanup kv_Kill.
Definition make_config : nat → bool → (nat → list NetName) → Res config := KVHarness.make_config start.
End KVTester.
End KVTester.

(** ** shardctrler *)

Module CtrlerTester.
Section CtrlerTester.
Context `{!Gob (PState ScOp)} (now : Z).

Abbreviation config := (gconfig ShardCtrler).

Definition start (n : nat) (me_ : Z) (ps : Persister) : Res ShardCtrler := sc_StartServer n me_ ps now.
Definition leads (sc : ShardCtrler) : bool := (GetState (sc_rf sc)).2.

Definition connectUnlocked : config → nat → list nat → Res config := KVHarness.connectUnlocked.
Definition disconnectUnlocked : config → nat → list nat → Res config := KVHarness.disconnectUnlocked.
Definition All : config → list nat := KVHarness.All.
Definition ConnectAll : config → Res config := KVHarness.ConnectAll.
Definition partition : config → list nat → list nat → Res config := KVHarness.partition.
Definition makeClient : config → nat → list NetName → (nat → nat) → list nat → Res (config * list NetName) := KVHarness.makeClient.
Definition deleteClient : config → nat → config := KVHarness.deleteClient.
Definition ConnectClientUnlocked : config → nat → list nat → Res config := KVHarness.ConnectClientUnlocked.
Definition DisconnectClientUnlocked : config → nat → list nat → Res config := KVHarness.DisconnectClientUnlocked.
Definition ShutdownServer : config → nat → Res config := KVHarness.ShutdownServer.
Definition StartServer : config → nat → list NetName → Res config := KVHarness.StartServer start.

(** A server that is down is skipped. *)
Definition Leader : config → Res (bool * nat) := KVHarness.Leader leads (Ok false).
Definition make_partition : config → Res (list nat * list nat) := KVHarness.make_partition leads (Ok false).
Definition LogSize : config → Res Z := KVHarness.LogSize.
Definition cleanup : config → Res config := KVHarness.cleanup sc_Kill.
Definition make_config : nat → bool → (nat → list NetName) → Res config := KVHarness.make_config start.
End CtrlerTester.
End CtrlerTester.

(** ** The difference *)

(** A server that is down.  The tester of kvraft cannot look for the
    leader when the first server is down, whoever leads; the tester of
    shardctrler can, with any servers down, and picks sides. *)
Theorem leader_of_down `{!Gob (PState Op), !Gob (PState ScOp)} :
  (∀ cfg, 0 < g_n cfg → g_servers cfg !! 0 = Some None →
     KVTester.Leader cfg = Panic ∧ KVTester.make_partition cfg = Panic) ∧
  (∀ cfg, length (g_servers cfg) = g_n cfg → 2 ≤ g_n cfg →
     ∃ found l p1 p2, CtrlerTester.Leader cfg = Ok (found, l) ∧ l < g_n cfg ∧ CtrlerTester.make_partition cfg = Ok (p1, p2)).
Proof.
  split.
  - intros cfg Hn Hdown.
    assert (HL : KVTester.Leader cfg = Panic).
    { unfold KVTester.Leader. rewrite Leader_first. destruct (g_n cfg) as [|n]; [lia|]. cbn [seq list_find].
      assert (Ha : asks KVTester.leads Panic cfg 0 = Panic) by (unfold asks; by rewrite (at_Some _ _ _ Hdown)).
      rewrite Ha. rewrite decide_True by done. by rewrite Ha. }
    split; [done|]. unfold KVTester.make_partition, make_partition. by fold (KVTester.Leader cfg); rewrite HL.
  - intros cfg Hlen Hn.
    assert (HL : ∃ found l, CtrlerTester.Leader cfg = Ok (found, l) ∧ l < g_n cfg).
    { unfold CtrlerTester.Leader. rewrite Leader_first.
      destruct (list_find _ _) as [[k i]|] eqn:E; [|exists false, 0; split; [done|lia]].
      apply list_find_Some in E as (Hk%lookup_seq & Ha & _). destruct Hk as [-> Hk]. simpl in *.
      unfold asks in *. destruct (lookup_lt_is_Some_2 (g_servers cfg) k) as [srv Hs]; [lia|]. rewrite (at_Some _ _ _ Hs) in *.
      res_simpl. destruct srv as [sc|]; [|done]. exists (CtrlerTester.leads sc), k. done. }
    destruct HL as (found & l & HL & Hl).
    exists found, l. do 2 eexists. split; [done|]. split; [done|]. unfold CtrlerTester.make_partition, make_partition.
    unfold CtrlerTester.Leader in HL. rewrite HL. res_simpl. by apply split_servers_spec.
Qed.

(** ** New testers *)

Lemma fresh_follower {C} `{!Gob (PState C)} n i now (rf : Raft C) :
  Make n i Persister.MakePersister now = Ok rf → (GetState rf).2 = false.
Proof. rewrite Make_fresh. by intros [= <-]. Qed.

(** New testers.  With end names that are all different, [make_config] of
    both testers returns: every server runs and reaches every other one, and as
    nobody leads yet, [Leader] answers with server 0. *)
Theorem testers_start `{!Gob (PState Op), !Gob (PState ScOp)} max now n unreliable names :
  distinctNames n names →
  (∃ cfg, KVTester.make_config max now n unreliable names = Ok cfg ∧ g_n cfg = n ∧
     (∀ a b, a < n → b < n → linked cfg a b = Some true) ∧
     (∀ i, i < n → ∃ kv, g_servers cfg !! i = Some (Some kv)) ∧ KVTester.Leader cfg = Ok (false, 0)) ∧
  (∃ cfg, CtrlerTester.make_config now n unreliable names = Ok cfg ∧ g_n cfg = n ∧
     (∀ a b, a < n → b < n → linked cfg a b = Some true) ∧
     (∀ i, i < n → ∃ sc, g_servers cfg !! i = Some (Some sc)) ∧ CtrlerTester.Leader cfg = Ok (false, 0)).
Proof.
  intros Hd. split.
  - destruct (make_config_spec (KVTester.start max now) n unreliable names Hd) as (cfg & Hm & _ & Hn & _ & Hl & Hs).
    { intros i _. unfold KVTester.start, StartKVServer. rewrite Make_fresh. by eexists. }
    exists cfg. split_and!; [done..| |].
    + intros i Hi. destruct (Hs i Hi) as (kv & ? & _). by exists kv.
    + apply Leader_none. rewrite Hn. intros i Hi. destruct (Hs i Hi) as (kv & Hkv & Hst). exists kv. split; [done|].
      unfold KVTester.start, StartKVServer in Hst. destruct (Make _ _ _ _) as [rf|] eqn:E; [|done]. injection Hst as <-. by eapply fresh_follower.
  - destruct (make_config_spec (CtrlerTester.start now) n unreliable names Hd) as (cfg & Hm & _ & Hn & _ & Hl & Hs).
    { intros i _. unfold CtrlerTester.start, sc_StartServer. rewrite Make_fresh. by eexists. }
    exists cfg. split_and!; [done..| |].
    + intros i Hi. destruct (Hs i Hi) as (sc & ? & _). by exists sc.
    + apply Leader_none. rewrite Hn. intros i Hi. destruct (Hs i Hi) as (sc & Hsc & Hst). exists sc. split; [done|].
      unfold CtrlerTester.start, sc_StartServer in Hst. destruct (Make _ _ _ _) as [rf|] eqn:E; [|done]. injection Hst as <-. by eapply fresh_follower.
Qed.
