(* ===== verification/ServiceHarnessWitness.v ===== *)
(** * Concrete testers of the services

    The properties of [KVHarness], [KVTesters] and [ShardHarness] at concrete
    testers: three key/value servers, and three groups of three shard servers
    with three controllers. *)

From stdpp Require Import base list gmap sets strings countable.
From Stdlib Require Import ZArith Lia.
From S2P Require Import Prelude Runes RaftLog RaftCore LabRPC Harness HarnessWitness KVHarness KVRaft ShardConfig ShardCtrler ShardKV KVTesters.

#[local] Instance gobOp : Gob (PState Op) := {| gob_encode _ := [Byte.x00]; gob_decode _ := None |}.
#[local] Instance gobSc : Gob (PState ScOp) := {| gob_encode _ := [Byte.x00]; gob_decode _ := None |}.

Lemma wnames_nodup n k : NoDup (wnames n k).
Proof. apply NoDup_fmap_2_strong; [|apply NoDup_seq]. intros i j _ _ [= ?]. lia. Qed.

Lemma wnames_distinct n : distinctNames n (wnames n).
Proof.
  intros i Hi. unfold wnames. split; [by rewrite length_fmap, length_seq|]. split.
  - apply NoDup_fmap_2_strong; [|apply NoDup_seq]. intros j k _ _ [= ?]. lia.
  - intros j e Hj (a & -> & Ha%elem_of_seq)%list_elem_of_fmap (b & [= Heq] & Hb%elem_of_seq)%list_elem_of_fmap. nia.
Qed.

Lemma testers_start_witness : ∃ cfg, KVTester.make_config (-1) 0 3 true (wnames 3) = Ok cfg ∧ linked cfg 0 2 = Some true.
Proof.
  destruct (testers_start (-1) 0 3 true (wnames 3) (wnames_distinct 3)) as [(cfg & Hm & _ & Hl & _) _].
  exists cfg. split; [done|]. apply Hl; lia.
Defined.

(** ** Three key/value servers *)

Definition kstart : nat → Z → Persister → Res KVServer := KVTester.start (-1) 0.

Lemma kv_tester : ∃ cfg, make_config kstart 3 false (wnames 3) = Ok cfg ∧ g_wf cfg ∧ g_n cfg = 3 ∧
  ∀ e, e ∈ wnames 3 3 → e ∉ ends (g_net cfg).
Proof.
  destruct (make_config_spec kstart 3 false (wnames 3) (wnames_distinct 3)) as (cfg & Hm & Hwf & Hn & _).
  { intros i _. unfold kstart, KVTester.start, StartKVServer. rewrite Make_fresh. by eexists. }
  exists cfg. split_and!; [done..|]. assert (Hc : bool_decide ((list_to_set (wnames 3 3) : gset NetName) ## match make_config kstart 3 false (wnames 3) with
    Ok cfg => ends (g_net cfg) | Panic => ∅ end) = true) by (by vm_compute).
  apply bool_decide_eq_true in Hc. rewrite Hm in Hc. intros e He. refine (proj1 (elem_of_disjoint _ _) Hc e _). by apply elem_of_list_to_set.
Qed.

Lemma partition_cuts_witness : ∃ cfg cfg' : gconfig KVServer,
  all_started cfg ∧ partition cfg [0; 1] [2] = Ok cfg' ∧ linked cfg' 0 1 = Some true ∧ linked cfg' 1 2 ≠ Some true.
Proof.
  destruct kv_tester as (cfg & _ & Hwf & Hn & _).
  destruct (partition_cuts cfg [0; 1] [2] (gw_started _ Hwf)) as (cfg' & Hp & _ & Hl & _);
    [rewrite Hn; set_solver by lia|set_solver by lia|rewrite Hn; simpl; lia..|].
  exists cfg, cfg'. split; [apply Hwf|]. split; [done|]. split.
  - apply Hl; set_solver.
  - intros [[_ ?]|[? _]]%Hl; set_solver.
Defined.

(** Nobody leads yet: [Leader] answers 0, and server 0 is in the minority. *)
Lemma make_partition_spec_witness : ∃ cfg p1 p2,
  make_config kstart 3 false (wnames 3) = Ok cfg ∧ make_partition KVTester.leads Panic cfg = Ok (p1, p2) ∧ length p1 = 2 ∧ 0 ∈ p2.
Proof.
  destruct kv_tester as (cfg & Hm & Hwf & Hn & _).
  assert (Hl : match make_config kstart 3 false (wnames 3) with Ok cfg => Leader KVTester.leads Panic cfg | Panic => Panic end
    = Ok (false, 0)) by (by vm_compute).
  rewrite Hm in Hl. destruct (make_partition_spec KVTester.leads Panic cfg false 0 Hl) as (p1 & p2 & Hp & H1 & _ & H2 & _);
    [rewrite Hn; lia..|]. exists cfg, p1, p2. rewrite Hn in H1. by split_and!.
Defined.

(** A clerk that reaches servers 0 and 2. *)
Lemma makeClient_spec_witness : ∃ cfg cfg' handles, make_config kstart 3 false (wnames 3) = Ok cfg ∧
  makeClient cfg 7 (wnames 3 3) (λ _, 0) [0; 2] = Ok (cfg', handles) ∧ enabled (g_net cfg') !! NInt 1010 = Some false.
Proof.
  destruct kv_tester as (cfg & Hm & Hwf & Hn & Hnew).
  destruct (makeClient_spec cfg 7 (wnames 3 3) (λ _, 0) [0; 2]) as (cfg' & handles & Hmk & _ & _ & Hen & _).
  - rewrite Hn. split; [done|]. split; [apply wnames_nodup|exact Hnew].
  - intros i. lia.
  - rewrite Hn. intros j [->|[->|[]%elem_of_nil]%elem_of_cons]%elem_of_cons; lia.
  - exists cfg, cfg', handles. split; [done|]. split; [done|]. apply (Hen 1 (NInt 1010)). done.
Defined.

(** Server 1 is shut down and started again. *)
Lemma service_restart_witness : ∃ cfg cfg1 cfg2, make_config kstart 3 false (wnames 3) = Ok cfg ∧
  ShutdownServer cfg 1 = Ok cfg1 ∧ StartServer kstart cfg1 1 (wnames 3 3) = Ok cfg2 ∧ linked cfg2 0 1 = Some false.
Proof.
  destruct kv_tester as (cfg & Hm & Hwf & Hn & Hnew).
  assert (∃ srv, kstart (g_n cfg) (Z.of_nat 1) (handed cfg 1) = Ok srv) as [srv Hsrv].
  { assert (Hc : match make_config kstart 3 false (wnames 3) with Ok cfg => Some (handed cfg 1) | Panic => None end
      = Some Persister.MakePersister) by (by vm_compute).
    rewrite Hm in Hc. injection Hc as ->. rewrite Hn. unfold kstart, KVTester.start, StartKVServer. rewrite Make_fresh. by eexists. }
  destruct (service_restart kstart cfg 1 (wnames 3 3) srv) as (cfg1 & cfg2 & H1 & H2 & _ & _ & _ & _ & Hl); [done|lia| |done|].
  { rewrite Hn. split; [done|]. split; [apply wnames_nodup|exact Hnew]. }
  exists cfg, cfg1, cfg2. split_and!; [done..|]. apply Hl. lia.
Defined.
