(* ===== verification/ShardHarness.v ===== *)
(** * The tester of the sharded service (src/shardkv/config.go)

    Three controllers, three groups of [n] servers, and clerks, all on one
    network.  A group is a record as in the source; persisters are objects of a
    heap ([Harness]); random names are arguments.  [make_end] is the function
    that servers and clerks are given to reach other groups.

    Theorems: server names are distinct; a shutdown disables the ends that the
    tester gave the server, removes the server and keeps what it persisted, but
    leaves the ends it made itself alone; groups join under the names their
    servers have on the network; and the sizes of two tables restrict the tester
    to groups of exactly three servers. *)

From stdpp Require Import base list gmap sets strings pretty.
From Stdlib Require Import ZArith Lia Ascii.
From S2P Require Import Prelude Runes RaftLog RaftCore LabRPC Harness ShardConfig ShardCtrler ShardKV.

(** ** Names *)

Definition ctrlername (i : nat) : string := String.append "ctrler" (Itoa (Z.of_nat i)).

Definition servername (gid : Z) (i : nat) : string :=
  String.append "server-" (String.append (Itoa gid) (String.append "-" (Itoa (Z.of_nat i)))).

Section ShardHarness.
Context `{!Gob (PState SkOp), !Gob SkSnapshot, !Gob (PState ScOp)}.

Record group : Type := mkGroup {
  gr_gid : Z;
  gr_servers : list (option ShardKV);
  gr_saved : list (option nat);
  gr_endnames : EndNames;
  gr_mendnames : EndNames;
}.

Record sconfig : Type := mkSconfig {
  s_net : Net;
  s_nctrlers : nat;
  s_ctrlerservers : list (option ShardCtrler);
  s_n : nat;
  s_groups : list group;
  s_clerks : gmap nat (list NetName);
  s_nextClientId : Z;
  s_maxraftstate : Z;
  s_heap : PHeap;
  s_nsrv : nat;
}.

Implicit Types (cfg : sconfig) (gg : group).

Definition s_set_net net cfg : sconfig :=
  mkSconfig net (s_nctrlers cfg) (s_ctrlerservers cfg) (s_n cfg) (s_groups cfg) (s_clerks cfg) (s_nextClientId cfg)
    (s_maxraftstate cfg) (s_heap cfg) (s_nsrv cfg).
Definition s_set_ctrlers l cfg : sconfig :=
  mkSconfig (s_net cfg) (s_nctrlers cfg) l (s_n cfg) (s_groups cfg) (s_clerks cfg) (s_nextClientId cfg)
    (s_maxraftstate cfg) (s_heap cfg) (s_nsrv cfg).
Definition s_set_groups l cfg : sconfig :=
  mkSconfig (s_net cfg) (s_nctrlers cfg) (s_ctrlerservers cfg) (s_n cfg) l (s_clerks cfg) (s_nextClientId cfg)
    (s_maxraftstate cfg) (s_heap cfg) (s_nsrv cfg).
Definition s_set_clerks cl id cfg : sconfig :=
  mkSconfig (s_net cfg) (s_nctrlers cfg) (s_ctrlerservers cfg) (s_n cfg) (s_groups cfg) cl id
    (s_maxraftstate cfg) (s_heap cfg) (s_nsrv cfg).
Definition s_set_heap h cfg : sconfig :=
  mkSconfig (s_net cfg) (s_nctrlers cfg) (s_ctrlerservers cfg) (s_n cfg) (s_groups cfg) (s_clerks cfg) (s_nextClientId cfg)
    (s_maxraftstate cfg) h (s_nsrv cfg).

(** [cfg.net.AddServer(name, srv)] with a new server object *)
Definition s_add_server (name : string) cfg : sconfig :=
  mkSconfig (AddServer (s_net cfg) (NStr name) (s_nsrv cfg)) (s_nctrlers cfg) (s_ctrlerservers cfg) (s_n cfg) (s_groups cfg)
    (s_clerks cfg) (s_nextClientId cfg) (s_maxraftstate cfg) (s_heap cfg) (S (s_nsrv cfg)).

Definition gr_set_servers l gg : group := mkGroup (gr_gid gg) l (gr_saved gg) (gr_endnames gg) (gr_mendnames gg).
Definition gr_set_saved l gg : group := mkGroup (gr_gid gg) (gr_servers gg) l (gr_endnames gg) (gr_mendnames gg).
Definition gr_set_endnames l gg : group := mkGroup (gr_gid gg) (gr_servers gg) (gr_saved gg) l (gr_mendnames gg).
Definition gr_set_mendnames l gg : group := mkGroup (gr_gid gg) (gr_servers gg) (gr_saved gg) (gr_endnames gg) l.

(** Ends that work from the start: [MakeEnd], [Connect], [Enable]. *)
Definition makeLiveEnds (net : Net) (names : list (NetName * NetName)) : Res Net :=
  foldM (λ net '(e, server), net ← MakeEnd net e; Ok (Enable (Connect net e server) e true)) net names.

(** The function given to servers and clerks. *)
Definition make_end (net : Net) (name : NetName) (servername : string) : Res Net :=
  makeLiveEnds net [(name, NStr servername)].

Definition ctrlers cfg : list NetName := NStr ∘ ctrlername <$> seq 0 (s_nctrlers cfg).

(** ** Clerks *)

(** The slice of names has one element per server of a group, and is filled
    with one per controller. *)
Definition makeClient cfg (ck : nat) (names : list NetName) : Res sconfig :=
  '(net, endnames) ← foldM (λ '(net, endnames) '(j, (e, server)),
      endnames ← put_ endnames j e;
      net ← makeLiveEnds net [(e, server)];
      Ok (net, endnames))
    (s_net cfg, replicate (s_n cfg) (NStr EmptyString)) (imap pair (zip names (ctrlers cfg)));
  Ok (s_set_clerks (<[ck := endnames]> (s_clerks cfg)) (s_nextClientId cfg + 1) (s_set_net net cfg)).

Definition deleteClient cfg (ck : nat) : sconfig := s_set_clerks (delete ck (s_clerks cfg)) (s_nextClientId cfg) cfg.

(** ** Servers *)

(** [gg.saved[i] = p], with a new object [p]. *)
Definition gr_save cfg gg (i : nat) (p : Persister) : Res (sconfig * group) :=
  let '(a, heap) := new_ (s_heap cfg) p in
  saved ← put_ (gr_saved gg) i (Some a);
  Ok (s_set_heap heap cfg, gr_set_saved saved gg).

(** Shutdown i'th server of gi'th group, by isolating it *)
Definition ShutdownServer cfg (gi i : nat) : Res sconfig :=
  gg ← at_ (s_groups cfg) gi;
  net ← foldM (λ net j, name ← endname (gr_endnames gg) i j; Ok (Enable net name false))
          (s_net cfg) (seq 0 (length (gr_servers gg)));
  mnames ← at_ (gr_mendnames gg) i;
  net ← foldM (λ net name, Ok (Enable net name false)) net (default [] mnames);
  let cfg := s_set_net (DeleteServer net (NStr (servername (gr_gid gg) i))) cfg in
  sv ← at_ (gr_saved gg) i;
  '(cfg, gg) ← match sv with
               | Some a => p ← at_ (s_heap cfg) a; gr_save cfg gg i (Persister.Copy p)
               | None => Ok (cfg, gg)
               end;
  kv ← at_ (gr_servers gg) i;
  gg ← match kv with
       | Some _ => servers ← put_ (gr_servers gg) i None; Ok (gr_set_servers servers gg)
       | None => Ok gg
       end;
  groups ← put_ (s_groups cfg) gi gg;
  Ok (s_set_groups groups cfg).

Definition ShutdownGroup cfg (gi : nat) : Res sconfig :=
  foldM (λ cfg i, ShutdownServer cfg gi i) cfg (seq 0 (s_n cfg)).

(** start i'th server in gi'th group; [names] and [mnames] are the random names
    of its ends, [random] and [now] what the server draws and reads *)
Definition StartServer cfg (gi i : nat) (names mnames : list NetName) (random now : Z) : Res sconfig :=
  gg ← at_ (s_groups cfg) gi;
  endnames ← put_ (gr_endnames gg) i (Some names);
  let gg := gr_set_endnames endnames gg in
  net ← makeLiveEnds (s_net cfg) (zip names (NStr ∘ servername (gr_gid gg) <$> seq 0 (s_n cfg)));
  mendnames ← put_ (gr_mendnames gg) i (Some mnames);
  let gg := gr_set_mendnames mendnames gg in
  net ← makeLiveEnds net (zip mnames (ctrlers cfg));
  let cfg := s_set_net net cfg in
  sv ← at_ (gr_saved gg) i;
  '(cfg, gg) ← match sv with
               | Some a => p ← at_ (s_heap cfg) a; gr_save cfg gg i (Persister.Copy p)
               | None => gr_save cfg gg i Persister.MakePersister
               end;
  sv ← at_ (gr_saved gg) i;
  match sv with
  | Some a =>
      p ← at_ (s_heap cfg) a;
      kv ← sk_StartServer (s_n cfg) (Z.of_nat i) p (s_maxraftstate cfg) (gr_gid gg) random now;
      servers ← put_ (gr_servers gg) i (Some kv);
      groups ← put_ (s_groups cfg) gi (gr_set_servers servers gg);
      Ok (s_add_server (servername (gr_gid gg) i) (s_set_groups groups cfg))
  | None => Panic
  end.

(** [names], [mnames] by server *)
Definition StartGroup cfg (gi : nat) (names mnames : nat → list NetName) (random now : Z) : Res sconfig :=
  foldM (λ cfg i, StartServer cfg gi i (names i) (mnames i) random now) cfg (seq 0 (s_n cfg)).

Definition StartCtrlerserver cfg (i : nat) (names : list NetName) (now : Z) : Res sconfig :=
  net ← makeLiveEnds (s_net cfg) (zip names (ctrlers cfg));
  sc ← sc_StartServer (s_nctrlers cfg) (Z.of_nat i) Persister.MakePersister now;
  l ← put_ (s_ctrlerservers cfg) i (Some sc);
  Ok (s_add_server (ctrlername i) (s_set_ctrlers l (s_set_net net cfg))).

(** The ends of a clerk of the controller. *)
Definition shardclerk cfg (names : list NetName) : Res sconfig :=
  net ← makeLiveEnds (s_net cfg) (zip names (ctrlers cfg));
  Ok (s_set_net net cfg).

(** ** Configurations *)

(** The argument of the clerk's [Join]. *)
Definition joinm cfg (gis : list nat) : Res (gmap Z (list string)) :=
  foldM (λ m g, gg ← at_ (s_groups cfg) g;
    Ok (<[gr_gid gg := servername (gr_gid gg) <$> seq 0 (s_n cfg)]> m)) ∅ gis.
Definition join cfg (gi : nat) : Res (gmap Z (list string)) := joinm cfg [gi].

(** The argument of [Leave]. *)
Definition leavem cfg (gis : list nat) : Res (list Z) :=
  foldM (λ gids g, gg ← at_ (s_groups cfg) g; Ok (gids ++ [gr_gid gg])) [] gis.
Definition leave cfg (gi : nat) : Res (list Z) := leavem cfg [gi].

(** ** The rest *)

(** check that no server's log is too big. *)
Definition checklogs cfg : Res unit :=
  foldM (λ _ gg, foldM (λ _ i,
    sv ← at_ (gr_saved gg) i;
    match sv with
    | Some a =>
        p ← at_ (s_heap cfg) a;
        let raft := Persister.RaftStateSize p in
        let snap := zlen (Persister.ReadSnapshot p) in
        if bool_decide (s_maxraftstate cfg >= 0)%Z && bool_decide (raft > 8 * s_maxraftstate cfg)%Z then Panic
        else if bool_decide (s_maxraftstate cfg < 0)%Z && bool_decide (snap > 0)%Z then Panic
        else Ok tt
    | None => Panic
    end) tt (seq 0 (s_n cfg))) tt (s_groups cfg).

Definition cleanup cfg : Res sconfig :=
  cfg ← foldM ShutdownGroup cfg (seq 0 (length (s_groups cfg)));
  let l := map (option_map sc_Kill) (s_ctrlerservers cfg) in
  net ← Cleanup (s_net cfg);
  Ok (s_set_net net (s_set_ctrlers l cfg)).

Definition emptyGroup (n nctrlers gi : nat) : group :=
  mkGroup (100 + Z.of_nat gi) (replicate n None) (replicate n None) (replicate n None) (replicate nctrlers None).

(** The random names: [cnames i] of controller [i], [knames] of the clerk of the
    controllers, [names gi i] and [mnames gi i] of server [i] of group [gi]. *)
Definition make_config (n : nat) (unreliable : bool) (maxraftstate random now : Z) (cnames : nat → list NetName)
    (knames : list NetName) (names mnames : nat → nat → list NetName) : Res sconfig :=
  let cfg := mkSconfig MakeNetwork 3 (replicate 3 None) n [] ∅ 0 maxraftstate [] 0 in
  cfg ← foldM (λ cfg i, StartCtrlerserver cfg i (cnames i) now) cfg (seq 0 3);
  cfg ← shardclerk cfg knames;
  cfg ← foldM (λ cfg gi, StartGroup (s_set_groups (s_groups cfg ++ [emptyGroup n 3 gi]) cfg) gi (names gi) (mnames gi) random now)
          cfg (seq 0 3);
  let cfg := s_set_clerks ∅ (Z.of_nat n + 1000) cfg in
  Ok (s_set_net (Reliable (s_net cfg) (negb unreliable)) cfg).

(** ** A shutdown *)

Lemma foldM_disable (net : Net) (l : list NetName) :
  foldM (λ net name, Ok (Enable net name false)) net l = Ok (enableAll net l false).
Proof. revert net. induction l as [|e l IH]; intros net; [done|]. simpl. by rewrite IH. Qed.

(** What a shutdown of a server does.  The ends that the tester gave the
    server, to its group and to the controllers, are disabled, the server is
    unknown to the network, and what it has persisted is kept in an object of
    its own for the next start.  No other end changes: those that the server
    made with [make_end] to talk to other groups keep working, so an old
    instance can still send over them. *)
Theorem shutdown_spec cfg gi i gg names mnames a p :
  s_groups cfg !! gi = Some gg → gr_endnames gg !! i = Some (Some names) → length names = length (gr_servers gg) →
  gr_mendnames gg !! i = Some (Some mnames) → gr_saved gg !! i = Some (Some a) → s_heap cfg !! a = Some p →
  i < length (gr_servers gg) →
  ∃ cfg' gg' a', ShutdownServer cfg gi i = Ok cfg' ∧ s_groups cfg' !! gi = Some gg' ∧
    gr_servers gg' !! i = Some None ∧ gr_saved gg' !! i = Some (Some a') ∧ a' ≠ a ∧ s_heap cfg' !! a' = Some p ∧
    servers (s_net cfg') !! NStr (servername (gr_gid gg) i) = Some None ∧
    ∀ e, enabled (s_net cfg') !! e = if decide (e ∈ names ++ mnames) then Some false else enabled (s_net cfg) !! e.
Proof.
  intros Hg Hn Hlen Hm Hs Hp Hi. unfold ShutdownServer. rewrite (at_Some _ _ _ Hg). res_simpl.
  rewrite (loop_enable _ (λ j, names !! j) false).
  2:{ intros net j [_ Hj]%elem_of_seq. destruct (lookup_lt_is_Some_2 names j) as [e He]; [lia|].
      assert (endname (gr_endnames gg) i j = Ok e) as -> by (apply endname_slot; by exists names). by rewrite He. }
  res_simpl. rewrite (at_Some _ _ _ Hm). res_simpl. cbn [default from_option id]. rewrite foldM_disable. res_simpl.
  rewrite (at_Some _ _ _ Hs). res_simpl. cbn [s_heap s_set_net]. rewrite (at_Some _ _ _ Hp). res_simpl.
  unfold gr_save. cbn [new_]. assert (Hls : i < length (gr_saved gg)) by (by eapply lookup_lt_Some).
  rewrite put_Ok by done. res_simpl. cbn [gr_servers gr_set_saved].
  destruct (lookup_lt_is_Some_2 (gr_servers gg) i Hi) as [kv Hkv]. rewrite (at_Some _ _ _ Hkv). res_simpl.
  assert (Hla : a < length (s_heap cfg)) by (by eapply lookup_lt_Some).
  assert (Hlg : gi < length (s_groups cfg)) by (by eapply lookup_lt_Some).
  assert (Hsave : <[i := Some (length (s_heap cfg))]> (gr_saved gg) !! i = Some (Some (length (s_heap cfg)))) by (by apply list_lookup_insert_eq).
  assert (Hheap : (s_heap cfg ++ [Persister.Copy p]) !! length (s_heap cfg) = Some p).
  { rewrite lookup_app_r, Nat.sub_diag by done. simpl. by destruct p. }
  assert (Hen : ∀ e, enabled (enableAll (enableAll (s_net cfg) (omap (λ j, names !! j) (seq 0 (length (gr_servers gg)))) false) mnames false) !! e
      = if decide (e ∈ names ++ mnames) then Some false else enabled (s_net cfg) !! e).
  { intros e. rewrite !enableAll_enabled.
    assert (He : e ∈ omap (λ j, names !! j) (seq 0 (length (gr_servers gg))) ↔ e ∈ names).
    { rewrite list_elem_of_omap. split; [intros (j & _ & ?); by eapply list_elem_of_lookup_2|].
      intros [j Hj]%list_elem_of_lookup. exists j. rewrite elem_of_seq. split; [|done]. apply lookup_lt_Some in Hj. lia. }
    repeat case_decide; rewrite ?elem_of_app in *; naive_solver. }
  destruct kv as [kv|]; [rewrite put_Ok by done|]; res_simpl; rewrite put_Ok by done; res_simpl; eexists _, _, (length (s_heap cfg));
    (split; [done|]); (split; [simpl; by apply list_lookup_insert_eq|]); simpl; split_and!;
    try done; try lia; try (by apply list_lookup_insert_eq); by rewrite lookup_insert_eq.
Qed.

(** ** Groups of three *)

(** If a loop returns, each pass did. *)
Lemma foldM_passes {A B} (f : B → A → Res B) (P : B → Prop) (Q : A → Prop) (l : list A) b b' :
  P b → (∀ b x b', P b → f b x = Ok b' → P b' ∧ Q x) → foldM f b l = Ok b' → P b' ∧ ∀ x, x ∈ l → Q x.
Proof.
  intros Hb Hf. revert b Hb. induction l as [|x l IH]; intros b Hb H; [simplify_eq/=; split; [done|by intros ? ?%elem_of_nil]|].
  cbn [foldM] in H. destruct (f b x) as [b1|] eqn:E; [|done]. res_simpl. destruct (Hf _ _ _ Hb E) as [Hb1 Hx].
  destruct (IH b1 Hb1 H) as [Hb' Hl]. split; [done|]. intros y [->|?]%elem_of_cons; auto.
Qed.

(** The number of groups and the table of controller ends of a group. *)
Definition table cfg (gi k : nat) : Prop := ∃ gg, s_groups cfg !! gi = Some gg ∧ length (gr_mendnames gg) = k.

Lemma gr_save_inv cfg gg i p cfg' gg' :
  gr_save cfg gg i p = Ok (cfg', gg') → s_groups cfg' = s_groups cfg ∧ s_n cfg' = s_n cfg ∧ s_nctrlers cfg' = s_nctrlers cfg ∧
    gr_mendnames gg' = gr_mendnames gg.
Proof. unfold gr_save. cbn [new_]. intros H. res_inv. done. Qed.

Lemma StartServer_inv cfg gi i names mnames random now cfg' k :
  table cfg gi k → StartServer cfg gi i names mnames random now = Ok cfg' →
  i < k ∧ table cfg' gi k ∧ length (s_groups cfg') = length (s_groups cfg) ∧ s_n cfg' = s_n cfg ∧ s_nctrlers cfg' = s_nctrlers cfg.
Proof.
  intros (gg & Hg & Hk) H. unfold StartServer in H. rewrite (at_Some _ _ _ Hg) in H.
  res_simpl. destruct (put_ (gr_endnames gg) i (Some names)) as [en|]; [|done]. res_simpl.
  destruct (makeLiveEnds (s_net cfg) _) as [net|]; [|done]. res_simpl. cbn [gr_mendnames gr_set_endnames] in H.
  destruct (put_ (gr_mendnames gg) i (Some mnames)) as [men|] eqn:Emen; [|done]. res_simpl.
  unfold put_ in Emen. case_bool_decide as Hi; [|done]. injection Emen as <-.
  destruct (makeLiveEnds net _) as [net2|]; [|done]. res_simpl.
  destruct (at_ (gr_saved _) i) as [sv|]; [|done]. res_simpl.
  match goal with H : mbind _ ?m = _ |- _ => destruct m as [[cfg1 gg1]|] eqn:Esave; [|done] end. res_simpl.
  assert (Hsave : s_groups cfg1 = s_groups cfg ∧ s_n cfg1 = s_n cfg ∧ s_nctrlers cfg1 = s_nctrlers cfg ∧ length (gr_mendnames gg1) = k).
  { destruct sv as [a|]; [destruct (at_ _ a) as [p|]; [|done]; res_simpl|]; apply gr_save_inv in Esave as (-> & -> & -> & ->);
      simpl; by rewrite length_insert. }
  destruct Hsave as (Eg & En & Ec & Em).
  destruct (at_ (gr_saved gg1) i) as [[a|]|]; res_simpl; [|done..].
  destruct (at_ (s_heap cfg1) a) as [p|]; res_simpl; [|done].
  destruct (sk_StartServer _ _ _ _ _ _ _) as [kv|]; res_simpl; [|done].
  destruct (put_ (gr_servers gg1) i (Some kv)) as [srvs|]; res_simpl; [|done]. unfold put_ in H. case_bool_decide as Hgi; [|done].
  res_simpl. simplify_eq. simpl in *. split_and!; try congruence.
  - eexists. split; [simpl; by apply list_lookup_insert_eq|]. done.
  - simpl. by rewrite length_insert, Eg.
Qed.

Lemma StartGroup_inv cfg gi names mnames random now cfg' k :
  table cfg gi k → StartGroup cfg gi names mnames random now = Ok cfg' →
  s_n cfg ≤ k ∧ length (s_groups cfg') = length (s_groups cfg) ∧ s_n cfg' = s_n cfg ∧ s_nctrlers cfg' = s_nctrlers cfg.
Proof.
  intros Ht H. unfold StartGroup in H.
  apply (foldM_passes _ (λ c, table c gi k ∧ length (s_groups c) = length (s_groups cfg) ∧ s_n c = s_n cfg ∧ s_nctrlers c = s_nctrlers cfg)
           (λ i, i < k)) in H as [(_ & ? & ? & ?) Hall]; [|done|].
  - split_and!; try done. destruct (decide (s_n cfg ≤ k)) as [|Hgt]; [done|]. specialize (Hall k).
    rewrite elem_of_seq in Hall. lia.
  - intros c i c' (Ht' & Hl & Hn & Hc) Hst. destruct (StartServer_inv _ _ _ _ _ _ _ _ _ Ht' Hst) as (? & ? & ? & ? & ?).
    split_and!; try done; congruence.
Qed.

Lemma StartCtrlerserver_inv cfg i names now cfg' :
  StartCtrlerserver cfg i names now = Ok cfg' →
  s_groups cfg' = s_groups cfg ∧ s_n cfg' = s_n cfg ∧ s_nctrlers cfg' = s_nctrlers cfg.
Proof. unfold StartCtrlerserver. intros H. res_inv. done. Qed.

Lemma make_config_inv n unrel max random now cnames knames names mnames cfg :
  make_config n unrel max random now cnames knames names mnames = Ok cfg → n ≤ 3 ∧ s_n cfg = n ∧ s_nctrlers cfg = 3.
Proof.
  unfold make_config. intros H. set (cfg0 := mkSconfig MakeNetwork 3 _ n [] ∅ 0 max [] 0) in H.
  destruct (foldM _ cfg0 _) as [cfg1|] eqn:E1; [|done]. res_simpl.
  apply (foldM_passes _ (λ c, s_groups c = [] ∧ s_n c = n ∧ s_nctrlers c = 3) (λ _, True)) in E1 as [(Hg1 & Hn1 & Hc1) _]; [|done|].
  2:{ intros c i c' (? & ? & ?) Hst%StartCtrlerserver_inv. naive_solver congruence. }
  destruct (shardclerk cfg1 knames) as [cfg2|] eqn:E2; [|done]. res_simpl.
  assert (H2 : s_groups cfg2 = [] ∧ s_n cfg2 = n ∧ s_nctrlers cfg2 = 3) by (unfold shardclerk in E2; res_inv; done).
  destruct H2 as (Hg2 & Hn2 & Hc2). clear E2.
  assert (Hone : ∀ c gi c', length (s_groups c) = gi → s_n c = n → s_nctrlers c = 3 →
    StartGroup (s_set_groups (s_groups c ++ [emptyGroup n 3 gi]) c) gi (names gi) (mnames gi) random now = Ok c' →
    n ≤ 3 ∧ length (s_groups c') = S gi ∧ s_n c' = n ∧ s_nctrlers c' = 3).
  { intros c gi c' Hl Hn Hc Hst. apply (StartGroup_inv _ _ _ _ _ _ _ 3) in Hst as (Hle & Hl' & Hn' & Hc').
    - simpl in *. rewrite length_app in Hl'. simpl in Hl'. rewrite Hl', Hn', Hc', Hl, <-Hn. split_and!; [done|lia|done|done].
    - exists (emptyGroup n 3 gi). simpl. by rewrite <-Hl, lookup_app_r, Nat.sub_diag by done. }
  cbn [seq foldM] in H.
  destruct (StartGroup _ 0 _ _ _ _) as [c0|] eqn:E3; [|done]. res_simpl.
  apply Hone in E3 as (Hle & Hl3 & Hn3 & Hc3); [|by rewrite Hg2|done|done].
  destruct (StartGroup _ 1 _ _ _ _) as [c1|] eqn:E4; [|done]. res_simpl.
  apply Hone in E4 as (_ & Hl4 & Hn4 & Hc4); [|done..].
  destruct (StartGroup _ 2 _ _ _ _) as [c2|] eqn:E5; [|done]. res_simpl.
  apply Hone in E5 as (_ & Hl5 & Hn5 & Hc5); [|done..]. injection H as <-. done.
Qed.

Lemma makeClient_inv cfg ck names cfg' :
  length names = s_nctrlers cfg → makeClient cfg ck names = Ok cfg' → s_nctrlers cfg ≤ s_n cfg.
Proof.
  intros Hlen H. unfold makeClient in H. destruct (foldM _ _ _) as [[net en]|] eqn:E; [|done].
  apply (foldM_passes _ (λ '(_, en), length en = s_n cfg) (λ '(j, _), j < s_n cfg)) in E as [_ Hall].
  - destruct (decide (s_nctrlers cfg ≤ s_n cfg)) as [|Hgt]; [done|].
    assert (Hlz : length (zip names (ctrlers cfg)) = s_nctrlers cfg).
    { rewrite length_zip_with. unfold ctrlers. rewrite length_fmap, length_seq. lia. }
    destruct (lookup_lt_is_Some_2 (zip names (ctrlers cfg)) (s_n cfg)) as [x Hx]; [lia|].
    specialize (Hall (s_n cfg, x)). simpl in Hall. assert (s_n cfg < s_n cfg); [|lia]. apply Hall.
    apply list_elem_of_lookup. exists (s_n cfg). by rewrite list_lookup_imap, Hx.
  - by rewrite length_replicate.
  - intros [net1 en1] [j [e srv]] [net2 en2] Hl H1. unfold put_ in H1. case_bool_decide as Hj; [|done]. res_simpl.
    destruct (makeLiveEnds net1 _); [|done]. res_simpl. simplify_eq. rewrite length_insert. split; [done|lia].
Qed.

(** C40: groups have three servers.  [make_config] indexes a table of one row
    per controller by servers, and [makeClient] a table of one row per server by
    controllers; so if both return, the number of servers per group that the
    tester was made for is the number of controllers. *)
Theorem groups_of_three n unrel max random now cnames knames names mnames cfg ck clnames cfg' :
  make_config n unrel max random now cnames knames names mnames = Ok cfg →
  length clnames = s_nctrlers cfg → makeClient cfg ck clnames = Ok cfg' → n = 3.
Proof.
  intros (Hle & Hn & Hc)%make_config_inv Hlen Hm%makeClient_inv; [lia|done].
Qed.

(** ** From a configuration to a server *)

Lemma StartServer_added cfg gi i names mnames random now cfg' :
  StartServer cfg gi i names mnames random now = Ok cfg' →
  ∃ gg, s_groups cfg' !! gi = Some gg ∧ servers (s_net cfg') !! NStr (servername (gr_gid gg) i) = Some (Some (s_nsrv cfg)).
Proof.
  unfold StartServer. intros H. res_inv. destruct x5 as [cfg1 gg1].
  assert (Hns : s_nsrv cfg1 = s_nsrv cfg).
  { assert (Hs : ∀ c g k p c' g', gr_save c g k p = Ok (c', g') → s_nsrv c' = s_nsrv c)
      by (intros c g k p c' g' Hs; unfold gr_save in Hs; cbn [new_] in Hs; by res_inv).
    destruct x4; res_inv; by apply Hs in E5. }
  res_inv. destruct x5 as [a|]; [|done]. res_inv. rename x8 into groups.
  match goal with E : put_ (s_groups _) gi _ = Ok _ |- _ => unfold put_ in E; case_bool_decide; [|done]; injection E as <- end.
  eexists. split; [simpl; by apply list_lookup_insert_eq|]. simpl. by rewrite lookup_insert_eq, Hns.
Qed.

(** The way from a configuration to a server.  Once server [i] of a group
    is started, the list of names under which the tester lets the group join
    has a name at position [i], and a request on an end that a clerk or another
    group makes with [make_end] for this name is sent on to that very server
    object. *)
Theorem join_reaches cfg gi i names mnames random now cfg' e (req : reqMsg NetName) :
  StartServer cfg gi i names mnames random now = Ok cfg' → i < s_n cfg' → e ∉ ends (s_net cfg') → rm_endname req = e →
  ∃ gid l name net t, join cfg' gi = Ok {[ gid := l ]} ∧ l !! i = Some name ∧ make_end (s_net cfg') e name = Ok net ∧
    proc_start net req = AtDelay t ∧ tg_servername t = NStr name ∧ tg_server t = s_nsrv cfg.
Proof.
  intros (gg & Hg & Hs)%StartServer_added Hi He <-. exists (gr_gid gg), (servername (gr_gid gg) <$> seq 0 (s_n cfg')), (servername (gr_gid gg) i).
  unfold join, joinm, make_end, makeLiveEnds. cbn [foldM]. rewrite (at_Some _ _ _ Hg). res_simpl.
  unfold MakeEnd. rewrite bool_decide_false by done. res_simpl. do 2 eexists. split; [done|].
  split; [by rewrite list_lookup_fmap, lookup_seq_lt|]. split; [done|].
  unfold proc_start, readEndnameInfo. simpl. rewrite !lookup_insert_eq. simpl. rewrite Hs. done.
Qed.
End ShardHarness.

(** ** Names are distinct *)

Fixpoint no_dash (s : string) : Prop :=
  match s with EmptyString => True | String a s => a ≠ "-"%char ∧ no_dash s end.

Lemma pretty_N_go_no_dash x s : no_dash s → no_dash (pretty.pretty_N_go x s).
Proof.
  revert s. induction x as [x IH] using (well_founded_induction N.lt_wf_0). intros s Hs. destruct (decide (0 < x)%N) as [Hx|Hx].
  - rewrite pretty.pretty_N_go_step by done. apply IH; [by apply N.div_lt|]. split; [|done].
    unfold pretty.pretty_N_char. by repeat case_match.
  - assert (x = 0)%N as -> by lia. by rewrite pretty.pretty_N_go_0.
Qed.

Lemma Itoa_no_dash z : (0 ≤ z)%Z → no_dash (Itoa z).
Proof.
  intros Hz. unfold Itoa. destruct z as [|p|p]; [by split|..|lia].
  change (no_dash (pretty (N.pos p))). unfold pretty, pretty.pretty_N. rewrite decide_False by done. by apply pretty_N_go_no_dash.
Qed.

(** The text before the first dash. *)
Lemma no_dash_split a b c d :
  no_dash a → no_dash c → String.append a (String "-" b) = String.append c (String "-" d) → a = c ∧ b = d.
Proof.
  revert c. induction a as [|x a IH]; intros [|y c] Ha Hc H; rewrite ?append_cons in H.
  - by injection H as ->.
  - injection H as Hy _. subst y. by destruct Hc.
  - injection H as Hx _. subst x. by destruct Ha.
  - injection H as -> H. destruct Ha, Hc. by destruct (IH c) as [-> ->].
Qed.

Lemma append_inv a b c : String.append a b = String.append a c → b = c.
Proof. induction a as [|x a IH]; [done|]. rewrite !append_cons. intros H. injection H as H. auto. Qed.

Lemma servername_inj gid1 i1 gid2 i2 :
  (0 ≤ gid1)%Z → (0 ≤ gid2)%Z → servername gid1 i1 = servername gid2 i2 → gid1 = gid2 ∧ i1 = i2.
Proof.
  intros H1 H2 H. unfold servername in H. apply append_inv in H.
  apply no_dash_split in H as [Hg Hi]; [|by apply Itoa_no_dash..]. unfold Itoa in *.
  apply (inj pretty) in Hg. apply (inj pretty) in Hi. split; [done|lia].
Qed.
