(* ===== verification/ShardHarnessWitness.v ===== *)
(** * A concrete tester of the sharded service

    Three controllers and three groups of three servers, made by [make_config],
    and the properties of [ShardHarness] there. *)

From stdpp Require Import base list gmap sets strings countable.
From Stdlib Require Import ZArith Lia.
From S2P Require Import Prelude Runes RaftLog RaftCore LabRPC Harness HarnessWitness ShardConfig ShardCtrler ShardKV ShardHarness.

#[local] Instance gobSc : Gob (PState ScOp) := {| gob_encode _ := [Byte.x00]; gob_decode _ := None |}.
#[local] Instance gobSk : Gob (PState SkOp) := {| gob_encode _ := [Byte.x00]; gob_decode _ := None |}.
#[local] Instance gobSnap : Gob SkSnapshot := {| gob_encode _ := [Byte.x00]; gob_decode _ := None |}.

(** The random names: twelve for the controllers and their clerk, then six for
    each server. *)
Definition names_ (gi i : nat) : list NetName := wnames 3 (10 + 2 * (3 * gi + i)).
Definition mnames_ (gi i : nat) : list NetName := wnames 3 (11 + 2 * (3 * gi + i)).

Abbreviation sw := (make_config 3 false (-1) 0 0 (wnames 3) (wnames 3 3) names_ mnames_).

(** A fact that can be computed holds of the tester. *)
Definition holds (check : sconfig → bool) : bool := match sw with Ok cfg => check cfg | Panic => false end.

Lemma holds_made check : holds check = true → ∃ cfg, sw = Ok cfg ∧ check cfg = true.
Proof. unfold holds. destruct sw as [cfg|]; [|done]. intros H. by exists cfg. Qed.

Definition is_ok {A} (r : Res A) : bool := match r with Ok _ => true | Panic => false end.

Lemma groups_of_three_witness : ∃ cfg cfg', sw = Ok cfg ∧ makeClient cfg 7 (wnames 3 40) = Ok cfg' ∧ 3 = 3.
Proof.
  destruct (holds_made (λ cfg, bool_decide (length (wnames 3 40) = s_nctrlers cfg) && is_ok (makeClient cfg 7 (wnames 3 40)))) as (cfg & Hsw & Hc); [by vm_compute|].
  apply andb_true_iff in Hc as [Hn%bool_decide_eq_true Hc]. destruct (makeClient cfg 7 (wnames 3 40)) as [cfg'|] eqn:E; [|done].
  exists cfg, cfg'. split; [exact Hsw|]. split; [exact E|].
  exact (groups_of_three 3 false (-1) 0 0 (wnames 3) (wnames 3 3) names_ mnames_ cfg 7 (wnames 3 40) cfg' Hsw Hn E).
Defined.

(** Server 1 of group 0 is shut down. *)
Definition shutdown_ready (cfg : sconfig) : bool :=
  match s_groups cfg !! 0 with
  | Some gg =>
      match gr_endnames gg !! 1, gr_mendnames gg !! 1, gr_saved gg !! 1 with
      | Some (Some names), Some (Some _), Some (Some a) =>
          bool_decide (length names = length (gr_servers gg)) && bool_decide (is_Some (s_heap cfg !! a)) &&
          bool_decide (1 < length (gr_servers gg))
      | _, _, _ => false
      end
  | None => false
  end.

Lemma shutdown_spec_witness : ∃ cfg cfg', sw = Ok cfg ∧ ShutdownServer cfg 0 1 = Ok cfg' ∧
  ∃ gg', s_groups cfg' !! 0 = Some gg' ∧ gr_servers gg' !! 1 = Some None.
Proof.
  destruct (holds_made shutdown_ready) as (cfg & Hsw & Hc); [by vm_compute|]. unfold shutdown_ready in Hc.
  destruct (s_groups cfg !! 0) as [gg|] eqn:Hg; [|done].
  destruct (gr_endnames gg !! 1) as [[names|]|] eqn:Hn; [|done..].
  destruct (gr_mendnames gg !! 1) as [[mnames|]|] eqn:Hm; [|done..].
  destruct (gr_saved gg !! 1) as [[a|]|] eqn:Hs; [|done..].
  apply andb_true_iff in Hc as [[Hlen%bool_decide_eq_true [p Hp]%bool_decide_eq_true]%andb_true_iff Hi%bool_decide_eq_true].
  destruct (shutdown_spec cfg 0 1 gg names mnames a p Hg Hn Hlen Hm Hs Hp Hi) as (cfg' & gg' & a' & Hd & Hg' & Hd' & _).
  exists cfg, cfg'. split; [exact Hsw|]. split; [exact Hd|]. exists gg'. split; [exact Hg'|exact Hd'].
Defined.

(** Server 1 of group 0 is started again, and a clerk makes an end to it. *)
Lemma join_reaches_witness : ∃ cfg cfg' net t, sw = Ok cfg ∧ StartServer cfg 0 1 (wnames 3 50) (wnames 3 51) 0 0 = Ok cfg' ∧
  proc_start net (mkReqMsg (NInt 5000) "ShardKV.Get" "" []) = AtDelay t ∧ tg_server t = s_nsrv cfg.
Proof.
  destruct (holds_made (λ cfg, match StartServer cfg 0 1 (wnames 3 50) (wnames 3 51) 0 0 with
    | Ok cfg' => bool_decide (1 < s_n cfg') && bool_decide (NInt 5000 ∉ ends (s_net cfg')) | Panic => false end)) as (cfg & Hsw & Hc); [by vm_compute|].
  destruct (StartServer cfg 0 1 (wnames 3 50) (wnames 3 51) 0 0) as [cfg'|] eqn:E; [|done].
  apply andb_true_iff in Hc as [Hn%bool_decide_eq_true He%bool_decide_eq_true].
  destruct (join_reaches cfg 0 1 (wnames 3 50) (wnames 3 51) 0 0 cfg' (NInt 5000) (mkReqMsg (NInt 5000) "ShardKV.Get" "" []) E Hn He eq_refl)
    as (gid & l & name & net & t & _ & _ & _ & Hp & _ & Ht).
  exists cfg, cfg', net, t. split; [exact Hsw|]. split; [exact E|]. split; [exact Hp|exact Ht].
Defined.
